(* ===== verification/_CoqProject ===== *)
-Q . S2P
Prelude.v
BitUtils.v
Leb128.v
BitVector.v
BitString.v
SubtypeCheck.v
StatusWord.v
Utf.v
Double.v
HashSet.v
BitMemory.v
BitStream.v
BitTable.v
Locations.v
ParallelMove.v
ParallelMoveSwap.v
LockWord.v
WaitSet.v
Monitor.v
MonitorInv.v
MonitorSteps.v
MonitorFat.v
MonitorRun.v
MonitorLive.v
MonitorProgress.v
MachineWord.v
DivMagic.v
DivArm64.v
X86Machine.v
DivX86_64.v
DivX86.v
DivArm.v
Riscv64.v
Riscv64Imm.v
DivRiscv64.v
IndirectRefTable.v
