(* ===== verification/Prelude.v ===== *)
(** * A verification of core components of the Android Runtime (ART)

    ART loads Java classes from dex files, compiles their methods and runs
    them.  This library models self-contained parts of it on which the rest
    relies: the locks, wait sets and hash codes of objects, the classes' subtype
    labels and the global references of native code (runtime/), the parallel moves and the integer
    division of the optimizing compiler (compiler/optimizing/), the riscv64
    assembler (compiler/utils/riscv64/), the strings of dex files (libdexfile/)
    and the containers, bit tables and variable-length integers of libartbase.
    Paths are relative to src/.

    ** Conventions

    An integer of the code is a [Z]; arithmetic that can leave its type is
    reduced with [wrap]/[swrap] of this file.  Code that can abort ([CHECK],
    [DCHECK]) or reads and writes arrays runs in the option monad: [None] is a
    failed check or an access out of bounds, so a theorem that concludes
    [= Some _] excludes both.  A function that returns false or a null pointer
    returns an option or a boolean inside the monad.  Objects are records with
    the fields of the class, an operation takes the object and returns the new
    one.  Definitions have the names of the code; loop bodies that need a
    definition of their own end in [_loop].  Debug checks are always on, except
    that most helpers of [BitUtils] are total functions without the checks of
    bit_utils.h on their arguments.

    ** The files

    - [Prelude] (this file): machine integers, the checked monad with its
      [DCHECK] notation, arrays, counted loops and their invariant rule,
      [testbit] lemmas and the tactics and hint databases used throughout.
    - [BitUtils] (libartbase/base/bit_utils.h): counting, rounding, masks, bit
      fields, bit reversal.  Almost every other file uses its field lemmas.
    - [Leb128] (libartbase/base/leb128.h): decoders, checked decoders,
      encoders, update in place, backwards search.
    - [BitVector] (libartbase/base/bit_vector.{h,cc}): the expandable bit
      vector, its iterator, bit matrices.  The allocator is an argument.
    - [BitString] (libartbase/base/bit_string.h, bit_struct.h), [SubtypeCheck]
      (runtime/subtype_check*.h, runtime/mirror/class.cc) and [StatusWord]:
      a class carries a path from the root of the class tree packed as a bit
      string into its status word.  [BitString] is the packed string,
      [SubtypeCheck] the labels ([SubtypeCheckInfo]), the heap of classes and
      the operations of [SubtypeCheck] over it, [StatusWord] the interleaved
      execution of the compare-and-swap loops that write labels and statuses.
    - [Utf] (libdexfile/dex/utf.h, utf-inl.h, utf.cc): modified UTF-8.
    - [Double] and [HashSet] (libartbase/base/hash_set.h): the open-addressing
      hash set; [Double] is the part of binary64 arithmetic that the load
      factors need.  Hash, equality and empty-slot functions are arguments.
    - [BitMemory], [BitStream] (libartbase/base/bit_memory_region.h) and
      [BitTable] (libartbase/base/bit_table.h): regions of bits in a
      byte-addressed memory with inaccessible pages, readers and writers over
      them, and the tables that stack maps are stored in, each layer using the
      one before.
    - [Locations] (compiler/optimizing/locations.h, libartbase/base/bit_field.h),
      [ParallelMove] and [ParallelMoveSwap]
      (compiler/optimizing/parallel_move_resolver.cc): the one-word encoding of
      operands and the two resolvers that turn a parallel move into single
      moves, the first with the arm64 backend, whose scratch registers come
      from an argument standing for VIXL's scope of scratch registers.
    - [LockWord] (runtime/lock_word.h, lock_word-inl.h): the 32-bit word of an
      object that is a thin lock, the id of a monitor, a hash code or a
      forwarding address, with the collector's bits.  [WaitSet]: the linked
      lists of waiting threads of a monitor.  [Monitor] (runtime/monitor.cc,
      runtime/mirror/object.cc and the headers): the state of one object, its
      monitors and all threads, and one definition for every step between two
      accesses to shared state of [MonitorEnter], [MonitorExit], [Wait],
      [Notify], [IdentityHashCode], inflation and deflation; [perform] is a
      step of one thread or of the collector, [mrun] a run.  [MonitorInv] has
      the specification of a Java monitor and the invariant, [MonitorSteps]
      (lock words and inflation) and [MonitorFat] (installed monitors) show
      that every step keeps it, [MonitorRun] draws the conclusions for runs.
      [MonitorLive] and [MonitorProgress] do the same for the invariant that
      excludes deadlocks.

    - [MachineWord]: registers and words of the modelled processors.
      [DivMagic] (compiler/optimizing/code_generator_utils.{h,cc}): the magic
      numbers that replace a division by a multiplication, and Java's division.
      [DivArm64], [X86Machine] with [DivX86_64] and [DivX86], [DivArm] and
      [DivRiscv64] (compiler/optimizing/code_generator_{arm64,x86_64,x86,
      arm_vixl,riscv64}.cc): what the five code generators emit for [HDiv] and
      [HRem] of integers, as lists of instructions, and machines that run them.
      [DivArm] takes VIXL's test for encodable immediates as an argument, as
      [DivArm64] takes its pool of scratch registers.
    - [Riscv64] and [Riscv64Imm] (compiler/utils/riscv64/assembler_riscv64.{h,cc}):
      the encodings of the integer instructions with a decoder and a machine,
      the scratch registers, and [LoadImmediate].  [DivRiscv64] uses both, so
      its theorem is about the emitted words.

    - [IndirectRefTable] (runtime/indirect_reference_table.{h,cc,-inl.h}): the
      table of global and weak global JNI references.

    ** What the theorems show

    - Monitors.  The calls of any number of threads on an object, interleaved
      in any way with each other and with the collector, report the events of
      one Java monitor ([monitor_refines]); no check fails ([monitor_checks]);
      threads do not deadlock and notifications are not lost
      ([monitor_progress]); hash codes survive inflation and deflation
      ([hash_code_stable]), but for the race of [GetHashCode_race].
      [lock_word_roundtrip] is about the word itself.
    - Subtype labels.  In every heap reachable by the operations, the packed
      query agrees with the walk over superclasses whenever it answers
      ([IsSubtypeOf_correct]); the constants that compiled code embeds stay
      valid ([compiled_subtype_check]); the operations that assign labels
      reach the state they promise ([Ensure_correct]).  Concurrent writers of
      the shared word behave as writers of two registers
      ([status_word_linearizable]).
    - Parallel moves.  Both resolvers terminate, pass their checks and perform
      the parallel assignment ([parallel_move_correct], [swap_move_correct])
      when two operands overlap only if they are equal;
      [crossing_moves_lose_pending] is a run outside that condition in which
      the resolver without swaps loses a move.  [location_roundtrip] and
      [overlap_shares_storage], which leaves SIMD slots apart, justify reading
      locations as sets of registers and stack bytes; [scratch_register_free] is
      about scratch registers.
    - Division.  On each of the five architectures the generated code leaves
      Java's quotient or remainder for every dividend and non-zero divisor, does
      not fault and changes only the registers it asked for
      ([arm64_div_rem_correct], [x86_64_div_rem_correct], [x86_div_rem_correct],
      [arm_div_rem_correct], [riscv64_div_rem_correct]).
    - riscv64 assembler.  [riscv64_encoding_roundtrip] is about single
      instructions, [LoadImmediate_correct] about the sequences that load
      constants.
    - Global references.  The table is a finite map from references to objects
      ([global_table_refines]); a deleted reference is recognized through the
      next six additions ([stale_reference_detected]), but not across a [Trim]
      ([Trim_reuses_references]).
    - Containers.  Refinement of sequences of operations to lists and finite
      sets ([hash_set_refines_list], [bit_vector_refines_set]), the probing
      invariant ([Verify_no_errors]), the promise of [reserve] under rounding
      ([reserve_prevents_growth]), and the queries and bit matrices of
      [BitVector].
    - Encodings.  Round trips and bounds for LEB128, modified UTF-8 with all
      template options, bit streams and bit tables, and behaviour on arbitrary
      input for the decoders that promise it.
    - Bit memory and bit utilities.  Loads, stores and chunked traversals agree
      with bit-by-bit definitions at every alignment.

    ** Fuel

    Loops that are not structural take a fuel argument and fail with [None]
    when it runs out, and the theorems conclude [Some], so the fuel given is
    part of what they prove to be enough.  Cursor loops get
    the length of the buffer; the LEB128 encoders five rounds, a 32-bit value
    having at most five groups of seven bits; loops over superclasses the index
    of the class, since a superclass is created before its subclasses; probing
    and erasure in a hash set the number of buckets; the loop of [reserve] that
    makes up for rounding 100 turns, of which the error bounds of [Double] leave
    only a few; the iterator of a bit vector the number of its bits; the move
    resolvers one unit more than the number of moves, because a move is
    performed recursively only while it is not pending; the walks over a wait
    set the number of threads, each of which is in it at most once; the
    generation of a hash code one more turn, since a seed without hash bits is
    followed by one that has some; the search for a magic number 64 turns, one
    for each bit of the divisor's type; [LoadImmediate] one more than its
    [kMaxNumSllAddi] rounds; the machine that runs x86 code 60 jumps and
    instructions, more than any generated sequence has; the scans for holes in
    the table of global references its number of entries.

    ** Not modelled

    Class loading, garbage collection, the interpreter, JIT, verifier, JNI
    functions and local references, the compiler's graph and passes, the code
    generators for anything but parallel moves and integer division, the files
    ART reads and writes as a whole and all command-line tools: they need the
    managed heap, assembly, system calls or machine encodings that the sources
    do not define.  Inside the modelled files, printing ([Dump], [operator<<]),
    comparison operators generated by templates and compile-time layout
    assertions are left out.  Memory is sequentially consistent where operations
    interleave; weaker orderings of the atomic accesses are not distinguished.
    Monitors are those of a single object: mutexes, condition variables, the
    suspension of threads and the pool of monitors follow the contracts of their
    classes, collection uses read barriers, so that adding a monitor to the list
    does not wait, and tracing, contention logging, callbacks and pending
    exceptions do not appear. *)

From Stdlib Require Import ZArith Lia Bool Btauto.
From stdpp Require Import base numbers list option.

Local Open Scope Z_scope.

Declare Scope art_scope.
Delimit Scope art_scope with art.

(** ** Machine integers

    A [w]-bit integer is a [Z]; [wrap w] reduces to the unsigned range and
    [swrap w] to the two's complement range, which is what a conversion to
    [uintw_t] and [intw_t] does in the sources. *)

Definition wrap (w x : Z) : Z := x mod 2 ^ w.

Definition swrap (w x : Z) : Z := (x + 2 ^ (w - 1)) mod 2 ^ w - 2 ^ (w - 1).

Abbreviation u8 := (wrap 8).
Abbreviation u16 := (wrap 16).
Abbreviation u32 := (wrap 32).
Abbreviation u64 := (wrap 64).
Abbreviation s32 := (swrap 32).
Abbreviation s64 := (swrap 64).

(** [is_u w x]: [x] is a value of [uintw_t]; [is_s w x]: of [intw_t]. *)
Definition is_u (w x : Z) : Prop := 0 <= x < 2 ^ w.
Definition is_s (w x : Z) : Prop := - 2 ^ (w - 1) <= x < 2 ^ (w - 1).

#[global] Instance is_u_dec w x : Decision (is_u w x).
Proof. unfold is_u. apply _. Defined.
#[global] Instance is_s_dec w x : Decision (is_s w x).
Proof. unfold is_s. apply _. Defined.

(** ** Checked execution

    Code that the sources guard with [CHECK]/[DCHECK], or that reads and writes
    arrays, runs in the option monad: [None] is an aborted check or an access
    out of bounds, so a theorem that concludes [= Some _] states that neither
    happens. *)

Definition dcheck (b : bool) : option unit := if b then Some tt else None.

Notation "'DCHECK' b ; k" := (mbind (M := option) (fun _ : unit => k) (dcheck b))
  (at level 100, b at level 200, k at level 200, right associativity) : art_scope.

(** Array access with a [Z] index. *)
Definition aread {A} (l : list A) (i : Z) : option A :=
  if 0 <=? i then l !! Z.to_nat i else None.

Definition awrite {A} (l : list A) (i : Z) (v : A) : option (list A) :=
  if (0 <=? i) && (i <? Z.of_nat (length l)) then Some (<[Z.to_nat i := v]> l) else None.

Abbreviation zlength l := (Z.of_nat (length l)).

(** [for (j = i; j < i + n; j++) s = body(j, s)]. *)
Fixpoint for_loop {S} (n : nat) (i : Z) (body : Z -> S -> option S) (s : S) : option S :=
  match n with
  | O => Some s
  | Datatypes.S n' => s' ← body i s; for_loop n' (i + 1) body s'
  end.

(** ** Bit lemmas and the [bits] tactic *)

Lemma testbit_shiftl a n i : Z.testbit (Z.shiftl a n) i = (0 <=? i) && Z.testbit a (i - n).
Proof.
  destruct (Z.leb_spec 0 i); simpl.
  - by apply Z.shiftl_spec.
  - by rewrite Z.testbit_neg_r.
Qed.

Lemma testbit_shiftr a n i : Z.testbit (Z.shiftr a n) i = (0 <=? i) && Z.testbit a (i + n).
Proof.
  destruct (Z.leb_spec 0 i); simpl.
  - by apply Z.shiftr_spec.
  - by rewrite Z.testbit_neg_r.
Qed.

Lemma testbit_lnot a i : Z.testbit (Z.lnot a) i = (0 <=? i) && negb (Z.testbit a i).
Proof.
  destruct (Z.leb_spec 0 i); simpl.
  - by apply Z.lnot_spec.
  - by rewrite Z.testbit_neg_r.
Qed.

Lemma testbit_wrap w a i : 0 <= w -> Z.testbit (wrap w a) i = (i <? w) && Z.testbit a i.
Proof. apply Z.testbit_mod_pow2. Qed.

Lemma testbit_pow2 n i : 0 <= n -> Z.testbit (2 ^ n) i = (i =? n).
Proof.
  intros. rewrite Z.eqb_sym. destruct (Z.leb_spec 0 i).
  - by rewrite Z.pow2_bits_eqb.
  - rewrite Z.testbit_neg_r by done. symmetry. apply Z.eqb_neq. lia.
Qed.

Lemma testbit_m1 i : Z.testbit (-1) i = (0 <=? i).
Proof.
  destruct (Z.leb_spec 0 i); [by apply Z.bits_m1 | by apply Z.testbit_neg_r].
Qed.

Lemma testbit_high w a i : is_u w a -> w <= i -> Z.testbit a i = false.
Proof.
  intros [Ha Hb] Hi.
  destruct (Z.leb_spec 0 w); [|rewrite Z.pow_neg_r in Hb by lia; lia].
  rewrite <- (Z.mod_small a (2 ^ w)) by lia. by apply Z.mod_pow2_bits_high.
Qed.

Lemma is_u_bits w a :
  0 <= w -> 0 <= a -> (forall i, w <= i -> Z.testbit a i = false) -> is_u w a.
Proof.
  intros Hw Ha Hb. unfold is_u.
  assert (a = a mod 2 ^ w) as ->; [|apply Z.mod_pos_bound, Z.pow_pos_nonneg; lia].
  apply Z.bits_inj'. intros i Hi. rewrite Z.testbit_mod_pow2 by done.
  destruct (Z.ltb_spec i w); simpl; auto.
Qed.

Lemma testbit_swrap w a i :
  0 < w -> 0 <= i -> Z.testbit (swrap w a) i = Z.testbit a (Z.min i (w - 1)).
Proof.
  intros Hw Hi. unfold swrap.
  assert (Hp : 0 < 2 ^ (w - 1)) by (apply Z.pow_pos_nonneg; lia).
  assert (Hd : 2 ^ w = 2 * 2 ^ (w - 1)) by (rewrite <- Z.pow_succ_r by lia; f_equal; lia).
  set (p := 2 ^ (w - 1)) in *.
  assert (Hlow : a mod p = a mod 2 ^ (w - 1)) by done.
  assert (Hmid : a mod (2 * p) = a mod p + p * ((a / p) mod 2)).
  { rewrite (Z.mul_comm 2 p). rewrite Z.rem_mul_r by lia. lia. }
  assert (Hb : Z.testbit a (w - 1) = ((a / p) mod 2 =? 1)).
  { destruct (Z.eqb_spec ((a / p) mod 2) 1) as [E|E].
    - apply Z.testbit_true; [lia|done].
    - apply Z.testbit_false; [lia|]. fold p.
      pose proof (Z.mod_pos_bound (a / p) 2). lia. }
  assert (Hr : (a + p) mod 2 ^ w - p = a mod p - (if Z.testbit a (w - 1) then p else 0)).
  { rewrite Hd, Hb. rewrite <- Zplus_mod_idemp_l, Hmid.
    pose proof (Z.mod_pos_bound (a / p) 2). pose proof (Z.mod_pos_bound a p).
    destruct (Z.eqb_spec ((a / p) mod 2) 1) as [E|E].
    - rewrite E. replace (a mod p + p * 1 + p) with (a mod p + 1 * (2 * p)) by lia.
      rewrite Z_mod_plus_full, Z.mod_small by lia. lia.
    - replace ((a / p) mod 2) with 0 by lia. rewrite Z.mod_small by lia. lia. }
  rewrite Hr.
  destruct (Z.leb_spec i (w - 2)) as [Hle|Hge].
  - rewrite Z.min_l by lia.
    assert (forall c, Z.testbit (a mod p - c * p) i = Z.testbit a i) as Hc.
    { intros c. unfold p.
      rewrite <- (Z.mod_pow2_bits_low _ (w - 1) i) by lia.
      rewrite <- (Z.mod_pow2_bits_low a (w - 1) i) by lia. fold p.
      f_equal. rewrite <- Z.add_opp_r, <- Z.mul_opp_l, Z_mod_plus_full.
      apply Zmod_mod. }
    destruct (Z.testbit a (w - 1)).
    + by rewrite <- (Hc 1), Z.mul_1_l.
    + by rewrite <- (Hc 0), Z.mul_0_l.
  - rewrite Z.min_r by lia. pose proof (Z.mod_pos_bound a p).
    destruct (Z.testbit a (w - 1)).
    + apply Z.testbit_true; [lia|].
      assert (p <= 2 ^ i) by (apply Z.pow_le_mono_r; lia).
      assert ((a mod p - p) / 2 ^ i = -1) as ->; [|done].
      symmetry. apply Z.div_unique_pos with (r := a mod p - p + 2 ^ i); lia.
    + rewrite Z.sub_0_r. apply testbit_high with (w := w - 1); [|lia].
      unfold is_u. fold p. lia.
Qed.

Create Rewrite HintDb testbit.
Create HintDb art discriminated.
#[export] Hint Rewrite Z.land_spec Z.lor_spec Z.lxor_spec Z.ldiff_spec
  testbit_shiftl testbit_shiftr testbit_lnot testbit_m1 Z.testbit_0_l : testbit.
#[export] Hint Rewrite testbit_wrap Z.testbit_ones Z.testbit_mod_pow2 testbit_pow2
  testbit_swrap using lia : testbit.

(** Split on every comparison of integers in the goal. *)
Ltac zcases :=
  repeat match goal with
  | |- context [?a <? ?b] => destruct (Z.ltb_spec a b); try lia
  | |- context [?a <=? ?b] => destruct (Z.leb_spec a b); try lia
  | |- context [?a =? ?b] => destruct (Z.eqb_spec a b); try lia
  end.

(** Close a goal on single bits: equal indices, negative indices, or an index
    above the width of a bounded operand. *)
Ltac bit_norm :=
  repeat match goal with
  | |- context [Z.testbit ?a ?i] =>
      rewrite (Z.testbit_neg_r a i) by lia
  | H : is_u ?w ?a |- context [Z.testbit ?a ?i] =>
      rewrite (testbit_high w a i H) by lia
  end.

Ltac bit_done :=
  simpl; bit_norm; rewrite ?andb_true_r, ?andb_false_r, ?orb_false_r, ?orb_true_r;
  simpl;
  first [ reflexivity | btauto | f_equal; lia | congruence
        | repeat f_equal; lia | idtac ].

(** Prove an equality of integers bit by bit. *)
Ltac bits :=
  apply Z.bits_inj';
  let i := fresh "i" in let Hi := fresh "Hi" in
  intros i Hi; autorewrite with testbit; zcases; bit_done.

(** ** Integer lemmas shared by the components *)

Lemma wrap_is_u w x : 0 <= w -> is_u w (wrap w x).
Proof. intros. apply Z.mod_pos_bound, Z.pow_pos_nonneg; lia. Qed.

Lemma wrap_id w x : is_u w x -> wrap w x = x.
Proof. apply Z.mod_small. Qed.

Lemma swrap_is_s w x : 0 < w -> is_s w (swrap w x).
Proof.
  intros. unfold is_s, swrap.
  assert (2 ^ w = 2 * 2 ^ (w - 1)) by (rewrite <- Z.pow_succ_r by lia; f_equal; lia).
  pose proof (Z.mod_pos_bound (x + 2 ^ (w - 1)) (2 ^ w)).
  assert (0 < 2 ^ w) by (apply Z.pow_pos_nonneg; lia). lia.
Qed.

Lemma swrap_id w x : 0 < w -> is_s w x -> swrap w x = x.
Proof.
  intros ? []. unfold swrap.
  assert (2 ^ w = 2 * 2 ^ (w - 1)) by (rewrite <- Z.pow_succ_r by lia; f_equal; lia).
  rewrite Z.mod_small by lia. lia.
Qed.

Lemma is_u_weaken w w' x : w <= w' -> is_u w x -> is_u w' x.
Proof.
  unfold is_u. intros ? []. split; [done|].
  apply Z.lt_le_trans with (2 ^ w); [done|]. apply Z.pow_le_mono_r; lia.
Qed.

Lemma pow2_pos w : 0 <= w -> 0 < 2 ^ w.
Proof. intros. apply Z.pow_pos_nonneg; lia. Qed.

#[export] Hint Resolve wrap_is_u : art.

Lemma is_u_land_l w a b : is_u w a -> is_u w (Z.land a b).
Proof.
  intros Ha. destruct (Z.leb_spec 0 w) as [Hw|Hw].
  - apply is_u_bits; [done| |].
    + apply Z.land_nonneg. left. apply Ha.
    + intros i Hi. rewrite Z.land_spec, (testbit_high w a) by done. done.
  - destruct Ha as [? Hb]. rewrite Z.pow_neg_r in Hb by lia. lia.
Qed.

Lemma is_u_lor w a b : is_u w a -> is_u w b -> is_u w (Z.lor a b).
Proof.
  intros Ha Hb. destruct (Z.leb_spec 0 w) as [Hw|Hw].
  - apply is_u_bits; [done| |].
    + apply Z.lor_nonneg. split; [apply Ha | apply Hb].
    + intros i Hi.
      by rewrite Z.lor_spec, (testbit_high w a), (testbit_high w b).
  - destruct Ha as [? Hc]. rewrite Z.pow_neg_r in Hc by lia. lia.
Qed.

Lemma is_u_shiftr w a n : 0 <= n -> is_u w a -> is_u w (Z.shiftr a n).
Proof.
  intros Hn [Ha Hb]. unfold is_u. rewrite Z.shiftr_div_pow2 by done.
  pose proof (pow2_pos n Hn). split; [apply Z.div_pos; lia|].
  apply Z.le_lt_trans with a; [|done]. apply Z.div_le_upper_bound; nia.
Qed.

#[export] Hint Resolve is_u_land_l is_u_lor is_u_shiftr : art.

(** ** Loop and array lemmas *)

Lemma for_loop_inv {S} (P : Z -> S -> Prop) n i body (s : S) :
  P i s ->
  (forall j s, i <= j < i + Z.of_nat n -> P j s ->
     exists s', body j s = Some s' /\ P (j + 1) s') ->
  exists s', for_loop n i body s = Some s' /\ P (i + Z.of_nat n) s'.
Proof.
  revert i s. induction n as [|n IH]; intros i s Hs Hb; simpl.
  - exists s. split; [done|]. by rewrite Z.add_0_r.
  - destruct (Hb i s) as (s1 & E1 & H1); [lia|done|].
    rewrite E1. simpl. destruct (IH (i + 1) s1 H1) as (s2 & E2 & H2).
    + intros j s' Hj. apply Hb. lia.
    + exists s2. split; [done|].
      by replace (i + Z.of_nat (Datatypes.S n)) with (i + 1 + Z.of_nat n) by lia.
Qed.

Lemma aread_lookup {A} (l : list A) i : 0 <= i -> aread l i = l !! Z.to_nat i.
Proof. intros. unfold aread. by rewrite (proj2 (Z.leb_le 0 i)). Qed.

Lemma aread_nat {A} (l : list A) k : aread l (Z.of_nat k) = l !! k.
Proof. rewrite aread_lookup by lia. by rewrite Nat2Z.id. Qed.

Lemma aread_some {A} (l : list A) i : 0 <= i < zlength l -> exists x, aread l i = Some x.
Proof.
  intros. rewrite aread_lookup by lia. apply lookup_lt_is_Some_2. lia.
Qed.

Lemma aread_inv {A} (l : list A) i x : aread l i = Some x -> 0 <= i < zlength l.
Proof.
  unfold aread. destruct (Z.leb_spec 0 i); [|done].
  intros Hl%lookup_lt_Some. lia.
Qed.

Lemma awrite_some {A} (l : list A) i v :
  0 <= i < zlength l -> awrite l i v = Some (<[Z.to_nat i := v]> l).
Proof.
  intros. unfold awrite.
  rewrite (proj2 (Z.leb_le 0 i)), (proj2 (Z.ltb_lt i (zlength l))); done || lia.
Qed.

Lemma awrite_inv {A} (l l' : list A) i v :
  awrite l i v = Some l' -> 0 <= i < zlength l /\ l' = <[Z.to_nat i := v]> l.
Proof.
  unfold awrite. destruct (Z.leb_spec 0 i), (Z.ltb_spec i (zlength l)); simpl; naive_solver lia.
Qed.

Lemma aread_insert {A} (l : list A) i j v :
  0 <= i < zlength l -> 0 <= j ->
  aread (<[Z.to_nat i := v]> l) j = if j =? i then Some v else aread l j.
Proof.
  intros. rewrite !aread_lookup by done. destruct (Z.eqb_spec j i) as [->|].
  - apply list_lookup_insert_eq. lia.
  - apply list_lookup_insert_ne. lia.
Qed.

(** Check a decidable property of the integers below [n] by evaluation. *)
Lemma forallb_range (n : nat) (P : Z -> bool) :
  forallb P (map Z.of_nat (seq 0 n)) = true -> forall i, 0 <= i < Z.of_nat n -> P i = true.
Proof.
  intros H i Hi. rewrite forallb_forall in H. apply H.
  apply in_map_iff. exists (Z.to_nat i). split; [lia|]. apply in_seq. lia.
Qed.

(** A loop that updates the elements [i .. i + n - 1] of an array in place. *)
Definition updated {A} (g : Z -> A -> A) (i k : Z) (l l' : list A) : Prop :=
  length l' = length l /\
  forall j, 0 <= j ->
    aread l' j = if (i <=? j) && (j <? k) then g j <$> aread l j else aread l j.

Lemma updated_refl {A} (g : Z -> A -> A) i l : updated g i i l l.
Proof. split; [done|]. intros. zcases; done. Qed.

Lemma updated_step {A} (g : Z -> A -> A) i k l l' x :
  0 <= i <= k -> aread l k = Some x -> updated g i k l l' ->
  aread l' k = Some x /\ exists l'', awrite l' k (g k x) = Some l'' /\ updated g i (k + 1) l l''.
Proof.
  intros Hi Hx [Hl Hg]. pose proof (aread_inv _ _ _ Hx).
  split; [rewrite Hg by lia; zcases; done|].
  exists (<[Z.to_nat k := g k x]> l'). rewrite awrite_some by lia. split; [done|].
  split; [by rewrite length_insert|]. intros j Hj. rewrite aread_insert by lia.
  destruct (Z.eqb_spec j k) as [->|].
  - rewrite Hx. zcases; done.
  - rewrite Hg by lia. zcases; done.
Qed.

Lemma updated_trans {A} (g : Z -> A -> A) i k m l l1 l2 :
  i <= k <= m -> updated g i k l l1 -> updated g k m l1 l2 -> updated g i m l l2.
Proof.
  intros Hk [Hl1 Hu1] [Hl2 Hu2]. split; [congruence|]. intros j Hj.
  rewrite Hu2 by done. rewrite Hu1 by done. zcases; done.
Qed.

Lemma for_loop_update {A} n i body (g : Z -> A -> A) (l : list A) :
  0 <= i -> i + Z.of_nat n <= zlength l ->
  (forall j l' x, i <= j < i + Z.of_nat n -> aread l j = Some x -> aread l' j = Some x ->
     body j l' = awrite l' j (g j x)) ->
  exists l', for_loop n i body l = Some l' /\ updated g i (i + Z.of_nat n) l l'.
Proof.
  intros Hi Hn Hb. apply (for_loop_inv (fun k => updated g i k l)); [apply updated_refl|].
  intros j l' Hj Hu. destruct (aread_some l j) as [x Hx]; [lia|].
  destruct (updated_step g i j l l' x) as (Hx' & l'' & Hw & Hu'); [lia|done|done|].
  exists l''. by rewrite (Hb j l' x).
Qed.

Lemma Forall_aread {A} (P : A -> Prop) (l : list A) :
  Forall P l <-> forall i x, aread l i = Some x -> P x.
Proof.
  rewrite Forall_lookup. split.
  - intros H i x Hx. pose proof (aread_inv _ _ _ Hx). rewrite aread_lookup in Hx by lia. eauto.
  - intros H i x Hx. apply (H (Z.of_nat i)). rewrite aread_lookup by lia. by rewrite Nat2Z.id.
Qed.

Lemma updated_forall {A} (P : A -> Prop) (g : Z -> A -> A) i k l l' :
  updated g i k l l' -> Forall P l ->
  (forall j x, i <= j < k -> aread l j = Some x -> P x -> P (g j x)) -> Forall P l'.
Proof.
  intros [Hl Hg] Hf Hp. rewrite Forall_aread in *. intros j y Hy.
  pose proof (aread_inv _ _ _ Hy). rewrite Hg in Hy by lia.
  destruct (Z.leb_spec i j), (Z.ltb_spec j k); simpl in Hy; try by eapply Hf.
  destruct (aread l j) as [x|] eqn:E; simpl in Hy; [|done]. injection Hy as <-. eauto.
Qed.

Lemma land_shiftl_disjoint n a b : 0 <= n -> is_u n a -> Z.land a (Z.shiftl b n) = 0.
Proof.
  intros Hn Ha. apply Z.bits_inj'. intros i Hi. rewrite Z.land_spec, testbit_shiftl, Z.bits_0.
  destruct (Z.ltb_spec i n).
  - rewrite (Z.testbit_neg_r b) by lia. by rewrite !andb_false_r.
  - by rewrite (testbit_high n a) by done.
Qed.

(** A sum of fields that do not overlap. *)
Lemma add_shiftl_lor n a b : 0 <= n -> is_u n a -> a + b * 2 ^ n = Z.lor a (Z.shiftl b n).
Proof.
  intros Hn Ha. rewrite <- Z.shiftl_mul_pow2 by done.
  rewrite Z.add_nocarry_lxor by (by apply land_shiftl_disjoint).
  apply Z.lxor_lor. by apply land_shiftl_disjoint.
Qed.

(** ** Strings stored in memory *)

(** [bs] is stored at position [p]. *)
Definition stored (mem : list Z) (p : Z) (bs : list Z) : Prop :=
  0 <= p /\ exists pre rest, mem = pre ++ bs ++ rest /\ zlength pre = p.

Lemma stored_cons mem p b r :
  stored mem p (b :: r) <-> aread mem p = Some b /\ stored mem (p + 1) r.
Proof.
  split.
  - intros (Hp & pre & rest & -> & Hl). split.
    + rewrite aread_lookup by done. rewrite <- Hl, Nat2Z.id, lookup_app_r by lia.
      by rewrite Nat.sub_diag.
    + split; [lia|]. exists (pre ++ [b]), rest.
      rewrite <- app_assoc. split; [done|]. rewrite length_app. simpl. lia.
  - intros [Ha (Hp & pre & rest & Hm' & Hl)]. pose proof (aread_inv _ _ _ Ha) as Hb.
    split; [lia|]. rewrite aread_lookup in Ha by lia.
    pose proof (take_drop_middle _ _ _ Ha) as Hm.
    exists (take (Z.to_nat p) mem), rest. split; [|rewrite length_take; lia].
    rewrite <- Hm at 1. f_equal. simpl. f_equal. rewrite Hm'.
    rewrite drop_app_ge by lia. by replace (S (Z.to_nat p) - length pre)%nat with 0%nat by lia.
Qed.

Lemma stored_at pre bs rest : stored (pre ++ bs ++ rest) (zlength pre) bs.
Proof. split; [lia|]. eauto. Qed.

Lemma aread_take {A} (l : list A) e i :
  0 <= i -> aread (take (Z.to_nat e) l) i = if e <=? i then None else aread l i.
Proof.
  intros Hi. rewrite !aread_lookup by done. destruct (Z.leb_spec e i).
  - apply lookup_take_ge. lia.
  - apply lookup_take_lt. lia.
Qed.

Lemma awrite_app {A} (pre : list A) x tail y :
  awrite (pre ++ x :: tail) (zlength pre) y = Some (pre ++ y :: tail).
Proof.
  rewrite awrite_some by (rewrite length_app; simpl; lia).
  by rewrite Nat2Z.id, insert_app_r_alt, Nat.sub_diag by lia.
Qed.

Lemma aread_app {A} (pre : list A) x tail : aread (pre ++ x :: tail) (zlength pre) = Some x.
Proof.
  rewrite aread_lookup by lia. by rewrite Nat2Z.id, lookup_app_r, Nat.sub_diag by lia.
Qed.

Lemma stored_app mem p a b : stored mem p (a ++ b) -> stored mem p a /\ stored mem (p + zlength a) b.
Proof.
  intros (Hp & pre & rest & -> & Hl). split.
  - split; [done|]. exists pre, (b ++ rest). by rewrite <- app_assoc.
  - split; [lia|]. exists (pre ++ a), rest. rewrite <- !app_assoc. split; [done|]. rewrite length_app. lia.
Qed.

Lemma stored_nil mem p : 0 <= p <= zlength mem -> stored mem p [].
Proof.
  intros Hp. split; [lia|]. exists (take (Z.to_nat p) mem), (drop (Z.to_nat p) mem).
  simpl. rewrite take_drop. split; [done|]. rewrite length_take. lia.
Qed.

Lemma stored_bound mem p bs : stored mem p bs -> 0 <= p /\ p + zlength bs <= zlength mem.
Proof. intros (Hp & pre & rest & -> & Hl). rewrite !length_app. lia. Qed.

(** A loop that fills the start of an array from another one. *)
Lemma copy_loop {A B} (src : list A) (f : A -> B) body (out : list B) :
  (length src <= length out)%nat ->
  (forall j x l, aread src j = Some x -> body j l = awrite l j (f x)) ->
  for_loop (length src) 0 body out = Some (map f src ++ drop (length src) out).
Proof.
  intros Hl Hb.
  destruct (for_loop_inv (fun j o => o = map f (take (Z.to_nat j) src) ++ drop (Z.to_nat j) out)
              (length src) 0 body out) as (o & -> & Ho); [done| |].
  - intros j s Hj ->. destruct (aread_some src j) as [x Hx]; [lia|]. rewrite (Hb j x _ Hx).
    rewrite aread_lookup in Hx by lia. eexists. split.
    + destruct (lookup_lt_is_Some_2 out (Z.to_nat j)) as [y Hy]; [lia|]. rewrite (drop_S out y _ Hy).
      pose proof (awrite_app (map f (take (Z.to_nat j) src)) y (drop (S (Z.to_nat j)) out) (f x)) as Hw.
      rewrite length_map, length_take, Nat.min_l, Z2Nat.id in Hw by lia. exact Hw.
    + rewrite Z2Nat.inj_add by lia. change (Z.to_nat 1) with 1%nat. rewrite Nat.add_1_r.
      rewrite (take_S_r _ _ x), map_app, <- app_assoc by done. done.
  - rewrite Ho, Z.add_0_l, Nat2Z.id, firstn_all. done.
Qed.

(** A duplicate-free stack of indices below [n] with room for [k] has fewer than
    [n] entries. *)
Lemma stack_bound (n : nat) (S : list nat) k :
  NoDup S -> k ∉ S -> (forall c, c ∈ k :: S -> (c < n)%nat) -> (length S < n)%nat.
Proof.
  intros HS Hk Hb. assert (NoDup (k :: S)) as HN by (by constructor).
  assert (length (k :: S) <= length (seq 0 n))%nat as Hle.
  { apply submseteq_length, NoDup_submseteq; [done|].
    intros c Hc. apply elem_of_seq. specialize (Hb c Hc). lia. }
  rewrite length_seq in Hle. simpl in Hle. lia.
Qed.
