(* ===== verification/BitUtils.v ===== *)
(** * Bit-twiddling helpers ([libartbase/base/bit_utils.h])

    Every template is a definition over [Z] that takes the width [w] of its
    type argument first; arithmetic that can leave the type is reduced with
    [wrap]/[swrap] as the conversions of the source do. The [testbit] lemmas of
    the field and mask helpers are what the other components reason with.

    The functions are total: their debug checks on arguments (not zero, a power
    of two, a field inside the word) are left out, except in the definitions that
    return an option. *)

From Stdlib Require Import ZArith Lia Bool Btauto.
From stdpp Require Import base numbers list option.
From S2P Require Import Prelude.

Local Open Scope Z_scope.

(** ** Compiler builtins *)

Fixpoint pos_ctz (p : positive) : Z :=
  match p with
  | xO q => 1 + pos_ctz q
  | _ => 0
  end.

Definition builtin_ctz (x : Z) : Z :=
  match x with Z0 => 0 | Zpos p | Zneg p => pos_ctz p end.

Fixpoint pos_popcount (p : positive) : Z :=
  match p with
  | xI q => 1 + pos_popcount q
  | xO q => pos_popcount q
  | xH => 1
  end.

Definition builtin_popcount (x : Z) : Z :=
  match x with Zpos p => pos_popcount p | _ => 0 end.

Definition builtin_clz (x : Z) : Z := 31 - Z.log2 x.
Definition builtin_clzll (x : Z) : Z := 63 - Z.log2 x.

(** [n] bytes of [x], most significant byte of the result first. *)
Fixpoint builtin_bswap (n : nat) (x acc : Z) : Z :=
  match n with
  | O => acc
  | S n' => builtin_bswap n' (Z.shiftr x 8) (Z.lor (Z.shiftl acc 8) (Z.land x 0xff))
  end.

(** ** Counting and locating bits *)

Definition CLZ (w x : Z) : Z :=
  if w =? 64 then builtin_clzll x else builtin_clz x - (32 - w).

Definition JAVASTYLE_CLZ (w x : Z) : Z := if x =? 0 then w else CLZ w (wrap w x).

Definition CTZ (x : Z) : Z := builtin_ctz x.

Definition JAVASTYLE_CTZ (w x : Z) : Z := if x =? 0 then w else CTZ (wrap w x).

Definition POPCOUNT (w x : Z) : Z :=
  builtin_popcount (if w =? 32 then u32 x else u64 x).

Definition BSWAP (w x : Z) : Z :=
  if w =? 16 then builtin_bswap 2 x 0
  else if w =? 32 then builtin_bswap 4 x 0
  else builtin_bswap 8 x 0.

Definition MostSignificantBit (w value : Z) : Z :=
  if value =? 0 then -1 else w - 1 - CLZ w value.

Definition LeastSignificantBit (value : Z) : Z :=
  if value =? 0 then -1 else CTZ value.

Definition MinimumBitsToStore (w value : Z) : Z := MostSignificantBit w value + 1.

(** ** Powers of two and rounding *)

Definition RoundUpToPowerOfTwo (w x : Z) : Z :=
  if x <? 2 then x else wrap w (Z.shiftl 1 (w - CLZ w (x - 1))).

Definition TruncToPowerOfTwo (w val : Z) : Z :=
  if negb (val =? 0) then wrap w (Z.shiftl 1 (w - CLZ w val - 1)) else 0.

Definition IsPowerOfTwo (x : Z) : bool := Z.land x (x - 1) =? 0.

Definition WhichPowerOf2 (x : Z) : Z := CTZ x.

Definition RoundDown (w x n : Z) : Z := Z.land x (wrap w (- n)).

Definition RoundUp (w x n : Z) : Z := RoundDown w (wrap w (x + n - 1)) n.

Definition CondRoundUp (kRoundUp : bool) (w x n : Z) : Z :=
  if kRoundUp then RoundUp w x n else x.

Definition IsAligned (n x : Z) : bool := Z.land x (n - 1) =? 0.

Definition IsAlignedParam (x n : Z) : bool := Z.land x (n - 1) =? 0.

Definition BitsToBytesRoundUp (num_bits : Z) : Z := RoundUp 64 num_bits 8 / 8.

(** ** Splitting words *)

Definition Low16Bits (value : Z) : Z := u16 value.
Definition High16Bits (value : Z) : Z := u16 (Z.shiftr value 16).
Definition Low32Bits (value : Z) : Z := u32 value.
Definition High32Bits (value : Z) : Z := u32 (Z.shiftr value 32).

(** ** Ranges of narrow integers *)

(** [IsInt(size_t N, T value)] of a [w]-bit signed type; [None] is a failed [CHECK]. *)
Definition IsInt_param (w N value : Z) : option bool :=
  if N =? w then Some true
  else if (0 <? N) && (N <? w) then
    let limit := Z.shiftl 1 (N - 1) in
    Some ((- limit <=? value) && (value <? limit))
  else None.

Definition GetIntLimit (w bits : Z) : Z := wrap w (Z.shiftl 1 (bits - 1)).

Definition IsInt (kBits w value : Z) : bool :=
  if kBits =? w then true
  else (- GetIntLimit w kBits <=? value) && (value <? GetIntLimit w kBits).

Definition IsUint (kBits w value : Z) : bool :=
  (0 <=? value) &&
  ((kBits =? w) || (wrap w value <=? wrap w (GetIntLimit w kBits * 2 - 1))).

(** The nested [IsUint<kBits>] runs on the unsigned type of the same width. *)
Definition IsAbsoluteUint (kBits w value : Z) : bool :=
  if kBits =? w then true
  else IsUint kBits w
         (if value <? 0 then wrap w (wrap w (-1 - value) + 1) else wrap w value).

Definition MaxInt_unsigned (w bits : Z) : Z :=
  if bits =? w then 2 ^ w - 1 else wrap w (wrap w (u64 (Z.shiftl 1 bits)) - 1).

Definition MaxInt_signed (w bits : Z) : Z :=
  if bits =? w then 2 ^ (w - 1) - 1
  else if bits =? 1 then 0 else swrap w (MaxInt_unsigned w (bits - 1)).

Definition MinInt_unsigned (w bits : Z) : Z := 0.

Definition MinInt_signed (w bits : Z) : Z :=
  if bits =? w then - 2 ^ (w - 1)
  else if bits =? 1 then -1 else swrap w (-1) - MaxInt_signed w bits.

(** ** Single-bit values, rotation and reversal *)

Definition LowestOneBitValue (w opnd : Z) : Z := Z.land opnd (wrap w (- opnd)).

Definition HighestOneBitValue (w opnd : Z) : Z :=
  if opnd =? 0 then 0
  else
    let bit_position := w - (CLZ w (wrap w opnd) + 1) in
    wrap w (u64 (Z.shiftl 1 bit_position)).

Definition Rot (left : bool) (w opnd distance : Z) : Z :=
  let mask := w - 1 in
  let unsigned_right_shift := if left then Z.land (- distance) mask else Z.land distance mask in
  let signed_left_shift := if left then Z.land distance mask else Z.land (- distance) mask in
  Z.lor (Z.shiftr (wrap w opnd) unsigned_right_shift)
        (wrap w (Z.shiftl opnd signed_left_shift)).

Definition ReverseBits32 (opnd : Z) : Z :=
  let opnd := Z.lor (Z.land (Z.shiftr opnd 1) 0x55555555)
                    (u32 (Z.shiftl (Z.land opnd 0x55555555) 1)) in
  let opnd := Z.lor (Z.land (Z.shiftr opnd 2) 0x33333333)
                    (u32 (Z.shiftl (Z.land opnd 0x33333333) 2)) in
  let opnd := Z.lor (Z.land (Z.shiftr opnd 4) 0x0F0F0F0F)
                    (u32 (Z.shiftl (Z.land opnd 0x0F0F0F0F) 4)) in
  let opnd := Z.lor (Z.land (Z.shiftr opnd 8) 0x00FF00FF)
                    (u32 (Z.shiftl (Z.land opnd 0x00FF00FF) 8)) in
  Z.lor (Z.shiftr opnd 16) (u32 (Z.shiftl opnd 16)).

Definition ReverseBits64 (opnd : Z) : Z :=
  let opnd := Z.lor (u64 (Z.shiftl (Z.land opnd 0x5555555555555555) 1))
                    (Z.land (Z.shiftr opnd 1) 0x5555555555555555) in
  let opnd := Z.lor (u64 (Z.shiftl (Z.land opnd 0x3333333333333333) 2))
                    (Z.land (Z.shiftr opnd 2) 0x3333333333333333) in
  let opnd := Z.lor (u64 (Z.shiftl (Z.land opnd 0x0f0f0f0f0f0f0f0f) 4))
                    (Z.land (Z.shiftr opnd 4) 0x0f0f0f0f0f0f0f0f) in
  let opnd := Z.lor (u64 (Z.shiftl (Z.land opnd 0x00ff00ff00ff00ff) 8))
                    (Z.land (Z.shiftr opnd 8) 0x00ff00ff00ff00ff) in
  Z.lor (Z.lor (Z.lor (u64 (Z.shiftl opnd 48))
                      (u64 (Z.shiftl (Z.land opnd 0xffff0000) 16)))
               (Z.land (Z.shiftr opnd 16) 0xffff0000))
        (Z.shiftr opnd 48).

(** ** Bit fields *)

Definition MaskLeastSignificant (w bits : Z) : Z :=
  if w <=? bits then 2 ^ w - 1 else wrap w (Z.shiftl 1 bits - 1).

Definition BitFieldClear (w value lsb width : Z) : Z :=
  let val := wrap w value in
  let mask := MaskLeastSignificant w width in
  Z.land val (wrap w (Z.lnot (wrap w (Z.shiftl mask lsb)))).

(** [w] is the width of [T], [w2] that of [T2]. *)
Definition BitFieldInsert (w w2 value data lsb width : Z) : Z :=
  let data_mask := MaskLeastSignificant w2 width in
  let value_cleared := BitFieldClear w value lsb width in
  wrap w (Z.lor value_cleared (wrap w2 (Z.shiftl (Z.land data data_mask) lsb))).

(** [BitFieldInsert] with its checks, for an unsigned [data]. *)
Definition BitFieldInsert_checked (w w2 value data lsb width : Z) : option Z :=
  if (lsb + width <=? w) &&
     (if negb (width =? 0)
      then (data <=? MaxInt_unsigned w2 width) && (MinInt_unsigned w2 width <=? data)
      else data =? 0)
  then Some (BitFieldInsert w w2 value data lsb width) else None.

(** The unsigned instances. *)
Definition BitFieldExtract (w value lsb width : Z) : Z :=
  let val := wrap w value in
  wrap w (Z.land (Z.shiftr val lsb) (MaskLeastSignificant w width)).

(** The signed instances. The sign bit is tested with [1 << (width - 1)], a
    shift of an [int]: a shift amount of 32 or more is undefined ([None]). *)
Definition BitFieldExtract_signed (w value lsb width : Z) : option Z :=
  let val := wrap w value in
  let bitfield_unsigned := swrap w (Z.land (Z.shiftr val lsb) (MaskLeastSignificant w width)) in
  if width =? 0 then Some 0
  else if 32 <=? width - 1 then None
  else if negb (Z.land bitfield_unsigned (s32 (Z.shiftl 1 (width - 1))) =? 0) then
    let ones_negmask := wrap w (Z.lnot (MaskLeastSignificant w width)) in
    Some (swrap w (Z.lor (wrap w bitfield_unsigned) ones_negmask))
  else Some bitfield_unsigned.

(** ** Specifications of the counting helpers *)

Lemma pos_ctz_spec p :
  0 <= pos_ctz p /\ Z.testbit (Zpos p) (pos_ctz p) = true /\
  forall j, j < pos_ctz p -> Z.testbit (Zpos p) j = false.
Proof.
  induction p as [p IH|p IH|]; simpl pos_ctz.
  - split; [lia|]. split; [done|]. intros. by apply Z.testbit_neg_r.
  - destruct IH as (? & Ht & Hl).
    rewrite Pos2Z.inj_xO. split; [lia|]. split.
    + by rewrite Z.add_1_l, Z.double_bits_succ.
    + intros j Hj. destruct (Z.eq_dec j 0) as [->|].
      * by rewrite Z.testbit_even_0.
      * replace j with (Z.succ (j - 1)) by lia. rewrite Z.double_bits_succ. apply Hl. lia.
  - split; [lia|]. split; [done|]. intros. by apply Z.testbit_neg_r.
Qed.

Lemma CTZ_spec x :
  0 < x ->
  0 <= CTZ x /\ Z.testbit x (CTZ x) = true /\ forall j, j < CTZ x -> Z.testbit x j = false.
Proof. intros. destruct x; [lia|apply pos_ctz_spec|lia]. Qed.

Lemma CTZ_bound w x : is_u w x -> 0 < x -> 0 <= CTZ x < w.
Proof.
  intros Hu Hx. destruct (CTZ_spec x Hx) as (? & Ht & _). split; [done|].
  destruct (Z.ltb_spec (CTZ x) w); [done|].
  rewrite (testbit_high w x) in Ht by done. done.
Qed.

Lemma CTZ_pow2 k : 0 <= k -> CTZ (2 ^ k) = k.
Proof.
  intros. pose proof (pow2_pos k). destruct (CTZ_spec (2 ^ k)) as (? & Ht & _); [lia|].
  rewrite testbit_pow2 in Ht by done. by apply Z.eqb_eq.
Qed.

Lemma CLZ_spec w x : (w = 64 \/ w <= 32) -> CLZ w x = w - 1 - Z.log2 x.
Proof.
  unfold CLZ, builtin_clz, builtin_clzll. intros.
  destruct (Z.eqb_spec w 64); lia.
Qed.

Lemma MostSignificantBit_spec w x :
  (w = 64 \/ w <= 32) -> is_u w x ->
  forall i, MostSignificantBit w x < i -> Z.testbit x i = false.
Proof.
  intros Hw [Hx _] i. unfold MostSignificantBit.
  destruct (Z.eqb_spec x 0) as [->|]; [intros; apply Z.testbit_0_l|].
  rewrite CLZ_spec by done. intros. apply Z.bits_above_log2; lia.
Qed.

Lemma MinimumBitsToStore_spec w x :
  (w = 64 \/ w <= 32) -> is_u w x ->
  is_u (MinimumBitsToStore w x) x /\
  0 <= MinimumBitsToStore w x /\
  forall n, 0 <= n -> is_u n x -> MinimumBitsToStore w x <= n.
Proof.
  intros Hw Hx. unfold MinimumBitsToStore, MostSignificantBit.
  destruct (Z.eqb_spec x 0) as [->|Hx0].
  - split; [done|]. split; [done|]. intros. lia.
  - destruct Hx as [Hx1 Hx2]. rewrite CLZ_spec by done.
    replace (w - 1 - (w - 1 - Z.log2 x) + 1) with (Z.succ (Z.log2 x)) by lia.
    pose proof (Z.log2_spec x). pose proof (Z.log2_nonneg x).
    split; [unfold is_u; lia|]. split; [lia|].
    intros n Hn [_ Hb]. pose proof (Z.log2_lt_pow2 x n). lia.
Qed.

(** ** Rounding *)

Lemma RoundUpToPowerOfTwo_log w x :
  (w = 64 \/ w <= 32) -> 0 < w -> 1 <= x <= 2 ^ (w - 1) ->
  RoundUpToPowerOfTwo w x = 2 ^ Z.log2_up x.
Proof.
  intros Hw Hw0 Hx. unfold RoundUpToPowerOfTwo.
  destruct (Z.ltb_spec x 2) as [Hlt|Hge].
  - by replace x with 1 by lia.
  - rewrite CLZ_spec by done. replace (w - (w - 1 - Z.log2 (x - 1))) with (Z.log2_up x).
    2: { rewrite Z.log2_up_eqn by lia. rewrite <- Z.sub_1_r. lia. }
    rewrite Z.shiftl_1_l. apply wrap_id. split; [apply Z.pow_nonneg; lia|].
    apply Z.pow_lt_mono_r; [lia..|].
    pose proof (Z.log2_up_le_mono x (2 ^ (w - 1))).
    rewrite Z.log2_up_pow2 in * by lia. lia.
Qed.

Lemma TruncToPowerOfTwo_log w x :
  (w = 64 \/ w <= 32) -> is_u w x -> 0 < x -> TruncToPowerOfTwo w x = 2 ^ Z.log2 x.
Proof.
  intros Hw [? Hx] Hx0. unfold TruncToPowerOfTwo.
  destruct (Z.eqb_spec x 0); [lia|]. simpl. rewrite CLZ_spec by done.
  replace (w - (w - 1 - Z.log2 x) - 1) with (Z.log2 x) by lia.
  rewrite Z.shiftl_1_l. apply wrap_id. pose proof (Z.log2_spec x Hx0).
  split; [apply Z.pow_nonneg; lia|]. lia.
Qed.

Lemma RoundDown_spec w x k :
  is_u w x -> 0 <= k <= w -> RoundDown w x (2 ^ k) = x - x mod 2 ^ k.
Proof.
  intros Hx Hk. unfold RoundDown.
  transitivity (Z.shiftl (Z.shiftr x k) k).
  - apply Z.bits_inj'. intros i Hi. rewrite Z.land_spec, testbit_wrap by lia.
    rewrite Z.opp_pow2_spec by lia. autorewrite with testbit.
    case_bool_decide; zcases; bit_done.
  - rewrite Z.shiftl_mul_pow2, Z.shiftr_div_pow2 by lia.
    pose proof (pow2_pos k). pose proof (Z.div_mod x (2 ^ k)). lia.
Qed.

Lemma RoundUp_spec w x k :
  0 <= k <= w -> 0 <= x -> x + 2 ^ k - 1 < 2 ^ w ->
  RoundUp w x (2 ^ k) = (x + 2 ^ k - 1) / 2 ^ k * 2 ^ k.
Proof.
  intros Hk Hx Hb. unfold RoundUp. pose proof (pow2_pos k).
  assert (is_u w (x + 2 ^ k - 1)) by (unfold is_u; lia).
  rewrite wrap_id by done. rewrite RoundDown_spec by done.
  pose proof (Z.div_mod (x + 2 ^ k - 1) (2 ^ k)). lia.
Qed.

Lemma BitsToBytesRoundUp_spec n :
  0 <= n -> n + 7 < 2 ^ 64 -> BitsToBytesRoundUp n = (n + 7) / 8.
Proof.
  intros. unfold BitsToBytesRoundUp.
  change 8 with (2 ^ 3) at 1. rewrite (RoundUp_spec 64 n 3) by lia.
  change (2 ^ 3) with 8. rewrite Z.div_mul by lia. f_equal. lia.
Qed.

Lemma IsAligned_spec k x : 0 <= k -> IsAligned (2 ^ k) x = (x mod 2 ^ k =? 0).
Proof.
  intros. unfold IsAligned. f_equal. rewrite Z.sub_1_r, <- Z.ones_equiv.
  by apply Z.land_ones.
Qed.

Lemma IsPowerOfTwo_pow2 k : 0 <= k -> IsPowerOfTwo (2 ^ k) = true.
Proof.
  intros. unfold IsPowerOfTwo. apply Z.eqb_eq.
  rewrite Z.sub_1_r, <- Z.ones_equiv, Z.land_ones by done. apply Z_mod_same_full.
Qed.

(** ** Masks and bit fields *)

Lemma MaskLeastSignificant_ones w n :
  0 <= n <= w -> MaskLeastSignificant w n = Z.ones n.
Proof.
  intros. unfold MaskLeastSignificant. rewrite Z.ones_equiv.
  destruct (Z.leb_spec w n).
  - replace n with w by lia. lia.
  - rewrite Z.shiftl_1_l, wrap_id; [lia|].
    pose proof (pow2_pos n). pose proof (Z.pow_lt_mono_r 2 n w). unfold is_u. lia.
Qed.

Lemma testbit_BitFieldClear w v lsb width i :
  0 <= lsb -> 0 <= width -> lsb + width <= w ->
  Z.testbit (BitFieldClear w v lsb width) i =
    (i <? w) && Z.testbit v i && negb ((lsb <=? i) && (i <? lsb + width)).
Proof.
  intros. unfold BitFieldClear. rewrite MaskLeastSignificant_ones by lia.
  autorewrite with testbit. zcases; bit_done.
Qed.

Lemma testbit_BitFieldInsert w w2 v data lsb width i :
  0 <= lsb -> 0 <= width -> lsb + width <= w -> lsb + width <= w2 ->
  Z.testbit (BitFieldInsert w w2 v data lsb width) i =
    (i <? w) && if (lsb <=? i) && (i <? lsb + width) then Z.testbit data (i - lsb)
                else Z.testbit v i.
Proof.
  intros. unfold BitFieldInsert. rewrite MaskLeastSignificant_ones by lia.
  rewrite testbit_wrap, Z.lor_spec, testbit_BitFieldClear by lia.
  autorewrite with testbit. zcases; bit_done.
Qed.

Lemma testbit_BitFieldExtract w v lsb width i :
  0 <= lsb -> 0 <= width -> lsb + width <= w ->
  Z.testbit (BitFieldExtract w v lsb width) i = (0 <=? i) && (i <? width) && Z.testbit v (i + lsb).
Proof.
  intros. unfold BitFieldExtract. rewrite MaskLeastSignificant_ones by lia.
  autorewrite with testbit. zcases; bit_done.
Qed.

#[export] Hint Rewrite testbit_BitFieldClear testbit_BitFieldInsert testbit_BitFieldExtract
  using lia : testbit.

(** ** Bit reversal

    One step of the reversal exchanges adjacent groups of [s] bits; [m] masks
    the even groups. *)

Definition even_group (s i : Z) : bool := Z.even (i / s).

Definition swap_index (s i : Z) : Z := if even_group s i then i + s else i - s.

Lemma swap_groups_testbit w s m x i :
  0 < s -> is_u w x -> 0 <= i < w ->
  (forall j, 0 <= j < w -> Z.testbit m j = even_group s j) ->
  (even_group s i = true -> i + s < w) ->
  (even_group s i = false -> s <= i /\ even_group s (i - s) = true) ->
  Z.testbit (Z.lor (Z.land (Z.shiftr x s) m) (wrap w (Z.shiftl (Z.land x m) s))) i =
    Z.testbit x (swap_index s i).
Proof.
  intros Hs Hx Hi Hm He Ho. autorewrite with testbit. rewrite Hm by done.
  unfold swap_index. destruct (even_group s i) eqn:E.
  - specialize (He eq_refl). zcases.
    assert (Z.land x m = Z.land x m) by done.
    destruct (Z.leb_spec 0 (i - s)); [|by bit_done].
    rewrite Hm by lia. replace (even_group s (i - s)) with false; [bit_done|].
    unfold even_group in *. replace (i / s) with ((i - s) / s + 1) in E.
    + rewrite Z.add_1_r, Z.even_succ, <- Z.negb_even in E. by destruct (Z.even _).
    + rewrite <- Z.div_add by lia. f_equal. lia.
  - destruct (Ho eq_refl) as [? Ho']. zcases. rewrite Hm, Ho' by lia. bit_done.
Qed.

Lemma swap_groups_is_u w s m x :
  0 <= s -> 0 <= w -> is_u w x ->
  is_u w (Z.lor (Z.land (Z.shiftr x s) m) (wrap w (Z.shiftl (Z.land x m) s))).
Proof. auto with art. Qed.

(** The side conditions of [swap_groups_testbit] at a concrete width, decided by evaluation. *)
Definition swap_ok (w s m i : Z) : bool :=
  Bool.eqb (Z.testbit m i) (even_group s i) &&
  (if even_group s i then i + s <? w else (s <=? i) && even_group s (i - s)) &&
  (0 <=? swap_index s i) && (swap_index s i <? w).

Lemma swap_ok_testbit (n : nat) s m x i :
  0 < s -> is_u (Z.of_nat n) x -> 0 <= i < Z.of_nat n ->
  forallb (swap_ok (Z.of_nat n) s m) (map Z.of_nat (seq 0 n)) = true ->
  Z.testbit (Z.lor (Z.land (Z.shiftr x s) m) (wrap (Z.of_nat n) (Z.shiftl (Z.land x m) s))) i =
    Z.testbit x (swap_index s i) /\ 0 <= swap_index s i < Z.of_nat n.
Proof.
  intros Hs Hx Hi Hok. pose proof (forallb_range n _ Hok) as Hall.
  unfold swap_ok in Hall. pose proof (Hall i Hi) as H.
  rewrite !andb_true_iff in H. destruct H as (((H1 & H2) & H3) & H4).
  split; [|lia]. apply swap_groups_testbit; [done..| | |].
  - intros j Hj. specialize (Hall j Hj). rewrite !andb_true_iff in Hall.
    destruct Hall as (((Hj1 & _) & _) & _). by apply eqb_prop.
  - intros E. rewrite E in H2. lia.
  - intros E. rewrite E in H2. apply andb_true_iff in H2 as [??]. split; [lia|done].
Qed.

Lemma swap_last32 x i :
  is_u 32 x -> 0 <= i < 32 ->
  Z.testbit (Z.lor (Z.shiftr x 16) (u32 (Z.shiftl x 16))) i = Z.testbit x (swap_index 16 i) /\
  0 <= swap_index 16 i < 32.
Proof.
  intros Hx Hi. assert (H : swap_index 16 i = if i <? 16 then i + 16 else i - 16).
  { apply Z.eqb_eq. revert i Hi. by apply (forallb_range 32 (fun i => _)). }
  rewrite H. split; [|zcases]. autorewrite with testbit. zcases; bit_done.
Qed.

Lemma swap_last64 x i :
  is_u 64 x -> 0 <= i < 64 ->
  let j := if i <? 16 then i + 48 else if i <? 32 then i + 16
           else if i <? 48 then i - 16 else i - 48 in
  Z.testbit (Z.lor (Z.lor (Z.lor (u64 (Z.shiftl x 48))
                                 (u64 (Z.shiftl (Z.land x 0xffff0000) 16)))
                          (Z.land (Z.shiftr x 16) 0xffff0000))
                   (Z.shiftr x 48)) i = Z.testbit x j /\ 0 <= j < 64.
Proof.
  intros Hx Hi j. split; [|unfold j; zcases].
  change 0xffff0000 with (Z.shiftl (Z.ones 16) 16). unfold j.
  autorewrite with testbit. zcases; bit_done.
Qed.

(** [ReverseBits32] and [ReverseBits64] (Hacker's Delight 7-1) reverse their
    operand: bit [i] of the result is bit [31 - i], respectively [63 - i], of
    the argument. *)
Theorem ReverseBits_correct :
  (forall x i, is_u 32 x -> 0 <= i < 32 ->
     Z.testbit (ReverseBits32 x) i = Z.testbit x (31 - i)) /\
  (forall x i, is_u 64 x -> 0 <= i < 64 ->
     Z.testbit (ReverseBits64 x) i = Z.testbit x (63 - i)).
Proof.
  split; intros x i Hx Hi.
  - unfold ReverseBits32. cbv zeta.
    edestruct swap_last32 as [-> ?]; [repeat apply swap_groups_is_u; done || lia|done|].
    do 4 (edestruct (swap_ok_testbit 32) as [-> ?];
      [lia|repeat apply swap_groups_is_u; done || lia|done|by vm_compute|]).
    f_equal. apply Z.eqb_eq.
    exact (forallb_range 32 (fun i => swap_index 1 (swap_index 2 (swap_index 4 (swap_index 8
             (swap_index 16 i)))) =? 31 - i) eq_refl i Hi).
  - unfold ReverseBits64. cbv zeta.
    rewrite !(Z.lor_comm (u64 (Z.shiftl (Z.land _ _) _)) (Z.land (Z.shiftr _ _) _)).
    edestruct swap_last64 as [-> ?]; [repeat apply swap_groups_is_u; done || lia|done|].
    do 4 (edestruct (swap_ok_testbit 64) as [-> ?];
      [lia|repeat apply swap_groups_is_u; done || lia|done|by vm_compute|]).
    f_equal. apply Z.eqb_eq.
    exact (forallb_range 64 (fun i => swap_index 1 (swap_index 2 (swap_index 4 (swap_index 8
             (if i <? 16 then i + 48 else if i <? 32 then i + 16
              else if i <? 48 then i - 16 else i - 48)))) =? 63 - i) eq_refl i Hi).
Qed.

Lemma ReverseBits_correct_witness :
  Z.testbit (ReverseBits32 0x12) 30 = Z.testbit 0x12 (31 - 30) /\
  Z.testbit (ReverseBits64 0x12) 59 = Z.testbit 0x12 (63 - 59).
Proof.
  split.
  - apply (proj1 ReverseBits_correct); [unfold is_u; lia|lia].
  - apply (proj2 ReverseBits_correct); [unfold is_u; lia|lia].
Defined.

(** The ARM-style bit field helpers. A field that was inserted is read back,
    fields that do not overlap it are unchanged, re-inserting the extracted
    field is the identity, and the result stays in the [w]-bit type. *)
Theorem BitField_laws w v data lsb width
  (Hlsb : 0 <= lsb) (Hwidth : 0 <= width) (Hw : lsb + width <= w)
  (Hv : is_u w v) (Hdata : is_u width data) :
  BitFieldExtract w (BitFieldInsert w w v data lsb width) lsb width = data /\
  (forall lsb' width', 0 <= lsb' -> 0 <= width' -> lsb' + width' <= w ->
     lsb' + width' <= lsb \/ lsb + width <= lsb' ->
     BitFieldExtract w (BitFieldInsert w w v data lsb width) lsb' width' =
       BitFieldExtract w v lsb' width') /\
  BitFieldInsert w w v (BitFieldExtract w v lsb width) lsb width = v /\
  is_u w (BitFieldInsert w w v data lsb width).
Proof.
  repeat split; try (intros; bits).
  - apply wrap_is_u. lia.
  - apply wrap_is_u. lia.
Qed.

Lemma BitField_laws_witness :
  BitFieldExtract 32 (BitFieldInsert 32 32 0xffff00ff 0x5a 8 8) 8 8 = 0x5a /\
  BitFieldExtract 32 (BitFieldInsert 32 32 0xffff00ff 0x5a 8 8) 16 16 =
    BitFieldExtract 32 0xffff00ff 16 16.
Proof.
  destruct (BitField_laws 32 0xffff00ff 0x5a 8 8) as (H1 & H2 & _);
    [lia|lia|lia|unfold is_u; lia|unfold is_u; lia|].
  split; [exact H1|]. apply H2; lia.
Defined.

(** Rounding. [RoundDown]/[RoundUp] give the greatest multiple of a power of
    two not above, respectively the least one not below, the operand when the
    addition does not overflow; [RoundUpToPowerOfTwo] gives the least power of
    two not below the operand and [TruncToPowerOfTwo] the greatest not above. *)
Theorem Round_correct w x k
  (Hw : w = 64 \/ w <= 32) (Hk : 0 <= k < w) (Hx : 1 <= x <= 2 ^ (w - 1)) :
  (RoundDown w x (2 ^ k) mod 2 ^ k = 0 /\ RoundDown w x (2 ^ k) <= x < RoundDown w x (2 ^ k) + 2 ^ k) /\
  (x + 2 ^ k - 1 < 2 ^ w ->
   RoundUp w x (2 ^ k) mod 2 ^ k = 0 /\ x <= RoundUp w x (2 ^ k) < x + 2 ^ k) /\
  (exists j, 0 <= j /\ RoundUpToPowerOfTwo w x = 2 ^ j /\ x <= 2 ^ j /\
     forall i, 0 <= i -> x <= 2 ^ i -> 2 ^ j <= 2 ^ i) /\
  (exists j, 0 <= j /\ TruncToPowerOfTwo w x = 2 ^ j /\ 2 ^ j <= x < 2 * 2 ^ j).
Proof.
  pose proof (pow2_pos k ltac:(lia)) as Hp.
  assert (2 ^ w = 2 * 2 ^ (w - 1)) by (rewrite <- Z.pow_succ_r by lia; f_equal; lia).
  assert (is_u w x) by (unfold is_u; lia).
  repeat split.
  - rewrite RoundDown_spec by (done || lia).
    rewrite Zminus_mod_idemp_r, Z.sub_diag. by apply Z.mod_0_l; lia.
  - rewrite RoundDown_spec by (done || lia). pose proof (Z.mod_pos_bound x (2 ^ k)). lia.
  - rewrite RoundDown_spec by (done || lia). pose proof (Z.mod_pos_bound x (2 ^ k)). lia.
  - rewrite RoundUp_spec by lia. apply Z_mod_mult.
  - rewrite RoundUp_spec by lia. pose proof (Z.div_mod (x + 2 ^ k - 1) (2 ^ k)).
    pose proof (Z.mod_pos_bound (x + 2 ^ k - 1) (2 ^ k)). lia.
  - rewrite RoundUp_spec by lia. pose proof (Z.div_mod (x + 2 ^ k - 1) (2 ^ k)).
    pose proof (Z.mod_pos_bound (x + 2 ^ k - 1) (2 ^ k)). lia.
  - exists (Z.log2_up x). split; [apply Z.log2_up_nonneg|].
    split; [apply RoundUpToPowerOfTwo_log; lia|].
    pose proof (Z.log2_up_le_pow2 x) as Hle. split; [by apply Hle; lia|].
    intros i Hi Hxi. apply Z.pow_le_mono_r; [lia|]. apply Hle; lia.
  - exists (Z.log2 x). split; [apply Z.log2_nonneg|].
    split; [apply TruncToPowerOfTwo_log; done || lia|].
    pose proof (Z.log2_spec x). pose proof (Z.log2_nonneg x).
    rewrite <- Z.pow_succ_r by done. lia.
Qed.

Lemma Round_correct_witness :
  (RoundDown 32 37 (2 ^ 3) mod 2 ^ 3 = 0 /\ RoundDown 32 37 8 <= 37 < RoundDown 32 37 8 + 8) /\
  (RoundUp 32 37 (2 ^ 3) mod 2 ^ 3 = 0 /\ 37 <= RoundUp 32 37 8 < 37 + 8).
Proof.
  destruct (Round_correct 32 37 3) as (H1 & H2 & _); [lia|lia|lia|].
  split; [exact H1|]. apply H2. lia.
Defined.

(** ** Signed extraction

    For fields of at most 32 bits the signed instance is two's complement sign
    extension. *)
Lemma BitFieldExtract_sign_test w v lsb width :
  w = 32 \/ w = 64 -> 0 <= lsb -> 0 < width <= 32 -> lsb + width <= w ->
  (Z.land (swrap w (Z.land (Z.shiftr (wrap w v) lsb) (Z.ones width)))
          (s32 (Z.shiftl 1 (width - 1))) =? 0) = negb (Z.testbit v (lsb + width - 1)).
Proof.
  intros Hw Hl Hwd Hb.
  set (f := swrap w _). set (m := s32 _).
  assert (Hf : forall i, 0 <= i -> Z.testbit f i =
            (Z.min i (w - 1) <? width) && Z.testbit v (Z.min i (w - 1) + lsb)).
  { intros i Hi. unfold f. rewrite testbit_swrap by lia. autorewrite with testbit.
    zcases; bit_done. }
  assert (Hm : forall i, 0 <= i -> Z.testbit m i = (Z.min i 31 =? width - 1)).
  { intros i Hi. unfold m. rewrite testbit_swrap, Z.shiftl_1_l, testbit_pow2 by lia. done. }
  destruct (Z.testbit v (lsb + width - 1)) eqn:E; simpl.
  - apply Z.eqb_neq. intros H0. apply (f_equal (fun z => Z.testbit z (width - 1))) in H0.
    rewrite Z.testbit_0_l, Z.land_spec, Hf, Hm in H0 by lia.
    rewrite Z.min_l in H0 by lia. replace (width - 1 + lsb) with (lsb + width - 1) in H0 by lia.
    rewrite E in H0. revert H0. zcases; done.
  - apply Z.eqb_eq. apply Z.bits_inj'. intros i Hi.
    rewrite Z.testbit_0_l, Z.land_spec, Hf, Hm by lia.
    destruct (Z.eqb_spec (Z.min i 31) (width - 1)); [|bit_done].
    destruct (Z.ltb_spec (Z.min i (w - 1)) width); [|done].
    replace (Z.min i (w - 1) + lsb) with (lsb + width - 1) by lia. by rewrite E.
Qed.

Lemma BitFieldExtract_signed_spec w v lsb width :
  w = 32 \/ w = 64 -> 0 <= lsb -> 0 < width <= 32 -> lsb + width <= w ->
  BitFieldExtract_signed w v lsb width = Some (swrap width (BitFieldExtract w v lsb width)).
Proof.
  intros Hw Hl Hwd Hb. unfold BitFieldExtract_signed. cbv zeta.
  destruct (Z.eqb_spec width 0); [lia|]. destruct (Z.leb_spec 32 (width - 1)); [lia|].
  rewrite MaskLeastSignificant_ones by lia. rewrite BitFieldExtract_sign_test by done.
  rewrite negb_involutive.
  destruct (Z.testbit v (lsb + width - 1)) eqn:E; f_equal.
  - apply Z.bits_inj'. intros i Hi. rewrite !testbit_swrap by lia.
    autorewrite with testbit.
    destruct (Z.ltb_spec i width).
    + rewrite !Z.min_l by lia. zcases; bit_done.
    + rewrite (Z.min_r i (width - 1)) by lia.
      replace (width - 1 + lsb) with (lsb + width - 1) by lia. rewrite E.
      zcases; bit_done; rewrite <- E; f_equal; lia.
  - apply Z.bits_inj'. intros i Hi. rewrite !testbit_swrap by lia.
    autorewrite with testbit. destruct (Z.ltb_spec i width).
    + rewrite !Z.min_l by lia. zcases; bit_done.
    + rewrite (Z.min_r i (width - 1)) by lia.
      replace (width - 1 + lsb) with (lsb + width - 1) by lia. rewrite E.
      destruct (Z.ltb_spec (Z.min i (w - 1)) width).
      * replace (Z.min i (w - 1) + lsb) with (lsb + width - 1) by lia. rewrite E. bit_done.
      * bit_done.
Qed.

(** Wider fields of a 64-bit type pass every [DCHECK] of the function but shift
    an [int] by 32 or more. *)
Lemma BitFieldExtract_signed_undefined v lsb width :
  0 <= lsb -> 33 <= width -> lsb + width <= 64 -> BitFieldExtract_signed 64 v lsb width = None.
Proof.
  intros. unfold BitFieldExtract_signed. zcases; done.
Qed.
