(* ===== verification/Leb128.v ===== *)
(** * LEB128 integers ([libartbase/base/leb128.h])

    A pointer into a buffer is a position in the list of bytes; a read past the
    list is [None]. The [Checked] decoders also take the position of the end of
    the readable bytes and their result distinguishes a [false] return
    ([Some None]) from an access out of bounds ([None]). *)

From Stdlib Require Import ZArith Lia Bool Btauto.
From stdpp Require Import base numbers list option.
From S2P Require Import Prelude BitUtils.

Local Open Scope Z_scope.

(** ** Decoders *)

Definition DecodeUnsignedLeb128 (mem : list Z) (data : Z) : option (Z * Z) :=
  let ptr := data in
  result ← aread mem ptr; let ptr := ptr + 1 in
  '(result, ptr) ←
    (if result >? 0x7f then
      cur ← aread mem ptr; let ptr := ptr + 1 in
      let result := Z.lor (Z.land result 0x7f) (Z.shiftl (Z.land cur 0x7f) 7) in
      if cur >? 0x7f then
        cur ← aread mem ptr; let ptr := ptr + 1 in
        let result := Z.lor result (Z.shiftl (Z.land cur 0x7f) 14) in
        if cur >? 0x7f then
          cur ← aread mem ptr; let ptr := ptr + 1 in
          let result := Z.lor result (Z.shiftl (Z.land cur 0x7f) 21) in
          if cur >? 0x7f then
            cur ← aread mem ptr; let ptr := ptr + 1 in
            Some (Z.lor result (s32 (Z.shiftl cur 28)), ptr)
          else Some (result, ptr)
        else Some (result, ptr)
      else Some (result, ptr)
    else Some (result, ptr));
  Some (u32 result, ptr).

Definition DecodeUnsignedLeb128WithoutMovingCursor (mem : list Z) (data : Z) : option Z :=
  '(v, _) ← DecodeUnsignedLeb128 mem data; Some v.

Definition DecodeUnsignedLeb128Checked (mem : list Z) (data end_ : Z) : option (option (Z * Z)) :=
  let ptr := data in
  if end_ <=? ptr then Some None else
  result ← aread mem ptr; let ptr := ptr + 1 in
  r ←
    (if result >? 0x7f then
      if end_ <=? ptr then Some None else
      cur ← aread mem ptr; let ptr := ptr + 1 in
      let result := Z.lor (Z.land result 0x7f) (Z.shiftl (Z.land cur 0x7f) 7) in
      if cur >? 0x7f then
        if end_ <=? ptr then Some None else
        cur ← aread mem ptr; let ptr := ptr + 1 in
        let result := Z.lor result (Z.shiftl (Z.land cur 0x7f) 14) in
        if cur >? 0x7f then
          if end_ <=? ptr then Some None else
          cur ← aread mem ptr; let ptr := ptr + 1 in
          let result := Z.lor result (Z.shiftl (Z.land cur 0x7f) 21) in
          if cur >? 0x7f then
            if end_ <=? ptr then Some None else
            cur ← aread mem ptr; let ptr := ptr + 1 in
            Some (Some (Z.lor result (s32 (Z.shiftl cur 28)), ptr))
          else Some (Some (result, ptr))
        else Some (Some (result, ptr))
      else Some (Some (result, ptr))
    else Some (Some (result, ptr)));
  match r with
  | None => Some None
  | Some (result, ptr) => Some (Some (u32 result, ptr))
  end.

Definition DecodeUnsignedLeb128P1 (mem : list Z) (data : Z) : option (Z * Z) :=
  '(v, ptr) ← DecodeUnsignedLeb128 mem data; Some (s32 (u32 (v - 1)), ptr).

Definition DecodeSignedLeb128 (mem : list Z) (data : Z) : option (Z * Z) :=
  let ptr := data in
  result ← aread mem ptr; let ptr := ptr + 1 in
  if result <=? 0x7f then Some (Z.shiftr (s32 (Z.shiftl result 25)) 25, ptr)
  else
    cur ← aread mem ptr; let ptr := ptr + 1 in
    let result := Z.lor (Z.land result 0x7f) (Z.shiftl (Z.land cur 0x7f) 7) in
    if cur <=? 0x7f then Some (Z.shiftr (s32 (Z.shiftl result 18)) 18, ptr)
    else
      cur ← aread mem ptr; let ptr := ptr + 1 in
      let result := Z.lor result (Z.shiftl (Z.land cur 0x7f) 14) in
      if cur <=? 0x7f then Some (Z.shiftr (s32 (Z.shiftl result 11)) 11, ptr)
      else
        cur ← aread mem ptr; let ptr := ptr + 1 in
        let result := Z.lor result (Z.shiftl (Z.land cur 0x7f) 21) in
        if cur <=? 0x7f then Some (Z.shiftr (s32 (Z.shiftl result 4)) 4, ptr)
        else
          cur ← aread mem ptr; let ptr := ptr + 1 in
          Some (Z.lor result (s32 (Z.shiftl cur 28)), ptr).

Definition DecodeSignedLeb128Checked (mem : list Z) (data end_ : Z) : option (option (Z * Z)) :=
  let ptr := data in
  if end_ <=? ptr then Some None else
  result ← aread mem ptr; let ptr := ptr + 1 in
  r ←
    (if result <=? 0x7f then Some (Some (Z.shiftr (s32 (Z.shiftl result 25)) 25, ptr))
    else
      if end_ <=? ptr then Some None else
      cur ← aread mem ptr; let ptr := ptr + 1 in
      let result := Z.lor (Z.land result 0x7f) (Z.shiftl (Z.land cur 0x7f) 7) in
      if cur <=? 0x7f then Some (Some (Z.shiftr (s32 (Z.shiftl result 18)) 18, ptr))
      else
        if end_ <=? ptr then Some None else
        cur ← aread mem ptr; let ptr := ptr + 1 in
        let result := Z.lor result (Z.shiftl (Z.land cur 0x7f) 14) in
        if cur <=? 0x7f then Some (Some (Z.shiftr (s32 (Z.shiftl result 11)) 11, ptr))
        else
          if end_ <=? ptr then Some None else
          cur ← aread mem ptr; let ptr := ptr + 1 in
          let result := Z.lor result (Z.shiftl (Z.land cur 0x7f) 21) in
          if cur <=? 0x7f then Some (Some (Z.shiftr (s32 (Z.shiftl result 4)) 4, ptr))
          else
            if end_ <=? ptr then Some None else
            cur ← aread mem ptr; let ptr := ptr + 1 in
            Some (Some (Z.lor result (s32 (Z.shiftl cur 28)), ptr)));
  match r with
  | None => Some None
  | Some (result, ptr) => Some (Some (s32 (u32 result), ptr))
  end.

(** ** Sizes *)

Definition UnsignedLeb128Size (data : Z) : Z :=
  let x := 6 + 32 - CLZ 32 (Z.lor data 1) in
  Z.shiftr (u32 (x * 37)) 8.

Definition SignedLeb128Size (data : Z) : Z :=
  let data := Z.lxor data (Z.shiftr data 31) in
  let x := 1 + 6 + 32 - CLZ 32 (u32 (Z.lor data 1)) in
  Z.shiftr (u32 (x * 37)) 8.

Definition IsLeb128Terminator (mem : list Z) (ptr : Z) : option bool :=
  b ← aread mem ptr; Some (b <=? 0x7f).

(** The loop of [ReverseSearchUnsignedLeb128]; its [DCHECK] bounds the number of
    iterations by the fuel. *)
Fixpoint reverse_search_loop (fuel : nat) (mem : list Z) (end_ptr ptr : Z) : option Z :=
  t ← IsLeb128Terminator mem (ptr - 1);
  if (t : bool) then Some ptr else
  match fuel with
  | O => None
  | S fuel' =>
      let ptr := ptr - 1 in
      _ ← dcheck (end_ptr - ptr <=? 5);
      reverse_search_loop fuel' mem end_ptr ptr
  end.

Definition ReverseSearchUnsignedLeb128 (mem : list Z) (end_ptr : Z) : option Z :=
  let ptr := end_ptr - 1 in
  t ← IsLeb128Terminator mem ptr;
  _ ← dcheck t;
  reverse_search_loop 5 mem end_ptr ptr.

(** ** Encoders

    A 32-bit value is exhausted after five rounds of seven bits, so 5 units of
    fuel are enough ([None] is running out of fuel or of buffer). *)

Fixpoint encode_unsigned_loop (fuel : nat) (mem : list Z) (dest out value : Z)
    : option (list Z * Z) :=
  if value =? 0 then
    mem ← awrite mem dest out; Some (mem, dest + 1)
  else match fuel with
  | O => None
  | S fuel' =>
      mem ← awrite mem dest (Z.lor out 0x80);
      encode_unsigned_loop fuel' mem (dest + 1) (u8 (Z.land value 0x7f)) (Z.shiftr value 7)
  end.

(** [uint8_t* EncodeUnsignedLeb128(uint8_t* dest, uint32_t value)] *)
Definition EncodeUnsignedLeb128_at (mem : list Z) (dest value : Z) : option (list Z * Z) :=
  encode_unsigned_loop 5 mem dest (u8 (Z.land value 0x7f)) (Z.shiftr value 7).

Fixpoint push_unsigned_loop (fuel : nat) (dest : list Z) (out value : Z) : option (list Z) :=
  if value =? 0 then Some (dest ++ [out])
  else match fuel with
  | O => None
  | S fuel' =>
      push_unsigned_loop fuel' (dest ++ [Z.lor out 0x80]) (u8 (Z.land value 0x7f))
        (Z.shiftr value 7)
  end.

(** [void EncodeUnsignedLeb128(Vector* dest, uint32_t value)] *)
Definition EncodeUnsignedLeb128 (dest : list Z) (value : Z) : option (list Z) :=
  push_unsigned_loop 5 dest (u8 (Z.land value 0x7f)) (Z.shiftr value 7).

Fixpoint fill_loop (n : nat) (mem : list Z) (end_ : Z) : option (list Z) :=
  match n with
  | O => Some mem
  | S n' =>
      last ← aread mem (end_ - 1);
      mem ← awrite mem (end_ - 1) (Z.lor last 0x80);
      mem ← awrite mem end_ 0;
      fill_loop n' mem (end_ + 1)
  end.

Definition UpdateUnsignedLeb128 (mem : list Z) (dest value : Z) : option (list Z) :=
  '(old_value, old_end) ← DecodeUnsignedLeb128 mem dest;
  _ ← dcheck (UnsignedLeb128Size value <=? UnsignedLeb128Size old_value);
  '(mem, end_) ← EncodeUnsignedLeb128_at mem dest value;
  fill_loop (Z.to_nat (old_end - end_)) mem end_.

Fixpoint encode_signed_loop (fuel : nat) (mem : list Z) (dest out value extra_bits : Z)
    : option (list Z * Z) :=
  if extra_bits =? 0 then
    mem ← awrite mem dest out; Some (mem, dest + 1)
  else match fuel with
  | O => None
  | S fuel' =>
      mem ← awrite mem dest (Z.lor out 0x80);
      let value := Z.shiftr value 7 in
      encode_signed_loop fuel' mem (dest + 1) (u8 (Z.land value 0x7f)) value
        (Z.shiftr extra_bits 7)
  end.

(** [uint8_t* EncodeSignedLeb128(uint8_t* dest, int32_t value)] *)
Definition EncodeSignedLeb128_at (mem : list Z) (dest value : Z) : option (list Z * Z) :=
  let extra_bits := Z.shiftr (u32 (Z.lxor value (Z.shiftr value 31))) 6 in
  encode_signed_loop 5 mem dest (u8 (Z.land value 0x7f)) value extra_bits.

Fixpoint push_signed_loop (fuel : nat) (dest : list Z) (out value extra_bits : Z)
    : option (list Z) :=
  if extra_bits =? 0 then Some (dest ++ [out])
  else match fuel with
  | O => None
  | S fuel' =>
      let dest := dest ++ [Z.lor out 0x80] in
      let value := Z.shiftr value 7 in
      push_signed_loop fuel' dest (u8 (Z.land value 0x7f)) value (Z.shiftr extra_bits 7)
  end.

(** [void EncodeSignedLeb128(Vector* dest, int32_t value)] *)
Definition EncodeSignedLeb128 (dest : list Z) (value : Z) : option (list Z) :=
  let extra_bits := Z.shiftr (u32 (Z.lxor value (Z.shiftr value 31))) 6 in
  push_signed_loop 5 dest (u8 (Z.land value 0x7f)) value extra_bits.

(** ** [Leb128Encoder]: the encoder object is the vector it appends to. *)

Definition PushBackUnsigned (data : list Z) (value : Z) : option (list Z) :=
  EncodeUnsignedLeb128 data value.

Fixpoint InsertBackUnsigned (data : list Z) (values : list Z) : option (list Z) :=
  match values with
  | [] => Some data
  | v :: rest => data ← PushBackUnsigned data v; InsertBackUnsigned data rest
  end.

Definition PushBackSigned (data : list Z) (value : Z) : option (list Z) :=
  EncodeSignedLeb128 data value.

Fixpoint InsertBackSigned (data : list Z) (values : list Z) : option (list Z) :=
  match values with
  | [] => Some data
  | v :: rest => data ← PushBackSigned data v; InsertBackSigned data rest
  end.

Example leb_ex1 : EncodeUnsignedLeb128 [] 624485 = Some [0xe5; 0x8e; 0x26].
Proof. reflexivity. Qed.
Example leb_ex2 : DecodeSignedLeb128 [0xc0; 0xbb; 0x78] 0 = Some (-123456, 3).
Proof. reflexivity. Qed.
Example leb_ex3 : EncodeSignedLeb128 [] (-123456) = Some [0xc0; 0xbb; 0x78].
Proof. reflexivity. Qed.

(** ** The byte strings the decoders accept *)

(** The value of a group of bytes, seven bits each, least significant first. *)
Fixpoint leb_val (bs : list Z) : Z :=
  match bs with
  | [] => 0
  | b :: r => Z.lor (Z.land b 0x7f) (Z.shiftl (leb_val r) 7)
  end.

(** A sequence of bytes a decoder consumes: continuation bytes and a last byte
    that terminates or is the fifth ([k] bytes may still follow the first). *)
Fixpoint leb_shape (k : nat) (bs : list Z) {struct bs} : Prop :=
  match bs with
  | [] => False
  | [b] => is_u 8 b /\ (b <= 0x7f \/ k = 0%nat)
  | b :: r => is_u 8 b /\ 0x7f < b /\ match k with O => False | S k' => leb_shape k' r end
  end.

Ltac leb_shapes bs Hs :=
  destruct bs as [|?b0 [|?b1 [|?b2 [|?b3 [|?b4 [|? ?]]]]]]; simpl in Hs;
  destruct_and?; try done.

Ltac leb_reads :=
  repeat match goal with
  | H : stored _ _ (_ :: _) |- _ => apply stored_cons in H; destruct H as [? ?]
  end.

Ltac leb_step :=
  match goal with
  | H : aread ?m ?p = Some _ |- context [aread ?m ?p] => rewrite H; cbn [mbind option_bind]
  | |- context [?a >? ?b] => rewrite (Z.gtb_ltb a b); destruct (Z.ltb_spec b a); try lia
  | |- context [?a <=? ?b] => destruct (Z.leb_spec a b); try lia
  end.

(** A terminating byte has seven significant bits. *)
Ltac leb_terminators :=
  repeat match goal with
  | H : is_u 8 ?b, H' : ?b <= 0x7f |- _ =>
      lazymatch goal with
      | _ : is_u 7 b |- _ => fail
      | _ => assert (is_u 7 b) by (unfold is_u in *; lia)
      end
  end.

Lemma decode_unsigned_stored mem p bs :
  stored mem p bs -> leb_shape 4 bs ->
  DecodeUnsignedLeb128 mem p = Some (u32 (leb_val bs), p + zlength bs).
Proof.
  intros Hst Hs. unfold DecodeUnsignedLeb128. cbv zeta.
  leb_shapes bs Hs; leb_reads; repeat leb_step; leb_terminators;
    cbn [mbind option_bind length]; f_equal; f_equal; try lia;
    cbn [leb_val]; change 0x7f with (Z.ones 7); bits.
Qed.

Lemma decode_signed_stored mem p bs :
  stored mem p bs -> leb_shape 4 bs ->
  DecodeSignedLeb128 mem p =
    Some (swrap (Z.min (7 * zlength bs) 32) (leb_val bs), p + zlength bs).
Proof.
  intros Hst Hs. unfold DecodeSignedLeb128. cbv zeta.
  leb_shapes bs Hs; leb_reads; repeat leb_step; leb_terminators;
    cbn [mbind option_bind length]; f_equal; f_equal; try lia;
    cbn [leb_val]; change 0x7f with (Z.ones 7); bits.
Qed.

(** ** Canonical encodings *)

(** [v] in exactly [n] groups. *)
Fixpoint leb_bytes (n : nat) (v : Z) : list Z :=
  match n with
  | O => []
  | S O => [Z.land v 0x7f]
  | S n' => Z.lor (Z.land v 0x7f) 0x80 :: leb_bytes n' (Z.shiftr v 7)
  end.

Lemma leb_bytes_SS n v :
  leb_bytes (S (S n)) v = Z.lor (Z.land v 0x7f) 0x80 :: leb_bytes (S n) (Z.shiftr v 7).
Proof. done. Qed.

Lemma leb_bytes_length n v : length (leb_bytes n v) = n.
Proof.
  revert v. induction n as [|[|n] IH]; intros v; [done|done|].
  rewrite leb_bytes_SS. cbn [length]. by rewrite IH.
Qed.

Lemma leb_val_bytes n v : leb_val (leb_bytes n v) = v mod 2 ^ (7 * Z.of_nat n).
Proof.
  revert v. induction n as [|[|n] IH]; intros v.
  - simpl. by rewrite Z.mod_1_r.
  - cbn [leb_bytes leb_val]. change 0x7f with (Z.ones 7). bits.
  - rewrite leb_bytes_SS. cbn [leb_val]. rewrite IH.
    change 0x7f with (Z.ones 7). change 0x80 with (2 ^ 7). bits.
Qed.

Lemma leb_byte_range v : is_u 7 (Z.land v 0x7f).
Proof.
  change 0x7f with (Z.ones 7). rewrite Z.land_ones by lia. apply Z.mod_pos_bound. lia.
Qed.

Lemma leb_cont_byte v : Z.lor (Z.land v 0x7f) 0x80 = Z.land v 0x7f + 0x80.
Proof.
  change 0x7f with (Z.ones 7). change 0x80 with (2 ^ 7).
  rewrite Z.add_nocarry_lxor; bits.
Qed.

Lemma leb_shape_bytes k n v :
  (1 <= n <= S k)%nat -> leb_shape k (leb_bytes n v).
Proof.
  revert k v. induction n as [|[|n] IH]; intros k v Hn; [lia| |].
  - pose proof (leb_byte_range v) as [??]. simpl. split; [|left; lia].
    unfold is_u in *. lia.
  - rewrite leb_bytes_SS. destruct k as [|k]; [lia|].
    pose proof (leb_byte_range v) as [??].
    specialize (IH k (Z.shiftr v 7) ltac:(lia)).
    destruct (leb_bytes (S n) (Z.shiftr v 7)) as [|c r] eqn:E.
    + by pose proof (leb_bytes_length (S n) (Z.shiftr v 7)) as Hl; rewrite E in Hl.
    + change (is_u 8 (Z.lor (Z.land v 0x7f) 0x80) /\ 0x7f < Z.lor (Z.land v 0x7f) 0x80 /\
              leb_shape k (c :: r)).
      rewrite leb_cont_byte. split; [unfold is_u; lia|]. split; [lia|done].
Qed.

(** The number of groups an unsigned value needs. *)
Definition leb_groups (v : Z) : nat := S (Z.to_nat (Z.log2 v / 7)).

Lemma leb_groups_small v : 0 <= v < 128 -> leb_groups v = 1%nat.
Proof.
  intros. unfold leb_groups. pose proof (Z.log2_nonneg v).
  assert (Z.log2 v < 7).
  { destruct (Z.eq_dec v 0) as [->|]; [done|]. apply Z.log2_lt_pow2; lia. }
  by rewrite Z.div_small by lia.
Qed.

Lemma leb_groups_shift v : 128 <= v -> leb_groups v = S (leb_groups (Z.shiftr v 7)).
Proof.
  intros. unfold leb_groups. rewrite Z.log2_shiftr by lia.
  assert (7 <= Z.log2 v) by (apply Z.log2_le_pow2; lia).
  rewrite Z.max_r by lia. f_equal.
  replace (Z.log2 v) with ((Z.log2 v - 7) + 1 * 7) at 1 by lia.
  rewrite Z.div_add by lia. rewrite Z2Nat.inj_add; [simpl; lia| |lia].
  apply Z.div_pos; lia.
Qed.

Lemma leb_shiftr_zero v : 0 <= v -> (Z.shiftr v 7 =? 0) = (v <? 128).
Proof.
  intros. rewrite Z.shiftr_div_pow2 by lia. change (2 ^ 7) with 128.
  destruct (Z.ltb_spec v 128).
  - by rewrite Z.div_small.
  - apply Z.eqb_neq. assert (1 <= v / 128) by (apply Z.div_le_lower_bound; lia). lia.
Qed.

Lemma leb_out_byte v : u8 (Z.land v 0x7f) = Z.land v 0x7f.
Proof.
  apply wrap_id. apply (is_u_weaken 7 8); [lia|]. apply leb_byte_range.
Qed.

Lemma push_unsigned_loop_spec fuel dest v :
  0 <= v < 2 ^ (7 * (Z.of_nat fuel + 1)) ->
  push_unsigned_loop fuel dest (u8 (Z.land v 0x7f)) (Z.shiftr v 7) =
    Some (dest ++ leb_bytes (leb_groups v) v).
Proof.
  revert dest v. induction fuel as [|fuel IH]; intros dest v Hv;
    cbn [push_unsigned_loop]; rewrite leb_shiftr_zero, leb_out_byte by lia;
    destruct (Z.ltb_spec v 128) as [Hs|Hs].
  - by rewrite leb_groups_small by lia.
  - change (2 ^ (7 * (Z.of_nat 0 + 1))) with 128 in Hv. lia.
  - by rewrite leb_groups_small by lia.
  - rewrite IH.
    + rewrite (leb_groups_shift v) by done. unfold leb_groups at 2.
      rewrite leb_bytes_SS, <- app_assoc. done.
    + rewrite Z.shiftr_div_pow2 by lia. split; [apply Z.div_pos; lia|].
      apply Z.div_lt_upper_bound; [lia|].
      rewrite <- Z.pow_add_r by lia. eapply Z.lt_le_trans; [apply Hv|].
      apply Z.pow_le_mono_r; lia.
Qed.

Lemma EncodeUnsignedLeb128_spec dest v :
  is_u 32 v -> EncodeUnsignedLeb128 dest v = Some (dest ++ leb_bytes (leb_groups v) v).
Proof.
  intros [? Hv]. apply push_unsigned_loop_spec. split; [done|].
  eapply Z.lt_le_trans; [exact Hv|]. apply Z.pow_le_mono_r; lia.
Qed.

Lemma leb_groups_bound w v :
  0 <= w -> is_u w v -> Z.of_nat (leb_groups v) <= 1 + (w - 1) / 7 \/ v = 0.
Proof.
  intros Hw [? Hv]. destruct (Z.eq_dec v 0); [by right|left].
  unfold leb_groups. pose proof (Z.log2_nonneg v).
  assert (Z.log2 v < w) by (apply Z.log2_lt_pow2; lia).
  assert (Z.log2 v / 7 <= (w - 1) / 7) by (apply Z.div_le_mono; lia).
  pose proof (Z.div_pos (Z.log2 v) 7). lia.
Qed.

Lemma leb_groups_32 v : is_u 32 v -> (1 <= leb_groups v <= 5)%nat.
Proof.
  intros H. destruct (leb_groups_bound 32 v) as [Hb| ->]; [lia|done| |vm_compute; lia].
  change (1 + (32 - 1) / 7) with 5 in Hb. unfold leb_groups in *. lia.
Qed.

Lemma leb_groups_fits v : 0 <= v -> v < 2 ^ (7 * Z.of_nat (leb_groups v)).
Proof.
  intros Hv. destruct (Z.eq_dec v 0) as [->|]; [vm_compute; done|].
  apply Z.log2_lt_pow2; [lia|]. unfold leb_groups. pose proof (Z.log2_nonneg v).
  pose proof (Z.div_mod (Z.log2 v) 7). pose proof (Z.mod_pos_bound (Z.log2 v) 7).
  pose proof (Z.div_pos (Z.log2 v) 7). lia.
Qed.

(** [(x * 37) >> 8] is the division by 7 the comment in the source announces. *)
Lemma mul37_div7 x : 0 <= x <= 85 -> Z.shiftr (u32 (x * 37)) 8 = x / 7.
Proof.
  intros Hx. apply Z.eqb_eq.
  apply (forallb_range 86 (fun x => Z.shiftr (u32 (x * 37)) 8 =? x / 7)); [done|lia].
Qed.

Lemma UnsignedLeb128Size_groups v :
  is_u 32 v -> UnsignedLeb128Size v = Z.of_nat (leb_groups v).
Proof.
  intros Hv. unfold UnsignedLeb128Size. rewrite CLZ_spec by lia.
  assert (Hl : Z.log2 (Z.lor v 1) = Z.log2 v).
  { destruct Hv. rewrite Z.log2_lor by lia. change (Z.log2 1) with 0.
    pose proof (Z.log2_nonneg v). lia. }
  rewrite Hl. assert (0 <= Z.log2 v < 32).
  { split; [apply Z.log2_nonneg|]. destruct Hv. destruct (Z.eq_dec v 0) as [->|]; [done|].
    apply Z.log2_lt_pow2; lia. }
  replace (6 + 32 - (32 - 1 - Z.log2 v)) with (Z.log2 v + 1 * 7) by lia.
  rewrite mul37_div7, Z.div_add by lia. unfold leb_groups.
  pose proof (Z.div_pos (Z.log2 v) 7). lia.
Qed.

(** ** Signed encodings *)

(** [value ^ (value >> 31)]: the magnitude bits of a signed value. *)
Definition leb_magnitude (v : Z) : Z := if 0 <=? v then v else - v - 1.

Lemma leb_magnitude_xor v : is_s 32 v -> Z.lxor v (Z.shiftr v 31) = leb_magnitude v.
Proof.
  intros [Hl Hu]. unfold leb_magnitude. change (2 ^ (32 - 1)) with (2 ^ 31) in *.
  rewrite Z.shiftr_div_pow2 by lia. destruct (Z.leb_spec 0 v).
  - rewrite Z.div_small by lia. apply Z.lxor_0_r.
  - replace (v / 2 ^ 31) with (-1); [rewrite Z.lxor_m1_r; unfold Z.lnot; lia|].
    apply Z.div_unique_pos with (r := v + 2 ^ 31); lia.
Qed.

Lemma leb_magnitude_range v : is_s 32 v -> is_u 31 (leb_magnitude v).
Proof.
  unfold is_s, is_u, leb_magnitude. change (32 - 1) with 31. intros. zcases.
Qed.

Lemma leb_magnitude_bound n v :
  0 <= n -> leb_magnitude v < 2 ^ n <-> - 2 ^ n <= v < 2 ^ n.
Proof.
  intros. pose proof (pow2_pos n). unfold leb_magnitude. zcases.
Qed.

(** Groups after the first. *)
Definition leb_extra (e : Z) : nat := if e =? 0 then 0%nat else leb_groups e.

Definition sleb_groups (v : Z) : nat := S (leb_extra (Z.shiftr (leb_magnitude v) 6)).

Lemma push_signed_loop_spec fuel dest v e :
  0 <= e < 2 ^ (7 * Z.of_nat fuel) ->
  push_signed_loop fuel dest (u8 (Z.land v 0x7f)) v e =
    Some (dest ++ leb_bytes (S (leb_extra e)) v).
Proof.
  revert dest v e. induction fuel as [|fuel IH]; intros dest v e He;
    cbn [push_signed_loop]; rewrite (leb_out_byte v); unfold leb_extra at 1;
    destruct (Z.eqb_spec e 0) as [->|Hne]; try done.
  - simpl in He. lia.
  - cbv zeta. rewrite IH.
    + assert (leb_groups e = S (leb_extra (Z.shiftr e 7))) as ->.
      { unfold leb_extra. rewrite leb_shiftr_zero by lia.
        destruct (Z.ltb_spec e 128); [apply leb_groups_small; lia|].
        apply leb_groups_shift; lia. }
      by rewrite leb_bytes_SS, <- app_assoc.
    + rewrite Z.shiftr_div_pow2 by lia. split; [apply Z.div_pos; lia|].
      apply Z.div_lt_upper_bound; [lia|]. rewrite <- Z.pow_add_r by lia.
      eapply Z.lt_le_trans; [apply He|]. apply Z.pow_le_mono_r; lia.
Qed.

Lemma EncodeSignedLeb128_spec dest v :
  is_s 32 v -> EncodeSignedLeb128 dest v = Some (dest ++ leb_bytes (sleb_groups v) v).
Proof.
  intros Hv. unfold EncodeSignedLeb128, sleb_groups. cbv zeta.
  rewrite leb_magnitude_xor by done.
  pose proof (leb_magnitude_range v Hv) as Hm.
  rewrite (wrap_id 32 (leb_magnitude v)) by (apply (is_u_weaken 31); [lia|done]).
  apply push_signed_loop_spec. destruct (is_u_shiftr 31 (leb_magnitude v) 6) as [? Hb]; [lia|done|].
  split; [done|]. eapply Z.lt_le_trans; [exact Hb|]. apply Z.pow_le_mono_r; lia.
Qed.

Lemma sleb_groups_log v :
  is_s 32 v -> Z.of_nat (sleb_groups v) = (Z.log2 (leb_magnitude v) + 8) / 7.
Proof.
  intros Hv. destruct (leb_magnitude_range v Hv) as [Hm Hm'].
  unfold sleb_groups, leb_extra. set (m := leb_magnitude v) in *.
  pose proof (Z.log2_nonneg m).
  destruct (Z.ltb_spec m 64) as [Hs|Hs].
  - assert (Z.shiftr m 6 = 0) as -> by (rewrite Z.shiftr_div_pow2 by lia; by apply Z.div_small).
    assert (Z.log2 m < 6).
    { destruct (Z.eq_dec m 0) as [->|]; [done|]. apply Z.log2_lt_pow2; lia. }
    apply (Z.div_unique _ 7 1 (Z.log2 m + 1)); lia.
  - assert (6 <= Z.log2 m) by (apply Z.log2_le_pow2; lia).
    assert (Z.shiftr m 6 <> 0).
    { rewrite Z.shiftr_div_pow2 by lia.
      assert (1 <= m / 2 ^ 6) by (apply Z.div_le_lower_bound; lia). lia. }
    destruct (Z.eqb_spec (Z.shiftr m 6) 0); [done|]. unfold leb_groups.
    rewrite Z.log2_shiftr, Z.max_r by lia.
    pose proof (Z.div_pos (Z.log2 m - 6) 7).
    replace (Z.log2 m + 8) with (Z.log2 m - 6 + 2 * 7) by lia. rewrite Z.div_add by lia. lia.
Qed.

Lemma SignedLeb128Size_groups v :
  is_s 32 v -> SignedLeb128Size v = Z.of_nat (sleb_groups v).
Proof.
  intros Hv. unfold SignedLeb128Size. cbv zeta. rewrite leb_magnitude_xor by done.
  rewrite sleb_groups_log by done. destruct (leb_magnitude_range v Hv) as [Hm Hm'].
  set (m := leb_magnitude v) in *.
  assert (Hl : Z.log2 (Z.lor m 1) = Z.log2 m).
  { rewrite Z.log2_lor by lia. change (Z.log2 1) with 0. pose proof (Z.log2_nonneg m). lia. }
  rewrite (wrap_id 32 (Z.lor m 1)) by (apply (is_u_weaken 31); [lia|]; apply is_u_lor; unfold is_u; lia).
  rewrite CLZ_spec, Hl by lia.
  assert (0 <= Z.log2 m < 31).
  { split; [apply Z.log2_nonneg|]. destruct (Z.eq_dec m 0) as [->|]; [done|].
    apply Z.log2_lt_pow2; lia. }
  replace (1 + 6 + 32 - (32 - 1 - Z.log2 m)) with (Z.log2 m + 8) by lia.
  apply mul37_div7. lia.
Qed.

Lemma sleb_groups_32 v : is_s 32 v -> (1 <= sleb_groups v <= 5)%nat.
Proof.
  intros Hv. pose proof (sleb_groups_log v Hv) as Hg.
  destruct (leb_magnitude_range v Hv) as [Hm Hm'].
  assert (Z.log2 (leb_magnitude v) < 31).
  { destruct (Z.eq_dec (leb_magnitude v) 0) as [->|]; [done|]. apply Z.log2_lt_pow2; lia. }
  assert ((Z.log2 (leb_magnitude v) + 8) / 7 <= 38 / 7) by (apply Z.div_le_mono; lia).
  change (38 / 7) with 5 in *. unfold sleb_groups in *. lia.
Qed.

(** The groups hold the value and its sign. *)
Lemma sleb_groups_fits v :
  is_s 32 v -> is_s (Z.min (7 * Z.of_nat (sleb_groups v)) 32) v.
Proof.
  intros Hv. pose proof (sleb_groups_log v Hv) as Hg. pose proof (sleb_groups_32 v Hv).
  set (n := Z.of_nat (sleb_groups v)) in *.
  destruct (Z.leb_spec 32 (7 * n)); [by rewrite Z.min_r|].
  rewrite Z.min_l by lia. unfold is_s. apply leb_magnitude_bound; [lia|].
  destruct (leb_magnitude_range v Hv) as [Hm _].
  destruct (Z.eq_dec (leb_magnitude v) 0) as [->|]; [apply pow2_pos; lia|].
  apply Z.log2_lt_pow2; [lia|].
  pose proof (Z.mod_pos_bound (Z.log2 (leb_magnitude v) + 8) 7).
  pose proof (Z.div_mod (Z.log2 (leb_magnitude v) + 8) 7). lia.
Qed.

Lemma swrap_mod k j v : 0 < k <= j -> swrap k (v mod 2 ^ j) = swrap k v.
Proof. intros. bits. Qed.

(** ** The round trips *)

(** C31: what [EncodeUnsignedLeb128] appends to a vector is decoded to the same
    value by [DecodeUnsignedLeb128], which leaves the cursor just past it, and
    [UnsignedLeb128Size] is the number of bytes appended. *)
Theorem unsigned_leb128_roundtrip dest v rest (Hv : is_u 32 v) :
  exists bs, EncodeUnsignedLeb128 dest v = Some (dest ++ bs) /\
    zlength bs = UnsignedLeb128Size v /\ 1 <= zlength bs <= 5 /\
    DecodeUnsignedLeb128 (dest ++ bs ++ rest) (zlength dest) =
      Some (v, zlength dest + zlength bs).
Proof.
  exists (leb_bytes (leb_groups v) v). pose proof (leb_groups_32 v Hv) as Hg.
  rewrite EncodeUnsignedLeb128_spec, UnsignedLeb128Size_groups, leb_bytes_length by done.
  repeat split; [lia..|].
  erewrite decode_unsigned_stored; [|apply stored_at|apply leb_shape_bytes; lia].
  rewrite leb_val_bytes, leb_bytes_length. do 2 f_equal.
  rewrite Z.mod_small; [by apply wrap_id|]. destruct Hv. split; [done|].
  by apply leb_groups_fits.
Qed.

Lemma unsigned_leb128_roundtrip_witness :
  exists bs, EncodeUnsignedLeb128 [1; 2] 300 = Some ([1; 2] ++ bs) /\
    zlength bs = UnsignedLeb128Size 300 /\ 1 <= zlength bs <= 5 /\
    DecodeUnsignedLeb128 ([1; 2] ++ bs ++ [7]) (zlength [1; 2]) = Some (300, zlength [1; 2] + zlength bs).
Proof. apply (unsigned_leb128_roundtrip [1; 2] 300 [7]). unfold is_u. lia. Defined.

(** C32: the same for the signed encoding. *)
Theorem signed_leb128_roundtrip dest v rest (Hv : is_s 32 v) :
  exists bs, EncodeSignedLeb128 dest v = Some (dest ++ bs) /\
    zlength bs = SignedLeb128Size v /\ 1 <= zlength bs <= 5 /\
    DecodeSignedLeb128 (dest ++ bs ++ rest) (zlength dest) =
      Some (v, zlength dest + zlength bs).
Proof.
  exists (leb_bytes (sleb_groups v) v). pose proof (sleb_groups_32 v Hv) as Hg.
  rewrite EncodeSignedLeb128_spec, SignedLeb128Size_groups, leb_bytes_length by done.
  repeat split; [lia..|].
  erewrite decode_signed_stored; [|apply stored_at|apply leb_shape_bytes; lia].
  rewrite leb_val_bytes, leb_bytes_length. do 2 f_equal.
  rewrite swrap_mod by lia. apply swrap_id; [lia|]. by apply sleb_groups_fits.
Qed.

Lemma signed_leb128_roundtrip_witness :
  exists bs, EncodeSignedLeb128 [] (-129) = Some ([] ++ bs) /\
    zlength bs = SignedLeb128Size (-129) /\ 1 <= zlength bs <= 5 /\
    DecodeSignedLeb128 ([] ++ bs ++ [7]) (zlength (@nil Z)) =
      Some (-129, zlength (@nil Z) + zlength bs).
Proof. apply (signed_leb128_roundtrip [] (-129) [7]). unfold is_s. lia. Defined.

(** ** The checked decoders *)

Ltac leb_checked mem e :=
  repeat match goal with
  | |- context [aread (take _ _) ?p] => rewrite (aread_take mem e p) by lia
  | |- context [?a >? ?b] => rewrite (Z.gtb_ltb a b)
  | |- context [if ?c then _ else _] =>
      lazymatch c with
      | (_ <=? _) => let E := fresh in destruct c eqn:E
      | (_ <? _) => let E := fresh in destruct c eqn:E
      end
  | |- context [aread mem ?p] =>
      let x := fresh "x" in let H := fresh in
      destruct (aread_some mem p ltac:(lia)) as [x H]; rewrite H
  | _ => progress cbn [mbind option_bind]
  end.

(** C33: the checked decoders never read at or past [end_] and never fail for
    another reason: on any buffer they return what the unchecked decoder
    computes from the bytes before [end_], and [false] exactly when that one
    would run off these bytes. *)
Theorem leb128_checked_decoders mem data end_
    (Hd : 0 <= data) (He : end_ <= zlength mem) :
  DecodeUnsignedLeb128Checked mem data end_ =
    Some (DecodeUnsignedLeb128 (take (Z.to_nat end_) mem) data) /\
  DecodeSignedLeb128Checked mem data end_ =
    Some (DecodeSignedLeb128 (take (Z.to_nat end_) mem) data).
Proof.
  split.
  - unfold DecodeUnsignedLeb128Checked, DecodeUnsignedLeb128. cbv zeta.
    leb_checked mem end_; done.
  - unfold DecodeSignedLeb128Checked, DecodeSignedLeb128. cbv zeta.
    leb_checked mem end_; try done; do 3 f_equal;
      change 0x7f with (Z.ones 7); bits.
Qed.

Lemma leb128_checked_decoders_witness :
  DecodeUnsignedLeb128Checked [0x80; 0x80; 0x01] 0 2 = Some None /\
  (DecodeUnsignedLeb128Checked [0x80; 0x80; 0x01] 0 2 =
    Some (DecodeUnsignedLeb128 (take (Z.to_nat 2) [0x80; 0x80; 0x01]) 0) /\
  DecodeSignedLeb128Checked [0x80; 0x80; 0x01] 0 2 =
    Some (DecodeSignedLeb128 (take (Z.to_nat 2) [0x80; 0x80; 0x01]) 0)).
Proof.
  split; [reflexivity|]. apply (leb128_checked_decoders [0x80; 0x80; 0x01] 0 2); simpl; lia.
Defined.

(** ** Encoding in place *)

Lemma leb_shift_bound fuel v :
  0 <= v < 2 ^ (7 * (Z.of_nat (S fuel) + 1)) ->
  0 <= Z.shiftr v 7 < 2 ^ (7 * (Z.of_nat fuel + 1)).
Proof.
  intros Hv. rewrite Z.shiftr_div_pow2 by lia. split; [apply Z.div_pos; lia|].
  apply Z.div_lt_upper_bound; [lia|]. rewrite <- Z.pow_add_r by lia.
  eapply Z.lt_le_trans; [apply Hv|]. apply Z.pow_le_mono_r; lia.
Qed.

(** Writing one byte and moving the pointer past it. *)
Lemma leb_snoc_pos {A} (pre : list A) b tail :
  pre ++ b :: tail = (pre ++ [b]) ++ tail /\ zlength pre + 1 = zlength (pre ++ [b]).
Proof. rewrite <- app_assoc, length_app. simpl. split; [done|lia]. Qed.

Lemma leb_bytes_groups v :
  128 <= v ->
  leb_bytes (leb_groups v) v =
    Z.lor (Z.land v 0x7f) 0x80 :: leb_bytes (leb_groups (Z.shiftr v 7)) (Z.shiftr v 7).
Proof. intros. by rewrite leb_groups_shift by done. Qed.

Lemma encode_unsigned_loop_spec fuel pre tail v :
  0 <= v < 2 ^ (7 * (Z.of_nat fuel + 1)) -> (leb_groups v <= length tail)%nat ->
  encode_unsigned_loop fuel (pre ++ tail) (zlength pre) (u8 (Z.land v 0x7f)) (Z.shiftr v 7) =
    Some (pre ++ leb_bytes (leb_groups v) v ++ drop (leb_groups v) tail,
          zlength pre + Z.of_nat (leb_groups v)).
Proof.
  revert pre tail v. induction fuel as [|fuel IH]; intros pre tail v Hv Hl;
    cbn [encode_unsigned_loop]; rewrite leb_shiftr_zero, leb_out_byte by lia;
    (destruct tail as [|x tail]; [unfold leb_groups in Hl; simpl in Hl; lia|]);
    rewrite awrite_app; cbn [mbind option_bind];
    destruct (Z.ltb_spec v 128) as [Hs|Hs].
  - by rewrite leb_groups_small by lia.
  - change (2 ^ (7 * (Z.of_nat 0 + 1))) with 128 in Hv. lia.
  - by rewrite leb_groups_small by lia.
  - rewrite awrite_app. cbn [mbind option_bind].
    destruct (leb_snoc_pos pre (Z.lor (Z.land v 0x7f) 0x80) tail) as [-> ->].
    rewrite (leb_bytes_groups v), (leb_groups_shift v) by done.
    rewrite (leb_groups_shift v) in Hl by done. simpl in Hl.
    rewrite IH by (first [by apply leb_shift_bound | lia]).
    rewrite <- app_assoc, length_app. simpl. do 2 f_equal. lia.
Qed.

Lemma EncodeUnsignedLeb128_at_spec pre tail v :
  is_u 32 v -> (leb_groups v <= length tail)%nat ->
  EncodeUnsignedLeb128_at (pre ++ tail) (zlength pre) v =
    Some (pre ++ leb_bytes (leb_groups v) v ++ drop (leb_groups v) tail,
          zlength pre + Z.of_nat (leb_groups v)).
Proof.
  intros [? Hv] Hl. apply encode_unsigned_loop_spec; [|done]. split; [done|].
  eapply Z.lt_le_trans; [exact Hv|]. apply Z.pow_le_mono_r; lia.
Qed.

Lemma encode_signed_loop_spec fuel pre tail v e :
  0 <= e < 2 ^ (7 * Z.of_nat fuel) -> (S (leb_extra e) <= length tail)%nat ->
  encode_signed_loop fuel (pre ++ tail) (zlength pre) (u8 (Z.land v 0x7f)) v e =
    Some (pre ++ leb_bytes (S (leb_extra e)) v ++ drop (S (leb_extra e)) tail,
          zlength pre + Z.of_nat (S (leb_extra e))).
Proof.
  revert pre tail v e. induction fuel as [|fuel IH]; intros pre tail v e He Hl;
    cbn [encode_signed_loop]; rewrite (leb_out_byte v);
    (destruct tail as [|x tail]; [simpl in Hl; lia|]);
    rewrite awrite_app; cbn [mbind option_bind];
    destruct (Z.eqb_spec e 0) as [->|Hne]; try done.
  - simpl in He. lia.
  - rewrite awrite_app. cbn [mbind option_bind]. cbv zeta.
    destruct (leb_snoc_pos pre (Z.lor (Z.land v 0x7f) 0x80) tail) as [-> ->].
    assert (leb_extra e = S (leb_extra (Z.shiftr e 7))) as Hx.
    { unfold leb_extra. destruct (Z.eqb_spec e 0); [done|]. rewrite leb_shiftr_zero by lia.
      destruct (Z.ltb_spec e 128); [apply leb_groups_small; lia|].
      apply leb_groups_shift; lia. }
    rewrite Hx in Hl |- *. simpl in Hl. rewrite IH; [|destruct fuel as [|f]|lia].
    + rewrite leb_bytes_SS, <- app_assoc, length_app. cbn [app length drop]. do 2 f_equal. lia.
    + simpl in He. rewrite Z.shiftr_div_pow2 by lia. change (2 ^ 7) with 128.
      rewrite Z.div_small; simpl; lia.
    + replace (7 * Z.of_nat (S f)) with (7 * (Z.of_nat f + 1)) by lia.
      apply leb_shift_bound. by replace (Z.of_nat (S f) + 1) with (Z.of_nat (S (S f))) by lia.
Qed.

(** Padding an encoding whose last byte is [b] with [k] more groups. *)
Fixpoint leb_pad (k : nat) (b : Z) : list Z :=
  match k with
  | O => [b]
  | S k' => Z.lor b 0x80 :: leb_pad k' 0
  end.

Lemma fill_loop_spec k pre b tail :
  (k <= length tail)%nat ->
  fill_loop k (pre ++ b :: tail) (zlength pre + 1) = Some (pre ++ leb_pad k b ++ drop k tail).
Proof.
  revert pre b tail. induction k as [|k IH]; intros pre b tail Hl; [done|].
  destruct tail as [|x tail]; [simpl in Hl; lia|]. cbn [fill_loop].
  replace (zlength pre + 1 - 1) with (zlength pre) by lia.
  rewrite aread_app. cbn [mbind option_bind]. rewrite awrite_app. cbn [mbind option_bind].
  destruct (leb_snoc_pos pre (Z.lor b 0x80) (x :: tail)) as [-> ->].
  rewrite awrite_app. cbn [mbind option_bind]. rewrite IH by (simpl in Hl; lia).
  by rewrite <- app_assoc.
Qed.

Lemma leb_bytes_pad n k v :
  0 <= v < 2 ^ (7 * (Z.of_nat n + 1)) ->
  exists q b, leb_bytes (S n) v = q ++ [b] /\ leb_bytes (S n + k) v = q ++ leb_pad k b.
Proof.
  revert v. induction n as [|n IH]; intros v Hv.
  - exists [], v. assert (forall w, 0 <= w < 128 -> Z.land w 0x7f = w) as Hsm.
    { intros w Hw. change 0x7f with (Z.ones 7). rewrite Z.land_ones by lia. by apply Z.mod_small. }
    change (2 ^ (7 * (Z.of_nat 0 + 1))) with 128 in Hv.
    split; [simpl; by rewrite Hsm|]. revert v Hv. induction k as [|k IHk]; intros v Hv.
    + simpl. by rewrite Hsm.
    + change (1 + S k)%nat with (S (S k)). rewrite leb_bytes_SS, Hsm by done.
      change (leb_pad (S k) v) with (Z.lor v 0x80 :: leb_pad k 0). cbn [app]. f_equal.
      assert (Z.shiftr v 7 = 0) as -> by (rewrite Z.shiftr_div_pow2 by lia; by apply Z.div_small).
      apply (IHk 0). lia.
  - destruct (IH (Z.shiftr v 7)) as (q & b & E1 & E2); [by apply leb_shift_bound|].
    exists (Z.lor (Z.land v 0x7f) 0x80 :: q), b. rewrite leb_bytes_SS, E1.
    split; [done|]. change (S (S n) + k)%nat with (S (S (n + k))).
    rewrite leb_bytes_SS. change (S (n + k)) with (S n + k)%nat. by rewrite E2.
Qed.

Lemma leb_shape_length k bs : leb_shape k bs -> (1 <= length bs <= S k)%nat.
Proof.
  revert k. induction bs as [|b [|c r] IH]; intros k Hs; [done|simpl; lia|].
  destruct k as [|k]; [by destruct Hs as (?&?&?)|].
  assert (leb_shape k (c :: r)) as Hr%IH by (by destruct Hs as (?&?&?)).
  cbn [length] in *. lia.
Qed.

Lemma leb_val_range bs : is_u (7 * zlength bs) (leb_val bs).
Proof.
  induction bs as [|b bs IH]; [unfold is_u; simpl; lia|].
  cbn [leb_val]. change 0x7f with (Z.ones 7). cbn [length].
  apply is_u_bits; [lia| |].
  - destruct IH. apply Z.lor_nonneg. split; [apply Z.land_nonneg; right; by vm_compute|].
    by apply Z.shiftl_nonneg.
  - intros i Hi. autorewrite with testbit; try lia. zcases; bit_done.
Qed.

(** The canonical encoding is the shortest. *)
Lemma leb_groups_shortest n v : 0 <= v < 2 ^ (7 * Z.of_nat (S n)) -> (leb_groups v <= S n)%nat.
Proof.
  intros Hv. destruct (leb_groups_bound (7 * Z.of_nat (S n)) v) as [Hb| ->];
    [lia|done| |vm_compute; lia].
  replace (7 * Z.of_nat (S n) - 1) with (6 + Z.of_nat n * 7) in Hb by lia.
  rewrite Z.div_add in Hb by lia. change (6 / 7) with 0 in Hb. lia.
Qed.

Lemma leb_groups_stored bs :
  leb_shape 4 bs -> (leb_groups (u32 (leb_val bs)) <= length bs)%nat.
Proof.
  intros Hl%leb_shape_length. destruct (length bs) as [|n] eqn:E; [lia|].
  apply leb_groups_shortest. pose proof (leb_val_range bs) as [H1 H2]. rewrite E in H2.
  pose proof (wrap_is_u 32 (leb_val bs)). split; [by apply wrap_is_u|].
  eapply Z.le_lt_trans; [|exact H2]. by apply Z.mod_le.
Qed.

(** [UpdateUnsignedLeb128] on a stored encoding [old] and a value that needs
    at most as many bytes as the old value writes only the bytes of [old]; the
    new value is decoded from there and the decoder stops where it stopped
    before, so what follows is not disturbed. *)
Theorem UpdateUnsignedLeb128_correct pre old rest v
    (Ho : leb_shape 4 old) (Hv : is_u 32 v)
    (Hs : UnsignedLeb128Size v <= UnsignedLeb128Size (u32 (leb_val old))) :
  exists new, length new = length old /\
    UpdateUnsignedLeb128 (pre ++ old ++ rest) (zlength pre) v = Some (pre ++ new ++ rest) /\
    DecodeUnsignedLeb128 (pre ++ new ++ rest) (zlength pre) =
      Some (v, zlength pre + zlength old).
Proof.
  exists (leb_bytes (length old) v). pose proof (leb_shape_length _ _ Ho) as Hlen.
  pose proof (leb_groups_stored old Ho) as Hold. pose proof (leb_groups_fits v) as Hfit.
  rewrite !UnsignedLeb128Size_groups in Hs by (try done; by apply wrap_is_u).
  split; [apply leb_bytes_length|]. split.
  - unfold UpdateUnsignedLeb128.
    rewrite (decode_unsigned_stored _ _ _ (stored_at pre old rest) Ho). cbn [mbind option_bind].
    rewrite !UnsignedLeb128Size_groups by (try done; by apply wrap_is_u).
    rewrite (proj2 (Z.leb_le _ _) Hs). cbn [dcheck mbind option_bind].
    rewrite EncodeUnsignedLeb128_at_spec by (try done; rewrite length_app; lia).
    cbn [mbind option_bind].
    set (n := Z.to_nat (Z.log2 v / 7)). change (leb_groups v) with (S n) in *.
    rewrite drop_app_le by lia.
    replace (Z.to_nat (zlength pre + zlength old - (zlength pre + Z.of_nat (S n))))
      with (length old - S n)%nat by lia.
    destruct (leb_bytes_pad n (length old - S n) v) as (q & b & E1 & E2).
    { destruct Hv. split; [done|].
      replace (Z.of_nat n + 1) with (Z.of_nat (S n)) by lia. by apply Hfit. }
    replace (S n + (length old - S n))%nat with (length old) in E2 by lia.
    pose proof (leb_bytes_length (S n) v) as Hl. rewrite E1, length_app in Hl. simpl in Hl.
    rewrite E1, E2.
    replace (pre ++ (q ++ [b]) ++ drop (S n) old ++ rest)
      with ((pre ++ q) ++ b :: (drop (S n) old ++ rest)) by (by rewrite <- !app_assoc).
    replace (zlength pre + Z.of_nat (S n)) with (zlength (pre ++ q) + 1)
      by (rewrite length_app; lia).
    rewrite fill_loop_spec by (rewrite length_app, length_drop; lia).
    rewrite drop_app_ge, length_drop by (rewrite length_drop; lia).
    by rewrite Nat.sub_diag, drop_0, <- !app_assoc.
  - erewrite decode_unsigned_stored; [|apply stored_at|apply leb_shape_bytes; lia].
    rewrite leb_val_bytes, leb_bytes_length. do 2 f_equal. destruct Hv as [Hv0 Hv].
    rewrite Z.mod_small; [by apply wrap_id|]. split; [done|].
    eapply Z.lt_le_trans; [by apply Hfit|]. apply Z.pow_le_mono_r; lia.
Qed.

Lemma UpdateUnsignedLeb128_correct_witness :
  exists new, length new = length [0x80; 0x80; 0x04] /\
    UpdateUnsignedLeb128 ([9] ++ [0x80; 0x80; 0x04] ++ [8]) (zlength [9]) 5 =
      Some ([9] ++ new ++ [8]) /\
    DecodeUnsignedLeb128 ([9] ++ new ++ [8]) (zlength [9]) =
      Some (5, zlength [9] + zlength [0x80; 0x80; 0x04]).
Proof.
  apply (UpdateUnsignedLeb128_correct [9] [0x80; 0x80; 0x04] [8] 5).
  - simpl. unfold is_u. lia.
  - unfold is_u. lia.
  - vm_compute. discriminate.
Defined.

(** ** Searching backwards *)

Lemma reverse_search_loop_spec k fuel pre t bs rest :
  0 <= t <= 0x7f -> Forall (fun b => 0x7f < b) bs -> length bs = k -> (k <= fuel)%nat ->
  forall end_, end_ - zlength (pre ++ [t]) <= 5 ->
  reverse_search_loop fuel (pre ++ t :: bs ++ rest) end_ (zlength (pre ++ [t]) + Z.of_nat k) =
    Some (zlength (pre ++ [t])).
Proof.
  intros Ht. revert fuel bs rest. induction k as [|k IH]; intros fuel bs rest Hb Hk Hf end_ He.
  - apply nil_length_inv in Hk as ->.
    assert (Hr : aread (pre ++ t :: rest) (zlength (pre ++ [t]) + Z.of_nat 0 - 1) = Some t).
    { rewrite <- (aread_app pre t rest). f_equal. rewrite length_app. simpl. lia. }
    destruct fuel; simpl app; cbn [reverse_search_loop]; unfold IsLeb128Terminator;
      rewrite Hr; simpl; rewrite (proj2 (Z.leb_le _ _)) by lia; f_equal; lia.
  - destruct bs as [|b bs' _] using rev_ind; [done|].
    rewrite Forall_app, Forall_singleton in Hb. destruct Hb as [Hb Hbb].
    rewrite length_app in Hk. simpl in Hk. destruct fuel as [|fuel]; [lia|].
    cbn [reverse_search_loop]. unfold IsLeb128Terminator.
    assert (aread (pre ++ t :: (bs' ++ [b]) ++ rest)
              (zlength (pre ++ [t]) + Z.of_nat (S k) - 1) = Some b) as ->.
    { rewrite <- (aread_app (pre ++ t :: bs') b rest). f_equal.
      - by rewrite <- !app_assoc.
      - rewrite !length_app. simpl. lia. }
    simpl mbind. rewrite (proj2 (Z.leb_gt _ _)) by lia.
    rewrite <- app_assoc. replace (zlength (pre ++ [t]) + Z.of_nat (S k) - 1)
      with (zlength (pre ++ [t]) + Z.of_nat k) by lia.
    rewrite (proj2 (Z.leb_le _ _)) by lia. simpl. apply (IH fuel bs' ([b] ++ rest)); [done|lia..].
Qed.

Lemma leb_bytes_terminated n v :
  exists bs b, leb_bytes (S n) v = bs ++ [b] /\ Forall (fun b => 0x7f < b) bs /\ 0 <= b <= 0x7f.
Proof.
  revert v. induction n as [|n IH]; intros v.
  - exists [], (Z.land v 0x7f). split; [done|]. split; [constructor|].
    pose proof (leb_byte_range v) as [??]. lia.
  - rewrite leb_bytes_SS. destruct (IH (Z.shiftr v 7)) as (bs & b & -> & Hb & ?).
    exists (Z.lor (Z.land v 0x7f) 0x80 :: bs), b. split; [done|]. split; [|done].
    constructor; [|done]. rewrite leb_cont_byte. pose proof (leb_byte_range v) as [??]. lia.
Qed.

(** From the end of an encoded value that follows another encoded value (a
    byte [t] that terminates one is enough), [ReverseSearchUnsignedLeb128]
    finds the first byte of the encoding without failing its checks. *)
Theorem ReverseSearchUnsignedLeb128_correct pre t v out
    (Ht : 0 <= t <= 0x7f) (Hv : is_u 32 v)
    (He : EncodeUnsignedLeb128 (pre ++ [t]) v = Some out) :
  ReverseSearchUnsignedLeb128 out (zlength out) = Some (zlength (pre ++ [t])).
Proof.
  rewrite EncodeUnsignedLeb128_spec in He by done.
  assert (out = (pre ++ [t]) ++ leb_bytes (leb_groups v) v) as -> by congruence.
  pose proof (leb_groups_32 v Hv) as Hg. pose proof (leb_bytes_length (leb_groups v) v) as Hl.
  unfold leb_groups in *. set (n := Z.to_nat (Z.log2 v / 7)) in *.
  destruct (leb_bytes_terminated n v) as (bs & b & E & Hb & Hb').
  rewrite E in Hl |- *. rewrite length_app in Hl. simpl in Hl.
  unfold ReverseSearchUnsignedLeb128, IsLeb128Terminator. cbv zeta.
  assert (aread ((pre ++ [t]) ++ bs ++ [b]) (zlength ((pre ++ [t]) ++ bs ++ [b]) - 1) = Some b) as ->.
  { rewrite app_assoc. etransitivity; [|apply (aread_app ((pre ++ [t]) ++ bs) b [])].
    f_equal. rewrite !length_app. simpl. lia. }
  cbn [mbind option_bind]. rewrite (proj2 (Z.leb_le b 0x7f)) by lia.
  cbn [dcheck mbind option_bind]. rewrite <- app_assoc. cbn [app].
  replace (zlength (pre ++ t :: bs ++ [b]) - 1) with (zlength (pre ++ [t]) + Z.of_nat n)
    by (rewrite !length_app; simpl; rewrite length_app; simpl; lia).
  apply reverse_search_loop_spec; [done|done|lia|lia|].
  rewrite !length_app. simpl. rewrite length_app. simpl. lia.
Qed.

Lemma ReverseSearchUnsignedLeb128_correct_witness :
  ReverseSearchUnsignedLeb128 [0x81; 0x01; 0xff; 0xff; 0x03] (zlength [0x81; 0x01; 0xff; 0xff; 0x03]) =
    Some (zlength ([0x81] ++ [0x01])).
Proof.
  apply (ReverseSearchUnsignedLeb128_correct [0x81] 0x01 65535); [lia|unfold is_u; lia|reflexivity].
Defined.
