(* ===== verification/BitVector.v ===== *)
(** * The expanding bit vector ([libartbase/base/bit_vector.{h,cc}], [bit_vector-inl.h])

    The words of [storage_] are a list of 32-bit integers, with the size kept
    beside it as in the class; [Alloc] is the allocator of the vector, whose
    memory has arbitrary contents. Reads and writes of [storage_] are
    bounds-checked, so an operation that returns [Some] touched only its own
    words. The theorems relate every operation to the set of bits [bv_bit]. *)

From Stdlib Require Import ZArith Lia Bool Btauto Sorted.
From stdpp Require Import base numbers list option gmap sets.
From S2P Require Import Prelude BitUtils.

Local Open Scope Z_scope.
Local Open Scope art_scope.

Definition kWordBytes : Z := 4.
Definition kWordBits : Z := kWordBytes * 8.

Record BitVector := mkBitVector {
  storage_ : list Z;
  storage_size_ : Z;
  expandable_ : bool
}.

Definition with_storage (v : BitVector) (st : list Z) : BitVector :=
  mkBitVector st (storage_size_ v) (expandable_ v).

(** ** [memcpy], [memset] and [memcmp] on words *)

Definition memcpy_words (dst src : list Z) (n : Z) : option (list Z) :=
  if (0 <=? n) && (n <=? zlength dst) && (n <=? zlength src)
  then Some (take (Z.to_nat n) src ++ drop (Z.to_nat n) dst) else None.

Definition memset_zero_words (dst : list Z) (off n : Z) : option (list Z) :=
  if (0 <=? off) && (0 <=? n) && (off + n <=? zlength dst)
  then Some (take (Z.to_nat off) dst ++ replicate (Z.to_nat n) 0 ++ drop (Z.to_nat (off + n)) dst)
  else None.

(** [memcmp(a, b, n * kWordBytes) == 0] *)
Definition memcmp_words (a b : list Z) (n : Z) : option bool :=
  if (0 <=? n) && (n <=? zlength a) && (n <=? zlength b)
  then Some (bool_decide (take (Z.to_nat n) a = take (Z.to_nat n) b)) else None.

(** ** Accessors *)

Definition WordIndex (idx : Z) : Z := Z.shiftr idx 5.

Definition BitMask (idx : Z) : Z := u32 (Z.shiftl 1 (Z.land idx 0x1f)).

Definition BitsToWords (bits : Z) : Z := RoundUp 32 bits kWordBits / kWordBits.

Definition GetStorageSize (v : BitVector) : Z := storage_size_ v.
Definition IsExpandable (v : BitVector) : bool := expandable_ v.
Definition GetRawStorageWord (v : BitVector) (idx : Z) : option Z := aread (storage_ v) idx.
Definition GetSizeOf (v : BitVector) : Z := u32 (storage_size_ v * kWordBytes).
Definition GetBitSizeOf (v : BitVector) : Z := u32 (storage_size_ v * kWordBits).

(** [static bool IsBitSet(const uint32_t* storage, uint32_t idx)] *)
Definition IsBitSet_storage (storage : list Z) (idx : Z) : option bool :=
  w ← aread storage (WordIndex idx); Some (negb (Z.land w (BitMask idx) =? 0)).

Definition IsBitSet (v : BitVector) (idx : Z) : option bool :=
  if idx <? u32 (storage_size_ v * kWordBits) then IsBitSet_storage (storage_ v) idx
  else Some false.

(** [for (idx = max - 1; idx >= 0; idx--)]: [n] is [idx + 1]. *)
Fixpoint highest_loop (n : nat) (storage : list Z) : option Z :=
  match n with
  | O => Some (-1)
  | S idx =>
      value ← aread storage (Z.of_nat idx);
      if negb (value =? 0) then Some (s32 (u32 (31 - CLZ 32 value + Z.of_nat idx * kWordBits)))
      else highest_loop idx storage
  end.

Definition GetHighestBitSet (v : BitVector) : option Z :=
  highest_loop (Z.to_nat (storage_size_ v)) (storage_ v).

Definition IsAnyBitSet (v : BitVector) : option bool :=
  h ← GetHighestBitSet v; Some (negb (h =? -1)).

Definition GetNumberOfBits (v : BitVector) : option Z :=
  h ← GetHighestBitSet v; Some (h + 1).

(** ** Counting *)

Definition count_words (storage : list Z) (n : Z) (count : Z) : option Z :=
  for_loop (Z.to_nat n) 0 (fun word count =>
    w ← aread storage word; Some (u32 (count + POPCOUNT 32 w))) count.

Definition NumSetBits (v : BitVector) : option Z :=
  count_words (storage_ v) (storage_size_ v) 0.

(** [static uint32_t NumSetBits(const uint32_t* storage, uint32_t end)] *)
Definition NumSetBits_storage (storage : list Z) (end_ : Z) : option Z :=
  let word_end := WordIndex end_ in
  let partial_word_bits := Z.land end_ 0x1f in
  count ← count_words storage word_end 0;
  if negb (partial_word_bits =? 0) then
    w ← aread storage word_end;
    Some (u32 (count + POPCOUNT 32
      (Z.land w (u32 (Z.lnot (u32 (Z.shiftl 0xffffffff partial_word_bits)))))))
  else Some count.

(** [uint32_t NumSetBits(uint32_t end) const] *)
Definition NumSetBits_end (v : BitVector) (end_ : Z) : option Z :=
  DCHECK (end_ <=? u32 (storage_size_ v * kWordBits));
  NumSetBits_storage (storage_ v) end_.

(** ** Comparing *)

Definition Equal (v src : BitVector) : option bool :=
  if storage_size_ v =? GetStorageSize src then
    if Bool.eqb (expandable_ v) (IsExpandable src)
    then memcmp_words (storage_ v) (storage_ src) (storage_size_ v)
    else Some false
  else Some false.

Definition SameBitsSet (v src : BitVector) : option bool :=
  our_highest ← GetHighestBitSet v;
  src_highest ← GetHighestBitSet src;
  if negb (our_highest =? src_highest) then Some false
  else if our_highest <=? 0 then Some true
  else
    let our_highest_index := BitsToWords our_highest in
    memcmp_words (storage_ v) (storage_ src) our_highest_index.

Fixpoint subset_loop (n : nat) (i : Z) (this other : list Z) : option bool :=
  match n with
  | O => Some true
  | S n' =>
      this_storage ← aread this i;
      other_storage ← aread other i;
      if negb (Z.lor this_storage other_storage =? other_storage) then Some false
      else subset_loop n' (i + 1) this other
  end.

Definition IsSubsetOf (v other : BitVector) : option bool :=
  this_highest ← GetHighestBitSet v;
  other_highest ← GetHighestBitSet other;
  if this_highest <? 0 then Some true
  else if this_highest >? other_highest then Some false
  else
    let this_highest_index := BitsToWords (this_highest + 1) in
    subset_loop (Z.to_nat this_highest_index) 0 (storage_ v) (storage_ other).

(** ** Updating *)

Definition ClearBit (v : BitVector) (idx : Z) : option BitVector :=
  if idx <? u32 (storage_size_ v * kWordBits) then
    w ← aread (storage_ v) (WordIndex idx);
    st ← awrite (storage_ v) (WordIndex idx) (Z.land w (u32 (Z.lnot (BitMask idx))));
    Some (with_storage v st)
  else Some v.

Definition ClearAllBits (v : BitVector) : option BitVector :=
  st ← memset_zero_words (storage_ v) 0 (storage_size_ v);
  Some (with_storage v st).

Definition Intersect (v src : BitVector) : option BitVector :=
  let src_storage_size := storage_size_ src in
  let min_size := if storage_size_ v <? src_storage_size then storage_size_ v else src_storage_size in
  st ← for_loop (Z.to_nat min_size) 0 (fun idx st =>
         w ← aread st idx; s ← GetRawStorageWord src idx; awrite st idx (Z.land w s)) (storage_ v);
  st ← for_loop (Z.to_nat (storage_size_ v - min_size)) min_size (fun idx st =>
         awrite st idx 0) st;
  Some (with_storage v st).

Definition Subtract (v src : BitVector) : option BitVector :=
  let src_size := storage_size_ src in
  let min_size := if storage_size_ v >? src_size then src_size else storage_size_ v in
  st ← for_loop (Z.to_nat min_size) 0 (fun idx st =>
         w ← aread st idx; s ← GetRawStorageWord src idx;
         awrite st idx (Z.land w (u32 (Z.lnot s)))) (storage_ v);
  Some (with_storage v st).

(** The bytes of a word in memory (little endian). *)
Definition word_bytes (w : Z) : list Z :=
  [Z.land w 0xff; Z.land (Z.shiftr w 8) 0xff; Z.land (Z.shiftr w 16) 0xff;
   Z.land (Z.shiftr w 24) 0xff].

(** [CopyTo]: the [len] bytes written at [dst]. *)
Definition CopyTo (v : BitVector) (len : Z) : option (list Z) :=
  h ← GetHighestBitSet v;
  DCHECK (h + 1 <=? len * 8);
  let vec_len := GetSizeOf v in
  let bytes := concat (map word_bytes (storage_ v)) in
  if vec_len <? len then
    if vec_len <=? zlength bytes
    then Some (take (Z.to_nat vec_len) bytes ++ replicate (Z.to_nat (len - vec_len)) 0) else None
  else if len <=? zlength bytes then Some (take (Z.to_nat len) bytes) else None.

(** ** Operations that allocate *)

Section Allocator.

(** The words of the memory returned by [Alloc(bytes)]; nothing is known of
    their contents. *)
Variable Alloc : Z -> list Z.

Definition EnsureSize (v : BitVector) (idx : Z) : option BitVector :=
  if u32 (storage_size_ v * kWordBits) <=? idx then
    DCHECK (expandable_ v);
    let new_size := BitsToWords (u32 (idx + 1)) in
    DCHECK (storage_size_ v <? new_size);
    let new_storage := Alloc (u32 (new_size * kWordBytes)) in
    new_storage ← memcpy_words new_storage (storage_ v) (storage_size_ v);
    new_storage ← memset_zero_words new_storage (storage_size_ v) (new_size - storage_size_ v);
    Some (mkBitVector new_storage new_size (expandable_ v))
  else Some v.

(** [BitVector(uint32_t start_bits, bool expandable, Allocator* allocator)] *)
Definition BitVector_create (start_bits : Z) (expandable : bool) : option BitVector :=
  ClearAllBits (mkBitVector (Alloc (u32 (BitsToWords start_bits * kWordBytes)))
                            (BitsToWords start_bits) expandable).

Definition SetBit (v : BitVector) (idx : Z) : option BitVector :=
  v ← (if u32 (storage_size_ v * kWordBits) <=? idx then EnsureSize v idx else Some v);
  w ← aread (storage_ v) (WordIndex idx);
  st ← awrite (storage_ v) (WordIndex idx) (Z.lor w (BitMask idx));
  Some (with_storage v st).

Definition Copy (v src : BitVector) : option BitVector :=
  highest_bit ← GetHighestBitSet src;
  if highest_bit =? -1 then ClearAllBits v
  else
    v ← SetBit v highest_bit;
    let size := 1 + highest_bit / kWordBits in
    st ← memcpy_words (storage_ v) (storage_ src) size;
    let left := u32 (storage_size_ v - size) in
    if 0 <? left then
      st ← memset_zero_words st size left;
      Some (with_storage v st)
    else Some (with_storage v st).

(** [BitVector(const BitVector& src, bool expandable, Allocator* allocator)] *)
Definition BitVector_copy (src : BitVector) (expandable : bool) : option BitVector :=
  Copy (mkBitVector (Alloc (u32 (storage_size_ src * kWordBytes))) (storage_size_ src) expandable)
       src.

(** One step of the update loops: [existing] becomes [existing | word]. *)
Definition union_step (word : Z -> option Z) (idx : Z) (s : bool * list Z)
    : option (bool * list Z) :=
  let '(changed, st) := s in
  existing ← aread st idx;
  w ← word idx;
  let update := Z.lor existing w in
  if negb (existing =? update) then
    st ← awrite st idx update; Some (true, st)
  else Some (changed, st).

Definition Union (v src : BitVector) : option (BitVector * bool) :=
  highest_bit ← GetHighestBitSet src;
  if highest_bit =? -1 then Some (v, false)
  else
    let src_size := BitsToWords (highest_bit + 1) in
    '(v, changed) ←
      (if storage_size_ v <? src_size then
         v ← EnsureSize v highest_bit;
         DCHECK (highest_bit <? u32 (storage_size_ v * kWordBits));
         Some (v, true)
       else Some (v, false));
    '(changed, st) ← for_loop (Z.to_nat src_size) 0 (union_step (GetRawStorageWord src))
                       (changed, storage_ v);
    Some (with_storage v st, changed).

Definition UnionIfNotIn (v union_with not_in : BitVector) : option (BitVector * bool) :=
  highest_bit ← GetHighestBitSet union_with;
  if highest_bit =? -1 then Some (v, false)
  else
    let union_with_size := BitsToWords (highest_bit + 1) in
    v ← (if storage_size_ v <? union_with_size then
           v ← EnsureSize v highest_bit;
           DCHECK (highest_bit <? u32 (storage_size_ v * kWordBits));
           Some v
         else Some v);
    let not_in_size := GetStorageSize not_in in
    let first := Z.min not_in_size union_with_size in
    '(changed, st) ← for_loop (Z.to_nat first) 0 (union_step (fun idx =>
        w ← GetRawStorageWord union_with idx;
        n ← GetRawStorageWord not_in idx;
        Some (Z.land w (u32 (Z.lnot n))))) (false, storage_ v);
    '(changed, st) ← for_loop (Z.to_nat (union_with_size - first)) first
                       (union_step (GetRawStorageWord union_with)) (changed, st);
    Some (with_storage v st, changed).

Definition SetInitialBits (v : BitVector) (num_bits : Z) : option BitVector :=
  if num_bits =? 0 then ClearAllBits v
  else
    v ← SetBit v (num_bits - 1);
    let idx := WordIndex num_bits in
    st ← for_loop (Z.to_nat idx) 0 (fun idx st => awrite st idx 0xffffffff) (storage_ v);
    let rem_num_bits := Z.land num_bits 0x1f in
    '(idx, st) ←
      (if negb (rem_num_bits =? 0) then
         st ← awrite st idx (u32 (u32 (Z.shiftl 1 rem_num_bits) - 1)); Some (idx + 1, st)
       else Some (idx, st));
    st ← for_loop (Z.to_nat (storage_size_ v - idx)) idx (fun idx st => awrite st idx 0) st;
    Some (with_storage v st).

End Allocator.

(** ** Iterating over the set bits *)

Record IndexIterator := mkIndexIterator {
  bit_storage_ : list Z;
  it_storage_size_ : Z;
  bit_index_ : Z
}.

Definition BitSize (it : IndexIterator) : Z := u32 (it_storage_size_ it * kWordBits).

(** [while (word == 0u)]; the word index grows to [storage_size_], so this many
    units of fuel are enough. *)
Fixpoint find_index_loop (fuel : nat) (it : IndexIterator) (word_index word : Z) : option Z :=
  if word =? 0 then
    match fuel with
    | O => None
    | S fuel' =>
        let word_index := word_index + 1 in
        if word_index =? it_storage_size_ it then Some (BitSize it)
        else
          word ← aread (bit_storage_ it) word_index;
          find_index_loop fuel' it word_index word
    end
  else Some (u32 (word_index * 32 + CTZ word)).

Definition FindIndex (it : IndexIterator) (start_index : Z) : option Z :=
  DCHECK (start_index <=? BitSize it);
  let word_index := start_index / kWordBits in
  if word_index =? it_storage_size_ it then Some start_index
  else
    word ← aread (bit_storage_ it) word_index;
    let word := Z.land word (u32 (Z.shiftl 0xffffffff (Z.land start_index 0x1f))) in
    find_index_loop (Z.to_nat (it_storage_size_ it)) it word_index word.

(** [IndexIterator(bit_vector, begin_tag)] and [IndexIterator(bit_vector, end_tag)] *)
Definition Indexes_begin (v : BitVector) : option IndexIterator :=
  i ← FindIndex (mkIndexIterator (storage_ v) (storage_size_ v) 0) 0;
  Some (mkIndexIterator (storage_ v) (storage_size_ v) i).

Definition Indexes_end (v : BitVector) : IndexIterator :=
  mkIndexIterator (storage_ v) (storage_size_ v)
    (BitSize (mkIndexIterator (storage_ v) (storage_size_ v) 0)).

(** The first check compares the two pointers, here the words they point to. *)
Definition IndexIterator_eq (it other : IndexIterator) : option bool :=
  DCHECK (bool_decide (bit_storage_ it = bit_storage_ other));
  DCHECK (it_storage_size_ it =? it_storage_size_ other);
  Some (bit_index_ it =? bit_index_ other).

Definition IndexIterator_deref (it : IndexIterator) : option Z :=
  DCHECK (bit_index_ it <? BitSize it); Some (bit_index_ it).

Definition IndexIterator_next (it : IndexIterator) : option IndexIterator :=
  DCHECK (bit_index_ it <? BitSize it);
  i ← FindIndex it (u32 (bit_index_ it + 1));
  Some (mkIndexIterator (bit_storage_ it) (it_storage_size_ it) i).

Definition IndexIterator_Done (it : IndexIterator) : bool := bit_index_ it =? BitSize it.

(** [for (uint32_t idx : bit_vector.Indexes())]: the indexes visited. *)
Fixpoint indexes_loop (fuel : nat) (it end_ : IndexIterator) : option (list Z) :=
  done ← IndexIterator_eq it end_;
  if (done : bool) then Some []
  else match fuel with
  | O => None
  | S fuel' =>
      idx ← IndexIterator_deref it;
      it ← IndexIterator_next it;
      rest ← indexes_loop fuel' it end_;
      Some (idx :: rest)
  end.

Definition Indexes (v : BitVector) : option (list Z) :=
  it ← Indexes_begin v;
  indexes_loop (Z.to_nat (32 * storage_size_ v)) it (Indexes_end v).

(** ** Two-dimensional arrays of bits: [BaseBitVectorArray] with its raw data *)

Record BaseBitVectorArray := mkBitVectorArray {
  num_columns_ : Z;
  num_rows_ : Z;
  raw_data : BitVector
}.

Definition with_data (a : BaseBitVectorArray) (v : BitVector) : BaseBitVectorArray :=
  mkBitVectorArray (num_columns_ a) (num_rows_ a) v.

(** [BitVectorArray(BitVector&& bv, size_t rows, size_t cols)] *)
Definition BitVectorArray_create (bv : BitVector) (rows cols : Z) : BaseBitVectorArray :=
  mkBitVectorArray (RoundUp 64 cols kWordBits) rows bv.

Definition RequiredBitVectorSize (rows cols : Z) : Z := u64 (rows * RoundUp 64 cols kWordBits).

Definition MaxRowsFor (bv : BitVector) (cols : Z) : Z :=
  if negb (cols =? 0) then GetBitSizeOf bv / RoundUp 64 cols kWordBits else 0.

Definition array_Clear (a : BaseBitVectorArray) : option BaseBitVectorArray :=
  v ← ClearAllBits (raw_data a); Some (with_data a v).

Definition array_SetBit (Alloc : Z -> list Z) (a : BaseBitVectorArray) (row col : Z)
    : option BaseBitVectorArray :=
  DCHECK (col <? num_columns_ a);
  DCHECK (row <? num_rows_ a);
  v ← SetBit Alloc (raw_data a) (u32 (row * num_columns_ a + col));
  Some (with_data a v).

Definition array_ClearBit (a : BaseBitVectorArray) (row col : Z) : option BaseBitVectorArray :=
  DCHECK (col <? num_columns_ a);
  DCHECK (row <? num_rows_ a);
  v ← ClearBit (raw_data a) (u32 (row * num_columns_ a + col));
  Some (with_data a v).

Definition array_IsBitSet (a : BaseBitVectorArray) (row col : Z) : option bool :=
  DCHECK (col <? num_columns_ a);
  DCHECK (row <? num_rows_ a);
  IsBitSet (raw_data a) (u32 (row * num_columns_ a + col)).

Definition Resize (Alloc : Z -> list Z) (a : BaseBitVectorArray) (rows cols : Z) (clear : bool)
    : option BaseBitVectorArray :=
  DCHECK (IsExpandable (raw_data a));
  a ← (if clear then array_Clear a else Some a);
  let cols := RoundUp 64 cols kWordBits in
  let last := u32 (u64 (u64 (rows * cols) - 1)) in
  v ← SetBit Alloc (raw_data a) last;
  v ← ClearBit v last;
  Some (mkBitVectorArray cols rows v).

Definition UnionRows (a : BaseBitVectorArray) (dest_row other : Z) : option BaseBitVectorArray :=
  DCHECK (dest_row <? num_rows_ a);
  DCHECK (other <? num_rows_ a);
  let block_words := num_columns_ a / kWordBits in
  let dest := u64 (dest_row * num_columns_ a) / kWordBits in
  let source := u64 (other * num_columns_ a) / kWordBits in
  st ← for_loop (Z.to_nat block_words) 0 (fun i st =>
         d ← aread st (dest + i); s ← aread st (source + i);
         awrite st (dest + i) (Z.lor d s)) (storage_ (raw_data a));
  Some (with_data a (with_storage (raw_data a) st)).

(** ** The set of bits *)

Definition bv_bit (st : list Z) (i : Z) : bool :=
  match aread st (i / 32) with Some w => Z.testbit w (i mod 32) | None => false end.

(** The sizes that keep the [int] of [GetHighestBitSet] and the products of
    sizes and word widths from overflowing. *)
Definition wf (v : BitVector) : Prop :=
  zlength (storage_ v) = storage_size_ v /\ Forall (is_u 32) (storage_ v) /\
  storage_size_ v < 2 ^ 26.

#[export] Instance wf_dec v : Decision (wf v).
Proof. unfold wf. apply _. Defined.

(** A concrete vector is well formed by computation. *)
Ltac wf_compute := apply (bool_decide_unpack _); vm_compute; exact I.

Lemma bv_read st i w : aread st (i / 32) = Some w -> bv_bit st i = Z.testbit w (i mod 32).
Proof. unfold bv_bit. by intros ->. Qed.

Lemma bv_bit_out st i : 32 * zlength st <= i -> bv_bit st i = false.
Proof.
  intros Hi. unfold bv_bit. destruct (aread st (i / 32)) as [w|] eqn:E; [|done].
  apply aread_inv in E. assert (zlength st <= i / 32) by (apply Z.div_le_lower_bound; lia). lia.
Qed.

Lemma bv_bit_neg st i : i < 0 -> bv_bit st i = false.
Proof.
  intros Hi. unfold bv_bit, aread. assert (i / 32 < 0) by (apply Z.div_lt_upper_bound; lia).
  destruct (Z.leb_spec 0 (i / 32)); [lia|done].
Qed.

Lemma bv_bit_in st i : bv_bit st i = true -> 0 <= i < 32 * zlength st.
Proof.
  intros Hb. destruct (Z.ltb_spec i 0); [by rewrite bv_bit_neg in Hb|].
  destruct (Z.leb_spec (32 * zlength st) i); [by rewrite bv_bit_out in Hb|lia].
Qed.

Lemma word_is_u st i w : Forall (is_u 32) st -> aread st i = Some w -> is_u 32 w.
Proof.
  intros Hf Ha. pose proof (aread_inv _ _ _ Ha). rewrite aread_lookup in Ha by lia.
  by eapply Forall_lookup_1.
Qed.

(** Two storages have the same words where they have the same bits. *)
Lemma words_eq_bits w1 w2 :
  is_u 32 w1 -> is_u 32 w2 -> (forall i, 0 <= i < 32 -> Z.testbit w1 i = Z.testbit w2 i) -> w1 = w2.
Proof.
  intros H1 H2 Hb. apply Z.bits_inj'. intros i Hi.
  destruct (Z.ltb_spec i 32); [apply Hb; lia|].
  by rewrite !(testbit_high 32) by done.
Qed.

Lemma idx_split i : i = 32 * (i / 32) + i mod 32 /\ 0 <= i mod 32 < 32.
Proof. pose proof (Z.div_mod i 32). pose proof (Z.mod_pos_bound i 32). lia. Qed.

Lemma bv_bit_word st k b w : 0 <= b < 32 -> aread st k = Some w -> bv_bit st (32 * k + b) = Z.testbit w b.
Proof.
  intros Hb Hw. rewrite (bv_read _ _ w).
  - f_equal. rewrite Z.mul_comm, Z.add_comm, Z.mod_add by lia. by apply Z.mod_small.
  - replace ((32 * k + b) / 32) with k; [done|].
    apply Z.div_unique with (r := b); lia.
Qed.

Lemma WordIndex_div i : WordIndex i = i / 32.
Proof. unfold WordIndex. by rewrite Z.shiftr_div_pow2. Qed.

Lemma BitMask_pow2 i : BitMask i = 2 ^ (i mod 32).
Proof.
  unfold BitMask. change 0x1f with (Z.ones 5). rewrite Z.land_ones by lia.
  change (2 ^ 5) with 32. pose proof (idx_split i). rewrite Z.shiftl_1_l. apply wrap_id.
  split; [apply Z.pow_nonneg; lia|]. apply Z.pow_lt_mono_r; lia.
Qed.

Lemma bits_size_wrap v : wf v -> u32 (storage_size_ v * kWordBits) = 32 * storage_size_ v.
Proof.
  intros (Hl & _ & Hs). rewrite wrap_id; [unfold kWordBits, kWordBytes; lia|].
  unfold is_u, kWordBits, kWordBytes. lia.
Qed.

Lemma BitsToWords_spec b : 0 <= b <= 2 ^ 32 - 32 -> BitsToWords b = (b + 31) / 32.
Proof.
  intros Hb. pose proof (RoundUp_spec 32 b 5 ltac:(lia) ltac:(lia) ltac:(lia)) as Hr.
  change (2 ^ 5) with 32 in Hr. unfold BitsToWords. change kWordBits with 32.
  rewrite Hr, Z.div_mul by lia. f_equal. lia.
Qed.

(** ** Single bits and sizes *)

Lemma IsBitSet_spec v idx : wf v -> 0 <= idx -> IsBitSet v idx = Some (bv_bit (storage_ v) idx).
Proof.
  intros Hwf Hi. unfold IsBitSet. rewrite bits_size_wrap by done. destruct Hwf as (Hl & Hw & Hs).
  destruct (Z.ltb_spec idx (32 * storage_size_ v)).
  - unfold IsBitSet_storage, bv_bit. rewrite WordIndex_div, BitMask_pow2.
    destruct (aread_some (storage_ v) (idx / 32)) as [w Hr].
    { rewrite Hl. split; [apply Z.div_pos; lia|apply Z.div_lt_upper_bound; lia]. }
    rewrite Hr. simpl. f_equal. pose proof (idx_split idx) as [_ ?].
    destruct (Z.testbit w (idx mod 32)) eqn:E.
    + apply negb_true_iff, Z.eqb_neq. intros Hz.
      assert (Hb : Z.testbit (Z.land w (2 ^ (idx mod 32))) (idx mod 32) = true).
      { rewrite Z.land_spec, E, Z.pow2_bits_true by lia. done. }
      by rewrite Hz, Z.bits_0 in Hb.
    + apply negb_false_iff, Z.eqb_eq. apply Z.bits_inj'. intros j Hj.
      rewrite Z.land_spec, testbit_pow2, Z.bits_0 by lia.
      destruct (Z.eqb_spec j (idx mod 32)) as [->|]; [by rewrite E|apply andb_false_r].
  - by rewrite bv_bit_out by lia.
Qed.

(** Replacing the word of [idx]. *)
Lemma write_word v idx w (f : Z -> Z) :
  wf v -> 0 <= idx < 32 * storage_size_ v -> aread (storage_ v) (idx / 32) = Some w ->
  is_u 32 (f w) ->
  exists st, awrite (storage_ v) (idx / 32) (f w) = Some st /\ wf (with_storage v st) /\
    forall i, 0 <= i ->
      bv_bit st i = if i / 32 =? idx / 32 then Z.testbit (f w) (i mod 32) else bv_bit (storage_ v) i.
Proof.
  intros (Hl & Hw & Hs) Hi Hr Hf. pose proof (aread_inv _ _ _ Hr).
  exists (<[Z.to_nat (idx / 32) := f w]> (storage_ v)). rewrite awrite_some by lia.
  split; [done|]. split.
  - split; [simpl; rewrite length_insert; lia|]. split; [|done]. simpl.
    by apply Forall_insert.
  - intros i Hi'. unfold bv_bit. rewrite aread_insert by (try apply Z.div_pos; lia).
    by destruct (i / 32 =? idx / 32).
Qed.

Lemma word_at v idx :
  wf v -> 0 <= idx < 32 * storage_size_ v ->
  exists w, aread (storage_ v) (idx / 32) = Some w /\ is_u 32 w.
Proof.
  intros (Hl & Hw & Hs) Hi. destruct (aread_some (storage_ v) (idx / 32)) as [w Hr].
  - rewrite Hl. split; [apply Z.div_pos; lia|apply Z.div_lt_upper_bound; lia].
  - eauto using word_is_u.
Qed.

Lemma same_word i j : 0 <= i -> i / 32 = j / 32 -> (i mod 32 =? j mod 32) = (i =? j).
Proof.
  intros Hi Hd. pose proof (idx_split i) as [Ei _]. pose proof (idx_split j) as [Ej _].
  destruct (Z.eqb_spec i j) as [->|]; [apply Z.eqb_refl|]. apply Z.eqb_neq. lia.
Qed.

Lemma ClearBit_spec v idx :
  wf v -> 0 <= idx ->
  exists v', ClearBit v idx = Some v' /\ wf v' /\ storage_size_ v' = storage_size_ v /\
    expandable_ v' = expandable_ v /\
    forall i, 0 <= i -> bv_bit (storage_ v') i = bv_bit (storage_ v) i && negb (i =? idx).
Proof.
  intros Hwf Hi. unfold ClearBit. rewrite bits_size_wrap by done.
  destruct (Z.ltb_spec idx (32 * storage_size_ v)) as [Hin|Hout].
  - rewrite WordIndex_div, BitMask_pow2. destruct (word_at v idx) as (w & Hr & Hu); [done|lia|].
    destruct (write_word v idx w (fun w => Z.land w (u32 (Z.lnot (2 ^ (idx mod 32))))))
      as (st & Hw & Hwf' & Hb); [done|lia|done|by apply is_u_land_l|].
    rewrite Hr. simpl. rewrite Hw. simpl. exists (with_storage v st).
    do 4 (split; [done|]). intros i Hi'. simpl. rewrite Hb by done.
    destruct (Z.eqb_spec (i / 32) (idx / 32)) as [E|E].
    + rewrite <- (same_word i idx) by done. pose proof (idx_split i). pose proof (idx_split idx).
      rewrite (bv_read _ i w) by congruence.
      rewrite Z.land_spec, testbit_wrap, testbit_lnot, testbit_pow2 by lia.
      zcases; bit_done.
    + destruct (Z.eqb_spec i idx) as [->|]; [done|]. by rewrite andb_true_r.
  - exists v. do 4 (split; [done|]). intros i Hi'. destruct (Z.eqb_spec i idx) as [->|].
    + destruct Hwf as (Hl & _ & _). by rewrite bv_bit_out by lia.
    + by rewrite andb_true_r.
Qed.

Lemma memset_spec dst off n :
  0 <= off -> 0 <= n -> off + n <= zlength dst ->
  exists l, memset_zero_words dst off n = Some l /\ updated (fun _ _ => 0) off (off + n) dst l.
Proof.
  intros Ho Hn Hl. unfold memset_zero_words.
  rewrite !(proj2 (Z.leb_le _ _)) by lia. eexists. split; [done|]. split.
  - rewrite !length_app, length_take, length_replicate, length_drop. lia.
  - intros j Hj. rewrite !aread_lookup by lia.
    destruct (Z.leb_spec off j); simpl; [|rewrite lookup_app_l, lookup_take_lt by
      (rewrite ?length_take; lia); done].
    rewrite lookup_app_r by (rewrite length_take; lia). rewrite length_take.
    destruct (Z.ltb_spec j (off + n)).
    + rewrite lookup_app_l by (rewrite length_replicate; lia).
      rewrite lookup_replicate_2 by lia.
      destruct (lookup_lt_is_Some_2 dst (Z.to_nat j)) as [x ->]; [lia|done].
    + rewrite lookup_app_r by (rewrite length_replicate; lia).
      rewrite lookup_drop, length_replicate. f_equal. lia.
Qed.

Lemma memcpy_spec dst src n :
  0 <= n -> n <= zlength dst -> n <= zlength src ->
  exists l, memcpy_words dst src n = Some l /\ length l = length dst /\
    forall j, 0 <= j -> aread l j = if j <? n then aread src j else aread dst j.
Proof.
  intros Hn Hd Hs. unfold memcpy_words. rewrite !(proj2 (Z.leb_le _ _)) by lia.
  eexists. split; [done|]. split; [rewrite length_app, length_take, length_drop; lia|].
  intros j Hj. rewrite !aread_lookup by lia. destruct (Z.ltb_spec j n).
  - rewrite lookup_app_l, lookup_take_lt by (rewrite ?length_take; lia). done.
  - rewrite lookup_app_r by (rewrite length_take; lia). rewrite length_take, lookup_drop.
    f_equal. lia.
Qed.

(** Bits of a storage whose words come from another by an in-place loop. *)
Lemma bv_bit_updated g i k st st' b :
  updated g i k st st' -> 0 <= b ->
  bv_bit st' b =
    if (i <=? b / 32) && (b / 32 <? k) then
      match aread st (b / 32) with Some w => Z.testbit (g (b / 32) w) (b mod 32) | None => false end
    else bv_bit st b.
Proof.
  intros [_ Hg] Hb. unfold bv_bit. rewrite Hg by (apply Z.div_pos; lia).
  destruct ((i <=? b / 32) && (b / 32 <? k)); [|done].
  by destruct (aread st (b / 32)).
Qed.

Lemma updated_wf v g i k st :
  wf v -> updated g i k (storage_ v) st ->
  (forall j x, i <= j < k -> aread (storage_ v) j = Some x -> is_u 32 x -> is_u 32 (g j x)) ->
  wf (with_storage v st).
Proof.
  intros (Hl & Hw & Hs) Hu Hg. split; [simpl; destruct Hu as [-> _]; done|].
  split; [|done]. simpl. eapply updated_forall; [done..|]. eauto.
Qed.

(** The contents of the words do not matter: [ClearAllBits] works on fresh memory. *)
Lemma ClearAllBits_raw v :
  zlength (storage_ v) = storage_size_ v -> storage_size_ v < 2 ^ 26 ->
  exists v', ClearAllBits v = Some v' /\ wf v' /\ storage_size_ v' = storage_size_ v /\
    expandable_ v' = expandable_ v /\ forall i, 0 <= i -> bv_bit (storage_ v') i = false.
Proof.
  intros Hl Hs. unfold ClearAllBits.
  destruct (memset_spec (storage_ v) 0 (storage_size_ v)) as (st & -> & Hu); [lia..|].
  exists (with_storage v st). split; [done|]. rewrite Z.add_0_l in Hu.
  assert (Hz : forall j x, aread st j = Some x -> x = 0).
  { destruct Hu as [Hlen Hg]. intros j x Hx. pose proof (aread_inv _ _ _ Hx).
    rewrite Hg in Hx by lia. revert Hx. zcases. simpl. destruct (aread (storage_ v) j); simpl; congruence. }
  split; [split; [simpl; destruct Hu as [-> _]; done|split; [|done]]|].
  - simpl. apply Forall_aread. intros j x ->%Hz. unfold is_u. lia.
  - do 2 (split; [done|]). intros i Hi. simpl. unfold bv_bit.
    destruct (aread st (i / 32)) as [x|] eqn:E; [|done]. rewrite (Hz _ _ E). apply Z.bits_0.
Qed.

(** ** The highest bit *)

(** [h] is the greatest index of a set bit, or -1. *)
Definition highest (st : list Z) (h : Z) : Prop :=
  (h = -1 \/ bv_bit st h = true) /\ forall i, h < i -> bv_bit st i = false.

Lemma highest_loop_spec n st :
  (n <= length st)%nat -> zlength st < 2 ^ 26 -> Forall (is_u 32) st ->
  exists h, highest_loop n st = Some h /\ -1 <= h < 32 * Z.of_nat n /\
    (h = -1 \/ bv_bit st h = true) /\ forall i, h < i < 32 * Z.of_nat n -> bv_bit st i = false.
Proof.
  intros Hn Hl Hf. induction n as [|n IH].
  - exists (-1). split; [done|]. split; [lia|]. split; [by left|]. lia.
  - cbn [highest_loop]. destruct (aread_some st (Z.of_nat n)) as [w Hw]; [lia|].
    rewrite Hw. cbn [mbind option_bind]. pose proof (word_is_u _ _ _ Hf Hw) as [Hw0 Hw32].
    destruct (Z.eqb_spec w 0) as [->|Hne]; cbn [negb].
    + destruct IH as (h & -> & Hh & Hb & Hz); [lia|]. exists h. split; [done|]. split; [lia|].
      split; [done|]. intros i Hi. destruct (Z.ltb_spec i (32 * Z.of_nat n)); [apply Hz; lia|].
      replace i with (32 * Z.of_nat n + (i - 32 * Z.of_nat n)) by lia.
      rewrite (bv_bit_word st _ _ 0) by (done || lia). apply Z.bits_0.
    + assert (0 <= Z.log2 w < 32) by (split; [apply Z.log2_nonneg|apply Z.log2_lt_pow2; lia]).
      rewrite CLZ_spec by lia. unfold kWordBits, kWordBytes.
      replace (31 - (32 - 1 - Z.log2 w) + Z.of_nat n * (4 * 8)) with (32 * Z.of_nat n + Z.log2 w) by lia.
      rewrite wrap_id by (unfold is_u; lia). rewrite swrap_id by (unfold is_s; lia).
      eexists. split; [done|]. split; [lia|]. split.
      * right. rewrite (bv_bit_word st _ _ w) by (done || lia). apply Z.bit_log2. lia.
      * intros i Hi. replace i with (32 * Z.of_nat n + (i - 32 * Z.of_nat n)) by lia.
        rewrite (bv_bit_word st _ _ w) by (done || lia). apply Z.bits_above_log2; lia.
Qed.

Lemma GetHighestBitSet_spec v :
  wf v -> exists h, GetHighestBitSet v = Some h /\ -1 <= h < 32 * storage_size_ v /\
                    highest (storage_ v) h.
Proof.
  intros (Hl & Hw & Hs). unfold GetHighestBitSet.
  destruct (highest_loop_spec (Z.to_nat (storage_size_ v)) (storage_ v)) as (h & -> & Hh & Hb & Hz);
    [lia|lia|done|].
  exists h. split; [done|]. split; [lia|]. split; [done|]. intros i Hi.
  destruct (Z.ltb_spec i (32 * storage_size_ v)); [apply Hz; lia|]. apply bv_bit_out. lia.
Qed.

Lemma highest_unique st h h' : -1 <= h -> -1 <= h' -> highest st h -> highest st h' -> h = h'.
Proof.
  intros H1 H2 [Hb Hz] [Hb' Hz'].
  destruct (Z.lt_trichotomy h h') as [Hlt|[->|Hgt]]; [|done|].
  - destruct Hb' as [->|Hb']; [lia|]. by rewrite Hz in Hb'.
  - destruct Hb as [->|Hb]; [lia|]. by rewrite Hz' in Hb.
Qed.

(** ** Word-wise operations *)

(** Run the first loop of the goal, which updates the words with [g]. *)
Ltac run_update g st E Hu :=
  match goal with
  | |- context [for_loop ?n ?i ?body ?l] =>
      destruct (for_loop_update n i body g l) as (st & E & Hu); [| | |rewrite E]
  end.

Lemma storage_ext st st' :
  length st = length st' -> Forall (is_u 32) st -> Forall (is_u 32) st' ->
  (forall i, 0 <= i -> bv_bit st i = bv_bit st' i) -> st = st'.
Proof.
  intros Hl H1 H2 Hb. apply list_eq_same_length with (n := length st); [done|done|].
  intros k x y Hk Hx Hy.
  assert (aread st (Z.of_nat k) = Some x) as Hx' by (rewrite aread_lookup, Nat2Z.id by lia; done).
  assert (aread st' (Z.of_nat k) = Some y) as Hy' by (rewrite aread_lookup, Nat2Z.id by lia; done).
  apply words_eq_bits; [by apply (word_is_u _ _ _ H1 Hx')|by apply (word_is_u _ _ _ H2 Hy')|].
  intros i Hi. specialize (Hb (32 * Z.of_nat k + i) ltac:(lia)).
  by rewrite (bv_bit_word _ _ _ x), (bv_bit_word _ _ _ y) in Hb.
Qed.

Lemma union_loop_spec (word : Z -> option Z) (f : Z -> Z) n i c st :
  0 <= i -> i + Z.of_nat n <= zlength st ->
  (forall j, i <= j < i + Z.of_nat n -> word j = Some (f j)) ->
  exists st', for_loop n i (union_step word) (c, st) = Some (c || bool_decide (st' <> st), st') /\
    updated (fun j x => Z.lor x (f j)) i (i + Z.of_nat n) st st'.
Proof.
  intros Hi Hn Hf. set (g := fun j x => Z.lor x (f j)).
  destruct (for_loop_inv (fun k s => s.1 = c || bool_decide (s.2 <> st) /\ updated g i k st s.2)
              n i (union_step word) (c, st)) as ([c' st'] & E & Hc & Hu).
  - split; [|apply updated_refl]. simpl. rewrite bool_decide_false by congruence.
    by rewrite orb_false_r.
  - intros k [c' st'] Hk [Hc Hu]. simpl in Hc, Hu. destruct (aread_some st k) as [x Hx]; [lia|].
    destruct (updated_step g i k st st' x) as (Hx' & st2 & Hw & Hu2); [lia|done|done|].
    unfold union_step. rewrite Hx'. simpl. rewrite (Hf k) by lia. simpl.
    fold (g k x). destruct (Z.eqb_spec x (g k x)) as [He|He]; simpl.
    + exists (c', st'). split; [done|]. split; [done|].
      enough (st' = st2) as -> by done. rewrite <- He in Hw.
      apply awrite_inv in Hw as [? ->]. symmetry. apply list_insert_id.
      by rewrite aread_lookup in Hx' by lia.
    + rewrite Hw. simpl. exists (true, st2). split; [done|]. split; [|done]. simpl.
      rewrite bool_decide_true; [by rewrite orb_true_r|]. intros ->.
      destruct Hu2 as [_ Hu2]. specialize (Hu2 k ltac:(lia)).
      rewrite Hx in Hu2. revert Hu2. zcases. simpl. congruence.
  - exists st'. simpl in *. by rewrite E, Hc.
Qed.

Lemma Intersect_spec v src :
  wf v -> wf src ->
  exists v', Intersect v src = Some v' /\ wf v' /\ storage_size_ v' = storage_size_ v /\
    expandable_ v' = expandable_ v /\
    forall i, 0 <= i -> bv_bit (storage_ v') i = bv_bit (storage_ v) i && bv_bit (storage_ src) i.
Proof.
  intros Hwf Hsrc. pose proof Hwf as (Hl & Hw & Hs). pose proof Hsrc as (Hl' & Hw' & Hs').
  unfold Intersect, GetRawStorageWord. cbv zeta.
  assert ((if storage_size_ v <? storage_size_ src then storage_size_ v else storage_size_ src) =
          Z.min (storage_size_ v) (storage_size_ src)) as -> by zcases.
  set (m := Z.min _ _).
  set (g := fun j x => Z.land x (default 0 (aread (storage_ src) j))).
  run_update g st1 E1 Hu1; [lia|lia| |].
  { intros j l' x Hj _ Hx. cbn beta. rewrite Hx. cbn [mbind option_bind].
    destruct (aread_some (storage_ src) j) as [y Hy]; [lia|]. unfold g. by rewrite Hy. }
  rewrite Z2Nat.id in Hu1 by lia.
  assert (wf (with_storage v st1)) as Hwf1.
  { eapply updated_wf; [done..|]. intros j x _ _ ?. by apply is_u_land_l. }
  cbn [mbind option_bind].
  run_update (fun _ _ : Z => 0) st2 E2 Hu2; [lia|destruct Hu1 as [-> _]; lia|done|].
  rewrite Z2Nat.id in Hu2 by lia. cbn [mbind option_bind].
  exists (with_storage v st2). split; [done|]. split.
  { eapply (updated_wf (with_storage v st1)); [done..|]. intros. unfold is_u. lia. }
  do 2 (split; [done|]). intros i Hi. cbn [storage_ with_storage].
  rewrite (bv_bit_updated _ _ _ _ _ _ Hu2), (bv_bit_updated _ _ _ _ _ _ Hu1) by done.
  assert (0 <= i / 32) by (apply Z.div_pos; lia). unfold bv_bit. zcases; simpl.
  - destruct (aread (storage_ v) (i / 32)); [|done]. unfold g. rewrite Z.land_spec. f_equal.
    destruct (aread (storage_ src) (i / 32)); [done|apply Z.bits_0].
  - destruct Hu1 as [_ Hu1]. rewrite Hu1 by done. zcases. simpl.
    destruct (aread (storage_ src) (i / 32)) as [y|] eqn:Ey; [apply aread_inv in Ey; lia|].
    rewrite andb_false_r. by destruct (aread (storage_ v) (i / 32)); [apply Z.bits_0|].
  - destruct (aread (storage_ v) (i / 32)) as [y|] eqn:Ey; [apply aread_inv in Ey; lia|done].
Qed.

Lemma Subtract_spec v src :
  wf v -> wf src ->
  exists v', Subtract v src = Some v' /\ wf v' /\ storage_size_ v' = storage_size_ v /\
    expandable_ v' = expandable_ v /\
    forall i, 0 <= i ->
      bv_bit (storage_ v') i = bv_bit (storage_ v) i && negb (bv_bit (storage_ src) i).
Proof.
  intros Hwf Hsrc. pose proof Hwf as (Hl & Hw & Hs). pose proof Hsrc as (Hl' & Hw' & Hs').
  unfold Subtract, GetRawStorageWord. cbv zeta.
  assert ((if storage_size_ v >? storage_size_ src then storage_size_ src else storage_size_ v) =
          Z.min (storage_size_ v) (storage_size_ src)) as -> by (rewrite Z.gtb_ltb; zcases).
  set (m := Z.min _ _).
  set (g := fun j x => Z.land x (u32 (Z.lnot (default 0 (aread (storage_ src) j))))).
  run_update g st1 E1 Hu1; [lia|lia| |].
  { intros j l' x Hj _ Hx. cbn beta. rewrite Hx. cbn [mbind option_bind].
    destruct (aread_some (storage_ src) j) as [y Hy]; [lia|]. unfold g. by rewrite Hy. }
  rewrite Z2Nat.id in Hu1 by lia. cbn [mbind option_bind].
  exists (with_storage v st1). split; [done|]. split.
  { eapply updated_wf; [done..|]. intros j x _ _ ?. by apply is_u_land_l. }
  do 2 (split; [done|]). intros i Hi. cbn [storage_ with_storage].
  rewrite (bv_bit_updated _ _ _ _ _ _ Hu1) by done. pose proof (idx_split i).
  assert (0 <= i / 32) by (apply Z.div_pos; lia). unfold bv_bit.
  destruct (aread (storage_ v) (i / 32)) as [x|] eqn:Ex; [|by zcases].
  pose proof (aread_inv _ _ _ Ex). zcases; simpl.
  - unfold g. destruct (aread_some (storage_ src) (i / 32)) as [y ->]; [lia|]. simpl.
    rewrite Z.land_spec, testbit_wrap, testbit_lnot by lia. zcases; done.
  - destruct (aread (storage_ src) (i / 32)) as [y|] eqn:Ey; [apply aread_inv in Ey; lia|].
    by rewrite andb_true_r.
Qed.

(** Room for bit [idx]: it is inside the storage or the vector may grow. *)
Definition room (v : BitVector) (idx : Z) : Prop :=
  0 <= idx < 2 ^ 31 - 32 /\ (idx < 32 * storage_size_ v \/ expandable_ v = true).

Lemma room_mono v v' idx :
  storage_size_ v <= storage_size_ v' -> expandable_ v' = expandable_ v -> room v idx -> room v' idx.
Proof. unfold room. intros ? ->. intuition lia. Qed.

Section AllocatorSpec.

Context (Alloc : Z -> list Z).

(** [Alloc] returns the number of bytes asked for. *)
Definition alloc_ok : Prop :=
  forall n, 0 <= n -> zlength (Alloc (n * kWordBytes)) = n /\ Forall (is_u 32) (Alloc (n * kWordBytes)).

Context (Halloc : alloc_ok).

Lemma alloc_words n :
  0 <= n < 2 ^ 26 ->
  zlength (Alloc (u32 (n * kWordBytes))) = n /\ Forall (is_u 32) (Alloc (u32 (n * kWordBytes))).
Proof.
  intros Hn. rewrite wrap_id by (unfold is_u, kWordBytes; lia). apply Halloc. lia.
Qed.

Lemma new_size_bound idx :
  0 <= idx < 2 ^ 31 - 32 ->
  BitsToWords (u32 (idx + 1)) = idx / 32 + 1 /\ idx < 32 * (idx / 32 + 1) /\ idx / 32 + 1 < 2 ^ 26.
Proof.
  intros Hi. rewrite wrap_id by (unfold is_u; lia). rewrite BitsToWords_spec by lia.
  replace (idx + 1 + 31) with (idx + 1 * 32) by lia. rewrite Z.div_add by lia.
  pose proof (idx_split idx). lia.
Qed.

Lemma EnsureSize_spec v idx :
  wf v -> room v idx ->
  exists v', EnsureSize Alloc v idx = Some v' /\ wf v' /\ expandable_ v' = expandable_ v /\
    storage_size_ v' = Z.max (storage_size_ v) (idx / 32 + 1) /\
    forall i, 0 <= i -> bv_bit (storage_ v') i = bv_bit (storage_ v) i.
Proof.
  intros Hwf [Hi Hroom]. unfold EnsureSize. rewrite bits_size_wrap by done.
  pose proof (new_size_bound idx Hi) as (HB & HB1 & HB2). pose proof Hwf as (Hl & Hw & Hs).
  destruct (Z.leb_spec (32 * storage_size_ v) idx) as [Hge|Hlt].
  - destruct Hroom as [?|Hexp]; [lia|]. rewrite Hexp, HB. simpl.
    assert (storage_size_ v < idx / 32 + 1) by lia.
    rewrite (proj2 (Z.ltb_lt _ _)) by done. simpl.
    destruct (alloc_words (idx / 32 + 1)) as [Ha1 Ha2]; [lia|].
    set (fresh := Alloc (u32 ((idx / 32 + 1) * kWordBytes))) in *.
    destruct (memcpy_spec fresh (storage_ v) (storage_size_ v)) as (st1 & -> & Hl1 & Hc); [lia..|].
    simpl. destruct (memset_spec st1 (storage_size_ v) (idx / 32 + 1 - storage_size_ v))
      as (st2 & -> & Hu); [lia..|].
    simpl. eexists. split; [done|].
    assert (Hst2 : forall j, 0 <= j < idx / 32 + 1 ->
              aread st2 j = if j <? storage_size_ v then aread (storage_ v) j else Some 0).
    { intros j Hj. destruct Hu as [Hlu Hu]. rewrite Hu, Hc by lia.
      destruct (aread_some fresh j) as [x ->]; [lia|]. zcases; done. }
    destruct Hu as [Hlu _]. split; [split; [simpl; lia|split; [|simpl; lia]]|].
    + simpl. apply Forall_aread. intros j x Hx. pose proof (aread_inv _ _ _ Hx).
      rewrite Hst2 in Hx by lia. destruct (j <? storage_size_ v); [by apply (word_is_u (storage_ v) j)|].
      injection Hx as <-. unfold is_u. lia.
    + split; [done|]. split; [simpl; lia|]. intros i Hi'. simpl.
      destruct (Z.ltb_spec (i / 32) (idx / 32 + 1)).
      * unfold bv_bit. rewrite Hst2 by (split; [apply Z.div_pos; lia|lia]).
        destruct (Z.ltb_spec (i / 32) (storage_size_ v)); [done|]. rewrite Z.bits_0.
        symmetry. apply bv_bit_out. pose proof (idx_split i). lia.
      * pose proof (idx_split i). by rewrite !bv_bit_out by lia.
  - exists v. split; [done|]. split; [done|]. split; [done|]. split; [|done].
    assert (idx / 32 < storage_size_ v) by (apply Z.div_lt_upper_bound; lia). lia.
Qed.

Lemma SetBit_spec v idx :
  wf v -> room v idx ->
  exists v', SetBit Alloc v idx = Some v' /\ wf v' /\ expandable_ v' = expandable_ v /\
    storage_size_ v' = Z.max (storage_size_ v) (idx / 32 + 1) /\
    forall i, 0 <= i -> bv_bit (storage_ v') i = bv_bit (storage_ v) i || (i =? idx).
Proof.
  intros Hwf Hroom. unfold SetBit. rewrite bits_size_wrap by done.
  destruct (EnsureSize_spec v idx Hwf Hroom) as (v1 & HE & Hwf1 & Hexp & Hsz & Hb1).
  assert (Hsame : (if 32 * storage_size_ v <=? idx then EnsureSize Alloc v idx else Some v) = Some v1).
  { rewrite <- HE. unfold EnsureSize. rewrite bits_size_wrap by done.
    by destruct (32 * storage_size_ v <=? idx). }
  rewrite Hsame. simpl. rewrite WordIndex_div, BitMask_pow2.
  destruct Hroom as [Hi _]. pose proof (idx_split idx) as [Ei Hm].
  destruct (word_at v1 idx) as (w & Hr & Hu); [done|lia|].
  destruct (write_word v1 idx w (fun w => Z.lor w (2 ^ (idx mod 32)))) as (st & Hw & Hwf' & Hb);
    [done|lia|done| |].
  { apply is_u_lor; [done|]. split; [apply Z.pow_nonneg; lia|apply Z.pow_lt_mono_r; lia]. }
  rewrite Hr. simpl. rewrite Hw. simpl. exists (with_storage v1 st).
  do 4 (split; [done|]). intros i Hi'. simpl. rewrite Hb, <- Hb1 by done.
  destruct (Z.eqb_spec (i / 32) (idx / 32)) as [E|E].
  - rewrite <- (same_word i idx) by done. rewrite (bv_read _ i w) by congruence.
    by rewrite Z.lor_spec, testbit_pow2 by lia.
  - destruct (Z.eqb_spec i idx) as [->|]; [done|]. by rewrite orb_false_r.
Qed.

Lemma BitVector_create_spec start_bits expandable :
  0 <= start_bits < 2 ^ 31 - 32 ->
  exists v, BitVector_create Alloc start_bits expandable = Some v /\ wf v /\
    expandable_ v = expandable /\ storage_size_ v = (start_bits + 31) / 32 /\
    forall i, 0 <= i -> bv_bit (storage_ v) i = false.
Proof.
  intros Hs. unfold BitVector_create. rewrite BitsToWords_spec by lia.
  assert (0 <= (start_bits + 31) / 32 < 2 ^ 26)
    by (split; [apply Z.div_pos; lia|apply Z.div_lt_upper_bound; lia]).
  destruct (alloc_words ((start_bits + 31) / 32)) as [Ha _]; [done|].
  edestruct ClearAllBits_raw as (v & -> & Hwf & Hsz & Hexp & Hb); [exact Ha|simpl; lia|].
  exists v. eauto.
Qed.

(** Every bit of [src] has room in [v]. *)
Definition fits (v src : BitVector) : Prop :=
  forall i, bv_bit (storage_ src) i = true -> room v i.

(** The first lines of [Union] and [UnionIfNotIn]: grow for the highest bit. *)
Lemma grow_spec v h :
  wf v -> room v h ->
  exists v1, (if storage_size_ v <? BitsToWords (h + 1) then EnsureSize Alloc v h else Some v) = Some v1 /\
    wf v1 /\ expandable_ v1 = expandable_ v /\
    storage_size_ v1 = Z.max (storage_size_ v) (h / 32 + 1) /\
    (h <? u32 (storage_size_ v1 * kWordBits)) = true /\
    BitsToWords (h + 1) = h / 32 + 1 /\
    forall i, 0 <= i -> bv_bit (storage_ v1) i = bv_bit (storage_ v) i.
Proof.
  intros Hwf Hr. destruct (EnsureSize_spec v h Hwf Hr) as (v1 & HE & Hwf1 & Hexp & Hsz & Hb).
  destruct Hr as [Hh _]. pose proof (new_size_bound h Hh) as (HB & ? & _).
  rewrite wrap_id in HB by (unfold is_u; lia).
  exists v1. rewrite bits_size_wrap, HB by done. split; [|split_and!; try done; apply Z.ltb_lt; lia].
  destruct (Z.ltb_spec (storage_size_ v) (h / 32 + 1)); [done|].
  rewrite <- HE. unfold EnsureSize. rewrite bits_size_wrap by done. by rewrite (proj2 (Z.leb_gt _ _)) by lia.
Qed.

(** The bits after an update loop that ORs in the words [f]. *)
Lemma union_bits v1 f i k st :
  wf v1 -> updated (fun j x => Z.lor x (f j)) i k (storage_ v1) st -> k <= storage_size_ v1 -> 0 <= i ->
  (forall j, i <= j < k -> is_u 32 (f j)) ->
  wf (with_storage v1 st) /\
  forall b, 0 <= b -> bv_bit st b =
    bv_bit (storage_ v1) b || ((i <=? b / 32) && (b / 32 <? k) && Z.testbit (f (b / 32)) (b mod 32)).
Proof.
  intros Hwf Hu Hk Hi Hf. split.
  - eapply updated_wf; [done..|]. intros j x Hj _ Hx. apply is_u_lor; [done|]. by apply Hf.
  - intros b Hb. rewrite (bv_bit_updated _ _ _ _ _ _ Hu) by done.
    destruct (Z.leb_spec i (b / 32)), (Z.ltb_spec (b / 32) k); simpl; rewrite ?orb_false_r; try done.
    destruct Hwf as (Hl & _). destruct (aread_some (storage_ v1) (b / 32)) as [x Hx]; [lia|].
    rewrite Hx, (bv_read _ _ x) by done. apply Z.lor_spec.
Qed.

Lemma src_word_bit src k b :
  0 <= b -> Z.testbit (default 0 (aread (storage_ src) (b / 32))) (b mod 32) = bv_bit (storage_ src) b /\
  (wf src -> is_u 32 (default 0 (aread (storage_ src) k))).
Proof.
  intros Hb. split.
  - unfold bv_bit. by destruct (aread (storage_ src) (b / 32)); [|apply Z.bits_0].
  - intros (_ & Hw & _). destruct (aread (storage_ src) k) eqn:E; simpl; [by eapply word_is_u|].
    unfold is_u. lia.
Qed.

Lemma bits_above h k b : highest k h -> 0 <= b -> h / 32 < b / 32 -> bv_bit k b = false.
Proof. intros [_ Hz] Hb Hlt. apply Hz. pose proof (idx_split h). pose proof (idx_split b). lia. Qed.

(** The flag of the loops says whether the storage changed. *)
Lemma changed_iff st st' :
  length st = length st' -> Forall (is_u 32) st -> Forall (is_u 32) st' ->
  (forall i, 0 <= i -> bv_bit st i = true -> bv_bit st' i = true) ->
  st' <> st <-> exists i, 0 <= i /\ bv_bit st' i = true /\ bv_bit st i = false.
Proof.
  intros Hl H1 H2 Hmono. split.
  - intros Hne. destruct (decide (Exists (fun i => bv_bit st' (Z.of_nat i) = true /\
      bv_bit st (Z.of_nat i) = false) (seq 0 (32 * length st')))) as [He|He].
    + apply Exists_exists in He as (i & _ & ? & ?). exists (Z.of_nat i). split_and!; [lia|done..].
    + contradict Hne. symmetry. apply storage_ext; try done. intros i Hi.
      destruct (bv_bit st' i) eqn:E; [|destruct (bv_bit st i) eqn:E'; [by rewrite Hmono in E|done]].
      destruct (bv_bit st i) eqn:E'; [done|]. contradict He.
      apply Exists_exists. exists (Z.to_nat i). pose proof (bv_bit_in _ _ E).
      rewrite Z2Nat.id by lia. split; [|done]. apply elem_of_seq. lia.
  - intros (i & _ & Hi & Hi') ->. congruence.
Qed.

Lemma Union_spec v src :
  wf v -> wf src -> fits v src ->
  exists v' c, Union Alloc v src = Some (v', c) /\ wf v' /\ expandable_ v' = expandable_ v /\
    (forall i, 0 <= i -> bv_bit (storage_ v') i = bv_bit (storage_ v) i || bv_bit (storage_ src) i) /\
    (c = true <-> exists i, 0 <= i /\ bv_bit (storage_ v') i = true /\ bv_bit (storage_ v) i = false).
Proof.
  intros Hwf Hsrc Hfit. unfold Union.
  destruct (GetHighestBitSet_spec src Hsrc) as (h & -> & Hh & Hhi). cbn [mbind option_bind].
  destruct (Z.eqb_spec h (-1)) as [->|Hne].
  { exists v, false. do 3 (split; [done|]). destruct Hhi as [_ Hz]. split.
    - intros i Hi. rewrite (Hz i), orb_false_r by lia. done.
    - split; [done|]. intros (i & _ & Hi & Hi'). congruence. }
  assert (Hbh : bv_bit (storage_ src) h = true) by (destruct Hhi as [[?|?] _]; done).
  destruct (grow_spec v h Hwf (Hfit h Hbh)) as (v1 & HE & Hwf1 & Hexp & Hsz & Hlt & HB & Hb1).
  set (c0 := storage_size_ v <? BitsToWords (h + 1)) in *.
  assert (((if c0 then _ else _) : option (BitVector * bool)) = Some (v1, c0)) as ->.
  { destruct c0; rewrite ?HE; simpl; [rewrite Hlt; done|]. congruence. }
  cbn [mbind option_bind]. destruct Hsrc as (Hl' & Hw' & Hs'). destruct Hwf1 as (Hl1 & Hw1 & Hs1) eqn:Hx.
  clear Hx. assert (Hh32 : 0 <= h / 32 < storage_size_ src)
    by (split; [apply Z.div_pos; lia|apply Z.div_lt_upper_bound; lia]).
  destruct (union_loop_spec (GetRawStorageWord src) (fun j => default 0 (aread (storage_ src) j))
    (Z.to_nat (BitsToWords (h + 1))) 0 c0 (storage_ v1)) as (st & -> & Hu); [lia|lia| |].
  { intros j Hj. unfold GetRawStorageWord. destruct (aread_some (storage_ src) j) as [x ->]; [lia|done]. }
  rewrite Z2Nat.id, Z.add_0_l, HB in Hu by lia. cbn [mbind option_bind].
  destruct (union_bits v1 (fun j => default 0 (aread (storage_ src) j)) 0 (h / 32 + 1) st)
    as [Hwf' Hbits]; [done|done|lia|lia|intros; by apply (src_word_bit src j 0)|].
  assert (Hall : forall i, 0 <= i -> bv_bit st i = bv_bit (storage_ v) i || bv_bit (storage_ src) i).
  { intros i Hi. rewrite Hbits, Hb1 by done. f_equal. destruct (src_word_bit src 0 i Hi) as [-> _].
    assert (0 <= i / 32) by (apply Z.div_pos; lia). zcases; simpl; [done|].
    symmetry. apply (bits_above h); [done|done|lia]. }
  eexists _, _. split; [done|]. do 2 (split; [done|]). split; [done|].
  destruct c0 eqn:Ec; simpl.
  - split; [|done]. intros _. exists h. rewrite Hall, Hbh by lia. split; [lia|].
    split; [apply orb_true_r|]. apply bv_bit_out. destruct Hwf as (-> & _).
    apply Z.ltb_lt in Ec. pose proof (idx_split h). lia.
  - injection HE as ->. rewrite bool_decide_eq_true. apply changed_iff; [by destruct Hu|done| |].
    + destruct Hwf' as (_ & ? & _). done.
    + intros i Hi Hbi. by rewrite Hall, Hbi by done.
Qed.

(** The two update loops of [UnionIfNotIn]. *)
Lemma union_if_not_in_loops v1 src not_in n :
  wf v1 -> wf src -> wf not_in -> 0 <= n <= storage_size_ v1 -> n <= storage_size_ src ->
  let first := Z.min (storage_size_ not_in) n in
  exists st1 st,
    for_loop (Z.to_nat first) 0 (union_step (fun idx =>
        w ← GetRawStorageWord src idx; n ← GetRawStorageWord not_in idx;
        Some (Z.land w (u32 (Z.lnot n))))) (false, storage_ v1) =
      Some (bool_decide (st1 <> storage_ v1), st1) /\
    for_loop (Z.to_nat (n - first)) first (union_step (GetRawStorageWord src))
        (bool_decide (st1 <> storage_ v1), st1) =
      Some (bool_decide (st1 <> storage_ v1) || bool_decide (st <> st1), st) /\
    length st1 = length (storage_ v1) /\ length st = length (storage_ v1) /\
    wf (with_storage v1 st1) /\ wf (with_storage v1 st) /\
    (forall b, 0 <= b -> bv_bit st1 b = bv_bit (storage_ v1) b ||
       ((b / 32 <? first) && (bv_bit (storage_ src) b && negb (bv_bit (storage_ not_in) b)))) /\
    (forall b, 0 <= b -> bv_bit st b = bv_bit st1 b ||
       ((first <=? b / 32) && (b / 32 <? n) && bv_bit (storage_ src) b)).
Proof.
  intros Hwf1 Hsrc Hnot Hn Hn' first. pose proof Hwf1 as (Hl1 & Hw1 & Hs1).
  pose proof Hsrc as (Hl2 & Hw2 & Hs2). pose proof Hnot as (Hl3 & Hw3 & Hs3).
  set (word1 := fun idx => GetRawStorageWord src idx ≫= _).
  set (f1 := fun j => Z.land (default 0 (aread (storage_ src) j))
                        (u32 (Z.lnot (default 0 (aread (storage_ not_in) j))))).
  destruct (union_loop_spec word1 f1 (Z.to_nat first) 0 false (storage_ v1)) as (st1 & E1 & Hu1);
    [lia|lia| |].
  { intros j Hj. unfold word1, f1, GetRawStorageWord.
    destruct (aread_some (storage_ src) j) as [x ->]; [lia|].
    destruct (aread_some (storage_ not_in) j) as [y ->]; [lia|done]. }
  rewrite Z2Nat.id, Z.add_0_l in Hu1 by lia.
  destruct (union_bits v1 f1 0 first st1) as [Hwf2 Hb1]; [done|done|lia|lia| |].
  { intros j Hj. apply is_u_land_l. by apply (src_word_bit src j 0). }
  destruct (union_loop_spec (GetRawStorageWord src) (fun j => default 0 (aread (storage_ src) j))
    (Z.to_nat (n - first)) first (bool_decide (st1 <> storage_ v1)) st1) as (st & E2 & Hu2);
    [lia|destruct Hu1 as [-> _]; lia| |].
  { intros j Hj. unfold GetRawStorageWord. destruct (aread_some (storage_ src) j) as [x ->]; [lia|done]. }
  rewrite Z2Nat.id in Hu2 by lia. replace (first + (n - first)) with n in Hu2 by lia.
  destruct (union_bits (with_storage v1 st1) (fun j => default 0 (aread (storage_ src) j)) first n st)
    as [Hwf3 Hb2]; [done|done|simpl; lia|lia|intros; by apply (src_word_bit src j 0)|].
  exists st1, st. do 2 (split; [done|]). destruct Hu1 as [Hlu1 _], Hu2 as [Hlu2 _].
  split; [done|]. split; [congruence|]. do 2 (split; [done|]). split.
  - intros b Hb. rewrite Hb1 by done. f_equal. pose proof (idx_split b).
    assert (0 <= b / 32) by (apply Z.div_pos; lia). zcases; simpl; try done. unfold f1.
    rewrite Z.land_spec, testbit_wrap, testbit_lnot by lia.
    destruct (src_word_bit src 0 b Hb) as [-> _], (src_word_bit not_in 0 b Hb) as [-> _].
    zcases; done.
  - intros b Hb. simpl in Hb2. rewrite Hb2 by done. by destruct (src_word_bit src 0 b Hb) as [-> _].
Qed.

Lemma UnionIfNotIn_spec v src not_in :
  wf v -> wf src -> wf not_in -> fits v src ->
  exists v' c, UnionIfNotIn Alloc v src not_in = Some (v', c) /\ wf v' /\
    expandable_ v' = expandable_ v /\
    (forall i, 0 <= i -> bv_bit (storage_ v') i =
       bv_bit (storage_ v) i || (bv_bit (storage_ src) i && negb (bv_bit (storage_ not_in) i))) /\
    (c = true <-> exists i, 0 <= i /\ bv_bit (storage_ v') i = true /\ bv_bit (storage_ v) i = false).
Proof.
  intros Hwf Hsrc Hnot Hfit. unfold UnionIfNotIn.
  destruct (GetHighestBitSet_spec src Hsrc) as (h & -> & Hh & Hhi). cbn [mbind option_bind].
  destruct (Z.eqb_spec h (-1)) as [->|Hne].
  { exists v, false. do 3 (split; [done|]). destruct Hhi as [_ Hz]. split.
    - intros i Hi. rewrite (Hz i), orb_false_r by lia. done.
    - split; [done|]. intros (i & _ & Hi & Hi'). congruence. }
  assert (Hbh : bv_bit (storage_ src) h = true) by (destruct Hhi as [[?|?] _]; done).
  destruct (grow_spec v h Hwf (Hfit h Hbh)) as (v1 & HE & Hwf1 & Hexp & Hsz & Hlt & HB & Hb1).
  assert (((if storage_size_ v <? BitsToWords (h + 1) then _ else _) : option BitVector) = Some v1) as ->.
  { destruct (storage_size_ v <? BitsToWords (h + 1)); rewrite ?HE; simpl; [rewrite Hlt; done|]. congruence. }
  cbn [mbind option_bind]. assert (Hh32 : 0 <= h / 32 < storage_size_ src)
    by (split; [apply Z.div_pos; lia|apply Z.div_lt_upper_bound; lia]).
  destruct (union_if_not_in_loops v1 src not_in (BitsToWords (h + 1)))
    as (st1 & st & E1 & E2 & Hl1 & Hl2 & Hw1 & Hw2 & Hst1 & Hst); [done|done|done|lia|lia|].
  unfold GetStorageSize. rewrite E1. cbn [mbind option_bind]. rewrite E2. cbn [mbind option_bind].
  eexists _, _. split; [done|]. split; [done|]. split; [done|].
  destruct Hw1 as (_ & Hw1 & _), Hw2 as (_ & Hw2 & _), Hwf1 as (_ & Hw0 & _).
  cbn [storage_ with_storage] in *. split.
  - intros i Hi. rewrite Hst, Hst1, Hb1, HB by done. assert (0 <= i / 32) by (apply Z.div_pos; lia).
    destruct (Z.ltb_spec (h / 32) (i / 32)).
    { rewrite (bits_above h (storage_ src) i) by done. by rewrite !andb_false_r, !orb_false_r. }
    destruct (Z.ltb_spec (i / 32) (Z.min (storage_size_ not_in) (h / 32 + 1))); zcases; simpl;
      rewrite ?orb_false_r; try done.
    rewrite (bv_bit_out (storage_ not_in)); [by rewrite andb_true_r|].
    destruct Hnot as (-> & _). pose proof (idx_split i). lia.
  - assert (Hm1 : forall i, 0 <= i -> bv_bit (storage_ v1) i = true -> bv_bit st1 i = true)
      by (intros i Hi Hb; by rewrite Hst1, Hb by done).
    assert (Hm2 : forall i, 0 <= i -> bv_bit st1 i = true -> bv_bit st i = true)
      by (intros i Hi Hb; by rewrite Hst, Hb by done).
    rewrite orb_true_iff, !bool_decide_eq_true.
    rewrite (changed_iff (storage_ v1) st1), (changed_iff st1 st) by (done || congruence). split.
    + intros [(i & Hi & Ht & Hf)|(i & Hi & Ht & Hf)]; exists i; rewrite <- Hb1 by done.
      * split; [done|]. split; [by apply Hm2|done].
      * split; [done|]. split; [done|]. destruct (bv_bit (storage_ v1) i) eqn:E; [|done].
        by rewrite (Hm1 i Hi E) in Hf.
    + intros (i & Hi & Ht & Hf). rewrite <- Hb1 in Hf by done.
      destruct (bv_bit st1 i) eqn:E; [left|right]; eauto.
Qed.

Lemma Copy_spec v src :
  wf v -> wf src -> fits v src ->
  exists v', Copy Alloc v src = Some v' /\ wf v' /\ expandable_ v' = expandable_ v /\
    forall i, 0 <= i -> bv_bit (storage_ v') i = bv_bit (storage_ src) i.
Proof.
  intros Hwf Hsrc Hfit. unfold Copy.
  destruct (GetHighestBitSet_spec src Hsrc) as (h & -> & Hh & Hhi). cbn [mbind option_bind].
  destruct (Z.eqb_spec h (-1)) as [->|Hne].
  { destruct Hwf as (Hl & _ & Hs).
    destruct (ClearAllBits_raw v) as (v' & -> & Hwf' & _ & Hexp & Hb); [done|done|].
    exists v'. do 3 (split; [done|]). intros i Hi. rewrite Hb by done.
    destruct Hhi as [_ Hz]. rewrite Hz by lia. done. }
  assert (Hbh : bv_bit (storage_ src) h = true) by (destruct Hhi as [[?|?] _]; done).
  destruct (SetBit_spec v h Hwf (Hfit h Hbh)) as (v1 & -> & Hwf1 & Hexp & Hsz & _).
  cbn [mbind option_bind]. unfold kWordBits, kWordBytes. change (4 * 8) with 32.
  assert (0 <= h / 32 < storage_size_ src)
    by (split; [apply Z.div_pos; lia|apply Z.div_lt_upper_bound; lia]).
  pose proof Hsrc as (Hl & Hw & Hs). pose proof Hwf1 as (Hl1 & Hw1 & Hs1).
  destruct (memcpy_spec (storage_ v1) (storage_ src) (1 + h / 32)) as (st & -> & Hlst & Hst); [lia..|].
  cbn [mbind option_bind]. rewrite wrap_id by (unfold is_u; lia).
  assert (exists st', (if 0 <? storage_size_ v1 - (1 + h / 32)
      then st0 ← memset_zero_words st (1 + h / 32) (storage_size_ v1 - (1 + h / 32));
           Some (with_storage v1 st0) else Some (with_storage v1 st)) = Some (with_storage v1 st') /\
      updated (fun _ _ => 0) (1 + h / 32) (storage_size_ v1) st st') as (st' & -> & Hu).
  { destruct (Z.ltb_spec 0 (storage_size_ v1 - (1 + h / 32))).
    - destruct (memset_spec st (1 + h / 32) (storage_size_ v1 - (1 + h / 32))) as (st' & -> & Hu); [lia..|].
      replace (1 + h / 32 + (storage_size_ v1 - (1 + h / 32))) with (storage_size_ v1) in Hu by lia. eauto.
    - exists st. split; [done|].
      replace (storage_size_ v1) with (1 + h / 32) by lia. apply updated_refl. }
  assert (Hrd : forall j, 0 <= j < storage_size_ v1 ->
            aread st' j = if j <? 1 + h / 32 then aread (storage_ src) j else Some 0).
  { intros j Hj. destruct Hu as [_ Hu]. rewrite Hu, Hst by lia.
    destruct (aread_some (storage_ v1) j) as [x ->]; [lia|]. zcases; done. }
  exists (with_storage v1 st'). split; [done|]. split; [|split; [done|]].
  - destruct Hu as [Hlu _]. split; [simpl; lia|]. split; [|done]. simpl.
    apply Forall_aread. intros j x Hx. pose proof (aread_inv _ _ _ Hx).
    rewrite Hrd in Hx by lia. destruct (j <? 1 + h / 32); [by apply (word_is_u (storage_ src) j)|].
    injection Hx as <-. unfold is_u. lia.
  - intros i Hi. simpl. pose proof (idx_split i). assert (0 <= i / 32) by (apply Z.div_pos; lia).
    destruct (Z.ltb_spec (i / 32) (1 + h / 32)).
    + unfold bv_bit. rewrite Hrd by lia. by rewrite (proj2 (Z.ltb_lt _ _)) by done.
    + rewrite (bits_above h (storage_ src) i) by (done || lia). unfold bv_bit.
      destruct (aread st' (i / 32)) as [x|] eqn:E; [|done]. pose proof (aread_inv _ _ _ E).
      destruct Hu as [Hlu _]. rewrite Hrd in E by lia. revert E. zcases. intros [= <-]. apply Z.bits_0.
Qed.

Lemma BitVector_copy_spec src expandable :
  wf src ->
  exists v, BitVector_copy Alloc src expandable = Some v /\ wf v /\ expandable_ v = expandable /\
    forall i, 0 <= i -> bv_bit (storage_ v) i = bv_bit (storage_ src) i.
Proof.
  intros Hsrc. pose proof Hsrc as (Hl & Hw & Hs). unfold BitVector_copy.
  destruct (alloc_words (storage_size_ src)) as [Ha1 Ha2]; [lia|].
  apply Copy_spec; [done|done|]. intros i Hi. pose proof (bv_bit_in _ _ Hi).
  split; [lia|]. left. simpl. lia.
Qed.

(** The words of a vector with exactly the first [n] bits set. *)
Definition initial_word (n j : Z) : Z := Z.ones (Z.max 0 (Z.min 32 (n - 32 * j))).

Lemma initial_word_bit n i : 0 <= i -> Z.testbit (initial_word n (i / 32)) (i mod 32) = (i <? n).
Proof.
  intros Hi. pose proof (idx_split i). unfold initial_word.
  rewrite Z.testbit_ones by lia. zcases; done.
Qed.

Lemma initial_word_is_u n j : is_u 32 (initial_word n j).
Proof.
  unfold initial_word. rewrite Z.ones_equiv. set (m := Z.max _ _).
  assert (2 ^ 0 <= 2 ^ m) by (apply Z.pow_le_mono_r; lia).
  assert (2 ^ m <= 2 ^ 32) by (apply Z.pow_le_mono_r; lia). unfold is_u. lia.
Qed.

(** The body of [SetInitialBits] after the vector is large enough. *)
Lemma initial_words_loops {B} st n size (ret : list Z -> option B) :
  0 < n -> (n - 1) / 32 < size -> zlength st = size ->
  exists st', (st ← for_loop (Z.to_nat (n / 32)) 0 (fun idx st => awrite st idx 0xffffffff) st;
    '(idx, st) ←
      (if negb (n mod 32 =? 0) then
         st ← awrite st (n / 32) (u32 (u32 (Z.shiftl 1 (n mod 32)) - 1)); Some (n / 32 + 1, st)
       else Some (n / 32, st));
    st ← for_loop (Z.to_nat (size - idx)) idx (fun idx st => awrite st idx 0) st;
    ret st) = ret st' /\
    updated (fun j _ => initial_word n j) 0 size st st'.
Proof.
  intros Hn Hl Hsz. pose proof (idx_split n) as [En Hm]. pose proof (idx_split (n - 1)) as [En1 Hm1].
  assert (0 <= n / 32) by (apply Z.div_pos; lia). set (k := n / 32) in *. set (r := n mod 32) in *.
  set (g := fun (j _ : Z) => initial_word n j).
  run_update g st1 E1 Hu1; [lia|lia| |].
  { intros j l' x Hj _ _. unfold g, initial_word. by replace (Z.max _ _) with 32 by lia. }
  rewrite Z2Nat.id, Z.add_0_l in Hu1 by lia. cbn [mbind option_bind].
  set (k' := if r =? 0 then k else k + 1).
  assert (k <= k' <= size) by (unfold k'; zcases).
  assert (exists st2, (if negb (r =? 0) then
      st ← awrite st1 k (u32 (u32 (Z.shiftl 1 r) - 1)); Some (k + 1, st) else Some (k, st1)) =
      Some (k', st2) /\ updated g k k' st1 st2) as (st2 & -> & Hu2).
  { unfold k'. destruct (Z.eqb_spec r 0); simpl; [exists st1; split; [done|apply updated_refl]|].
    destruct (aread_some st1 k) as [x Hx]; [destruct Hu1 as [-> _]; lia|].
    destruct (updated_step g k k st1 st1 x) as (_ & st2 & Hw & Hu); [lia|done|apply updated_refl|].
    exists st2. split; [|done]. unfold g, initial_word in Hw.
    replace (Z.max _ _) with r in Hw by lia. rewrite Z.shiftl_1_l.
    rewrite Z.ones_equiv, <- Z.sub_1_r in Hw.
    assert (2 <= 2 ^ r < 2 ^ 32)
      by (split; [apply (Z.pow_le_mono_r 2 1); lia|apply Z.pow_lt_mono_r; lia]).
    rewrite (wrap_id 32 (2 ^ r)), wrap_id by (unfold is_u; lia). by rewrite Hw. }
  cbn [mbind option_bind]. pose proof (proj1 Hu1). pose proof (proj1 Hu2).
  run_update g st3 E3 Hu3; [lia|lia| |].
  { intros j l' x Hj _ _. unfold g, initial_word.
    replace (Z.max _ _) with 0; [done|]. unfold k' in Hj. destruct (Z.eqb_spec r 0); lia. }
  rewrite Z2Nat.id in Hu3 by lia. replace (k' + (size - k')) with size in Hu3 by lia.
  exists st3. split; [done|].
  eapply updated_trans; [|eapply updated_trans; [|exact Hu1|exact Hu2]|exact Hu3]; lia.
Qed.

Lemma SetInitialBits_spec v num_bits :
  wf v -> num_bits = 0 \/ (0 < num_bits /\ room v (num_bits - 1)) ->
  exists v', SetInitialBits Alloc v num_bits = Some v' /\ wf v' /\ expandable_ v' = expandable_ v /\
    forall i, 0 <= i -> bv_bit (storage_ v') i = (i <? num_bits).
Proof.
  intros Hwf Hnb. unfold SetInitialBits. destruct (Z.eqb_spec num_bits 0) as [->|Hne].
  { destruct Hwf as (Hl & _ & Hs).
    destruct (ClearAllBits_raw v) as (v' & -> & Hwf' & _ & Hexp & Hb); [done|done|].
    exists v'. do 3 (split; [done|]). intros i Hi. rewrite Hb by done. zcases; done. }
  destruct Hnb as [?|[Hpos Hroom]]; [done|].
  destruct (SetBit_spec v (num_bits - 1) Hwf Hroom) as (v1 & -> & Hwf1 & Hexp & Hsz & _).
  cbn [mbind option_bind]. pose proof Hwf1 as (Hl1 & Hw1 & Hs1).
  rewrite WordIndex_div. change 0x1f with (Z.ones 5). rewrite Z.land_ones by lia.
  change (2 ^ 5) with 32.
  destruct (initial_words_loops (storage_ v1) num_bits (storage_size_ v1)
    (fun st => Some (with_storage v1 st))) as (st & -> & Hu); [done|lia|done|].
  exists (with_storage v1 st). split; [done|]. split; [|split; [done|]].
  - eapply updated_wf; [done..|]. intros. apply initial_word_is_u.
  - intros i Hi. simpl. rewrite (bv_bit_updated _ _ _ _ _ _ Hu) by done.
    pose proof (idx_split i). pose proof (idx_split (num_bits - 1)).
    assert (0 <= i / 32) by (apply Z.div_pos; lia).
    rewrite (proj2 (Z.leb_le _ _)) by done. destruct (Z.ltb_spec (i / 32) (storage_size_ v1)); simpl.
    + destruct (aread_some (storage_ v1) (i / 32)) as [x ->]; [lia|]. by apply initial_word_bit.
    + rewrite bv_bit_out by lia. by zcases.
Qed.

End AllocatorSpec.

(** ** Comparisons *)

Lemma Equal_spec v src :
  wf v -> wf src ->
  Equal v src = Some (bool_decide (storage_ v = storage_ src /\ expandable_ v = expandable_ src)).
Proof.
  intros (Hl & _) (Hl' & _). unfold Equal, GetStorageSize, IsExpandable.
  destruct (Z.eqb_spec (storage_size_ v) (storage_size_ src)).
  - destruct (Bool.eqb_spec (expandable_ v) (expandable_ src)).
    + unfold memcmp_words. rewrite !(proj2 (Z.leb_le _ _)) by lia. simpl.
      rewrite !take_ge by lia. f_equal. apply bool_decide_ext. tauto.
    + by rewrite bool_decide_false by tauto.
  - rewrite bool_decide_false; [done|]. intros [E _]. rewrite E in Hl. lia.
Qed.

(** Same words below [n] means same bits below [32 * n]. *)
Lemma take_words_bits st st' n :
  0 <= n <= zlength st -> n <= zlength st' -> Forall (is_u 32) st -> Forall (is_u 32) st' ->
  take (Z.to_nat n) st = take (Z.to_nat n) st' <->
  (forall i, 0 <= i < 32 * n -> bv_bit st i = bv_bit st' i).
Proof.
  intros Hn Hn' Hf Hf'.
  assert (Htk : forall l i, 0 <= i < 32 * n -> bv_bit (take (Z.to_nat n) l) i = bv_bit l i).
  { intros l i Hi. unfold bv_bit. assert (0 <= i / 32 < n)
      by (split; [apply Z.div_pos; lia|apply Z.div_lt_upper_bound; lia]).
    rewrite !aread_lookup by lia. by rewrite lookup_take_lt by lia. }
  split.
  - intros E i Hi. by rewrite <- (Htk st), <- (Htk st'), E by done.
  - intros Hb. apply storage_ext; [rewrite !length_take; lia|by apply Forall_take..|].
    intros i Hi. destruct (Z.ltb_spec i (32 * n)).
    + rewrite !Htk by lia. apply Hb. lia.
    + rewrite !bv_bit_out by (rewrite length_take; lia). done.
Qed.

Lemma SameBitsSet_spec v src :
  wf v -> wf src ->
  exists b, SameBitsSet v src = Some b /\
    (b = true <-> forall i, 0 <= i -> bv_bit (storage_ v) i = bv_bit (storage_ src) i).
Proof.
  intros Hwf Hwf'. unfold SameBitsSet.
  destruct (GetHighestBitSet_spec v Hwf) as (h & -> & Hh & Hhi). cbn [mbind option_bind].
  destruct (GetHighestBitSet_spec src Hwf') as (h' & -> & Hh' & Hhi'). cbn [mbind option_bind].
  destruct (Z.eqb_spec h h') as [<-|Hne]; cbn [negb].
  2:{ eexists. split; [done|]. split; [done|]. intros Hb. contradict Hne.
      apply (highest_unique (storage_ v)); [lia|lia|done|]. destruct Hhi' as [Hb' Hz'].
      assert (Hall : forall i, bv_bit (storage_ v) i = bv_bit (storage_ src) i).
      { intros i. destruct (Z.ltb_spec i 0); [by rewrite !bv_bit_neg by done|by apply Hb]. }
      split; [|intros i Hi]; rewrite Hall; auto. }
  destruct Hhi as [Hb Hz], Hhi' as [Hb' Hz'].
  assert (Hhb : h = -1 \/ bv_bit (storage_ v) h = bv_bit (storage_ src) h)
    by (destruct Hb, Hb'; [by left..|right; congruence]).
  destruct (Z.leb_spec h 0).
  - eexists. split; [done|]. split; [|done]. intros _ i Hi.
    destruct (Z.eq_dec i h) as [->|]; [destruct Hhb; [lia|done]|]. by rewrite Hz, Hz' by lia.
  - rewrite BitsToWords_spec by (destruct Hwf as (_ & _ & ?); lia).
    assert (Hw : 32 * ((h + 31) / 32) - 32 < h <= 32 * ((h + 31) / 32))
      by (pose proof (idx_split (h + 31)); lia).
    destruct Hwf as (Hl & Hf & _), Hwf' as (Hl' & Hf' & _).
    unfold memcmp_words. rewrite !(proj2 (Z.leb_le _ _)) by lia. simpl.
    eexists. split; [done|]. rewrite bool_decide_eq_true, take_words_bits by (done || lia).
    split; [|intros Hall i Hi; apply Hall; lia]. intros Hlow i Hi.
    destruct (Z.ltb_spec i (32 * ((h + 31) / 32))); [apply Hlow; lia|].
    destruct (Z.eq_dec i h) as [->|]; [destruct Hhb; [lia|done]|]. by rewrite Hz, Hz' by lia.
Qed.

Lemma lor_absorb_bits x y :
  is_u 32 x -> is_u 32 y ->
  Z.lor x y = y <-> forall i, 0 <= i < 32 -> Z.testbit x i = true -> Z.testbit y i = true.
Proof.
  intros Hx Hy. split.
  - intros <- i _ Hi. by rewrite Z.lor_spec, Hi.
  - intros Hb. apply words_eq_bits; [by apply is_u_lor|done|]. intros i Hi. rewrite Z.lor_spec.
    specialize (Hb i Hi). destruct (Z.testbit x i); [by rewrite Hb|done].
Qed.

Lemma subset_loop_spec n i st st' :
  0 <= i -> i + Z.of_nat n <= zlength st -> i + Z.of_nat n <= zlength st' ->
  Forall (is_u 32) st -> Forall (is_u 32) st' ->
  exists b, subset_loop n i st st' = Some b /\
    (b = true <-> forall k, 32 * i <= k < 32 * (i + Z.of_nat n) ->
                    bv_bit st k = true -> bv_bit st' k = true).
Proof.
  intros Hi Hl Hl' Hf Hf'. revert i Hi Hl Hl'. induction n as [|n IH]; intros i Hi Hl Hl'.
  - exists true. split; [done|]. split; [lia|done].
  - cbn [subset_loop]. destruct (aread_some st i) as [x Hx]; [lia|].
    destruct (aread_some st' i) as [y Hy]; [lia|]. rewrite Hx, Hy. cbn [mbind option_bind].
    pose proof (word_is_u _ _ _ Hf Hx) as Hux. pose proof (word_is_u _ _ _ Hf' Hy) as Huy.
    assert (Hword : Z.lor x y = y <-> forall k, 32 * i <= k < 32 * (i + 1) ->
              bv_bit st k = true -> bv_bit st' k = true).
    { rewrite lor_absorb_bits by done. split; intros H k Hk.
      - replace k with (32 * i + (k - 32 * i)) by lia.
        rewrite (bv_bit_word _ _ _ x), (bv_bit_word _ _ _ y) by (done || lia). apply H. lia.
      - specialize (H (32 * i + k) ltac:(lia)).
        by rewrite (bv_bit_word _ _ _ x), (bv_bit_word _ _ _ y) in H by (done || lia). }
    destruct (Z.eqb_spec (Z.lor x y) y) as [E|E]; cbn [negb].
    + destruct (IH (i + 1)) as (b & -> & Hb); [lia..|]. exists b. split; [done|]. rewrite Hb.
      split; intros H k Hk; [|apply H; lia].
      destruct (Z.ltb_spec k (32 * (i + 1))); [apply (proj1 Hword E); lia|apply H; lia].
    + exists false. split; [done|]. split; [done|]. intros H. contradict E. apply Hword.
      intros k Hk. apply H. lia.
Qed.

Lemma IsSubsetOf_spec v other :
  wf v -> wf other ->
  exists b, IsSubsetOf v other = Some b /\
    (b = true <-> forall i, 0 <= i -> bv_bit (storage_ v) i = true -> bv_bit (storage_ other) i = true).
Proof.
  intros Hwf Hwf'. unfold IsSubsetOf.
  destruct (GetHighestBitSet_spec v Hwf) as (h & -> & Hh & [Hb Hz]). cbn [mbind option_bind].
  destruct (GetHighestBitSet_spec other Hwf') as (h' & -> & Hh' & [Hb' Hz']). cbn [mbind option_bind].
  destruct (Z.ltb_spec h 0) as [Hneg|Hpos].
  { exists true. split; [done|]. split; [|done]. intros _ i Hi Ht. by rewrite Hz in Ht by lia. }
  destruct Hb as [->|Hb]; [lia|]. rewrite Z.gtb_ltb. destruct (Z.ltb_spec h' h) as [Hgt|Hle].
  { exists false. split; [done|]. split; [done|]. intros H. specialize (H h Hpos Hb).
    by rewrite Hz' in H. }
  destruct Hwf as (Hl & Hf & Hs), Hwf' as (Hl' & Hf' & Hs').
  rewrite BitsToWords_spec by lia.
  assert (Hw : 32 * ((h + 1 + 31) / 32) - 32 <= h < 32 * ((h + 1 + 31) / 32))
    by (pose proof (idx_split (h + 1 + 31)); lia).
  destruct (subset_loop_spec (Z.to_nat ((h + 1 + 31) / 32)) 0 (storage_ v) (storage_ other))
    as (b & -> & Hiff); [lia|lia|lia|done|done|].
  exists b. split; [done|]. rewrite Hiff. split; intros H i Hi Ht; [|apply H; [lia|done]].
  destruct (Z.leb_spec i h); [apply H; [lia|done]|by rewrite Hz in Ht by lia].
Qed.

(** ** Iteration *)

Lemma find_index_loop_spec fuel v k word :
  wf v -> 0 <= k < storage_size_ v -> storage_size_ v - k <= Z.of_nat fuel -> is_u 32 word ->
  exists r, (forall b, find_index_loop fuel (mkIndexIterator (storage_ v) (storage_size_ v) b) k word = Some r) /\
    32 * k <= r <= 32 * storage_size_ v /\
    (if r <? 32 * (k + 1) then Z.testbit word (r - 32 * k) = true
     else r = 32 * storage_size_ v \/ bv_bit (storage_ v) r = true) /\
    (forall i, 32 * k <= i < r -> if i <? 32 * (k + 1) then Z.testbit word (i - 32 * k) = false
                                 else bv_bit (storage_ v) i = false).
Proof.
  intros Hwf. pose proof Hwf as (Hl & Hf & Hs). revert k word.
  induction fuel as [|fuel IH]; intros k word Hk Hfuel Hu; [lia|]. cbn [find_index_loop].
  unfold BitSize. cbn [it_storage_size_ bit_storage_]. rewrite bits_size_wrap by done.
  destruct (Z.eqb_spec word 0) as [->|Hne].
  - destruct (Z.eqb_spec (k + 1) (storage_size_ v)) as [E|E].
    + exists (32 * storage_size_ v). split; [done|]. split; [lia|]. split.
      * destruct (Z.ltb_spec (32 * storage_size_ v) (32 * (k + 1))); [lia|by left].
      * intros i Hi. destruct (Z.ltb_spec i (32 * (k + 1))); [apply Z.bits_0|lia].
    + destruct (aread_some (storage_ v) (k + 1)) as [w Hw]; [lia|]. rewrite Hw. cbn [mbind option_bind].
      destruct (IH (k + 1) w) as (r & Hr & Hrb & Ht & Hz); [lia|lia|by eapply word_is_u|].
      assert (Hbw : forall i, 32 * (k + 1) <= i < 32 * (k + 1 + 1) ->
                bv_bit (storage_ v) i = Z.testbit w (i - 32 * (k + 1))).
      { intros i Hi. rewrite <- (bv_bit_word (storage_ v) (k + 1)) by (done || lia). f_equal. lia. }
      exists r. split; [done|]. split; [lia|]. split.
      * destruct (Z.ltb_spec r (32 * (k + 1))); [lia|].
        destruct (Z.ltb_spec r (32 * (k + 1 + 1))); [|done]. right. by rewrite Hbw by lia.
      * intros i Hi. destruct (Z.ltb_spec i (32 * (k + 1))); [apply Z.bits_0|].
        specialize (Hz i ltac:(lia)). destruct (Z.ltb_spec i (32 * (k + 1 + 1))); [|done].
        by rewrite Hbw by lia.
  - assert (0 < word) by (destruct Hu; lia). pose proof (CTZ_bound 32 word Hu H) as Hc.
    destruct (CTZ_spec word H) as (_ & Ht & Hz). exists (32 * k + CTZ word).
    split; [intros; rewrite wrap_id by (unfold is_u; lia); f_equal; lia|]. split; [lia|]. split.
    + destruct (Z.ltb_spec (32 * k + CTZ word) (32 * (k + 1))); [|lia].
      by replace (32 * k + CTZ word - 32 * k) with (CTZ word) by lia.
    + intros i Hi. destruct (Z.ltb_spec i (32 * (k + 1))); [|lia]. apply Hz. lia.
Qed.

(** [r] is the first set bit at or after [start], or the size in bits. *)
Definition next_bit (v : BitVector) (start r : Z) : Prop :=
  start <= r <= 32 * storage_size_ v /\ (r = 32 * storage_size_ v \/ bv_bit (storage_ v) r = true) /\
  forall i, start <= i < r -> bv_bit (storage_ v) i = false.

Lemma FindIndex_spec v b start :
  wf v -> 0 <= start <= 32 * storage_size_ v ->
  exists r, FindIndex (mkIndexIterator (storage_ v) (storage_size_ v) b) start = Some r /\
    next_bit v start r.
Proof.
  intros Hwf Hst. pose proof Hwf as (Hl & Hf & Hs). unfold FindIndex, BitSize.
  cbn [it_storage_size_ bit_storage_]. rewrite bits_size_wrap by done.
  rewrite (proj2 (Z.leb_le _ _)) by lia. cbn [dcheck mbind option_bind].
  change kWordBits with 32. pose proof (idx_split start) as [Es Hm].
  assert (0 <= start / 32) by (apply Z.div_pos; lia).
  destruct (Z.eqb_spec (start / 32) (storage_size_ v)) as [E|E].
  { exists start. split; [done|]. split; [lia|]. split; [left; lia|lia]. }
  destruct (aread_some (storage_ v) (start / 32)) as [w Hw]; [lia|]. rewrite Hw.
  cbn [mbind option_bind]. change 0x1f with (Z.ones 5). rewrite Z.land_ones by lia.
  change (2 ^ 5) with 32. change 0xffffffff with (Z.ones 32).
  pose proof (word_is_u _ _ _ Hf Hw) as Huw.
  set (masked := Z.land w _).
  assert (Hmask : forall i, 0 <= i < 32 -> Z.testbit masked i = Z.testbit w i && (start mod 32 <=? i)).
  { intros i Hi. unfold masked. rewrite Z.land_spec, testbit_wrap, testbit_shiftl, Z.testbit_ones by lia.
    f_equal. zcases; done. }
  destruct (find_index_loop_spec (Z.to_nat (storage_size_ v)) v (start / 32) masked)
    as (r & Hr & Hrb & Ht & Hz); [done|lia|lia|by apply is_u_land_l|].
  rewrite Hr. exists r. split; [done|].
  assert (Hbw : forall i, 32 * (start / 32) <= i < 32 * (start / 32 + 1) ->
            bv_bit (storage_ v) i = Z.testbit w (i - 32 * (start / 32))).
  { intros i Hi. rewrite <- (bv_bit_word (storage_ v) (start / 32)) by (done || lia). f_equal. lia. }
  destruct (Z.ltb_spec r (32 * (start / 32 + 1))).
  - rewrite Hmask in Ht by lia. apply andb_true_iff in Ht as [Ht Hge%Z.leb_le].
    split; [lia|]. split; [right; by rewrite Hbw by lia|]. intros i Hi.
    specialize (Hz i ltac:(lia)). destruct (Z.ltb_spec i (32 * (start / 32 + 1))); [|done].
    rewrite Hmask, (proj2 (Z.leb_le _ _)), andb_true_r in Hz by lia. by rewrite Hbw by lia.
  - split; [lia|]. split; [done|]. intros i Hi. specialize (Hz i ltac:(lia)).
    destruct (Z.ltb_spec i (32 * (start / 32 + 1))); [|done].
    rewrite Hmask, (proj2 (Z.leb_le _ _)), andb_true_r in Hz by lia. by rewrite Hbw by lia.
Qed.

(** The set bits in [[start, start + n)], in increasing order. *)
Definition set_bits (f : Z -> bool) (start n : Z) : list Z := filter (fun i => f i = true) (seqZ start n).

Lemma elem_of_set_bits f start n i :
  i ∈ set_bits f start n <-> start <= i < start + n /\ f i = true.
Proof. unfold set_bits. rewrite list_elem_of_filter, elem_of_seqZ. tauto. Qed.

Lemma set_bits_app f start n m :
  0 <= n -> 0 <= m -> set_bits f start (n + m) = set_bits f start n ++ set_bits f (start + n) m.
Proof. intros. unfold set_bits. by rewrite seqZ_app, filter_app. Qed.

Lemma set_bits_nil f start n :
  (forall i, start <= i < start + n -> f i = false) -> set_bits f start n = [].
Proof.
  intros Hf. destruct (set_bits f start n) as [|x l] eqn:E; [done|].
  assert (x ∈ set_bits f start n) as [Hx Ht]%elem_of_set_bits by (rewrite E; by left).
  by rewrite Hf in Ht.
Qed.

Lemma set_bits_cons f start n :
  f start = true -> 0 < n -> set_bits f start n = start :: set_bits f (start + 1) (n - 1).
Proof.
  intros Hf Hn. replace n with (1 + (n - 1)) at 1 by lia. rewrite set_bits_app by lia.
  replace (set_bits f start 1) with [start]; [done|].
  unfold set_bits. change (seqZ start 1) with [0 + start]. rewrite Z.add_0_l.
  by rewrite filter_cons_True.
Qed.

Lemma set_bits_ext f g start n :
  (forall i, start <= i < start + n -> f i = g i) -> set_bits f start n = set_bits g start n.
Proof.
  intros Hfg. unfold set_bits.
  assert (Forall (fun i => f i = g i) (seqZ start n)) as Hall.
  { apply Forall_forall. intros i Hi%elem_of_seqZ. by apply Hfg. }
  induction Hall as [|x l Hx _ IH]; [done|]. rewrite !filter_cons, IH.
  destruct (decide (f x = true)), (decide (g x = true)); congruence.
Qed.

Lemma set_bits_NoDup f start n : NoDup (set_bits f start n).
Proof. apply NoDup_filter, NoDup_seqZ. Qed.

Lemma set_bits_next v start r :
  next_bit v start r ->
  set_bits (bv_bit (storage_ v)) start (32 * storage_size_ v - start) =
  set_bits (bv_bit (storage_ v)) r (32 * storage_size_ v - r).
Proof.
  intros (Hr & _ & Hz).
  replace (32 * storage_size_ v - start) with ((r - start) + (32 * storage_size_ v - r)) by lia.
  rewrite set_bits_app by lia. rewrite set_bits_nil by (intros; apply Hz; lia).
  simpl. f_equal. lia.
Qed.

Lemma indexes_loop_spec fuel v start :
  wf v -> 0 <= start -> 32 * storage_size_ v - start <= Z.of_nat fuel ->
  start = 32 * storage_size_ v \/ (start < 32 * storage_size_ v /\ bv_bit (storage_ v) start = true) ->
  indexes_loop fuel (mkIndexIterator (storage_ v) (storage_size_ v) start) (Indexes_end v) =
    Some (set_bits (bv_bit (storage_ v)) start (32 * storage_size_ v - start)).
Proof.
  intros Hwf. pose proof Hwf as (Hl & _ & Hs). revert start.
  induction fuel as [|fuel IH]; intros start Hst Hfuel Hcase;
    cbn [indexes_loop]; unfold IndexIterator_eq, Indexes_end, BitSize;
    cbn [bit_storage_ it_storage_size_ bit_index_]; rewrite bits_size_wrap by done;
    rewrite bool_decide_true, Z.eqb_refl by done; cbn [dcheck mbind option_bind];
    (destruct Hcase as [->|[Hlt Hb]]; [rewrite Z.eqb_refl, Z.sub_diag; done|]);
    (destruct (Z.eqb_spec start (32 * storage_size_ v)); [lia|]); [lia|].
  unfold IndexIterator_deref, IndexIterator_next, BitSize. cbn [bit_storage_ it_storage_size_ bit_index_].
  rewrite bits_size_wrap by done. rewrite (proj2 (Z.ltb_lt _ _)) by lia. cbn [dcheck mbind option_bind].
  rewrite wrap_id by (unfold is_u; lia).
  destruct (FindIndex_spec v start (start + 1)) as (r & -> & Hnext); [done|lia|].
  cbn [mbind option_bind]. pose proof Hnext as (Hr & Hcase & _).
  assert (Indexes_end v = mkIndexIterator (storage_ v) (storage_size_ v) (32 * storage_size_ v)) as <-.
  { unfold Indexes_end, BitSize. simpl. by rewrite bits_size_wrap. }
  rewrite IH; [|lia|lia|destruct Hcase; [by left|]].
  - cbn [mbind option_bind]. rewrite (set_bits_cons _ start) by (done || lia).
    rewrite <- (set_bits_next v (start + 1) r) by done. do 3 f_equal. lia.
  - destruct (Z.eq_dec r (32 * storage_size_ v)); [by left|]. right. split; [lia|done].
Qed.

Lemma Indexes_spec v :
  wf v -> Indexes v = Some (set_bits (bv_bit (storage_ v)) 0 (32 * storage_size_ v)).
Proof.
  intros Hwf. pose proof Hwf as (Hl & _ & Hs). unfold Indexes, Indexes_begin.
  destruct (FindIndex_spec v 0 0) as (r & -> & Hnext); [done|lia|]. cbn [mbind option_bind].
  pose proof Hnext as (Hr & Hcase & _). rewrite indexes_loop_spec; [|done|lia|lia|].
  - rewrite <- (set_bits_next v 0 r) by done. do 2 f_equal. lia.
  - destruct (Z.eq_dec r (32 * storage_size_ v)); [by left|]. right. destruct Hcase; [done|]. split; [lia|done].
Qed.

(** ** Counting *)

Lemma popcount_half x : 0 <= x -> builtin_popcount x = Z.b2z (Z.testbit x 0) + builtin_popcount (Z.div2 x).
Proof. intros. destruct x as [|[p|p|]|]; simpl; lia. Qed.

Lemma set_bits_shift f a start n :
  length (set_bits f (a + start) n) = length (set_bits (fun i => f (a + i)) start n).
Proof.
  unfold set_bits. rewrite <- fmap_add_seqZ.
  induction (seqZ start n) as [|x l IH]; [done|]. cbn [fmap list_fmap].
  rewrite !filter_cons. destruct (decide (f (a + x) = true)); simpl; congruence.
Qed.

Lemma set_bits_length f start n : 0 <= n -> zlength (set_bits f start n) <= n.
Proof.
  intros. unfold set_bits. pose proof (length_filter (fun i => f i = true) (seqZ start n)) as H'.
  rewrite length_seqZ in H'. lia.
Qed.

Lemma popcount_spec n x :
  is_u (Z.of_nat n) x -> builtin_popcount x = zlength (set_bits (Z.testbit x) 0 (Z.of_nat n)).
Proof.
  revert x. induction n as [|n IH]; intros x Hx.
  - unfold is_u in Hx. simpl in Hx. by replace x with 0 by lia.
  - destruct Hx as [Hx0 Hx]. rewrite popcount_half by done.
    replace (Z.of_nat (S n)) with (1 + Z.of_nat n) by lia. rewrite set_bits_app by lia.
    rewrite length_app, Nat2Z.inj_add. f_equal.
    + unfold set_bits. change (seqZ 0 1) with [0]. rewrite filter_cons, filter_nil.
      by destruct (decide (Z.testbit x 0 = true)) as [E|E%not_true_is_false]; rewrite E.
    + rewrite IH.
      * replace (0 + 1) with (1 + 0) by lia. rewrite set_bits_shift. do 2 f_equal.
        apply set_bits_ext. intros i Hi. rewrite Z.div2_spec, Z.shiftr_spec by lia. f_equal. lia.
      * unfold is_u. rewrite Z.div2_div. split; [apply Z.div_pos; lia|].
        apply Z.div_lt_upper_bound; [lia|]. rewrite <- Z.pow_succ_r by lia.
        by replace (Z.succ (Z.of_nat n)) with (Z.of_nat (S n)) by lia.
Qed.

Lemma set_bits_word st k w n :
  aread st k = Some w -> 0 <= n <= 32 ->
  length (set_bits (bv_bit st) (32 * k) n) = length (set_bits (Z.testbit w) 0 n).
Proof.
  intros Hw Hn. rewrite <- (Z.add_0_r (32 * k)), set_bits_shift. f_equal. apply set_bits_ext.
  intros i Hi. apply bv_bit_word; [lia|done].
Qed.

Lemma count_words_spec st n :
  Forall (is_u 32) st -> 0 <= n <= zlength st -> zlength st < 2 ^ 26 ->
  count_words st n 0 = Some (zlength (set_bits (bv_bit st) 0 (32 * n))).
Proof.
  intros Hf Hn Hl. unfold count_words.
  match goal with |- for_loop _ _ ?body _ = _ =>
    destruct (for_loop_inv (fun k c => c = zlength (set_bits (bv_bit st) 0 (32 * k)))
                (Z.to_nat n) 0 body 0) as (c & -> & Hc) end; [done| |].
  - intros k c Hk ->. destruct (aread_some st k) as [w Hw]; [lia|]. rewrite Hw. cbn [mbind option_bind].
    eexists. split; [done|]. pose proof (word_is_u _ _ _ Hf Hw) as Hu.
    unfold POPCOUNT. rewrite Z.eqb_refl, (wrap_id 32 w) by done.
    rewrite (popcount_spec 32 w Hu). replace (32 * (k + 1)) with (32 * k + 32) by lia.
    rewrite set_bits_app, Z.add_0_l, length_app, Nat2Z.inj_add by lia.
    rewrite (set_bits_word st k w 32) by (done || lia). apply wrap_id.
    pose proof (set_bits_length (bv_bit st) 0 (32 * k)).
    pose proof (set_bits_length (Z.testbit w) 0 32).
    change (Z.of_nat 32) with 32. unfold is_u. lia.
  - rewrite Z2Nat.id, Z.add_0_l in Hc by lia. by rewrite Hc.
Qed.

Lemma NumSetBits_spec v :
  wf v -> NumSetBits v = Some (zlength (set_bits (bv_bit (storage_ v)) 0 (32 * storage_size_ v))).
Proof. intros (Hl & Hf & Hs). apply count_words_spec; [done|lia|lia]. Qed.

Lemma partial_mask_bits w r :
  0 <= r < 32 -> is_u 32 w ->
  let m := Z.land w (u32 (Z.lnot (u32 (Z.shiftl 0xffffffff r)))) in
  is_u (Z.of_nat (Z.to_nat r)) m /\ forall i, 0 <= i < r -> Z.testbit m i = Z.testbit w i.
Proof.
  intros Hr Hw. cbv zeta. rewrite Z2Nat.id by lia.
  set (m := Z.land w _).
  assert (Hm : forall i, 0 <= i -> Z.testbit m i = Z.testbit w i && (i <? r)).
  { intros i Hi. unfold m. change 0xffffffff with (Z.ones 32).
    rewrite Z.land_spec, testbit_wrap, testbit_lnot, testbit_wrap, testbit_shiftl, Z.testbit_ones by lia.
    destruct (Z.ltb_spec i 32); [zcases; bit_done|]. rewrite (testbit_high 32 w) by done. done. }
  split.
  - apply is_u_bits; [lia|apply Z.land_nonneg; left; apply Hw|]. intros i Hi.
    rewrite Hm by lia. zcases; bit_done.
  - intros i Hi. rewrite Hm by lia. zcases; bit_done.
Qed.

Lemma NumSetBits_end_spec v end_ :
  wf v -> 0 <= end_ <= 32 * storage_size_ v ->
  NumSetBits_end v end_ = Some (zlength (set_bits (bv_bit (storage_ v)) 0 end_)).
Proof.
  intros Hwf He. unfold NumSetBits_end, NumSetBits_storage. rewrite bits_size_wrap by done.
  rewrite (proj2 (Z.leb_le _ _)) by lia. cbn [dcheck mbind option_bind]. cbv zeta.
  destruct Hwf as (Hl & Hf & Hs). rewrite WordIndex_div. change 0x1f with (Z.ones 5).
  rewrite Z.land_ones by lia. change (2 ^ 5) with 32. pose proof (idx_split end_) as [Ee Hm].
  rewrite count_words_spec by (done || lia). cbn [mbind option_bind].
  destruct (Z.eqb_spec (end_ mod 32) 0) as [E|E]; cbn [negb]; [by replace (32 * (end_ / 32)) with end_ by lia|].
  destruct (aread_some (storage_ v) (end_ / 32)) as [w Hw]; [lia|]. rewrite Hw. cbn [mbind option_bind].
  pose proof (word_is_u _ _ _ Hf Hw) as Hu.
  destruct (partial_mask_bits w (end_ mod 32) Hm Hu) as [Hmu Hmb]. set (m := Z.land w _) in *.
  assert (Hs' : set_bits (bv_bit (storage_ v)) 0 end_ =
    set_bits (bv_bit (storage_ v)) 0 (32 * (end_ / 32)) ++
    set_bits (bv_bit (storage_ v)) (32 * (end_ / 32)) (end_ mod 32)).
  { rewrite Ee at 1. by rewrite set_bits_app, Z.add_0_l by lia. }
  rewrite Hs', length_app, Nat2Z.inj_add, (set_bits_word _ _ w) by (done || lia).
  unfold POPCOUNT. rewrite Z.eqb_refl, (wrap_id 32 m) by (apply is_u_land_l; done).
  rewrite (popcount_spec (Z.to_nat (end_ mod 32)) m Hmu), Z2Nat.id by lia.
  rewrite (set_bits_ext (Z.testbit m) (Z.testbit w)) by (intros; apply Hmb; lia).
  f_equal. apply wrap_id. pose proof (set_bits_length (bv_bit (storage_ v)) 0 (32 * (end_ / 32))).
  pose proof (set_bits_length (Z.testbit w) 0 (end_ mod 32)). unfold is_u. lia.
Qed.

(** ** Refinement: a bit vector is a finite set of indexes *)

Definition bv_set (v : BitVector) : gset Z :=
  list_to_set (set_bits (bv_bit (storage_ v)) 0 (32 * storage_size_ v)).

Lemma elem_of_bv_set v i : wf v -> i ∈ bv_set v <-> bv_bit (storage_ v) i = true.
Proof.
  intros (Hl & _). unfold bv_set. rewrite elem_of_list_to_set, elem_of_set_bits.
  split; [tauto|]. intros Hb. pose proof (bv_bit_in _ _ Hb). split; [lia|done].
Qed.

Lemma bv_set_nonneg v i : wf v -> i ∈ bv_set v -> 0 <= i.
Proof. intros Hwf Hb%elem_of_bv_set; [|done]. apply bv_bit_in in Hb. lia. Qed.

(** Reading the bits of a result as a set. *)
Lemma bv_set_intro v (S : gset Z) :
  wf v -> (forall i, i ∈ S -> 0 <= i) ->
  (forall i, 0 <= i -> bv_bit (storage_ v) i = bool_decide (i ∈ S)) -> bv_set v = S.
Proof.
  intros Hwf Hpos Hb. apply set_eq. intros i. rewrite elem_of_bv_set by done.
  destruct (Z.ltb_spec i 0).
  - rewrite bv_bit_neg by done. split; [done|]. intros Hi%Hpos. lia.
  - rewrite Hb by done. apply bool_decide_eq_true.
Qed.

Lemma bv_bit_decide v i : wf v -> bv_bit (storage_ v) i = bool_decide (i ∈ bv_set v).
Proof.
  intros Hwf. destruct (bv_bit (storage_ v) i) eqn:E.
  - symmetry. apply bool_decide_eq_true. by apply elem_of_bv_set.
  - symmetry. apply bool_decide_eq_false. rewrite elem_of_bv_set by done. congruence.
Qed.

(** The mutating operations and their meaning on sets. *)
Inductive bv_op :=
  | OpSetBit (idx : Z)
  | OpClearBit (idx : Z)
  | OpClearAllBits
  | OpSetInitialBits (num_bits : Z)
  | OpCopy (src : BitVector)
  | OpUnion (src : BitVector)
  | OpUnionIfNotIn (union_with not_in : BitVector)
  | OpIntersect (src : BitVector)
  | OpSubtract (src : BitVector).

Definition bv_exec (Alloc : Z -> list Z) (v : BitVector) (op : bv_op) : option BitVector :=
  match op with
  | OpSetBit idx => SetBit Alloc v idx
  | OpClearBit idx => ClearBit v idx
  | OpClearAllBits => ClearAllBits v
  | OpSetInitialBits n => SetInitialBits Alloc v n
  | OpCopy src => Copy Alloc v src
  | OpUnion src => fst <$> Union Alloc v src
  | OpUnionIfNotIn a b => fst <$> UnionIfNotIn Alloc v a b
  | OpIntersect src => Intersect v src
  | OpSubtract src => Subtract v src
  end.

Definition set_exec (S : gset Z) (op : bv_op) : gset Z :=
  match op with
  | OpSetBit idx => S ∪ {[idx]}
  | OpClearBit idx => S ∖ {[idx]}
  | OpClearAllBits => ∅
  | OpSetInitialBits n => list_to_set (seqZ 0 n)
  | OpCopy src => bv_set src
  | OpUnion src => S ∪ bv_set src
  | OpUnionIfNotIn a b => S ∪ (bv_set a ∖ bv_set b)
  | OpIntersect src => S ∩ bv_set src
  | OpSubtract src => S ∖ bv_set src
  end.

(** Indexes that keep the sizes in range; operands are vectors. *)
Definition op_ok (op : bv_op) : Prop :=
  match op with
  | OpSetBit idx => 0 <= idx < 2 ^ 31 - 32
  | OpClearBit idx => 0 <= idx
  | OpClearAllBits => True
  | OpSetInitialBits n => 0 <= n <= 2 ^ 31 - 32
  | OpCopy src | OpUnion src | OpIntersect src | OpSubtract src => wf src
  | OpUnionIfNotIn a b => wf a /\ wf b
  end.

(** A goal [b = bool_decide P] about one bit, by membership in the sets. *)
Ltac bv_membership :=
  apply eq_true_iff_eq;
  rewrite ?orb_true_iff, ?andb_true_iff, ?negb_true_iff, ?bool_decide_eq_true,
    ?bool_decide_eq_false, ?Z.eqb_eq, ?Z.eqb_neq;
  set_solver.

Lemma expandable_room v i : expandable_ v = true -> 0 <= i < 2 ^ 31 - 32 -> room v i.
Proof. intros He Hi. split; [done|by right]. Qed.

Lemma expandable_fits v src : expandable_ v = true -> wf src -> fits v src.
Proof.
  intros He (Hl & _ & Hs) i Hb%bv_bit_in. apply expandable_room; [done|]. lia.
Qed.

(** The result of an operation whose bits are those of [S]. *)
Lemma refine_result {o v' b f} (S : gset Z) :
  o = Some v' -> wf v' -> expandable_ v' = b ->
  (forall i, 0 <= i -> bv_bit (storage_ v') i = f i) ->
  (forall i, i ∈ S -> 0 <= i) -> (forall i, 0 <= i -> f i = bool_decide (i ∈ S)) ->
  exists v', o = Some v' /\ wf v' /\ expandable_ v' = b /\ bv_set v' = S.
Proof.
  intros -> Hwf He Hb Hpos Hf. exists v'. do 3 (split; [done|]).
  apply bv_set_intro; [done|done|]. intros i Hi. rewrite Hb by done. by apply Hf.
Qed.

Lemma bv_exec_refines Alloc v op :
  alloc_ok Alloc -> wf v -> expandable_ v = true -> op_ok op ->
  exists v', bv_exec Alloc v op = Some v' /\ wf v' /\ expandable_ v' = true /\
    bv_set v' = set_exec (bv_set v) op.
Proof.
  intros Halloc Hwf He Hok.
  assert (Hpos : forall w i, wf w -> i ∈ bv_set w -> 0 <= i) by (intros; by eapply bv_set_nonneg).
  destruct op as [idx|idx| |n|src|src|a b|src|src]; simpl in Hok |- *.
  - destruct (SetBit_spec Alloc Halloc v idx Hwf (expandable_room v idx He Hok))
      as (v' & E & Hwf' & He' & _ & Hb).
    apply (refine_result _ E Hwf' (eq_trans He' He) Hb); [ |].
    + intros i [Hi|Hi]%elem_of_union; [eauto|]. set_solver.
    + intros i Hi. cbn beta. rewrite (bv_bit_decide v) by done. bv_membership.
  - destruct (ClearBit_spec v idx Hwf Hok) as (v' & E & Hwf' & _ & He' & Hb).
    apply (refine_result _ E Hwf' (eq_trans He' He) Hb); [set_solver|].
    intros i Hi. cbn beta. rewrite (bv_bit_decide v) by done. bv_membership.
  - destruct Hwf as (Hl & _ & Hs). destruct (ClearAllBits_raw v Hl Hs) as (v' & E & Hwf' & _ & He' & Hb).
    apply (refine_result _ E Hwf' (eq_trans He' He) Hb); [set_solver|]. done.
  - destruct (SetInitialBits_spec Alloc Halloc v n Hwf) as (v' & E & Hwf' & He' & Hb).
    { destruct (Z.eq_dec n 0); [by left|right]. split; [lia|]. apply expandable_room; [done|lia]. }
    apply (refine_result _ E Hwf' (eq_trans He' He) Hb); [ |].
    + intros i Hi%elem_of_list_to_set. apply elem_of_seqZ in Hi. lia.
    + intros i Hi. cbn beta. apply eq_true_iff_eq.
      rewrite bool_decide_eq_true, elem_of_list_to_set, elem_of_seqZ, Z.ltb_lt. lia.
  - destruct (Copy_spec Alloc Halloc v src Hwf Hok (expandable_fits v src He Hok))
      as (v' & E & Hwf' & He' & Hb).
    apply (refine_result _ E Hwf' (eq_trans He' He) Hb); [eauto|].
    intros i Hi. by apply bv_bit_decide.
  - destruct (Union_spec Alloc Halloc v src Hwf Hok (expandable_fits v src He Hok))
      as (v' & c & E & Hwf' & He' & Hb & _). rewrite E.
    apply (refine_result _ eq_refl Hwf' (eq_trans He' He) Hb); [set_solver|].
    intros i Hi. cbn beta. rewrite (bv_bit_decide v), (bv_bit_decide src) by done. bv_membership.
  - destruct Hok as [Ha Hb']. destruct (UnionIfNotIn_spec Alloc Halloc v a b Hwf Ha Hb'
      (expandable_fits v a He Ha)) as (v' & c & E & Hwf' & He' & Hb & _). rewrite E.
    apply (refine_result _ eq_refl Hwf' (eq_trans He' He) Hb); [set_solver|].
    intros i Hi. cbn beta. rewrite (bv_bit_decide v), (bv_bit_decide a), (bv_bit_decide b) by done.
    bv_membership.
  - destruct (Intersect_spec v src Hwf Hok) as (v' & E & Hwf' & _ & He' & Hb).
    apply (refine_result _ E Hwf' (eq_trans He' He) Hb); [set_solver|].
    intros i Hi. cbn beta. rewrite (bv_bit_decide v), (bv_bit_decide src) by done. bv_membership.
  - destruct (Subtract_spec v src Hwf Hok) as (v' & E & Hwf' & _ & He' & Hb).
    apply (refine_result _ E Hwf' (eq_trans He' He) Hb); [set_solver|].
    intros i Hi. cbn beta. rewrite (bv_bit_decide v), (bv_bit_decide src) by done. bv_membership.
Qed.

Fixpoint bv_run (Alloc : Z -> list Z) (v : BitVector) (ops : list bv_op) : option BitVector :=
  match ops with
  | [] => Some v
  | op :: rest => v ← bv_exec Alloc v op; bv_run Alloc v rest
  end.

Lemma bv_run_refines Alloc ops v :
  alloc_ok Alloc -> wf v -> expandable_ v = true -> Forall op_ok ops ->
  exists v', bv_run Alloc v ops = Some v' /\ wf v' /\ expandable_ v' = true /\
    bv_set v' = foldl set_exec (bv_set v) ops.
Proof.
  intros Ha Hwf He Hops. revert v Hwf He. induction Hops as [|op ops Hop _ IH]; intros v Hwf He; simpl.
  - exists v. auto.
  - destruct (bv_exec_refines Alloc v op) as (v1 & -> & Hwf1 & He1 & <-); [done..|].
    cbn [mbind option_bind]. by apply IH.
Qed.

Lemma set_bits_sorted f start n : StronglySorted Z.lt (set_bits f start n).
Proof.
  destruct (Z.leb_spec 0 n); [|by rewrite set_bits_nil by lia; constructor].
  rewrite <- (Z2Nat.id n) by done. generalize (Z.to_nat n) as k. clear. intros k. revert start.
  induction k as [|k IH]; intros start; [constructor|].
  destruct (f start) eqn:E.
  - rewrite set_bits_cons by (done || lia).
    replace (Z.of_nat (S k) - 1) with (Z.of_nat k) by lia. constructor; [apply IH|].
    apply Forall_forall. intros i Hi%elem_of_set_bits. lia.
  - replace (Z.of_nat (S k)) with (1 + Z.of_nat k) by lia. rewrite set_bits_app by lia.
    rewrite (set_bits_nil f start 1); [apply IH|]. intros i Hi. by replace i with start by lia.
Qed.

(** C36: an expandable bit vector implements a finite set of indexes. For every
    sequence of mutating operations on a fresh vector the operations succeed
    (no failed check, no access outside the storage, whatever the allocator
    left in fresh memory), the bits are the set computed by the same sequence
    on sets, and the queries answer for that set: membership, the number of
    elements, in total and below a bound, and the elements in increasing order. *)
Theorem bit_vector_refines_set Alloc start_bits ops
    (Halloc : alloc_ok Alloc) (Hstart : 0 <= start_bits < 2 ^ 31 - 32) (Hops : Forall op_ok ops) :
  exists v0 v, BitVector_create Alloc start_bits true = Some v0 /\
    bv_run Alloc v0 ops = Some v /\ wf v /\
    let S := foldl set_exec ∅ ops in
    (forall idx, 0 <= idx -> IsBitSet v idx = Some (bool_decide (idx ∈ S))) /\
    NumSetBits v = Some (Z.of_nat (size S)) /\
    (forall end_, 0 <= end_ <= 32 * storage_size_ v ->
       NumSetBits_end v end_ = Some (Z.of_nat (size (filter (fun i => i < end_) S)))) /\
    (exists l, Indexes v = Some l /\ StronglySorted Z.lt l /\ forall i, i ∈ l <-> i ∈ S).
Proof.
  destruct (BitVector_create_spec Alloc Halloc start_bits true) as (v0 & E0 & Hwf0 & He0 & _ & Hb0); [done|].
  destruct (bv_run_refines Alloc ops v0) as (v & E & Hwf & _ & Hset); [done..|].
  exists v0, v. do 3 (split; [done|]). cbv zeta.
  assert (bv_set v0 = ∅) as Hempty.
  { apply bv_set_intro; [done|set_solver|]. intros i Hi. by rewrite Hb0. }
  rewrite Hempty in Hset. rewrite <- Hset. pose proof Hwf as (Hl & _). split_and!.
  - intros idx Hi. rewrite IsBitSet_spec, bv_bit_decide by done. done.
  - rewrite NumSetBits_spec by done. unfold bv_set.
    by rewrite size_list_to_set by apply set_bits_NoDup.
  - intros end_ He. rewrite NumSetBits_end_spec by done.
    rewrite <- (size_list_to_set (C := gset Z)) by apply set_bits_NoDup. do 3 f_equal.
    apply set_eq. intros i. rewrite elem_of_list_to_set, elem_of_filter, elem_of_set_bits.
    rewrite elem_of_bv_set by done. split; [intuition lia|]. intros [? Hb].
    pose proof (bv_bit_in _ _ Hb). intuition lia.
  - eexists. split; [by apply Indexes_spec|]. split; [apply set_bits_sorted|].
    intros i. unfold bv_set. by rewrite elem_of_list_to_set.
Qed.

(** Memory with arbitrary contents. *)
Definition garbage_alloc (bytes : Z) : list Z := replicate (Z.to_nat (bytes / kWordBytes)) 0xdeadbeef.

Lemma garbage_alloc_ok : alloc_ok garbage_alloc.
Proof.
  intros n Hn. unfold garbage_alloc. rewrite Z.div_mul by done. rewrite length_replicate.
  split; [lia|]. apply Forall_replicate. unfold is_u. lia.
Qed.

Lemma bit_vector_refines_set_witness :
  exists v0 v, BitVector_create garbage_alloc 10 true = Some v0 /\
    bv_run garbage_alloc v0 [OpSetBit 3; OpSetBit 70; OpClearBit 3] = Some v /\ wf v /\
    let S := foldl set_exec ∅ [OpSetBit 3; OpSetBit 70; OpClearBit 3] in
    (forall idx, 0 <= idx -> IsBitSet v idx = Some (bool_decide (idx ∈ S))) /\
    NumSetBits v = Some (Z.of_nat (size S)) /\
    (forall end_, 0 <= end_ <= 32 * storage_size_ v ->
       NumSetBits_end v end_ = Some (Z.of_nat (size (filter (fun i => i < end_) S)))) /\
    (exists l, Indexes v = Some l /\ StronglySorted Z.lt l /\ forall i, i ∈ l <-> i ∈ S).
Proof.
  apply (bit_vector_refines_set garbage_alloc 10 [OpSetBit 3; OpSetBit 70; OpClearBit 3]).
  - apply garbage_alloc_ok.
  - lia.
  - repeat constructor; simpl; lia.
Defined.

(** The comparisons decide equality and inclusion of the sets of bits,
    independently of the sizes of the two vectors (in particular the [memcmp]
    of [SameBitsSet], which may leave out the word of the highest bit, is
    enough), and the highest bit is the maximum of the set. *)
Theorem bit_vector_comparisons v w (Hv : wf v) (Hw : wf w) :
  SameBitsSet v w = Some (bool_decide (bv_set v = bv_set w)) /\
  IsSubsetOf v w = Some (bool_decide (bv_set v ⊆ bv_set w)) /\
  Equal v w = Some (bool_decide (bv_set v = bv_set w /\ storage_size_ v = storage_size_ w /\
                                 expandable_ v = expandable_ w)) /\
  exists h, GetHighestBitSet v = Some h /\ (forall i, i ∈ bv_set v -> i <= h) /\
    if bool_decide (bv_set v = ∅) then h = -1 else h ∈ bv_set v.
Proof.
  assert (Heq : bv_set v = bv_set w <->
            forall i, 0 <= i -> bv_bit (storage_ v) i = bv_bit (storage_ w) i).
  { split; [intros E i Hi; rewrite !bv_bit_decide, E by done; done|].
    intros Hb. apply bv_set_intro; [done|intros i; by apply bv_set_nonneg|].
    intros i Hi. rewrite Hb by done. by apply bv_bit_decide. }
  split_and!.
  - destruct (SameBitsSet_spec v w Hv Hw) as (b & -> & Hb). f_equal. apply eq_true_iff_eq.
    by rewrite bool_decide_eq_true, Hb, Heq.
  - destruct (IsSubsetOf_spec v w Hv Hw) as (b & -> & Hb). f_equal. apply eq_true_iff_eq.
    rewrite bool_decide_eq_true, Hb. unfold subseteq, set_subseteq_instance. split.
    + intros H i Hi. pose proof (bv_set_nonneg v i Hv Hi). rewrite !elem_of_bv_set in * by done. auto.
    + intros H i _ Hi. specialize (H i). rewrite !elem_of_bv_set in H by done. auto.
  - rewrite Equal_spec by done. f_equal. apply bool_decide_ext. rewrite Heq.
    destruct Hv as (Hl & Hf & _), Hw as (Hl' & Hf' & _). split.
    + intros [E ?]. split; [by rewrite E|]. split; [rewrite <- Hl, <- Hl', E|]; done.
    + intros (Hb & Hs & ?). split; [|done]. apply storage_ext; [lia|done..].
  - destruct (GetHighestBitSet_spec v Hv) as (h & -> & Hr & Hb & Hz). exists h. split; [done|].
    assert (Hmax : forall i, i ∈ bv_set v -> i <= h).
    { intros i Hi%elem_of_bv_set; [|done]. destruct (Z.leb_spec i h); [done|]. by rewrite Hz in Hi. }
    split; [done|]. case_bool_decide as Hem.
    + destruct Hb as [->|Hb]; [done|]. apply elem_of_bv_set in Hb; [|done].
      rewrite Hem in Hb. by apply not_elem_of_empty in Hb.
    + destruct Hb as [->|Hb]; [|by apply elem_of_bv_set].
      contradict Hem. apply bv_set_intro; [done|set_solver|]. intros i Hi. by rewrite Hz by lia.
Qed.

Lemma bit_vector_comparisons_witness :
  let v := mkBitVector [5; 1] 2 false in let w := mkBitVector [5; 1; 0] 3 true in
  SameBitsSet v w = Some (bool_decide (bv_set v = bv_set w)) /\
  IsSubsetOf v w = Some (bool_decide (bv_set v ⊆ bv_set w)) /\
  Equal v w = Some (bool_decide (bv_set v = bv_set w /\ storage_size_ v = storage_size_ w /\
                                 expandable_ v = expandable_ w)) /\
  exists h, GetHighestBitSet v = Some h /\ (forall i, i ∈ bv_set v -> i <= h) /\
    if bool_decide (bv_set v = ∅) then h = -1 else h ∈ bv_set v.
Proof.
  apply bit_vector_comparisons.
  - wf_compute.
  - wf_compute.
Defined.

(** [Union] and [UnionIfNotIn] report exactly whether the set grew, for
    any destination that can hold the bits (an expandable one always can). *)
Theorem bit_vector_union_flags Alloc v a b
    (Halloc : alloc_ok Alloc) (Hv : wf v) (Ha : wf a) (Hb : wf b) (Hfit : fits v a) :
  (exists v', Union Alloc v a = Some (v', bool_decide (¬ bv_set a ⊆ bv_set v)) /\
     wf v' /\ bv_set v' = bv_set v ∪ bv_set a) /\
  (exists v', UnionIfNotIn Alloc v a b =
       Some (v', bool_decide (¬ bv_set a ∖ bv_set b ⊆ bv_set v)) /\
     wf v' /\ bv_set v' = bv_set v ∪ (bv_set a ∖ bv_set b)).
Proof.
  assert (Hpos : forall w i, wf w -> i ∈ bv_set w -> 0 <= i) by (intros; by eapply bv_set_nonneg).
  assert (Hflag : forall v' c (S : gset Z), wf v' -> bv_set v' = bv_set v ∪ S ->
    (c = true <-> exists i, 0 <= i /\ bv_bit (storage_ v') i = true /\ bv_bit (storage_ v) i = false) ->
    c = bool_decide (¬ S ⊆ bv_set v)).
  { intros v' c S Hwf' HS Hc. apply eq_true_iff_eq. rewrite bool_decide_eq_true, Hc. split.
    - intros (i & Hi & Ht & Hf) Hsub. rewrite !bv_bit_decide in * by done.
      apply bool_decide_eq_true in Ht. apply bool_decide_eq_false in Hf. set_solver.
    - intros Hn. destruct (set_choose_or_empty (S ∖ bv_set v)) as [[i Hi]|He].
      2:{ contradict Hn. intros i Hi. destruct (decide (i ∈ bv_set v)); [done|].
          exfalso. apply (not_elem_of_empty (C := gset Z) i). rewrite <- He.
          by apply elem_of_difference. }
      apply elem_of_difference in Hi as [Hi Hi']. rewrite elem_of_bv_set in Hi' by done.
      assert (i ∈ bv_set v') as Hiv by (rewrite HS; by apply elem_of_union_r).
      exists i. split; [by apply (Hpos v')|]. split; [by apply elem_of_bv_set|].
      by destruct (bv_bit (storage_ v) i). }
  split.
  - destruct (Union_spec Alloc Halloc v a Hv Ha Hfit) as (v' & c & -> & Hwf' & _ & Hbits & Hc).
    assert (bv_set v' = bv_set v ∪ bv_set a) as Hset.
    { apply bv_set_intro; [done|set_solver|]. intros i Hi. rewrite Hbits by done.
      rewrite (bv_bit_decide v), (bv_bit_decide a) by done. bv_membership. }
    exists v'. by rewrite (Hflag v' c _ Hwf' Hset Hc).
  - destruct (UnionIfNotIn_spec Alloc Halloc v a b Hv Ha Hb Hfit) as (v' & c & -> & Hwf' & _ & Hbits & Hc).
    assert (bv_set v' = bv_set v ∪ (bv_set a ∖ bv_set b)) as Hset.
    { apply bv_set_intro; [done|set_solver|]. intros i Hi. rewrite Hbits by done.
      rewrite (bv_bit_decide v), (bv_bit_decide a), (bv_bit_decide b) by done. bv_membership. }
    exists v'. by rewrite (Hflag v' c _ Hwf' Hset Hc).
Qed.

Lemma bit_vector_union_flags_witness :
  let v := mkBitVector [5] 1 true in let a := mkBitVector [4; 1] 2 false in
  let b := mkBitVector [1; 1] 2 false in
  (exists v', Union garbage_alloc v a = Some (v', bool_decide (¬ bv_set a ⊆ bv_set v)) /\
     wf v' /\ bv_set v' = bv_set v ∪ bv_set a) /\
  (exists v', UnionIfNotIn garbage_alloc v a b =
       Some (v', bool_decide (¬ bv_set a ∖ bv_set b ⊆ bv_set v)) /\
     wf v' /\ bv_set v' = bv_set v ∪ (bv_set a ∖ bv_set b)).
Proof.
  apply (bit_vector_union_flags garbage_alloc (mkBitVector [5] 1 true)
           (mkBitVector [4; 1] 2 false) (mkBitVector [1; 1] 2 false)).
  - apply garbage_alloc_ok.
  - wf_compute.
  - wf_compute.
  - wf_compute.
  - apply expandable_fits; [done|]. wf_compute.
Defined.

(** ** Arrays of rows *)

(** The rows are whole words and lie inside the raw data. *)
Definition array_wf (a : BaseBitVectorArray) : Prop :=
  wf (raw_data a) /\ 0 < num_columns_ a /\ num_columns_ a mod 32 = 0 /\ 0 <= num_rows_ a /\
  num_rows_ a * num_columns_ a <= 32 * storage_size_ (raw_data a).

Lemma array_index a row col :
  array_wf a -> 0 <= row < num_rows_ a -> 0 <= col < num_columns_ a ->
  0 <= row * num_columns_ a + col < 32 * storage_size_ (raw_data a) /\
  u32 (row * num_columns_ a + col) = row * num_columns_ a + col.
Proof.
  intros (Hwf & Hc & _ & Hr & Hfit) Hrow Hcol.
  assert (0 <= row * num_columns_ a + col < 32 * storage_size_ (raw_data a)) as Hb by nia.
  split; [done|]. apply wrap_id. destruct Hwf as (_ & _ & Hs). unfold is_u. lia.
Qed.

Lemma array_IsBitSet_spec a row col :
  array_wf a -> 0 <= row < num_rows_ a -> 0 <= col < num_columns_ a ->
  array_IsBitSet a row col = Some (bv_bit (storage_ (raw_data a)) (row * num_columns_ a + col)).
Proof.
  intros Hwf Hrow Hcol. destruct (array_index a row col Hwf Hrow Hcol) as [Hi Hu].
  unfold array_IsBitSet. rewrite !(proj2 (Z.ltb_lt _ _)) by lia. cbn [dcheck mbind option_bind].
  rewrite Hu. apply IsBitSet_spec; [apply Hwf|lia].
Qed.

(** The loop of [UnionRows] on word offsets [d] and [s] of disjoint or equal rows. *)
Lemma union_rows_loop n st d s :
  0 <= d -> 0 <= s -> d + Z.of_nat n <= zlength st -> s + Z.of_nat n <= zlength st ->
  d = s \/ d + Z.of_nat n <= s \/ s + Z.of_nat n <= d ->
  exists st', for_loop n 0 (fun i st => x ← aread st (d + i); y ← aread st (s + i);
                              awrite st (d + i) (Z.lor x y)) st = Some st' /\
    updated (fun j x => Z.lor x (default 0 (aread st (s + (j - d))))) d (d + Z.of_nat n) st st'.
Proof.
  intros Hd Hs Hdn Hsn Hdisj. set (g := fun j x => Z.lor x (default 0 (aread st (s + (j - d))))).
  match goal with |- exists st', for_loop _ _ ?body _ = _ /\ _ =>
    destruct (for_loop_inv (fun k st' => updated g d (d + k) st st') n 0 body st) as (st' & E & Hu) end.
  - rewrite Z.add_0_r. apply updated_refl.
  - intros k st' Hk Hu. destruct (aread_some st (d + k)) as [x Hx]; [lia|].
    destruct (aread_some st (s + k)) as [y Hy]; [lia|].
    destruct (updated_step g d (d + k) st st' x) as (Hx' & st2 & Hw & Hu2); [lia|done|done|].
    assert (aread st' (s + k) = Some y) as Hy'.
    { destruct Hu as [_ Hu]. rewrite Hu by lia. destruct Hdisj as [->|Hdisj].
      - by zcases.
      - by zcases. }
    exists st2. rewrite Hx', Hy'. cbn [mbind option_bind]. split; [|by rewrite Z.add_assoc].
    unfold g in Hw. replace (s + (d + k - d)) with (s + k) in Hw by lia. by rewrite Hy in Hw.
  - exists st'. split; [done|]. by rewrite Z.add_0_l in Hu.
Qed.

Lemma row_words a row :
  array_wf a -> 0 <= row < num_rows_ a ->
  u64 (row * num_columns_ a) / kWordBits = row * (num_columns_ a / 32) /\
  num_columns_ a = 32 * (num_columns_ a / 32) /\ 0 < num_columns_ a / 32 /\
  (row + 1) * (num_columns_ a / 32) <= storage_size_ (raw_data a).
Proof.
  intros (Hwf & Hc & Hm & Hr & Hfit) Hrow.
  assert (Hcw : num_columns_ a = 32 * (num_columns_ a / 32)) by (pose proof (idx_split (num_columns_ a)); lia).
  set (cw := num_columns_ a / 32) in *. destruct Hwf as (_ & _ & Hs).
  assert (0 < cw) by lia. assert ((row + 1) * cw <= storage_size_ (raw_data a)) by nia.
  split; [|done]. rewrite Hcw, wrap_id by (unfold is_u; nia).
  unfold kWordBits, kWordBytes. change (4 * 8) with 32.
  replace (row * (32 * cw)) with (row * cw * 32) by lia. by rewrite Z.div_mul.
Qed.

Lemma row_col_word c row col row' :
  0 < c -> 0 <= col < 32 * c ->
  (row * (32 * c) + col) / 32 = row * c + col / 32 /\ (row * (32 * c) + col) mod 32 = col mod 32 /\
  0 <= col / 32 < c /\
  ((row' * c <=? row * c + col / 32) && (row * c + col / 32 <? row' * c + c)) = (row =? row').
Proof.
  intros Hc Hcol. replace (row * (32 * c) + col) with (col + row * c * 32) by lia.
  rewrite Z.div_add, Z.mod_add by lia.
  assert (0 <= col / 32 < c) by (split; [apply Z.div_pos; lia|apply Z.div_lt_upper_bound; lia]).
  split; [lia|]. split; [done|]. split; [done|].
  destruct (Z.eqb_spec row row') as [->|Hne].
  - rewrite (proj2 (Z.leb_le _ _)), (proj2 (Z.ltb_lt _ _)) by lia. done.
  - destruct (Z.leb_spec (row' * c) (row * c + col / 32)); [|done].
    apply Z.ltb_ge. assert (row' < row \/ row < row') as [?|?] by lia; nia.
Qed.

(** [UnionRows] adds the bits of row [other] to row [dest_row] and leaves
    every other row as it was. *)
Theorem UnionRows_correct a dest_row other
    (Ha : array_wf a) (Hd : 0 <= dest_row < num_rows_ a) (Ho : 0 <= other < num_rows_ a) :
  exists a', UnionRows a dest_row other = Some a' /\ array_wf a' /\
    forall row col, 0 <= row < num_rows_ a -> 0 <= col < num_columns_ a ->
      array_IsBitSet a' row col =
        (b ← array_IsBitSet a row col; o ← array_IsBitSet a other col;
         Some (b || ((row =? dest_row) && o))).
Proof.
  destruct (row_words a dest_row Ha Hd) as (Ed & Hcw & Hcp & Hdb).
  destruct (row_words a other Ha Ho) as (Eo & _ & _ & Hob).
  pose proof Ha as (Hwf & Hc & Hm & Hr & Hfit). pose proof Hwf as (Hl & Hf & Hs).
  unfold UnionRows. rewrite !(proj2 (Z.ltb_lt _ _)) by lia. cbn [dcheck mbind option_bind].
  rewrite Ed, Eo. change kWordBits with 32. set (cw := num_columns_ a / 32) in *.
  destruct (union_rows_loop (Z.to_nat cw) (storage_ (raw_data a)) (dest_row * cw) (other * cw))
    as (st & -> & Hu); [nia|nia|lia|lia| |].
  { assert (dest_row = other \/ dest_row < other \/ other < dest_row) as [->|[?|?]] by lia;
      [by left|right; left; nia|right; right; nia]. }
  cbn [mbind option_bind]. rewrite Z2Nat.id in Hu by lia. eexists. split; [done|].
  assert (wf (with_storage (raw_data a) st)) as Hwf'.
  { eapply updated_wf; [done..|]. intros j x Hj _ Hx. apply is_u_lor; [done|].
    destruct (aread_some (storage_ (raw_data a)) (other * cw + (j - dest_row * cw))) as [y Hy]; [lia|].
    rewrite Hy. by eapply word_is_u. }
  assert (array_wf (with_data a (with_storage (raw_data a) st))) as Ha' by (split; done).
  split; [done|]. intros row col Hrow Hcol. rewrite !array_IsBitSet_spec by done.
  cbn [mbind option_bind raw_data with_data storage_ with_storage num_columns_]. f_equal.
  rewrite (bv_bit_updated _ _ _ _ _ _ Hu) by nia. rewrite Hcw in Hcol |- *.
  destruct (row_col_word cw row col dest_row) as (E1 & E2 & E3 & E4); [done|done|].
  destruct (row_col_word cw other col dest_row) as (E5 & E6 & _ & _); [done|done|].
  rewrite E1, E2, E4. destruct (Z.eqb_spec row dest_row) as [->|]; cbn [andb];
    [|by rewrite orb_false_r].
  destruct (aread_some (storage_ (raw_data a)) (dest_row * cw + col / 32)) as [x Hx]; [nia|].
  destruct (aread_some (storage_ (raw_data a)) (other * cw + col / 32)) as [y Hy]; [nia|].
  unfold bv_bit. rewrite E1, E2, E5, E6, Hx, Hy. rewrite Z.lor_spec. f_equal.
  replace (other * cw + (dest_row * cw + col / 32 - dest_row * cw)) with (other * cw + col / 32) by lia.
  by rewrite Hy.
Qed.

Lemma UnionRows_correct_witness :
  let a := mkBitVectorArray 32 3 (mkBitVector [1; 6; 8] 3 false) in
  exists a', UnionRows a 0 2 = Some a' /\ array_wf a' /\
    forall row col, 0 <= row < num_rows_ a -> 0 <= col < num_columns_ a ->
      array_IsBitSet a' row col =
        (b ← array_IsBitSet a row col; o ← array_IsBitSet a 2 col;
         Some (b || ((row =? 0) && o))).
Proof.
  apply (UnionRows_correct (mkBitVectorArray 32 3 (mkBitVector [1; 6; 8] 3 false)) 0 2).
  - split; [wf_compute|simpl; split_and!; lia || done].
  - simpl. lia.
  - simpl. lia.
Defined.

(** C37: [Resize] of an array to [rows] rows of [cols] columns makes every bit
    of the array addressable. With [clear] the array is empty afterwards;
    without it the raw bits are kept except the last bit of the array, which
    is always cleared. *)
Theorem Resize_correct Alloc a rows cols clear
    (Halloc : alloc_ok Alloc) (Hwf : wf (raw_data a)) (He : expandable_ (raw_data a) = true)
    (Hr : 0 < rows) (Hc : 0 < cols < 2 ^ 31) (Hfit : rows * (32 * ((cols + 31) / 32)) < 2 ^ 31 - 32) :
  exists a', Resize Alloc a rows cols clear = Some a' /\ array_wf a' /\
    num_rows_ a' = rows /\ num_columns_ a' = 32 * ((cols + 31) / 32) /\
    forall i, 0 <= i -> bv_bit (storage_ (raw_data a')) i =
      negb clear && bv_bit (storage_ (raw_data a)) i && negb (i =? rows * num_columns_ a' - 1).
Proof.
  unfold Resize, IsExpandable. rewrite He. cbn [dcheck mbind option_bind].
  assert (exists a1, (if clear then array_Clear a else Some a) = Some a1 /\ wf (raw_data a1) /\
    expandable_ (raw_data a1) = true /\
    forall i, 0 <= i -> bv_bit (storage_ (raw_data a1)) i = negb clear && bv_bit (storage_ (raw_data a)) i)
    as (a1 & -> & Hwf1 & He1 & Hb1).
  { destruct clear; [|by exists a]. unfold array_Clear. pose proof Hwf as (Hl & _ & Hs).
    destruct (ClearAllBits_raw (raw_data a) Hl Hs) as (v & -> & Hwf' & _ & He' & Hb).
    exists (with_data a v). split; [done|]. split; [done|]. split; [simpl; congruence|done]. }
  cbn [mbind option_bind].
  assert (RoundUp 64 cols kWordBits = 32 * ((cols + 31) / 32)) as ->.
  { pose proof (RoundUp_spec 64 cols 5 ltac:(lia) ltac:(lia) ltac:(lia)) as Hru.
    change (2 ^ 5) with 32 in Hru. change kWordBits with 32. rewrite Hru.
    replace (cols + 32 - 1) with (cols + 31) by lia. lia. }
  assert (1 <= (cols + 31) / 32) by (apply Z.div_le_lower_bound; lia).
  set (cw := (cols + 31) / 32) in *. assert (32 <= rows * (32 * cw)) by nia.
  rewrite (wrap_id 64 (rows * _)), (wrap_id 64), wrap_id by (unfold is_u; lia).
  destruct (SetBit_spec Alloc Halloc (raw_data a1) (rows * (32 * cw) - 1))
    as (v1 & -> & Hwf2 & He2 & Hs2 & Hb2); [done|apply expandable_room; [done|lia]|].
  cbn [mbind option_bind].
  destruct (ClearBit_spec v1 (rows * (32 * cw) - 1)) as (v2 & -> & Hwf3 & Hs3 & _ & Hb3); [done|lia|].
  cbn [mbind option_bind]. eexists. split; [done|]. cbn [raw_data num_rows_ num_columns_].
  split; [|split; [done|split; [done|]]].
  - split; [done|]. cbn [raw_data num_rows_ num_columns_]. split; [lia|].
    split; [by rewrite Z.mul_comm, Z.mod_mul|]. split; [lia|].
    rewrite Hs3, Hs2. pose proof (idx_split (rows * (32 * cw) - 1)). lia.
  - intros i Hi. rewrite Hb3, Hb2, Hb1 by done.
    destruct (i =? rows * (32 * cw) - 1); simpl; by rewrite ?andb_false_r, ?orb_false_r.
Qed.

Lemma Resize_correct_witness :
  let a := mkBitVectorArray 32 1 (mkBitVector [2 ^ 31 + 1] 1 true) in
  exists a', Resize garbage_alloc a 1 32 false = Some a' /\ array_wf a' /\
    num_rows_ a' = 1 /\ num_columns_ a' = 32 * ((32 + 31) / 32) /\
    forall i, 0 <= i -> bv_bit (storage_ (raw_data a')) i =
      negb false && bv_bit (storage_ (raw_data a)) i && negb (i =? 1 * num_columns_ a' - 1).
Proof.
  apply (Resize_correct garbage_alloc (mkBitVectorArray 32 1 (mkBitVector [2 ^ 31 + 1] 1 true)) 1 32 false).
  - apply garbage_alloc_ok.
  - simpl. wf_compute.
  - done.
  - lia.
  - lia.
  - vm_compute. done.
Defined.
