(* ===== verification/BitString.v ===== *)
(** * Bit strings and bit structs ([libartbase/base/bit_string.h], [bit_struct.h])

    A [BitString] packs up to three characters of 12, 4 and 11 bits into a word,
    the first character in the least significant bits. The lemmas relate the
    word to the list of its characters. *)

From Stdlib Require Import ZArith Lia Bool Btauto.
From stdpp Require Import base numbers list option.
From S2P Require Import Prelude BitUtils.

Local Open Scope Z_scope.
Local Open Scope art_scope.

(** ** [BitStringChar] *)

Record BitStringChar := mkBitStringChar { data_ : Z; bitlength_ : Z }.

(** [BitStringChar()] *)
Definition BitStringChar_zero : BitStringChar := mkBitStringChar 0 0.

(** [BitStringChar(StorageType data, size_t bitlength)] *)
Definition BitStringChar_create (data bitlength : Z) : option BitStringChar :=
  DCHECK (Z.land data (u64 (Z.lnot (MaskLeastSignificant 64 bitlength))) =? 0);
  Some (mkBitStringChar data bitlength).

Definition MaximumValue (c : BitStringChar) : option BitStringChar :=
  let maximimum_data := MaxInt_unsigned 32 (bitlength_ c) in
  BitStringChar_create maximimum_data (bitlength_ c).

(** [operator+] *)
Definition BitStringChar_add (c : BitStringChar) (storage : Z) : option BitStringChar :=
  m ← MaximumValue c;
  DCHECK (storage <=? u32 (data_ m - data_ c));
  BitStringChar_create (u32 (data_ c + storage)) (bitlength_ c).

(** [operator==] and [operator!=]: the bit length is ignored. *)
Definition BitStringChar_eqb (c d : BitStringChar) : bool := data_ c =? data_ d.

(** ** [BitString] *)

Definition kBitSizeAtPosition : list Z := [12; 4; 11].
Definition kCapacity : Z := 3.

Fixpoint bit_length_loop (sizes : list Z) (position idx sum : Z) : Z :=
  match sizes with
  | [] => sum
  | s :: rest => if idx <? position then bit_length_loop rest position (idx + 1) (sum + s) else sum
  end.

(** [while (idx < position && idx < kCapacity)]: the list of sizes has
    [kCapacity] elements. *)
Definition GetBitLengthTotalAtPosition (position : Z) : Z :=
  bit_length_loop kBitSizeAtPosition position 0 0.

Definition GetLsbForPosition (position : Z) : option Z :=
  DCHECK (position <=? kCapacity); Some (GetBitLengthTotalAtPosition position).

Definition MaybeGetBitLengthAtPosition (position : Z) : option Z :=
  if kCapacity <=? position then Some 0 else aread kBitSizeAtPosition position.

(** [operator[]] *)
Definition BitString_at (storage idx : Z) : option BitStringChar :=
  DCHECK (idx <? kCapacity);
  lsb ← GetLsbForPosition idx;
  size ← aread kBitSizeAtPosition idx;
  let data := BitFieldExtract 32 storage lsb size in
  BitStringChar_create data size.

Definition SetAt (storage idx : Z) (bitchar : BitStringChar) : option Z :=
  DCHECK (idx <? kCapacity);
  size ← aread kBitSizeAtPosition idx;
  DCHECK (bitlength_ bitchar <=? size);
  lsb ← GetLsbForPosition idx;
  BitFieldInsert_checked 32 32 storage (data_ bitchar) lsb size.

(** [for (i = kCapacity - 1u; ; --i)]: [n] is [i + 1]. *)
Fixpoint length_loop (n : nat) (storage num_trailing_zeros : Z) : option Z :=
  match n with
  | O => Some num_trailing_zeros
  | S i =>
      bc ← BitString_at storage (Z.of_nat i);
      if negb (data_ bc =? 0) then Some num_trailing_zeros
      else length_loop i storage (num_trailing_zeros + 1)
  end.

Definition Length (storage : Z) : option Z :=
  num_trailing_zeros ← length_loop (Z.to_nat kCapacity) storage 0;
  Some (kCapacity - num_trailing_zeros).

Definition BitString_BitStructSizeOf : Z := GetBitLengthTotalAtPosition kCapacity.

(** [IsEmpty]: comparison with [BitString{}]. *)
Definition BitString_IsEmpty (storage : Z) : bool := storage =? 0.

Definition Truncate (storage end_ : Z) : option Z :=
  DCHECK (end_ <=? kCapacity);
  if end_ <? kCapacity then
    lsb ← GetLsbForPosition end_;
    top ← GetLsbForPosition kCapacity;
    let bit_size := top - lsb in
    Some (BitFieldClear 32 storage lsb bit_size)
  else Some storage.

(** ** [BitStructField]: a field of a 32-bit struct *)

Definition BitStructField_Get (kBitOffset kBitWidth storage : Z) : Z :=
  BitFieldExtract 32 storage kBitOffset kBitWidth.

Definition BitStructField_Set (kBitOffset kBitWidth storage value : Z) : option Z :=
  BitFieldInsert_checked 32 32 storage value kBitOffset kBitWidth.

(** ** The characters of a word *)

Definition enc (cs : list Z) : Z :=
  match cs with
  | [c0; c1; c2] => c0 + c1 * 2 ^ 12 + c2 * 2 ^ 16
  | _ => 0
  end.

#[global] Arguments enc : simpl never.

Definition chars_ok (cs : list Z) : Prop :=
  match cs with
  | [c0; c1; c2] => is_u 12 c0 /\ is_u 4 c1 /\ is_u 11 c2
  | _ => False
  end.

#[export] Instance chars_ok_dec cs : Decision (chars_ok cs).
Proof. destruct cs as [|? [|? [|? [|? ?]]]]; simpl; apply _. Defined.

Definition dec (w : Z) : list Z :=
  [BitFieldExtract 32 w 0 12; BitFieldExtract 32 w 12 4; BitFieldExtract 32 w 16 11].

(** Size of the character at a position. *)
Definition char_size (i : Z) : Z := default 0 (aread kBitSizeAtPosition i).

Ltac chars_cases cs Hcs :=
  destruct cs as [|?c0 [|?c1 [|?c2 [|? ?]]]]; try contradiction;
  destruct Hcs as (?Hc0 & ?Hc1 & ?Hc2).

(** The sum as a union of disjoint bits. *)
Lemma enc_lor c0 c1 c2 :
  is_u 12 c0 -> is_u 4 c1 -> is_u 11 c2 ->
  enc [c0; c1; c2] = Z.lor (Z.lor c0 (Z.shiftl c1 12)) (Z.shiftl c2 16).
Proof.
  intros H0 H1 H2. unfold enc. rewrite <- (add_shiftl_lor 12 c0) by (done || lia).
  apply add_shiftl_lor; [lia|]. unfold is_u in *. lia.
Qed.

Lemma enc_range cs : chars_ok cs -> is_u 27 (enc cs).
Proof. intros Hcs. chars_cases cs Hcs. unfold is_u, enc in *. lia. Qed.

Lemma dec_enc cs : chars_ok cs -> dec (enc cs) = cs.
Proof.
  intros Hcs. chars_cases cs Hcs. rewrite enc_lor by done. unfold dec. f_equal; [|f_equal; [|f_equal]]; bits.
Qed.

Lemma enc_dec w : is_u 27 w -> enc (dec w) = w /\ chars_ok (dec w).
Proof.
  intros Hw. assert (chars_ok (dec w)) as Hok.
  { unfold dec. simpl. split; [|split]; apply is_u_bits; try lia;
      try (apply Z.mod_pos_bound; lia); intros i Hi; autorewrite with testbit; try lia; zcases; bit_done. }
  split; [|done]. unfold dec in *. destruct Hok as (H0 & H1 & H2). rewrite enc_lor by done. clear H0 H1 H2. bits.
Qed.

Lemma lnot_mask_zero n d : 0 <= n <= 32 -> is_u n d -> Z.land d (u64 (Z.lnot (MaskLeastSignificant 64 n))) = 0.
Proof. intros Hn Hd. rewrite MaskLeastSignificant_ones by lia. bits. Qed.

Lemma BitStringChar_create_ok n d :
  0 <= n <= 32 -> is_u n d -> BitStringChar_create d n = Some (mkBitStringChar d n).
Proof. intros. unfold BitStringChar_create. by rewrite lnot_mask_zero. Qed.

Lemma chars_lookup cs i c : chars_ok cs -> aread cs i = Some c -> 0 <= i < 3 /\ is_u (char_size i) c.
Proof.
  intros Hcs Hc. pose proof (aread_inv _ _ _ Hc) as Hi. chars_cases cs Hcs. simpl in Hi. split; [lia|].
  assert (i = 0 \/ i = 1 \/ i = 2) as [->|[->| ->]] by lia; injection Hc as <-; done.
Qed.

Lemma BitString_at_spec cs i c :
  chars_ok cs -> aread cs i = Some c -> BitString_at (enc cs) i = Some (mkBitStringChar c (char_size i)).
Proof.
  intros Hcs Hc. destruct (chars_lookup cs i c Hcs Hc) as [Hi Hu].
  pose proof (dec_enc cs Hcs) as Hd. unfold dec in Hd.
  assert (i = 0 \/ i = 1 \/ i = 2) as Hi' by lia. unfold BitString_at.
  destruct Hi' as [->|[->| ->]]; cbn -[BitFieldExtract BitStringChar_create enc];
    rewrite <- Hd in Hc; cbn -[BitFieldExtract enc] in Hc; injection Hc as <-;
    apply BitStringChar_create_ok; done || lia.
Qed.

Lemma MaxInt_unsigned_32 n : 0 <= n <= 32 -> MaxInt_unsigned 32 n = 2 ^ n - 1.
Proof.
  intros Hn. unfold MaxInt_unsigned. destruct (Z.eqb_spec n 32) as [->|]; [done|].
  rewrite Z.shiftl_1_l. assert (1 <= 2 ^ n < 2 ^ 32)
    by (split; [apply (Z.pow_le_mono_r 2 0); lia|apply Z.pow_lt_mono_r; lia]).
  rewrite (wrap_id 64), (wrap_id 32 (2 ^ n)), wrap_id by (unfold is_u; lia). done.
Qed.

Lemma insert_checked_ok s v lsb width :
  0 <= lsb -> 0 < width -> lsb + width <= 32 -> is_u width v ->
  BitFieldInsert_checked 32 32 s v lsb width = Some (BitFieldInsert 32 32 s v lsb width).
Proof.
  intros Hl Hw Hb [Hv1 Hv2]. unfold BitFieldInsert_checked, MinInt_unsigned.
  rewrite MaxInt_unsigned_32 by lia. destruct (Z.eqb_spec width 0); [lia|]. simpl.
  by rewrite !(proj2 (Z.leb_le _ _)) by lia.
Qed.

(** Replace the constants of the layout by their values. *)
Ltac char_tables :=
  change (aread kBitSizeAtPosition 0) with (Some 12) in *;
  change (aread kBitSizeAtPosition 1) with (Some 4) in *;
  change (aread kBitSizeAtPosition 2) with (Some 11) in *;
  change (GetLsbForPosition 0) with (Some 0) in *; change (GetLsbForPosition 1) with (Some 12) in *;
  change (GetLsbForPosition 2) with (Some 16) in *;
  change (GetLsbForPosition kCapacity) with (Some 27) in *;
  simpl default in *;
  cbn [Z.ltb Z.leb Z.compare Pos.compare Pos.compare_cont kCapacity mbind option_bind dcheck bitlength_ data_].

Lemma SetAt_spec cs i v l :
  chars_ok cs -> 0 <= i < 3 -> l <= char_size i -> is_u (char_size i) v ->
  SetAt (enc cs) i (mkBitStringChar v l) = Some (enc (<[Z.to_nat i := v]> cs)) /\
  chars_ok (<[Z.to_nat i := v]> cs).
Proof.
  intros Hcs Hi Hl Hv. chars_cases cs Hcs.
  assert (i = 0 \/ i = 1 \/ i = 2) as Hi' by lia. unfold SetAt, char_size in *.
  destruct Hi' as [->|[->| ->]]; char_tables;
    rewrite (proj2 (Z.leb_le _ _)) by lia; cbn [mbind option_bind dcheck];
    rewrite insert_checked_ok by (done || lia); simpl insert; rewrite !enc_lor by done;
    (split; [|done]); f_equal; bits.
Qed.

(** The characters before position [e], padded with zeros. *)
Definition trunc (e : Z) (cs : list Z) : list Z :=
  take (Z.to_nat e) cs ++ replicate (3 - Z.to_nat e) 0.

Lemma trunc_ok e cs : chars_ok cs -> chars_ok (trunc e cs).
Proof.
  intros Hcs. chars_cases cs Hcs. unfold trunc.
  assert (is_u 12 0 /\ is_u 4 0 /\ is_u 11 0) as (?&?&?) by (unfold is_u; lia).
  destruct (Z.to_nat e) as [|[|[|n]]]; simpl; try rewrite take_nil; done.
Qed.

Lemma Truncate_spec cs e : chars_ok cs -> 0 <= e <= 3 -> Truncate (enc cs) e = Some (enc (trunc e cs)).
Proof.
  intros Hcs He. pose proof (trunc_ok e cs Hcs) as Ht. chars_cases cs Hcs.
  assert (e = 0 \/ e = 1 \/ e = 2 \/ e = 3) as Hi' by lia. unfold Truncate.
  destruct Hi' as [->|[->|[->| ->]]]; char_tables; try done; f_equal;
    unfold trunc in *; simpl take in *; simpl replicate in *; simpl app in *;
    destruct Ht as (?&?&?); rewrite !enc_lor by done; bits.
Qed.

(** Length without trailing zeros. *)
Definition strlen (cs : list Z) : Z :=
  match cs with
  | [c0; c1; c2] => if negb (c2 =? 0) then 3 else if negb (c1 =? 0) then 2 else if negb (c0 =? 0) then 1 else 0
  | _ => 0
  end.

Lemma Length_spec cs : chars_ok cs -> Length (enc cs) = Some (strlen cs).
Proof.
  intros Hcs. pose proof (BitString_at_spec cs 0) as H0. pose proof (BitString_at_spec cs 1) as H1.
  pose proof (BitString_at_spec cs 2) as H2. pose proof Hcs as Hcs'. chars_cases cs Hcs'.
  unfold Length. change (Z.to_nat kCapacity) with 3%nat. cbn [length_loop].
  change (Z.of_nat 2) with 2. change (Z.of_nat 1) with 1. change (Z.of_nat 0) with 0.
  rewrite (H2 c2), (H1 c1), (H0 c0) by done. cbn [mbind option_bind data_ strlen].
  destruct (c2 =? 0), (c1 =? 0), (c0 =? 0); done.
Qed.

Lemma enc_inj cs cs' : chars_ok cs -> chars_ok cs' -> enc cs = enc cs' -> cs = cs'.
Proof. intros H1 H2 E. rewrite <- (dec_enc cs), <- (dec_enc cs') by done. by rewrite E. Qed.

Lemma enc_zero cs : chars_ok cs -> (enc cs =? 0) = bool_decide (cs = [0; 0; 0]).
Proof.
  intros Hcs. apply eq_true_iff_eq. rewrite Z.eqb_eq, bool_decide_eq_true. split.
  - intros E. apply enc_inj; [done|simpl; unfold is_u; lia|done].
  - by intros ->.
Qed.
