(* ===== verification/SubtypeCheck.v ===== *)
(** * Subtype checks by path labels ([runtime/subtype_check*.h])

    A class stores a label in 28 bits of its status word: the path from the
    root of the class tree as a [BitString], the value its next child gets, and
    an overflow bit. [SubtypeCheckInfo] computes on labels; [SubtypeCheck] keeps
    the labels of all classes consistent, so that one masked comparison answers
    a subtype query. The heap of classes is a list; a class refers to its
    superclass by index. *)

From Stdlib Require Import ZArith Lia Bool Btauto.
From stdpp Require Import base numbers list option relations.
From S2P Require Import Prelude BitUtils BitString.

Local Open Scope Z_scope.
Local Open Scope art_scope.

(** ** The packed fields *)

(** [SubtypeCheckBits]: [bitstring_] and [overflow_]. *)
Definition bitstring_get (bits : Z) : Z := BitStructField_Get 0 BitString_BitStructSizeOf bits.
Definition bitstring_set (bits v : Z) : option Z := BitStructField_Set 0 BitString_BitStructSizeOf bits v.
Definition overflow_get (bits : Z) : bool :=
  negb (BitStructField_Get BitString_BitStructSizeOf 1 bits =? 0).
Definition overflow_set (bits : Z) (b : bool) : option Z :=
  BitStructField_Set BitString_BitStructSizeOf 1 bits (Z.b2z b).
Definition SubtypeCheckBits_BitStructSizeOf : Z := BitString_BitStructSizeOf + 1.

(** [SubtypeCheckBitsAndStatus]: [subtype_check_info_] and [status_]. *)
Definition kClassStatusBitSize : Z := MinimumBitsToStore 32 15.
Definition subtype_check_info_get (word : Z) : Z :=
  BitStructField_Get 0 SubtypeCheckBits_BitStructSizeOf word.
Definition subtype_check_info_set (word bits : Z) : option Z :=
  BitStructField_Set 0 SubtypeCheckBits_BitStructSizeOf word bits.
Definition status_get (word : Z) : Z :=
  BitStructField_Get SubtypeCheckBits_BitStructSizeOf kClassStatusBitSize word.
Definition status_set (word status : Z) : option Z :=
  BitStructField_Set SubtypeCheckBits_BitStructSizeOf kClassStatusBitSize word status.

(** ** [SubtypeCheckInfo] *)

Inductive State := kUninitialized | kInitialized | kAssigned | kOverflowed.
Inductive Result := kUnknownSubtypeOf | kNotSubtypeOf | kSubtypeOf.

#[export] Instance State_eq_dec : EqDecision State.
Proof. solve_decision. Defined.
#[export] Instance Result_eq_dec : EqDecision Result.
Proof. solve_decision. Defined.

Record SubtypeCheckInfo := mkInfo { depth_ : Z; bitstring_and_of_ : Z }.

Definition GetSafeDepth_of (depth : Z) : Z := Z.min depth kCapacity.
Definition GetSafeDepth (i : SubtypeCheckInfo) : Z := GetSafeDepth_of (depth_ i).
Definition HasNext (i : SubtypeCheckInfo) : bool := depth_ i <? kCapacity.
Definition GetBitString (i : SubtypeCheckInfo) : Z := bitstring_get (bitstring_and_of_ i).
Definition GetPathToRoot (i : SubtypeCheckInfo) : option Z :=
  Truncate (GetBitString i) (GetSafeDepth i).

Definition SetBitStringUnchecked (i : SubtypeCheckInfo) (v : Z) : option SubtypeCheckInfo :=
  b ← bitstring_set (bitstring_and_of_ i) v; Some (mkInfo (depth_ i) b).

Definition GetNext (i : SubtypeCheckInfo) : option BitStringChar :=
  DCHECK (HasNext i); BitString_at (GetBitString i) (depth_ i).

Definition GetState (i : SubtypeCheckInfo) : option State :=
  if overflow_get (bitstring_and_of_ i) then Some kOverflowed
  else if BitString_IsEmpty (GetBitString i) then Some kUninitialized
  else
    path_to_root ← GetPathToRoot i;
    _ ← (if HasNext i then next ← GetNext i; dcheck (negb (data_ next =? 0)) else Some tt);
    len ← Length path_to_root;
    if len =? depth_ i then Some kAssigned else Some kInitialized.

(** The two loops of [DcheckInvariants] over the characters: all zero from the
    first zero on. *)
Fixpoint path_chars_zero (n : nat) (path i : Z) : option bool :=
  match n with
  | O => Some true
  | S n' =>
      bc ← BitString_at path i;
      if data_ bc =? 0 then path_chars_zero n' path (i + 1) else Some false
  end.

Fixpoint path_chars_prefix (n : nat) (path i : Z) : option bool :=
  match n with
  | O => Some true
  | S n' =>
      bc ← BitString_at path i;
      if data_ bc =? 0 then path_chars_zero (S n') path i else path_chars_prefix n' path (i + 1)
  end.

Definition DcheckInvariants (i : SubtypeCheckInfo) : option unit :=
  len ← Length (GetBitString i);
  DCHECK (len <=? GetSafeDepth_of (depth_ i + 1));
  path_to_root ← GetPathToRoot i;
  ok ← path_chars_prefix (Z.to_nat kCapacity) path_to_root 0;
  DCHECK ok;
  _ ← GetState i;
  Some tt.

Definition Create (compressed_value depth : Z) : option SubtypeCheckInfo :=
  let io := mkInfo depth compressed_value in
  _ ← DcheckInvariants io; Some io.

Definition SetBitString (i : SubtypeCheckInfo) (v : Z) : option SubtypeCheckInfo :=
  i ← SetBitStringUnchecked i v; _ ← DcheckInvariants i; Some i.

Definition SetNext (i : SubtypeCheckInfo) (next : BitStringChar) : option SubtypeCheckInfo :=
  DCHECK (HasNext i);
  bs ← SetAt (GetBitString i) (depth_ i) next;
  SetBitString i bs.

Definition SetNextUnchecked (i : SubtypeCheckInfo) (next : BitStringChar) : option SubtypeCheckInfo :=
  bs ← SetAt (GetBitString i) (depth_ i) next;
  SetBitStringUnchecked i bs.

Definition MaybeInitNext (i : SubtypeCheckInfo) : option SubtypeCheckInfo :=
  if HasNext i then
    i ← SetNextUnchecked i BitStringChar_zero;
    next ← GetNext i;
    next ← BitStringChar_add next 1;
    SetNextUnchecked i next
  else Some i.

Definition MarkOverflowed (i : SubtypeCheckInfo) : option SubtypeCheckInfo :=
  b ← overflow_set (bitstring_and_of_ i) true; Some (mkInfo (depth_ i) b).

Definition OverwriteNextValueFromParent (parent child : SubtypeCheckInfo) (value : BitStringChar)
    : option SubtypeCheckInfo :=
  if HasNext parent then
    DCHECK (depth_ parent <? kCapacity);
    bs ← SetAt (GetBitString child) (depth_ parent) value;
    SetBitStringUnchecked child bs
  else Some child.

Definition GetEncodedPathToRoot (i : SubtypeCheckInfo) : option Z := GetPathToRoot i.

Definition GetEncodedPathToRootMask (i : SubtypeCheckInfo) : Z :=
  MaskLeastSignificant 32 (GetBitLengthTotalAtPosition (GetSafeDepth i)).

(** [Result IsSubtypeOf(const SubtypeCheckInfo& target)] *)
Definition Info_IsSubtypeOf (i target : SubtypeCheckInfo) : option Result :=
  target_state ← GetState target;
  unknown ← (if negb (bool_decide (target_state = kAssigned)) then Some true
             else state ← GetState i; Some (bool_decide (state = kUninitialized)));
  if (unknown : bool) then Some kUnknownSubtypeOf
  else
    source_value ← GetEncodedPathToRoot i;
    target_value ← GetEncodedPathToRoot target;
    let target_mask := GetEncodedPathToRootMask target in
    let result := Z.land source_value target_mask =? target_value in
    path ← GetPathToRoot i;
    truncated ← Truncate path (GetSafeDepth target);
    target_path ← GetPathToRoot target;
    DCHECK (Bool.eqb result (truncated =? target_path));
    Some (if result then kSubtypeOf else kNotSubtypeOf).

Definition CreateRoot : option SubtypeCheckInfo :=
  let io := mkInfo 0 0 in
  next ← GetNext io;
  next ← BitStringChar_add next 1;
  io ← SetNext io next;
  state ← GetState io;
  DCHECK (bool_decide (state = kAssigned));
  Some io.

(** [CreateChild] returns the child and the parent, whose next value may have
    been used. *)
Definition CreateChild (i : SubtypeCheckInfo) (assign_next : bool)
    : option (SubtypeCheckInfo * SubtypeCheckInfo) :=
  let child := mkInfo (depth_ i + 1) (bitstring_and_of_ i) in
  state ← GetState i;
  DCHECK (bool_decide (state = kAssigned) || bool_decide (state = kOverflowed));
  child ← MaybeInitNext child;
  child ← OverwriteNextValueFromParent i child BitStringChar_zero;
  child_state ← GetState child;
  DCHECK (negb (bool_decide (child_state = kAssigned)));
  DCHECK (negb (bool_decide (child_state = kUninitialized)));
  if negb assign_next then
    _ ← DcheckInvariants child; Some (child, i)
  else
    '(child, i) ←
      (if HasNext i && negb (overflow_get (bitstring_and_of_ i)) then
         next ← GetNext i;
         maximum ← MaximumValue next;
         if negb (BitStringChar_eqb next maximum) then
           child ← OverwriteNextValueFromParent i child next;
           next1 ← BitStringChar_add next 1;
           i ← SetNext i next1;
           Some (child, i)
         else
           child ← MarkOverflowed child; Some (child, i)
       else
         child ← MarkOverflowed child; Some (child, i));
    child_state ← GetState child;
    DCHECK (bool_decide (child_state = kAssigned) || bool_decide (child_state = kOverflowed));
    _ ← DcheckInvariants child;
    Some (child, i).

(** ** [SubtypeCheck]: the labels of the classes *)

(** What the code uses of [mirror::Class]: the superclass and the 32-bit field
    at [StatusOffset()]. *)
Record Class := mkClass { super_class : option nat; status_word : Z }.

Abbreviation heap := (list Class).

Definition GetSuperClass (h : heap) (klass : nat) : option (option nat) :=
  c ← h !! klass; Some (super_class c).

(** [Class::Depth]; the superclass of a class precedes it in the heap, so a
    fuel of the index is enough. *)
Fixpoint depth_loop (fuel : nat) (h : heap) (klass : nat) (depth : Z) : option Z :=
  super ← GetSuperClass h klass;
  match super with
  | None => Some depth
  | Some s => match fuel with O => None | S fuel' => depth_loop fuel' h s (depth + 1) end
  end.

Definition Depth (h : heap) (klass : nat) : option Z := depth_loop klass h klass 0.

Definition ReadField (h : heap) (klass : nat) : option Z :=
  c ← h !! klass; Some (status_word c).

Definition WriteField (h : heap) (klass : nat) (word : Z) : option heap :=
  c ← h !! klass; Some (<[klass := mkClass (super_class c) word]> h).

(** One turn of the compare-and-swap loops on the value just read: nothing to
    write, or the new value to swap in. *)
Definition WriteSubtypeCheckBits_turn (old_value new_bits : Z) : option (option Z) :=
  let old_bits := subtype_check_info_get old_value in
  if old_bits =? new_bits then Some None
  else
    new_value ← subtype_check_info_set old_value new_bits;
    DCHECK (status_get old_value =? status_get new_value);
    Some (Some new_value).

Definition WriteStatusImpl_turn (old_value status : Z) : option (option Z) :=
  let old_status := status_get old_value in
  if old_status =? status then Some None
  else
    new_value ← status_set old_value status;
    Some (Some new_value).

Definition swap_in (h : heap) (klass : nat) (new_value : option Z) : option heap :=
  match new_value with None => Some h | Some w => WriteField h klass w end.

(** The loops run without interference: the first swap succeeds. Interference
    is the subject of the file StatusWord. *)
Definition WriteSubtypeCheckBits (h : heap) (klass : nat) (new_bits : Z) : option heap :=
  old_value ← ReadField h klass;
  new_value ← WriteSubtypeCheckBits_turn old_value new_bits;
  swap_in h klass new_value.

Definition WriteStatusImpl (h : heap) (klass : nat) (status : Z) : option heap :=
  old_value ← ReadField h klass;
  new_value ← WriteStatusImpl_turn old_value status;
  swap_in h klass new_value.

Definition WriteStatus (h : heap) (klass : nat) (status : Z) : option heap :=
  WriteStatusImpl h klass status.

Definition GetSubtypeCheckInfo_depth (h : heap) (klass : nat) (depth : Z) : option SubtypeCheckInfo :=
  d ← Depth h klass;
  DCHECK (depth =? d);
  word ← ReadField h klass;
  Create (subtype_check_info_get word) depth.

Definition GetSubtypeCheckInfo (h : heap) (klass : nat) : option SubtypeCheckInfo :=
  d ← Depth h klass; GetSubtypeCheckInfo_depth h klass d.

Definition SetSubtypeCheckInfo (h : heap) (klass : nat) (new_sci : SubtypeCheckInfo) : option heap :=
  WriteSubtypeCheckBits h klass (bitstring_and_of_ new_sci).

Fixpoint InitializeOrAssign_loop (fuel : nat) (h : heap) (klass : nat) (assign : bool)
    : option (heap * SubtypeCheckInfo) :=
  super ← GetSuperClass h klass;
  match super with
  | None =>
      root_sci ← GetSubtypeCheckInfo h klass;
      state ← GetState root_sci;
      if negb (bool_decide (state = kUninitialized)) then Some (h, root_sci)
      else
        new_root_sci ← CreateRoot;
        h ← SetSubtypeCheckInfo h klass new_root_sci;
        check ← GetSubtypeCheckInfo h klass;
        state ← GetState check;
        DCHECK (bool_decide (state = kAssigned));
        Some (h, new_root_sci)
  | Some parent_klass =>
      match fuel with
      | O => None
      | S fuel' =>
          '(h, parent_result) ← InitializeOrAssign_loop fuel' h parent_klass true;
          let parent_depth := depth_ parent_result in
          check ← GetSubtypeCheckInfo h parent_klass;
          parent_state ← GetState check;
          DCHECK (bool_decide (parent_state = kAssigned) || bool_decide (parent_state = kOverflowed));
          sci ← GetSubtypeCheckInfo_depth h klass (parent_depth + 1);
          parent_sci ← GetSubtypeCheckInfo_depth h parent_klass parent_depth;
          sci_state ← GetState sci;
          if bool_decide (sci_state = kUninitialized) ||
             (bool_decide (sci_state = kInitialized) && assign) then
            '(sci, parent_sci) ← CreateChild parent_sci assign;
            state ← GetState sci;
            DCHECK (negb (bool_decide (state = kUninitialized)));
            DCHECK (implb assign (negb (bool_decide (state = kInitialized))));
            h ← SetSubtypeCheckInfo h klass sci;
            h ← SetSubtypeCheckInfo h parent_klass parent_sci;
            Some (h, sci)
          else Some (h, sci)
      end
  end.

(** The recursion follows the superclasses; the index of the class bounds their
    number. *)
Definition InitializeOrAssign (h : heap) (klass : nat) (assign : bool)
    : option (heap * SubtypeCheckInfo) :=
  InitializeOrAssign_loop klass h klass assign.

Definition EnsureInitialized (h : heap) (klass : nat) : option (heap * State) :=
  '(h, sci) ← InitializeOrAssign h klass false; s ← GetState sci; Some (h, s).

Definition EnsureAssigned (h : heap) (klass : nat) : option (heap * State) :=
  '(h, sci) ← InitializeOrAssign h klass true; s ← GetState sci; Some (h, s).

Definition ForceUninitialize (h : heap) (klass : nat) : option (heap * State) :=
  h ← WriteSubtypeCheckBits h klass 0; Some (h, kUninitialized).

Definition SubtypeCheck_GetState (h : heap) (klass : nat) : option State :=
  sci ← GetSubtypeCheckInfo h klass; GetState sci.

Definition GetEncodedPathToRootForSource (h : heap) (klass : nat) : option Z :=
  sci ← GetSubtypeCheckInfo h klass;
  s ← GetState sci;
  DCHECK (negb (bool_decide (s = kUninitialized)));
  GetEncodedPathToRoot sci.

Definition GetEncodedPathToRootForTarget (h : heap) (klass : nat) : option Z :=
  sci ← GetSubtypeCheckInfo h klass;
  s ← GetState sci;
  DCHECK (bool_decide (s = kAssigned));
  GetEncodedPathToRoot sci.

Definition SubtypeCheck_GetEncodedPathToRootMask (h : heap) (klass : nat) : option Z :=
  sci ← GetSubtypeCheckInfo h klass;
  s ← GetState sci;
  DCHECK (bool_decide (s = kAssigned));
  Some (GetEncodedPathToRootMask sci).

Definition IsSubtypeOf (h : heap) (source target : nat) : option Result :=
  sci ← GetSubtypeCheckInfo h source;
  target_sci ← GetSubtypeCheckInfo h target;
  Info_IsSubtypeOf sci target_sci.

(** [Class::IsSubClass], on classes that are neither interfaces nor arrays: the walk over the superclasses, and in debug builds
    with bit string checks enabled ([check]) the comparison of its result with
    the answer of the labels. *)
Fixpoint IsSubClass_loop (fuel : nat) (h : heap) (current klass : nat) : option bool :=
  if decide (current = klass) then Some true
  else
    super ← GetSuperClass h current;
    match super with
    | None => Some false
    | Some s => match fuel with O => None | S fuel' => IsSubClass_loop fuel' h s klass end
    end.

Definition IsSubClass (check : bool) (h : heap) (this klass : nat) : option bool :=
  result ← IsSubClass_loop this h this klass;
  _ ← (if check then
         sc_result ← IsSubtypeOf h this klass;
         if negb (bool_decide (sc_result = kUnknownSubtypeOf)) then
           let expected_result := if (result : bool) then kSubtypeOf else kNotSubtypeOf in
           dcheck (bool_decide (expected_result = sc_result))
         else Some tt
       else Some tt);
  Some result.

(** ** Labels as paths

    A label that is not [kUninitialized] is a path of non-zero characters (at
    most the depth of the class and the capacity), the next value and the
    overflow flag; a word is its packed form. *)

Record label := mkLabel { path : list Z; next : Z; ovf : bool }.

(** [None] is the all-zero word of [kUninitialized]. *)
Definition alabel := option label.

Definition path_char (p : list Z) (i : Z) : Z := default 0 (aread p i).

(** Three characters given by a function of the position. *)
Definition chars (f : Z -> Z) : list Z := [f 0; f 1; f 2].

#[global] Arguments chars : simpl never.

Definition label_char (d : Z) (l : label) (i : Z) : Z :=
  if i =? d then next l else path_char (path l) i.

Definition pack (cs : list Z) (o : bool) : Z := enc cs + Z.b2z o * 2 ^ 27.

Definition word_of (d : Z) (al : alabel) : Z :=
  match al with
  | None => 0
  | Some l => pack (chars (label_char d l)) (ovf l)
  end.

Definition label_ok (d : Z) (l : label) : Prop :=
  0 <= d /\ zlength (path l) <= d /\ zlength (path l) <= 3 /\
  (forall i c, aread (path l) i = Some c -> 1 <= c < 2 ^ char_size i) /\
  (d < 3 -> 1 <= next l < 2 ^ char_size d) /\
  (ovf l = false -> d < 3 \/ path l <> []).

Definition state_of (d : Z) (al : alabel) : State :=
  match al with
  | None => kUninitialized
  | Some l => if ovf l then kOverflowed else if zlength (path l) =? d then kAssigned else kInitialized
  end.

Lemma chars_ext f g : (forall i, 0 <= i < 3 -> f i = g i) -> chars f = chars g.
Proof. intros H. unfold chars. by rewrite !H by lia. Qed.

Lemma chars_aread f i : 0 <= i < 3 -> aread (chars f) i = Some (f i).
Proof. intros. assert (i = 0 \/ i = 1 \/ i = 2) as [->|[->| ->]] by lia; done. Qed.

Lemma chars_insert f i v :
  0 <= i < 3 -> <[Z.to_nat i := v]> (chars f) = chars (fun j => if j =? i then v else f j).
Proof. intros. assert (i = 0 \/ i = 1 \/ i = 2) as [->|[->| ->]] by lia; done. Qed.

Lemma chars_trunc f e :
  0 <= e <= 3 -> trunc e (chars f) = chars (fun i => if i <? e then f i else 0).
Proof. intros. assert (e = 0 \/ e = 1 \/ e = 2 \/ e = 3) as [->|[->|[->| ->]]] by lia; done. Qed.

Lemma chars_are_ok f : (forall i, 0 <= i < 3 -> is_u (char_size i) (f i)) -> chars_ok (chars f).
Proof.
  intros H. pose proof (H 0 ltac:(lia)). pose proof (H 1 ltac:(lia)). pose proof (H 2 ltac:(lia)). done.
Qed.

Lemma char_size_range i : 0 <= i < 3 -> 4 <= char_size i <= 12.
Proof. intros. assert (i = 0 \/ i = 1 \/ i = 2) as [->|[->| ->]] by lia; vm_compute; split; discriminate. Qed.

Lemma path_char_lt p i : i < zlength p -> 0 <= i -> aread p i = Some (path_char p i).
Proof. intros. unfold path_char. by destruct (aread_some p i) as [x ->]; [lia|]. Qed.

Lemma path_char_ge p i : zlength p <= i -> path_char p i = 0.
Proof.
  intros. unfold path_char. destruct (aread p i) eqn:E; [|done]. apply aread_inv in E. lia.
Qed.

Lemma path_char_nonzero d l i :
  label_ok d l -> 0 <= i -> (path_char (path l) i =? 0) = (zlength (path l) <=? i).
Proof.
  intros (_ & _ & _ & Hp & _ & _) Hi. destruct (Z.leb_spec (zlength (path l)) i).
  - by rewrite path_char_ge.
  - apply Z.eqb_neq. pose proof (path_char_lt (path l) i ltac:(lia) Hi) as E. specialize (Hp i _ E). lia.
Qed.

Lemma label_chars_ok d l : label_ok d l -> chars_ok (chars (label_char d l)).
Proof.
  intros (Hd & _ & _ & Hp & Hn & _). apply chars_are_ok. intros i Hi. unfold label_char.
  destruct (Z.eqb_spec i d) as [->|]; [specialize (Hn ltac:(lia)); unfold is_u; lia|].
  unfold path_char. destruct (aread (path l) i) as [c|] eqn:E; simpl.
  - specialize (Hp i c E). unfold is_u. lia.
  - unfold is_u. pose proof (char_size_range i Hi). pose proof (pow2_pos (char_size i) ltac:(lia)). lia.
Qed.

Definition padded (p : list Z) : list Z := chars (path_char p).

Lemma padded_ok d l : label_ok d l -> chars_ok (padded (path l)).
Proof.
  intros (Hd & _ & _ & Hp & Hn & _). apply chars_are_ok. intros i Hi. unfold path_char.
  destruct (aread (path l) i) as [c|] eqn:E; simpl.
  - specialize (Hp i c E). unfold is_u. lia.
  - unfold is_u. pose proof (char_size_range i Hi). pose proof (pow2_pos (char_size i) ltac:(lia)). lia.
Qed.

(** Packing and unpacking of the 28 bits. *)
Lemma pack_lor cs o : chars_ok cs -> pack cs o = Z.lor (enc cs) (Z.shiftl (Z.b2z o) 27) /\ is_u 1 (Z.b2z o).
Proof.
  intros Hcs. split; [|destruct o; unfold is_u; simpl; lia]. unfold pack.
  apply add_shiftl_lor; [lia|by apply enc_range].
Qed.

Lemma pack_fields cs o :
  chars_ok cs -> bitstring_get (pack cs o) = enc cs /\ overflow_get (pack cs o) = o /\ is_u 28 (pack cs o).
Proof.
  intros Hcs. destruct (pack_lor cs o Hcs) as [E Hu]. pose proof (enc_range cs Hcs) as He.
  unfold bitstring_get, overflow_get, BitStructField_Get. change BitString_BitStructSizeOf with 27.
  split_and!.
  - rewrite E. bits.
  - assert (BitFieldExtract 32 (pack cs o) 27 1 = Z.b2z o) as -> by (rewrite E; bits). by destruct o.
  - unfold pack, is_u in *. destruct o; simpl in *; lia.
Qed.

Lemma pack_set cs cs' o :
  chars_ok cs -> chars_ok cs' -> bitstring_set (pack cs o) (enc cs') = Some (pack cs' o) /\
  overflow_set (pack cs o) true = Some (pack cs true).
Proof.
  intros Hcs Hcs'. destruct (pack_lor cs o Hcs) as [E Hu]. destruct (pack_lor cs' o Hcs') as [E' _].
  destruct (pack_lor cs true Hcs) as [Et _]. pose proof (enc_range cs Hcs) as He.
  pose proof (enc_range cs' Hcs') as He'. unfold bitstring_set, overflow_set, BitStructField_Set.
  change BitString_BitStructSizeOf with 27. split.
  - rewrite insert_checked_ok by (done || lia). f_equal. rewrite E, E'. bits.
  - rewrite insert_checked_ok by (lia || (unfold is_u; simpl; lia)). f_equal.
    rewrite E, Et. change (Z.b2z true) with (Z.ones 1). bits.
Qed.

(** ** The operations of [SubtypeCheckInfo] on labels *)

Definition alabel_ok (d : Z) (al : alabel) : Prop :=
  match al with None => 0 <= d | Some l => label_ok d l end.

Definition info (d : Z) (al : alabel) : SubtypeCheckInfo := mkInfo d (word_of d al).

Definition apath (al : alabel) : list Z := match al with None => [] | Some l => path l end.

Lemma word_fields d al :
  alabel_ok d al ->
  exists cs, chars_ok cs /\ word_of d al = pack cs (match al with None => false | Some l => ovf l end) /\
    cs = chars (fun i => match al with None => 0 | Some l => label_char d l i end).
Proof.
  intros Hok. destruct al as [l|].
  - exists (chars (label_char d l)). split; [by apply label_chars_ok|done].
  - exists (chars (fun _ => 0)). split; [vm_compute; repeat split; discriminate|done].
Qed.

Lemma apath_padded_ok d al : alabel_ok d al -> chars_ok (padded (apath al)).
Proof.
  destruct al as [l|]; [apply padded_ok|]. intros _. vm_compute; repeat split; discriminate.
Qed.

Lemma GetBitString_info d al :
  alabel_ok d al ->
  GetBitString (info d al) = enc (chars (fun i => match al with None => 0 | Some l => label_char d l i end)).
Proof.
  intros Hok. destruct (word_fields d al Hok) as (cs & Hcs & E & ->). unfold GetBitString, info. simpl.
  rewrite E. by apply pack_fields.
Qed.

Lemma GetPathToRoot_info d al :
  alabel_ok d al -> GetPathToRoot (info d al) = Some (enc (padded (apath al))).
Proof.
  intros Hok. destruct (word_fields d al Hok) as (cs & Hcs & E & Ecs). unfold GetPathToRoot.
  rewrite GetBitString_info, <- Ecs by done. unfold GetSafeDepth, GetSafeDepth_of, kCapacity. simpl.
  assert (0 <= d) by (destruct al; [destruct Hok|]; done).
  rewrite Truncate_spec by (done || lia). do 2 f_equal. rewrite Ecs, chars_trunc by lia.
  apply chars_ext. intros i Hi. destruct al as [l|]; simpl.
  2:{ rewrite path_char_ge by (simpl; lia). by destruct (i <? Z.min d 3). }
  destruct Hok as (_ & Hl & _). unfold label_char.
  destruct (Z.ltb_spec i (Z.min d 3)); [destruct (Z.eqb_spec i d); [lia|done]|].
  by rewrite path_char_ge by lia.
Qed.

Lemma strlen_padded d l : label_ok d l -> strlen (padded (path l)) = zlength (path l).
Proof.
  intros Hok. pose proof Hok as (_ & _ & Hl & _). unfold padded, chars, strlen.
  rewrite !(path_char_nonzero d l) by (done || lia). zcases; simpl; lia.
Qed.

Lemma label_nonzero d l :
  label_ok d l -> ovf l = false -> chars (label_char d l) <> [0; 0; 0].
Proof.
  intros Hok Ho E. pose proof Hok as (Hd & Hl & _ & Hp & Hn & Hne).
  assert (Hz : forall i, 0 <= i < 3 -> label_char d l i = 0).
  { intros i Hi. pose proof (chars_aread (label_char d l) i Hi) as Ha. rewrite E in Ha.
    assert (i = 0 \/ i = 1 \/ i = 2) as [->|[->| ->]] by lia; by injection Ha. }
  destruct (Hne Ho) as [Hlt|Hpath].
  - specialize (Hn Hlt). specialize (Hz d ltac:(lia)). unfold label_char in Hz.
    rewrite Z.eqb_refl in Hz. lia.
  - destruct (path l) as [|c p] eqn:Ep; [done|]. specialize (Hp 0 c eq_refl).
    specialize (Hz 0 ltac:(lia)). unfold label_char in Hz. simpl in Hl.
    destruct (Z.eqb_spec 0 d); [lia|]. rewrite Ep in Hz. unfold path_char in Hz. simpl in Hz. lia.
Qed.

Lemma GetNext_info d l :
  label_ok d l -> d < 3 ->
  GetNext (info d (Some l)) = Some (mkBitStringChar (next l) (char_size d)).
Proof.
  intros Hok Hd. pose proof Hok as (Hd0 & _). unfold GetNext, HasNext, kCapacity. simpl.
  rewrite (proj2 (Z.ltb_lt _ _)) by done. simpl. rewrite GetBitString_info by done.
  apply BitString_at_spec; [by apply label_chars_ok|]. rewrite chars_aread by lia.
  unfold label_char. by rewrite Z.eqb_refl.
Qed.

Lemma GetState_info d al : alabel_ok d al -> GetState (info d al) = Some (state_of d al).
Proof.
  intros Hok. unfold GetState. destruct (word_fields d al Hok) as (cs & Hcs & E & Ecs).
  rewrite GetBitString_info, <- Ecs by done.
  unfold info at 1. cbn [bitstring_and_of_]. rewrite E.
  destruct (pack_fields cs (match al with None => false | Some l => ovf l end) Hcs) as (_ & -> & _).
  destruct al as [l|]; [|by rewrite Ecs]. simpl state_of. destruct (ovf l) eqn:Ho; [done|].
  unfold BitString_IsEmpty. rewrite enc_zero, bool_decide_false by (done || (rewrite Ecs; by apply label_nonzero)).
  rewrite GetPathToRoot_info by done. cbn [mbind option_bind apath].
  assert ((if HasNext (info d (Some l)) then next0 ← GetNext (info d (Some l)); dcheck (negb (data_ next0 =? 0))
    else Some tt) = Some tt) as ->.
  { unfold HasNext, kCapacity. simpl. destruct (Z.ltb_spec d 3) as [Hd|Hd]; [|done].
    rewrite GetNext_info by done. simpl. destruct Hok as (_ & _ & _ & _ & Hn & _).
    destruct (Z.eqb_spec (next l) 0); [specialize (Hn Hd); lia|done]. }
  cbn [mbind option_bind]. rewrite Length_spec by (by apply (padded_ok d)).
  cbn [mbind option_bind]. rewrite (strlen_padded d l) by done. simpl depth_. by destruct (_ =? d).
Qed.

Lemma strlen_bound f e : 0 <= e -> (forall i, e <= i < 3 -> f i = 0) -> strlen (chars f) <= e.
Proof.
  intros He Hz. unfold strlen, chars. destruct (Z.leb_spec e 2); [rewrite (Hz 2) by lia|zcases; simpl; lia].
  destruct (Z.leb_spec e 1); [rewrite (Hz 1) by lia|zcases; simpl; lia].
  destruct (Z.leb_spec e 0); [rewrite (Hz 0) by lia|]; zcases; simpl; lia.
Qed.

Lemma path_chars_prefix_padded d al :
  alabel_ok d al -> path_chars_prefix 3 (enc (padded (apath al))) 0 = Some true.
Proof.
  intros Hok. pose proof (apath_padded_ok d al Hok) as Hp.
  assert (Hat : forall i, 0 <= i < 3 -> exists s, BitString_at (enc (padded (apath al))) i =
            Some (mkBitStringChar (path_char (apath al) i) s)).
  { intros i Hi. eexists. apply BitString_at_spec; [done|]. by apply chars_aread. }
  assert (Hz : forall i j, 0 <= i <= j -> path_char (apath al) i = 0 -> path_char (apath al) j = 0).
  { intros i j Hij Hi. destruct al as [l|]; simpl in *; [|by apply path_char_ge; simpl; lia].
    apply Z.eqb_eq. rewrite (path_char_nonzero d) by (done || lia).
    apply Z.eqb_eq in Hi. rewrite (path_char_nonzero d) in Hi by (done || lia).
    apply Z.leb_le. apply Z.leb_le in Hi. lia. }
  destruct (Hat 0) as [s0 E0]; [lia|]. destruct (Hat 1) as [s1 E1]; [lia|].
  destruct (Hat 2) as [s2 E2]; [lia|].
  pose proof (Hz 0 1 ltac:(lia)) as H01. pose proof (Hz 1 2 ltac:(lia)) as H12.
  cbn [path_chars_prefix path_chars_zero]. change (0 + 1 + 1) with 2. change (0 + 1) with 1.
  rewrite E0, E1, E2. cbn [mbind option_bind data_].
  destruct (Z.eqb_spec (path_char (apath al) 0) 0) as [Ez|].
  - rewrite (H12 (H01 Ez)), (H01 Ez). done.
  - destruct (Z.eqb_spec (path_char (apath al) 1) 0) as [Ez|].
    + rewrite (H12 Ez). done.
    + by destruct (path_char (apath al) 2 =? 0).
Qed.

Lemma DcheckInvariants_info d al : alabel_ok d al -> DcheckInvariants (info d al) = Some tt.
Proof.
  intros Hok. unfold DcheckInvariants. destruct (word_fields d al Hok) as (cs & Hcs & _ & Ecs).
  rewrite GetBitString_info, <- Ecs, Length_spec by done. cbn [mbind option_bind].
  assert (0 <= d) by (destruct al; [destruct Hok|]; done).
  rewrite (proj2 (Z.leb_le _ _)).
  - cbn [dcheck mbind option_bind]. rewrite GetPathToRoot_info by done. cbn [mbind option_bind].
    change (Z.to_nat kCapacity) with 3%nat. rewrite (path_chars_prefix_padded d) by done.
    cbn [mbind option_bind dcheck]. by rewrite GetState_info by done.
  - unfold GetSafeDepth_of, kCapacity. simpl. rewrite Ecs. apply strlen_bound; [lia|].
    intros i Hi. destruct al as [l|]; [|done]. destruct Hok as (_ & Hl & _). unfold label_char.
    destruct (Z.eqb_spec i d); [lia|]. by rewrite path_char_ge by lia.
Qed.

(** An info given by its characters, also between the steps of [CreateChild]. *)
Definition raw_info (d : Z) (f : Z -> Z) (o : bool) : SubtypeCheckInfo := mkInfo d (pack (chars f) o).

Definition chars_in (f : Z -> Z) : Prop := forall i, 0 <= i < 3 -> is_u (char_size i) (f i).

Definition upd (f : Z -> Z) (i v : Z) : Z -> Z := fun j => if j =? i then v else f j.

Lemma chars_in_upd f i v : chars_in f -> is_u (char_size i) v -> chars_in (upd f i v).
Proof. intros Hf Hv j Hj. unfold upd. destruct (Z.eqb_spec j i) as [->|]; auto. Qed.

Lemma info_raw d l : info d (Some l) = raw_info d (label_char d l) (ovf l).
Proof. done. Qed.

Lemma label_chars_in d l : label_ok d l -> chars_in (label_char d l).
Proof.
  intros Hok i Hi. pose proof (chars_aread (label_char d l) i Hi) as Ha.
  by destruct (chars_lookup _ _ _ (label_chars_ok d l Hok) Ha).
Qed.

Lemma raw_info_label d l f o :
  (forall i, 0 <= i < 3 -> f i = label_char d l i) -> o = ovf l -> raw_info d f o = info d (Some l).
Proof. intros Hf ->. unfold raw_info, info, word_of. by rewrite (chars_ext f (label_char d l)). Qed.

(** Writing one character. *)
Lemma set_char_spec d f o i v n :
  chars_in f -> 0 <= i < 3 -> n <= char_size i -> is_u (char_size i) v ->
  (bs ← SetAt (GetBitString (raw_info d f o)) i (mkBitStringChar v n);
   SetBitStringUnchecked (raw_info d f o) bs) = Some (raw_info d (upd f i v) o).
Proof.
  intros Hf Hi Hn Hv. pose proof (chars_are_ok f Hf) as Hcs. unfold GetBitString, raw_info. simpl.
  destruct (pack_fields (chars f) o Hcs) as (-> & _ & _).
  destruct (SetAt_spec (chars f) i v n Hcs Hi Hn Hv) as [-> Hok]. cbn [mbind option_bind].
  unfold SetBitStringUnchecked. simpl. rewrite chars_insert in Hok |- * by done.
  destruct (pack_set (chars f) _ o Hcs Hok) as [-> _]. done.
Qed.

Lemma get_char_spec d f o i :
  chars_in f -> 0 <= i < 3 ->
  BitString_at (GetBitString (raw_info d f o)) i = Some (mkBitStringChar (f i) (char_size i)).
Proof.
  intros Hf Hi. pose proof (chars_are_ok f Hf) as Hcs. unfold GetBitString, raw_info. simpl.
  destruct (pack_fields (chars f) o Hcs) as (-> & _ & _).
  apply BitString_at_spec; [done|]. by apply chars_aread.
Qed.

Lemma MaximumValue_spec v n :
  0 <= n <= 31 -> MaximumValue (mkBitStringChar v n) = Some (mkBitStringChar (2 ^ n - 1) n).
Proof.
  intros Hn. unfold MaximumValue. simpl. rewrite MaxInt_unsigned_32 by lia.
  apply BitStringChar_create_ok; [lia|]. pose proof (pow2_pos n). unfold is_u. lia.
Qed.

Lemma BitStringChar_add_spec v n :
  0 <= n <= 31 -> 0 <= v < 2 ^ n - 1 ->
  BitStringChar_add (mkBitStringChar v n) 1 = Some (mkBitStringChar (v + 1) n).
Proof.
  intros Hn Hv. unfold BitStringChar_add. rewrite MaximumValue_spec by done.
  cbn [mbind option_bind data_ bitlength_].
  assert (2 ^ n <= 2 ^ 31) by (apply Z.pow_le_mono_r; lia).
  rewrite (wrap_id 32 (2 ^ n - 1 - v)), (wrap_id 32 (v + 1)) by (unfold is_u; lia).
  rewrite (proj2 (Z.leb_le _ _)) by lia. cbn [dcheck mbind option_bind].
  apply BitStringChar_create_ok; [lia|]. unfold is_u. lia.
Qed.

Lemma char_size_pow i : 0 <= i < 3 -> 16 <= 2 ^ char_size i.
Proof.
  intros Hi. pose proof (char_size_range i Hi). change 16 with (2 ^ 4). apply Z.pow_le_mono_r; lia.
Qed.

Lemma MaybeInitNext_spec d f o :
  chars_in f -> 0 <= d ->
  exists g, MaybeInitNext (raw_info d f o) = Some (raw_info d g o) /\ chars_in g /\
    forall i, 0 <= i < 3 -> g i = if i =? d then 1 else f i.
Proof.
  intros Hf Hd. unfold MaybeInitNext, HasNext, kCapacity. simpl.
  destruct (Z.ltb_spec d 3) as [Hlt|Hge].
  - pose proof (char_size_range d ltac:(lia)). pose proof (char_size_pow d ltac:(lia)).
    unfold SetNextUnchecked, BitStringChar_zero. simpl depth_.
    rewrite set_char_spec by (done || lia || (unfold is_u; lia)). cbn [mbind option_bind].
    assert (chars_in (upd f d 0)) as Hf0 by (apply chars_in_upd; [done|unfold is_u; lia]).
    unfold GetNext, HasNext, kCapacity. simpl depth_. rewrite (proj2 (Z.ltb_lt _ _)) by done.
    cbn [dcheck mbind option_bind]. rewrite get_char_spec by (done || lia). cbn [mbind option_bind].
    assert (upd f d 0 d = 0) as -> by (unfold upd; by rewrite Z.eqb_refl).
    rewrite BitStringChar_add_spec by lia. cbn [mbind option_bind].
    rewrite set_char_spec by (done || lia || (unfold is_u; lia)). eexists. split; [done|].
    split; [apply chars_in_upd; [done|unfold is_u; lia]|].
    intros i Hi. unfold upd. destruct (i =? d); done.
  - exists f. split; [done|]. split; [done|]. intros i Hi. destruct (Z.eqb_spec i d); [lia|done].
Qed.

Lemma Overwrite_spec d al f o v n :
  chars_in f -> 0 <= d -> (d < 3 -> n <= char_size d /\ is_u (char_size d) v) ->
  exists g, OverwriteNextValueFromParent (info d al) (raw_info (d + 1) f o) (mkBitStringChar v n) =
      Some (raw_info (d + 1) g o) /\ chars_in g /\
    forall i, 0 <= i < 3 -> g i = if i =? d then v else f i.
Proof.
  intros Hf Hd Hv. unfold OverwriteNextValueFromParent, HasNext, kCapacity. simpl depth_.
  destruct (Z.ltb_spec d 3) as [Hlt|Hge].
  - destruct (Hv Hlt) as [Hn Hu]. cbn [dcheck mbind option_bind].
    rewrite set_char_spec by (done || lia). eexists. split; [done|].
    split; [by apply chars_in_upd|]. done.
  - exists f. split; [done|]. split; [done|]. intros i Hi. destruct (Z.eqb_spec i d); [lia|done].
Qed.

(** What [CreateChild] computes: the label of the child and of the parent. *)
Definition child_labels (d : Z) (l : label) (assign : bool) : label * label :=
  if assign && (d <? 3) && negb (ovf l) && (next l <? 2 ^ char_size d - 1)
  then (mkLabel (path l ++ [next l]) 1 false, mkLabel (path l) (next l + 1) false)
  else (mkLabel (path l) 1 (assign || ovf l), l).

Lemma init_label_ok d l o :
  label_ok d l -> state_of d (Some l) = kAssigned \/ ovf l = true -> (ovf l = true -> o = true) ->
  label_ok (d + 1) (mkLabel (path l) 1 o).
Proof.
  intros (Hd & Hl & Hl3 & Hp & Hn & Hne) Hst Ho. split_and!; simpl; [lia|lia|done|done| |].
  - intros Hlt. pose proof (char_size_pow (d + 1) ltac:(lia)). lia.
  - intros ->. destruct Hst as [Hst|Hst]; [|by specialize (Ho Hst)].
    simpl in Hst. destruct (ovf l); [done|]. destruct (Z.eqb_spec (zlength (path l)) d); [|done].
    destruct (Z.ltb_spec (d + 1) 3); [by left|right]. intros E. rewrite E in *. simpl in *. lia.
Qed.

Lemma assigned_child_ok d l :
  label_ok d l -> state_of d (Some l) = kAssigned -> d < 3 -> next l < 2 ^ char_size d - 1 ->
  label_ok (d + 1) (mkLabel (path l ++ [next l]) 1 false) /\
  label_ok d (mkLabel (path l) (next l + 1) false) /\
  zlength (path l) = d /\ ovf l = false.
Proof.
  intros (Hd & Hl & Hl3 & Hp & Hn & Hne) Hst Hlt Hmax. simpl in Hst.
  destruct (ovf l) eqn:Ho; [done|]. destruct (Z.eqb_spec (zlength (path l)) d) as [Hlen|]; [|done].
  unfold label_ok. split_and!; simpl; try done; try lia.
  - rewrite length_app. simpl. lia.
  - rewrite length_app. simpl. lia.
  - intros i c Hc. pose proof (aread_inv _ _ _ Hc) as Hi. rewrite length_app in Hi. simpl in Hi.
    destruct (Z.ltb_spec i d).
    + apply Hp. rewrite aread_lookup in Hc |- * by lia. by rewrite lookup_app_l in Hc by lia.
    + assert (i = d) as -> by lia. rewrite aread_lookup, lookup_app_r in Hc by lia.
      replace (Z.to_nat d - length (path l))%nat with 0%nat in Hc by lia. injection Hc as <-.
      specialize (Hn Hlt). lia.
  - intros Hlt'. pose proof (char_size_pow (d + 1) ltac:(lia)). lia.
  - intros _. right. by destruct (path l).
Qed.

Lemma path_char_snoc p c i :
  0 <= i -> path_char (p ++ [c]) i = if i =? zlength p then c else path_char p i.
Proof.
  intros Hi. unfold path_char. rewrite !aread_lookup by done.
  destruct (Z.eqb_spec i (zlength p)) as [->|].
  - by rewrite Nat2Z.id, lookup_app_r, Nat.sub_diag by lia.
  - destruct (Z.ltb_spec i (zlength p)); [by rewrite lookup_app_l by lia|].
    rewrite !lookup_ge_None_2; [done|lia|rewrite length_app; simpl; lia].
Qed.

(** The child before a path element is assigned. *)
Lemma CreateChild_init d l :
  label_ok d l ->
  exists g, (child ← MaybeInitNext (mkInfo (d + 1) (word_of d (Some l)));
             OverwriteNextValueFromParent (info d (Some l)) child BitStringChar_zero) =
      Some (raw_info (d + 1) g (ovf l)) /\ chars_in g /\
    (forall i, 0 <= i < 3 -> g i = label_char (d + 1) (mkLabel (path l) 1 (ovf l)) i).
Proof.
  intros Hok. pose proof Hok as (Hd & Hl & _). unfold BitStringChar_zero.
  change (mkInfo (d + 1) (word_of d (Some l))) with (raw_info (d + 1) (label_char d l) (ovf l)).
  destruct (MaybeInitNext_spec (d + 1) (label_char d l) (ovf l)) as (g & -> & Hg & Eg);
    [by apply label_chars_in|lia|]. cbn [mbind option_bind].
  destruct (Overwrite_spec d (Some l) g (ovf l) 0 0) as (g' & -> & Hg' & Eg'); [done|done| |].
  { intros. pose proof (char_size_range d ltac:(lia)). pose proof (char_size_pow d ltac:(lia)).
    unfold is_u. lia. }
  exists g'. split; [done|]. split; [done|]. intros i Hi. rewrite Eg', Eg by done.
  unfold label_char. simpl. destruct (Z.eqb_spec i d) as [->|].
  - destruct (Z.eqb_spec d (d + 1)); [lia|]. by rewrite path_char_ge by lia.
  - done.
Qed.

Lemma CreateChild_assign_ok d l g :
  label_ok d l -> state_of d (Some l) = kAssigned -> d < 3 -> next l < 2 ^ char_size d - 1 ->
  chars_in g -> (forall i, 0 <= i < 3 -> g i = label_char (d + 1) (mkLabel (path l) 1 (ovf l)) i) ->
  (child ← OverwriteNextValueFromParent (info d (Some l)) (raw_info (d + 1) g (ovf l))
             (mkBitStringChar (next l) (char_size d));
   next1 ← BitStringChar_add (mkBitStringChar (next l) (char_size d)) 1;
   i ← SetNext (info d (Some l)) next1;
   Some (child, i)) =
  Some (info (d + 1) (Some (mkLabel (path l ++ [next l]) 1 false)),
        info d (Some (mkLabel (path l) (next l + 1) false))).
Proof.
  intros Hok Hst Hlt Hmax Hg Eg. destruct (assigned_child_ok d l) as (Hc & Hp & Hlen & Ho); [done..|].
  pose proof Hok as (Hd & _ & _ & _ & Hn & _). specialize (Hn Hlt).
  pose proof (char_size_range d ltac:(lia)) as Hsz.
  destruct (Overwrite_spec d (Some l) g (ovf l) (next l) (char_size d)) as (g' & -> & Hg' & Eg');
    [done|done|intros; unfold is_u; lia|]. cbn [mbind option_bind].
  rewrite BitStringChar_add_spec by lia. cbn [mbind option_bind].
  unfold SetNext, HasNext, kCapacity. simpl depth_. rewrite (proj2 (Z.ltb_lt _ _)) by done.
  cbn [dcheck mbind option_bind]. unfold SetBitString.
  pose proof (set_char_spec d (label_char d l) (ovf l) d (next l + 1) (char_size d)) as Hset.
  rewrite <- info_raw in Hset.
  destruct (SetAt (GetBitString (info d (Some l))) d _) as [bs|];
    [|by specialize (Hset (label_chars_in d l Hok) ltac:(lia) ltac:(lia) ltac:(unfold is_u; lia))].
  cbn [mbind option_bind] in *. rewrite Hset by (by apply label_chars_in || lia || (unfold is_u; lia)).
  cbn [mbind option_bind].
  rewrite (raw_info_label d (mkLabel (path l) (next l + 1) false) (upd (label_char d l) d (next l + 1)));
    [|intros i Hi; unfold upd, label_char; simpl; by destruct (i =? d)|done].
  rewrite DcheckInvariants_info by done. cbn [mbind option_bind]. do 2 f_equal.
  apply raw_info_label; [|done]. intros i Hi. rewrite Eg', Eg by done. unfold label_char. simpl.
  rewrite path_char_snoc, Hlen by lia.
  destruct (Z.eqb_spec i d) as [->|]; [destruct (Z.eqb_spec d (d + 1)); [lia|done]|done].
Qed.

Lemma MarkOverflowed_info d l :
  label_ok d l -> MarkOverflowed (info d (Some l)) = Some (info d (Some (mkLabel (path l) (next l) true))).
Proof.
  intros Hok. unfold MarkOverflowed.
  change (bitstring_and_of_ (info d (Some l))) with (pack (chars (label_char d l)) (ovf l)).
  destruct (pack_set (chars (label_char d l)) (chars (label_char d l)) (ovf l)) as [_ ->];
    [by apply label_chars_ok..|]. done.
Qed.

Lemma state_open d l :
  label_ok d l -> state_of d (Some l) = kAssigned \/ state_of d (Some l) = kOverflowed ->
  state_of d (Some l) = kAssigned \/ ovf l = true.
Proof.
  intros _ [?|Hs]; [by left|right]. simpl in Hs. destruct (ovf l); [done|].
  by destruct (_ =? d).
Qed.

Lemma child_labels_ok d l assign :
  label_ok d l -> state_of d (Some l) = kAssigned \/ state_of d (Some l) = kOverflowed ->
  label_ok (d + 1) (child_labels d l assign).1 /\ label_ok d (child_labels d l assign).2.
Proof.
  intros Hok Hst. pose proof (state_open d l Hok Hst) as Hst'. unfold child_labels.
  destruct (assign && (d <? 3) && negb (ovf l) && (next l <? 2 ^ char_size d - 1)) eqn:E.
  - rewrite !andb_true_iff, negb_true_iff, !Z.ltb_lt in E. destruct E as [[[_ Hd] Ho] Hn].
    destruct Hst' as [Hst'|]; [|congruence].
    destruct (assigned_child_ok d l) as (Hc & Hp & _); done.
  - split; [|done]. simpl. apply init_label_ok; [done|done|]. intros ->. apply orb_true_r.
Qed.

Lemma CreateChild_spec d l assign :
  label_ok d l -> state_of d (Some l) = kAssigned \/ state_of d (Some l) = kOverflowed ->
  CreateChild (info d (Some l)) assign =
    Some (info (d + 1) (Some (child_labels d l assign).1), info d (Some (child_labels d l assign).2)).
Proof.
  intros Hok Hst. pose proof (child_labels_ok d l assign Hok Hst) as [Hcok Hpok].
  pose proof (state_open d l Hok Hst) as Hst'. pose proof Hok as (Hd & Hl & _ & _ & Hn & _).
  unfold CreateChild. cbv zeta. rewrite GetState_info by done. cbn [mbind option_bind].
  assert (bool_decide (state_of d (Some l) = kAssigned) || bool_decide (state_of d (Some l) = kOverflowed) = true)
    as -> by (destruct Hst as [-> | ->]; done).
  cbn [dcheck mbind option_bind]. destruct (CreateChild_init d l Hok) as (g & Eg & Hg & Hgl).
  change (mkInfo (depth_ (info d (Some l)) + 1) (bitstring_and_of_ (info d (Some l))))
    with (mkInfo (d + 1) (word_of d (Some l))).
  destruct (MaybeInitNext (mkInfo (d + 1) (word_of d (Some l)))) as [child|]; [|done].
  cbn [mbind option_bind] in Eg |- *. rewrite Eg. cbn [mbind option_bind]. clear Eg.
  set (l0 := mkLabel (path l) 1 (ovf l)).
  assert (Hl0 : label_ok (d + 1) l0) by (by apply init_label_ok).
  rewrite (raw_info_label (d + 1) l0) by done. rewrite GetState_info by done. cbn [mbind option_bind].
  assert (state_of (d + 1) (Some l0) <> kAssigned /\ state_of (d + 1) (Some l0) <> kUninitialized) as [Hna Hnu].
  { unfold l0. simpl. destruct (ovf l); [done|]. destruct (Z.eqb_spec (zlength (path l)) (d + 1)); [lia|done]. }
  rewrite !bool_decide_false by done. cbn [dcheck negb mbind option_bind].
  destruct assign; cbn [negb].
  2:{ rewrite DcheckInvariants_info by done. cbn [mbind option_bind]. done. }
  assert (Hover : forall l', label_ok (d + 1) l' -> path l' = path l -> next l' = 1 ->
    MarkOverflowed (info (d + 1) (Some l')) = Some (info (d + 1) (Some (mkLabel (path l) 1 true)))).
  { intros l' Hl' E1 E2. by rewrite MarkOverflowed_info, E1, E2. }
  unfold child_labels, HasNext, kCapacity in *. cbn [depth_ info andb] in *.
  assert (Ho : overflow_get (bitstring_and_of_ (info d (Some l))) = ovf l).
  { by destruct (pack_fields (chars (label_char d l)) (ovf l) (label_chars_ok d l Hok)) as (_ & ? & _). }
  rewrite Ho. destruct ((d <? 3) && negb (ovf l)) eqn:E; cbn [andb orb fst snd] in *.
  - rewrite andb_true_iff, negb_true_iff, Z.ltb_lt in E. destruct E as [Hlt Hof].
    destruct Hst' as [Hst'|]; [|congruence]. specialize (Hn Hlt). pose proof (char_size_range d ltac:(lia)).
    rewrite GetNext_info by done. cbn [mbind option_bind]. rewrite MaximumValue_spec by lia.
    cbn [mbind option_bind]. unfold BitStringChar_eqb. cbn [data_].
    destruct (Z.eqb_spec (next l) (2 ^ char_size d - 1)) as [E|E]; cbn [negb].
    + rewrite (proj2 (Z.ltb_ge _ _)) in * by lia. rewrite Hover by done. cbn [mbind option_bind].
      rewrite GetState_info by done. cbn [state_of ovf mbind option_bind dcheck]. simpl bool_decide.
      cbn [orb dcheck mbind option_bind]. by rewrite DcheckInvariants_info.
    + rewrite (proj2 (Z.ltb_lt _ _)) in * by lia. rewrite <- (raw_info_label (d + 1) l0 g (ovf l)) by done.
      pose proof (CreateChild_assign_ok d l g Hok Hst' Hlt ltac:(lia) Hg Hgl) as Hassign.
      rewrite Hassign. cbn [mbind option_bind]. rewrite GetState_info by done. cbn [mbind option_bind].
      destruct (assigned_child_ok d l Hok Hst' Hlt ltac:(lia)) as (_ & _ & Hlen & _).
      simpl state_of. rewrite length_app. simpl length.
      rewrite (proj2 (Z.eqb_eq _ _)) by lia. cbn [mbind option_bind]. simpl bool_decide. cbn [orb dcheck mbind option_bind].
      by rewrite DcheckInvariants_info.
  - rewrite Hover by done. cbn [mbind option_bind]. rewrite GetState_info by done. cbn [state_of ovf mbind option_bind]. simpl bool_decide.
    cbn [orb dcheck mbind option_bind]. by rewrite DcheckInvariants_info.
Qed.

Definition root_label : label := mkLabel [] 1 false.

Lemma root_label_ok : label_ok 0 root_label.
Proof.
  unfold label_ok. simpl. split_and!; try lia; try done.
  intros i c Hc. apply aread_inv in Hc. simpl in Hc. lia.
Qed.

Lemma CreateRoot_spec : CreateRoot = Some (info 0 (Some root_label)).
Proof. vm_compute. reflexivity. Qed.

(** ** The invariant of the class tree, on labels

    [n] classes with parents [par] and depths [dep]; [lab] is their labels. *)

Definition lab_open (d : Z) (l : label) : Prop :=
  state_of d (Some l) = kAssigned \/ state_of d (Some l) = kOverflowed.

(** How the label of a class extends that of its superclass: by a value below
    the superclass's next value, or not at all. *)
Inductive lab_edge (d : Z) (lp l : label) : Prop :=
  | edge_assigned c :
      path l = path lp ++ [c] -> ovf l = false -> state_of d (Some lp) = kAssigned -> c < next lp ->
      lab_edge d lp l
  | edge_truncated :
      path l = path lp -> (ovf lp = true -> ovf l = true) -> lab_edge d lp l.

Record linv (n : nat) (par : nat -> option nat) (dep : nat -> Z) (lab : nat -> alabel) : Prop := {
  li_par : forall k, (k < n)%nat ->
    match par k with None => k = 0%nat /\ dep k = 0 | Some s => (s < k)%nat /\ dep k = dep s + 1 end;
  li_ok : forall k, (k < n)%nat -> alabel_ok (dep k) (lab k);
  li_root : forall l, (0 < n)%nat -> lab 0%nat = Some l -> path l = [] /\ ovf l = false;
  li_edge : forall k s l, (k < n)%nat -> par k = Some s -> lab k = Some l ->
    exists lp, lab s = Some lp /\ lab_open (dep s) lp /\ lab_edge (dep s) lp l;
  li_sib : forall k k' s lp l l' c, (k < n)%nat -> (k' < n)%nat -> par k = Some s -> par k' = Some s ->
    lab s = Some lp -> lab k = Some l -> lab k' = Some l' ->
    path l = path lp ++ [c] -> path l' = path lp ++ [c] -> k = k'
}.

(** [anc par t s]: [t] is [s] or one of its superclasses. *)
Inductive anc (par : nat -> option nat) (t : nat) : nat -> Prop :=
  | anc_refl : anc par t t
  | anc_step s p : par s = Some p -> anc par t p -> anc par t s.

Section Tree.

Context {n : nat} {par : nat -> option nat} {dep : nat -> Z} {lab : nat -> alabel}.
Context (I : linv n par dep lab).

Lemma par_lt k s : (k < n)%nat -> par k = Some s -> (s < k)%nat /\ (s < n)%nat /\ dep k = dep s + 1.
Proof. intros Hk Hp. pose proof (li_par _ _ _ _ I k Hk) as H. rewrite Hp in H. lia. Qed.

Lemma anc_root s : (s < n)%nat -> anc par 0%nat s.
Proof.
  induction s as [s IH] using lt_wf_ind. intros Hs. pose proof (li_par _ _ _ _ I s Hs) as H.
  destruct (par s) as [p|] eqn:E; [|destruct H as [-> _]; constructor].
  apply (anc_step par _ s p E). apply IH; lia.
Qed.

Lemma anc_bound t s : (s < n)%nat -> anc par t s -> (t < n)%nat.
Proof. intros Hs Ha. induction Ha as [|s p Hp _ IH]; [done|]. apply par_lt in Hp; [|done]. apply IH. lia. Qed.

Lemma edge_prefix d lp l : lab_edge d lp l -> path lp `prefix_of` path l.
Proof. intros [c -> _ _ _| -> _]; [by exists [c]|done]. Qed.

Lemma anc_labels t s ls :
  (s < n)%nat -> anc par t s -> lab s = Some ls -> exists lt, lab t = Some lt /\ path lt `prefix_of` path ls.
Proof.
  intros Hs Ha. revert ls. induction Ha as [|s p Hp _ IH]; intros ls Hls; [by exists ls|].
  destruct (li_edge _ _ _ _ I s p ls Hs Hp Hls) as (lp & Hlp & _ & He).
  apply par_lt in Hp; [|done]. destruct (IH ltac:(lia) lp Hlp) as (lt & Hlt & Hpre).
  exists lt. split; [done|]. transitivity (path lp); [done|]. by apply (edge_prefix (dep p)).
Qed.

(** Below a truncated class every path is truncated at the same place. *)
Lemma anc_truncated q s lq ls :
  (s < n)%nat -> anc par q s -> lab q = Some lq -> lab s = Some ls ->
  state_of (dep q) (Some lq) <> kAssigned ->
  path ls = path lq /\ state_of (dep s) (Some ls) <> kAssigned.
Proof.
  intros Hs Ha Hlq Hls Hna. revert ls Hls. induction Ha as [|s p Hp Ha IH]; intros ls Hls.
  - rewrite Hlq in Hls. injection Hls as <-. done.
  - destruct (li_edge _ _ _ _ I s p ls Hs Hp Hls) as (lp & Hlp & _ & He).
    pose proof (par_lt s p Hs Hp) as (? & ? & Hdep).
    destruct (IH ltac:(lia) lp Hlp) as [Hpath Hst]. destruct He as [c E Ho Hst' _|E Ho]; [done|].
    split; [congruence|]. pose proof (li_ok _ _ _ _ I p ltac:(lia)) as Hok. rewrite Hlp in Hok.
    destruct Hok as (_ & Hlen & _). simpl. destruct (ovf ls) eqn:Eo; [done|].
    rewrite E, Hdep. destruct (Z.eqb_spec (zlength (path lp)) (dep p + 1)); [lia|done].
Qed.

(** The last step from a proper ancestor. *)
Lemma anc_child t s : anc par t s -> s = t \/ exists q, par q = Some t /\ anc par q s.
Proof.
  intros Ha. induction Ha as [|s p Hp Ha IH]; [by left|right].
  destruct IH as [->|(q & Hq & Hqp)].
  - exists s. split; [done|constructor].
  - exists q. split; [done|]. by apply (anc_step par q s p).
Qed.

Lemma assigned_len k l : lab k = Some l -> state_of (dep k) (Some l) = kAssigned ->
  zlength (path l) = dep k /\ ovf l = false.
Proof.
  intros _ Hst. simpl in Hst. destruct (ovf l); [done|].
  by destruct (Z.eqb_spec (zlength (path l)) (dep k)).
Qed.

(** A class whose path starts with the full path of an assigned class is below it. *)
Lemma prefix_anc t s lt ls :
  (t < n)%nat -> (s < n)%nat -> lab t = Some lt -> lab s = Some ls ->
  state_of (dep t) (Some lt) = kAssigned -> path lt `prefix_of` path ls -> anc par t s.
Proof.
  revert lt. induction t as [t IH] using lt_wf_ind. intros lt Ht Hs Hlt Hls Hst Hpre.
  destruct (par t) as [p|] eqn:Hp.
  2:{ pose proof (li_par _ _ _ _ I t Ht) as H. rewrite Hp in H. destruct H as [-> _]. by apply anc_root. }
  pose proof (par_lt t p Ht Hp) as (Hpt & Hpn & Hdep).
  destruct (assigned_len t lt Hlt Hst) as [Hlen Hof].
  destruct (li_edge _ _ _ _ I t p lt Ht Hp Hlt) as (lp & Hlp & _ & He).
  pose proof (li_ok _ _ _ _ I p Hpn) as Hok. rewrite Hlp in Hok. destruct Hok as (_ & Hlpd & _).
  destruct He as [c E _ Hstp _|E _]; [|rewrite E in Hlen; lia].
  assert (anc par p s) as Ha.
  { apply (IH p Hpt lp); try done. etransitivity; [|exact Hpre]. rewrite E. by exists [c]. }
  destruct (anc_child p s Ha) as [->|(q & Hq & Hqs)].
  { rewrite Hlp in Hls. injection Hls as <-. apply prefix_length in Hpre. rewrite E, length_app in Hpre.
    simpl in Hpre. lia. }
  pose proof (anc_bound q s Hs Hqs) as Hqn. destruct (anc_labels q s ls Hs Hqs Hls) as (lq & Hlq & Hpq).
  destruct (li_edge _ _ _ _ I q p lq Hqn Hq Hlq) as (lp' & Hlp' & _ & Heq).
  rewrite Hlp in Hlp'. injection Hlp' as <-. pose proof (par_lt q p Hqn Hq) as (_ & _ & Hdq).
  destruct Heq as [c' E' _ _ _|E' _].
  - enough (c' = c) as ->.
    { rewrite <- (li_sib _ _ _ _ I q t p lp lq lt c) by done. done. }
    assert (path lq = path lt) as Epath.
    { destruct Hpq as [r1 R1], Hpre as [r2 R2]. rewrite R1 in R2. rewrite E, E' in *.
      apply app_inj_1 in R2 as [R2 _]; [done|]. rewrite !length_app. done. }
    rewrite E, E' in Epath. apply app_inv_head in Epath. congruence.
  - assert (state_of (dep q) (Some lq) <> kAssigned) as Hnq.
    { intros Hq'. destruct (assigned_len q lq Hlq Hq') as [Hl _]. rewrite E' in Hl. lia. }
    destruct (anc_truncated q s lq ls Hs Hqs Hlq Hls Hnq) as [Es _].
    apply prefix_length in Hpre. rewrite Es, E', E, length_app in Hpre. simpl in Hpre. lia.
Qed.

(** The answer the labels give. *)
Lemma anc_iff_prefix t s lt ls :
  (t < n)%nat -> (s < n)%nat -> lab t = Some lt -> lab s = Some ls ->
  state_of (dep t) (Some lt) = kAssigned -> anc par t s <-> path lt `prefix_of` path ls.
Proof.
  intros Ht Hs Hlt Hls Hst. split; [|by apply (prefix_anc t s lt ls)].
  intros Ha. destruct (anc_labels t s ls Hs Ha Hls) as (lt' & Hlt' & Hpre). congruence.
Qed.

End Tree.

(** ** Changing labels *)

Definition set_lab (lab : nat -> alabel) (k : nat) (l : label) : nat -> alabel :=
  fun j => if decide (j = k) then Some l else lab j.

(** The root gets its label. *)
Lemma linv_root n par dep lab :
  linv n par dep lab -> (0 < n)%nat -> par 0%nat = None -> lab 0%nat = None ->
  linv n par dep (set_lab lab 0 root_label).
Proof.
  intros I Hn Hp0 Hl0.
  assert (Hnone : forall k s l, (k < n)%nat -> par k = Some s -> lab k = Some l -> s <> 0%nat).
  { intros k s l Hk Hp Hl ->. destruct (li_edge _ _ _ _ I k 0%nat l Hk Hp Hl) as (lp & Hlp & _). congruence. }
  assert (Hk0 : forall k s, par k = Some s -> k <> 0%nat) by (intros k s Hp ->; congruence).
  split.
  - apply (li_par _ _ _ _ I).
  - intros k Hk. unfold set_lab. destruct (decide (k = 0%nat)) as [->|]; [|by apply (li_ok _ _ _ _ I)].
    pose proof (li_par _ _ _ _ I 0%nat Hn) as H. rewrite Hp0 in H. destruct H as [_ ->]. apply root_label_ok.
  - intros l _ Hl. unfold set_lab in Hl. simpl in Hl. injection Hl as <-. done.
  - intros k s l Hk Hp Hl. unfold set_lab in *. rewrite decide_False in Hl by eauto.
    rewrite decide_False by eauto. by apply (li_edge _ _ _ _ I k s l).
  - intros k k' s lp l l' c Hk Hk' Hp Hp' Hs Hl Hl'. unfold set_lab in *.
    rewrite decide_False in Hl by eauto. rewrite decide_False in Hl' by eauto.
    rewrite decide_False in Hs by eauto. by apply (li_sib _ _ _ _ I k k' s lp l l' c).
Qed.

(** A class and its parent get the labels of [CreateChild]. *)
Section NewChild.

Context (n : nat) (par : nat -> option nat) (dep : nat -> Z) (lab : nat -> alabel).
Context (I : linv n par dep lab).
Context (k s : nat) (lp : label) (assign : bool).
Context (Hk : (k < n)%nat) (Hp : par k = Some s) (Hlp : lab s = Some lp) (Hopen : lab_open (dep s) lp).
Context (Hlab : match lab k with None => True | Some l => ~ lab_open (dep k) l end).

Let child := (child_labels (dep s) lp assign).1.
Let parent := (child_labels (dep s) lp assign).2.
Let lab' := set_lab (set_lab lab k child) s parent.

(** The parent keeps its path and its next value does not decrease. *)
Lemma parent_same : path parent = path lp /\ ovf parent = ovf lp /\ next lp <= next parent.
Proof.
  unfold parent, child_labels.
  destruct (assign && (dep s <? 3) && negb (ovf lp) && (next lp <? 2 ^ char_size (dep s) - 1)) eqn:E.
  - rewrite !andb_true_iff, negb_true_iff in E. simpl. split_and!; [done| |lia]. destruct E as [[_ ->] _]. done.
  - simpl. split_and!; [done|done|lia].
Qed.

(** The child's label extends the parent's, by a fresh value or not at all. *)
Lemma child_edge :
  lab_edge (dep s) parent child /\
  forall c, path child = path lp ++ [c] -> c = next lp.
Proof.
  unfold parent, child, child_labels.
  destruct (assign && (dep s <? 3) && negb (ovf lp) && (next lp <? 2 ^ char_size (dep s) - 1)) eqn:E.
  - rewrite !andb_true_iff, negb_true_iff in E. destruct E as [[_ Ho] _]. simpl. split.
    + apply (edge_assigned _ _ _ (next lp)); simpl; [done|done| |lia].
      destruct Hopen as [Ha|Ha]; simpl in Ha; rewrite Ho in Ha; [done|by destruct (_ =? _)].
    + intros c Hc. apply app_inv_head in Hc. congruence.
  - simpl. split; [apply edge_truncated; simpl; [done|intros ->; apply orb_true_r]|].
    intros c Hc. apply (f_equal length) in Hc. rewrite length_app in Hc. simpl in Hc. lia.
Qed.

Lemma k_not_parent j l : (j < n)%nat -> par j = Some k -> lab j <> Some l.
Proof.
  intros Hj Hpj Hl. destruct (li_edge _ _ _ _ I j k l Hj Hpj Hl) as (lk & Hlk & Hok & _).
  rewrite Hlk in Hlab. done.
Qed.

Lemma new_s_ne_k : s <> k.
Proof. pose proof (par_lt I k s Hk Hp). lia. Qed.

Lemma lab'_s : lab' s = Some parent.
Proof. unfold lab', set_lab. by rewrite decide_True. Qed.
Lemma lab'_k : lab' k = Some child.
Proof. unfold lab', set_lab. rewrite decide_False by (pose proof new_s_ne_k; congruence). by rewrite decide_True. Qed.
Lemma lab'_other j : j <> s -> j <> k -> lab' j = lab j.
Proof. intros. unfold lab', set_lab. by rewrite !decide_False. Qed.

(** Every class other than [k] keeps its path and overflow flag. *)
Lemma lab'_keeps j l' : j <> k -> lab' j = Some l' ->
  exists l, lab j = Some l /\ path l' = path l /\ ovf l' = ovf l.
Proof.
  intros Hj Hl'. destruct (decide (j = s)) as [->|Hjs].
  - rewrite lab'_s in Hl'. injection Hl' as <-. exists lp. destruct parent_same as (? & ? & _). done.
  - rewrite lab'_other in Hl' by done. eauto.
Qed.

Lemma lab_edge_grow d l1 l1' l : path l1' = path l1 -> ovf l1' = ovf l1 -> next l1 <= next l1' ->
  lab_edge d l1 l -> lab_edge d l1' l.
Proof.
  intros Ep Eo Hn [c E Ho Hst Hc|E Ho].
  - apply (edge_assigned _ _ _ c); [congruence|done|simpl in *; by rewrite Eo, Ep|lia].
  - apply edge_truncated; [congruence|]. rewrite Eo. done.
Qed.

Lemma lab_edge_same d l1 l l' : path l' = path l -> ovf l' = ovf l -> lab_edge d l1 l -> lab_edge d l1 l'.
Proof.
  intros Ep Eo [c E Ho Hst Hc|E Ho].
  - apply (edge_assigned _ _ _ c); congruence.
  - apply edge_truncated; [congruence|]. rewrite Eo. done.
Qed.

Lemma lab_open_same d l l' : path l' = path l -> ovf l' = ovf l -> lab_open d l -> lab_open d l'.
Proof. unfold lab_open. simpl. by intros -> ->. Qed.

Lemma linv_new_child : linv n par dep lab'.
Proof.
  destruct parent_same as (Epp & Epo & Enx). destruct child_edge as [Hedge Hfresh].
  pose proof (par_lt I k s Hk Hp) as (Hsk & Hsn & Hdk).
  pose proof (li_ok _ _ _ _ I s Hsn) as Hok. rewrite Hlp in Hok.
  destruct (child_labels_ok (dep s) lp assign Hok Hopen) as [Hcok Hpok].
  split.
  - apply (li_par _ _ _ _ I).
  - intros j Hj. destruct (decide (j = s)) as [->|]; [by rewrite lab'_s|].
    destruct (decide (j = k)) as [->|]; [rewrite lab'_k, Hdk; done|].
    rewrite lab'_other by done. by apply (li_ok _ _ _ _ I).
  - intros l Hn Hl. assert (0%nat <> k) by (intros <-; lia).
    destruct (lab'_keeps 0%nat l H Hl) as (l0 & Hl0 & -> & ->). by apply (li_root _ _ _ _ I).
  - intros j sj l Hj Hpj Hl. destruct (decide (j = k)) as [->|Hjk].
    + assert (sj = s) as -> by congruence. rewrite lab'_k in Hl. injection Hl as <-.
      exists parent. split; [apply lab'_s|]. split; [|done]. by apply (lab_open_same _ lp).
    + destruct (lab'_keeps j l Hjk Hl) as (l0 & Hl0 & Ep & Eo).
      destruct (li_edge _ _ _ _ I j sj l0 Hj Hpj Hl0) as (lsj & Hlsj & Ho & He).
      apply (lab_edge_same _ _ _ l) in He; [|done|done].
      destruct (decide (sj = k)) as [->|]; [by destruct (k_not_parent j l0 Hj Hpj)|].
      destruct (decide (sj = s)) as [->|].
      * assert (lsj = lp) as -> by congruence. exists parent. split; [apply lab'_s|].
        split; [by apply (lab_open_same _ lp)|by apply (lab_edge_grow _ lp)].
      * exists lsj. by rewrite lab'_other.
  - intros j j' sj lsj l l' c Hj Hj' Hpj Hpj' Hs Hl Hl' El El'.
    assert (sj <> k) as Hsjk.
    { intros ->. destruct (decide (j = k)) as [->|Hjk]; [pose proof (par_lt I k k Hk Hpj); lia|].
      destruct (lab'_keeps j l Hjk Hl) as (l0 & Hl0 & _). by destruct (k_not_parent j l0 Hj Hpj). }
    destruct (lab'_keeps sj lsj Hsjk Hs) as (ls0 & Hls0 & Eps & _). rewrite Eps in El, El'.
    assert (Hside : forall i li, (i < n)%nat -> i <> k -> par i = Some s -> lab i = Some li ->
              path li = path lp ++ [c] -> path child = path lp ++ [c] -> False).
    { intros i li Hi Hik Hpi Hli Eli Ech. apply Hfresh in Ech.
      destruct (li_edge _ _ _ _ I i s li Hi Hpi Hli) as (lx & Hlx & _ & [c' E' _ _ Hlt|E' _]);
        rewrite Hlp in Hlx; injection Hlx as <-; rewrite Eli in E'.
      - apply app_inv_head in E'. injection E' as ->. lia.
      - apply (f_equal length) in E'. rewrite length_app in E'. simpl in E'. lia. }
    destruct (decide (j = k)) as [->|Hjk], (decide (j' = k)) as [->|Hj'k]; [done| | |].
    + assert (sj = s) as -> by congruence. assert (ls0 = lp) as -> by congruence.
      rewrite lab'_k in Hl. injection Hl as <-. destruct (lab'_keeps j' l' Hj'k Hl') as (l0 & Hl0 & E0 & _).
      destruct (Hside j' l0); congruence.
    + assert (sj = s) as -> by congruence. assert (ls0 = lp) as -> by congruence.
      rewrite lab'_k in Hl'. injection Hl' as <-. destruct (lab'_keeps j l Hjk Hl) as (l0 & Hl0 & E0 & _).
      destruct (Hside j l0); congruence.
    + destruct (lab'_keeps j l Hjk Hl) as (l0 & Hl0 & E0 & _).
      destruct (lab'_keeps j' l' Hj'k Hl') as (l0' & Hl0' & E0' & _).
      apply (li_sib _ _ _ _ I j j' sj ls0 l0 l0' c); congruence.
Qed.

End NewChild.

(** ** The heap of classes *)

Definition par_of (h : heap) (k : nat) : option nat := c ← h !! k; super_class c.
Definition bits_of (h : heap) (k : nat) : Z := default 0 ((fun c => subtype_check_info_get (status_word c)) <$> h !! k).
Definition stat_of (h : heap) (k : nat) : Z := default 0 ((fun c => status_get (status_word c)) <$> h !! k).
Definition dep_of (h : heap) (k : nat) : Z := default 0 (Depth h k).

(** The only class without a superclass is the first, and superclasses come
    before their subclasses. *)
Definition tree_ok (h : heap) : Prop :=
  forall k c, h !! k = Some c ->
    is_u 32 (status_word c) /\ match super_class c with None => k = 0%nat | Some s => (s < k)%nat end.

Lemma depth_loop_spec h k :
  tree_ok h -> (k < length h)%nat ->
  exists d, 0 <= d /\ forall fuel acc, (k <= fuel)%nat -> depth_loop fuel h k acc = Some (acc + d).
Proof.
  intros Ht. induction k as [k IH] using lt_wf_ind. intros Hk.
  destruct (lookup_lt_is_Some_2 h k Hk) as [c Hc]. destruct (Ht k c Hc) as [_ Hs].
  destruct (super_class c) as [s|] eqn:Es.
  - destruct (IH s Hs ltac:(lia)) as (d & Hd & Hloop). exists (d + 1). split; [lia|].
    intros fuel acc Hf. destruct fuel as [|fuel]; [lia|]. cbn [depth_loop].
    unfold GetSuperClass. rewrite Hc. cbn [mbind option_bind]. rewrite Es.
    rewrite Hloop by lia. f_equal. lia.
  - exists 0. split; [lia|]. intros fuel acc Hf. destruct fuel; cbn [depth_loop]; unfold GetSuperClass;
      rewrite Hc; cbn [mbind option_bind]; rewrite Es; f_equal; lia.
Qed.

Lemma Depth_spec h k :
  tree_ok h -> (k < length h)%nat ->
  Depth h k = Some (dep_of h k) /\ 0 <= dep_of h k /\
  match par_of h k with
  | None => k = 0%nat /\ dep_of h k = 0
  | Some s => (s < k)%nat /\ dep_of h k = dep_of h s + 1
  end.
Proof.
  intros Ht Hk. destruct (depth_loop_spec h k Ht Hk) as (d & Hd & Hloop).
  assert (Depth h k = Some d) as E by (unfold Depth; by rewrite Hloop).
  assert (dep_of h k = d) as Ed by (unfold dep_of; by rewrite E).
  rewrite E, Ed. split; [done|]. split; [done|].
  destruct (lookup_lt_is_Some_2 h k Hk) as [c Hc]. destruct (Ht k c Hc) as [_ Hs].
  unfold par_of. rewrite Hc. cbn [mbind option_bind]. specialize (Hloop (S k) 0 ltac:(lia)).
  cbn [depth_loop] in Hloop. unfold GetSuperClass in Hloop. rewrite Hc in Hloop. cbn [mbind option_bind] in Hloop.
  destruct (super_class c) as [s|].
  - destruct (depth_loop_spec h s Ht ltac:(lia)) as (ds & Hds & Hls). split; [done|].
    assert (dep_of h s = ds) as -> by (unfold dep_of, Depth; by rewrite Hls).
    rewrite Hls in Hloop by lia. injection Hloop as Hloop. lia.
  - split; [done|]. injection Hloop as Hloop. lia.
Qed.

Lemma depth_loop_same h h' fuel k acc :
  (forall j, par_of h' j = par_of h j) -> length h' = length h ->
  depth_loop fuel h' k acc = depth_loop fuel h k acc.
Proof.
  intros Hp Hl. revert k acc. induction fuel as [|fuel IH]; intros k acc; cbn [depth_loop];
    unfold GetSuperClass; specialize (Hp k) as Hpk; unfold par_of in Hpk;
    destruct (h !! k) as [c|] eqn:Hc, (h' !! k) as [c'|] eqn:Hc'; cbn [mbind option_bind] in *;
    try (apply lookup_lt_Some in Hc); try (apply lookup_ge_None in Hc);
    try (apply lookup_lt_Some in Hc'); try (apply lookup_ge_None in Hc'); try lia; try done.
  - rewrite Hpk. by destruct (super_class c).
  - rewrite Hpk. destruct (super_class c); [apply IH|done].
Qed.

Lemma Depth_same h h' k :
  (forall j, par_of h' j = par_of h j) -> length h' = length h -> Depth h' k = Depth h k.
Proof. intros. by apply depth_loop_same. Qed.

(** The two fields of the status word. *)
Lemma status_word_set w b :
  is_u 32 w -> is_u 28 b ->
  exists w', subtype_check_info_set w b = Some w' /\ is_u 32 w' /\
    subtype_check_info_get w' = b /\ status_get w' = status_get w.
Proof.
  intros Hw Hb. unfold subtype_check_info_set, subtype_check_info_get, status_get, BitStructField_Set,
    BitStructField_Get. change SubtypeCheckBits_BitStructSizeOf with 28. change kClassStatusBitSize with 4.
  rewrite insert_checked_ok by (done || lia). eexists. split; [done|]. split; [|split; bits].
  apply is_u_bits; [lia|apply Z.mod_pos_bound; lia|]. intros i Hi.
  rewrite testbit_BitFieldInsert by lia. zcases; done.
Qed.

Lemma status_set_spec w st :
  is_u 32 w -> is_u 4 st ->
  exists w', status_set w st = Some w' /\ is_u 32 w' /\
    subtype_check_info_get w' = subtype_check_info_get w /\ status_get w' = st.
Proof.
  intros Hw Hb. unfold status_set, subtype_check_info_get, status_get, BitStructField_Set,
    BitStructField_Get. change SubtypeCheckBits_BitStructSizeOf with 28. change kClassStatusBitSize with 4.
  rewrite insert_checked_ok by (done || lia). eexists. split; [done|]. split; [|split; bits].
  apply is_u_bits; [lia|apply Z.mod_pos_bound; lia|]. intros i Hi.
  rewrite testbit_BitFieldInsert by lia. zcases; done.
Qed.

(** [h'] is [h] up to the labels. *)
Definition same_tree (h h' : heap) : Prop :=
  length h' = length h /\ (forall j, par_of h' j = par_of h j) /\ (tree_ok h -> tree_ok h').

Lemma same_tree_refl h : same_tree h h.
Proof. done. Qed.

Lemma same_tree_trans h1 h2 h3 : same_tree h1 h2 -> same_tree h2 h3 -> same_tree h1 h3.
Proof.
  intros (Hl & Hp & Ht) (Hl' & Hp' & Ht'). split; [congruence|]. split; [|tauto].
  intros j. by rewrite Hp', Hp.
Qed.

Lemma same_tree_dep h h' k : same_tree h h' -> dep_of h' k = dep_of h k.
Proof. intros (Hl & Hp & _). unfold dep_of. by rewrite (Depth_same h h'). Qed.

Lemma WriteField_spec h k c w :
  h !! k = Some c -> is_u 32 w ->
  exists h', WriteField h k w = Some h' /\ same_tree h h' /\
    (forall j, bits_of h' j = if decide (j = k) then subtype_check_info_get w else bits_of h j) /\
    (forall j, stat_of h' j = if decide (j = k) then status_get w else stat_of h j).
Proof.
  intros Hc Hw. unfold WriteField. rewrite Hc. cbn [mbind option_bind]. eexists. split; [done|].
  pose proof (lookup_lt_Some _ _ _ Hc) as Hk.
  assert (Hget : forall j, <[k := mkClass (super_class c) w]> h !! j =
            if decide (j = k) then Some (mkClass (super_class c) w) else h !! j).
  { intros j. destruct (decide (j = k)) as [->|]; [by apply list_lookup_insert_eq|].
    by apply list_lookup_insert_ne. }
  split; [split; [apply length_insert|split]|split].
  - intros j. unfold par_of. rewrite Hget. destruct (decide (j = k)) as [->|]; [by rewrite Hc|done].
  - intros Ht j cj Hj. rewrite Hget in Hj. destruct (decide (j = k)) as [->|]; [|by apply Ht].
    injection Hj as <-. simpl. split; [done|]. by apply (Ht k c).
  - intros j. unfold bits_of. rewrite Hget. by destruct (decide (j = k)).
  - intros j. unfold stat_of. rewrite Hget. by destruct (decide (j = k)).
Qed.

Lemma WriteSubtypeCheckBits_turn_spec w b :
  is_u 32 w -> is_u 28 b ->
  (subtype_check_info_get w = b /\ WriteSubtypeCheckBits_turn w b = Some None) \/
  exists w', WriteSubtypeCheckBits_turn w b = Some (Some w') /\ is_u 32 w' /\
    subtype_check_info_get w' = b /\ status_get w' = status_get w.
Proof.
  intros Hw Hb. unfold WriteSubtypeCheckBits_turn. destruct (Z.eqb_spec (subtype_check_info_get w) b); [by left|right].
  destruct (status_word_set w b Hw Hb) as (w' & -> & Hw' & Eb & Es). exists w'. cbn [mbind option_bind].
  rewrite <- Es, Z.eqb_refl. done.
Qed.

Lemma WriteStatusImpl_turn_spec w st :
  is_u 32 w -> is_u 4 st ->
  (status_get w = st /\ WriteStatusImpl_turn w st = Some None) \/
  exists w', WriteStatusImpl_turn w st = Some (Some w') /\ is_u 32 w' /\
    status_get w' = st /\ subtype_check_info_get w' = subtype_check_info_get w.
Proof.
  intros Hw Hb. unfold WriteStatusImpl_turn. destruct (Z.eqb_spec (status_get w) st); [by left|right].
  destruct (status_set_spec w st Hw Hb) as (w' & -> & Hw' & Eb & Es). by exists w'.
Qed.

Lemma WriteSubtypeCheckBits_spec h k b :
  tree_ok h -> (k < length h)%nat -> is_u 28 b ->
  exists h', WriteSubtypeCheckBits h k b = Some h' /\ same_tree h h' /\
    (forall j, bits_of h' j = if decide (j = k) then b else bits_of h j) /\
    (forall j, stat_of h' j = stat_of h j).
Proof.
  intros Ht Hk Hb. destruct (lookup_lt_is_Some_2 h k Hk) as [c Hc]. destruct (Ht k c Hc) as [Hu _].
  unfold WriteSubtypeCheckBits, ReadField. rewrite Hc. cbn [mbind option_bind].
  destruct (WriteSubtypeCheckBits_turn_spec (status_word c) b Hu Hb) as [[E ->]|(w & -> & Hw & Eb & Es)];
    cbn [mbind option_bind swap_in].
  - exists h. split; [done|]. split; [done|]. split; [|done]. intros j.
    destruct (decide (j = k)) as [->|]; [|done]. unfold bits_of. by rewrite Hc.
  - destruct (WriteField_spec h k c w Hc Hw) as (h' & -> & Hsame & Hbits & Hstat). exists h'.
    split; [done|]. split; [done|]. split; [intros j; rewrite Hbits; by rewrite Eb|].
    intros j. rewrite Hstat, Es. destruct (decide (j = k)) as [->|]; [|done].
    unfold stat_of. by rewrite Hc.
Qed.

Lemma WriteStatus_spec h k st :
  tree_ok h -> (k < length h)%nat -> is_u 4 st ->
  exists h', WriteStatus h k st = Some h' /\ same_tree h h' /\
    (forall j, bits_of h' j = bits_of h j) /\
    (forall j, stat_of h' j = if decide (j = k) then st else stat_of h j).
Proof.
  intros Ht Hk Hb. destruct (lookup_lt_is_Some_2 h k Hk) as [c Hc]. destruct (Ht k c Hc) as [Hu _].
  unfold WriteStatus, WriteStatusImpl, ReadField. rewrite Hc. cbn [mbind option_bind].
  destruct (WriteStatusImpl_turn_spec (status_word c) st Hu Hb) as [[E ->]|(w & -> & Hw & Es & Eb)];
    cbn [mbind option_bind swap_in].
  - exists h. split; [done|]. split; [done|]. split; [done|]. intros j.
    destruct (decide (j = k)) as [->|]; [|done]. unfold stat_of. rewrite Hc. done.
  - destruct (WriteField_spec h k c w Hc Hw) as (h' & -> & Hsame & Hbits & Hstat). exists h'.
    split; [done|]. split; [done|]. split; [|intros j; rewrite Hstat; by rewrite Es].
    intros j. rewrite Hbits, Eb. destruct (decide (j = k)) as [->|]; [|done].
    unfold bits_of. by rewrite Hc.
Qed.

(** ** Initializing and assigning labels *)

Record hinv (h : heap) (lab : nat -> alabel) : Prop := {
  hi_tree : tree_ok h;
  hi_lab : linv (length h) (par_of h) (dep_of h) lab;
  hi_bits : forall k, (k < length h)%nat -> bits_of h k = word_of (dep_of h k) (lab k)
}.

Lemma linv_ext n par par' dep dep' lab :
  (forall k, par' k = par k) -> (forall k, dep' k = dep k) ->
  linv n par dep lab -> linv n par' dep' lab.
Proof.
  intros Hp Hd I. split.
  - intros k Hk. rewrite Hp, Hd. pose proof (li_par _ _ _ _ I k Hk). destruct (par k); [by rewrite Hd|done].
  - intros k Hk. rewrite Hd. by apply (li_ok _ _ _ _ I).
  - apply (li_root _ _ _ _ I).
  - intros k s l Hk. rewrite Hp, Hd. by apply (li_edge _ _ _ _ I).
  - intros k k' s lp l l' c Hk Hk'. rewrite !Hp. by apply (li_sib _ _ _ _ I).
Qed.

Lemma word_of_u d al : alabel_ok d al -> is_u 28 (word_of d al).
Proof.
  intros Hok. destruct (word_fields d al Hok) as (cs & Hcs & -> & _). by apply pack_fields.
Qed.

Lemma GetSubtypeCheckInfo_spec h lab k :
  hinv h lab -> (k < length h)%nat ->
  GetSubtypeCheckInfo_depth h k (dep_of h k) = Some (info (dep_of h k) (lab k)) /\
  GetSubtypeCheckInfo h k = Some (info (dep_of h k) (lab k)).
Proof.
  intros H Hk. destruct (Depth_spec h k (hi_tree _ _ H) Hk) as (Ed & _).
  assert (GetSubtypeCheckInfo_depth h k (dep_of h k) = Some (info (dep_of h k) (lab k))) as E.
  { unfold GetSubtypeCheckInfo_depth. rewrite Ed. cbn [mbind option_bind]. rewrite Z.eqb_refl.
    cbn [dcheck mbind option_bind]. destruct (lookup_lt_is_Some_2 h k Hk) as [c Hc].
    unfold ReadField. rewrite Hc. cbn [mbind option_bind].
    pose proof (hi_bits _ _ H k Hk) as Hb. unfold bits_of in Hb. rewrite Hc in Hb. simpl in Hb. rewrite Hb.
    unfold Create. fold (info (dep_of h k) (lab k)).
    rewrite DcheckInvariants_info by (by apply (li_ok _ _ _ _ (hi_lab _ _ H))). done. }
  split; [done|]. unfold GetSubtypeCheckInfo. by rewrite Ed.
Qed.

Lemma SetSubtypeCheckInfo_spec h k d al :
  tree_ok h -> (k < length h)%nat -> alabel_ok d al ->
  exists h', SetSubtypeCheckInfo h k (info d al) = Some h' /\ same_tree h h' /\
    (forall j, bits_of h' j = if decide (j = k) then word_of d al else bits_of h j) /\
    (forall j, stat_of h' j = stat_of h j).
Proof. intros. apply WriteSubtypeCheckBits_spec; [done|done|]. by apply word_of_u. Qed.

(** Labels that are assigned or overflowed keep their path for ever. *)
Definition keeps (dep : nat -> Z) (lab lab' : nat -> alabel) : Prop :=
  forall j l, lab j = Some l ->
    exists l', lab' j = Some l' /\ (lab_open (dep j) l -> path l' = path l /\ ovf l' = ovf l).

Lemma keeps_refl dep lab : keeps dep lab lab.
Proof. intros j l Hl. eauto. Qed.

Lemma keeps_trans dep dep' lab1 lab2 lab3 :
  (forall k, dep' k = dep k) -> keeps dep lab1 lab2 -> keeps dep' lab2 lab3 -> keeps dep lab1 lab3.
Proof.
  intros Hd H12 H23 j l Hl. destruct (H12 j l Hl) as (l2 & Hl2 & Hk2).
  destruct (H23 j l2 Hl2) as (l3 & Hl3 & Hk3). exists l3. split; [done|]. intros Ho.
  destruct (Hk2 Ho) as [Ep Eo]. rewrite <- Ep, <- Eo. apply Hk3. rewrite Hd. by apply (lab_open_same _ l).
Qed.

Record assigned_to (h : heap) (lab : nat -> alabel) (k : nat) (assign : bool)
    (h' : heap) (lab' : nat -> alabel) : Prop := {
  at_inv : hinv h' lab';
  at_tree : same_tree h h';
  at_stat : forall j, stat_of h' j = stat_of h j;
  at_some : exists l, lab' k = Some l /\ (assign = true -> lab_open (dep_of h k) l);
  at_keeps : keeps (dep_of h) lab lab'
}.

Lemma open_ifb d l :
  bool_decide (state_of d (Some l) = kAssigned) || bool_decide (state_of d (Some l) = kOverflowed) = true <->
  lab_open d l.
Proof. unfold lab_open. by rewrite orb_true_iff, !bool_decide_eq_true. Qed.

(** The state test that skips the work. *)
Lemma skip_test d al assign :
  bool_decide (state_of d al = kUninitialized) || (bool_decide (state_of d al = kInitialized) && assign) = false ->
  exists l, al = Some l /\ (assign = true -> lab_open d l).
Proof.
  intros H. destruct al as [l|]; [|done]. exists l. split; [done|]. intros ->. unfold lab_open.
  rewrite andb_true_r in H. apply orb_false_iff in H as [H1 H2].
  apply bool_decide_eq_false in H1, H2. destruct (state_of d (Some l)); tauto.
Qed.

Lemma todo_test d al assign :
  bool_decide (state_of d al = kUninitialized) || (bool_decide (state_of d al = kInitialized) && assign) = true ->
  match al with None => True | Some l => ~ lab_open d l end.
Proof.
  destruct al as [l|]; [|done]. intros H. unfold lab_open.
  rewrite orb_true_iff, andb_true_iff, !bool_decide_eq_true in H.
  destruct H as [H|[H _]]; rewrite H; intros [?|?]; done.
Qed.

Lemma child_state d l assign :
  label_ok d l -> lab_open d l ->
  state_of (d + 1) (Some (child_labels d l assign).1) <> kUninitialized /\
  (assign = true -> lab_open (d + 1) (child_labels d l assign).1).
Proof.
  intros Hok Ho. split.
  - simpl. destruct (ovf _); [done|]. by destruct (_ =? _).
  - intros ->. unfold child_labels, lab_open.
    destruct (true && (d <? 3) && negb (ovf l) && (next l <? 2 ^ char_size d - 1)) eqn:E; simpl; [|by right].
    left. rewrite !andb_true_iff, negb_true_iff in E. destruct E as [[_ Eo] _].
    destruct Ho as [Ho|Ho]; simpl in Ho; rewrite Eo in Ho; [|by destruct (_ =? _)].
    destruct (Z.eqb_spec (zlength (path l)) d); [|done]. rewrite length_app. simpl.
    rewrite (proj2 (Z.eqb_eq _ _)) by lia. done.
Qed.

Definition new_labels (h : heap) (lab : nat -> alabel) (k s : nat) (lp : label) (assign : bool) : nat -> alabel :=
  set_lab (set_lab lab k (child_labels (dep_of h s) lp assign).1) s (child_labels (dep_of h s) lp assign).2.

Lemma new_child_heap h lab k s lp assign :
  hinv h lab -> (k < length h)%nat -> par_of h k = Some s -> lab s = Some lp -> lab_open (dep_of h s) lp ->
  match lab k with None => True | Some l => ~ lab_open (dep_of h k) l end ->
  exists h1 h2,
    SetSubtypeCheckInfo h k (info (dep_of h k) (Some (child_labels (dep_of h s) lp assign).1)) = Some h1 /\
    SetSubtypeCheckInfo h1 s (info (dep_of h s) (Some (child_labels (dep_of h s) lp assign).2)) = Some h2 /\
    hinv h2 (new_labels h lab k s lp assign) /\ same_tree h h2 /\ (forall j, stat_of h2 j = stat_of h j).
Proof.
  intros H Hk Hp Hlp Ho Hlab. pose proof (hi_lab _ _ H) as I.
  pose proof (par_lt I k s Hk Hp) as (Hsk & Hsn & Hdk).
  pose proof (li_ok _ _ _ _ I s Hsn) as Hok. rewrite Hlp in Hok.
  destruct (child_labels_ok (dep_of h s) lp assign Hok Ho) as [Hcok Hpok].
  destruct (SetSubtypeCheckInfo_spec h k (dep_of h k) (Some (child_labels (dep_of h s) lp assign).1))
    as (h1 & E1 & Hs1 & Hb1 & Ht1); [apply (hi_tree _ _ H)|done|by rewrite Hdk|].
  pose proof Hs1 as (Hl1 & Hp1 & Htree1).
  destruct (SetSubtypeCheckInfo_spec h1 s (dep_of h s) (Some (child_labels (dep_of h s) lp assign).2))
    as (h2 & E2 & Hs2 & Hb2 & Ht2); [apply Htree1, (hi_tree _ _ H)|lia|done|].
  exists h1, h2. split; [done|]. split; [done|].
  assert (same_tree h h2) as Hs by (by eapply same_tree_trans). pose proof Hs as (Hl & Hpar & Htree).
  split; [|split; [done|intros j; by rewrite Ht2, Ht1]]. split.
  - apply Htree, (hi_tree _ _ H).
  - rewrite Hl. apply (linv_ext _ (par_of h) _ (dep_of h)); [done|intros; by apply same_tree_dep|].
    by apply linv_new_child.
  - intros j Hj. rewrite (same_tree_dep h) by done. rewrite Hb2, Hb1. unfold new_labels, set_lab.
    destruct (decide (j = s)) as [->|]; [done|]. destruct (decide (j = k)) as [->|]; [done|].
    apply (hi_bits _ _ H). lia.
Qed.

Lemma new_labels_keeps h lab k s lp assign :
  hinv h lab -> (k < length h)%nat -> par_of h k = Some s -> lab s = Some lp ->
  match lab k with None => True | Some l => ~ lab_open (dep_of h k) l end ->
  keeps (dep_of h) lab (new_labels h lab k s lp assign).
Proof.
  intros H Hk Hp Hlp Hlab j l Hl. unfold new_labels, set_lab.
  destruct (decide (j = s)) as [->|].
  - eexists. split; [done|]. intros _. assert (l = lp) as -> by congruence.
    by destruct (parent_same (length h) (dep_of h) k s lp assign Hk) as (-> & -> & _).
  - destruct (decide (j = k)) as [->|]; [|eauto]. eexists. split; [done|]. rewrite Hl in Hlab. tauto.
Qed.

(** The case of the root class. *)
Lemma InitializeOrAssign_root fuel h lab assign :
  hinv h lab -> (0 < length h)%nat -> par_of h 0%nat = None ->
  exists h' lab', InitializeOrAssign_loop fuel h 0 assign = Some (h', info (dep_of h 0%nat) (lab' 0%nat)) /\
    assigned_to h lab 0 assign h' lab'.
Proof.
  intros H Hn Hp0. pose proof (hi_lab _ _ H) as I. pose proof (li_par _ _ _ _ I 0%nat Hn) as Hd.
  rewrite Hp0 in Hd. destruct Hd as [_ Hd0].
  assert (InitializeOrAssign_loop fuel h 0 assign =
    (root_sci ← GetSubtypeCheckInfo h 0;
     state ← GetState root_sci;
     if negb (bool_decide (state = kUninitialized)) then Some (h, root_sci)
     else
       new_root_sci ← CreateRoot;
       h ← SetSubtypeCheckInfo h 0 new_root_sci;
       check ← GetSubtypeCheckInfo h 0;
       state ← GetState check;
       DCHECK (bool_decide (state = kAssigned));
       Some (h, new_root_sci))) as ->.
  { destruct (lookup_lt_is_Some_2 h 0 Hn) as [c Hc]. unfold par_of in Hp0. rewrite Hc in Hp0. simpl in Hp0.
    destruct fuel; cbn [InitializeOrAssign_loop]; unfold GetSuperClass; rewrite Hc; cbn [mbind option_bind];
      by rewrite Hp0. }
  destruct (GetSubtypeCheckInfo_spec h lab 0 H Hn) as [_ ->]. cbn [mbind option_bind].
  rewrite GetState_info by (by apply (li_ok _ _ _ _ I)). cbn [mbind option_bind].
  destruct (lab 0%nat) as [l|] eqn:El.
  - assert (state_of (dep_of h 0%nat) (Some l) = kAssigned) as Hst.
    { destruct (li_root _ _ _ _ I l Hn El) as [Ep Eo]. simpl. by rewrite Eo, Ep, Hd0. }
    rewrite Hst. simpl bool_decide. cbn [negb]. exists h, lab. rewrite El. split; [done|].
    split; [done|done|done| |apply keeps_refl]. exists l. split; [done|]. intros _. by left.
  - simpl bool_decide. cbn [negb]. rewrite CreateRoot_spec. cbn [mbind option_bind].
    destruct (SetSubtypeCheckInfo_spec h 0 0 (Some root_label)) as (h' & -> & Hs & Hb & Ht);
      [apply (hi_tree _ _ H)|done|apply root_label_ok|]. cbn [mbind option_bind].
    pose proof Hs as (Hl & Hpar & Htree).
    assert (hinv h' (set_lab lab 0 root_label)) as H'.
    { split; [apply Htree, (hi_tree _ _ H)| |].
      - rewrite Hl. apply (linv_ext _ (par_of h) _ (dep_of h)); [done|intros; by apply same_tree_dep|].
        by apply linv_root.
      - intros j Hj. rewrite Hb, (same_tree_dep h h') by done. unfold set_lab.
        destruct (decide (j = 0%nat)) as [->|]; [by rewrite Hd0|]. apply (hi_bits _ _ H). lia. }
    destruct (GetSubtypeCheckInfo_spec h' _ 0 H') as [_ ->]; [lia|]. cbn [mbind option_bind].
    rewrite (same_tree_dep h h'), Hd0 by done.
    rewrite GetState_info by (unfold set_lab; simpl; apply root_label_ok). cbn [mbind option_bind].
    exists h', (set_lab lab 0 root_label). split; [done|]. split; [done|done|done| |].
    + exists root_label. split; [done|]. intros _. left. by rewrite Hd0.
    + intros j l Hj. unfold set_lab. destruct (decide (j = 0%nat)) as [->|]; [congruence|eauto].
Qed.

Lemma InitializeOrAssign_loop_spec fuel h lab k assign :
  hinv h lab -> (k < length h)%nat -> (k <= fuel)%nat ->
  exists h' lab', InitializeOrAssign_loop fuel h k assign = Some (h', info (dep_of h k) (lab' k)) /\
    assigned_to h lab k assign h' lab'.
Proof.
  revert h lab k assign. induction fuel as [|fuel IH]; intros h lab k assign H Hk Hf;
    pose proof (li_par _ _ _ _ (hi_lab _ _ H) k Hk) as Hpar;
    (destruct (par_of h k) as [s|] eqn:Hp; [|destruct Hpar as [-> _]; by apply InitializeOrAssign_root]);
    destruct Hpar as [Hsk Hdk]; [lia|].
  assert (GetSuperClass h k = Some (Some s)) as Esup.
  { unfold GetSuperClass. unfold par_of in Hp. destruct (lookup_lt_is_Some_2 h k Hk) as [c Hc].
    rewrite Hc in *. simpl in *. by rewrite Hp. }
  cbn [InitializeOrAssign_loop]. rewrite Esup. cbn [mbind option_bind].
  destruct (IH h lab s true H) as (h1 & lab1 & -> & [H1 Hs1 Hst1 (lp & Hlp & Hopen) Hk1]); [lia|lia|].
  cbn [mbind option_bind]. specialize (Hopen eq_refl). pose proof Hs1 as (Hl1 & Hp1 & _).
  assert (forall j, dep_of h1 j = dep_of h j) as Hdep by (intros; by apply same_tree_dep).
  pose proof (hi_lab _ _ H1) as I1. rewrite Hl1 in *.
  destruct (GetSubtypeCheckInfo_spec h1 lab1 s H1) as [Es ->]; [lia|]. cbn [mbind option_bind].
  assert (label_ok (dep_of h s) lp) as Hlpok.
  { pose proof (li_ok _ _ _ _ I1 s ltac:(lia)) as Hok. by rewrite Hlp, Hdep in Hok. }
  rewrite Hdep in *. rewrite Hlp. rewrite GetState_info by done. cbn [mbind option_bind].
  rewrite (proj2 (open_ifb _ _)) by done. cbn [dcheck mbind option_bind depth_ info].
  fold (info (dep_of h s) (Some lp)).
  destruct (GetSubtypeCheckInfo_spec h1 lab1 k H1) as [Ek _]; [lia|]. rewrite Hdep, Hdk in Ek. rewrite Ek.
  cbn [mbind option_bind]. rewrite Es, Hlp. cbn [mbind option_bind].
  pose proof (li_ok _ _ _ _ I1 k ltac:(lia)) as Hkok. rewrite Hdep, Hdk in Hkok.
  rewrite GetState_info by done. cbn [mbind option_bind].
  destruct (bool_decide (state_of (dep_of h s + 1) (lab1 k) = kUninitialized) ||
    (bool_decide (state_of (dep_of h s + 1) (lab1 k) = kInitialized) && assign)) eqn:Etest.
  - apply todo_test in Etest. rewrite CreateChild_spec by done. cbn [mbind option_bind].
    destruct (child_labels_ok (dep_of h s) lp assign Hlpok Hopen) as [Hcok _].
    destruct (child_state (dep_of h s) lp assign Hlpok Hopen) as [Hnu Hca].
    rewrite GetState_info by done. cbn [mbind option_bind].
    rewrite (proj2 (bool_decide_eq_false _) Hnu). cbn [negb dcheck mbind option_bind].
    assert (implb assign (negb (bool_decide (state_of (dep_of h s + 1)
      (Some (child_labels (dep_of h s) lp assign).1) = kInitialized))) = true) as ->.
    { destruct assign; [|done]. rewrite bool_decide_false; [done|].
      destruct (Hca eq_refl) as [E|E]; rewrite E; done. }
    cbn [dcheck mbind option_bind].
    destruct (new_child_heap h1 lab1 k s lp assign) as (h2 & h3 & E2 & E3 & H3 & Hs3 & Hst3);
      [done|lia|by rewrite Hp1|done|by rewrite Hdep|by rewrite Hdep, Hdk|].
    rewrite !Hdep, Hdk in E2. rewrite !Hdep in E3. rewrite E2. cbn [mbind option_bind].
    rewrite E3. cbn [mbind option_bind]. exists h3, (new_labels h1 lab1 k s lp assign).
    assert (new_labels h1 lab1 k s lp assign k = Some (child_labels (dep_of h s) lp assign).1) as Enew.
    { unfold new_labels, set_lab. rewrite decide_False by lia. rewrite decide_True by done. by rewrite Hdep. }
    rewrite Enew, Hdk. split; [done|]. split; [done|by eapply same_tree_trans|intros; by rewrite Hst3| |].
    + rewrite Enew, Hdk. eauto.
    + eapply keeps_trans; [exact Hdep|exact Hk1|]. apply new_labels_keeps; [done|lia|by rewrite Hp1|done|].
      by rewrite Hdep, Hdk.
  - destruct (skip_test _ _ _ Etest) as (l & El & Ho). exists h1, lab1. rewrite Hdk. split; [done|].
    split; [done|done|done| |done]. exists l. by rewrite Hdk.
Qed.

(** ** The subtype query *)

Lemma land_mask cs e :
  chars_ok cs -> 0 <= e <= 3 ->
  Z.land (enc cs) (MaskLeastSignificant 32 (GetBitLengthTotalAtPosition e)) = enc (trunc e cs).
Proof.
  intros Hcs He. pose proof (trunc_ok e cs Hcs) as Ht. chars_cases cs Hcs.
  assert (e = 0 \/ e = 1 \/ e = 2 \/ e = 3) as He' by lia.
  destruct He' as [->|[->|[->| ->]]]; unfold trunc in *; simpl take in *; simpl replicate in *; simpl app in *;
    destruct Ht as (?&?&?); rewrite MaskLeastSignificant_ones by (vm_compute; split; discriminate).
  - change (GetBitLengthTotalAtPosition 0) with 0. by rewrite Z.land_0_r.
  - change (GetBitLengthTotalAtPosition 1) with 12. rewrite !enc_lor by done. bits.
  - change (GetBitLengthTotalAtPosition 2) with 16. rewrite !enc_lor by done. bits.
  - change (GetBitLengthTotalAtPosition 3) with 27. rewrite !enc_lor by done. bits.
Qed.

Lemma chars_inj f g i : chars f = chars g -> 0 <= i < 3 -> f i = g i.
Proof.
  intros E Hi. pose proof (chars_aread f i Hi) as Hf. rewrite E, chars_aread in Hf by done. congruence.
Qed.

Lemma prefix_padded d l ps :
  label_ok d l ->
  trunc (zlength (path l)) (padded ps) = padded (path l) <-> path l `prefix_of` ps.
Proof.
  intros Hok. pose proof Hok as (_ & _ & Hl & _). unfold padded. rewrite chars_trunc by lia. split.
  - intros E. assert (Hpt : forall i, 0 <= i < zlength (path l) -> aread ps i = aread (path l) i).
    { intros i Hi. pose proof (chars_inj _ _ i E ltac:(lia)) as Ei. cbn beta in Ei.
      rewrite (proj2 (Z.ltb_lt _ _)) in Ei by lia.
      pose proof (path_char_nonzero d l i Hok ltac:(lia)) as Hnz.
      rewrite (proj2 (Z.leb_gt _ _)), <- Ei in Hnz by lia.
      rewrite (path_char_lt (path l)) by lia. unfold path_char in *.
      destruct (aread ps i); simpl in *; [congruence|done]. }
    exists (drop (length (path l)) ps). rewrite <- (take_drop (length (path l)) ps) at 1. f_equal.
    apply list_eq. intros i. destruct (decide (i < length (path l))%nat) as [Hi|Hi].
    + rewrite lookup_take_lt by done. specialize (Hpt (Z.of_nat i) ltac:(lia)).
      rewrite !aread_lookup, Nat2Z.id in Hpt by lia. done.
    + rewrite lookup_take_ge by lia. symmetry. apply lookup_ge_None_2. lia.
  - intros [r ->]. apply chars_ext. intros i Hi. destruct (Z.ltb_spec i (zlength (path l))).
    + unfold path_char. rewrite !aread_lookup by lia. by rewrite lookup_app_l by lia.
    + by rewrite path_char_ge.
Qed.

Lemma Info_IsSubtypeOf_spec ds als dt alt :
  alabel_ok ds als -> alabel_ok dt alt ->
  Info_IsSubtypeOf (info ds als) (info dt alt) = Some
    (match als with
     | None => kUnknownSubtypeOf
     | Some ls =>
         if bool_decide (state_of dt alt = kAssigned) then
           if bool_decide (apath alt `prefix_of` path ls) then kSubtypeOf else kNotSubtypeOf
         else kUnknownSubtypeOf
     end).
Proof.
  intros Hs Ht. unfold Info_IsSubtypeOf. rewrite (GetState_info dt alt) by done. cbn [mbind option_bind].
  destruct (decide (state_of dt alt = kAssigned)) as [Ea|Ea].
  2:{ rewrite (proj2 (bool_decide_eq_false _) Ea). cbn [negb mbind option_bind].
      by destruct als. }
  rewrite (proj2 (bool_decide_eq_true _) Ea). cbn [negb]. rewrite GetState_info by done. cbn [mbind option_bind].
  destruct als as [ls|]; [|done].
  assert (bool_decide (state_of ds (Some ls) = kUninitialized) = false) as ->.
  { apply bool_decide_eq_false. simpl. destruct (ovf ls); [done|]. by destruct (_ =? _). }
  unfold GetEncodedPathToRoot. rewrite !GetPathToRoot_info by done. cbn [mbind option_bind].
  destruct alt as [lt|]; [|done]. simpl apath in *.
  assert (zlength (path lt) = dt) as Hlen.
  { simpl in Ea. destruct (ovf lt); [done|]. by destruct (Z.eqb_spec (zlength (path lt)) dt). }
  pose proof Ht as (Hd & _ & Hl3 & _). pose proof (padded_ok ds ls Hs) as Hpo. pose proof (padded_ok dt lt Ht) as Hpt.
  unfold GetEncodedPathToRootMask, GetSafeDepth, GetSafeDepth_of, kCapacity. cbn [depth_ info].
  rewrite Z.min_l by lia. rewrite land_mask, Truncate_spec by (done || lia). cbn [mbind option_bind].
  assert (Bool.eqb (enc (trunc dt (padded (path ls))) =? enc (padded (path lt)))
            (enc (trunc dt (padded (path ls))) =? enc (padded (path lt))) = true) as -> by apply eqb_reflx.
  cbn [dcheck mbind option_bind]. f_equal. rewrite <- Hlen.
  destruct (Z.eqb_spec (enc (trunc (zlength (path lt)) (padded (path ls)))) (enc (padded (path lt)))) as [E|E].
  - rewrite bool_decide_true; [done|]. apply (prefix_padded dt lt _ Ht).
    apply enc_inj; [by apply trunc_ok|done|done].
  - rewrite bool_decide_false; [done|]. rewrite <- (prefix_padded dt lt _ Ht). congruence.
Qed.

(** ** Reachable heaps *)

(** Loading a class: its superclass exists, its label is blank. *)
Definition add_class (h : heap) (super : nat) (status : Z) : heap :=
  h ++ [mkClass (Some super) (Z.shiftl status 28)].

(** The steps of a running system: class loads, status changes and label
    operations. *)
Inductive sys_step : heap -> heap -> Prop :=
  | step_load h super status :
      (super < length h)%nat -> is_u 4 status -> sys_step h (add_class h super status)
  | step_status h k status h' :
      is_u 4 status -> WriteStatus h k status = Some h' -> sys_step h h'
  | step_initialize h k h' s : EnsureInitialized h k = Some (h', s) -> sys_step h h'
  | step_assign h k h' s : EnsureAssigned h k = Some (h', s) -> sys_step h h'.

(** The heaps reached from the root class alone. *)
Definition reachable (h : heap) : Prop :=
  exists status, is_u 4 status /\ rtc sys_step [mkClass None (Z.shiftl status 28)] h.

Lemma shifted_status st : is_u 4 st -> is_u 32 (Z.shiftl st 28) /\ subtype_check_info_get (Z.shiftl st 28) = 0.
Proof.
  intros Hst. split.
  - rewrite Z.shiftl_mul_pow2 by lia. unfold is_u in *. lia.
  - unfold subtype_check_info_get, BitStructField_Get. change SubtypeCheckBits_BitStructSizeOf with 28. bits.
Qed.

Lemma init_hinv st : is_u 4 st -> hinv [mkClass None (Z.shiftl st 28)] (fun _ => None).
Proof.
  intros Hst. destruct (shifted_status st Hst) as [Hu Hb].
  assert (tree_ok [mkClass None (Z.shiftl st 28)]) as Ht.
  { intros [|k] c Hc; [|done]. injection Hc as <-. done. }
  split; [done| |].
  - split; try done.
    + intros k Hk. by apply (Depth_spec _ k Ht).
    + intros k Hk. by apply (Depth_spec _ k Ht).
  - intros [|k] Hk; [|simpl in Hk; lia]. done.
Qed.

Lemma dep_unique h h' k :
  tree_ok h -> tree_ok h' -> (k < length h)%nat -> (length h <= length h')%nat ->
  (forall j, (j < length h)%nat -> par_of h' j = par_of h j) -> dep_of h' k = dep_of h k.
Proof.
  intros Ht Ht'. induction k as [k IH] using lt_wf_ind. intros Hk Hl Hp.
  destruct (Depth_spec h k Ht Hk) as (_ & _ & H1). destruct (Depth_spec h' k Ht' ltac:(lia)) as (_ & _ & H2).
  rewrite Hp in H2 by done. destruct (par_of h k) as [s|]; [|lia].
  destruct H1 as [Hs ->], H2 as [_ ->]. f_equal. apply IH; [done|lia|done|done].
Qed.

Definition blank_from (n : nat) (lab : nat -> alabel) : nat -> alabel :=
  fun j => if decide (j < n)%nat then lab j else None.

Lemma load_hinv h lab super st :
  hinv h lab -> (super < length h)%nat -> is_u 4 st ->
  hinv (add_class h super st) (blank_from (length h) lab) /\
  (forall j, (j < length h)%nat -> dep_of (add_class h super st) j = dep_of h j) /\
  (forall j, (j < length h)%nat -> par_of (add_class h super st) j = par_of h j).
Proof.
  intros H Hs Hst. destruct (shifted_status st Hst) as [Hu Hb]. unfold add_class.
  set (c := mkClass (Some super) (Z.shiftl st 28)). set (h' := h ++ [c]).
  assert (Hlen : length h' = S (length h)) by (unfold h'; rewrite length_app; simpl; lia).
  assert (Hold : forall j, (j < length h)%nat -> h' !! j = h !! j) by (intros; unfold h'; by apply lookup_app_l).
  assert (Hnew : h' !! length h = Some c) by (unfold h'; by rewrite lookup_app_r, Nat.sub_diag by lia).
  assert (Hpar : forall j, (j < length h)%nat -> par_of h' j = par_of h j)
    by (intros j Hj; unfold par_of; by rewrite Hold).
  assert (Ht : tree_ok h').
  { intros j cj Hj. destruct (decide (j < length h)%nat) as [Hlt|Hge].
    - rewrite Hold in Hj by done. by apply (hi_tree _ _ H).
    - assert (j = length h) as -> by (apply lookup_lt_Some in Hj; lia).
      rewrite Hnew in Hj. injection Hj as <-. done. }
  assert (Hdep : forall j, (j < length h)%nat -> dep_of h' j = dep_of h j)
    by (intros j Hj; apply dep_unique; [apply (hi_tree _ _ H)|done|done|lia|done]).
  split; [|done]. pose proof (hi_lab _ _ H) as I. unfold blank_from.
  assert (Hlab : forall j l, (if decide (j < length h)%nat then lab j else None) = Some l ->
            (j < length h)%nat /\ lab j = Some l) by (intros j l; by destruct (decide _)).
  split; [done| |].
  - split.
    + intros k Hk. by apply (Depth_spec h' k Ht).
    + intros k Hk. destruct (decide (k < length h)%nat); [rewrite Hdep by done; by apply (li_ok _ _ _ _ I)|].
      by apply (Depth_spec h' k Ht).
    + intros l _ Hl. apply Hlab in Hl as [Hl0 Hl]. by apply (li_root _ _ _ _ I).
    + intros k s l Hk Hp Hl. apply Hlab in Hl as [Hk' Hl]. rewrite Hpar in Hp by done.
      destruct (par_lt I k s Hk' Hp) as (_ & Hsn & _). rewrite decide_True, Hdep by done.
      by apply (li_edge _ _ _ _ I k s l).
    + intros k k' s lp l l' cc Hk Hk' Hp Hp' Hs' Hl Hl'. apply Hlab in Hl as [Hkn Hl].
      apply Hlab in Hl' as [Hkn' Hl']. apply Hlab in Hs' as [_ Hs']. rewrite Hpar in Hp, Hp' by done.
      by apply (li_sib _ _ _ _ I k k' s lp l l' cc).
  - intros k Hk. destruct (decide (k < length h)%nat) as [Hlt|Hge].
    + rewrite Hdep by done. unfold bits_of. rewrite Hold by done. by apply (hi_bits _ _ H).
    + assert (k = length h) as -> by lia. unfold bits_of. by rewrite Hnew.
Qed.

(** What a run keeps: the tree only grows, and labels keep their paths. *)
Record evolves (h : heap) (lab : nat -> alabel) (h' : heap) (lab' : nat -> alabel) : Prop := {
  ev_inv : hinv h' lab';
  ev_len : (length h <= length h')%nat;
  ev_par : forall j, (j < length h)%nat -> par_of h' j = par_of h j;
  ev_dep : forall j, (j < length h)%nat -> dep_of h' j = dep_of h j;
  ev_keeps : forall j l, (j < length h)%nat -> lab j = Some l ->
    exists l', lab' j = Some l' /\ (lab_open (dep_of h j) l -> path l' = path l /\ ovf l' = ovf l)
}.

Lemma evolves_trans h1 l1 h2 l2 h3 l3 : evolves h1 l1 h2 l2 -> evolves h2 l2 h3 l3 -> evolves h1 l1 h3 l3.
Proof.
  intros [I2 L2 P2 D2 K2] [I3 L3 P3 D3 K3]. split; [done|lia| | |].
  - intros j Hj. by rewrite P3, P2 by lia.
  - intros j Hj. by rewrite D3, D2 by lia.
  - intros j l Hj Hl. destruct (K2 j l Hj Hl) as (l' & Hl' & Hk). destruct (K3 j l' ltac:(lia) Hl') as (l'' & Hl'' & Hk').
    exists l''. split; [done|]. intros Ho. destruct (Hk Ho) as [Ep Eo]. rewrite <- Ep, <- Eo. apply Hk'.
    rewrite D2 by done. by apply (lab_open_same _ l).
Qed.

Lemma assigned_evolves h lab k assign h' lab' : assigned_to h lab k assign h' lab' -> evolves h lab h' lab'.
Proof.
  intros [I Ht _ _ Hk]. pose proof Ht as (Hl & Hp & _). split; [done|lia|done| |].
  - intros j _. by apply same_tree_dep.
  - intros j l _. apply Hk.
Qed.

Lemma InitializeOrAssign_in h k assign r : InitializeOrAssign h k assign = Some r -> (k < length h)%nat.
Proof.
  unfold InitializeOrAssign. intros E. destruct (decide (k < length h)%nat) as [|Hge]; [done|].
  assert (GetSuperClass h k = None) as Hs
    by (unfold GetSuperClass; by rewrite lookup_ge_None_2 by lia).
  destruct k; cbn [InitializeOrAssign_loop] in E; by rewrite Hs in E.
Qed.

Lemma sys_step_evolves h h' lab : sys_step h h' -> hinv h lab -> exists lab', evolves h lab h' lab'.
Proof.
  intros Hstep H. destruct Hstep as [h super st Hs Hst|h k st h' Hst E|h k h' s E|h k h' s E].
  - destruct (load_hinv h lab super st H Hs Hst) as (H' & Hd & Hp). eexists. split; [exact H'| |done|done|].
    + unfold add_class. rewrite length_app. lia.
    + intros j l Hj Hl. exists l. unfold blank_from. rewrite decide_True by done. done.
  - assert (k < length h)%nat as Hk.
    { destruct (decide (k < length h)%nat) as [|Hge]; [done|]. unfold WriteStatus, WriteStatusImpl, ReadField in E.
      by rewrite lookup_ge_None_2 in E by lia. }
    destruct (WriteStatus_spec h k st (hi_tree _ _ H) Hk Hst) as (h2 & E2 & Hs & Hb & _).
    assert (h2 = h') as -> by congruence. pose proof Hs as (Hl & Hp & Ht). exists lab. split; [|lia|done| |eauto].
    + split; [apply Ht, (hi_tree _ _ H)| |].
      * rewrite Hl. apply (linv_ext _ (par_of h) _ (dep_of h)); [done|intros; by apply same_tree_dep|apply (hi_lab _ _ H)].
      * intros j Hj. rewrite Hb, (same_tree_dep h h') by done. apply (hi_bits _ _ H). lia.
    + intros j _. by apply same_tree_dep.
  - unfold EnsureInitialized in E. destruct (InitializeOrAssign h k false) as [[h2 sci]|] eqn:Ei; [|done].
    pose proof (InitializeOrAssign_in _ _ _ _ Ei) as Hk.
    destruct (InitializeOrAssign_loop_spec k h lab k false H Hk ltac:(lia)) as (h3 & lab' & E3 & Ha).
    unfold InitializeOrAssign in Ei. rewrite E3 in Ei. injection Ei as -> <-. cbn [mbind option_bind] in E.
    destruct (GetState _); [|done]. injection E as -> _. eexists. by eapply assigned_evolves.
  - unfold EnsureAssigned in E. destruct (InitializeOrAssign h k true) as [[h2 sci]|] eqn:Ei; [|done].
    pose proof (InitializeOrAssign_in _ _ _ _ Ei) as Hk.
    destruct (InitializeOrAssign_loop_spec k h lab k true H Hk ltac:(lia)) as (h3 & lab' & E3 & Ha).
    unfold InitializeOrAssign in Ei. rewrite E3 in Ei. injection Ei as -> <-. cbn [mbind option_bind] in E.
    destruct (GetState _); [|done]. injection E as -> _. eexists. by eapply assigned_evolves.
Qed.

Lemma run_evolves h h' lab : rtc sys_step h h' -> hinv h lab -> exists lab', evolves h lab h' lab'.
Proof.
  intros Hr. revert lab. induction Hr as [h|h1 h2 h3 Hs _ IH]; intros lab H.
  - exists lab. split; [done|lia|done|done|eauto].
  - destruct (sys_step_evolves h1 h2 lab Hs H) as (lab2 & E2).
    destruct (IH lab2 (ev_inv _ _ _ _ E2)) as (lab3 & E3). exists lab3. by eapply evolves_trans.
Qed.

Lemma reachable_hinv h : reachable h -> exists lab, hinv h lab.
Proof.
  intros (st & Hst & Hr). destruct (run_evolves _ _ _ Hr (init_hinv st Hst)) as (lab & [I _ _ _ _]). eauto.
Qed.

Lemma GetState_spec h lab k :
  hinv h lab -> (k < length h)%nat -> SubtypeCheck_GetState h k = Some (state_of (dep_of h k) (lab k)).
Proof.
  intros H Hk. unfold SubtypeCheck_GetState. destruct (GetSubtypeCheckInfo_spec h lab k H Hk) as [_ ->].
  cbn [mbind option_bind]. apply GetState_info. by apply (li_ok _ _ _ _ (hi_lab _ _ H)).
Qed.

Lemma state_uninitialized d al : state_of d al = kUninitialized <-> al = None.
Proof.
  destruct al as [l|]; [|done]. simpl. destruct (ovf l); [done|]. by destruct (_ =? _).
Qed.

Lemma IsSubClass_loop_spec h fuel k t :
  tree_ok h -> (k < length h)%nat -> (k <= fuel)%nat ->
  exists b, IsSubClass_loop fuel h k t = Some b /\ (b = true <-> anc (par_of h) t k).
Proof.
  intros Ht. revert k. induction fuel as [|fuel IH]; intros k Hk Hf; cbn [IsSubClass_loop];
    (destruct (decide (k = t)) as [->|Hne]; [exists true; split; [done|]; split; [constructor|done]|]);
    destruct (lookup_lt_is_Some_2 h k Hk) as [c Hc]; destruct (Ht k c Hc) as [_ Hsup];
    assert (Hp : par_of h k = super_class c) by (unfold par_of; by rewrite Hc);
    unfold GetSuperClass; rewrite Hc; cbn [mbind option_bind]; destruct (super_class c) as [s|]; try lia.
  1,3: exists false; split; [done|]; split; [done|]; intros Ha; destruct Ha; congruence.
  destruct (IH s ltac:(lia) ltac:(lia)) as (b & Eb & Hb). exists b. split; [done|]. rewrite Hb. split.
  - by apply anc_step.
  - intros Ha. destruct Ha as [|s' p Hp' Ha]; [done|]. congruence.
Qed.

Lemma IsSubtypeOf_spec h lab s t :
  hinv h lab -> (s < length h)%nat -> (t < length h)%nat ->
  IsSubtypeOf h s t = Some
    (match lab s with
     | None => kUnknownSubtypeOf
     | Some ls =>
         if bool_decide (state_of (dep_of h t) (lab t) = kAssigned) then
           if bool_decide (apath (lab t) `prefix_of` path ls) then kSubtypeOf else kNotSubtypeOf
         else kUnknownSubtypeOf
     end).
Proof.
  intros H Hs Ht. unfold IsSubtypeOf.
  destruct (GetSubtypeCheckInfo_spec h lab s H Hs) as [_ ->]. cbn [mbind option_bind].
  destruct (GetSubtypeCheckInfo_spec h lab t H Ht) as [_ ->]. cbn [mbind option_bind].
  apply Info_IsSubtypeOf_spec; by apply (li_ok _ _ _ _ (hi_lab _ _ H)).
Qed.

(** C4: on every reachable heap the subtype query between any two classes runs
    without failing a check. It is unknown exactly when the target has no full
    path or the source no label; otherwise it agrees with the walk over the
    superclasses of [Class::IsSubClass], which finds the target exactly when
    it is the source or one of its superclasses. *)
Theorem IsSubtypeOf_correct h source target
    (Hr : reachable h) (Hs : (source < length h)%nat) (Ht : (target < length h)%nat) :
  exists ss st b, SubtypeCheck_GetState h source = Some ss /\ SubtypeCheck_GetState h target = Some st /\
    IsSubClass true h source target = Some b /\ (b = true <-> anc (par_of h) target source) /\
    IsSubtypeOf h source target =
      Some (if bool_decide (st = kAssigned /\ ss <> kUninitialized)
            then if b then kSubtypeOf else kNotSubtypeOf else kUnknownSubtypeOf).
Proof.
  destruct (reachable_hinv h Hr) as (lab & H). pose proof (hi_lab _ _ H) as I.
  destruct (IsSubClass_loop_spec h source source target (hi_tree _ _ H) Hs ltac:(lia)) as (b & Eb & Hb).
  assert (Eq : IsSubtypeOf h source target =
      Some (if bool_decide (state_of (dep_of h target) (lab target) = kAssigned /\
                            state_of (dep_of h source) (lab source) <> kUninitialized)
            then if b then kSubtypeOf else kNotSubtypeOf else kUnknownSubtypeOf)).
  { rewrite (IsSubtypeOf_spec h lab) by done. f_equal. destruct (lab source) as [ls|] eqn:Els.
    - destruct (decide (state_of (dep_of h target) (lab target) = kAssigned)) as [Ea|Ea].
      + rewrite bool_decide_true by done.
        rewrite (bool_decide_true (_ /\ _)) by (split; [done|]; by rewrite state_uninitialized).
        destruct (lab target) as [lt|] eqn:Elt; [|done]. simpl apath.
        pose proof (anc_iff_prefix I target source lt ls Ht Hs Elt Els Ea) as Hiff. rewrite <- Hb in Hiff.
        destruct b; [rewrite bool_decide_true; tauto|]. rewrite bool_decide_false; [done|].
        intros Hp%Hiff. done.
      + rewrite bool_decide_false by done. by rewrite bool_decide_false by tauto.
    - by rewrite bool_decide_false by tauto. }
  exists (state_of (dep_of h source) (lab source)), (state_of (dep_of h target) (lab target)), b.
  split; [by apply GetState_spec|]. split; [by apply GetState_spec|]. split; [|by split].
  unfold IsSubClass. rewrite Eb. cbn [mbind option_bind]. rewrite Eq. cbn [mbind option_bind].
  destruct (bool_decide (_ /\ _)), b; done.
Qed.

Definition example_heap : heap := add_class (add_class (add_class [mkClass None 0] 0 5) 1 5) 0 5.

Lemma example_reachable : reachable example_heap.
Proof.
  exists 0. split; [unfold is_u; lia|]. unfold example_heap.
  eapply rtc_l; [apply (step_load [mkClass None 0] 0 5); [simpl; lia|unfold is_u; lia]|].
  eapply rtc_l; [apply (step_load _ 1 5); [simpl; lia|unfold is_u; lia]|].
  eapply rtc_l; [apply (step_load _ 0 5); [simpl; lia|unfold is_u; lia]|]. apply rtc_refl.
Qed.

Lemma IsSubtypeOf_correct_witness :
  exists ss st b, SubtypeCheck_GetState example_heap 2 = Some ss /\ SubtypeCheck_GetState example_heap 1 = Some st /\
    IsSubClass true example_heap 2 1 = Some b /\ (b = true <-> anc (par_of example_heap) 1 2) /\
    IsSubtypeOf example_heap 2 1 =
      Some (if bool_decide (st = kAssigned /\ ss <> kUninitialized)
            then if b then kSubtypeOf else kNotSubtypeOf else kUnknownSubtypeOf).
Proof. apply (IsSubtypeOf_correct example_heap 2 1); [apply example_reachable|simpl; lia|simpl; lia]. Defined.

Lemma info_spec h lab k :
  hinv h lab -> (k < length h)%nat ->
  GetSubtypeCheckInfo h k = Some (info (dep_of h k) (lab k)) /\
  GetState (info (dep_of h k) (lab k)) = Some (state_of (dep_of h k) (lab k)) /\
  alabel_ok (dep_of h k) (lab k).
Proof.
  intros H Hk. pose proof (li_ok _ _ _ _ (hi_lab _ _ H) k Hk) as Hok.
  split; [by apply (GetSubtypeCheckInfo_spec h lab k)|]. split; [by apply GetState_info|done].
Qed.

Lemma ForSource_spec h lab k l :
  hinv h lab -> (k < length h)%nat -> lab k = Some l ->
  GetEncodedPathToRootForSource h k = Some (enc (padded (path l))).
Proof.
  intros H Hk Hl. destruct (info_spec h lab k H Hk) as (E & Es & Hok). rewrite Hl in *.
  unfold GetEncodedPathToRootForSource. rewrite E. cbn [mbind option_bind]. rewrite Es. cbn [mbind option_bind].
  rewrite bool_decide_false by (by rewrite state_uninitialized). cbn [negb dcheck mbind option_bind].
  unfold GetEncodedPathToRoot. by rewrite GetPathToRoot_info.
Qed.

Lemma ForTarget_spec h lab k l :
  hinv h lab -> (k < length h)%nat -> lab k = Some l -> state_of (dep_of h k) (Some l) = kAssigned ->
  GetEncodedPathToRootForTarget h k = Some (enc (padded (path l))) /\
  SubtypeCheck_GetEncodedPathToRootMask h k =
    Some (MaskLeastSignificant 32 (GetBitLengthTotalAtPosition (zlength (path l)))) /\
  zlength (path l) = dep_of h k.
Proof.
  intros H Hk Hl Ha. destruct (info_spec h lab k H Hk) as (E & Es & Hok). rewrite Hl in *.
  destruct (assigned_len k l Hl Ha) as [Hlen _].
  pose proof Hok as (_ & _ & Hl3 & _).
  unfold GetEncodedPathToRootForTarget, SubtypeCheck_GetEncodedPathToRootMask. rewrite E. cbn [mbind option_bind].
  rewrite Es, Ha. cbn [mbind option_bind]. rewrite bool_decide_true by done. cbn [dcheck mbind option_bind].
  unfold GetEncodedPathToRoot. rewrite GetPathToRoot_info by done. split; [done|]. split; [|done].
  unfold GetEncodedPathToRootMask, GetSafeDepth, GetSafeDepth_of, kCapacity. cbn [depth_ info].
  rewrite Hlen, Z.min_l by lia. done.
Qed.

Lemma state_assigned_some h lab k :
  hinv h lab -> (k < length h)%nat -> SubtypeCheck_GetState h k = Some kAssigned ->
  exists l, lab k = Some l /\ state_of (dep_of h k) (Some l) = kAssigned.
Proof.
  intros H Hk. rewrite (GetState_spec h lab k H Hk). intros E. destruct (lab k) as [l|]; [|done].
  exists l. split; [done|congruence].
Qed.

(** C5: what compiled code relies on. The path and the mask a compiler reads
    off an assigned target are constants: after any later run, in which other
    classes are loaded, initialized and assigned, the masked path of a
    labelled source equals the recorded path exactly when the target is the
    source or one of its superclasses. *)
Theorem compiled_subtype_check h h' source target
    (Hr : reachable h) (Ht : (target < length h)%nat)
    (Ha : SubtypeCheck_GetState h target = Some kAssigned)
    (Hrun : rtc sys_step h h') (Hs : (source < length h')%nat)
    (Hi : SubtypeCheck_GetState h' source <> Some kUninitialized) :
  exists path_to_root mask source_path,
    GetEncodedPathToRootForTarget h target = Some path_to_root /\
    SubtypeCheck_GetEncodedPathToRootMask h target = Some mask /\
    GetEncodedPathToRootForTarget h' target = Some path_to_root /\
    SubtypeCheck_GetEncodedPathToRootMask h' target = Some mask /\
    GetEncodedPathToRootForSource h' source = Some source_path /\
    (Z.land source_path mask = path_to_root <-> anc (par_of h') target source).
Proof.
  destruct (reachable_hinv h Hr) as (lab & H).
  destruct (run_evolves h h' lab Hrun H) as (lab' & [H' Hlen _ Hdep Hkeep]).
  destruct (state_assigned_some h lab target H Ht Ha) as (lt & Hlt & Hst).
  destruct (Hkeep target lt Ht Hlt) as (lt' & Hlt' & Hk). destruct (Hk (or_introl Hst)) as [Ep Eo].
  assert (Ht' : (target < length h')%nat) by lia.
  assert (Hst' : state_of (dep_of h' target) (Some lt') = kAssigned).
  { rewrite Hdep by done. rewrite <- Hst. simpl. by rewrite Ep, Eo. }
  destruct (ForTarget_spec h lab target lt H Ht Hlt Hst) as (E1 & E2 & _).
  destruct (ForTarget_spec h' lab' target lt' H' Ht' Hlt' Hst') as (E3 & E4 & _).
  rewrite (GetState_spec h' lab' source H' Hs) in Hi.
  destruct (lab' source) as [ls|] eqn:Hls; [|done].
  rewrite <- Ep in E1, E2.
  do 3 eexists. split; [exact E1|]. split; [exact E2|]. split; [exact E3|]. split; [exact E4|].
  split; [by apply (ForSource_spec h' lab')|].
  pose proof (li_ok _ _ _ _ (hi_lab _ _ H') source Hs) as Hoks. rewrite Hls in Hoks.
  pose proof (li_ok _ _ _ _ (hi_lab _ _ H') target Ht') as Hokt. rewrite Hlt' in Hokt.
  pose proof Hokt as (_ & _ & Hl3 & _).
  pose proof (padded_ok _ _ Hoks) as Hps. pose proof (padded_ok _ _ Hokt) as Hpt.
  rewrite land_mask by (done || lia).
  rewrite (anc_iff_prefix (hi_lab _ _ H') target source lt' ls) by done.
  rewrite <- (prefix_padded _ _ _ Hokt). split; [|by intros ->].
  intros E. apply enc_inj; [by apply trunc_ok|done|done].
Qed.

(** The example heap after [EnsureAssigned] of class 1 and then
    [EnsureInitialized] of class 2. *)
Definition example_assigned : heap := default [] (fst <$> EnsureAssigned example_heap 1).
Definition example_initialized : heap := default [] (fst <$> EnsureInitialized example_assigned 2).

Lemma example_assigned_reachable : reachable example_assigned.
Proof.
  destruct example_reachable as (st & Hst & Hr). exists st. split; [done|].
  eapply rtc_r; [exact Hr|]. apply (step_assign _ 1 _ kAssigned). vm_compute. reflexivity.
Qed.

Lemma compiled_subtype_check_witness :
  exists path_to_root mask source_path,
    GetEncodedPathToRootForTarget example_assigned 1 = Some path_to_root /\
    SubtypeCheck_GetEncodedPathToRootMask example_assigned 1 = Some mask /\
    GetEncodedPathToRootForTarget example_initialized 1 = Some path_to_root /\
    SubtypeCheck_GetEncodedPathToRootMask example_initialized 1 = Some mask /\
    GetEncodedPathToRootForSource example_initialized 2 = Some source_path /\
    (Z.land source_path mask = path_to_root <-> anc (par_of example_initialized) 1 2).
Proof.
  apply (compiled_subtype_check example_assigned example_initialized 2 1).
  - apply example_assigned_reachable.
  - vm_compute. lia.
  - vm_compute. reflexivity.
  - apply rtc_once. apply (step_initialize _ 2 _ kInitialized). vm_compute. reflexivity.
  - vm_compute. lia.
  - vm_compute. discriminate.
Defined.

Lemma anc_open h lab k l j :
  hinv h lab -> (k < length h)%nat -> lab k = Some l -> anc (par_of h) j k -> j <> k ->
  exists lj, lab j = Some lj /\ lab_open (dep_of h j) lj.
Proof.
  intros H Hk Hl Ha. revert l Hl. induction Ha as [|k p Hp Ha IH]; intros l Hl Hne; [done|].
  destruct (li_edge _ _ _ _ (hi_lab _ _ H) k p l Hk Hp Hl) as (lp & Hlp & Ho & _).
  destruct (decide (j = p)) as [->|Hjp]; [by exists lp|].
  pose proof (par_lt (hi_lab _ _ H) k p Hk Hp) as (_ & Hpn & _). by apply (IH Hpn lp).
Qed.

(** What a label operation on [k] promises: it succeeds and reports the state
    it leaves; the tree and the statuses are untouched; the proper superclasses
    end up assigned or overflowed; an assigned or overflowed class keeps its
    state and its path to the root. *)
Definition ensures (op : heap -> nat -> option (heap * State)) (good : State -> Prop) (h : heap) (k : nat) : Prop :=
  exists h' s, op h k = Some (h', s) /\ SubtypeCheck_GetState h' k = Some s /\ good s /\
    length h' = length h /\
    (forall j, par_of h' j = par_of h j /\ stat_of h' j = stat_of h j) /\
    (forall j, anc (par_of h) j k -> j <> k ->
       SubtypeCheck_GetState h' j = Some kAssigned \/ SubtypeCheck_GetState h' j = Some kOverflowed) /\
    (forall j, SubtypeCheck_GetState h j = Some kAssigned \/ SubtypeCheck_GetState h j = Some kOverflowed ->
       SubtypeCheck_GetState h' j = SubtypeCheck_GetState h j /\
       exists path_to_root, GetEncodedPathToRootForSource h j = Some path_to_root /\
         GetEncodedPathToRootForSource h' j = Some path_to_root).

Lemma GetState_in h k s : SubtypeCheck_GetState h k = Some s -> (k < length h)%nat.
Proof.
  intros E. destruct (decide (k < length h)%nat) as [|Hge]; [done|]. exfalso. revert E.
  unfold SubtypeCheck_GetState, GetSubtypeCheckInfo, Depth.
  assert (GetSuperClass h k = None) as Hs by (unfold GetSuperClass; by rewrite lookup_ge_None_2 by lia).
  destruct k; cbn [depth_loop]; by rewrite Hs.
Qed.

Lemma InitializeOrAssign_ensures h k assign :
  reachable h -> (k < length h)%nat ->
  ensures (fun h k => '(h, sci) ← InitializeOrAssign h k assign; s ← GetState sci; Some (h, s))
    (fun s => s <> kUninitialized /\ (assign = true -> s <> kInitialized)) h k.
Proof.
  intros Hr Hk. destruct (reachable_hinv h Hr) as (lab & H).
  destruct (InitializeOrAssign_loop_spec k h lab k assign H Hk ltac:(lia)) as (h' & lab' & E & [H' Ht Hst Hl Hkp]).
  pose proof Ht as (Hlen & Hp & _). destruct Hl as (l & Hl & Ho).
  pose proof (same_tree_dep h h' k Ht) as Hd. assert (Hk' : (k < length h')%nat) by lia.
  destruct (info_spec h' lab' k H' Hk') as (_ & Es & _). rewrite Hd in Es.
  exists h', (state_of (dep_of h k) (lab' k)). unfold InitializeOrAssign. rewrite E. cbn [mbind option_bind].
  rewrite Es. cbn [mbind option_bind]. split; [done|]. split; [by rewrite (GetState_spec h' lab') by done; rewrite Hd|].
  split; [|split; [done|split; [by intros j|split]]].
  - rewrite Hl, state_uninitialized. split; [done|]. intros Ha. destruct (Ho Ha) as [-> | ->]; done.
  - intros j Ha Hne. assert (Ha' : anc (par_of h') j k).
    { clear -Ha Hp. induction Ha as [|s p Hs _ IH]; [constructor|]. apply (anc_step _ _ _ p); [by rewrite Hp|done]. }
    destruct (anc_open h' lab' k l j H' Hk' Hl Ha' Hne) as (lj & Hlj & Hoj).
    pose proof (anc_bound (hi_lab _ _ H') j k Hk' Ha') as Hjn.
    rewrite (GetState_spec h' lab' j H' Hjn), Hlj. destruct Hoj as [-> | ->]; auto.
  - intros j Hj. assert (Hjn : (j < length h)%nat) by (destruct Hj as [Hj|Hj]; by apply GetState_in in Hj).
    rewrite (GetState_spec h lab j H Hjn) in *. rewrite (GetState_spec h' lab' j H') by lia.
    rewrite (same_tree_dep h h' j Ht). destruct (lab j) as [lj|] eqn:Hlj; [|by destruct Hj].
    destruct (Hkp j lj Hlj) as (lj' & Hlj' & Hsame). rewrite Hlj'. destruct Hsame as [Ep Eo].
    + destruct Hj as [Hj|Hj]; [left|right]; congruence.
    + split; [simpl; by rewrite Ep, Eo|]. exists (enc (padded (path lj))).
      rewrite (ForSource_spec h lab j lj) by done. rewrite (ForSource_spec h' lab' j lj'), Ep by (done || lia). done.
Qed.

(** C15: on reachable heaps labels can always be had. [EnsureInitialized] never
    fails a check and leaves the class at least initialized, [EnsureAssigned]
    assigned or overflowed; both report the state they leave, assign or
    overflow every proper superclass, keep the state and the path to the root of
    the classes that are assigned or overflowed (the field of a label that counts
    the children given out may change), and leave superclasses and statuses
    alone. *)
Theorem Ensure_correct h k (Hr : reachable h) (Hk : (k < length h)%nat) :
  ensures EnsureInitialized (fun s => s <> kUninitialized) h k /\
  ensures EnsureAssigned (fun s => s = kAssigned \/ s = kOverflowed) h k.
Proof.
  split.
  - destruct (InitializeOrAssign_ensures h k false Hr Hk) as (h' & s & E & Hs & [Hg _] & Hrest). by exists h', s.
  - destruct (InitializeOrAssign_ensures h k true Hr Hk) as (h' & s & E & Hs & [Hg Hi] & Hrest). exists h', s.
    split; [done|]. split; [done|]. split; [|done]. specialize (Hi eq_refl). destruct s; auto; done.
Qed.

Lemma Ensure_correct_witness :
  ensures EnsureInitialized (fun s => s <> kUninitialized) example_heap 2 /\
  ensures EnsureAssigned (fun s => s = kAssigned \/ s = kOverflowed) example_heap 2.
Proof. apply (Ensure_correct example_heap 2); [apply example_reachable|simpl; lia]. Defined.
