(* ===== verification/StatusWord.v ===== *)
(** * The shared status word under interference

    The labels and the status of a class share one 32-bit word. Writers of
    either field run a read, modify, compare-and-swap loop
    ([WriteSubtypeCheckBits] and [WriteStatusImpl] of runtime/subtype_check.h).
    This file runs any number of such writers concurrently, at the grain of
    single reads and swaps, and shows that the word behaves as two independent
    registers. *)

From Stdlib Require Import ZArith Lia Bool List.
From stdpp Require Import base list option relations.
From S2P Require Import Prelude BitUtils BitString SubtypeCheck.

Open Scope Z_scope.

Inductive field := Bits | Status.

(** A turn of the loop of the writer of a field. *)
Definition turn (f : field) (old_value v : Z) : option (option Z) :=
  match f with
  | Bits => WriteSubtypeCheckBits_turn old_value v
  | Status => WriteStatusImpl_turn old_value v
  end.

Definition width (f : field) : Z :=
  match f with Bits => SubtypeCheckBits_BitStructSizeOf | Status => kClassStatusBitSize end.

Definition get (f : field) (w : Z) : Z :=
  match f with Bits => subtype_check_info_get w | Status => status_get w end.

(** Where a thread is: outside, about to read, or about to swap. *)
Inductive pc :=
  | Idle
  | Reading (f : field) (v : Z)
  | Swapping (f : field) (v old_value new_value : Z).

Record state := mkState { word : Z; threads : list pc }.

(** Calls and returns are observable; the rest is internal. *)
Inductive event := Call (t : nat) (f : field) (v : Z) | Return (t : nat) | Tau.

Inductive step : state -> event -> state -> Prop :=
  | step_call w ts t f v :
      ts !! t = Some Idle -> is_u (width f) v ->
      step (mkState w ts) (Call t f v) (mkState w (<[t := Reading f v]> ts))
  | step_same w ts t f v :
      ts !! t = Some (Reading f v) -> turn f w v = Some None ->
      step (mkState w ts) (Return t) (mkState w (<[t := Idle]> ts))
  | step_read w ts t f v new_value :
      ts !! t = Some (Reading f v) -> turn f w v = Some (Some new_value) ->
      step (mkState w ts) Tau (mkState w (<[t := Swapping f v w new_value]> ts))
  | step_swap w ts t f v new_value :
      ts !! t = Some (Swapping f v w new_value) ->
      step (mkState w ts) (Return t) (mkState new_value (<[t := Idle]> ts))
  (* the compare-and-swap is weak: it may fail on the expected value too *)
  | step_fail w ts t f v old_value new_value :
      ts !! t = Some (Swapping f v old_value new_value) ->
      step (mkState w ts) Tau (mkState w (<[t := Reading f v]> ts)).

(** The specification: two registers, and calls that take effect at once when
    they return. *)
Record spec := mkSpec { regs : field -> Z; pending : list (option (field * Z)) }.

Inductive spec_step : spec -> event -> spec -> Prop :=
  | spec_call r ps t f v :
      ps !! t = Some None -> spec_step (mkSpec r ps) (Call t f v) (mkSpec r (<[t := Some (f, v)]> ps))
  | spec_return r r' ps t f v :
      ps !! t = Some (Some (f, v)) -> r' f = v -> (forall g, g <> f -> r' g = r g) ->
      spec_step (mkSpec r ps) (Return t) (mkSpec r' (<[t := None]> ps))
  | spec_tau r ps : spec_step (mkSpec r ps) Tau (mkSpec r ps).

Inductive run {S} (R : S -> event -> S -> Prop) : S -> list event -> S -> Prop :=
  | run_nil s : run R s [] s
  | run_cons s e s' es s'' : R s e s' -> run R s' es s'' -> run R s (e :: es) s''.

Definition request (p : pc) : option (field * Z) :=
  match p with Idle => None | Reading f v | Swapping f v _ _ => Some (f, v) end.

(** What a state stands for. *)
Definition abstraction (s : state) : spec :=
  mkSpec (fun f => get f (word s)) (request <$> threads s).

Definition init (w : Z) (n : nat) : state := mkState w (replicate n Idle).

(** ** The invariant *)

Definition pc_ok (p : pc) : Prop :=
  match p with
  | Idle => True
  | Reading f v => is_u (width f) v
  | Swapping f v o n => is_u (width f) v /\ is_u 32 o /\ turn f o v = Some (Some n)
  end.

Definition ok (s : state) : Prop := is_u 32 (word s) /\ Forall pc_ok (threads s).

Lemma turn_spec f w v :
  is_u 32 w -> is_u (width f) v ->
  (get f w = v /\ turn f w v = Some None) \/
  exists w', turn f w v = Some (Some w') /\ is_u 32 w' /\ get f w' = v /\
    forall g, g <> f -> get g w' = get g w.
Proof.
  intros Hw Hv. destruct f; simpl.
  - destruct (WriteSubtypeCheckBits_turn_spec w v Hw Hv) as [?|(w' & E & Hw' & Eb & Es)]; [by left|right].
    exists w'. split; [done|]. split; [done|]. split; [done|]. by intros [] ?.
  - destruct (WriteStatusImpl_turn_spec w v Hw Hv) as [?|(w' & E & Hw' & Es & Eb)]; [by left|right].
    exists w'. split; [done|]. split; [done|]. split; [done|]. by intros [] ?.
Qed.

Lemma ok_thread w ts t p : ok (mkState w ts) -> ts !! t = Some p -> is_u 32 w /\ pc_ok p.
Proof. intros [Hw Hts] Ht. split; [done|]. by apply (Forall_lookup_1 _ ts t). Qed.

Lemma ok_update w w' ts t p : ok (mkState w ts) -> is_u 32 w' -> pc_ok p -> ok (mkState w' (<[t := p]> ts)).
Proof. intros [_ Hts] Hw Hp. split; [done|]. by apply Forall_insert. Qed.

Lemma step_ok s e s' : step s e s' -> ok s -> ok s'.
Proof.
  intros Hs Hok. destruct Hs as [w ts t f v Ht Hv|w ts t f v Ht _|w ts t f v n Ht E|w ts t f v n Ht|w ts t f v o n Ht];
    destruct (ok_thread w ts t _ Hok Ht) as [Hw Hp]; apply (ok_update w); try done.
  - destruct Hp as (Hv & _ & E). destruct (turn_spec f w v Hw Hv) as [[_ ?]|(w' & E' & Hw' & _)]; congruence.
  - apply Hp.
Qed.

Lemma request_insert (ts : list pc) (t : nat) p : request <$> <[t := p]> ts = <[t := request p]> (request <$> ts).
Proof. apply list_fmap_insert. Qed.

Lemma step_simulates s e s' : step s e s' -> ok s -> spec_step (abstraction s) e (abstraction s').
Proof.
  intros Hs Hok. destruct Hs as [w ts t f v Ht Hv|w ts t f v Ht E|w ts t f v n Ht E|w ts t f v n Ht|w ts t f v o n Ht];
    destruct (ok_thread w ts t _ Hok Ht) as [Hw Hp]; unfold abstraction; cbn [word threads];
    rewrite request_insert; assert (Hr := f_equal (fmap request) Ht); rewrite <- list_lookup_fmap in Hr;
    cbn [fmap option_fmap option_map request] in Hr; cbn [request].
  - by constructor.
  - apply (spec_return _ _ _ t f v); [done| |done].
    destruct (turn_spec f w v Hw Hp) as [[? _]|(w' & ? & _)]; congruence.
  - rewrite list_insert_id by done. constructor.
  - destruct Hp as (Hv & _ & E).
    destruct (turn_spec f w v Hw Hv) as [[_ ?]|(w' & E' & _ & Eg & Eo)]; [congruence|].
    assert (w' = n) as -> by congruence. by apply (spec_return _ _ _ t f v).
  - rewrite list_insert_id by done. constructor.
Qed.

Lemma run_simulates s es s' :
  run step s es s' -> ok s -> ok s' /\ run spec_step (abstraction s) es (abstraction s').
Proof.
  intros Hr. induction Hr as [s|s e s' es s'' Hs _ IH]; intros Hok.
  - split; [done|constructor].
  - pose proof (step_ok s e s' Hs Hok) as Hok'. destruct (IH Hok') as [Hok'' Hrun]. split; [done|].
    econstructor; [|exact Hrun]. by apply step_simulates.
Qed.

Lemma init_ok w n : is_u 32 w -> ok (init w n).
Proof. intros Hw. split; [done|]. apply Forall_replicate. done. Qed.

(** A thread inside an operation, left alone, returns within three steps of its
    own. *)
Lemma solo_return s t p f v :
  ok s -> threads s !! t = Some p -> request p = Some (f, v) ->
  exists es s', run step s es s' /\ es `suffix_of` [Tau; Tau; Return t] /\ es <> [] /\
    get f (word s') = v /\ threads s' !! t = Some Idle.
Proof.
  destruct s as [w ts]. cbn [threads]. intros Hok Ht Hreq.
  assert (Hlt := lookup_lt_Some _ _ _ Ht).
  assert (Hread : forall ts', ts' !! t = Some (Reading f v) -> is_u (width f) v -> is_u 32 w ->
            exists es s', run step (mkState w ts') es s' /\ es `suffix_of` [Tau; Return t] /\ es <> [] /\
              get f (word s') = v /\ threads s' !! t = Some Idle).
  { intros ts' Ht' Hv Hw. assert (Hlt' := lookup_lt_Some _ _ _ Ht').
    destruct (turn_spec f w v Hw Hv) as [[Eg E]|(w' & E & _ & Eg & _)].
    - exists [Return t]. eexists. split; [econstructor; [by apply (step_same _ _ t f v)|constructor]|].
      split; [by exists [Tau]|]. split; [done|]. split; [done|]. by apply list_lookup_insert_eq.
    - exists [Tau; Return t]. eexists. split.
      { econstructor; [by apply (step_read _ _ t f v w')|]. econstructor; [|constructor].
        apply (step_swap _ _ t f v w'). by apply list_lookup_insert_eq. }
      split; [done|]. split; [done|]. split; [done|]. cbn [threads]. rewrite list_insert_insert_eq.
      by apply list_lookup_insert_eq. }
  destruct (ok_thread w ts t p Hok Ht) as [Hw Hp]. destruct p as [|f' v'|f' v' o n]; [done| |];
    injection Hreq as -> ->.
  - destruct (Hread ts Ht Hp Hw) as (es & s' & ? & Hsuf & ?). exists es, s'. split; [done|]. split; [|done].
    etransitivity; [exact Hsuf|]. by exists [Tau].
  - destruct (Hread (<[t := Reading f v]> ts)) as (es & s' & Hr & [pre Hsuf] & Hne & Hdone);
      [by apply list_lookup_insert_eq|by apply Hp|done|].
    exists (Tau :: es), s'. split; [econstructor; [by apply (step_fail w ts t f v o n)|done]|].
    split; [|split; [done|exact Hdone]].
    destruct pre as [|x [|y pre]]; simpl in Hsuf.
    + exists []. simpl. congruence.
    + exists [Tau]. simpl. congruence.
    + injection Hsuf as _ _ Hsuf. symmetry in Hsuf. apply app_eq_nil in Hsuf as [_ Hes].
      done.
Qed.

(** C12: labels and statuses written concurrently do not overwrite one another.
    Every run of any number of writers of the shared word has the observable
    behaviour of two separate registers in which each write takes effect in
    one piece when it returns: no update is lost, and a writer of one field
    never changes the other. At every point a writer in progress, left alone,
    completes its write in at most three steps; no check fails. *)
Theorem status_word_linearizable w n es s
    (Hw : is_u 32 w) (Hrun : run step (init w n) es s) :
  run spec_step (abstraction (init w n)) es (abstraction s) /\
  forall t p f v, threads s !! t = Some p -> request p = Some (f, v) ->
    exists es' s', run step s es' s' /\ es' `suffix_of` [Tau; Tau; Return t] /\ es' <> [] /\
      get f (word s') = v /\ threads s' !! t = Some Idle.
Proof.
  destruct (run_simulates _ _ _ Hrun (init_ok w n Hw)) as [Hok Hsim]. split; [done|].
  intros t p f v Ht Hreq. by apply (solo_return s t p f v).
Qed.

(** A status write slips between the read and the swap of a label write: the
    swap of the stale value fails. *)
Definition interfering : list event :=
  [Call 0 Bits 5; Tau; Call 1 Status 3; Tau; Return 1; Tau; Tau; Return 0].

Lemma status_word_linearizable_witness :
  run spec_step (abstraction (init 0 2)) interfering
    (abstraction (mkState (3 * 2 ^ 28 + 5) [Idle; Idle])) /\
  forall t p f v, threads (mkState (3 * 2 ^ 28 + 5) [Idle; Idle]) !! t = Some p -> request p = Some (f, v) ->
    exists es' s', run step (mkState (3 * 2 ^ 28 + 5) [Idle; Idle]) es' s' /\
      es' `suffix_of` [Tau; Tau; Return t] /\ es' <> [] /\
      get f (word s') = v /\ threads s' !! t = Some Idle.
Proof.
  apply (status_word_linearizable 0 2 interfering); [unfold is_u; lia|]. unfold interfering.
  eapply run_cons; [apply (step_call _ _ 0%nat Bits 5); [done|unfold is_u; vm_compute; split; [discriminate|done]]|].
  eapply run_cons; [apply (step_read _ _ 0%nat Bits 5 5); vm_compute; done|].
  eapply run_cons; [apply (step_call _ _ 1%nat Status 3); [done|unfold is_u; vm_compute; split; [discriminate|done]]|].
  eapply run_cons; [apply (step_read _ _ 1%nat Status 3 (3 * 2 ^ 28)); vm_compute; done|].
  eapply run_cons; [apply (step_swap _ _ 1%nat Status 3 (3 * 2 ^ 28)); vm_compute; done|].
  eapply run_cons; [apply (step_fail _ _ 0%nat Bits 5 0 5); vm_compute; done|].
  eapply run_cons; [apply (step_read _ _ 0%nat Bits 5 (3 * 2 ^ 28 + 5)); vm_compute; done|].
  eapply run_cons; [apply (step_swap _ _ 0%nat Bits 5 (3 * 2 ^ 28 + 5)); vm_compute; done|].
  apply run_nil.
Defined.

