(* ===== verification/Utf.v ===== *)
(** * Modified UTF-8

    Conversions between UTF-16 and the UTF-8 variants of the runtime, with
    counting, hashing, comparison and printing (libdexfile/dex/utf.h,
    utf-inl.h and utf.cc). A string is an array of bytes or of 16-bit units
    with an integer cursor; reads outside the array fail. *)

From Stdlib Require Import ZArith Lia Bool List.
From stdpp Require Import base numbers list option.
From S2P Require Import Prelude.

Open Scope Z_scope.
Open Scope art_scope.

(** ** Decoding *)

Definition GetTrailingUtf16Char (maybe_pair : Z) : Z := u16 (Z.shiftr maybe_pair 16).
Definition GetLeadingUtf16Char (maybe_pair : Z) : Z := u16 (Z.land maybe_pair 0x0000FFFF).

(** The character or surrogate pair at the cursor, and the cursor behind it. *)
Definition GetUtf16FromUtf8 (utf8 : list Z) (p : Z) : option (Z * Z) :=
  one ← aread utf8 p;
  let p := p + 1 in
  if Z.land one 0x80 =? 0 then Some (one, p)
  else
    two ← aread utf8 p;
    let p := p + 1 in
    if Z.land one 0x20 =? 0 then
      Some (Z.lor (Z.shiftl (Z.land one 0x1f) 6) (Z.land two 0x3f), p)
    else
      three ← aread utf8 p;
      let p := p + 1 in
      if Z.land one 0x10 =? 0 then
        Some (Z.lor (Z.lor (Z.shiftl (Z.land one 0x0f) 12) (Z.shiftl (Z.land two 0x3f) 6))
                (Z.land three 0x3f), p)
      else
        four ← aread utf8 p;
        let p := p + 1 in
        let code_point :=
          Z.lor (Z.lor (Z.lor (Z.shiftl (Z.land one 0x0f) 18) (Z.shiftl (Z.land two 0x3f) 12))
                   (Z.shiftl (Z.land three 0x3f) 6)) (Z.land four 0x3f) in
        let surrogate_pair := Z.land (Z.shiftr code_point 10 + 0xd7c0) 0xffff in
        let surrogate_pair :=
          Z.lor surrogate_pair (u32 (Z.shiftl (Z.land code_point 0x03ff + 0xdc00) 16)) in
        Some (surrogate_pair, p).

(** [strlen]; the fuel of this and the other loops over a string is its
    length, since every turn moves the cursor forward. *)
Fixpoint cstrlen_loop (fuel : nat) (s : list Z) (p : Z) : option Z :=
  c ← aread s p;
  if c =? 0 then Some p else match fuel with O => None | S fuel' => cstrlen_loop fuel' s (p + 1) end.

Definition cstrlen (s : list Z) : option Z := cstrlen_loop (length s) s 0.

Fixpoint count_loop (fuel : nat) (utf8 : list Z) (p end_ len : Z) : option Z :=
  if p <? end_ then
    match fuel with
    | O => None
    | S fuel' =>
        ic ← aread utf8 p;
        let len := len + 1 in
        if Z.land ic 0x80 =? 0 then count_loop fuel' utf8 (p + 1) end_ len
        else
          let p := p + 1 in
          if Z.land ic 0x20 =? 0 then count_loop fuel' utf8 (p + 1) end_ len
          else
            let p := p + 1 in
            if Z.land ic 0x10 =? 0 then count_loop fuel' utf8 (p + 1) end_ len
            else
              let p := p + 1 in
              let len := len + 1 in
              count_loop fuel' utf8 (p + 1) end_ len
    end
  else Some len.

Definition CountModifiedUtf8Chars (utf8 : list Z) (byte_count : Z) : option Z :=
  n ← cstrlen utf8;
  DCHECK (byte_count <=? n);
  count_loop (length utf8) utf8 0 byte_count 0.

Definition CountModifiedUtf8Chars_cstr (utf8 : list Z) : option Z :=
  n ← cstrlen utf8; CountModifiedUtf8Chars utf8 n.

(** Store a character or a surrogate pair behind the output cursor. *)
Definition store_pair (out : list Z) (out_p ch : Z) : option (list Z * Z) :=
  let leading := GetLeadingUtf16Char ch in
  let trailing := GetTrailingUtf16Char ch in
  out ← awrite out out_p leading;
  let out_p := out_p + 1 in
  if negb (trailing =? 0) then
    out ← awrite out out_p trailing;
    Some (out, out_p + 1)
  else Some (out, out_p).

Fixpoint convert_cstr_loop (fuel : nat) (out : list Z) (out_p : Z) (utf8 : list Z) (p : Z) : option (list Z) :=
  c ← aread utf8 p;
  if c =? 0 then Some out
  else
    match fuel with
    | O => None
    | S fuel' =>
        '(ch, p) ← GetUtf16FromUtf8 utf8 p;
        '(out, out_p) ← store_pair out out_p ch;
        convert_cstr_loop fuel' out out_p utf8 p
    end.

Definition ConvertModifiedUtf8ToUtf16_cstr (utf16_data_out utf8_data_in : list Z) : option (list Z) :=
  convert_cstr_loop (length utf8_data_in) utf16_data_out 0 utf8_data_in 0.

(** The value of a [char]: signed on some targets, unsigned on others. *)
Definition char_value (signed : bool) (byte : Z) : Z := if signed then swrap 8 byte else byte.

Fixpoint convert_loop (fuel : nat) (out : list Z) (out_p : Z) (utf8 : list Z) (p in_end : Z) : option (list Z) :=
  if p <? in_end then
    match fuel with
    | O => None
    | S fuel' =>
        '(ch, p) ← GetUtf16FromUtf8 utf8 p;
        '(out, out_p) ← store_pair out out_p ch;
        convert_loop fuel' out out_p utf8 p in_end
    end
  else Some out.

Definition ConvertModifiedUtf8ToUtf16 (signed : bool) (utf16_data_out : list Z) (out_chars : Z)
    (utf8_data_in : list Z) (in_bytes : Z) : option (list Z) :=
  if out_chars =? in_bytes then
    for_loop (Z.to_nat in_bytes) 0
      (fun p out =>
         c ← aread utf8_data_in p;
         (* dchecked_integral_cast<uint16_t> *)
         DCHECK (0 <=? char_value signed c);
         awrite out p (u16 (char_value signed c)))
      utf16_data_out
  else convert_loop (Z.to_nat in_bytes) utf16_data_out 0 utf8_data_in 0 in_bytes.

(** ** Encoding *)

Definition is_lead (ch : Z) : bool := Z.land ch 0xfc00 =? 0xd800.
Definition is_trail (ch : Z) : bool := Z.land ch 0xfc00 =? 0xdc00.
Definition is_surrogate (ch : Z) : bool := Z.land ch 0xf800 =? 0xd800.
Definition is_surrogate_lead (ch : Z) : bool := Z.land ch 0x0400 =? 0.
Definition get_supplementary (lead trail : Z) : Z :=
  let offset := u32 (u32 (Z.shiftl 0xd800 10) + 0xdc00 - 0x10000) in
  u32 (u32 (Z.shiftl lead 10) + trail - offset).

Section ConvertUtf16ToUtf8.

(** [append] is the functor argument of the template: it is given the
    converted [char], here as its byte. *)
Context (kUseShortZero kUse4ByteSequence kReplaceBadSurrogates : bool).
Context {A : Type} (append : A -> Z -> option A).

Definition append_all (a : A) (bytes : list Z) : option A :=
  foldl (fun a c => a ← a; append a (u8 c)) (Some a) bytes.

Definition has_trail (utf16 : list Z) (char_count i : Z) : option bool :=
  if i + 1 =? char_count then Some false else next ← aread utf16 (i + 1); Some (is_trail next).

Fixpoint ConvertUtf16ToUtf8_loop (fuel : nat) (utf16 : list Z) (char_count i : Z) (a : A) : option A :=
  if i <? char_count then
    match fuel with
    | O => None
    | S fuel' =>
        ch ← aread utf16 i;
        if (ch <? 0x80) && (kUseShortZero || negb (ch =? 0)) then
          a ← append_all a [ch];
          ConvertUtf16ToUtf8_loop fuel' utf16 char_count (i + 1) a
        else if ch <? 0x800 then
          a ← append_all a [Z.lor (Z.shiftr ch 6) 0xc0; Z.lor (Z.land ch 0x3f) 0x80];
          ConvertUtf16ToUtf8_loop fuel' utf16 char_count (i + 1) a
        else
          surrogate ← (if kReplaceBadSurrogates then Some (is_surrogate ch)
                       else if kUse4ByteSequence && is_lead ch then has_trail utf16 char_count i
                       else Some false);
          if (surrogate : bool) then
            bad ← (if kReplaceBadSurrogates then
                     if negb (is_surrogate_lead ch) then Some true
                     else t ← has_trail utf16 char_count i; Some (negb t)
                   else Some false);
            if (bad : bool) then
              a ← append_all a [63 (* '?' *)];
              ConvertUtf16ToUtf8_loop fuel' utf16 char_count (i + 1) a
            else
              trail ← aread utf16 (i + 1);
              let code_point := get_supplementary ch trail in
              let i := i + 1 in
              a ← append_all a [Z.lor (Z.shiftr code_point 18) 0xf0;
                                Z.lor (Z.land (Z.shiftr code_point 12) 0x3f) 0x80;
                                Z.lor (Z.land (Z.shiftr code_point 6) 0x3f) 0x80;
                                Z.lor (Z.land code_point 0x3f) 0x80];
              ConvertUtf16ToUtf8_loop fuel' utf16 char_count (i + 1) a
          else
            a ← append_all a [Z.lor (Z.shiftr ch 12) 0xe0;
                              Z.lor (Z.land (Z.shiftr ch 6) 0x3f) 0x80;
                              Z.lor (Z.land ch 0x3f) 0x80];
            ConvertUtf16ToUtf8_loop fuel' utf16 char_count (i + 1) a
    end
  else Some a.

Definition ConvertUtf16ToUtf8 (utf16 : list Z) (char_count : Z) (a : A) : option A :=
  ConvertUtf16ToUtf8_loop (Z.to_nat char_count) utf16 char_count 0 a.

End ConvertUtf16ToUtf8.

Definition CountModifiedUtf8BytesInUtf16 (chars : list Z) (char_count : Z) : option Z :=
  ConvertUtf16ToUtf8 false true false (fun result _ => Some (result + 1)) chars char_count 0.

(** The [append] of the conversion to a buffer: [*utf8_out++ = c]. *)
Definition write_char (st : list Z * Z) (c : Z) : option (list Z * Z) :=
  let '(out, p) := st in out' ← awrite out p c; Some (out', p + 1).

Definition ConvertUtf16ToModifiedUtf8 (signed : bool) (utf8_out : list Z) (byte_count : Z)
    (utf16_in : list Z) (char_count : Z) : option (list Z) :=
  if byte_count =? char_count then
    for_loop (Z.to_nat char_count) 0
      (fun p out =>
         c ← aread utf16_in p;
         (* dchecked_integral_cast<char> *)
         DCHECK (c <=? (if signed then 127 else 255));
         awrite out p (u8 c))
      utf8_out
  else
    '(out, _) ← ConvertUtf16ToUtf8 false true false write_char utf16_in char_count (utf8_out, 0);
    Some out.

(** ** Hashing *)

(** Units as the array holds them; [static_cast<UnsignedMemoryType>] of a byte
    or a 16-bit unit is its stored value. *)
Fixpoint hash_loop (n : nat) (chars : list Z) (p hash : Z) : option Z :=
  match n with
  | O => Some hash
  | S n' => c ← aread chars p; hash_loop n' chars (p + 1) (u32 (u32 (hash * 31) + c))
  end.

Definition ComputeUtf16Hash (chars : list Z) (char_count : Z) : option Z :=
  hash ← hash_loop (Z.to_nat char_count) chars 0 0; Some (s32 hash).

Fixpoint hash_utf8_loop (fuel : nat) (utf8 : list Z) (p utf16_length hash : Z) : option Z :=
  if negb (utf16_length =? 0) then
    match fuel with
    | O => None
    | S fuel' =>
        '(pair_, p) ← GetUtf16FromUtf8 utf8 p;
        let first := GetLeadingUtf16Char pair_ in
        let hash := u32 (u32 (hash * 31) + first) in
        let utf16_length := utf16_length - 1 in
        let second := GetTrailingUtf16Char pair_ in
        if negb (second =? 0) then
          let hash := u32 (u32 (hash * 31) + second) in
          DCHECK (negb (utf16_length =? 0));
          let utf16_length := utf16_length - 1 in
          hash_utf8_loop fuel' utf8 p utf16_length hash
        else hash_utf8_loop fuel' utf8 p utf16_length hash
    end
  else Some hash.

Definition ComputeUtf16HashFromModifiedUtf8 (utf8 : list Z) (utf16_length : Z) : option Z :=
  hash ← hash_utf8_loop (Z.to_nat utf16_length) utf8 0 utf16_length 0; Some (s32 hash).

Definition StartModifiedUtf8Hash : Z := 0.
Definition UpdateModifiedUtf8Hash (hash c : Z) : Z := u32 (u32 (hash * 31) + c).
Definition UpdateModifiedUtf8Hash_view (hash : Z) (chars : list Z) : Z :=
  foldl UpdateModifiedUtf8Hash hash chars.

Fixpoint utf8_hash_loop (fuel : nat) (chars : list Z) (p hash : Z) : option Z :=
  c ← aread chars p;
  if c =? 0 then Some hash
  else match fuel with O => None
       | S fuel' => utf8_hash_loop fuel' chars (p + 1) (UpdateModifiedUtf8Hash hash c) end.

Definition ComputeModifiedUtf8Hash (chars : list Z) : option Z :=
  utf8_hash_loop (length chars) chars 0 StartModifiedUtf8Hash.

Definition ComputeModifiedUtf8Hash_view (chars : list Z) : Z :=
  UpdateModifiedUtf8Hash_view StartModifiedUtf8Hash chars.

(** ** Comparison *)

Fixpoint compare_utf8_loop (fuel : nat) (utf8_1 : list Z) (p1 : Z) (utf8_2 : list Z) (p2 : Z) : option Z :=
  c1 ← aread utf8_1 p1;
  c2 ← aread utf8_2 p2;
  if c1 =? 0 then Some (if c2 =? 0 then 0 else -1)
  else if c2 =? 0 then Some 1
  else
    '(c1, p1) ← GetUtf16FromUtf8 utf8_1 p1;
    '(c2, p2) ← GetUtf16FromUtf8 utf8_2 p2;
    if c1 =? c2 then
      match fuel with O => None | S fuel' => compare_utf8_loop fuel' utf8_1 p1 utf8_2 p2 end
    else
      let leading_surrogate_diff := u32 (GetLeadingUtf16Char c1 - GetLeadingUtf16Char c2) in
      if negb (leading_surrogate_diff =? 0) then Some (s32 leading_surrogate_diff)
      else Some (GetTrailingUtf16Char c1 - GetTrailingUtf16Char c2).

Definition CompareModifiedUtf8ToModifiedUtf8AsUtf16CodePointValues (utf8_1 utf8_2 : list Z) : option Z :=
  compare_utf8_loop (length utf8_1) utf8_1 0 utf8_2 0.

Fixpoint compare_utf16_loop (fuel : nat) (utf8 : list Z) (p : Z) (utf16 : list Z) (q utf16_length : Z) : option Z :=
  c ← aread utf8 p;
  if c =? 0 then Some (if utf16_length =? 0 then 0 else -1)
  else if utf16_length =? 0 then Some 1
  else
    '(pair_, p) ← GetUtf16FromUtf8 utf8 p;
    let lhs := GetLeadingUtf16Char pair_ in
    rhs ← aread utf16 q;
    let q := q + 1 in
    let utf16_length := utf16_length - 1 in
    if negb (lhs =? rhs) then Some (if lhs >? rhs then 1 else -1)
    else
      let lhs2 := GetTrailingUtf16Char pair_ in
      if negb (lhs2 =? 0) then
        if utf16_length =? 0 then Some 1
        else
          rhs2 ← aread utf16 q;
          let q := q + 1 in
          let utf16_length := utf16_length - 1 in
          if negb (lhs2 =? rhs2) then Some (if lhs2 >? rhs2 then 1 else -1)
          else match fuel with O => None | S fuel' => compare_utf16_loop fuel' utf8 p utf16 q utf16_length end
      else match fuel with O => None | S fuel' => compare_utf16_loop fuel' utf8 p utf16 q utf16_length end.

Definition CompareModifiedUtf8ToUtf16AsCodePointValues (utf8 utf16 : list Z) (utf16_length : Z) : option Z :=
  compare_utf16_loop (length utf8) utf8 0 utf16 0 utf16_length.

(** ** Printing *)

(** Output strings as lists of character codes: 39 is a quote, 34 a double
    quote, 92 a backslash. *)
Definition NeedsEscaping (ch : Z) : bool := (ch <? 32) || (126 <? ch).

Definition hex_digit (d : Z) : Z := if d <? 10 then 48 + d else 87 + d.

(** [StringAppendF(&result, "\\u%04x", ch)] for a 16-bit [ch]. *)
Definition escape_unit (ch : Z) : list Z :=
  [92; 117; hex_digit (Z.shiftr ch 12); hex_digit (Z.land (Z.shiftr ch 8) 15);
   hex_digit (Z.land (Z.shiftr ch 4) 15); hex_digit (Z.land ch 15)].

Definition PrintableChar (ch : Z) : list Z :=
  [39] ++ (if NeedsEscaping ch then escape_unit ch else [u8 ch]) ++ [39].

Fixpoint printable_loop (fuel : nat) (utf8 : list Z) (p i char_count : Z) (result : list Z) : option (list Z) :=
  if i <? char_count then
    match fuel with
    | O => None
    | S fuel' =>
        '(ch, p) ← GetUtf16FromUtf8 utf8 p;
        if ch =? 92 then printable_loop fuel' utf8 p (i + 1) char_count (result ++ [92; 92])
        else if ch =? 10 then printable_loop fuel' utf8 p (i + 1) char_count (result ++ [92; 110])
        else if ch =? 13 then printable_loop fuel' utf8 p (i + 1) char_count (result ++ [92; 114])
        else if ch =? 9 then printable_loop fuel' utf8 p (i + 1) char_count (result ++ [92; 116])
        else
          let leading := GetLeadingUtf16Char ch in
          let result := result ++ (if NeedsEscaping leading then escape_unit leading else [u8 leading]) in
          let trailing := GetTrailingUtf16Char ch in
          if negb (trailing =? 0) then
            let result := result ++ escape_unit trailing in
            let i := i + 1 in
            DCHECK (i <? char_count);
            printable_loop fuel' utf8 p (i + 1) char_count result
          else printable_loop fuel' utf8 p (i + 1) char_count result
    end
  else Some result.

Definition PrintableString (utf8 : list Z) : option (list Z) :=
  char_count ← CountModifiedUtf8Chars_cstr utf8;
  result ← printable_loop (Z.to_nat char_count) utf8 0 0 char_count [34];
  Some (result ++ [34]).

(** ** Well-formed strings

    The specification side: a modified UTF-8 string is a sequence of tokens,
    each standing for one or two UTF-16 units. A token of two or three bytes
    may hold a value that a shorter one could. *)

Inductive token := One (c : Z) | Two (c : Z) | Three (c : Z) | Four (cp : Z).

Definition token_ok (t : token) : Prop :=
  match t with
  | One c => 0 <= c < 0x80
  | Two c => 0 <= c < 0x800
  | Three c => 0 <= c < 0x10000
  | Four cp => 0x10000 <= cp < 0x110000
  end.

Definition token_bytes (t : token) : list Z :=
  match t with
  | One c => [c]
  | Two c => [0xc0 + c / 64; 0x80 + c mod 64]
  | Three c => [0xe0 + c / 4096; 0x80 + c / 64 mod 64; 0x80 + c mod 64]
  | Four cp => [0xf0 + cp / 262144; 0x80 + cp / 4096 mod 64; 0x80 + cp / 64 mod 64; 0x80 + cp mod 64]
  end.

Definition token_units (t : token) : list Z :=
  match t with
  | One c | Two c | Three c => [c]
  | Four cp => [0xd800 + (cp - 0x10000) / 1024; 0xdc00 + (cp - 0x10000) mod 1024]
  end.

Definition bytes_of (ts : list token) : list Z := concat (map token_bytes ts).
Definition units_of (ts : list token) : list Z := concat (map token_units ts).

(** A token as [GetUtf16FromUtf8] returns it. *)
Definition token_pair (t : token) : Z :=
  match token_units t with
  | [u; v] => u + v * 2 ^ 16
  | [u] => u
  | _ => 0
  end.

(** ** Bytes and units as numbers *)

(** [lia] with division by constants. *)
#[local] Ltac Zify.zify_post_hook ::= Z.to_euclidean_division_equations.

Lemma land_bit_eqb x n : 0 <= n -> (Z.land x (2 ^ n) =? 0) = ((x / 2 ^ n) mod 2 =? 0).
Proof.
  intros Hn. rewrite <- Z.bit0_mod, <- Z.shiftr_div_pow2, Z.shiftr_spec by lia. rewrite Z.add_0_l.
  destruct (Z.testbit x n) eqn:E; simpl.
  - apply Z.eqb_neq. intros H0. assert (Z.testbit (Z.land x (2 ^ n)) n = false) as Hb by (by rewrite H0, Z.bits_0).
    rewrite Z.land_spec, E, testbit_pow2, Z.eqb_refl in Hb by done. done.
  - apply Z.eqb_eq. bits.
Qed.

Lemma lor_add n a b : 0 <= n -> is_u n b -> Z.lor (Z.shiftl a n) b = a * 2 ^ n + b.
Proof. intros Hn Hb. rewrite Z.lor_comm, <- add_shiftl_lor by done. lia. Qed.

Lemma lor_add_r n a b : 0 <= n -> is_u n b -> Z.lor b (a * 2 ^ n) = a * 2 ^ n + b.
Proof. intros Hn Hb. rewrite <- Z.shiftl_mul_pow2, <- add_shiftl_lor by done. rewrite Z.shiftl_mul_pow2 by done. lia. Qed.

Lemma is_u_mod n x : 0 <= n -> is_u n (x mod 2 ^ n).
Proof. intros. apply (wrap_is_u n x). done. Qed.

(** The masks and tests of the code on a byte or a unit. *)
Lemma utf_masks x :
  Z.land x 0x3f = x mod 64 /\ Z.land x 0x1f = x mod 32 /\ Z.land x 0x0f = x mod 16 /\
  Z.land x 0x3ff = x mod 1024 /\ Z.land x 0xffff = x mod 65536 /\
  (Z.land x 0x80 =? 0) = (x / 128 mod 2 =? 0) /\ (Z.land x 0x20 =? 0) = (x / 32 mod 2 =? 0) /\
  (Z.land x 0x10 =? 0) = (x / 16 mod 2 =? 0).
Proof.
  repeat split.
  - apply (Z.land_ones x 6); lia.
  - apply (Z.land_ones x 5); lia.
  - apply (Z.land_ones x 4); lia.
  - apply (Z.land_ones x 10); lia.
  - apply (Z.land_ones x 16); lia.
  - apply (land_bit_eqb x 7); lia.
  - apply (land_bit_eqb x 5); lia.
  - apply (land_bit_eqb x 4); lia.
Qed.

Lemma bytes_join2 a b : Z.lor (Z.shiftl a 6) (b mod 64) = a * 64 + b mod 64.
Proof. apply (lor_add 6); [lia|]. apply (is_u_mod 6). lia. Qed.

Lemma bytes_join3 a b c :
  Z.lor (Z.lor (Z.shiftl a 12) (Z.shiftl (b mod 64) 6)) (c mod 64) = a * 4096 + b mod 64 * 64 + c mod 64.
Proof.
  replace (Z.lor (Z.shiftl a 12) (Z.shiftl (b mod 64) 6)) with (Z.shiftl (Z.lor (Z.shiftl a 6) (b mod 64)) 6).
  - rewrite !bytes_join2. lia.
  - rewrite Z.shiftl_lor, Z.shiftl_shiftl by lia. done.
Qed.

Lemma bytes_join4 a b c d :
  Z.lor (Z.lor (Z.lor (Z.shiftl a 18) (Z.shiftl (b mod 64) 12)) (Z.shiftl (c mod 64) 6)) (d mod 64) =
  a * 262144 + b mod 64 * 4096 + c mod 64 * 64 + d mod 64.
Proof.
  replace (Z.lor (Z.lor (Z.shiftl a 18) (Z.shiftl (b mod 64) 12)) (Z.shiftl (c mod 64) 6)) with
    (Z.shiftl (Z.lor (Z.lor (Z.shiftl a 12) (Z.shiftl (b mod 64) 6)) (c mod 64)) 6).
  - rewrite bytes_join3, bytes_join2. lia.
  - rewrite !Z.shiftl_lor, !Z.shiftl_shiftl by lia. done.
Qed.

Lemma bytes_split2 ch : 0 <= ch < 0x800 ->
  [Z.lor (Z.shiftr ch 6) 0xc0; Z.lor (Z.land ch 0x3f) 0x80] = token_bytes (Two ch).
Proof.
  intros Hc. rewrite (proj1 (utf_masks ch)), Z.shiftr_div_pow2 by lia. change (2 ^ 6) with 64. simpl. f_equal; [|f_equal].
  - rewrite (lor_add_r 6 3); [lia|lia|]. unfold is_u. lia.
  - rewrite (lor_add_r 6 2); [lia|lia|]. unfold is_u. lia.
Qed.

Lemma bytes_split3 ch : 0 <= ch < 0x10000 ->
  [Z.lor (Z.shiftr ch 12) 0xe0; Z.lor (Z.land (Z.shiftr ch 6) 0x3f) 0x80; Z.lor (Z.land ch 0x3f) 0x80] =
  token_bytes (Three ch).
Proof.
  intros Hc. rewrite !(proj1 (utf_masks _)), !Z.shiftr_div_pow2 by lia. change (2 ^ 6) with 64. change (2 ^ 12) with 4096.
  simpl. f_equal; [|f_equal; [|f_equal]].
  - rewrite (lor_add_r 4 14); [lia|lia|]. unfold is_u. lia.
  - rewrite (lor_add_r 6 2); [lia|lia|]. unfold is_u. lia.
  - rewrite (lor_add_r 6 2); [lia|lia|]. unfold is_u. lia.
Qed.

Lemma bytes_split4 cp : 0x10000 <= cp < 0x110000 ->
  [Z.lor (Z.shiftr cp 18) 0xf0; Z.lor (Z.land (Z.shiftr cp 12) 0x3f) 0x80;
   Z.lor (Z.land (Z.shiftr cp 6) 0x3f) 0x80; Z.lor (Z.land cp 0x3f) 0x80] = token_bytes (Four cp).
Proof.
  intros Hc. rewrite !(proj1 (utf_masks _)), !Z.shiftr_div_pow2 by lia.
  change (2 ^ 6) with 64. change (2 ^ 12) with 4096. change (2 ^ 18) with 262144.
  simpl. f_equal; [|f_equal; [|f_equal; [|f_equal]]].
  - rewrite (lor_add_r 4 15); [lia|lia|]. unfold is_u. lia.
  - rewrite (lor_add_r 6 2); [lia|lia|]. unfold is_u. lia.
  - rewrite (lor_add_r 6 2); [lia|lia|]. unfold is_u. lia.
  - rewrite (lor_add_r 6 2); [lia|lia|]. unfold is_u. lia.
Qed.

Lemma token_bytes_are_bytes t : token_ok t -> Forall (is_u 8) (token_bytes t).
Proof. destruct t; simpl; intros; repeat constructor; unfold is_u; lia. Qed.

(** No token is a zero byte, so the string can be terminated by one. *)
Definition token_nz (t : token) : Prop := t <> One 0.

Lemma token_bytes_nz t : token_ok t -> token_nz t -> Forall (fun b => b <> 0) (token_bytes t).
Proof.
  unfold token_nz. destruct t as [c|c|c|cp]; simpl; intros Hok Hnz; repeat constructor; try lia.
  intros ->. by apply Hnz.
Qed.

Lemma token_units_are_units t : token_ok t -> Forall (is_u 16) (token_units t).
Proof. destruct t; simpl; intros; repeat constructor; unfold is_u; lia. Qed.

(** ** Decoding a token *)

Ltac utf_reads :=
  repeat match goal with
  | H : stored _ _ (_ :: _) |- _ => apply stored_cons in H; destruct H as [? H]
  end;
  repeat match goal with
  | H : aread ?m ?p = Some _ |- context [aread ?m ?p] => rewrite H; cbn [mbind option_bind]
  end.

Ltac utf_tests :=
  repeat match goal with
  | |- context [Z.land ?x 0x80 =? 0] => destruct (utf_masks x) as (_ & _ & _ & _ & _ & -> & _ & _)
  | |- context [Z.land ?x 0x20 =? 0] => destruct (utf_masks x) as (_ & _ & _ & _ & _ & _ & -> & _)
  | |- context [Z.land ?x 0x10 =? 0] => destruct (utf_masks x) as (_ & _ & _ & _ & _ & _ & _ & ->)
  end.

(** The class of a first byte. *)
Lemma lead_tests t b r : token_ok t -> token_bytes t = b :: r ->
  (Z.land b 0x80 =? 0) = (match t with One _ => true | _ => false end) /\
  match t with One _ => True | Two _ => (Z.land b 0x20 =? 0) = true
  | Three _ => (Z.land b 0x20 =? 0) = false /\ (Z.land b 0x10 =? 0) = true
  | Four _ => (Z.land b 0x20 =? 0) = false /\ (Z.land b 0x10 =? 0) = false end.
Proof.
  intros Hok Hb. destruct t; simpl in *; injection Hb as <- _; utf_tests; repeat split; zcases; done.
Qed.

Lemma token_decode mem p t :
  token_ok t -> stored mem p (token_bytes t) ->
  GetUtf16FromUtf8 mem p = Some (token_pair t, p + zlength (token_bytes t)).
Proof.
  intros Hok Hst. unfold GetUtf16FromUtf8.
  destruct (token_bytes t) as [|b r] eqn:Eb; [by destruct t|].
  pose proof (lead_tests t b r Hok Eb) as [E80 Erest]. rewrite <- Eb in *.
  destruct t as [c|c|c|cp]; simpl in Eb; injection Eb as <- <-; simpl token_bytes in Hst; utf_reads; rewrite E80.
  - done.
  - rewrite Erest. destruct (utf_masks (0xc0 + c / 64)) as (_ & -> & _). destruct (utf_masks (0x80 + c mod 64)) as (-> & _).
    rewrite bytes_join2. unfold token_pair. simpl in *. f_equal. f_equal; lia.
  - destruct Erest as [-> ->]. destruct (utf_masks (0xe0 + c / 4096)) as (_ & _ & -> & _).
    rewrite !(proj1 (utf_masks _)), bytes_join3. unfold token_pair. simpl in *. f_equal. f_equal; lia.
  - destruct Erest as [-> ->]. destruct (utf_masks (0xf0 + cp / 262144)) as (_ & _ & -> & _).
    rewrite !(proj1 (utf_masks _)), bytes_join4. simpl in Hok.
    replace ((0xf0 + cp / 262144) mod 16 * 262144 + (0x80 + cp / 4096 mod 64) mod 64 * 4096 +
             (0x80 + cp / 64 mod 64) mod 64 * 64 + (0x80 + cp mod 64) mod 64) with cp by lia.
    destruct (utf_masks cp) as (_ & _ & _ & -> & _). destruct (utf_masks (Z.shiftr cp 10 + 0xd7c0)) as (_ & _ & _ & _ & -> & _).
    rewrite Z.shiftr_div_pow2 by lia. change (2 ^ 10) with 1024.
    rewrite wrap_id by (unfold is_u; rewrite Z.shiftl_mul_pow2 by lia; lia).
    rewrite <- add_shiftl_lor by (lia || (unfold is_u; lia)). unfold token_pair. simpl. f_equal. f_equal; lia.
Qed.

(** A decoded token splits into its units. *)
Lemma token_pair_units t : token_ok t ->
  token_units t = GetLeadingUtf16Char (token_pair t) ::
    (if GetTrailingUtf16Char (token_pair t) =? 0 then [] else [GetTrailingUtf16Char (token_pair t)]).
Proof.
  intros Hok. unfold GetLeadingUtf16Char, GetTrailingUtf16Char.
  destruct (utf_masks (token_pair t)) as (_ & _ & _ & _ & -> & _).
  rewrite Z.shiftr_div_pow2, (wrap_id 16 (_ mod 65536)) by (lia || apply (is_u_mod 16); lia).
  unfold wrap, token_pair. change (2 ^ 16) with 65536.
  destruct t as [c|c|c|cp]; simpl in *; zcases; repeat f_equal; lia.
Qed.

Lemma bytes_of_cons t ts : bytes_of (t :: ts) = token_bytes t ++ bytes_of ts.
Proof. done. Qed.

Lemma units_of_cons t ts : units_of (t :: ts) = token_units t ++ units_of ts.
Proof. done. Qed.

Lemma units_of_app ts ts' : units_of (ts ++ ts') = units_of ts ++ units_of ts'.
Proof. unfold units_of. by rewrite map_app, concat_app. Qed.

Lemma token_lengths t : (1 <= length (token_units t) <= length (token_bytes t))%nat.
Proof. destruct t; simpl; lia. Qed.

Lemma store_pair_spec t done_ xs rest :
  token_ok t -> length xs = length (token_units t) ->
  store_pair (done_ ++ xs ++ rest) (zlength done_) (token_pair t) =
    Some ((done_ ++ token_units t) ++ rest, zlength (done_ ++ token_units t)).
Proof.
  intros Hok Hl. pose proof (token_pair_units t Hok) as Hu. unfold store_pair.
  set (l := GetLeadingUtf16Char _) in *. set (r := GetTrailingUtf16Char _) in *. rewrite Hu in *. clear Hu.
  destruct (r =? 0); simpl in Hl.
  - destruct xs as [|x [|y xs]]; try done. simpl. rewrite awrite_app. cbn [mbind option_bind negb].
    rewrite <- app_assoc, length_app. simpl. do 2 f_equal. lia.
  - destruct xs as [|x [|y [|z xs]]]; try done. simpl. rewrite awrite_app. cbn [mbind option_bind negb].
    replace (zlength done_ + 1) with (zlength (done_ ++ [l])) by (rewrite length_app; simpl; lia).
    change (done_ ++ l :: y :: rest) with (done_ ++ [l] ++ y :: rest). rewrite app_assoc, awrite_app.
    cbn [mbind option_bind]. rewrite <- !app_assoc, !length_app. simpl. do 2 f_equal. lia.
Qed.

(** ** Decoding a string *)

Lemma convert_loop_spec ts fuel done_ xs rest mem p :
  Forall token_ok ts -> stored mem p (bytes_of ts) -> (length (bytes_of ts) <= fuel)%nat ->
  length xs = length (units_of ts) ->
  convert_loop fuel (done_ ++ xs ++ rest) (zlength done_) mem p (p + zlength (bytes_of ts)) =
    Some (done_ ++ units_of ts ++ rest).
Proof.
  revert fuel done_ xs p. induction ts as [|t ts IH]; intros fuel done_ xs p Hok Hst Hf Hx.
  - destruct xs; [|done]. destruct fuel; simpl; rewrite (proj2 (Z.ltb_ge _ _)) by lia; done.
  - apply Forall_cons_1 in Hok as [Ht Hts]. rewrite bytes_of_cons, units_of_cons in *. rewrite length_app in *.
    pose proof (token_lengths t). apply stored_app in Hst as [Hst Hst'].
    destruct fuel as [|fuel]; [lia|]. cbn [convert_loop]. rewrite (proj2 (Z.ltb_lt _ _)) by lia.
    rewrite (token_decode mem p t Ht Hst). cbn [mbind option_bind].
    rewrite <- (take_drop (length (token_units t)) xs), <- app_assoc.
    rewrite store_pair_spec by (done || rewrite length_take; lia). cbn [mbind option_bind].
    replace (p + Z.of_nat (length (token_bytes t) + length (bytes_of ts)))
      with (p + zlength (token_bytes t) + zlength (bytes_of ts)) by lia.
    rewrite IH by (done || rewrite ?length_drop; lia). by rewrite <- !app_assoc.
Qed.

Lemma convert_cstr_loop_spec ts fuel done_ xs rest mem p :
  Forall token_ok ts -> Forall token_nz ts -> stored mem p (bytes_of ts ++ [0]) ->
  (length (bytes_of ts) <= fuel)%nat -> length xs = length (units_of ts) ->
  convert_cstr_loop fuel (done_ ++ xs ++ rest) (zlength done_) mem p = Some (done_ ++ units_of ts ++ rest).
Proof.
  revert fuel done_ xs p. induction ts as [|t ts IH]; intros fuel done_ xs p Hok Hnz Hst Hf Hx.
  - destruct xs; [|done]. apply stored_cons in Hst as [Hr _]. destruct fuel; cbn [convert_cstr_loop]; by rewrite Hr.
  - apply Forall_cons_1 in Hok as [Ht Hts]. apply Forall_cons_1 in Hnz as [Hz Hnz].
    rewrite bytes_of_cons, units_of_cons in *. rewrite length_app in *. rewrite <- app_assoc in Hst.
    pose proof (token_lengths t). apply stored_app in Hst as [Hst Hst'].
    pose proof (token_bytes_nz t Ht Hz) as Hb. destruct (token_bytes t) as [|b r] eqn:Eb; [by destruct t|].
    pose proof Hst as Hst0. apply stored_cons in Hst0 as [Hr _]. apply Forall_cons_1 in Hb as [Hb _].
    destruct fuel as [|fuel]; [simpl in Hf; lia|]. cbn [convert_cstr_loop]. rewrite Hr. cbn [mbind option_bind].
    rewrite (proj2 (Z.eqb_neq b 0)) by done. rewrite <- Eb in *.
    rewrite (token_decode mem p t Ht Hst). cbn [mbind option_bind].
    rewrite <- (take_drop (length (token_units t)) xs), <- app_assoc.
    rewrite store_pair_spec by (done || rewrite length_take; lia). cbn [mbind option_bind].
    rewrite IH by (done || rewrite ?length_drop; lia). by rewrite <- !app_assoc.
Qed.

Lemma count_loop_spec ts fuel mem p len :
  Forall token_ok ts -> stored mem p (bytes_of ts) -> (length (bytes_of ts) <= fuel)%nat ->
  count_loop fuel mem p (p + zlength (bytes_of ts)) len = Some (len + zlength (units_of ts)).
Proof.
  revert fuel p len. induction ts as [|t ts IH]; intros fuel p len Hok Hst Hf.
  - destruct fuel; simpl; rewrite (proj2 (Z.ltb_ge _ _)) by lia; f_equal; lia.
  - apply Forall_cons_1 in Hok as [Ht Hts]. rewrite bytes_of_cons, units_of_cons, !length_app in *.
    pose proof (token_lengths t). apply stored_app in Hst as [Hst Hst'].
    destruct fuel as [|fuel]; [lia|]. cbn [count_loop]. rewrite (proj2 (Z.ltb_lt _ _)) by lia.
    destruct (token_bytes t) as [|b r] eqn:Eb; [by destruct t|].
    pose proof (lead_tests t b r Ht Eb) as [E80 Erest]. apply stored_cons in Hst as [Hr _].
    rewrite Hr. cbn [mbind option_bind]. rewrite E80. rewrite <- Eb in *. clear Hr Eb.
    specialize (IH fuel (p + zlength (token_bytes t))).
    replace (p + Z.of_nat (length (token_bytes t) + length (bytes_of ts)))
      with (p + zlength (token_bytes t) + zlength (bytes_of ts)) by lia.
    destruct t as [c|c|c|cp]; [|rewrite Erest|destruct Erest as [-> ->]|destruct Erest as [-> ->]];
      simpl token_bytes in *; simpl token_units in *; cbn [length] in *.
    + rewrite IH by (done || lia). f_equal. lia.
    + replace (p + 1 + 1) with (p + Z.of_nat 2) by lia. rewrite IH by (done || lia). f_equal. lia.
    + replace (p + 1 + 1 + 1) with (p + Z.of_nat 3) by lia. rewrite IH by (done || lia). f_equal. lia.
    + replace (p + 1 + 1 + 1 + 1) with (p + Z.of_nat 4) by lia. rewrite IH by (done || lia). f_equal. lia.
Qed.

Lemma cstrlen_spec bs rest : Forall (fun b => b <> 0) bs -> cstrlen (bs ++ 0 :: rest) = Some (zlength bs).
Proof.
  intros Hnz. unfold cstrlen.
  assert (H : forall xs fuel p, Forall (fun b => b <> 0) xs -> stored (bs ++ 0 :: rest) p (xs ++ [0]) ->
            (length xs <= fuel)%nat -> cstrlen_loop fuel (bs ++ 0 :: rest) p = Some (p + zlength xs)).
  { induction xs as [|x xs IH]; intros fuel p Hx Hst Hf.
    - apply stored_cons in Hst as [Hr _]. destruct fuel; cbn [cstrlen_loop]; rewrite Hr; simpl; f_equal; lia.
    - apply Forall_cons_1 in Hx as [Hx Hxs]. apply stored_cons in Hst as [Hr Hst].
      destruct fuel as [|fuel]; [simpl in Hf; lia|]. cbn [cstrlen_loop]. rewrite Hr. cbn [mbind option_bind].
      rewrite (proj2 (Z.eqb_neq x 0)) by done. rewrite IH by (done || simpl in Hf; lia). f_equal. simpl. lia. }
  rewrite (H bs); [f_equal; lia|done| |rewrite length_app; lia].
  split; [lia|]. exists [], rest. by rewrite <- app_assoc.
Qed.

(** Equal numbers of bytes and units: the string is plain ASCII. *)
Lemma equal_lengths_ascii ts :
  Forall token_ok ts -> (length (units_of ts) <= length (bytes_of ts))%nat /\
  (length (units_of ts) = length (bytes_of ts) -> bytes_of ts = units_of ts /\ Forall (fun c => 0 <= c < 128) (units_of ts)).
Proof.
  induction ts as [|t ts IH]; intros Hok; [done|]. apply Forall_cons_1 in Hok as [Ht Hts].
  destruct (IH Hts) as [Hle Heq]. rewrite bytes_of_cons, units_of_cons, !length_app. pose proof (token_lengths t).
  split; [lia|]. intros E. assert (length (units_of ts) = length (bytes_of ts)) as E' by lia.
  destruct (Heq E') as [-> Hf]. destruct t as [c|c|c|cp]; simpl in *; try lia. split; [done|]. by constructor.
Qed.

Lemma Forall_bytes_nz ts : Forall token_ok ts -> Forall token_nz ts -> Forall (fun b => b <> 0) (bytes_of ts).
Proof.
  induction ts as [|t ts IH]; intros Hok Hnz; [constructor|]. apply Forall_cons_1 in Hok as [Ht Hts].
  apply Forall_cons_1 in Hnz as [Hz Hnz]. rewrite bytes_of_cons. apply Forall_app. split; [by apply token_bytes_nz|auto].
Qed.

Lemma stored_start bs rest : stored (bs ++ rest) 0 bs.
Proof. exact (stored_at [] bs rest). Qed.

Lemma stored_string bs rest : stored (bs ++ 0 :: rest) 0 (bs ++ [0]).
Proof. change (0 :: rest) with ([0] ++ rest). rewrite app_assoc. apply stored_start. Qed.

Lemma ascii_char_value signed c : 0 <= c < 128 -> char_value signed c = c.
Proof. intros. destruct signed; [|done]. apply swrap_id; [lia|]. unfold is_s. lia. Qed.

Lemma ConvertModifiedUtf8ToUtf16_spec signed ts rest out :
  Forall token_ok ts -> length out = length (units_of ts) ->
  ConvertModifiedUtf8ToUtf16 signed out (zlength (units_of ts)) (bytes_of ts ++ rest) (zlength (bytes_of ts)) =
    Some (units_of ts).
Proof.
  intros Hok Hl. unfold ConvertModifiedUtf8ToUtf16. rewrite Nat2Z.id.
  destruct (Z.eqb_spec (zlength (units_of ts)) (zlength (bytes_of ts))) as [E|_].
  - destruct (equal_lengths_ascii ts Hok) as [_ Ha]. destruct (Ha ltac:(lia)) as [-> Hf].
    rewrite (copy_loop _ u16); [|lia|].
    + rewrite drop_ge, app_nil_r by lia. f_equal. rewrite <- (map_id (units_of ts)) at 2. apply map_ext_in.
      intros c Hc. rewrite List.Forall_forall in Hf. specialize (Hf c Hc). apply wrap_id. unfold is_u. lia.
    + intros j x l Hx. pose proof (aread_inv _ _ _ Hx) as Hj. rewrite Forall_aread in Hf. specialize (Hf j x Hx).
      rewrite aread_lookup in Hx by lia. rewrite aread_lookup, lookup_app_l, Hx by lia. cbn [mbind option_bind].
      rewrite ascii_char_value by done. rewrite (proj2 (Z.leb_le 0 x)) by lia. done.
  - pose proof (convert_loop_spec ts (length (bytes_of ts)) [] out [] (bytes_of ts ++ rest) 0 Hok
                  (stored_start _ _) ltac:(lia) Hl) as E. simpl in E. by rewrite !app_nil_r in E.
Qed.

(** ** Hashes *)

Definition java_hash (h : Z) (cs : list Z) : Z := foldl (fun h c => u32 (u32 (h * 31) + c)) h cs.

(** The polynomial of [String.hashCode]. *)
Definition hash_code (cs : list Z) : Z := s32 (foldl (fun h c => 31 * h + c) 0 cs).

Lemma java_hash_poly cs : s32 (java_hash 0 cs) = hash_code cs.
Proof.
  assert (H : forall h, java_hash (u32 h) cs = u32 (foldl (fun h c => 31 * h + c) h cs)).
  { induction cs as [|c cs IH]; intros h; [done|]. simpl. rewrite <- IH. unfold java_hash. simpl. f_equal.
    unfold wrap. rewrite Z.mul_mod_idemp_l, Z.add_mod_idemp_l by done. f_equal. lia. }
  unfold hash_code. specialize (H 0). change (u32 0) with 0 in H. rewrite H. unfold swrap, wrap.
  by rewrite Z.add_mod_idemp_l by done.
Qed.

Lemma hash_loop_spec cs mem p h : stored mem p cs -> hash_loop (length cs) mem p h = Some (java_hash h cs).
Proof.
  revert p h. induction cs as [|c cs IH]; intros p h Hst; [done|].
  apply stored_cons in Hst as [Hr Hst]. cbn [hash_loop length]. rewrite Hr. cbn [mbind option_bind]. by rewrite IH.
Qed.

Lemma hash_utf8_loop_spec ts fuel mem p h :
  Forall token_ok ts -> stored mem p (bytes_of ts) -> (length (units_of ts) <= fuel)%nat ->
  hash_utf8_loop fuel mem p (zlength (units_of ts)) h = Some (java_hash h (units_of ts)).
Proof.
  revert fuel p h. induction ts as [|t ts IH]; intros fuel p h Hok Hst Hf; [by destruct fuel|].
  apply Forall_cons_1 in Hok as [Ht Hts]. rewrite bytes_of_cons, units_of_cons in *. rewrite length_app in *.
  pose proof (token_lengths t). apply stored_app in Hst as [Hst Hst'].
  destruct fuel as [|fuel]; [lia|]. cbn [hash_utf8_loop]. rewrite (proj2 (Z.eqb_neq _ 0)) by lia. cbn [negb].
  rewrite (token_decode mem p t Ht Hst). cbn [mbind option_bind].
  pose proof (token_pair_units t Ht) as Hu. set (l := GetLeadingUtf16Char _) in *. set (r := GetTrailingUtf16Char _) in *.
  rewrite Hu in *. clear Hu. destruct (r =? 0); cbn [negb length app] in *.
  - replace (Z.of_nat (1 + length (units_of ts)) - 1) with (zlength (units_of ts)) by lia. by rewrite IH by (done || lia).
  - rewrite (proj2 (Z.eqb_neq _ 0)) by lia. cbn [negb dcheck mbind option_bind].
    replace (Z.of_nat (2 + length (units_of ts)) - 1 - 1) with (zlength (units_of ts)) by lia. by rewrite IH by (done || lia).
Qed.

(** C24: decoding. On every modified UTF-8 string, given as its tokens, the
    number of units is counted, both converters fill a buffer of exactly that
    many units with the units of the tokens, reading nothing past the string
    and writing nothing past the buffer, and the hash taken from the bytes and
    the hash of the decoded string are both [String.hashCode]. *)
Theorem modified_utf8_decoding signed ts rest out
    (Hok : Forall token_ok ts) (Hnz : Forall token_nz ts) (Hl : length out = length (units_of ts)) :
  let utf8 := bytes_of ts ++ 0 :: rest in
  CountModifiedUtf8Chars utf8 (zlength (bytes_of ts)) = Some (zlength out) /\
  CountModifiedUtf8Chars_cstr utf8 = Some (zlength out) /\
  ConvertModifiedUtf8ToUtf16 signed out (zlength out) utf8 (zlength (bytes_of ts)) = Some (units_of ts) /\
  ConvertModifiedUtf8ToUtf16_cstr out utf8 = Some (units_of ts) /\
  ComputeUtf16HashFromModifiedUtf8 utf8 (zlength out) = Some (hash_code (units_of ts)) /\
  ComputeUtf16Hash (units_of ts) (zlength out) = Some (hash_code (units_of ts)).
Proof.
  intros utf8. pose proof (Forall_bytes_nz ts Hok Hnz) as Hb.
  assert (Hc : CountModifiedUtf8Chars utf8 (zlength (bytes_of ts)) = Some (zlength out)).
  { unfold CountModifiedUtf8Chars, utf8. rewrite cstrlen_spec by done. cbn [mbind option_bind].
    rewrite Z.leb_refl. cbn [dcheck mbind option_bind].
    pose proof (count_loop_spec ts (length (bytes_of ts ++ 0 :: rest)) (bytes_of ts ++ 0 :: rest) 0 0 Hok) as E.
    rewrite !Z.add_0_l in E. rewrite E; [by rewrite Hl|apply stored_start|rewrite length_app; lia]. }
  split; [done|]. split; [|split; [|split]].
  - unfold CountModifiedUtf8Chars_cstr, utf8. by rewrite cstrlen_spec by done.
  - rewrite Hl. by apply ConvertModifiedUtf8ToUtf16_spec.
  - unfold ConvertModifiedUtf8ToUtf16_cstr.
    pose proof (convert_cstr_loop_spec ts (length utf8) [] out [] utf8 0 Hok Hnz (stored_string _ _)) as E.
    simpl in E. rewrite !app_nil_r in E. apply E; [unfold utf8; rewrite length_app; lia|done].
  - unfold ComputeUtf16HashFromModifiedUtf8, ComputeUtf16Hash. rewrite Nat2Z.id, Hl.
    rewrite (hash_utf8_loop_spec ts) by (done || apply stored_start || lia).
    rewrite (hash_loop_spec (units_of ts)).
    + cbn [mbind option_bind]. by rewrite java_hash_poly.
    + pose proof (stored_start (units_of ts) []) as Hs. by rewrite app_nil_r in Hs.
Qed.

(** "A", U+0000, "e" with an acute accent, the euro sign and U+10437. *)
Definition example_tokens : list token := [One 65; Two 0; Two 0xe9; Three 0x20ac; Four 0x10437].

Lemma modified_utf8_decoding_witness :
  let utf8 := bytes_of example_tokens ++ 0 :: [1; 2] in
  CountModifiedUtf8Chars utf8 (zlength (bytes_of example_tokens)) = Some (zlength (replicate 6 7)) /\
  CountModifiedUtf8Chars_cstr utf8 = Some (zlength (replicate 6 7)) /\
  ConvertModifiedUtf8ToUtf16 true (replicate 6 7) (zlength (replicate 6 7)) utf8 (zlength (bytes_of example_tokens)) =
    Some (units_of example_tokens) /\
  ConvertModifiedUtf8ToUtf16_cstr (replicate 6 7) utf8 = Some (units_of example_tokens) /\
  ComputeUtf16HashFromModifiedUtf8 utf8 (zlength (replicate 6 7)) = Some (hash_code (units_of example_tokens)) /\
  ComputeUtf16Hash (units_of example_tokens) (zlength (replicate 6 7)) = Some (hash_code (units_of example_tokens)).
Proof.
  apply (modified_utf8_decoding true example_tokens [1; 2] (replicate 6 7)).
  - unfold example_tokens. repeat constructor; simpl; lia.
  - unfold example_tokens. repeat constructor; discriminate.
  - reflexivity.
Defined.

(** ** Encoding *)

Lemma surrogate_tests ch : is_u 16 ch ->
  is_lead ch = (0xd800 <=? ch) && (ch <? 0xdc00) /\ is_trail ch = (0xdc00 <=? ch) && (ch <? 0xe000) /\
  is_surrogate ch = (0xd800 <=? ch) && (ch <? 0xe000) /\
  (is_surrogate ch = true -> is_surrogate_lead ch = is_lead ch).
Proof.
  intros Hc. pose proof Hc as [Hc0 Hc1]. change (2 ^ 16) with 65536 in Hc1.
  assert (E10 : Z.land ch 0xfc00 = ch / 1024 * 1024).
  { transitivity (Z.shiftl (Z.shiftr ch 10) 10).
    - change 0xfc00 with (Z.shiftl (Z.ones 6) 10). bits.
    - rewrite Z.shiftl_mul_pow2, Z.shiftr_div_pow2 by lia. done. }
  assert (E11 : Z.land ch 0xf800 = ch / 2048 * 2048).
  { transitivity (Z.shiftl (Z.shiftr ch 11) 11).
    - change 0xf800 with (Z.shiftl (Z.ones 5) 11). bits.
    - rewrite Z.shiftl_mul_pow2, Z.shiftr_div_pow2 by lia. done. }
  unfold is_lead, is_trail, is_surrogate, is_surrogate_lead. rewrite E10, E11.
  change 0x0400 with (2 ^ 10). rewrite (land_bit_eqb ch 10) by lia. change (2 ^ 10) with 1024.
  repeat split; zcases; try done; intros; zcases; done.
Qed.

Lemma get_supplementary_spec lead trail :
  is_u 16 lead -> is_u 16 trail -> is_lead lead = true -> is_trail trail = true ->
  get_supplementary lead trail = (lead - 0xd800) * 1024 + (trail - 0xdc00) + 0x10000.
Proof.
  intros Hl Ht El Et. destruct (surrogate_tests lead Hl) as [E _]. rewrite E in El.
  destruct (surrogate_tests trail Ht) as (_ & E' & _). rewrite E' in Et.
  unfold get_supplementary. change (u32 (u32 (Z.shiftl 0xd800 10) + 0xdc00 - 0x10000)) with 56613888.
  rewrite Z.shiftl_mul_pow2 by lia. change (2 ^ 10) with 1024.
  rewrite (wrap_id 32 (lead * 1024)) by (unfold is_u in *; lia). rewrite wrap_id by (unfold is_u in *; lia). lia.
Qed.

Lemma pair_token_ok lead trail :
  is_u 16 lead -> is_u 16 trail -> is_lead lead && is_trail trail = true ->
  token_ok (Four (get_supplementary lead trail)) /\
  token_units (Four (get_supplementary lead trail)) = [lead; trail].
Proof.
  intros Hl Ht [El Et]%andb_prop. simpl. rewrite get_supplementary_spec by done.
  destruct (surrogate_tests lead Hl) as [E _]. rewrite E in El.
  destruct (surrogate_tests trail Ht) as (_ & E' & _). rewrite E' in Et.
  split; [lia|]. f_equal; [lia|]. f_equal. lia.
Qed.

(** The tokens the encoder writes for a sequence of units. *)
Section Tokens.

Context (kUseShortZero kUse4ByteSequence kReplaceBadSurrogates : bool).

Fixpoint tokens (utf16 : list Z) : list token :=
  match utf16 with
  | [] => []
  | ch :: rest =>
      if (ch <? 0x80) && (kUseShortZero || negb (ch =? 0)) then One ch :: tokens rest
      else if ch <? 0x800 then Two ch :: tokens rest
      else
        let single := if kReplaceBadSurrogates && is_surrogate ch then One 63 else Three ch in
        match rest with
        | trail :: rest' =>
            if (kUse4ByteSequence || kReplaceBadSurrogates) && is_lead ch && is_trail trail
            then Four (get_supplementary ch trail) :: tokens rest'
            else single :: tokens rest
        | [] => [single]
        end
  end.

Lemma tokens_ok utf16 : Forall (is_u 16) utf16 -> Forall token_ok (tokens utf16).
Proof.
  induction utf16 as [utf16 IH] using (induction_ltof1 _ (@length Z)). unfold ltof in IH. intros Hu.
  destruct utf16 as [|ch rest]; [constructor|]. apply Forall_cons_1 in Hu as [Hc Hu]. cbn [tokens].
  assert (Hrest : Forall token_ok (tokens rest)) by (apply IH; [simpl; lia|done]).
  destruct ((ch <? 0x80) && _) eqn:E1; [constructor; [unfold is_u in Hc; simpl; lia|done]|].
  destruct (Z.ltb_spec ch 0x800); [constructor; [unfold is_u in Hc; simpl; lia|done]|].
  assert (Hs : token_ok (if kReplaceBadSurrogates && is_surrogate ch then One 63 else Three ch)).
  { destruct (_ && is_surrogate ch); simpl; [lia|]. unfold is_u in Hc. lia. }
  destruct rest as [|trail rest']; [by repeat constructor|].
  apply Forall_cons_1 in Hu as [Ht Hu].
  destruct (_ && is_lead ch && is_trail trail) eqn:E2; [|by constructor].
  rewrite <- andb_assoc in E2. apply andb_prop in E2 as [_ E2].
  constructor; [by apply pair_token_ok|apply IH; [simpl; lia|done]].
Qed.

Lemma tokens_nz utf16 : kUseShortZero = false -> Forall token_nz (tokens utf16).
Proof.
  intros Hz. induction utf16 as [utf16 IH] using (induction_ltof1 _ (@length Z)). unfold ltof in IH.
  destruct utf16 as [|ch rest]; [constructor|]. cbn [tokens]. rewrite Hz.
  assert (Hrest : Forall token_nz (tokens rest)) by (apply IH; simpl; lia).
  destruct ((ch <? 0x80) && _) eqn:E1.
  { constructor; [|done]. intros E. injection E as ->. done. }
  destruct (Z.ltb_spec ch 0x800); [by constructor|].
  assert (Hs : token_nz (if kReplaceBadSurrogates && is_surrogate ch then One 63 else Three ch))
    by (by destruct (_ && is_surrogate ch)).
  destruct rest as [|trail rest']; [by repeat constructor|].
  destruct (_ && is_lead ch && is_trail trail) eqn:E2; [|by constructor].
  constructor; [done|]. apply IH. simpl. lia.
Qed.

End Tokens.

(** The units with every surrogate that is not part of a pair replaced. *)
Fixpoint replace_bad (utf16 : list Z) : list Z :=
  match utf16 with
  | [] => []
  | ch :: rest =>
      match rest with
      | trail :: rest' =>
          if is_lead ch && is_trail trail then ch :: trail :: replace_bad rest'
          else (if is_surrogate ch then 63 else ch) :: replace_bad rest
      | [] => [if is_surrogate ch then 63 else ch]
      end
  end.

(** The units of the tokens: the string itself, or the string without bad
    surrogates. *)
Lemma tokens_units short four repl utf16 : Forall (is_u 16) utf16 ->
  units_of (tokens short four repl utf16) = if repl then replace_bad utf16 else utf16.
Proof.
  induction utf16 as [utf16 IH] using (induction_ltof1 _ (@length Z)). unfold ltof in IH. intros Hu.
  destruct utf16 as [|ch rest]; [by destruct repl|]. apply Forall_cons_1 in Hu as [Hc Hu]. cbn [tokens].
  assert (Hrest : units_of (tokens short four repl rest) = if repl then replace_bad rest else rest)
    by (apply IH; [simpl; lia|done]).
  destruct (surrogate_tests ch Hc) as (El & _ & Es & _).
  assert (Hlow : ch < 0x800 -> (if repl then ch :: replace_bad rest else ch :: rest) =
            if repl then replace_bad (ch :: rest) else ch :: rest).
  { intros Hlt. destruct repl; [|done]. cbn [replace_bad]. rewrite El, Es, (proj2 (Z.leb_gt _ ch)) by lia.
    by destruct rest. }
  destruct ((ch <? 0x80) && _) eqn:E1.
  { rewrite <- Hlow by lia. rewrite units_of_cons, Hrest. by destruct repl. }
  destruct (Z.ltb_spec ch 0x800); [rewrite <- Hlow by lia; rewrite units_of_cons, Hrest; by destruct repl|].
  destruct rest as [|trail rest'].
  { cbn [replace_bad]. destruct repl; simpl; [|done]. by destruct (is_surrogate ch). }
  pose proof Hu as Hu'. apply Forall_cons_1 in Hu' as [Ht Hu']. cbn [replace_bad].
  destruct (is_lead ch && is_trail trail) eqn:E2.
  - destruct (pair_token_ok ch trail Hc Ht E2) as [_ Epair]. rewrite <- andb_assoc, E2, andb_true_r. destruct (four || repl) eqn:Ef.
    + rewrite units_of_cons, Epair, IH by (done || simpl; lia). by destruct repl.
    + destruct repl; [by rewrite orb_true_r in Ef|]. rewrite units_of_cons, Hrest. done.
  - rewrite <- andb_assoc, E2, andb_false_r, units_of_cons, Hrest. destruct repl; [|done].
    cbn [andb]. by destruct (is_surrogate ch).
Qed.

Section Emit.

Context {A : Type} (append : A -> Z -> option A).

Definition emit (a : option A) (bytes : list Z) : option A := foldl (fun a c => a ← a; append a c) a bytes.

Lemma emit_app a xs ys : emit a (xs ++ ys) = emit (emit a xs) ys.
Proof. apply foldl_app. Qed.

Lemma append_all_token a t : token_ok t -> append_all append a (token_bytes t) = emit (Some a) (token_bytes t).
Proof.
  intros Hok. unfold append_all, emit. pose proof (token_bytes_are_bytes t Hok) as Hb.
  revert Hb. generalize (token_bytes t), (Some a). intros bs.
  induction bs as [|b bs IH]; intros o Hb; [done|]. apply Forall_cons_1 in Hb as [Hb Hbs]. simpl.
  rewrite IH by done. destruct o; simpl; [by rewrite wrap_id|done].
Qed.

Lemma emit_none bs : emit None bs = None.
Proof. by induction bs. Qed.

(** One turn of the loop that writes the token [t]. *)
Lemma emit_turn t (k : A -> option A) a ts :
  token_ok t -> (forall a, k a = emit (Some a) (bytes_of ts)) ->
  mbind (M := option) k (append_all append a (token_bytes t)) = emit (Some a) (bytes_of (t :: ts)).
Proof.
  intros Hok Hk. rewrite append_all_token, bytes_of_cons, emit_app by done.
  destruct (emit (Some a) (token_bytes t)) as [a'|]; simpl; [apply Hk|by rewrite emit_none].
Qed.

Lemma has_trail_spec utf16 i ch rest :
  stored utf16 i (ch :: rest) ->
  has_trail utf16 (i + zlength (ch :: rest)) i =
    Some (match rest with trail :: _ => is_trail trail | [] => false end).
Proof.
  intros Hst. unfold has_trail. destruct rest as [|trail rest]; simpl.
  - by rewrite Z.eqb_refl.
  - rewrite (proj2 (Z.eqb_neq _ _)) by lia. apply stored_cons in Hst as [_ Hst].
    apply stored_cons in Hst as [-> _]. done.
Qed.

Context (short four repl : bool).

(** The turn for a unit from [0x800] on that has a next unit. *)
Lemma wide_turn ch trail k1 k2 a ts1 ts2 :
  is_u 16 ch -> is_u 16 trail -> 0x800 <= ch ->
  (forall a, k1 a = emit (Some a) (bytes_of ts1)) -> (forall a, k2 a = emit (Some a) (bytes_of ts2)) ->
  mbind (M := option) (fun surrogate : bool =>
    if surrogate then
      mbind (M := option) (fun bad : bool =>
        if bad then mbind (M := option) k1 (append_all append a [63])
        else
          let code_point := get_supplementary ch trail in
          mbind (M := option) k2
            (append_all append a [Z.lor (Z.shiftr code_point 18) 0xf0;
                                  Z.lor (Z.land (Z.shiftr code_point 12) 0x3f) 0x80;
                                  Z.lor (Z.land (Z.shiftr code_point 6) 0x3f) 0x80;
                                  Z.lor (Z.land code_point 0x3f) 0x80]))
        (if repl then if negb (is_surrogate_lead ch) then Some true else Some (negb (is_trail trail)) else Some false)
    else mbind (M := option) k1 (append_all append a (token_bytes (Three ch))))
    (if repl then Some (is_surrogate ch) else if four && is_lead ch then Some (is_trail trail) else Some false) =
  emit (Some a) (bytes_of
    (if (four || repl) && is_lead ch && is_trail trail then Four (get_supplementary ch trail) :: ts2
     else (if repl && is_surrogate ch then One 63 else Three ch) :: ts1)).
Proof.
  intros Hc Ht Hge Hk1 Hk2. destruct (surrogate_tests ch Hc) as (El & _ & Es & Esl).
  assert (Hok3 : token_ok (Three ch)) by exact Hc. assert (Hok1 : token_ok (One 63)) by (simpl; lia).
  destruct (is_lead ch) eqn:El'.
  - assert (Es' : is_surrogate ch = true) by (rewrite Es; lia). rewrite Es', Esl by done. clear Es Esl El.
    destruct (is_trail trail) eqn:Et.
    + assert (Hok4 : token_ok (Four (get_supplementary ch trail))) by (apply pair_token_ok; [done|done|by rewrite El', Et]).
      cbv zeta. rewrite bytes_split4 by exact Hok4.
      destruct repl, four; cbn [negb andb orb mbind option_bind]; by apply emit_turn.
    + destruct repl, four; cbn [negb andb orb mbind option_bind]; by apply (emit_turn (One 63)) || by apply emit_turn.
  - destruct repl, four; cbn [negb andb orb mbind option_bind]; try by apply emit_turn.
    all: destruct (is_surrogate ch); cbn [mbind option_bind]; [|by apply emit_turn].
    all: rewrite Esl by done; by apply (emit_turn (One 63)).
Qed.

Lemma ConvertUtf16ToUtf8_loop_spec utf16 suf fuel i a :
  Forall (is_u 16) suf -> stored utf16 i suf -> (length suf <= fuel)%nat ->
  ConvertUtf16ToUtf8_loop short four repl append fuel utf16 (i + zlength suf) i a =
    emit (Some a) (bytes_of (tokens short four repl suf)).
Proof.
  revert suf fuel i a. induction suf as [suf IH] using (induction_ltof1 _ (@length Z)). unfold ltof in IH.
  intros fuel i a Hu Hst Hf. pose proof (tokens_ok short four repl suf Hu) as Hok.
  destruct suf as [|ch rest]; [destruct fuel; simpl; by rewrite (proj2 (Z.ltb_ge _ _)) by lia|].
  destruct fuel as [|fuel]; [simpl in Hf; lia|]. pose proof (has_trail_spec utf16 i ch rest Hst) as Ht.
  cbn [ConvertUtf16ToUtf8_loop]. rewrite (proj2 (Z.ltb_lt i _)) by (simpl; lia).
  pose proof Hst as Hst0. apply stored_cons in Hst0 as [Hr Hst']. rewrite Hr. cbn [mbind option_bind].
  pose proof Hu as Hu0. apply Forall_cons_1 in Hu0 as [Hc Hu'].
  assert (Hnext : forall a, ConvertUtf16ToUtf8_loop short four repl append fuel utf16 (i + zlength (ch :: rest)) (i + 1) a =
            emit (Some a) (bytes_of (tokens short four repl rest))).
  { intros a'. replace (i + zlength (ch :: rest)) with (i + 1 + zlength rest) by (simpl; lia).
    apply IH; simpl in *; (done || lia). }
  cbn [tokens] in *. destruct ((ch <? 0x80) && _).
  { apply Forall_cons_1 in Hok as [Hok _]. by apply (emit_turn (One ch)). }
  destruct (Z.ltb_spec ch 0x800).
  { apply Forall_cons_1 in Hok as [Hok _]. rewrite bytes_split2 by (unfold is_u in Hc; lia). by apply emit_turn. }
  rewrite Ht. rewrite bytes_split3 by exact Hc. cbn [mbind option_bind]. destruct rest as [|trail rest'].
  - apply Forall_cons_1 in Hok as [Hok _]. destruct repl; cbn [andb orb negb mbind option_bind] in *.
    + destruct (is_surrogate ch); cbn [mbind option_bind]; [|by apply emit_turn].
      destruct (negb (is_surrogate_lead ch)); by apply (emit_turn (One 63)).
    + destruct (four && is_lead ch); by apply (emit_turn (Three ch)).
  - apply Forall_cons_1 in Hu' as [Htr Hu']. apply stored_cons in Hst' as [Hr' Hst']. rewrite Hr'. cbn [mbind option_bind].
    apply (wide_turn ch trail (ConvertUtf16ToUtf8_loop short four repl append fuel utf16 _ (i + 1))
             (ConvertUtf16ToUtf8_loop short four repl append fuel utf16 _ (i + 1 + 1))); try done.
    intros a'. replace (i + zlength (ch :: trail :: rest')) with (i + 1 + 1 + zlength rest') by (simpl; lia).
    apply IH; simpl in *; (done || lia).
Qed.

End Emit.

Lemma ConvertUtf16ToUtf8_spec {A} (append : A -> Z -> option A) short four repl chars a :
  Forall (is_u 16) chars ->
  ConvertUtf16ToUtf8 short four repl append chars (zlength chars) a =
    emit append (Some a) (bytes_of (tokens short four repl chars)).
Proof.
  intros Hu. unfold ConvertUtf16ToUtf8. rewrite Nat2Z.id.
  rewrite <- (ConvertUtf16ToUtf8_loop_spec append short four repl chars chars (length chars) 0 a); [done|done| |lia].
  pose proof (stored_start chars []) as Hs. by rewrite app_nil_r in Hs.
Qed.

Lemma emit_count bs r : emit (fun r (_ : Z) => Some (r + 1)) (Some r) bs = Some (r + zlength bs).
Proof.
  revert r. induction bs as [|b bs IH]; intros r; simpl; [f_equal; lia|].
  change (foldl _ _ bs) with (emit (fun r (_ : Z) => Some (r + 1)) (Some (r + 1)) bs). rewrite IH. f_equal. lia.
Qed.

Lemma emit_list bs l : emit (fun l c => Some (l ++ [c])) (Some l) bs = Some (l ++ bs).
Proof.
  revert l. induction bs as [|b bs IH]; intros l; simpl; [by rewrite app_nil_r|].
  change (foldl _ _ bs) with (emit (fun l c => Some (l ++ [c])) (Some (l ++ [b])) bs). rewrite IH. by rewrite <- app_assoc.
Qed.

Lemma emit_write bs done_ xs rest : length xs = length bs ->
  emit write_char (Some (done_ ++ xs ++ rest, zlength done_)) bs = Some (done_ ++ bs ++ rest, zlength (done_ ++ bs)).
Proof.
  revert done_ xs. induction bs as [|b bs IH]; intros done_ xs Hl; destruct xs as [|x xs]; try done.
  - simpl. by rewrite app_nil_r.
  - unfold emit. cbn [foldl mbind option_bind write_char app]. rewrite awrite_app. cbn [mbind option_bind].
    specialize (IH (done_ ++ [b]) xs ltac:(simpl in Hl; lia)). rewrite <- !app_assoc in IH. cbn [app] in IH.
    replace (zlength done_ + 1) with (zlength (done_ ++ [b])) by (rewrite length_app; simpl; lia). exact IH.
Qed.

Lemma ConvertUtf16ToModifiedUtf8_spec signed chars out :
  Forall (is_u 16) chars -> length out = length (bytes_of (tokens false true false chars)) ->
  ConvertUtf16ToModifiedUtf8 signed out (zlength out) chars (zlength chars) =
    Some (bytes_of (tokens false true false chars)).
Proof.
  intros Hu Hl. unfold ConvertUtf16ToModifiedUtf8. rewrite Nat2Z.id.
  pose proof (tokens_units false true false chars Hu) as Eu. pose proof (tokens_ok false true false chars Hu) as Hok.
  destruct (Z.eqb_spec (zlength out) (zlength chars)) as [E|_].
  - destruct (equal_lengths_ascii _ Hok) as [_ Ha]. rewrite Eu in Ha. destruct (Ha ltac:(lia)) as [-> Hf].
    rewrite (copy_loop _ u8); [|lia|].
    + rewrite drop_ge, app_nil_r by lia. f_equal. rewrite <- (map_id chars) at 2. apply map_ext_in.
      intros c Hc. rewrite List.Forall_forall in Hf. specialize (Hf c Hc). apply wrap_id. unfold is_u. lia.
    + intros j x l Hx. rewrite Forall_aread in Hf. specialize (Hf j x Hx). rewrite Hx. cbn [mbind option_bind].
      rewrite (proj2 (Z.leb_le x _)) by (destruct signed; lia). done.
  - rewrite ConvertUtf16ToUtf8_spec by done.
    pose proof (emit_write (bytes_of (tokens false true false chars)) [] out [] Hl) as E.
    simpl in E. rewrite !app_nil_r in E. change (Z.of_nat 0) with 0 in E. by rewrite E.
Qed.

(** C23: encoding and back. For every UTF-16 string, surrogates paired or not,
    the byte count of [CountModifiedUtf8BytesInUtf16] is exactly what
    [ConvertUtf16ToModifiedUtf8] writes into a buffer of that size; the output
    has no zero byte, and counting and decoding it gives back the length and
    the units of the string. *)
Theorem modified_utf8_roundtrip signed chars (Hu : Forall (is_u 16) chars) :
  exists bytes,
    CountModifiedUtf8BytesInUtf16 chars (zlength chars) = Some (zlength bytes) /\
    (forall out, length out = length bytes ->
       ConvertUtf16ToModifiedUtf8 signed out (zlength out) chars (zlength chars) = Some bytes) /\
    Forall (fun b => b <> 0) bytes /\
    (forall rest, CountModifiedUtf8Chars_cstr (bytes ++ 0 :: rest) = Some (zlength chars)) /\
    (forall out rest, length out = length chars ->
       ConvertModifiedUtf8ToUtf16 signed out (zlength out) (bytes ++ rest) (zlength bytes) = Some chars).
Proof.
  pose proof (tokens_units false true false chars Hu) as Eu. pose proof (tokens_ok false true false chars Hu) as Hok.
  pose proof (tokens_nz false true false chars eq_refl) as Hnz. pose proof (Forall_bytes_nz _ Hok Hnz) as Hb.
  exists (bytes_of (tokens false true false chars)). split; [|split; [|split; [done|split]]].
  - unfold CountModifiedUtf8BytesInUtf16. rewrite ConvertUtf16ToUtf8_spec by done. apply emit_count.
  - intros out Hl. by apply ConvertUtf16ToModifiedUtf8_spec.
  - intros rest. unfold CountModifiedUtf8Chars_cstr, CountModifiedUtf8Chars. rewrite cstrlen_spec by done.
    cbn [mbind option_bind]. rewrite Z.leb_refl.
    cbn [dcheck mbind option_bind].
    pose proof (count_loop_spec _ (length (bytes_of (tokens false true false chars) ++ 0 :: rest))
                  (bytes_of (tokens false true false chars) ++ 0 :: rest) 0 0 Hok) as E.
    rewrite !Z.add_0_l, Eu in E. apply E; [apply stored_start|rewrite length_app; lia].
  - intros out rest Hl. rewrite <- Eu in Hl. rewrite Hl, ConvertModifiedUtf8ToUtf16_spec by done. by rewrite Eu.
Qed.

(** A lone trail, a pair, a lone lead and zero. *)
Definition example_units : list Z := [0xdc00; 0xd801; 0xdc37; 0xd800; 0; 97].

Lemma modified_utf8_roundtrip_witness :
  exists bytes,
    CountModifiedUtf8BytesInUtf16 example_units (zlength example_units) = Some (zlength bytes) /\
    (forall out, length out = length bytes ->
       ConvertUtf16ToModifiedUtf8 true out (zlength out) example_units (zlength example_units) = Some bytes) /\
    Forall (fun b => b <> 0) bytes /\
    (forall rest, CountModifiedUtf8Chars_cstr (bytes ++ 0 :: rest) = Some (zlength example_units)) /\
    (forall out rest, length out = length example_units ->
       ConvertModifiedUtf8ToUtf16 true out (zlength out) (bytes ++ rest) (zlength bytes) = Some example_units).
Proof.
  apply (modified_utf8_roundtrip true example_units). unfold example_units. repeat constructor; unfold is_u; lia.
Defined.

(** C26: the encodings the template offers. Whatever the choice for U+0000 and
    for surrogate pairs, the encoder run to a string succeeds and decoding its
    output gives the original units; with replacement of bad surrogates it
    gives the units with each unpaired surrogate turned into a question mark. *)
Theorem utf8_encodings_decode (signed short four repl : bool) (chars out : list Z) (Hu : Forall (is_u 16) chars)
    (Hl : length out = length (if repl then replace_bad chars else chars)) :
  exists bytes,
    ConvertUtf16ToUtf8 short four repl (fun s c => Some (s ++ [c])) chars (zlength chars) [] = Some bytes /\
    ConvertModifiedUtf8ToUtf16 signed out (zlength out) bytes (zlength bytes) =
      Some (if repl then replace_bad chars else chars).
Proof.
  pose proof (tokens_units short four repl chars Hu) as Eu. pose proof (tokens_ok short four repl chars Hu) as Hok.
  exists (bytes_of (tokens short four repl chars)). rewrite ConvertUtf16ToUtf8_spec by done. split; [apply emit_list|].
  rewrite <- Eu in *. rewrite Hl. pose proof (ConvertModifiedUtf8ToUtf16_spec signed _ [] out Hok Hl) as E.
  by rewrite app_nil_r in E.
Qed.

Lemma utf8_encodings_decode_witness :
  exists bytes,
    ConvertUtf16ToUtf8 true true true (fun s c => Some (s ++ [c])) example_units (zlength example_units) [] = Some bytes /\
    ConvertModifiedUtf8ToUtf16 false (replicate 6 0) (zlength (replicate 6 0)) bytes (zlength bytes) =
      Some (replace_bad example_units).
Proof.
  apply (utf8_encodings_decode false true true true example_units (replicate 6 0)).
  - unfold example_units. repeat constructor; unfold is_u; lia.
  - reflexivity.
Defined.

(** ** Comparison *)

(** Lexicographic comparison of units. *)
Fixpoint lex_compare (a b : list Z) : Z :=
  match a, b with
  | [], [] => 0
  | [], _ :: _ => -1
  | _ :: _, [] => 1
  | x :: a', y :: b' => if x =? y then lex_compare a' b' else if x >? y then 1 else -1
  end.

(** The first byte of a string of tokens: zero exactly at its end. *)
Lemma first_byte mem p ts :
  Forall token_ok ts -> Forall token_nz ts -> stored mem p (bytes_of ts ++ [0]) ->
  exists c, aread mem p = Some c /\
    match ts with
    | [] => c = 0
    | t :: ts' => c <> 0 /\ token_ok t /\ Forall token_ok ts' /\ Forall token_nz ts' /\
        stored mem p (token_bytes t) /\ stored mem (p + zlength (token_bytes t)) (bytes_of ts' ++ [0])
    end.
Proof.
  intros Hok Hnz Hst. destruct ts as [|t ts].
  - apply stored_cons in Hst as [Hr _]. by exists 0.
  - apply Forall_cons_1 in Hok as [Ht Hts]. apply Forall_cons_1 in Hnz as [Hz Hnz].
    rewrite bytes_of_cons, <- app_assoc in Hst. apply stored_app in Hst as [Hst Hst'].
    pose proof (token_bytes_nz t Ht Hz) as Hb. destruct (token_bytes t) as [|b r] eqn:Eb; [by destruct t|].
    pose proof Hst as Hst0. apply stored_cons in Hst0 as [Hr _]. apply Forall_cons_1 in Hb as [Hb _]. by exists b.
Qed.

Lemma compare_utf16_loop_spec ts fuel mem p utf16 q us :
  Forall token_ok ts -> Forall token_nz ts -> stored mem p (bytes_of ts ++ [0]) -> stored utf16 q us ->
  (length ts <= fuel)%nat ->
  compare_utf16_loop fuel mem p utf16 q (zlength us) = Some (lex_compare (units_of ts) us).
Proof.
  revert fuel p q us. induction ts as [|t ts IH]; intros fuel p q us Hok Hnz Hst Hus Hf;
    destruct (first_byte _ _ _ Hok Hnz Hst) as (c & Hr & Hc).
  - subst c. destruct fuel; cbn [compare_utf16_loop]; rewrite Hr; cbn [mbind option_bind]; by destruct us.
  - destruct Hc as (Hc & Ht & Hts & Hnz' & Hst1 & Hst2). destruct fuel as [|fuel]; [simpl in Hf; lia|].
    cbn [compare_utf16_loop]. rewrite Hr. cbn [mbind option_bind]. rewrite (proj2 (Z.eqb_neq c 0)) by done.
    rewrite units_of_cons, (token_pair_units t Ht). cbn [app lex_compare].
    destruct us as [|u us]; [done|]. rewrite (proj2 (Z.eqb_neq (zlength (u :: us)) 0)) by (simpl; lia).
    rewrite (token_decode mem p t Ht Hst1). cbn [mbind option_bind].
    apply stored_cons in Hus as [Hru Hus]. rewrite Hru. cbn [mbind option_bind].
    destruct (Z.eqb_spec (GetLeadingUtf16Char (token_pair t)) u) as [E|E]; cbn [negb]; [|done].
    replace (zlength (u :: us) - 1) with (zlength us) by (simpl; lia).
    destruct (Z.eqb_spec (GetTrailingUtf16Char (token_pair t)) 0) as [E0|E0]; cbn [negb app].
    + apply IH; try done. simpl in Hf. lia.
    + destruct us as [|v us]; [done|]. rewrite (proj2 (Z.eqb_neq (zlength (v :: us)) 0)) by (simpl; lia).
      apply stored_cons in Hus as [Hrv Hus]. rewrite Hrv. cbn [mbind option_bind lex_compare].
      destruct (Z.eqb_spec (GetTrailingUtf16Char (token_pair t)) v) as [E1|E1]; cbn [negb]; [|done].
      replace (zlength (v :: us) - 1) with (zlength us) by (simpl; lia). apply IH; try done. simpl in Hf. lia.
Qed.

(** [uniform]: there are no four-byte sequences, or no leading surrogates
    (U+D800 to U+DBFF, alone or in a pair) written as three bytes. *)
Definition four_free (t : token) : Prop := match t with Four _ => False | _ => True end.
Definition pair_free (t : token) : Prop := match t with Three c => ~ 0xd800 <= c < 0xdc00 | _ => True end.
Definition uniform (ts : list token) : Prop := Forall four_free ts \/ Forall pair_free ts.

Lemma token_pair_unit t : token_ok t -> is_u 16 (GetLeadingUtf16Char (token_pair t)) /\
  is_u 16 (GetTrailingUtf16Char (token_pair t)).
Proof. intros _. split; apply wrap_is_u; lia. Qed.

(** Two tokens with the same first unit are both pairs or both single. *)
Lemma token_clash t1 t2 :
  token_ok t1 -> token_ok t2 -> (four_free t2 \/ pair_free t1) ->
  GetLeadingUtf16Char (token_pair t1) = GetLeadingUtf16Char (token_pair t2) ->
  GetTrailingUtf16Char (token_pair t1) = 0 -> GetTrailingUtf16Char (token_pair t2) = 0.
Proof.
  intros H1 H2 Hf El E1. pose proof (token_pair_units t1 H1) as U1. pose proof (token_pair_units t2 H2) as U2.
  rewrite E1 in U1. rewrite El in U1. simpl in U1.
  destruct (Z.eqb_spec (GetTrailingUtf16Char (token_pair t2)) 0) as [|E2]; [done|exfalso].
  set (l := GetLeadingUtf16Char (token_pair t2)) in *. clearbody l.
  destruct t2 as [c|c|c|cp]; try done. destruct Hf as [[]|Hf]. simpl in U2, H2. injection U2 as <- _.
  destruct t1 as [c|c|c|cp']; simpl in *; try done; injection U1 as U1; lia.
Qed.

Lemma lex_compare_same l a b : lex_compare (l ++ a) (l ++ b) = lex_compare a b.
Proof. induction l as [|x l IH]; simpl; [done|]. by rewrite Z.eqb_refl. Qed.

(** The result of the first difference. *)
Lemma token_difference t1 t2 a b :
  token_ok t1 -> token_ok t2 -> uniform [t1; t2] -> token_pair t1 <> token_pair t2 ->
  let diff := u32 (GetLeadingUtf16Char (token_pair t1) - GetLeadingUtf16Char (token_pair t2)) in
  Z.sgn (if negb (diff =? 0) then s32 diff
         else GetTrailingUtf16Char (token_pair t1) - GetTrailingUtf16Char (token_pair t2)) =
  lex_compare (token_units t1 ++ a) (token_units t2 ++ b).
Proof.
  intros H1 H2 Hu Hne diff. pose proof (token_pair_units t1 H1) as U1. pose proof (token_pair_units t2 H2) as U2.
  destruct (token_pair_unit t1 H1) as [L1 R1]. destruct (token_pair_unit t2 H2) as [L2 R2].
  assert (C12 : four_free t2 \/ pair_free t1).
  { destruct Hu as [Hu|Hu]; apply Forall_cons_1 in Hu as [? Hu]; apply Forall_cons_1 in Hu as [? _]; auto. }
  assert (C21 : four_free t1 \/ pair_free t2).
  { destruct Hu as [Hu|Hu]; apply Forall_cons_1 in Hu as [? Hu]; apply Forall_cons_1 in Hu as [? _]; auto. }
  pose proof (token_clash t1 t2 H1 H2 C12) as K12. pose proof (token_clash t2 t1 H2 H1 C21) as K21.
  assert (Hdiff : GetLeadingUtf16Char (token_pair t1) = GetLeadingUtf16Char (token_pair t2) ->
            GetTrailingUtf16Char (token_pair t1) <> GetTrailingUtf16Char (token_pair t2)).
  { intros El Er. apply Hne. unfold token_pair. rewrite U1, U2, El, Er. done. }
  rewrite U1, U2. set (l1 := GetLeadingUtf16Char (token_pair t1)) in *. set (l2 := GetLeadingUtf16Char (token_pair t2)) in *.
  set (r1 := GetTrailingUtf16Char (token_pair t1)) in *. set (r2 := GetTrailingUtf16Char (token_pair t2)) in *.
  clearbody l1 l2 r1 r2. clear U1 U2. unfold is_u in *. change (2 ^ 16) with 65536 in *. cbn [app lex_compare].
  destruct (Z.eqb_spec l1 l2) as [E|E].
  - assert (diff = 0) as -> by (unfold diff; rewrite E, Z.sub_diag; done). cbn [Z.eqb negb].
    specialize (Hdiff E). specialize (K12 E). specialize (K21 (eq_sym E)).
    destruct (Z.eqb_spec r1 0), (Z.eqb_spec r2 0); try tauto; try lia. cbn [app lex_compare].
    rewrite (proj2 (Z.eqb_neq r1 r2)) by done. destruct (Z.gtb_spec r1 r2); lia.
  - assert (Ed : s32 diff = l1 - l2).
    { unfold diff. unfold wrap, swrap. rewrite Z.add_mod_idemp_l by done. rewrite Z.mod_small; lia. }
    assert (diff <> 0) as Hd0 by (intros E0; rewrite E0 in Ed; change (s32 0) with 0 in Ed; lia).
    rewrite (proj2 (Z.eqb_neq diff 0)) by done. cbn [negb]. rewrite Ed. destruct (Z.gtb_spec l1 l2); lia.
Qed.

Lemma uniform_cons t1 ts1 t2 ts2 :
  uniform ((t1 :: ts1) ++ (t2 :: ts2)) -> uniform [t1; t2] /\ uniform (ts1 ++ ts2).
Proof.
  intros [H|H]; apply Forall_app in H as [Ha Hb]; apply Forall_cons_1 in Ha as [? ?]; apply Forall_cons_1 in Hb as [? ?].
  - split; left; [by repeat constructor|by apply Forall_app].
  - split; right; [by repeat constructor|by apply Forall_app].
Qed.

Lemma token_pair_eq_units t1 t2 : token_ok t1 -> token_ok t2 -> token_pair t1 = token_pair t2 -> token_units t1 = token_units t2.
Proof. intros H1 H2 E. rewrite (token_pair_units t1 H1), (token_pair_units t2 H2). by rewrite E. Qed.

Lemma compare_utf8_loop_spec ts1 ts2 fuel mem1 p1 mem2 p2 :
  Forall token_ok ts1 -> Forall token_nz ts1 -> Forall token_ok ts2 -> Forall token_nz ts2 -> uniform (ts1 ++ ts2) ->
  stored mem1 p1 (bytes_of ts1 ++ [0]) -> stored mem2 p2 (bytes_of ts2 ++ [0]) -> (length ts1 <= fuel)%nat ->
  exists r, compare_utf8_loop fuel mem1 p1 mem2 p2 = Some r /\ Z.sgn r = lex_compare (units_of ts1) (units_of ts2).
Proof.
  revert ts2 fuel p1 p2. induction ts1 as [|t1 ts1 IH]; intros ts2 fuel p1 p2 Hok1 Hnz1 Hok2 Hnz2 Hun Hs1 Hs2 Hf;
    destruct (first_byte _ _ _ Hok1 Hnz1 Hs1) as (c1 & Hr1 & Hc1);
    destruct (first_byte _ _ _ Hok2 Hnz2 Hs2) as (c2 & Hr2 & Hc2).
  - destruct fuel; cbn [compare_utf8_loop]; rewrite Hr1, Hr2; cbn [mbind option_bind]; rewrite Hc1; simpl;
      (destruct ts2 as [|t2 ts2]; [rewrite Hc2|destruct Hc2 as (Hc2 & Ht2 & _); rewrite (proj2 (Z.eqb_neq c2 0)) by done];
      eexists; (split; [done|])); try done; rewrite units_of_cons, (token_pair_units t2) by done; done.
  - destruct Hc1 as (Hc1 & Ht1 & Hts1 & Hn1 & Hst1 & Hst1'). destruct fuel as [|fuel]; [simpl in Hf; lia|].
    cbn [compare_utf8_loop]. rewrite Hr1, Hr2. cbn [mbind option_bind]. rewrite (proj2 (Z.eqb_neq c1 0)) by done.
    destruct ts2 as [|t2 ts2].
    { rewrite Hc2. exists 1. split; [done|]. rewrite units_of_cons, (token_pair_units t1) by done. done. }
    destruct Hc2 as (Hc2 & Ht2 & Hts2 & Hn2 & Hst2 & Hst2'). rewrite (proj2 (Z.eqb_neq c2 0)) by done.
    rewrite (token_decode mem1 p1 t1 Ht1 Hst1), (token_decode mem2 p2 t2 Ht2 Hst2). cbn [mbind option_bind].
    destruct (uniform_cons _ _ _ _ Hun) as [Hu Hun']. rewrite !units_of_cons.
    destruct (Z.eqb_spec (token_pair t1) (token_pair t2)) as [E|E].
    + rewrite (token_pair_eq_units t1 t2), lex_compare_same by done. apply IH; try done. simpl in Hf. lia.
    + rewrite <- token_difference by done. cbv zeta. destruct (negb _); eexists; by split.
Qed.

Lemma tokens_bytes_length ts : (length ts <= length (bytes_of ts))%nat.
Proof.
  induction ts as [|t ts IH]; [done|]. rewrite bytes_of_cons, length_app. pose proof (token_lengths t). simpl. lia.
Qed.

(** C25: comparison. A modified UTF-8 string is compared with any array of units
    exactly as its decoding is, unit by unit. Two modified UTF-8 strings are
    compared like their decodings if the strings together have no four-byte
    sequences, or have no leading surrogates (U+D800 to U+DBFF, alone or in a
    pair) written as three bytes. *)
Theorem modified_utf8_comparison ts1 ts2 utf16 rest1 rest2
    (Hok1 : Forall token_ok ts1) (Hnz1 : Forall token_nz ts1)
    (Hok2 : Forall token_ok ts2) (Hnz2 : Forall token_nz ts2) :
  CompareModifiedUtf8ToUtf16AsCodePointValues (bytes_of ts1 ++ 0 :: rest1) utf16 (zlength utf16) =
    Some (lex_compare (units_of ts1) utf16) /\
  (Forall four_free (ts1 ++ ts2) \/ Forall pair_free (ts1 ++ ts2) ->
   exists r,
    CompareModifiedUtf8ToModifiedUtf8AsUtf16CodePointValues (bytes_of ts1 ++ 0 :: rest1) (bytes_of ts2 ++ 0 :: rest2) =
      Some r /\
    Z.sgn r = lex_compare (units_of ts1) (units_of ts2)).
Proof.
  assert (Hf : (length ts1 <= length (bytes_of ts1 ++ 0%Z :: rest1))%nat)
    by (rewrite length_app; pose proof (tokens_bytes_length ts1); lia).
  split.
  - apply compare_utf16_loop_spec; try done; [apply stored_string|].
    pose proof (stored_start utf16 []) as Hs. by rewrite app_nil_r in Hs.
  - intros Hun. by apply compare_utf8_loop_spec; try done; apply stored_string.
Qed.

Lemma modified_utf8_comparison_witness :
  CompareModifiedUtf8ToUtf16AsCodePointValues (bytes_of [One 97; Four 0x10437] ++ 0 :: []) [97; 0xd801; 0xdc38] (zlength [97; 0xd801; 0xdc38]) =
    Some (lex_compare (units_of [One 97; Four 0x10437]) [97; 0xd801; 0xdc38]) /\
  exists r,
    CompareModifiedUtf8ToModifiedUtf8AsUtf16CodePointValues
      (bytes_of [One 97; Four 0x10437] ++ 0 :: []) (bytes_of [One 97; Four 0x10438] ++ 0 :: []) = Some r /\
    Z.sgn r = lex_compare (units_of [One 97; Four 0x10437]) (units_of [One 97; Four 0x10438]).
Proof.
  destruct (modified_utf8_comparison [One 97; Four 0x10437] [One 97; Four 0x10438] [97; 0xd801; 0xdc38] [] [])
    as [H1 H2].
  - repeat constructor; simpl; lia.
  - repeat constructor; discriminate.
  - repeat constructor; simpl; lia.
  - repeat constructor; discriminate.
  - split; [exact H1|]. apply H2. right. repeat constructor.
Defined.

(** Outside that condition the two comparisons disagree: the lone leading
    surrogate U+D800 in three bytes followed by U+E000, against the pair
    U+D800 U+DC00 in four bytes. *)
Lemma lone_surrogate_order :
  CompareModifiedUtf8ToModifiedUtf8AsUtf16CodePointValues
    (bytes_of [Three 0xd800; Three 0xe000] ++ [0]) (bytes_of [Four 0x10000] ++ [0]) = Some (- 0xdc00) /\
  CompareModifiedUtf8ToUtf16AsCodePointValues
    (bytes_of [Three 0xd800; Three 0xe000] ++ [0]) (units_of [Four 0x10000]) 2 = Some 1.
Proof. split; vm_compute; reflexivity. Qed.

(** ** Printing *)

Definition print_token (t : token) : list Z :=
  let ch := token_pair t in
  if ch =? 92 then [92; 92] else if ch =? 10 then [92; 110] else if ch =? 13 then [92; 114]
  else if ch =? 9 then [92; 116]
  else
    (if NeedsEscaping (GetLeadingUtf16Char ch) then escape_unit (GetLeadingUtf16Char ch) else [u8 (GetLeadingUtf16Char ch)]) ++
    (if GetTrailingUtf16Char ch =? 0 then [] else escape_unit (GetTrailingUtf16Char ch)).

Lemma small_pair t : token_ok t -> token_pair t < 0x10000 -> GetTrailingUtf16Char (token_pair t) = 0.
Proof.
  intros Hok Hs. unfold GetTrailingUtf16Char. rewrite Z.shiftr_div_pow2 by lia.
  destruct t as [c|c|c|cp]; unfold token_pair in *; simpl in *; rewrite wrap_id; unfold is_u; lia.
Qed.

Lemma printable_loop_spec ts fuel mem p i result :
  Forall token_ok ts -> stored mem p (bytes_of ts) -> (length ts <= fuel)%nat ->
  printable_loop fuel mem p i (i + zlength (units_of ts)) result =
    Some (result ++ concat (map print_token ts)).
Proof.
  revert fuel p i result. induction ts as [|t ts IH]; intros fuel p i result Hok Hst Hf.
  - destruct fuel; cbn [printable_loop]; rewrite (proj2 (Z.ltb_ge _ _)) by (simpl; lia); by rewrite app_nil_r.
  - apply Forall_cons_1 in Hok as [Ht Hts]. rewrite bytes_of_cons, units_of_cons, length_app in *.
    pose proof (token_lengths t). apply stored_app in Hst as [Hst Hst'].
    destruct fuel as [|fuel]; [simpl in Hf; lia|]. cbn [printable_loop]. rewrite (proj2 (Z.ltb_lt _ _)) by lia.
    rewrite (token_decode mem p t Ht Hst). cbn [mbind option_bind].
    pose proof (small_pair t Ht) as Hsm. pose proof (token_pair_units t Ht) as Hu.
    assert (Hone : GetTrailingUtf16Char (token_pair t) = 0 ->
              i + Z.of_nat (length (token_units t) + length (units_of ts)) = i + 1 + zlength (units_of ts))
      by (intros E; rewrite Hu, E; simpl; lia).
    assert (Hnext : forall r, token_pair t < 0x10000 ->
              printable_loop fuel mem (p + zlength (token_bytes t)) (i + 1)
                (i + Z.of_nat (length (token_units t) + length (units_of ts))) (result ++ r) =
              Some (result ++ r ++ concat (map print_token ts))).
    { intros r Hlt. rewrite Hone, IH by (done || simpl in Hf; lia || by apply Hsm). by rewrite <- app_assoc. }
    cbn [map concat]. unfold print_token at 1.
    destruct (Z.eqb_spec (token_pair t) 92) as [E|_]; [by rewrite Hnext by lia|].
    destruct (Z.eqb_spec (token_pair t) 10) as [E|_]; [by rewrite Hnext by lia|].
    destruct (Z.eqb_spec (token_pair t) 13) as [E|_]; [by rewrite Hnext by lia|].
    destruct (Z.eqb_spec (token_pair t) 9) as [E|_]; [by rewrite Hnext by lia|].
    destruct (Z.eqb_spec (GetTrailingUtf16Char (token_pair t)) 0) as [E|E]; cbn [negb].
    + rewrite Hone, IH by (done || simpl in Hf; lia). by rewrite app_nil_r, <- app_assoc.
    + assert (length (token_units t) = 2%nat) as -> by (by rewrite Hu).
      rewrite (proj2 (Z.ltb_lt _ _)) by lia. cbn [dcheck mbind option_bind].
      replace (i + Z.of_nat (2 + length (units_of ts))) with (i + 1 + 1 + zlength (units_of ts)) by lia.
      rewrite IH by (done || simpl in Hf; lia). by rewrite <- !app_assoc.
Qed.

(** Reading a printed string back. *)
Definition unhex_digit (d : Z) : Z := if d <? 58 then d - 48 else d - 87.

Fixpoint unescape (s : list Z) : list Z :=
  match s with
  | [] => []
  | c :: r =>
      if c =? 92 then
        match r with
        | [] => []
        | d :: r' =>
            if d =? 117 then
              match r' with
              | h1 :: h2 :: h3 :: h4 :: r'' =>
                  ((unhex_digit h1 * 16 + unhex_digit h2) * 16 + unhex_digit h3) * 16 + unhex_digit h4 :: unescape r''
              | _ => []
              end
            else (if d =? 110 then 10 else if d =? 114 then 13 else if d =? 116 then 9 else d) :: unescape r'
        end
      else c :: unescape r
  end.

Definition printable (c : Z) : Prop := 32 <= c <= 126.

Lemma hex_digit_spec d : 0 <= d < 16 -> unhex_digit (hex_digit d) = d /\ printable (hex_digit d).
Proof. intros Hd. unfold hex_digit, unhex_digit, printable. destruct (Z.ltb_spec d 10); split; zcases; lia. Qed.

Lemma escape_unit_spec u rest : is_u 16 u ->
  unescape (escape_unit u ++ rest) = u :: unescape rest /\ Forall printable (escape_unit u).
Proof.
  intros Hu. unfold is_u in Hu. unfold escape_unit. rewrite !(proj1 (proj2 (proj2 (utf_masks _)))).
  rewrite !Z.shiftr_div_pow2 by lia. change (2 ^ 12) with 4096. change (2 ^ 8) with 256. change (2 ^ 4) with 16.
  destruct (hex_digit_spec (u / 4096)) as [E1 P1]; [lia|]. destruct (hex_digit_spec (u / 256 mod 16)) as [E2 P2]; [lia|].
  destruct (hex_digit_spec (u / 16 mod 16)) as [E3 P3]; [lia|]. destruct (hex_digit_spec (u mod 16)) as [E4 P4]; [lia|].
  split.
  - cbn [app unescape]. rewrite E1, E2, E3, E4. simpl. f_equal. lia.
  - repeat (apply List.Forall_cons; [first [done|unfold printable; lia]|]). apply List.Forall_nil.
Qed.

Lemma unescape_plain c rest : c <> 92 -> unescape (c :: rest) = c :: unescape rest.
Proof. intros Hc. cbn [unescape]. by rewrite (proj2 (Z.eqb_neq c 92)). Qed.

Lemma print_token_spec t rest : token_ok t ->
  unescape (print_token t ++ rest) = token_units t ++ unescape rest /\ Forall printable (print_token t).
Proof.
  intros Hok. pose proof (token_pair_units t Hok) as Hu. pose proof (small_pair t Hok) as Hsm.
  destruct (token_pair_unit t Hok) as [Ll Lr]. unfold print_token.
  assert (Hlow : token_pair t < 0x10000 -> token_units t = [token_pair t]).
  { intros Hlt. rewrite Hu, (Hsm Hlt). simpl. f_equal. symmetry. unfold token_pair at 1. rewrite Hu, (Hsm Hlt). done. }
  destruct (Z.eqb_spec (token_pair t) 92) as [E|N92];
    [rewrite Hlow, E by lia; split; [done|repeat constructor; unfold printable; lia]|].
  destruct (Z.eqb_spec (token_pair t) 10) as [E|_];
    [rewrite Hlow, E by lia; split; [done|repeat constructor; unfold printable; lia]|].
  destruct (Z.eqb_spec (token_pair t) 13) as [E|_];
    [rewrite Hlow, E by lia; split; [done|repeat constructor; unfold printable; lia]|].
  destruct (Z.eqb_spec (token_pair t) 9) as [E|_];
    [rewrite Hlow, E by lia; split; [done|repeat constructor; unfold printable; lia]|].
  assert (Nl : GetTrailingUtf16Char (token_pair t) = 0 -> GetLeadingUtf16Char (token_pair t) <> 92).
  { intros E El. apply N92. unfold token_pair. rewrite Hu, E, El. done. }
  assert (Hhigh : GetTrailingUtf16Char (token_pair t) <> 0 -> 126 < GetLeadingUtf16Char (token_pair t)).
  { intros E. rewrite (proj2 (Z.eqb_neq _ 0) E) in Hu. revert Hu.
    generalize (GetLeadingUtf16Char (token_pair t)), (GetTrailingUtf16Char (token_pair t)).
    intros l r Hu. destruct t as [c|c|c|cp]; simpl in Hu, Hok; try done. injection Hu as <- _. lia. }
  rewrite Hu. set (l := GetLeadingUtf16Char (token_pair t)) in *. set (r := GetTrailingUtf16Char (token_pair t)) in *.
  clearbody l r. clear Hu Hlow Hsm N92.
  assert (Hl : forall rest, (r = 0 -> l <> 92) -> (r <> 0 -> 126 < l) ->
            unescape ((if NeedsEscaping l then escape_unit l else [u8 l]) ++ rest) = l :: unescape rest /\
            Forall printable (if NeedsEscaping l then escape_unit l else [u8 l])).
  { intros rest' Hl0 Hl1. destruct (NeedsEscaping l) eqn:En; [by apply escape_unit_spec|]. unfold NeedsEscaping in En.
    assert (32 <= l <= 126) by lia. rewrite wrap_id by (unfold is_u; lia).
    split; [apply unescape_plain; destruct (Z.eq_dec r 0); [auto|lia]|apply List.Forall_cons; [done|apply List.Forall_nil]]. }
  destruct (Z.eqb_spec r 0) as [E|E].
  - rewrite app_nil_r. by apply Hl.
  - rewrite <- app_assoc. destruct (Hl (escape_unit r ++ rest) Nl Hhigh) as [-> Hp].
    destruct (escape_unit_spec r rest Lr) as [-> Hp']. split; [done|]. by apply Forall_app.
Qed.

(** Printing. [PrintableString] succeeds on every modified UTF-8 string; its
    output is printable ASCII between double quotes, and undoing the escapes
    gives back the units of the string, so distinct strings print differently. *)
Theorem PrintableString_correct ts rest (Hok : Forall token_ok ts) (Hnz : Forall token_nz ts) :
  exists body, PrintableString (bytes_of ts ++ 0 :: rest) = Some ([34] ++ body ++ [34]) /\
    Forall printable body /\ unescape body = units_of ts.
Proof.
  exists (concat (map print_token ts)). pose proof (Forall_bytes_nz ts Hok Hnz) as Hb. split; [|split].
  - unfold PrintableString, CountModifiedUtf8Chars_cstr, CountModifiedUtf8Chars. rewrite cstrlen_spec by done.
    cbn [mbind option_bind]. rewrite Z.leb_refl. cbn [dcheck mbind option_bind].
    pose proof (count_loop_spec ts (length (bytes_of ts ++ 0 :: rest)) (bytes_of ts ++ 0 :: rest) 0 0 Hok) as E.
    rewrite !Z.add_0_l in E. rewrite E by (apply stored_start || rewrite length_app; lia). cbn [mbind option_bind].
    rewrite Nat2Z.id. pose proof (printable_loop_spec ts (length (units_of ts)) (bytes_of ts ++ 0 :: rest) 0 0 [34] Hok) as E'.
    rewrite Z.add_0_l in E'. rewrite E'; [done|apply stored_start|].
    clear. induction ts as [|t ts IH]; [done|]. rewrite units_of_cons, length_app. pose proof (token_lengths t). simpl. lia.
  - induction Hok as [|t ts Ht Hts IH]; [constructor|]. apply Forall_cons_1 in Hnz as [_ Hnz]. simpl.
    apply Forall_app. split; [by apply (print_token_spec t [])|]. apply IH; [done|]. by apply Forall_bytes_nz.
  - clear Hnz Hb. induction Hok as [|t ts Ht Hts IH]; [done|]. cbn [map concat].
    destruct (print_token_spec t (concat (map print_token ts)) Ht) as [-> _]. by rewrite IH.
Qed.

Lemma PrintableString_correct_witness :
  exists body, PrintableString (bytes_of example_tokens ++ 0 :: []) = Some ([34] ++ body ++ [34]) /\
    Forall printable body /\ unescape body = units_of example_tokens.
Proof.
  apply (PrintableString_correct example_tokens []).
  - unfold example_tokens. repeat constructor; simpl; lia.
  - unfold example_tokens. repeat constructor; discriminate.
Defined.

(** The hash of a terminated string is the hash of its view. *)
Lemma ComputeModifiedUtf8Hash_eq bs rest : Forall (fun b => b <> 0) bs ->
  ComputeModifiedUtf8Hash (bs ++ 0 :: rest) = Some (ComputeModifiedUtf8Hash_view bs).
Proof.
  intros Hnz. unfold ComputeModifiedUtf8Hash, ComputeModifiedUtf8Hash_view, UpdateModifiedUtf8Hash_view.
  assert (H : forall xs fuel p h, Forall (fun b => b <> 0) xs -> stored (bs ++ 0 :: rest) p (xs ++ [0]) ->
            (length xs <= fuel)%nat ->
            utf8_hash_loop fuel (bs ++ 0 :: rest) p h = Some (foldl UpdateModifiedUtf8Hash h xs)).
  { induction xs as [|x xs IH]; intros fuel p h Hx Hst Hf; apply stored_cons in Hst as [Hr Hst].
    - destruct fuel; cbn [utf8_hash_loop]; by rewrite Hr.
    - apply Forall_cons_1 in Hx as [Hx Hxs]. destruct fuel as [|fuel]; [simpl in Hf; lia|].
      cbn [utf8_hash_loop]. rewrite Hr. cbn [mbind option_bind]. rewrite (proj2 (Z.eqb_neq x 0)) by done.
      apply IH; [done|done|simpl in Hf; lia]. }
  apply H; [done|apply stored_string|rewrite length_app; lia].
Qed.
