(* ===== verification/Double.v ===== *)
(** * Doubles

    The little of IEEE double arithmetic that the containers use to scale sizes
    by load factors: conversion from [size_t], product, quotient and conversion
    back. The operations are the executable ones of [SpecFloat]; the lemmas
    bound their rounding error. *)

From Stdlib Require Import ZArith Lia Bool SpecFloat.
From stdpp Require Import base numbers option.
From S2P Require Import Prelude.

Open Scope Z_scope.

Definition double := spec_float.

Definition double_of_size (n : Z) : double := binary_normalize 53 1024 n 0 false.
Definition dmul : double -> double -> double := SFmul 53 1024.
Definition ddiv : double -> double -> double := SFdiv 53 1024.
Definition dadd : double -> double -> double := SFadd 53 1024.
Definition dltb : double -> double -> bool := SFltb.

(** [static_cast<size_t>] truncates; it is undefined on values out of range. *)
Definition size_of_double (x : double) : option Z :=
  match x with
  | S754_zero _ => Some 0
  | S754_finite false m e =>
      let v := if 0 <=? e then Zpos m * 2 ^ e else Zpos m / 2 ^ (- e) in
      if v <? 2 ^ 64 then Some v else None
  | _ => None
  end.

(** ** Values

    Every finite double is a multiple of [2 ^ -1074]; [dval] is the value of a
    non-negative one in that unit. *)

Definition ulp0 : Z := 2 ^ 1074.

Definition dval (x : double) : Z :=
  match x with S754_finite false m e => Zpos m * 2 ^ (e + 1074) | _ => 0 end.

(** A positive number with a full mantissa and an exponent of at most [k]. *)
Definition normal (k : Z) (x : double) : Prop :=
  match x with
  | S754_finite false m e => 2 ^ 52 <= Zpos m < 2 ^ 53 /\ - k <= e <= k
  | _ => False
  end.

Lemma ulp0_pos : 0 < ulp0.
Proof. apply pow2_pos. lia. Qed.

Lemma pow_split a b : 0 <= a -> 0 <= b -> 2 ^ (a + b) = 2 ^ a * 2 ^ b.
Proof. intros. by apply Z.pow_add_r. Qed.

(** ** Rounding *)

Lemma digits_log2 p : Zpos (digits2_pos p) = Z.log2 (Zpos p) + 1.
Proof.
  induction p as [p IH|p IH|]; [| |done]; simpl digits2_pos; rewrite Pos2Z.inj_succ, IH.
  - rewrite (Pos2Z.inj_xI p), Z.log2_succ_double by lia. lia.
  - rewrite (Pos2Z.inj_xO p), Z.log2_double by lia. lia.
Qed.

Lemma shr_1_m r : 0 <= shr_m r -> shr_m (shr_1 r) = shr_m r / 2.
Proof.
  destruct r as [m r s]. simpl. intros Hm. destruct m as [|[p|p|]|p]; simpl; try done; try lia.
  - rewrite (Pos2Z.inj_xI p), Z.mul_comm, Z.div_add_l by lia. rewrite Z.add_0_r. done.
  - rewrite (Pos2Z.inj_xO p), Z.mul_comm, Z.div_mul by lia. done.
Qed.

Lemma iter_shr_m p r : 0 <= shr_m r -> shr_m (SpecFloat.iter_pos shr_1 p r) = shr_m r / 2 ^ Zpos p.
Proof.
  revert r. induction p as [p IH|p IH|]; intros r Hm; simpl SpecFloat.iter_pos.
  - pose proof (shr_1_m r Hm) as E1. assert (0 <= shr_m (shr_1 r)) by (rewrite E1; apply Z.div_pos; lia).
    pose proof (pow2_pos (Zpos p)).
    rewrite IH by (rewrite IH by done; apply Z.div_pos; lia). rewrite IH, E1 by done.
    rewrite !Z.div_div by lia. f_equal. rewrite (Pos2Z.inj_xI p), Z.pow_add_r, Z.pow_twice_r by lia. lia.
  - pose proof (pow2_pos (Zpos p)).
    rewrite IH by (rewrite IH by done; apply Z.div_pos; lia). rewrite IH by done.
    rewrite !Z.div_div by lia. f_equal. rewrite (Pos2Z.inj_xO p), Z.pow_twice_r. done.
  - by apply shr_1_m.
Qed.

(** Shifting a mantissa down to 53 bits. *)
Lemma shr_fexp_m m e l :
  2 ^ 52 <= m -> -1074 <= e ->
  exists r, shr_fexp 53 1024 m e l = (r, e + (Z.log2 m - 52)) /\ shr_m r = m / 2 ^ (Z.log2 m - 52) /\
    (Z.log2 m = 52 -> r = shr_record_of_loc m l).
Proof.
  intros Hm He. unfold shr_fexp. destruct m as [|p|p]; try lia. cbn [Zdigits2]. rewrite digits_log2.
  assert (Hl : 52 <= Z.log2 (Zpos p)) by (change 52 with (Z.log2 (2 ^ 52)); by apply Z.log2_le_mono).
  assert (fexp 53 1024 (Z.log2 (Zpos p) + 1 + e) - e = Z.log2 (Zpos p) - 52) as ->.
  { unfold fexp. change (emin 53 1024) with (-1074). lia. }
  assert (Hsm : shr_m (shr_record_of_loc (Zpos p) l) = Zpos p) by (by destruct l as [|[]]).
  destruct (Z.log2 (Zpos p) - 52) as [|k|k] eqn:Ek; [| |lia]; cbn [shr].
  - eexists. rewrite Z.add_0_r. split; [done|]. split; [by rewrite Z.pow_0_r, Z.div_1_r|done].
  - eexists. split; [done|]. split; [rewrite iter_shr_m; [by rewrite Hsm|rewrite Hsm; lia]|lia].
Qed.

Lemma round_choice m l : round_nearest_even m l = m \/ round_nearest_even m l = m + 1.
Proof. destruct l as [|[]]; simpl; auto. destruct (Z.even m); auto. Qed.

(** The result of rounding [m * 2 ^ e], or a value between it and
    [(m + 1) * 2 ^ e] as the location says: one of the two neighbours among
    the doubles. *)
Lemma round_spec m e l :
  2 ^ 52 <= m -> -1074 <= e -> e + Z.log2 m <= 900 ->
  let n := Z.log2 m - 52 in
  exists p e', binary_round_aux 53 1024 false m e l = S754_finite false p e' /\
    2 ^ 52 <= Zpos p < 2 ^ 53 /\ e + n <= e' <= e + n + 1 /\ 0 <= n /\ 2 ^ 52 <= m / 2 ^ n < 2 ^ 53 /\
    (Zpos p * 2 ^ (e' + 1074) = m / 2 ^ n * 2 ^ (e + n + 1074) \/
     Zpos p * 2 ^ (e' + 1074) = (m / 2 ^ n + 1) * 2 ^ (e + n + 1074)) /\
    (Z.log2 m = 52 -> l = loc_Exact -> Zpos p = m /\ e' = e).
Proof.
  intros Hm He Hmax n. unfold binary_round_aux.
  assert (Hl : 52 <= Z.log2 m) by (change 52 with (Z.log2 (2 ^ 52)); by apply Z.log2_le_mono).
  pose proof (Z.log2_spec m ltac:(lia)) as [Hlo Hhi].
  destruct (shr_fexp_m m e l Hm He) as (r & -> & Hr & Hexact). fold n in Hr |- *.
  assert (Hn : 0 <= n) by lia. pose proof (pow2_pos n Hn) as Hpn.
  assert (Hm1 : 2 ^ 52 <= m / 2 ^ n < 2 ^ 53).
  { split; [apply Z.div_le_lower_bound|apply Z.div_lt_upper_bound]; try lia.
    - rewrite <- pow_split by lia. replace (n + 52) with (Z.log2 m) by lia. done.
    - rewrite <- pow_split by lia. replace (n + 53) with (Z.succ (Z.log2 m)) by lia. done. }
  set (m2 := round_nearest_even (shr_m r) (loc_of_shr_record r)).
  assert (Hc : m2 = m / 2 ^ n \/ m2 = m / 2 ^ n + 1) by (unfold m2; rewrite <- Hr; apply round_choice).
  destruct (shr_fexp_m m2 (e + n) loc_Exact) as (r2 & -> & Hr2 & _); [lia|lia|].
  destruct (Z.eq_dec m2 (2 ^ 53)) as [E2|N2].
  - rewrite E2 in Hr2. change (2 ^ 53 / 2 ^ (Z.log2 (2 ^ 53) - 52)) with 4503599627370496 in Hr2. rewrite Hr2, E2.
    change (Z.log2 (2 ^ 53)) with 53. rewrite (proj2 (Z.leb_le _ (1024 - 53))) by lia.
    do 2 eexists. split; [done|]. split; [lia|]. split; [lia|]. split; [done|]. split; [done|]. split.
    + right. replace (e + n + (53 - 52) + 1074) with (1 + (e + n + 1074)) by lia. rewrite pow_split by lia.
      assert (m / 2 ^ n + 1 = 2 ^ 53) as -> by lia. rewrite Z.mul_assoc. f_equal.
    + intros H52 ->. exfalso. unfold m2 in E2. rewrite (Hexact H52) in E2. simpl in E2.
      rewrite H52 in Hhi. simpl in Hhi. lia.
  - assert (Hlog : Z.log2 m2 = 52) by (apply Z.log2_unique; lia).
    rewrite Hlog in Hr2 |- *. rewrite Z.sub_diag, Z.pow_0_r, Z.div_1_r in Hr2. rewrite Hr2.
    destruct m2 as [|p|p] eqn:Em2; try lia. rewrite Z.sub_diag, Z.add_0_r, (proj2 (Z.leb_le _ (1024 - 53))) by lia.
    do 2 eexists. split; [done|]. split; [lia|]. split; [lia|]. split; [done|]. split; [done|]. split.
    + destruct Hc as [-> | ->]; auto.
    + intros H52 ->. assert (n = 0) as En by lia. split; [|lia]. rewrite <- Em2. unfold m2.
      by rewrite (Hexact H52).
Qed.

(** A rounded value is off by at most one part in [2 ^ 52]. *)
Lemma round_error m e l :
  2 ^ 52 <= m -> -1074 <= e -> e + Z.log2 m <= 900 -> -500 <= e + (Z.log2 m - 52) < 500 ->
  exists x, binary_round_aux 53 1024 false m e l = x /\ normal 500 x /\
    m * 2 ^ (e + 1074) * 2 ^ 52 <= dval x * 2 ^ 52 + m * 2 ^ (e + 1074) /\
    dval x * 2 ^ 52 <= m * 2 ^ (e + 1074) * 2 ^ 52 + m * 2 ^ (e + 1074) /\
    (m + 1) * 2 ^ (e + 1074) * 2 ^ 52 <= dval x * 2 ^ 52 + m * 2 ^ (e + 1074).
Proof.
  intros Hm He Hmax Hr. destruct (round_spec m e l Hm He Hmax) as (p & e' & -> & Hp & He' & Hn & Hm1 & Hv & _).
  set (n := Z.log2 m - 52) in *. eexists. split; [done|]. split; [simpl; lia|].
  cbn [dval]. pose proof (pow2_pos n Hn) as Hpn. pose proof (pow2_pos (e + 1074) ltac:(lia)) as Hpe.
  pose proof (Z.div_mod m (2 ^ n) ltac:(lia)) as Edm. pose proof (Z.mod_pos_bound m (2 ^ n) Hpn) as Hmod.
  replace (e + n + 1074) with (n + (e + 1074)) in Hv by lia. rewrite (pow_split n (e + 1074)) in Hv by lia.
  set (q := m / 2 ^ n) in *. set (r := m mod 2 ^ n) in *. set (k := 2 ^ n) in *. set (w := 2 ^ (e + 1074)) in *.
  set (v := Zpos p * 2 ^ (e' + 1074)) in *. clearbody q r k w v. rewrite Edm.
  assert (Hkw : 2 ^ 52 * (k * w) <= (k * q + r) * w) by nia.
  assert (Hrw : 0 <= r * w /\ (r + 1) * w <= k * w) by nia.
  replace ((k * q + r) * w) with (q * (k * w) + r * w) in * by lia.
  replace ((k * q + r + 1) * w) with (q * (k * w) + (r + 1) * w) in * by lia.
  set (kw := k * w) in *. set (rw := r * w) in *. set (rw' := (r + 1) * w) in *. set (qkw := q * kw) in *.
  assert (rw <= rw') by (unfold rw, rw'; lia).
  assert (v = qkw \/ v = qkw + kw) as Hv' by (destruct Hv as [-> | ->]; [left|right]; unfold qkw; lia).
  clearbody kw rw rw' qkw. change (2 ^ 52) with 4503599627370496 in *. lia.
Qed.

Lemma double_of_size_exact n : 0 < n < 2 ^ 53 ->
  normal 52 (double_of_size n) /\ dval (double_of_size n) = n * ulp0.
Proof.
  intros Hn. destruct n as [|p|p]; try lia. unfold double_of_size, binary_normalize, binary_round.
  rewrite Z.add_0_r, digits_log2.
  assert (Hlog : 0 <= Z.log2 (Zpos p) <= 52).
  { split; [apply Z.log2_nonneg|]. assert (Z.log2 (Zpos p) < 53) by (apply Z.log2_lt_pow2; lia). lia. }
  assert (fexp 53 1024 (Z.log2 (Zpos p) + 1) = Z.log2 (Zpos p) - 52) as ->
    by (unfold fexp; change (emin 53 1024) with (-1074); lia).
  assert (exists mz, shl_align p 0 (Z.log2 (Zpos p) - 52) = (mz, Z.log2 (Zpos p) - 52) /\
            Zpos mz = Zpos p * 2 ^ (52 - Z.log2 (Zpos p))) as (mz & -> & Hmz).
  { unfold shl_align. rewrite Z.sub_0_r. destruct (Z.log2 (Zpos p) - 52) as [|k|k] eqn:Ek; try lia.
    - exists p. split; [done|]. replace (52 - Z.log2 (Zpos p)) with 0 by lia. lia.
    - exists (Pos.iter xO p k). split; [done|]. replace (52 - Z.log2 (Zpos p)) with (Zpos k) by lia. clear.
      induction k as [|k IH] using Pos.peano_ind; [simpl; lia|].
      rewrite Pos.iter_succ, Pos2Z.inj_xO, IH, Pos2Z.inj_succ, Z.pow_succ_r by lia. lia. }
  pose proof (Z.log2_spec (Zpos p) ltac:(lia)) as [Hlo Hhi]. pose proof (pow2_pos (52 - Z.log2 (Zpos p)) ltac:(lia)).
  assert (Hmlo : 2 ^ 52 <= Zpos mz < 2 ^ 53).
  { rewrite Hmz. replace (2 ^ 52) with (2 ^ Z.log2 (Zpos p) * 2 ^ (52 - Z.log2 (Zpos p)))
      by (rewrite <- pow_split by lia; f_equal; lia).
    replace (2 ^ 53) with (2 ^ Z.succ (Z.log2 (Zpos p)) * 2 ^ (52 - Z.log2 (Zpos p)))
      by (rewrite <- pow_split by lia; f_equal; lia). nia. }
  assert (Hl52 : Z.log2 (Zpos mz) = 52) by (apply Z.log2_unique; lia).
  destruct (round_spec (Zpos mz) (Z.log2 (Zpos p) - 52) loc_Exact) as (p' & e' & -> & Hp & _ & _ & _ & _ & Hex);
    [lia|lia|lia|]. destruct (Hex Hl52 eq_refl) as [Ep Ee]. simpl. split; [lia|].
  rewrite Ep, Ee, Hmz, <- Z.mul_assoc. f_equal. unfold ulp0. rewrite <- pow_split by lia. f_equal. lia.
Qed.

Lemma log2_product a b :
  2 ^ 52 <= a < 2 ^ 53 -> 2 ^ 52 <= b < 2 ^ 53 -> 104 <= Z.log2 (a * b) <= 105.
Proof.
  intros Ha Hb. assert (2 ^ 104 <= a * b < 2 ^ 106) as [H1 H2].
  { change (2 ^ 104) with (2 ^ 52 * 2 ^ 52). change (2 ^ 106) with (2 ^ 53 * 2 ^ 53). nia. }
  split.
  - change 104 with (Z.log2 (2 ^ 104)). by apply Z.log2_le_mono.
  - assert (Z.log2 (a * b) < 106) by (apply Z.log2_lt_pow2; lia). lia.
Qed.

Lemma dmul_error x y : normal 200 x -> normal 200 y ->
  normal 500 (dmul x y) /\
  dval x * dval y * (2 ^ 52 - 1) <= dval (dmul x y) * ulp0 * 2 ^ 52 <= dval x * dval y * (2 ^ 52 + 1).
Proof.
  destruct x as [| | |[] mx ex]; try done. destruct y as [| | |[] my ey]; try done. intros [Hx Ex] [Hy Ey].
  unfold dmul, SFmul. cbn [xorb]. rewrite Pos2Z.inj_mul. pose proof (log2_product _ _ Hx Hy) as Hl.
  assert (2 ^ 52 <= Zpos mx * Zpos my) as Hm by nia.
  destruct (round_error (Zpos mx * Zpos my) (ex + ey) loc_Exact) as (z & -> & Hn & Hlo & Hhi & _); [lia..|].
  split; [done|]. cbn [dval].
  assert (Zpos mx * 2 ^ (ex + 1074) * (Zpos my * 2 ^ (ey + 1074)) = Zpos mx * Zpos my * 2 ^ (ex + ey + 1074) * ulp0) as ->.
  { unfold ulp0. transitivity (Zpos mx * Zpos my * (2 ^ (ex + 1074) * 2 ^ (ey + 1074))); [lia|].
    rewrite <- pow_split, <- (Z.mul_assoc _ _ (2 ^ 1074)), <- pow_split by lia. do 2 f_equal. lia. }
  set (X := Zpos mx * Zpos my * 2 ^ (ex + ey + 1074)) in *. pose proof ulp0_pos as Hu. clearbody X.
  change (2 ^ 52) with 4503599627370496 in *. set (v := dval z) in *. clearbody v. nia.
Qed.

Lemma ddiv_error x y : normal 200 x -> normal 200 y ->
  normal 500 (ddiv x y) /\
  dval x * ulp0 * (2 ^ 52 - 1) <= dval (ddiv x y) * dval y * 2 ^ 52 <= dval x * ulp0 * (2 ^ 52 + 1).
Proof.
  destruct x as [| | |[] mx ex]; try done. destruct y as [| | |[] my ey]; try done. intros [Hx Ex] [Hy Ey].
  unfold ddiv, SFdiv, SFdiv_core_binary. cbn [Zdigits2 xorb]. rewrite !digits_log2.
  assert (Z.log2 (Zpos mx) = 52) as -> by (apply Z.log2_unique; lia).
  assert (Z.log2 (Zpos my) = 52) as -> by (apply Z.log2_unique; lia).
  assert (Z.min (fexp 53 1024 (52 + 1 + ex - (52 + 1 + ey))) (ex - ey) = ex - ey - 53) as ->
    by (unfold fexp; change (emin 53 1024) with (-1074); lia).
  replace (ex - ey - (ex - ey - 53)) with 53 by lia. cbv iota.
  rewrite Z.shiftl_mul_pow2 by lia. pose proof (Z_div_mod (Zpos mx * 2 ^ 53) (Zpos my) ltac:(lia)) as Hd.
  destruct (Z.div_eucl (Zpos mx * 2 ^ 53) (Zpos my)) as [q r]. destruct Hd as [Eq Hr].
  assert (Hq : 2 ^ 52 <= q < 2 ^ 55).
  { change (2 ^ 53) with 9007199254740992 in *. change (2 ^ 52) with 4503599627370496 in *.
    change (2 ^ 55) with 36028797018963968. nia. }
  assert (Hl : 52 <= Z.log2 q <= 54).
  { split; [change 52 with (Z.log2 (2 ^ 52)); apply Z.log2_le_mono; lia|].
    assert (Z.log2 q < 55) by (apply Z.log2_lt_pow2; lia). lia. }
  destruct (round_error q (ex - ey - 53) (new_location (Zpos my) r)) as (z & -> & Hn & Hlo & Hhi & Hlo'); [lia..|].
  split; [done|]. cbn [dval]. set (w := 2 ^ (ex - ey - 53 + 1074)) in *.
  assert (Hw : Zpos mx * 2 ^ (ex + 1074) * ulp0 = Zpos mx * 2 ^ 53 * w * 2 ^ (ey + 1074)).
  { unfold ulp0, w. rewrite <- !Z.mul_assoc. f_equal. rewrite <- !pow_split by lia. f_equal. lia. }
  rewrite Hw, Eq. pose proof (pow2_pos (ey + 1074) ltac:(lia)) as Hpy. pose proof (pow2_pos (ex - ey - 53 + 1074) ltac:(lia)) as Hpw.
  fold w in Hpw. set (v := dval z) in *. set (b := 2 ^ (ey + 1074)) in *. clearbody v b w.
  assert (Hmain : (Zpos my * q + r) * w * (2 ^ 52 - 1) <= v * Zpos my * 2 ^ 52 <= (Zpos my * q + r) * w * (2 ^ 52 + 1)).
  { change (2 ^ 52) with 4503599627370496 in *. change (2 ^ 53) with 9007199254740992 in *.
    set (qw := q * w) in *. assert (q * w = qw) by done. assert ((q + 1) * w = qw + w) as Eqw by (unfold qw; lia).
    rewrite Eqw in Hlo'. assert ((Zpos my * q + r) * w = Zpos my * qw + r * w) as -> by (unfold qw; lia).
    assert (0 <= r * w /\ r * w <= Zpos my * w) by nia. assert (0 <= qw) by (unfold qw; nia). clearbody qw. split; nia. }
  set (t := (Zpos my * q + r) * w) in *. clearbody t. change (2 ^ 52) with 4503599627370496 in *. nia.
Qed.

Lemma size_of_double_spec x : normal 500 x -> dval x < 2 ^ 64 * ulp0 -> size_of_double x = Some (dval x / ulp0).
Proof.
  destruct x as [| | |[] m e]; try done. intros [Hm He] Hv. cbn [dval size_of_double] in *.
  assert (E : (if 0 <=? e then Zpos m * 2 ^ e else Zpos m / 2 ^ (- e)) = Zpos m * 2 ^ (e + 1074) / ulp0).
  { unfold ulp0 in *. pose proof (pow2_pos 1074 ltac:(lia)). destruct (Z.leb_spec 0 e).
    - rewrite pow_split, Z.mul_assoc, Z.div_mul by lia. done.
    - pose proof (pow2_pos (e + 1074) ltac:(lia)).
      replace (2 ^ 1074) with (2 ^ (- e) * 2 ^ (e + 1074)) by (rewrite <- pow_split by lia; f_equal; lia).
      rewrite Z.div_mul_cancel_r; [done| |lia]. pose proof (pow2_pos (- e) ltac:(lia)). lia. }
  cbv zeta. rewrite E. rewrite (proj2 (Z.ltb_lt _ _)); [done|]. apply Z.div_lt_upper_bound; [apply ulp0_pos|].
  rewrite (Z.mul_comm ulp0). exact Hv.
Qed.

(** [size / factor] and [size * factor], truncated. *)
Definition size_div (n : Z) (f : double) : option Z := size_of_double (ddiv (double_of_size n) f).
Definition size_mul (n : Z) (f : double) : option Z := size_of_double (dmul (double_of_size n) f).

Section Scaling.

(** A factor [m / 2 ^ k] below one. *)
Context (m : positive) (k : Z).
Context (Hm : 2 ^ 52 <= Zpos m < 2 ^ 53) (Hk : 53 <= k <= 200).

Let f : double := S754_finite false m (- k).

Lemma factor_normal : normal 200 f.
Proof. simpl. lia. Qed.

Lemma size_normal n : 0 < n < 2 ^ 53 -> normal 200 (double_of_size n) /\ dval (double_of_size n) = n * ulp0.
Proof.
  intros Hn. destruct (double_of_size_exact n Hn) as [Hx ->]. split; [|done]. revert Hx.
  destruct (double_of_size n) as [| | |[] p e]; try done. simpl. lia.
Qed.

(** The value of the factor in units of [2 ^ (1074 - k)]. *)
Lemma factor_unit : exists w, 0 < w /\ dval f = Zpos m * w /\ ulp0 = 2 ^ k * w.
Proof.
  exists (2 ^ (1074 - k)). split; [apply pow2_pos; lia|]. split.
  - unfold f. cbn [dval]. do 2 f_equal. lia.
  - unfold ulp0. rewrite <- pow_split by lia. f_equal. lia.
Qed.

Lemma size_div_spec n : 0 <= n < 2 ^ 53 -> n * 2 ^ k < 2 ^ 63 * Zpos m ->
  exists N, size_div n f = Some N /\ 0 <= N /\
    N * Zpos m * 2 ^ 52 <= n * 2 ^ k * (2 ^ 52 + 1) /\ n * 2 ^ k * (2 ^ 52 - 1) < (N + 1) * Zpos m * 2 ^ 52.
Proof.
  intros Hn Hfit. pose proof (pow2_pos k ltac:(lia)) as Hpk. destruct (Z.eq_dec n 0) as [->|Hn0].
  { exists 0. split; [done|]. lia. }
  destruct (size_normal n ltac:(lia)) as [Nn Vn]. destruct (ddiv_error _ f Nn factor_normal) as [Nq Eq].
  destruct factor_unit as (w & Hw & Ef & Eu). rewrite Vn, Ef in Eq. pose proof ulp0_pos as Hu.
  set (v := dval (ddiv (double_of_size n) f)) in *.
  assert (Hv : n * 2 ^ k * (2 ^ 52 - 1) * ulp0 <= v * Zpos m * 2 ^ 52 <= n * 2 ^ k * (2 ^ 52 + 1) * ulp0).
  { rewrite Eu in Eq at 2. rewrite Eu in Eq at 3. clear Ef Eu Hfit Vn Nn Nq. clearbody v.
    set (u := ulp0) in *. clearbody u. set (K := 2 ^ k) in *. clearbody K.
    change (2 ^ 52) with 4503599627370496 in *. split.
    - apply (Z.mul_le_mono_pos_r _ _ w Hw). lia.
    - apply (Z.mul_le_mono_pos_r _ _ w Hw). lia. }
  clear Ef Eu Eq. exists (v / ulp0).
  assert (Hdm := Z.div_mod v ulp0 ltac:(lia)). assert (Hmod := Z.mod_pos_bound v ulp0 Hu).
  assert (H0 : 0 <= v). { unfold v. destruct (ddiv _ _) as [| | |[] p e]; try done. simpl in *. pose proof (pow2_pos (e + 1074)). nia. }
  split; [|split; [apply Z.div_pos; lia|]].
  - unfold size_div. apply size_of_double_spec; [done|]. fold v. set (u := ulp0) in *. clearbody u v.
    set (K := 2 ^ k) in *. clearbody K. change (2 ^ 52) with 4503599627370496 in *.
    change (2 ^ 63) with 9223372036854775808 in *. change (2 ^ 64) with 18446744073709551616. change (2 ^ 53) with 9007199254740992 in *.
    assert (v * Zpos m * 4503599627370496 < 9223372036854775808 * Zpos m * 4503599627370497 * u) by nia. nia.
  - set (q := v / ulp0) in *. set (u := ulp0) in *. clearbody q u v. set (K := 2 ^ k) in *. clearbody K.
    change (2 ^ 52) with 4503599627370496 in *. split; nia.
Qed.

Lemma size_mul_spec n : 0 <= n < 2 ^ 53 ->
  exists C, size_mul n f = Some C /\ 0 <= C /\
    C * 2 ^ k * 2 ^ 52 <= n * Zpos m * (2 ^ 52 + 1) /\ n * Zpos m * (2 ^ 52 - 1) < (C + 1) * 2 ^ k * 2 ^ 52.
Proof.
  intros Hn. pose proof (pow2_pos k ltac:(lia)) as Hpk. destruct (Z.eq_dec n 0) as [->|Hn0].
  { exists 0. split; [done|]. lia. }
  destruct (size_normal n ltac:(lia)) as [Nn Vn]. destruct (dmul_error _ f Nn factor_normal) as [Nq Eq].
  destruct factor_unit as (w & Hw & Ef & Eu). rewrite Vn, Ef in Eq. pose proof ulp0_pos as Hu.
  set (v := dval (dmul (double_of_size n) f)) in *.
  assert (Hv : n * Zpos m * (2 ^ 52 - 1) * ulp0 <= v * 2 ^ k * 2 ^ 52 <= n * Zpos m * (2 ^ 52 + 1) * ulp0).
  { rewrite Eu in Eq at 2 3. clear Ef Eu Vn Nn Nq. clearbody v.
    set (u := ulp0) in *. clearbody u. set (K := 2 ^ k) in *. clearbody K.
    change (2 ^ 52) with 4503599627370496 in *. split.
    - apply (Z.mul_le_mono_pos_r _ _ w Hw). lia.
    - apply (Z.mul_le_mono_pos_r _ _ w Hw). lia. }
  clear Ef Eu Eq. exists (v / ulp0).
  assert (Hdm := Z.div_mod v ulp0 ltac:(lia)). assert (Hmod := Z.mod_pos_bound v ulp0 Hu).
  assert (H0 : 0 <= v). { unfold v. destruct (dmul _ _) as [| | |[] p e]; try done. simpl in *. pose proof (pow2_pos (e + 1074)). nia. }
  assert (Hmk : Zpos m <= 2 ^ k) by (transitivity (2 ^ 53); [lia|apply Z.pow_le_mono_r; lia]).
  split; [|split; [apply Z.div_pos; lia|]].
  - unfold size_mul. apply size_of_double_spec; [done|]. fold v. set (u := ulp0) in *. clearbody u v.
    set (K := 2 ^ k) in *. clearbody K. change (2 ^ 52) with 4503599627370496 in *.
    change (2 ^ 64) with 18446744073709551616. change (2 ^ 53) with 9007199254740992 in *.
    assert (Hnm : n * Zpos m <= 9007199254740992 * K) by (apply Z.mul_le_mono_nonneg; lia).
    assert (Hnu : n * Zpos m * u <= 9007199254740992 * K * u) by (apply Z.mul_le_mono_nonneg_r; lia).
    assert (v * 4503599627370496 <= 9007199254740992 * 4503599627370497 * u); [|lia].
    apply (Z.mul_le_mono_pos_r _ _ K Hpk). lia.
  - set (q := v / ulp0) in *. set (u := ulp0) in *. clearbody q u v. set (K := 2 ^ k) in *. clearbody K.
    change (2 ^ 52) with 4503599627370496 in *. split; nia.
Qed.

End Scaling.

(** ** The default load factors *)

(** [0.4] and [0.7] as doubles. *)
Definition double_0_4 : double := S754_finite false 7205759403792794 (-54).
Definition double_0_7 : double := S754_finite false 6305039478318694 (-53).
Definition double_0_5 : double := S754_finite false 4503599627370496 (-53).
Definition double_1 : double := S754_finite false 4503599627370496 (-52).
