(* ===== verification/HashSet.v ===== *)
(** * Hash sets

    The open-addressing hash set with linear probing of the runtime
    (libartbase/base/hash_set.h): storage, probing, insertion, erasure with
    back-shifting, growth by load factors, and iteration. *)

From Stdlib Require Import ZArith Lia Bool List Permutation.
From stdpp Require Import base numbers list option.
From S2P Require Import Prelude Double.

Open Scope Z_scope.
Open Scope art_scope.

Definition kDefaultMinLoadFactor : double := double_0_4.
Definition kDefaultMaxLoadFactor : double := double_0_7.
Definition kMinBuckets : Z := 1000.

(** The members of the class but the function objects, which are arguments of
    the section below; [None] is a null [data_]. *)
Record HashSet (T : Type) := mkHashSet {
  num_elements_ : Z;
  num_buckets_ : Z;
  elements_until_expand_ : Z;
  owns_data_ : bool;
  data_ : option (list T);
  min_load_factor_ : double;
  max_load_factor_ : double
}.

Arguments mkHashSet {T}.
Arguments num_elements_ {T}.
Arguments num_buckets_ {T}.
Arguments elements_until_expand_ {T}.
Arguments owns_data_ {T}.
Arguments data_ {T}.
Arguments min_load_factor_ {T}.
Arguments max_load_factor_ {T}.

Section Operations.

(** [EmptyFn], [HashFn] and [Pred] of the template; [init] is a freshly
    constructed element and [moved_from] what a [std::move] leaves behind. *)
Context {T : Type}.
Context (IsEmpty : T -> bool) (MakeEmpty : T -> T) (init : T) (moved_from : T -> T).
Context (hashfn : T -> Z) (pred : T -> T -> bool).

Implicit Types s : HashSet T.

Definition set_data s (d : option (list T)) : HashSet T :=
  mkHashSet (num_elements_ s) (num_buckets_ s) (elements_until_expand_ s) (owns_data_ s) d
    (min_load_factor_ s) (max_load_factor_ s).
Definition set_num_elements s (n : Z) : HashSet T :=
  mkHashSet n (num_buckets_ s) (elements_until_expand_ s) (owns_data_ s) (data_ s)
    (min_load_factor_ s) (max_load_factor_ s).
Definition set_elements_until_expand s (n : Z) : HashSet T :=
  mkHashSet (num_elements_ s) (num_buckets_ s) n (owns_data_ s) (data_ s)
    (min_load_factor_ s) (max_load_factor_ s).

(** ** Storage *)

Definition NumBuckets s : Z := num_buckets_ s.
Definition size s : Z := num_elements_ s.
Definition HashSet_empty s : bool := size s =? 0.
Definition ElementsUntilExpand s : Z := elements_until_expand_ s.
Definition GetMinLoadFactor s : double := min_load_factor_ s.
Definition GetMaxLoadFactor s : double := max_load_factor_ s.

(** Reading and assigning through the reference [ElementForIndex] returns. *)
Definition ElementForIndex s (index : Z) : option T :=
  DCHECK (index <? NumBuckets s);
  d ← data_ s; aread d index.

Definition AssignElementForIndex s (index : Z) (v : T) : option (HashSet T) :=
  DCHECK (index <? NumBuckets s);
  d ← data_ s; d' ← awrite d index v; Some (set_data s (Some d')).

Definition IsFreeSlot s (index : Z) : option bool :=
  e ← ElementForIndex s index; Some (IsEmpty e).

Definition AllocateStorage s (num_buckets : Z) : HashSet T :=
  mkHashSet (num_elements_ s) num_buckets (elements_until_expand_ s) true
    (Some (replicate (Z.to_nat num_buckets) (MakeEmpty init))) (min_load_factor_ s) (max_load_factor_ s).

Definition DeallocateStorage s : HashSet T :=
  mkHashSet (num_elements_ s) 0 (elements_until_expand_ s) false None (min_load_factor_ s) (max_load_factor_ s).

Definition clear s : HashSet T := set_elements_until_expand (set_num_elements (DeallocateStorage s) 0) 0.

(** ** Construction *)

Definition double_0 : double := double_of_size 0.

Definition HashSet_create (min_load_factor max_load_factor : double) : option (HashSet T) :=
  DCHECK (dltb double_0 min_load_factor);
  DCHECK (dltb max_load_factor double_1);
  Some (mkHashSet 0 0 0 false None min_load_factor max_load_factor).

Definition HashSet_default : option (HashSet T) :=
  HashSet_create kDefaultMinLoadFactor kDefaultMaxLoadFactor.

(** Over a buffer of the caller. *)
Definition HashSet_buffer (min_load_factor max_load_factor : double) (buffer : list T) : option (HashSet T) :=
  let buffer_size := zlength buffer in
  until ← size_mul buffer_size max_load_factor;
  DCHECK (dltb double_0 min_load_factor);
  DCHECK (dltb max_load_factor double_1);
  Some (mkHashSet 0 buffer_size until false (Some (map MakeEmpty buffer))
          min_load_factor max_load_factor).

Definition HashSet_copy (other : HashSet T) : option (HashSet T) :=
  let s := mkHashSet (num_elements_ other) 0 (elements_until_expand_ other) false None
             (min_load_factor_ other) (max_load_factor_ other) in
  let s := AllocateStorage s (NumBuckets other) in
  for_loop (Z.to_nat (num_buckets_ s)) 0
    (fun i s => d ← data_ other; e ← aread d i; AssignElementForIndex s i e) s.

(** The new set and what is left of the other one. *)
Definition HashSet_move (other : HashSet T) : HashSet T * HashSet T :=
  (other, mkHashSet 0 0 0 false None (min_load_factor_ other) (max_load_factor_ other)).

Definition swap (s other : HashSet T) : HashSet T * HashSet T := (other, s).

(** ** Probing *)

Definition IndexForHash s (hash : Z) : Z :=
  if num_buckets_ s =? 0 then 0 else hash mod num_buckets_ s.

Definition NextIndex s (index : Z) : option Z :=
  let index := u64 (index + 1) in
  if num_buckets_ s <=? index then DCHECK (index =? NumBuckets s); Some 0 else Some index.

(** The index where the search ends and whether it found a matching element;
    [matches] is [pred_(slot, element)]. A search visits a slot at most once. *)
Fixpoint find_index_loop (fuel : nat) (kCanFind : bool) s (matches : T -> bool) (index : Z) : option (Z * bool) :=
  match fuel with
  | O => None
  | S fuel' =>
      slot ← ElementForIndex s index;
      if IsEmpty slot then Some (index, false)
      else if negb kCanFind then
        DCHECK (negb (matches slot));
        index ← NextIndex s index; find_index_loop fuel' kCanFind s matches index
      else if matches slot then Some (index, true)
      else index ← NextIndex s index; find_index_loop fuel' kCanFind s matches index
  end.

Definition FindIndexImpl (kCanFind : bool) s (element_hash : Z) (matches : T -> bool) (hash : Z) : option (Z * bool) :=
  DCHECK (negb (NumBuckets s =? 0));
  DCHECK (element_hash =? hash);
  find_index_loop (Z.to_nat (NumBuckets s)) kCanFind s matches (IndexForHash s hash).

Definition FindIndex s (element_hash : Z) (matches : T -> bool) (hash : Z) : option Z :=
  if NumBuckets s =? 0 then Some 0
  else
    '(index, found) ← FindIndexImpl true s element_hash matches hash;
    Some (if found : bool then index else NumBuckets s).

(** An iterator is the index of a slot. *)
Definition FindWithHash s (element_hash : Z) (matches : T -> bool) (hash : Z) : option Z :=
  FindIndex s element_hash matches hash.

Definition find s (key : T) : option Z :=
  FindWithHash s (hashfn key) (fun slot => pred slot key) (hashfn key).

Fixpoint first_available_loop (fuel : nat) s (index non_empty_count : Z) : option Z :=
  match fuel with
  | O => None
  | S fuel' =>
      d ← data_ s; e ← aread d index;
      if negb (IsEmpty e) then
        index ← NextIndex s index;
        let non_empty_count := non_empty_count + 1 in
        DCHECK (non_empty_count <=? NumBuckets s);
        first_available_loop fuel' s index non_empty_count
      else Some index
  end.

Definition FirstAvailableSlot s (index : Z) : option Z :=
  DCHECK (index <? NumBuckets s);
  first_available_loop (Z.to_nat (NumBuckets s)) s index 0.

(** ** Growth *)

(** The body of the loop of [Resize]: slot [i] of the old storage is moved over. *)
Definition reinsert (old_data : option (list T)) (i : Z) s : option (HashSet T) :=
  old ← old_data; element ← aread old i;
  if negb (IsEmpty element) then
    index ← FirstAvailableSlot s (IndexForHash s (hashfn element));
    d ← data_ s; d' ← awrite d index element;
    Some (set_data s (Some d'))
  else Some s.

Definition Resize s (new_size : Z) : option (HashSet T) :=
  let new_size := if new_size <? kMinBuckets then kMinBuckets else new_size in
  DCHECK (size s <=? new_size);
  let old_data := data_ s in
  let old_num_buckets := num_buckets_ s in
  let s := AllocateStorage s new_size in
  s ← for_loop (Z.to_nat old_num_buckets) 0 (reinsert old_data) s;
  until ← size_mul (NumBuckets s) (max_load_factor_ s);
  Some (set_elements_until_expand s until).

Definition Expand s : option (HashSet T) :=
  min_index ← size_div (size s) (min_load_factor_ s);
  Resize s min_index.

Definition expand_if_needed s : option (HashSet T) :=
  if elements_until_expand_ s <=? num_elements_ s then
    s ← Expand s;
    DCHECK (num_elements_ s <? elements_until_expand_ s);
    Some s
  else Some s.

Definition ShrinkToMaximumLoad s : option (HashSet T) :=
  n ← size_div (size s) (max_load_factor_ s); Resize s n.

(** The loop that makes up for rounding in [reserve] takes a few turns. *)
Fixpoint reserve_loop (fuel : nat) (max_load_factor : double) (num_elements num_buckets : Z) : option Z :=
  c ← size_mul num_buckets max_load_factor;
  if c <=? u64 (num_elements + 1) then
    match fuel with O => None | S fuel' => reserve_loop fuel' max_load_factor num_elements (num_buckets + 1) end
  else Some num_buckets.

Definition reserve s (num_elements : Z) : option (HashSet T) :=
  num_buckets ← size_div num_elements (max_load_factor_ s);
  num_buckets ← reserve_loop 100 (max_load_factor_ s) num_elements num_buckets;
  if NumBuckets s <? num_buckets then Resize s num_buckets else Some s.

(** ** Insertion *)

(** The new set, the index of the element and whether it was inserted. *)
Definition InsertWithHash s (element : T) (hash : Z) : option (HashSet T * Z * bool) :=
  DCHECK (hash =? hashfn element);
  s ← expand_if_needed s;
  '(index, found) ← FindIndexImpl true s (hashfn element) (fun slot => pred slot element) hash;
  if negb found then
    d ← data_ s; d' ← awrite d index element;
    Some (set_num_elements (set_data s (Some d')) (num_elements_ s + 1), index, true)
  else Some (s, index, false).

Definition insert s (element : T) : option (HashSet T * Z * bool) := InsertWithHash s element (hashfn element).

Definition PutWithHash s (element : T) (hash : Z) : option (HashSet T) :=
  DCHECK (hash =? hashfn element);
  s ← expand_if_needed s;
  '(index, _) ← FindIndexImpl false s (hashfn element) (fun slot => pred slot element) hash;
  d ← data_ s; d' ← awrite d index element;
  Some (set_num_elements (set_data s (Some d')) (num_elements_ s + 1)).

Definition Put s (element : T) : option (HashSet T) := PutWithHash s element (hashfn element).

(** ** Iteration and erasure *)

Fixpoint next_non_empty_loop (fuel : nat) s (num_buckets index : Z) : option Z :=
  match fuel with
  | O => None
  | S fuel' =>
      let index := index + 1 in
      if index <? num_buckets then
        free ← IsFreeSlot s index;
        if (free : bool) then next_non_empty_loop fuel' s num_buckets index else Some index
      else Some index
  end.

Definition NextNonEmptySlot s (index : Z) : option Z :=
  let num_buckets := NumBuckets s in
  DCHECK (index <? num_buckets);
  next_non_empty_loop (Z.to_nat num_buckets) s num_buckets index.

Definition iterator_next s (it : Z) : option Z := NextNonEmptySlot s it.

Definition iterator_deref s (it : Z) : option T :=
  free ← IsFreeSlot s it;
  DCHECK (negb free);
  ElementForIndex s it.

Definition begin s : option Z :=
  if num_buckets_ s =? 0 then Some 0
  else
    free ← IsFreeSlot s 0;
    if (free : bool) then iterator_next s 0 else Some 0.

Definition end_ s : Z := NumBuckets s.

(** A search for an empty slot to stop at; the second component is [filled]. *)
Fixpoint erase_loop (fuel : nat) s (empty_index next_index : Z) (filled : bool) : option (HashSet T * bool) :=
  match fuel with
  | O => None
  | S fuel' =>
      next_index ← NextIndex s next_index;
      next_element ← ElementForIndex s next_index;
      if IsEmpty next_element then
        e ← ElementForIndex s empty_index;
        s ← AssignElementForIndex s empty_index (MakeEmpty e);
        Some (s, filled)
      else
        let next_hash := hashfn next_element in
        let next_ideal_index := IndexForHash s next_hash in
        let unwrapped_next_index :=
          if next_index <? empty_index then u64 (next_index + NumBuckets s) else next_index in
        let unwrapped_next_ideal_index :=
          if next_ideal_index <? empty_index then u64 (next_ideal_index + NumBuckets s) else next_ideal_index in
        if (unwrapped_next_ideal_index <=? empty_index) ||
           (unwrapped_next_index <? unwrapped_next_ideal_index) then
          s ← AssignElementForIndex s empty_index next_element;
          s ← AssignElementForIndex s next_index (moved_from next_element);
          erase_loop fuel' s next_index next_index true
        else erase_loop fuel' s empty_index next_index filled
  end.

Definition erase s (it : Z) : option (HashSet T * Z) :=
  let empty_index := it in
  free ← IsFreeSlot s empty_index;
  DCHECK (negb free);
  '(s, filled) ← erase_loop (Z.to_nat (NumBuckets s)) s empty_index empty_index false;
  let s := set_num_elements s (num_elements_ s - 1) in
  if negb filled then it ← iterator_next s it; Some (s, it) else Some (s, it).

(** ** Load factors and diagnostics *)

Definition CalculateLoadFactor s : double :=
  ddiv (double_of_size (size s)) (double_of_size (NumBuckets s)).

Definition SetLoadFactor s (min_load_factor max_load_factor : double) : option (HashSet T) :=
  DCHECK (dltb min_load_factor max_load_factor);
  DCHECK (dltb double_0 min_load_factor);
  DCHECK (dltb max_load_factor double_1);
  until ← size_mul (NumBuckets s) max_load_factor;
  let s := mkHashSet (num_elements_ s) (num_buckets_ s) until (owns_data_ s) (data_ s)
             min_load_factor max_load_factor in
  let load_factor := CalculateLoadFactor s in
  if dltb (max_load_factor_ s) load_factor then
    n ← size_of_double (ddiv (double_of_size (size s))
          (dmul (dadd (min_load_factor_ s) (max_load_factor_ s)) double_0_5));
    Resize s n
  else Some s.

Definition TotalProbeDistance s : option Z :=
  for_loop (Z.to_nat (NumBuckets s)) 0
    (fun i total =>
       element ← ElementForIndex s i;
       if negb (IsEmpty element) then
         let ideal_location := IndexForHash s (hashfn element) in
         if i <? ideal_location then Some (u64 (total + (i + NumBuckets s - ideal_location)))
         else Some (u64 (total + (i - ideal_location)))
       else Some total) 0.

(** Each element is taken out, searched a place for, and put back. *)
Definition Verify s : option (HashSet T * Z) :=
  for_loop (Z.to_nat (num_buckets_ s)) 0
    (fun i '(s, errors) =>
       d ← data_ s; element ← aread d i;
       if negb (IsEmpty element) then
         let temp := MakeEmpty init in
         d' ← awrite d i temp;
         let s' := set_data s (Some d') in
         first_slot ← FirstAvailableSlot s' (IndexForHash s' (hashfn element));
         let errors := if negb (i =? first_slot) then errors + 1 else errors in
         d'' ← awrite d' i element;
         Some (set_data s' (Some d''), errors)
       else Some (s, errors)) (s, 0).

End Operations.

(** ** Distances along the table *)

(** Steps from slot [a] to slot [b], wrapping around. *)
Definition dist (n a b : Z) : Z := if a <=? b then b - a else b - a + n.
Definition next_slot (n i : Z) : Z := if i + 1 =? n then 0 else i + 1.

Ltac dist_lia := unfold dist, next_slot in *; zcases; lia.

Lemma dist_range n a b : 0 <= a < n -> 0 <= b < n -> 0 <= dist n a b < n.
Proof. intros. dist_lia. Qed.

Lemma dist_self n a : dist n a a = 0.
Proof. dist_lia. Qed.

Lemma dist_zero n a b : 0 <= a < n -> 0 <= b < n -> dist n a b = 0 -> a = b.
Proof. unfold dist. intros ? ?. zcases; lia. Qed.

Lemma dist_inj n a b c : 0 <= a < n -> 0 <= b < n -> 0 <= c < n -> dist n a b = dist n a c -> b = c.
Proof. unfold dist. intros ? ? ?. zcases; lia. Qed.

Lemma next_slot_range n i : 0 <= i < n -> 0 <= next_slot n i < n.
Proof. intros. dist_lia. Qed.

Lemma dist_next n a b : 0 <= a < n -> 0 <= b < n ->
  (dist n a b < n - 1 /\ dist n a (next_slot n b) = dist n a b + 1) \/ (dist n a b = n - 1 /\ next_slot n b = a).
Proof. intros. unfold dist, next_slot. zcases; lia. Qed.

Lemma dist_prev n a b : 0 <= a < n -> 0 <= b < n -> a <> b -> dist n (next_slot n a) b = dist n a b - 1.
Proof. intros. unfold dist, next_slot. zcases; lia. Qed.

(** Going on from [b] to [c]. *)
Lemma dist_via n a b c : 0 <= a < n -> 0 <= b < n -> 0 <= c < n ->
  dist n b c = (if dist n a b <=? dist n a c then dist n a c - dist n a b else n - dist n a b + dist n a c).
Proof. intros. unfold dist. zcases; lia. Qed.

(** ** Tables *)

Section Tables.

Context {T : Type} (IsEmpty : T -> bool) (hashfn : T -> Z).

Implicit Types l : list T.

Definition elems l : list T := List.filter (fun e => negb (IsEmpty e)) l.

Definition full l (i : Z) : Prop := exists e, aread l i = Some e /\ IsEmpty e = false.

Definition ideal (n : Z) (e : T) : Z := hashfn e mod n.

(** The probing invariant: no free slot between the ideal slot of an element
    and its own. *)
Definition probe l : Prop :=
  forall i e s, aread l i = Some e -> IsEmpty e = false -> 0 <= s < zlength l ->
    dist (zlength l) (ideal (zlength l) e) s < dist (zlength l) (ideal (zlength l) e) i -> full l s.

(** The elements outside a slot. *)
Definition others l (i : Z) : list T := elems (take (Z.to_nat i) l ++ drop (S (Z.to_nat i)) l).

Lemma ideal_range n e : 0 < n -> 0 <= ideal n e < n.
Proof. apply Z.mod_pos_bound. Qed.

Lemma elems_app l1 l2 : elems (l1 ++ l2) = elems l1 ++ elems l2.
Proof. apply filter_app. Qed.

Lemma elems_at l i e : aread l i = Some e -> Permutation (elems l) (elems [e] ++ others l i).
Proof.
  intros He. pose proof (aread_inv _ _ _ He). rewrite aread_lookup in He by lia.
  rewrite <- (take_drop_middle l _ e He) at 1. unfold others.
  change (e :: drop (S (Z.to_nat i)) l) with ([e] ++ drop (S (Z.to_nat i)) l). rewrite !elems_app.
  apply Permutation_app_swap_app.
Qed.

Lemma others_insert l i x : 0 <= i < zlength l -> others (<[Z.to_nat i := x]> l) i = others l i.
Proof.
  intros Hi. unfold others. rewrite take_insert_ge, drop_insert_lt by lia. done.
Qed.

Lemma elems_insert l i x : 0 <= i < zlength l ->
  Permutation (elems (<[Z.to_nat i := x]> l)) (elems [x] ++ others l i).
Proof.
  intros Hi. rewrite <- (others_insert l i x Hi). apply elems_at. by rewrite aread_insert, Z.eqb_refl by lia.
Qed.

Lemma elems_empty e : IsEmpty e = true -> elems [e] = [].
Proof. intros He. simpl. by rewrite He. Qed.

Lemma elems_full e : IsEmpty e = false -> elems [e] = [e].
Proof. intros He. simpl. by rewrite He. Qed.

Lemma elems_In l e : In e (elems l) <-> IsEmpty e = false /\ exists i, aread l i = Some e.
Proof.
  unfold elems. rewrite filter_In, negb_true_iff. split.
  - intros [Hin He]. split; [done|]. apply (In_nth_error) in Hin as [k Hk]. exists (Z.of_nat k).
    rewrite aread_lookup, Nat2Z.id by lia. rewrite <- Hk. clear. revert k. induction l; intros []; simpl; auto.
  - intros [He [i Hi]]. split; [|done]. pose proof (aread_inv _ _ _ Hi). rewrite aread_lookup in Hi by lia.
    apply list_elem_of_In. by apply (list_elem_of_lookup_2 l (Z.to_nat i)).
Qed.

Lemma elems_le l : (length (elems l) <= length l)%nat.
Proof. induction l as [|e l IH]; simpl; [done|]. destruct (IsEmpty e); simpl; lia. Qed.

Lemma exists_free l : (length (elems l) < length l)%nat ->
  exists z e, aread l z = Some e /\ IsEmpty e = true.
Proof.
  induction l as [|e l IH]; simpl; [lia|]. intros Hlt. destruct (IsEmpty e) eqn:Ee; simpl in Hlt.
  - exists 0, e. done.
  - destruct IH as (z & e' & Hz & He'); [lia|]. pose proof (aread_inv _ _ _ Hz).
    exists (z + 1), e'. split; [|done]. rewrite aread_lookup in Hz |- * by lia.
    replace (Z.to_nat (z + 1)) with (S (Z.to_nat z)) by lia. done.
Qed.

Lemma full_insert l i x s : 0 <= i < zlength l -> 0 <= s -> IsEmpty x = false ->
  full l s -> full (<[Z.to_nat i := x]> l) s.
Proof.
  intros Hi Hs Hx (e & He & Hf). unfold full. rewrite aread_insert by done.
  destruct (Z.eqb_spec s i); [by exists x|by exists e].
Qed.

(** Filling a free slot that the search for [x] reached. *)
Lemma probe_insert l i x :
  0 <= i < zlength l -> IsEmpty x = false -> probe l ->
  (forall s, 0 <= s < zlength l -> dist (zlength l) (ideal (zlength l) x) s < dist (zlength l) (ideal (zlength l) x) i -> full l s) ->
  probe (<[Z.to_nat i := x]> l).
Proof.
  intros Hi Hx Hp Hpath j e s Hj He. rewrite length_insert. intros Hs Hd.
  pose proof (aread_inv _ _ _ Hj) as Hjr. rewrite aread_insert in Hj by lia.
  apply full_insert; try done; [lia|]. destruct (Z.eqb_spec j i) as [->|].
  - injection Hj as ->. by apply Hpath.
  - by apply (Hp j e).
Qed.

End Tables.

(** ** Probing a table *)

Section Probing.

Context {T : Type} (IsEmpty : T -> bool) (MakeEmpty : T -> T) (init : T) (moved_from : T -> T).
Context (hashfn : T -> Z).

Implicit Types (s : HashSet T) (l : list T).

(** [l] is the storage of [s]. *)
Definition holds s l : Prop :=
  data_ s = Some l /\ num_buckets_ s = zlength l /\ 0 < zlength l <= 2 ^ 52.

Lemma ElementForIndex_spec s l i : holds s l -> 0 <= i < zlength l -> ElementForIndex s i = aread l i.
Proof.
  intros (Hd & Hn & _) Hi. unfold ElementForIndex, NumBuckets. rewrite Hn, (proj2 (Z.ltb_lt _ _)), Hd by lia. done.
Qed.

Lemma Assign_spec s l i v : holds s l -> 0 <= i < zlength l ->
  AssignElementForIndex s i v = Some (set_data s (Some (<[Z.to_nat i := v]> l))) /\
  holds (set_data s (Some (<[Z.to_nat i := v]> l))) (<[Z.to_nat i := v]> l).
Proof.
  intros (Hd & Hn & Hl) Hi. unfold AssignElementForIndex, NumBuckets.
  rewrite Hn, (proj2 (Z.ltb_lt _ _)), Hd by lia. cbn [dcheck mbind option_bind].
  rewrite awrite_some by lia. split; [done|].
  split; [done|]. simpl. rewrite length_insert. by split.
Qed.

Lemma NextIndex_spec s l i : holds s l -> 0 <= i < zlength l -> NextIndex s i = Some (next_slot (zlength l) i).
Proof.
  intros (_ & Hn & Hl) Hi. unfold NextIndex, NumBuckets, next_slot. rewrite Hn.
  rewrite wrap_id by (unfold is_u; lia). destruct (Z.eqb_spec (i + 1) (zlength l)) as [->|].
  - by rewrite Z.leb_refl.
  - by rewrite (proj2 (Z.leb_gt _ _)) by lia.
Qed.

Lemma IndexForHash_spec s l e : holds s l -> IndexForHash s (hashfn e) = ideal hashfn (zlength l) e.
Proof. intros (_ & Hn & Hl). unfold IndexForHash, ideal. rewrite Hn. by rewrite (proj2 (Z.eqb_neq _ 0)) by lia. Qed.

Lemma IsFreeSlot_spec s l i e : holds s l -> aread l i = Some e -> IsFreeSlot IsEmpty s i = Some (IsEmpty e).
Proof.
  intros Hs He. pose proof (aread_inv _ _ _ He). unfold IsFreeSlot. rewrite (ElementForIndex_spec s l) by done.
  by rewrite He.
Qed.

(** [P] holds of the elements in the slots from [a] up to [i]. *)
Definition along (P : T -> Prop) l (a i : Z) : Prop :=
  forall k, 0 <= k < zlength l -> dist (zlength l) a k < dist (zlength l) a i ->
    exists e, aread l k = Some e /\ IsEmpty e = false /\ P e.

(** Walking on from an occupied slot. *)
Lemma along_next P l a i e :
  0 <= a < zlength l -> along P l a i -> aread l i = Some e -> IsEmpty e = false -> P e ->
  (exists z e', aread l z = Some e' /\ IsEmpty e' = true) ->
  dist (zlength l) a (next_slot (zlength l) i) = dist (zlength l) a i + 1 /\ dist (zlength l) a i < zlength l - 1 /\
  along P l a (next_slot (zlength l) i).
Proof.
  intros Ha Hal Hi He HP (z & e' & Hz & He'). pose proof (aread_inv _ _ _ Hi). pose proof (aread_inv _ _ _ Hz).
  assert (Hal' : forall k, 0 <= k < zlength l -> dist (zlength l) a k <= dist (zlength l) a i ->
            exists e, aread l k = Some e /\ IsEmpty e = false /\ P e).
  { intros k Hs Hd. destruct (Z.eq_dec (dist (zlength l) a k) (dist (zlength l) a i)) as [E|].
    - apply dist_inj in E; try lia. subst k. by exists e.
    - apply Hal; [done|lia]. }
  destruct (dist_next (zlength l) a i) as [[Hlt Hd]|[Hd _]]; try lia.
  - split; [done|]. split; [done|]. intros k Hs Hds. apply Hal'; [done|lia].
  - destruct (Hal' z) as (e2 & Hz2 & He2 & _); [done| |congruence].
    pose proof (dist_range (zlength l) a z ltac:(lia) ltac:(lia)). lia.
Qed.

(** Where a search ends. *)
Lemma find_index_loop_ends kCanFind s l matches a i fuel :
  holds s l -> 0 <= a < zlength l -> 0 <= i < zlength l ->
  along (fun e => matches e = false) l a i ->
  (exists z e, aread l z = Some e /\ IsEmpty e = true) ->
  (kCanFind = false -> forall j e, aread l j = Some e -> IsEmpty e = false -> matches e = false) ->
  (zlength l <= dist (zlength l) a i + Z.of_nat fuel) ->
  exists i' found e, find_index_loop IsEmpty fuel kCanFind s matches i = Some (i', found) /\
    along (fun e => matches e = false) l a i' /\ aread l i' = Some e /\
    (if found then IsEmpty e = false /\ matches e = true else IsEmpty e = true).
Proof.
  intros Hs Ha. revert i. induction fuel as [|fuel IH]; intros i Hi Hal Hz Hno Hf.
  { pose proof (dist_range (zlength l) a i Ha Hi). lia. }
  cbn [find_index_loop]. rewrite (ElementForIndex_spec s l) by done.
  destruct (aread_some l i Hi) as [e He]. rewrite He. cbn [mbind option_bind].
  destruct (IsEmpty e) eqn:Ee; [by exists i, false, e|].
  assert (Hstep : matches e = false -> exists i' found e0,
            mbind (M := option) (fun index => find_index_loop IsEmpty fuel kCanFind s matches index) (NextIndex s i) = Some (i', found) /\
            along (fun e => matches e = false) l a i' /\ aread l i' = Some e0 /\
            (if found then IsEmpty e0 = false /\ matches e0 = true else IsEmpty e0 = true)).
  { intros Hm. destruct (along_next _ l a i e Ha Hal He Ee Hm Hz) as (Hd & Hlt & Hal').
    rewrite (NextIndex_spec s l) by done. cbn [mbind option_bind].
    apply IH; try done; [by apply next_slot_range|lia]. }
  destruct kCanFind; cbn [negb].
  - destruct (matches e) eqn:Em; [by exists i, true, e|auto].
  - rewrite (Hno eq_refl i e) by done. cbn [negb dcheck mbind option_bind]. apply Hstep. by apply (Hno eq_refl i e).
Qed.

Lemma first_available_loop_spec s l a i count fuel :
  holds s l -> 0 <= a < zlength l -> 0 <= i < zlength l -> count = dist (zlength l) a i ->
  along (fun _ => True) l a i ->
  (exists z e, aread l z = Some e /\ IsEmpty e = true) ->
  (zlength l <= dist (zlength l) a i + Z.of_nat fuel) ->
  exists i' e, first_available_loop IsEmpty fuel s i count = Some i' /\
    along (fun _ => True) l a i' /\ aread l i' = Some e /\ IsEmpty e = true.
Proof.
  intros Hs Ha. pose proof Hs as (Hdata & Hn & _). revert i count. induction fuel as [|fuel IH]; intros i count Hi -> Hal Hz Hf.
  { pose proof (dist_range (zlength l) a i Ha Hi). lia. }
  cbn [first_available_loop]. rewrite Hdata. cbn [mbind option_bind].
  destruct (aread_some l i Hi) as [e He]. rewrite He. cbn [mbind option_bind].
  destruct (IsEmpty e) eqn:Ee; cbn [negb]; [by exists i, e|].
  destruct (along_next _ l a i e Ha Hal He Ee I Hz) as (Hd & Hlt & Hal').
  rewrite (NextIndex_spec s l) by done. cbn [mbind option_bind]. unfold NumBuckets.
  rewrite Hn, (proj2 (Z.leb_le _ _)) by lia. cbn [dcheck mbind option_bind].
  apply IH; try done; [by apply next_slot_range|lia].
Qed.

(** A search that ends at a free slot has seen every matching element. *)
Lemma not_found l matches (h i : Z) e :
  probe IsEmpty hashfn l -> 0 < zlength l -> along (fun e => matches e = false) l (h mod zlength l) i ->
  aread l i = Some e -> IsEmpty e = true ->
  (forall x, matches x = true -> hashfn x = h) ->
  forall x, In x (elems IsEmpty l) -> matches x = false.
Proof.
  intros Hp Hn Hal He Hfree Hh x (Hx & j & Hj)%elems_In. apply not_true_is_false. intros Hm.
  pose proof (aread_inv _ _ _ Hj). pose proof (aread_inv _ _ _ He).
  assert (Hid : ideal hashfn (zlength l) x = h mod zlength l) by (unfold ideal; by rewrite (Hh x Hm)).
  assert (0 <= h mod zlength l < zlength l) by (by apply Z.mod_pos_bound).
  destruct (Z.lt_total (dist (zlength l) (h mod zlength l) j) (dist (zlength l) (h mod zlength l) i)) as [Hlt|[Heq|Hgt]].
  - destruct (Hal j ltac:(lia) Hlt) as (x' & Hj' & _ & Hm'). congruence.
  - apply dist_inj in Heq; try lia. congruence.
  - destruct (Hp j x i Hj Hx ltac:(lia)) as (e' & He' & Hf'); [by rewrite Hid|]. congruence.
Qed.

End Probing.

(** ** Erasing an element *)

Section Erasing.

Context {T : Type} (IsEmpty : T -> bool) (MakeEmpty : T -> T) (moved_from : T -> T) (hashfn : T -> Z).
Context (HMake : forall x, IsEmpty (MakeEmpty x) = true).

Implicit Types (s : HashSet T) (l : list T).

(** The loop has scanned the slots after the hole [h] up to [j]. They are
    occupied; an element outside the hole whose probe path crosses the hole
    lies beyond them. *)
Record hole l (h j : Z) : Prop := {
  ho_h : 0 <= h < zlength l;
  ho_j : 0 <= j < zlength l;
  ho_scanned : forall k, 0 <= k < zlength l -> 0 < dist (zlength l) h k <= dist (zlength l) h j -> full IsEmpty l k;
  ho_path : forall i e k, i <> h -> aread l i = Some e -> IsEmpty e = false -> 0 <= k < zlength l ->
    dist (zlength l) (ideal hashfn (zlength l) e) k < dist (zlength l) (ideal hashfn (zlength l) e) i ->
    k = h \/ full IsEmpty l k;
  ho_cross : forall i e, i <> h -> aread l i = Some e -> IsEmpty e = false ->
    dist (zlength l) (ideal hashfn (zlength l) e) h < dist (zlength l) (ideal hashfn (zlength l) e) i ->
    dist (zlength l) h j < dist (zlength l) h i
}.

Lemma hole_start l h : probe IsEmpty hashfn l -> 0 <= h < zlength l -> hole l h h.
Proof.
  intros Hp Hh. split; try done.
  - intros k Hk. rewrite dist_self. lia.
  - intros i e k _ Hi He Hk Hd. right. by apply (Hp i e).
  - intros i e Hne Hi He _. rewrite dist_self. pose proof (aread_inv _ _ _ Hi).
    pose proof (dist_range (zlength l) h i ltac:(lia) ltac:(lia)).
    destruct (Z.eq_dec (dist (zlength l) h i) 0) as [E|]; [apply dist_zero in E; lia|lia].
Qed.

(** The scan goes on to a slot whose element has its ideal slot behind the
    hole: the element stays. *)
Lemma hole_skip l h j e :
  hole l h j -> dist (zlength l) h (next_slot (zlength l) j) = dist (zlength l) h j + 1 ->
  aread l (next_slot (zlength l) j) = Some e -> IsEmpty e = false ->
  0 < dist (zlength l) h (ideal hashfn (zlength l) e) <= dist (zlength l) h (next_slot (zlength l) j) ->
  hole l h (next_slot (zlength l) j).
Proof.
  intros [Hh Hj Hs Hp Hc] Hd Hr He Hin. set (n := zlength l) in *. set (j' := next_slot n j) in *.
  assert (Hj' : 0 <= j' < n) by (by apply next_slot_range). split; try done; fold n.
  - intros k Hk Hdk. destruct (Z.eq_dec (dist n h k) (dist n h j')) as [E|].
    + apply dist_inj in E; try lia. subst k. by exists e.
    + apply Hs; [done|lia].
  - intros i x Hne Hi Hx Hcr. pose proof (Hc i x Hne Hi Hx Hcr) as Hlt. pose proof (aread_inv _ _ _ Hi) as Hir.
    destruct (Z.eq_dec (dist n h i) (dist n h j')) as [E|]; [exfalso|lia].
    apply dist_inj in E; try done. subst i. assert (x = e) as -> by congruence.
    assert (Hid : 0 <= ideal hashfn n e < n) by (apply ideal_range; lia).
    rewrite (dist_via n h (ideal hashfn n e) h), (dist_via n h (ideal hashfn n e) j'), dist_self in Hcr by done.
    pose proof (dist_range n h j' Hh Hj').
    rewrite (proj2 (Z.leb_gt _ 0)), (proj2 (Z.leb_le _ (dist n h j'))) in Hcr by lia. lia.
Qed.

(** The scan goes on to a slot whose element has its ideal slot elsewhere: the
    element moves into the hole and leaves a hole. *)
Lemma hole_move l h j e m :
  hole l h j -> next_slot (zlength l) j <> h ->
  aread l (next_slot (zlength l) j) = Some e -> IsEmpty e = false ->
  dist (zlength l) h (ideal hashfn (zlength l) e) = 0 \/
    dist (zlength l) h (next_slot (zlength l) j) < dist (zlength l) h (ideal hashfn (zlength l) e) ->
  let j' := next_slot (zlength l) j in
  let l' := <[Z.to_nat j' := m]> (<[Z.to_nat h := e]> l) in
  hole l' j' j' /\ Permutation (others IsEmpty l' j') (others IsEmpty l h).
Proof.
  intros [Hh Hj Hs Hp Hc] Hne Hr He Hout j' l'.
  assert (Hlen : zlength l' = zlength l) by (unfold l'; by rewrite !length_insert).
  assert (Hj' : 0 <= j' < zlength l) by (by apply next_slot_range).
  assert (Hread : forall i, 0 <= i -> aread l' i = if i =? j' then Some m else if i =? h then Some e else aread l i).
  { intros i Hi. unfold l'. rewrite aread_insert by (rewrite ?length_insert; lia). destruct (i =? j'); [done|].
    by rewrite aread_insert by lia. }
  assert (Hfull : forall k, 0 <= k -> k = h \/ full IsEmpty l k -> k = j' \/ full IsEmpty l' k).
  { intros k Hk Hor. destruct (Z.eq_dec k j'); [by left|right]. unfold full. rewrite Hread by done.
    rewrite (proj2 (Z.eqb_neq k j')) by done. destruct (Z.eqb_spec k h); [by exists e|]. by destruct Hor. }
  split.
  - split; rewrite Hlen; try done.
    + intros k Hk. rewrite dist_self. lia.
    + intros i x k Hij Hi Hx Hk Hd. pose proof (aread_inv _ _ _ Hi) as Hir. rewrite Hread in Hi by lia.
      rewrite (proj2 (Z.eqb_neq i j')) in Hi by done. apply Hfull; [lia|]. destruct (Z.eqb_spec i h) as [->|Hih].
      * assert (x = e) as -> by congruence. assert (Hid : 0 <= ideal hashfn (zlength l) e < zlength l) by (apply ideal_range; lia).
        apply (Hp j' e); try done. etransitivity; [exact Hd|].
        rewrite (dist_via _ h (ideal hashfn (zlength l) e) h), (dist_via _ h (ideal hashfn (zlength l) e) j'), dist_self in * by done.
        pose proof (dist_range _ h j' Hh Hj'). pose proof (dist_range _ h _ Hh Hid).
        assert (dist (zlength l) h j' <> 0) by (intros E; apply dist_zero in E; try lia; done).
        fold j' in Hout. zcases; lia.
      * by apply (Hp i x).
    + intros i x Hij Hi _ _. pose proof (aread_inv _ _ _ Hi) as Hir. rewrite Hlen in Hir. rewrite dist_self.
      pose proof (dist_range _ j' i Hj' Hir).
      destruct (Z.eq_dec (dist (zlength l) j' i) 0) as [E|]; [apply dist_zero in E; lia|lia].
  - unfold l'. rewrite others_insert by (rewrite length_insert; lia).
    pose proof (elems_insert IsEmpty l h e Hh) as P1.
    assert (Hrj : aread (<[Z.to_nat h := e]> l) j' = Some e).
    { rewrite aread_insert by lia. rewrite (proj2 (Z.eqb_neq j' h)) by done. done. }
    pose proof (elems_at IsEmpty _ _ _ Hrj) as P2. rewrite P1 in P2. rewrite (elems_full IsEmpty e He) in P2.
    apply (Permutation_cons_inv (a := e)). symmetry. exact P2.
Qed.

(** The scan reaches a free slot: emptying the hole restores the invariant. *)
Lemma hole_close l h j x e :
  hole l h j -> dist (zlength l) h (next_slot (zlength l) j) = dist (zlength l) h j + 1 ->
  aread l (next_slot (zlength l) j) = Some e -> IsEmpty e = true -> IsEmpty x = true ->
  probe IsEmpty hashfn (<[Z.to_nat h := x]> l).
Proof.
  intros [Hh Hj Hs Hp Hc] Hd Hr He Hx i y k Hi Hy. rewrite length_insert. intros Hk Hdk.
  set (n := zlength l) in *. set (j' := next_slot n j) in *. assert (Hj' : 0 <= j' < n) by (by apply next_slot_range).
  pose proof (aread_inv _ _ _ Hi) as Hir. rewrite length_insert in Hir. fold n in Hir. rewrite aread_insert in Hi by (fold n; lia).
  destruct (Z.eqb_spec i h) as [->|Hih]; [congruence|].
  assert (Hid : 0 <= ideal hashfn n y < n) by (apply ideal_range; lia).
  assert (Hnc : ~ dist n (ideal hashfn n y) h < dist n (ideal hashfn n y) i).
  { intros Hcr. pose proof (Hc i y Hih Hi Hy Hcr) as Hlt. fold n in Hlt.
    assert (dist n h i <> dist n h j') by (intros E; apply dist_inj in E; try done; subst i; congruence).
    assert (Hj'i : dist n (ideal hashfn n y) j' < dist n (ideal hashfn n y) i).
    { pose proof (dist_via n (ideal hashfn n y) h i Hid Hh Hir). pose proof (dist_via n (ideal hashfn n y) h j' Hid Hh Hj').
      pose proof (dist_range n (ideal hashfn n y) h Hid Hh). pose proof (dist_range n h i Hh Hir). revert H0 H1. zcases; lia. }
    destruct (Hp i y j' Hih Hi Hy Hj' Hj'i) as [E|(e' & He' & Hf')]; [|congruence].
    rewrite E, dist_self in Hd. pose proof (dist_range n h j Hh Hj). lia. }
  destruct (Hp i y k Hih Hi Hy Hk Hdk) as [->|Hf]; [done|]. destruct Hf as (e' & He' & Hf'). exists e'.
  rewrite aread_insert by (fold n; lia). destruct (Z.eqb_spec k h) as [->|]; [|done]. done.
Qed.

Lemma unwrapped_spec n h x : 0 <= h < n -> 0 <= x < n -> n <= 2 ^ 52 ->
  (if x <? h then u64 (x + n) else x) = h + dist n h x.
Proof.
  intros Hh Hx Hn. destruct (Z.ltb_spec x h).
  - rewrite wrap_id by (unfold is_u; lia). dist_lia.
  - dist_lia.
Qed.

(** The scan cannot come back to the hole while there is a free slot. *)
Lemma hole_next l h j z e :
  hole l h j -> aread l z = Some e -> IsEmpty e = true -> z <> h ->
  dist (zlength l) h (next_slot (zlength l) j) = dist (zlength l) h j + 1.
Proof.
  intros [Hh Hj Hs _ _] Hz He Hne. pose proof (aread_inv _ _ _ Hz) as Hzr.
  destruct (dist_next (zlength l) h j Hh Hj) as [[_ ?]|[Hd _]]; [done|exfalso].
  destruct (Hs z Hzr) as (e' & He' & Hf'); [|congruence].
  pose proof (dist_range _ h z Hh Hzr). assert (dist (zlength l) h z <> 0) by (intros E; apply dist_zero in E; try lia; congruence).
  lia.
Qed.

(** The whole state of the scan: [h0] is the slot the caller erases, [z] a free
    slot ahead. *)
Record scan l (h0 h j z : Z) (filled : bool) : Prop := {
  sc_hole : hole l h j;
  sc_free : exists ez, aread l z = Some ez /\ IsEmpty ez = true;
  sc_zh : z <> h;
  sc_zj : z <> j;
  sc_h0 : 0 <= h0 < zlength l;
  sc_dist : dist (zlength l) h0 j + dist (zlength l) j z = dist (zlength l) h0 z;
  sc_filled : if filled then full IsEmpty l h0 /\ h <> h0 else h = h0
}.

Lemma scan_next l h0 h j z filled :
  scan l h0 h j z filled ->
  let j' := next_slot (zlength l) j in
  0 <= j' < zlength l /\ j' <> h /\ j' <> h0 /\ dist (zlength l) h j' = dist (zlength l) h j + 1 /\
  dist (zlength l) j' z = dist (zlength l) j z - 1 /\ 1 <= dist (zlength l) j z /\
  dist (zlength l) h0 j' + dist (zlength l) j' z = dist (zlength l) h0 z.
Proof.
  intros [Hho (ez & Hz & Hez) Hzh Hzj Hh0 Hd0 _] j'.
  pose proof (ho_h _ _ _ Hho) as Hh. pose proof (ho_j _ _ _ Hho) as Hj. pose proof (aread_inv _ _ _ Hz) as Hzr.
  pose proof (hole_next l h j z ez Hho Hz Hez Hzh) as Hdn. fold j' in Hdn. set (n := zlength l) in *.
  pose proof (next_slot_range n j Hj) as Hj'. fold j' in Hj'. pose proof (dist_prev n j z Hj Hzr ltac:(congruence)) as Hdz. fold j' in Hdz.
  assert (Hjz : dist n j z <> 0) by (intros E'; apply dist_zero in E'; try done; congruence).
  pose proof (dist_range n h0 z Hh0 Hzr). pose proof (dist_range n h0 j Hh0 Hj). pose proof (dist_range n j z Hj Hzr).
  pose proof (dist_range n h j Hh Hj). pose proof (dist_next n h0 j Hh0 Hj) as Hn0. fold j' in Hn0.
  split; [done|]. split; [intros E; rewrite E, dist_self in Hdn; lia|].
  split; [intros E; rewrite E, dist_self in Hn0; lia|]. split; [done|]. split; [done|]. lia.
Qed.

Lemma scan_skip l h0 h j z filled e :
  scan l h0 h j z filled -> aread l (next_slot (zlength l) j) = Some e -> IsEmpty e = false ->
  0 < dist (zlength l) h (ideal hashfn (zlength l) e) <= dist (zlength l) h (next_slot (zlength l) j) ->
  scan l h0 h (next_slot (zlength l) j) z filled.
Proof.
  intros Hsc He Ee Hin. destruct (scan_next _ _ _ _ _ _ Hsc) as (_ & _ & _ & Hdn & _ & _ & Hd0).
  destruct Hsc as [Hho Hfree Hzh Hzj Hh0 _ Hfill]. split; try done.
  - by apply (hole_skip l h j e).
  - intros ->. destruct Hfree as (ez & Hz & Hez). congruence.
Qed.

Lemma scan_move l h0 h j z filled e :
  scan l h0 h j z filled -> aread l (next_slot (zlength l) j) = Some e -> IsEmpty e = false ->
  dist (zlength l) h (ideal hashfn (zlength l) e) = 0 \/
    dist (zlength l) h (next_slot (zlength l) j) < dist (zlength l) h (ideal hashfn (zlength l) e) ->
  let j' := next_slot (zlength l) j in
  let l' := <[Z.to_nat j' := moved_from e]> (<[Z.to_nat h := e]> l) in
  scan l' h0 j' j' z true /\ Permutation (others IsEmpty l' j') (others IsEmpty l h).
Proof.
  intros Hsc He Ee Hout j' l'. destruct (scan_next _ _ _ _ _ _ Hsc) as (Hj' & Hneh & Hne0 & _ & _ & _ & Hd0).
  destruct Hsc as [Hho (ez & Hz & Hez) Hzh Hzj Hh0 _ Hfill]. pose proof (ho_h _ _ _ Hho) as Hh.
  destruct (hole_move l h j e (moved_from e) Hho Hneh He Ee Hout) as [Hho' Hperm]. split; [|done]. fold j' l' in Hho', Hneh, Hne0.
  assert (Hlen : zlength l' = zlength l) by (unfold l'; by rewrite !length_insert).
  assert (Hread : forall i, 0 <= i -> i <> j' -> aread l' i = if i =? h then Some e else aread l i).
  { intros i Hi Hi'. unfold l'. rewrite aread_insert by (rewrite ?length_insert; lia).
    rewrite (proj2 (Z.eqb_neq _ _) Hi'). apply aread_insert; lia. }
  assert (Hz' : z <> j') by (intros ->; unfold j' in *; congruence). pose proof (aread_inv _ _ _ Hz).
  split; try done; rewrite ?Hlen; try done.
  - exists ez. by rewrite Hread, (proj2 (Z.eqb_neq z h)) by lia.
  - split; [|congruence]. unfold full. rewrite Hread by (lia || congruence). destruct (Z.eqb_spec h0 h); [by exists e|].
    destruct filled; [apply Hfill|congruence].
Qed.

Lemma erase_loop_spec s l h j z h0 (filled : bool) fuel :
  holds s l -> scan l h0 h j z filled -> dist (zlength l) j z <= Z.of_nat fuel ->
  exists l' filled', erase_loop IsEmpty MakeEmpty moved_from hashfn fuel s h j filled = Some (set_data s (Some l'), filled') /\
    zlength l' = zlength l /\ probe IsEmpty hashfn l' /\ Permutation (elems IsEmpty l') (others IsEmpty l h) /\
    (filled' = true -> full IsEmpty l' h0).
Proof.
  revert s l h j filled. induction fuel as [|fuel IH]; intros s l h j filled Hs Hsc Hf;
    destruct (scan_next _ _ _ _ _ _ Hsc) as (Hj' & Hneh & _ & Hdn & Hdz & Hpos & _); [lia|].
  pose proof (sc_hole _ _ _ _ _ _ Hsc) as Hho. pose proof (ho_h _ _ _ Hho) as Hh. pose proof (ho_j _ _ _ Hho) as Hj.
  cbn [erase_loop]. rewrite (NextIndex_spec s l) by done. cbn [mbind option_bind].
  destruct (aread_some l _ Hj') as [e He]. rewrite (ElementForIndex_spec s l (next_slot _ _)), He by done. cbn [mbind option_bind].
  destruct (IsEmpty e) eqn:Ee.
  - destruct (aread_some l h Hh) as [x Hx]. rewrite (ElementForIndex_spec s l), Hx by done. cbn [mbind option_bind].
    destruct (Assign_spec s l h (MakeEmpty x) Hs Hh) as [-> _]. cbn [mbind option_bind].
    exists (<[Z.to_nat h := MakeEmpty x]> l), filled. split; [done|]. split; [by rewrite length_insert|].
    split; [by apply (hole_close l h j _ e)|]. split.
    + rewrite (elems_insert IsEmpty l h _ Hh), elems_empty by apply HMake. done.
    + intros ->. destruct (sc_filled _ _ _ _ _ _ Hsc) as [(y & Hy & Hfy) Hne]. exists y. split; [|done].
      pose proof (sc_h0 _ _ _ _ _ _ Hsc). rewrite aread_insert by lia. by rewrite (proj2 (Z.eqb_neq h0 h)) by congruence.
  - rewrite (IndexForHash_spec hashfn s l) by done. pose proof Hs as (_ & Hnb & Hnl). unfold NumBuckets. rewrite Hnb.
    assert (Hid : 0 <= ideal hashfn (zlength l) e < zlength l) by (apply ideal_range; lia).
    rewrite !unwrapped_spec by (done || lia). pose proof (dist_range _ h _ Hh Hid).
    destruct (_ || _) eqn:Econd.
    + destruct (Assign_spec s l h e Hs Hh) as [-> Hs1]. cbn [mbind option_bind].
      destruct (Assign_spec _ _ (next_slot (zlength l) j) (moved_from e) Hs1) as [-> Hs2]; [rewrite length_insert; lia|]. cbn [mbind option_bind].
      destruct (scan_move l h0 h j z filled e Hsc He Ee) as [Hsc' Hperm]; [lia|].
      destruct (IH _ _ _ _ _ Hs2 Hsc') as (l2 & f2 & E2 & Hl2 & Hp2 & Hpm2 & Hf2); [rewrite !length_insert; lia|].
      rewrite !length_insert in Hl2. exists l2, f2. split; [exact E2|]. split; [done|]. split; [done|].
      split; [by rewrite Hpm2|done].
    + apply IH; [done| |lia]. apply (scan_skip _ _ _ _ _ _ e); try done. lia.
Qed.

End Erasing.

(** ** What a set stands for *)

Definition clamp (n : Z) : Z := Z.max n kMinBuckets.

(** What the load factors have to provide for: growing makes room for another
    element, and the number of elements allowed stays below the number of
    buckets. *)
Record roomy (fmin fmax : double) : Prop := {
  ro_expand : forall n, 0 <= n < 2 ^ 50 ->
    exists N C, size_div n fmin = Some N /\ n < clamp N <= 2 ^ 52 /\ size_mul (clamp N) fmax = Some C /\ n < C;
  ro_zero : size_mul 0 fmax = Some 0;
  ro_until : forall N, 0 < N <= 2 ^ 52 -> exists C, size_mul N fmax = Some C /\ C < N;
  ro_shrink : forall n, 0 <= n < 2 ^ 50 -> exists N, size_div n fmax = Some N /\ n < clamp N <= 2 ^ 52;
  ro_reserve : forall n, 0 <= n < 2 ^ 50 ->
    exists N N', size_div n fmax = Some N /\ reserve_loop 100 fmax n N = Some N' /\ n < N' /\ clamp N' <= 2 ^ 52 /\
      forall B, N' <= B <= 2 ^ 52 -> exists C, size_mul B fmax = Some C /\ n < C
}.

Section Correctness.

Context {T : Type} (IsEmpty : T -> bool) (MakeEmpty : T -> T) (init : T) (moved_from : T -> T).
Context (hashfn : T -> Z) (pred : T -> T -> bool).
Context (HMake : forall x, IsEmpty (MakeEmpty x) = true).
Context (Hsym : forall x y, pred x y = true -> pred y x = true).
Context (Htrans : forall x y z, pred x y = true -> pred y z = true -> pred x z = true).
Context (Hhash : forall x y, pred x y = true -> hashfn x = hashfn y).

Implicit Types (s : HashSet T) (l A : list T).

(** No two elements are equal for the predicate. *)
Fixpoint pairwise A : Prop :=
  match A with [] => True | x :: A' => (forall y, In y A' -> pred x y = false) /\ pairwise A' end.

Lemma pred_false_sym x y : pred x y = false -> pred y x = false.
Proof. intros E. apply not_true_is_false. intros H%Hsym. congruence. Qed.

Lemma pairwise_perm A B : Permutation A B -> pairwise A -> pairwise B.
Proof.
  induction 1 as [|x A B HP IH|x y A|A B C _ IH1 _ IH2]; simpl; auto.
  - intros [Hx HA]. split; [|auto]. intros y Hy. apply Hx. by apply (Permutation_in _ (Permutation_sym HP)).
  - intros [Hy [Hx HA]]. split; [|split; auto]. intros z [<-|Hz]; [apply pred_false_sym; auto|auto].
Qed.

(** The set [s] holds the elements [A], in any order. *)
Record represents s A : Prop := {
  rp_factors : roomy (min_load_factor_ s) (max_load_factor_ s);
  rp_count : num_elements_ s = zlength A;
  rp_distinct : pairwise A;
  rp_until : size_mul (num_buckets_ s) (max_load_factor_ s) = Some (elements_until_expand_ s);
  rp_store : (num_buckets_ s = 0 /\ A = [] /\ elements_until_expand_ s <= 0) \/
    exists l, holds s l /\ probe IsEmpty hashfn l /\ Permutation (elems IsEmpty l) A /\
      zlength A < zlength l /\ elements_until_expand_ s < zlength l
}.

Lemma represents_perm s A B : Permutation A B -> represents s A -> represents s B.
Proof.
  intros HP [Hf Hc Hd Hu Hs]. split; [done|by rewrite <- (Permutation_length HP)|by apply (pairwise_perm A)|done|].
  destruct Hs as [(? & -> & ?)|(l & ? & ? & HA & ? & ?)].
  - left. apply Permutation_nil in HP. done.
  - right. exists l. rewrite <- (Permutation_length HP). split; [done|]. split; [done|]. split; [by rewrite HA|done].
Qed.

Lemma exists_free_perm l A : Permutation (elems IsEmpty l) A -> zlength A < zlength l ->
  exists z e, aread l z = Some e /\ IsEmpty e = true.
Proof. intros HP Hlt. apply exists_free. rewrite (Permutation_length HP). lia. Qed.

Lemma along_start P l a : 0 <= a < zlength l -> along IsEmpty P l a a.
Proof. intros Ha k Hk. rewrite dist_self. pose proof (dist_range _ a k Ha Hk). lia. Qed.

Lemma FirstAvailableSlot_spec s l x :
  holds s l -> (exists z e, aread l z = Some e /\ IsEmpty e = true) ->
  exists i e, FirstAvailableSlot IsEmpty s (IndexForHash s (hashfn x)) = Some i /\
    along IsEmpty (fun _ => True) l (ideal hashfn (zlength l) x) i /\ aread l i = Some e /\ IsEmpty e = true.
Proof.
  intros Hs Hz. pose proof Hs as (_ & Hn & Hl). rewrite (IndexForHash_spec hashfn s l) by done.
  pose proof (ideal_range hashfn (zlength l) x ltac:(lia)) as Hid. unfold FirstAvailableSlot, NumBuckets.
  rewrite Hn, (proj2 (Z.ltb_lt _ _)) by lia. cbn [dcheck mbind option_bind].
  apply first_available_loop_spec; try done; [by rewrite dist_self|by apply along_start|rewrite dist_self; lia].
Qed.

Lemma along_full P l a i : along IsEmpty P l a i ->
  forall k, 0 <= k < zlength l -> dist (zlength l) a k < dist (zlength l) a i -> full IsEmpty l k.
Proof. intros Hal k Hk Hd. destruct (Hal k Hk Hd) as (e & He & Hf & _). by exists e. Qed.

(** Placing [x] in the free slot its search ends at. *)
Lemma place_spec P l x i e A :
  0 < zlength l -> probe IsEmpty hashfn l -> Permutation (elems IsEmpty l) A -> IsEmpty x = false ->
  along IsEmpty P l (ideal hashfn (zlength l) x) i -> aread l i = Some e -> IsEmpty e = true ->
  awrite l i x = Some (<[Z.to_nat i := x]> l) /\ probe IsEmpty hashfn (<[Z.to_nat i := x]> l) /\
  Permutation (elems IsEmpty (<[Z.to_nat i := x]> l)) (x :: A) /\ zlength (<[Z.to_nat i := x]> l) = zlength l.
Proof.
  intros Hn Hp HA Hx Hal He Hfree. pose proof (aread_inv _ _ _ He) as Hi.
  split; [by apply awrite_some|]. split; [apply probe_insert; try done; by apply (along_full P)|].
  split; [|by rewrite length_insert]. rewrite (elems_insert IsEmpty l i x Hi), elems_full by done.
  pose proof (elems_at IsEmpty l i e He) as HP. rewrite elems_empty in HP by done. simpl in *. by rewrite <- HA, HP.
Qed.

(** ** Resizing *)

Lemma fresh_table n :
  probe IsEmpty hashfn (replicate n (MakeEmpty init)) /\ elems IsEmpty (replicate n (MakeEmpty init)) = [].
Proof.
  split.
  - intros i e k Hi He. pose proof (aread_inv _ _ _ Hi). rewrite aread_lookup in Hi by lia.
    apply lookup_replicate_1 in Hi as [-> _]. by rewrite HMake in He.
  - induction n as [|n IH]; simpl; [done|]. by rewrite HMake.
Qed.

Lemma set_data_same s l : data_ s = Some l -> s = set_data s (Some l).
Proof. destruct s. simpl. by intros ->. Qed.

Lemma elems_take_S old i x : 0 <= i -> aread old i = Some x ->
  elems IsEmpty (take (Z.to_nat (i + 1)) old) = elems IsEmpty (take (Z.to_nat i) old) ++ elems IsEmpty [x].
Proof.
  intros Hi Hx. rewrite aread_lookup in Hx by lia. rewrite Z2Nat.inj_add by lia. change (Z.to_nat 1) with 1%nat.
  rewrite Nat.add_1_r, (take_S_r _ _ x), elems_app by done. done.
Qed.

Lemma elems_take_le old n : (length (elems IsEmpty (take n old)) <= length (elems IsEmpty old))%nat.
Proof. rewrite <- (take_drop n old) at 2. rewrite elems_app, length_app. lia. Qed.

(** The new storage after the first [i] slots of the old one. *)
Definition moved_over old (N : Z) (i : Z) l : Prop :=
  zlength l = N /\ probe IsEmpty hashfn l /\ Permutation (elems IsEmpty l) (elems IsEmpty (take (Z.to_nat i) old)).

Lemma reinsert_step s l old i :
  holds s l -> (length (elems IsEmpty old) < length l)%nat -> 0 <= i < zlength old ->
  moved_over old (zlength l) i l ->
  exists l', reinsert IsEmpty hashfn (Some old) i s = Some (set_data s (Some l')) /\ moved_over old (zlength l) (i + 1) l'.
Proof.
  intros Hs Hroom Hi (_ & Hp & HP). pose proof Hs as (Hd & _ & Hpos). unfold reinsert. cbn [mbind option_bind].
  destruct (aread_some old i Hi) as [x Hx]. rewrite Hx. cbn [mbind option_bind].
  pose proof (elems_take_S old i x ltac:(lia) Hx) as Htake. unfold moved_over. rewrite Htake.
  destruct (IsEmpty x) eqn:Ex; cbn [negb].
  - exists l. rewrite <- (set_data_same s l Hd), elems_empty, app_nil_r by done. done.
  - assert (Hfree : exists z e, aread l z = Some e /\ IsEmpty e = true).
    { apply exists_free. rewrite (Permutation_length HP). pose proof (elems_take_le old (Z.to_nat i)). lia. }
    destruct (FirstAvailableSlot_spec s l x Hs Hfree) as (k & e & -> & Hal & He & Hemp). cbn [mbind option_bind].
    destruct (place_spec _ l x k e _ ltac:(lia) Hp HP Ex Hal He Hemp) as (Hw & Hp2 & HP2 & Hl2).
    rewrite Hd. cbn [mbind option_bind]. rewrite Hw. cbn [mbind option_bind]. eexists. split; [done|].
    split; [done|]. split; [done|]. rewrite HP2, elems_full by done. by rewrite Permutation_app_comm.
Qed.

Lemma resize_loop s l old :
  holds s l -> (length (elems IsEmpty old) < length l)%nat -> moved_over old (zlength l) 0 l ->
  exists l', for_loop (length old) 0 (reinsert IsEmpty hashfn (Some old)) s = Some (set_data s (Some l')) /\
    moved_over old (zlength l) (zlength old) l'.
Proof.
  intros Hs Hroom H0. pose proof Hs as (Hd & Hn & Hpos).
  destruct (for_loop_inv (fun i s' => exists l', s' = set_data s (Some l') /\ moved_over old (zlength l) i l')
              (length old) 0 (reinsert IsEmpty hashfn (Some old)) s) as (s' & -> & l' & -> & Hm).
  - exists l. split; [by apply set_data_same|done].
  - intros i s' Hi (l' & -> & Hm). pose proof Hm as (Hl & _ & _).
    destruct (reinsert_step (set_data s (Some l')) l' old i) as (l2 & E & Hm2); try lia.
    + split; [done|]. simpl. lia.
    + by rewrite Hl.
    + eexists. split; [exact E|]. exists l2. split; [done|]. by rewrite <- Hl.
  - exists l'. by split.
Qed.

Lemma Resize_spec s A new_size :
  represents s A -> zlength A < clamp new_size <= 2 ^ 52 ->
  exists s', Resize IsEmpty MakeEmpty init hashfn s new_size = Some s' /\ represents s' A /\
    num_buckets_ s' = clamp new_size /\ size_mul (clamp new_size) (max_load_factor_ s) = Some (elements_until_expand_ s') /\
    min_load_factor_ s' = min_load_factor_ s /\ max_load_factor_ s' = max_load_factor_ s.
Proof.
  intros [Hf Hc Hdis _ Hst] Hsz. unfold Resize.
  assert ((if new_size <? kMinBuckets then kMinBuckets else new_size) = clamp new_size) as ->
    by (unfold clamp; destruct (Z.ltb_spec new_size kMinBuckets); lia).
  set (N := clamp new_size) in *. unfold size. rewrite Hc, (proj2 (Z.leb_le _ _)) by lia. cbn [dcheck mbind option_bind].
  set (s0 := AllocateStorage MakeEmpty init s N). set (l0 := replicate (Z.to_nat N) (MakeEmpty init)).
  assert (Hl0 : zlength l0 = N) by (unfold l0; rewrite length_replicate; lia).
  assert (Hs0 : holds s0 l0) by (split; [done|]; simpl; rewrite Hl0; lia).
  destruct (fresh_table (Z.to_nat N)) as [Hp0 He0]. fold l0 in Hp0, He0.
  assert (exists l', for_loop (Z.to_nat (num_buckets_ s)) 0 (reinsert IsEmpty hashfn (data_ s)) s0 = Some (set_data s0 (Some l')) /\
            zlength l' = N /\ probe IsEmpty hashfn l' /\ Permutation (elems IsEmpty l') A) as (l' & -> & Hl' & Hp' & HP').
  { destruct Hst as [(-> & -> & _)|(old & (Hd & Hn & _) & _ & HA & _ & _)].
    - exists l0. split; [by apply f_equal, set_data_same|]. by rewrite He0.
    - rewrite Hn, Nat2Z.id, Hd. pose proof (Permutation_length HA).
      destruct (resize_loop s0 l0 old Hs0) as (l' & E & Hl' & Hp' & HP'); [lia| |].
      + split; [done|]. split; [done|]. by rewrite He0.
      + exists l'. split; [done|]. split; [lia|]. split; [done|]. by rewrite HP', Nat2Z.id, firstn_all. }
  cbn [mbind option_bind]. unfold NumBuckets. simpl num_buckets_. simpl max_load_factor_.
  destruct (ro_until _ _ Hf N) as (C & HC & Hlt); [unfold N, clamp, kMinBuckets in *; lia|]. rewrite HC.
  eexists. split; [done|]. split; [|done]. split; [done|done|done|done|]. right. exists l'.
  split; [split; [done|]; simpl; unfold N, clamp, kMinBuckets in *; lia|]. split; [done|]. split; [done|]. simpl. lia.
Qed.

Lemma expand_if_needed_spec s A :
  represents s A -> zlength A < 2 ^ 50 ->
  exists s' l, expand_if_needed IsEmpty MakeEmpty init hashfn s = Some s' /\ represents s' A /\
    min_load_factor_ s' = min_load_factor_ s /\ max_load_factor_ s' = max_load_factor_ s /\
    holds s' l /\ probe IsEmpty hashfn l /\ Permutation (elems IsEmpty l) A /\ zlength A + 1 < zlength l /\
    elements_until_expand_ s' < zlength l.
Proof.
  intros Hrep Hlt. pose proof Hrep as [Hf Hc _ _ _]. unfold expand_if_needed.
  assert (Hdone : forall s', represents s' A -> zlength A < elements_until_expand_ s' ->
            exists l, holds s' l /\ probe IsEmpty hashfn l /\ Permutation (elems IsEmpty l) A /\ zlength A + 1 < zlength l /\
              elements_until_expand_ s' < zlength l).
  { intros s' [_ _ _ _ Hst'] Hr. destruct Hst' as [(_ & -> & ?)|(l & Hl & Hp & HP & _ & Hu)]; [simpl in Hr; lia|].
    exists l. split; [done|]. split; [done|]. split; [done|]. lia. }
  destruct (Z.leb_spec (elements_until_expand_ s) (num_elements_ s)) as [Hle|Hgt].
  - unfold Expand, size. destruct (ro_expand _ _ Hf (zlength A)) as (N & C & HN & Hcl & HC & HlC); [lia|].
    rewrite Hc, HN. cbn [mbind option_bind].
    destruct (Resize_spec s A N Hrep Hcl) as (s' & -> & Hrep' & _ & Hu & Hmin & Hmax). cbn [mbind option_bind].
    assert (elements_until_expand_ s' = C) as Eu by congruence. rewrite (rp_count _ _ Hrep'), Eu, (proj2 (Z.ltb_lt _ _)) by done.
    cbn [dcheck mbind option_bind]. destruct (Hdone s' Hrep') as (l & Hl); [by rewrite Eu|]. by exists s', l.
  - destruct (Hdone s Hrep) as (l & Hl); [lia|]. by exists s, l.
Qed.

Lemma FindIndexImpl_spec kCanFind s l A h matches :
  holds s l -> probe IsEmpty hashfn l -> Permutation (elems IsEmpty l) A -> zlength A < zlength l ->
  (forall x, matches x = true -> hashfn x = h) -> (kCanFind = false -> forall x, In x A -> matches x = false) ->
  exists i found e, FindIndexImpl IsEmpty kCanFind s h matches h = Some (i, found) /\ aread l i = Some e /\
    (if found then In e A /\ IsEmpty e = false /\ matches e = true
     else IsEmpty e = true /\ along IsEmpty (fun _ => True) l (h mod zlength l) i /\ forall x, In x A -> matches x = false).
Proof.
  intros Hs Hp HP Hroom Hm Hno. pose proof Hs as (_ & Hn & Hpos). unfold FindIndexImpl, NumBuckets, IndexForHash.
  rewrite Hn, (proj2 (Z.eqb_neq _ 0)), Z.eqb_refl, Nat2Z.id by lia. cbn [negb dcheck mbind option_bind].
  pose proof (Z.mod_pos_bound h (zlength l) ltac:(lia)) as Hid.
  destruct (find_index_loop_ends IsEmpty kCanFind s l matches (h mod zlength l) (h mod zlength l) (length l))
    as (i & found & e & E & Hal & He & Hres); try done.
  - by apply along_start.
  - by apply (exists_free_perm l A).
  - intros Hk j e He Hf. apply (Hno Hk), (Permutation_in _ HP), elems_In. eauto.
  - rewrite dist_self. lia.
  - exists i, found, e. split; [done|]. split; [done|]. destruct found.
    + split; [|done]. apply (Permutation_in _ HP), elems_In. split; [apply Hres|by exists i].
    + split; [done|]. split; [intros k Hk Hd; destruct (Hal k Hk Hd) as (x & ? & ? & _); by exists x|].
      intros x Hx. apply (not_found IsEmpty hashfn l matches h i e); try done; [lia|].
      by apply (Permutation_in _ (Permutation_sym HP)).
Qed.

(** Adding an element the set does not have, where its search ended. *)
Lemma add_spec s l A x i e :
  represents s A -> holds s l -> probe IsEmpty hashfn l -> Permutation (elems IsEmpty l) A ->
  zlength A + 1 < zlength l -> elements_until_expand_ s < zlength l -> IsEmpty x = false ->
  aread l i = Some e -> IsEmpty e = true -> along IsEmpty (fun _ => True) l (hashfn x mod zlength l) i ->
  (forall y, In y A -> pred y x = false) ->
  let s' := set_num_elements (set_data s (Some (<[Z.to_nat i := x]> l))) (num_elements_ s + 1) in
  awrite l i x = Some (<[Z.to_nat i := x]> l) /\ represents s' (x :: A) /\ iterator_deref IsEmpty s' i = Some x.
Proof.
  intros Hrep Hs Hp HP Hroom Hu Hx He Hemp Hal Hnew s'. pose proof Hs as (_ & Hn & Hpos). pose proof (aread_inv _ _ _ He) as Hi.
  destruct (place_spec _ l x i e A ltac:(lia) Hp HP Hx Hal He Hemp) as (Hw & Hp2 & HP2 & Hl2).
  assert (Hs' : holds s' (<[Z.to_nat i := x]> l)) by (split; [done|]; simpl; lia).
  split; [done|]. split.
  - destruct Hrep as [Hf Hc Hdis Hun _]. split; [done|simpl; lia| |done|].
    + split; [|done]. intros y Hy. apply pred_false_sym. auto.
    + right. exists (<[Z.to_nat i := x]> l). split; [done|]. split; [done|]. split; [done|]. simpl length. simpl elements_until_expand_. lia.
  - assert (Hr : aread (<[Z.to_nat i := x]> l) i = Some x) by (by rewrite aread_insert, Z.eqb_refl by lia).
    unfold iterator_deref. rewrite (IsFreeSlot_spec IsEmpty s' _ i x Hs' Hr), Hx. cbn [negb dcheck mbind option_bind].
    rewrite (ElementForIndex_spec s' _ i Hs') by lia. done.
Qed.

Lemma iterator_deref_spec s l i e : holds s l -> aread l i = Some e -> IsEmpty e = false -> iterator_deref IsEmpty s i = Some e.
Proof.
  intros Hs He Hf. unfold iterator_deref. rewrite (IsFreeSlot_spec IsEmpty s l i e Hs He), Hf. cbn [negb dcheck mbind option_bind].
  pose proof (aread_inv _ _ _ He). by rewrite (ElementForIndex_spec s l).
Qed.

Lemma existsb_false_In (f : T -> bool) A : existsb f A = false <-> forall y, In y A -> f y = false.
Proof.
  rewrite <- not_true_iff_false, existsb_exists. split.
  - intros H y Hy. apply not_true_is_false. intros Hf. apply H. eauto.
  - intros H (y & Hy & Hf). rewrite H in Hf by done. done.
Qed.

(** [insert]: an equal element is found, or the new one is added. *)
Lemma insert_spec s A x :
  represents s A -> zlength A < 2 ^ 50 -> IsEmpty x = false ->
  exists s' i, insert IsEmpty MakeEmpty init hashfn pred s x = Some (s', i, negb (existsb (fun e => pred e x) A)) /\
    represents s' (if existsb (fun e => pred e x) A then A else x :: A) /\
    exists e, iterator_deref IsEmpty s' i = Some e /\
      if existsb (fun e => pred e x) A then In e A /\ pred e x = true else e = x.
Proof.
  intros Hrep Hlt Hx. unfold insert, InsertWithHash. rewrite Z.eqb_refl. cbn [dcheck mbind option_bind].
  destruct (expand_if_needed_spec s A Hrep Hlt) as (s' & l & -> & Hrep' & _ & _ & Hs & Hp & HP & Hroom & Hu). cbn [mbind option_bind].
  destruct (FindIndexImpl_spec true s' l A (hashfn x) (fun e => pred e x)) as (i & found & e & -> & He & Hres); try done; try lia.
  { intros y Hy. by apply Hhash. }
  cbn [mbind option_bind]. destruct found; cbn [negb].
  - destruct Hres as (Hin & Hf & Hpe). assert (existsb (fun e => pred e x) A = true) as -> by (apply existsb_exists; eauto).
    exists s', i. split; [done|]. split; [done|]. exists e. split; [by apply (iterator_deref_spec s' l)|done].
  - destruct Hres as (Hemp & Hal & Hno). rewrite (proj2 (existsb_false_In _ _) Hno).
    destruct (add_spec s' l A x i e) as (Hw & Hrep2 & Hd); try done. pose proof Hs as (-> & _). cbn [mbind option_bind].
    rewrite Hw. cbn [mbind option_bind]. do 2 eexists. split; [done|]. split; [done|]. by exists x.
Qed.

(** [Put], for an element known to be new. *)
Lemma Put_spec s A x :
  represents s A -> zlength A < 2 ^ 50 -> IsEmpty x = false -> (forall y, In y A -> pred y x = false) ->
  exists s', Put IsEmpty MakeEmpty init hashfn pred s x = Some s' /\ represents s' (x :: A).
Proof.
  intros Hrep Hlt Hx Hnew. unfold Put, PutWithHash. rewrite Z.eqb_refl. cbn [dcheck mbind option_bind].
  destruct (expand_if_needed_spec s A Hrep Hlt) as (s' & l & -> & Hrep' & _ & _ & Hs & Hp & HP & Hroom & Hu). cbn [mbind option_bind].
  destruct (FindIndexImpl_spec false s' l A (hashfn x) (fun e => pred e x)) as (i & found & e & -> & He & Hres); try done; try lia.
  { intros y Hy. by apply Hhash. }
  cbn [mbind option_bind]. destruct found.
  - destruct Hres as (Hin & _ & Hpe). rewrite Hnew in Hpe by done. done.
  - destruct Hres as (Hemp & Hal & Hno).
    destruct (add_spec s' l A x i e) as (Hw & Hrep2 & Hd); try done. pose proof Hs as (-> & _). cbn [mbind option_bind].
    rewrite Hw. cbn [mbind option_bind]. eexists. by split.
Qed.

(** [find]: the slot of an equal element, or the end. *)
Lemma find_spec s A key :
  represents s A ->
  exists i, find IsEmpty hashfn pred s key = Some i /\
    if existsb (fun e => pred e key) A
    then exists e, iterator_deref IsEmpty s i = Some e /\ In e A /\ pred e key = true
    else i = end_ s.
Proof.
  intros [_ _ _ _ Hst]. unfold find, FindWithHash, FindIndex, end_, NumBuckets.
  destruct Hst as [(-> & -> & _)|(l & Hs & Hp & HP & Hroom & _)]; [by exists 0|]. pose proof Hs as (_ & Hn & Hpos).
  rewrite (proj2 (Z.eqb_neq (num_buckets_ s) 0)) by lia.
  destruct (FindIndexImpl_spec true s l A (hashfn key) (fun e => pred e key)) as (i & found & e & -> & He & Hres); try done.
  { intros y Hy. by apply Hhash. }
  cbn [mbind option_bind]. eexists. split; [done|]. destruct found.
  - destruct Hres as (Hin & Hf & Hpe). assert (existsb (fun e => pred e key) A = true) as -> by (apply existsb_exists; eauto).
    exists e. split; [by apply (iterator_deref_spec s l)|done].
  - destruct Hres as (_ & _ & Hno). by rewrite (proj2 (existsb_false_In _ _) Hno).
Qed.

(** ** Iterating *)

Lemma next_non_empty_loop_spec s l i fuel :
  holds s l -> 0 <= i < zlength l -> (zlength l - i <= Z.of_nat fuel) ->
  exists k, next_non_empty_loop IsEmpty fuel s (zlength l) i = Some k /\ i < k <= zlength l /\
    (k = zlength l \/ full IsEmpty l k) /\ elems IsEmpty (drop (Z.to_nat k) l) = elems IsEmpty (drop (S (Z.to_nat i)) l).
Proof.
  intros Hs. revert i. induction fuel as [|fuel IH]; intros i Hi Hf; [lia|]. cbn [next_non_empty_loop].
  replace (S (Z.to_nat i)) with (Z.to_nat (i + 1)) by lia.
  destruct (Z.ltb_spec (i + 1) (zlength l)) as [Hlt|Hge].
  - destruct (aread_some l (i + 1)) as [e He]; [lia|]. rewrite (IsFreeSlot_spec IsEmpty s l _ e Hs He). cbn [mbind option_bind].
    destruct (IsEmpty e) eqn:Ee.
    + destruct (IH (i + 1)) as (k & -> & Hk & Hor & Hel); [lia|lia|]. exists k. split; [done|]. split; [lia|]. split; [done|].
      rewrite Hel. rewrite aread_lookup in He by lia. rewrite (drop_S l e (Z.to_nat (i + 1))) by done. simpl. by rewrite Ee.
    + exists (i + 1). split; [done|]. split; [lia|]. split; [right; by exists e|done].
  - exists (i + 1). split; [done|]. split; [lia|]. split; [left; lia|done].
Qed.

Lemma iterator_next_spec s l i :
  holds s l -> 0 <= i < zlength l ->
  exists k, iterator_next IsEmpty s i = Some k /\ i < k <= zlength l /\
    (k = zlength l \/ full IsEmpty l k) /\ elems IsEmpty (drop (Z.to_nat k) l) = elems IsEmpty (drop (S (Z.to_nat i)) l).
Proof.
  intros Hs Hi. pose proof Hs as (_ & Hn & Hpos). unfold iterator_next, NextNonEmptySlot, NumBuckets.
  rewrite Hn, (proj2 (Z.ltb_lt _ _)) by lia. cbn [dcheck mbind option_bind]. apply next_non_empty_loop_spec; (done || lia).
Qed.

(** The loop [for (it = begin(); it != end(); ++it)], collecting the elements. *)
Fixpoint visit (fuel : nat) s (it : Z) : option (list T) :=
  if it =? end_ s then Some []
  else
    match fuel with
    | O => None
    | S fuel' => e ← iterator_deref IsEmpty s it; it ← iterator_next IsEmpty s it; r ← visit fuel' s it; Some (e :: r)
    end.

Definition contents s : option (list T) := it ← begin IsEmpty s; visit (Z.to_nat (NumBuckets s)) s it.

Lemma visit_spec s l i fuel :
  holds s l -> 0 <= i <= zlength l -> (i = zlength l \/ full IsEmpty l i) -> zlength l - i <= Z.of_nat fuel ->
  visit fuel s i = Some (elems IsEmpty (drop (Z.to_nat i) l)).
Proof.
  intros Hs. pose proof Hs as (_ & Hn & Hpos). revert i. induction fuel as [|fuel IH]; intros i Hi Hor Hf;
    cbn [visit]; unfold end_, NumBuckets; rewrite Hn; (destruct (Z.eqb_spec i (zlength l)) as [->|Hne];
      [by rewrite drop_ge by lia|]); [lia|].
  destruct Hor as [?|(e & He & Hfe)]; [done|]. rewrite (iterator_deref_spec s l i e) by done. cbn [mbind option_bind].
  destruct (iterator_next_spec s l i Hs) as (k & -> & Hk & Hor & Hel); [lia|]. cbn [mbind option_bind].
  rewrite IH by (done || lia). cbn [mbind option_bind]. rewrite Hel. rewrite aread_lookup in He by lia.
  rewrite (drop_S l e (Z.to_nat i)) by done. simpl. by rewrite Hfe.
Qed.

Lemma contents_spec s A : represents s A -> exists B, contents s = Some B /\ Permutation B A.
Proof.
  intros [_ _ _ _ Hst]. unfold contents, begin, NumBuckets. destruct Hst as [(Hn & -> & _)|(l & Hs & _ & HP & _)].
  - rewrite Hn. simpl. exists []. split; [|done]. unfold end_, NumBuckets. by rewrite Hn.
  - pose proof Hs as (_ & Hn & Hpos). rewrite (proj2 (Z.eqb_neq (num_buckets_ s) 0)) by lia.
    destruct (aread_some l 0) as [e He]; [lia|]. rewrite (IsFreeSlot_spec IsEmpty s l 0 e Hs He). cbn [mbind option_bind].
    exists (elems IsEmpty l). split; [|done]. rewrite Hn, Nat2Z.id. destruct (IsEmpty e) eqn:Ee.
    + destruct (iterator_next_spec s l 0 Hs) as (k & -> & Hk & Hor & Hel); [lia|]. cbn [mbind option_bind].
      rewrite (visit_spec s l) by (done || lia). rewrite Hel. destruct l as [|x l]; [done|]. injection He as ->. simpl. by rewrite Ee.
    + cbn [mbind option_bind]. rewrite (visit_spec s l 0); [done|done|lia|right; by exists e|lia].
Qed.

(** ** The other operations *)

Lemma deref_inv s A i e :
  represents s A -> iterator_deref IsEmpty s i = Some e ->
  exists l, holds s l /\ probe IsEmpty hashfn l /\ Permutation (elems IsEmpty l) A /\ zlength A < zlength l /\
    elements_until_expand_ s < zlength l /\ aread l i = Some e /\ IsEmpty e = false.
Proof.
  intros [_ _ _ _ Hst] Hd. unfold iterator_deref, IsFreeSlot in Hd.
  destruct (ElementForIndex s i) as [x|] eqn:Ex; [|done]. cbn [mbind option_bind] in Hd.
  destruct (IsEmpty x) eqn:Ee; [done|]. cbn [negb dcheck mbind option_bind] in Hd. injection Hd as ->.
  unfold ElementForIndex, NumBuckets in Ex. destruct (Z.ltb_spec i (num_buckets_ s)) as [Hlt|]; [|done].
  cbn [dcheck mbind option_bind] in Ex.
  destruct Hst as [(Hn & _)|(l & Hs & Hp & HP & Hroom & Hu)].
  - exfalso. destruct (data_ s) as [d|]; [|done]. cbn [mbind option_bind] in Ex. apply aread_inv in Ex. lia.
  - pose proof Hs as (Hdata & _). rewrite Hdata in Ex. by exists l.
Qed.

(** [erase] takes out exactly the element of the iterator and returns a valid
    iterator. *)
Lemma erase_spec s A i e :
  represents s A -> iterator_deref IsEmpty s i = Some e ->
  exists s' i' A', erase IsEmpty MakeEmpty moved_from hashfn s i = Some (s', i') /\ Permutation A (e :: A') /\
    represents s' A' /\ (i' = end_ s' \/ exists e', iterator_deref IsEmpty s' i' = Some e').
Proof.
  intros Hrep Hd. destruct (deref_inv s A i e Hrep Hd) as (l & Hs & Hp & HP & Hroom & Hu & He & Hfe).
  pose proof (aread_inv _ _ _ He) as Hi. pose proof Hs as (_ & Hn & Hpos). unfold erase.
  rewrite (IsFreeSlot_spec IsEmpty s l i e Hs He), Hfe. cbn [negb dcheck mbind option_bind].
  destruct (exists_free_perm l A HP Hroom) as (z & ez & Hz & Hez). pose proof (aread_inv _ _ _ Hz) as Hzr.
  assert (Hzi : z <> i) by congruence.
  destruct (erase_loop_spec IsEmpty MakeEmpty moved_from hashfn HMake s l i i z i false (Z.to_nat (NumBuckets s)))
    as (l' & filled & -> & Hl' & Hp' & HP' & Hfill); [done| | |].
  { split; try done; [by apply hole_start|by exists ez|by rewrite dist_self]. }
  { unfold NumBuckets. pose proof (dist_range _ i z Hi Hzr). lia. }
  cbn [mbind option_bind]. set (s' := set_num_elements _ _).
  assert (Hs' : holds s' l') by (split; [done|]; simpl; lia).
  assert (HPA : Permutation A (e :: others IsEmpty l i)).
  { rewrite <- HP, (elems_at IsEmpty l i e He), elems_full by done. done. }
  pose proof (Permutation_length HPA) as Hlen. simpl in Hlen.
  assert (Hrep' : represents s' (others IsEmpty l i)).
  { destruct Hrep as [Hf Hc Hdis Hun _]. split; [done|simpl; lia| |done|].
    - apply (pairwise_perm _ _ HPA) in Hdis. apply Hdis.
    - right. exists l'. split; [done|]. split; [done|]. split; [done|]. simpl elements_until_expand_. lia. }
  assert (Hval : forall k, k = zlength l' \/ full IsEmpty l' k -> k = end_ s' \/ exists e', iterator_deref IsEmpty s' k = Some e').
  { intros k [-> | (e' & He' & Hf')]; [left; unfold end_, NumBuckets; simpl; lia|right]. exists e'. by apply (iterator_deref_spec s' l'). }
  destruct filled; cbn [negb].
  - exists s', i, (others IsEmpty l i). split; [done|]. split; [done|]. split; [done|]. apply Hval. right. by apply Hfill.
  - destruct (iterator_next_spec s' l' i Hs') as (k & -> & _ & Hor & _); [lia|]. cbn [mbind option_bind].
    exists s', k, (others IsEmpty l i). split; [done|]. split; [done|]. split; [done|]. by apply Hval.
Qed.

Lemma clear_spec s A : represents s A -> represents (clear s) [].
Proof. intros [Hf _ _ _ _]. split; [done|done|done|apply (ro_zero _ _ Hf)|]. by left. Qed.

Lemma ShrinkToMaximumLoad_spec s A :
  represents s A -> zlength A < 2 ^ 50 ->
  exists s', ShrinkToMaximumLoad IsEmpty MakeEmpty init hashfn s = Some s' /\ represents s' A.
Proof.
  intros Hrep Hlt. pose proof Hrep as [Hf Hc _ _ _]. unfold ShrinkToMaximumLoad, size.
  destruct (ro_shrink _ _ Hf (zlength A)) as (N & HN & Hcl); [lia|]. rewrite Hc, HN. cbn [mbind option_bind].
  destruct (Resize_spec s A N Hrep Hcl) as (s' & -> & Hrep' & _). by exists s'.
Qed.

(** After [reserve(n)] the set holds [n] elements before it grows again. *)
Lemma reserve_spec s A n :
  represents s A -> 0 <= n < 2 ^ 50 ->
  exists s', reserve IsEmpty MakeEmpty init hashfn s n = Some s' /\ represents s' A /\ n < elements_until_expand_ s'.
Proof.
  intros Hrep Hn. pose proof Hrep as [Hf Hc _ Hu Hst]. unfold reserve, NumBuckets.
  destruct (ro_reserve _ _ Hf n) as (N & N' & HN & HN' & Hb & Hcl & Hcap); [lia|]. rewrite HN. cbn [mbind option_bind].
  rewrite HN'. cbn [mbind option_bind]. destruct (Z.ltb_spec (num_buckets_ s) N').
  - assert (zlength A < N') by (destruct Hst as [(_ & -> & _)|(l & (_ & ? & ?) & _ & _ & ? & _)]; [simpl|]; lia).
    destruct (Resize_spec s A N' Hrep) as (s' & -> & Hrep' & _ & Hu' & _); [unfold clamp, kMinBuckets in *; lia|].
    exists s'. split; [done|]. split; [done|]. destruct (Hcap (clamp N')) as (C & HC & HlC); [unfold clamp in *; lia|]. congruence.
  - exists s. split; [done|]. split; [done|]. destruct (Hcap (num_buckets_ s)) as (C & HC & HlC); [|congruence].
    destruct Hst as [(? & _)|(l & (_ & ? & ?) & _)]; lia.
Qed.

(** Taking an element out and searching a place for it ends at its own slot. *)
Lemma Verify_step s l i e :
  holds s l -> probe IsEmpty hashfn l -> aread l i = Some e -> IsEmpty e = false ->
  let s' := set_data s (Some (<[Z.to_nat i := MakeEmpty init]> l)) in
  FirstAvailableSlot IsEmpty s' (IndexForHash s' (hashfn e)) = Some i.
Proof.
  intros Hs Hp He Hf s'. pose proof (aread_inv _ _ _ He) as Hi. pose proof Hs as (_ & Hn & Hpos).
  set (l' := <[Z.to_nat i := MakeEmpty init]> l) in *.
  assert (Hl' : zlength l' = zlength l) by (unfold l'; by rewrite length_insert).
  assert (Hs' : holds s' l') by (split; [done|]; simpl; lia).
  assert (Hr : forall k, 0 <= k -> aread l' k = if k =? i then Some (MakeEmpty init) else aread l k)
    by (intros k Hk; unfold l'; by apply aread_insert).
  destruct (FirstAvailableSlot_spec s' l' e Hs') as (k & x & -> & Hal & Hx & Hemp).
  { exists i, (MakeEmpty init). rewrite Hr, Z.eqb_refl by lia. done. }
  rewrite Hl' in Hal. pose proof (aread_inv _ _ _ Hx) as Hk. rewrite Hl' in Hk. rewrite Hr in Hx by lia.
  pose proof (ideal_range hashfn (zlength l) e ltac:(lia)) as Hid.
  destruct (Z.eqb_spec k i) as [->|Hne]; [done|]. exfalso.
  pose proof (dist_range _ _ k Hid Hk). pose proof (dist_range _ _ i Hid Hi).
  destruct (Z.lt_trichotomy (dist (zlength l) (ideal hashfn (zlength l) e) k) (dist (zlength l) (ideal hashfn (zlength l) e) i)) as [Hlt|[Heq|Hgt]].
  - destruct (Hp i e k He Hf Hk Hlt) as (y & Hy & Hfy). congruence.
  - apply Hne. by apply (dist_inj (zlength l) (ideal hashfn (zlength l) e)).
  - rewrite <- Hl' in Hgt. destruct (Hal i) as (y & Hy & Hfy & _); [lia|by rewrite Hl' in Hgt; rewrite Hl'|].
    rewrite Hr, Z.eqb_refl in Hy by lia. injection Hy as <-. by rewrite HMake in Hfy.
Qed.

Lemma Verify_spec s A : represents s A -> Verify IsEmpty MakeEmpty init hashfn s = Some (s, 0).
Proof.
  intros [_ _ _ _ Hst]. unfold Verify. destruct Hst as [(-> & _)|(l & Hs & Hp & _)]; [done|]. pose proof Hs as (Hd & Hn & Hpos).
  match goal with |- for_loop ?n ?i ?f ?x = _ => destruct (for_loop_inv (fun _ r => r = (s, 0)) n i f x) as (? & -> & ->); [done| |done] end.
  intros i [s0 errors] Hi [= -> ->]. rewrite Hd. cbn [mbind option_bind].
  destruct (aread_some l i) as [e He]; [lia|]. rewrite He. cbn [mbind option_bind]. destruct (IsEmpty e) eqn:Ee; cbn [negb]; [by exists (s, 0)|].
  rewrite awrite_some by lia. cbn [mbind option_bind]. rewrite (Verify_step s l i e) by done. cbn [mbind option_bind].
  rewrite Z.eqb_refl. cbn [negb]. rewrite awrite_some by (rewrite length_insert; lia). cbn [mbind option_bind].
  exists (s, 0). split; [|done]. rewrite list_insert_insert, decide_True by done.
  rewrite aread_lookup in He by lia. rewrite (list_insert_id l _ e He). f_equal. f_equal. exact (eq_sym (set_data_same s l Hd)).
Qed.

End Correctness.

(** The doubles 0.4 and 0.7 are roomy, rounding included. *)
Lemma reserve_loop_spec fmax n N fuel :
  (forall B, N <= B <= N + Z.of_nat fuel -> exists C, size_mul B fmax = Some C) ->
  (exists C, size_mul (N + Z.of_nat fuel) fmax = Some C /\ u64 (n + 1) < C) ->
  exists N' C, reserve_loop fuel fmax n N = Some N' /\ N <= N' <= N + Z.of_nat fuel /\ size_mul N' fmax = Some C /\ u64 (n + 1) < C.
Proof.
  revert N. induction fuel as [|fuel IH]; intros N Hdef (C & HC & Hlt); cbn [reserve_loop].
  - rewrite Z.add_0_r in HC. rewrite HC. cbn [mbind option_bind]. rewrite (proj2 (Z.leb_gt _ _)) by done.
    exists N, C. split; [done|]. split; [lia|done].
  - destruct (Hdef N) as (c & Hc); [lia|]. rewrite Hc. cbn [mbind option_bind]. destruct (Z.leb_spec c (u64 (n + 1))).
    + destruct (IH (N + 1)) as (N' & C' & E & HN' & HC'); [intros B HB; apply Hdef; lia| |].
      * exists C. by replace (N + 1 + Z.of_nat fuel) with (N + Z.of_nat (S fuel)) by lia.
      * exists N', C'. split; [done|]. split; [lia|done].
    + exists N, c. split; [done|]. split; [lia|done].
Qed.

Lemma default_roomy : roomy kDefaultMinLoadFactor kDefaultMaxLoadFactor.
Proof.
  pose proof (size_div_spec 7205759403792794 54 ltac:(lia) ltac:(lia)) as Dmin.
  pose proof (size_div_spec 6305039478318694 53 ltac:(lia) ltac:(lia)) as Dmax.
  pose proof (size_mul_spec 6305039478318694 53 ltac:(lia) ltac:(lia)) as Mmax.
  change (SpecFloat.S754_finite false 7205759403792794 (- (54))) with kDefaultMinLoadFactor in Dmin.
  change (SpecFloat.S754_finite false 6305039478318694 (- (53))) with kDefaultMaxLoadFactor in Dmax, Mmax.
  split.
  - intros n Hn. destruct (Dmin n) as (N & HN & HN0 & Hup & Hlo); [lia|lia|].
    destruct (Mmax (clamp N)) as (C & HC & HC0 & Cup & Clo); [unfold clamp, kMinBuckets; lia|].
    exists N, C. split; [done|]. split; [unfold clamp, kMinBuckets in *; lia|]. split; [done|]. unfold clamp, kMinBuckets in *. lia.
  - reflexivity.
  - intros N HN. destruct (Mmax N) as (C & HC & HC0 & Cup & Clo); [lia|]. exists C. split; [done|]. lia.
  - intros n Hn. destruct (Dmax n) as (N & HN & HN0 & Hup & Hlo); [lia|lia|]. exists N. split; [done|]. unfold clamp, kMinBuckets. lia.
  - intros n Hn. destruct (Dmax n) as (N & HN & HN0 & Hup & Hlo); [lia|lia|].
    destruct (reserve_loop_spec kDefaultMaxLoadFactor n N 100) as (N' & C & E & HN' & HC & HlC).
    + intros B HB. destruct (Mmax B) as (C & HC & _); [lia|]. eauto.
    + destruct (Mmax (N + 100)) as (C & HC & HC0 & Cup & Clo); [lia|]. exists C. split; [done|].
      rewrite wrap_id by (unfold is_u; lia). lia.
    + rewrite wrap_id in HlC by (unfold is_u; lia).
      destruct (Mmax N') as (C' & HC' & _ & Cup & Clo); [lia|]. assert (C' = C) as -> by congruence.
      exists N, N'. split; [done|]. split; [done|]. split; [lia|]. split; [unfold clamp, kMinBuckets; lia|].
      intros B HB. destruct (Mmax B) as (D & HD & HD0 & Dup & Dlo); [lia|]. exists D. split; [done|]. lia.
Qed.

(** ** Sequences of operations *)

Section Clients.

Context {T : Type} (IsEmpty : T -> bool) (MakeEmpty : T -> T) (init : T) (moved_from : T -> T).
Context (hashfn : T -> Z) (pred : T -> T -> bool).

(** What a client does with a set. [Remove] is [find] followed by [erase]. *)
Inductive operation :=
| Insert (x : T)
| Lookup (key : T)
| Remove (key : T)
| Clear
| Reserve (n : Z)
| Shrink.

Definition perform (s : HashSet T) (o : operation) : option (HashSet T * bool) :=
  match o with
  | Insert x => '(s, _, inserted) ← insert IsEmpty MakeEmpty init hashfn pred s x; Some (s, inserted)
  | Lookup key => it ← find IsEmpty hashfn pred s key; Some (s, negb (it =? end_ s))
  | Remove key =>
      it ← find IsEmpty hashfn pred s key;
      if it =? end_ s then Some (s, false)
      else '(s, _) ← erase IsEmpty MakeEmpty moved_from hashfn s it; Some (s, true)
  | Clear => Some (clear s, true)
  | Reserve n => s ← reserve IsEmpty MakeEmpty init hashfn s n; Some (s, true)
  | Shrink => s ← ShrinkToMaximumLoad IsEmpty MakeEmpty init hashfn s; Some (s, true)
  end.

Fixpoint performs (s : HashSet T) (os : list operation) : option (HashSet T * list bool) :=
  match os with
  | [] => Some (s, [])
  | o :: os => '(s, r) ← perform s o; '(s, rs) ← performs s os; Some (s, r :: rs)
  end.

(** The same operations on a plain list of distinct elements. *)
Definition abstract_perform (A : list T) (o : operation) : list T * bool :=
  match o with
  | Insert x => if existsb (fun e => pred e x) A then (A, false) else (x :: A, true)
  | Lookup key => (A, existsb (fun e => pred e key) A)
  | Remove key => (List.filter (fun e => negb (pred e key)) A, existsb (fun e => pred e key) A)
  | Clear => ([], true)
  | Reserve _ | Shrink => (A, true)
  end.

Fixpoint abstract_performs (A : list T) (os : list operation) : list T * list bool :=
  match os with
  | [] => (A, [])
  | o :: os => let '(A, r) := abstract_perform A o in let '(A, rs) := abstract_performs A os in (A, r :: rs)
  end.

(** The empty element is never inserted; room is reserved for fewer than 2^50 elements. *)
Definition operation_ok (o : operation) : Prop :=
  match o with
  | Insert x => IsEmpty x = false
  | Reserve n => 0 <= n < 2 ^ 50
  | _ => True
  end.

Context (HMake : forall x, IsEmpty (MakeEmpty x) = true).
Context (Hsym : forall x y, pred x y = true -> pred y x = true).
Context (Htrans : forall x y z, pred x y = true -> pred y z = true -> pred x z = true).
Context (Hhash : forall x y, pred x y = true -> hashfn x = hashfn y).

Abbreviation represents := (represents IsEmpty hashfn pred).
Abbreviation pairwise := (pairwise pred).

Lemma filter_all {B} (f : B -> bool) A : (forall x, In x A -> f x = true) -> List.filter f A = A.
Proof.
  induction A as [|x A IH]; intros H; [done|]. simpl. rewrite H by (by left). f_equal. apply IH. intros y Hy. apply H. by right.
Qed.

Lemma filter_perm {B} (f : B -> bool) A A' : Permutation A A' -> Permutation (List.filter f A) (List.filter f A').
Proof.
  induction 1 as [|x A A' _ IH|x y A|A B' C _ IH1 _ IH2]; simpl; [done| | |by rewrite IH1].
  - destruct (f x); [by constructor|done].
  - destruct (f x), (f y); try done. apply perm_swap.
Qed.

(** At most one element equals a key: removing it filters the list. *)
Lemma remove_distinct e A key : pairwise (e :: A) -> pred e key = true ->
  List.filter (fun x => negb (pred x key)) (e :: A) = A.
Proof.
  intros [Hd _] He. simpl. rewrite He. cbn [negb]. apply filter_all. intros x Hx. apply negb_true_iff, not_true_is_false.
  intros Hp. specialize (Hd x Hx). rewrite (Htrans e key x) in Hd; [done|done|by apply Hsym].
Qed.

Lemma deref_not_end s A i e : represents s A -> iterator_deref IsEmpty s i = Some e -> (i =? end_ s) = false.
Proof.
  intros Hrep Hd. destruct (deref_inv IsEmpty hashfn pred s A i e Hrep Hd) as (l & (_ & Hn & _) & _ & _ & _ & _ & He & _).
  apply aread_inv in He. apply Z.eqb_neq. unfold end_, NumBuckets. lia.
Qed.

Lemma Remove_spec s A key :
  represents s A ->
  exists s', perform s (Remove key) = Some (s', existsb (fun e => pred e key) A) /\
    represents s' (List.filter (fun e => negb (pred e key)) A).
Proof.
  intros Hrep. cbn [perform]. destruct (find_spec IsEmpty hashfn pred Hhash s A key Hrep) as (i & -> & Hi).
  cbn [mbind option_bind]. destruct (existsb (fun e => pred e key) A) eqn:Ex.
  - destruct Hi as (e & He & Hin & Hpe). rewrite (deref_not_end s A i e) by done.
    destruct (erase_spec IsEmpty MakeEmpty moved_from hashfn pred HMake Hsym s A i e Hrep He)
      as (s' & i' & A' & -> & HP & Hrep' & _). cbn [mbind option_bind]. exists s'. split; [done|].
    apply (represents_perm IsEmpty hashfn pred Hsym s' A'); [|done].
    rewrite (filter_perm _ _ _ HP), remove_distinct; [done| |done].
    apply (pairwise_perm pred Hsym _ _ HP), (rp_distinct _ _ _ _ _ Hrep).
  - subst i. rewrite Z.eqb_refl. exists s. split; [done|]. rewrite filter_all; [done|].
    intros x Hx. by rewrite (proj1 (existsb_false_In _ _) Ex x Hx).
Qed.

Lemma perform_spec s A o :
  represents s A -> zlength A < 2 ^ 50 -> operation_ok o ->
  exists s', perform s o = Some (s', snd (abstract_perform A o)) /\ represents s' (fst (abstract_perform A o)).
Proof.
  intros Hrep Hlt Hok. destruct o as [x|key|key| |n| ]; cbn [operation_ok] in Hok.
  - cbn [perform abstract_perform].
    destruct (insert_spec IsEmpty MakeEmpty init hashfn pred HMake Hsym Hhash s A x Hrep Hlt Hok) as (s' & i & -> & Hrep' & _).
    exists s'. cbn [mbind option_bind]. by destruct (existsb (fun e => pred e x) A).
  - cbn [perform abstract_perform fst snd]. destruct (find_spec IsEmpty hashfn pred Hhash s A key Hrep) as (i & -> & Hi). exists s.
    cbn [mbind option_bind]. split; [|done]. destruct (existsb (fun e => pred e key) A).
    + destruct Hi as (e & He & _). by rewrite (deref_not_end s A i e).
    + by rewrite Hi, Z.eqb_refl.
  - by apply Remove_spec.
  - exists (clear s). split; [done|]. by apply (clear_spec _ _ _ s A).
  - cbn [perform abstract_perform fst snd].
    destruct (reserve_spec IsEmpty MakeEmpty init hashfn pred HMake s A n Hrep Hok) as (s' & -> & Hrep' & _). by exists s'.
  - cbn [perform abstract_perform fst snd].
    destruct (ShrinkToMaximumLoad_spec IsEmpty MakeEmpty init hashfn pred HMake s A Hrep Hlt) as (s' & -> & Hrep'). by exists s'.
Qed.

Lemma abstract_growth A o : zlength (fst (abstract_perform A o)) <= zlength A + 1.
Proof.
  destruct o; cbn [abstract_perform fst]; try (simpl; lia).
  - destruct (existsb _ A); simpl; lia.
  - pose proof (List.filter_length_le (fun e => negb (pred e key)) A). lia.
Qed.

Lemma performs_spec os s A :
  represents s A -> zlength A + zlength os <= 2 ^ 50 -> Forall operation_ok os ->
  exists s', performs s os = Some (s', snd (abstract_performs A os)) /\ represents s' (fst (abstract_performs A os)).
Proof.
  revert s A. induction os as [|o os IH]; intros s A Hrep Hlen Hok; [by exists s|].
  apply Forall_cons_1 in Hok as [Ho Hok]. cbn [length] in Hlen. cbn [performs abstract_performs].
  destruct (perform_spec s A o Hrep) as (s1 & -> & Hrep1); [lia|done|]. cbn [mbind option_bind].
  pose proof (abstract_growth A o). destruct (abstract_perform A o) as [A1 r]. simpl fst in *. simpl snd in *.
  destruct (IH s1 A1 Hrep1) as (s2 & -> & Hrep2); [lia|done|]. cbn [mbind option_bind].
  destruct (abstract_performs A1 os) as [A2 rs]. by exists s2.
Qed.

Lemma default_represents : exists s, HashSet_default = Some s /\ represents s [].
Proof.
  eexists. split; [reflexivity|]. split; [apply default_roomy|done|done|reflexivity|]. by left.
Qed.

(** C16: Any sequence of fewer than 2^50 operations on a new set runs without a
    failed check, every operation returns what it returns on a plain list of
    distinct elements, and the set ends up with the size and, by iterating, the
    elements of that list. *)
Theorem hash_set_refines_list os :
  Forall operation_ok os -> zlength os < 2 ^ 50 ->
  let '(A, rs) := abstract_performs [] os in
  exists s0 s B, HashSet_default = Some s0 /\ performs s0 os = Some (s, rs) /\
    size s = zlength A /\ contents IsEmpty s = Some B /\ Permutation B A.
Proof.
  intros Hok Hlen. destruct default_represents as (s0 & E0 & Hrep0).
  destruct (performs_spec os s0 [] Hrep0) as (s & E & Hrep); [simpl; lia|done|].
  destruct (abstract_performs [] os) as [A rs]. destruct (contents_spec _ _ _ s A Hrep) as (B & HB & HP).
  exists s0, s, B. split; [done|]. split; [done|]. split; [by apply (rp_count _ _ _ _ _ Hrep)|done].
Qed.

(** C17: After any sequence of operations, searching a place for each element that
    was taken out of its slot ends at that slot, so [Verify] counts no error and
    leaves the set as it was. *)
Theorem Verify_no_errors os :
  Forall operation_ok os -> zlength os < 2 ^ 50 ->
  exists s0 s rs, HashSet_default = Some s0 /\ performs s0 os = Some (s, rs) /\
    Verify IsEmpty MakeEmpty init hashfn s = Some (s, 0).
Proof.
  intros Hok Hlen. destruct default_represents as (s0 & E0 & Hrep0).
  destruct (performs_spec os s0 [] Hrep0) as (s & E & Hrep); [simpl; lia|done|].
  exists s0, s, (snd (abstract_performs [] os)). split; [done|]. split; [done|].
  by apply (Verify_spec IsEmpty MakeEmpty init hashfn pred HMake s _ Hrep).
Qed.

Lemma insert_no_growth s A x :
  represents s A -> zlength A < 2 ^ 50 -> IsEmpty x = false -> zlength A < elements_until_expand_ s ->
  exists s', perform s (Insert x) = Some (s', negb (existsb (fun e => pred e x) A)) /\
    represents s' (if existsb (fun e => pred e x) A then A else x :: A) /\
    NumBuckets s' = NumBuckets s /\ elements_until_expand_ s' = elements_until_expand_ s.
Proof.
  intros Hrep Hlt Hx Hroom.
  destruct (insert_spec IsEmpty MakeEmpty init hashfn pred HMake Hsym Hhash s A x Hrep Hlt Hx) as (s' & i & E & Hrep' & _).
  exists s'. cbn [perform]. rewrite E. split; [done|]. split; [done|]. clear Hrep'.
  unfold insert, InsertWithHash, expand_if_needed in E. rewrite Z.eqb_refl, (rp_count _ _ _ _ _ Hrep), (proj2 (Z.leb_gt _ _)) in E by done.
  cbn [dcheck mbind option_bind] in E. destruct (FindIndexImpl _ _ _ _ _) as [[k found]|]; [|done]. cbn [mbind option_bind] in E.
  destruct (negb found); [|by injection E as <- _ _]. destruct (data_ s); [|done]. cbn [mbind option_bind] in E.
  destruct (awrite _ k x); [|done]. cbn [mbind option_bind] in E. by injection E as <- _ _.
Qed.

Lemma inserts_no_growth xs s A n :
  represents s A -> n < 2 ^ 50 -> Forall (fun x => IsEmpty x = false) xs ->
  n < elements_until_expand_ s -> zlength A + zlength xs <= n + 1 ->
  exists s' rs, performs s (map Insert xs) = Some (s', rs) /\ NumBuckets s' = NumBuckets s.
Proof.
  revert s A. induction xs as [|x xs IH]; intros s A Hrep Hn Hok Hroom Hlen; [by exists s, []|].
  apply Forall_cons_1 in Hok as [Hx Hok]. cbn [length] in Hlen. cbn [map performs].
  destruct (insert_no_growth s A x Hrep) as (s1 & -> & Hrep1 & Hb & Hu); [lia|done|lia|]. cbn [mbind option_bind].
  destruct (IH s1 (if existsb (fun e => pred e x) A then A else x :: A) Hrep1 Hn Hok) as (s2 & rs & -> & Hb2);
    [lia|destruct (existsb _ A); cbn [length]; lia|].
  cbn [mbind option_bind]. do 2 eexists. split; [done|]. congruence.
Qed.

(** C18: [reserve(n)] after any operations makes room for the set to reach [n]
    elements: insertions up to that size never replace the storage. *)
Theorem reserve_prevents_growth os n xs :
  Forall operation_ok os -> zlength os < 2 ^ 50 -> 0 <= n < 2 ^ 50 ->
  Forall (fun x => IsEmpty x = false) xs -> zlength (fst (abstract_performs [] os)) + zlength xs <= n ->
  exists s0 s s1 s2 rs rs', HashSet_default = Some s0 /\ performs s0 os = Some (s, rs) /\
    reserve IsEmpty MakeEmpty init hashfn s n = Some s1 /\
    performs s1 (map Insert xs) = Some (s2, rs') /\ NumBuckets s2 = NumBuckets s1.
Proof.
  intros Hok Hlen Hn Hxs Hfit. destruct default_represents as (s0 & E0 & Hrep0).
  destruct (performs_spec os s0 [] Hrep0) as (s & E & Hrep); [simpl; lia|done|].
  destruct (reserve_spec IsEmpty MakeEmpty init hashfn pred HMake s _ n Hrep Hn) as (s1 & E1 & Hrep1 & Hu).
  destruct (inserts_no_growth xs s1 _ n Hrep1) as (s2 & rs' & E2 & Hb); [lia|done|done|lia|].
  exists s0, s, s1, s2, (snd (abstract_performs [] os)), rs'. done.
Qed.

End Clients.

(** Sets of non-zero numbers with a colliding hash. *)
Definition small_hash (x : Z) : Z := x mod 16.

Lemma small_hash_laws :
  (forall _ : Z, (0 =? 0) = true) /\ (forall x y, (x =? y) = true -> (y =? x) = true) /\
  (forall x y z, (x =? y) = true -> (y =? z) = true -> (x =? z) = true) /\
  (forall x y, (x =? y) = true -> small_hash x = small_hash y).
Proof. split; [done|]. setoid_rewrite Z.eqb_eq. split; [congruence|]. split; congruence. Qed.

Lemma hash_set_refines_list_witness :
  let os := [Insert 5; Insert 21; Insert 5; Reserve 2000; Insert 37; Remove 5; Lookup 37; Shrink; Lookup 5] in
  exists s0 s B, HashSet_default = Some s0 /\
    performs (fun x => x =? 0) (fun _ => 0) 0 (fun x => x) small_hash Z.eqb s0 os =
      Some (s, [true; true; false; true; true; true; true; true; false]) /\
    size s = 2 /\ contents (fun x => x =? 0) s = Some B /\ Permutation B [37; 21].
Proof.
  destruct small_hash_laws as (H1 & H2 & H3 & H4).
  apply (hash_set_refines_list (fun x => x =? 0) (fun _ => 0) 0 (fun x => x) small_hash Z.eqb H1 H2 H3 H4
           [Insert 5; Insert 21; Insert 5; Reserve 2000; Insert 37; Remove 5; Lookup 37; Shrink; Lookup 5]);
    [repeat constructor|]; simpl; lia.
Defined.

Lemma Verify_no_errors_witness :
  exists s0 s rs, HashSet_default = Some s0 /\
    performs (fun x => x =? 0) (fun _ => 0) 0 (fun x => x) small_hash Z.eqb s0 [Insert 5; Insert 21; Insert 37; Remove 21] = Some (s, rs) /\
    Verify (fun x => x =? 0) (fun _ => 0) 0 small_hash s = Some (s, 0).
Proof.
  destruct small_hash_laws as (H1 & H2 & H3 & H4).
  apply (Verify_no_errors (fun x => x =? 0) (fun _ => 0) 0 (fun x => x) small_hash Z.eqb H1 H2 H3 H4); [repeat constructor|simpl; lia].
Defined.

Lemma reserve_prevents_growth_witness :
  exists s0 s s1 s2 rs rs', HashSet_default = Some s0 /\
    performs (fun x => x =? 0) (fun _ => 0) 0 (fun x => x) small_hash Z.eqb s0 [Insert 5] = Some (s, rs) /\
    reserve (fun x => x =? 0) (fun _ => 0) 0 small_hash s 3 = Some s1 /\
    performs (fun x => x =? 0) (fun _ => 0) 0 (fun x => x) small_hash Z.eqb s1 (map Insert [21; 37]) = Some (s2, rs') /\
    NumBuckets s2 = NumBuckets s1.
Proof.
  destruct small_hash_laws as (H1 & H2 & H3 & H4).
  apply (reserve_prevents_growth (fun x => x =? 0) (fun _ => 0) 0 (fun x => x) small_hash Z.eqb H1 H2 H3 H4 [Insert 5] 3 [21; 37]);
    [repeat constructor|simpl; lia|lia|repeat constructor|simpl; lia].
Defined.
