(* ===== verification/BitMemory.v ===== *)
(** * Regions of bits in memory

    Memory as the bit-level serialization code sees it, the bit regions of
    libartbase/base/bit_memory_region.h with their loads, stores and chunked
    traversals, and the bit reader and writer with variable-length integers. *)

From Stdlib Require Import ZArith Lia Bool List.
From stdpp Require Import base numbers list option.
From S2P Require Import Prelude BitUtils.

Open Scope Z_scope.
Open Scope art_scope.

(** ** Memory

    A partial map from addresses to bytes; an access outside the domain is a
    fault, [None]. Words are little-endian. *)

Definition memory : Type := Z -> option Z.

Definition mwrite (m : memory) (a v : Z) : option memory :=
  match m a with
  | Some _ => Some (fun x => if x =? a then Some (u8 v) else m x)
  | None => None
  end.

(** The [n]-byte word at [a]. *)
Fixpoint mload (n : nat) (m : memory) (a : Z) : option Z :=
  match n with
  | O => Some 0
  | S n' => b ← m a; r ← mload n' m (a + 1); Some (u8 b + 256 * r)
  end.

Fixpoint mstore (n : nat) (m : memory) (a v : Z) : option memory :=
  match n with
  | O => Some m
  | S n' => m ← mwrite m a v; mstore n' m (a + 1) (Z.shiftr v 8)
  end.

Definition kBitsPerByte : Z := 8.
Definition kPageSize : Z := 4096.
Definition kSizeMax : Z := 2 ^ 64 - 1.

(** [memory_region.h] *)
Record MemoryRegion := mkMemoryRegion { pointer_ : Z; size_ : Z }.

Definition size_in_bytes_bits (r : MemoryRegion) : Z := u64 (size_ r * kBitsPerByte).

(** ** Bit regions *)

Record BitMemoryRegion := mkBitMemoryRegion { region_data_ : Z; region_bit_start_ : Z; region_bit_size_ : Z }.

Definition BitMemoryRegion_default : BitMemoryRegion := mkBitMemoryRegion 0 0 0.

(** The data pointer is normalized to a page; [bit_start] may be negative. *)
Definition BitMemoryRegion_create (data bit_start bit_size : Z) : BitMemoryRegion :=
  let data_ := RoundDown 64 (u64 (data + Z.shiftr bit_start 3)) kPageSize in
  mkBitMemoryRegion data_ (u64 (bit_start + kBitsPerByte * (data - data_))) bit_size.

Definition BitMemoryRegion_of (region : MemoryRegion) : BitMemoryRegion :=
  BitMemoryRegion_create (pointer_ region) 0 (size_in_bytes_bits region).

Definition IsValid (r : BitMemoryRegion) : bool := negb (region_data_ r =? 0).

Definition region_data (r : BitMemoryRegion) : option Z :=
  DCHECK (IsAligned kBitsPerByte (region_bit_start_ r));
  Some (region_data_ r + region_bit_start_ r / kBitsPerByte).

Definition size_in_bits (r : BitMemoryRegion) : Z := region_bit_size_ r.

Definition Region_Resize (r : BitMemoryRegion) (bit_size : Z) : BitMemoryRegion :=
  mkBitMemoryRegion (region_data_ r) (region_bit_start_ r) bit_size.

Definition Subregion (r : BitMemoryRegion) (bit_offset bit_length : Z) : option BitMemoryRegion :=
  DCHECK (bit_offset <=? region_bit_size_ r);
  DCHECK (bit_length <=? region_bit_size_ r - bit_offset);
  Some (mkBitMemoryRegion (region_data_ r) (u64 (region_bit_start_ r + bit_offset)) bit_length).

Definition Subregion_from (r : BitMemoryRegion) (bit_offset : Z) : option BitMemoryRegion :=
  DCHECK (bit_offset <=? region_bit_size_ r);
  Some (mkBitMemoryRegion (region_data_ r) (u64 (region_bit_start_ r + bit_offset)) (region_bit_size_ r - bit_offset)).

Definition BitMemoryRegion_sub (region : MemoryRegion) (bit_offset bit_length : Z) : option BitMemoryRegion :=
  Subregion (BitMemoryRegion_of region) bit_offset bit_length.

Definition LoadBit (m : memory) (r : BitMemoryRegion) (bit_offset : Z) : option bool :=
  DCHECK (bit_offset <? region_bit_size_ r);
  let index := u64 (region_bit_start_ r + bit_offset) / kBitsPerByte in
  let shift := u64 (region_bit_start_ r + bit_offset) mod kBitsPerByte in
  b ← m (region_data_ r + index);
  Some (negb (Z.land (Z.shiftr b shift) 1 =? 0)).

(** [byte &= ~clear; byte |= set]. *)
Definition clear_and_set (m : memory) (a clear set : Z) : option memory :=
  b ← m a;
  m ← mwrite m a (Z.land b (Z.lnot clear));
  b ← m a;
  mwrite m a (Z.lor b set).

Definition StoreBit (m : memory) (r : BitMemoryRegion) (bit_offset : Z) (value : bool) : option memory :=
  DCHECK (bit_offset <? region_bit_size_ r);
  let index := u64 (region_bit_start_ r + bit_offset) / kBitsPerByte in
  let shift := u64 (region_bit_start_ r + bit_offset) mod kBitsPerByte in
  m ← clear_and_set m (region_data_ r + index) (Z.shiftl 1 shift) (Z.shiftl (Z.b2z value) shift);
  v ← LoadBit m r bit_offset;
  DCHECK (Bool.eqb value v);
  Some m.

(** [LoadBits<Result>], for an unsigned [Result] of [w] bits. *)
Definition LoadBits (w : Z) (m : memory) (r : BitMemoryRegion) (bit_offset bit_length : Z) : option Z :=
  DCHECK (IsAligned (w / 8) (region_data_ r));
  DCHECK (bit_offset <=? region_bit_size_ r);
  DCHECK (bit_length <=? region_bit_size_ r - bit_offset);
  DCHECK (bit_length <=? w);
  if bit_length =? 0 then Some 0
  else
    let index := u64 (region_bit_start_ r + bit_offset) / w in
    let shift := u64 (region_bit_start_ r + bit_offset) mod w in
    word ← mload (Z.to_nat (w / 8)) m (region_data_ r + (w / 8) * index);
    let value := Z.shiftr word shift in
    extra ← mload (Z.to_nat (w / 8)) m (region_data_ r + (w / 8) * (index + (shift + (bit_length - 1)) / w));
    let clear := wrap w (Z.shiftl (Z.shiftl (2 ^ w - 1) 1) (bit_length - 1)) in
    Some (wrap w (Z.land (Z.lor value (Z.shiftl extra (Z.land (w - shift) (w - 1)))) (Z.lnot clear))).

(** The loop over the bytes after the first one. *)
Fixpoint store_bits_loop (fuel : nat) (m : memory) (data mask value bit_length i finished_bits : Z) : option memory :=
  if finished_bits <? bit_length then
    match fuel with
    | O => None
    | S fuel' =>
        m ← clear_and_set m (data + i) (Z.shiftr mask finished_bits) (Z.shiftr value finished_bits);
        store_bits_loop fuel' m data mask value bit_length (i + 1) (finished_bits + kBitsPerByte)
    end
  else Some m.

Definition StoreBits (m : memory) (r : BitMemoryRegion) (bit_offset value bit_length : Z) : option memory :=
  DCHECK (bit_offset <=? region_bit_size_ r);
  DCHECK (bit_length <=? region_bit_size_ r - bit_offset);
  DCHECK (bit_length <=? 64);
  DCHECK (value <=? MaxInt_unsigned 64 bit_length);
  if bit_length =? 0 then Some m
  else
    let mask := Z.shiftr kSizeMax (64 - bit_length) in
    let index := u64 (region_bit_start_ r + bit_offset) / kBitsPerByte in
    let shift := u64 (region_bit_start_ r + bit_offset) mod kBitsPerByte in
    let data := region_data_ r + index in
    m ← clear_and_set m data (u64 (Z.shiftl mask shift)) (u64 (Z.shiftl value shift));
    m ← store_bits_loop 8 m data mask value bit_length 1 (kBitsPerByte - shift);
    v ← LoadBits 64 m r bit_offset bit_length;
    DCHECK (value =? v);
    Some m.

(** ** Traversal in chunks

    The visitor threads a state [S] that determines the memory, and returns
    whether to go on. *)

Section Chunks.

Context {S : Type} (mem : S -> memory) (visitor : Z -> Z -> Z -> S -> option (S * bool)).

Definition kChunkSize : Z := 64.

(** Clears the bits from [n] on. *)
Definition low_bits (value n : Z) : Z := Z.land value (u64 (Z.lnot (u64 (Z.shiftl kSizeMax n)))).

Fixpoint visit_chunks_loop (fuel : nat) (data offset remaining_bits : Z) (s : S) : option (S * bool) :=
  if kChunkSize <=? remaining_bits then
    match fuel with
    | O => None
    | Datatypes.S fuel' =>
        value ← mload 8 (mem s) data;
        '(s, go_on) ← visitor offset kChunkSize value s;
        if negb go_on then Some (s, false)
        else visit_chunks_loop fuel' (data + 8) (offset + kChunkSize) (remaining_bits - kChunkSize) s
    end
  else if negb (remaining_bits =? 0) then
    word ← mload 8 (mem s) data;
    '(s, go_on) ← visitor offset remaining_bits (low_bits word remaining_bits) s;
    if negb go_on then Some (s, false) else Some (s, true)
  else Some (s, true).

Definition VisitChunks (r : BitMemoryRegion) (s : S) : option (S * bool) :=
  let remaining_bits := region_bit_size_ r in
  if remaining_bits =? 0 then Some (s, true)
  else
    DCHECK (IsAligned 8 (region_data_ r));
    let bit_start := region_bit_start_ r in
    let data := region_data_ r + 8 * (bit_start / kChunkSize) in
    let fuel := Z.to_nat (remaining_bits / kChunkSize) in
    if negb (bit_start mod kChunkSize =? 0) then
      let leading_bits := kChunkSize - bit_start mod kChunkSize in
      word ← mload 8 (mem s) data;
      let value := Z.shiftr word (bit_start mod kChunkSize) in
      let '(leading_bits, value) :=
        if remaining_bits <? leading_bits then (remaining_bits, low_bits value remaining_bits)
        else (leading_bits, value) in
      '(s, go_on) ← visitor 0 leading_bits value s;
      if negb go_on then Some (s, false)
      else visit_chunks_loop fuel (data + 8) leading_bits (remaining_bits - leading_bits) s
    else visit_chunks_loop fuel data 0 remaining_bits s.

End Chunks.

Definition StoreChunk (m : memory) (r : BitMemoryRegion) (bit_offset value bit_length : Z) : option memory :=
  if bit_length =? 64 then
    DCHECK (IsAligned 64 (u64 (region_bit_start_ r + bit_offset)));
    let data := region_data_ r + u64 (region_bit_start_ r + bit_offset) / kBitsPerByte in
    DCHECK (IsAligned 8 data);
    mstore 8 m data value
  else StoreBits m r bit_offset value bit_length.

(** [CopyBits], [AndBits], [OrBits] and [XorBits] differ in the value they
    store in place of the chunk [value]. *)
Definition combine_bits (op : Z -> Z -> Z) (m : memory) (r src : BitMemoryRegion) : option memory :=
  DCHECK (size_in_bits r =? size_in_bits src);
  '(m, _) ← VisitChunks (fun m => m)
    (fun offset num_bits value m =>
       v ← LoadBits 64 m src offset num_bits; m ← StoreChunk m r offset (op value v) num_bits; Some (m, true)) r m;
  Some m.

Definition CopyBits : memory -> BitMemoryRegion -> BitMemoryRegion -> option memory := combine_bits (fun _ v => v).
Definition AndBits : memory -> BitMemoryRegion -> BitMemoryRegion -> option memory := combine_bits Z.land.
Definition OrBits : memory -> BitMemoryRegion -> BitMemoryRegion -> option memory := combine_bits Z.lor.
Definition XorBits : memory -> BitMemoryRegion -> BitMemoryRegion -> option memory := combine_bits Z.lxor.

Definition PopCount (m : memory) (r : BitMemoryRegion) : option Z :=
  '(result, _) ← VisitChunks (fun _ => m) (fun _ _ value result => Some (u64 (result + POPCOUNT 64 value), true)) r 0;
  Some result.

Definition PopCount_range (m : memory) (r : BitMemoryRegion) (bit_offset bit_length : Z) : option Z :=
  r ← Subregion r bit_offset bit_length; PopCount m r.

Definition HasAllBitsClear (m : memory) (r : BitMemoryRegion) : option bool :=
  '(_, all) ← VisitChunks (fun _ => m) (fun _ _ value u => Some (u, value =? 0)) r tt;
  Some all.

Definition HasSomeBitSet (m : memory) (r : BitMemoryRegion) : option bool :=
  b ← HasAllBitsClear m r; Some (negb b).

Definition HasSomeBitSet_range (m : memory) (r : BitMemoryRegion) (bit_offset bit_length : Z) : option bool :=
  r ← Subregion r bit_offset bit_length; HasSomeBitSet m r.

Definition Compare (m : memory) (lhs rhs : BitMemoryRegion) : option Z :=
  if negb (size_in_bits lhs =? size_in_bits rhs) then Some (if size_in_bits lhs <? size_in_bits rhs then -1 else 1)
  else
    '(result, equals) ← VisitChunks (fun _ => m)
      (fun offset num_bits lhs_value result =>
         rhs_value ← LoadBits 64 m rhs offset num_bits;
         if lhs_value =? rhs_value then Some (result, true)
         else
           let bit := CTZ (Z.lxor lhs_value rhs_value) in
           Some (if negb (Z.land (Z.shiftr rhs_value bit) 1 =? 0) then 1 else -1, false)) lhs 0;
    DCHECK (Bool.eqb equals (result =? 0));
    Some result.

Definition Region_Equals (m : memory) (lhs rhs : BitMemoryRegion) : option bool :=
  if negb (size_in_bits lhs =? size_in_bits rhs) then Some false
  else
    '(_, equals) ← VisitChunks (fun _ => m)
      (fun offset num_bits lhs_value u => rhs_value ← LoadBits 64 m rhs offset num_bits; Some (u, lhs_value =? rhs_value)) lhs tt;
    Some equals.

(** ** Bits of the memory

    Bit [i] of the memory is bit [i mod 8] of byte [i / 8]. *)

Definition mbit (m : memory) (i : Z) : bool :=
  match m (i / 8) with Some b => Z.testbit b (i mod 8) | None => false end.

(** The bytes of the bits [a .. a + n - 1] can be accessed. *)
Definition readable (m : memory) (a n : Z) : Prop := forall i, a <= i < a + n -> is_Some (m (i / 8)).

(** Access rights are those of whole pages. *)
Definition paged (m : memory) : Prop :=
  forall a b, a / kPageSize = b / kPageSize -> is_Some (m a) -> is_Some (m b).

Definition same_domain (m m' : memory) : Prop := forall a, is_Some (m' a) <-> is_Some (m a).

(** The number in the [n] bits from [a] on. *)
Fixpoint loaded (m : memory) (a : Z) (n : nat) : Z :=
  match n with O => 0 | S n' => Z.b2z (mbit m a) + 2 * loaded m (a + 1) n' end.

(** [m'] is [m] with the [n] bits from [a] on replaced by those of [v]. *)
Definition stores (m m' : memory) (a v n : Z) : Prop :=
  same_domain m m' /\
  forall i, mbit m' i = if (a <=? i) && (i <? a + n) then Z.testbit v (i - a) else mbit m i.

#[local] Ltac Zify.zify_post_hook ::= Z.to_euclidean_division_equations.

Lemma same_domain_refl m : same_domain m m.
Proof. done. Qed.

Lemma same_domain_trans m1 m2 m3 : same_domain m1 m2 -> same_domain m2 m3 -> same_domain m1 m3.
Proof. unfold same_domain. naive_solver. Qed.

Lemma readable_domain m m' a n : same_domain m m' -> readable m a n -> readable m' a n.
Proof. intros Hd Hr i Hi. by apply Hd, Hr. Qed.

Lemma paged_domain m m' : same_domain m m' -> paged m -> paged m'.
Proof. intros Hd Hp a b Hab Ha. apply Hd, (Hp a b Hab). by apply Hd. Qed.

Lemma readable_sub m a n a' n' : readable m a n -> a <= a' -> a' + n' <= a + n -> readable m a' n'.
Proof. intros Hr ? ? i Hi. apply Hr. lia. Qed.

(** The aligned 64-bit words around accessible bits are accessible. *)
Lemma readable_words m a n w :
  paged m -> readable m a n -> 0 < n -> (w = 8 \/ w = 16 \/ w = 32 \/ w = 64) ->
  readable m (a / w * w) (((a + n - 1) / w - a / w + 1) * w).
Proof.
  intros Hp Hr Hn Hw i Hi.
  destruct (Z.ltb_spec i a).
  - apply (Hp (a / 8)); [|apply Hr; lia]. unfold kPageSize. lia.
  - destruct (Z.ltb_spec i (a + n)); [by apply Hr; lia|].
    apply (Hp ((a + n - 1) / 8)); [|apply Hr; lia]. unfold kPageSize. lia.
Qed.

Lemma loaded_is_u m a n : is_u (Z.of_nat n) (loaded m a n).
Proof.
  revert a. induction n as [|n IH]; intros a; [done|]. cbn [loaded]. specialize (IH (a + 1)). unfold is_u in *.
  rewrite Nat2Z.inj_succ, Z.pow_succ_r by lia. destruct (mbit m a); simpl Z.b2z; lia.
Qed.

Lemma testbit_loaded m a n i :
  Z.testbit (loaded m a n) i = (0 <=? i) && (i <? Z.of_nat n) && mbit m (a + i).
Proof.
  revert a i. induction n as [|n IH]; intros a i.
  - cbn [loaded]. rewrite Z.testbit_0_l. zcases; done.
  - cbn [loaded]. destruct (Z.leb_spec 0 i); [|by rewrite Z.testbit_neg_r].
    rewrite Z.add_comm. destruct (Z.eqb_spec i 0) as [->|Hi].
    + rewrite Z.testbit_0_r, Z.add_0_r. zcases. done.
    + replace i with (Z.succ (i - 1)) at 1 by lia. rewrite Z.testbit_succ_r by lia. rewrite IH.
      replace (a + 1 + (i - 1)) with (a + i) by lia. zcases; done.
Qed.

#[export] Hint Rewrite testbit_loaded : testbit.

Lemma loaded_app m a n k : loaded m a (n + k) = loaded m a n + 2 ^ Z.of_nat n * loaded m (a + Z.of_nat n) k.
Proof.
  revert a. induction n as [|n IH]; intros a; cbn [loaded Nat.add].
  - rewrite Z.add_0_r. change (2 ^ Z.of_nat 0) with 1. lia.
  - rewrite IH, Nat2Z.inj_succ, Z.pow_succ_r by lia. replace (a + 1 + Z.of_nat n) with (a + Z.succ (Z.of_nat n)) by lia. lia.
Qed.

Lemma mbit_at m a b k : m a = Some b -> 0 <= k < 8 -> mbit m (8 * a + k) = Z.testbit b k.
Proof.
  intros Ha Hk. unfold mbit. replace ((8 * a + k) / 8) with a by lia. rewrite Ha. f_equal. lia.
Qed.

Lemma loaded_byte m a b : m a = Some b -> loaded m (8 * a) 8 = u8 b.
Proof.
  intros Ha. apply Z.bits_inj'. intros i Hi. rewrite testbit_loaded, testbit_wrap by lia. change (Z.of_nat 8) with 8.
  destruct (Z.ltb_spec i 8); [|by rewrite andb_false_r]. rewrite (mbit_at m a b) by (done || lia). zcases. done.
Qed.

Lemma mload_spec n m a : readable m (8 * a) (8 * Z.of_nat n) -> mload n m a = Some (loaded m (8 * a) (8 * n)).
Proof.
  revert a. induction n as [|n IH]; intros a Hr; [done|]. cbn [mload].
  destruct (Hr (8 * a)) as [b Hb]; [lia|]. replace (8 * a / 8) with a in Hb by lia. rewrite Hb. cbn [mbind option_bind].
  rewrite IH; [|apply (readable_sub m _ _ _ _ Hr); lia]. cbn [mbind option_bind]. f_equal.
  replace (8 * S n)%nat with (8 + 8 * n)%nat by lia. rewrite loaded_app, (loaded_byte m a b Hb).
  change (2 ^ Z.of_nat 8) with 256. change (Z.of_nat 8) with 8. repeat f_equal. lia.
Qed.

Lemma mwrite_spec m a v : is_Some (m a) -> exists m', mwrite m a v = Some m' /\ stores m m' (8 * a) v 8 /\ m' a = Some (u8 v).
Proof.
  intros [b Hb]. unfold mwrite. rewrite Hb. eexists. split; [done|]. split; [|cbn beta; by rewrite Z.eqb_refl]. split.
  - intros x. destruct (Z.eqb_spec x a) as [->|]; [|done]. rewrite Hb. split; eauto.
  - intros i. unfold mbit. destruct (Z.eqb_spec (i / 8) a) as [E|E].
    + rewrite testbit_wrap by lia. zcases. simpl. f_equal. lia.
    + zcases; done.
Qed.

Lemma stores_refl m a v n : n <= 0 -> stores m m a v n.
Proof. intros. split; [done|]. intros i. zcases; done. Qed.

Lemma stores_app m m1 m2 a v n k :
  0 <= n -> 0 <= k -> stores m m1 a v n -> stores m1 m2 (a + n) (Z.shiftr v n) k -> stores m m2 a v (n + k).
Proof.
  intros Hn Hk [Hd1 H1] [Hd2 H2]. split; [by apply (same_domain_trans m m1)|]. intros i. rewrite H2, H1, testbit_shiftr.
  zcases; simpl; try done; f_equal; lia.
Qed.

Lemma mstore_spec n m a v :
  readable m (8 * a) (8 * Z.of_nat n) -> exists m', mstore n m a v = Some m' /\ stores m m' (8 * a) v (8 * Z.of_nat n).
Proof.
  revert m a v. induction n as [|n IH]; intros m a v Hr; cbn [mstore].
  - exists m. split; [done|]. apply stores_refl. lia.
  - destruct (Hr (8 * a)) as [b Hb]; [lia|]. replace (8 * a / 8) with a in Hb by lia.
    destruct (mwrite_spec m a v) as (m1 & -> & Hs1 & _); [eauto|]. cbn [mbind option_bind].
    destruct (IH m1 (a + 1) (Z.shiftr v 8)) as (m2 & -> & Hs2).
    + apply (readable_domain m); [apply Hs1|]. apply (readable_sub m _ _ _ _ Hr); lia.
    + exists m2. split; [done|]. replace (8 * (a + 1)) with (8 * a + 8) in Hs2 by lia.
      replace (8 * Z.of_nat (S n)) with (8 + 8 * Z.of_nat n) by lia. apply (stores_app m m1 m2); try lia; done.
Qed.

(** ** Loads and stores of a region *)

(** The position in memory of the first bit of a region. *)
Definition base (r : BitMemoryRegion) : Z := 8 * region_data_ r + region_bit_start_ r.

Record region_ok (r : BitMemoryRegion) : Prop := {
  ro_aligned : region_data_ r mod kPageSize = 0;
  ro_start : 0 <= region_bit_start_ r;
  ro_size : 0 <= region_bit_size_ r;
  ro_bound : region_bit_start_ r + region_bit_size_ r < 2 ^ 64
}.

Definition word_size (w : Z) : Prop := w = 8 \/ w = 16 \/ w = 32 \/ w = 64.

Lemma BitMemoryRegion_create_ok data bit_start bit_size :
  0 <= data + bit_start / 8 < 2 ^ 64 -> 0 <= bit_size < 2 ^ 63 ->
  let r := BitMemoryRegion_create data bit_start bit_size in
  region_ok r /\ base r = 8 * data + bit_start /\ size_in_bits r = bit_size /\ region_bit_start_ r < 8 * 4096.
Proof.
  intros Hd Hs r. unfold r, BitMemoryRegion_create, base, size_in_bits. cbn [region_data_ region_bit_start_ region_bit_size_].
  rewrite Z.shiftr_div_pow2 by lia. change (2 ^ 3) with 8. rewrite wrap_id by (unfold is_u; lia).
  change kPageSize with (2 ^ 12). rewrite RoundDown_spec by (unfold is_u; lia). change (2 ^ 12) with 4096. unfold kBitsPerByte.
  rewrite wrap_id by (unfold is_u; lia). split; [|lia]. split; cbn [region_data_ region_bit_start_ region_bit_size_]; unfold kPageSize; lia.
Qed.

Lemma Subregion_spec r off len :
  region_ok r -> 0 <= off -> 0 <= len -> off + len <= region_bit_size_ r ->
  exists r', Subregion r off len = Some r' /\ region_ok r' /\ base r' = base r + off /\ size_in_bits r' = len /\
    region_data_ r' = region_data_ r.
Proof.
  intros [Ha Hs Hz Hb] ? ? ?. unfold Subregion. rewrite !(proj2 (Z.leb_le _ _)) by lia. cbn [dcheck mbind option_bind].
  eexists. split; [done|]. unfold base. cbn [region_data_ region_bit_start_ region_bit_size_].
  rewrite wrap_id by (unfold is_u; lia). split; [|split; [lia|split; done]]. split; cbn [region_data_ region_bit_start_ region_bit_size_]; lia.
Qed.

Lemma div_carry p k w : 0 < w -> p / w + (p mod w + k) / w = (p + k) / w.
Proof.
  intros Hw. rewrite Z.add_comm, <- Z.div_add by lia. f_equal. rewrite (Z.div_mod p w) at 3 by lia. ring.
Qed.

Lemma word_land w x : word_size w -> Z.land x (w - 1) = x mod w.
Proof. intros [->|[->|[->| ->]]]; [apply (Z.land_ones x 3)|apply (Z.land_ones x 4)|apply (Z.land_ones x 5)|apply (Z.land_ones x 6)]; lia. Qed.

Lemma word_aligned w r : word_size w -> region_ok r -> IsAligned (w / 8) (region_data_ r) = true.
Proof.
  intros Hw [Ha _ _ _]. unfold kPageSize in Ha. apply Z.eqb_eq. destruct Hw as [->|[->|[->| ->]]].
  - by rewrite Z.land_0_r.
  - change (16 / 8 - 1) with (Z.ones 1). rewrite Z.land_ones by lia. lia.
  - change (32 / 8 - 1) with (Z.ones 2). rewrite Z.land_ones by lia. lia.
  - change (64 / 8 - 1) with (Z.ones 3). rewrite Z.land_ones by lia. lia.
Qed.

Lemma word_bytes w : word_size w -> 8 * (w / 8) = w.
Proof. by intros [->|[->|[->| ->]]]. Qed.

(** An aligned word around accessible bits. *)
Lemma word_load w m r i :
  word_size w -> paged m -> region_ok r -> 0 <= i -> readable m (8 * region_data_ r + i) 1 ->
  mload (Z.to_nat (w / 8)) m (region_data_ r + w / 8 * (i / w)) =
    Some (loaded m (8 * region_data_ r + i / w * w) (Z.to_nat w)).
Proof.
  intros Hw Hp [Ha _ _ _] Hi Hr. unfold kPageSize in Ha.
  assert (Hpos : 8 * (region_data_ r + w / 8 * (i / w)) = 8 * region_data_ r + i / w * w).
  { rewrite Z.mul_add_distr_l, Z.mul_assoc, (word_bytes w Hw). ring. }
  assert (Hn : (8 * Z.to_nat (w / 8))%nat = Z.to_nat w) by (destruct Hw as [->|[->|[->| ->]]]; done).
  rewrite mload_spec; rewrite Hpos; [by rewrite Hn|].
  pose proof (readable_words m _ 1 w Hp Hr ltac:(lia) Hw) as H.
  assert ((8 * region_data_ r + i) / w * w = 8 * region_data_ r + i / w * w) as E by (destruct Hw as [->|[->|[->| ->]]]; lia).
  rewrite E in H. apply (readable_sub m _ _ _ _ H); [lia|]. destruct Hw as [->|[->|[->| ->]]]; lia.
Qed.

(** The bits of the combination that [LoadBits] computes. *)
Lemma load_combine w m a shift len word extra :
  word_size w -> 0 <= shift < w -> 0 < len <= w ->
  word = loaded m a (Z.to_nat w) ->
  extra = loaded m (a + (shift + (len - 1)) / w * w) (Z.to_nat w) ->
  wrap w (Z.land (Z.lor (Z.shiftr word shift) (Z.shiftl extra (Z.land (w - shift) (w - 1))))
            (Z.lnot (wrap w (Z.shiftl (Z.shiftl (2 ^ w - 1) 1) (len - 1))))) = loaded m (a + shift) (Z.to_nat len).
Proof.
  intros Hw Hs Hl -> ->. rewrite word_land by done.
  assert (Hw0 : 8 <= w) by (destruct Hw as [->|[->|[->| ->]]]; lia).
  assert (0 <= (w - shift) mod w) by lia.
  assert (2 ^ w - 1 = Z.ones w) as -> by (rewrite Z.ones_equiv; lia).
  apply Z.bits_inj'. intros i Hi. autorewrite with testbit. rewrite !Z2Nat.id by lia.
  replace (a + (i + shift)) with (a + shift + i) by lia.
  destruct (Z.ltb_spec i len) as [Hil|Hil]; [|zcases; simpl; rewrite ?andb_false_r; done].
  assert (negb ((i <? w) && ((0 <=? i) && ((0 <=? i - (len - 1)) && (0 <=? i - (len - 1) - 1) && (i - (len - 1) - 1 <? w)))) = true) as Hm
    by (zcases; done).
  destruct (Z.ltb_spec i w); [|lia]. simpl. rewrite (proj2 (Z.leb_le 0 i)) in * by lia. simpl in *.
  destruct (Z.ltb_spec (shift + i) w) as [Hlow|Hhigh].
  - destruct (Z.eqb_spec shift 0) as [->|Hne].
    + replace ((w - 0) mod w) with 0 by (rewrite Z.sub_0_r, Z.mod_same; lia).
      replace ((0 + (len - 1)) / w) with 0 by (rewrite Z.div_small; lia).
      rewrite Z.mul_0_l, !Z.sub_0_r, !Z.add_0_r. zcases; simpl; destruct (mbit m (a + i)); done.
    + rewrite (Z.mod_small (w - shift)) by lia. zcases; simpl; by rewrite ?andb_true_r, ?orb_false_r.
  - rewrite (Z.mod_small (w - shift)) by lia.
    assert ((shift + (len - 1)) / w = 1) as -> by (symmetry; apply (Z.div_unique_pos _ _ _ (shift + (len - 1) - w)); lia).
    replace (a + 1 * w + (i - (w - shift))) with (a + shift + i) by lia. zcases; simpl; by rewrite ?andb_true_r.
Qed.

Lemma LoadBits_spec w m r off len :
  word_size w -> region_ok r -> paged m -> 0 <= off -> 0 <= len <= w -> off + len <= region_bit_size_ r ->
  readable m (base r + off) len ->
  LoadBits w m r off len = Some (loaded m (base r + off) (Z.to_nat len)).
Proof.
  intros Hw Hok Hp Hoff Hlen Hsz Hr. pose proof Hok as [Ha Hst Hz Hb]. unfold LoadBits. rewrite word_aligned by done.
  rewrite !(proj2 (Z.leb_le _ _)) by lia. cbn [dcheck mbind option_bind].
  destruct (Z.eqb_spec len 0) as [->|Hne]; [done|]. rewrite wrap_id by (unfold is_u; lia).
  set (p := region_bit_start_ r + off) in *. unfold base in *.
  assert (0 < w) by (destruct Hw as [->|[->|[->| ->]]]; lia).
  rewrite word_load; try done; [|lia|apply (readable_sub m _ _ _ _ Hr); lia]. cbn [mbind option_bind].
  rewrite div_carry by done.
  rewrite word_load; try done; [|lia|apply (readable_sub m _ _ _ _ Hr); lia]. cbn [mbind option_bind]. f_equal.
  replace (8 * region_data_ r + region_bit_start_ r + off) with (8 * region_data_ r + p / w * w + p mod w)
    by (pose proof (Z.div_mod p w); unfold p in *; lia).
  pose proof (Z.mod_pos_bound p w ltac:(lia)).
  apply load_combine; try done; [lia|]. f_equal. rewrite <- div_carry by done. ring.
Qed.

(** Replacing [n] bits of a byte from its bit [lo] on. *)
Lemma clear_and_set_spec m a clear set v lo n :
  is_Some (m a) -> 0 <= lo -> 0 <= n -> lo + n <= 8 ->
  (forall k, 0 <= k < 8 -> Z.testbit clear k = (lo <=? k) && (k <? lo + n)) ->
  (forall k, 0 <= k < 8 -> Z.testbit set k = (lo <=? k) && (k <? lo + n) && Z.testbit v (k - lo)) ->
  exists m', clear_and_set m a clear set = Some m' /\ stores m m' (8 * a + lo) v n.
Proof.
  intros [b Hb] Hlo Hn Hsum Hclear Hset. unfold clear_and_set. rewrite Hb. cbn [mbind option_bind].
  destruct (mwrite_spec m a (Z.land b (Z.lnot clear))) as (m1 & -> & [Hd1 H1] & E1); [eauto|]. cbn [mbind option_bind].
  rewrite E1. cbn [mbind option_bind].
  destruct (mwrite_spec m1 a (Z.lor (u8 (Z.land b (Z.lnot clear))) set)) as (m2 & -> & [Hd2 H2] & _); [eauto|].
  exists m2. split; [done|]. split; [by apply (same_domain_trans m m1)|]. intros i. rewrite H2, H1.
  destruct (Z.leb_spec (8 * a) i); simpl; [|zcases; done].
  destruct (Z.ltb_spec i (8 * a + 8)); simpl; [|zcases; done].
  autorewrite with testbit. rewrite Hclear, Hset by lia.
  replace (mbit m i) with (Z.testbit b (i - 8 * a)) by (rewrite <- (mbit_at m a b) by (done || lia); f_equal; lia).
  replace (i - (8 * a + lo)) with (i - 8 * a - lo) by lia.
  zcases; simpl; rewrite ?andb_true_r, ?orb_false_r, ?andb_false_r; done.
Qed.

Lemma stores_length m m' a v n k : n = k -> stores m m' a v n -> stores m m' a v k.
Proof. by intros ->. Qed.

Lemma store_bits_loop_spec fuel m data v len i f A :
  is_u len v -> 0 < f -> len <= 64 -> 8 * (data + i) = A + f -> len - f <= 8 * Z.of_nat fuel ->
  readable m (A + f) (len - f) ->
  exists m', store_bits_loop fuel m data (Z.shiftr kSizeMax (64 - len)) v len i f = Some m' /\
    stores m m' (A + f) (Z.shiftr v f) (Z.max 0 (len - f)).
Proof.
  intros Hv. revert m i f. induction fuel as [|fuel IH]; intros m i f Hf Hlen HA Hfuel Hr; cbn [store_bits_loop].
  - destruct (Z.ltb_spec f len); [lia|]. exists m. split; [done|]. apply stores_refl. lia.
  - destruct (Z.ltb_spec f len) as [Hlt|Hge]; [|exists m; split; [done|]; apply stores_refl; lia].
    destruct (clear_and_set_spec m (data + i) (Z.shiftr (Z.shiftr kSizeMax (64 - len)) f) (Z.shiftr v f) (Z.shiftr v f) 0 (Z.min 8 (len - f)))
      as (m1 & -> & Hs1); try lia.
    + replace (data + i) with ((A + f) / 8) by lia. apply Hr. lia.
    + intros k Hk. change kSizeMax with (Z.ones 64). autorewrite with testbit. zcases; done.
    + intros k Hk. rewrite Z.sub_0_r, testbit_shiftr. zcases; simpl; rewrite ?andb_true_r; [done|].
      by rewrite (testbit_high len v) by (done || lia).
    + cbn [mbind option_bind]. unfold kBitsPerByte. rewrite Z.add_0_r, HA in Hs1.
      destruct (IH m1 (i + 1) (f + 8)) as (m2 & -> & Hs2); try lia.
      * apply (readable_domain m); [apply Hs1|]. apply (readable_sub m _ _ _ _ Hr); lia.
      * exists m2. split; [done|]. apply (stores_length _ _ _ _ (Z.min 8 (len - f) + Z.max 0 (len - (f + 8)))); [lia|].
        destruct (Z.leb_spec (len - f) 8).
        -- destruct Hs2 as [Hd2 H2]. destruct Hs1 as [Hd1 H1]. split; [by apply (same_domain_trans m m1)|].
           intros j. rewrite H2, H1. zcases; done.
        -- apply (stores_app m m1 m2); try lia; [done|].
           rewrite Z.min_l by lia. rewrite <- Z.shiftr_shiftr in Hs2 by lia. by rewrite Z.add_assoc in Hs2.
Qed.

Lemma loaded_stores m m' a v n : 0 <= n -> is_u n v -> stores m m' a v n -> loaded m' a (Z.to_nat n) = v.
Proof.
  intros Hn Hv [_ H]. apply Z.bits_inj'. intros i Hi. rewrite testbit_loaded, H, Z2Nat.id by lia.
  replace (a + i - a) with i by lia. zcases; simpl; [done|]. by rewrite (testbit_high n v) by (done || lia).
Qed.

Lemma MaxInt_unsigned_spec len v : 0 <= len <= 64 -> is_u len v -> (v <=? MaxInt_unsigned 64 len) = true.
Proof.
  intros Hl [H0 Hv]. apply Z.leb_le. unfold MaxInt_unsigned. destruct (Z.eqb_spec len 64) as [->|]; [lia|].
  rewrite Z.shiftl_1_l. pose proof (pow2_pos len ltac:(lia)).
  assert (2 ^ len < 2 ^ 64) by (apply Z.pow_lt_mono_r; lia).
  rewrite (wrap_id 64 (2 ^ len)) by (unfold is_u; lia). rewrite (wrap_id 64 (2 ^ len)) by (unfold is_u; lia).
  rewrite wrap_id by (unfold is_u; lia). lia.
Qed.

Lemma StoreBits_spec m r off v len :
  region_ok r -> paged m -> 0 <= off -> 0 <= len <= 64 -> off + len <= region_bit_size_ r -> is_u len v ->
  readable m (base r + off) len ->
  exists m', StoreBits m r off v len = Some m' /\ stores m m' (base r + off) v len.
Proof.
  intros Hok Hp Hoff Hlen Hsz Hv Hr. pose proof Hok as [Ha Hst Hz Hb]. unfold StoreBits.
  rewrite MaxInt_unsigned_spec by done. rewrite !(proj2 (Z.leb_le _ _)) by lia. cbn [dcheck mbind option_bind].
  destruct (Z.eqb_spec len 0) as [->|Hne]; [exists m; split; [done|]; apply stores_refl; lia|].
  unfold kBitsPerByte. rewrite wrap_id by (unfold is_u; lia). set (p := region_bit_start_ r + off) in *.
  set (A := base r + off) in *. assert (HA : A = 8 * (region_data_ r + p / 8) + p mod 8) by (unfold A, p, base; lia).
  destruct (clear_and_set_spec m (region_data_ r + p / 8) (u64 (Z.shiftl (Z.shiftr kSizeMax (64 - len)) (p mod 8)))
              (u64 (Z.shiftl v (p mod 8))) v (p mod 8) (Z.min (8 - p mod 8) len)) as (m1 & -> & Hs1); try lia.
  - replace (region_data_ r + p / 8) with (A / 8) by lia. apply Hr. lia.
  - intros k Hk. change kSizeMax with (Z.ones 64). autorewrite with testbit. zcases; done.
  - intros k Hk. autorewrite with testbit. zcases; simpl; try done; rewrite ?(testbit_high len v) by (done || lia); try done.
    by rewrite Z.testbit_neg_r by lia.
  - cbn [mbind option_bind]. rewrite <- HA in Hs1.
    destruct (store_bits_loop_spec 8 m1 (region_data_ r + p / 8) v len 1 (8 - p mod 8) A) as (m2 & -> & Hs2); try lia; [done| |].
    { apply (readable_domain m); [apply Hs1|]. apply (readable_sub m _ _ _ _ Hr); lia. }
    assert (Hs : stores m m2 A v len).
    { apply (stores_length _ _ _ _ (Z.min (8 - p mod 8) len + Z.max 0 (len - (8 - p mod 8)))); [lia|].
      destruct (Z.leb_spec len (8 - p mod 8)).
      - destruct Hs2 as [Hd2 H2]. destruct Hs1 as [Hd1 H1]. split; [by apply (same_domain_trans m m1)|].
        intros j. rewrite H2, H1. zcases; done.
      - rewrite Z.min_l in * by lia. apply (stores_app m m1 m2); try lia; done. }
    cbn [mbind option_bind]. rewrite LoadBits_spec; try done; try lia.
    + cbn [mbind option_bind]. fold A. rewrite (loaded_stores m m2 A v len), Z.eqb_refl by (done || lia). by exists m2.
    + by right; right; right.
    + apply (paged_domain m); [apply Hs|done].
    + fold A. apply (readable_domain m); [apply Hs|done].
Qed.

Lemma LoadBit_spec m r off :
  region_ok r -> 0 <= off < region_bit_size_ r -> readable m (base r + off) 1 -> LoadBit m r off = Some (mbit m (base r + off)).
Proof.
  intros [Ha Hst Hz Hb] Hoff Hr. unfold LoadBit. rewrite (proj2 (Z.ltb_lt _ _)) by lia. cbn [dcheck mbind option_bind].
  unfold kBitsPerByte. rewrite wrap_id by (unfold is_u; lia). set (p := region_bit_start_ r + off) in *.
  destruct (Hr (base r + off)) as [b Hb']; [lia|].
  replace ((base r + off) / 8) with (region_data_ r + p / 8) in Hb' by (unfold p, base; lia). rewrite Hb'. cbn [mbind option_bind].
  replace (base r + off) with (8 * (region_data_ r + p / 8) + p mod 8) by (unfold p, base; lia).
  rewrite (mbit_at _ _ _ _ Hb') by lia. f_equal. change 1 with (Z.ones 1). rewrite Z.land_ones by lia.
  rewrite <- Z.bit0_mod, Z.shiftr_spec by lia. rewrite Z.add_0_l. by destruct (Z.testbit b (p mod 8)).
Qed.

Lemma StoreBit_spec m r off v :
  region_ok r -> 0 <= off < region_bit_size_ r -> readable m (base r + off) 1 ->
  exists m', StoreBit m r off v = Some m' /\ stores m m' (base r + off) (Z.b2z v) 1.
Proof.
  intros Hok Hoff Hr. pose proof Hok as [Ha Hst Hz Hb]. unfold StoreBit. rewrite (proj2 (Z.ltb_lt _ _)) by lia. cbn [dcheck mbind option_bind].
  unfold kBitsPerByte. rewrite wrap_id by (unfold is_u; lia). set (p := region_bit_start_ r + off) in *.
  set (A := base r + off) in *. assert (HA : A = 8 * (region_data_ r + p / 8) + p mod 8) by (unfold A, p, base; lia).
  destruct (clear_and_set_spec m (region_data_ r + p / 8) (Z.shiftl 1 (p mod 8)) (Z.shiftl (Z.b2z v) (p mod 8)) (Z.b2z v) (p mod 8) 1)
    as (m1 & -> & Hs1); try lia.
  - replace (region_data_ r + p / 8) with (A / 8) by lia. apply Hr. lia.
  - intros k Hk. change 1 with (Z.ones 1) at 1. autorewrite with testbit. zcases; done.
  - intros k Hk. rewrite testbit_shiftl. assert (Hv : is_u 1 (Z.b2z v)) by (destruct v; done).
    zcases; simpl; try done; rewrite ?(testbit_high 1 (Z.b2z v)) by (done || lia); try done. by rewrite Z.testbit_neg_r by lia.
  - cbn [mbind option_bind]. rewrite <- HA in Hs1. rewrite LoadBit_spec; [|done|lia|].
    + cbn [mbind option_bind]. fold A. destruct Hs1 as [Hd H1]. rewrite H1. rewrite Z.sub_diag.
      zcases. simpl. exists m1. by destruct v.
    + apply (readable_domain m); [apply Hs1|done].
Qed.

(** ** Traversals *)

Lemma low_bits_spec m a s n :
  0 <= s -> 0 <= n < 64 -> s + n <= 64 ->
  low_bits (Z.shiftr (loaded m a 64) s) n = loaded m (a + s) (Z.to_nat n).
Proof.
  intros. unfold low_bits. change kSizeMax with (Z.ones 64). apply Z.bits_inj'. intros i Hi. autorewrite with testbit.
  rewrite Z2Nat.id by lia. change (Z.of_nat 64) with 64. replace (a + (i + s)) with (a + s + i) by lia.
  zcases; simpl; rewrite ?andb_false_r, ?andb_true_r; done.
Qed.

Lemma shiftr_loaded m a s :
  0 <= s <= 64 -> Z.shiftr (loaded m a 64) s = loaded m (a + s) (Z.to_nat (64 - s)).
Proof.
  intros. apply Z.bits_inj'. intros i Hi. autorewrite with testbit.
  rewrite Z2Nat.id by lia. change (Z.of_nat 64) with 64. replace (a + (i + s)) with (a + s + i) by lia.
  zcases; simpl; done.
Qed.

Section Visit.

Context {S : Type} (mem : S -> memory) (visitor : Z -> Z -> Z -> S -> option (S * bool)) (r : BitMemoryRegion).

(** [I offset s]: the state before the chunk at [offset]; [Q s]: after a visitor
    that stopped. Every chunk has its bits as value, at most 64 of them, and
    is aligned when it has 64. *)
Context (I : Z -> S -> Prop) (Q : S -> Prop).
Context (Hok : region_ok r).
Context (Hmem : forall offset s, I offset s -> paged (mem s) /\ readable (mem s) (base r) (region_bit_size_ r)).
Context (Hvisit : forall offset n s,
  0 <= offset -> 0 < n <= 64 -> offset + n <= region_bit_size_ r -> (n = 64 -> (base r + offset) mod 64 = 0) -> I offset s ->
  exists s' b, visitor offset n (loaded (mem s) (base r + offset) (Z.to_nat n)) s = Some (s', b) /\
    if (b : bool) then I (offset + n) s' else Q s').

Lemma chunk_load s offset i :
  I offset s -> 0 <= i < region_bit_size_ r ->
  mload 8 (mem s) (region_data_ r + 8 * ((region_bit_start_ r + i) / 64)) =
    Some (loaded (mem s) (8 * region_data_ r + (region_bit_start_ r + i) / 64 * 64) 64).
Proof.
  intros HI Hi. destruct (Hmem offset s HI) as [Hp Hr]. pose proof Hok as [_ ? _ _].
  apply (word_load 64); try done; [by right; right; right|lia|].
  apply (readable_sub _ _ _ _ _ Hr); unfold base; lia.
Qed.

Lemma visit_chunks_loop_inv fuel offset s :
  0 <= offset <= region_bit_size_ r -> (base r + offset) mod 64 = 0 \/ offset = region_bit_size_ r ->
  region_bit_size_ r - offset <= 64 * Z.of_nat fuel + 63 -> I offset s ->
  exists s' b, visit_chunks_loop mem visitor fuel (region_data_ r + 8 * ((region_bit_start_ r + offset) / 64)) offset
      (region_bit_size_ r - offset) s = Some (s', b) /\ if (b : bool) then I (region_bit_size_ r) s' else Q s'.
Proof.
  pose proof Hok as [Ha Hst _ _]. unfold kPageSize in Ha. revert offset s. induction fuel as [|fuel IH]; intros offset s Hoff Hal Hf HI;
    cbn [visit_chunks_loop]; unfold kChunkSize; (destruct (Z.leb_spec 64 (region_bit_size_ r - offset)) as [Hbig|Hsmall]; [try lia|]).
  2: { (* a whole chunk *)
    rewrite (chunk_load s offset) by (done || lia). cbn [mbind option_bind].
    replace (8 * region_data_ r + (region_bit_start_ r + offset) / 64 * 64) with (base r + offset) by (unfold base in *; lia).
    destruct (Hvisit offset 64 s) as (s1 & b & E & HQ); [lia|lia|lia|lia|done|]. change (Z.to_nat 64) with 64%nat in E. rewrite E.
    cbn [mbind option_bind]. destruct b; cbn [negb]; [|by exists s1, false].
    replace (region_data_ r + 8 * ((region_bit_start_ r + offset) / 64) + 8)
      with (region_data_ r + 8 * ((region_bit_start_ r + (offset + 64)) / 64)) by lia.
    replace (region_bit_size_ r - offset - 64) with (region_bit_size_ r - (offset + 64)) by lia.
    apply IH; [lia|lia|lia|done]. }
  all: destruct (Z.eqb_spec (region_bit_size_ r - offset) 0) as [E0|E0]; cbn [negb];
    [exists s, true; split; [done|]; by replace (region_bit_size_ r) with offset by lia|].
  all: rewrite (chunk_load s offset) by (done || lia); cbn [mbind option_bind];
    replace (8 * region_data_ r + (region_bit_start_ r + offset) / 64 * 64) with (base r + offset) by (unfold base in *; lia);
    pose proof (low_bits_spec (mem s) (base r + offset) 0 (region_bit_size_ r - offset) ltac:(lia) ltac:(lia) ltac:(lia)) as Hlow;
    rewrite Z.shiftr_0_r, Z.add_0_r in Hlow; rewrite Hlow;
    destruct (Hvisit offset (region_bit_size_ r - offset) s) as (s1 & b & -> & HQ); [lia|lia|lia|lia|done|];
    replace (offset + (region_bit_size_ r - offset)) with (region_bit_size_ r) in HQ by lia;
    exists s1, b; by destruct b.
Qed.

Lemma VisitChunks_inv s :
  I 0 s -> exists s' b, VisitChunks mem visitor r s = Some (s', b) /\ if (b : bool) then I (region_bit_size_ r) s' else Q s'.
Proof.
  intros HI. pose proof Hok as [Ha Hst Hsz _]. unfold VisitChunks.
  destruct (Z.eqb_spec (region_bit_size_ r) 0) as [E0|E0]; [exists s, true; by rewrite E0|].
  rewrite (word_aligned 64 r : _ -> _ -> IsAligned 8 _ = true) by (done || by right; right; right). cbn [dcheck mbind option_bind]. unfold kChunkSize.
  unfold kPageSize in Ha.
  destruct (Z.eqb_spec (region_bit_start_ r mod 64) 0) as [Em|Em]; cbn [negb].
  - pose proof (visit_chunks_loop_inv (Z.to_nat (region_bit_size_ r / 64)) 0 s) as H.
    rewrite !Z.add_0_r, Z.sub_0_r in H. apply H; [lia|unfold base; lia|lia|done].
  - pose proof (chunk_load s 0 0 HI ltac:(lia)) as Hl. rewrite Z.add_0_r in Hl. rewrite Hl. cbn [mbind option_bind].
    set (lead := Z.min (region_bit_size_ r) (64 - region_bit_start_ r mod 64)).
    assert (Hv : (if region_bit_size_ r <? 64 - region_bit_start_ r mod 64
        then (region_bit_size_ r, low_bits (Z.shiftr (loaded (mem s) (8 * region_data_ r + region_bit_start_ r / 64 * 64) 64) (region_bit_start_ r mod 64)) (region_bit_size_ r))
        else (64 - region_bit_start_ r mod 64, Z.shiftr (loaded (mem s) (8 * region_data_ r + region_bit_start_ r / 64 * 64) 64) (region_bit_start_ r mod 64)))
      = (lead, loaded (mem s) (base r + 0) (Z.to_nat lead))).
    { replace (base r + 0) with (8 * region_data_ r + region_bit_start_ r / 64 * 64 + region_bit_start_ r mod 64) by (unfold base; lia).
      unfold lead. destruct (Z.ltb_spec (region_bit_size_ r) (64 - region_bit_start_ r mod 64)).
      - rewrite low_bits_spec by lia. by rewrite Z.min_l by lia.
      - rewrite shiftr_loaded by lia. by rewrite Z.min_r by lia. }
    rewrite Hv. destruct (Hvisit 0 lead s) as (s1 & b & -> & HQ); [lia|lia|lia|unfold base; lia|done|].
    cbn [mbind option_bind]. destruct b; cbn [negb]; [|by exists s1, false].
    destruct (Z.ltb_spec (region_bit_size_ r) (64 - region_bit_start_ r mod 64)).
    + assert (lead = region_bit_size_ r) as -> by lia.
      exists s1, true. split; [|done]. rewrite Z.sub_diag. destruct (Z.to_nat (region_bit_size_ r / 64)); reflexivity.
    + replace (region_data_ r + 8 * (region_bit_start_ r / 64) + 8) with (region_data_ r + 8 * ((region_bit_start_ r + lead) / 64)) by lia.
      apply visit_chunks_loop_inv; [lia|unfold base; lia|lia|done].
Qed.

End Visit.

Lemma StoreChunk_spec m r off v n :
  region_ok r -> paged m -> 0 <= off -> 0 < n <= 64 -> off + n <= region_bit_size_ r ->
  (n = 64 -> (base r + off) mod 64 = 0) -> is_u n v -> readable m (base r + off) n ->
  exists m', StoreChunk m r off v n = Some m' /\ stores m m' (base r + off) v n.
Proof.
  intros Hok Hp Hoff Hn Hsz Hal Hv Hr. unfold StoreChunk. destruct (Z.eqb_spec n 64) as [->|]; [|apply StoreBits_spec; (done || lia)].
  pose proof Hok as [Ha Hst Hz Hb]. unfold kPageSize, base in *. rewrite wrap_id by (unfold is_u; lia).
  assert (IsAligned 64 (region_bit_start_ r + off) = true) as ->.
  { apply Z.eqb_eq. change (64 - 1) with (Z.ones 6). rewrite Z.land_ones by lia. change (2 ^ 6) with 64. lia. }
  cbn [dcheck mbind option_bind]. unfold kBitsPerByte.
  assert (IsAligned 8 (region_data_ r + (region_bit_start_ r + off) / 8) = true) as ->.
  { apply Z.eqb_eq. change (8 - 1) with (Z.ones 3). rewrite Z.land_ones by lia. change (2 ^ 3) with 8. lia. }
  cbn [dcheck mbind option_bind].
  assert (HA : 8 * (region_data_ r + (region_bit_start_ r + off) / 8) = 8 * region_data_ r + region_bit_start_ r + off) by lia.
  destruct (mstore_spec 8 m (region_data_ r + (region_bit_start_ r + off) / 8) v) as (m' & -> & Hs).
  - rewrite HA. apply Hr.
  - exists m'. split; [done|]. by rewrite HA in Hs.
Qed.

(** Bits [D .. D + n - 1] of [m'] are the combination by [f] of those of [m] and
    of the bits from [S] on; all others are unchanged. *)
Definition combined (f : bool -> bool -> bool) (m m' : memory) (D S n : Z) : Prop :=
  same_domain m m' /\
  forall i, mbit m' i = if (D <=? i) && (i <? D + n) then f (mbit m i) (mbit m (i - D + S)) else mbit m i.

Lemma combine_step f op m m1 D S off n size :
  (forall a b i, 0 <= i -> Z.testbit (op a b) i = f (Z.testbit a i) (Z.testbit b i)) ->
  0 <= off -> 0 < n -> off + n <= size -> D <= S \/ S + size <= D -> combined f m m1 D S off ->
  forall m2, stores m1 m2 (D + off) (op (loaded m1 (D + off) (Z.to_nat n)) (loaded m1 (S + off) (Z.to_nat n))) n ->
  combined f m m2 D S (off + n).
Proof.
  intros Hop Hoff Hn Hsz Hov [Hd1 H1] m2 [Hd2 H2]. split; [by apply (same_domain_trans m m1)|]. intros i. rewrite H2.
  destruct (Z.leb_spec (D + off) i) as [Hlo|Hlo]; simpl; [|rewrite H1; zcases; done].
  destruct (Z.ltb_spec i (D + off + n)) as [Hhi|Hhi]; simpl; [|rewrite H1; zcases; done].
  rewrite Hop, !testbit_loaded, Z2Nat.id by lia.
  replace (D + off + (i - (D + off))) with i by lia. replace (S + off + (i - (D + off))) with (i - D + S) by lia.
  rewrite !H1. zcases; done.
Qed.

Lemma bitwise_is_u f op n a b :
  (forall a b i, 0 <= i -> Z.testbit (op a b) i = f (Z.testbit a i) (Z.testbit b i)) -> f false false = false ->
  (0 <= a -> 0 <= b -> 0 <= op a b) -> 0 <= n -> is_u n a -> is_u n b -> is_u n (op a b).
Proof.
  intros Hop Hf Hpos Hn Ha Hb. apply is_u_bits; [done|apply Hpos; [apply Ha|apply Hb]|].
  intros i Hi. rewrite Hop, (testbit_high n a), (testbit_high n b) by (done || lia). done.
Qed.

Lemma combine_bits_spec f op m r src :
  (forall a b i, 0 <= i -> Z.testbit (op a b) i = f (Z.testbit a i) (Z.testbit b i)) -> f false false = false ->
  (forall a b, 0 <= a -> 0 <= b -> 0 <= op a b) ->
  region_ok r -> region_ok src -> size_in_bits r = size_in_bits src -> paged m ->
  readable m (base r) (size_in_bits r) -> readable m (base src) (size_in_bits src) ->
  base r <= base src \/ base src + size_in_bits src <= base r ->
  exists m', combine_bits op m r src = Some m' /\ combined f m m' (base r) (base src) (size_in_bits r).
Proof.
  intros Hop Hf Hpos Hok Hoks Hsz Hp Hr Hrs Hov. unfold combine_bits, size_in_bits in *. rewrite Hsz, Z.eqb_refl. cbn [dcheck mbind option_bind].
  match goal with |- context [VisitChunks ?mem ?v r m] =>
    destruct (VisitChunks_inv mem v r (fun off m' => combined f m m' (base r) (base src) off) (fun _ => False) Hok) with (s := m)
      as (m' & b & -> & Hres) end.
  - intros off m' [Hd _]. split; [by apply (paged_domain m)|by apply (readable_domain m)].
  - intros off n m1 Hoff Hn Hon Hal Hc. pose proof Hc as [Hd1 _].
    rewrite LoadBits_spec; try done; try lia; [|by right; right; right|by apply (paged_domain m)
      |apply (readable_domain m); [done|]; apply (readable_sub m _ _ _ _ Hrs); lia]. cbn [mbind option_bind].
    match goal with |- context [StoreChunk m1 r off ?v n] => destruct (StoreChunk_spec m1 r off v n) as (m2 & -> & Hs) end; try done; try lia.
    + by apply (paged_domain m).
    + apply (bitwise_is_u f); try done; try lia; try apply Hpos; rewrite <- (Z2Nat.id n) at 1 by lia; apply loaded_is_u.
    + apply (readable_domain m); [done|]. apply (readable_sub m _ _ _ _ Hr); lia.
    + exists m2, true. split; [done|]. apply (combine_step f op m m1 _ _ off n (region_bit_size_ r)); try done; lia.
  - split; [done|]. intros i. zcases; done.
  - destruct b; [|done]. exists m'. rewrite <- Hsz. by split.
Qed.

(** The number of set bits among the [n] from [a] on. *)
Fixpoint count_bits (m : memory) (a : Z) (n : nat) : Z :=
  match n with O => 0 | S n' => Z.b2z (mbit m a) + count_bits m (a + 1) n' end.

Lemma count_bits_app m a n k : count_bits m a (n + k) = count_bits m a n + count_bits m (a + Z.of_nat n) k.
Proof.
  revert a. induction n as [|n IH]; intros a; cbn [count_bits Nat.add]; [by rewrite Z.add_0_r|].
  rewrite IH. replace (a + 1 + Z.of_nat n) with (a + Z.of_nat (S n)) by lia. lia.
Qed.

Lemma count_bits_range m a n : 0 <= count_bits m a n <= Z.of_nat n.
Proof.
  revert a. induction n as [|n IH]; intros a; cbn [count_bits]; [lia|]. specialize (IH (a + 1)). destruct (mbit m a); simpl Z.b2z; lia.
Qed.

Lemma builtin_popcount_loaded m a n : builtin_popcount (loaded m a n) = count_bits m a n.
Proof.
  revert a. induction n as [|n IH]; intros a; [done|]. cbn [loaded count_bits]. rewrite <- IH.
  pose proof (loaded_is_u m (a + 1) n) as [H0 _]; revert H0. destruct (mbit m a), (loaded m (a + 1) n); simpl; rewrite ?Pos.mul_1_l; lia.
Qed.

Lemma PopCount_spec m r :
  region_ok r -> paged m -> readable m (base r) (size_in_bits r) ->
  PopCount m r = Some (count_bits m (base r) (Z.to_nat (size_in_bits r))).
Proof.
  intros Hok Hp Hr. unfold PopCount, size_in_bits in *. pose proof Hok as [_ ? _ ?].
  match goal with |- context [VisitChunks ?mem ?v r 0] =>
    destruct (VisitChunks_inv mem v r (fun off c => 0 <= off /\ c = count_bits m (base r) (Z.to_nat off)) (fun _ => False) Hok) with (s := 0)
      as (c & b & -> & Hres) end; [done| |done|].
  - intros off n c Hoff Hn Hon _ [_ ->]. do 2 eexists. split; [done|]. split; [lia|]. cbv beta. unfold POPCOUNT. simpl Z.eqb.
    pose proof (loaded_is_u m (base r + off) (Z.to_nat n)) as Hu. rewrite Z2Nat.id in Hu by lia.
    rewrite (wrap_id 64 (loaded _ _ _)) by (apply (is_u_weaken n); [lia|done]).
    rewrite builtin_popcount_loaded, Z2Nat.inj_add, count_bits_app, Z2Nat.id by lia.
    pose proof (count_bits_range m (base r) (Z.to_nat off)). pose proof (count_bits_range m (base r + off) (Z.to_nat n)).
    apply wrap_id. unfold is_u. lia.
  - destruct b; [|done]. destruct Hres as [_ ->]. done.
Qed.

(** The bits of two places agree. *)
Definition same_bits (m : memory) (a b n : Z) : Prop := forall k, 0 <= k < n -> mbit m (a + k) = mbit m (b + k).

Lemma same_bits_app m a b n k : 0 <= n -> same_bits m a b n -> same_bits m (a + n) (b + n) k -> same_bits m a b (n + k).
Proof.
  intros Hn H1 H2 i Hi. destruct (Z.ltb_spec i n); [by apply H1; lia|].
  replace (a + i) with (a + n + (i - n)) by lia. replace (b + i) with (b + n + (i - n)) by lia. apply H2. lia.
Qed.

Lemma loaded_eqb m a b n : loaded m a (Z.to_nat n) = loaded m b (Z.to_nat n) <-> same_bits m a b n.
Proof.
  split.
  - intros E k Hk. pose proof (f_equal (fun v => Z.testbit v k) E) as Ek. cbv beta in Ek. rewrite !testbit_loaded in Ek.
    rewrite (proj2 (Z.leb_le 0 k)), (proj2 (Z.ltb_lt k _)) in Ek by lia. done.
  - intros H. apply Z.bits_inj'. intros k Hk. rewrite !testbit_loaded.
    destruct (Z.ltb_spec k (Z.of_nat (Z.to_nat n))); [|by rewrite !andb_false_r]. by rewrite H by lia.
Qed.

Lemma HasAllBitsClear_spec m r :
  region_ok r -> paged m -> readable m (base r) (size_in_bits r) ->
  exists b, HasAllBitsClear m r = Some b /\ (b = true <-> forall k, 0 <= k < size_in_bits r -> mbit m (base r + k) = false).
Proof.
  intros Hok Hp Hr. unfold HasAllBitsClear, size_in_bits in *.
  match goal with |- context [VisitChunks ?mem ?v r tt] =>
    destruct (VisitChunks_inv mem v r (fun off _ => forall k, 0 <= k < off -> mbit m (base r + k) = false)
                (fun _ => exists k, 0 <= k < region_bit_size_ r /\ mbit m (base r + k) = true) Hok) with (s := tt)
      as (c & b & -> & Hres) end; [done| |lia|].
  - intros off n [] Hoff Hn Hon _ HI. do 2 eexists. split; [done|].
    destruct (Z.eqb_spec (loaded m (base r + off) (Z.to_nat n)) 0) as [E|E].
    + intros k Hk. destruct (Z.ltb_spec k off); [by apply HI; lia|].
      pose proof (f_equal (fun v => Z.testbit v (k - off)) E) as Ek. cbv beta in Ek. rewrite testbit_loaded, Z.testbit_0_l, Z2Nat.id in Ek by lia.
      rewrite (proj2 (Z.leb_le 0 _)), (proj2 (Z.ltb_lt _ _)) in Ek by lia. rewrite <- Ek. simpl. f_equal. lia.
    + pose proof (loaded_is_u m (base r + off) (Z.to_nat n)) as Hu. rewrite Z2Nat.id in Hu by lia.
      destruct (CTZ_spec (loaded m (base r + off) (Z.to_nat n))) as (Hc & Ht & _); [unfold is_u in Hu; lia|].
      rewrite testbit_loaded, Z2Nat.id in Ht by lia. apply andb_true_iff in Ht as [Hr2 Ht]. apply andb_true_iff in Hr2 as [_ Hlt].
      apply Z.ltb_lt in Hlt. eexists. split; [|rewrite <- Z.add_assoc in Ht; exact Ht]. lia.
  - cbn [mbind option_bind]. exists b. split; [done|]. destruct b; [done|]. split; [done|].
    intros H. destruct Hres as (k & Hk & Ht). rewrite H in Ht by done. done.
Qed.

(** At the first place where two regions differ, the left one has bit [v]. *)
Definition first_difference (m : memory) (a b n : Z) (v : bool) : Prop :=
  exists k, 0 <= k < n /\ same_bits m a b k /\ mbit m (a + k) = v /\ mbit m (b + k) = negb v.

Lemma chunk_difference m a b n :
  0 < n -> loaded m a (Z.to_nat n) <> loaded m b (Z.to_nat n) ->
  let x := loaded m b (Z.to_nat n) in
  first_difference m a b n (Z.land (Z.shiftr x (CTZ (Z.lxor (loaded m a (Z.to_nat n)) x))) 1 =? 0).
Proof.
  intros Hn Hne x. set (y := loaded m a (Z.to_nat n)) in *. set (c := CTZ (Z.lxor y x)).
  assert (Hnz : Z.lxor y x <> 0) by (intros E; by apply Hne, Z.lxor_eq).
  assert (0 <= Z.lxor y x) by (apply Z.lxor_nonneg; split; intros _; apply loaded_is_u).
  destruct (CTZ_spec (Z.lxor y x)) as (Hc & Ht & Hlow); [lia|]. fold c in Hc, Ht, Hlow.
  assert (Hbit : forall i, 0 <= i < n -> Z.testbit y i = mbit m (a + i) /\ Z.testbit x i = mbit m (b + i)).
  { intros i Hi. unfold x, y. rewrite !testbit_loaded, Z2Nat.id by lia.
    rewrite (proj2 (Z.leb_le 0 i)), (proj2 (Z.ltb_lt i n)) by lia. done. }
  assert (Hcn : c < n).
  { destruct (Z.ltb_spec c n); [done|]. rewrite Z.lxor_spec in Ht. unfold x, y in Ht. rewrite !testbit_loaded, Z2Nat.id in Ht by lia.
    rewrite (proj2 (Z.ltb_ge c n)), !andb_false_r in Ht by lia. done. }
  exists c. split; [lia|]. rewrite Z.lxor_spec in Ht. destruct (Hbit c) as [E1 E2]; [lia|]. rewrite E1, E2 in Ht.
  assert ((Z.land (Z.shiftr x c) 1 =? 0) = negb (mbit m (b + c))) as ->.
  { change 1 with (Z.ones 1). rewrite Z.land_ones by lia. rewrite <- Z.bit0_mod, Z.shiftr_spec, Z.add_0_l, E2 by lia.
    by destruct (mbit m (b + c)). }
  split; [|by destruct (mbit m (a + c)), (mbit m (b + c))].
  intros k Hk. destruct (Hbit k) as [<- <-]; [lia|]. specialize (Hlow k ltac:(lia)). rewrite Z.lxor_spec in Hlow.
  by apply xorb_eq.
Qed.

Lemma first_difference_shift m a b n k size v :
  0 <= n -> n + k <= size -> same_bits m a b n -> first_difference m (a + n) (b + n) k v -> first_difference m a b size v.
Proof.
  intros Hn Hs H1 (j & Hj & H2 & Ha & Hb). exists (n + j). split; [lia|]. rewrite !Z.add_assoc. split; [|done].
  by apply same_bits_app.
Qed.

Lemma first_difference_not_same m a b n v : first_difference m a b n v -> ~ same_bits m a b n.
Proof. intros (k & Hk & _ & Ha & Hb) H. specialize (H k Hk). rewrite Ha, Hb in H. by destruct v. Qed.

Lemma Compare_spec m lhs rhs :
  region_ok lhs -> region_ok rhs -> paged m -> readable m (base lhs) (size_in_bits lhs) -> readable m (base rhs) (size_in_bits rhs) ->
  size_in_bits lhs = size_in_bits rhs ->
  exists c, Compare m lhs rhs = Some c /\
    ((c = 0 /\ same_bits m (base lhs) (base rhs) (size_in_bits lhs)) \/
     (c = 1 /\ first_difference m (base lhs) (base rhs) (size_in_bits lhs) false) \/
     (c = -1 /\ first_difference m (base lhs) (base rhs) (size_in_bits lhs) true)).
Proof.
  intros Hokl Hokr Hp Hrl Hrr Hsz. unfold Compare. rewrite Hsz, Z.eqb_refl. cbn [negb]. unfold size_in_bits in *.
  match goal with |- context [VisitChunks ?mem ?v lhs 0] =>
    destruct (VisitChunks_inv mem v lhs (fun off c => c = 0 /\ 0 <= off /\ same_bits m (base lhs) (base rhs) off)
       (fun c => (c = 1 /\ first_difference m (base lhs) (base rhs) (region_bit_size_ rhs) false) \/
                 (c = -1 /\ first_difference m (base lhs) (base rhs) (region_bit_size_ rhs) true)) Hokl) with (s := 0)
      as (c & b & -> & Hres) end; [done| |split; [done|]; split; [lia|]; intros k Hk; lia|].
  - intros off n c Hoff Hn Hon _ (-> & _ & Hsame).
    rewrite LoadBits_spec; try done; try lia; [|by right; right; right|apply (readable_sub m _ _ _ _ Hrr); lia]. cbn [mbind option_bind].
    destruct (Z.eqb_spec (loaded m (base lhs + off) (Z.to_nat n)) (loaded m (base rhs + off) (Z.to_nat n))) as [E|E].
    + exists 0, true. split; [done|]. split; [done|]. split; [lia|]. apply same_bits_app; [lia|done|]. by apply loaded_eqb.
    + do 2 eexists. split; [done|]. pose proof (chunk_difference m (base lhs + off) (base rhs + off) n ltac:(lia) E) as Hd.
      apply (first_difference_shift m (base lhs) (base rhs) off n (region_bit_size_ rhs)) in Hd; try done; try lia.
      cbv zeta beta in Hd. destruct (_ =? 0); cbn [negb]; auto.
  - cbn [mbind option_bind]. exists c. destruct b.
    + destruct Hres as (-> & _ & Hsame). split; [done|]. left. rewrite <- Hsz. done.
    + destruct Hres as [[-> Hd]|[-> Hd]]; (split; [done|]); auto.
Qed.

Lemma Region_Equals_spec m lhs rhs :
  region_ok lhs -> region_ok rhs -> paged m -> readable m (base lhs) (size_in_bits lhs) -> readable m (base rhs) (size_in_bits rhs) ->
  exists b, Region_Equals m lhs rhs = Some b /\
    (b = true <-> size_in_bits lhs = size_in_bits rhs /\ same_bits m (base lhs) (base rhs) (size_in_bits lhs)).
Proof.
  intros Hokl Hokr Hp Hrl Hrr. unfold Region_Equals. destruct (Z.eqb_spec (size_in_bits lhs) (size_in_bits rhs)) as [Hsz|Hne]; cbn [negb];
    [|exists false; split; [done|]; naive_solver]. unfold size_in_bits in *.
  match goal with |- context [VisitChunks ?mem ?v lhs tt] =>
    destruct (VisitChunks_inv mem v lhs (fun off _ => 0 <= off /\ same_bits m (base lhs) (base rhs) off)
       (fun _ => ~ same_bits m (base lhs) (base rhs) (region_bit_size_ lhs)) Hokl) with (s := tt)
      as (c & b & -> & Hres) end; [done| |split; [lia|]; intros k Hk; lia|].
  - intros off n [] Hoff Hn Hon _ (_ & Hsame).
    rewrite LoadBits_spec; try done; try lia; [|by right; right; right|apply (readable_sub m _ _ _ _ Hrr); lia]. cbn [mbind option_bind].
    do 2 eexists. split; [done|].
    destruct (Z.eqb_spec (loaded m (base lhs + off) (Z.to_nat n)) (loaded m (base rhs + off) (Z.to_nat n))) as [E|E].
    + split; [lia|]. apply same_bits_app; [lia|done|]. by apply loaded_eqb.
    + intros H. apply E, loaded_eqb. intros k Hk. rewrite <- !Z.add_assoc. apply H. lia.
  - cbn [mbind option_bind]. exists b. split; [done|]. destruct b; [naive_solver|]. split; [done|]. by intros [_ ?].
Qed.

(** ** Properties *)

(** C34: Storing a value in a bit range and loading it with any word size that
    holds it gives the value back, whatever the alignment; the checks of both
    operations pass, no byte outside accessible pages is touched, and every
    other bit of the memory is unchanged. *)
Theorem StoreBits_LoadBits m r off v len w
  (Hok : region_ok r) (Hp : paged m) (Hoff : 0 <= off) (Hlen : 0 <= len <= 64) (Hsz : off + len <= size_in_bits r)
  (Hv : is_u len v) (Hr : readable m (base r + off) len) (Hw : word_size w) (Hlw : len <= w) :
  exists m', StoreBits m r off v len = Some m' /\ LoadBits w m' r off len = Some v /\
    forall i, ~ (base r + off <= i < base r + off + len) -> mbit m' i = mbit m i.
Proof.
  destruct (StoreBits_spec m r off v len) as (m' & E & Hs); try done. exists m'. split; [done|]. pose proof Hs as [Hd Hb]. split.
  - rewrite LoadBits_spec; try done; [|by apply (paged_domain m)|lia|by apply (readable_domain m)].
    by rewrite (loaded_stores m m' _ v len) by (done || lia).
  - intros i Hi. rewrite Hb. zcases; done.
Qed.

(** C35: Copying, and-ing, or-ing and xor-ing a region into another one changes
    exactly the bits of the target region, each to the combination with the
    source bit at the same offset. The regions may overlap when the target starts
    first. *)
Theorem region_combination m r src
  (Hok : region_ok r) (Hoks : region_ok src) (Hsz : size_in_bits r = size_in_bits src) (Hp : paged m)
  (Hr : readable m (base r) (size_in_bits r)) (Hrs : readable m (base src) (size_in_bits src))
  (Hov : base r <= base src \/ base src + size_in_bits src <= base r) :
  let result (run : option memory) (f : bool -> bool -> bool) :=
    exists m', run = Some m' /\
      forall i, mbit m' i =
        if (base r <=? i) && (i <? base r + size_in_bits r) then f (mbit m i) (mbit m (i - base r + base src)) else mbit m i in
  result (CopyBits m r src) (fun _ b => b) /\ result (AndBits m r src) andb /\
  result (OrBits m r src) orb /\ result (XorBits m r src) xorb.
Proof.
  assert (H : forall f op,
    (forall a b i, 0 <= i -> Z.testbit (op a b) i = f (Z.testbit a i) (Z.testbit b i)) -> f false false = false ->
    (forall a b, 0 <= a -> 0 <= b -> 0 <= op a b) ->
    exists m', combine_bits op m r src = Some m' /\ forall i, mbit m' i =
        if (base r <=? i) && (i <? base r + size_in_bits r) then f (mbit m i) (mbit m (i - base r + base src)) else mbit m i).
  { intros f op H1 H2 H3. destruct (combine_bits_spec f op m r src) as (m' & E & _ & Hb); eauto. }
  cbv zeta. split; [|split; [|split]].
  - by apply (H (fun _ b => b) (fun _ v => v)).
  - apply H; [intros; apply Z.land_spec|done|intros; apply Z.land_nonneg; lia].
  - apply H; [intros; apply Z.lor_spec|done|intros; apply Z.lor_nonneg; lia].
  - apply H; [intros; apply Z.lxor_spec|done|intros; apply Z.lxor_nonneg; lia].
Qed.

(** The traversals in 64-bit chunks agree with the bit by bit definitions:
    the population count is the number of set bits, a region has some bit set
    when one of its bits is, two regions are equal when their bits are, and their
    comparison is decided by the first bit that differs, whatever their
    alignment. *)
Theorem region_queries m lhs rhs
  (Hokl : region_ok lhs) (Hokr : region_ok rhs) (Hsz : size_in_bits lhs = size_in_bits rhs) (Hp : paged m)
  (Hl : readable m (base lhs) (size_in_bits lhs)) (Hr : readable m (base rhs) (size_in_bits rhs)) :
  PopCount m lhs = Some (count_bits m (base lhs) (Z.to_nat (size_in_bits lhs))) /\
  (exists some, HasSomeBitSet m lhs = Some some /\
     (some = true <-> exists k, 0 <= k < size_in_bits lhs /\ mbit m (base lhs + k) = true)) /\
  (exists eq c, Region_Equals m lhs rhs = Some eq /\ Compare m lhs rhs = Some c /\
     (eq = true <-> same_bits m (base lhs) (base rhs) (size_in_bits lhs)) /\ (eq = true <-> c = 0) /\
     (c = 1 <-> first_difference m (base lhs) (base rhs) (size_in_bits lhs) false) /\
     (c = -1 <-> first_difference m (base lhs) (base rhs) (size_in_bits lhs) true)).
Proof.
  split; [by apply PopCount_spec|]. split.
  - unfold HasSomeBitSet. destruct (HasAllBitsClear_spec m lhs) as (b & -> & Hb); try done. cbn [mbind option_bind].
    exists (negb b). split; [done|]. destruct b; cbn [negb].
    + split; [done|]. intros (k & Hk & Ht). by rewrite (proj1 Hb eq_refl k Hk) in Ht.
    + split; [intros _|done].
      destruct (decide (Exists (fun k => mbit m (base lhs + k) = true) (map Z.of_nat (seq 0 (Z.to_nat (size_in_bits lhs)))))) as [He|He].
      * apply Exists_exists in He as (k & Hk & Ht). rewrite in_map_iff in Hk. destruct Hk as (j & <- & Hj%in_seq). eexists. split; [|done]. lia.
      * apply not_Exists_Forall in He; [|apply _]. rewrite Forall_forall in He. exfalso. assert (false = true); [|done]. apply Hb. intros k Hk.
        apply not_true_is_false, He, in_map_iff. exists (Z.to_nat k). split; [lia|]. apply in_seq. lia.
  - destruct (Region_Equals_spec m lhs rhs) as (eq & -> & Heq); try done. destruct (Compare_spec m lhs rhs) as (c & -> & Hc); try done.
    exists eq, c. split; [done|]. split; [done|].
    assert (Hex : first_difference m (base lhs) (base rhs) (size_in_bits lhs) false -> first_difference m (base lhs) (base rhs) (size_in_bits lhs) true -> False).
    { intros (k & Hk & H1 & Ha & Hb) (j & Hj & H2 & Ha' & Hb'). cbn [negb] in Hb, Hb'. destruct (Z.lt_trichotomy k j) as [Hlt|[->|Hgt]].
      - specialize (H2 k ltac:(lia)). congruence.
      - congruence.
      - specialize (H1 j ltac:(lia)). congruence. }
    pose proof (first_difference_not_same m (base lhs) (base rhs) (size_in_bits lhs) false) as N1.
    pose proof (first_difference_not_same m (base lhs) (base rhs) (size_in_bits lhs) true) as N2.
    split; [tauto|]. assert (Hs : same_bits m (base lhs) (base rhs) (size_in_bits lhs) <-> c = 0)
      by (destruct Hc as [[-> ?]|[[-> ?]|[-> ?]]]; intuition lia).
    split; [tauto|]. destruct Hc as [[-> ?]|[[-> ?]|[-> ?]]]; intuition lia.
Qed.

(** Sixteen pages of memory with some bits set, and two regions in them. *)
Definition small_memory : memory := fun a => if (0 <=? a) && (a <? 65536) then Some (u8 (a * 37)) else None.

Lemma small_memory_paged : paged small_memory.
Proof.
  intros a b Hab. unfold small_memory, kPageSize in *. destruct (Z.leb_spec 0 a), (Z.ltb_spec a 65536); simpl; intros [? Hx]; try done.
  rewrite (proj2 (Z.leb_le 0 b)), (proj2 (Z.ltb_lt b 65536)) by lia. eauto.
Qed.

Lemma small_memory_readable a n : 0 <= a -> a + n <= 524288 -> readable small_memory a n.
Proof.
  intros Ha Hn i Hi. unfold small_memory. rewrite (proj2 (Z.leb_le 0 (i / 8))), (proj2 (Z.ltb_lt (i / 8) 65536)) by lia. eauto.
Qed.

Definition region_a : BitMemoryRegion := mkBitMemoryRegion 4096 13 150.
Definition region_b : BitMemoryRegion := mkBitMemoryRegion 8192 64 150.

Lemma regions_ok : region_ok region_a /\ region_ok region_b.
Proof. split; split; unfold kPageSize; simpl; lia. Qed.

Lemma StoreBits_LoadBits_witness :
  exists m', StoreBits small_memory region_a 3 0xabcde 20 = Some m' /\ LoadBits 32 m' region_a 3 20 = Some 0xabcde /\
    forall i, ~ (base region_a + 3 <= i < base region_a + 3 + 20) -> mbit m' i = mbit small_memory i.
Proof.
  apply StoreBits_LoadBits; [apply regions_ok|apply small_memory_paged|lia|lia|simpl; lia|unfold is_u; lia
    |apply small_memory_readable; vm_compute; discriminate|right; right; by left|lia].
Defined.

Lemma region_combination_witness :
  exists m', XorBits small_memory region_a region_b = Some m' /\
    forall i, mbit m' i = if (32781 <=? i) && (i <? 32931) then xorb (mbit small_memory i) (mbit small_memory (i - 32781 + 65600)) else mbit small_memory i.
Proof.
  destruct (region_combination small_memory region_a region_b) as (_ & _ & _ & H);
    [apply regions_ok|apply regions_ok|done|apply small_memory_paged|apply small_memory_readable; vm_compute; discriminate
    |apply small_memory_readable; vm_compute; discriminate|left; vm_compute; discriminate|exact H].
Defined.

Lemma region_queries_witness :
  PopCount small_memory region_a = Some (count_bits small_memory 32781 150) /\
  exists eq c, Region_Equals small_memory region_a region_b = Some eq /\ Compare small_memory region_a region_b = Some c /\ (eq = true <-> c = 0).
Proof.
  destruct (region_queries small_memory region_a region_b) as (H1 & _ & eq & c & H2 & H3 & _ & H4 & _);
    [apply regions_ok|apply regions_ok|done|apply small_memory_paged|apply small_memory_readable; vm_compute; discriminate
    |apply small_memory_readable; vm_compute; discriminate|].
  split; [exact H1|]. exists eq, c. split; [exact H2|]. split; [exact H3|exact H4].
Defined.
