(* ===== verification/BitStream.v ===== *)
(** * Bit readers and writers

    The writer that appends bit fields to a growing byte vector and the reader
    that walks over them (BitMemoryWriter and BitMemoryReader of
    libartbase/base/bit_memory_region.h), with the variable-length integers of
    the table headers. *)

From Stdlib Require Import ZArith Lia Bool List.
From stdpp Require Import base numbers list option.
From S2P Require Import Prelude BitUtils BitMemory.

Open Scope Z_scope.
Open Scope art_scope.

Definition kVarintBits : Z := 4.
Definition kVarintMax : Z := 11.

(** ** The reader *)

Record BitMemoryReader := mkBitMemoryReader { finished_region_ : BitMemoryRegion }.

Definition BitMemoryReader_of (data : BitMemoryRegion) : option BitMemoryReader :=
  r ← Subregion data 0 0; Some (mkBitMemoryReader r).

Definition BitMemoryReader_create (data bit_offset : Z) : BitMemoryReader :=
  mkBitMemoryReader (BitMemoryRegion_create data bit_offset 0).

Definition Reader_data (rd : BitMemoryReader) : option Z := region_data (finished_region_ rd).

Definition GetReadRegion (rd : BitMemoryReader) : BitMemoryRegion := finished_region_ rd.

Definition NumberOfReadBits (rd : BitMemoryReader) : Z := size_in_bits (finished_region_ rd).

Definition ReadRegion (rd : BitMemoryReader) (bit_length : Z) : option (BitMemoryRegion * BitMemoryReader) :=
  let bit_offset := size_in_bits (finished_region_ rd) in
  let finished := Region_Resize (finished_region_ rd) (u64 (bit_offset + bit_length)) in
  r ← Subregion finished bit_offset bit_length;
  Some (r, mkBitMemoryReader finished).

Definition ReadBits (w : Z) (m : memory) (rd : BitMemoryReader) (bit_length : Z) : option (Z * BitMemoryReader) :=
  '(r, rd) ← ReadRegion rd bit_length; v ← LoadBits w m r 0 bit_length; Some (v, rd).

Definition ReadBit (m : memory) (rd : BitMemoryReader) : option (bool * BitMemoryReader) :=
  '(r, rd) ← ReadRegion rd 1; v ← LoadBit m r 0; Some (v, rd).

(** The bits of a large value follow its length. *)
Definition read_large (m : memory) (rd : BitMemoryReader) (x : Z) : option (Z * BitMemoryReader) :=
  if kVarintMax <? x then '(v, rd) ← ReadBits 64 m rd ((x - kVarintMax) * kBitsPerByte); Some (u32 v, rd)
  else Some (x, rd).

Definition ReadVarint (m : memory) (rd : BitMemoryReader) : option (Z * BitMemoryReader) :=
  '(x, rd) ← ReadBits 64 m rd kVarintBits; read_large m rd (u32 x).

Fixpoint read_large_values (m : memory) (rd : BitMemoryReader) (values : list Z) : option (list Z * BitMemoryReader) :=
  match values with
  | [] => Some ([], rd)
  | x :: values => '(x, rd) ← read_large m rd x; '(values, rd) ← read_large_values m rd values; Some (x :: values, rd)
  end.

Definition ReadInterleavedVarints (N : nat) (m : memory) (rd : BitMemoryReader) : option (list Z * BitMemoryReader) :=
  '(data, rd) ← ReadBits 64 m rd (Z.of_nat N * kVarintBits);
  let values := map (fun i => u32 (BitFieldExtract 64 data (Z.of_nat i * kVarintBits) kVarintBits)) (seq 0 N) in
  read_large_values m rd values.

(** ** The byte vector

    A [std::vector<uint8_t>] in memory. Growing it takes a block from the
    allocator, an argument, moves the bytes there and clears the new ones. *)

Record Vector := mkVector { vec_data : Z; vec_size : Z }.

Fixpoint move_bytes (n : nat) (src : memory) (m : memory) (from to : Z) : option memory :=
  match n with
  | O => Some m
  | S n' => b ← src from; m ← mwrite m to b; move_bytes n' src m (from + 1) (to + 1)
  end.

Fixpoint write_bytes (m : memory) (a : Z) (bytes : list Z) : option memory :=
  match bytes with
  | [] => Some m
  | b :: bytes => m ← mwrite m a b; write_bytes m (a + 1) bytes
  end.

Section Writer.

Context (allocate : memory -> Z -> memory * Z).

Definition vec_grow (m : memory) (v : Vector) (n : Z) : option (memory * Vector) :=
  let '(m, a) := allocate m n in
  m ← move_bytes (Z.to_nat (vec_size v)) m m (vec_data v) a;
  Some (m, mkVector a n).

Definition vec_resize (m : memory) (v : Vector) (n : Z) : option (memory * Vector) :=
  if n <=? vec_size v then Some (m, mkVector (vec_data v) n)
  else
    '(m, v') ← vec_grow m v n;
    m ← write_bytes m (vec_data v' + vec_size v) (replicate (Z.to_nat (n - vec_size v)) 0);
    Some (m, v').

Definition vec_append (m : memory) (v : Vector) (bytes : list Z) : option (memory * Vector) :=
  '(m, v') ← vec_grow m v (vec_size v + zlength bytes);
  m ← write_bytes m (vec_data v' + vec_size v) bytes;
  Some (m, v').

(** ** The writer *)

Record BitMemoryWriter := mkBitMemoryWriter { out_ : Vector; writer_bit_start_ : Z; writer_bit_offset_ : Z }.

Definition NumberOfWrittenBits (w : BitMemoryWriter) : Z := writer_bit_offset_ w - writer_bit_start_ w.

Definition BitMemoryWriter_create (out : Vector) (bit_offset : Z) : option BitMemoryWriter :=
  let w := mkBitMemoryWriter out bit_offset bit_offset in
  DCHECK (NumberOfWrittenBits w =? 0); Some w.

Definition Writer_Truncate (m : memory) (w : BitMemoryWriter) (bit_offset : Z) : option (memory * BitMemoryWriter) :=
  DCHECK (writer_bit_start_ w <=? bit_offset);
  DCHECK (bit_offset <=? writer_bit_offset_ w);
  DCHECK (BitsToBytesRoundUp bit_offset <=? vec_size (out_ w));
  '(m, out) ← vec_resize m (out_ w) (BitsToBytesRoundUp bit_offset);
  Some (m, mkBitMemoryWriter out (writer_bit_start_ w) bit_offset).

Definition GetWrittenRegion (w : BitMemoryWriter) : BitMemoryRegion :=
  BitMemoryRegion_create (vec_data (out_ w)) (writer_bit_start_ w) (writer_bit_offset_ w - writer_bit_start_ w).

Definition Writer_data (w : BitMemoryWriter) : Z := vec_data (out_ w).

Definition Allocate (m : memory) (w : BitMemoryWriter) (bit_length : Z) : option (memory * BitMemoryWriter * BitMemoryRegion) :=
  '(m, out) ← vec_resize m (out_ w) (BitsToBytesRoundUp (u64 (writer_bit_offset_ w + bit_length)));
  let region := BitMemoryRegion_create (vec_data out) (writer_bit_offset_ w) bit_length in
  DCHECK (bit_length <=? kSizeMax - writer_bit_offset_ w);
  Some (m, mkBitMemoryWriter out (writer_bit_start_ w) (u64 (writer_bit_offset_ w + bit_length)), region).

Definition WriteRegion (m : memory) (w : BitMemoryWriter) (region : BitMemoryRegion) : option (memory * BitMemoryWriter) :=
  '(m, w, r) ← Allocate m w (size_in_bits region);
  m ← CopyBits m r region;
  Some (m, w).

Definition WriteBits (m : memory) (w : BitMemoryWriter) (value bit_length : Z) : option (memory * BitMemoryWriter) :=
  '(m, w, r) ← Allocate m w bit_length;
  m ← StoreBits m r 0 value bit_length;
  Some (m, w).

Definition WriteBit (m : memory) (w : BitMemoryWriter) (value : bool) : option (memory * BitMemoryWriter) :=
  '(m, w, r) ← Allocate m w 1;
  m ← StoreBit m r 0 value;
  Some (m, w).

(** The number of bytes of a large value. *)
Definition varint_bytes (value : Z) : Z := BitsToBytesRoundUp (MinimumBitsToStore 32 value).

Definition write_small (m : memory) (w : BitMemoryWriter) (value : Z) : option (memory * BitMemoryWriter) :=
  if kVarintMax <? value then WriteBits m w (kVarintMax + varint_bytes value) kVarintBits
  else WriteBits m w value kVarintBits.

Definition write_large (m : memory) (w : BitMemoryWriter) (value : Z) : option (memory * BitMemoryWriter) :=
  if kVarintMax <? value then WriteBits m w value (varint_bytes value * kBitsPerByte)
  else Some (m, w).

(** [for (uint32_t value : values) step(value)]. *)
Fixpoint write_each (step : memory -> BitMemoryWriter -> Z -> option (memory * BitMemoryWriter))
  (m : memory) (w : BitMemoryWriter) (values : list Z) : option (memory * BitMemoryWriter) :=
  match values with
  | [] => Some (m, w)
  | value :: values => '(m, w) ← step m w value; write_each step m w values
  end.

Definition WriteInterleavedVarints (m : memory) (w : BitMemoryWriter) (values : list Z) : option (memory * BitMemoryWriter) :=
  '(m, w) ← write_each write_small m w values;
  write_each write_large m w values.

Definition WriteVarint (m : memory) (w : BitMemoryWriter) (value : Z) : option (memory * BitMemoryWriter) :=
  WriteInterleavedVarints m w [value].

Definition WriteBytesAligned (m : memory) (w : BitMemoryWriter) (bytes : list Z) : option (memory * BitMemoryWriter) :=
  DCHECK (IsAligned kBitsPerByte (writer_bit_start_ w));
  DCHECK (IsAligned kBitsPerByte (writer_bit_offset_ w));
  DCHECK (BitsToBytesRoundUp (writer_bit_offset_ w) =? vec_size (out_ w));
  '(m, out) ← vec_append m (out_ w) bytes;
  Some (m, mkBitMemoryWriter out (writer_bit_start_ w) (u64 (writer_bit_offset_ w + zlength bytes * kBitsPerByte))).

Definition ByteAlign (w : BitMemoryWriter) : option BitMemoryWriter :=
  DCHECK (IsAligned kBitsPerByte (writer_bit_start_ w));
  Some (mkBitMemoryWriter (out_ w) (writer_bit_start_ w) (RoundUp 64 (writer_bit_offset_ w) kBitsPerByte)).

End Writer.

(** ** Sequences of bits *)

#[local] Ltac Zify.zify_post_hook ::= Z.to_euclidean_division_equations.

Definition zbits (v n : Z) : list bool := map (fun k => Z.testbit v (Z.of_nat k)) (seq 0 (Z.to_nat n)).

Definition nthb (bs : list bool) (k : Z) : bool := nth (Z.to_nat k) bs false.

Lemma zbits_length v n : 0 <= n -> zlength (zbits v n) = n.
Proof. intros. unfold zbits. rewrite length_map, length_seq. lia. Qed.

Lemma nthb_zbits v n k : 0 <= k < n -> nthb (zbits v n) k = Z.testbit v k.
Proof.
  intros Hk. unfold nthb, zbits. rewrite (nth_indep _ false (Z.testbit v (Z.of_nat 0))) by (rewrite length_map, length_seq; lia).
  rewrite (map_nth (fun k => Z.testbit v (Z.of_nat k))), seq_nth by lia. f_equal. lia.
Qed.

Lemma nthb_app a b k : 0 <= k -> nthb (a ++ b) k = if k <? zlength a then nthb a k else nthb b (k - zlength a).
Proof.
  intros Hk. unfold nthb. destruct (Z.ltb_spec k (zlength a)).
  - by rewrite app_nth1 by lia.
  - rewrite app_nth2 by lia. f_equal. lia.
Qed.

Lemma nthb_over bs k : zlength bs <= k -> nthb bs k = false.
Proof. intros. unfold nthb. by rewrite nth_overflow by lia. Qed.

(** The bits from [c] on are [bs]. *)
Definition bits_at (m : memory) (c : Z) (bs : list bool) : Prop :=
  readable m c (zlength bs) /\ forall k, 0 <= k < zlength bs -> mbit m (c + k) = nthb bs k.

Lemma bits_at_app m c a b : bits_at m c (a ++ b) <-> bits_at m c a /\ bits_at m (c + zlength a) b.
Proof.
  unfold bits_at. rewrite length_app. split.
  - intros [Hr H]. split; (split; [apply (readable_sub m _ _ _ _ Hr); lia|]); intros k Hk.
    + rewrite H, nthb_app by lia. zcases. done.
    + rewrite <- Z.add_assoc, H, nthb_app by lia. zcases. f_equal. lia.
  - intros [[Hr1 H1] [Hr2 H2]]. split.
    + intros i Hi. destruct (Z.ltb_spec i (c + zlength a)); [apply Hr1; lia|apply Hr2; lia].
    + intros k Hk. rewrite nthb_app by lia. destruct (Z.ltb_spec k (zlength a)); [apply H1; lia|].
      rewrite <- H2 by lia. f_equal. lia.
Qed.

Lemma loaded_bits_at m c v n : 0 <= n -> is_u n v -> bits_at m c (zbits v n) -> loaded m c (Z.to_nat n) = v.
Proof.
  intros Hn Hv [_ H]. rewrite zbits_length in H by done. apply Z.bits_inj'. intros i Hi. rewrite testbit_loaded, Z2Nat.id by lia.
  destruct (Z.ltb_spec i n).
  - rewrite H, nthb_zbits by lia. zcases. done.
  - rewrite (testbit_high n v) by (done || lia). by rewrite andb_false_r.
Qed.

(** ** The reader at a position *)

(** The reader started at bit [c0] of the memory and is at bit [c]. *)
Record reader_at (rd : BitMemoryReader) (c0 c : Z) : Prop := {
  ra_ok : region_ok (finished_region_ rd);
  ra_start : base (finished_region_ rd) = c0;
  ra_pos : c0 + size_in_bits (finished_region_ rd) = c;
  ra_small : region_bit_start_ (finished_region_ rd) < 2 ^ 62;
  ra_valid : 8 * 4096 <= c0 -> IsValid (finished_region_ rd) = true
}.

Lemma ReadRegion_spec rd c0 c n :
  reader_at rd c0 c -> 0 <= n -> c - c0 + n < 2 ^ 62 ->
  exists r rd', ReadRegion rd n = Some (r, rd') /\ region_ok r /\ base r = c /\ size_in_bits r = n /\ reader_at rd' c0 (c + n) /\
    region_data_ r = region_data_ (finished_region_ rd).
Proof.
  intros [Hok Hst Hpos Hsm Hval] Hn Hb. pose proof Hok as [Ha Hs Hz Hbd]. unfold ReadRegion, size_in_bits in *.
  rewrite wrap_id by (unfold is_u; lia). set (fin := Region_Resize _ _).
  assert (Hfin : region_ok fin) by (split; cbn; lia).
  destruct (Subregion_spec fin (region_bit_size_ (finished_region_ rd)) n Hfin) as (r & -> & Hr & Hbase & Hsz & Hdat); [lia|lia|cbn; lia|].
  cbn [mbind option_bind].
  do 2 eexists. split; [done|]. split; [done|]. unfold base in *. cbn in Hbase. split; [lia|]. split; [done|]. split; [|done].
  split; try done; unfold base, size_in_bits; cbn; lia.
Qed.

Lemma ReadBits_spec w m rd c0 c n :
  word_size w -> paged m -> reader_at rd c0 c -> 0 <= n <= w -> c - c0 + n < 2 ^ 62 -> readable m c n ->
  exists rd', ReadBits w m rd n = Some (loaded m c (Z.to_nat n), rd') /\ reader_at rd' c0 (c + n).
Proof.
  intros Hw Hp Hrd Hn Hb Hr. unfold ReadBits. destruct (ReadRegion_spec rd c0 c n Hrd) as (r & rd' & -> & Hok & <- & Hsz & Hrd' & _); [lia|done|].
  cbn [mbind option_bind]. rewrite LoadBits_spec; try done; rewrite ?Z.add_0_r; try done; [|unfold size_in_bits in Hsz; lia].
  cbn [mbind option_bind]. by exists rd'.
Qed.

Lemma ReadBit_spec m rd c0 c :
  reader_at rd c0 c -> c - c0 + 1 < 2 ^ 62 -> readable m c 1 ->
  exists rd', ReadBit m rd = Some (mbit m c, rd') /\ reader_at rd' c0 (c + 1).
Proof.
  intros Hrd Hb Hr. unfold ReadBit. destruct (ReadRegion_spec rd c0 c 1 Hrd) as (r & rd' & -> & Hok & <- & Hsz & Hrd' & _); [lia|done|].
  cbn [mbind option_bind]. rewrite LoadBit_spec; rewrite ?Z.add_0_r; [|done|unfold size_in_bits in Hsz; lia|done].
  cbn [mbind option_bind]. by exists rd'.
Qed.

Lemma BitMemoryReader_create_spec data bit_offset :
  0 <= data + bit_offset / 8 < 2 ^ 64 -> reader_at (BitMemoryReader_create data bit_offset) (8 * data + bit_offset) (8 * data + bit_offset).
Proof.
  intros H. destruct (BitMemoryRegion_create_ok data bit_offset 0 H) as (Hok & Hb & Hs & Hsm); [lia|].
  unfold BitMemoryReader_create. split; cbn [finished_region_]; [done|done|lia|lia|].
  intros Hpage. apply negb_true_iff, Z.eqb_neq. unfold base in Hb. lia.
Qed.

(** ** The vector and the writer *)

Lemma move_bytes_spec n src m from to :
  readable src (8 * from) (8 * Z.of_nat n) -> readable m (8 * to) (8 * Z.of_nat n) ->
  exists m', move_bytes n src m from to = Some m' /\ same_domain m m' /\
    forall i, mbit m' i = if (8 * to <=? i) && (i <? 8 * to + 8 * Z.of_nat n) then mbit src (i - 8 * to + 8 * from) else mbit m i.
Proof.
  revert m from to. induction n as [|n IH]; intros m from to Hs Hm; cbn [move_bytes].
  - exists m. split; [done|]. split; [done|]. intros i. zcases; done.
  - destruct (Hs (8 * from)) as [b Hb]; [lia|]. replace (8 * from / 8) with from in Hb by lia. rewrite Hb. cbn [mbind option_bind].
    destruct (mwrite_spec m to b) as (m1 & -> & [Hd1 H1] & _).
    { pose proof (Hm (8 * to) ltac:(lia)) as Hx. by replace (8 * to / 8) with to in Hx by lia. }
    cbn [mbind option_bind]. destruct (IH m1 (from + 1) (to + 1)) as (m2 & -> & Hd2 & H2).
    + apply (readable_sub src _ _ _ _ Hs); lia.
    + apply (readable_domain m); [done|]. apply (readable_sub m _ _ _ _ Hm); lia.
    + exists m2. split; [done|]. split; [by apply (same_domain_trans m m1)|]. intros i. rewrite H2, H1.
      assert (Hbyte : 8 * to <= i < 8 * to + 8 -> Z.testbit b (i - 8 * to) = mbit src (i - 8 * to + 8 * from)).
      { intros Hi. rewrite <- (mbit_at src from b (i - 8 * to)) by (done || lia). f_equal. lia. }
      zcases; simpl; try done; try (f_equal; lia). apply Hbyte. lia.
Qed.

Lemma write_bytes_spec m a bytes :
  readable m (8 * a) (8 * zlength bytes) ->
  exists m', write_bytes m a bytes = Some m' /\ same_domain m m' /\
    forall i, mbit m' i = if (8 * a <=? i) && (i <? 8 * a + 8 * zlength bytes)
      then Z.testbit (nth (Z.to_nat ((i - 8 * a) / 8)) bytes 0) ((i - 8 * a) mod 8) else mbit m i.
Proof.
  revert m a. induction bytes as [|b bytes IH]; intros m a Hm; cbn [write_bytes].
  - exists m. split; [done|]. split; [done|]. intros i. simpl length. zcases; done.
  - simpl length in *. destruct (mwrite_spec m a b) as (m1 & -> & [Hd1 H1] & _).
    { pose proof (Hm (8 * a) ltac:(lia)) as Hx. by replace (8 * a / 8) with a in Hx by lia. }
    cbn [mbind option_bind]. destruct (IH m1 (a + 1)) as (m2 & -> & Hd2 & H2).
    + apply (readable_domain m); [done|]. apply (readable_sub m _ _ _ _ Hm); lia.
    + exists m2. split; [done|]. split; [by apply (same_domain_trans m m1)|]. intros i. rewrite H2, H1.
      destruct (Z.leb_spec (8 * a) i) as [Hlo|Hlo]; [|zcases; done].
      destruct (Z.ltb_spec i (8 * a + 8)) as [Hfirst|Hrest].
      * replace ((i - 8 * a) / 8) with 0 by lia. replace ((i - 8 * a) mod 8) with (i - 8 * a) by lia. zcases; done.
      * replace (Z.to_nat ((i - 8 * a) / 8)) with (S (Z.to_nat ((i - 8 * (a + 1)) / 8))) by lia.
        replace ((i - 8 * a) mod 8) with ((i - 8 * (a + 1)) mod 8) by lia. cbn [nth]. zcases; done.
Qed.

Lemma nth_zeros k n : nth k (replicate n 0) 0 = 0.
Proof. revert k. induction n as [|n IH]; intros [|k]; simpl; auto. Qed.

(** What the writer relies on: a new block is accessible, does not contain
    [live] bytes of other objects, and taking it keeps the memory. *)
Class Allocator (allocate : memory -> Z -> memory * Z) (live : Z -> Prop) : Prop := {
  alloc_paged : forall m n, paged m -> paged (fst (allocate m n));
  alloc_keeps : forall m n x b, m x = Some b -> fst (allocate m n) x = Some b;
  alloc_range : forall m n, 0 <= n < 2 ^ 60 -> 4096 <= snd (allocate m n) /\ snd (allocate m n) + n <= 2 ^ 63;
  alloc_block : forall m n x, 0 <= n < 2 ^ 60 -> snd (allocate m n) <= x < snd (allocate m n) + n ->
    is_Some (fst (allocate m n) x) /\ ~ live x
}.

Section WriterSpec.

Context (allocate : memory -> Z -> memory * Z) (live : Z -> Prop) {Halloc : Allocator allocate live}.

(** The bytes of other objects are as they were. *)
Definition keeps (m m' : memory) : Prop :=
  forall i, live (i / 8) -> is_Some (m (i / 8)) -> is_Some (m' (i / 8)) /\ mbit m' i = mbit m i.

Lemma live_refl m : keeps m m.
Proof. intros i _ H. done. Qed.

Lemma live_trans m1 m2 m3 : keeps m1 m2 -> keeps m2 m3 -> keeps m1 m3.
Proof. intros H1 H2 i Hl Hs. destruct (H1 i Hl Hs) as [Hs2 <-]. by apply H2. Qed.

(** The bytes of the vector are accessible and hold [bs], then zeros. *)
Record vec_holds (m : memory) (v : Vector) (bs : list bool) : Prop := {
  vh_paged : paged m;
  vh_range : 0 <= vec_data v /\ 0 <= vec_size v /\ vec_data v + vec_size v <= 2 ^ 63 /\ (0 < vec_size v -> 4096 <= vec_data v);
  vh_readable : readable m (8 * vec_data v) (8 * vec_size v);
  vh_own : forall x, vec_data v <= x < vec_data v + vec_size v -> ~ live x;
  vh_bits : forall k, 0 <= k < 8 * vec_size v -> mbit m (8 * vec_data v + k) = nthb bs k
}.

Lemma keeps_outside m m' a n :
  same_domain m m' -> (forall x, a <= x < a + n -> ~ live x) ->
  (forall i, ~ (8 * a <= i < 8 * a + 8 * n) -> mbit m' i = mbit m i) -> keeps m m'.
Proof.
  intros Hd Hown Hb i Hl Hs. split; [by apply Hd|]. apply Hb. intros Hi. apply (Hown (i / 8)); [lia|done].
Qed.

Lemma vec_grow_spec m v bs n :
  vec_holds m v bs -> vec_size v <= n < 2 ^ 60 ->
  exists m' v', vec_grow allocate m v n = Some (m', v') /\ paged m' /\ keeps m m' /\
    vec_size v' = n /\ 4096 <= vec_data v' /\ vec_data v' + n <= 2 ^ 63 /\
    (forall x, vec_data v' <= x < vec_data v' + n -> is_Some (m' x) /\ ~ live x) /\
    forall k, 0 <= k < 8 * vec_size v -> mbit m' (8 * vec_data v' + k) = nthb bs k.
Proof.
  intros [Hp Hrg Hr Hown Hb] Hn. unfold vec_grow. pose proof (alloc_paged m n Hp) as Hp1. pose proof (alloc_keeps m n) as Hk1.
  pose proof (alloc_range m n ltac:(lia)) as Hrg1. pose proof (alloc_block m n) as Hbl1.
  destruct (allocate m n) as [m1 a]. simpl fst in *. simpl snd in *.
  assert (Hr1 : readable m1 (8 * vec_data v) (8 * vec_size v)).
  { intros i Hi. destruct (Hr i Hi) as [b Hb']. rewrite (Hk1 _ _ Hb'). eauto. }
  destruct (move_bytes_spec (Z.to_nat (vec_size v)) m1 m1 (vec_data v) a) as (m2 & -> & Hd2 & H2).
  - by rewrite Z2Nat.id by lia.
  - intros i Hi. apply Hbl1; lia.
  - cbn [mbind option_bind]. rewrite Z2Nat.id in H2 by lia. exists m2, (mkVector a n). cbn [vec_data vec_size].
    split; [done|]. split; [by apply (paged_domain m1)|].
    assert (Hsame : forall i, is_Some (m (i / 8)) -> mbit m1 i = mbit m i).
    { intros i [b Hb']. unfold mbit. by rewrite Hb', (Hk1 _ _ Hb'). }
    split; [|split; [done|split; [lia|split; [lia|split]]]].
    + intros i Hl [b Hb']. split; [apply Hd2; rewrite (Hk1 _ _ Hb'); eauto|]. rewrite H2, <- Hsame by (rewrite Hb'; eauto).
      destruct (Z.leb_spec (8 * a) i), (Z.ltb_spec i (8 * a + 8 * vec_size v)); simpl; try done.
      exfalso. apply (Hbl1 (i / 8)); [lia|lia|done].
    + intros x Hx. split; [apply Hd2|]; apply Hbl1; lia.
    + intros k Hk. rewrite H2, <- Hb by done. rewrite (proj2 (Z.leb_le _ _)), (proj2 (Z.ltb_lt _ _)) by lia. simpl.
      replace (8 * a + k - 8 * a + 8 * vec_data v) with (8 * vec_data v + k) by lia. apply Hsame. apply Hr. lia.
Qed.

Lemma vec_resize_spec m v bs n :
  vec_holds m v bs -> zlength bs <= 8 * vec_size v -> 0 <= n < 2 ^ 60 ->
  exists m' v', vec_resize allocate m v n = Some (m', v') /\ vec_holds m' v' bs /\ vec_size v' = n /\ keeps m m'.
Proof.
  intros Hv Hlen Hn. pose proof Hv as [Hp Hrg Hr Hown Hb]. unfold vec_resize. destruct (Z.leb_spec n (vec_size v)) as [Hle|Hgt].
  - exists m, (mkVector (vec_data v) n). split; [done|]. split; [|split; [done|apply live_refl]].
    split; cbn [vec_data vec_size]; [done|lia|apply (readable_sub m _ _ _ _ Hr); lia|intros x Hx; apply Hown; lia|intros k Hk; apply Hb; lia].
  - destruct (vec_grow_spec m v bs n Hv) as (m1 & v1 & -> & Hp1 & Hk1 & Hs1 & H0 & Hrg1 & Hbl & Hb1); [lia|]. cbn [mbind option_bind].
    assert (Hz : zlength (replicate (Z.to_nat (n - vec_size v)) 0) = n - vec_size v) by (rewrite length_replicate; lia).
    destruct (write_bytes_spec m1 (vec_data v1 + vec_size v) (replicate (Z.to_nat (n - vec_size v)) 0)) as (m2 & -> & Hd2 & H2);
      rewrite Hz in *.
    { intros i Hi. apply Hbl. lia. }
    cbn [mbind option_bind]. exists m2, v1. split; [done|]. split; [|split; [done|]].
    + split; [by apply (paged_domain m1)|lia| |intros x Hx; apply Hbl; lia|].
      * intros i Hi. apply Hd2, Hbl. lia.
      * intros k Hk. rewrite H2. destruct (Z.ltb_spec k (8 * vec_size v)).
        -- rewrite (proj2 (Z.leb_gt _ _)) by lia. simpl. by apply Hb1; lia.
        -- rewrite (proj2 (Z.leb_le _ _)), (proj2 (Z.ltb_lt _ _)) by lia. simpl. rewrite nth_zeros.
           rewrite Z.testbit_0_l, nthb_over by lia. done.
    + apply (live_trans m m1); [done|]. apply (keeps_outside m1 m2 (vec_data v1 + vec_size v) (n - vec_size v)); [done| |].
      * intros x Hx. apply Hbl. lia.
      * intros i Hi. rewrite H2. zcases; done.
Qed.

(** The position where the writer started. *)
Context (bit_start : Z).

(** The writer has written [bs] to its vector, whose padding bits are zero. *)
Record written (m : memory) (w : BitMemoryWriter) (bs : list bool) : Prop := {
  wr_vec : vec_holds m (out_ w) bs;
  wr_size : vec_size (out_ w) = (zlength bs + 7) / 8;
  wr_offset : writer_bit_offset_ w = zlength bs;
  wr_start : writer_bit_start_ w = bit_start /\ 0 <= bit_start <= zlength bs
}.

Lemma Allocate_spec m w bs n :
  written m w bs -> 0 <= n -> zlength bs + n < 2 ^ 62 ->
  exists m' w' r, Allocate allocate m w n = Some (m', w', r) /\ vec_holds m' (out_ w') bs /\ keeps m m' /\
    region_ok r /\ base r = 8 * vec_data (out_ w') + zlength bs /\ size_in_bits r = n /\
    vec_size (out_ w') = (zlength bs + n + 7) / 8 /\ writer_bit_offset_ w' = zlength bs + n /\ writer_bit_start_ w' = bit_start.
Proof.
  intros [Hv Hsz Hoff [Hst Hst0]] Hn Hb. unfold Allocate. rewrite Hoff, wrap_id by (unfold is_u; lia).
  rewrite BitsToBytesRoundUp_spec by lia.
  destruct (vec_resize_spec m (out_ w) bs ((zlength bs + n + 7) / 8) Hv) as (m1 & v1 & -> & Hv1 & Hs1 & Hk); [lia|lia|].
  cbn [mbind option_bind]. rewrite (proj2 (Z.leb_le _ _)) by (unfold kSizeMax; lia). cbn [dcheck mbind option_bind].
  pose proof (vh_range _ _ _ Hv1). destruct (BitMemoryRegion_create_ok (vec_data v1) (zlength bs) n) as (Hok & Hba & Hs & _); [lia|lia|].
  do 3 eexists. split; [done|]. cbn [out_ writer_bit_offset_ writer_bit_start_]. done.
Qed.

(** Storing into the region that was just allocated appends bits. *)
Lemma append_bits m m' w' r bs v n :
  vec_holds m (out_ w') bs -> base r = 8 * vec_data (out_ w') + zlength bs -> 0 <= n ->
  vec_size (out_ w') = (zlength bs + n + 7) / 8 -> writer_bit_offset_ w' = zlength bs + n -> writer_bit_start_ w' = bit_start -> 0 <= bit_start <= zlength bs ->
  stores m m' (base r) v n -> written m' w' (bs ++ zbits v n) /\ keeps m m'.
Proof.
  intros [Hp Hrg Hr Hown Hb] Hba Hn Hsz Hoff Hst Hst0 [Hd Hs]. rewrite Hba in Hs. split.
  - split; [|rewrite length_app, Nat2Z.inj_add, zbits_length by done; lia|rewrite length_app, Nat2Z.inj_add, zbits_length by done; lia
            |rewrite length_app; lia].
    split; [by apply (paged_domain m)|done|by apply (readable_domain m)|done|].
    intros k Hk. rewrite Hs, nthb_app by lia. destruct (Z.ltb_spec k (zlength bs)) as [Hlt|Hge].
    + rewrite (proj2 (Z.leb_gt _ _)) by lia. by apply Hb.
    + rewrite (proj2 (Z.leb_le _ _)) by lia. simpl.
      destruct (Z.ltb_spec (8 * vec_data (out_ w') + k) (8 * vec_data (out_ w') + zlength bs + n)).
      * rewrite nthb_zbits by lia. f_equal. lia.
      * rewrite Hb, !nthb_over by (rewrite ?zbits_length; lia). done.
  - apply (keeps_outside m m' (vec_data (out_ w')) (vec_size (out_ w'))); [done|done|].
    intros i Hi. rewrite Hs. zcases; done.
Qed.

Lemma region_readable m v bs r n :
  vec_holds m v bs -> base r = 8 * vec_data v + zlength bs -> 0 <= n -> vec_size v = (zlength bs + n + 7) / 8 -> readable m (base r) n.
Proof. intros [_ _ Hr _ _] -> Hn Hs. apply (readable_sub m _ _ _ _ Hr); lia. Qed.

Lemma WriteBits_spec m w bs v n :
  written m w bs -> 0 <= n <= 64 -> is_u n v -> zlength bs + n < 2 ^ 62 ->
  exists m' w', WriteBits allocate m w v n = Some (m', w') /\ written m' w' (bs ++ zbits v n) /\ keeps m m'.
Proof.
  intros Hw Hn Hv Hb. unfold WriteBits. destruct (Allocate_spec m w bs n Hw) as (m1 & w1 & r & -> & Hv1 & Hk1 & Hok & Hba & Hs & Hsz & Hoff & Hst); [lia|done|].
  cbn [mbind option_bind].
  destruct (StoreBits_spec m1 r 0 v n) as (m2 & -> & Hst2); try done; try lia; [apply Hv1|unfold size_in_bits in Hs; lia| |].
  { rewrite Z.add_0_r. apply (region_readable m1 (out_ w1) bs); (done || lia). }
  cbn [mbind option_bind]. rewrite Z.add_0_r in Hst2. exists m2, w1. split; [done|].
  destruct (append_bits m1 m2 w1 r bs v n) as [Hw2 Hk2]; try done; [lia|apply Hw|].
  split; [done|by apply (live_trans m m1)].
Qed.

Lemma WriteBit_spec m w bs v :
  written m w bs -> zlength bs + 1 < 2 ^ 62 ->
  exists m' w', WriteBit allocate m w v = Some (m', w') /\ written m' w' (bs ++ [v]) /\ keeps m m'.
Proof.
  intros Hw Hb. unfold WriteBit. destruct (Allocate_spec m w bs 1 Hw) as (m1 & w1 & r & -> & Hv1 & Hk1 & Hok & Hba & Hs & Hsz & Hoff & Hst); [lia|done|].
  cbn [mbind option_bind]. destruct (StoreBit_spec m1 r 0 v) as (m2 & -> & Hst2); try done; [unfold size_in_bits in Hs; lia| |].
  { rewrite Z.add_0_r. apply (region_readable m1 (out_ w1) bs); (done || lia). }
  cbn [mbind option_bind]. rewrite Z.add_0_r in Hst2. exists m2, w1. split; [done|].
  destruct (append_bits m1 m2 w1 r bs (Z.b2z v) 1) as [Hw2 Hk2]; try done; [apply Hw|].
  split; [by destruct v|by apply (live_trans m m1)].
Qed.

(** The bits of a region of another object. *)
Definition region_bits (m : memory) (r : BitMemoryRegion) : list bool :=
  map (fun k => mbit m (base r + Z.of_nat k)) (seq 0 (Z.to_nat (size_in_bits r))).

Lemma region_bits_spec m r : region_ok r -> zlength (region_bits m r) = size_in_bits r /\
  forall k, 0 <= k < size_in_bits r -> nthb (region_bits m r) k = mbit m (base r + k).
Proof.
  intros [_ _ Hs _]. unfold region_bits, size_in_bits in *. split; [rewrite length_map, length_seq; lia|]. intros k Hk. unfold nthb.
  rewrite (nth_indep _ false (mbit m (base r + Z.of_nat 0))) by (rewrite length_map, length_seq; lia).
  rewrite (map_nth (fun k => mbit m (base r + Z.of_nat k))), seq_nth by lia. f_equal. lia.
Qed.

(** The region is part of another object. *)
Definition live_region (m : memory) (r : BitMemoryRegion) : Prop :=
  region_ok r /\ readable m (base r) (size_in_bits r) /\ forall i, base r <= i < base r + size_in_bits r -> live (i / 8).

Lemma live_region_keeps m m' r : keeps m m' -> live_region m r -> live_region m' r /\ region_bits m' r = region_bits m r.
Proof.
  intros Hk (Hok & Hr & Hl). split.
  - split; [done|]. split; [|done]. intros i Hi. apply (Hk i); auto.
  - apply map_ext_in. intros k [_ Hk2]%in_seq. apply Hk; [apply Hl|apply Hr]; lia.
Qed.

Lemma combined_copy m m' D S n :
  0 <= n -> combined (fun _ b => b) m m' D S n -> stores m m' D (loaded m S (Z.to_nat n)) n.
Proof.
  intros Hn [Hd H]. split; [done|]. intros i. rewrite H, testbit_loaded, Z2Nat.id by lia. zcases; simpl; try done. f_equal. lia.
Qed.

Lemma zbits_loaded m r : region_ok r -> zbits (loaded m (base r) (Z.to_nat (size_in_bits r))) (size_in_bits r) = region_bits m r.
Proof.
  intros [_ _ Hs _]. unfold zbits, region_bits, size_in_bits in *. apply map_ext_in. intros k [_ Hk]%in_seq.
  rewrite testbit_loaded. zcases. done.
Qed.

Lemma copy_into_spec m v bs dst src :
  vec_holds m v bs -> region_ok dst -> base dst = 8 * vec_data v + zlength bs -> size_in_bits dst = size_in_bits src ->
  zlength bs + size_in_bits src <= 8 * vec_size v -> live_region m src ->
  exists m', CopyBits m dst src = Some m' /\ stores m m' (base dst) (loaded m (base src) (Z.to_nat (size_in_bits src))) (size_in_bits src).
Proof.
  intros Hv Hok Hba Hs Hsz (Hoks & Hrs & Hl). pose proof Hoks as [_ _ Hs0 _].
  assert (Hrd : readable m (base dst) (size_in_bits src)) by (apply (readable_sub m _ _ _ _ (vh_readable _ _ _ Hv)); lia).
  destruct (combine_bits_spec (fun _ b => b) (fun _ v => v) m dst src) as (m' & E & Hc); try done; try (by rewrite ?Hs); [apply Hv| |].
  - destruct (Z.leb_spec (base dst) (base src)); [by left|]. right. destruct (Z.leb_spec (base src + size_in_bits src) (base dst)); [done|].
    exfalso. apply (vh_own _ _ _ Hv (base dst / 8)); [lia|]. apply Hl. lia.
  - exists m'. split; [done|]. rewrite <- Hs. apply combined_copy; [unfold size_in_bits in *; lia|done].
Qed.

Lemma WriteRegion_spec m w bs r :
  written m w bs -> live_region m r -> zlength bs + size_in_bits r < 2 ^ 62 ->
  exists m' w', WriteRegion allocate m w r = Some (m', w') /\ written m' w' (bs ++ region_bits m r) /\ keeps m m'.
Proof.
  intros Hw Hr Hb. unfold WriteRegion. pose proof Hr as (Hokr & _). pose proof Hokr as [_ _ Hs0 _]. fold (size_in_bits r) in Hs0.
  destruct (Allocate_spec m w bs (size_in_bits r) Hw) as (m1 & w1 & d & -> & Hv1 & Hk1 & Hok & Hba & Hs & Hsz & Hoff & Hst); [lia|done|].
  cbn [mbind option_bind]. destruct (live_region_keeps m m1 r Hk1 Hr) as [Hr1 Hbits].
  destruct (copy_into_spec m1 (out_ w1) bs d r) as (m2 & -> & Hst2); try done; [lia|]. cbn [mbind option_bind].
  exists m2, w1. split; [done|]. destruct (append_bits m1 m2 w1 d bs (loaded m1 (base r) (Z.to_nat (size_in_bits r))) _ Hv1 Hba Hs0 Hsz Hoff)
    as [Hw2 Hk2]; [done|apply Hw|done|].
  rewrite zbits_loaded, Hbits in Hw2 by done. split; [done|by apply (live_trans m m1)].
Qed.

(** ** Variable-length integers *)

Definition varint_head (v : Z) : list bool := zbits (if kVarintMax <? v then kVarintMax + varint_bytes v else v) kVarintBits.
Definition varint_tail (v : Z) : list bool := if kVarintMax <? v then zbits v (varint_bytes v * kBitsPerByte) else [].

Lemma varint_bytes_spec v : is_u 32 v -> kVarintMax < v -> 1 <= varint_bytes v <= 4 /\ is_u (varint_bytes v * 8) v.
Proof.
  intros Hv Hlt. unfold kVarintMax in *. destruct (MinimumBitsToStore_spec 32 v) as (Hu & Hb0 & Hmin); [by right|done|].
  assert (Hb : MinimumBitsToStore 32 v <= 32) by (apply Hmin; [lia|done]).
  assert (0 < MinimumBitsToStore 32 v).
  { destruct (Z.eqb_spec (MinimumBitsToStore 32 v) 0) as [E|]; [|lia]. rewrite E in Hu. unfold is_u in Hu. simpl in Hu. lia. }
  unfold varint_bytes. rewrite BitsToBytesRoundUp_spec by lia. split; [lia|].
  apply (is_u_weaken (MinimumBitsToStore 32 v)); [lia|done].
Qed.

Lemma write_small_spec m w bs v :
  written m w bs -> is_u 32 v -> zlength bs + 4 < 2 ^ 62 ->
  exists m' w', write_small allocate m w v = Some (m', w') /\ written m' w' (bs ++ varint_head v) /\ keeps m m'.
Proof.
  intros Hw Hv Hb. unfold write_small, varint_head. destruct (Z.ltb_spec kVarintMax v) as [Hlt|Hge].
  - destruct (varint_bytes_spec v Hv Hlt) as [Hn _]. apply WriteBits_spec; try done; unfold kVarintBits, kVarintMax, is_u; lia.
  - apply WriteBits_spec; try done; unfold kVarintBits, kVarintMax, is_u in *; lia.
Qed.

Lemma write_large_spec m w bs v :
  written m w bs -> is_u 32 v -> zlength bs + 32 < 2 ^ 62 ->
  exists m' w', write_large allocate m w v = Some (m', w') /\ written m' w' (bs ++ varint_tail v) /\ keeps m m'.
Proof.
  intros Hw Hv Hb. unfold write_large, varint_tail. destruct (Z.ltb_spec kVarintMax v) as [Hlt|Hge].
  - destruct (varint_bytes_spec v Hv Hlt) as [Hn Hu]. apply WriteBits_spec; try done; unfold kBitsPerByte; lia.
  - exists m, w. rewrite app_nil_r. split; [done|]. split; [done|apply live_refl].
Qed.

Lemma write_each_spec step (bits : Z -> list bool) n m w bs values :
  (forall m w bs v, written m w bs -> is_u 32 v -> zlength bs + n < 2 ^ 62 ->
     exists m' w', step m w v = Some (m', w') /\ written m' w' (bs ++ bits v) /\ keeps m m') ->
  (forall v, is_u 32 v -> zlength (bits v) <= n) ->
  written m w bs -> Forall (is_u 32) values -> zlength bs + n * zlength values + n < 2 ^ 62 -> 0 <= n ->
  exists m' w', write_each step m w values = Some (m', w') /\ written m' w' (bs ++ concat (map bits values)) /\ keeps m m'.
Proof.
  intros Hstep Hn Hw Hvs Hb H0. revert m w bs Hw Hb. induction values as [|v values IH]; intros m w bs Hw Hb; cbn [write_each map concat].
  - exists m, w. rewrite app_nil_r. split; [done|]. split; [done|apply live_refl].
  - apply Forall_cons_1 in Hvs as [Hv Hvs]. cbn [length] in Hb.
    destruct (Hstep m w bs v) as (m1 & w1 & -> & Hw1 & Hk1); [done|done|nia|]. cbn [mbind option_bind].
    destruct (IH Hvs m1 w1 (bs ++ bits v) Hw1) as (m2 & w2 & -> & Hw2 & Hk2).
    + rewrite length_app. specialize (Hn v Hv). nia.
    + exists m2, w2. rewrite app_assoc. split; [done|]. split; [done|by apply (live_trans m m1)].
Qed.

Definition varints_bits (values : list Z) : list bool := concat (map varint_head values) ++ concat (map varint_tail values).

Lemma varint_head_length v : zlength (varint_head v) = 4.
Proof. unfold varint_head. by rewrite zbits_length. Qed.

Lemma varint_tail_length v : is_u 32 v -> zlength (varint_tail v) <= 32.
Proof.
  intros Hv. unfold varint_tail. destruct (Z.ltb_spec kVarintMax v) as [Hlt|]; [|simpl; lia].
  destruct (varint_bytes_spec v Hv Hlt). rewrite zbits_length; unfold kBitsPerByte; lia.
Qed.

Lemma heads_length values : zlength (concat (map varint_head values)) = 4 * zlength values.
Proof.
  induction values as [|v values IH]; [done|]. cbn [map concat length]. rewrite length_app, Nat2Z.inj_add, IH, varint_head_length. lia.
Qed.

Lemma tails_length values : Forall (is_u 32) values -> zlength (concat (map varint_tail values)) <= 32 * zlength values.
Proof.
  induction 1 as [|v values Hv _ IH]; [done|]. cbn [map concat length]. rewrite length_app, Nat2Z.inj_add.
  pose proof (varint_tail_length v Hv). lia.
Qed.

Lemma WriteInterleavedVarints_spec m w bs values :
  written m w bs -> Forall (is_u 32) values -> (length values <= 16)%nat -> zlength bs < 2 ^ 61 ->
  exists m' w', WriteInterleavedVarints allocate m w values = Some (m', w') /\ written m' w' (bs ++ varints_bits values) /\ keeps m m'.
Proof.
  intros Hw Hvs Hlen Hb. unfold WriteInterleavedVarints, varints_bits.
  destruct (write_each_spec (write_small allocate) varint_head 4 m w bs values) as (m1 & w1 & -> & Hw1 & Hk1); try done; try lia.
  { intros. by apply write_small_spec. }
  cbn [mbind option_bind]. pose proof (heads_length values).
  destruct (write_each_spec (write_large allocate) varint_tail 32 m1 w1 (bs ++ concat (map varint_head values)) values)
    as (m2 & w2 & -> & Hw2 & Hk2); try done; try lia.
  { intros. by apply write_large_spec. } { intros. by apply varint_tail_length. } { rewrite length_app. lia. }
  exists m2, w2. rewrite app_assoc. split; [done|]. split; [done|by apply (live_trans m m1)].
Qed.

Lemma BitFieldExtract_loaded m c N i :
  0 <= i -> 4 * i + 4 <= 4 * Z.of_nat N <= 64 ->
  BitFieldExtract 64 (loaded m c (4 * N)) (i * 4) 4 = loaded m (c + 4 * i) 4.
Proof.
  intros Hi HN. apply Z.bits_inj'. intros k Hk. rewrite testbit_BitFieldExtract, !testbit_loaded by lia. change (Z.of_nat 4) with 4.
  replace (c + (k + i * 4)) with (c + 4 * i + k) by lia. rewrite Nat2Z.inj_mul. zcases; done.
Qed.

(** The four-bit field of a value. *)
Definition head_value (v : Z) : Z := if kVarintMax <? v then kVarintMax + varint_bytes v else v.

Lemma head_value_is_u v : is_u 32 v -> is_u 4 (head_value v).
Proof.
  intros Hv. unfold head_value. destruct (Z.ltb_spec kVarintMax v) as [Hlt|Hge]; unfold is_u, kVarintMax in *; [|lia].
  destruct (varint_bytes_spec v Hv Hlt). lia.
Qed.

Lemma heads_loaded m c N values :
  bits_at m c (concat (map varint_head values)) -> Forall (is_u 32) values -> length values = N -> (N <= 16)%nat ->
  map (fun i => u32 (BitFieldExtract 64 (loaded m c (4 * N)) (Z.of_nat i * kVarintBits) kVarintBits)) (seq 0 N) = map head_value values.
Proof.
  intros Hb Hvs HN H16. apply list_eq. intros i. rewrite !list_lookup_fmap.
  destruct (decide (i < N)%nat) as [Hi|Hi].
  - rewrite lookup_seq_lt by done. cbn [fmap option_fmap option_map]. destruct (lookup_lt_is_Some_2 values i) as [v Hv]; [lia|]. rewrite Hv. cbn [fmap option_fmap option_map]. f_equal.
    unfold kVarintBits. rewrite BitFieldExtract_loaded by lia.
    assert (Hu : is_u 4 (head_value v)) by (apply head_value_is_u; rewrite Forall_lookup in Hvs; eauto).
    rewrite <- (take_drop_middle values i v Hv), map_app, concat_app in Hb. cbn [map concat] in Hb.
    rewrite !bits_at_app, heads_length, length_take, Nat.min_l in Hb by lia. destruct Hb as (_ & Hb & _).
    change 4%nat with (Z.to_nat 4). rewrite (loaded_bits_at m _ (head_value v) 4) by done. apply wrap_id.
    apply (is_u_weaken 4); [lia|done].
  - rewrite !lookup_ge_None_2 by (rewrite ?length_seq; lia). done.
Qed.

Lemma read_large_spec m rd c0 c v :
  paged m -> reader_at rd c0 c -> is_u 32 v -> bits_at m c (varint_tail v) -> c - c0 + 32 < 2 ^ 62 ->
  exists rd', read_large m rd (head_value v) = Some (v, rd') /\ reader_at rd' c0 (c + zlength (varint_tail v)).
Proof.
  intros Hp Hrd Hv Hb Hlim. unfold read_large, head_value, varint_tail in *. destruct (Z.ltb_spec kVarintMax v) as [Hlt|Hge].
  - destruct (varint_bytes_spec v Hv Hlt) as [Hn Hu]. rewrite (proj2 (Z.ltb_lt _ _)) by lia.
    replace ((kVarintMax + varint_bytes v - kVarintMax) * kBitsPerByte) with (varint_bytes v * kBitsPerByte) by lia. unfold kBitsPerByte in *.
    destruct (ReadBits_spec 64 m rd c0 c (varint_bytes v * 8)) as (rd' & -> & Hrd'); try done; try lia;
      [by right; right; right|destruct Hb as [Hr _]; rewrite zbits_length in Hr by lia; done|].
    cbn [mbind option_bind]. rewrite (loaded_bits_at m c v) by (done || lia). exists rd'. rewrite zbits_length by lia. split; [|done].
    by rewrite wrap_id.
  - rewrite (proj2 (Z.ltb_ge _ _)) by lia. exists rd. simpl length. by rewrite Z.add_0_r.
Qed.

Lemma read_large_values_spec m rd c0 c values :
  paged m -> reader_at rd c0 c -> Forall (is_u 32) values -> bits_at m c (concat (map varint_tail values)) ->
  c - c0 + 32 * zlength values + 32 < 2 ^ 62 ->
  exists rd', read_large_values m rd (map head_value values) = Some (values, rd') /\
    reader_at rd' c0 (c + zlength (concat (map varint_tail values))).
Proof.
  intros Hp Hrd Hvs. revert rd c Hrd. induction Hvs as [|v values Hv Hvs IH]; intros rd c Hrd Hb Hlim; cbn [map read_large_values concat].
  - exists rd. simpl length. by rewrite Z.add_0_r.
  - cbn [map concat length] in *. rewrite bits_at_app in Hb. destruct Hb as [Hb1 Hb2].
    destruct (read_large_spec m rd c0 c v) as (rd1 & -> & Hrd1); try done; [lia|]. cbn [mbind option_bind].
    pose proof (varint_tail_length v Hv). destruct (IH rd1 _ Hrd1 Hb2) as (rd2 & -> & Hrd2); [lia|]. cbn [mbind option_bind].
    exists rd2. split; [done|]. rewrite length_app, Nat2Z.inj_add, Z.add_assoc. done.
Qed.

Lemma ReadInterleavedVarints_spec m rd c0 c values :
  paged m -> reader_at rd c0 c -> Forall (is_u 32) values -> (length values <= 16)%nat -> bits_at m c (varints_bits values) ->
  c - c0 < 2 ^ 61 ->
  exists rd', ReadInterleavedVarints (length values) m rd = Some (values, rd') /\ reader_at rd' c0 (c + zlength (varints_bits values)).
Proof.
  intros Hp Hrd Hvs H16 Hb Hlim. unfold varints_bits in *. rewrite bits_at_app in Hb. destruct Hb as [Hh Ht]. unfold ReadInterleavedVarints.
  pose proof (heads_length values) as Hhl.
  destruct (ReadBits_spec 64 m rd c0 c (Z.of_nat (length values) * kVarintBits)) as (rd1 & -> & Hrd1); try done; unfold kVarintBits in *; try lia;
    [by right; right; right|destruct Hh as [Hr _]; apply (readable_sub m _ _ _ _ Hr); lia|].
  cbn [mbind option_bind]. replace (Z.to_nat (zlength values * 4)) with (4 * length values)%nat by lia.
  pose proof (heads_loaded m c (length values) values Hh Hvs eq_refl H16) as Hheads. unfold kVarintBits in Hheads. rewrite Hheads.
  rewrite Hhl in Ht. replace (4 * zlength values) with (zlength values * 4) in Ht by lia.
  destruct (read_large_values_spec m rd1 c0 _ values Hp Hrd1 Hvs Ht) as (rd2 & -> & Hrd2); [lia|].
  exists rd2. split; [done|]. rewrite length_app, Nat2Z.inj_add, Hhl. by replace (c + (4 * zlength values + zlength (concat (map varint_tail values))))
    with (c + zlength values * 4 + zlength (concat (map varint_tail values))) by lia.
Qed.

(** ** Sequences of fields *)

(** What clients write and read: a field of given width, a single bit, a
    variable-length integer, or a group of interleaved ones. *)
Inductive field :=
| FBits (v n : Z)
| FBit (b : bool)
| FVarint (v : Z)
| FVarints (vs : list Z).

Definition write_field (m : memory) (w : BitMemoryWriter) (f : field) : option (memory * BitMemoryWriter) :=
  match f with
  | FBits v n => WriteBits allocate m w v n
  | FBit b => WriteBit allocate m w b
  | FVarint v => WriteVarint allocate m w v
  | FVarints vs => WriteInterleavedVarints allocate m w vs
  end.

Fixpoint write_fields (m : memory) (w : BitMemoryWriter) (fs : list field) : option (memory * BitMemoryWriter) :=
  match fs with
  | [] => Some (m, w)
  | f :: fs => '(m, w) ← write_field m w f; write_fields m w fs
  end.

(** Reading uses the shape of the field only. *)
Definition read_field (m : memory) (rd : BitMemoryReader) (f : field) : option (field * BitMemoryReader) :=
  match f with
  | FBits _ n => '(v, rd) ← ReadBits 64 m rd n; Some (FBits v n, rd)
  | FBit _ => '(b, rd) ← ReadBit m rd; Some (FBit b, rd)
  | FVarint _ => '(v, rd) ← ReadVarint m rd; Some (FVarint v, rd)
  | FVarints vs => '(vs, rd) ← ReadInterleavedVarints (length vs) m rd; Some (FVarints vs, rd)
  end.

Fixpoint read_fields (m : memory) (rd : BitMemoryReader) (fs : list field) : option (list field * BitMemoryReader) :=
  match fs with
  | [] => Some ([], rd)
  | f :: fs => '(f, rd) ← read_field m rd f; '(fs, rd) ← read_fields m rd fs; Some (f :: fs, rd)
  end.

Definition field_ok (f : field) : Prop :=
  match f with
  | FBits v n => 0 <= n <= 32 /\ is_u n v
  | FBit _ => True
  | FVarint v => is_u 32 v
  | FVarints vs => Forall (is_u 32) vs /\ (length vs <= 16)%nat
  end.

Definition field_bits (f : field) : list bool :=
  match f with
  | FBits v n => zbits v n
  | FBit b => [b]
  | FVarint v => varints_bits [v]
  | FVarints vs => varints_bits vs
  end.

Lemma varints_bits_length vs : Forall (is_u 32) vs -> zlength (varints_bits vs) <= 36 * zlength vs.
Proof. intros H. unfold varints_bits. rewrite length_app, Nat2Z.inj_add, heads_length. pose proof (tails_length vs H). lia. Qed.

Lemma field_bits_length f : field_ok f -> zlength (field_bits f) <= 1024.
Proof.
  destruct f as [v n|b|v|vs]; cbn [field_ok field_bits].
  - intros [Hn _]. rewrite zbits_length; lia.
  - simpl. lia.
  - intros Hv. pose proof (varints_bits_length [v] (Forall_cons_2 _ _ _ Hv (Forall_nil_2 _))) as H. simpl length in H at 2. lia.
  - intros [Hvs Hl]. pose proof (varints_bits_length vs Hvs). lia.
Qed.

Lemma write_field_spec m w bs f :
  written m w bs -> field_ok f -> zlength bs < 2 ^ 61 ->
  exists m' w', write_field m w f = Some (m', w') /\ written m' w' (bs ++ field_bits f) /\ keeps m m'.
Proof.
  intros Hw Hf Hb. destruct f as [v n|b|v|vs]; cbn [field_ok write_field field_bits] in *.
  - destruct Hf. apply WriteBits_spec; (done || lia).
  - apply WriteBit_spec; (done || lia).
  - unfold WriteVarint. apply WriteInterleavedVarints_spec; (done || (simpl; lia) || apply (Forall_cons_2 _ _ _ Hf (Forall_nil_2 _))).
  - destruct Hf. apply WriteInterleavedVarints_spec; done.
Qed.

Lemma read_varint_spec m rd c0 c v :
  paged m -> reader_at rd c0 c -> is_u 32 v -> bits_at m c (varints_bits [v]) -> c - c0 < 2 ^ 61 ->
  exists rd', ReadVarint m rd = Some (v, rd') /\ reader_at rd' c0 (c + zlength (varints_bits [v])).
Proof.
  intros Hp Hrd Hv Hb Hlim. unfold varints_bits in *. cbn [map concat] in *. rewrite !app_nil_r in *. rewrite bits_at_app in Hb. destruct Hb as [Hh Ht].
  unfold ReadVarint. pose proof (varint_head_length v) as Hhl.
  destruct (ReadBits_spec 64 m rd c0 c kVarintBits) as (rd1 & -> & Hrd1); try done; unfold kVarintBits in *; try lia;
    [by right; right; right|destruct Hh as [Hr _]; by rewrite Hhl in Hr|].
  pose proof (head_value_is_u v Hv). cbn [mbind option_bind]. rewrite (loaded_bits_at m c (head_value v) 4) by (done || lia).
  rewrite wrap_id by (apply (is_u_weaken 4); [lia|done]). rewrite Hhl in Ht.
  destruct (read_large_spec m rd1 c0 (c + 4) v) as (rd2 & -> & Hrd2); try done; [lia|]. exists rd2. split; [done|].
  rewrite length_app, Nat2Z.inj_add, Hhl, Z.add_assoc. done.
Qed.

Lemma read_field_spec m rd c0 c f :
  paged m -> reader_at rd c0 c -> field_ok f -> bits_at m c (field_bits f) -> c - c0 < 2 ^ 61 ->
  exists rd', read_field m rd f = Some (f, rd') /\ reader_at rd' c0 (c + zlength (field_bits f)).
Proof.
  intros Hp Hrd Hf Hb Hlim. destruct f as [v n|b|v|vs]; cbn [field_ok read_field field_bits] in *.
  - destruct Hf as [Hn Hv]. destruct (ReadBits_spec 64 m rd c0 c n) as (rd' & -> & Hrd'); try done; try lia;
      [by right; right; right|destruct Hb as [Hr _]; by rewrite zbits_length in Hr by lia|].
    cbn [mbind option_bind]. rewrite (loaded_bits_at m c v) by (done || lia). exists rd'. by rewrite zbits_length by lia.
  - destruct Hb as [Hr Hb]. destruct (ReadBit_spec m rd c0 c) as (rd' & -> & Hrd'); try done; [lia|]. cbn [mbind option_bind].
    exists rd'. specialize (Hb 0). rewrite Z.add_0_r in Hb. rewrite Hb by (simpl; lia). by split.
  - destruct (read_varint_spec m rd c0 c v) as (rd' & -> & Hrd'); try done. by exists rd'.
  - destruct Hf. destruct (ReadInterleavedVarints_spec m rd c0 c vs) as (rd' & -> & Hrd'); try done. by exists rd'.
Qed.

Lemma write_fields_spec m w bs fs :
  written m w bs -> Forall field_ok fs -> zlength bs + 1024 * zlength fs < 2 ^ 61 ->
  exists m' w', write_fields m w fs = Some (m', w') /\ written m' w' (bs ++ concat (map field_bits fs)) /\ keeps m m'.
Proof.
  intros Hw Hfs. revert m w bs Hw. induction Hfs as [|f fs Hf Hfs IH]; intros m w bs Hw Hb; cbn [write_fields map concat].
  - exists m, w. rewrite app_nil_r. split; [done|]. split; [done|apply live_refl].
  - cbn [length] in Hb. destruct (write_field_spec m w bs f) as (m1 & w1 & E & Hw1 & Hk1); try done; [lia|].
    rewrite E. cbn [mbind option_bind]. pose proof (field_bits_length f Hf).
    destruct (IH m1 w1 _ Hw1) as (m2 & w2 & -> & Hw2 & Hk2); [rewrite length_app; lia|].
    exists m2, w2. rewrite app_assoc. split; [done|]. split; [done|]. by apply (live_trans m m1).
Qed.

Lemma read_fields_spec m rd c0 c fs :
  paged m -> reader_at rd c0 c -> Forall field_ok fs -> bits_at m c (concat (map field_bits fs)) -> c - c0 + 1024 * zlength fs < 2 ^ 61 ->
  exists rd', read_fields m rd fs = Some (fs, rd') /\ reader_at rd' c0 (c + zlength (concat (map field_bits fs))).
Proof.
  intros Hp Hrd Hfs. revert rd c Hrd. induction Hfs as [|f fs Hf Hfs IH]; intros rd c Hrd Hb Hlim; cbn [read_fields map concat] in *.
  - exists rd. simpl length. by rewrite Z.add_0_r.
  - rewrite bits_at_app in Hb. destruct Hb as [Hb1 Hb2]. cbn [length] in Hlim.
    destruct (read_field_spec m rd c0 c f) as (rd1 & -> & Hrd1); try done; [lia|]. cbn [mbind option_bind].
    pose proof (field_bits_length f Hf). destruct (IH rd1 _ Hrd1 Hb2) as (rd2 & -> & Hrd2); [lia|]. cbn [mbind option_bind].
    exists rd2. split; [done|]. by rewrite length_app, Nat2Z.inj_add, Z.add_assoc.
Qed.

Lemma written_bits_at m w a b : written m w (a ++ b) -> bits_at m (8 * vec_data (out_ w) + zlength a) b.
Proof.
  intros [[_ _ Hr _ Hb] Hsz _ _]. rewrite length_app in Hsz. split; [apply (readable_sub m _ _ _ _ Hr); lia|].
  intros k Hk. rewrite <- Z.add_assoc, Hb, nthb_app by lia. zcases. f_equal. lia.
Qed.

End WriterSpec.

(** ** Properties *)

(** C29: Writing any sequence of bit fields, bits and variable-length integers and
    reading fields of the same shapes from the start of the vector gives the
    same values; the reader stops exactly where the writer did, and the vector's
    growth leaves other objects alone. *)
Theorem bit_stream_roundtrip allocate live (Halloc : Allocator allocate live) m data fs
  (Hp : paged m) (Hdata : 0 <= data < 2 ^ 63) (Hfs : Forall field_ok fs) (Hlen : zlength fs < 2 ^ 50) :
  exists w0 m' w' rd',
    BitMemoryWriter_create (mkVector data 0) 0 = Some w0 /\ write_fields allocate m w0 fs = Some (m', w') /\
    read_fields m' (BitMemoryReader_create (Writer_data w') 0) fs = Some (fs, rd') /\
    NumberOfReadBits rd' = NumberOfWrittenBits w' /\ keeps live m m'.
Proof.
  set (w0 := mkBitMemoryWriter (mkVector data 0) 0 0).
  assert (Hw0 : written live 0 m w0 []).
  { split; [|done|done|simpl; lia]. split; [done|cbn; lia|intros i Hi; cbn in Hi; lia|intros x Hx; cbn in Hx; lia|intros k Hk; cbn in Hk; lia]. }
  destruct (write_fields_spec allocate live 0 m w0 [] fs Hw0 Hfs) as (m' & w' & E & Hw' & Hk); [simpl; lia|].
  pose proof Hw' as [Hv Hsz Hoff [Hst _]]. pose proof Hv as [Hp' Hrg _ _ _].
  pose proof (BitMemoryReader_create_spec (Writer_data w') 0) as Hrd. rewrite !Z.add_0_r in Hrd. unfold Writer_data in *.
  pose proof (written_bits_at live 0 m' w' [] _ Hw') as Hb. simpl length in Hb. rewrite Z.add_0_r in Hb.
  destruct (read_fields_spec m' _ _ _ fs Hp' (Hrd ltac:(lia)) Hfs Hb) as (rd' & E' & Hrd'); [lia|].
  exists w0, m', w', rd'. split; [done|]. split; [done|]. split; [done|]. split; [|done].
  destruct Hrd' as [_ _ Hpos _ _]. unfold NumberOfReadBits, NumberOfWrittenBits. rewrite Hoff, Hst. simpl app. lia.
Qed.

(** An allocator that always hands out the block at 5000 of a memory that is
    accessible everywhere. *)
Definition fixed_allocate (m : memory) (n : Z) : memory * Z := (fun x => Some (default 0 (m x)), 5000).

#[global] Instance fixed_allocator : Allocator fixed_allocate (fun x => x < 4096).
Proof.
  split; intros; cbn [fixed_allocate fst snd] in *.
  - intros a b _ _. eauto.
  - by rewrite H.
  - lia.
  - split; [eauto|lia].
Qed.

Lemma bit_stream_roundtrip_witness :
  let fs := [FVarints [1; 15; 12; 7; 11; 256]; FBits 0x1ffff 17; FBit true; FVarint 70000; FBits 0 0] in
  exists w0 m' w' rd',
    BitMemoryWriter_create (mkVector 4096 0) 0 = Some w0 /\ write_fields fixed_allocate small_memory w0 fs = Some (m', w') /\
    read_fields m' (BitMemoryReader_create (Writer_data w') 0) fs = Some (fs, rd') /\
    NumberOfReadBits rd' = NumberOfWrittenBits w' /\ keeps (fun x => x < 4096) small_memory m'.
Proof.
  apply (bit_stream_roundtrip fixed_allocate (fun x => x < 4096) fixed_allocator small_memory 4096);
    [apply small_memory_paged|lia| |simpl; lia].
  repeat (apply Forall_cons_2 || apply Forall_nil_2); cbn; unfold is_u; try lia; try done.
  split; [|lia]. repeat (apply Forall_cons_2 || apply Forall_nil_2); lia.
Defined.
