(* ===== verification/BitTable.v ===== *)
(** * Bit tables

    Tables of 32-bit values packed at bit level, with a header of column widths:
    reading (BitTableBase), building with deduplication (BitTableBuilderBase) and
    tables of bitmaps (BitmapTableBuilder) of libartbase/base/bit_table.h. *)

From Stdlib Require Import ZArith Lia Bool List Permutation.
From stdpp Require Import base numbers list option.
From S2P Require Import Prelude BitUtils BitMemory BitStream.

Open Scope Z_scope.
Open Scope art_scope.

Definition kNoValue : Z := 2 ^ 32 - 1.
Definition kValueBias : Z := kNoValue.

(** [FNVHash] of a sequence of bytes (stl_util.h). *)
Definition FNVHash (bytes : list Z) : Z :=
  fold_left (fun hash value => u32 (Z.lxor hash value * 16777619)) bytes 2166136261.

(** ** Reading a table of [N] columns *)

Record BitTableBase := mkBitTable {
  table_data_ : BitMemoryRegion;
  num_rows_ : Z;
  column_offset_ : list Z
}.

(** The loop that sums the column widths; the sums are 16-bit. *)
Fixpoint column_ends (offset : Z) (widths : list Z) : option (list Z) :=
  match widths with
  | [] => Some [offset]
  | width :: widths =>
      let column_end := offset + width in
      DCHECK (column_end <? 2 ^ 16);
      rest ← column_ends column_end widths;
      Some (offset :: rest)
  end.

Definition NumRows (t : BitTableBase) : Z := num_rows_ t.

Definition NumRowBits (N : nat) (t : BitTableBase) : option Z := aread (column_offset_ t) (Z.of_nat N).

Definition NumColumnBits (t : BitTableBase) (column : Z) : option Z :=
  e ← aread (column_offset_ t) (column + 1); s ← aread (column_offset_ t) column; Some (u32 (e - s)).

Definition DataBitSize (t : BitTableBase) : Z := size_in_bits (table_data_ t).

Definition Decode (N : nat) (m : memory) (rd : BitMemoryReader) : option (BitTableBase * BitMemoryReader) :=
  '(header, rd) ← ReadInterleavedVarints (1 + N) m rd;
  num_rows ← aread header 0;
  offsets ← column_ends 0 (drop 1 header);
  row_bits ← aread offsets (Z.of_nat N);
  '(data, rd) ← ReadRegion rd (u32 (num_rows * row_bits));
  Some (mkBitTable data num_rows offsets, rd).

(** The place of a cell. *)
Definition cell_offset (N : nat) (t : BitTableBase) (row column : Z) : option Z :=
  DCHECK (IsValid (table_data_ t));
  DCHECK (row <? num_rows_ t);
  DCHECK (column <? Z.of_nat N);
  row_bits ← NumRowBits N t;
  offset ← aread (column_offset_ t) column;
  Some (u32 (u32 (row * row_bits) + offset)).

Definition Get (N : nat) (m : memory) (t : BitTableBase) (row column : Z) : option Z :=
  offset ← cell_offset N t row column;
  width ← NumColumnBits t column;
  v ← LoadBits 64 m (table_data_ t) offset width;
  Some (u32 (v + kValueBias)).

Definition GetBitMemoryRegion (N : nat) (t : BitTableBase) (row column : Z) : option BitMemoryRegion :=
  offset ← cell_offset N t row column;
  width ← NumColumnBits t column;
  Subregion (table_data_ t) offset width.

Definition Table_Equals (N : nat) (m : memory) (t other : BitTableBase) : option bool :=
  if negb (num_rows_ t =? num_rows_ other) then Some false
  else if negb (bool_decide (take N (column_offset_ t) = take N (column_offset_ other))) then Some false
  else Region_Equals m (table_data_ t) (table_data_ other).

(** ** Building a table *)

Definition Entry : Type := list Z.

Definition Entry_default (N : nat) : Entry := replicate N kNoValue.

Definition Entry_create (N : nat) (values : list Z) : option Entry :=
  DCHECK (zlength values =? Z.of_nat N); Some values.

Definition entry_bytes (e : Entry) : list Z :=
  flat_map (fun v => [Z.land v 255; Z.land (Z.shiftr v 8) 255; Z.land (Z.shiftr v 16) 255; Z.land (Z.shiftr v 24) 255]) e.

Record BitTableBuilderBase := mkBuilder { rows_ : list Entry; dedup_ : list (Z * Z) }.

Definition Builder_create : BitTableBuilderBase := mkBuilder [] [].

Definition Builder_size (b : BitTableBuilderBase) : Z := zlength (rows_ b).

Definition Add (b : BitTableBuilderBase) (value : Entry) : BitTableBuilderBase :=
  mkBuilder (rows_ b ++ [value]) (dedup_ b).

Section Dedup.

(** The entries of the unordered multimap with a given key, in an order the
    library does not specify. *)
Context (equal_range : list (Z * Z) -> Z -> list Z).

Definition rows_match (rows values : list Entry) (index : Z) : bool :=
  (zlength values <=? zlength rows - index) &&
  bool_decide (take (length values) (drop (Z.to_nat index) rows) = values).

Definition Dedup (b : BitTableBuilderBase) (values : list Entry) : BitTableBuilderBase * Z :=
  let hash := FNVHash (flat_map entry_bytes values) in
  match List.find (rows_match (rows_ b) values) (equal_range (dedup_ b) hash) with
  | Some index => (b, index)
  | None =>
      let index := u32 (Builder_size b) in
      (mkBuilder (rows_ b ++ values) (dedup_ b ++ [(hash, index)]), index)
  end.

End Dedup.

(** [max_column_value[c] |= rows_[r][c] - kValueBias] for all rows and columns. *)
Definition max_column_value (N : nat) (rows : list Entry) : list Z :=
  fold_left (fun acc row => zip_with (fun a v => Z.lor a (u32 (v - kValueBias))) acc row) rows (replicate N 0).

Definition Measure (N : nat) (b : BitTableBuilderBase) : list Z :=
  map (MinimumBitsToStore 32) (max_column_value N (rows_ b)).

Section Encode.

Context (allocate : memory -> Z -> memory * Z).

Fixpoint write_row (m : memory) (w : BitMemoryWriter) (column_bits : list Z) (row : Entry) : option (memory * BitMemoryWriter) :=
  match column_bits, row with
  | n :: column_bits, v :: row => '(m, w) ← WriteBits allocate m w (u32 (v - kValueBias)) n; write_row m w column_bits row
  | _, _ => Some (m, w)
  end.

Fixpoint write_rows (m : memory) (w : BitMemoryWriter) (column_bits : list Z) (rows : list Entry) : option (memory * BitMemoryWriter) :=
  match rows with
  | [] => Some (m, w)
  | row :: rows => '(m, w) ← write_row m w column_bits row; write_rows m w column_bits rows
  end.

(** The check of debug builds: the table decodes to what was encoded. *)
Definition verify_encoding (N : nat) (m : memory) (w : BitMemoryWriter) (initial_bit_offset : Z) (b : BitTableBuilderBase) (column_bits : list Z) : option unit :=
  region ← Subregion_from (GetWrittenRegion w) initial_bit_offset;
  rd ← BitMemoryReader_of region;
  '(table, _) ← Decode N m rd;
  DCHECK (Builder_size b =? NumRows table);
  _ ← for_loop N 0 (fun c _ => n ← aread column_bits c; n' ← NumColumnBits table c; dcheck (n =? n')) tt;
  for_loop (length (rows_ b)) 0
    (fun r _ => for_loop N 0
       (fun c _ => row ← aread (rows_ b) r; v ← aread row c; v' ← Get N m table r c; dcheck (v =? v')) tt) tt.

Definition Builder_Encode (N : nat) (m : memory) (w : BitMemoryWriter) (b : BitTableBuilderBase) : option (memory * BitMemoryWriter) :=
  let initial_bit_offset := NumberOfWrittenBits w in
  let column_bits := Measure N b in
  '(m, w) ← WriteInterleavedVarints allocate m w (u32 (Builder_size b) :: column_bits);
  '(m, w) ← write_rows m w column_bits (rows_ b);
  _ ← verify_encoding N m w initial_bit_offset b column_bits;
  Some (m, w).

(** ** Tables of bitmaps *)

Record BitmapTableBuilder := mkBitmapBuilder {
  bitmap_rows_ : list MemoryRegion;
  bitmap_dedup_ : list (Z * Z);
  max_num_bits_ : Z
}.

Definition BitmapBuilder_create : BitmapTableBuilder := mkBitmapBuilder [] [] 0.

Definition BitmapBuilder_size (b : BitmapTableBuilder) : Z := zlength (bitmap_rows_ b).

(** The bytes of a region. *)
Fixpoint read_bytes (n : nat) (m : memory) (a : Z) : option (list Z) :=
  match n with
  | O => Some []
  | S n' => x ← m a; r ← read_bytes n' m (a + 1); Some (u8 x :: r)
  end.

Definition ContentEquals (m : memory) (lhs rhs : MemoryRegion) : option bool :=
  if negb (size_ lhs =? size_ rhs) then Some false
  else l ← read_bytes (Z.to_nat (size_ lhs)) m (pointer_ lhs); r ← read_bytes (Z.to_nat (size_ lhs)) m (pointer_ rhs);
       Some (bool_decide (l = r)).

Context (arena_alloc : memory -> Z -> memory * Z) (equal_range : list (Z * Z) -> Z -> list Z).

Fixpoint find_bitmap (m : memory) (rows : list MemoryRegion) (region : MemoryRegion) (candidates : list Z) : option (option Z) :=
  match candidates with
  | [] => Some None
  | i :: candidates =>
      row ← aread rows i; eq ← ContentEquals m region row;
      if (eq : bool) then Some (Some i) else find_bitmap m rows region candidates
  end.

Definition Bitmap_Dedup (m : memory) (b : BitmapTableBuilder) (bitmap num_bits : Z) : option (memory * BitmapTableBuilder * Z) :=
  let region := mkMemoryRegion bitmap (BitsToBytesRoundUp num_bits) in
  last ← (if num_bits =? 0 then Some true else LoadBit m (BitMemoryRegion_of region) (num_bits - 1));
  DCHECK last;
  padding ← LoadBits 64 m (BitMemoryRegion_of region) num_bits (size_in_bytes_bits region - num_bits);
  DCHECK (padding =? 0);
  bytes ← read_bytes (Z.to_nat (size_ region)) m (pointer_ region);
  let hash := FNVHash bytes in
  found ← find_bitmap m (bitmap_rows_ b) region (equal_range (bitmap_dedup_ b) hash);
  match found with
  | Some i => Some (m, b, i)
  | None =>
      let index := u32 (BitmapBuilder_size b) in
      let '(m, copy) := arena_alloc m (size_ region) in
      m ← move_bytes (Z.to_nat (size_ region)) m m (pointer_ region) copy;
      Some (m, mkBitmapBuilder (bitmap_rows_ b ++ [mkMemoryRegion copy (size_ region)])
                 (bitmap_dedup_ b ++ [(hash, index)]) (Z.max (max_num_bits_ b) num_bits), index)
  end.

Fixpoint write_bitmaps (m : memory) (w : BitMemoryWriter) (max_num_bits : Z) (rows : list MemoryRegion) : option (memory * BitMemoryWriter) :=
  match rows with
  | [] => Some (m, w)
  | row :: rows =>
      let bits_to_copy := Z.min max_num_bits (size_in_bytes_bits row) in
      src ← BitMemoryRegion_sub row 0 bits_to_copy;
      '(m, w, dst) ← Allocate allocate m w max_num_bits;
      dst ← Subregion dst 0 bits_to_copy;
      m ← CopyBits m dst src;
      write_bitmaps m w max_num_bits rows
  end.

(** The bits of a row and of its cell agree, both extended with zeros. *)
Definition verify_bitmap (m : memory) (table : BitTableBase) (row : MemoryRegion) (r : Z) : option unit :=
  let expected := BitMemoryRegion_of row in
  seen ← GetBitMemoryRegion 1 table r 0;
  for_loop (Z.to_nat (Z.max (size_in_bits expected) (size_in_bits seen))) 0
    (fun bit _ =>
       e ← (if bit <? size_in_bits expected then LoadBit m expected bit else Some false);
       s ← (if bit <? size_in_bits seen then LoadBit m seen bit else Some false);
       dcheck (Bool.eqb e s)) tt.

Definition Bitmap_Encode (m : memory) (w : BitMemoryWriter) (b : BitmapTableBuilder) : option (memory * BitMemoryWriter) :=
  let initial_bit_offset := NumberOfWrittenBits w in
  DCHECK (BitmapBuilder_size b <? 2 ^ 32);
  DCHECK (max_num_bits_ b <? 2 ^ 32);
  '(m, w) ← WriteInterleavedVarints allocate m w [BitmapBuilder_size b; max_num_bits_ b];
  '(m, w) ← write_bitmaps m w (max_num_bits_ b) (bitmap_rows_ b);
  region ← Subregion_from (GetWrittenRegion w) initial_bit_offset;
  rd ← BitMemoryReader_of region;
  '(table, _) ← Decode 1 m rd;
  DCHECK (BitmapBuilder_size b =? NumRows table);
  n ← NumColumnBits table 0;
  DCHECK (max_num_bits_ b =? n);
  _ ← for_loop (length (bitmap_rows_ b)) 0 (fun r _ => row ← aread (bitmap_rows_ b) r; verify_bitmap m table row r) tt;
  Some (m, w).

End Encode.

(** ** The bits of a table *)

#[local] Ltac Zify.zify_post_hook ::= Z.to_euclidean_division_equations.

Definition sumz (l : list Z) : Z := fold_right Z.add 0 l.

(** The stored form of a value. *)
Definition cell (v : Z) : Z := u32 (v - kValueBias).

Definition row_bits (widths : list Z) (row : Entry) : list bool := concat (zip_with (fun n v => zbits (cell v) n) widths row).

Definition data_bits (widths : list Z) (rows : list Entry) : list bool := concat (map (row_bits widths) rows).

(** The widths hold the values of the row. *)
Definition fits (widths : list Z) (row : Entry) : Prop := Forall2 (fun n v => 0 <= n <= 32 /\ is_u n (cell v) /\ is_u 32 v) widths row.

Lemma cell_inverse v : is_u 32 v -> u32 (cell v + kValueBias) = v.
Proof.
  intros Hv. unfold cell, wrap. rewrite Zplus_mod_idemp_l. replace (v - kValueBias + kValueBias) with v by lia. by apply Z.mod_small.
Qed.

Lemma row_bits_length widths row : fits widths row -> zlength (row_bits widths row) = sumz widths.
Proof.
  induction 1 as [|n v widths row [Hn _] _ IH]; [done|]. unfold row_bits in *. cbn [zip_with concat sumz fold_right].
  rewrite length_app, Nat2Z.inj_add, IH, zbits_length by lia. done.
Qed.

Lemma data_bits_length widths rows : Forall (fits widths) rows -> zlength (data_bits widths rows) = zlength rows * sumz widths.
Proof.
  induction 1 as [|row rows Hr _ IH]; [done|]. unfold data_bits in *. cbn [map concat length].
  rewrite length_app, Nat2Z.inj_add, IH, row_bits_length by done. lia.
Qed.

Lemma sumz_app a b : sumz (a ++ b) = sumz a + sumz b.
Proof. induction a as [|x a IH]; simpl; [done|]. unfold sumz in *. lia. Qed.

Lemma sumz_nonneg l : Forall (fun n => 0 <= n <= 32) l -> 0 <= sumz l <= 32 * zlength l.
Proof. induction 1 as [|n l Hn _ IH]; simpl; lia. Qed.

Lemma fits_widths widths row : fits widths row -> Forall (fun n => 0 <= n <= 32) widths.
Proof. induction 1 as [|n v widths row [Hn _] _ IH]; constructor; done. Qed.

Lemma row_at m a widths rows r row :
  Forall (fits widths) rows -> bits_at m a (data_bits widths rows) -> rows !! r = Some row ->
  bits_at m (a + Z.of_nat r * sumz widths) (row_bits widths row).
Proof.
  intros Hf Hb Hr. rewrite <- (take_drop_middle rows r row Hr) in Hb. unfold data_bits in Hb.
  rewrite map_app, concat_app in Hb. cbn [map concat] in Hb. rewrite !bits_at_app in Hb. destruct Hb as (_ & Hb & _).
  fold (data_bits widths (take r rows)) in Hb. rewrite data_bits_length in Hb by (by apply Forall_take).
  apply lookup_lt_Some in Hr. by rewrite length_take, Nat.min_l in Hb by lia.
Qed.

Lemma column_at m a widths row c n v :
  fits widths row -> bits_at m a (row_bits widths row) -> widths !! c = Some n -> row !! c = Some v ->
  bits_at m (a + sumz (take c widths)) (zbits (cell v) n) /\ 0 <= n <= 32 /\ is_u n (cell v) /\ is_u 32 v.
Proof.
  intros Hf. revert a c. induction Hf as [|n' v' widths row (Hn & Hu & Hv) _ IH]; intros a c Hb Hc Hr; [done|].
  unfold row_bits in Hb. cbn [zip_with concat] in Hb. rewrite bits_at_app, zbits_length in Hb by lia. destruct Hb as [Hb1 Hb2].
  destruct c as [|c]; simpl in Hc, Hr.
  - injection Hc as ->. injection Hr as ->. cbn [take sumz fold_right]. by rewrite Z.add_0_r.
  - destruct (IH (a + n') c Hb2 Hc Hr) as [H1 H2]. split; [|done]. cbn [take]. unfold sumz in *. cbn [fold_right]. by rewrite Z.add_assoc.
Qed.

(** ** Decoding *)

Fixpoint scan (offset : Z) (widths : list Z) : list Z :=
  match widths with [] => [offset] | width :: widths => offset :: scan (offset + width) widths end.

Lemma sumz_pos l : Forall (fun n => 0 <= n) l -> 0 <= sumz l.
Proof. induction 1 as [|n l Hn _ IH]; simpl; [done|]. unfold sumz in *. lia. Qed.

Lemma column_ends_spec offset widths :
  0 <= offset -> Forall (fun n => 0 <= n) widths -> offset + sumz widths < 2 ^ 16 ->
  column_ends offset widths = Some (scan offset widths).
Proof.
  intros Ho Hw. revert offset Ho. induction Hw as [|n widths Hn Hw IH]; intros offset Ho Hs; [done|]. cbn [column_ends scan].
  unfold sumz in *. cbn [fold_right] in Hs. pose proof (sumz_pos widths Hw). unfold sumz in *.
  rewrite (proj2 (Z.ltb_lt _ _)) by lia. cbn [dcheck mbind option_bind]. rewrite IH by lia. done.
Qed.

Lemma scan_lookup offset widths c : (c <= length widths)%nat -> scan offset widths !! c = Some (offset + sumz (take c widths)).
Proof.
  revert offset c. induction widths as [|n widths IH]; intros offset c Hc; cbn [scan].
  - destruct c; [|simpl in Hc; lia]. simpl. f_equal. lia.
  - destruct c as [|c]; cbn [take]; [simpl; f_equal; lia|]. simpl lookup. rewrite IH by (simpl in Hc; lia).
    unfold sumz. cbn [fold_right]. f_equal. lia.
Qed.

(** The decoded table [t] has [R] rows and columns of the given widths. *)
Record decoded (t : BitTableBase) (R : Z) (widths : list Z) : Prop := {
  dc_rows : num_rows_ t = R;
  dc_offsets : column_offset_ t = scan 0 widths;
  dc_region : region_ok (table_data_ t);
  dc_valid : IsValid (table_data_ t) = true;
  dc_size : size_in_bits (table_data_ t) = R * sumz widths
}.

(** The sizes a table can have: columns are addressed with 16-bit offsets in
    their row, rows with 32-bit offsets in the table. *)
Record header_ok (N : nat) (R : Z) (widths : list Z) : Prop := {
  ho_columns : length widths = N /\ (N <= 15)%nat;
  ho_widths : Forall (fun n => 0 <= n) widths;
  ho_rows : 0 <= R < 2 ^ 32;
  ho_sum : sumz widths < 2 ^ 16;
  ho_data : R * sumz widths < 2 ^ 32
}.

Lemma sumz_In n widths : Forall (fun n => 0 <= n) widths -> In n widths -> n <= sumz widths.
Proof.
  induction 1 as [|x widths Hx Hw IH]; simpl; [done|]. pose proof (sumz_pos widths Hw). unfold sumz in *.
  intros [->|Hin]; [lia|]. specialize (IH Hin). lia.
Qed.

Lemma header_values N R widths : header_ok N R widths -> Forall (is_u 32) (R :: widths) /\ (length (R :: widths) <= 16)%nat /\ length (R :: widths) = (1 + N)%nat.
Proof.
  intros [[HN H15] Hw HR Hs _]. cbn [length]. split; [|lia]. constructor; [done|]. rewrite List.Forall_forall. intros n Hn.
  pose proof (sumz_In n widths Hw Hn). rewrite List.Forall_forall in Hw. specialize (Hw n Hn). unfold is_u. cbv beta in Hw. lia.
Qed.

Lemma Decode_gen N m rd c0 c R widths data :
  header_ok N R widths -> zlength data = R * sumz widths -> paged m -> reader_at rd c0 c -> 8 * 4096 <= c0 ->
  bits_at m c (varints_bits (R :: widths) ++ data) -> c - c0 < 2 ^ 61 ->
  exists t rd', Decode N m rd = Some (t, rd') /\ decoded t R widths /\ bits_at m (base (table_data_ t)) data /\
    reader_at rd' c0 (c + zlength (varints_bits (R :: widths) ++ data)).
Proof.
  intros Hok Hdl Hp Hrd Hc0 Hb Hlim. destruct (header_values N R widths Hok) as (Hvs & H16 & HN). pose proof Hok as [[HNw _] Hw HR Hsum Hd].
  rewrite bits_at_app in Hb. destruct Hb as [Hh Hdata]. unfold Decode. rewrite <- HN. pose proof (sumz_pos widths Hw).
  destruct (ReadInterleavedVarints_spec m rd c0 c (R :: widths)) as (rd1 & -> & Hrd1); try done. cbn [mbind option_bind].
  change (aread (R :: widths) 0) with (Some R). change (drop 1 (R :: widths)) with widths. cbn [mbind option_bind].
  rewrite column_ends_spec by (done || lia). cbn [mbind option_bind].
  rewrite aread_lookup, Nat2Z.id, <- HNw, scan_lookup, firstn_all, Z.add_0_l by lia. cbn [mbind option_bind].
  rewrite wrap_id by (unfold is_u; lia). pose proof (varints_bits_length (R :: widths) Hvs).
  destruct (ReadRegion_spec rd1 c0 _ (R * sumz widths) Hrd1) as (r & rd2 & -> & Hrok & Hbase & Hsz & Hrd2 & Hdat); [lia|lia|].
  cbn [mbind option_bind]. do 2 eexists. split; [done|]. rewrite length_app, Nat2Z.inj_add, Hdl, Z.add_assoc. split; [|split; [|done]].
  - split; cbn [num_rows_ column_offset_ table_data_]; try done. unfold IsValid. rewrite Hdat. by apply (ra_valid _ _ _ Hrd1).
  - cbn [table_data_]. by rewrite Hbase.
Qed.

Lemma NumColumnBits_gen N t R widths c n :
  header_ok N R widths -> decoded t R widths -> widths !! c = Some n -> NumColumnBits t (Z.of_nat c) = Some n.
Proof.
  intros [[HN _] Hw HR Hsum Hd] [Hr Ho Hreg Hv Hsz] Hcol. apply lookup_lt_Some in Hcol as Hcl.
  assert (0 <= n <= sumz widths).
  { split; [rewrite Forall_lookup in Hw; eauto|]. apply sumz_In; [done|]. apply list_elem_of_In. by apply list_elem_of_lookup_2 in Hcol. }
  unfold NumColumnBits. rewrite Ho, !aread_lookup by lia. replace (Z.to_nat (Z.of_nat c + 1)) with (S c) by lia. rewrite Nat2Z.id.
  rewrite !scan_lookup by lia. cbn [mbind option_bind]. rewrite (take_S_r _ _ n Hcol), sumz_app. unfold sumz at 2. cbn [fold_right].
  f_equal. replace (0 + (sumz (take c widths) + (n + 0)) - (0 + sumz (take c widths))) with n by lia. apply wrap_id. unfold is_u. lia.
Qed.

Lemma cell_offset_gen N t R widths r c n :
  header_ok N R widths -> decoded t R widths -> 0 <= r < R -> widths !! c = Some n ->
  cell_offset N t r (Z.of_nat c) = Some (r * sumz widths + sumz (take c widths)) /\
  NumColumnBits t (Z.of_nat c) = Some n /\ 0 <= n < 2 ^ 16 /\ 0 <= r * sumz widths + sumz (take c widths) /\
  r * sumz widths + sumz (take c widths) + n <= R * sumz widths.
Proof.
  intros Hok Hdec Hrow Hcol. pose proof Hok as [[HN _] Hw HR Hsum Hd]. pose proof Hdec as [Hr Ho Hreg Hv Hsz]. apply lookup_lt_Some in Hcol as Hcl.
  assert (Hn : 0 <= n) by (rewrite Forall_lookup in Hw; eauto).
  assert (Hsplit : sumz widths = sumz (take c widths) + n + sumz (drop (S c) widths)).
  { rewrite <- (take_drop_middle widths c n Hcol) at 1. rewrite sumz_app. unfold sumz. cbn [fold_right]. lia. }
  pose proof (sumz_pos (take c widths) (Forall_take _ _ _ Hw)). pose proof (sumz_pos (drop (S c) widths) (Forall_drop _ _ _ Hw)).
  assert (r * sumz widths + sumz widths <= R * sumz widths) by nia.
  split; [|split; [|split; [lia|split; nia]]].
  - unfold cell_offset, NumRowBits. rewrite Hv, Hr, (proj2 (Z.ltb_lt _ _)), (proj2 (Z.ltb_lt _ _)) by lia. cbn [dcheck mbind option_bind].
    rewrite Ho, !aread_lookup, !Nat2Z.id, <- HN, (scan_lookup 0 widths (length widths)), firstn_all by lia. cbn [mbind option_bind].
    rewrite scan_lookup by lia. cbn [mbind option_bind]. rewrite !Z.add_0_l. rewrite (wrap_id 32 (r * _)) by (unfold is_u; nia).
    rewrite wrap_id by (unfold is_u; nia). done.
  - by apply (NumColumnBits_gen N t R widths).
Qed.

Definition holds_table (m : memory) (t : BitTableBase) (widths : list Z) (rows : list Entry) : Prop :=
  decoded t (zlength rows) widths /\ bits_at m (base (table_data_ t)) (data_bits widths rows).

Definition table_bits (widths : list Z) (rows : list Entry) : list bool :=
  varints_bits (zlength rows :: widths) ++ data_bits widths rows.

Record table_ok (N : nat) (widths : list Z) (rows : list Entry) : Prop := {
  to_columns : length widths = N /\ (N <= 15)%nat;
  to_widths : Forall (fun n => 0 <= n <= 32) widths;
  to_fits : Forall (fits widths) rows;
  to_rows : zlength rows < 2 ^ 32;
  to_data : zlength rows * sumz widths < 2 ^ 32
}.

Lemma table_header N widths rows : table_ok N widths rows -> header_ok N (zlength rows) widths.
Proof.
  intros [Hc Hw _ Hr Hd]. pose proof (sumz_nonneg widths Hw). split; try done; try lia. eapply List.Forall_impl; [|exact Hw]. intros n. cbv beta. lia.
Qed.

Lemma Decode_spec N m rd c0 c widths rows :
  table_ok N widths rows -> paged m -> reader_at rd c0 c -> 8 * 4096 <= c0 -> bits_at m c (table_bits widths rows) -> c - c0 < 2 ^ 61 ->
  exists t rd', Decode N m rd = Some (t, rd') /\ holds_table m t widths rows /\ reader_at rd' c0 (c + zlength (table_bits widths rows)).
Proof.
  intros Hok Hp Hrd Hc0 Hb Hlim.
  destruct (Decode_gen N m rd c0 c (zlength rows) widths (data_bits widths rows)) as (t & rd' & E & Hd & Hbits & Hrd'); try done.
  - by apply table_header.
  - apply data_bits_length, Hok.
  - exists t, rd'. done.
Qed.

Lemma Get_spec N m t widths rows r c row v :
  table_ok N widths rows -> holds_table m t widths rows -> paged m -> rows !! r = Some row -> row !! c = Some v ->
  Get N m t (Z.of_nat r) (Z.of_nat c) = Some v.
Proof.
  intros Hok Ht Hp Hrow Hv. pose proof Hok as [_ _ Hf _ _].
  assert (Hfr : fits widths row) by (rewrite Forall_lookup in Hf; eauto).
  destruct (lookup_lt_is_Some_2 widths c) as [n Hcol]; [rewrite (Forall2_length Hfr); by apply lookup_lt_Some in Hv|].
  destruct Ht as [Hdec Hbits].
  destruct (cell_offset_gen N t (zlength rows) widths (Z.of_nat r) c n (table_header _ _ _ Hok) Hdec) as (Ho & Hn & Hnr & Hpos & Hend);
    [apply lookup_lt_Some in Hrow; lia|done|].
  unfold Get. rewrite Ho. cbn [mbind option_bind]. rewrite Hn. cbn [mbind option_bind].
  pose proof (row_at m _ widths rows r row Hf Hbits Hrow) as Hrb.
  destruct (column_at m _ widths row c n v Hfr Hrb Hcol Hv) as (Hb & Hn32 & Hu & Hv32).
  rewrite LoadBits_spec; try done.
  - cbn [mbind option_bind]. rewrite Z.add_assoc, (loaded_bits_at m _ (cell v) n) by (done || lia). by rewrite cell_inverse.
  - by right; right; right.
  - apply Hdec.
  - lia.
  - pose proof (dc_size _ _ _ Hdec) as Hs. unfold size_in_bits in Hs. lia.
  - rewrite Z.add_assoc. destruct Hb as [Hr _]. by rewrite zbits_length in Hr by lia.
Qed.

(** ** Column widths *)

Definition le_bits (a b : Z) : Prop := forall i, Z.testbit a i = true -> Z.testbit b i = true.

Lemma le_bits_is_u a b n : 0 <= n -> 0 <= a -> le_bits a b -> is_u n b -> is_u n a.
Proof.
  intros Hn Ha Hle Hb. apply is_u_bits; try done. intros i Hi. apply not_true_is_false. intros H%Hle.
  by rewrite (testbit_high n b) in H by (done || lia).
Qed.

Lemma Forall2_compose {A B C} (P : A -> B -> Prop) (Q : B -> C -> Prop) (R : A -> C -> Prop) xs ys zs :
  Forall2 P xs ys -> Forall2 Q ys zs -> (forall x y z, P x y -> Q y z -> R x z) -> Forall2 R xs zs.
Proof.
  intros HP. revert zs. induction HP as [|x y xs ys Hxy _ IH]; intros zs HQ HR; inversion HQ; subst; constructor; eauto.
Qed.

Definition row_ok (N : nat) (row : Entry) : Prop := length row = N /\ Forall (is_u 32) row.

Lemma max_step acc row :
  Forall (is_u 32) acc -> length row = length acc ->
  let acc' := zip_with (fun a v => Z.lor a (u32 (v - kValueBias))) acc row in
  length acc' = length acc /\ Forall (is_u 32) acc' /\ Forall2 le_bits acc acc' /\ Forall2 (fun a v => le_bits (cell v) a) acc' row.
Proof.
  intros Ha. revert row. induction Ha as [|a acc Ha _ IH]; intros [|v row] Hl; simpl in Hl; try lia; cbn [zip_with length]; [by repeat constructor|].
  destruct (IH row ltac:(lia)) as (H1 & H2 & H3 & H4). split; [by rewrite H1|].
  split; [constructor; [apply is_u_lor; [done|apply wrap_is_u; lia]|done]|].
  split; constructor; try done; intros i Hi; rewrite Z.lor_spec; unfold cell in *; rewrite Hi; [done|by rewrite orb_true_r].
Qed.

Lemma max_fold rows : forall acc, Forall (is_u 32) acc -> Forall (row_ok (length acc)) rows ->
  let res := fold_left (fun acc row => zip_with (fun a v => Z.lor a (u32 (v - kValueBias))) acc row) rows acc in
  length res = length acc /\ Forall (is_u 32) res /\ Forall2 le_bits acc res /\ Forall (fun row => Forall2 (fun a v => le_bits (cell v) a) res row) rows.
Proof.
  induction rows as [|row rows IH]; intros acc Ha Hr; cbn [fold_left].
  - split; [done|]. split; [done|]. split; [|constructor]. apply Forall_Forall2_diag, Forall_true. by intros x i.
  - apply Forall_cons_1 in Hr as [[Hl _] Hr]. destruct (max_step acc row Ha Hl) as (H1 & H2 & H3 & H4).
    destruct (IH _ H2) as (G1 & G2 & G3 & G4); [by rewrite H1|]. split; [congruence|]. split; [done|]. split.
    + apply (Forall2_compose le_bits le_bits _ _ _ _ H3 G3). intros x y z Hxy Hyz i Hi. auto.
    + constructor; [|done]. apply Forall2_flip in G3. apply (Forall2_compose _ _ _ _ _ _ G3 H4).
      intros x y z Hxy Hyz i Hi. apply Hxy, Hyz, Hi.
Qed.

Lemma Measure_fits N b :
  Forall (row_ok N) (rows_ b) -> length (Measure N b) = N /\ Forall (fun n => 0 <= n <= 32) (Measure N b) /\ Forall (fits (Measure N b)) (rows_ b).
Proof.
  intros Hr. unfold Measure, max_column_value.
  destruct (max_fold (rows_ b) (replicate N 0)) as (Hl & Hu & _ & Hrows).
  { apply Forall_replicate. unfold is_u. lia. } { by rewrite length_replicate. }
  set (res := fold_left _ _ _) in *. rewrite length_replicate in Hl. rewrite length_map.
  assert (Hmin : forall a, is_u 32 a -> 0 <= MinimumBitsToStore 32 a <= 32 /\ is_u (MinimumBitsToStore 32 a) a).
  { intros a Ha. destruct (MinimumBitsToStore_spec 32 a) as (H1 & H2 & H3); [by right|done|]. split; [|done]. split; [done|]. apply H3; [lia|done]. }
  split; [done|]. split; [apply Forall_fmap; eapply List.Forall_impl; [|exact Hu]; intros a Ha; by apply Hmin|].
  rewrite Forall_lookup in *. intros r row Hrow. specialize (Hrows r row Hrow). destruct (Hr r row Hrow) as [_ Hv].
  unfold fits. clear -Hmin Hrows Hv Hu. revert Hu Hv. induction Hrows as [|a v res row Hle _ IH]; intros Hu Hv; cbn [map]; [constructor|].
  apply Forall_cons_1 in Hv as [Hv0 Hv]. apply Forall_cons_1 in Hu as [Ha Hu]. destruct (Hmin a Ha) as [Hn Hna].
  constructor; [|by apply IH].
  split; [done|]. split; [|done]. apply (le_bits_is_u _ a); [lia|apply wrap_is_u; lia|done|done].
Qed.

(** ** Encoding *)

Section EncodeSpec.

Context (allocate : memory -> Z -> memory * Z) (live : Z -> Prop) {Halloc : Allocator allocate live} (bit_start : Z).

Abbreviation written := (written live bit_start).
Abbreviation keeps := (keeps live).

Lemma write_row_spec m w bs widths row :
  written m w bs -> fits widths row -> zlength bs + 32 * zlength widths < 2 ^ 61 ->
  exists m' w', write_row allocate m w widths row = Some (m', w') /\ written m' w' (bs ++ row_bits widths row) /\ keeps m m'.
Proof.
  intros Hw Hf. revert m w bs Hw. induction Hf as [|n v widths row (Hn & Hu & _) _ IH]; intros m w bs Hw Hb; cbn [write_row].
  - exists m, w. unfold row_bits. cbn [zip_with concat]. rewrite app_nil_r. split; [done|]. split; [done|apply live_refl].
  - cbn [length] in Hb. destruct (WriteBits_spec allocate live bit_start m w bs (cell v) n) as (m1 & w1 & E & Hw1 & Hk1); try done; try lia.
    unfold cell in E. rewrite E. cbn [mbind option_bind].
    destruct (IH m1 w1 _ Hw1) as (m2 & w2 & -> & Hw2 & Hk2); [rewrite length_app, Nat2Z.inj_add, zbits_length by lia; lia|].
    exists m2, w2. split; [done|]. rewrite <- app_assoc in Hw2. split; [done|by apply (live_trans live m m1)].
Qed.

Lemma write_rows_spec m w bs widths rows :
  written m w bs -> Forall (fits widths) rows -> zlength bs + 32 * zlength widths * (zlength rows + 1) < 2 ^ 61 ->
  exists m' w', write_rows allocate m w widths rows = Some (m', w') /\ written m' w' (bs ++ data_bits widths rows) /\ keeps m m'.
Proof.
  intros Hw Hf. revert m w bs Hw. induction Hf as [|row rows Hr _ IH]; intros m w bs Hw Hb; cbn [write_rows].
  - exists m, w. unfold data_bits. cbn [map concat]. rewrite app_nil_r. split; [done|]. split; [done|apply live_refl].
  - cbn [length] in Hb. destruct (write_row_spec m w bs widths row Hw Hr) as (m1 & w1 & -> & Hw1 & Hk1); [nia|]. cbn [mbind option_bind].
    pose proof (row_bits_length widths row Hr) as Hl. pose proof (sumz_nonneg widths (fits_widths _ _ Hr)).
    destruct (IH m1 w1 _ Hw1) as (m2 & w2 & -> & Hw2 & Hk2); [rewrite length_app; nia|].
    exists m2, w2. split; [done|]. rewrite <- app_assoc in Hw2. split; [done|by apply (live_trans live m m1)].
Qed.

(** The reader of the debug check starts where the table starts. *)
Lemma written_reader m w a b :
  written m w (a ++ b) -> bit_start <= zlength a -> 0 < zlength b -> zlength (a ++ b) < 2 ^ 61 ->
  exists region rd, Subregion_from (GetWrittenRegion w) (zlength a - bit_start) = Some region /\ BitMemoryReader_of region = Some rd /\
    reader_at rd (8 * vec_data (out_ w) + zlength a) (8 * vec_data (out_ w) + zlength a) /\ 8 * 4096 <= 8 * vec_data (out_ w) + zlength a.
Proof.
  intros [Hv Hsz Hoff [Hst Hst0]] Ha Hb Hlen. pose proof Hv as [_ Hrg _ _ _]. rewrite length_app in *. unfold GetWrittenRegion. rewrite Hoff, Hst.
  destruct (BitMemoryRegion_create_ok (vec_data (out_ w)) bit_start (zlength a + zlength b - bit_start)) as (Hok & Hba & Hs & Hsm); [lia|lia|].
  rewrite Nat2Z.inj_add. set (r := BitMemoryRegion_create _ _ _) in *.
  unfold Subregion_from. unfold size_in_bits in Hs. rewrite Hs, (proj2 (Z.leb_le _ _)) by lia. cbn [dcheck mbind option_bind].
  set (region := mkBitMemoryRegion _ _ _). pose proof Hok as [Hal Hrs _ Hbd].
  assert (Hreg : region_ok region /\ base region = 8 * vec_data (out_ w) + zlength a).
  { unfold region, base in *. rewrite wrap_id by (unfold is_u; lia). split; [split|]; cbn [region_data_ region_bit_start_ region_bit_size_]; lia. }
  destruct Hreg as [Hreg Hrb]. pose proof Hreg as [_ _ Hz _].
  destruct (Subregion_spec region 0 0 Hreg) as (fin & E & Hfin & Hfb & Hfs & Hfd); [lia|lia|lia|].
  exists region, (mkBitMemoryReader fin). split; [done|]. unfold BitMemoryReader_of. rewrite E. split; [done|]. split; [|lia].
  assert (Hrd : region_data_ region = region_data_ r) by done. unfold base in *.
  assert (region_bit_start_ fin < 2 ^ 62) by lia.
  split; cbn [finished_region_]; unfold base, size_in_bits in *; [done|lia|lia|done|]. intros _. apply negb_true_iff, Z.eqb_neq. lia.
Qed.

Lemma for_checks n (body : Z -> unit -> option unit) :
  (forall j, 0 <= j < Z.of_nat n -> body j tt = Some tt) -> for_loop n 0 body tt = Some tt.
Proof.
  intros H. destruct (for_loop_inv (fun _ _ => True) n 0 body tt) as ([] & E & _); [done| |done].
  intros j [] Hj _. exists tt. split; [|done]. apply H. lia.
Qed.

Lemma table_ok_builder N b :
  (N <= 15)%nat -> Forall (row_ok N) (rows_ b) -> zlength (rows_ b) < 2 ^ 32 ->
  zlength (rows_ b) * sumz (Measure N b) < 2 ^ 32 -> table_ok N (Measure N b) (rows_ b).
Proof. intros HN Hr Hl Hd. destruct (Measure_fits N b Hr) as (H1 & H2 & H3). by split. Qed.

Lemma verify_encoding_spec N m w bs b :
  table_ok N (Measure N b) (rows_ b) -> Forall (row_ok N) (rows_ b) ->
  written m w (bs ++ table_bits (Measure N b) (rows_ b)) -> bit_start <= zlength bs -> zlength (bs ++ table_bits (Measure N b) (rows_ b)) < 2 ^ 61 ->
  verify_encoding N m w (zlength bs - bit_start) b (Measure N b) = Some tt.
Proof.
  intros Hok Hrow Hw Hst Hlen. set (widths := Measure N b) in *. set (rows := rows_ b) in *.
  assert (Hpos : 0 < zlength (table_bits widths rows)).
  { unfold table_bits, varints_bits. rewrite !length_app, !Nat2Z.inj_add, heads_length. simpl length. lia. }
  destruct (written_reader m w bs (table_bits widths rows) Hw Hst Hpos Hlen) as (region & rd & E1 & E2 & Hrd & Hpage).
  unfold verify_encoding. rewrite E1. cbn [mbind option_bind]. rewrite E2. cbn [mbind option_bind].
  assert (Hp : paged m) by apply Hw.
  destruct (Decode_spec N m rd _ _ widths rows Hok Hp Hrd Hpage (written_bits_at live bit_start m w _ _ Hw)) as (t & rd' & -> & Ht & _); [lia|].
  cbn [mbind option_bind]. unfold Builder_size, NumRows. fold rows. rewrite (dc_rows _ _ _ (proj1 Ht)), Z.eqb_refl. cbn [dcheck mbind option_bind].
  pose proof Hok as [[HN _] _ Hf _ _]. rewrite (for_checks N); [cbn [mbind option_bind]|].
  - apply for_checks. intros r Hr. apply for_checks. intros c Hc. destruct (aread_some rows r) as [row Hrr]; [lia|]. rewrite Hrr. cbn [mbind option_bind].
    rewrite aread_lookup in Hrr by lia. rewrite Forall_lookup in Hrow. destruct (Hrow _ _ Hrr) as [Hlr _].
    destruct (aread_some row c) as [v Hv]; [lia|]. rewrite Hv. cbn [mbind option_bind]. rewrite aread_lookup in Hv by lia.
    pose proof (Get_spec N m t widths rows (Z.to_nat r) (Z.to_nat c) row v Hok Ht Hp Hrr Hv) as Hget. rewrite !Z2Nat.id in Hget by lia.
    rewrite Hget. cbn [mbind option_bind]. by rewrite Z.eqb_refl.
  - intros c Hc. destruct (aread_some widths c) as [n Hn]; [lia|]. rewrite Hn. cbn [mbind option_bind]. rewrite aread_lookup in Hn by lia.
    rewrite <- (Z2Nat.id c) by lia. rewrite (NumColumnBits_gen N t _ widths _ n (table_header _ _ _ Hok) (proj1 Ht) Hn).
    cbn [mbind option_bind]. by rewrite Z.eqb_refl.
Qed.

Lemma Builder_Encode_spec N m w bs b :
  written m w bs -> (N <= 15)%nat -> Forall (row_ok N) (rows_ b) -> zlength (rows_ b) < 2 ^ 32 ->
  zlength (rows_ b) * sumz (Measure N b) < 2 ^ 32 -> zlength bs < 2 ^ 60 ->
  exists m' w', Builder_Encode allocate N m w b = Some (m', w') /\
    written m' w' (bs ++ table_bits (Measure N b) (rows_ b)) /\ keeps m m'.
Proof.
  intros Hw HN Hrow Hl Hd Hb. pose proof (table_ok_builder N b HN Hrow Hl Hd) as Hok. pose proof Hw as [_ _ Hoff [Hst Hst0]].
  destruct (header_values N _ _ (table_header _ _ _ Hok)) as (Hvs & H16 & HN1). pose proof (sumz_nonneg _ (to_widths _ _ _ Hok)) as Hsum.
  unfold Builder_Encode, Builder_size, NumberOfWrittenBits.
  rewrite (wrap_id 32) by (unfold is_u; lia). rewrite Hoff, Hst.
  destruct (WriteInterleavedVarints_spec allocate live bit_start m w bs (zlength (rows_ b) :: Measure N b) Hw Hvs H16) as (m1 & w1 & -> & Hw1 & Hk1); [lia|].
  cbn [mbind option_bind]. pose proof (varints_bits_length _ Hvs). cbn [length] in *.
  destruct (write_rows_spec m1 w1 _ (Measure N b) (rows_ b) Hw1) as (m2 & w2 & -> & Hw2 & Hk2); [apply Hok|rewrite length_app; nia|].
  cbn [mbind option_bind]. rewrite <- app_assoc in Hw2. fold (table_bits (Measure N b) (rows_ b)) in Hw2.
  rewrite (verify_encoding_spec N m2 w2 bs b Hok Hrow Hw2).
  - cbn [mbind option_bind]. exists m2, w2. split; [done|]. split; [done|by apply (live_trans live m m1)].
  - lia.
  - unfold table_bits. rewrite !length_app, !Nat2Z.inj_add, data_bits_length by apply Hok. nia.
Qed.

(** ** Bitmaps *)

(** A bitmap in live memory without set bits at or beyond [max]. *)
Record bitmap_ok (m : memory) (max : Z) (row : MemoryRegion) : Prop := {
  bo_range : 0 <= max /\ 0 <= pointer_ row /\ 0 <= size_ row < 2 ^ 28 /\ pointer_ row + size_ row < 2 ^ 63;
  bo_live : forall x, pointer_ row <= x < pointer_ row + size_ row -> is_Some (m x) /\ live x;
  bo_tail : forall k, max <= k < 8 * size_ row -> mbit m (8 * pointer_ row + k) = false
}.

(** Its first [max] bits, with zeros past its end. *)
Definition bitmap_bit (m : memory) (row : MemoryRegion) (k : Z) : bool := (k <? 8 * size_ row) && mbit m (8 * pointer_ row + k).

Definition bitmap_bits (m : memory) (max : Z) (row : MemoryRegion) : list bool :=
  map (fun k => bitmap_bit m row (Z.of_nat k)) (seq 0 (Z.to_nat max)).

Lemma bitmap_bits_spec m max row : 0 <= max -> zlength (bitmap_bits m max row) = max /\
  forall k, 0 <= k < max -> nthb (bitmap_bits m max row) k = bitmap_bit m row k.
Proof.
  intros Hm. unfold bitmap_bits. split; [rewrite length_map, length_seq; lia|]. intros k Hk. unfold nthb.
  rewrite (nth_indep _ false (bitmap_bit m row (Z.of_nat 0))) by (rewrite length_map, length_seq; lia).
  rewrite (map_nth (fun k => bitmap_bit m row (Z.of_nat k))), seq_nth by lia. f_equal. lia.
Qed.

Lemma bitmap_keeps m m' max row : keeps m m' -> bitmap_ok m max row -> bitmap_ok m' max row /\ bitmap_bits m' max row = bitmap_bits m max row.
Proof.
  intros Hk [Hr Hl Ht].
  assert (Hb : forall k, 0 <= k < 8 * size_ row -> mbit m' (8 * pointer_ row + k) = mbit m (8 * pointer_ row + k)).
  { intros k Hk'. apply Hk; [apply Hl; lia|apply Hl; lia]. }
  split.
  - split; [done| |].
    + intros x Hx. destruct (Hl x Hx) as [Hs Hlx]. split; [|done]. destruct (Hk (8 * x)) as [Hs' _]; replace (8 * x / 8) with x in * by lia; done.
    + intros k Hk'. rewrite Hb by lia. by apply Ht.
  - apply map_ext_in. intros k [_ Hk']%in_seq. unfold bitmap_bit. destruct (Z.ltb_spec (Z.of_nat k) (8 * size_ row)); [|done]. by rewrite Hb by lia.
Qed.

Lemma bitmap_region m max row :
  bitmap_ok m max row ->
  size_in_bytes_bits row = 8 * size_ row /\ region_ok (BitMemoryRegion_of row) /\ base (BitMemoryRegion_of row) = 8 * pointer_ row /\
  size_in_bits (BitMemoryRegion_of row) = 8 * size_ row /\ readable m (8 * pointer_ row) (8 * size_ row) /\
  forall i, 8 * pointer_ row <= i < 8 * pointer_ row + 8 * size_ row -> live (i / 8).
Proof.
  intros [Hr Hl _]. assert (Hs : size_in_bytes_bits row = 8 * size_ row).
  { unfold size_in_bytes_bits, kBitsPerByte. rewrite wrap_id by (unfold is_u; lia). lia. }
  unfold BitMemoryRegion_of. rewrite Hs. split; [done|].
  destruct (BitMemoryRegion_create_ok (pointer_ row) 0 (8 * size_ row)) as (Hok & Hba & Hsz & _); [lia|lia|]. rewrite Z.add_0_r in Hba.
  split; [done|]. split; [done|]. split; [done|]. split; intros i Hi; apply Hl; lia.
Qed.

Lemma stores_zeros m m' a v n k :
  0 <= n <= k -> is_u n v -> (forall i, a + n <= i < a + k -> mbit m i = false) -> stores m m' a v n -> stores m m' a v k.
Proof.
  intros Hn Hv Hz [Hd Hs]. split; [done|]. intros i. rewrite Hs. zcases; simpl; try done.
  rewrite Hz by lia. symmetry. apply (testbit_high n v); [done|lia].
Qed.

Lemma write_bitmap_step m w bs max row :
  written m w bs -> bitmap_ok m max row -> max < 2 ^ 16 -> zlength bs + max < 2 ^ 62 ->
  let n := Z.min max (size_in_bytes_bits row) in
  exists src m1 w1 r dst m2,
    BitMemoryRegion_sub row 0 n = Some src /\ Allocate allocate m w max = Some (m1, w1, r) /\ Subregion r 0 n = Some dst /\
    CopyBits m1 dst src = Some m2 /\ written m2 w1 (bs ++ bitmap_bits m max row) /\ keeps m m2.
Proof.
  intros Hw Hrow Hmax Hb n. destruct (bitmap_region m max row Hrow) as (Hs & Hok & Hba & Hsz & Hrd & Hlive). pose proof Hrow as [Hrg _ _].
  destruct (Allocate_spec allocate live bit_start m w bs max Hw) as (m1 & w1 & r & E1 & Hv1 & Hk1 & Hokr & Hbr & Hsr & Hvs & Hoff & Hst); [lia|done|].
  destruct (bitmap_keeps m m1 max row Hk1 Hrow) as [Hrow1 Hbits1]. destruct (bitmap_region m1 max row Hrow1) as (_ & _ & _ & _ & Hrd1 & _).
  destruct (Subregion_spec (BitMemoryRegion_of row) 0 n Hok) as (src & Esrc & Hoks & Hbs & Hss & _); [lia|lia|unfold size_in_bits in Hsz; lia|].
  destruct (Subregion_spec r 0 n Hokr) as (dst & Edst & Hokd & Hbd & Hsd & _); [lia|lia|unfold size_in_bits in Hsr; lia|].
  destruct (copy_into_spec live m1 (out_ w1) bs dst src Hv1 Hokd) as (m2 & E2 & Hst2); [lia|lia|lia| |].
  { split; [done|]. split; [apply (readable_sub m1 _ _ _ _ Hrd1); lia|]. intros i Hi. apply Hlive. lia. }
  exists src, m1, w1, r, dst, m2. split; [done|]. split; [done|]. split; [done|]. split; [done|].
  set (v := loaded m1 (base src) (Z.to_nat (size_in_bits src))) in *.
  assert (Hu : is_u n v).
  { unfold v. rewrite Hss. pose proof (loaded_is_u m1 (base src) (Z.to_nat n)) as H. by rewrite Z2Nat.id in H by lia. }
  assert (Hst3 : stores m1 m2 (base r) v max).
  { rewrite Hbd, Z.add_0_r, Hss in Hst2. apply (stores_zeros m1 m2 (base r) v n max); [lia|done| |done].
    intros i Hi. replace i with (8 * vec_data (out_ w1) + (i - 8 * vec_data (out_ w1))) by lia. rewrite (vh_bits _ _ _ _ Hv1) by lia.
    apply nthb_over. lia. }
  destruct (append_bits live bit_start m1 m2 w1 r bs v max Hv1 Hbr ltac:(lia) Hvs Hoff Hst) as [Hw2 Hk2]; [apply Hw|done|].
  assert (zbits v max = bitmap_bits m max row) as <-.
  { rewrite <- Hbits1. apply map_ext_in. intros k [_ Hk]%in_seq. unfold v, bitmap_bit. rewrite testbit_loaded, Z2Nat.id by lia.
    rewrite Hss, Hbs, Hba, Z.add_0_r. unfold n. rewrite Hs. zcases; done. }
  split; [done|by apply (live_trans live m m1)].
Qed.

Lemma write_bitmaps_spec m w bs max rows :
  written m w bs -> Forall (bitmap_ok m max) rows -> 0 <= max < 2 ^ 16 -> zlength bs + max * (zlength rows + 1) < 2 ^ 62 ->
  exists m' w', write_bitmaps allocate m w max rows = Some (m', w') /\
    written m' w' (bs ++ concat (map (bitmap_bits m max) rows)) /\ keeps m m'.
Proof.
  intros Hw Hf Hmax. revert m w bs Hw Hf. induction rows as [|row rows IH]; intros m w bs Hw Hf Hb; cbn [write_bitmaps].
  - exists m, w. cbn [map concat]. rewrite app_nil_r. split; [done|]. split; [done|apply live_refl].
  - apply Forall_cons_1 in Hf as [Hrow Hf]. cbn [length] in Hb.
    destruct (write_bitmap_step m w bs max row Hw Hrow) as (src & m1 & w1 & r & dst & m2 & -> & E1 & E2 & E3 & Hw2 & Hk2); [lia|nia|].
    cbn [mbind option_bind]. rewrite E1. cbn [mbind option_bind]. rewrite E2. cbn [mbind option_bind]. rewrite E3. cbn [mbind option_bind].
    assert (Hf2 : Forall (bitmap_ok m2 max) rows).
    { eapply List.Forall_impl; [|exact Hf]. intros x Hx. by apply (bitmap_keeps m m2 max x Hk2). }
    destruct (bitmap_bits_spec m max row) as [Hl _]; [lia|].
    destruct (IH m2 w1 _ Hw2 Hf2) as (m3 & w3 & -> & Hw3 & Hk3); [rewrite length_app; nia|].
    exists m3, w3. split; [done|]. cbn [map concat]. rewrite <- app_assoc in Hw3. split; [|by apply (live_trans live m m2)].
    assert (map (bitmap_bits m2 max) rows = map (bitmap_bits m max) rows) as <-; [|done].
    apply map_ext_in. intros x Hx. rewrite List.Forall_forall in Hf. by apply (bitmap_keeps m m2 max x Hk2), Hf.
Qed.

Lemma bitmaps_length m max rows : 0 <= max -> zlength (concat (map (bitmap_bits m max) rows)) = zlength rows * max.
Proof.
  intros Hm. induction rows as [|row rows IH]; [done|]. cbn [map concat length]. rewrite length_app, Nat2Z.inj_add, IH.
  destruct (bitmap_bits_spec m max row Hm) as [-> _]. lia.
Qed.

Lemma bitmap_at m m0 a max rows r row :
  0 <= max -> bits_at m a (concat (map (bitmap_bits m0 max) rows)) -> rows !! r = Some row ->
  bits_at m (a + Z.of_nat r * max) (bitmap_bits m0 max row).
Proof.
  intros Hmax Hb Hr. rewrite <- (take_drop_middle rows r row Hr) in Hb. rewrite map_app, concat_app in Hb. cbn [map concat] in Hb.
  rewrite !bits_at_app in Hb. destruct Hb as (_ & Hb & _). rewrite bitmaps_length in Hb by done.
  apply lookup_lt_Some in Hr. by rewrite length_take, Nat.min_l in Hb by lia.
Qed.

Lemma bitmap_cell t R max r :
  header_ok 1 R [max] -> decoded t R [max] -> 0 <= r < R ->
  exists reg, GetBitMemoryRegion 1 t r 0 = Some reg /\ region_ok reg /\ base reg = base (table_data_ t) + r * max /\ size_in_bits reg = max.
Proof.
  intros Hok Hdec Hr. destruct (cell_offset_gen 1 t R [max] r 0 max Hok Hdec Hr eq_refl) as (Ho & Hn & Hm & Hpos & Hend).
  unfold GetBitMemoryRegion. change (Z.of_nat 0) with 0 in Ho, Hn. rewrite Ho. cbn [mbind option_bind]. rewrite Hn. cbn [mbind option_bind].
  unfold sumz in *. cbn [fold_right take] in *. pose proof Hdec as [_ _ Hreg _ Hsz]. unfold size_in_bits, sumz in Hsz. cbn [fold_right] in Hsz.
  destruct (Subregion_spec (table_data_ t) (r * (max + 0) + 0) max Hreg) as (reg & E & Hrok & Hb & Hs & _); [lia|lia|lia|].
  exists reg. split; [done|]. split; [done|]. split; [lia|done].
Qed.

Lemma verify_bitmap_spec m m0 t R max row r :
  header_ok 1 R [max] -> decoded t R [max] -> 0 <= r < R -> bitmap_ok m max row ->
  bitmap_bits m max row = bitmap_bits m0 max row -> bits_at m (base (table_data_ t) + r * max) (bitmap_bits m0 max row) ->
  verify_bitmap m t row r = Some tt.
Proof.
  intros Hok Hdec Hr Hrow Heq Hbits. destruct (bitmap_region m max row Hrow) as (_ & Hoke & Hbe & Hse & Hrd & _).
  destruct (bitmap_cell t R max r Hok Hdec Hr) as (reg & E & Hokr & Hbr & Hsr). unfold verify_bitmap. rewrite E. cbn [mbind option_bind].
  rewrite Hse, Hsr. pose proof Hrow as [Hrg _ Htail]. destruct (bitmap_bits_spec m max row) as [Hl Hnth]; [lia|].
  rewrite <- Heq in Hbits. destruct Hbits as [Hrc Hb]. rewrite Hl in Hrc, Hb. apply for_checks. intros k Hk.
  assert (Hs : (if k <? max then LoadBit m reg k else Some false) = Some ((k <? max) && bitmap_bit m row k)).
  { destruct (Z.ltb_spec k max); [|done]. rewrite LoadBit_spec; [|done|unfold size_in_bits in Hsr; lia|rewrite Hbr; apply (readable_sub m _ _ _ _ Hrc); lia].
    rewrite Hbr, Hb, Hnth by lia. done. }
  assert (He : (if k <? 8 * size_ row then LoadBit m (BitMemoryRegion_of row) k else Some false) = Some ((k <? 8 * size_ row) && mbit m (8 * pointer_ row + k))).
  { destruct (Z.ltb_spec k (8 * size_ row)); [|done]. rewrite LoadBit_spec; [|done|unfold size_in_bits in Hse; lia|rewrite Hbe; apply (readable_sub m _ _ _ _ Hrd); lia].
    by rewrite Hbe. }
  rewrite He, Hs. cbn [mbind option_bind]. unfold bitmap_bit. destruct (Z.ltb_spec k max); [by rewrite eqb_reflx|].
  simpl. destruct (Z.ltb_spec k (8 * size_ row)); [|done]. by rewrite Htail by lia.
Qed.

Lemma Bitmap_Encode_spec m w bs b :
  let R := BitmapBuilder_size b in let max := max_num_bits_ b in
  written m w bs -> Forall (bitmap_ok m max) (bitmap_rows_ b) -> 0 <= max < 2 ^ 16 -> R < 2 ^ 32 -> R * max < 2 ^ 32 -> zlength bs < 2 ^ 60 ->
  exists m' w', Bitmap_Encode allocate m w b = Some (m', w') /\
    written m' w' (bs ++ varints_bits [R; max] ++ concat (map (bitmap_bits m max) (bitmap_rows_ b))) /\ keeps m m'.
Proof.
  intros R max Hw Hrows Hmax HR Hd Hb. pose proof Hw as [_ _ Hoff [Hst Hst0]].
  assert (Hh : header_ok 1 R [max]).
  { unfold R, BitmapBuilder_size in *. split; unfold sumz; cbn [fold_right length]; try lia. constructor; [lia|constructor]. }
  unfold Bitmap_Encode, NumberOfWrittenBits. fold R max. rewrite Hoff, Hst, !(proj2 (Z.ltb_lt _ _)) by lia. cbn [dcheck mbind option_bind].
  destruct (header_values 1 R [max] Hh) as (Hvs & H16 & _). pose proof (varints_bits_length _ Hvs) as Hvl. cbn [length] in Hvl.
  destruct (WriteInterleavedVarints_spec allocate live bit_start m w bs [R; max] Hw Hvs H16) as (m1 & w1 & -> & Hw1 & Hk1); [lia|]. cbn [mbind option_bind].
  assert (Hrows1 : Forall (bitmap_ok m1 max) (bitmap_rows_ b)).
  { eapply List.Forall_impl; [|exact Hrows]. intros x Hx. by apply (bitmap_keeps m m1 max x Hk1). }
  destruct (write_bitmaps_spec m1 w1 _ max (bitmap_rows_ b) Hw1 Hrows1 Hmax) as (m2 & w2 & -> & Hw2 & Hk2).
  { unfold R, BitmapBuilder_size in *. rewrite length_app. nia. }
  cbn [mbind option_bind]. rewrite <- app_assoc in Hw2. pose proof (live_trans live m m1 m2 Hk1 Hk2) as Hk.
  assert (map (bitmap_bits m1 max) (bitmap_rows_ b) = map (bitmap_bits m max) (bitmap_rows_ b)) as Em.
  { apply map_ext_in. intros x Hx. rewrite List.Forall_forall in Hrows. by apply (bitmap_keeps m m1 max x Hk1), Hrows. }
  rewrite Em in Hw2. set (data := concat (map (bitmap_bits m max) (bitmap_rows_ b))) in *.
  assert (Hdl : zlength data = R * sumz [max]) by (unfold data; rewrite bitmaps_length by lia; unfold sumz, R, BitmapBuilder_size; simpl; lia).
  assert (Hpos : 4 <= zlength (varints_bits [R; max])) by (unfold varints_bits; rewrite length_app, Nat2Z.inj_add, heads_length; simpl length; lia).
  destruct (written_reader m2 w2 bs (varints_bits [R; max] ++ data) Hw2) as (region & rd & -> & E2 & Hrd & Hpage);
    [lia|rewrite length_app; lia|rewrite !length_app; unfold sumz in Hdl; simpl in Hdl; nia|].
  cbn [mbind option_bind]. rewrite E2. cbn [mbind option_bind].
  destruct (Decode_gen 1 m2 rd _ _ R [max] data Hh Hdl (vh_paged _ _ _ _ (wr_vec _ _ _ _ _ Hw2)) Hrd Hpage (written_bits_at live bit_start m2 w2 _ _ Hw2))
    as (t & rd' & -> & Hdec & Hbits & _); [lia|]. cbn [mbind option_bind].
  unfold NumRows. rewrite (dc_rows _ _ _ Hdec), Z.eqb_refl. cbn [dcheck mbind option_bind].
  pose proof (NumColumnBits_gen 1 t R [max] 0 max Hh Hdec eq_refl) as Hnc. change (Z.of_nat 0) with 0 in Hnc. rewrite Hnc. cbn [mbind option_bind].
  rewrite Z.eqb_refl. cbn [dcheck mbind option_bind]. rewrite for_checks; [exists m2, w2; done|].
  intros r Hr. destruct (aread_some (bitmap_rows_ b) r Hr) as [row Hrow]. rewrite Hrow. cbn [mbind option_bind]. rewrite aread_lookup in Hrow by lia.
  assert (Hbm : bitmap_ok m max row) by (rewrite Forall_lookup in Hrows; eauto). destruct (bitmap_keeps m m2 max row Hk Hbm) as [Hbm2 Heq].
  apply (verify_bitmap_spec m2 m t R max row r Hh Hdec); try done.
  pose proof (bitmap_at m2 m _ max (bitmap_rows_ b) (Z.to_nat r) row ltac:(lia) Hbits Hrow) as Ha. by rewrite Z2Nat.id in Ha by lia.
Qed.

End EncodeSpec.

(** ** Deduplication *)

(** What the multimap promises: the entries of the key, in some order. *)
Class Multimap (equal_range : list (Z * Z) -> Z -> list Z) : Prop :=
  equal_range_spec : forall d h, Permutation (equal_range d h) (map snd (List.filter (fun e => fst e =? h) d)).

Definition insertion_order (d : list (Z * Z)) (h : Z) : list Z := map snd (List.filter (fun e => fst e =? h) d).

#[global] Instance insertion_order_multimap : Multimap insertion_order.
Proof. intros d h. done. Qed.

Section DedupSpec.

Context (equal_range : list (Z * Z) -> Z -> list Z) {Hmap : Multimap equal_range}.

(** The values are the rows from [index] on. *)
Definition rows_from (rows values : list Entry) (index : Z) : Prop :=
  0 <= index /\ take (length values) (drop (Z.to_nat index) rows) = values.

Definition dedup_ok (b : BitTableBuilderBase) : Prop := Forall (fun e => 0 <= snd e <= Builder_size b) (dedup_ b).

Lemma rows_from_app rows more values index : rows_from rows values index -> rows_from (rows ++ more) values index.
Proof.
  intros [Hi H]. split; [done|]. assert (Hl : (length values <= length (drop (Z.to_nat index) rows))%nat).
  { rewrite <- H at 1. rewrite length_take. lia. }
  rewrite length_drop in Hl. destruct (decide (length values = 0)%nat) as [E|E].
  - destruct values; [done|simpl in E; lia].
  - rewrite drop_app_le, take_app_le by (rewrite ?length_drop; lia). done.
Qed.

Lemma Dedup_spec b values :
  dedup_ok b -> zlength (rows_ b) + zlength values < 2 ^ 32 ->
  let '(b', index) := Dedup equal_range b values in
  dedup_ok b' /\ rows_from (rows_ b') values index /\ zlength (rows_ b') <= zlength (rows_ b) + zlength values /\
  (exists more, rows_ b' = rows_ b ++ more) /\ (forall e, In e (dedup_ b) -> In e (dedup_ b')) /\
  exists i, In (FNVHash (flat_map entry_bytes values), i) (dedup_ b') /\ rows_match (rows_ b') values i = true.
Proof.
  intros Hok Hlen. unfold Dedup. set (h := FNVHash _).
  destruct (List.find (rows_match (rows_ b) values) (equal_range (dedup_ b) h)) as [i|] eqn:Ef.
  - apply find_some in Ef as [Hin Hm]. apply (Permutation_in _ (equal_range_spec _ _)) in Hin.
    apply in_map_iff in Hin as ([h' i'] & <- & Hin). apply filter_In in Hin as [Hin Hh]. apply Z.eqb_eq in Hh. cbn [fst snd] in *. subst h'.
    unfold dedup_ok in Hok. rewrite List.Forall_forall in Hok. pose proof (Hok _ Hin) as Hi. cbn [snd] in Hi.
    split; [unfold dedup_ok; by rewrite List.Forall_forall|]. pose proof Hm as Hm'. unfold rows_match in Hm. apply andb_true_iff in Hm as [_ Hm].
    apply bool_decide_eq_true in Hm. split; [split; [lia|done]|]. split; [lia|]. split; [exists []; by rewrite app_nil_r|]. split; [done|]. by exists i'.
  - cbn [rows_ dedup_]. unfold Builder_size. rewrite wrap_id by (unfold is_u; lia).
    assert (Hfrom : rows_from (rows_ b ++ values) values (zlength (rows_ b))).
    { split; [lia|]. rewrite Nat2Z.id, drop_app_length. apply firstn_all. }
    unfold dedup_ok, Builder_size in *. cbn [dedup_ rows_]. rewrite length_app. split; [|split; [done|split; [lia|split; [by exists values|split]]]].
    + apply Forall_app. split; [eapply List.Forall_impl; [|exact Hok]; intros [h' i] Hi; simpl in *; lia|]. constructor; [simpl; lia|constructor].
    + intros e He. apply in_app_iff. by left.
    + exists (zlength (rows_ b)). split; [apply in_app_iff; right; by left|]. unfold rows_match. rewrite length_app.
      rewrite (proj2 (Z.leb_le _ _)) by lia. apply bool_decide_eq_true. apply Hfrom.
Qed.

(** A group that was added before is found again. *)
Lemma Dedup_again b values i :
  dedup_ok b -> In (FNVHash (flat_map entry_bytes values), i) (dedup_ b) -> rows_match (rows_ b) values i = true ->
  fst (Dedup equal_range b values) = b.
Proof.
  intros Hok Hin Hm. unfold Dedup. set (h := FNVHash _) in *.
  destruct (List.find (rows_match (rows_ b) values) (equal_range (dedup_ b) h)) as [j|] eqn:Ef; [done|].
  exfalso. assert (Hin' : In i (equal_range (dedup_ b) h)).
  { apply (Permutation_in _ (Permutation_sym (equal_range_spec _ _))). apply in_map_iff. exists (h, i). split; [done|].
    apply filter_In. split; [done|]. apply Z.eqb_refl. }
  pose proof (find_none _ _ Ef i Hin') as Hn. congruence.
Qed.

Lemma rows_match_app rows more values i : 0 <= i -> rows_match rows values i = true -> rows_match (rows ++ more) values i = true.
Proof.
  intros Hi Hm. unfold rows_match in *. apply andb_true_iff in Hm as [Hl Hm]. apply Z.leb_le in Hl. apply bool_decide_eq_true in Hm.
  rewrite length_app, (proj2 (Z.leb_le _ _)) by lia. apply bool_decide_eq_true. by apply rows_from_app.
Qed.

(** Groups of rows added one after the other. *)
Fixpoint dedup_all (b : BitTableBuilderBase) (groups : list (list Entry)) : BitTableBuilderBase * list Z :=
  match groups with
  | [] => (b, [])
  | g :: groups => let '(b, i) := Dedup equal_range b g in let '(b, indexes) := dedup_all b groups in (b, i :: indexes)
  end.

Lemma dedup_all_spec b groups :
  dedup_ok b -> zlength (rows_ b) + zlength (concat groups) < 2 ^ 32 ->
  let '(b', indexes) := dedup_all b groups in
  dedup_ok b' /\ (exists more, rows_ b' = rows_ b ++ more) /\ zlength (rows_ b') <= zlength (rows_ b) + zlength (concat groups) /\
  (forall e, In e (dedup_ b) -> In e (dedup_ b')) /\ Forall2 (rows_from (rows_ b')) groups indexes /\
  forall g, In g groups -> fst (Dedup equal_range b' g) = b'.
Proof.
  revert b. induction groups as [|g groups IH]; intros b Hok Hlen; cbn [dedup_all].
  - split; [done|]. split; [exists []; by rewrite app_nil_r|]. split; [simpl; lia|]. split; [done|]. split; [constructor|done].
  - cbn [concat] in Hlen. rewrite length_app in Hlen. pose proof (Dedup_spec b g Hok ltac:(lia)) as Hd.
    destruct (Dedup equal_range b g) as [b1 i]. destruct Hd as (Hok1 & Hfrom & Hl1 & [more1 Hmore1] & Hin1 & j & Hj & Hmj).
    specialize (IH b1 Hok1 ltac:(lia)). destruct (dedup_all b1 groups) as [b2 indexes]. destruct IH as (Hok2 & [more2 Hmore2] & Hl2 & Hin2 & Hall & Hagain).
    split; [done|]. split; [exists (more1 ++ more2); by rewrite Hmore2, Hmore1, app_assoc|]. cbn [concat]. rewrite length_app. split; [lia|].
    split; [auto|]. split.
    + constructor; [|done]. rewrite Hmore2. by apply rows_from_app.
    + intros g' [<-|Hg']; [|by apply Hagain]. apply (Dedup_again b2 g j Hok2); [by apply Hin2|]. rewrite Hmore2. apply rows_match_app; [|done].
      unfold dedup_ok in Hok1. rewrite List.Forall_forall in Hok1. specialize (Hok1 _ Hj). simpl in Hok1. lia.
Qed.

End DedupSpec.

(** ** Properties *)

(** C27: Encoding the rows of a builder after whatever the writer has written
    passes the check of the encoder, and decoding from the position where the
    table starts gives a table with the same rows, columns and values; the
    decoder stops where the encoder did. *)
Theorem bit_table_roundtrip allocate live (Halloc : Allocator allocate live) N m w bs b
  (Hw : written live 0 m w bs) (HN : (N <= 15)%nat) (Hrows : Forall (row_ok N) (rows_ b))
  (Hlen : zlength (rows_ b) < 2 ^ 32) (Hdata : zlength (rows_ b) * sumz (Measure N b) < 2 ^ 32) (Hbs : zlength bs < 2 ^ 60) :
  exists m' w' t rd,
    Builder_Encode allocate N m w b = Some (m', w') /\
    Decode N m' (BitMemoryReader_create (Writer_data w') (writer_bit_offset_ w)) = Some (t, rd) /\
    NumRows t = Builder_size b /\
    (forall r c row v, rows_ b !! r = Some row -> row !! c = Some v -> Get N m' t (Z.of_nat r) (Z.of_nat c) = Some v) /\
    writer_bit_offset_ w + NumberOfReadBits rd = writer_bit_offset_ w' /\ keeps live m m'.
Proof.
  pose proof (table_ok_builder N b HN Hrows Hlen Hdata) as Hok.
  destruct (Builder_Encode_spec allocate live 0 N m w bs b Hw HN Hrows Hlen Hdata Hbs) as (m' & w' & E & Hw' & Hk).
  pose proof Hw as [_ _ Hoff _]. pose proof Hw' as [Hv' Hsz' Hoff' _]. pose proof Hv' as [Hp' Hrg' _ _ _]. rewrite Hoff.
  assert (Hpos : 0 < zlength (table_bits (Measure N b) (rows_ b))).
  { unfold table_bits, varints_bits. rewrite !length_app, !Nat2Z.inj_add, heads_length. simpl length. lia. }
  rewrite length_app, Nat2Z.inj_add in Hsz', Hoff'.
  pose proof (BitMemoryReader_create_spec (vec_data (out_ w')) (zlength bs) ltac:(lia)) as Hrd.
  destruct (Decode_spec N m' _ _ _ (Measure N b) (rows_ b) Hok Hp' Hrd ltac:(lia) (written_bits_at live 0 m' w' _ _ Hw'))
    as (t & rd & E' & Ht & Hrd'); [lia|].
  exists m', w', t, rd. split; [done|]. split; [done|]. split; [apply Ht|]. split; [|split; [|done]].
  - intros r c row v Hr Hc. by apply (Get_spec N m' t (Measure N b) (rows_ b) r c row v).
  - destruct Hrd' as [_ _ Hpos' _ _]. unfold NumberOfReadBits. lia.
Qed.

(** Encoding a table of bitmaps passes the check of the encoder, and each
    decoded cell has exactly the bits of its bitmap, followed by zeros up to the
    width of the column. *)
Theorem bitmap_table_roundtrip allocate live (Halloc : Allocator allocate live) m w bs b
  (Hw : written live 0 m w bs) (Hrows : Forall (bitmap_ok live m (max_num_bits_ b)) (bitmap_rows_ b))
  (Hmax : 0 <= max_num_bits_ b < 2 ^ 16) (HR : BitmapBuilder_size b < 2 ^ 32)
  (Hdata : BitmapBuilder_size b * max_num_bits_ b < 2 ^ 32) (Hbs : zlength bs < 2 ^ 60) :
  exists m' w' t rd,
    Bitmap_Encode allocate m w b = Some (m', w') /\
    Decode 1 m' (BitMemoryReader_create (Writer_data w') (writer_bit_offset_ w)) = Some (t, rd) /\
    NumRows t = BitmapBuilder_size b /\
    forall r row, bitmap_rows_ b !! r = Some row ->
      exists cell, GetBitMemoryRegion 1 t (Z.of_nat r) 0 = Some cell /\ size_in_bits cell = max_num_bits_ b /\
        forall k, 0 <= k < max_num_bits_ b -> LoadBit m' cell k = Some (bitmap_bit m row k).
Proof.
  destruct (Bitmap_Encode_spec allocate live 0 m w bs b Hw Hrows Hmax HR Hdata Hbs) as (m' & w' & E & Hw' & Hk).
  pose proof Hw as [_ _ Hoff _]. pose proof Hw' as [Hv' Hsz' Hoff' _]. pose proof Hv' as [Hp' Hrg' _ _ _]. rewrite Hoff.
  set (R := BitmapBuilder_size b) in *. set (max := max_num_bits_ b) in *.
  assert (Hh : header_ok 1 R [max]).
  { unfold R, BitmapBuilder_size in *. split; unfold sumz; cbn [fold_right length]; try lia. constructor; [lia|constructor]. }
  assert (Hpos : 4 <= zlength (varints_bits [R; max])) by (unfold varints_bits; rewrite length_app, Nat2Z.inj_add, heads_length; simpl length; lia).
  rewrite !length_app in Hsz', Hoff'.
  pose proof (BitMemoryReader_create_spec (vec_data (out_ w')) (zlength bs) ltac:(lia)) as Hrd.
  assert (Hdl : zlength (concat (map (bitmap_bits m max) (bitmap_rows_ b))) = R * sumz [max])
    by (rewrite bitmaps_length by lia; unfold sumz, R, BitmapBuilder_size; simpl; lia).
  destruct (Decode_gen 1 m' _ _ _ R [max] _ Hh Hdl Hp' Hrd ltac:(lia) (written_bits_at live 0 m' w' _ _ Hw')) as (t & rd & E' & Hdec & Hbits & _); [lia|].
  exists m', w', t, rd. split; [done|]. split; [done|]. split; [apply Hdec|]. intros r row Hr. apply lookup_lt_Some in Hr as Hlt.
  destruct (bitmap_cell t R max (Z.of_nat r) Hh Hdec) as (cell & Ec & Hokc & Hbc & Hsc); [unfold R, BitmapBuilder_size; lia|].
  exists cell. split; [done|]. split; [done|]. intros k Hk'.
  pose proof (bitmap_at m' m _ max (bitmap_rows_ b) r row ltac:(lia) Hbits Hr) as [Hrc Hbit].
  destruct (bitmap_bits_spec m max row) as [Hl Hnth]; [lia|]. rewrite Hl in Hrc, Hbit.
  rewrite LoadBit_spec; [|done|unfold size_in_bits in Hsc; lia|rewrite Hbc; apply (readable_sub m' _ _ _ _ Hrc); lia].
  rewrite Hbc, Hbit, Hnth by lia. done.
Qed.

(** C28: Deduplicating groups of rows, fewer than 2^32 rows in all and whatever
    the order in which the multimap lists candidates, gives every group an index where its rows stay for good,
    and adding any of the groups again adds no row. *)
Theorem dedup_keeps_groups equal_range (Hmap : Multimap equal_range) groups
  (Hlen : zlength (concat groups) < 2 ^ 32) :
  let '(b, indexes) := dedup_all equal_range Builder_create groups in
  Forall2 (rows_from (rows_ b)) groups indexes /\ zlength (rows_ b) <= zlength (concat groups) /\
  forall g, In g groups -> fst (Dedup equal_range b g) = b.
Proof.
  pose proof (dedup_all_spec equal_range Builder_create groups) as H.
  destruct (dedup_all equal_range Builder_create groups) as [b indexes]. destruct H as (_ & _ & Hl & _ & Hf & Ha); [constructor|simpl; lia|].
  split; [done|]. split; [simpl in Hl; lia|done].
Qed.

Definition small_builder : BitTableBuilderBase := mkBuilder [[1; 300; kNoValue]; [7; 0; 5]] [].

Lemma new_writer_written : written (fun x => x < 4096) 0 small_memory (mkBitMemoryWriter (mkVector 4096 0) 0 0) [].
Proof.
  split; [|done|done|simpl; lia].
  split; [apply small_memory_paged|cbn; lia|intros i Hi; cbn in Hi; lia|intros x Hx; cbn in Hx; lia|intros k Hk; cbn in Hk; lia].
Qed.

Lemma bit_table_roundtrip_witness :
  exists m' w' t rd,
    Builder_Encode fixed_allocate 3 small_memory (mkBitMemoryWriter (mkVector 4096 0) 0 0) small_builder = Some (m', w') /\
    Decode 3 m' (BitMemoryReader_create (Writer_data w') 0) = Some (t, rd) /\ NumRows t = 2 /\ Get 3 m' t 0 1 = Some 300.
Proof.
  destruct (bit_table_roundtrip fixed_allocate (fun x => x < 4096) fixed_allocator 3 small_memory (mkBitMemoryWriter (mkVector 4096 0) 0 0) [] small_builder)
    as (m' & w' & t & rd & H1 & H2 & H3 & H4 & _).
  - apply new_writer_written.
  - lia.
  - unfold row_ok. apply (bool_decide_unpack _). vm_compute. exact I.
  - vm_compute. done.
  - vm_compute. done.
  - simpl. lia.
  - exists m', w', t, rd. split; [exact H1|]. split; [exact H2|]. split; [exact H3|]. by apply (H4 0%nat 1%nat [1; 300; kNoValue]).
Defined.

Lemma bitmap_table_roundtrip_witness :
  let b := mkBitmapBuilder [mkMemoryRegion 16 2; mkMemoryRegion 32 1] [] 16 in
  exists m' w' t rd,
    Bitmap_Encode fixed_allocate small_memory (mkBitMemoryWriter (mkVector 4096 0) 0 0) b = Some (m', w') /\
    Decode 1 m' (BitMemoryReader_create (Writer_data w') 0) = Some (t, rd) /\ NumRows t = 2.
Proof.
  intros b.
  destruct (bitmap_table_roundtrip fixed_allocate (fun x => x < 4096) fixed_allocator small_memory (mkBitMemoryWriter (mkVector 4096 0) 0 0) [] b)
    as (m' & w' & t & rd & H1 & H2 & H3 & _).
  - apply new_writer_written.
  - assert (Hrow : forall p n, 0 <= p <= 100 -> 0 <= n <= 2 -> bitmap_ok (fun x => x < 4096) small_memory 16 (mkMemoryRegion p n)).
    { intros p n Hp Hn. split; cbn [pointer_ size_]; [lia| |intros k Hk; lia]. intros x Hx. split; [|lia].
      unfold small_memory. rewrite (proj2 (Z.leb_le 0 x)), (proj2 (Z.ltb_lt x 65536)) by lia. simpl. eauto. }
    apply List.Forall_cons; [apply Hrow; lia|]. apply List.Forall_cons; [apply Hrow; lia|]. apply List.Forall_nil.
  - simpl. lia.
  - vm_compute. done.
  - vm_compute. done.
  - simpl. lia.
  - exists m', w', t, rd. split; [exact H1|]. split; [exact H2|exact H3].
Defined.

Lemma dedup_keeps_groups_witness :
  let '(b, indexes) := dedup_all insertion_order Builder_create [[[1]; [2]]; [[3]]; [[1]; [2]]] in
  Forall2 (rows_from (rows_ b)) [[[1]; [2]]; [[3]]; [[1]; [2]]] indexes /\ zlength (rows_ b) = 3.
Proof.
  pose proof (dedup_keeps_groups insertion_order insertion_order_multimap [[[1]; [2]]; [[3]]; [[1]; [2]]] ltac:(simpl; lia)) as H.
  destruct (dedup_all insertion_order Builder_create [[[1]; [2]]; [[3]]; [[1]; [2]]]) as [b indexes] eqn:E.
  vm_compute in E. injection E as <- <-. destruct H as [H _]. split; [exact H|reflexivity].
Defined.
