(* ===== verification/Locations.v ===== *)
(** * Operand locations of the optimizing compiler

    libartbase/base/bit_field.h and compiler/optimizing/locations.h.  A
    [Location] is one machine word: a tagged pointer to a constant, or a kind in
    the low four bits and a payload (register, pair of registers, biased stack
    index, allocation policy) above them.  The theorems show that the encoding
    loses nothing, that no kind is mistaken for another, and that [OverlapsWith]
    decides whether two locations share a register or a stack word.
    [RegisterSet], the pair of register masks of a [LocationSummary], is here
    too. *)

From Stdlib Require Import ZArith Lia Bool List.
From stdpp Require Import base numbers list option sets.
From S2P Require Import Prelude BitUtils.

Local Open Scope Z_scope.
Local Open Scope art_scope.

(** ** BitField<T, position, size> over a 64-bit [uintptr_t] *)

Definition BitField_Mask (size : Z) : Z := u64 (Z.shiftl 1 size) - 1.

Definition BitField_IsValid (size value : Z) : bool :=
  Z.land (u64 value) (u64 (Z.lnot (BitField_Mask size))) =? 0.

Definition BitField_MaskInPlace (position size : Z) : Z :=
  u64 (Z.shiftl (BitField_Mask size) position).

Definition BitField_Encode (position size value : Z) : option Z :=
  DCHECK BitField_IsValid size value;
  Some (u64 (Z.shiftl (u64 value) position)).

Definition BitField_Decode (position size value : Z) : Z :=
  Z.land (Z.shiftr value position) (BitField_Mask size).

Definition BitField_Update (position size value original : Z) : option Z :=
  DCHECK BitField_IsValid size value;
  Some (Z.lor (u64 (Z.shiftl (u64 value) position))
              (Z.land (u64 (Z.lnot (BitField_MaskInPlace position size))) original)).

(** ** Location *)

Definition Location : Type := Z.

Definition kInvalid : Z := 0.
Definition kConstant : Z := 1.
Definition kStackSlot : Z := 2.
Definition kDoubleStackSlot : Z := 3.
Definition kRegister : Z := 4.
Definition kDoNotUse5 : Z := 5.
Definition kFpuRegister : Z := 6.
Definition kRegisterPair : Z := 7.
Definition kFpuRegisterPair : Z := 8.
Definition kDoNotUse9 : Z := 9.
Definition kSIMDStackSlot : Z := 10.
Definition kUnallocated : Z := 11.

Definition kBitsForKind : Z := 4.
Definition kBitsForPayload : Z := 64 - kBitsForKind.
Definition kLocationConstantMask : Z := 3.
Definition kStackIndexBias : Z := Z.shiftl 1 (kBitsForPayload - 1).

(** [Location(Kind kind, uintptr_t payload)]. *)
Definition make_Location (kind payload : Z) : option Location :=
  k ← BitField_Encode 0 kBitsForKind kind;
  p ← BitField_Encode kBitsForKind kBitsForPayload payload;
  Some (Z.lor k p).

Definition GetPayload (l : Location) : Z := BitField_Decode kBitsForKind kBitsForPayload l.

Definition IsConstant (l : Location) : bool := Z.land l kLocationConstantMask =? kConstant.

Definition GetKind (l : Location) : Z :=
  if IsConstant l then kConstant else BitField_Decode 0 kBitsForKind l.

Definition ConstantLocation (constant : Z) : option Location :=
  DCHECK negb (constant =? 0);
  Some (Z.lor kConstant constant).

Definition GetConstant (l : Location) : option Z :=
  DCHECK IsConstant l;
  Some (Z.land l (u64 (Z.lnot kLocationConstantMask))).

Definition IsValid (l : Location) : bool := negb (l =? kInvalid).
Definition IsInvalid (l : Location) : bool := negb (IsValid l).
Definition NoLocation : Location := kInvalid.

Definition RegisterLocation (reg : Z) : option Location := make_Location kRegister (u64 reg).
Definition FpuRegisterLocation (reg : Z) : option Location := make_Location kFpuRegister (u64 reg).
Definition RegisterPairLocation (low high : Z) : option Location :=
  make_Location kRegisterPair (u64 (Z.lor (s32 (Z.shiftl low 16)) high)).
Definition FpuRegisterPairLocation (low high : Z) : option Location :=
  make_Location kFpuRegisterPair (u64 (Z.lor (s32 (Z.shiftl low 16)) high)).

Definition IsRegister (l : Location) : bool := GetKind l =? kRegister.
Definition IsFpuRegister (l : Location) : bool := GetKind l =? kFpuRegister.
Definition IsRegisterPair (l : Location) : bool := GetKind l =? kRegisterPair.
Definition IsFpuRegisterPair (l : Location) : bool := GetKind l =? kFpuRegisterPair.
Definition IsRegisterKind (l : Location) : bool :=
  IsRegister l || IsFpuRegister l || IsRegisterPair l || IsFpuRegisterPair l.
Definition IsPair (l : Location) : bool := IsRegisterPair l || IsFpuRegisterPair l.
Definition IsStackSlot (l : Location) : bool := GetKind l =? kStackSlot.
Definition IsDoubleStackSlot (l : Location) : bool := GetKind l =? kDoubleStackSlot.
Definition IsSIMDStackSlot (l : Location) : bool := GetKind l =? kSIMDStackSlot.
Definition IsUnallocated (l : Location) : bool := GetKind l =? kUnallocated.

Definition reg (l : Location) : option Z :=
  DCHECK IsRegister l || IsFpuRegister l;
  Some (s32 (GetPayload l)).
Definition low (l : Location) : option Z :=
  DCHECK IsPair l;
  Some (s32 (Z.shiftr (GetPayload l) 16)).
Definition high (l : Location) : option Z :=
  DCHECK IsPair l;
  Some (s32 (Z.land (GetPayload l) 65535)).

Definition EncodeStackIndex (stack_index : Z) : option Z :=
  DCHECK - kStackIndexBias <=? stack_index;
  DCHECK stack_index <? kStackIndexBias;
  Some (u64 (kStackIndexBias + stack_index)).

(** [GetPayload() - kStackIndexBias] is unsigned arithmetic converted to
    [intptr_t]. *)
Definition GetStackIndex (l : Location) : option Z :=
  DCHECK IsStackSlot l || IsDoubleStackSlot l || IsSIMDStackSlot l;
  Some (s64 (u64 (GetPayload l - kStackIndexBias))).

Definition GetHighStackIndex (l : Location) (word_size : Z) : option Z :=
  DCHECK IsDoubleStackSlot l;
  Some (s64 (u64 (GetPayload l - kStackIndexBias + word_size))).

(** The body shared by [StackSlot], [DoubleStackSlot] and [SIMDStackSlot]. *)
Definition slot_of_kind (kind stack_index : Z) : option Location :=
  payload ← EncodeStackIndex stack_index;
  loc ← make_Location kind payload;
  i ← GetStackIndex loc;
  DCHECK i =? stack_index;
  Some loc.

Definition StackSlot (stack_index : Z) : option Location := slot_of_kind kStackSlot stack_index.
Definition DoubleStackSlot (stack_index : Z) : option Location :=
  slot_of_kind kDoubleStackSlot stack_index.
Definition SIMDStackSlot (stack_index : Z) : option Location :=
  slot_of_kind kSIMDStackSlot stack_index.

Definition StackSlotByNumOfSlots (num_of_slots spill_slot : Z) : option Location :=
  DCHECK negb (num_of_slots =? 0);
  if num_of_slots =? 1 then StackSlot spill_slot
  else if num_of_slots =? 2 then DoubleStackSlot spill_slot
  else SIMDStackSlot spill_slot.

Definition ToLow (l : Location) : option Location :=
  if IsRegisterPair l then r ← low l; RegisterLocation r
  else if IsFpuRegisterPair l then r ← low l; FpuRegisterLocation r
  else DCHECK IsDoubleStackSlot l; i ← GetStackIndex l; StackSlot i.

Definition ToHigh (l : Location) : option Location :=
  if IsRegisterPair l then r ← high l; RegisterLocation r
  else if IsFpuRegisterPair l then r ← high l; FpuRegisterLocation r
  else DCHECK IsDoubleStackSlot l; i ← GetHighStackIndex l 4; StackSlot i.

Definition Equals (l other : Location) : bool := l =? other.

Definition Contains (l other : Location) : option bool :=
  if Equals l other then Some true
  else if IsPair l || IsDoubleStackSlot l then
    lo ← ToLow l;
    if Equals lo other then Some true else hi ← ToHigh l; Some (Equals hi other)
  else Some false.

(** A debug build: the checks on the overlaps the resolver cannot handle run. *)
Definition OverlapsWith (l other : Location) : option bool :=
  c ← Contains l other;
  overlap ← (if (c : bool) then Some true else Contains other l);
  if negb overlap
     && ((IsPair l && IsPair other) || (IsDoubleStackSlot l && IsDoubleStackSlot other)) then
    lo ← ToLow other; clo ← Contains l lo; DCHECK negb clo;
    hi ← ToHigh other; chi ← Contains l hi; DCHECK negb chi;
    Some overlap
  else Some overlap.

(** Policies of unallocated locations. *)
Definition kAny : Z := 0.
Definition kRequiresRegister : Z := 1.
Definition kRequiresFpuRegister : Z := 2.
Definition kSameAsFirstInput : Z := 3.

Definition UnallocatedLocation (policy : Z) : option Location :=
  p ← BitField_Encode 0 3 policy; make_Location kUnallocated p.

Definition GetPolicy (l : Location) : option Z :=
  DCHECK IsUnallocated l;
  Some (BitField_Decode 0 3 (GetPayload l)).

Definition RequiresRegisterKind (l : Location) : option bool :=
  p ← GetPolicy l; Some ((p =? kRequiresRegister) || (p =? kRequiresFpuRegister)).

(** ** RegisterSet *)

Record RegisterSet := {
  core_registers_ : Z;
  floating_point_registers_ : Z;
}.

Definition RegisterSet_Empty : RegisterSet := Build_RegisterSet 0 0.
Definition RegisterSet_AllFpu : RegisterSet := Build_RegisterSet 0 (u32 (-1)).

Definition RegisterSet_Contains (register_set r : Z) : bool :=
  negb (Z.land register_set (u32 (Z.shiftl 1 r)) =? 0).

Definition RegisterSet_Add (s : RegisterSet) (loc : Location) : option RegisterSet :=
  if IsRegister loc then
    r ← reg loc;
    Some (Build_RegisterSet (Z.lor (core_registers_ s) (u32 (Z.shiftl 1 r)))
                            (floating_point_registers_ s))
  else
    DCHECK IsFpuRegister loc;
    r ← reg loc;
    Some (Build_RegisterSet (core_registers_ s)
                            (Z.lor (floating_point_registers_ s) (u32 (Z.shiftl 1 r)))).

Definition RegisterSet_Remove (s : RegisterSet) (loc : Location) : option RegisterSet :=
  if IsRegister loc then
    r ← reg loc;
    Some (Build_RegisterSet (Z.land (core_registers_ s) (u32 (Z.lnot (u32 (Z.shiftl 1 r)))))
                            (floating_point_registers_ s))
  else
    DCHECK IsFpuRegister loc;
    r ← reg loc;
    Some (Build_RegisterSet (core_registers_ s)
            (Z.land (floating_point_registers_ s) (u32 (Z.lnot (u32 (Z.shiftl 1 r)))))).

Definition ContainsCoreRegister (s : RegisterSet) (id : Z) : bool :=
  RegisterSet_Contains (core_registers_ s) id.
Definition ContainsFloatingPointRegister (s : RegisterSet) (id : Z) : bool :=
  RegisterSet_Contains (floating_point_registers_ s) id.

Definition OverlapsRegisters (s : RegisterSet) (out : Location) : option bool :=
  DCHECK IsRegisterKind out;
  if GetKind out =? kRegister then r ← reg out; Some (ContainsCoreRegister s r)
  else if GetKind out =? kFpuRegister then r ← reg out; Some (ContainsFloatingPointRegister s r)
  else if GetKind out =? kRegisterPair then
    lo ← low out; hi ← high out; Some (ContainsCoreRegister s lo || ContainsCoreRegister s hi)
  else
    lo ← low out; hi ← high out;
    Some (ContainsFloatingPointRegister s lo || ContainsFloatingPointRegister s hi).

Definition GetNumberOfRegisters (s : RegisterSet) : Z :=
  POPCOUNT 32 (core_registers_ s) + POPCOUNT 32 (floating_point_registers_ s).

(** ** What a location stands for

    [place] is the abstract operand, [encode] the call of the source's factory
    for it, [decode] what the accessors read back. *)

Inductive place :=
  | PConstant (constant : Z)
  | PStackSlot (index : Z)
  | PDoubleStackSlot (index : Z)
  | PSIMDStackSlot (index : Z)
  | PRegister (r : Z)
  | PFpuRegister (r : Z)
  | PRegisterPair (lo hi : Z)
  | PFpuRegisterPair (lo hi : Z)
  | PUnallocated (policy : Z).

#[global] Instance place_eq_dec : EqDecision place.
Proof. solve_decision. Defined.

Definition encode (p : place) : option Location :=
  match p with
  | PConstant c => ConstantLocation c
  | PStackSlot i => StackSlot i
  | PDoubleStackSlot i => DoubleStackSlot i
  | PSIMDStackSlot i => SIMDStackSlot i
  | PRegister r => RegisterLocation r
  | PFpuRegister r => FpuRegisterLocation r
  | PRegisterPair lo hi => RegisterPairLocation lo hi
  | PFpuRegisterPair lo hi => FpuRegisterPairLocation lo hi
  | PUnallocated policy => UnallocatedLocation policy
  end.

Definition decode (l : Location) : option place :=
  if IsConstant l then c ← GetConstant l; Some (PConstant c)
  else if IsStackSlot l then i ← GetStackIndex l; Some (PStackSlot i)
  else if IsDoubleStackSlot l then i ← GetStackIndex l; Some (PDoubleStackSlot i)
  else if IsSIMDStackSlot l then i ← GetStackIndex l; Some (PSIMDStackSlot i)
  else if IsRegister l then r ← reg l; Some (PRegister r)
  else if IsFpuRegister l then r ← reg l; Some (PFpuRegister r)
  else if IsRegisterPair l then lo ← low l; hi ← high l; Some (PRegisterPair lo hi)
  else if IsFpuRegisterPair l then lo ← low l; hi ← high l; Some (PFpuRegisterPair lo hi)
  else if IsUnallocated l then policy ← GetPolicy l; Some (PUnallocated policy)
  else None.

(** The operands the encoding has room for: constants are aligned objects,
    registers fit their fields. *)
Definition place_ok (p : place) : Prop :=
  match p with
  | PConstant c => is_u 64 c /\ 0 < c /\ c mod 4 = 0
  | PStackSlot i | PDoubleStackSlot i | PSIMDStackSlot i => -2 ^ 59 <= i < 2 ^ 59
  | PRegister r | PFpuRegister r => 0 <= r < 2 ^ 31
  | PRegisterPair lo hi | PFpuRegisterPair lo hi => 0 <= lo < 2 ^ 15 /\ 0 <= hi < 2 ^ 16
  | PUnallocated policy => 0 <= policy < 8
  end.

#[global] Instance place_ok_dec p : Decision (place_ok p).
Proof. unfold place_ok; destruct p; apply _. Defined.

(** The word each operand is encoded to. *)
Definition word_of (p : place) : Location :=
  match p with
  | PConstant c => c + 1
  | PStackSlot i => 2 + 16 * (2 ^ 59 + i)
  | PDoubleStackSlot i => 3 + 16 * (2 ^ 59 + i)
  | PSIMDStackSlot i => 10 + 16 * (2 ^ 59 + i)
  | PRegister r => 4 + 16 * r
  | PFpuRegister r => 6 + 16 * r
  | PRegisterPair lo hi => 7 + 16 * (lo * 65536 + hi)
  | PFpuRegisterPair lo hi => 8 + 16 * (lo * 65536 + hi)
  | PUnallocated policy => 11 + 16 * policy
  end.

#[local] Ltac Zify.zify_post_hook ::= Z.to_euclidean_division_equations.

Lemma BitField_Mask_eq size : 0 <= size < 64 -> BitField_Mask size = Z.ones size.
Proof.
  intros. unfold BitField_Mask. rewrite Z.shiftl_1_l, wrap_id.
  - by rewrite Z.ones_equiv, Z.sub_1_r.
  - unfold is_u. split; [lia|]. apply Z.pow_lt_mono_r; lia.
Qed.

Lemma BitField_Decode_eq position size value :
  0 <= position -> 0 <= size < 64 ->
  BitField_Decode position size value = value / 2 ^ position mod 2 ^ size.
Proof.
  intros. unfold BitField_Decode.
  rewrite BitField_Mask_eq, Z.land_ones, Z.shiftr_div_pow2; lia.
Qed.

Lemma BitField_IsValid_iff size value :
  0 <= size < 64 -> is_u 64 value -> BitField_IsValid size value = true <-> is_u size value.
Proof.
  intros Hs Hv. unfold BitField_IsValid. rewrite BitField_Mask_eq by lia.
  rewrite (wrap_id 64 value) by done. rewrite Z.eqb_eq. split.
  - intros H. apply is_u_bits; [lia|apply Hv|].
    intros i Hi. destruct (Z.testbit value i) eqn:E; [|done].
    destruct (Z.ltb_spec i 64) as [Hl|].
    + apply (f_equal (fun z => Z.testbit z i)) in H. revert H.
      rewrite Z.land_spec, testbit_wrap, testbit_lnot, Z.bits_0, E by lia.
      rewrite Z.ones_spec_high by lia. repeat case_match; simpl in *; lia || done.
    + rewrite (testbit_high 64) in E; done.
  - intros H. apply Z.bits_inj'. intros i Hi.
    rewrite Z.land_spec, testbit_wrap, testbit_lnot, Z.bits_0 by lia.
    destruct (Z.ltb_spec i size).
    + rewrite Z.ones_spec_low by lia. simpl. by rewrite !andb_false_r.
    + by rewrite (testbit_high size).
Qed.

Lemma BitField_Encode_eq position size value :
  0 <= position -> 0 <= size < 64 -> position + size <= 64 -> is_u size value ->
  BitField_Encode position size value = Some (value * 2 ^ position).
Proof.
  intros Hp Hs Hps Hv. assert (is_u 64 value) by (eapply is_u_weaken; [|done]; lia).
  unfold BitField_Encode. rewrite (proj2 (BitField_IsValid_iff size value Hs H) Hv). simpl.
  rewrite (wrap_id 64 value), Z.shiftl_mul_pow2 by done. rewrite wrap_id; [done|].
  unfold is_u in *. split; [nia|].
  apply Z.lt_le_trans with (2 ^ size * 2 ^ position).
  - apply Z.mul_lt_mono_pos_r; lia.
  - rewrite <- Z.pow_add_r by lia. apply Z.pow_le_mono_r; lia.
Qed.

(** ** The encoding *)

Lemma make_Location_eq k p :
  0 <= k < 16 -> is_u 60 p -> make_Location k p = Some (k + 16 * p).
Proof.
  intros Hk Hp. unfold make_Location, kBitsForPayload, kBitsForKind.
  change (64 - 4) with 60.
  rewrite !BitField_Encode_eq by (unfold is_u in *; lia). cbn [mbind option_bind].
  change (2 ^ 0) with 1. rewrite Z.mul_1_r. f_equal.
  rewrite <- Z.shiftl_mul_pow2, <- (add_shiftl_lor 4) by (unfold is_u; lia).
  change (2 ^ 4) with 16. lia.
Qed.

Lemma GetPayload_eq k p : 0 <= k < 16 -> is_u 60 p -> GetPayload (k + 16 * p) = p.
Proof.
  intros Hk Hp. unfold GetPayload, kBitsForPayload, kBitsForKind, is_u in *.
  rewrite BitField_Decode_eq by lia.
  change (2 ^ (64 - 4)) with (2 ^ 60). change (2 ^ 4) with 16. lia.
Qed.

Lemma IsConstant_eq l : IsConstant l = (l mod 4 =? 1).
Proof.
  unfold IsConstant, kLocationConstantMask. change 3 with (Z.ones 2).
  by rewrite Z.land_ones by lia.
Qed.

Lemma GetKind_eq k p : 0 <= k < 16 -> k mod 4 <> 1 -> GetKind (k + 16 * p) = k.
Proof.
  intros Hk Hc. unfold GetKind. rewrite IsConstant_eq.
  destruct (Z.eqb_spec ((k + 16 * p) mod 4) 1); [lia|].
  unfold kBitsForKind. rewrite BitField_Decode_eq by lia.
  change (2 ^ 0) with 1. change (2 ^ 4) with 16. lia.
Qed.

Lemma IsConstant_kind k p : 0 <= k < 16 -> k mod 4 <> 1 -> IsConstant (k + 16 * p) = false.
Proof. intros. rewrite IsConstant_eq. lia. Qed.

Lemma GetKind_constant l : IsConstant l = true -> GetKind l = kConstant.
Proof. unfold GetKind. by intros ->. Qed.

(** The tests on a word of a known kind. *)
Ltac loc_kind :=
  unfold IsPair, IsRegisterKind, IsRegister, IsFpuRegister, IsRegisterPair, IsFpuRegisterPair,
    IsStackSlot, IsDoubleStackSlot, IsSIMDStackSlot, IsUnallocated;
  rewrite ?GetKind_eq, ?IsConstant_kind by lia;
  cbn [Z.eqb orb andb negb Pos.eqb kStackSlot kDoubleStackSlot kRegister kFpuRegister kRegisterPair
       kFpuRegisterPair kSIMDStackSlot kUnallocated kConstant kInvalid
       mbind option_bind dcheck].

Lemma GetStackIndex_eq k i :
  k = 2 \/ k = 3 \/ k = 10 -> -2 ^ 59 <= i < 2 ^ 59 ->
  GetStackIndex (k + 16 * (2 ^ 59 + i)) = Some i.
Proof.
  intros Hk Hi. unfold GetStackIndex.
  rewrite GetPayload_eq by (unfold is_u; lia).
  replace (dcheck _) with (Some tt) by (destruct Hk as [->|[->| ->]]; by loc_kind).
  cbn [mbind option_bind]. change kStackIndexBias with (2 ^ 59).
  replace (2 ^ 59 + i - 2 ^ 59) with i by lia. f_equal. unfold swrap, wrap. lia.
Qed.

Lemma GetHighStackIndex_eq i w :
  -2 ^ 59 <= i < 2 ^ 59 -> 0 <= w < 2 ^ 59 ->
  GetHighStackIndex (3 + 16 * (2 ^ 59 + i)) w = Some (i + w).
Proof.
  intros Hi Hw. unfold GetHighStackIndex. loc_kind.
  rewrite GetPayload_eq by (unfold is_u; lia). change kStackIndexBias with (2 ^ 59).
  f_equal. unfold swrap, wrap. lia.
Qed.

Lemma slot_of_kind_eq k i :
  k = 2 \/ k = 3 \/ k = 10 -> -2 ^ 59 <= i < 2 ^ 59 ->
  slot_of_kind k i = Some (k + 16 * (2 ^ 59 + i)).
Proof.
  intros Hk Hi. unfold slot_of_kind, EncodeStackIndex. change kStackIndexBias with (2 ^ 59).
  rewrite (proj2 (Z.leb_le _ _)), (proj2 (Z.ltb_lt _ _)) by lia.
  cbn [mbind option_bind dcheck]. rewrite wrap_id by (unfold is_u; lia).
  rewrite make_Location_eq
    by (unfold is_u; lia).
  cbn [mbind option_bind]. rewrite GetStackIndex_eq by done. cbn [mbind option_bind].
  by rewrite Z.eqb_refl.
Qed.

Lemma pair_payload lo hi :
  0 <= lo < 2 ^ 15 -> 0 <= hi < 2 ^ 16 ->
  u64 (Z.lor (s32 (Z.shiftl lo 16)) hi) = lo * 65536 + hi.
Proof.
  intros Hlo Hhi. rewrite Z.shiftl_mul_pow2 by lia.
  rewrite swrap_id by (unfold is_s; lia).
  rewrite Z.lor_comm, <- Z.shiftl_mul_pow2, <- add_shiftl_lor by (unfold is_u; lia).
  rewrite wrap_id by (unfold is_u; lia). lia.
Qed.

(** Each factory returns the word of its operand; no check fails. *)
Lemma encode_eq p : place_ok p -> encode p = Some (word_of p).
Proof.
  destruct p; cbn [place_ok encode word_of]; intros Hok.
  - unfold ConstantLocation. rewrite (proj2 (Z.eqb_neq _ _)) by lia. simpl.
    f_equal. pose proof (add_shiftl_lor 2 1 (constant / 4)) as E.
    replace (Z.shiftl (constant / 4) 2) with constant in E
      by (rewrite Z.shiftl_mul_pow2 by lia; lia).
    unfold kConstant. rewrite <- E; unfold is_u; lia.
  - apply slot_of_kind_eq; unfold kStackSlot, kDoubleStackSlot, kSIMDStackSlot; lia.
  - apply slot_of_kind_eq; unfold kStackSlot, kDoubleStackSlot, kSIMDStackSlot; lia.
  - apply slot_of_kind_eq; unfold kStackSlot, kDoubleStackSlot, kSIMDStackSlot; lia.
  - unfold RegisterLocation. rewrite wrap_id by (unfold is_u; lia).
    apply make_Location_eq; unfold is_u, kRegister; lia.
  - unfold FpuRegisterLocation. rewrite wrap_id by (unfold is_u; lia).
    apply make_Location_eq; unfold is_u, kFpuRegister; lia.
  - unfold RegisterPairLocation. rewrite pair_payload by lia.
    apply make_Location_eq; unfold is_u, kRegisterPair; lia.
  - unfold FpuRegisterPairLocation. rewrite pair_payload by lia.
    apply make_Location_eq; unfold is_u, kFpuRegisterPair; lia.
  - unfold UnallocatedLocation. rewrite BitField_Encode_eq by (unfold is_u; lia).
    cbn [mbind option_bind]. change (2 ^ 0) with 1. rewrite Z.mul_1_r.
    apply make_Location_eq; unfold is_u, kUnallocated; lia.
Qed.

Definition kind_of (p : place) : Z :=
  match p with
  | PConstant _ => kConstant
  | PStackSlot _ => kStackSlot
  | PDoubleStackSlot _ => kDoubleStackSlot
  | PSIMDStackSlot _ => kSIMDStackSlot
  | PRegister _ => kRegister
  | PFpuRegister _ => kFpuRegister
  | PRegisterPair _ _ => kRegisterPair
  | PFpuRegisterPair _ _ => kFpuRegisterPair
  | PUnallocated _ => kUnallocated
  end.

Lemma GetKind_word p : place_ok p -> GetKind (word_of p) = kind_of p.
Proof.
  destruct p; cbn [word_of place_ok kind_of]; intros Hok;
    [apply GetKind_constant; rewrite IsConstant_eq; lia|rewrite GetKind_eq; done || lia ..].
Qed.

Lemma IsConstant_word p :
  place_ok p -> IsConstant (word_of p) = match p with PConstant _ => true | _ => false end.
Proof.
  destruct p; cbn [word_of place_ok]; intros Hok; rewrite IsConstant_eq;
    case Z.eqb_spec; intros; done || lia.
Qed.

Lemma GetConstant_word c : place_ok (PConstant c) -> GetConstant (c + 1) = Some c.
Proof.
  cbn [place_ok]. intros Hok. unfold GetConstant.
  rewrite IsConstant_eq, (proj2 (Z.eqb_eq _ _)) by lia. cbn [dcheck mbind option_bind]. f_equal.
  assert (c = Z.shiftl (c / 4) 2) as Hc by (rewrite Z.shiftl_mul_pow2; lia).
  assert (c + 1 = Z.lor 1 c) as ->.
  { rewrite Hc at 2. rewrite <- add_shiftl_lor; unfold is_u; lia. }
  apply Z.bits_inj'. intros i Hi.
  rewrite Z.land_spec, Z.lor_spec, testbit_wrap, testbit_lnot by lia.
  change kLocationConstantMask with (Z.ones 2).
  destruct (Z.ltb_spec i 2).
  - rewrite Z.ones_spec_low by lia. rewrite Hc, testbit_shiftl.
    rewrite (Z.testbit_neg_r (c / 4)) by lia. simpl. by rewrite !andb_false_r.
  - rewrite Z.ones_spec_high, (testbit_high 1 1) by (unfold is_u; lia). simpl.
    destruct (Z.ltb_spec i 64); [|rewrite (testbit_high 64 c) by (done || apply Hok)].
    + rewrite (proj2 (Z.leb_le 0 i)) by lia. simpl. by rewrite andb_true_r.
    + done.
Qed.

Lemma reg_word k r : k = 4 \/ k = 6 -> 0 <= r < 2 ^ 31 -> reg (k + 16 * r) = Some r.
Proof.
  intros Hk Hr. unfold reg.
  replace (dcheck _) with (Some tt) by (destruct Hk as [->| ->]; by loc_kind).
  rewrite GetPayload_eq by (unfold is_u; lia). cbn [mbind option_bind].
  by rewrite swrap_id by (unfold is_s; lia).
Qed.

Lemma low_high_word k lo hi :
  k = 7 \/ k = 8 -> 0 <= lo < 2 ^ 15 -> 0 <= hi < 2 ^ 16 ->
  low (k + 16 * (lo * 65536 + hi)) = Some lo /\ high (k + 16 * (lo * 65536 + hi)) = Some hi.
Proof.
  intros Hk Hlo Hhi. unfold low, high.
  replace (dcheck _) with (Some tt) by (destruct Hk as [->| ->]; by loc_kind).
  rewrite GetPayload_eq by (unfold is_u; lia). cbn [mbind option_bind].
  rewrite Z.shiftr_div_pow2 by lia. change 65535 with (Z.ones 16). rewrite Z.land_ones by lia.
  rewrite !swrap_id by (unfold is_s; lia). split; f_equal; lia.
Qed.

Lemma GetPolicy_word policy : 0 <= policy < 8 -> GetPolicy (11 + 16 * policy) = Some policy.
Proof.
  intros Hp. unfold GetPolicy. loc_kind. rewrite GetPayload_eq by (unfold is_u; lia).
  rewrite BitField_Decode_eq by lia. change (2 ^ 0) with 1. change (2 ^ 3) with 8. f_equal. lia.
Qed.

Lemma word_of_is_u p : place_ok p -> is_u 64 (word_of p) /\ word_of p <> 0.
Proof. destruct p; cbn [place_ok word_of]; unfold is_u; lia. Qed.

Lemma decode_word p : place_ok p -> decode (word_of p) = Some p.
Proof.
  intros Hok. unfold decode. rewrite (IsConstant_word p Hok).
  unfold IsRegister, IsFpuRegister, IsRegisterPair, IsFpuRegisterPair,
    IsStackSlot, IsDoubleStackSlot, IsSIMDStackSlot, IsUnallocated.
  rewrite !(GetKind_word p Hok).
  destruct p; cbn [place_ok word_of kind_of] in *;
    cbn [Z.eqb Pos.eqb kStackSlot kDoubleStackSlot kRegister kFpuRegister kRegisterPair
         kFpuRegisterPair kSIMDStackSlot kUnallocated kConstant].
  - by rewrite GetConstant_word.
  - by rewrite GetStackIndex_eq by lia.
  - by rewrite GetStackIndex_eq by lia.
  - by rewrite GetStackIndex_eq by lia.
  - by rewrite reg_word by lia.
  - by rewrite reg_word by lia.
  - destruct (low_high_word 7 lo hi) as [-> ->]; [lia..|]. done.
  - destruct (low_high_word 8 lo hi) as [-> ->]; [lia..|]. done.
  - by rewrite GetPolicy_word by lia.
Qed.

Lemma word_of_inj p q : place_ok p -> place_ok q -> word_of p = word_of q -> p = q.
Proof.
  intros Hp Hq E. apply (f_equal decode) in E. rewrite !decode_word in E by done. congruence.
Qed.

(** ** The storage a location occupies

    Constants, registers and bytes of the stack frame. *)

Inductive cell := CConstant (c : Z) | CRegister (r : Z) | CFpuRegister (r : Z) | CStack (i : Z).

#[global] Instance cell_eq_dec : EqDecision cell.
Proof. solve_decision. Defined.

(** The cells of a place; [CStack i] stands here for the four bytes from [i]. *)
Definition cells (p : place) : list cell :=
  match p with
  | PConstant c => [CConstant c]
  | PStackSlot i => [CStack i]
  | PDoubleStackSlot i => [CStack i; CStack (i + 4)]
  | PSIMDStackSlot i => [CStack i; CStack (i + 4); CStack (i + 8); CStack (i + 12)]
  | PRegister r => [CRegister r]
  | PFpuRegister r => [CFpuRegister r]
  | PRegisterPair lo hi => [CRegister lo; CRegister hi]
  | PFpuRegisterPair lo hi => [CFpuRegister lo; CFpuRegister hi]
  | PUnallocated _ => []
  end.

Definition covers (w c : cell) : Prop :=
  match w, c with
  | CStack i, CStack b => i <= b < i + 4
  | _, _ => w = c
  end.

Definition occupies (p : place) (c : cell) : Prop := exists w, w ∈ cells p /\ covers w c.

Definition shares_storage (p q : place) : Prop := exists c, occupies p c /\ occupies q c.

(** Operands other than SIMD slots and unallocated locations; stack slots are
    word aligned, and the high word of a double slot has an index. *)
Definition operand (p : place) : bool :=
  match p with
  | PSIMDStackSlot _ | PUnallocated _ => false
  | PDoubleStackSlot i => (i mod 4 =? 0) && (i + 4 <? 2 ^ 59)
  | PStackSlot i => i mod 4 =? 0
  | _ => true
  end.

Definition wide (p : place) : bool :=
  match p with PDoubleStackSlot _ | PRegisterPair _ _ | PFpuRegisterPair _ _ => true | _ => false end.

Definition low_place (p : place) : place :=
  match p with
  | PDoubleStackSlot i => PStackSlot i
  | PRegisterPair lo _ => PRegister lo
  | PFpuRegisterPair lo _ => PFpuRegister lo
  | _ => p
  end.

Definition high_place (p : place) : place :=
  match p with
  | PDoubleStackSlot i => PStackSlot (i + 4)
  | PRegisterPair _ hi => PRegister hi
  | PFpuRegisterPair _ hi => PFpuRegister hi
  | _ => p
  end.

Lemma half_places_ok p :
  place_ok p -> operand p = true -> place_ok (low_place p) /\ place_ok (high_place p).
Proof. destruct p; cbn [place_ok operand low_place high_place]; intros; split; done || lia. Qed.

Lemma Equals_word p q :
  place_ok p -> place_ok q -> Equals (word_of p) (word_of q) = bool_decide (p = q).
Proof.
  intros Hp Hq. unfold Equals. case Z.eqb_spec; case_bool_decide; try done; intros; subst; try done.
  destruct H. by apply word_of_inj.
Qed.

Lemma ToLow_word p :
  place_ok p -> wide p = true -> ToLow (word_of p) = Some (word_of (low_place p)).
Proof.
  intros Hok Hw. unfold ToLow, IsRegisterPair, IsFpuRegisterPair, IsDoubleStackSlot.
  rewrite !(GetKind_word p Hok).
  destruct p; try done; cbn [place_ok word_of kind_of low_place] in *; cbn [Z.eqb Pos.eqb
    kRegisterPair kFpuRegisterPair kDoubleStackSlot dcheck mbind option_bind].
  - rewrite GetStackIndex_eq by lia. cbn [mbind option_bind]. by apply (encode_eq (PStackSlot index)).
  - destruct (low_high_word 7 lo hi) as [-> _]; [lia..|]. cbn [mbind option_bind].
    apply (encode_eq (PRegister lo)). cbn [place_ok]. lia.
  - destruct (low_high_word 8 lo hi) as [-> _]; [lia..|]. cbn [mbind option_bind].
    apply (encode_eq (PFpuRegister lo)). cbn [place_ok]. lia.
Qed.

Lemma ToHigh_word p :
  place_ok p -> operand p = true -> wide p = true ->
  ToHigh (word_of p) = Some (word_of (high_place p)).
Proof.
  intros Hok Ho Hw. unfold ToHigh, IsRegisterPair, IsFpuRegisterPair, IsDoubleStackSlot.
  rewrite !(GetKind_word p Hok).
  destruct p; try done; cbn [place_ok word_of kind_of high_place operand] in *; cbn [Z.eqb Pos.eqb
    kRegisterPair kFpuRegisterPair kDoubleStackSlot dcheck mbind option_bind].
  - rewrite GetHighStackIndex_eq by lia. cbn [mbind option_bind].
    apply (encode_eq (PStackSlot (index + 4))). cbn [place_ok]. lia.
  - destruct (low_high_word 7 lo hi) as [_ ->]; [lia..|]. cbn [mbind option_bind].
    apply (encode_eq (PRegister hi)). cbn [place_ok]. lia.
  - destruct (low_high_word 8 lo hi) as [_ ->]; [lia..|]. cbn [mbind option_bind].
    apply (encode_eq (PFpuRegister hi)). cbn [place_ok]. lia.
Qed.

Lemma wide_word p :
  place_ok p -> (IsPair (word_of p) || IsDoubleStackSlot (word_of p)) = wide p.
Proof.
  intros Hok. unfold IsPair, IsRegisterPair, IsFpuRegisterPair, IsDoubleStackSlot.
  rewrite !(GetKind_word p Hok). by destruct p.
Qed.

(** [Contains] on encoded operands. *)
Definition contains (p q : place) : bool :=
  bool_decide (p = q) || wide p && (bool_decide (low_place p = q) || bool_decide (high_place p = q)).

Lemma Contains_word p q :
  place_ok p -> place_ok q -> operand p = true ->
  Contains (word_of p) (word_of q) = Some (contains p q).
Proof.
  intros Hp Hq Ho. unfold Contains, contains. destruct (half_places_ok p Hp Ho) as [Hl Hh].
  rewrite wide_word, Equals_word by done. case_bool_decide; [done|]. simpl.
  destruct (wide p) eqn:W; [|done].
  rewrite ToLow_word, ToHigh_word by done. cbn [mbind option_bind].
  rewrite !Equals_word by done. by case_bool_decide.
Qed.

Definition both_wide (p q : place) : bool :=
  match p, q with
  | PDoubleStackSlot _, PDoubleStackSlot _ => true
  | (PRegisterPair _ _ | PFpuRegisterPair _ _), (PRegisterPair _ _ | PFpuRegisterPair _ _) => true
  | _, _ => false
  end.

Lemma both_wide_word p q :
  place_ok p -> place_ok q ->
  (IsPair (word_of p) && IsPair (word_of q))
  || (IsDoubleStackSlot (word_of p) && IsDoubleStackSlot (word_of q)) = both_wide p q.
Proof.
  intros Hp Hq. unfold IsPair, IsRegisterPair, IsFpuRegisterPair, IsDoubleStackSlot.
  rewrite !(GetKind_word p Hp), !(GetKind_word q Hq). by destruct p, q.
Qed.

Lemma both_wide_wide p q : both_wide p q = true -> wide p = true /\ wide q = true.
Proof. by destruct p, q. Qed.

Lemma OverlapsWith_word p q :
  place_ok p -> place_ok q -> operand p = true -> operand q = true ->
  OverlapsWith (word_of p) (word_of q) =
    if contains p q || contains q p then Some true
    else if both_wide p q && (contains p (low_place q) || contains p (high_place q)) then None
    else Some false.
Proof.
  intros Hp Hq Op Oq. unfold OverlapsWith.
  destruct (half_places_ok q Hq Oq) as [Hl Hh].
  rewrite both_wide_word, !Contains_word by done. cbn [mbind option_bind].
  destruct (contains p q); [done|]. cbn [mbind option_bind].
  destruct (contains q p); [done|]. simpl.
  destruct (both_wide p q) eqn:W; [|done]. apply both_wide_wide in W as [_ W]. simpl.
  rewrite ToLow_word, ToHigh_word by done. cbn [mbind option_bind].
  rewrite !Contains_word by done. cbn [mbind option_bind].
  by destruct (contains p (low_place q)), (contains p (high_place q)).
Qed.

(** Words are aligned, so sharing a byte is sharing a word. *)
Lemma shares_cells p q :
  operand p = true -> operand q = true ->
  shares_storage p q <-> exists w, w ∈ cells p /\ w ∈ cells q.
Proof.
  intros Op Oq. assert (forall p i, operand p = true -> CStack i ∈ cells p -> i mod 4 = 0) as Hal.
  { clear. intros [] i; cbn [operand cells]; intros Ho Hi; try done; set_unfold; naive_solver lia. }
  split.
  - intros (c & (w & Hw & Cw) & (w' & Hw' & Cw')).
    assert (w = w') as <-; [|eauto].
    destruct w, c, w'; cbn [covers] in *; try congruence.
    specialize (Hal _ _ Op Hw) as A1. specialize (Hal _ _ Oq Hw') as A2. f_equal. lia.
  - intros (w & Hw & Hw'). exists w.
    assert (covers w w) by (destruct w; cbn [covers]; done || lia).
    by split; exists w.
Qed.

Lemma contains_spec p q :
  operand p = true -> operand q = true -> contains p q || contains q p = true -> shares_storage p q.
Proof.
  intros Op Oq. rewrite (shares_cells p q Op Oq). unfold contains.
  destruct p, q; try done; cbn [cells wide low_place high_place andb];
    repeat case_bool_decide; simplify_eq; intros; try done;
    eauto 6 using list_elem_of_here, list_elem_of_further.
Qed.

Lemma shares_spec p q :
  operand p = true -> operand q = true -> shares_storage p q ->
  contains p q || contains q p = true \/
  both_wide p q && (contains p (low_place q) || contains p (high_place q)) = true.
Proof.
  intros Op Oq. rewrite (shares_cells p q Op Oq). unfold contains.
  destruct p, q; try done; cbn [cells wide low_place high_place andb both_wide];
    intros (w & H1 & H2); set_unfold; destruct_or?; simplify_eq;
    rewrite ?orb_true_iff, ?bool_decide_eq_true; try done;
    first [by auto 10|by (assert (index = index0) as -> by lia; auto 10)].
Qed.

Lemma halves_spec p q :
  operand p = true -> operand q = true -> both_wide p q = true ->
  contains p (low_place q) || contains p (high_place q) = true -> shares_storage p q.
Proof.
  intros Op Oq W. rewrite (shares_cells p q Op Oq). unfold contains.
  destruct p, q; try done; cbn [cells wide low_place high_place andb];
    rewrite !orb_true_iff, !bool_decide_eq_true; intros; destruct_or?; simplify_eq;
    try (assert (index = index0) as -> by lia);
    eauto 6 using list_elem_of_here, list_elem_of_further.
Qed.

(** ** Properties *)

(** C39: a location is a faithful encoding of its operand.  For every constant,
    register, register pair, stack slot and policy in range the factory of its
    kind passes its debug checks and returns a valid word from which the kind
    tests and accessors read the operand back (negative stack indices
    included), and two operands with the same word are the same operand. *)
Theorem location_roundtrip (p q : place) (Hp : place_ok p) (Hq : place_ok q) :
  exists l, encode p = Some l /\ is_u 64 l /\ IsValid l = true /\
    GetKind l = kind_of p /\ decode l = Some p /\
    (encode q = Some l -> q = p).
Proof.
  exists (word_of p). destruct (word_of_is_u p Hp) as [? Hnz].
  rewrite !encode_eq, GetKind_word, decode_word by done. unfold IsValid, kInvalid.
  rewrite (proj2 (Z.eqb_neq _ _) Hnz).
  repeat split; try done; [apply H|apply H|].
  intros [= E]. by apply word_of_inj.
Qed.

Lemma location_roundtrip_witness :
  exists l, encode (PDoubleStackSlot (-8)) = Some l /\ is_u 64 l /\ IsValid l = true /\
    GetKind l = kDoubleStackSlot /\ decode l = Some (PDoubleStackSlot (-8)) /\
    (encode (PStackSlot (-8)) = Some l -> PStackSlot (-8) = PDoubleStackSlot (-8)).
Proof.
  apply (location_roundtrip (PDoubleStackSlot (-8)) (PStackSlot (-8))); cbn [place_ok]; lia.
Defined.

(** All operands, with the SIMD slots that vectorized loops spill to. *)
Definition simd (p : place) : bool := match p with PSIMDStackSlot _ => true | _ => false end.

Definition storage_operand (p : place) : bool := operand p || simd p.

Lemma simd_contains p q :
  place_ok p -> place_ok q -> storage_operand p = true -> simd p || simd q = true ->
  Contains (word_of p) (word_of q) = Some (bool_decide (p = q)).
Proof.
  intros Hp Hq Op Hs. destruct (simd p) eqn:Sp.
  - unfold Contains. rewrite Equals_word, wide_word by done. destruct p; try done. by case_bool_decide.
  - unfold storage_operand in Op. rewrite Sp, orb_false_r in Op. rewrite Contains_word by done. unfold contains. f_equal.
    destruct q; try done. by destruct p; cbn [wide low_place high_place andb orb]; rewrite ?orb_false_r.
Qed.

Lemma simd_overlap p q :
  place_ok p -> place_ok q -> storage_operand p = true -> storage_operand q = true -> simd p || simd q = true ->
  OverlapsWith (word_of p) (word_of q) = Some (bool_decide (p = q)).
Proof.
  intros Hp Hq Op Oq Hs. unfold OverlapsWith. rewrite both_wide_word by done.
  rewrite !simd_contains by (done || by rewrite orb_comm). cbn [mbind option_bind].
  destruct (bool_decide (p = q)) eqn:E; [done|]. apply bool_decide_eq_false in E.
  rewrite bool_decide_false by congruence. by destruct p, q.
Qed.

(** Every operand has storage of its own. *)
Lemma shares_itself p : storage_operand p = true -> shares_storage p p.
Proof.
  intros Op. assert (exists w, w ∈ cells p) as [w Hw].
  { destruct p; try done; eexists; apply list_elem_of_here. }
  assert (covers w w) by (destruct w; cbn [covers]; done || lia). exists w. by split; exists w.
Qed.

(** C38: [OverlapsWith] decides whether two operands share a register, a constant
    or a byte of the frame, except that a SIMD slot overlaps with nothing but
    itself.  For all operands with word-aligned single and double slots, it answers true
    exactly if they share storage and are equal or both no SIMD slots; its debug
    check fires only on two different double slots, or two different pairs,
    which do share storage. *)
Theorem overlap_shares_storage (p q : place)
    (Hp : place_ok p) (Hq : place_ok q) (Op : storage_operand p = true) (Oq : storage_operand q = true) :
  exists l l', encode p = Some l /\ encode q = Some l' /\
  match OverlapsWith l l' with
  | Some b => b = true <-> shares_storage p q /\ (p = q \/ simd p = false /\ simd q = false)
  | None => wide p = true /\ wide q = true /\ p <> q /\ shares_storage p q
  end.
Proof.
  exists (word_of p), (word_of q). rewrite !encode_eq by done. split; [done|]. split; [done|].
  destruct (simd p || simd q) eqn:Hs.
  { rewrite simd_overlap, bool_decide_eq_true by done. split.
    - intros ->. split; [by apply shares_itself|by left].
    - intros [_ [E|[E1 E2]]]; [done|]. by rewrite E1, E2 in Hs. }
  apply orb_false_iff in Hs as [Sp Sq].
  pose proof Op as Op'. pose proof Oq as Oq'. unfold storage_operand in Op', Oq'.
  rewrite Sp, orb_false_r in Op'. rewrite Sq, orb_false_r in Oq'.
  rewrite OverlapsWith_word by done.
  pose proof (contains_spec p q Op' Oq') as C. pose proof (shares_spec p q Op' Oq') as S.
  destruct (contains p q || contains q p) eqn:E; [naive_solver|].
  destruct (both_wide p q && (contains p (low_place q) || contains p (high_place q))) eqn:B.
  - apply andb_prop in B as [W B]. destruct (both_wide_wide p q W) as [Wp Wq].
    repeat split; try done.
    + intros ->. unfold contains in E. by rewrite bool_decide_true in E.
    + by apply halves_spec.
  - split; [done|]. intros [Hs _]. destruct (S Hs); congruence.
Qed.

Lemma overlap_shares_storage_witness :
  exists l l', encode (PDoubleStackSlot 16) = Some l /\ encode (PSIMDStackSlot 8) = Some l' /\
  match OverlapsWith l l' with
  | Some b => b = true <-> shares_storage (PDoubleStackSlot 16) (PSIMDStackSlot 8) /\
      (PDoubleStackSlot 16 = PSIMDStackSlot 8 \/ simd (PDoubleStackSlot 16) = false /\ simd (PSIMDStackSlot 8) = false)
  | None => wide (PDoubleStackSlot 16) = true /\ wide (PSIMDStackSlot 8) = true /\
      PDoubleStackSlot 16 <> PSIMDStackSlot 8 /\
      shares_storage (PDoubleStackSlot 16) (PSIMDStackSlot 8)
  end.
Proof.
  apply (overlap_shares_storage (PDoubleStackSlot 16) (PSIMDStackSlot 8)); vm_compute; intuition discriminate.
Defined.
