(* ===== verification/ParallelMove.v ===== *)
(** * The parallel move resolver without swaps

    compiler/optimizing/parallel_move_resolver.cc, the [MoveOperands] of
    compiler/optimizing/nodes.h and the arm64 backend of
    compiler/optimizing/code_generator_arm64.cc.  A parallel move assigns all its
    sources to all its destinations at once; the resolver emits single moves
    with the same effect, breaking each dependency cycle with a scratch
    location.  The resolver's state is a record passed through every operation;
    the emitted moves are its last field. *)

From Stdlib Require Import ZArith Lia Bool List.
From stdpp Require Import base numbers list option sets.
From S2P Require Import Prelude BitUtils Locations.

Local Open Scope Z_scope.
Local Open Scope art_scope.

(** ** MoveOperands *)

Inductive DataType :=
  | kReference | kBool | kUint8 | kInt8 | kUint16 | kInt16 | kUint32 | kInt32
  | kUint64 | kInt64 | kFloat32 | kFloat64 | kVoid.

Definition Is64BitType (type : DataType) : bool :=
  match type with kUint64 | kInt64 | kFloat64 => true | _ => false end.

(** [instruction_] serves debug messages only. *)
Record MoveOperands := {
  source_ : Location;
  destination_ : Location;
  type_ : DataType;
}.

Definition SetSource (m : MoveOperands) (value : Location) : MoveOperands :=
  Build_MoveOperands value (destination_ m) (type_ m).

Definition SetDestination (m : MoveOperands) (value : Location) : MoveOperands :=
  Build_MoveOperands (source_ m) value (type_ m).

Definition IsPending (m : MoveOperands) : option bool :=
  DCHECK IsValid (source_ m) || IsInvalid (destination_ m);
  Some (IsInvalid (destination_ m) && IsValid (source_ m)).

Definition MarkPending (m : MoveOperands) : option (Location * MoveOperands) :=
  p ← IsPending m; DCHECK negb p;
  Some (destination_ m, SetDestination m NoLocation).

Definition ClearPending (m : MoveOperands) (dest : Location) : option MoveOperands :=
  p ← IsPending m; DCHECK p;
  Some (SetDestination m dest).

Definition IsEliminated (m : MoveOperands) : option bool :=
  DCHECK implb (IsInvalid (source_ m)) (IsInvalid (destination_ m));
  Some (IsInvalid (source_ m)).

Definition Blocks (m : MoveOperands) (loc : Location) : option bool :=
  e ← IsEliminated m;
  if (e : bool) then Some false else OverlapsWith (source_ m) loc.

Definition IsRedundant (m : MoveOperands) : option bool :=
  e ← IsEliminated m;
  Some (e || IsInvalid (destination_ m) || Equals (source_ m) (destination_ m)).

Definition Eliminate (m : MoveOperands) : MoveOperands :=
  Build_MoveOperands NoLocation NoLocation (type_ m).

Definition Is64BitMove (m : MoveOperands) : bool := Is64BitType (type_ m).

(** ** The resolver

    [x_temps] and [v_temps] are the core and vector registers the VIXL scratch
    scope of the arm64 resolver has available; [emitted] lists the (source,
    destination) pairs passed to [CodeGeneratorARM64::MoveLocation]. *)

Record Resolver := {
  moves_ : list MoveOperands;
  pending_moves_ : list MoveOperands;
  scratches_ : list Location;
  x_temps : list Z;
  v_temps : list Z;
  emitted : list (Location * Location);
}.

Definition set_moves (st : Resolver) (ms : list MoveOperands) : Resolver :=
  Build_Resolver ms (pending_moves_ st) (scratches_ st) (x_temps st) (v_temps st) (emitted st).
Definition set_pending (st : Resolver) (ps : list MoveOperands) : Resolver :=
  Build_Resolver (moves_ st) ps (scratches_ st) (x_temps st) (v_temps st) (emitted st).
Definition set_scratches (st : Resolver) (ls : list Location) : Resolver :=
  Build_Resolver (moves_ st) (pending_moves_ st) ls (x_temps st) (v_temps st) (emitted st).
Definition set_temps (st : Resolver) (xs vs : list Z) : Resolver :=
  Build_Resolver (moves_ st) (pending_moves_ st) (scratches_ st) xs vs (emitted st).

(** [moves_[index]] is a pointer: writing through it updates the list. *)
Definition put (st : Resolver) (index : Z) (m : MoveOperands) : option Resolver :=
  ms ← awrite (moves_ st) index m; Some (set_moves st ms).

(** [for (MoveOperands* move : moves) if (move->Blocks(loc)) return true;]. *)
Fixpoint any_blocks (ms : list MoveOperands) (loc : Location) : option bool :=
  match ms with
  | [] => Some false
  | m :: ms' => b ← Blocks m loc; if (b : bool) then Some true else any_blocks ms' loc
  end.

Definition IsBlockedByMoves (st : Resolver) (loc : Location) : option bool :=
  b ← any_blocks (pending_moves_ st) loc;
  if (b : bool) then Some true else any_blocks (moves_ st) loc.

(** The first location of the kind that no outstanding move reads. *)
Fixpoint find_scratch (st : Resolver) (kind : Z) (locs : list Location) : option Location :=
  match locs with
  | [] => Some NoLocation
  | loc :: locs' =>
      if GetKind loc =? kind then
        b ← IsBlockedByMoves st loc;
        if negb b then Some loc else find_scratch st kind locs'
      else find_scratch st kind locs'
  end.

Definition GetScratchLocation (st : Resolver) (kind : Z) : option Location :=
  loc ← find_scratch st kind (scratches_ st);
  if IsValid loc then Some loc
  else find_scratch st kind (map destination_ (moves_ st)).

Definition AddScratchLocation (st : Resolver) (loc : Location) : option Resolver :=
  DCHECK forallb (fun scratch => negb (Equals loc scratch)) (scratches_ st);
  Some (set_scratches st (scratches_ st ++ [loc])).

Fixpoint erase_first (loc : Location) (ls : list Location) : list Location :=
  match ls with
  | [] => []
  | l :: ls' => if Equals loc l then ls' else l :: erase_first loc ls'
  end.

Definition RemoveScratchLocation (st : Resolver) (loc : Location) : option Resolver :=
  b ← IsBlockedByMoves st loc; DCHECK negb b;
  Some (set_scratches st (erase_first loc (scratches_ st))).

Definition UpdateMoveSource (st : Resolver) (from to : Location) : Resolver :=
  set_moves st
    (map (fun m => if Equals (source_ m) from then SetSource m to else m) (moves_ st)).

Definition AddPendingMove (st : Resolver) (source destination : Location) (type : DataType)
    : Resolver :=
  set_pending st (pending_moves_ st ++ [Build_MoveOperands source destination type]).

(** The index of the first pending move into [loc] that nothing blocks. *)
Fixpoint find_unblocked (st : Resolver) (loc : Location) (ps : list MoveOperands) (i : Z)
    : option (option (Z * MoveOperands)) :=
  match ps with
  | [] => Some None
  | m :: ps' =>
      o ← OverlapsWith (destination_ m) loc;
      if (o : bool) then
        b ← IsBlockedByMoves st (destination_ m);
        if negb b then Some (Some (i, m)) else find_unblocked st loc ps' (i + 1)
      else find_unblocked st loc ps' (i + 1)
  end.

Definition GetUnblockedPendingMove (st : Resolver) (loc : Location)
    : option (option (Z * MoveOperands)) :=
  find_unblocked st loc (pending_moves_ st) 0.

(** The pending move is found by its address, which is its index here. *)
Definition DeletePendingMove (st : Resolver) (i : Z) : Resolver :=
  set_pending st (delete (Z.to_nat i) (pending_moves_ st)).

Definition GetNumberOfPendingMoves (st : Resolver) : Z := zlength (pending_moves_ st).

Definition BuildInitialMoveList (moves parallel_move : list MoveOperands)
    : option (list MoveOperands) :=
  for_loop (length parallel_move) 0 (fun i moves =>
    move ← aread parallel_move i;
    r ← IsRedundant move;
    Some (if negb r then moves ++ [move] else moves)) moves.

(** [EmitMove] of the arm64 resolver. *)
Definition EmitMove (st : Resolver) (index : Z) : option Resolver :=
  move ← aread (moves_ st) index;
  Some (Build_Resolver (moves_ st) (pending_moves_ st) (scratches_ st) (x_temps st) (v_temps st)
          (emitted st ++ [(source_ move, destination_ move)])).

Section NoSwap.

(** [acquire pool] is VIXL's [UseScratchRegisterScope::AcquireX] (or [AcquireD],
    [AcquireVRegisterOfSize]): a register of the pool and the pool without it. *)
Variable acquire : list Z -> option (Z * list Z).

Definition AllocateScratchLocationFor (st : Resolver) (kind : Z) : option (Location * Resolver) :=
  DCHECK (kind =? kRegister) || (kind =? kFpuRegister) || (kind =? kStackSlot)
         || (kind =? kDoubleStackSlot) || (kind =? kSIMDStackSlot);
  let kind := if (kind =? kFpuRegister) || (kind =? kSIMDStackSlot) then kFpuRegister
              else kRegister in
  scratch ← GetScratchLocation st kind;
  if negb (Equals scratch NoLocation) then Some (scratch, st)
  else if kind =? kRegister then
    '(r, xs) ← acquire (x_temps st);
    scratch ← RegisterLocation r;
    st ← AddScratchLocation (set_temps st xs (v_temps st)) scratch;
    Some (scratch, st)
  else
    '(r, vs) ← acquire (v_temps st);
    scratch ← FpuRegisterLocation r;
    st ← AddScratchLocation (set_temps st (x_temps st) vs) scratch;
    Some (scratch, st).

Definition FreeScratchLocation (st : Resolver) (loc : Location) : option Resolver :=
  st ← (if IsRegister loc then
          r ← reg loc; Some (set_temps st (r :: x_temps st) (v_temps st))
        else
          DCHECK IsFpuRegister loc;
          r ← reg loc; Some (set_temps st (x_temps st) (r :: v_temps st)));
  RemoveScratchLocation st loc.

(** [for (size_t i = 0; i < scratches_.size(); ++i)], the size read each time;
    [fuel] is the size on entry. *)
Fixpoint free_scratches (fuel : nat) (st : Resolver) (i : Z) (pending_source : Location)
    : option Resolver :=
  if i <? zlength (scratches_ st) then
    match fuel with
    | O => None
    | S fuel =>
        scratch ← aread (scratches_ st) i;
        o ← OverlapsWith scratch pending_source;
        st ← (if (o : bool) then
                b ← IsBlockedByMoves st scratch;
                if negb b then FreeScratchLocation st pending_source else Some st
              else Some st);
        free_scratches fuel st (i + 1) pending_source
    end
  else Some st.

(** The [while] loop at the end of [PerformMove]; every iteration deletes a
    pending move. *)
Fixpoint perform_pending (fuel : nat) (st : Resolver) (index : Z) (source : Location)
    : option Resolver :=
  u ← GetUnblockedPendingMove st source;
  match u with
  | None => Some st
  | Some (i, pending_move) =>
      match fuel with
      | O => None
      | S fuel =>
          let pending_source := source_ pending_move in
          let pending_destination := destination_ pending_move in
          let st := DeletePendingMove st i in
          move ← aread (moves_ st) index;
          let move := SetDestination (SetSource move pending_source) pending_destination in
          st ← put st index move;
          st ← EmitMove st index;
          st ← put st index (Eliminate move);
          let st := UpdateMoveSource st pending_source pending_destination in
          st ← free_scratches (length (scratches_ st)) st 0 pending_source;
          perform_pending fuel st index source
      end
  end.

(** The second half of [PerformMove], once the blocking moves are done. *)
Definition resolve_move (st : Resolver) (index : Z) (destination : Location) : option Resolver :=
  move ← aread (moves_ st) index;
  move ← ClearPending move destination;
  st ← put st index move;
  r ← IsRedundant move; DCHECK negb r;
  let source := source_ move in
  blocked ← IsBlockedByMoves st destination;
  st ← (if (blocked : bool) then
          let kind := GetKind source in
          DCHECK negb (kind =? kConstant);
          '(scratch, st) ← AllocateScratchLocationFor st kind;
          let type := if Is64BitMove move then kInt64 else kInt32 in
          let move := SetDestination move scratch in
          st ← put st index move;
          st ← EmitMove st index;
          st ← put st index (Eliminate move);
          let st := UpdateMoveSource st source scratch in
          Some (AddPendingMove st scratch destination type)
        else
          st ← EmitMove st index;
          st ← put st index (Eliminate move);
          Some (UpdateMoveSource st source destination));
  perform_pending (length (pending_moves_ st)) st index source.

(** [fuel] bounds the recursion depth: each frame has marked another move. *)
Fixpoint PerformMove (fuel : nat) (st : Resolver) (index : Z) : option Resolver :=
  match fuel with
  | O => None
  | S fuel =>
      move ← aread (moves_ st) index;
      p ← IsPending move; DCHECK negb p;
      e ← IsEliminated move; DCHECK negb e;
      r ← IsRedundant move;
      if (r : bool) then put st index (Eliminate move)
      else
        DCHECK negb (IsInvalid (source_ move));
        '(destination, marked) ← MarkPending move;
        st ← put st index marked;
        st ← for_loop (length (moves_ st)) 0 (fun i st =>
               other_move ← aread (moves_ st) i;
               b ← Blocks other_move destination;
               if (b : bool) then
                 p ← IsPending other_move;
                 if negb p then PerformMove fuel st i else Some st
               else Some st) st;
        resolve_move st index destination
  end.

(** The three loops of [EmitNativeCode]. *)
Definition perform_moves (st : Resolver) : option Resolver :=
  for_loop (length (moves_ st)) 0 (fun i st =>
    move ← aread (moves_ st) i;
    e ← IsEliminated move;
    if negb e && negb (IsConstant (source_ move))
    then PerformMove (S (length (moves_ st))) st i else Some st) st.

Definition perform_constant_moves (st : Resolver) : option Resolver :=
  for_loop (length (moves_ st)) 0 (fun i st =>
    move ← aread (moves_ st) i;
    let destination := destination_ move in
    e ← IsEliminated move;
    if negb e && negb (IsStackSlot destination) && negb (IsDoubleStackSlot destination) then
      let source := source_ move in
      st ← EmitMove st i;
      st ← put st i (Eliminate move);
      Some (UpdateMoveSource st source destination)
    else Some st) st.

Definition perform_rest (st : Resolver) : option Resolver :=
  for_loop (length (moves_ st)) 0 (fun i st =>
    move ← aread (moves_ st) i;
    e ← IsEliminated move;
    if negb e then st ← EmitMove st i; put st i (Eliminate move) else Some st) st.

(** [xs] and [vs] are the assembler's scratch registers, which
    [PrepareForEmitNativeCode] opens the scope with and
    [FinishEmitNativeCode] takes back. *)
Definition EmitNativeCode (st : Resolver) (xs vs : list Z) (parallel_move : list MoveOperands)
    : option Resolver :=
  DCHECK GetNumberOfPendingMoves st =? 0;
  DCHECK zlength (moves_ st) =? 0;
  DCHECK zlength (scratches_ st) =? 0;
  let st := set_temps st xs vs in
  moves ← BuildInitialMoveList (moves_ st) parallel_move;
  let st := set_moves st moves in
  st ← perform_moves st;
  st ← perform_constant_moves st;
  st ← perform_rest st;
  DCHECK GetNumberOfPendingMoves st =? 0;
  let st := set_temps st [] [] in
  Some (set_scratches (set_moves st []) []).

End NoSwap.

(** ** The machine

    A machine state gives every location a value.  A move copies its source to
    its destination; what it does to other locations that overlap the
    destination is arbitrary ([clobber]), and it leaves the rest alone. *)

Section Semantics.
Context {V : Type} (clobber : (Location -> V) -> Location * Location -> Location -> V).

Definition exec_move (s : Location -> V) (mv : Location * Location) : Location -> V :=
  fun l =>
    if Equals l mv.2 then s mv.1
    else match OverlapsWith l mv.2 with Some false => s l | _ => clobber s mv l end.

Definition exec (code : list (Location * Location)) (s : Location -> V) : Location -> V :=
  fold_left exec_move code s.

Lemma exec_snoc code mv s : exec (code ++ [mv]) s = exec_move (exec code s) mv.
Proof. unfold exec. by rewrite fold_left_app. Qed.

End Semantics.

#[local] Ltac Zify.zify_post_hook ::= Z.to_euclidean_division_equations.

(** ** Correctness when different operands do not overlap

    [loc_ok] is the set of locations in play, [D] the destinations of the moves
    in [moves_], [want] the value each is to receive, [xs] and [vs] the scratch
    registers. *)

Section Correct.
Context {V : Type} (clobber : (Location -> V) -> Location * Location -> Location -> V).
Context (acquire : list Z -> option (Z * list Z)).
Context (acquire_ok : forall pool, pool <> [] ->
  exists r pool', acquire pool = Some (r, pool') /\ pool ≡ₚ (r :: pool')).
Context (loc_ok : Location -> Prop).
Context (loc_exact : forall a b, loc_ok a -> loc_ok b -> OverlapsWith a b = Some (Equals a b)).
Context (loc_valid : forall a, loc_ok a -> a <> 0).
Context (loc_kind : forall a, loc_ok a -> IsConstant a = false ->
  GetKind a ∈ [kRegister; kFpuRegister; kStackSlot; kDoubleStackSlot; kSIMDStackSlot]).
Context (D : list Location) (want : Location -> V) (xs vs : list Z) (s0 : Location -> V).
Context (D_nodup : NoDup D).
Context (D_ok : forall d, d ∈ D -> loc_ok d /\ IsConstant d = false).
Context (xs_ok : forall r, r ∈ xs ->
  0 <= r < 2 ^ 31 /\ loc_ok (word_of (PRegister r)) /\ word_of (PRegister r) ∉ D).
Context (vs_ok : forall r, r ∈ vs ->
  0 <= r < 2 ^ 31 /\ loc_ok (word_of (PFpuRegister r)) /\ word_of (PFpuRegister r) ∉ D).
Context (xs_nonempty : xs <> []) (vs_nonempty : vs <> []).

(** A scratch register. *)
Definition temp (l : Location) : Prop :=
  (exists r, r ∈ xs /\ l = word_of (PRegister r)) \/
  (exists r, r ∈ vs /\ l = word_of (PFpuRegister r)).

Definition gone (m : MoveOperands) : Prop := source_ m = 0 /\ destination_ m = 0.

(** The state of the move at index [k] with destination [d] while the moves in
    [S] are being performed: done (or handed to a pending move), or its source
    holds the value [d] wants. *)
Definition slot_ok (s : Location -> V) (ps : list MoveOperands) (S : list nat)
    (k : nat) (m : MoveOperands) (d : Location) : Prop :=
  (gone m /\ (k ∉ S) /\ (s d = want d \/ exists p, p ∈ ps /\ destination_ p = d)) \/
  (loc_ok (source_ m) /\ s (source_ m) = want d /\
   (k ∈ S -> destination_ m = 0 /\ source_ m <> d) /\ (k ∉ S -> destination_ m = d)).

Definition slots (s : Location -> V) (ms ps : list MoveOperands) (S : list nat) : Prop :=
  length ms = length D /\
  forall k m d, ms !! k = Some m -> D !! k = Some d -> slot_ok s ps S k m d.

(** Live moves read a scratch register only while it is in use. *)
Definition temps_read (ms : list MoveOperands) (ls : list Location) : Prop :=
  forall m, m ∈ ms -> temp (source_ m) -> source_ m ∈ ls.

(** At most one move is pending; its source is a scratch register or the
    destination of a move not yet started. *)
Definition pending_ok (s : Location -> V) (ms ps : list MoveOperands) (ls : list Location)
    (S : list nat) : Prop :=
  match ps with
  | [] => ls = []
  | [p] =>
      loc_ok (source_ p) /\ IsConstant (source_ p) = false /\
      s (source_ p) = want (destination_ p) /\
      (exists k m, D !! k = Some (destination_ p) /\ ms !! k = Some m /\ gone m) /\
      ((ls = [source_ p] /\ temp (source_ p)) \/
       (ls = [] /\ exists j m, D !! j = Some (source_ p) /\ ms !! j = Some m /\ ~ gone m /\ j ∉ S))
  | _ => False
  end.

Definition pool_ok (ls : list Location) (x v : list Z) : Prop :=
  match ls with
  | [] => x ≡ₚ xs /\ v ≡ₚ vs
  | [l] => (exists r, l = word_of (PRegister r) /\ (r :: x) ≡ₚ xs /\ v ≡ₚ vs) \/
           (exists r, l = word_of (PFpuRegister r) /\ x ≡ₚ xs /\ (r :: v) ≡ₚ vs)
  | _ => False
  end.

(** Locations that overlap neither a destination nor a scratch register. *)
Definition untouched (l : Location) : Prop :=
  forall t, t ∈ D \/ temp t -> l <> t /\ OverlapsWith l t = Some false.

Definition value (st : Resolver) : Location -> V := exec clobber (emitted st) s0.

Record Inv (st : Resolver) (S : list nat) : Prop := {
  inv_slots : slots (value st) (moves_ st) (pending_moves_ st) S;
  inv_pending : pending_ok (value st) (moves_ st) (pending_moves_ st) (scratches_ st) S;
  inv_temps : temps_read (moves_ st) (scratches_ st);
  inv_pool : pool_ok (scratches_ st) (x_temps st) (v_temps st);
  inv_frame : forall l, untouched l -> value st l = s0 l;
}.

(** *** Facts about the locations in play *)

Lemma D_inj i j d : D !! i = Some d -> D !! j = Some d -> i = j.
Proof. intros. by eapply NoDup_lookup. Qed.

Lemma D_lookup_ok k d : D !! k = Some d -> loc_ok d /\ IsConstant d = false.
Proof. intros H. apply D_ok. by apply list_elem_of_lookup_2 in H. Qed.

Lemma word_reg_const r : IsConstant (word_of (PRegister r)) = false.
Proof. cbn [word_of]. rewrite IsConstant_eq. apply Z.eqb_neq. lia. Qed.

Lemma word_fpu_const r : IsConstant (word_of (PFpuRegister r)) = false.
Proof. cbn [word_of]. rewrite IsConstant_eq. apply Z.eqb_neq. lia. Qed.

Lemma temp_ok l : temp l -> loc_ok l /\ IsConstant l = false /\ l ∉ D.
Proof.
  intros [(r & Hr & ->)|(r & Hr & ->)].
  - destruct (xs_ok r Hr) as (? & ? & ?). eauto using word_reg_const.
  - destruct (vs_ok r Hr) as (? & ? & ?). eauto using word_fpu_const.
Qed.

Lemma exec_move_ok (s : Location -> V) x d l :
  loc_ok d -> loc_ok l -> exec_move clobber s (x, d) l = if decide (l = d) then s x else s l.
Proof.
  intros Hd Hl. unfold exec_move. cbn [fst snd]. rewrite loc_exact by done.
  unfold Equals. case_decide; case Z.eqb_spec; done.
Qed.

Lemma exec_move_untouched (s : Location -> V) x d l :
  untouched l -> d ∈ D \/ temp d -> exec_move clobber s (x, d) l = s l.
Proof.
  intros Hl Hd. destruct (Hl d Hd) as [Hne E]. unfold exec_move. cbn [fst snd].
  rewrite E. unfold Equals. by rewrite (proj2 (Z.eqb_neq l d)).
Qed.

(** *** The queries on moves *)

Definition wf_move (m : MoveOperands) : Prop := gone m \/ loc_ok (source_ m).

Definition reads (ms : list MoveOperands) (l : Location) : bool :=
  existsb (fun m => Equals (source_ m) l) ms.

Lemma reads_false ms l : reads ms l = false <-> forall m, m ∈ ms -> source_ m <> l.
Proof.
  unfold reads, Equals. rewrite <- not_true_iff_false, existsb_exists. split.
  - intros H m Hm E. apply H. exists m. by rewrite <- list_elem_of_In, E, Z.eqb_refl.
  - intros H (m & Hm & E). apply list_elem_of_In in Hm. apply (H m Hm). by apply Z.eqb_eq.
Qed.

Lemma reads_true ms l : reads ms l = true -> exists m, m ∈ ms /\ source_ m = l.
Proof.
  unfold reads, Equals. rewrite existsb_exists. intros (m & Hm & E).
  exists m. rewrite list_elem_of_In. split; [done|]. by apply Z.eqb_eq.
Qed.

Lemma IsEliminated_gone m : gone m -> IsEliminated m = Some true.
Proof. intros [Hs Hd]. unfold IsEliminated. by rewrite Hs, Hd. Qed.

Lemma IsEliminated_live m : loc_ok (source_ m) -> IsEliminated m = Some false.
Proof.
  intros Hs. apply loc_valid in Hs. unfold IsEliminated, IsInvalid, IsValid, kInvalid.
  by rewrite (proj2 (Z.eqb_neq _ _) Hs).
Qed.

Lemma gone_live m : gone m -> loc_ok (source_ m) -> False.
Proof. intros [Hs _] Hl. by apply loc_valid in Hl. Qed.

Lemma IsPending_live m : loc_ok (source_ m) -> IsPending m = Some (destination_ m =? 0).
Proof.
  intros Hs. apply loc_valid in Hs. unfold IsPending, IsInvalid, IsValid, kInvalid.
  rewrite (proj2 (Z.eqb_neq _ _) Hs). simpl. by rewrite negb_involutive, andb_true_r.
Qed.

Lemma IsRedundant_live m :
  loc_ok (source_ m) -> destination_ m <> 0 ->
  IsRedundant m = Some (Equals (source_ m) (destination_ m)).
Proof.
  intros Hs Hd. unfold IsRedundant. rewrite IsEliminated_live by done. simpl.
  unfold IsInvalid, IsValid, kInvalid. by rewrite (proj2 (Z.eqb_neq _ _) Hd).
Qed.

Lemma Blocks_wf m l : wf_move m -> loc_ok l -> Blocks m l = Some (Equals (source_ m) l).
Proof.
  intros [Hg|Hs] Hl; unfold Blocks.
  - rewrite IsEliminated_gone by done. simpl. destruct Hg as [-> _].
    apply loc_valid in Hl. unfold Equals. f_equal. symmetry. apply Z.eqb_neq. congruence.
  - rewrite IsEliminated_live by done. simpl. by apply loc_exact.
Qed.

Lemma any_blocks_wf ms l : Forall wf_move ms -> loc_ok l -> any_blocks ms l = Some (reads ms l).
Proof.
  intros Hms Hl. induction Hms as [|m ms Hm _ IH]; [done|]. cbn [any_blocks reads existsb].
  rewrite Blocks_wf by done. cbn [mbind option_bind]. by destruct (Equals (source_ m) l).
Qed.

Lemma slots_wf s ms ps S : slots s ms ps S -> Forall wf_move ms.
Proof.
  intros [Hlen Hs]. apply Forall_lookup. intros k m Hm.
  destruct (lookup_lt_is_Some_2 D k) as [d Hd]; [rewrite <- Hlen; by eapply lookup_lt_Some|].
  destruct (Hs k m d Hm Hd) as [(? & _)|(? & _)]; [by left|by right].
Qed.

Lemma pending_wf s ms ps ls S : pending_ok s ms ps ls S -> Forall wf_move ps.
Proof.
  destruct ps as [|p [|]]; intros H; [constructor| |done].
  constructor; [|constructor]. right. apply H.
Qed.

Definition wf (st : Resolver) : Prop :=
  Forall wf_move (pending_moves_ st) /\ Forall wf_move (moves_ st).

Lemma Inv_wf st S : Inv st S -> wf st.
Proof.
  intros HI. split; [eapply pending_wf, (inv_pending _ _ HI)|eapply slots_wf, (inv_slots _ _ HI)].
Qed.

Lemma IsBlocked_wf st l :
  wf st -> loc_ok l ->
  IsBlockedByMoves st l = Some (reads (pending_moves_ st) l || reads (moves_ st) l).
Proof.
  intros [Hp Hm] Hl. unfold IsBlockedByMoves.
  rewrite (any_blocks_wf (pending_moves_ st)), (any_blocks_wf (moves_ st)) by done.
  cbn [mbind option_bind]. by destruct (reads (pending_moves_ st) l).
Qed.

(** *** Scratch locations *)

Lemma find_scratch_spec st kind ls :
  wf st -> (forall l, l ∈ ls -> GetKind l = kind -> loc_ok l) ->
  exists l, find_scratch st kind ls = Some l /\
    (l = NoLocation \/
     (l ∈ ls /\ GetKind l = kind /\ reads (pending_moves_ st) l = false /\
      reads (moves_ st) l = false)).
Proof.
  intros Hwf. induction ls as [|l ls IH]; intros Hls; [eauto|]. cbn [find_scratch].
  destruct IH as (l' & E & Hl'); [intros; apply Hls; [by right|done]|].
  destruct (Z.eqb_spec (GetKind l) kind) as [Hk|].
  - rewrite IsBlocked_wf by (done || (apply Hls; [left|done])). cbn [mbind option_bind].
    destruct (reads (pending_moves_ st) l || reads (moves_ st) l) eqn:B; simpl.
    + exists l'. split; [done|]. destruct Hl' as [?|(? & ?)]; [by left|right]. split; [by right|done].
    + apply orb_false_elim in B as [? ?]. exists l. split; [done|]. right. repeat split; try done. left.
  - exists l'. split; [done|]. destruct Hl' as [?|(? & ?)]; [by left|right]. split; [by right|done].
Qed.

Lemma GetScratchLocation_spec st S kind :
  Inv st S -> scratches_ st = [] -> kind <> 0 ->
  exists l, GetScratchLocation st kind = Some l /\
    (l = NoLocation \/
     (exists j m, D !! j = Some l /\ moves_ st !! j = Some m /\ ~ gone m /\ j ∉ S) /\
     reads (pending_moves_ st) l = false /\ reads (moves_ st) l = false).
Proof.
  intros HI Hls Hk. unfold GetScratchLocation. rewrite Hls. cbn [find_scratch mbind option_bind].
  assert (forall l, l ∈ map destination_ (moves_ st) -> GetKind l = kind ->
    exists j m, D !! j = Some l /\ moves_ st !! j = Some m /\ ~ gone m /\ j ∉ S) as Hdest.
  { intros l Hl Hkl. apply list_elem_of_lookup in Hl as (j & Hj).
    rewrite list_lookup_fmap in Hj. apply fmap_Some in Hj as (m & Hm & ->).
    destruct (inv_slots _ _ HI) as [Hlen Hslot].
    destruct (lookup_lt_is_Some_2 D j) as [d Hd]; [rewrite <- Hlen; by eapply lookup_lt_Some|].
    destruct (Hslot j m d Hm Hd) as [([_ Hd0] & _)|(Hok & _ & Hin & Hout)].
    - rewrite Hd0 in Hkl. by destruct Hk.
    - destruct (decide (j ∈ S)) as [Hj|Hj].
      + destruct (Hin Hj) as [Hd0 _]. rewrite Hd0 in Hkl. by destruct Hk.
      + rewrite (Hout Hj). exists j, m. repeat split; try done. intros Hg. by eapply gone_live. }
  cbn [IsValid]. change (IsValid NoLocation) with false.
  destruct (find_scratch_spec st kind (map destination_ (moves_ st))) as (l & E & Hl).
  - by eapply Inv_wf.
  - intros l Hl Hkl. destruct (Hdest l Hl Hkl) as (j & m & Hj & _). by apply D_lookup_ok in Hj as [? _].
  - exists l. split; [done|]. destruct Hl as [?|(Hin & Hkl & ? & ?)]; [by left|right]. eauto.
Qed.

Lemma pool_take st S :
  Inv st S -> scratches_ st = [] ->
  (exists r x, acquire (x_temps st) = Some (r, x) /\ r ∈ xs /\ (r :: x) ≡ₚ xs) /\
  (exists r v, acquire (v_temps st) = Some (r, v) /\ r ∈ vs /\ (r :: v) ≡ₚ vs) /\
  x_temps st ≡ₚ xs /\ v_temps st ≡ₚ vs.
Proof.
  intros HI Hls. pose proof (inv_pool _ _ HI) as HP. rewrite Hls in HP. destruct HP as [Hx Hv].
  assert (forall pool all, pool ≡ₚ all -> all <> [] ->
    exists r rest, acquire pool = Some (r, rest) /\ r ∈ all /\ (r :: rest) ≡ₚ all) as Htake.
  { intros pool all Hp Hne. destruct (acquire_ok pool) as (r & rest & E & Hr).
    - intros ->. by apply Permutation_nil_l in Hp.
    - exists r, rest. split; [done|]. rewrite <- Hp, Hr. split; [left|done]. }
  auto.
Qed.

Lemma temps_unread st S l :
  Inv st S -> scratches_ st = [] -> temp l -> reads (moves_ st) l = false.
Proof.
  intros HI Hls Ht. apply reads_false. intros m Hm <-.
  apply (inv_temps _ _ HI m Hm) in Ht. rewrite Hls in Ht. by apply not_elem_of_nil in Ht.
Qed.

(** What [AllocateScratchLocationFor] returns when no scratch is in use. *)
Lemma AllocateScratch_spec st S kind :
  Inv st S -> scratches_ st = [] -> pending_moves_ st = [] ->
  kind ∈ [kRegister; kFpuRegister; kStackSlot; kDoubleStackSlot; kSIMDStackSlot] ->
  exists l ls x v,
    AllocateScratchLocationFor acquire st kind =
      Some (l, set_temps (set_scratches st ls) x v) /\
    reads (moves_ st) l = false /\ pool_ok ls x v /\
    ((ls = [] /\ exists j m, D !! j = Some l /\ moves_ st !! j = Some m /\ ~ gone m /\ j ∉ S) \/
     (ls = [l] /\ temp l)).
Proof.
  intros HI Hls Hps Hkind. unfold AllocateScratchLocationFor.
  replace (dcheck _) with (Some tt); cycle 1.
  { symmetry. set_unfold. by destruct_or? Hkind; subst. }
  cbn [mbind option_bind].
  set (kind' := if (_ || _)%bool then _ else _).
  assert (kind' = kRegister \/ kind' = kFpuRegister) as Hk' by (unfold kind'; case_match; auto).
  destruct (GetScratchLocation_spec st S kind' HI Hls) as (l & -> & Hl);
    [by destruct Hk' as [->| ->]|]. cbn [mbind option_bind].
  pose proof (inv_pool _ _ HI) as HP. rewrite Hls in HP.
  destruct Hl as [->|((j & m & Hj & Hm) & _ & Hr)].
  - change (negb (Equals NoLocation NoLocation)) with false. cbn [negb].
    destruct (pool_take st S HI Hls) as ((r & x & Ex & Hrx & Hx) & (r' & v & Ev & Hrv & Hv) & Px & Pv).
    unfold AddScratchLocation.
    destruct Hk' as [Hk'|Hk']; rewrite Hk'; cbn [Z.eqb Pos.eqb kRegister kFpuRegister].
    + rewrite Ex. cbn [mbind option_bind].
      destruct (xs_ok r Hrx) as (Hr & _).
      rewrite (encode_eq (PRegister r) Hr : RegisterLocation r = _).
      cbn [mbind option_bind set_temps scratches_]. rewrite Hls. cbn [forallb dcheck mbind option_bind app].
      assert (temp (word_of (PRegister r))) as Ht by (left; eauto).
      eexists _, [_], x, (v_temps st). split; [reflexivity|]. split; [by eapply temps_unread|].
      split; [left; eauto|by right].
    + rewrite Ev. cbn [mbind option_bind].
      destruct (vs_ok r' Hrv) as (Hr & _).
      rewrite (encode_eq (PFpuRegister r') Hr : FpuRegisterLocation r' = _).
      cbn [mbind option_bind set_temps scratches_]. rewrite Hls. cbn [forallb dcheck mbind option_bind app].
      assert (temp (word_of (PFpuRegister r'))) as Ht by (right; eauto).
      eexists _, [_], (x_temps st), v. split; [reflexivity|]. split; [by eapply temps_unread|].
      split; [right; eauto|by right].
  - unfold Equals. rewrite (proj2 (Z.eqb_neq l NoLocation)) by (apply loc_valid; eapply D_lookup_ok; done).
    cbn [negb]. exists l, [], (x_temps st), (v_temps st).
    split; [destruct st; cbn in *; by subst|]. split; [done|]. split; [done|]. left. eauto 10.
Qed.

(** *** One emitted move *)

Definition upd1 (from to : Location) (m : MoveOperands) : MoveOperands :=
  if Equals (source_ m) from then SetSource m to else m.

Definition upd (from to : Location) (ms : list MoveOperands) : list MoveOperands :=
  map (upd1 from to) ms.

Lemma upd_lookup from to ms j m' :
  upd from to ms !! j = Some m' -> exists m, ms !! j = Some m /\ m' = upd1 from to m.
Proof. unfold upd. rewrite list_lookup_fmap, fmap_Some. eauto. Qed.

Lemma upd1_gone from to m : from <> 0 -> gone m -> upd1 from to m = m.
Proof.
  intros Hf [Hs _]. unfold upd1, Equals. rewrite Hs. by rewrite (proj2 (Z.eqb_neq 0 from)).
Qed.

Lemma upd1_cases from to m :
  (source_ m = from /\ upd1 from to m = SetSource m to) \/
  (source_ m <> from /\ upd1 from to m = m).
Proof. unfold upd1, Equals. destruct (Z.eqb_spec (source_ m) from); auto. Qed.

Lemma slots_lookup s ms ps S k m :
  slots s ms ps S -> ms !! k = Some m ->
  exists d, D !! k = Some d /\ loc_ok d /\ IsConstant d = false /\ slot_ok s ps S k m d.
Proof.
  intros [Hlen Hs] Hm.
  destruct (lookup_lt_is_Some_2 D k) as [d Hd]; [rewrite <- Hlen; by eapply lookup_lt_Some|].
  destruct (D_lookup_ok k d Hd). eauto 10.
Qed.

Lemma reads_lookup ms l k m : reads ms l = false -> ms !! k = Some m -> source_ m <> l.
Proof. intros Hr Hm. apply (proj1 (reads_false ms l) Hr). by apply list_elem_of_lookup_2 in Hm. Qed.

(** Some moves from [from] now read [to] instead. *)
Definition redirected (from to : Location) (ms ms' : list MoveOperands) : Prop :=
  length ms' = length ms /\
  forall j m', ms' !! j = Some m' ->
    exists m, ms !! j = Some m /\ (m' = m \/ (source_ m = from /\ m' = SetSource m to)).

Lemma redirected_refl from to ms : redirected from to ms ms.
Proof. split; eauto. Qed.

Lemma upd_redirected from to ms : redirected from to ms (upd from to ms).
Proof.
  split; [apply length_map|]. intros j m' Hj. apply upd_lookup in Hj as (m & Hm & ->).
  exists m. split; [done|]. destruct (upd1_cases from to m) as [[? ->]|[? ->]]; auto.
Qed.

(** Emitting [source -> to] for the unstarted move [k], where nothing reads [to]
    and [to] is not a finished destination, keeps every slot, if [to] is the
    move's own destination or a pending move takes over. *)
Lemma slots_emit s ms ms' ps ps' S k m d to :
  slots s ms ps S -> ms !! k = Some m -> D !! k = Some d -> loc_ok (source_ m) -> k ∉ S ->
  loc_ok to -> reads ms to = false ->
  (forall j, D !! j = Some to -> (j ∉ S) /\ exists mj, ms !! j = Some mj /\ ~ gone mj) ->
  (forall p, p ∈ ps -> p ∈ ps') ->
  to = d \/ (exists p, p ∈ ps' /\ destination_ p = d) ->
  redirected (source_ m) to (<[k := Eliminate m]> ms) ms' ->
  slots (exec_move clobber s (source_ m, to)) ms' ps' S.
Proof.
  intros Hs Hm Hd Hx HkS Hto Hr Hlive Hps Hend [Hlen' Hred]. pose proof (loc_valid _ Hx) as Hx0.
  split; [rewrite Hlen', length_insert; apply Hs|].
  intros j m' dj Hj Hdj. apply Hred in Hj as (mj & Hj & Hm').
  destruct (D_lookup_ok j dj Hdj) as [Hok _].
  destruct (decide (j = k)) as [->|Hjk].
  - rewrite list_lookup_insert_eq in Hj by (by eapply lookup_lt_Some).
    injection Hj as <-. destruct Hm' as [->|[E _]]; [|by destruct Hx0]. left. repeat split; try done.
    assert (dj = d) as -> by congruence. destruct Hend as [->|?]; [left|by right].
    rewrite exec_move_ok, decide_True by done.
    destruct (proj2 Hs k m d Hm Hd) as [(Hg & _)|(_ & Hv & _)]; [by destruct (gone_live m)|done].
  - rewrite list_lookup_insert_ne in Hj by done.
    destruct (proj2 Hs j mj dj Hj Hdj) as [(Hg & HjS & Hdone)|(Hsrc & Hv & Hin & Hout)].
    + left. destruct Hm' as [->|[E _]]; [|destruct Hg; congruence].
      repeat split; try apply Hg; try done.
      destruct Hdone as [Hdone|(p & Hp & ?)]; [left|right; eauto].
      rewrite exec_move_ok by done. case_decide; [|done]. subst to.
      destruct (Hlive j Hdj) as (_ & mj' & Hj' & Hng). congruence.
    + right. destruct Hm' as [->|[E ->]]; cbn [SetSource source_ destination_].
      * rewrite exec_move_ok, decide_False by (done || by eapply reads_lookup). done.
      * rewrite exec_move_ok, decide_True by done. split; [done|]. split; [congruence|].
        split; [|done]. intros HjS. split; [by apply Hin|]. intros ->. by apply (Hlive j Hdj).
Qed.

(** Emitting the pending move [p] once nothing reads its destination. *)
Lemma slots_pending s ms p S k m :
  slots s ms [p] S -> loc_ok (source_ p) -> s (source_ p) = want (destination_ p) ->
  D !! k = Some (destination_ p) -> ms !! k = Some m -> gone m ->
  reads ms (destination_ p) = false ->
  slots (exec_move clobber s (source_ p, destination_ p)) (upd (source_ p) (destination_ p) ms) [] S.
Proof.
  intros Hs Hx Hv Hk Hm Hg Hr. pose proof (loc_valid _ Hx) as Hx0.
  destruct (D_lookup_ok k _ Hk) as [HA _].
  split; [unfold upd; rewrite length_map; apply Hs|].
  intros j m' dj Hj Hdj. apply upd_lookup in Hj as (mj & Hj & ->).
  destruct (D_lookup_ok j dj Hdj) as [Hok _].
  destruct (proj2 Hs j mj dj Hj Hdj) as [(Hgj & HjS & Hdone)|(Hsrc & Hvj & Hin & Hout)].
  - left. rewrite upd1_gone by done. repeat split; try apply Hgj; try done. left.
    rewrite exec_move_ok by done. case_decide; [by subst|].
    destruct Hdone as [|(p' & Hp & ?)]; [done|]. apply list_elem_of_singleton in Hp as ->. by subst.
  - right. destruct (upd1_cases (source_ p) (destination_ p) mj) as [[E ->]|[E ->]];
      cbn [SetSource source_ destination_].
    + rewrite exec_move_ok, decide_True by done. split; [done|]. split; [congruence|].
      split; [|done]. intros HjS. split; [by apply Hin|]. intros Hd. rewrite <- Hd in Hdj.
      assert (j = k) as -> by (by eapply D_inj). assert (mj = m) as -> by congruence.
      by destruct (gone_live m).
    + rewrite exec_move_ok, decide_False by (done || by eapply reads_lookup). done.
Qed.

(** *** Running the code at an index *)

Lemma put_nat st k m :
  (k < length (moves_ st))%nat -> put st (Z.of_nat k) m = Some (set_moves st (<[k := m]> (moves_ st))).
Proof.
  intros Hk. unfold put, awrite. rewrite (proj2 (Z.leb_le _ _)), (proj2 (Z.ltb_lt _ _)) by lia.
  cbn [andb mbind option_bind]. by rewrite Nat2Z.id.
Qed.

Lemma EmitMove_nat st k m :
  moves_ st !! k = Some m ->
  EmitMove st (Z.of_nat k) =
    Some (Build_Resolver (moves_ st) (pending_moves_ st) (scratches_ st) (x_temps st) (v_temps st)
            (emitted st ++ [(source_ m, destination_ m)])).
Proof. intros Hm. unfold EmitMove. by rewrite aread_nat, Hm. Qed.

(** [put m'; EmitMove; put (Eliminate m')] at an index. *)
Lemma emit_eliminate {B} (K : Resolver -> option B) st k m m' :
  moves_ st !! k = Some m ->
  (st1 ← put st (Z.of_nat k) m';
   st2 ← EmitMove st1 (Z.of_nat k);
   st3 ← put st2 (Z.of_nat k) (Eliminate m'); K st3) =
    K (Build_Resolver (<[k := Eliminate m']> (moves_ st)) (pending_moves_ st) (scratches_ st)
            (x_temps st) (v_temps st) (emitted st ++ [(source_ m', destination_ m')])).
Proof.
  intros Hm. pose proof (lookup_lt_Some _ _ _ Hm) as Hk. rewrite put_nat by done.
  cbn [mbind option_bind].
  rewrite (EmitMove_nat _ k m') by (cbn [set_moves moves_]; by apply list_lookup_insert_eq).
  cbn [mbind option_bind]. rewrite put_nat by (cbn [moves_ set_moves]; by rewrite length_insert).
  unfold set_moves. cbn. by rewrite list_insert_insert_eq.
Qed.

Lemma value_emit st ms ps ls x v mv :
  value (Build_Resolver ms ps ls x v (emitted st ++ [mv])) = exec_move clobber (value st) mv.
Proof. unfold value. cbn [emitted]. apply exec_snoc. Qed.

(** How the sources change while the moves in [S] are being performed, in a
    call that performs a move from [x]: destinations of [S] are read by the same
    moves as before, except that nothing reads [x] any more. *)
Definition evolves (S : list nat) (x : Location) (ms ms' : list MoveOperands) : Prop :=
  forall j m m', ms !! j = Some m -> ms' !! j = Some m' ->
    (gone m -> gone m') /\
    (~ gone m' ->
       IsConstant (source_ m') = IsConstant (source_ m) /\
       forall c d, c ∈ S -> D !! c = Some d ->
         (source_ m' = d -> source_ m = d /\ d <> x) /\
         (source_ m = d -> d <> x -> source_ m' = d)).

(** A pending move waits for a move of the stack [S] that reads its
    destination. *)
Definition waits (st : Resolver) (S : list nat) : Prop :=
  pending_moves_ st = [] \/
  exists p a m, pending_moves_ st = [p] /\ a ∈ S /\ moves_ st !! a = Some m /\
    source_ m = destination_ p.

Lemma loc_const_ne a b : IsConstant a = true -> IsConstant b = false -> a <> b.
Proof. congruence. Qed.

Lemma upd_evolves S x from to ms :
  from <> 0 -> IsConstant from = false -> IsConstant to = false ->
  (forall c d, c ∈ S -> D !! c = Some d -> d <> to /\ (from = d <-> x = d)) ->
  evolves S x ms (upd from to ms).
Proof.
  intros Hf0 Hf Ht HS j m m' Hm Hm'. apply upd_lookup in Hm' as (m1 & Hm1 & ->).
  assert (m1 = m) as -> by congruence. split.
  - intros Hg. by rewrite upd1_gone.
  - intros _. destruct (upd1_cases from to m) as [[E ->]|[E ->]]; cbn [SetSource source_].
    + split; [by rewrite E, Hf, Ht|]. intros c d Hc Hd. destruct (HS c d Hc Hd) as [Hne Hx].
      split; [congruence|]. intros <-. naive_solver.
    + split; [done|]. intros c d Hc Hd. destruct (HS c d Hc Hd) as [Hne Hx]. naive_solver.
Qed.

(** *** Performing the pending move *)

Lemma FreeScratchLocation_spec st l :
  wf st -> pending_moves_ st = [] -> reads (moves_ st) l = false -> temp l ->
  scratches_ st = [l] -> pool_ok [l] (x_temps st) (v_temps st) ->
  exists x v, FreeScratchLocation st l = Some (set_temps (set_scratches st []) x v) /\ pool_ok [] x v.
Proof.
  intros Hwf Hps Hr Ht Hls HP. unfold FreeScratchLocation, RemoveScratchLocation.
  destruct (temp_ok l Ht) as [Hl _].
  assert (forall x v, wf (set_temps st x v)) as Hwf' by done.
  assert (forall r P Q, l = word_of (PRegister r) -> l = word_of (PFpuRegister P) -> Q) as Hne.
  { intros r P Q -> E. cbn [word_of] in E. lia. }
  assert (forall x v, RemoveScratchLocation (set_temps st x v) l =
    Some (set_temps (set_scratches st []) x v)) as Hrem.
  { intros x v. unfold RemoveScratchLocation. rewrite IsBlocked_wf by done.
    cbn [set_temps pending_moves_ moves_ scratches_]. rewrite Hps, Hr, Hls. cbn.
    unfold Equals. by rewrite Z.eqb_refl. }
  destruct Ht as [(r & Hr0 & E)|(r & Hr0 & E)].
  - destruct (xs_ok r Hr0) as (Hrr & _). destruct HP as [(r' & E' & Hx & Hv)|(r' & E' & _)]; [|by eapply Hne].
    assert (IsRegister l = true) as -> by (rewrite E; unfold IsRegister; by rewrite (GetKind_word (PRegister r) Hrr)).
    assert (reg l = Some r) as -> by (rewrite E; apply (reg_word 4 r); lia). cbn [mbind option_bind].
    fold (RemoveScratchLocation (set_temps st (r :: x_temps st) (v_temps st)) l).
    rewrite Hrem. eexists _, _. split; [done|]. assert (r = r') as -> by (cbn [word_of] in *; lia). done.
  - destruct (vs_ok r Hr0) as (Hrr & _). destruct HP as [(r' & E' & _)|(r' & E' & Hx & Hv)]; [by eapply Hne|].
    assert (GetKind l = kFpuRegister) as Hkl by (rewrite E; by rewrite (GetKind_word (PFpuRegister r) Hrr)).
    unfold IsRegister, IsFpuRegister. rewrite Hkl. cbn [Z.eqb Pos.eqb kFpuRegister kRegister dcheck mbind option_bind].
    assert (reg l = Some r) as -> by (rewrite E; apply (reg_word 6 r); lia). cbn [mbind option_bind].
    fold (RemoveScratchLocation (set_temps st (x_temps st) (r :: v_temps st)) l).
    rewrite Hrem. eexists _, _. split; [done|]. assert (r = r') as -> by (cbn [word_of] in *; lia). done.
Qed.

Lemma free_scratches_spec st l :
  wf st -> pending_moves_ st = [] -> reads (moves_ st) l = false -> loc_ok l ->
  pool_ok (scratches_ st) (x_temps st) (v_temps st) ->
  scratches_ st = [] \/ (scratches_ st = [l] /\ temp l) ->
  exists x v, free_scratches (length (scratches_ st)) st 0 l =
    Some (set_temps (set_scratches st []) x v) /\ pool_ok [] x v.
Proof.
  intros Hwf Hps Hr Hl HP [Hls|[Hls Ht]]; rewrite Hls in HP.
  - exists (x_temps st), (v_temps st). rewrite Hls. cbn [length free_scratches]. rewrite Hls. split; [|done].
    destruct st; cbn in *; by subst.
  - destruct (FreeScratchLocation_spec st l) as (x & v & E & HP'); try done.
    exists x, v. split; [|done]. rewrite Hls. cbn [length free_scratches]. rewrite Hls.
    change (0 <? zlength [l]) with true. change (aread [l] 0) with (Some l). cbn [mbind option_bind].
    rewrite loc_exact by done. unfold Equals. rewrite Z.eqb_refl. cbn [mbind option_bind].
    rewrite IsBlocked_wf by done. rewrite Hps, Hr. cbn [reads existsb orb negb mbind option_bind].
    by rewrite E.
Qed.

Lemma upd_reads from to ms : from <> to -> reads (upd from to ms) from = false.
Proof.
  intros Hne. apply reads_false. intros m' Hm'. apply list_elem_of_lookup in Hm' as (j & Hj).
  apply upd_lookup in Hj as (m & _ & ->).
  destruct (upd1_cases from to m) as [[E ->]|[E ->]]; cbn [SetSource source_]; congruence.
Qed.

Lemma upd_elem from to ms m' :
  m' ∈ upd from to ms -> source_ m' = to \/ (m' ∈ ms /\ source_ m' <> from).
Proof.
  intros Hm'. apply list_elem_of_lookup in Hm' as (j & Hj). apply upd_lookup in Hj as (m & Hm & ->).
  destruct (upd1_cases from to m) as [[E ->]|[E ->]]; cbn [SetSource source_]; [by left|right].
  split; [by eapply list_elem_of_lookup_2|done].
Qed.

(** The source of a pending move is not a finished destination. *)
Lemma pending_source_ne st S p j m :
  Inv st S -> pending_moves_ st = [p] -> D !! j = Some (source_ p) -> moves_ st !! j = Some m ->
  ~ gone m /\ j ∉ S.
Proof.
  intros HI Hp Hj Hm. pose proof (inv_pending _ _ HI) as HP. rewrite Hp in HP.
  destruct HP as (_ & _ & _ & _ & [(_ & Ht)|(_ & j' & m' & Hj' & Hm' & ?)]).
  - apply temp_ok in Ht as (_ & _ & Ht). destruct Ht. by eapply list_elem_of_lookup_2.
  - assert (j = j') as -> by (by eapply D_inj). by assert (m = m') as -> by congruence.
Qed.

Lemma perform_pending_spec st S p k mk :
  Inv st S -> pending_moves_ st = [p] -> reads (moves_ st) (destination_ p) = false ->
  moves_ st !! k = Some mk -> gone mk ->
  exists st', perform_pending 1 st (Z.of_nat k) (destination_ p) = Some st' /\ Inv st' S /\
    pending_moves_ st' = [] /\ moves_ st' = upd (source_ p) (destination_ p) (moves_ st).
Proof.
  intros HI Hp Hr Hk Hg. pose proof (inv_pending _ _ HI) as HP. rewrite Hp in HP.
  destruct HP as (Hsc & Hc & Hv & (i & mi & Hi & Hmi & Hgi) & Hwhere).
  destruct (D_lookup_ok i _ Hi) as [HA HAc].
  assert (source_ p <> destination_ p) as Hne.
  { intros E. rewrite <- E in Hi. by destruct (pending_source_ne st S p i mi HI Hp Hi Hmi). }
  cbn [perform_pending]. unfold GetUnblockedPendingMove. rewrite Hp. cbn [find_unblocked].
  rewrite loc_exact by done. unfold Equals at 1. rewrite Z.eqb_refl. cbn [mbind option_bind].
  rewrite (IsBlocked_wf st) by (done || by eapply Inv_wf). rewrite Hr, Hp.
  cbn [reads existsb orb mbind option_bind]. unfold Equals at 1.
  rewrite (proj2 (Z.eqb_neq _ _) Hne). cbn [orb negb].
  unfold DeletePendingMove. rewrite Hp.
  change (delete (Z.to_nat 0) [p]) with (@nil MoveOperands).
  cbn [set_pending moves_]. rewrite aread_nat, Hk. cbn [mbind option_bind].
  set (m' := SetDestination _ _).
  rewrite (emit_eliminate _ (set_pending st []) k mk m' Hk).
  assert (<[k := Eliminate m']> (moves_ st) = moves_ st) as Hid.
  { apply list_insert_id. rewrite Hk. f_equal. destruct mk as [a b t], Hg as [Ha Hb]. cbn in Ha, Hb. by subst. }
  cbn [set_pending moves_ pending_moves_ scratches_ x_temps v_temps emitted].
  rewrite Hid. change (source_ m') with (source_ p). change (destination_ m') with (destination_ p).
  set (st' := UpdateMoveSource _ _ _).
  assert (forall x v, value (set_temps (set_scratches st' []) x v) =
    exec_move clobber (value st) (source_ p, destination_ p)) as Hval by (intros; apply exec_snoc).
  pose proof (slots_pending _ _ p S i mi (ltac:(rewrite <- Hp; apply (inv_slots _ _ HI))) Hsc Hv Hi Hmi Hgi Hr) as Hslots.
  destruct (free_scratches_spec st' (source_ p)) as (x & v & Ef & Hpool).
  - split; [apply Forall_nil_2|exact (slots_wf _ _ _ _ Hslots)].
  - done.
  - by apply upd_reads.
  - done.
  - apply (inv_pool _ _ HI).
  - destruct Hwhere as [?|[? _]]; [by right|by left].
  - rewrite Ef. cbn [mbind option_bind]. eexists. split; [done|].
    split; [|done]. split; rewrite ?Hval; [done..|intros m0 Hm0 Ht|done|].
    + apply upd_elem in Hm0 as [E0|[Hm0 Hs0]].
      * rewrite E0 in Ht. apply temp_ok in Ht as (_ & _ & Ht). destruct Ht. by eapply list_elem_of_lookup_2.
      * apply (inv_temps _ _ HI m0 Hm0) in Ht.
        destruct Hwhere as [[Hls _]|[Hls _]]; rewrite Hls in Ht; set_solver.
    + intros l Hl.
      rewrite exec_move_untouched by (done || left; by eapply list_elem_of_lookup_2).
      by apply (inv_frame _ _ HI).
Qed.

(** *** Performing a move that nothing blocks *)

Lemma gone_Eliminate m : gone (Eliminate m).
Proof. done. Qed.

Lemma redirected_gone from to ms ms' j m :
  redirected from to ms ms' -> from <> 0 -> ms !! j = Some m -> gone m -> ms' !! j = Some m.
Proof.
  intros [Hlen Hred] Hf Hm Hg.
  destruct (lookup_lt_is_Some_2 ms' j) as [m' Hm']; [rewrite Hlen; by eapply lookup_lt_Some|].
  rewrite Hm'. apply Hred in Hm' as (m0 & Hm0 & [->|[E _]]); [congruence|].
  assert (m0 = m) as -> by congruence. destruct Hg as [Hg _]. congruence.
Qed.

Lemma redirected_live from to ms ms' j m :
  redirected from to ms ms' -> to <> 0 -> ms !! j = Some m -> ~ gone m ->
  exists m', ms' !! j = Some m' /\ ~ gone m'.
Proof.
  intros [Hlen Hred] Ht Hm Hg.
  destruct (lookup_lt_is_Some_2 ms' j) as [m' Hm']; [rewrite Hlen; by eapply lookup_lt_Some|].
  exists m'. split; [done|]. apply Hred in Hm' as (m0 & Hm0 & [->|[_ ->]]); [congruence|].
  intros [E _]. by destruct Ht.
Qed.

Lemma redirected_elem from to ms ms' m' :
  redirected from to ms ms' -> m' ∈ ms' -> source_ m' = to \/ m' ∈ ms.
Proof.
  intros [_ Hred] Hm'. apply list_elem_of_lookup in Hm' as (j & Hj).
  apply Hred in Hj as (m & Hm & [->|[_ ->]]); [right|by left]. by eapply list_elem_of_lookup_2.
Qed.

Lemma elem_insert_gone (ms : list MoveOperands) k m0 m :
  m ∈ <[k := Eliminate m0]> ms -> source_ m <> 0 -> m ∈ ms.
Proof.
  intros Hm Hs. apply list_elem_of_lookup in Hm as (j & Hj).
  apply list_lookup_insert_Some in Hj as [(_ & <- & _)|(_ & Hj)]; [done|].
  by eapply list_elem_of_lookup_2.
Qed.

Lemma Inv_emit st S k m d ms' :
  Inv st S -> moves_ st !! k = Some m -> D !! k = Some d -> loc_ok (source_ m) -> k ∉ S ->
  reads (pending_moves_ st) d = false -> reads (moves_ st) d = false ->
  redirected (source_ m) d (<[k := Eliminate m]> (moves_ st)) ms' ->
  Inv (Build_Resolver ms' (pending_moves_ st) (scratches_ st) (x_temps st) (v_temps st)
         (emitted st ++ [(source_ m, d)])) S.
Proof.
  intros HI Hm Hd Hx HkS Hrp Hrm Hred. destruct (D_lookup_ok k d Hd) as [Hdok Hdc].
  assert (~ gone m) as Hng by (intros Hg; by eapply gone_live).
  assert (forall j m1, moves_ st !! j = Some m1 -> gone m1 -> ms' !! j = Some m1) as Hgone.
  { intros j m1 Hj Hg. eapply redirected_gone; try done; [by apply loc_valid|].
    rewrite list_lookup_insert_ne; [done|]. intros ->. congruence. }
  split; rewrite ?value_emit; cbn [moves_ pending_moves_ scratches_ x_temps v_temps].
  - eapply slots_emit; try done; [apply (inv_slots _ _ HI)| |by left].
    intros j Hj. assert (j = k) as -> by (by eapply D_inj). eauto.
  - pose proof (inv_pending _ _ HI) as HP. destruct (pending_moves_ st) as [|p [|]] eqn:Ep; [done| |done].
    destruct HP as (Hsc & Hc & Hv & (i & mi & Hi & Hmi & Hgi) & Hwhere).
    assert (source_ p <> d) as Hpd by (by apply (reads_lookup _ _ 0 p Hrp)).
    split; [done|]. split; [done|].
    split; [rewrite exec_move_ok by done; by rewrite decide_False|]. split; [eauto 10|].
    destruct Hwhere as [|(Hls & j & mj & Hj & Hmj & Hgj & HjS)]; [by left|right]. split; [done|].
    destruct (redirected_live _ _ _ _ j mj Hred) as (mj' & ? & ?); [by apply loc_valid| |done|eauto 10].
    rewrite list_lookup_insert_ne; [done|]. intros ->. congruence.
  - intros m1 Hm1 Ht. destruct (temp_ok _ Ht) as (Hok1 & _ & HnD).
    destruct (redirected_elem _ _ _ _ _ Hred Hm1) as [E|Hin].
    + rewrite E in HnD. destruct HnD. by eapply list_elem_of_lookup_2.
    + apply (inv_temps _ _ HI); [|done]. eapply elem_insert_gone; [done|by apply loc_valid].
  - apply (inv_pool _ _ HI).
  - intros l Hl. rewrite exec_move_untouched by (done || left; by eapply list_elem_of_lookup_2).
    by apply (inv_frame _ _ HI).
Qed.

(** *** Breaking a cycle with a scratch location *)

Lemma scratch_ok (ls : list Location) l (S : list nat) (ms : list MoveOperands) :
  (ls = [] /\ exists j m, D !! j = Some l /\ ms !! j = Some m /\ ~ gone m /\ j ∉ S) \/
  (ls = [l] /\ temp l) ->
  loc_ok l /\ IsConstant l = false /\ (l ∈ D \/ temp l) /\
  (forall j, D !! j = Some l -> (j ∉ S) /\ exists mj, ms !! j = Some mj /\ ~ gone mj).
Proof.
  intros [(_ & j & m & Hj & Hm & Hg & HjS)|[_ Ht]].
  - destruct (D_lookup_ok j l Hj). repeat split; try done; [left; by eapply list_elem_of_lookup_2|..];
      assert (j0 = j) as -> by (by eapply D_inj); eauto.
  - destruct (temp_ok l Ht) as (? & ? & HnD). repeat split; try done; [by right|..];
      destruct HnD; by eapply list_elem_of_lookup_2.
Qed.

Lemma Inv_scratch st S k m d to ls x v type ms' :
  Inv st S -> pending_moves_ st = [] -> scratches_ st = [] ->
  moves_ st !! k = Some m -> D !! k = Some d -> loc_ok (source_ m) -> k ∉ S ->
  reads (moves_ st) d = true -> reads (moves_ st) to = false -> pool_ok ls x v ->
  (ls = [] /\ exists j m, D !! j = Some to /\ moves_ st !! j = Some m /\ ~ gone m /\ j ∉ S) \/
  (ls = [to] /\ temp to) ->
  redirected (source_ m) to (<[k := Eliminate m]> (moves_ st)) ms' ->
  Inv (Build_Resolver ms' [Build_MoveOperands to d type] ls x v (emitted st ++ [(source_ m, to)])) S.
Proof.
  intros HI Hps Hls Hm Hd Hx HkS Hrd Hrto Hpool Hto Hred.
  destruct (scratch_ok _ _ _ _ Hto) as (Hok & Hc & Hwhere & Hlive).
  split; rewrite ?value_emit; cbn [moves_ pending_moves_ scratches_ x_temps v_temps].
  - eapply slots_emit; [apply (inv_slots _ _ HI)|done..|rewrite Hps; set_solver| |done].
    right. eexists. by split; [left|].
  - cbn [pending_ok source_ destination_]. split; [done|]. split; [done|].
    split. { rewrite exec_move_ok, decide_True by done.
      destruct (proj2 (inv_slots _ _ HI) k m d Hm Hd) as [(Hg & _)|(_ & Hv & _)]; [|done].
      by destruct (gone_live m). }
    split. { exists k, (Eliminate m). split; [done|]. split; [|done].
      eapply redirected_gone; [done|by apply loc_valid|apply list_lookup_insert_eq|done].
      by eapply lookup_lt_Some. }
    destruct Hto as [(-> & j & mj & Hj & Hmj & Hg & HjS)|?]; [right|by left]. split; [done|].
    destruct (redirected_live _ _ _ _ j mj Hred) as (mj' & ? & ?); [by apply loc_valid| |done|eauto 10].
    rewrite list_lookup_insert_ne; [done|]. intros ->. congruence.
  - intros m1 Hm1 Ht. destruct (temp_ok _ Ht) as (Hok1 & _ & HnD).
    destruct (redirected_elem _ _ _ _ _ Hred Hm1) as [E|Hin].
    + destruct Hto as [(_ & j & mj & Hj & _)|[-> _]]; [|rewrite E; left].
      rewrite E in HnD. destruct HnD. by eapply list_elem_of_lookup_2.
    + apply elem_insert_gone in Hin; [|by apply loc_valid].
      apply (inv_temps _ _ HI m1 Hin) in Ht. rewrite Hls in Ht. by apply not_elem_of_nil in Ht.
  - done.
  - intros l Hl. rewrite exec_move_untouched by done. by apply (inv_frame _ _ HI).
Qed.

(** *** Starting a move and coming back to it *)

Lemma slots_insert s ms ps S S' k m m' d :
  slots s ms ps S -> ms !! k = Some m -> D !! k = Some d -> source_ m' = source_ m ->
  loc_ok (source_ m) -> slot_ok s ps S' k m' d ->
  (forall j, j <> k -> j ∈ S <-> j ∈ S') -> slots s (<[k := m']> ms) ps S'.
Proof.
  intros [Hlen Hs] Hm Hd Hsrc Hok Hk HS. split; [by rewrite length_insert|].
  intros j mj dj Hj Hdj. destruct (decide (j = k)) as [->|Hne].
  - rewrite list_lookup_insert_eq in Hj by (by eapply lookup_lt_Some). naive_solver.
  - rewrite list_lookup_insert_ne in Hj by done. specialize (Hs j mj dj Hj Hdj) as Hjk.
    unfold slot_ok in *. rewrite (HS j Hne) in Hjk. done.
Qed.

Lemma temps_read_insert ms ls k m m' :
  temps_read ms ls -> ms !! k = Some m -> source_ m' = source_ m ->
  temps_read (<[k := m']> ms) ls.
Proof.
  intros Ht Hm Hs m1 Hm1. apply list_elem_of_lookup in Hm1 as (j & Hj).
  apply list_lookup_insert_Some in Hj as [(<- & <- & _)|(_ & Hj)].
  - rewrite Hs. apply Ht. by eapply list_elem_of_lookup_2.
  - apply Ht. by eapply list_elem_of_lookup_2.
Qed.

Lemma Inv_mark st S k m d :
  Inv st S -> pending_moves_ st = [] -> moves_ st !! k = Some m -> D !! k = Some d ->
  loc_ok (source_ m) -> source_ m <> d ->
  Inv (set_moves st (<[k := SetDestination m NoLocation]> (moves_ st))) (k :: S).
Proof.
  intros HI Hps Hm Hd Hok Hne. pose proof (inv_pending _ _ HI) as HP.
  split; try apply HI; cbn [set_moves moves_ pending_moves_ scratches_].
  - eapply slots_insert; [apply (inv_slots _ _ HI)|done..| |set_solver].
    right. destruct (proj2 (inv_slots _ _ HI) k m d Hm Hd) as [(Hg & _)|(_ & Hv & _)].
    + by destruct (gone_live m).
    + split; [done|]. split; [done|]. split; [done|set_solver].
  - rewrite Hps in *. done.
  - eapply temps_read_insert; [apply (inv_temps _ _ HI)|done..].
Qed.

Lemma Inv_unmark st S k m d :
  Inv st (k :: S) -> k ∉ S -> moves_ st !! k = Some m -> D !! k = Some d ->
  Inv (set_moves st (<[k := SetDestination m d]> (moves_ st))) S /\
  loc_ok (source_ m) /\ destination_ m = 0 /\ source_ m <> d.
Proof.
  intros HI HkS Hm Hd. pose proof (inv_pending _ _ HI) as HP.
  destruct (proj2 (inv_slots _ _ HI) k m d Hm Hd) as [(_ & HkS' & _)|(Hok & Hv & Hin & _)];
    [set_solver|]. destruct (Hin (list_elem_of_here _ _)) as [Hd0 Hne].
  split; [|done]. split; try apply HI; cbn [set_moves moves_ pending_moves_ scratches_].
  - eapply slots_insert; [apply (inv_slots _ _ HI)|done..| |set_solver]. by right.
  - destruct (pending_moves_ st) as [|p [|]]; [done| |done].
    destruct HP as (? & ? & ? & (i & mi & Hi & Hmi & Hgi) & Hwhere). repeat split; try done.
    + exists i, mi. rewrite list_lookup_insert_ne; [done|]. intros ->.
      assert (mi = m) as -> by congruence. by destruct (gone_live m).
    + destruct Hwhere as [|(? & j & mj & ? & ? & ? & HjS)]; [by left|right].
      split; [done|]. exists j, mj. rewrite list_lookup_insert_ne by set_solver. set_solver.
  - eapply temps_read_insert; [apply (inv_temps _ _ HI)|done..].
Qed.

(** *** How sources evolve *)

(** Nothing starts or stops reading a destination of [S]. *)
Definition quiet (S : list nat) (ms ms' : list MoveOperands) : Prop :=
  length ms' = length ms /\
  forall j m m', ms !! j = Some m -> ms' !! j = Some m' ->
    (gone m -> gone m') /\
    (~ gone m' ->
       IsConstant (source_ m') = IsConstant (source_ m) /\
       forall c d, c ∈ S -> D !! c = Some d -> source_ m' = d <-> source_ m = d).

Lemma quiet_lookup S ms ms' j m' :
  quiet S ms ms' -> ms' !! j = Some m' -> exists m, ms !! j = Some m.
Proof.
  intros [Hlen _] Hm'. apply lookup_lt_is_Some_2. rewrite <- Hlen. by eapply lookup_lt_Some.
Qed.

Lemma quiet_evolves S x ms ms1 ms2 :
  quiet S ms ms1 -> length ms2 = length ms1 -> evolves S x ms1 ms2 -> evolves S x ms ms2.
Proof.
  intros Hq Hlen He j m m2 Hm Hm2.
  destruct (lookup_lt_is_Some_2 ms1 j) as [m1 Hm1]; [rewrite <- Hlen; by eapply lookup_lt_Some|].
  destruct (proj2 Hq j m m1 Hm Hm1) as [Q1 Q2]. destruct (He j m1 m2 Hm1 Hm2) as [E1 E2].
  split; [auto|]. intros Hg. destruct (E2 Hg) as [E3 E4].
  destruct (Q2 (fun g => Hg (E1 g))) as [Q3 Q4]. split; [congruence|].
  intros c d Hc Hd. specialize (Q4 c d Hc Hd). specialize (E4 c d Hc Hd). naive_solver.
Qed.

Lemma evolves_quiet S x ms ms1 ms2 :
  evolves S x ms ms1 -> quiet S ms1 ms2 -> evolves S x ms ms2.
Proof.
  intros He Hq j m m2 Hm Hm2. destruct (quiet_lookup _ _ _ _ _ Hq Hm2) as [m1 Hm1].
  destruct (proj2 Hq j m1 m2 Hm1 Hm2) as [Q1 Q2]. destruct (He j m m1 Hm Hm1) as [E1 E2].
  split; [auto|]. intros Hg. destruct (Q2 Hg) as [Q3 Q4].
  destruct (E2 (fun g => Hg (Q1 g))) as [E3 E4]. split; [congruence|].
  intros c d Hc Hd. specialize (Q4 c d Hc Hd). specialize (E4 c d Hc Hd). naive_solver.
Qed.

Lemma evolves_inner S k d ms ms' :
  k ∉ S -> D !! k = Some d -> length ms' = length ms -> evolves (k :: S) d ms ms' -> quiet S ms ms'.
Proof.
  intros HkS Hd Hlen He. split; [done|]. intros j m m' Hm Hm'. destruct (He j m m' Hm Hm') as [E1 E2].
  split; [done|]. intros Hg. destruct (E2 Hg) as [E3 E4]. split; [done|].
  intros c d' Hc Hd'. assert (d' <> d) by (intros ->; apply HkS; by rewrite (D_inj k c d)).
  specialize (E4 c d' (list_elem_of_further _ _ _ Hc) Hd'). naive_solver.
Qed.

Lemma quiet_trans S ms ms1 ms2 : quiet S ms ms1 -> quiet S ms1 ms2 -> quiet S ms ms2.
Proof.
  intros Hq Hq'. split; [destruct Hq, Hq'; congruence|]. intros j m m2 Hm Hm2.
  destruct (quiet_lookup _ _ _ _ _ Hq' Hm2) as [m1 Hm1].
  destruct (proj2 Hq j m m1 Hm Hm1) as [Q1 Q2]. destruct (proj2 Hq' j m1 m2 Hm1 Hm2) as [E1 E2].
  split; [auto|]. intros Hg. destruct (E2 Hg) as [E3 E4].
  destruct (Q2 (fun g => Hg (E1 g))) as [Q3 Q4]. split; [congruence|].
  intros c d Hc Hd. by rewrite (E4 c d Hc Hd), (Q4 c d Hc Hd).
Qed.

(** Setting a destination does not change what is read. *)
Lemma quiet_insert S ms k m d :
  ms !! k = Some m -> source_ m <> 0 -> quiet S ms (<[k := SetDestination m d]> ms).
Proof.
  intros Hk Hs. split; [apply length_insert|]. intros j mj m' Hj Hj'.
  apply list_lookup_insert_Some in Hj' as [(<- & <- & _)|(_ & Hj')].
  - assert (mj = m) as -> by congruence. split; [|done]. by intros [? _].
  - by assert (mj = m') as -> by congruence.
Qed.

Lemma quiet_upd S from to ms :
  from <> 0 -> IsConstant from = false -> IsConstant to = false ->
  (forall c d, c ∈ S -> D !! c = Some d -> d <> from /\ d <> to) -> quiet S ms (upd from to ms).
Proof.
  intros Hf Hfc Htc HS. split; [apply length_map|]. intros j m m' Hm Hm'.
  apply upd_lookup in Hm' as (m0 & Hm0 & ->). assert (m0 = m) as -> by congruence.
  split; [intros; by rewrite upd1_gone|]. intros _.
  destruct (upd1_cases from to m) as [[E ->]|[E ->]]; cbn [SetSource source_]; [|done].
  split; [congruence|]. intros c d Hc Hd. specialize (HS c d Hc Hd). naive_solver.
Qed.

Lemma evolves_eliminate S x ms k m from to :
  from <> 0 -> ms !! k = Some m ->
  evolves S x ms (upd from to ms) -> evolves S x ms (upd from to (<[k := Eliminate m]> ms)).
Proof.
  intros Hf Hk He j mj m' Hj Hj'. apply upd_lookup in Hj' as (m0 & Hm0 & ->).
  apply list_lookup_insert_Some in Hm0 as [(<- & <- & _)|(_ & Hm0)].
  - rewrite upd1_gone by done. split; [done|]. intros []. done.
  - apply (He j); [done|]. unfold upd. rewrite list_lookup_fmap, Hm0. done.
Qed.

(** *** [resolve_move] *)

(** The outcome of performing move [k] from [x] inside the stack [S]. *)
Definition performed (S : list nat) (x : Location) (k : nat) (st st' : Resolver) : Prop :=
  Inv st' S /\ waits st' S /\ evolves S x (moves_ st) (moves_ st') /\
  exists m, moves_ st' !! k = Some m /\ gone m.

Lemma not_in_stack (S : list nat) k d c dc :
  k ∉ S -> D !! k = Some d -> c ∈ S -> D !! c = Some dc -> dc <> d.
Proof. intros HkS Hd Hc Hdc ->. apply HkS. by rewrite (D_inj k c d). Qed.

(** Up to the test for a cycle. *)
Lemma resolve_start st S k m d :
  Inv st (k :: S) -> k ∉ S -> moves_ st !! k = Some m -> D !! k = Some d ->
  let m1 := SetDestination m d in
  let st1 := set_moves st (<[k := m1]> (moves_ st)) in
  Inv st1 S /\ moves_ st1 !! k = Some m1 /\ loc_ok (source_ m1) /\ source_ m1 <> d /\
  resolve_move acquire st (Z.of_nat k) d =
    (st ← (if (reads (pending_moves_ st1) d || reads (moves_ st1) d) then
             DCHECK negb (GetKind (source_ m1) =? kConstant);
             '(scratch, st) ← AllocateScratchLocationFor acquire st1 (GetKind (source_ m1));
             st ← put st (Z.of_nat k) (SetDestination m1 scratch);
             st ← EmitMove st (Z.of_nat k);
             st ← put st (Z.of_nat k) (Eliminate (SetDestination m1 scratch));
             Some (AddPendingMove (UpdateMoveSource st (source_ m1) scratch) scratch d
                     (if Is64BitMove m1 then kInt64 else kInt32))
           else
             st ← EmitMove st1 (Z.of_nat k);
             st ← put st (Z.of_nat k) (Eliminate m1);
             Some (UpdateMoveSource st (source_ m1) d));
     perform_pending (length (pending_moves_ st)) st (Z.of_nat k) (source_ m1)).
Proof.
  intros HI HkS Hm Hd m1 st1. destruct (Inv_unmark st S k m d HI HkS Hm Hd) as (HI1 & Hok & Hd0 & Hne).
  destruct (D_lookup_ok k d Hd) as [Hdok _].
  split; [done|]. split; [apply list_lookup_insert_eq; by eapply lookup_lt_Some|].
  split; [done|]. split; [done|]. unfold resolve_move.
  rewrite aread_nat, Hm. cbn [mbind option_bind]. unfold ClearPending.
  rewrite IsPending_live, Hd0 by done. cbn [Z.eqb dcheck mbind option_bind].
  rewrite put_nat by (by eapply lookup_lt_Some). cbn [mbind option_bind].
  fold m1. fold st1. rewrite IsRedundant_live by (done || by apply loc_valid).
  cbn [mbind option_bind]. unfold Equals at 1. change (destination_ m1) with d.
  rewrite (proj2 (Z.eqb_neq (source_ m1) d)) by done. cbn [negb dcheck mbind option_bind].
  by rewrite (IsBlocked_wf st1) by (done || by eapply Inv_wf).
Qed.

Lemma perform_pending_none st k l : pending_moves_ st = [] -> perform_pending 0 st k l = Some st.
Proof. intros Hp. cbn. unfold GetUnblockedPendingMove. by rewrite Hp. Qed.

Lemma perform_pending_other st S p k l n :
  Inv st S -> pending_moves_ st = [p] -> loc_ok l -> destination_ p <> l ->
  perform_pending n st k l = Some st.
Proof.
  intros HI Hp Hl Hne. pose proof (inv_pending _ _ HI) as HP. rewrite Hp in HP.
  destruct HP as (_ & _ & _ & (i & mi & Hi & _) & _). destruct (D_lookup_ok i _ Hi) as [HA _].
  destruct n; cbn; unfold GetUnblockedPendingMove; rewrite Hp; cbn [find_unblocked];
    rewrite loc_exact by done; unfold Equals; by rewrite (proj2 (Z.eqb_neq _ _) Hne).
Qed.

Lemma stack_live st S c d :
  Inv st S -> c ∈ S -> D !! c = Some d -> exists m, moves_ st !! c = Some m /\ ~ gone m.
Proof.
  intros HI Hc Hd. destruct (inv_slots _ _ HI) as [Hlen Hs].
  destruct (lookup_lt_is_Some_2 (moves_ st) c) as [m Hm]; [rewrite Hlen; by eapply lookup_lt_Some|].
  exists m. split; [done|]. intros Hg. destruct (Hs c m d Hm Hd) as [(_ & ? & _)|(? & _)]; [done|].
  by eapply gone_live.
Qed.

(** The pending move after the move [k] from [l], which nothing reads now. *)
Lemma pending_step st S k mk l :
  Inv st S -> moves_ st !! k = Some mk -> gone mk -> loc_ok l -> reads (moves_ st) l = false ->
  (pending_moves_ st = [] \/ exists p, pending_moves_ st = [p] /\
     (destination_ p = l \/
      exists a m, a ∈ S /\ moves_ st !! a = Some m /\ source_ m = destination_ p)) ->
  exists st', perform_pending (length (pending_moves_ st)) st (Z.of_nat k) l = Some st' /\
    Inv st' S /\ waits st' S /\ quiet S (moves_ st) (moves_ st').
Proof.
  intros HI Hk Hg Hl Hr [Hp|(p & Hp & Hcase)].
  - exists st. rewrite Hp. cbn [length]. split; [by apply perform_pending_none|].
    split; [done|]. split; [by left|]. split; [done|]. intros; simplify_eq; done.
  - pose proof (inv_pending _ _ HI) as HP. rewrite Hp in HP.
    destruct HP as (Hsc & Hc & _ & (i & mi & Hi & Hmi & Hgi) & _).
    destruct (D_lookup_ok i _ Hi) as [HA HAc]. rewrite Hp. cbn [length].
    destruct (decide (destination_ p = l)) as [<-|Hne].
    + destruct (perform_pending_spec st S p k mk) as (st' & E & HI' & Hp' & Hms); try done.
      exists st'. split; [done|]. split; [done|]. split; [by left|]. rewrite Hms.
      apply quiet_upd; try done; [by apply loc_valid|]. intros c d Hcs Hd. split; intros ->.
      * destruct (stack_live st S c (source_ p)) as (mc & Hmc & _); try done.
        by destruct (pending_source_ne st S p c mc).
      * destruct (stack_live st S c (destination_ p)) as (mc & Hmc & Hgc); try done.
        assert (c = i) as -> by (by eapply D_inj). congruence.
    + exists st. split; [by eapply perform_pending_other|]. split; [done|].
      split; [|split; [done|intros; by simplify_eq]]. right.
      destruct Hcase as [?|(a & m & ?)]; [done|]. exists p, a, m. naive_solver.
Qed.

Lemma reads_set_destination ms k m d l :
  ms !! k = Some m -> reads (<[k := SetDestination m d]> ms) l = reads ms l.
Proof.
  intros Hk. apply eq_true_iff_eq. rewrite <- !not_false_iff_true, !reads_false.
  split; intros H H'; apply H; intros m1 Hm1; apply list_elem_of_lookup in Hm1 as (j & Hj).
  - apply list_lookup_insert_Some in Hj as [(<- & <- & _)|(_ & Hj)];
      [apply (H' m)|apply H']; by eapply list_elem_of_lookup_2.
  - destruct (decide (j = k)) as [->|Hne].
    + assert (m1 = m) as -> by congruence. apply (H' (SetDestination m d)).
      apply (list_elem_of_lookup_2 _ k), list_lookup_insert_eq. by eapply lookup_lt_Some.
    + apply H', (list_elem_of_lookup_2 _ j). by rewrite list_lookup_insert_ne.
Qed.

Lemma upd_lookup_other from to ms j m :
  ms !! j = Some m -> source_ m <> from -> upd from to ms !! j = Some m.
Proof.
  intros Hj Hne. unfold upd. rewrite list_lookup_fmap, Hj. cbn [fmap option_fmap option_map].
  f_equal. by destruct (upd1_cases from to m) as [[? _]|[_ ?]].
Qed.

(** The sources after the move [k] of [S] has been emitted to [to]. *)
Lemma evolves_emit S x ms k m d to :
  ms !! k = Some m -> loc_ok (source_ m) -> IsConstant (source_ m) = false -> IsConstant to = false ->
  (forall c dc, c ∈ S -> D !! c = Some dc -> dc <> to /\ (source_ m = dc <-> x = dc)) ->
  evolves S x ms (upd (source_ m) to (<[k := Eliminate m]> (<[k := SetDestination m d]> ms))).
Proof.
  intros Hm Hok Hc Ht HS. pose proof (loc_valid _ Hok) as Hx0.
  eapply quiet_evolves; [by apply (quiet_insert S ms k m d)|unfold upd; by rewrite length_map, length_insert|].
  change (Eliminate m) with (Eliminate (SetDestination m d)).
  apply evolves_eliminate; [done|apply list_lookup_insert_eq; by eapply lookup_lt_Some|].
  by apply upd_evolves.
Qed.

Lemma upd_eliminated from to ms k m0 m :
  ms !! k = Some m0 -> from <> 0 -> upd from to (<[k := Eliminate m]> ms) !! k = Some (Eliminate m).
Proof.
  intros Hk Hf. unfold upd. rewrite list_lookup_fmap, list_lookup_insert_eq by (by eapply lookup_lt_Some).
  cbn [fmap option_fmap option_map]. f_equal. by apply upd1_gone.
Qed.

Lemma resolve_unblocked st S k m d x :
  Inv st (k :: S) -> k ∉ S -> moves_ st !! k = Some m -> D !! k = Some d ->
  IsConstant (source_ m) = false ->
  (forall c dc, c ∈ S -> D !! c = Some dc -> source_ m = dc <-> x = dc) ->
  waits st (k :: S) -> reads (moves_ st) d = false ->
  exists st', resolve_move acquire st (Z.of_nat k) d = Some st' /\ performed S x k st st'.
Proof.
  intros HI HkS Hm Hd Hc Hlink Hw Hr.
  destruct (resolve_start st S k m d HI HkS Hm Hd) as (HI1 & Hm1 & Hok & Hne & ->).
  set (m1 := SetDestination m d) in *. set (st1 := set_moves st _) in *.
  assert (reads (moves_ st1) d = false) as Hr1
    by exact (eq_trans (reads_set_destination _ k m d d Hm) Hr).
  assert (reads (pending_moves_ st1) d = false) as Hrp.
  { apply reads_false. intros p Hp <-. change (pending_moves_ st1) with (pending_moves_ st) in Hp.
    destruct Hw as [Hw|(p' & a & ma & Hw & _)]; rewrite Hw in Hp; [by apply not_elem_of_nil in Hp|].
    apply list_elem_of_singleton in Hp as ->.
    destruct (pending_source_ne st (k :: S) p' k m HI Hw Hd Hm) as [_ []]. left. }
  rewrite Hr1, Hrp. cbn [orb]. rewrite (EmitMove_nat st1 k m1 Hm1). cbn [mbind option_bind].
  rewrite put_nat by (by eapply lookup_lt_Some). cbn [mbind option_bind].
  set (st2 := UpdateMoveSource _ _ _).
  assert (Inv st2 S) as HI2.
  { apply (Inv_emit st1 S k m1 d _ HI1 Hm1 Hd Hok HkS Hrp Hr1). apply upd_redirected. }
  assert (moves_ st2 !! k = Some (Eliminate m)) as Hk2
    by exact (upd_eliminated (source_ m1) d (moves_ st1) k m1 m1 Hm1 (loc_valid _ Hok)).
  destruct (D_lookup_ok k d Hd) as [_ Hdc].
  destruct (pending_step st2 S k (Eliminate m) (source_ m1)) as (st' & -> & HI' & Hw' & Hq); try done.
  - by apply upd_reads.
  - change (pending_moves_ st2) with (pending_moves_ st).
    destruct Hw as [Hw|(p & a & ma & Hw & Ha & Hma & Hsa)]; [by left|right]. exists p. split; [done|].
    destruct (decide (destination_ p = source_ m1)) as [|Hpx]; [by left|right].
    assert (a <> k) as Hak by (intros ->; rewrite Hm in Hma; injection Hma as <-; by destruct Hpx).
    exists a, ma. split; [by apply elem_of_cons in Ha as [?|?]|]. split; [|done].
    apply upd_lookup_other; [|congruence]. cbn [set_moves moves_].
    rewrite list_lookup_insert_ne by done. cbn [st1 set_moves moves_].
    by rewrite list_lookup_insert_ne.
  - exists st'. split; [done|]. split; [done|]. split; [done|]. split.
    + eapply evolves_quiet; [|done]. apply (evolves_emit S x _ k m d d Hm Hok Hc Hdc).
      intros c dc Hcs Hdcs. split; [by eapply not_in_stack|by eapply Hlink].
    + destruct (lookup_lt_is_Some_2 (moves_ st') k) as [mk Hmk];
        [rewrite (proj1 Hq); by eapply lookup_lt_Some|].
      exists mk. split; [done|]. by apply (proj2 Hq k _ _ Hk2 Hmk).
Qed.

Lemma resolve_blocked st S k m d x :
  Inv st (k :: S) -> k ∉ S -> moves_ st !! k = Some m -> D !! k = Some d ->
  IsConstant (source_ m) = false ->
  (forall c dc, c ∈ S -> D !! c = Some dc -> source_ m = dc <-> x = dc) ->
  pending_moves_ st = [] -> reads (moves_ st) d = true ->
  (forall j mj, moves_ st !! j = Some mj -> source_ mj = d -> j ∈ k :: S) ->
  exists st', resolve_move acquire st (Z.of_nat k) d = Some st' /\ performed S x k st st'.
Proof.
  intros HI HkS Hm Hd Hc Hlink Hp Hr Hstack.
  destruct (resolve_start st S k m d HI HkS Hm Hd) as (HI1 & Hm1 & Hok & Hne & ->).
  set (m1 := SetDestination m d) in *. set (st1 := set_moves st _) in *.
  assert (reads (moves_ st1) d = true) as Hr1
    by exact (eq_trans (reads_set_destination _ k m d d Hm) Hr).
  assert (scratches_ st1 = []) as Hls.
  { pose proof (inv_pending _ _ HI1) as HP. change (pending_moves_ st1) with (pending_moves_ st) in HP.
    by rewrite Hp in HP. }
  rewrite Hr1, orb_true_r.
  pose proof (loc_kind _ Hok Hc) as Hkind.
  replace (dcheck _) with (Some tt); cycle 1.
  { symmetry. set_unfold. by destruct_or? Hkind; rewrite Hkind. }
  cbn [mbind option_bind].
  destruct (AllocateScratch_spec st1 S _ HI1 Hls Hp Hkind) as (to & ls & x1 & v1 & -> & Hto & Hpool & Hwhere).
  destruct (scratch_ok _ _ _ _ Hwhere) as (Htok & Htc & HtoD & Htlive).
  cbn [mbind option_bind].
  rewrite (emit_eliminate _ (set_temps (set_scratches st1 ls) x1 v1) k m1 _ Hm1).
  cbn [mbind option_bind].
  set (st2 := AddPendingMove _ _ _ _).
  assert (Inv st2 S) as HI2.
  { unfold st2, AddPendingMove, UpdateMoveSource. cbn. rewrite Hp.
    apply (Inv_scratch st1 S k m1 d to ls x1 v1 _ _ HI1 Hp Hls Hm1 Hd Hok HkS Hr1 Hto Hpool Hwhere).
    apply upd_redirected. }
  assert (pending_moves_ st2 = [Build_MoveOperands to d (if Is64BitMove m1 then kInt64 else kInt32)])
    as Hp2 by (unfold st2, AddPendingMove, UpdateMoveSource; cbn; by rewrite Hp).
  rewrite (perform_pending_other st2 S _ _ _ _ HI2 Hp2 Hok) by (cbn [destination_]; congruence).
  exists st2. split; [done|]. split; [done|]. split; [|split].
  - right. apply reads_true in Hr as (ma & Hma & Hsa). apply list_elem_of_lookup in Hma as (a & Hma).
    specialize (Hstack a ma Hma Hsa) as Ha.
    assert (a <> k) as Hak by (intros ->; rewrite Hm in Hma; injection Hma as <-; done).
    eexists _, a, ma. split; [done|]. split; [by apply elem_of_cons in Ha as [?|?]|]. split; [|done].
    apply (upd_lookup_other (source_ m1) to); [|congruence].
    change (<[k := Eliminate m1]> (<[k := m1]> (moves_ st)) !! a = Some ma).
    by rewrite !list_lookup_insert_ne.
  - apply (evolves_emit S x _ k m d to Hm Hok Hc Htc). intros c dc Hcs Hdcs.
    split; [|by eapply Hlink]. intros ->. by apply (Htlive c Hdcs).
  - exists (Eliminate m1). split; [|done].
    exact (upd_eliminated (source_ m1) to (moves_ st1) k m1 m1 Hm1 (loc_valid _ Hok)).
Qed.

(** *** [PerformMove] *)

Lemma performed_redundant st S k m d :
  Inv st S -> pending_moves_ st = [] -> k ∉ S -> moves_ st !! k = Some m -> D !! k = Some d ->
  loc_ok (source_ m) -> source_ m = d ->
  performed S (source_ m) k st (set_moves st (<[k := Eliminate m]> (moves_ st))).
Proof.
  intros HI Hp HkS Hm Hd Hok E. pose proof (inv_pending _ _ HI) as HP.
  assert (value st d = want d) as Hv.
  { destruct (proj2 (inv_slots _ _ HI) k m d Hm Hd) as [(Hg & _)|(_ & Hv & _)]; [|congruence].
    by destruct (gone_live m). }
  split; [|split; [by left|split]].
  - split; try apply HI; cbn [set_moves moves_ pending_moves_ scratches_].
    + destruct (inv_slots _ _ HI) as [Hlen Hs]. split; [by rewrite length_insert|].
      intros j mj dj Hj Hdj. apply list_lookup_insert_Some in Hj as [(<- & <- & _)|(_ & Hj)]; [|by apply Hs].
      left. assert (dj = d) as -> by congruence. by repeat split; [..|left].
    + by rewrite Hp in *.
    + intros m1 Hm1 Ht. apply (inv_temps _ _ HI); [|done].
      eapply elem_insert_gone; [done|]. by apply loc_valid, temp_ok.
  - intros j mj m' Hj Hj'. cbn [set_moves moves_] in Hj'.
    apply list_lookup_insert_Some in Hj' as [(<- & <- & _)|(_ & Hj')]; [split; [done|by intros []]|].
    assert (mj = m') as -> by congruence. split; [done|]. intros _. split; [done|].
    intros c dc Hc Hdc. assert (dc <> d) by (by eapply not_in_stack). split; [|done].
    intros Hs. split; [done|congruence].
  - exists (Eliminate m). split; [|done]. apply list_lookup_insert_eq. by eapply lookup_lt_Some.
Qed.

(** The loop over the moves that read the destination [d] of [k], at index [i]:
    no unstarted move below [i] does, or one was performed and nothing reads [d]
    any more. *)
Definition scanned (S : list nat) (k : nat) (d : Location) (st1 : Resolver) (i : Z) (st : Resolver)
    : Prop :=
  (st = st1 /\ forall j mj, Z.of_nat j < i -> moves_ st !! j = Some mj -> source_ mj = d -> j ∈ k :: S) \/
  (Inv st (k :: S) /\ waits st (k :: S) /\ quiet S (moves_ st1) (moves_ st) /\
   reads (moves_ st) d = false).

Lemma scanned_performed S k d j st st' :
  k ∉ S -> D !! k = Some d -> Inv st (k :: S) -> performed (k :: S) d j st st' ->
  scanned S k d st (Z.of_nat j + 1) st'.
Proof.
  intros HkS Hd HI (HI' & Hw & He & _). right. destruct (D_lookup_ok k d Hd) as [Hdok _].
  assert (length (moves_ st') = length (moves_ st)) as Hlen.
  { by rewrite (proj1 (inv_slots _ _ HI)), (proj1 (inv_slots _ _ HI')). }
  split; [done|]. split; [done|]. split; [by eapply evolves_inner|].
  apply reads_false. intros m' Hm' Hs. apply list_elem_of_lookup in Hm' as (i & Hi).
  destruct (lookup_lt_is_Some_2 (moves_ st) i) as [m Hm]; [rewrite <- Hlen; by eapply lookup_lt_Some|].
  destruct (He i m m' Hm Hi) as [_ H].
  destruct H as [_ H]; [intros [Hg _]; apply loc_valid in Hdok; congruence|].
  destruct (H k d (list_elem_of_here _ _) Hd) as [H1 _]. by destruct (H1 Hs).
Qed.

Lemma scanned_resolve S k m d st st1 st2 :
  Inv st S -> pending_moves_ st = [] -> k ∉ S -> moves_ st !! k = Some m -> D !! k = Some d ->
  loc_ok (source_ m) -> IsConstant (source_ m) = false -> source_ m <> d ->
  st1 = set_moves st (<[k := SetDestination m NoLocation]> (moves_ st)) ->
  scanned S k d st1 (Z.of_nat (length (moves_ st1))) st2 ->
  exists st', resolve_move acquire st2 (Z.of_nat k) d = Some st' /\
    performed S (source_ m) k st st'.
Proof.
  intros HI Hp HkS Hm Hd Hok Hc Hne -> Hscan. set (st1 := set_moves _ _) in *.
  pose proof (Inv_mark st S k m d HI Hp Hm Hd Hok Hne) as HI1. fold st1 in HI1.
  assert (quiet S (moves_ st) (moves_ st1)) as Hq1
    by (apply quiet_insert; [done|by apply loc_valid]).
  assert (Inv st2 (k :: S) /\ quiet S (moves_ st) (moves_ st2)) as [HI2 Hq2].
  { destruct Hscan as [[-> _]|(? & _ & ? & _)]; [done|]. split; [done|by eapply quiet_trans]. }
  destruct (stack_live st2 (k :: S) k d HI2) as (m2 & Hm2 & Hg2); [left|done|].
  destruct (proj2 Hq2 k m m2 Hm Hm2) as [_ H]. destruct (H Hg2) as [Hc2 Hlink]. clear H.
  assert (exists st', resolve_move acquire st2 (Z.of_nat k) d = Some st' /\
    performed S (source_ m) k st2 st') as (st' & E & HI' & Hw' & He' & Hg').
  { destruct (reads (moves_ st2) d) eqn:Hr.
    - destruct Hscan as [[E Hj]|(_ & _ & _ & Hr')]; [|congruence].
      apply (resolve_blocked st2 S k m2); try done; [congruence|by rewrite E|].
      intros j mj Hmj. apply Hj; [|done]. rewrite E in Hmj.
      apply lookup_lt_Some in Hmj. lia.
    - apply (resolve_unblocked st2 S k m2); try done; [congruence|].
      destruct Hscan as [[-> _]|(_ & ? & _)]; [by left|done]. }
  exists st'. split; [done|]. split; [done|]. split; [done|]. split; [|done].
  eapply quiet_evolves; [done| |done].
  by rewrite (proj1 (inv_slots _ _ HI2)), (proj1 (inv_slots _ _ HI')).
Qed.

Lemma scan_step (perform : Resolver -> Z -> option Resolver) S k d st1 i st :
  k ∉ S -> D !! k = Some d -> Inv st1 (k :: S) ->
  (forall j mj, j ∉ k :: S -> moves_ st1 !! j = Some mj -> ~ gone mj ->
     IsConstant (source_ mj) = false ->
     exists st', perform st1 (Z.of_nat j) = Some st' /\ performed (k :: S) (source_ mj) j st1 st') ->
  0 <= i < 0 + Z.of_nat (length (moves_ st1)) -> scanned S k d st1 i st ->
  exists st',
    (other_move ← aread (moves_ st) i;
     b ← Blocks other_move d;
     if (b : bool) then
       p ← IsPending other_move;
       if negb p then perform st i else Some st
     else Some st) = Some st' /\ scanned S k d st1 (i + 1) st'.
Proof.
  intros HkS Hd HI1 Hperf Hi Hscan. destruct (D_lookup_ok k d Hd) as [Hdok Hdc].
  pose proof (loc_valid d Hdok) as Hd0.
  assert (Inv st (k :: S)) as HI by (by destruct Hscan as [[-> _]|(? & _)]).
  assert (exists j, i = Z.of_nat j) as (j & ->) by (exists (Z.to_nat i); lia).
  destruct (lookup_lt_is_Some_2 (moves_ st) j) as [mj Hmj].
  { rewrite (proj1 (inv_slots _ _ HI)), <- (proj1 (inv_slots _ _ HI1)). lia. }
  rewrite aread_nat, Hmj. cbn [mbind option_bind].
  rewrite Blocks_wf by (done || (eapply (Forall_lookup_1 wf_move), Hmj; eapply slots_wf, (inv_slots _ _ HI))).
  cbn [mbind option_bind]. unfold Equals. destruct (Z.eqb_spec (source_ mj) d) as [E|Hne].
  - destruct Hscan as [[-> Hj]|(_ & _ & _ & Hr)]; [|by destruct (reads_lookup _ _ _ _ Hr Hmj)].
    rewrite IsPending_live by congruence. cbn [mbind option_bind].
    destruct (slots_lookup _ _ _ _ _ _ (inv_slots _ _ HI1) Hmj) as (dj & Hdj & Hdjok & _ & Hslot).
    destruct Hslot as [([Hs0 _] & _)|(_ & _ & Hin & Hout)]; [congruence|].
    destruct (decide (j ∈ k :: S)) as [Hjs|Hjs].
    + destruct (Hin Hjs) as [-> _]. cbn [Z.eqb negb]. exists st1. split; [done|]. left. split; [done|].
      intros j' mj' Hlt Hmj' Hs'. destruct (decide (j' = j)) as [->|]; [done|]. eapply Hj; try done. lia.
    + rewrite (Hout Hjs). rewrite (proj2 (Z.eqb_neq dj 0)) by (by apply loc_valid). cbn [negb].
      destruct (Hperf j mj) as (st' & E' & HP); try done; [intros [? _]; congruence|congruence|].
      exists st'. split; [done|]. rewrite E in HP. by apply scanned_performed.
  - exists st. split; [done|]. destruct Hscan as [[-> Hj]|?]; [left|by right]. split; [done|].
    intros j' mj' Hlt Hmj' Hs'. destruct (decide (j' = j)) as [->|]; [congruence|]. eapply Hj; try done. lia.
Qed.

Lemma PerformMove_spec fuel : forall st S k m,
  Inv st S -> pending_moves_ st = [] -> NoDup S -> (forall c, c ∈ S -> (c < length D)%nat) ->
  (length D < fuel + length S)%nat -> k ∉ S -> moves_ st !! k = Some m -> ~ gone m ->
  IsConstant (source_ m) = false ->
  exists st', PerformMove acquire fuel st (Z.of_nat k) = Some st' /\
    performed S (source_ m) k st st'.
Proof.
  induction fuel as [|fuel IH]; intros st S k m HI Hp HS Hb Hfuel HkS Hm Hg Hc;
    destruct (slots_lookup _ _ _ _ _ _ (inv_slots _ _ HI) Hm) as (d & Hd & Hdok & Hdc & Hslot);
    (assert (k < length D)%nat as Hk by (by eapply lookup_lt_Some));
    (assert (forall c, c ∈ k :: S -> (c < length D)%nat) as Hb' by (intros c [->|?]%elem_of_cons; auto)).
  { pose proof (stack_bound (length D) S k HS HkS Hb'). lia. }
  destruct Hslot as [(? & _)|(Hok & _ & _ & Hdest)]; [done|]. specialize (Hdest HkS).
  pose proof (loc_valid d Hdok) as Hd0. cbn [PerformMove]. rewrite aread_nat, Hm.
  cbn [mbind option_bind]. rewrite IsPending_live, IsEliminated_live, IsRedundant_live, Hdest
    by (done || congruence). cbn [mbind option_bind].
  rewrite (proj2 (Z.eqb_neq d 0)) by done. cbn [negb dcheck mbind option_bind].
  unfold Equals at 1. destruct (Z.eqb_spec (source_ m) d) as [E|Hne].
  - rewrite put_nat by (by eapply lookup_lt_Some). eexists. split; [done|]. by eapply performed_redundant.
  - unfold IsInvalid, IsValid, kInvalid, MarkPending.
    rewrite (proj2 (Z.eqb_neq (source_ m) 0)) by (by apply loc_valid).
    rewrite IsPending_live, Hdest, (proj2 (Z.eqb_neq d 0)) by done. cbn [negb dcheck mbind option_bind].
    rewrite put_nat by (by eapply lookup_lt_Some). cbn [mbind option_bind].
    set (st1 := set_moves st _).
    pose proof (Inv_mark st S k m d HI Hp Hm Hd Hok Hne) as HI1. fold st1 in HI1.
    edestruct (for_loop_inv (scanned S k d st1) (length (moves_ st1)) 0) as (st2 & -> & Hscan);
      [left; split; [done|lia]| |].
    2: { cbn [mbind option_bind]. by eapply scanned_resolve. }
    intros j st' Hj Hsc. apply scan_step with (st1 := st1); try done.
    intros i mi Hi Hmi Hgi Hci. apply IH; try done; [by constructor|]. cbn [length]. lia.
Qed.

(** *** The three loops *)

Lemma live_or_gone st S k m :
  Inv st S -> moves_ st !! k = Some m -> gone m \/ (~ gone m /\ loc_ok (source_ m)).
Proof.
  intros HI Hm. destruct (slots_lookup _ _ _ _ _ _ (inv_slots _ _ HI) Hm) as (d & _ & _ & _ & Hs).
  destruct Hs as [(? & _)|(Hok & _)]; [by left|right]. split; [|done]. intros Hg. by eapply gone_live.
Qed.

Lemma index_lookup st i :
  Inv st [] -> 0 <= i < 0 + Z.of_nat (length D) ->
  exists k m, i = Z.of_nat k /\ moves_ st !! k = Some m.
Proof.
  intros HI Hi. exists (Z.to_nat i).
  destruct (lookup_lt_is_Some_2 (moves_ st) (Z.to_nat i)) as [m Hm].
  { rewrite (proj1 (inv_slots _ _ HI)). lia. }
  exists m. split; [lia|done].
Qed.

Lemma perform_moves_spec st :
  Inv st [] -> pending_moves_ st = [] ->
  exists st', perform_moves acquire st = Some st' /\ Inv st' [] /\ pending_moves_ st' = [] /\
    forall m, m ∈ moves_ st' -> gone m \/ IsConstant (source_ m) = true.
Proof.
  intros HI Hp. unfold perform_moves.
  set (P := fun i st => Inv st [] /\ pending_moves_ st = [] /\ forall j m, Z.of_nat j < i ->
    moves_ st !! j = Some m -> gone m \/ IsConstant (source_ m) = true).
  edestruct (for_loop_inv P (length (moves_ st)) 0) as (st' & -> & HI' & Hp' & Hall);
    [split; [done|split; [done|lia]]| |].
  2: { exists st'. split; [done|]. split; [done|]. split; [done|]. intros m Hm.
    apply list_elem_of_lookup in Hm as (j & Hj). apply (Hall j); [|done].
    apply lookup_lt_Some in Hj. rewrite (proj1 (inv_slots _ _ HI')) in Hj.
    rewrite (proj1 (inv_slots _ _ HI)). lia. }
  rewrite (proj1 (inv_slots _ _ HI)). clear st HI Hp. intros i st Hi (HI & Hp & Hall).
  destruct (index_lookup st i HI Hi) as (k & m & -> & Hm). rewrite aread_nat, Hm. cbn [mbind option_bind].
  assert (gone m \/ IsConstant (source_ m) = true -> P (Z.of_nat k + 1) st) as Hskip.
  { intros Hk. split; [done|]. split; [done|]. intros j mj Hj Hmj.
    destruct (decide (j = k)) as [->|]; [by simplify_eq|]. eapply Hall; [|done]. lia. }
  destruct (live_or_gone st [] k m HI Hm) as [Hg|[Hg Hok]].
  { rewrite IsEliminated_gone by done. cbn. eauto. }
  rewrite IsEliminated_live by done. cbn [mbind option_bind negb andb].
  destruct (IsConstant (source_ m)) eqn:Hc; cbn [negb]; [eauto|].
  destruct (PerformMove_spec (S (length (moves_ st))) st [] k m) as (st' & -> & HI' & Hw & He & Hgk); try done.
  - constructor.
  - intros c Hc'. by apply not_elem_of_nil in Hc'.
  - rewrite (proj1 (inv_slots _ _ HI)). cbn [length]. lia.
  - apply not_elem_of_nil.
  - exists st'. split; [done|]. split; [done|]. split.
    { destruct Hw as [?|(p & a & ? & _ & Ha & _)]; [done|]. by apply not_elem_of_nil in Ha. }
    intros j m' Hj Hm'. destruct (decide (j = k)) as [->|Hne].
    { destruct Hgk as (mk & ? & ?). left. congruence. }
    destruct (lookup_lt_is_Some_2 (moves_ st) j) as [mj Hmj].
    { rewrite (proj1 (inv_slots _ _ HI)), <- (proj1 (inv_slots _ _ HI')). by eapply lookup_lt_Some. }
    destruct (He j mj m' Hmj Hm') as [E1 E2].
    destruct (Hall j mj) as [?|Hcj]; [lia|done|left; auto|].
    destruct (live_or_gone st' [] j m' HI' Hm') as [?|[Hg' _]]; [by left|right].
    destruct (E2 Hg') as [-> _]. done.
Qed.

(** After the first loop: the outstanding sources are constants or finished
    destinations, so nothing blocks. *)
Definition settled (st : Resolver) : Prop :=
  forall m, m ∈ moves_ st ->
    gone m \/ IsConstant (source_ m) = true \/
    exists j mj, D !! j = Some (source_ m) /\ moves_ st !! j = Some mj /\ gone mj.

Lemma settled_emit st k m d ms' :
  Inv st [] -> pending_moves_ st = [] -> settled st ->
  moves_ st !! k = Some m -> D !! k = Some d -> loc_ok (source_ m) ->
  redirected (source_ m) d (<[k := Eliminate m]> (moves_ st)) ms' ->
  let st' := Build_Resolver ms' (pending_moves_ st) (scratches_ st) (x_temps st) (v_temps st)
               (emitted st ++ [(source_ m, d)]) in
  Inv st' [] /\ settled st' /\
  (forall j mj, moves_ st !! j = Some mj -> gone mj -> ms' !! j = Some mj) /\
  ms' !! k = Some (Eliminate m).
Proof.
  intros HI Hp Hset Hm Hd Hok Hred st'. destruct (D_lookup_ok k d Hd) as [Hdok Hdc].
  pose proof (loc_valid _ Hok) as Hx0.
  assert (~ gone m) as Hg by (intros Hg; by eapply gone_live).
  assert (ms' !! k = Some (Eliminate m)) as Hk'.
  { eapply redirected_gone; try done. apply list_lookup_insert_eq. by eapply lookup_lt_Some. }
  assert (forall j mj, moves_ st !! j = Some mj -> gone mj -> ms' !! j = Some mj) as Hkeep.
  { intros j mj Hj Hgj. eapply redirected_gone; try done.
    rewrite list_lookup_insert_ne; [done|]. intros ->. congruence. }
  split; [|split; [|done]].
  - apply (Inv_emit st [] k m d); try done; [apply not_elem_of_nil|by rewrite Hp|].
    apply reads_false. intros m' Hm' E. destruct (Hset m' Hm') as [[Hs _]|[Hs|(j & mj & Hj & Hmj & Hgj)]].
    + apply loc_valid in Hdok. congruence.
    + congruence.
    + rewrite E in Hj. assert (j = k) as -> by (by eapply D_inj). congruence.
  - intros m' Hm'. cbn [st' moves_] in *. destruct (redirected_elem _ _ _ _ _ Hred Hm') as [E|Hin].
    + right. right. exists k, (Eliminate m). by rewrite E.
    + apply list_elem_of_lookup in Hin as (j & Hj).
      apply list_lookup_insert_Some in Hj as [(<- & <- & _)|(_ & Hj)]; [by left|].
      destruct (Hset m') as [?|[?|(i & mi & Hi & Hmi & Hgi)]]; [by eapply list_elem_of_lookup_2|by left|auto|].
      right. right. exists i, mi. split; [done|]. split; [by apply Hkeep|done].
Qed.

(** What the last two loops keep. *)
Definition finishing (i : Z) (keep : MoveOperands -> Prop) (st : Resolver) : Prop :=
  Inv st [] /\ pending_moves_ st = [] /\ settled st /\
  forall j m, Z.of_nat j < i -> moves_ st !! j = Some m -> gone m \/ keep m.

Lemma finishing_skip i keep st k m :
  finishing i keep st -> i = Z.of_nat k -> moves_ st !! k = Some m -> gone m \/ keep m ->
  finishing (i + 1) keep st.
Proof.
  intros (HI & Hp & Hset & Hall) -> Hm Hk. repeat split; try done; try apply HI.
  intros j mj Hj Hmj. destruct (decide (j = k)) as [->|]; [by simplify_eq|]. apply (Hall j); [lia|done].
Qed.

Lemma perform_constant_moves_spec st :
  Inv st [] -> pending_moves_ st = [] -> settled st ->
  exists st', perform_constant_moves st = Some st' /\ finishing 0 (fun _ => True) st'.
Proof.
  intros HI Hp Hset. unfold perform_constant_moves.
  edestruct (for_loop_inv (fun _ => finishing 0 (fun _ => True)) (length (moves_ st)) 0)
    as (st' & -> & Hf); [by split; [|split; [|split; [|lia]]]| |by exists st'].
  rewrite (proj1 (inv_slots _ _ HI)). clear st HI Hp Hset. intros i st Hi (HI & Hp & Hset & _).
  destruct (index_lookup st i HI Hi) as (k & m & -> & Hm). rewrite aread_nat, Hm. cbn [mbind option_bind].
  assert (finishing 0 (fun _ => True) st) as Hskip by (split; [done|split; [done|split; [done|lia]]]).
  destruct (live_or_gone st [] k m HI Hm) as [Hg|[Hg Hok]].
  { rewrite IsEliminated_gone by done. cbn. eauto. }
  rewrite IsEliminated_live by done. cbn [mbind option_bind negb andb].
  destruct (negb (IsStackSlot (destination_ m)) && negb (IsDoubleStackSlot (destination_ m))); [|eauto].
  destruct (slots_lookup _ _ _ _ _ _ (inv_slots _ _ HI) Hm) as (d & Hd & _ & _ & Hs).
  assert (destination_ m = d) as Hdest.
  { destruct Hs as [(? & _)|(_ & _ & _ & Hout)]; [done|]. apply Hout, not_elem_of_nil. }
  rewrite (EmitMove_nat st k m Hm). cbn [mbind option_bind].
  rewrite put_nat by (by eapply lookup_lt_Some). cbn [mbind option_bind].
  eexists. split; [done|]. rewrite Hdest.
  destruct (settled_emit st k m d (upd (source_ m) d (<[k := Eliminate m]> (moves_ st))))
    as (HI' & Hset' & _); try done; [apply upd_redirected|].
  split; [exact HI'|split; [done|split; [exact Hset'|lia]]].
Qed.

Lemma perform_rest_spec st :
  Inv st [] -> pending_moves_ st = [] -> settled st ->
  exists st', perform_rest st = Some st' /\ Inv st' [] /\ pending_moves_ st' = [] /\
    forall m, m ∈ moves_ st' -> gone m.
Proof.
  intros HI Hp Hset. unfold perform_rest.
  edestruct (for_loop_inv (fun i => finishing i (fun _ => False)) (length (moves_ st)) 0)
    as (st' & -> & HI' & Hp' & _ & Hall); [split; [done|split; [done|split; [done|lia]]]| |].
  2: { exists st'. split; [done|]. split; [done|]. split; [done|]. intros m Hm.
    apply list_elem_of_lookup in Hm as (j & Hj). destruct (Hall j m); [|done..].
    apply lookup_lt_Some in Hj. rewrite (proj1 (inv_slots _ _ HI')) in Hj.
    rewrite (proj1 (inv_slots _ _ HI)). lia. }
  rewrite (proj1 (inv_slots _ _ HI)). clear st HI Hp Hset. intros i st Hi Hf.
  pose proof Hf as (HI & Hp & Hset & Hall).
  destruct (index_lookup st i HI Hi) as (k & m & -> & Hm). rewrite aread_nat, Hm. cbn [mbind option_bind].
  destruct (live_or_gone st [] k m HI Hm) as [Hg|[Hg Hok]].
  { rewrite IsEliminated_gone by done. cbn. eauto using finishing_skip. }
  rewrite IsEliminated_live by done. cbn [mbind option_bind negb andb].
  destruct (slots_lookup _ _ _ _ _ _ (inv_slots _ _ HI) Hm) as (d & Hd & _ & _ & Hs).
  assert (destination_ m = d) as Hdest.
  { destruct Hs as [(? & _)|(_ & _ & _ & Hout)]; [done|]. apply Hout, not_elem_of_nil. }
  rewrite (EmitMove_nat st k m Hm). cbn [mbind option_bind].
  rewrite put_nat by (by eapply lookup_lt_Some). eexists. split; [done|]. rewrite Hdest.
  destruct (settled_emit st k m d (<[k := Eliminate m]> (moves_ st)))
    as (HI' & Hset' & Hkeep & Hk'); try done; [apply redirected_refl|].
  split; [exact HI'|split; [done|split; [exact Hset'|]]]. cbn [set_moves moves_].
  intros j mj Hj Hmj. destruct (decide (j = k)) as [->|Hne]; [left; by simplify_eq|].
  rewrite list_lookup_insert_ne in Hmj by done. apply (Hall j); [lia|done].
Qed.

(** The whole run from a state with nothing pending. *)
Lemma run_moves st :
  Inv st [] -> pending_moves_ st = [] ->
  exists st',
    (st ← perform_moves acquire st; st ← perform_constant_moves st; perform_rest st) = Some st' /\
    pending_moves_ st' = [] /\ (forall d, d ∈ D -> value st' d = want d) /\
    (forall l, untouched l -> value st' l = s0 l).
Proof.
  intros HI Hp. destruct (perform_moves_spec st HI Hp) as (st1 & -> & HI1 & Hp1 & Hall1).
  cbn [mbind option_bind].
  destruct (perform_constant_moves_spec st1 HI1 Hp1) as (st2 & -> & HI2 & Hp2 & Hset2 & _).
  { intros m Hm. destruct (Hall1 m Hm); auto. }
  cbn [mbind option_bind].
  destruct (perform_rest_spec st2 HI2 Hp2 Hset2) as (st3 & -> & HI3 & Hp3 & Hall3).
  exists st3. split; [done|]. split; [done|]. split; [|apply (inv_frame _ _ HI3)].
  intros d Hd. apply list_elem_of_lookup in Hd as (k & Hk). destruct (inv_slots _ _ HI3) as [Hlen Hs].
  destruct (lookup_lt_is_Some_2 (moves_ st3) k) as [m Hm]; [rewrite Hlen; by eapply lookup_lt_Some|].
  assert (gone m) as Hg by (apply Hall3; by eapply list_elem_of_lookup_2).
  destruct (Hs k m d Hm Hk) as [(_ & _ & [?|(p & Hpe & _)])|(Hok & _)]; [done| |].
  - rewrite Hp3 in Hpe. by apply not_elem_of_nil in Hpe.
  - by destruct (gone_live m).
Qed.

End Correct.

(** ** Parallel moves of operands *)

(** The operands of code for 64-bit machines: no register pairs, word-aligned
    slots. *)
Definition single_place (p : place) : bool :=
  bool_decide (place_ok p) &&
  match p with
  | PRegisterPair _ _ | PFpuRegisterPair _ _ | PUnallocated _ => false
  | PSIMDStackSlot _ => true
  | _ => operand p
  end.

Definition build_move (mv : place * place * DataType) : MoveOperands :=
  Build_MoveOperands (word_of mv.1.1) (word_of mv.1.2) mv.2.

Definition temp_places (xs vs : list Z) : list place := map PRegister xs ++ map PFpuRegister vs.

Definition dest_places (pm : list (place * place * DataType)) : list place :=
  map (fun mv => mv.1.2) pm.

Definition source_places (pm : list (place * place * DataType)) : list place :=
  map (fun mv => mv.1.1) pm.

(** Every operand and scratch register is such a place, two of them that share
    storage are equal, no destination is written twice or is a constant, and the
    scratch registers are free. *)
Record parallel_ok (pm : list (place * place * DataType)) (xs vs : list Z) : Prop := {
  all_single : forall p, p ∈ source_places pm ++ dest_places pm ++ temp_places xs vs ->
    single_place p = true;
  separate : forall p q, p ∈ source_places pm ++ dest_places pm ++ temp_places xs vs ->
    q ∈ source_places pm ++ dest_places pm ++ temp_places xs vs -> shares_storage p q -> p = q;
  dests_once : NoDup (dest_places pm);
  dests_writable : forall c, PConstant c ∉ dest_places pm;
  temps_free : forall p, p ∈ temp_places xs vs -> p ∉ source_places pm ++ dest_places pm;
}.

Definition idle_resolver : Resolver := Build_Resolver [] [] [] [] [] [].

Lemma single_ok p : single_place p = true -> place_ok p.
Proof. intros [H _]%andb_prop. by apply bool_decide_eq_true in H. Qed.

Lemma single_operand p : single_place p = true -> operand p = true \/ exists i, p = PSIMDStackSlot i.
Proof. intros [_ H]%andb_prop. destruct p; try done; eauto. Qed.

Lemma single_storage p : single_place p = true -> storage_operand p = true.
Proof. intros [_ H]%andb_prop. unfold storage_operand. apply orb_true_iff. destruct p; auto. Qed.

(** Operands that share storage only when equal overlap only when equal. *)
Lemma overlaps_separate p q :
  single_place p = true -> single_place q = true -> (shares_storage p q -> p = q) ->
  OverlapsWith (word_of p) (word_of q) = Some (Equals (word_of p) (word_of q)).
Proof.
  intros Hp Hq Hsep. pose proof (single_ok p Hp) as Hpok. pose proof (single_ok q Hq) as Hqok.
  rewrite Equals_word by done.
  pose proof (single_storage p Hp) as Sp. pose proof (single_storage q Hq) as Sq.
  destruct (single_operand p Hp) as [Op|[i ->]]; [|by apply simd_overlap].
  destruct (single_operand q Hq) as [Oq|[i ->]]; [|by apply simd_overlap; [..|rewrite orb_true_r]].
  rewrite OverlapsWith_word by done. case_bool_decide as E.
  - subst q. unfold contains. by rewrite bool_decide_true.
  - destruct (contains p q || contains q p) eqn:C.
    + destruct E. by apply Hsep, contains_spec.
    + destruct (both_wide p q && _) eqn:B; [|done]. apply andb_prop in B as [B1 B2].
      destruct E. by apply Hsep, halves_spec.
Qed.

Lemma single_kind p :
  single_place p = true -> IsConstant (word_of p) = false ->
  GetKind (word_of p) ∈ [kRegister; kFpuRegister; kStackSlot; kDoubleStackSlot; kSIMDStackSlot].
Proof.
  intros Hp Hc. pose proof (single_ok p Hp) as Hok. rewrite GetKind_word by done.
  rewrite IsConstant_word in Hc by done. apply andb_prop in Hp as [_ Hp].
  destruct p; try done; cbn [kind_of]; set_solver.
Qed.

(** ** The resolver from an idle state *)

Section Run.
Context (acquire : list Z -> option (Z * list Z)).
Context (acquire_ok : forall pool, pool <> [] ->
  exists r pool', acquire pool = Some (r, pool') /\ pool ≡ₚ (r :: pool')).
Context (pm : list (place * place * DataType)) (xs vs : list Z).
Context (Hpm : parallel_ok pm xs vs) (Hxs : xs <> []) (Hvs : vs <> []).

Definition in_play (l : Location) : Prop :=
  exists p, p ∈ source_places pm ++ dest_places pm ++ temp_places xs vs /\ l = word_of p.

(** The moves that are not redundant. *)
Definition proper (mv : place * place * DataType) : bool := negb (bool_decide (mv.1.1 = mv.1.2)).
Definition work : list (place * place * DataType) := List.filter proper pm.
Definition targets : list Location := map destination_ (map build_move work).

Lemma in_play_exact a b : in_play a -> in_play b -> OverlapsWith a b = Some (Equals a b).
Proof.
  intros (p & Hp & ->) (q & Hq & ->).
  apply overlaps_separate; [by apply (all_single _ _ _ Hpm) ..|by apply (separate _ _ _ Hpm)].
Qed.

Lemma in_play_ok a : in_play a -> exists p, a = word_of p /\ place_ok p /\ single_place p = true.
Proof.
  intros (p & Hp & ->). apply (all_single _ _ _ Hpm) in Hp. exists p. auto using single_ok.
Qed.

Lemma in_play_valid a : in_play a -> a <> 0.
Proof. intros (p & -> & Hp & _)%in_play_ok. by apply word_of_is_u. Qed.

Lemma in_play_kind a :
  in_play a -> IsConstant a = false ->
  GetKind a ∈ [kRegister; kFpuRegister; kStackSlot; kDoubleStackSlot; kSIMDStackSlot].
Proof. intros (p & -> & _ & Hp)%in_play_ok. by apply single_kind. Qed.

Abbreviation all_places := (source_places pm ++ dest_places pm ++ temp_places xs vs).

Lemma source_in mv : mv ∈ pm -> mv.1.1 ∈ all_places.
Proof.
  intros H. apply elem_of_app. left. by apply (list_elem_of_fmap_2 (fun mv => mv.1.1)).
Qed.

Lemma dest_in mv : mv ∈ pm -> mv.1.2 ∈ dest_places pm /\ mv.1.2 ∈ all_places.
Proof.
  intros H. assert (mv.1.2 ∈ dest_places pm) by (by apply (list_elem_of_fmap_2 (fun mv => mv.1.2))).
  split; [done|]. apply elem_of_app. right. apply elem_of_app. by left.
Qed.

Lemma temp_in p : p ∈ temp_places xs vs -> p ∈ all_places.
Proof. intros H. apply elem_of_app. right. apply elem_of_app. by right. Qed.

Lemma all_ok p : p ∈ all_places -> place_ok p /\ in_play (word_of p).
Proof. intros Hp. split; [by apply single_ok, (all_single _ _ _ Hpm)|by exists p]. Qed.

Lemma dest_inj mv mv' : mv ∈ pm -> mv' ∈ pm -> word_of mv.1.2 = word_of mv'.1.2 -> mv = mv'.
Proof.
  intros H H' E. apply word_of_inj in E; [|by apply all_ok, dest_in ..].
  apply list_elem_of_lookup in H as (i & Hi). apply list_elem_of_lookup in H' as (j & Hj).
  assert (i = j) as ->; [|congruence].
  eapply NoDup_lookup; [apply (dests_once _ _ _ Hpm)|..]; unfold dest_places.
  - by rewrite list_lookup_fmap, Hi.
  - rewrite list_lookup_fmap, Hj. cbn. by rewrite E.
Qed.

Lemma work_in mv : mv ∈ work <-> mv ∈ pm /\ mv.1.1 <> mv.1.2.
Proof.
  unfold work. rewrite !list_elem_of_In, filter_In. unfold proper.
  rewrite negb_true_iff, bool_decide_eq_false. done.
Qed.

Lemma targets_elem l : l ∈ targets <-> exists mv, mv ∈ work /\ l = word_of mv.1.2.
Proof.
  unfold targets. rewrite map_map, list_elem_of_In, in_map_iff.
  setoid_rewrite <- list_elem_of_In. naive_solver.
Qed.

Lemma targets_nodup : NoDup targets.
Proof.
  assert (NoDup work) as HN.
  { apply NoDup_ListNoDup, List.NoDup_filter, NoDup_ListNoDup.
    eapply NoDup_fmap_1, (dests_once _ _ _ Hpm). }
  unfold targets. rewrite map_map. apply NoDup_fmap_2_strong; [|done].
  intros mv mv' H H'. apply work_in in H as [H _]. apply work_in in H' as [H' _]. by apply dest_inj.
Qed.

Lemma targets_ok d : d ∈ targets -> in_play d /\ IsConstant d = false.
Proof.
  intros (mv & Hmv & ->)%targets_elem. apply work_in in Hmv as [Hmv _].
  destruct (dest_in mv Hmv) as [Hd Ha]. destruct (all_ok _ Ha) as [Hok Hin]. split; [done|].
  rewrite IsConstant_word by done. destruct (mv.1.2) eqn:E; try done.
  by destruct (dests_writable _ _ _ Hpm constant).
Qed.

(** A scratch register is in play and not written by a move. *)
Lemma temp_fresh p :
  p ∈ temp_places xs vs -> place_ok p /\ in_play (word_of p) /\ (word_of p ∉ targets) /\
  forall mv, mv ∈ pm -> word_of p <> word_of mv.1.1.
Proof.
  intros Hp. destruct (all_ok p (temp_in p Hp)) as [Hok Hin].
  pose proof (temps_free _ _ _ Hpm p Hp) as Hfree. rewrite not_elem_of_app in Hfree.
  split; [done|]. split; [done|]. split.
  - intros (mv & Hmv & E)%targets_elem. apply work_in in Hmv as [Hmv _].
    destruct (dest_in mv Hmv) as [Hd Ha]. apply word_of_inj in E; [|done|by apply all_ok].
    destruct Hfree. congruence.
  - intros mv Hmv E. pose proof (source_in mv Hmv) as Hs.
    apply word_of_inj in E; [|done|by apply all_ok].
    destruct Hfree as [Hf _]. apply Hf. rewrite E. by apply (list_elem_of_fmap_2 (fun mv => mv.1.1)).
Qed.

Lemma reg_temp r : r ∈ xs -> PRegister r ∈ temp_places xs vs.
Proof. intros. apply elem_of_app. left. by apply (list_elem_of_fmap_2 PRegister). Qed.

Lemma fpu_temp r : r ∈ vs -> PFpuRegister r ∈ temp_places xs vs.
Proof. intros. apply elem_of_app. right. by apply (list_elem_of_fmap_2 PFpuRegister). Qed.

Lemma build_redundant mv :
  mv ∈ pm -> IsRedundant (build_move mv) = Some (negb (proper mv)).
Proof.
  intros Hmv. pose proof (source_in mv Hmv) as Hs. destruct (dest_in mv Hmv) as [_ Hd].
  rewrite (IsRedundant_live in_play in_play_valid); cbn [build_move source_ destination_].
  - rewrite Equals_word by (by apply all_ok). unfold proper. by rewrite negb_involutive.
  - by apply all_ok.
  - by apply in_play_valid, all_ok.
Qed.

Lemma BuildInitialMoveList_spec moves :
  BuildInitialMoveList moves (map build_move pm) = Some (moves ++ map build_move work).
Proof.
  unfold BuildInitialMoveList. rewrite length_map.
  edestruct (for_loop_inv (fun i s =>
    s = moves ++ map build_move (List.filter proper (take (Z.to_nat i) pm)))
    (length pm) 0) as (st' & E & Hst'); [| |rewrite E, Hst'].
  - cbn. by rewrite app_nil_r.
  - intros i s Hi ->. destruct (lookup_lt_is_Some_2 pm (Z.to_nat i)) as [mv Hmv]; [lia|].
    rewrite aread_lookup, list_lookup_fmap, Hmv by lia. cbn [fmap option_fmap option_map mbind option_bind].
    rewrite build_redundant by (by eapply list_elem_of_lookup_2). cbn [mbind option_bind].
    eexists. split; [done|]. rewrite negb_involutive.
    replace (Z.to_nat (i + 1)) with (Datatypes.S (Z.to_nat i)) by lia.
    rewrite (take_S_r _ _ mv Hmv), List.filter_app, map_app. cbn [List.filter].
    destruct (proper mv); cbn [map]; [by rewrite app_assoc|by rewrite app_nil_r].
  - unfold work. rewrite take_ge by lia. done.
Qed.

(** An operand that shares no storage with what is written is untouched. *)
Lemma separate_untouched q :
  single_place q = true ->
  (forall t, t ∈ dest_places work ++ temp_places xs vs -> ~ shares_storage q t) ->
  untouched targets xs vs (word_of q).
Proof.
  intros Hq Hsep. assert (forall t, t ∈ all_places -> ~ shares_storage q t ->
    word_of q <> word_of t /\ OverlapsWith (word_of q) (word_of t) = Some false) as Hkey.
  { intros t Ht Hns. pose proof (all_single _ _ _ Hpm t Ht) as Hta.
    assert (q <> t) as Hne by (intros ->; by apply Hns, shares_itself, single_storage).
    rewrite overlaps_separate by done. rewrite Equals_word, bool_decide_false by (auto using single_ok).
    split; [|done]. intros E. apply Hne. by apply word_of_inj; [apply single_ok..|]. }
  intros l [(mv & Hmv & ->)%targets_elem|[(r & Hr & ->)|(r & Hr & ->)]].
  - apply Hkey; [by apply dest_in; apply work_in in Hmv as [? _]|]. apply Hsep, elem_of_app. left.
    by apply (list_elem_of_fmap_2 (fun mv => mv.1.2)).
  - apply reg_temp in Hr. apply Hkey; [by apply temp_in|]. apply Hsep, elem_of_app. by right.
  - apply fpu_temp in Hr. apply Hkey; [by apply temp_in|]. apply Hsep, elem_of_app. by right.
Qed.

(** Nothing that is written shares storage with a redundant destination. *)
Lemma redundant_alone q ty t :
  (q, q, ty) ∈ pm -> t ∈ dest_places work ++ temp_places xs vs -> ~ shares_storage q t.
Proof.
  intros Hin Ht Hsh. destruct (dest_in _ Hin) as [Hqd Hqa]. cbn in Hqd, Hqa.
  apply elem_of_app in Ht as [Ht|Ht].
  - apply list_elem_of_fmap in Ht as (mv & -> & Hmv). apply work_in in Hmv as [Hmv Hp].
    destruct (dest_in mv Hmv) as [_ Hta]. apply (separate _ _ _ Hpm q _ Hqa Hta) in Hsh.
    pose proof (dest_inj (q, q, ty) mv Hin Hmv (f_equal word_of Hsh)) as <-. by destruct Hp.
  - apply (separate _ _ _ Hpm q t Hqa (temp_in t Ht)) in Hsh as ->.
    apply (temps_free _ _ _ Hpm t Ht), elem_of_app. by right.
Qed.

Section Values.
Context {V : Type} (clobber : (Location -> V) -> Location * Location -> Location -> V).
Context (s : Location -> V).

(** What each destination is to receive. *)
Definition wanted (l : Location) : V :=
  match List.find (fun mv => Equals (word_of mv.1.2) l) work with
  | Some mv => s (word_of mv.1.1)
  | None => s l
  end.

Lemma wanted_spec mv : mv ∈ work -> wanted (word_of mv.1.2) = s (word_of mv.1.1).
Proof.
  intros Hmv. unfold wanted. destruct (List.find _ work) as [mv'|] eqn:F.
  - apply List.find_some in F as [Hmv' E]. apply list_elem_of_In in Hmv'.
    apply Z.eqb_eq in E. apply work_in in Hmv as [Hmv _]. apply work_in in Hmv' as [Hmv' _].
    by rewrite (dest_inj mv' mv Hmv' Hmv E).
  - apply List.find_none with (x := mv) in F; [|by apply list_elem_of_In].
    unfold Equals in F. by rewrite Z.eqb_refl in F.
Qed.

Definition start : Resolver := Build_Resolver (map build_move work) [] [] xs vs [].

Lemma start_inv : Inv clobber in_play targets wanted xs vs s start [].
Proof.
  split; cbn [start moves_ pending_moves_ scratches_ x_temps v_temps].
  - split; [unfold targets; by rewrite !length_map|]. intros k m d Hm Hd.
    unfold targets in Hd. rewrite list_lookup_fmap, Hm in Hd. injection Hd as <-.
    rewrite list_lookup_fmap in Hm. apply fmap_Some in Hm as (mv & Hmv & ->).
    apply list_elem_of_lookup_2 in Hmv. right. cbn [build_move source_ destination_].
    split; [apply all_ok, source_in; by apply work_in in Hmv as [? _]|].
    split; [by rewrite wanted_spec|]. split; [intros H; by apply not_elem_of_nil in H|done].
  - done.
  - intros m Hm Ht. exfalso. apply list_elem_of_In, in_map_iff in Hm as (mv & <- & Hmv).
    apply list_elem_of_In, work_in in Hmv as [Hmv _]. cbn [build_move source_] in Ht.
    destruct Ht as [(r & Hr & E)|(r & Hr & E)].
    + apply reg_temp, temp_fresh in Hr as (_ & _ & _ & H). by apply (H mv Hmv).
    + apply fpu_temp, temp_fresh in Hr as (_ & _ & _ & H). by apply (H mv Hmv).
  - done.
  - done.
Qed.

Lemma EmitNativeCode_run :
  exists code,
    EmitNativeCode acquire idle_resolver xs vs (map build_move pm) =
      Some (Build_Resolver [] [] [] [] [] code) /\
    (forall d, d ∈ targets -> exec clobber code s d = wanted d) /\
    (forall l, untouched targets xs vs l -> exec clobber code s l = s l).
Proof.
  assert (forall r, r ∈ xs -> 0 <= r < 2 ^ 31 /\ in_play (word_of (PRegister r)) /\
    word_of (PRegister r) ∉ targets) as Hx.
  { intros r Hr. apply reg_temp, temp_fresh in Hr as (? & ? & ? & _). done. }
  assert (forall r, r ∈ vs -> 0 <= r < 2 ^ 31 /\ in_play (word_of (PFpuRegister r)) /\
    word_of (PFpuRegister r) ∉ targets) as Hv.
  { intros r Hr. apply fpu_temp, temp_fresh in Hr as (? & ? & ? & _). done. }
  destruct (run_moves clobber acquire acquire_ok in_play in_play_exact in_play_valid in_play_kind
    targets wanted xs vs s targets_nodup targets_ok Hx Hv Hxs Hvs start start_inv eq_refl)
    as (st & E & Hp & Hval & Hframe).
  exists (emitted st). split; [|done]. unfold EmitNativeCode.
  change (dcheck (GetNumberOfPendingMoves idle_resolver =? 0)) with (Some tt).
  change (dcheck (zlength (moves_ idle_resolver) =? 0)) with (Some tt).
  change (dcheck (zlength (scratches_ idle_resolver) =? 0)) with (Some tt).
  cbn [mbind option_bind].
  rewrite BuildInitialMoveList_spec. cbn [mbind option_bind].
  change (set_moves (set_temps idle_resolver xs vs) _) with start.
  destruct (perform_moves acquire start) as [st1|]; [|done]. cbn [mbind option_bind] in E |- *.
  destruct (perform_constant_moves st1) as [st2|]; [|done]. cbn [mbind option_bind] in E |- *.
  rewrite E. cbn [mbind option_bind]. unfold GetNumberOfPendingMoves.
  destruct st. cbn in Hp |- *. by rewrite Hp.
Qed.

End Values.
End Run.

(** ** Properties *)

(** C13: the resolver without swaps realises the parallel assignment.  Given an
    arm64 parallel move whose operands overlap only when they are equal and
    whose destinations are pairwise different, and a scratch core and vector
    register outside it, [EmitNativeCode] returns (every recursion and loop
    ends, no debug check fails, no scratch register is missing), leaves the
    resolver idle with nothing pending, and the moves it emits put in every
    destination the value its source had at the start and change nothing else
    but the scratch registers, whatever chains, cycles and constants the moves
    form. *)
Theorem parallel_move_correct
    (acquire : list Z -> option (Z * list Z)) (pm : list (place * place * DataType)) (xs vs : list Z)
    (acquire_ok : forall pool, pool <> [] ->
       exists r pool', acquire pool = Some (r, pool') /\ pool ≡ₚ (r :: pool'))
    (Hpm : parallel_ok pm xs vs) (Hxs : xs <> []) (Hvs : vs <> []) :
  exists code,
    EmitNativeCode acquire idle_resolver xs vs (map build_move pm) =
      Some (Build_Resolver [] [] [] [] [] code) /\
    forall (V : Type) (clobber : (Location -> V) -> Location * Location -> Location -> V)
           (s : Location -> V),
      (forall p q t, (p, q, t) ∈ pm -> exec clobber code s (word_of q) = s (word_of p)) /\
      (forall q, single_place q = true ->
         (forall t, t ∈ dest_places pm ++ temp_places xs vs -> ~ shares_storage q t) ->
         exec clobber code s (word_of q) = s (word_of q)).
Proof.
  destruct (EmitNativeCode_run acquire acquire_ok pm xs vs Hpm Hxs Hvs (fun _ _ _ => tt) (fun _ => tt))
    as (code & E & _). exists code. split; [done|]. intros V clobber s.
  destruct (EmitNativeCode_run acquire acquire_ok pm xs vs Hpm Hxs Hvs clobber s)
    as (code' & E' & Hval & Hframe). assert (code' = code) as -> by congruence. clear E'.
  split.
  - intros p q t Hin. destruct (decide (p = q)) as [->|Hne].
    + apply Hframe, separate_untouched; [done| |intros t' Ht; by eapply redundant_alone].
      by apply (all_single _ _ _ Hpm), (dest_in pm xs vs (q, q, t)).
    + assert ((p, q, t) ∈ work pm) as Hw by (by apply work_in).
      rewrite Hval by (apply targets_elem; by exists (p, q, t)).
      by apply (wanted_spec pm xs vs Hpm s (p, q, t)).
  - intros q Hq Ht. apply Hframe, separate_untouched; [done..|]. intros t Hin. apply Ht.
    apply elem_of_app in Hin as [Hin|Hin]; apply elem_of_app; [left|by right].
    apply list_elem_of_fmap in Hin as (mv & -> & Hmv).
    apply (list_elem_of_fmap_2 (fun mv => mv.1.2)). by apply work_in in Hmv as [? _].
Qed.

(** A check of [separate] on word lists. *)
Definition separate_places (l : list place) : bool :=
  forallb (fun p => operand p &&
    forallb (fun q => bool_decide (p = q) ||
      negb (existsb (fun w => bool_decide (w ∈ cells q)) (cells p))) l) l.

Lemma separate_places_ok l p q :
  separate_places l = true -> p ∈ l -> q ∈ l -> shares_storage p q -> p = q.
Proof.
  unfold separate_places. rewrite forallb_forall. intros H Hp Hq Hsh.
  rewrite list_elem_of_In in Hp, Hq.
  pose proof (H p Hp) as [Op Hpq]%andb_prop. pose proof (H q Hq) as [Oq _]%andb_prop.
  rewrite forallb_forall in Hpq. specialize (Hpq q Hq). apply orb_prop in Hpq as [E|E].
  - by apply bool_decide_eq_true in E.
  - apply (shares_cells p q Op Oq) in Hsh as (w & Hw & Hw'). apply negb_true_iff in E.
    rewrite <- not_true_iff_false, existsb_exists in E. destruct E. exists w.
    split; [by apply list_elem_of_In|]. by apply bool_decide_eq_true.
Qed.

(** VIXL hands out the first register of its list. *)
Definition first_register (pool : list Z) : option (Z * list Z) :=
  match pool with [] => None | r :: rest => Some (r, rest) end.

(** The cycle (0 -> 1) (1 -> 0) with a fan-out to a stack slot and a constant
    used twice. *)
Definition sample_moves : list (place * place * DataType) :=
  [(PRegister 0, PRegister 1, kInt32); (PRegister 1, PRegister 0, kInt32);
   (PRegister 1, PStackSlot 8, kInt32); (PConstant 4096, PRegister 2, kInt32);
   (PConstant 4096, PDoubleStackSlot 16, kInt64)].

Lemma parallel_move_correct_witness :
  exists code,
    EmitNativeCode first_register idle_resolver [16; 17] [31] (map build_move sample_moves) =
      Some (Build_Resolver [] [] [] [] [] code) /\
    forall (V : Type) (clobber : (Location -> V) -> Location * Location -> Location -> V)
           (s : Location -> V),
      (forall p q t, (p, q, t) ∈ sample_moves ->
         exec clobber code s (word_of q) = s (word_of p)) /\
      (forall q, single_place q = true ->
         (forall t, t ∈ dest_places sample_moves ++ temp_places [16; 17] [31] ->
            ~ shares_storage q t) ->
         exec clobber code s (word_of q) = s (word_of q)).
Proof.
  apply (parallel_move_correct first_register sample_moves [16; 17] [31]); [|split|done|done].
  - intros [|r pool]; [done|]. intros _. by exists r, pool.
  - apply Forall_forall. apply (bool_decide_unpack _). vm_compute. exact I.
  - intros p q. apply separate_places_ok. vm_compute. reflexivity.
  - apply (bool_decide_unpack _). vm_compute. exact I.
  - intros c. cbn. set_solver.
  - apply Forall_forall. apply (bool_decide_unpack _). vm_compute. exact I.
Defined.

(** A cycle through half of a double slot, with another register waiting for the
    other half. *)
Definition crossing_moves : list (place * place * DataType) :=
  [(PRegister 1, PDoubleStackSlot 0, kInt64); (PStackSlot 0, PRegister 1, kInt32);
   (PStackSlot 4, PRegister 3, kInt32)].

(** When operands of different size overlap, a pending move can be lost.  The
    three moves have disjoint destinations, as [HParallelMove::AddMove] requires.
    The first cycle is broken with register 3, the destination of the third
    move, whose own cycle is then broken with a scratch register; performing the
    first pending move frees register 3, but [GetUnblockedPendingMove] is only
    asked about the source of the finished move and the second pending move is
    never performed: the check at the end of [EmitNativeCode] fails, and the code
    emitted leaves in register 3 the value of stack slot 0 instead of slot 4. *)
Lemma crossing_moves_lose_pending :
  (forall i j p q, dest_places crossing_moves !! i = Some p ->
     dest_places crossing_moves !! j = Some q -> i <> j ->
     OverlapsWith (word_of p) (word_of q) = Some false) /\
  EmitNativeCode first_register idle_resolver [16; 17] [31] (map build_move crossing_moves) = None /\
  exists st,
    (moves ← BuildInitialMoveList [] (map build_move crossing_moves);
     st ← perform_moves first_register (set_moves (set_temps idle_resolver [16; 17] [31]) moves);
     st ← perform_constant_moves st;
     perform_rest st) = Some st /\
    pending_moves_ st =
      [Build_MoveOperands (word_of (PRegister 16)) (word_of (PRegister 3)) kInt32] /\
    forall (V : Type) (clobber : (Location -> V) -> Location * Location -> Location -> V)
           (s : Location -> V),
      exec clobber (emitted st) s (word_of (PRegister 3)) = s (word_of (PStackSlot 0)).
Proof.
  split; [|split; [by vm_compute|]].
  - intros i j p q Hi Hj Hne.
    assert (i < 3 /\ j < 3)%nat as [Li Lj] by (split; by eapply lookup_lt_Some in Hi; eapply lookup_lt_Some in Hj).
    do 3 (destruct i as [|i]; [do 3 (destruct j as [|j]; [injection Hi as <-; injection Hj as <-; by vm_compute || done|]); lia|]).
    lia.
  - eexists. split; [vm_compute; reflexivity|]. split; [reflexivity|]. intros V clobber s. reflexivity.
Qed.
