(* ===== verification/ParallelMoveSwap.v ===== *)
(** * The parallel move resolver with swaps

    [ParallelMoveResolverWithSwap] of
    compiler/optimizing/parallel_move_resolver.cc, which the arm, riscv64, x86
    and x86-64 backends use: a dependency cycle is broken by exchanging the
    source and the destination of one of its moves and correcting the sources
    of the others.  A 64-bit move is swapped before the 32-bit moves of its
    cycle, because a 32-bit stack slot holds only the low half of a register. *)

From Stdlib Require Import ZArith Lia Bool List.
From stdpp Require Import base numbers list option sets.
From S2P Require Import Prelude BitUtils Locations ParallelMove.

Local Open Scope Z_scope.
Local Open Scope art_scope.

(** ** The resolver *)

Inductive op :=
  | OpMove (source destination : Location)
  | OpSwap (source destination : Location).

(** The work list and the operations emitted so far. *)
Record SwapResolver := {
  work_ : list MoveOperands;
  ops_ : list op;
}.

Definition put_move (st : SwapResolver) (index : Z) (m : MoveOperands) : option SwapResolver :=
  ms ← awrite (work_ st) index m; Some (Build_SwapResolver ms (ops_ st)).

(** The backend's [EmitMove(index)] and [EmitSwap(index)]. *)
Definition emit_move (st : SwapResolver) (index : Z) : option SwapResolver :=
  move ← aread (work_ st) index;
  Some (Build_SwapResolver (work_ st) (ops_ st ++ [OpMove (source_ move) (destination_ move)])).

Definition emit_swap (st : SwapResolver) (index : Z) : option SwapResolver :=
  move ← aread (work_ st) index;
  Some (Build_SwapResolver (work_ st) (ops_ st ++ [OpSwap (source_ move) (destination_ move)])).

Definition LowOf (location : Location) : option Location :=
  if IsRegisterPair location then r ← low location; RegisterLocation r
  else if IsFpuRegisterPair location then r ← low location; FpuRegisterLocation r
  else if IsDoubleStackSlot location then i ← GetStackIndex location; StackSlot i
  else Some NoLocation.

Definition HighOf (location : Location) : option Location :=
  if IsRegisterPair location then r ← high location; RegisterLocation r
  else if IsFpuRegisterPair location then r ← high location; FpuRegisterLocation r
  else if IsDoubleStackSlot location then i ← GetHighStackIndex location 4; StackSlot i
  else Some NoLocation.

Definition UpdateSourceOf (move : MoveOperands) (updated_location new_source : Location)
    : option MoveOperands :=
  let source := source_ move in
  lo ← LowOf updated_location;
  if Equals lo source then l ← LowOf new_source; Some (SetSource move l)
  else
    hi ← HighOf updated_location;
    if Equals hi source then l ← HighOf new_source; Some (SetSource move l)
    else DCHECK Equals updated_location source; Some (SetSource move new_source).

(** The loop after a swap. *)
Fixpoint update_sources (ms : list MoveOperands) (source swap_destination : Location)
    : option (list MoveOperands) :=
  match ms with
  | [] => Some []
  | m :: ms' =>
      b ← Blocks m source;
      m' ← (if (b : bool) then UpdateSourceOf m source swap_destination
            else
              b' ← Blocks m swap_destination;
              if (b' : bool) then UpdateSourceOf m swap_destination source else Some m);
      rest ← update_sources ms' source swap_destination;
      Some (m' :: rest)
  end.

(** [do_swap]: the branch of [PerformMove] that resolves a cycle. *)
Definition perform_swap (st : SwapResolver) (index : Z) (required_swap : option Z)
    : option (SwapResolver * option Z) :=
  st ← emit_swap st index;
  move ← aread (work_ st) index;
  let source := source_ move in
  let swap_destination := destination_ move in
  st ← put_move st index (Eliminate move);
  ms ← update_sources (work_ st) source swap_destination;
  Some (Build_SwapResolver ms (ops_ st), required_swap).

(** The first move that blocks the location. *)
Fixpoint first_blocker (ms : list MoveOperands) (i : Z) (loc : Location)
    : option (option (Z * MoveOperands)) :=
  match ms with
  | [] => Some None
  | m :: ms' =>
      b ← Blocks m loc; if (b : bool) then Some (Some (i, m)) else first_blocker ms' (i + 1) loc
  end.

(** [PerformMove] from [move->ClearPending(destination)] on.  The result is the
    move that has to be swapped, by its index. *)
Definition finish_move (st : SwapResolver) (index : Z) (destination : Location)
    (required_swap : option Z) : option (SwapResolver * option Z) :=
  move ← aread (work_ st) index;
  move ← ClearPending move destination;
  st ← put_move st index move;
  if Equals (source_ move) destination then
    st ← put_move st index (Eliminate move);
    DCHECK bool_decide (required_swap = None);
    Some (st, None)
  else
    match required_swap with
    | Some r => DCHECK r =? index; perform_swap st index required_swap
    | None =>
        blocker ← first_blocker (work_ st) 0 destination;
        match blocker with
        | Some (j, other_move) =>
            p ← IsPending other_move; DCHECK p;
            if negb (Is64BitMove move) && Is64BitMove other_move then Some (st, Some j)
            else perform_swap st index None
        | None =>
            st ← emit_move st index;
            st ← put_move st index (Eliminate move);
            Some (st, None)
        end
    end.

(** How the loop over the blocking moves ends: at its end or at the [break],
    with [required_swap], or by returning. *)
Inductive scan_end :=
  | Through (st : SwapResolver) (required_swap : option Z)
  | Returned (st : SwapResolver) (required_swap : Z).

(** [n] bounds the iterations; a swap restarts the loop and eliminates a move. *)
Fixpoint scan_blockers (perform : SwapResolver -> Z -> option (SwapResolver * option Z))
    (n : nat) (st : SwapResolver) (i index : Z) (destination : Location) : option scan_end :=
  if i <? zlength (work_ st) then
    match n with
    | O => None
    | S n =>
        other_move ← aread (work_ st) i;
        b ← Blocks other_move destination;
        blocking ← (if (b : bool) then p ← IsPending other_move; Some (negb p) else Some false);
        if (blocking : bool) then
          '(st, required_swap) ← perform st i;
          match required_swap with
          | Some r =>
              if r =? index then Some (Through st required_swap)
              else if r =? i then scan_blockers perform n st 0 index destination
              else
                move ← aread (work_ st) index;
                move ← ClearPending move destination;
                st ← put_move st index move;
                Some (Returned st r)
          | None => scan_blockers perform n st (i + 1) index destination
          end
        else scan_blockers perform n st (i + 1) index destination
    end
  else Some (Through st None).

Fixpoint SwapPerformMove (fuel : nat) (st : SwapResolver) (index : Z)
    : option (SwapResolver * option Z) :=
  match fuel with
  | O => None
  | S fuel =>
      move ← aread (work_ st) index;
      p ← IsPending move; DCHECK negb p;
      r ← IsRedundant move;
      if (r : bool) then st ← put_move st index (Eliminate move); Some (st, None)
      else
        DCHECK negb (IsInvalid (source_ move));
        '(destination, marked) ← MarkPending move;
        st ← put_move st index marked;
        let n := length (work_ st) in
        e ← scan_blockers (SwapPerformMove fuel) (S n * S n) st 0 index destination;
        match e with
        | Returned st r => Some (st, Some r)
        | Through st required_swap => finish_move st index destination required_swap
        end
  end.

(** The loops of [EmitNativeCode]; the value of [PerformMove] is not used. *)
Definition perform_stack_moves (st : SwapResolver) : option SwapResolver :=
  for_loop (length (work_ st)) 0 (fun i st =>
    move ← aread (work_ st) i;
    e ← IsEliminated move;
    if e || IsConstant (source_ move) then Some st
    else if (IsStackSlot (source_ move) || IsDoubleStackSlot (source_ move)) &&
            (IsStackSlot (destination_ move) || IsDoubleStackSlot (destination_ move)) then
      '(st, _) ← SwapPerformMove (S (length (work_ st))) st i; Some st
    else Some st) st.

Definition perform_other_moves (st : SwapResolver) : option SwapResolver :=
  for_loop (length (work_ st)) 0 (fun i st =>
    move ← aread (work_ st) i;
    e ← IsEliminated move;
    if negb e && negb (IsConstant (source_ move)) then
      '(st, _) ← SwapPerformMove (S (length (work_ st))) st i; Some st
    else Some st) st.

Definition perform_constants (st : SwapResolver) : option SwapResolver :=
  for_loop (length (work_ st)) 0 (fun i st =>
    move ← aread (work_ st) i;
    e ← IsEliminated move;
    if negb e then
      DCHECK IsConstant (source_ move);
      st ← emit_move st i;
      put_move st i (Eliminate move)
    else Some st) st.

Definition SwapEmitNativeCode (st : SwapResolver) (parallel_move : list MoveOperands)
    : option SwapResolver :=
  DCHECK zlength (work_ st) =? 0;
  ms ← BuildInitialMoveList (work_ st) parallel_move;
  st ← perform_stack_moves (Build_SwapResolver ms (ops_ st));
  st ← perform_other_moves st;
  st ← perform_constants st;
  Some (Build_SwapResolver [] (ops_ st)).

(** ** Scratch registers for the backend's memory moves *)

Fixpoint any_destination (ms : list MoveOperands) (loc : Location) : bool :=
  match ms with
  | [] => false
  | m :: ms' => if Equals (destination_ m) loc then true else any_destination ms' loc
  end.

Definition IsScratchLocation (st : SwapResolver) (loc : Location) : option bool :=
  b ← any_blocks (work_ st) loc;
  if (b : bool) then Some false else Some (any_destination (work_ st) loc).

(** [for (int reg = r; reg < register_count; ++reg)]; -1 when there is none. *)
Fixpoint find_scratch_register (n : nat) (st : SwapResolver) (blocked r : Z) : option Z :=
  match n with
  | O => Some (-1)
  | S n =>
      ok ← (if negb (blocked =? r) then loc ← RegisterLocation r; IsScratchLocation st loc
            else Some false);
      if (ok : bool) then Some r else find_scratch_register n st blocked (r + 1)
  end.

(** The register and whether it has to be spilled. *)
Definition AllocateScratchRegister (st : SwapResolver) (blocked register_count if_scratch : Z)
    : option (Z * bool) :=
  DCHECK negb (blocked =? if_scratch);
  scratch ← find_scratch_register (Z.to_nat register_count) st blocked 0;
  Some (if scratch =? -1 then (if_scratch, true) else (scratch, false)).

(** ** The machine

    A location holds a low and a high half.  Moves and swaps transfer the low
    half, and the high half too when neither side is a 32-bit stack slot; what
    happens to other high halves and to overlapping locations is arbitrary. *)

Definition holds64 (l : Location) : bool := negb (IsStackSlot l).

Section Semantics.
Context {V : Type} (clobber : (Location -> V * V) -> op -> Location -> V * V).

Definition transfer (s : Location -> V * V) (o : op) (from to : Location) : V * V :=
  ((s from).1, if holds64 from && holds64 to then (s from).2 else (clobber s o to).2).

Definition exec_op (s : Location -> V * V) (o : op) : Location -> V * V :=
  fun l =>
    match o with
    | OpMove x d =>
        if Equals l d then transfer s o x d
        else match OverlapsWith l d with Some false => s l | _ => clobber s o l end
    | OpSwap x d =>
        if Equals l d then transfer s o x d
        else if Equals l x then transfer s o d x
        else match OverlapsWith l d, OverlapsWith l x with
             | Some false, Some false => s l
             | _, _ => clobber s o l
             end
    end.

Definition exec_ops (code : list op) (s : Location -> V * V) : Location -> V * V :=
  fold_left exec_op code s.

Lemma exec_ops_snoc code o s : exec_ops (code ++ [o]) s = exec_op (exec_ops code s) o.
Proof. unfold exec_ops. by rewrite fold_left_app. Qed.

(** [v] is the value [w] as far as a move of the given width can tell. *)
Definition agree (is64 : bool) (v w : V * V) : Prop := v.1 = w.1 /\ (is64 = true -> v.2 = w.2).

Lemma transfer_agree s o from to is64 w :
  agree is64 (s from) w -> (is64 = true -> holds64 from = true /\ holds64 to = true) ->
  agree is64 (transfer s o from to) w.
Proof.
  intros [H1 H2] Hw. split; [done|]. intros E. unfold transfer. cbn [snd].
  destruct (Hw E) as [-> ->]. by apply H2.
Qed.

End Semantics.

(** ** Correctness when different operands do not overlap *)

Section Correct.
Context {V : Type} (clobber : (Location -> V * V) -> op -> Location -> V * V).
Context (loc_ok : Location -> Prop).
Context (loc_exact : forall a b, loc_ok a -> loc_ok b -> OverlapsWith a b = Some (Equals a b)).
Context (loc_valid : forall a, loc_ok a -> a <> 0).
Context (loc_halves : forall a, loc_ok a ->
  exists lo hi, LowOf a = Some lo /\ HighOf a = Some hi /\ lo <> a /\ hi <> a).
Context (D : list Location) (W : list bool) (want : Location -> V * V) (s0 : Location -> V * V).
Context (D_nodup : NoDup D).
Context (D_ok : forall d, d ∈ D -> loc_ok d /\ IsConstant d = false).

(** The move at index [k] with destination [d] while the moves in [S] are being
    performed. *)
Definition slot (s : Location -> V * V) (S : list nat) (k : nat) (m : MoveOperands) (d : Location)
    : Prop :=
  (gone m /\ (k ∉ S) /\ agree (Is64BitMove m) (s d) (want d)) \/
  (loc_ok (source_ m) /\ agree (Is64BitMove m) (s (source_ m)) (want d) /\
   (Is64BitMove m = true -> holds64 (source_ m) = true /\ holds64 d = true) /\
   (k ∈ S -> destination_ m = 0) /\ (k ∉ S -> destination_ m = d)).

Definition all_slots (s : Location -> V * V) (ms : list MoveOperands) (S : list nat) : Prop :=
  length ms = length D /\
  forall k m d, ms !! k = Some m -> D !! k = Some d -> slot s S k m d.

(** A location holds a value of one width. *)
Definition one_width (ms : list MoveOperands) : Prop :=
  forall m m', m ∈ ms -> m' ∈ ms -> source_ m <> 0 -> IsConstant (source_ m) = false ->
    source_ m = source_ m' -> Is64BitMove m = Is64BitMove m'.

(** Each move of the stack reads the destination of the one below it. *)
Fixpoint chain (ms : list MoveOperands) (S : list nat) : Prop :=
  match S with
  | a :: ((b :: _) as S') =>
      (exists m, ms !! a = Some m /\ D !! b = Some (source_ m)) /\ chain ms S'
  | _ => True
  end.

Definition untouched_by (l : Location) : Prop :=
  forall t, t ∈ D -> l <> t /\ OverlapsWith l t = Some false.

Definition now (st : SwapResolver) : Location -> V * V := exec_ops clobber (ops_ st) s0.

Record SInv (st : SwapResolver) (S : list nat) : Prop := {
  sinv_slots : all_slots (now st) (work_ st) S;
  sinv_width : one_width (work_ st);
  sinv_types : map Is64BitMove (work_ st) = W;
  sinv_chain : chain (work_ st) S;
  sinv_frame : forall l, untouched_by l -> now st l = s0 l;
}.

(** While the moves in [S] are being performed, no other move starts to read one
    of their destinations. *)
Definition no_new_readers (S : list nat) (ms ms' : list MoveOperands) : Prop :=
  forall j m m', ms !! j = Some m -> ms' !! j = Some m' ->
    (gone m -> gone m') /\
    (~ gone m' ->
       IsConstant (source_ m') = IsConstant (source_ m) /\
       (j ∉ S -> forall c d, c ∈ S -> D !! c = Some d -> source_ m' = d -> source_ m = d)).

(** The outcome of performing [k] in the stack [S]: it is done, or the bottom of
    the stack has to be swapped, whose source is the destination of an
    unperformed move. *)
Definition swap_performed (S : list nat) (k : nat) (st st' : SwapResolver) (r : option Z) : Prop :=
  SInv st' S /\ no_new_readers S (work_ st) (work_ st') /\
  (((r = None \/ S = []) /\ exists m, work_ st' !! k = Some m /\ gone m) \/
   (exists b n mb mn, last S = Some b /\ r = Some (Z.of_nat b) /\
      work_ st' !! b = Some mb /\ Is64BitMove mb = true /\ D !! n = Some (source_ mb) /\
      work_ st' !! n = Some mn /\ ~ gone mn /\ n ∉ S)).

(** *** Basic facts *)

Lemma dst_inj i j d : D !! i = Some d -> D !! j = Some d -> i = j.
Proof. intros. by eapply NoDup_lookup. Qed.

Lemma dst_ok k d : D !! k = Some d -> loc_ok d /\ IsConstant d = false.
Proof. intros H. apply D_ok. by apply list_elem_of_lookup_2 in H. Qed.

Lemma exec_move_at s x d l :
  loc_ok d -> loc_ok l ->
  exec_op clobber s (OpMove x d) l =
    if decide (l = d) then transfer clobber s (OpMove x d) x d else s l.
Proof.
  intros Hd Hl. cbn [exec_op]. rewrite loc_exact by done. unfold Equals.
  case_decide; case Z.eqb_spec; done.
Qed.

Lemma exec_swap_at s x d l :
  loc_ok x -> loc_ok d -> loc_ok l ->
  exec_op clobber s (OpSwap x d) l =
    if decide (l = d) then transfer clobber s (OpSwap x d) x d
    else if decide (l = x) then transfer clobber s (OpSwap x d) d x else s l.
Proof.
  intros Hx Hd Hl. cbn [exec_op]. rewrite !loc_exact by done. unfold Equals.
  repeat case_decide; repeat case Z.eqb_spec; done.
Qed.

Lemma exec_op_untouched s o l :
  untouched_by l ->
  match o with OpMove _ d => d ∈ D | OpSwap x d => x ∈ D /\ d ∈ D end ->
  exec_op clobber s o l = s l.
Proof.
  intros Hl. destruct o as [x d|x d]; cbn [exec_op]; unfold Equals.
  - intros Hd. destruct (Hl d Hd) as [Hne ->]. by rewrite (proj2 (Z.eqb_neq l d)).
  - intros [Hx Hd]. destruct (Hl d Hd) as [Hne ->]. destruct (Hl x Hx) as [Hne' ->].
    by rewrite (proj2 (Z.eqb_neq l d)), (proj2 (Z.eqb_neq l x)).
Qed.

Lemma slot_lookup s ms S k m :
  all_slots s ms S -> ms !! k = Some m -> exists d, D !! k = Some d /\ slot s S k m d.
Proof.
  intros [Hlen Hs] Hm.
  destruct (lookup_lt_is_Some_2 D k) as [d Hd]; [rewrite <- Hlen; by eapply lookup_lt_Some|]. eauto.
Qed.

Lemma live_source s ms S k m :
  all_slots s ms S -> ms !! k = Some m -> gone m \/ (~ gone m /\ loc_ok (source_ m)).
Proof.
  intros Hs Hm. destruct (slot_lookup s ms S k m Hs Hm) as (d & _ & [(? & _)|(Hok & _)]); [by left|right].
  split; [|done]. intros Hg. by eapply gone_live.
Qed.

Lemma work_wf st S : SInv st S -> Forall (wf_move loc_ok) (work_ st).
Proof.
  intros HI. apply Forall_lookup. intros k m Hm.
  destruct (live_source _ _ _ k m (sinv_slots _ _ HI) Hm) as [?|[_ ?]]; [by left|by right].
Qed.

Lemma same_length st st' S S' : SInv st S -> SInv st' S' -> length (work_ st') = length (work_ st).
Proof. intros H H'. by rewrite (proj1 (sinv_slots _ _ H)), (proj1 (sinv_slots _ _ H')). Qed.

Lemma in_stack_live st S c d :
  SInv st S -> c ∈ S -> D !! c = Some d -> exists m, work_ st !! c = Some m /\ ~ gone m.
Proof.
  intros HI Hc Hd. destruct (sinv_slots _ _ HI) as [Hlen Hs].
  destruct (lookup_lt_is_Some_2 (work_ st) c) as [m Hm]; [rewrite Hlen; by eapply lookup_lt_Some|].
  exists m. split; [done|]. intros Hg. destruct (Hs c m d Hm Hd) as [(_ & ? & _)|(? & _)]; [done|].
  by eapply gone_live.
Qed.

(** *** A swap *)

Definition swap1 (x d : Location) (m : MoveOperands) : MoveOperands :=
  if Equals (source_ m) x then SetSource m d
  else if Equals (source_ m) d then SetSource m x else m.

Lemma swap1_cases x d m :
  (source_ m = x /\ swap1 x d m = SetSource m d) \/
  (source_ m <> x /\ source_ m = d /\ swap1 x d m = SetSource m x) \/
  (source_ m <> x /\ source_ m <> d /\ swap1 x d m = m).
Proof.
  unfold swap1, Equals. destruct (Z.eqb_spec (source_ m) x); [by left|right].
  destruct (Z.eqb_spec (source_ m) d); auto.
Qed.

Lemma swap1_gone x d m : x <> 0 -> d <> 0 -> gone m -> swap1 x d m = m.
Proof. intros Hx Hd [Hs _]. destruct (swap1_cases x d m) as [[E _]|[(_ & E & _)|(_ & _ & ?)]]; congruence. Qed.

Lemma UpdateSourceOf_exact m x d :
  loc_ok x -> source_ m = x -> UpdateSourceOf m x d = Some (SetSource m d).
Proof.
  intros Hx E. unfold UpdateSourceOf. destruct (loc_halves x Hx) as (lo' & hi' & -> & -> & Hlo' & Hhi').
  cbn [mbind option_bind]. rewrite E. unfold Equals.
  by rewrite (proj2 (Z.eqb_neq lo' x)), (proj2 (Z.eqb_neq hi' x)), Z.eqb_refl.
Qed.

Lemma update_sources_exact ms x d :
  Forall (wf_move loc_ok) ms -> loc_ok x -> loc_ok d ->
  update_sources ms x d = Some (map (swap1 x d) ms).
Proof.
  intros Hms Hx Hd. induction Hms as [|m ms Hm _ IH]; [done|]. cbn [update_sources map].
  rewrite !(Blocks_wf loc_ok) by done. cbn [mbind option_bind]. rewrite IH. unfold swap1 at 2, Equals.
  destruct (Z.eqb_spec (source_ m) x); [by rewrite UpdateSourceOf_exact|].
  destruct (Z.eqb_spec (source_ m) d); [by rewrite UpdateSourceOf_exact|done].
Qed.

Lemma swapped_lookup x d ms k m j m' :
  map (swap1 x d) (<[k := Eliminate m]> ms) !! j = Some m' -> x <> 0 -> d <> 0 ->
  (j = k /\ m' = Eliminate m) \/ (j <> k /\ exists mj, ms !! j = Some mj /\ m' = swap1 x d mj).
Proof.
  rewrite list_lookup_fmap, fmap_Some. intros (mj & Hj & ->) Hx Hd.
  apply list_lookup_insert_Some in Hj as [(<- & <- & _)|(Hne & Hj)]; [left|right; eauto].
  split; [done|]. by apply swap1_gone.
Qed.

Lemma swap1_width x d m : Is64BitMove (swap1 x d m) = Is64BitMove m.
Proof. by destruct (swap1_cases x d m) as [[_ ->]|[(_ & _ & ->)|(_ & _ & ->)]]. Qed.

Lemma swap1_destination x d m : destination_ (swap1 x d m) = destination_ m.
Proof. by destruct (swap1_cases x d m) as [[_ ->]|[(_ & _ & ->)|(_ & _ & ->)]]. Qed.

(** The width condition of the swap of [k]: what moves into a slot fits it. *)
Lemma slots_swap s ms S k m d :
  all_slots s ms S -> one_width ms -> ms !! k = Some m -> D !! k = Some d -> loc_ok (source_ m) ->
  k ∉ S -> IsConstant (source_ m) = false ->
  (exists n mn, D !! n = Some (source_ m) /\ ms !! n = Some mn /\ ~ gone mn) ->
  (forall j mj, ms !! j = Some mj -> source_ mj = d -> Is64BitMove mj = true -> holds64 (source_ m) = true) ->
  all_slots (exec_op clobber s (OpSwap (source_ m) d))
    (map (swap1 (source_ m) d) (<[k := Eliminate m]> ms)) S.
Proof.
  intros Hs Hw Hm Hd Hy HkS Hc (n & mn & Hn & Hmn & Hgn) Hwide.
  destruct (dst_ok k d Hd) as [Hdok _].
  pose proof (loc_valid _ Hy) as Hy0. pose proof (loc_valid _ Hdok) as Hd0.
  assert (~ gone m) as Hgm by (intros Hg; by eapply gone_live).
  destruct (proj2 Hs k m d Hm Hd) as [(Hg & _)|(_ & Hv & H64 & _)]; [done|].
  split; [rewrite length_map, length_insert; apply Hs|].
  intros j m' dj Hj Hdj. destruct (dst_ok j dj Hdj) as [Hdjok _].
  apply swapped_lookup in Hj as [[-> ->]|(Hjk & mj & Hj & ->)]; [..|done|done].
  - left. assert (dj = d) as -> by congruence. split; [done|]. split; [done|].
    rewrite exec_swap_at, decide_True by done. by apply transfer_agree.
  - assert (dj <> d) as Hdd by (intros ->; apply Hjk; by eapply dst_inj).
    destruct (proj2 Hs j mj dj Hj Hdj) as [(Hg & HjS & Hdone)|(Hsrc & Hvj & H64j & Hin & Hout)].
    + left. rewrite swap1_gone by done. split; [done|]. split; [done|].
      rewrite exec_swap_at, !decide_False; try done. intros ->.
      assert (j = n) as -> by (by eapply dst_inj). congruence.
    + right. rewrite swap1_width, swap1_destination.
      destruct (swap1_cases (source_ m) d mj) as [[E ->]|[(E1 & E & ->)|(E1 & E2 & ->)]];
        cbn [SetSource source_].
      * assert (Is64BitMove m = Is64BitMove mj) as Ew.
        { apply Hw; try done; by eapply list_elem_of_lookup_2. }
        rewrite <- Ew. split; [done|]. rewrite exec_swap_at, decide_True by done.
        split; [|split; [|done]].
        -- apply transfer_agree; [|done]. rewrite <- E, Ew. done.
        -- intros Hm64. split; [by apply H64|]. rewrite Ew in Hm64. by apply H64j.
      * split; [done|]. rewrite exec_swap_at by done. rewrite decide_False by congruence.
        rewrite decide_True by done.
        assert (Is64BitMove mj = true -> holds64 (source_ m) = true /\ holds64 d = true /\ holds64 dj = true) as Hh.
        { intros Hj64. destruct (H64j Hj64) as [Ha Hb]. rewrite E in Ha. eauto. }
        split; [|split; [naive_solver|done]]. apply transfer_agree; [by rewrite <- E|naive_solver].
      * split; [done|]. rewrite exec_swap_at, !decide_False by done. done.
Qed.

Lemma width_swap ms k m d :
  one_width ms -> source_ m <> 0 -> d <> 0 -> IsConstant (source_ m) = false ->
  IsConstant d = false -> source_ m <> d ->
  one_width (map (swap1 (source_ m) d) (<[k := Eliminate m]> ms)).
Proof.
  intros Hw Hx Hd Hxc Hdc Hne m1 m2 H1 H2 Hnz Hc E.
  apply list_elem_of_lookup in H1 as (i & Hi). apply list_elem_of_lookup in H2 as (j & Hj).
  apply swapped_lookup in Hi as [[_ ->]|(_ & mi & Hi & ->)]; [by destruct Hnz|..|done|done].
  apply swapped_lookup in Hj as [[_ ->]|(_ & mj & Hj & ->)]; [by destruct Hnz|..|done|done].
  rewrite !swap1_width. apply list_elem_of_lookup_2 in Hi, Hj.
  revert Hnz Hc E. destruct (swap1_cases (source_ m) d mi) as [[E1 ->]|[(? & E1 & ->)|(? & ? & ->)]];
    destruct (swap1_cases (source_ m) d mj) as [[E2 ->]|[(? & E2 & ->)|(? & ? & ->)]];
    cbn [SetSource source_]; intros; apply Hw; congruence.
Qed.

Lemma chain_mono ms ms' S :
  (forall a b m, a ∈ S -> b ∈ tail S -> ms !! a = Some m -> D !! b = Some (source_ m) ->
     exists m', ms' !! a = Some m' /\ source_ m' = source_ m) ->
  chain ms S -> chain ms' S.
Proof.
  induction S as [|a [|b S] IH]; [done|done|]. intros Hkeep [(m & Hm & Hb) Hch]. split.
  - destruct (Hkeep a b m) as (m' & ? & E); [left|left|done|done|]. exists m'. by rewrite E.
  - apply IH; [|done]. intros a' b' m' Ha Hb'. apply Hkeep; [by right|]. cbn [tail] in *. by right.
Qed.

Lemma types_insert ms k m m' :
  ms !! k = Some m -> type_ m' = type_ m ->
  map Is64BitMove (<[k := m']> ms) = map Is64BitMove ms.
Proof.
  intros Hm E. assert (Is64BitMove m' = Is64BitMove m) as E' by (unfold Is64BitMove; by rewrite E).
  apply list_eq. intros i. rewrite !list_lookup_fmap. destruct (decide (i = k)) as [->|Hne].
  - rewrite list_lookup_insert_eq, Hm by (by eapply lookup_lt_Some). cbn. by rewrite E'.
  - by rewrite list_lookup_insert_ne.
Qed.

Lemma work_put st k m :
  (k < length (work_ st))%nat ->
  put_move st (Z.of_nat k) m = Some (Build_SwapResolver (<[k := m]> (work_ st)) (ops_ st)).
Proof.
  intros Hk. unfold put_move, awrite. rewrite (proj2 (Z.leb_le _ _)), (proj2 (Z.ltb_lt _ _)) by lia.
  cbn [andb mbind option_bind]. by rewrite Nat2Z.id.
Qed.

Lemma now_snoc st ms o : now (Build_SwapResolver ms (ops_ st ++ [o])) = exec_op clobber (now st) o.
Proof. apply exec_ops_snoc. Qed.

Lemma live_valid st S m : SInv st S -> m ∈ work_ st -> ~ gone m -> loc_ok (source_ m).
Proof.
  intros HI Hm Hg. apply list_elem_of_lookup in Hm as (j & Hj).
  by destruct (live_source _ _ _ j m (sinv_slots _ _ HI) Hj) as [?|[_ ?]].
Qed.

Lemma perform_swap_spec st S k m d required :
  SInv st S -> work_ st !! k = Some m -> destination_ m = d -> D !! k = Some d ->
  loc_ok (source_ m) -> k ∉ S -> IsConstant (source_ m) = false -> source_ m <> d ->
  (exists n mn, D !! n = Some (source_ m) /\ work_ st !! n = Some mn /\ ~ gone mn) ->
  (forall j mj, work_ st !! j = Some mj -> source_ mj = d -> Is64BitMove mj = true ->
     holds64 (source_ m) = true) ->
  (forall b, b ∈ tail S -> D !! b <> Some (source_ m)) ->
  exists st', perform_swap st (Z.of_nat k) required = Some (st', required) /\ SInv st' S /\
    work_ st' = map (swap1 (source_ m) d) (<[k := Eliminate m]> (work_ st)).
Proof.
  intros HI Hm Hdest Hd Hy HkS Hc Hne Hn Hwide Htail. destruct (dst_ok k d Hd) as [Hdok Hdc].
  pose proof (loc_valid _ Hy) as Hy0. pose proof (loc_valid _ Hdok) as Hd0.
  unfold perform_swap, emit_swap. rewrite aread_nat, Hm. cbn [mbind option_bind work_].
  rewrite aread_nat, Hm. cbn [mbind option_bind]. rewrite work_put by (by eapply lookup_lt_Some).
  cbn [mbind option_bind work_ ops_]. rewrite Hdest.
  rewrite update_sources_exact; [|apply Forall_insert; [by eapply work_wf|by left]|done|done].
  cbn [mbind option_bind]. eexists. split; [done|]. split; [|done].
  destruct Hn as (n & mn & Hn & Hmn & Hgn).
  split; rewrite ?now_snoc; cbn [work_].
  - apply slots_swap; try done; [apply HI|apply HI|eauto].
  - apply width_swap; try done. apply HI.
  - rewrite map_map, (map_ext _ Is64BitMove) by apply swap1_width.
    rewrite (types_insert _ _ m) by done. apply HI.
  - eapply chain_mono; [|apply (sinv_chain _ _ HI)]. intros a b ma Ha Hb Hma Hdb.
    exists (swap1 (source_ m) d ma). assert (a <> k) by (by intros ->).
    rewrite list_lookup_fmap, list_lookup_insert_ne, Hma by done. split; [done|].
    destruct (swap1_cases (source_ m) d ma) as [[E _]|[(_ & E & _)|(_ & _ & ->)]]; [..|done].
    + destruct (Htail b Hb). congruence.
    + rewrite E in Hdb. assert (b = k) as -> by (by eapply dst_inj). destruct HkS.
      destruct S; [done|]. by right.
  - intros l Hl. rewrite exec_op_untouched; [by apply (sinv_frame _ _ HI)|done|].
    split; by eapply list_elem_of_lookup_2.
Qed.

(** *** A move that nothing blocks *)

Lemma SInv_emit st S k m d :
  SInv st S -> work_ st !! k = Some m -> D !! k = Some d -> loc_ok (source_ m) -> k ∉ S ->
  reads (work_ st) d = false ->
  SInv (Build_SwapResolver (<[k := Eliminate m]> (work_ st)) (ops_ st ++ [OpMove (source_ m) d])) S.
Proof.
  intros HI Hm Hd Hx HkS Hr. destruct (dst_ok k d Hd) as [Hdok Hdc].
  destruct (sinv_slots _ _ HI) as [Hlen Hs].
  split; rewrite ?now_snoc; cbn [work_].
  - split; [by rewrite length_insert|]. intros j mj dj Hj Hdj. destruct (dst_ok j dj Hdj) as [Hdjok _].
    apply list_lookup_insert_Some in Hj as [(<- & <- & _)|(Hjk & Hj)].
    + left. assert (dj = d) as -> by congruence. split; [done|]. split; [done|].
      rewrite exec_move_at, decide_True by done.
      destruct (Hs k m d Hm Hd) as [(Hg & _)|(_ & Hv & H64 & _)]; [by destruct (gone_live loc_ok loc_valid m)|].
      by apply transfer_agree.
    + assert (dj <> d) by (intros ->; apply Hjk; by eapply dst_inj).
      destruct (Hs j mj dj Hj Hdj) as [(Hg & HjS & Hdone)|(Hsrc & Hvj & Hrest)].
      * left. split; [done|]. split; [done|]. by rewrite exec_move_at, decide_False.
      * right. split; [done|]. rewrite exec_move_at, decide_False by (done || by eapply reads_lookup). done.
  - intros m1 m2 H1 H2 Hn1 Hc1 E.
    apply (sinv_width _ _ HI); try done; eapply elem_insert_gone; done || congruence.
  - rewrite (types_insert _ _ m) by done. apply HI.
  - eapply chain_mono; [|apply (sinv_chain _ _ HI)]. intros a b ma Ha Hb Hma Hdb. exists ma.
    rewrite list_lookup_insert_ne; [done|]. by intros ->.
  - intros l Hl. rewrite exec_op_untouched; [by apply (sinv_frame _ _ HI)|done|].
    by eapply list_elem_of_lookup_2.
Qed.

(** *** Starting a move and coming back to it *)

Lemma insert_source (ms : list MoveOperands) k m d m' :
  ms !! k = Some m -> m' ∈ <[k := SetDestination m d]> ms ->
  exists m0, m0 ∈ ms /\ source_ m0 = source_ m' /\ Is64BitMove m0 = Is64BitMove m'.
Proof.
  intros Hk Hm'. apply list_elem_of_lookup in Hm' as (j & Hj).
  apply list_lookup_insert_Some in Hj as [(<- & <- & _)|(_ & Hj)].
  - exists m. split; [by eapply list_elem_of_lookup_2|done].
  - exists m'. split; [by eapply list_elem_of_lookup_2|done].
Qed.

Lemma width_insert ms k m d :
  one_width ms -> ms !! k = Some m -> one_width (<[k := SetDestination m d]> ms).
Proof.
  intros Hw Hk m1 m2 H1 H2 Hn Hc E.
  destruct (insert_source ms k m d m1 Hk H1) as (m1' & Hm1 & E1 & <-).
  destruct (insert_source ms k m d m2 Hk H2) as (m2' & Hm2 & E2 & <-).
  apply Hw; congruence.
Qed.

Lemma chain_insert ms k m d S : ms !! k = Some m -> chain ms S -> chain (<[k := SetDestination m d]> ms) S.
Proof.
  intros Hk. apply chain_mono. intros a b ma _ _ Hma _. destruct (decide (a = k)) as [->|Hne].
  - exists (SetDestination m d). rewrite list_lookup_insert_eq by (by eapply lookup_lt_Some).
    by assert (ma = m) as -> by congruence.
  - exists ma. by rewrite list_lookup_insert_ne.
Qed.

Lemma slots_set_destination s ms S S' k m (d d' : Location) :
  all_slots s ms S -> ms !! k = Some m -> D !! k = Some d -> loc_ok (source_ m) ->
  (k ∈ S' -> d' = 0) -> (k ∉ S' -> d' = d) -> (forall j, j <> k -> j ∈ S <-> j ∈ S') ->
  all_slots s (<[k := SetDestination m d']> ms) S'.
Proof.
  intros [Hlen Hs] Hm Hd Hok H0 H1 HS. split; [by rewrite length_insert|]. intros j mj dj Hj Hdj.
  apply list_lookup_insert_Some in Hj as [(<- & <- & _)|(Hne & Hj)].
  - assert (dj = d) as -> by congruence. right.
    destruct (Hs k m d Hm Hd) as [(Hg & _)|(_ & Hv & H64 & _)]; [|done].
    by destruct (gone_live loc_ok loc_valid m).
  - specialize (Hs j mj dj Hj Hdj). unfold slot in *. rewrite (HS j) in Hs by done. done.
Qed.

Lemma SInv_mark st S k m d :
  SInv st S -> work_ st !! k = Some m -> D !! k = Some d -> loc_ok (source_ m) ->
  (forall t S', S = t :: S' -> D !! t = Some (source_ m)) ->
  SInv (Build_SwapResolver (<[k := SetDestination m NoLocation]> (work_ st)) (ops_ st)) (k :: S).
Proof.
  intros HI Hm Hd Hok Htop. split; try apply HI; cbn [work_].
  - eapply slots_set_destination; [apply (sinv_slots _ _ HI)|done..| |]; [|set_solver].
    intros Hk. destruct Hk. left.
  - by apply width_insert; [apply HI|].
  - rewrite (types_insert _ _ m) by done. apply HI.
  - pose proof (chain_insert _ k m NoLocation _ Hm (sinv_chain _ _ HI)) as Hch.
    destruct S as [|t S']; [done|]. split; [|done]. exists (SetDestination m NoLocation).
    rewrite list_lookup_insert_eq by (by eapply lookup_lt_Some). split; [done|]. by eapply Htop.
Qed.

Lemma SInv_unmark st S k m d :
  SInv st (k :: S) -> k ∉ S -> work_ st !! k = Some m -> D !! k = Some d ->
  SInv (Build_SwapResolver (<[k := SetDestination m d]> (work_ st)) (ops_ st)) S /\
  loc_ok (source_ m) /\ destination_ m = 0 /\
  (forall t S', S = t :: S' -> D !! t = Some (source_ m)).
Proof.
  intros HI HkS Hm Hd.
  destruct (proj2 (sinv_slots _ _ HI) k m d Hm Hd) as [(_ & Hk & _)|(Hok & Hv & H64 & Hin & _)];
    [destruct Hk; left|].
  split; [|split; [done|split; [apply Hin; left|]]].
  - split; try apply HI; cbn [work_].
    + eapply slots_set_destination; [apply (sinv_slots _ _ HI)|done..| |]; [done|set_solver].
    + by apply width_insert; [apply HI|].
    + rewrite (types_insert _ _ m) by done. apply HI.
    + apply chain_insert; [done|]. pose proof (sinv_chain _ _ HI) as Hch.
      destruct S as [|t S']; [done|]. by destruct Hch.
  - intros t S' ->. destruct (sinv_chain _ _ HI) as [(m' & Hm' & ?) _]. congruence.
Qed.

Lemma chain_reader ms S j m :
  chain ms S -> j ∈ S -> ms !! j = Some m ->
  last S = Some j \/ exists b, b ∈ tail S /\ D !! b = Some (source_ m).
Proof.
  induction S as [|a [|b S] IH]; intros Hch Hj Hm.
  - by apply not_elem_of_nil in Hj.
  - apply list_elem_of_singleton in Hj as ->. by left.
  - destruct Hch as [(m' & Hm' & Hb) Hch]. apply elem_of_cons in Hj as [->|Hj].
    + right. exists b. split; [left|congruence].
    + destruct (IH Hch Hj Hm) as [?|(c & Hc & ?)]; [by left|right]. exists c. split; [|done].
      cbn [tail] in *. by right.
Qed.

Lemma first_blocker_spec ms i l :
  Forall (wf_move loc_ok) ms -> loc_ok l ->
  (first_blocker ms i l = Some None /\ reads ms l = false) \/
  (exists j m, first_blocker ms i l = Some (Some (i + Z.of_nat j, m)) /\ ms !! j = Some m /\
     source_ m = l).
Proof.
  intros Hms Hl. revert i. induction Hms as [|m ms Hm _ IH]; intros i; [by left|].
  cbn [first_blocker reads existsb]. rewrite (Blocks_wf loc_ok) by done. cbn [mbind option_bind].
  unfold Equals. destruct (Z.eqb_spec (source_ m) l) as [E|Hne].
  - right. exists 0%nat, m. rewrite Z.add_0_r. done.
  - destruct (IH (i + 1)) as [[-> ?]|(j & m' & -> & Hj & ?)]; [by left|right].
    exists (Datatypes.S j), m'. split; [|done]. do 3 f_equal. lia.
Qed.

(** *** How the readers change *)

Lemma nnr_same S ms ms' :
  (forall j m m', ms !! j = Some m -> ms' !! j = Some m' -> (gone m -> gone m') /\
     (~ gone m' -> source_ m' = source_ m)) -> no_new_readers S ms ms'.
Proof.
  intros H j m m' Hm Hm'. destruct (H j m m' Hm Hm') as [Hg Hs]. split; [done|].
  intros Hg'. by rewrite (Hs Hg').
Qed.

Lemma nnr_set_destination S ms k m d :
  ms !! k = Some m -> source_ m <> 0 -> no_new_readers S ms (<[k := SetDestination m d]> ms).
Proof.
  intros Hk Hn. apply nnr_same. intros j mj m' Hj Hj'.
  apply list_lookup_insert_Some in Hj' as [(<- & <- & _)|(_ & Hj')].
  - assert (mj = m) as -> by congruence. split; [by intros [? _]|done].
  - by assert (mj = m') as -> by congruence.
Qed.

Lemma nnr_eliminate S ms k m : no_new_readers S ms (<[k := Eliminate m]> ms).
Proof.
  apply nnr_same. intros j mj m' Hj Hj'.
  apply list_lookup_insert_Some in Hj' as [(<- & <- & _)|(_ & Hj')]; [split; [done|by intros []]|].
  by assert (mj = m') as -> by congruence.
Qed.

Lemma nnr_trans S ms ms1 ms2 :
  length ms1 = length ms -> no_new_readers S ms ms1 -> no_new_readers S ms1 ms2 ->
  no_new_readers S ms ms2.
Proof.
  intros Hlen H1 H2 j m m2 Hm Hm2.
  destruct (lookup_lt_is_Some_2 ms1 j) as [m1 Hm1]; [rewrite Hlen; by eapply lookup_lt_Some|].
  destruct (H1 j m m1 Hm Hm1) as [A1 A2]. destruct (H2 j m1 m2 Hm1 Hm2) as [B1 B2].
  split; [auto|]. intros Hg. destruct (B2 Hg) as [B3 B4]. destruct (A2 (fun g => Hg (B1 g))) as [A3 A4].
  split; [congruence|]. intros Hj c d Hc Hd E. apply (A4 Hj c d Hc Hd), (B4 Hj c d Hc Hd E).
Qed.

(** After a swap of [k] whose destination only the stack read. *)
Lemma nnr_swap S ms k m d :
  source_ m <> 0 -> d <> 0 -> IsConstant (source_ m) = false -> IsConstant d = false ->
  D !! k = Some d -> k ∉ S ->
  (S = [] \/ forall j mj, j ∉ k :: S -> ms !! j = Some mj -> source_ mj <> d) ->
  no_new_readers S ms (map (swap1 (source_ m) d) (<[k := Eliminate m]> ms)).
Proof.
  intros Hy Hd0 Hyc Hdc Hd HkS Hidle j mj m' Hj Hj'.
  apply swapped_lookup in Hj' as [[-> ->]|(Hne & m0 & Hm0 & ->)]; [split; [done|by intros []]|..|done|done].
  assert (m0 = mj) as -> by congruence. split; [intros; by rewrite swap1_gone|]. intros _.
  destruct (swap1_cases (source_ m) d mj) as [[E ->]|[(? & E & ->)|(_ & _ & ->)]]; [..|done];
    cbn [SetSource source_].
  - split; [congruence|]. intros _ c dc Hc Hdc' <-. destruct HkS. by rewrite (dst_inj k c d).
  - split; [congruence|]. intros HjS c dc Hc _ _. destruct Hidle as [->|Hidle].
    + by apply not_elem_of_nil in Hc.
    + exfalso. apply (Hidle j mj); [|done|done]. by apply not_elem_of_cons.
Qed.

Lemma SInv_eliminate st S k m d :
  SInv st S -> work_ st !! k = Some m -> D !! k = Some d -> loc_ok (source_ m) -> k ∉ S ->
  source_ m = d -> SInv (Build_SwapResolver (<[k := Eliminate m]> (work_ st)) (ops_ st)) S.
Proof.
  intros HI Hm Hd Hok HkS E. destruct (sinv_slots _ _ HI) as [Hlen Hs]. split; try apply HI; cbn [work_].
  - split; [by rewrite length_insert|]. intros j mj dj Hj Hdj.
    apply list_lookup_insert_Some in Hj as [(<- & <- & _)|(_ & Hj)]; [|by apply Hs].
    left. assert (dj = d) as -> by congruence. split; [done|]. split; [done|].
    destruct (Hs k m d Hm Hd) as [(Hg & _)|(_ & Hv & _)]; [by destruct (gone_live loc_ok loc_valid m)|].
    by rewrite E in Hv.
  - intros m1 m2 H1 H2 Hn1 Hc1 E1.
    apply (sinv_width _ _ HI); try done; eapply elem_insert_gone; done || congruence.
  - rewrite (types_insert _ _ m) by done. apply HI.
  - eapply chain_mono; [|apply (sinv_chain _ _ HI)]. intros a b ma Ha Hb Hma Hdb. exists ma.
    rewrite list_lookup_insert_ne; [done|]. by intros ->.
Qed.

(** *** [finish_move] *)

Lemma finish_start st S k m d required :
  SInv st (k :: S) -> k ∉ S -> work_ st !! k = Some m -> D !! k = Some d ->
  let m1 := SetDestination m d in
  let st1 := Build_SwapResolver (<[k := m1]> (work_ st)) (ops_ st) in
  SInv st1 S /\ work_ st1 !! k = Some m1 /\ loc_ok (source_ m1) /\
  (forall t S', S = t :: S' -> D !! t = Some (source_ m1)) /\
  no_new_readers S (work_ st) (work_ st1) /\
  finish_move st (Z.of_nat k) d required =
    (if Equals (source_ m1) d then
       st ← put_move st1 (Z.of_nat k) (Eliminate m1);
       DCHECK bool_decide (required = None);
       Some (st, None)
     else
       match required with
       | Some r => DCHECK r =? Z.of_nat k; perform_swap st1 (Z.of_nat k) required
       | None =>
           blocker ← first_blocker (work_ st1) 0 d;
           match blocker with
           | Some (j, other_move) =>
               p ← IsPending other_move; DCHECK p;
               if negb (Is64BitMove m1) && Is64BitMove other_move then Some (st1, Some j)
               else perform_swap st1 (Z.of_nat k) None
           | None =>
               st ← emit_move st1 (Z.of_nat k);
               st ← put_move st (Z.of_nat k) (Eliminate m1);
               Some (st, None)
           end
       end).
Proof.
  intros HI HkS Hm Hd m1 st1. destruct (SInv_unmark st S k m d HI HkS Hm Hd) as (HI1 & Hok & Hd0 & Htop).
  split; [done|]. split; [apply list_lookup_insert_eq; by eapply lookup_lt_Some|].
  split; [done|]. split; [done|].
  split; [apply nnr_set_destination; [done|by apply loc_valid]|].
  unfold finish_move. rewrite aread_nat, Hm. cbn [mbind option_bind]. unfold ClearPending.
  rewrite (IsPending_live loc_ok) by done. rewrite Hd0. cbn [Z.eqb dcheck mbind option_bind].
  rewrite work_put by (by eapply lookup_lt_Some). done.
Qed.

(** The branch that finds the blocking move [j]. *)
Lemma finish_blocked st S k m d j mj :
  SInv st S -> k ∉ S -> NoDup S -> work_ st !! k = Some m -> D !! k = Some d ->
  destination_ m = d -> loc_ok (source_ m) -> IsConstant (source_ m) = false -> source_ m <> d ->
  (forall t S', S = t :: S' -> D !! t = Some (source_ m)) ->
  (forall j mj, j ∉ k :: S -> work_ st !! j = Some mj -> source_ mj <> d) ->
  work_ st !! j = Some mj -> source_ mj = d ->
  exists st' r,
    (p ← IsPending mj; DCHECK p;
     if negb (Is64BitMove m) && Is64BitMove mj then Some (st, Some (Z.of_nat j))
     else perform_swap st (Z.of_nat k) None) = Some (st', r) /\ swap_performed S k st st' r.
Proof.
  intros HI HkS HN Hm Hd Hdest Hok Hc Hne Htop Hidle Hj Hsj. destruct (dst_ok k d Hd) as [Hdok Hdc].
  pose proof (loc_valid _ Hok) as Hy0. pose proof (loc_valid _ Hdok) as Hd0.
  assert (j ∈ S) as HjS.
  { destruct (decide (j ∈ k :: S)) as [[->|?]%elem_of_cons|Hn]; [congruence|done|].
    by destruct (Hidle j mj Hn Hj). }
  assert (last S = Some j) as Hlast.
  { destruct (chain_reader _ S j mj (sinv_chain _ _ HI) HjS Hj) as [?|(b & Hb & Hdb)]; [done|].
    rewrite Hsj in Hdb. assert (b = k) as -> by (by eapply dst_inj). destruct HkS.
    destruct S; [done|]. by right. }
  destruct (slot_lookup _ _ _ _ _ (sinv_slots _ _ HI) Hj) as (dj & Hdj & [([Hs0 _] & _)|(Hokj & _ & _ & Hin & _)]);
    [congruence|].
  rewrite (IsPending_live loc_ok) by done. rewrite (Hin HjS). cbn [Z.eqb dcheck mbind option_bind].
  assert (~ gone m) as Hgm by (intros Hg; by eapply (gone_live loc_ok)).
  destruct (negb (Is64BitMove m) && Is64BitMove mj) eqn:Hw.
  - apply andb_prop in Hw as [_ Hw]. exists st, (Some (Z.of_nat j)). split; [done|].
    split; [done|]. split; [by apply nnr_same; intros; simplify_eq|]. right.
    exists j, k, mj, m. by rewrite Hsj.
  - destruct S as [|t S']; [by apply not_elem_of_nil in HjS|].
    pose proof (Htop t S' eq_refl) as Ht. apply NoDup_cons in HN as [HtS HN].
    destruct (perform_swap_spec st (t :: S') k m d None) as (st' & -> & HI' & Hwork); try done.
    + destruct (in_stack_live st (t :: S') t (source_ m) HI) as (mt & Hmt & Hgt); [left|done|]. eauto 10.
    + intros j' mj' Hj' Hs' H64.
      assert (Is64BitMove mj' = Is64BitMove mj) as Ew.
      { apply (sinv_width _ _ HI); try congruence; by eapply list_elem_of_lookup_2. }
      assert (Is64BitMove m = true) as Hm64.
      { rewrite <- Ew, H64, andb_true_r in Hw. by destruct (Is64BitMove m). }
      destruct (proj2 (sinv_slots _ _ HI) k m d Hm Hd) as [(Hg & _)|(_ & _ & H & _)]; [done|]. by apply H.
    + intros b Hb Hdb. cbn [tail] in Hb. assert (b = t) as -> by (by eapply dst_inj). done.
    + eexists st', None. split; [done|]. split; [done|]. rewrite Hwork. split.
      * apply nnr_swap; auto.
      * left. split; [by left|]. exists (Eliminate m). split; [|done].
        rewrite list_lookup_fmap, list_lookup_insert_eq by (by eapply lookup_lt_Some).
        cbn [fmap option_fmap option_map]. f_equal. by apply swap1_gone.
Qed.

(** Case A of [finish_move]: no move has asked for a swap, and only moves of the
    stack read the destination. *)
Lemma finish_free st S k m d :
  SInv st (k :: S) -> k ∉ S -> NoDup S -> work_ st !! k = Some m -> D !! k = Some d ->
  IsConstant (source_ m) = false ->
  (forall j mj, j ∉ k :: S -> work_ st !! j = Some mj -> source_ mj <> d) ->
  exists st' r, finish_move st (Z.of_nat k) d None = Some (st', r) /\ swap_performed S k st st' r.
Proof.
  intros HI HkS HN Hm Hd Hc Hidle. destruct (dst_ok k d Hd) as [Hdok Hdc].
  destruct (finish_start st S k m d None HI HkS Hm Hd) as (HI1 & Hm1 & Hok & Htop & Hnnr & ->).
  set (m1 := SetDestination m d) in *. set (st1 := Build_SwapResolver _ _) in *.
  pose proof (loc_valid _ Hok) as Hy0. pose proof (loc_valid _ Hdok) as Hd0.
  assert (forall j mj, j ∉ k :: S -> work_ st1 !! j = Some mj -> source_ mj <> d) as Hidle1.
  { intros j mj Hj Hmj. apply (Hidle j mj Hj). cbn [st1 work_] in Hmj.
    rewrite list_lookup_insert_ne in Hmj; [done|]. intros ->. destruct Hj. left. }
  assert (forall st', SInv st' S -> no_new_readers S (work_ st1) (work_ st') ->
    (exists m, work_ st' !! k = Some m /\ gone m) -> swap_performed S k st st' None) as Hdone.
  { intros st' HI' Hn Hg. split; [done|]. split; [|left; auto].
    eapply nnr_trans; [|done|done]. apply length_insert. }
  assert (forall x : MoveOperands, <[k := Eliminate x]> (work_ st1) !! k = Some (Eliminate x)) as Hgone.
  { intros x. apply list_lookup_insert_eq. by eapply lookup_lt_Some. }
  unfold Equals. destruct (Z.eqb_spec (source_ m1) d) as [E|Hne].
  - rewrite work_put by (by eapply lookup_lt_Some). cbn. eexists _, None. split; [done|]. apply Hdone.
    + exact (SInv_eliminate st1 S k m1 d HI1 Hm1 Hd Hok HkS E).
    + apply nnr_eliminate.
    + exists (Eliminate m1). by split; [apply Hgone|].
  - destruct (first_blocker_spec (work_ st1) 0 d) as [[-> Hr]|(j & mj & -> & Hj & Hsj)];
      [by eapply work_wf|done|..]; cbn [mbind option_bind].
    + unfold emit_move. rewrite aread_nat, Hm1. cbn [mbind option_bind].
      rewrite work_put by (by eapply lookup_lt_Some). cbn [mbind option_bind].
      eexists _, None. split; [done|]. apply Hdone.
      * exact (SInv_emit st1 S k m1 d HI1 Hm1 Hd Hok HkS Hr).
      * apply nnr_eliminate.
      * exists (Eliminate m1). by split; [apply Hgone|].
    + rewrite Z.add_0_l. destruct (finish_blocked st1 S k m1 d j mj) as (st' & r & -> & HI' & Hn' & Hend); try done.
      exists st', r. split; [done|]. split; [done|]. split; [|done].
      eapply nnr_trans; [|done|done]. apply length_insert.
Qed.

(** Case B: the move at the bottom of the stack has been asked to swap. *)
Lemma finish_required st k m d n mn :
  SInv st [k] -> work_ st !! k = Some m -> D !! k = Some d -> IsConstant (source_ m) = false ->
  Is64BitMove m = true -> D !! n = Some (source_ m) -> work_ st !! n = Some mn -> ~ gone mn -> n <> k ->
  exists st' r,
    finish_move st (Z.of_nat k) d (Some (Z.of_nat k)) = Some (st', r) /\ swap_performed [] k st st' r.
Proof.
  intros HI Hm Hd Hc H64 Hn Hmn Hgn Hnk. destruct (dst_ok k d Hd) as [Hdok Hdc].
  destruct (finish_start st [] k m d (Some (Z.of_nat k)) HI (not_elem_of_nil k) Hm Hd)
    as (HI1 & Hm1 & Hok & _ & Hnnr & ->).
  set (m1 := SetDestination m d) in *. set (st1 := Build_SwapResolver _ _) in *.
  pose proof (loc_valid _ Hok) as Hy0. pose proof (loc_valid _ Hdok) as Hd0.
  assert (source_ m1 <> d) as Hne.
  { intros E. apply Hnk. eapply dst_inj; [done|]. change (source_ m) with (source_ m1). by rewrite E. }
  unfold Equals. rewrite (proj2 (Z.eqb_neq _ _) Hne), Z.eqb_refl. cbn [dcheck mbind option_bind].
  destruct (perform_swap_spec st1 [] k m1 d (Some (Z.of_nat k))) as (st' & -> & HI' & Hwork); try done.
  - apply not_elem_of_nil.
  - exists n, mn. split; [done|]. split; [|done]. cbn [st1 work_]. by rewrite list_lookup_insert_ne.
  - intros _ _ _ _ _.
    destruct (proj2 (sinv_slots _ _ HI1) k m1 d Hm1 Hd) as [(Hg & _)|(_ & _ & H & _)].
    + by destruct (gone_live loc_ok loc_valid m1).
    + by apply H.
  - intros b Hb. by apply not_elem_of_nil in Hb.
  - eexists _, _. split; [done|]. split; [done|]. rewrite Hwork. split.
    + apply (nnr_trans _ _ (work_ st1)); [apply length_insert|done|].
      apply nnr_swap; auto using not_elem_of_nil.
    + left. split; [by right|]. exists (Eliminate m1). split; [|done].
      rewrite list_lookup_fmap, list_lookup_insert_eq by (by eapply lookup_lt_Some).
      cbn [fmap option_fmap option_map]. f_equal. by apply swap1_gone.
Qed.

(** *** The loop over the blocking moves *)

(** Popping [k]: its source is fixed by the chain, or nothing is left below. *)
Lemma nnr_pop st st' S k d :
  SInv st (k :: S) -> SInv st' (k :: S) -> D !! k = Some d ->
  no_new_readers (k :: S) (work_ st) (work_ st') -> no_new_readers S (work_ st) (work_ st').
Proof.
  intros HI HI' Hd Hn j m m' Hm Hm'. destruct (Hn j m m' Hm Hm') as [H1 H2]. split; [done|].
  intros Hg. destruct (H2 Hg) as [H3 H4]. split; [done|]. intros HjS c dc Hc Hdc E.
  destruct (decide (j = k)) as [->|Hjk].
  - destruct S as [|t S']; [by apply not_elem_of_nil in Hc|].
    destruct (sinv_chain _ _ HI) as [(m1 & Hm1 & Ht) _]. destruct (sinv_chain _ _ HI') as [(m2 & Hm2 & Ht') _].
    congruence.
  - apply (H4 (fun H => match proj1 (elem_of_cons _ _ _) H with or_introl e => Hjk e | or_intror i => HjS i end) c dc);
      [by right|done|done].
Qed.

(** The bottom [b] of the stack must be swapped: a 64-bit move whose source is
    the destination of the unperformed move [n]. *)
Definition asks (S : list nat) (st : SwapResolver) (b : nat) : Prop :=
  exists n mb mn, work_ st !! b = Some mb /\ Is64BitMove mb = true /\ D !! n = Some (source_ mb) /\
    work_ st !! n = Some mn /\ ~ gone mn /\ n ∉ S.

Definition scan_ok (S : list nat) (k : nat) (d : Location) (st : SwapResolver) (e : scan_end) : Prop :=
  match e with
  | Through st' None =>
      SInv st' (k :: S) /\ no_new_readers (k :: S) (work_ st) (work_ st') /\
      forall j mj, j ∉ k :: S -> work_ st' !! j = Some mj -> source_ mj <> d
  | Through st' (Some r) =>
      S = [] /\ r = Z.of_nat k /\ SInv st' [k] /\
      no_new_readers [k] (work_ st) (work_ st') /\ asks [k] st' k
  | Returned st' r =>
      exists b, last S = Some b /\ r = Z.of_nat b /\ SInv st' S /\
        no_new_readers S (work_ st) (work_ st') /\ asks S st' b
  end.

Lemma scan_ok_trans S k d st st1 e :
  SInv st (k :: S) -> SInv st1 (k :: S) -> D !! k = Some d ->
  no_new_readers (k :: S) (work_ st) (work_ st1) -> scan_ok S k d st1 e -> scan_ok S k d st e.
Proof.
  intros HI HI1 Hd Hn. assert (length (work_ st1) = length (work_ st)) as Hlen by (by eapply same_length).
  destruct e as [st' [r|]|st' r]; cbn [scan_ok].
  - intros (-> & -> & HI' & Hn' & Ha). split_and!; try done. by eapply nnr_trans.
  - intros (HI' & Hn' & Hi). split_and!; try done. by eapply nnr_trans.
  - intros (b & Hb & -> & HI' & Hn' & Ha). exists b. split_and!; try done.
    eapply nnr_trans; [done|by eapply nnr_pop|done].
Qed.

(** The call on the blocking move [j] came back asking for a swap of [b]. *)
Lemma scan_asked (K : option scan_end) S k d st st' j b :
  SInv st (k :: S) -> SInv st' (k :: S) -> k ∉ S -> D !! k = Some d -> j ∉ k :: S ->
  no_new_readers (k :: S) (work_ st) (work_ st') ->
  last (k :: S) = Some b -> asks (k :: S) st' b ->
  exists e,
    (if Z.of_nat b =? Z.of_nat k then Some (Through st' (Some (Z.of_nat b)))
     else if Z.of_nat b =? Z.of_nat j then K
     else
       move ← aread (work_ st') (Z.of_nat k);
       move ← ClearPending move d;
       st ← put_move st' (Z.of_nat k) move;
       Some (Returned st (Z.of_nat b))) = Some e /\ scan_ok S k d st e.
Proof.
  intros HI HI' HkS Hd Hj Hn Hb Ha. destruct S as [|t S'].
  - injection Hb as <-. rewrite Z.eqb_refl. eexists. split; [done|]. done.
  - assert (last (t :: S') = Some b) as Hb' by done.
    assert (b ∈ t :: S') as HbS by (by apply last_Some_elem_of).
    rewrite (proj2 (Z.eqb_neq _ _)) by (intros ?%Nat2Z.inj; congruence).
    rewrite (proj2 (Z.eqb_neq _ _)); cycle 1.
    { intros ->%Nat2Z.inj. apply Hj. by right. }
    destruct (in_stack_live st' (k :: t :: S') k d HI') as (m & Hm & Hg); [left|done|].
    destruct (SInv_unmark st' (t :: S') k m d HI' HkS Hm Hd) as (HI1 & Hok & Hd0 & _).
    rewrite aread_nat, Hm. cbn [mbind option_bind]. unfold ClearPending.
    rewrite (IsPending_live loc_ok) by done. rewrite Hd0. cbn [Z.eqb dcheck mbind option_bind].
    rewrite work_put by (by eapply lookup_lt_Some). cbn [mbind option_bind].
    eexists. split; [done|]. exists b. split; [done|]. split; [done|]. split; [done|]. split.
    + apply (nnr_trans _ _ (work_ st')); [by eapply same_length|by eapply nnr_pop|].
      apply nnr_set_destination; [done|by apply loc_valid].
    + destruct Ha as (n & mb & mn & Hmb & H64 & Hdn & Hmn & Hgn & HnS).
      assert (b <> k) by congruence. assert (n <> k) by (intros ->; apply HnS; left).
      exists n, mb, mn. cbn [work_]. rewrite !list_lookup_insert_ne by done.
      repeat split; try done. intros HnS'. apply HnS. by right.
Qed.

Lemma scan_spec perform S k d :
  k ∉ S -> D !! k = Some d ->
  (forall st j mj, SInv st (k :: S) -> j ∉ k :: S -> work_ st !! j = Some mj -> source_ mj = d ->
     exists st' r, perform st (Z.of_nat j) = Some (st', r) /\ swap_performed (k :: S) j st st' r) ->
  forall n st i, SInv st (k :: S) -> (length D < i + n)%nat ->
  (forall j mj, (j < i)%nat -> j ∉ k :: S -> work_ st !! j = Some mj -> source_ mj <> d) ->
  exists e, scan_blockers perform n st (Z.of_nat i) (Z.of_nat k) d = Some e /\ scan_ok S k d st e.
Proof.
  intros HkS Hd Hperf. destruct (dst_ok k d Hd) as [Hdok Hdc]. pose proof (loc_valid d Hdok) as Hd0.
  induction n as [|n IH]; intros st i HI Hi Hbelow; cbn [scan_blockers];
    pose proof (proj1 (sinv_slots _ _ HI)) as Hlen;
    destruct (Z.ltb_spec (Z.of_nat i) (zlength (work_ st))) as [Hlt|Hge]; try lia;
    try (eexists; split; [done|]; split_and!; [done|by apply nnr_same; intros; simplify_eq|];
         intros j mj Hj Hmj; apply (Hbelow j mj); [apply lookup_lt_Some in Hmj; lia|done|done]).
  assert (forall st1, SInv st1 (k :: S) -> no_new_readers (k :: S) (work_ st) (work_ st1) ->
    (forall m, work_ st1 !! i = Some m -> i ∈ k :: S \/ source_ m <> d) ->
    exists e, scan_blockers perform n st1 (Z.of_nat i + 1) (Z.of_nat k) d = Some e /\
      scan_ok S k d st e) as Hnext.
  { intros st1 HI1 Hn1 Hi1. replace (Z.of_nat i + 1) with (Z.of_nat (Datatypes.S i)) by lia.
    destruct (IH st1 (Datatypes.S i) HI1) as (e & -> & He); [lia| |].
    - intros j mj Hj HjS Hmj. destruct (decide (j = i)) as [->|Hji]; [by destruct (Hi1 mj Hmj)|].
      intros E. destruct (lookup_lt_is_Some_2 (work_ st) j) as [mj0 Hmj0].
      { apply lookup_lt_Some in Hmj. rewrite (same_length _ _ _ _ HI HI1) in Hmj. done. }
      destruct (Hn1 j mj0 mj Hmj0 Hmj) as [_ Hx].
      destruct Hx as [_ Hx]; [intros [? _]; congruence|].
      apply (Hbelow j mj0); [lia|done|done|]. apply (Hx HjS k d); [left|done|done].
    - exists e. split; [done|]. by eapply scan_ok_trans. }
  assert (no_new_readers (k :: S) (work_ st) (work_ st)) as Hrefl
    by (by apply nnr_same; intros; simplify_eq).
  destruct (lookup_lt_is_Some_2 (work_ st) i) as [m Hm]; [lia|].
  rewrite aread_nat, Hm. cbn [mbind option_bind].
  rewrite (Blocks_wf loc_ok)
    by (done || (eapply (Forall_lookup_1 (wf_move loc_ok)), Hm; by eapply work_wf)).
  cbn [mbind option_bind]. unfold Equals. destruct (Z.eqb_spec (source_ m) d) as [E|Hne];
    [|cbn; apply Hnext; [done|done|]; intros m' Hm'; right; congruence].
  rewrite (IsPending_live loc_ok) by (done || by rewrite E). cbn [mbind option_bind].
  destruct (slot_lookup _ _ _ _ _ (sinv_slots _ _ HI) Hm) as (di & Hdi & [([Hs0 _] & _)|(_ & _ & _ & Hin & Hout)]);
    [congruence|].
  destruct (decide (i ∈ k :: S)) as [HiS|HiS].
  { rewrite (Hin HiS). cbn. apply Hnext; [done|done|]. by left. }
  rewrite (Hout HiS), (proj2 (Z.eqb_neq di 0)) by (apply loc_valid; by eapply dst_ok). cbn [negb].
  destruct (Hperf st i m HI HiS Hm E) as (st' & r & -> & HI' & Hn' & [[[->|Hnil] (m' & Hm' & Hg)]|Hask]);
    cbn [mbind option_bind].
  - apply Hnext; [done|done|]. intros m2 Hm2. right. assert (m2 = m') as -> by congruence.
    destruct Hg as [-> _]. congruence.
  - done.
  - destruct Hask as (b & n0 & mb & mn & Hb & -> & Hask). apply scan_asked; try done. by exists n0, mb, mn.
Qed.

(** *** [PerformMove] *)

Lemma swap_performed_from S k st st1 st' r :
  length (work_ st1) = length (work_ st) -> no_new_readers S (work_ st) (work_ st1) ->
  swap_performed S k st1 st' r -> swap_performed S k st st' r.
Proof. intros Hlen Hn (HI & Hn' & H). split; [done|]. split; [by eapply nnr_trans|done]. Qed.

(** From the end of the loop to the end of [PerformMove]. *)
Lemma perform_end st1 S k m d e :
  SInv st1 (k :: S) -> k ∉ S -> NoDup S -> D !! k = Some d -> work_ st1 !! k = Some m ->
  IsConstant (source_ m) = false -> scan_ok S k d st1 e ->
  exists st' r,
    match e with
    | Returned st r => Some (st, Some r)
    | Through st required_swap => finish_move st (Z.of_nat k) d required_swap
    end = Some (st', r) /\ swap_performed S k st1 st' r.
Proof.
  intros HI1 HkS HN Hd Hm Hc He.
  assert (forall st2, SInv st2 (k :: S) -> no_new_readers (k :: S) (work_ st1) (work_ st2) ->
    exists m2, work_ st2 !! k = Some m2 /\ IsConstant (source_ m2) = false) as Hk2.
  { intros st2 HI2 Hn2. destruct (in_stack_live st2 (k :: S) k d HI2) as (m2 & Hm2 & Hg2); [left|done|].
    exists m2. split; [done|]. destruct (Hn2 k m m2 Hm Hm2) as [_ H]. by destruct (H Hg2) as [-> _]. }
  destruct e as [st2 [r|]|st2 r]; cbn [scan_ok] in He.
  - destruct He as (-> & -> & HI2 & Hn2 & n & mb & mn & Hmb & H64 & Hdn & Hmn & Hgn & HnS).
    destruct (Hk2 st2 HI2 Hn2) as (m2 & Hm2 & Hc2). assert (m2 = mb) as -> by congruence.
    destruct (finish_required st2 k mb d n mn) as (st' & r & E & HP); try done.
    { intros ->. apply HnS. left. }
    exists st', r. split; [done|]. eapply swap_performed_from; [by eapply same_length| |done].
    by eapply nnr_pop.
  - destruct He as (HI2 & Hn2 & Hidle). destruct (Hk2 st2 HI2 Hn2) as (m2 & Hm2 & Hc2).
    destruct (finish_free st2 S k m2 d) as (st' & r & E & HP); try done.
    exists st', r. split; [done|]. eapply swap_performed_from; [by eapply same_length| |done].
    by eapply nnr_pop.
  - destruct He as (b & Hb & -> & HI2 & Hn2 & n & mb & mn & ?). eexists _, _. split; [done|].
    split; [done|]. split; [done|]. right. exists b, n, mb, mn. naive_solver.
Qed.

Lemma SwapPerformMove_spec fuel : forall st S k m,
  SInv st S -> NoDup S -> (forall c, c ∈ S -> (c < length D)%nat) ->
  (length D < fuel + length S)%nat -> k ∉ S -> work_ st !! k = Some m -> ~ gone m ->
  IsConstant (source_ m) = false ->
  (forall t S', S = t :: S' -> D !! t = Some (source_ m)) ->
  exists st' r, SwapPerformMove fuel st (Z.of_nat k) = Some (st', r) /\ swap_performed S k st st' r.
Proof.
  induction fuel as [|fuel IH]; intros st S k m HI HS Hb Hfuel HkS Hm Hg Hc Htop;
    destruct (slot_lookup _ _ _ _ _ (sinv_slots _ _ HI) Hm) as (d & Hd & Hslot);
    destruct (dst_ok k d Hd) as [Hdok Hdc];
    (assert (k < length D)%nat as Hk by (by eapply lookup_lt_Some));
    (assert (forall c, c ∈ k :: S -> (c < length D)%nat) as Hb' by (intros c [->|?]%elem_of_cons; auto)).
  { pose proof (stack_bound (length D) S k HS HkS Hb'). lia. }
  destruct Hslot as [(? & _)|(Hok & _ & _ & _ & Hdest)]; [done|]. specialize (Hdest HkS).
  pose proof (loc_valid d Hdok) as Hd0. pose proof (loc_valid _ Hok) as Hx0.
  cbn [SwapPerformMove]. rewrite aread_nat, Hm. cbn [mbind option_bind].
  rewrite (IsPending_live loc_ok), (IsRedundant_live loc_ok) by (done || congruence).
  rewrite Hdest, (proj2 (Z.eqb_neq d 0)) by done. cbn [negb dcheck mbind option_bind].
  unfold Equals at 1. destruct (Z.eqb_spec (source_ m) d) as [E|Hne].
  - rewrite work_put by (by eapply lookup_lt_Some). eexists _, None. split; [done|].
    split; [exact (SInv_eliminate st S k m d HI Hm Hd Hok HkS E)|]. split; [apply nnr_eliminate|].
    left. split; [by left|]. exists (Eliminate m). split; [|done].
    apply list_lookup_insert_eq. by eapply lookup_lt_Some.
  - unfold IsInvalid, IsValid, kInvalid, MarkPending.
    rewrite (proj2 (Z.eqb_neq (source_ m) 0)) by done.
    rewrite (IsPending_live loc_ok) by done. rewrite Hdest, (proj2 (Z.eqb_neq d 0)) by done.
    cbn [negb dcheck mbind option_bind].
    rewrite work_put by (by eapply lookup_lt_Some). cbn [mbind option_bind].
    set (st1 := Build_SwapResolver _ (ops_ st)).
    pose proof (SInv_mark st S k m d HI Hm Hd Hok Htop) as HI1. fold st1 in HI1.
    destruct (scan_spec (SwapPerformMove fuel) S k d HkS Hd) with
      (n := (Datatypes.S (length (work_ st1)) * Datatypes.S (length (work_ st1)))%nat) (st := st1) (i := 0%nat)
      as (e & Escan & He); try done.
    + intros st2 j mj HI2 Hj Hmj Hs. apply IH with (m := mj); try done.
      * by constructor.
      * cbn [length]. lia.
      * intros [? _]. congruence.
      * congruence.
      * intros t S' [= <- _]. by rewrite Hs.
    + rewrite (proj1 (sinv_slots _ _ HI1)). lia.
    + lia.
    + change (Z.of_nat 0) with 0 in Escan. rewrite Escan. cbn [mbind option_bind].
      destruct (perform_end st1 S k (SetDestination m NoLocation) d e) as (st' & r & -> & HP); try done.
      { apply list_lookup_insert_eq. by eapply lookup_lt_Some. }
      exists st', r. split; [done|]. apply (swap_performed_from _ _ st st1); [apply length_insert| |done].
      by apply nnr_set_destination.
Qed.

(** *** The loops of [EmitNativeCode] *)

Lemma swap_index st i :
  SInv st [] -> 0 <= i < 0 + Z.of_nat (length D) ->
  exists k m, i = Z.of_nat k /\ work_ st !! k = Some m.
Proof.
  intros HI Hi. exists (Z.to_nat i).
  destruct (lookup_lt_is_Some_2 (work_ st) (Z.to_nat i)) as [m Hm].
  { rewrite (proj1 (sinv_slots _ _ HI)). lia. }
  exists m. split; [lia|done].
Qed.

(** A call from the top level. *)
Lemma top_level_call st k m :
  SInv st [] -> work_ st !! k = Some m -> ~ gone m -> IsConstant (source_ m) = false ->
  exists st' r, SwapPerformMove (S (length (work_ st))) st (Z.of_nat k) = Some (st', r) /\
    SInv st' [] /\ (exists m', work_ st' !! k = Some m' /\ gone m') /\
    no_new_readers [] (work_ st) (work_ st').
Proof.
  intros HI Hm Hg Hc.
  destruct (SwapPerformMove_spec (S (length (work_ st))) st [] k m) as (st' & r & E & HI' & Hn & Hend); try done.
  - constructor.
  - intros c Hc'. by apply not_elem_of_nil in Hc'.
  - rewrite (proj1 (sinv_slots _ _ HI)). cbn [length]. lia.
  - apply not_elem_of_nil.
  - exists st', r. split; [done|]. split; [done|]. split; [|done].
    destruct Hend as [[_ ?]|(b & ? & ? & ? & [=] & _)]. done.
Qed.

(** Below [i], what is left of the moves reads constants. *)
Definition constants_below (i : Z) (st : SwapResolver) : Prop :=
  SInv st [] /\ forall j m, Z.of_nat j < i -> work_ st !! j = Some m ->
    gone m \/ IsConstant (source_ m) = true.

Lemma constants_below_call i st st' k :
  constants_below i st -> i = Z.of_nat k -> SInv st' [] ->
  (exists m, work_ st' !! k = Some m /\ gone m) -> no_new_readers [] (work_ st) (work_ st') ->
  constants_below (i + 1) st'.
Proof.
  intros [HI Hall] -> HI' (mk & Hmk & Hgk) Hn. split; [done|]. intros j m' Hj Hm'.
  destruct (decide (j = k)) as [->|Hne]; [left; congruence|].
  destruct (lookup_lt_is_Some_2 (work_ st) j) as [m Hm].
  { rewrite <- (same_length _ _ _ _ HI HI'). by eapply lookup_lt_Some. }
  destruct (Hn j m m' Hm Hm') as [H1 H2]. destruct (Hall j m) as [?|Hc]; [lia|done|auto|].
  destruct (live_source _ _ _ j m' (sinv_slots _ _ HI') Hm') as [?|[Hg _]]; [by left|right].
  by destruct (H2 Hg) as [-> _].
Qed.

Lemma constants_below_skip i st k m :
  constants_below i st -> i = Z.of_nat k -> work_ st !! k = Some m ->
  gone m \/ IsConstant (source_ m) = true -> constants_below (i + 1) st.
Proof.
  intros [HI Hall] -> Hm Hk. split; [done|]. intros j mj Hj Hmj.
  destruct (decide (j = k)) as [->|]; [by simplify_eq|]. apply (Hall j); [lia|done].
Qed.

Lemma perform_stack_moves_spec st :
  SInv st [] -> exists st', perform_stack_moves st = Some st' /\ SInv st' [].
Proof.
  intros HI. unfold perform_stack_moves.
  edestruct (for_loop_inv (fun _ st => SInv st []) (length (work_ st)) 0) as (st' & -> & HI');
    [done| |by exists st'].
  rewrite (proj1 (sinv_slots _ _ HI)). clear st HI. intros i st Hi HI.
  destruct (swap_index st i HI Hi) as (k & m & -> & Hm). rewrite aread_nat, Hm. cbn [mbind option_bind].
  destruct (live_source _ _ _ k m (sinv_slots _ _ HI) Hm) as [Hg|[Hg Hok]].
  { rewrite IsEliminated_gone by done. cbn. eauto. }
  rewrite (IsEliminated_live loc_ok) by done. cbn [mbind option_bind orb].
  destruct (IsConstant (source_ m)) eqn:Hc; [eauto|]. case_match; [|eauto].
  destruct (top_level_call st k m HI Hm Hg Hc) as (st' & r & -> & HI' & _). cbn. eauto.
Qed.

Lemma perform_other_moves_spec st :
  SInv st [] -> exists st', perform_other_moves st = Some st' /\
    constants_below (Z.of_nat (length D)) st'.
Proof.
  intros HI. unfold perform_other_moves. pose proof (proj1 (sinv_slots _ _ HI)) as Hlen.
  edestruct (for_loop_inv constants_below (length (work_ st)) 0) as (st' & -> & Hst');
    [split; [done|lia]| |exists st'; by rewrite Hlen in Hst'].
  rewrite Hlen. clear st HI Hlen. intros i st Hi Hb. pose proof Hb as [HI _].
  destruct (swap_index st i HI Hi) as (k & m & -> & Hm). rewrite aread_nat, Hm. cbn [mbind option_bind].
  destruct (live_source _ _ _ k m (sinv_slots _ _ HI) Hm) as [Hg|[Hg Hok]].
  { rewrite IsEliminated_gone by done. cbn. eauto using constants_below_skip. }
  rewrite (IsEliminated_live loc_ok) by done. cbn [mbind option_bind negb andb].
  destruct (IsConstant (source_ m)) eqn:Hc; cbn [negb]; [eauto using constants_below_skip|].
  destruct (top_level_call st k m HI Hm Hg Hc) as (st' & r & -> & HI' & Hg' & Hn). cbn.
  eauto using constants_below_call.
Qed.

Lemma perform_constants_spec st :
  constants_below (Z.of_nat (length D)) st ->
  exists st', perform_constants st = Some st' /\ SInv st' [] /\
    forall m, m ∈ work_ st' -> gone m.
Proof.
  intros [HI Hall]. unfold perform_constants. pose proof (proj1 (sinv_slots _ _ HI)) as Hlen.
  set (P := fun i st => constants_below (Z.of_nat (length D)) st /\
    forall j m, Z.of_nat j < i -> work_ st !! j = Some m -> gone m).
  edestruct (for_loop_inv P (length (work_ st)) 0) as (st' & -> & [HI' _] & Hg');
    [split; [done|lia]| |].
  2: { exists st'. split; [done|]. split; [done|]. intros m Hm. apply list_elem_of_lookup in Hm as (j & Hj).
    apply (Hg' j); [|done]. apply lookup_lt_Some in Hj. rewrite (proj1 (sinv_slots _ _ HI')) in Hj. lia. }
  rewrite Hlen. clear st HI Hall Hlen. intros i st Hi ([HI Hall] & Hbelow).
  destruct (swap_index st i HI Hi) as (k & m & -> & Hm). rewrite aread_nat, Hm. cbn [mbind option_bind].
  destruct (live_source _ _ _ k m (sinv_slots _ _ HI) Hm) as [Hg|[Hg Hok]].
  { rewrite IsEliminated_gone by done. cbn. exists st. split; [done|]. split; [done|].
    intros j mj Hj Hmj. destruct (decide (j = k)) as [->|]; [by simplify_eq|]. apply (Hbelow j); [lia|done]. }
  rewrite (IsEliminated_live loc_ok) by done. cbn [mbind option_bind negb].
  destruct (Hall k m) as [?|Hc]; [lia|done|done|]. rewrite Hc. cbn [dcheck mbind option_bind].
  destruct (slot_lookup _ _ _ _ _ (sinv_slots _ _ HI) Hm) as (d & Hd & [(? & _)|(_ & _ & _ & _ & Hout)]); [done|].
  specialize (Hout (not_elem_of_nil k)). destruct (dst_ok k d Hd) as [Hdok Hdc].
  unfold emit_move. rewrite aread_nat, Hm. cbn [mbind option_bind].
  rewrite work_put by (by eapply lookup_lt_Some). eexists. split; [done|]. rewrite Hout.
  split; [split|].
  - apply (SInv_emit st [] k m d HI Hm Hd Hok (not_elem_of_nil k)). apply reads_false. intros m' Hm' E.
    apply list_elem_of_lookup in Hm' as (j & Hj). pose proof (loc_valid d Hdok).
    destruct (Hall j m') as [[? _]|Hc']; [|done|congruence|congruence].
    apply lookup_lt_Some in Hj. rewrite (proj1 (sinv_slots _ _ HI)) in Hj. lia.
  - intros j mj Hj Hmj. cbn [work_] in Hmj.
    apply list_lookup_insert_Some in Hmj as [(<- & <- & _)|(_ & Hmj)]; [by left|by apply (Hall j)].
  - intros j mj Hj Hmj. cbn [work_] in Hmj.
    apply list_lookup_insert_Some in Hmj as [(<- & <- & _)|(Hne & Hmj)]; [done|]. apply (Hbelow j); [lia|done].
Qed.

(** The whole run. *)
Lemma run_swaps st :
  SInv st [] ->
  exists st',
    (st ← perform_stack_moves st; st ← perform_other_moves st; perform_constants st) = Some st' /\
    (forall k d w, D !! k = Some d -> W !! k = Some w -> agree w (now st' d) (want d)) /\
    (forall l, untouched_by l -> now st' l = s0 l).
Proof.
  intros HI. destruct (perform_stack_moves_spec st HI) as (st1 & -> & HI1). cbn [mbind option_bind].
  destruct (perform_other_moves_spec st1 HI1) as (st2 & -> & HI2). cbn [mbind option_bind].
  destruct (perform_constants_spec st2 HI2) as (st3 & -> & HI3 & Hall).
  exists st3. split; [done|]. split; [|apply (sinv_frame _ _ HI3)]. intros k d w Hd Hw.
  rewrite <- (sinv_types _ _ HI3), list_lookup_fmap in Hw. apply fmap_Some in Hw as (m & Hm & ->).
  destruct (proj2 (sinv_slots _ _ HI3) k m d Hm Hd) as [(_ & _ & ?)|(Hok & _)]; [done|].
  destruct (gone_live loc_ok loc_valid m); [|done]. apply Hall. by eapply list_elem_of_lookup_2.
Qed.

End Correct.

(** ** Parallel moves of operands *)

(** A location holds a value of one width, and a 64-bit value is not in a 32-bit
    stack slot. *)
Record widths_ok (pm : list (place * place * DataType)) : Prop := {
  wide_operands : forall p q t, (p, q, t) ∈ pm -> Is64BitType t = true ->
    holds64 (word_of p) = true /\ holds64 (word_of q) = true;
  same_width : forall p q t q' t', (p, q, t) ∈ pm -> (p, q', t') ∈ pm ->
    IsConstant (word_of p) = false -> Is64BitType t = Is64BitType t';
}.

Lemma single_halves p :
  single_place p = true ->
  exists lo hi, LowOf (word_of p) = Some lo /\ HighOf (word_of p) = Some hi /\
    lo <> word_of p /\ hi <> word_of p.
Proof.
  intros Hp. pose proof (single_ok p Hp) as Hok. destruct (word_of_is_u p Hok) as [_ Hnz].
  unfold LowOf, HighOf, IsRegisterPair, IsFpuRegisterPair, IsDoubleStackSlot.
  rewrite !(GetKind_word p Hok). apply andb_prop in Hp as [_ Hp].
  destruct p; try done; cbn [kind_of word_of place_ok operand] in *;
    cbn [Z.eqb Pos.eqb kRegisterPair kFpuRegisterPair kDoubleStackSlot kConstant kStackSlot
         kSIMDStackSlot kRegister kFpuRegister];
    try (exists NoLocation, NoLocation; by split_and!; try apply not_eq_sym).
  apply andb_prop in Hp as [_ Hp]. apply Z.ltb_lt in Hp.
  rewrite GetStackIndex_eq, GetHighStackIndex_eq by lia. cbn [mbind option_bind].
  rewrite (encode_eq (PStackSlot index) Hok : StackSlot index = _).
  assert (place_ok (PStackSlot (index + 4))) as Hok4 by (cbn [place_ok]; lia).
  rewrite (encode_eq (PStackSlot (index + 4)) Hok4 : StackSlot (index + 4) = _).
  cbn [word_of]. eexists _, _. split_and!; [done|done|lia|lia].
Qed.

Section Run.
Context (pm : list (place * place * DataType)).
Context (Hpm : parallel_ok pm [] []) (Hw : widths_ok pm).

Lemma in_play_halves a :
  in_play pm [] [] a -> exists lo hi, LowOf a = Some lo /\ HighOf a = Some hi /\ lo <> a /\ hi <> a.
Proof. intros (p & -> & _ & Hp)%(in_play_ok pm [] [] Hpm). by apply single_halves. Qed.

Section Values.
Context {V : Type} (clobber : (Location -> V * V) -> op -> Location -> V * V).
Context (s : Location -> V * V).

Lemma swap_start_inv :
  SInv clobber (in_play pm [] []) (targets pm) (map (fun mv => Is64BitType mv.2) (work pm))
    (wanted pm s) s (Build_SwapResolver (map build_move (work pm)) []) [].
Proof.
  split; cbn [work_].
  - split; [unfold targets; by rewrite !length_map|]. intros k m d Hm Hd.
    unfold targets in Hd. rewrite list_lookup_fmap, Hm in Hd. injection Hd as <-.
    rewrite list_lookup_fmap in Hm. apply fmap_Some in Hm as (mv & Hmv & ->).
    apply list_elem_of_lookup_2 in Hmv. pose proof (proj1 (proj1 (work_in pm mv) Hmv)) as Hin.
    right. cbn [build_move source_ destination_].
    split; [by apply (all_ok pm [] [] Hpm), source_in|].
    split; [by rewrite (wanted_spec pm [] [] Hpm)|].
    split; [|split; [intros H; by apply not_elem_of_nil in H|done]].
    destruct mv as [[p q] t]. by apply (wide_operands _ Hw).
  - intros m m' Hm Hm' _ Hc E. apply list_elem_of_In, in_map_iff in Hm as ([[p q] t] & <- & Hmv).
    apply list_elem_of_In, in_map_iff in Hm' as ([[p' q'] t'] & <- & Hmv').
    apply list_elem_of_In, work_in in Hmv as [Hmv _]. apply list_elem_of_In, work_in in Hmv' as [Hmv' _].
    cbn in E, Hc |- *. apply word_of_inj in E; cycle 1.
    { by apply (all_ok pm [] [] Hpm), (source_in pm [] [] _ Hmv). }
    { by apply (all_ok pm [] [] Hpm), (source_in pm [] [] _ Hmv'). }
    subst p'. by eapply (same_width _ Hw).
  - by rewrite map_map.
  - done.
  - done.
Qed.

Lemma SwapEmitNativeCode_run :
  exists code,
    SwapEmitNativeCode (Build_SwapResolver [] []) (map build_move pm) =
      Some (Build_SwapResolver [] code) /\
    (forall p q t, (p, q, t) ∈ work pm ->
       agree (Is64BitType t) (exec_ops clobber code s (word_of q)) (s (word_of p))) /\
    (forall l, untouched (targets pm) [] [] l -> exec_ops clobber code s l = s l).
Proof.
  destruct (run_swaps clobber (in_play pm [] []) (in_play_exact pm [] [] Hpm) (in_play_valid pm [] [] Hpm)
    in_play_halves (targets pm) (map (fun mv => Is64BitType mv.2) (work pm)) (wanted pm s) s
    (targets_nodup pm [] [] Hpm) (targets_ok pm [] [] Hpm) _ swap_start_inv) as (st & E & Hval & Hframe).
  exists (ops_ st). split; [|split].
  - unfold SwapEmitNativeCode. cbn [work_ length Z.of_nat Z.eqb dcheck mbind option_bind].
    rewrite (BuildInitialMoveList_spec pm [] [] Hpm). cbn [mbind option_bind app ops_].
    cbn [mbind option_bind] in E.
    destruct (perform_stack_moves _) as [st1|]; [|done]. cbn [mbind option_bind] in E |- *.
    destruct (perform_other_moves st1) as [st2|]; [|done]. cbn [mbind option_bind] in E |- *.
    by rewrite E.
  - intros p q t Hin. pose proof (wanted_spec pm [] [] Hpm s _ Hin) as E1. cbn in E1. rewrite <- E1.
    apply list_elem_of_lookup in Hin as (k & Hk). apply (Hval k).
    + unfold targets. by rewrite !list_lookup_fmap, Hk.
    + by rewrite list_lookup_fmap, Hk.
  - intros l Hl. apply Hframe. intros t Ht. apply Hl. by left.
Qed.

End Values.
End Run.

(** ** Properties *)

(** C14: the resolver with swaps realises the parallel assignment.  Given a
    parallel move without register pairs whose operands overlap only when they
    are equal and whose destinations are pairwise different, [EmitNativeCode]
    returns with no debug check failing and an empty work list, and the moves and
    swaps it emits put in every destination the value its source had at the
    start - both halves of it for a 64-bit move, although swaps through 32-bit
    stack slots lose high halves - and change nothing else. *)
Theorem swap_move_correct (pm : list (place * place * DataType))
    (Hpm : parallel_ok pm [] []) (Hw : widths_ok pm) :
  exists code,
    SwapEmitNativeCode (Build_SwapResolver [] []) (map build_move pm) =
      Some (Build_SwapResolver [] code) /\
    forall (V : Type) (clobber : (Location -> V * V) -> op -> Location -> V * V)
           (s : Location -> V * V),
      (forall p q t, (p, q, t) ∈ pm ->
         agree (Is64BitType t) (exec_ops clobber code s (word_of q)) (s (word_of p))) /\
      (forall q, single_place q = true ->
         (forall t, t ∈ dest_places pm -> ~ shares_storage q t) ->
         exec_ops clobber code s (word_of q) = s (word_of q)).
Proof.
  destruct (SwapEmitNativeCode_run pm Hpm Hw (fun _ _ _ => (tt, tt)) (fun _ => (tt, tt)))
    as (code & E & _). exists code. split; [done|]. intros V clobber s.
  destruct (SwapEmitNativeCode_run pm Hpm Hw clobber s) as (code' & E' & Hval & Hframe).
  assert (code' = code) as -> by congruence. split.
  - intros p q t Hin. destruct (decide (p = q)) as [->|Hne]; [|by apply Hval, work_in].
    rewrite Hframe; [done|]. apply separate_untouched; [done| |intros t' Ht; by eapply redundant_alone].
    by apply (all_single _ _ _ Hpm), (dest_in pm [] [] (q, q, t)).
  - intros q Hq Ht. apply Hframe, separate_untouched; [done..|]. intros t Hin. apply Ht.
    apply elem_of_app in Hin as [Hin|Hin]; [|by apply not_elem_of_nil in Hin].
    apply list_elem_of_fmap in Hin as (mv & -> & Hmv).
    apply (list_elem_of_fmap_2 (fun mv => mv.1.2)). by apply work_in in Hmv as [? _].
Qed.

(** A 64-bit register move in a cycle with a 32-bit stack slot, and a constant. *)
Definition mixed_cycle : list (place * place * DataType) :=
  [(PRegister 0, PRegister 1, kInt64); (PRegister 1, PStackSlot 48, kInt32);
   (PStackSlot 48, PRegister 0, kInt32); (PConstant 4096, PRegister 2, kInt64)].

Lemma swap_move_correct_witness :
  exists code,
    SwapEmitNativeCode (Build_SwapResolver [] []) (map build_move mixed_cycle) =
      Some (Build_SwapResolver [] code) /\
    forall (V : Type) (clobber : (Location -> V * V) -> op -> Location -> V * V)
           (s : Location -> V * V),
      (forall p q t, (p, q, t) ∈ mixed_cycle ->
         agree (Is64BitType t) (exec_ops clobber code s (word_of q)) (s (word_of p))) /\
      (forall q, single_place q = true ->
         (forall t, t ∈ dest_places mixed_cycle -> ~ shares_storage q t) ->
         exec_ops clobber code s (word_of q) = s (word_of q)).
Proof.
  apply (swap_move_correct mixed_cycle); split.
  - apply Forall_forall. apply (bool_decide_unpack _). vm_compute. exact I.
  - intros p q. apply separate_places_ok. vm_compute. reflexivity.
  - apply (bool_decide_unpack _). vm_compute. exact I.
  - intros c. cbn. set_solver.
  - apply Forall_forall. apply (bool_decide_unpack _). vm_compute. exact I.
  - intros p q t Hin. unfold mixed_cycle in Hin.
    repeat (apply elem_of_cons in Hin as [[= -> -> ->]|Hin]; [by vm_compute|]).
    by apply not_elem_of_nil in Hin.
  - intros p q t q' t' Hin Hin' _. unfold mixed_cycle in Hin, Hin'. set_unfold.
    by destruct_or! Hin; destruct_or! Hin'; simplify_eq.
Defined.

Lemma find_scratch_register_spec n st blocked r0 :
  match find_scratch_register n st blocked r0 with
  | Some r =>
      (r0 <= r < r0 + Z.of_nat n /\ r <> blocked /\
       exists l, RegisterLocation r = Some l /\ IsScratchLocation st l = Some true) \/
      (r = -1 /\ forall r', r0 <= r' < r0 + Z.of_nat n -> r' <> blocked ->
         exists l, RegisterLocation r' = Some l /\ IsScratchLocation st l = Some false)
  | None => True
  end.
Proof.
  revert r0. induction n as [|n IH]; intros r0; cbn [find_scratch_register]; [right; split; [done|lia]|].
  assert (forall ok : option bool,
    (ok = Some false -> r0 <> blocked ->
       exists l, RegisterLocation r0 = Some l /\ IsScratchLocation st l = Some false) ->
    (ok = Some true -> r0 <> blocked /\
       exists l, RegisterLocation r0 = Some l /\ IsScratchLocation st l = Some true) ->
    match (ok ← ok; if (ok : bool) then Some r0 else find_scratch_register n st blocked (r0 + 1)) with
    | Some r =>
        (r0 <= r < r0 + Z.of_nat (S n) /\ r <> blocked /\
         exists l, RegisterLocation r = Some l /\ IsScratchLocation st l = Some true) \/
        (r = -1 /\ forall r', r0 <= r' < r0 + Z.of_nat (S n) -> r' <> blocked ->
           exists l, RegisterLocation r' = Some l /\ IsScratchLocation st l = Some false)
    | None => True
    end) as Hstep.
  { intros [[|]|] Hf Ht; cbn [mbind option_bind]; [|specialize (IH (r0 + 1))|done].
    - left. destruct (Ht eq_refl). split; [lia|done].
    - destruct (find_scratch_register n st blocked (r0 + 1)) as [r|]; [|done].
      destruct IH as [(? & ?)|[-> Hall]]; [left; split; [lia|done]|right]. split; [done|].
      intros r' Hr' Hne. destruct (decide (r' = r0)) as [->|]; [by apply Hf|apply Hall; [lia|done]]. }
  apply Hstep; destruct (Z.eqb_spec blocked r0); cbn [negb]; try done.
  - destruct (RegisterLocation r0) as [l|]; cbn [mbind option_bind]; [|done]. eauto.
  - destruct (RegisterLocation r0) as [l|]; cbn [mbind option_bind]; [|done].
    intros E. split; [congruence|eauto].
Qed.

(** A scratch register that need not be spilled is free.  When
    [AllocateScratchRegister] answers without asking for a spill, the register is
    one of the first [register_count], not the blocked one, no outstanding move
    reads it and one will overwrite it; it asks for a spill of the given register
    only when there is no such register. *)
Theorem scratch_register_free (st : SwapResolver) (blocked register_count if_scratch : Z) :
  match AllocateScratchRegister st blocked register_count if_scratch with
  | Some (r, false) =>
      0 <= r < register_count /\ r <> blocked /\
      exists l, RegisterLocation r = Some l /\ any_blocks (work_ st) l = Some false /\
        exists m, m ∈ work_ st /\ destination_ m = l
  | Some (r, true) =>
      r = if_scratch /\ r <> blocked /\
      forall r', 0 <= r' < register_count -> r' <> blocked ->
        exists l, RegisterLocation r' = Some l /\
          (any_blocks (work_ st) l = Some true \/ forall m, m ∈ work_ st -> destination_ m <> l)
  | None => True
  end.
Proof.
  unfold AllocateScratchRegister. destruct (Z.eqb_spec blocked if_scratch) as [|Hne]; [done|].
  cbn [negb dcheck mbind option_bind].
  pose proof (find_scratch_register_spec (Z.to_nat register_count) st blocked 0) as H.
  destruct (find_scratch_register _ st blocked 0) as [r|]; cbn [mbind option_bind]; [|done].
  assert (forall l, any_destination (work_ st) l = true <-> exists m, m ∈ work_ st /\ destination_ m = l) as Hany.
  { intros l. induction (work_ st) as [|m ms IH]; cbn [any_destination].
    - split; [done|]. intros (m & Hm & _). by apply not_elem_of_nil in Hm.
    - unfold Equals. destruct (Z.eqb_spec (destination_ m) l) as [E|E].
      + split; [|done]. intros _. exists m. split; [left|done].
      + rewrite IH. split; intros (m' & Hm' & E'); exists m'; [split; [by right|done]|].
        apply elem_of_cons in Hm' as [->|?]; done. }
  destruct H as [(Hr & Hb & l & El & Hs)|[-> Hall]].
  - rewrite (proj2 (Z.eqb_neq r (-1))) by lia. split; [lia|]. split; [done|]. exists l. split; [done|].
    unfold IsScratchLocation in Hs. destruct (any_blocks (work_ st) l) as [[|]|]; [done| |done].
    split; [done|]. apply Hany. by injection Hs.
  - cbn [Z.eqb Pos.eqb]. split; [done|]. split; [done|]. intros r' Hr' Hb.
    destruct (Hall r') as (l & El & Hs); [lia|done|]. exists l. split; [done|].
    unfold IsScratchLocation in Hs. destruct (any_blocks (work_ st) l) as [[|]|]; [by left|right|done].
    intros m Hm E. injection Hs as Hs. rewrite (proj2 (Hany l)) in Hs; [done|eauto].
Qed.
