(* ===== verification/LockWord.v ===== *)
(** * Lock words ([runtime/lock_word.h], [lock_word-inl.h])

    The 32-bit word every object carries: the state of its lock, its identity
    hash code or, while a collector moves it, its new address, together with
    two bits of the garbage collector.  [view] is what a word says and [encode]
    the word that says it; the lemmas compute every operation on encoded words,
    and are what the monitors use. *)

From Stdlib Require Import ZArith Lia Bool.
From stdpp Require Import base numbers option.
From S2P Require Import Prelude.

Local Open Scope Z_scope.
Local Open Scope art_scope.

#[local] Ltac Zify.zify_post_hook ::= Z.to_euclidean_division_equations.

(** ** Sizes, shifts and masks *)

Definition kStateSize : Z := 2.
Definition kReadBarrierStateSize : Z := 1.
Definition kMarkBitStateSize : Z := 1.
Definition kThinLockOwnerSize : Z := 16.
Definition kThinLockCountSize : Z :=
  32 - kThinLockOwnerSize - kStateSize - kReadBarrierStateSize - kMarkBitStateSize.

Definition kThinLockOwnerShift : Z := 0.
Definition kThinLockOwnerMask : Z := Z.shiftl 1 kThinLockOwnerSize - 1.
Definition kThinLockMaxOwner : Z := kThinLockOwnerMask.
Definition kThinLockCountShift : Z := kThinLockOwnerSize + kThinLockOwnerShift.
Definition kThinLockCountMask : Z := Z.shiftl 1 kThinLockCountSize - 1.
Definition kThinLockMaxCount : Z := kThinLockCountMask.

Definition kStateShift : Z :=
  kReadBarrierStateSize + kThinLockCountSize + kThinLockCountShift + kMarkBitStateSize.
Definition kStateMask : Z := Z.shiftl 1 kStateSize - 1.
Definition kStateThinOrUnlocked : Z := 0.
Definition kStateFat : Z := 1.
Definition kStateHash : Z := 2.
Definition kStateForwardingAddress : Z := 3.
Definition kStateForwardingAddressShifted : Z := Z.shiftl kStateForwardingAddress kStateShift.

Definition kReadBarrierStateShift : Z := kThinLockCountSize + kThinLockCountShift.
Definition kReadBarrierStateMask : Z := Z.shiftl 1 kReadBarrierStateSize - 1.
Definition kReadBarrierStateMaskShifted : Z := Z.shiftl kReadBarrierStateMask kReadBarrierStateShift.

Definition kMarkBitStateShift : Z := kReadBarrierStateSize + kReadBarrierStateShift.
Definition kMarkBitStateMask : Z := Z.shiftl 1 kMarkBitStateSize - 1.
Definition kMarkBitStateMaskShifted : Z := Z.shiftl kMarkBitStateMask kMarkBitStateShift.
Definition kMarkBitStateMaskShiftedToggled : Z := u32 (Z.lnot kMarkBitStateMaskShifted).

Definition kGCStateShift : Z := kReadBarrierStateShift.
Definition kGCStateMaskShifted : Z := Z.lor kReadBarrierStateMaskShifted kMarkBitStateMaskShifted.
Definition kGCStateMaskShiftedToggled : Z := u32 (Z.lnot kGCStateMaskShifted).

Definition kHashShift : Z := 0.
Definition kHashSize : Z := 32 - kStateSize - kReadBarrierStateSize - kMarkBitStateSize.
Definition kHashMask : Z := Z.shiftl 1 kHashSize - 1.
Definition kMaxHash : Z := kHashMask.

Definition kObjectAlignmentShift : Z := 3.
Definition kForwardingAddressShift : Z := kObjectAlignmentShift.

Definition kMonitorIdShift : Z := kHashShift.
Definition kMonitorIdMask : Z := kHashMask.
Definition kMaxMonitorId : Z := kMaxHash.

Definition NonGrayState : Z := 0.
Definition GrayState : Z := 1.

Inductive LockState :=
  | kUnlocked
  | kThinLocked
  | kFatLocked
  | kHashCode
  | kForwardingAddress.

#[global] Instance LockState_eq_dec : EqDecision LockState.
Proof. solve_decision. Defined.

(** Which collector the runtime was started with. *)
Record gc_config := {
  gUseReadBarrier : bool;
  gUseUserfaultfd : bool;
}.

(** ** Operations *)

Definition ReadBarrierState (value_ : Z) : Z :=
  Z.land (Z.shiftr value_ kReadBarrierStateShift) kReadBarrierStateMask.

Definition GCState (value_ : Z) : Z :=
  Z.shiftr (Z.land value_ kGCStateMaskShifted) kGCStateShift.

Definition MarkBitState (value_ : Z) : Z :=
  Z.land (Z.shiftr value_ kMarkBitStateShift) kMarkBitStateMask.

Section operations.

Context (cf : gc_config).

Definition CheckReadBarrierState (value_ : Z) : option unit :=
  if negb (Z.land (Z.shiftr value_ kStateShift) kStateMask =? kStateForwardingAddress) then
    let rb_state := ReadBarrierState value_ in
    if negb (gUseReadBarrier cf) then dcheck (rb_state =? 0)
    else dcheck ((rb_state =? NonGrayState) || (rb_state =? GrayState))
  else Some tt.

(** The constructor from a value. *)
Definition mk_LockWord (val : Z) : option Z :=
  _ ← CheckReadBarrierState (u32 val); Some (u32 val).

Definition GetState (value_ : Z) : option LockState :=
  _ ← CheckReadBarrierState value_;
  let unlocked :=
    if gUseReadBarrier cf || gUseUserfaultfd cf
    then Z.land value_ kGCStateMaskShiftedToggled =? 0
    else value_ =? 0 in
  if unlocked then Some kUnlocked
  else
    let internal_state := Z.land (Z.shiftr value_ kStateShift) kStateMask in
    if internal_state =? kStateThinOrUnlocked then Some kThinLocked
    else if internal_state =? kStateHash then Some kHashCode
    else if internal_state =? kStateForwardingAddress then Some kForwardingAddress
    else DCHECK internal_state =? kStateFat; Some kFatLocked.

(** [DCHECK_EQ(GetState(), state)]. *)
Definition check_state (value_ : Z) (state : LockState) : option unit :=
  s ← GetState value_; dcheck (bool_decide (s = state)).

Definition FromThinLockId (thread_id count gc_state : Z) : option Z :=
  DCHECK thread_id <=? kThinLockMaxOwner;
  DCHECK count <=? kThinLockMaxCount;
  mk_LockWord (Z.lor (Z.lor (Z.lor (Z.shiftl thread_id kThinLockOwnerShift)
                                   (Z.shiftl count kThinLockCountShift))
                            (Z.shiftl gc_state kGCStateShift))
                     (Z.shiftl kStateThinOrUnlocked kStateShift)).

Definition FromForwardingAddress (target : Z) : option Z :=
  DCHECK target mod Z.shiftl 1 kStateSize =? 0;
  mk_LockWord (Z.lor (Z.shiftr target kForwardingAddressShift) kStateForwardingAddressShifted).

Definition FromHashCode (hash_code gc_state : Z) : option Z :=
  DCHECK hash_code <=? kMaxHash;
  mk_LockWord (Z.lor (Z.lor (Z.shiftl hash_code kHashShift) (Z.shiftl gc_state kGCStateShift))
                     (Z.shiftl kStateHash kStateShift)).

Definition FromDefault (gc_state : Z) : option Z :=
  mk_LockWord (Z.shiftl gc_state kGCStateShift).

(** [LockWord()], which [Default] returns. *)
Definition Default : option Z := _ ← check_state 0 kUnlocked; Some 0.

Definition GetValue (value_ : Z) : option Z := _ ← CheckReadBarrierState value_; Some value_.

Definition GetValueWithoutGCState (value_ : Z) : option Z :=
  _ ← CheckReadBarrierState value_; Some (Z.land value_ kGCStateMaskShiftedToggled).

Definition IsDefault (lw : Z) : option bool :=
  d ← Default; d ← GetValue d; v ← GetValue lw; Some (d =? v).

Definition Equal (kIncludeReadBarrierState : bool) (lw1 lw2 : Z) : option bool :=
  if kIncludeReadBarrierState then v1 ← GetValue lw1; v2 ← GetValue lw2; Some (v1 =? v2)
  else v1 ← GetValueWithoutGCState lw1; v2 ← GetValueWithoutGCState lw2; Some (v1 =? v2).

Definition ThinLockOwner (value_ : Z) : option Z :=
  _ ← check_state value_ kThinLocked;
  _ ← CheckReadBarrierState value_;
  Some (Z.land (Z.shiftr value_ kThinLockOwnerShift) kThinLockOwnerMask).

Definition ThinLockCount (value_ : Z) : option Z :=
  _ ← check_state value_ kThinLocked;
  _ ← CheckReadBarrierState value_;
  Some (Z.land (Z.shiftr value_ kThinLockCountShift) kThinLockCountMask).

(** The monitor is named by its id: [MonitorPool] maps ids to monitors. *)
Definition FatLockMonitor (value_ : Z) : option Z :=
  _ ← check_state value_ kFatLocked;
  _ ← CheckReadBarrierState value_;
  Some (Z.land (Z.shiftr value_ kMonitorIdShift) kMonitorIdMask).

(** [LockWord(Monitor* mon, uint32_t gc_state)]. *)
Definition from_monitor (mon_id gc_state : Z) : option Z :=
  let value_ := u32 (Z.lor (Z.lor mon_id (Z.shiftl gc_state kGCStateShift)) (Z.shiftl kStateFat kStateShift)) in
  mon ← FatLockMonitor value_;
  DCHECK mon =? mon_id;
  DCHECK mon_id <=? kMaxMonitorId;
  _ ← CheckReadBarrierState value_;
  Some value_.

(** The shift is one of [uint32_t]. *)
Definition ForwardingAddress (value_ : Z) : option Z :=
  _ ← check_state value_ kForwardingAddress;
  Some (u32 (Z.shiftl value_ kForwardingAddressShift)).

Definition GetHashCode (value_ : Z) : option Z :=
  _ ← check_state value_ kHashCode;
  _ ← CheckReadBarrierState value_;
  Some (Z.land (Z.shiftr value_ kHashShift) kHashMask).

Definition SetReadBarrierState (value_ rb_state : Z) : option Z :=
  DCHECK Z.land rb_state (u32 (Z.lnot kReadBarrierStateMask)) =? 0;
  DCHECK (rb_state =? NonGrayState) || (rb_state =? GrayState);
  state ← GetState value_;
  DCHECK negb (bool_decide (state = kForwardingAddress));
  let value_ := Z.land value_ (u32 (Z.lnot (Z.shiftl kReadBarrierStateMask kReadBarrierStateShift))) in
  Some (Z.lor value_ (Z.shiftl (Z.land rb_state kReadBarrierStateMask) kReadBarrierStateShift)).

Definition SetMarkBitState (value_ mark_bit : Z) : option Z :=
  DCHECK Z.land mark_bit (u32 (Z.lnot kMarkBitStateMask)) =? 0;
  state ← GetState value_;
  DCHECK negb (bool_decide (state = kForwardingAddress));
  let value_ := Z.land value_ kMarkBitStateMaskShiftedToggled in
  Some (Z.lor value_ (Z.shiftl mark_bit kMarkBitStateShift)).

End operations.

(** ** What a word says *)

Inductive view :=
  | Unlocked
  | Thin (owner count : Z)
  | Fat (mon_id : Z)
  | Hash (hash_code : Z)
  | Forward (target : Z).

#[global] Instance view_eq_dec : EqDecision view.
Proof. solve_decision. Defined.

(** The layout of the comment on the class. *)
Definition encode (v : view) (gc : Z) : Z :=
  match v with
  | Unlocked => gc * 2 ^ 28
  | Thin o c => o + c * 2 ^ 16 + gc * 2 ^ 28
  | Fat m => m + gc * 2 ^ 28 + 1 * 2 ^ 30
  | Hash h => h + gc * 2 ^ 28 + 2 * 2 ^ 30
  | Forward a => a / 8 + 3 * 2 ^ 30
  end.

(** A held thin lock has an owner: thread ids start at 1. *)
Definition view_ok (v : view) : Prop :=
  match v with
  | Unlocked => True
  | Thin o c => 1 <= o < 2 ^ 16 /\ 0 <= c < 2 ^ 12
  | Fat m => is_u 28 m
  | Hash h => is_u 28 h
  | Forward a => is_u 32 a /\ a mod 8 = 0
  end.

(** The read barrier bit is the low bit of the state of the collector; without
    a collector that uses them both bits are zero. *)
Definition gc_ok (cf : gc_config) (gc : Z) : Prop :=
  if gUseReadBarrier cf then is_u 2 gc
  else if gUseUserfaultfd cf then gc = 0 \/ gc = 2 else gc = 0.

Definition state_of (v : view) : LockState :=
  match v with
  | Unlocked => kUnlocked
  | Thin _ _ => kThinLocked
  | Fat _ => kFatLocked
  | Hash _ => kHashCode
  | Forward _ => kForwardingAddress
  end.

(** ** The operations on encoded words *)

Lemma state_bits w : Z.land (Z.shiftr w kStateShift) kStateMask = (w / 2 ^ 30) mod 4.
Proof. rewrite Z.shiftr_div_pow2 by done. apply (Z.land_ones _ 2). lia. Qed.

Lemma read_barrier_bits w : ReadBarrierState w = (w / 2 ^ 28) mod 2.
Proof. unfold ReadBarrierState. rewrite Z.shiftr_div_pow2 by done. apply (Z.land_ones _ 1). lia. Qed.

Lemma mark_bits w : MarkBitState w = (w / 2 ^ 29) mod 2.
Proof. unfold MarkBitState. rewrite Z.shiftr_div_pow2 by done. apply (Z.land_ones _ 1). lia. Qed.

Lemma low_bits w n : 0 <= n -> Z.land (Z.shiftr w 0) (Z.ones n) = w mod 2 ^ n.
Proof. intros. rewrite Z.shiftr_0_r. by apply Z.land_ones. Qed.

(** The bits of a word from [a] on, [n] of them. *)
Lemma land_field w a n : 0 <= a -> 0 <= n -> Z.land w (Z.shiftl (Z.ones n) a) = (w / 2 ^ a) mod 2 ^ n * 2 ^ a.
Proof.
  intros Ha Hn. rewrite <- Z.shiftr_div_pow2, <- Z.land_ones, <- Z.shiftl_mul_pow2 by lia. bits.
Qed.

Lemma land_lnot_field w a n : 0 <= a -> 0 <= n -> a + n <= 32 -> is_u 32 w ->
  Z.land w (u32 (Z.lnot (Z.shiftl (Z.ones n) a))) = w - (w / 2 ^ a) mod 2 ^ n * 2 ^ a.
Proof.
  intros Ha Hn Hs Hw. rewrite <- land_field by lia. set (m := Z.shiftl (Z.ones n) a).
  enough (Z.land w (u32 (Z.lnot m)) + Z.land w m = w) by lia.
  rewrite Z.add_nocarry_lxor, Z.lxor_lor.
  - subst m. bits.
  - subst m. bits.
  - subst m. bits.
Qed.

(** Replacing a field. *)
Lemma set_field w a n x : 0 <= a -> 0 <= n -> a + n <= 32 -> is_u 32 w -> is_u n x ->
  Z.lor (Z.land w (u32 (Z.lnot (Z.shiftl (Z.ones n) a)))) (Z.shiftl x a) =
  w + (x - (w / 2 ^ a) mod 2 ^ n) * 2 ^ a.
Proof.
  intros Ha Hn Hs Hw Hx. set (b := Z.land w _).
  assert (Hb : Z.land b (Z.shiftl x a) = 0) by (subst b; bits).
  rewrite <- Z.lxor_lor, <- Z.add_nocarry_lxor by done. subst b.
  rewrite land_lnot_field, Z.shiftl_mul_pow2 by done. lia.
Qed.

Lemma gc_bits w : GCState w = (w / 2 ^ 28) mod 4.
Proof.
  unfold GCState. replace kGCStateMaskShifted with (Z.shiftl (Z.ones 2) 28) by reflexivity.
  rewrite land_field, Z.shiftr_div_pow2 by done. rewrite Z.div_mul; [done|]. done.
Qed.

Lemma toggled_bits w : is_u 32 w ->
  Z.land w kGCStateMaskShiftedToggled = w - (w / 2 ^ 28) mod 4 * 2 ^ 28.
Proof.
  intros. replace kGCStateMaskShiftedToggled with (u32 (Z.lnot (Z.shiftl (Z.ones 2) 28))) by reflexivity.
  by rewrite land_lnot_field.
Qed.

Section encoded.

Context (cf : gc_config).

Lemma gc_ok_range gc : gc_ok cf gc -> 0 <= gc < 4.
Proof. unfold gc_ok, is_u. destruct (gUseReadBarrier cf), (gUseUserfaultfd cf); lia. Qed.

Lemma encode_range v gc : view_ok v -> gc_ok cf gc -> is_u 32 (encode v gc).
Proof. intros Hv Hg%gc_ok_range. unfold is_u. destruct v; simpl in *; unfold is_u in *; lia. Qed.

(** The fields of an encoded word, by division. *)
Lemma encode_state v gc : view_ok v -> gc_ok cf gc ->
  (encode v gc / 2 ^ 30) mod 4 =
    match v with Unlocked | Thin _ _ => 0 | Fat _ => 1 | Hash _ => 2 | Forward _ => 3 end.
Proof. intros Hv Hg%gc_ok_range. destruct v; simpl in *; unfold is_u in *; lia. Qed.

Lemma encode_gc v gc : view_ok v -> gc_ok cf gc -> state_of v <> kForwardingAddress ->
  (encode v gc / 2 ^ 28) mod 4 = gc.
Proof. intros Hv Hg%gc_ok_range Hf. destruct v; simpl in *; unfold is_u in *; try done; lia. Qed.

Lemma check_encode v gc : view_ok v -> gc_ok cf gc -> CheckReadBarrierState cf (encode v gc) = Some tt.
Proof.
  intros Hv Hg. unfold CheckReadBarrierState. rewrite state_bits, encode_state by done.
  destruct (decide (state_of v = kForwardingAddress)) as [Hf|Hf]; [by destruct v|].
  assert (Hb : ReadBarrierState (encode v gc) = gc mod 2).
  { rewrite read_barrier_bits. rewrite <- (encode_gc v gc) at 2 by done. lia. }
  rewrite Hb.
  assert (Hc : (if negb (gUseReadBarrier cf) then dcheck (gc mod 2 =? 0)
                else dcheck ((gc mod 2 =? NonGrayState) || (gc mod 2 =? GrayState))) = Some tt).
  { unfold gc_ok in Hg. destruct (gUseReadBarrier cf); simpl.
    - unfold NonGrayState, GrayState. zcases; done.
    - destruct (gUseUserfaultfd cf); [destruct Hg as [-> | ->]|rewrite Hg]; done. }
  rewrite Hc. by destruct v.
Qed.

Lemma mk_encode v gc x : view_ok v -> gc_ok cf gc -> x = encode v gc -> mk_LockWord cf x = Some (encode v gc).
Proof.
  intros Hv Hg ->. unfold mk_LockWord. rewrite wrap_id by by apply encode_range.
  by rewrite check_encode.
Qed.

Lemma GetState_encode v gc : view_ok v -> gc_ok cf gc -> GetState cf (encode v gc) = Some (state_of v).
Proof.
  intros Hv Hg. unfold GetState. rewrite check_encode by done. cbn [mbind option_bind].
  rewrite toggled_bits by by apply encode_range. rewrite state_bits, encode_state by done.
  assert (Hu : (if gUseReadBarrier cf || gUseUserfaultfd cf
                then encode v gc - (encode v gc / 2 ^ 28) mod 4 * 2 ^ 28 =? 0
                else encode v gc =? 0) = bool_decide (v = Unlocked)).
  { pose proof (gc_ok_range gc Hg).
    assert (H0 : gUseReadBarrier cf || gUseUserfaultfd cf = false -> gc = 0).
    { unfold gc_ok in Hg. by destruct (gUseReadBarrier cf), (gUseUserfaultfd cf). }
    destruct v; unfold encode; unfold view_ok, is_u in Hv;
      (destruct (gUseReadBarrier cf || gUseUserfaultfd cf); [|specialize (H0 eq_refl)]);
      first [rewrite bool_decide_true by done | rewrite bool_decide_false by done];
      first [apply Z.eqb_eq | apply Z.eqb_neq]; lia. }
  rewrite Hu. by destruct v.
Qed.

Lemma check_state_encode v gc s : view_ok v -> gc_ok cf gc -> state_of v = s -> check_state cf (encode v gc) s = Some tt.
Proof.
  intros Hv Hg <-. unfold check_state. rewrite GetState_encode by done. cbn [mbind option_bind].
  by rewrite bool_decide_true.
Qed.

Lemma GCState_encode v gc : view_ok v -> gc_ok cf gc -> state_of v <> kForwardingAddress ->
  GCState (encode v gc) = gc.
Proof. intros. rewrite gc_bits. by apply encode_gc. Qed.

Lemma FromThinLockId_encode o c gc : view_ok (Thin o c) -> gc_ok cf gc ->
  FromThinLockId cf o c gc = Some (encode (Thin o c) gc).
Proof.
  intros Hv Hg. pose proof (gc_ok_range gc Hg). assert (Ho := Hv). destruct Ho as [Ho Hc].
  unfold FromThinLockId. change kThinLockMaxOwner with 65535. change kThinLockMaxCount with 4095.
  rewrite (proj2 (Z.leb_le o _)), (proj2 (Z.leb_le c _)) by lia. cbn [mbind option_bind dcheck].
  apply mk_encode; [done..|]. rewrite Z.lor_0_r, Z.shiftl_0_r.
  change kThinLockCountShift with 16. change kGCStateShift with 28.
  rewrite <- (add_shiftl_lor 16 o c) by (unfold is_u; lia).
  rewrite <- (add_shiftl_lor 28) by (unfold is_u; lia). done.
Qed.

Lemma FromDefault_encode gc : gc_ok cf gc -> FromDefault cf gc = Some (encode Unlocked gc).
Proof. intros Hg. apply mk_encode; [done..|]. by rewrite Z.shiftl_mul_pow2. Qed.

Lemma FromHashCode_encode h gc : view_ok (Hash h) -> gc_ok cf gc ->
  FromHashCode cf h gc = Some (encode (Hash h) gc).
Proof.
  intros Hv Hg. pose proof (gc_ok_range gc Hg). assert (Hh := Hv). unfold view_ok, is_u in Hh.
  unfold FromHashCode. change kMaxHash with (2 ^ 28 - 1).
  rewrite (proj2 (Z.leb_le h _)) by lia. cbn [mbind option_bind dcheck].
  apply mk_encode; [done..|]. rewrite Z.shiftl_0_r. change kStateShift with 30. change kGCStateShift with 28.
  rewrite <- (add_shiftl_lor 28 h) by (unfold is_u; lia).
  rewrite <- (add_shiftl_lor 30) by (unfold is_u; lia). done.
Qed.

Lemma FromForwardingAddress_encode a gc : view_ok (Forward a) -> gc_ok cf gc ->
  FromForwardingAddress cf a = Some (encode (Forward a) gc).
Proof.
  intros Hv Hg. assert (Ha := Hv). destruct Ha as [Ha H8]. unfold is_u in Ha.
  unfold FromForwardingAddress. change (Z.shiftl 1 kStateSize) with 4.
  rewrite (proj2 (Z.eqb_eq _ _)) by lia. cbn [mbind option_bind dcheck].
  apply mk_encode; [done..|]. change kForwardingAddressShift with 3.
  change kStateForwardingAddressShifted with (Z.shiftl 3 30).
  rewrite Z.shiftr_div_pow2 by done. rewrite <- add_shiftl_lor by (unfold is_u; lia). done.
Qed.

Lemma ThinLockOwner_encode o c gc : view_ok (Thin o c) -> gc_ok cf gc ->
  ThinLockOwner cf (encode (Thin o c) gc) = Some o.
Proof.
  intros Hv Hg. pose proof (gc_ok_range gc Hg). unfold ThinLockOwner.
  rewrite check_state_encode, check_encode by done. cbn [mbind option_bind].
  change kThinLockOwnerMask with (Z.ones 16). rewrite low_bits by done. f_equal.
  unfold view_ok in Hv. unfold encode. lia.
Qed.

Lemma ThinLockCount_encode o c gc : view_ok (Thin o c) -> gc_ok cf gc ->
  ThinLockCount cf (encode (Thin o c) gc) = Some c.
Proof.
  intros Hv Hg. pose proof (gc_ok_range gc Hg). unfold ThinLockCount.
  rewrite check_state_encode, check_encode by done. cbn [mbind option_bind].
  change kThinLockCountMask with (Z.ones 12). change kThinLockCountShift with 16.
  rewrite Z.shiftr_div_pow2, Z.land_ones by done. f_equal.
  unfold view_ok in Hv. unfold encode. lia.
Qed.

Lemma FatLockMonitor_encode m gc : view_ok (Fat m) -> gc_ok cf gc ->
  FatLockMonitor cf (encode (Fat m) gc) = Some m.
Proof.
  intros Hv Hg. pose proof (gc_ok_range gc Hg). unfold FatLockMonitor.
  rewrite check_state_encode, check_encode by done. cbn [mbind option_bind].
  change kMonitorIdMask with (Z.ones 28). rewrite low_bits by done. f_equal.
  unfold view_ok, is_u in Hv. unfold encode. lia.
Qed.

Lemma GetHashCode_encode h gc : view_ok (Hash h) -> gc_ok cf gc ->
  GetHashCode cf (encode (Hash h) gc) = Some h.
Proof.
  intros Hv Hg. pose proof (gc_ok_range gc Hg). unfold GetHashCode.
  rewrite check_state_encode, check_encode by done. cbn [mbind option_bind].
  change kHashMask with (Z.ones 28). rewrite low_bits by done. f_equal.
  unfold view_ok, is_u in Hv. unfold encode. lia.
Qed.

Lemma ForwardingAddress_encode a gc : view_ok (Forward a) -> gc_ok cf gc ->
  ForwardingAddress cf (encode (Forward a) gc) = Some a.
Proof.
  intros Hv Hg. unfold ForwardingAddress.
  rewrite check_state_encode by done. cbn [mbind option_bind]. f_equal.
  change kForwardingAddressShift with 3. rewrite Z.shiftl_mul_pow2 by done. unfold wrap.
  unfold view_ok, is_u in Hv. unfold encode. lia.
Qed.

Lemma from_monitor_encode m gc : view_ok (Fat m) -> gc_ok cf gc ->
  from_monitor cf m gc = Some (encode (Fat m) gc).
Proof.
  intros Hv Hg. pose proof (gc_ok_range gc Hg). assert (Hm := Hv). unfold view_ok, is_u in Hm.
  unfold from_monitor.
  assert (E : u32 (Z.lor (Z.lor m (Z.shiftl gc kGCStateShift)) (Z.shiftl kStateFat kStateShift)) = encode (Fat m) gc).
  { change kStateShift with 30. change kGCStateShift with 28.
    rewrite <- (add_shiftl_lor 28 m) by (unfold is_u; lia).
    rewrite <- (add_shiftl_lor 30) by (unfold is_u, kStateFat; lia).
    apply wrap_id. by apply encode_range. }
  cbv zeta. rewrite E, FatLockMonitor_encode, check_encode by done. cbn [mbind option_bind].
  rewrite Z.eqb_refl. change kMaxMonitorId with (2 ^ 28 - 1). by rewrite (proj2 (Z.leb_le m _)) by lia.
Qed.

(** Setting a bit of the collector changes that bit only. *)
Lemma SetReadBarrierState_encode v gc rb : view_ok v -> gc_ok cf gc -> state_of v <> kForwardingAddress ->
  is_u 1 rb -> SetReadBarrierState cf (encode v gc) rb = Some (encode v (gc / 2 * 2 + rb)).
Proof.
  intros Hv Hg Hf Hrb. pose proof (gc_ok_range gc Hg). unfold SetReadBarrierState.
  assert (Hm : Z.land rb (u32 (Z.lnot kReadBarrierStateMask)) = 0 /\ Z.land rb kReadBarrierStateMask = rb /\
               (rb =? NonGrayState) || (rb =? GrayState) = true).
  { unfold is_u in Hrb. by assert (rb = 0 \/ rb = 1) as [-> | ->] by lia. }
  destruct Hm as (-> & -> & ->). rewrite GetState_encode by done. cbn [mbind option_bind dcheck Z.eqb].
  rewrite bool_decide_false by done. cbn [negb dcheck mbind option_bind]. f_equal.
  change (Z.shiftl kReadBarrierStateMask kReadBarrierStateShift) with (Z.shiftl (Z.ones 1) 28).
  change kReadBarrierStateShift with 28. rewrite set_field by first [done | by apply encode_range].
  pose proof (encode_gc v gc Hv Hg Hf). destruct v; unfold encode in *; try done; lia.
Qed.

Lemma SetMarkBitState_encode v gc mb : view_ok v -> gc_ok cf gc -> state_of v <> kForwardingAddress ->
  is_u 1 mb -> SetMarkBitState cf (encode v gc) mb = Some (encode v (mb * 2 + gc mod 2)).
Proof.
  intros Hv Hg Hf Hmb. pose proof (gc_ok_range gc Hg). unfold SetMarkBitState.
  assert (Hm : Z.land mb (u32 (Z.lnot kMarkBitStateMask)) = 0).
  { unfold is_u in Hmb. by assert (mb = 0 \/ mb = 1) as [-> | ->] by lia. }
  rewrite Hm, GetState_encode by done. cbn [mbind option_bind dcheck Z.eqb].
  rewrite bool_decide_false by done. cbn [negb dcheck mbind option_bind]. f_equal.
  change kMarkBitStateMaskShiftedToggled with (u32 (Z.lnot (Z.shiftl (Z.ones 1) 29))).
  change kMarkBitStateShift with 29. rewrite set_field by first [done | by apply encode_range].
  pose proof (encode_gc v gc Hv Hg Hf). destruct v; unfold encode in *; try done; lia.
Qed.

Lemma encode_inj v gc v' gc' : view_ok v -> view_ok v' -> gc_ok cf gc -> gc_ok cf gc' ->
  encode v gc = encode v' gc' -> v = v' /\ (state_of v <> kForwardingAddress -> gc = gc').
Proof.
  intros Hv Hv' Hg%gc_ok_range Hg'%gc_ok_range E.
  destruct v, v'; unfold encode, view_ok, is_u in *; try lia; (split; [|simpl; try done; intros _; lia]);
    f_equal; lia.
Qed.

End encoded.

(** ** The word of a view and the view of a word *)

Section roundtrip.

Context (cf : gc_config).

Definition write_view (v : view) (gc : Z) : option Z :=
  match v with
  | Unlocked => FromDefault cf gc
  | Thin o c => FromThinLockId cf o c gc
  | Fat m => from_monitor cf m gc
  | Hash h => FromHashCode cf h gc
  | Forward a => FromForwardingAddress cf a
  end.

Definition read_view (w : Z) : option view :=
  state ← GetState cf w;
  match state with
  | kUnlocked => Some Unlocked
  | kThinLocked => o ← ThinLockOwner cf w; c ← ThinLockCount cf w; Some (Thin o c)
  | kFatLocked => m ← FatLockMonitor cf w; Some (Fat m)
  | kHashCode => h ← GetHashCode cf w; Some (Hash h)
  | kForwardingAddress => a ← ForwardingAddress cf w; Some (Forward a)
  end.

Lemma write_view_encode v gc : view_ok v -> gc_ok cf gc -> write_view v gc = Some (encode v gc).
Proof.
  intros. destruct v; cbn [write_view];
    [by apply FromDefault_encode|by apply FromThinLockId_encode|by apply from_monitor_encode
    |by apply FromHashCode_encode|by apply FromForwardingAddress_encode].
Qed.

Lemma read_view_encode v gc : view_ok v -> gc_ok cf gc -> read_view (encode v gc) = Some v.
Proof.
  intros. unfold read_view. rewrite GetState_encode by done. cbn [mbind option_bind].
  destruct v; cbn [state_of]; rewrite ?ThinLockOwner_encode, ?ThinLockCount_encode, ?FatLockMonitor_encode,
    ?GetHashCode_encode, ?ForwardingAddress_encode by done; done.
Qed.

Lemma Equal_encode v gc v' gc' : view_ok v -> view_ok v' -> gc_ok cf gc -> gc_ok cf gc' ->
  state_of v <> kForwardingAddress -> state_of v' <> kForwardingAddress ->
  Equal cf false (encode v gc) (encode v' gc') = Some (bool_decide (v = v')).
Proof.
  intros Hv Hv' Hg Hg' Hf Hf'. unfold Equal, GetValueWithoutGCState. rewrite !check_encode by done.
  cbn [mbind option_bind]. f_equal. rewrite !toggled_bits by by apply (encode_range cf).
  rewrite !(encode_gc cf) by done.
  assert (Hz : forall u g, state_of u <> kForwardingAddress -> encode u g - g * 2 ^ 28 = encode u 0)
    by (intros [] g Hu; unfold encode; try done; lia).
  rewrite !Hz by done.
  assert (H0 : gc_ok cf 0) by (unfold gc_ok, is_u; destruct (gUseReadBarrier cf), (gUseUserfaultfd cf); lia).
  destruct (Z.eqb_spec (encode v 0) (encode v' 0)) as [E|E]; symmetry.
  - apply bool_decide_eq_true. by destruct (encode_inj cf v 0 v' 0).
  - apply bool_decide_eq_false. congruence.
Qed.

(** C21: a lock word keeps what is stored in it. For every lock state, monitor
    id, hash code or forwarding address in range and every state of the
    collector's bits, the constructor passes its checks and gives a 32-bit
    word from which the state, its fields and the collector's bits are read
    back without a failing check. Setting the read barrier or the mark bit of
    the word changes that bit and nothing else, words of different states are
    different, and comparing without the collector's bits compares states. *)
Theorem lock_word_roundtrip v gc (Hv : view_ok v) (Hg : gc_ok cf gc) :
  (exists w, write_view v gc = Some w /\ is_u 32 w /\ read_view w = Some v /\
     (state_of v <> kForwardingAddress -> GCState w = gc /\
        forall b, is_u 1 b ->
          SetReadBarrierState cf w b = Some (encode v (gc / 2 * 2 + b)) /\
          SetMarkBitState cf w b = Some (encode v (b * 2 + gc mod 2)))) /\
  (forall v' gc' w, view_ok v' -> gc_ok cf gc' -> write_view v gc = Some w -> write_view v' gc' = Some w -> v' = v) /\
  (forall v' gc' w w', view_ok v' -> gc_ok cf gc' -> write_view v gc = Some w -> write_view v' gc' = Some w' ->
     state_of v <> kForwardingAddress -> state_of v' <> kForwardingAddress ->
     Equal cf false w w' = Some (bool_decide (v = v'))).
Proof.
  split_and!.
  - exists (encode v gc). split; [by apply write_view_encode|]. split; [by apply (encode_range cf)|].
    split; [by apply read_view_encode|]. intros Hf. split; [by apply (GCState_encode cf)|].
    intros b Hb. split; [by apply SetReadBarrierState_encode|by apply SetMarkBitState_encode].
  - intros v' gc' w Hv' Hg'. rewrite !write_view_encode by done. intros E1 E2.
    symmetry. apply (encode_inj cf v gc v' gc'); try done. congruence.
  - intros v' gc' w w' Hv' Hg'. rewrite !write_view_encode by done. intros [= <-] [= <-]. by apply Equal_encode.
Qed.

End roundtrip.

Lemma lock_word_roundtrip_witness :
  let cf := Build_gc_config true false in
  exists w, write_view cf (Thin 7 41) 3 = Some w /\ read_view cf w = Some (Thin 7 41) /\ w = 0x30290007.
Proof.
  intros cf. destruct (lock_word_roundtrip cf (Thin 7 41) 3) as [(w & E & _ & R & _) _];
    [split; split; lia || done|split; lia || done|].
  exists w. split; [done|]. split; [done|]. vm_compute in E. congruence.
Defined.
