(* ===== verification/WaitSet.v ===== *)
(** * The wait sets of a monitor ([runtime/monitor.cc])

    The threads that wait on a monitor and those that have been notified form
    two singly linked lists through a field of the threads, [wait_next].  A
    thread is a number, a null pointer [None].  [linked] says which lists of
    threads the pointers stand for; every operation on the pointers is related
    to an operation on these lists. *)

From Stdlib Require Import Lia Bool.
From stdpp Require Import base list option functions sets.
From S2P Require Import Prelude.

Local Open Scope art_scope.

(** [wait_next] of every thread, and the heads of the two lists. *)
Record links := {
  wait_next : nat -> option nat;
  wait_set_ : option nat;
  wake_set_ : option nat;
}.

Definition set_next (ls : links) (thread : nat) (n : option nat) : links :=
  Build_links (<[thread := n]> (wait_next ls)) (wait_set_ ls) (wake_set_ ls).

Definition set_wait (ls : links) (s : option nat) : links := Build_links (wait_next ls) s (wake_set_ ls).

Definition set_wake (ls : links) (s : option nat) : links := Build_links (wait_next ls) (wait_set_ ls) s.

(** ** Operations *)

(** [while (t->GetWaitNext() != nullptr) t = t->GetWaitNext();] *)
Fixpoint last_waiter (fuel : nat) (next : nat -> option nat) (t : nat) : option nat :=
  match next t with
  | None => Some t
  | Some t' => match fuel with O => None | S fuel => last_waiter fuel next t' end
  end.

Definition AppendToWaitSet (fuel : nat) (ls : links) (thread : nat) : option links :=
  DCHECK bool_decide (wait_next ls thread = None);
  match wait_set_ ls with
  | None => Some (set_wait ls (Some thread))
  | Some t =>
      t ← last_waiter fuel (wait_next ls) t;
      Some (set_next ls t (Some thread))
  end.

(** The loop of [remove] after the head: the links with [thread] unlinked, if
    it is there. *)
Fixpoint remove_loop (fuel : nat) (next : nat -> option nat) (t thread : nat) : option (option (nat -> option nat)) :=
  match next t with
  | None => Some None
  | Some t' =>
      if decide (t' = thread) then Some (Some (<[thread := None]> (<[t := next thread]> next)))
      else match fuel with O => None | S fuel => remove_loop fuel next t' thread end
  end.

(** The lambda [remove] of [RemoveFromWaitSet] on a list with head [set]: the
    new links and head when the thread was there. *)
Definition remove (fuel : nat) (next : nat -> option nat) (set : option nat) (thread : nat)
    : option (option ((nat -> option nat) * option nat)) :=
  match set with
  | None => Some None
  | Some s =>
      if decide (s = thread) then Some (Some (<[thread := None]> next, next thread))
      else
        r ← remove_loop fuel next s thread;
        Some (match r with Some next => Some (next, set) | None => None end)
  end.

Definition RemoveFromWaitSet (fuel : nat) (ls : links) (thread : nat) : option links :=
  r ← remove fuel (wait_next ls) (wait_set_ ls) thread;
  match r with
  | Some (next, set) => Some (Build_links next set (wake_set_ ls))
  | None =>
      r ← remove fuel (wait_next ls) (wake_set_ ls) thread;
      Some (match r with
            | Some (next, set) => Build_links next (wait_set_ ls) set
            | None => ls
            end)
  end.

(** [Notify] and [NotifyAll] after the test of the owner. *)
Definition notify_one (ls : links) : links :=
  match wait_set_ ls with
  | None => ls
  | Some to_move =>
      let ls := set_wait ls (wait_next ls to_move) in
      let ls := set_next ls to_move (wake_set_ ls) in
      set_wake ls (Some to_move)
  end.

Definition notify_all (fuel : nat) (ls : links) : option links :=
  match wait_set_ ls with
  | None => Some ls
  | Some to_move =>
      let ls := set_wait ls None in
      match wake_set_ ls with
      | None => Some (set_wake ls (Some to_move))
      | Some move_to =>
          move_to ← last_waiter fuel (wait_next ls) move_to;
          Some (set_next ls move_to (Some to_move))
      end
  end.

(** The first thread of the wake set, unlinked, in
    [SignalWaiterAndReleaseMonitorLock]. *)
Definition pop_wake (ls : links) : option (nat * links) :=
  match wake_set_ ls with
  | None => None
  | Some thread =>
      let ls := set_wake ls (wait_next ls thread) in
      Some (thread, set_next ls thread None)
  end.

(** ** The lists the links stand for *)

Fixpoint chain (next : nat -> option nat) (head : option nat) (l : list nat) : Prop :=
  match l with
  | [] => head = None
  | t :: l => head = Some t /\ chain next (next t) l
  end.

Record linked (ls : links) (ws ks : list nat) : Prop := {
  linked_wait : chain (wait_next ls) (wait_set_ ls) ws;
  linked_wake : chain (wait_next ls) (wake_set_ ls) ks;
  linked_once : NoDup (ws ++ ks);
  linked_off t : (t ∉ ws ++ ks) -> wait_next ls t = None;
}.

Lemma chain_insert_other next head l t n : (t ∉ l) -> chain next head l -> chain (<[t := n]> next) head l.
Proof.
  revert head. induction l as [|u l IH]; intros head Ht; simpl; [done|].
  rewrite not_elem_of_cons in Ht. intros [-> Hl]. split; [done|].
  rewrite fn_lookup_insert_ne by naive_solver. apply IH; naive_solver.
Qed.

Lemma chain_last fuel next t l :
  chain next (Some t) l -> (length l <= S fuel)%nat ->
  exists l' u, l = l' ++ [u] /\ last_waiter fuel next t = Some u.
Proof.
  revert t l. induction fuel as [|fuel IH]; intros t l Hl Hf; destruct l as [|t' l]; try done;
    destruct Hl as [[= <-] Hl]; simpl in *.
  - destruct l; simpl in *; [|lia]. rewrite Hl. by exists [], t.
  - destruct (next t) as [v|] eqn:E.
    + destruct (IH v l) as (l' & u & -> & Hu); [done|lia|]. by exists (t :: l'), u.
    + destruct l; [|by destruct Hl]. by exists [], t.
Qed.

(** Linking a chain to the end of another. *)
Lemma chain_app next head l u t k :
  chain next head (l ++ [u]) -> chain next (Some t) k -> (u ∉ l) -> (u ∉ k) ->
  chain (<[u := Some t]> next) head (l ++ u :: k).
Proof.
  revert head. induction l as [|v l IH]; intros head Hl Hk Hu Huk; simpl in *.
  - destruct Hl as [-> _]. split; [done|]. rewrite fn_lookup_insert. by apply chain_insert_other.
  - rewrite not_elem_of_cons in Hu. destruct Hl as [-> Hl]. split; [done|].
    rewrite fn_lookup_insert_ne by naive_solver. apply IH; naive_solver.
Qed.

Lemma chain_ext next next' head l :
  (forall u, u ∈ l -> next' u = next u) -> chain next head l -> chain next' head l.
Proof.
  revert head. induction l as [|t l IH]; intros head He; simpl; [done|].
  intros [-> Hl]. split; [done|]. rewrite He by (left; done). apply IH; [|done].
  intros u Hu. apply He. by right.
Qed.

Definition others (t : nat) (l : list nat) : list nat := filter (fun u => u <> t) l.

Lemma others_notin t l : (t ∉ l) -> others t l = l.
Proof.
  induction l as [|u l IH]; [done|]. rewrite not_elem_of_cons. intros [Hu Hl].
  unfold others. rewrite filter_cons_True by naive_solver. f_equal. by apply IH.
Qed.

Lemma elem_of_others t u l : u ∈ others t l <-> u <> t /\ u ∈ l.
Proof. unfold others. by rewrite list_elem_of_filter. Qed.

Lemma others_app t l k : others t (l ++ k) = others t l ++ others t k.
Proof. apply list.filter_app. Qed.

Lemma others_NoDup t l : NoDup l -> NoDup (others t l).
Proof. apply list.NoDup_filter. Qed.

Lemma remove_loop_spec fuel next s t l :
  chain next (next s) l -> NoDup (s :: l) -> (length l <= fuel)%nat -> t <> s ->
  ((t ∉ l) /\ remove_loop fuel next s t = Some None) \/
  ((t ∈ l) /\ exists next', remove_loop fuel next s t = Some (Some next') /\
     chain next' (next' s) (others t l) /\ next' t = None /\
     forall u, (u ∉ s :: l) -> next' u = next u).
Proof.
  revert s l. induction fuel as [|fuel IH]; intros s l Hl Hn Hf Hts; simpl;
    destruct l as [|u l]; simpl in Hl, Hf; try lia; try (rewrite Hl; left; split; [set_solver|done]).
  destruct Hl as [E Hl]. rewrite E. apply NoDup_cons in Hn as [Hs Hn].
  destruct (decide (u = t)) as [->|Hut].
  - right. apply NoDup_cons in Hn as [Ht Hn]. split; [left; done|]. eexists. split; [done|].
    rewrite fn_lookup_insert_ne, fn_lookup_insert by done. unfold others.
    rewrite filter_cons_False by naive_solver. fold (others t l). rewrite others_notin by done. split_and!.
    + do 2 (apply chain_insert_other; [set_solver|]). done.
    + by rewrite fn_lookup_insert.
    + intros v Hv. rewrite !fn_lookup_insert_ne by set_solver. done.
  - destruct (IH u l Hl Hn) as [[Ht ->]|(Ht & next' & -> & Hc & Ht' & Ho)]; [lia|done|left; set_solver|].
    right. split; [by right|]. exists next'. split; [done|]. unfold others.
    rewrite filter_cons_True by done. fold (others t l). rewrite (Ho s), E by done. split_and!; [done|done|].
    intros v Hv. apply Ho. set_solver.
Qed.

Lemma remove_spec fuel next head t l :
  chain next head l -> NoDup l -> (length l <= fuel)%nat ->
  ((t ∉ l) /\ remove fuel next head t = Some None) \/
  ((t ∈ l) /\ exists next' head', remove fuel next head t = Some (Some (next', head')) /\
     chain next' head' (others t l) /\ next' t = None /\
     forall u, (u ∉ l) -> next' u = next u).
Proof.
  intros Hl Hn Hf. destruct l as [|s l]; simpl in Hl, Hf; [subst head; left; split; [set_solver|done]|].
  destruct Hl as [-> Hl]. simpl. destruct (decide (s = t)) as [->|Hs].
  - right. apply NoDup_cons in Hn as [Ht _]. split; [left; done|]. do 2 eexists. split; [done|].
    unfold others. rewrite filter_cons_False by naive_solver. fold (others t l).
    rewrite others_notin by done. split_and!.
    + by apply chain_insert_other.
    + by rewrite fn_lookup_insert.
    + intros u Hu. rewrite fn_lookup_insert_ne by set_solver. done.
  - destruct (remove_loop_spec fuel next s t l Hl Hn) as [[Ht ->]|(Ht & next' & -> & Hc & Ht' & Ho)];
      [lia|done|left; set_solver|].
    right. split; [by right|]. exists next', (Some s). split; [done|]. unfold others.
    rewrite filter_cons_True by done. fold (others t l). split_and!; done.
Qed.

(** ** The operations on the lists *)

Lemma AppendToWaitSet_spec fuel ls ws ks t :
  linked ls ws ks -> (length ws <= S fuel)%nat -> (t ∉ ws ++ ks) ->
  exists ls', AppendToWaitSet fuel ls t = Some ls' /\ linked ls' (ws ++ [t]) ks.
Proof.
  intros [Hw Hk Hn Ho] Hf Ht. unfold AppendToWaitSet. rewrite (Ho t), bool_decide_true by done. simpl.
  assert (Hn' : NoDup ((ws ++ [t]) ++ ks)).
  { rewrite <- app_assoc. apply NoDup_app in Hn as (? & Hd & ?). apply NoDup_app. split; [done|].
    split; [set_solver|]. apply NoDup_cons. set_solver. }
  destruct (wait_set_ ls) as [h|] eqn:E.
  - destruct (chain_last fuel (wait_next ls) h ws) as (l & u & -> & ->); [done..|]. simpl.
    eexists. split; [done|]. apply NoDup_app in Hn as (Hn1 & Hd & Hn2).
    apply NoDup_app in Hn1 as (_ & Hd' & _).
    split; simpl; try done.
    + rewrite <- app_assoc. simpl. rewrite E. apply chain_app; [done| |set_solver|set_solver].
      simpl. split; [done|]. by apply Ho.
    + apply chain_insert_other; [set_solver|done].
    + intros v Hv. rewrite fn_lookup_insert_ne by set_solver. apply Ho. set_solver.
  - destruct ws; [|by destruct Hw]. eexists. split; [done|]. split; simpl; try done.
    + split; [done|]. by apply Ho.
    + intros v Hv. apply Ho. set_solver.
Qed.

Lemma RemoveFromWaitSet_spec fuel ls ws ks t :
  linked ls ws ks -> (length ws + length ks <= fuel)%nat ->
  exists ls', RemoveFromWaitSet fuel ls t = Some ls' /\ linked ls' (others t ws) (others t ks).
Proof.
  intros [Hw Hk Hn Ho] Hf. unfold RemoveFromWaitSet.
  assert (Hn' := others_NoDup t _ Hn). rewrite others_app in Hn'.
  apply NoDup_app in Hn as (Hn1 & Hd & Hn2).
  destruct (remove_spec fuel (wait_next ls) (wait_set_ ls) t ws Hw Hn1)
    as [[Ht ->]|(Ht & next' & h' & -> & Hc & Ht' & Ho')]; [lia| |]; simpl.
  - destruct (remove_spec fuel (wait_next ls) (wake_set_ ls) t ks Hk Hn2)
      as [[Ht2 ->]|(Ht2 & next' & h' & -> & Hc & Ht' & Ho')]; [lia| |]; simpl; eexists; (split; [done|]).
    + rewrite !others_notin in * by done. by split.
    + split; simpl; [|done|done|].
      * rewrite others_notin by done. apply chain_ext with (wait_next ls); [|done].
        intros u Hu. apply Ho'. set_solver.
      * intros u Hu. destruct (decide (u = t)) as [->|Hne]; [done|].
        rewrite elem_of_app, !elem_of_others in Hu. rewrite Ho', Ho by set_solver. done.
  - eexists. split; [done|]. assert (t ∉ ks) by set_solver. split; simpl; [done| |done|].
    + rewrite (others_notin t ks) by done. apply chain_ext with (wait_next ls); [|done].
      intros u Hu. apply Ho'. set_solver.
    + intros u Hu. destruct (decide (u = t)) as [->|Hne]; [done|].
      rewrite elem_of_app, !elem_of_others in Hu. rewrite Ho', Ho by set_solver. done.
Qed.

Lemma notify_one_spec ls ws ks :
  linked ls ws ks ->
  match ws with
  | [] => notify_one ls = ls
  | t :: ws => linked (notify_one ls) ws (t :: ks)
  end.
Proof.
  intros [Hw Hk Hn Ho]. unfold notify_one. destruct ws as [|t ws]; simpl in Hw.
  - by rewrite Hw.
  - destruct Hw as [-> Hw]. simpl in Hn. apply NoDup_cons in Hn as [Ht Hn].
    split; simpl.
    + apply chain_insert_other; [set_solver|done].
    + split; [done|]. rewrite fn_lookup_insert. apply chain_insert_other; [set_solver|done].
    + apply NoDup_app in Hn as (? & ? & ?). apply NoDup_app. split; [done|]. split; [set_solver|].
      apply NoDup_cons. set_solver.
    + intros u Hu. rewrite fn_lookup_insert_ne by set_solver. apply Ho. set_solver.
Qed.

Lemma notify_all_spec fuel ls ws ks :
  linked ls ws ks -> (length ks <= S fuel)%nat ->
  exists ls', notify_all fuel ls = Some ls' /\ linked ls' [] (ks ++ ws).
Proof.
  intros [Hw Hk Hn Ho] Hf. unfold notify_all.
  assert (Hn' : NoDup (ks ++ ws)) by (rewrite Permutation_app_comm; done).
  destruct ws as [|t ws]; simpl in Hw.
  - rewrite Hw. exists ls. split; [done|]. rewrite app_nil_r. by split.
  - destruct Hw as [-> Hw]. cbn [set_wait wake_set_ wait_next].
    destruct (wake_set_ ls) as [h|] eqn:E.
    + destruct (chain_last fuel (wait_next ls) h ks) as (l & u & -> & ->); [done..|]. simpl.
      eexists. split; [done|].
      apply NoDup_app in Hn' as (Hn1 & Hd & Hn2). apply NoDup_app in Hn1 as (_ & Hd' & _).
      split; simpl; [done| | |].
      * rewrite E, <- app_assoc. simpl. apply chain_app; [done|by split|set_solver|set_solver].
      * rewrite Permutation_app_comm. done.
      * intros v Hv. rewrite fn_lookup_insert_ne by set_solver. apply Ho. set_solver.
    + destruct ks; [|by destruct Hk]. eexists. split; [done|]. split; simpl; try done.
      intros v Hv. apply Ho. set_solver.
Qed.

Lemma pop_wake_spec ls ws ks :
  linked ls ws ks ->
  match ks with
  | [] => pop_wake ls = None
  | t :: ks => exists ls', pop_wake ls = Some (t, ls') /\ linked ls' ws ks
  end.
Proof.
  intros [Hw Hk Hn Ho]. unfold pop_wake. destruct ks as [|t ks]; simpl in Hk.
  - by rewrite Hk.
  - destruct Hk as [-> Hk]. eexists. split; [done|].
    apply NoDup_app in Hn as (Hn1 & Hd & Hn2). apply NoDup_cons in Hn2 as [Ht Hn2].
    split; simpl.
    + apply chain_insert_other; [set_solver|done].
    + by apply chain_insert_other.
    + apply NoDup_app. split; [done|]. split; [set_solver|done].
    + intros u Hu. destruct (decide (u = t)) as [->|]; [by rewrite fn_lookup_insert|].
      rewrite fn_lookup_insert_ne by done. apply Ho. set_solver.
Qed.
