(* ===== verification/Monitor.v ===== *)
(** * Monitors ([runtime/monitor.cc], [runtime/monitor_pool.cc], [runtime/mirror/object.cc])

    The lock, the wait set and the identity hash code of one object, used by
    any number of threads.  Every access to the lock word, to a field of a
    shared monitor or to a mutex is a step of its own, except that stores to
    [owner_] and [lock_count_], which only the holder of the monitor makes, are
    done together with the change of [num_waiters_] next to them; [mpc] is where a thread
    is in [MonitorEnter], [MonitorExit], [Wait], [Notify], [IdentityHashCode] or
    one of their callees, with its local variables.  A step is a function of
    the state and of a [choice], which resolves what the code leaves open: the
    next call, spurious failures of a weak compare-and-swap, timeouts and
    interrupts, and the id the pool gives to a new monitor.  [None] is a failed
    check or the use of a monitor that does not exist.

    A mutex is the thread that holds it; blocking and waking follow the
    contract of [Mutex] and [ConditionVariable].  The configuration is the one
    with read barriers ([gUseReadBarrier]), in which adding a monitor to the list
    does not wait for the collector.  A thread outside these
    functions is [Idle], whatever it does with other objects.  Tracing,
    contention logging and callbacks are left out, they do not write the state
    modelled here. *)

From Stdlib Require Import ZArith Lia Bool.
From stdpp Require Import base numbers list option functions gmap.
From S2P Require Import Prelude LockWord WaitSet.

Local Open Scope Z_scope.
Local Open Scope art_scope.

(** ** State *)

(** [monitor_lock_] is the holder of the mutex, [obj_] whether the monitor
    still has its object. *)
Record Monitor := {
  monitor_lock_ : option nat;
  num_waiters_ : Z;
  owner_ : option nat;
  lock_count_ : Z;
  obj_ : bool;
  wait_head_ : option nat;
  wake_head_ : option nat;
  hash_code_ : Z;
}.

(** The constructor. *)
Definition new_monitor (owner : option nat) (hash_code : Z) : Monitor := {|
  monitor_lock_ := None; num_waiters_ := 0; owner_ := owner; lock_count_ := 0; obj_ := true;
  wait_head_ := None; wake_head_ := None; hash_code_ := hash_code |}.

Definition with_lock (M : Monitor) (l : option nat) : Monitor :=
  Build_Monitor l (num_waiters_ M) (owner_ M) (lock_count_ M) (obj_ M) (wait_head_ M) (wake_head_ M) (hash_code_ M).
Definition with_waiters (M : Monitor) (n : Z) : Monitor :=
  Build_Monitor (monitor_lock_ M) n (owner_ M) (lock_count_ M) (obj_ M) (wait_head_ M) (wake_head_ M) (hash_code_ M).
Definition with_owner (M : Monitor) (o : option nat) : Monitor :=
  Build_Monitor (monitor_lock_ M) (num_waiters_ M) o (lock_count_ M) (obj_ M) (wait_head_ M) (wake_head_ M) (hash_code_ M).
Definition with_count (M : Monitor) (c : Z) : Monitor :=
  Build_Monitor (monitor_lock_ M) (num_waiters_ M) (owner_ M) c (obj_ M) (wait_head_ M) (wake_head_ M) (hash_code_ M).
Definition without_obj (M : Monitor) : Monitor :=
  Build_Monitor (monitor_lock_ M) (num_waiters_ M) (owner_ M) (lock_count_ M) false (wait_head_ M) (wake_head_ M) (hash_code_ M).
Definition with_heads (M : Monitor) (ws ks : option nat) : Monitor :=
  Build_Monitor (monitor_lock_ M) (num_waiters_ M) (owner_ M) (lock_count_ M) (obj_ M) ws ks (hash_code_ M).
Definition with_hash (M : Monitor) (h : Z) : Monitor :=
  Build_Monitor (monitor_lock_ M) (num_waiters_ M) (owner_ M) (lock_count_ M) (obj_ M) (wait_head_ M) (wake_head_ M) h.

(** What runs after an inflation: the loop that asked for it. *)
Inductive inflate_kont :=
  | KEnter (trylock : bool) (contention_count : Z)
  | KHash
  | KWait (ms ns : Z).

(** Who called [Lock]: [MonitorEnter], or [Wait] with the saved count. *)
Inductive lock_kont :=
  | KLock
  | KWaitLock (prev_lock_count : Z).

(** Who releases the monitor: [Unlock] or [Wait]. *)
Inductive signal_kont :=
  | KUnlock
  | KWaitSignal (prev_lock_count : Z).

Inductive mpc :=
  | Idle
  (* MonitorEnter *)
  | EnterLoad (trylock : bool) (contention_count : Z)
  | EnterCas (trylock : bool) (contention_count lock_word thin_locked : Z)
  | EnterStore (thin_locked : Z)
  (* InflateThinLocked, Inflate and Install *)
  | InflateThin (lock_word hash_code : Z) (k : inflate_kont)
  | SuspendOwner (owner : nat) (hash_code : Z) (k : inflate_kont)
  | LeaveSuspension (owner : option nat) (hash_code : Z) (k : inflate_kont)
  | Recheck (owner : nat) (hash_code : Z) (k : inflate_kont)
  | Create (owner : option nat) (hash_code : Z) (resume : option nat) (k : inflate_kont)
  | InstallLoad (m : Z) (resume : option nat) (k : inflate_kont)
  | InstallCas (m lw fat : Z) (resume : option nat) (k : inflate_kont)
  | AddMonitor (m : Z) (resume : option nat) (k : inflate_kont)
  | ResumeOwner (owner : nat) (k : inflate_kont)
  (* TryLock and Lock *)
  | TryLockOwner (m : Z) (trylock : bool) (k : lock_kont)
  | TryLockMutex (m : Z) (trylock : bool) (k : lock_kont)
  | TryLockStore (m : Z) (k : lock_kont)
  | LockWaiters (m : Z) (k : lock_kont)
  | LockBlocked (m : Z) (k : lock_kont)
  | LockRunnable (m : Z) (k : lock_kont)
  | LockStore (m : Z) (k : lock_kont)
  (* MonitorExit, Unlock and SignalWaiterAndReleaseMonitorLock *)
  | ExitLoad
  | ExitCas (lock_word new_lw : Z)
  | ExitStore (new_lw : Z)
  | UnlockOwner (m : Z)
  | SignalPop (m : Z) (k : signal_kont)
  | SignalMutex (m : Z) (thread : nat) (k : signal_kont)
  | SignalCheck (m : Z) (thread : nat) (k : signal_kont)
  | SignalSend (m : Z) (thread : nat) (k : signal_kont)
  (* IdentityHashCode and GetHashCode *)
  | HashLoad
  | HashCas (lw hash_word : Z)
  | HashMonitor (m : Z)
  | HashHas (m hc : Z)
  | HashSwap (m new_hash : Z)
  | HashReload (m : Z)
  (* Wait *)
  | WaitLoad (ms ns : Z)
  | WaitOwner (m ms ns : Z)
  | WaitLockMutex (m prev_lock_count : Z)
  | WaitEnqueue (m prev_lock_count : Z)
  | WaitBegin (m prev_lock_count : Z)
  | WaitCond (m prev_lock_count : Z)
  | WaitUnlockMutex (m prev_lock_count : Z)
  | WaitRunnable (m prev_lock_count : Z)
  | WaitClear (m prev_lock_count : Z)
  | WaitRestore (m prev_lock_count : Z)
  (* DoNotify, Notify and NotifyAll *)
  | NotifyLoad (notify_all : bool)
  | NotifyMonitor (m : Z) (notify_all : bool).

(** Points at which the thread is not runnable, or where an idle thread can be
    stopped by a suspension request. *)
Definition at_safepoint (p : mpc) : bool :=
  match p with
  | Idle | SuspendOwner _ _ _ | LeaveSuspension _ _ _ | LockBlocked _ _ | LockRunnable _ _
  | WaitLockMutex _ _ | WaitEnqueue _ _ | WaitBegin _ _ | WaitCond _ _ | WaitUnlockMutex _ _ | WaitRunnable _ _
  | SignalPop _ (KWaitSignal _) | SignalMutex _ _ (KWaitSignal _) | SignalCheck _ _ (KWaitSignal _)
  | SignalSend _ _ (KWaitSignal _) => true
  | _ => false
  end.

(** The lock word of the object, the monitors by id, [MonitorList::list_], the
    seed of the hash codes, and for every thread its place, its suspend count,
    [wait_next], [wait_monitor_], its wait mutex and whether its condition
    variable was signalled since it began to wait. *)
Record mstate := {
  word_ : Z;
  monitors_ : gmap Z Monitor;
  list_ : list Z;
  hash_code_seed : Z;
  pcs_ : list mpc;
  suspend_count : nat -> Z;
  next_ : nat -> option nat;
  wait_monitor_ : nat -> option Z;
  wait_mutex_ : nat -> option nat;
  signalled : nat -> bool;
}.

Definition set_word (s : mstate) (w : Z) : mstate :=
  Build_mstate w (monitors_ s) (list_ s) (hash_code_seed s) (pcs_ s) (suspend_count s) (next_ s)
    (wait_monitor_ s) (wait_mutex_ s) (signalled s).
Definition set_monitors (s : mstate) (ms : gmap Z Monitor) : mstate :=
  Build_mstate (word_ s) ms (list_ s) (hash_code_seed s) (pcs_ s) (suspend_count s) (next_ s)
    (wait_monitor_ s) (wait_mutex_ s) (signalled s).
Definition set_list (s : mstate) (l : list Z) : mstate :=
  Build_mstate (word_ s) (monitors_ s) l (hash_code_seed s) (pcs_ s) (suspend_count s) (next_ s)
    (wait_monitor_ s) (wait_mutex_ s) (signalled s).
Definition set_seed (s : mstate) (x : Z) : mstate :=
  Build_mstate (word_ s) (monitors_ s) (list_ s) x (pcs_ s) (suspend_count s) (next_ s)
    (wait_monitor_ s) (wait_mutex_ s) (signalled s).
Definition set_pc (s : mstate) (t : nat) (p : mpc) : mstate :=
  Build_mstate (word_ s) (monitors_ s) (list_ s) (hash_code_seed s) (<[t := p]> (pcs_ s)) (suspend_count s) (next_ s)
    (wait_monitor_ s) (wait_mutex_ s) (signalled s).
Definition set_suspend (s : mstate) (t : nat) (n : Z) : mstate :=
  Build_mstate (word_ s) (monitors_ s) (list_ s) (hash_code_seed s) (pcs_ s) (<[t := n]> (suspend_count s)) (next_ s)
    (wait_monitor_ s) (wait_mutex_ s) (signalled s).
Definition set_next_ (s : mstate) (n : nat -> option nat) : mstate :=
  Build_mstate (word_ s) (monitors_ s) (list_ s) (hash_code_seed s) (pcs_ s) (suspend_count s) n
    (wait_monitor_ s) (wait_mutex_ s) (signalled s).
Definition set_wait_monitor (s : mstate) (t : nat) (m : option Z) : mstate :=
  Build_mstate (word_ s) (monitors_ s) (list_ s) (hash_code_seed s) (pcs_ s) (suspend_count s) (next_ s)
    (<[t := m]> (wait_monitor_ s)) (wait_mutex_ s) (signalled s).
Definition set_mutex (s : mstate) (t : nat) (o : option nat) : mstate :=
  Build_mstate (word_ s) (monitors_ s) (list_ s) (hash_code_seed s) (pcs_ s) (suspend_count s) (next_ s)
    (wait_monitor_ s) (<[t := o]> (wait_mutex_ s)) (signalled s).
Definition set_signalled (s : mstate) (t : nat) (b : bool) : mstate :=
  Build_mstate (word_ s) (monitors_ s) (list_ s) (hash_code_seed s) (pcs_ s) (suspend_count s) (next_ s)
    (wait_monitor_ s) (wait_mutex_ s) (<[t := b]> (signalled s)).

Definition put_monitor (s : mstate) (m : Z) (M : Monitor) : mstate := set_monitors s (<[m := M]> (monitors_ s)).

(** The links of a monitor's wait sets, in its fields and in the threads. *)
Definition links_of (s : mstate) (M : Monitor) : links := Build_links (next_ s) (wait_head_ M) (wake_head_ M).

Definition put_links (s : mstate) (m : Z) (M : Monitor) (ls : links) : mstate :=
  put_monitor (set_next_ s (wait_next ls)) m (with_heads M (wait_set_ ls) (wake_set_ ls)).

(** ** Steps *)

(** What the calls report, each at the point where it takes effect. *)
Inductive mevent :=
  | Entered (t : nat)
  | TryEnterFailed (t : nat)
  | Exited (t : nat)
  | ExitFailed (t : nat)
  | HashReturned (t : nat) (h : Z)
  | WaitReleased (t : nat)
  | WaitReturned (t : nat)
  | WaitFailed (t : nat)
  | WaitIllegalArgument (t : nat)
  | NotifyReturned (t : nat)
  | NotifyFailed (t : nat).

(** A step, or a thread that has to wait for another one. *)
Inductive outcome :=
  | Blocked
  | Go (s : mstate) (e : option mevent).

Inductive call :=
  | CallEnter (trylock : bool)
  | CallExit
  | CallHash
  | CallWait (ms ns : Z)
  | CallNotify (notify_all : bool).

(** [weak]: the compare-and-swap fails spuriously, the suspension of the owner
    times out, or the wait ends by timeout, interrupt or spuriously. *)
Record choice := {
  next_call : call;
  weak : bool;
  fresh_id : Z;
}.

(** Thread ids start at 1 (see [ThreadList::AllocThreadId]). *)
Definition thread_id (t : nat) : Z := Z.of_nat t + 1.

Definition kExtraSpinIters : Z := 100.

(** [Object::GenerateIdentityHashCode]: the new seed and the hash code. *)
Fixpoint GenerateIdentityHashCode (fuel : nat) (seed : Z) : option (Z * Z) :=
  let expected_value := seed in
  let new_value := u32 (expected_value * 1103515245 + 12345) in
  if Z.land expected_value kHashMask =? 0 then
    match fuel with O => None | S fuel => GenerateIdentityHashCode fuel new_value end
  else Some (new_value, Z.land expected_value kHashMask).

Section steps.

(** The collector and [Runtime::max_spins_before_thin_lock_inflation_]. *)
Context (cf : gc_config) (max_spins : Z).

Definition goto (s : mstate) (t : nat) (p : mpc) : option outcome := Some (Go (set_pc s t p) None).
Definition return_ (s : mstate) (t : nat) (e : mevent) : option outcome := Some (Go (set_pc s t Idle) (Some e)).

Definition GetLockWord (s : mstate) : option Z := mk_LockWord cf (word_ s).

Definition SetLockWord (s : mstate) (new_val : Z) : option mstate :=
  v ← GetValue cf new_val; Some (set_word s v).

(** [CasLockWord]; [fails] is a spurious failure of the weak form. *)
Definition CasLockWord (s : mstate) (fails : bool) (old_val new_val : Z) : option (mstate * bool) :=
  o ← GetValue cf old_val; n ← GetValue cf new_val;
  Some (if (word_ s =? o) && negb fails then (set_word s n, true) else (s, false)).

Definition pc_of_kont (k : inflate_kont) : mpc :=
  match k with
  | KEnter trylock n => EnterLoad trylock n
  | KHash => HashLoad
  | KWait ms ns => WaitLoad ms ns
  end.

(** [CHECK(owner == nullptr || owner == self || owner->IsSuspended())]. *)
Definition check_owner (s : mstate) (t : nat) (owner : option nat) : option unit :=
  match owner with
  | None => Some tt
  | Some o =>
      if decide (o = t) then Some tt
      else p ← pcs_ s !! o; dcheck (at_safepoint p && (0 <? suspend_count s o))
  end.

(** *** [MonitorEnter] *)

Definition enter_load (t : nat) (trylock : bool) (contention_count : Z) (s : mstate) : option outcome :=
  lock_word ← GetLockWord s;
  state ← GetState cf lock_word;
  match state with
  | kUnlocked =>
      thin_locked ← FromThinLockId cf (thread_id t) 0 (GCState lock_word);
      goto s t (EnterCas trylock contention_count lock_word thin_locked)
  | kThinLocked =>
      owner_thread_id ← ThinLockOwner cf lock_word;
      if owner_thread_id =? thread_id t then
        count ← ThinLockCount cf lock_word;
        let new_count := count + 1 in
        if new_count <=? kThinLockMaxCount then
          thin_locked ← FromThinLockId cf (thread_id t) new_count (GCState lock_word);
          if negb (gUseReadBarrier cf) then goto s t (EnterStore thin_locked)
          else goto s t (EnterCas trylock contention_count lock_word thin_locked)
        else goto s t (InflateThin lock_word 0 (KEnter trylock contention_count))
      else if trylock then return_ s t (TryEnterFailed t)
      else
        let contention_count := contention_count + 1 in
        if contention_count <=? kExtraSpinIters + max_spins
        then goto s t (EnterLoad trylock contention_count)
        else goto s t (InflateThin lock_word 0 (KEnter trylock 0))
  | kFatLocked =>
      mon ← FatLockMonitor cf lock_word;
      goto s t (TryLockOwner mon trylock KLock)
  | kHashCode =>
      hash_code ← GetHashCode cf lock_word;
      goto s t (Create None hash_code None (KEnter trylock contention_count))
  | kForwardingAddress => None
  end.

Definition enter_cas (c : choice) (t : nat) (trylock : bool) (contention_count lock_word thin_locked : Z)
    (s : mstate) : option outcome :=
  '(s, success) ← CasLockWord s (weak c) lock_word thin_locked;
  if (success : bool) then return_ s t (Entered t) else goto s t (EnterLoad trylock contention_count).

Definition enter_store (t : nat) (thin_locked : Z) (s : mstate) : option outcome :=
  s ← SetLockWord s thin_locked; return_ s t (Entered t).

(** *** Inflation *)

Definition InflateThinLocked (t : nat) (lock_word hash_code : Z) (k : inflate_kont) (s : mstate) : option outcome :=
  _ ← check_state cf lock_word kThinLocked;
  owner_thread_id ← ThinLockOwner cf lock_word;
  if owner_thread_id =? thread_id t then goto s t (Create (Some t) hash_code None k)
  else goto s t (SuspendOwner (Z.to_nat (owner_thread_id - 1)) hash_code k).

(** [SuspendThreadByThreadId], which returns the thread once it is suspended or
    null when it is gone or the wait times out. *)
Definition suspend_owner (c : choice) (t owner : nat) (hash_code : Z) (k : inflate_kont) (s : mstate)
    : option outcome :=
  if weak c then goto s t (LeaveSuspension None hash_code k)
  else
    match pcs_ s !! owner with
    | None => goto s t (LeaveSuspension None hash_code k)
    | Some p =>
        DCHECK bool_decide (owner <> t);
        if at_safepoint p then
          goto (set_suspend s owner (suspend_count s owner + 1)) t (LeaveSuspension (Some owner) hash_code k)
        else Some Blocked
    end.

(** The end of the [ScopedThreadSuspension]. *)
Definition leave_suspension (t : nat) (owner : option nat) (hash_code : Z) (k : inflate_kont) (s : mstate)
    : option outcome :=
  if 0 <? suspend_count s t then Some Blocked
  else
    match owner with
    | None => goto s t (pc_of_kont k)
    | Some o => goto s t (Recheck o hash_code k)
    end.

Definition recheck (t owner : nat) (hash_code : Z) (k : inflate_kont) (s : mstate) : option outcome :=
  lock_word ← GetLockWord s;
  state ← GetState cf lock_word;
  if bool_decide (state = kThinLocked) then
    owner_thread_id ← ThinLockOwner cf lock_word;
    if owner_thread_id =? thread_id owner then goto s t (Create (Some owner) hash_code (Some owner) k)
    else goto s t (ResumeOwner owner k)
  else goto s t (ResumeOwner owner k).

(** [MonitorPool::CreateMonitor]; the pool hands out an id that is not in use. *)
Definition create (c : choice) (t : nat) (owner : option nat) (hash_code : Z) (resume : option nat)
    (k : inflate_kont) (s : mstate) : option outcome :=
  let m := fresh_id c in
  if (0 <=? m) && (m <=? kMaxMonitorId) && bool_decide (monitors_ s !! m = None) then
    _ ← check_owner s t owner;
    goto (put_monitor s m (new_monitor owner hash_code)) t (InstallLoad m resume k)
  else Some Blocked.

(** The end of [Inflate]; [InflateThinLocked] resumes a suspended owner. *)
Definition after_inflate (resume : option nat) (k : inflate_kont) : mpc :=
  match resume with Some o => ResumeOwner o k | None => pc_of_kont k end.

(** [Install] up to the compare-and-swap; a monitor that is not installed goes
    back to the pool. *)
Definition install_load (t : nat) (m : Z) (resume : option nat) (k : inflate_kont) (s : mstate) : option outcome :=
  M ← monitors_ s !! m;
  _ ← check_owner s t (owner_ M);
  lw ← GetLockWord s;
  state ← GetState cf lw;
  match state with
  | kThinLocked =>
      owner ← owner_ M;
      o ← ThinLockOwner cf lw;
      DCHECK thread_id owner =? o;
      DCHECK bool_decide (monitor_lock_ M = None);
      count ← ThinLockCount cf lw;
      fat ← from_monitor cf m (GCState lw);
      goto (put_monitor s m (with_lock (with_count M count) (Some owner))) t (InstallCas m lw fat resume k)
  | kHashCode =>
      h ← GetHashCode cf lw;
      DCHECK hash_code_ M =? h;
      DCHECK bool_decide (monitor_lock_ M = None);
      fat ← from_monitor cf m (GCState lw);
      goto s t (InstallCas m lw fat resume k)
  | kFatLocked => goto (set_monitors s (delete m (monitors_ s))) t (after_inflate resume k)
  | kUnlocked | kForwardingAddress => None
  end.

Definition install_cas (c : choice) (t : nat) (m lw fat : Z) (resume : option nat) (k : inflate_kont)
    (s : mstate) : option outcome :=
  '(s, success) ← CasLockWord s (weak c) lw fat;
  if (success : bool) then goto s t (AddMonitor m resume k)
  else goto (set_monitors s (delete m (monitors_ s))) t (after_inflate resume k).

(** [MonitorList::Add] and the check after it.  With read barriers [Add] does not
    wait for [allow_new_monitors_]. *)
Definition add_monitor (t : nat) (m : Z) (resume : option nat) (k : inflate_kont) (s : mstate) : option outcome :=
  lw ← GetLockWord s;
  _ ← check_state cf lw kFatLocked;
  goto (set_list s (m :: list_ s)) t (after_inflate resume k).

(** [ThreadList::Resume]. *)
Definition resume_owner (t owner : nat) (k : inflate_kont) (s : mstate) : option outcome :=
  DCHECK 0 <? suspend_count s owner;
  goto (set_suspend s owner (suspend_count s owner - 1)) t (pc_of_kont k).

(** *** [TryLock] and [Lock] *)

Definition after_lock (m : Z) (k : lock_kont) : mpc :=
  match k with KLock => Idle | KWaitLock prev => WaitRestore m prev end.

(** The monitor is acquired. *)
Definition lock_event (t : nat) (k : lock_kont) : mevent :=
  match k with KLock => Entered t | KWaitLock _ => WaitReturned t end.

Definition try_lock_owner (t : nat) (m : Z) (trylock : bool) (k : lock_kont) (s : mstate) : option outcome :=
  M ← monitors_ s !! m;
  if bool_decide (owner_ M = Some t) then
    let count := u32 (lock_count_ M + 1) in
    DCHECK negb (count =? 0);
    DCHECK bool_decide (monitor_lock_ M = Some t);
    Some (Go (set_pc (put_monitor s m (with_count M count)) t (after_lock m k)) (Some (lock_event t k)))
  else goto s t (TryLockMutex m trylock k).

(** [ExclusiveTryLock] or [ExclusiveTryLockWithSpinning], by its last attempt. *)
Definition try_lock_mutex (t : nat) (m : Z) (trylock : bool) (k : lock_kont) (s : mstate) : option outcome :=
  M ← monitors_ s !! m;
  match monitor_lock_ M with
  | None => Some (Go (set_pc (put_monitor s m (with_lock M (Some t))) t (TryLockStore m k)) (Some (lock_event t k)))
  | Some _ =>
      if trylock then return_ s t (TryEnterFailed t) else goto s t (LockWaiters m k)
  end.

Definition try_lock_store (t : nat) (m : Z) (k : lock_kont) (s : mstate) : option outcome :=
  M ← monitors_ s !! m;
  DCHECK bool_decide (owner_ M = None);
  DCHECK lock_count_ M =? 0;
  DCHECK bool_decide (monitor_lock_ M = Some t);
  goto (put_monitor s m (with_owner M (Some t))) t (after_lock m k).

Definition lock_waiters (t : nat) (m : Z) (k : lock_kont) (s : mstate) : option outcome :=
  M ← monitors_ s !! m;
  goto (put_monitor s m (with_waiters M (num_waiters_ M + 1))) t (LockBlocked m k).

Definition lock_blocked (t : nat) (m : Z) (k : lock_kont) (s : mstate) : option outcome :=
  M ← monitors_ s !! m;
  match monitor_lock_ M with
  | None => Some (Go (set_pc (put_monitor s m (with_lock M (Some t))) t (LockRunnable m k)) (Some (lock_event t k)))
  | Some _ => Some Blocked
  end.

Definition lock_runnable (t : nat) (m : Z) (k : lock_kont) (s : mstate) : option outcome :=
  if 0 <? suspend_count s t then Some Blocked else goto s t (LockStore m k).

Definition lock_store (t : nat) (m : Z) (k : lock_kont) (s : mstate) : option outcome :=
  M ← monitors_ s !! m;
  DCHECK lock_count_ M =? 0;
  DCHECK bool_decide (monitor_lock_ M = Some t);
  goto (put_monitor s m (with_waiters (with_owner M (Some t)) (num_waiters_ M - 1))) t (after_lock m k).

(** *** [MonitorExit] *)

Definition exit_load (t : nat) (s : mstate) : option outcome :=
  lock_word ← GetLockWord s;
  state ← GetState cf lock_word;
  match state with
  | kHashCode | kUnlocked => return_ s t (ExitFailed t)
  | kThinLocked =>
      owner_thread_id ← ThinLockOwner cf lock_word;
      if negb (owner_thread_id =? thread_id t) then return_ s t (ExitFailed t)
      else
        count ← ThinLockCount cf lock_word;
        new_lw ← (if negb (count =? 0) then FromThinLockId cf (thread_id t) (count - 1) (GCState lock_word)
                  else FromDefault cf (GCState lock_word));
        if negb (gUseReadBarrier cf) then
          DCHECK ReadBarrierState new_lw =? 0;
          goto s t (ExitStore new_lw)
        else goto s t (ExitCas lock_word new_lw)
  | kFatLocked => mon ← FatLockMonitor cf lock_word; goto s t (UnlockOwner mon)
  | kForwardingAddress => None
  end.

Definition exit_cas (c : choice) (t : nat) (lock_word new_lw : Z) (s : mstate) : option outcome :=
  '(s, success) ← CasLockWord s (weak c) lock_word new_lw;
  if (success : bool) then return_ s t (Exited t) else goto s t ExitLoad.

Definition exit_store (t : nat) (new_lw : Z) (s : mstate) : option outcome :=
  s ← SetLockWord s new_lw; return_ s t (Exited t).

Definition unlock_owner (t : nat) (m : Z) (s : mstate) : option outcome :=
  M ← monitors_ s !! m;
  if bool_decide (owner_ M = Some t) then
    if lock_count_ M =? 0 then goto (put_monitor s m (with_owner M None)) t (SignalPop m KUnlock)
    else
      DCHECK bool_decide (monitor_lock_ M = Some t);
      return_ (put_monitor s m (with_count M (lock_count_ M - 1))) t (Exited t)
  else return_ s t (ExitFailed t).

Definition after_signal (m : Z) (k : signal_kont) : mpc :=
  match k with KUnlock => Idle | KWaitSignal prev => WaitBegin m prev end.

(** The monitor is released. *)
Definition release_event (t : nat) (k : signal_kont) : mevent :=
  match k with KUnlock => Exited t | KWaitSignal _ => WaitReleased t end.

(** [SignalWaiterAndReleaseMonitorLock]: the head of the loop. *)
Definition signal_pop (t : nat) (m : Z) (k : signal_kont) (s : mstate) : option outcome :=
  M ← monitors_ s !! m;
  DCHECK lock_count_ M =? 0;
  DCHECK bool_decide (monitor_lock_ M = Some t);
  match pop_wake (links_of s M) with
  | Some (thread, ls) =>
      DCHECK bool_decide (owner_ M = None);
      goto (put_links s m M ls) t (SignalMutex m thread k)
  | None =>
      Some (Go (set_pc (put_monitor s m (with_lock M None)) t (after_signal m k)) (Some (release_event t k)))
  end.

Definition signal_mutex (t : nat) (m : Z) (thread : nat) (k : signal_kont) (s : mstate) : option outcome :=
  match wait_mutex_ s thread with
  | None => goto (set_mutex s thread (Some t)) t (SignalCheck m thread k)
  | Some _ => Some Blocked
  end.

Definition signal_check (t : nat) (m : Z) (thread : nat) (k : signal_kont) (s : mstate) : option outcome :=
  M ← monitors_ s !! m;
  if bool_decide (wait_monitor_ s thread <> None) then
    Some (Go (set_pc (put_monitor s m (with_lock M None)) t (SignalSend m thread k)) (Some (release_event t k)))
  else goto (set_mutex s thread None) t (SignalPop m k).

(** [Signal] wakes the thread if it is waiting on its condition variable. *)
Definition signal_send (t : nat) (m : Z) (thread : nat) (k : signal_kont) (s : mstate) : option outcome :=
  let waiting := match pcs_ s !! thread with Some (WaitCond _ _) => true | _ => false end in
  let s := if waiting then set_signalled s thread true else s in
  goto (set_mutex s thread None) t (after_signal m k).

(** *** [IdentityHashCode] *)

Definition hash_load (t : nat) (s : mstate) : option outcome :=
  lw ← GetLockWord s;
  state ← GetState cf lw;
  match state with
  | kUnlocked =>
      '(seed, hash) ← GenerateIdentityHashCode 1 (hash_code_seed s);
      hash_word ← FromHashCode cf hash (GCState lw);
      _ ← check_state cf hash_word kHashCode;
      goto (set_seed s seed) t (HashCas lw hash_word)
  | kThinLocked =>
      '(seed, hash) ← GenerateIdentityHashCode 1 (hash_code_seed s);
      goto (set_seed s seed) t (InflateThin lw hash KHash)
  | kFatLocked => monitor ← FatLockMonitor cf lw; goto s t (HashMonitor monitor)
  | kHashCode => h ← GetHashCode cf lw; return_ s t (HashReturned t h)
  | kForwardingAddress => None
  end.

(** The compare-and-swap is the strong one. *)
Definition hash_cas (t : nat) (lw hash_word : Z) (s : mstate) : option outcome :=
  '(s, success) ← CasLockWord s false lw hash_word;
  if (success : bool) then h ← GetHashCode cf hash_word; return_ s t (HashReturned t h)
  else goto s t HashLoad.

(** [Monitor::GetHashCode]: the first load, [HasHashCode], the swap, the second
    load. *)
Definition hash_monitor (t : nat) (m : Z) (s : mstate) : option outcome :=
  M ← monitors_ s !! m; goto s t (HashHas m (hash_code_ M)).

Definition hash_has (t : nat) (m hc : Z) (s : mstate) : option outcome :=
  M ← monitors_ s !! m;
  if hash_code_ M =? 0 then
    '(seed, hash) ← GenerateIdentityHashCode 1 (hash_code_seed s);
    goto (set_seed s seed) t (HashSwap m hash)
  else
    DCHECK negb (hash_code_ M =? 0);
    return_ s t (HashReturned t hc).

Definition hash_swap (t : nat) (m new_hash : Z) (s : mstate) : option outcome :=
  M ← monitors_ s !! m;
  if hash_code_ M =? 0 then goto (put_monitor s m (with_hash M new_hash)) t (HashReload m)
  else goto s t (HashReload m).

Definition hash_reload (t : nat) (m : Z) (s : mstate) : option outcome :=
  M ← monitors_ s !! m;
  DCHECK negb (hash_code_ M =? 0);
  return_ s t (HashReturned t (hash_code_ M)).

(** *** [Wait] *)

Definition wait_load (t : nat) (ms ns : Z) (s : mstate) : option outcome :=
  lock_word ← GetLockWord s;
  state ← GetState cf lock_word;
  match state with
  | kHashCode | kUnlocked => return_ s t (WaitFailed t)
  | kThinLocked =>
      owner_thread_id ← ThinLockOwner cf lock_word;
      if negb (owner_thread_id =? thread_id t) then return_ s t (WaitFailed t)
      else goto s t (Create (Some t) 0 None (KWait ms ns))
  | kFatLocked => mon ← FatLockMonitor cf lock_word; goto s t (WaitOwner mon ms ns)
  | kForwardingAddress => None
  end.

(** The monitor's [Wait] up to [ScopedThreadSuspension]. *)
Definition wait_owner (t : nat) (m ms ns : Z) (s : mstate) : option outcome :=
  M ← monitors_ s !! m;
  if bool_decide (owner_ M <> Some t) then return_ s t (WaitFailed t)
  else if (ms <? 0) || (ns <? 0) || (999999 <? ns) then return_ s t (WaitIllegalArgument t)
  else
    goto (put_monitor s m (with_waiters (with_owner (with_count M 0) None) (num_waiters_ M + 1))) t
      (WaitLockMutex m (lock_count_ M)).

Definition wait_lock_mutex (t : nat) (m prev : Z) (s : mstate) : option outcome :=
  match wait_mutex_ s t with
  | None => goto (set_mutex s t (Some t)) t (WaitEnqueue m prev)
  | Some _ => Some Blocked
  end.

Definition wait_enqueue (t : nat) (m prev : Z) (s : mstate) : option outcome :=
  M ← monitors_ s !! m;
  ls ← AppendToWaitSet (length (pcs_ s)) (links_of s M) t;
  DCHECK bool_decide (wait_monitor_ s t = None);
  DCHECK bool_decide (monitor_lock_ M = Some t);
  goto (set_wait_monitor (put_links s m M ls) t (Some m)) t (SignalPop m (KWaitSignal prev)).

(** A thread that was interrupted before does not wait. *)
Definition wait_begin (c : choice) (t : nat) (m prev : Z) (s : mstate) : option outcome :=
  if weak c then goto s t (WaitUnlockMutex m prev)
  else goto (set_signalled (set_mutex s t None) t false) t (WaitCond m prev).

(** [ConditionVariable::Wait] and [TimedWait] return with the mutex held. *)
Definition wait_cond (c : choice) (t : nat) (m prev : Z) (s : mstate) : option outcome :=
  match wait_mutex_ s t with
  | None =>
      if signalled s t || weak c then goto (set_mutex s t (Some t)) t (WaitUnlockMutex m prev)
      else Some Blocked
  | Some _ => Some Blocked
  end.

Definition wait_unlock_mutex (t : nat) (m prev : Z) (s : mstate) : option outcome :=
  goto (set_mutex s t None) t (WaitRunnable m prev).

Definition wait_runnable (t : nat) (m prev : Z) (s : mstate) : option outcome :=
  if 0 <? suspend_count s t then Some Blocked else goto s t (WaitClear m prev).

Definition wait_clear (t : nat) (m prev : Z) (s : mstate) : option outcome :=
  match wait_mutex_ s t with
  | None =>
      DCHECK bool_decide (wait_monitor_ s t <> None);
      goto (set_wait_monitor s t None) t (TryLockOwner m false (KWaitLock prev))
  | Some _ => Some Blocked
  end.

(** After [Lock<LockReason::kForWait>]. *)
Definition wait_restore (t : nat) (m prev : Z) (s : mstate) : option outcome :=
  M ← monitors_ s !! m;
  let M := with_count M prev in
  DCHECK bool_decide (monitor_lock_ M = Some t);
  DCHECK bool_decide (wait_mutex_ s t <> Some t);
  let M := with_waiters M (num_waiters_ M - 1) in
  DCHECK bool_decide (owner_ M = Some t);
  ls ← RemoveFromWaitSet (length (pcs_ s)) (links_of s M) t;
  goto (put_links s m M ls) t Idle.

(** *** [Notify] and [NotifyAll] *)

Definition notify_load (t : nat) (all : bool) (s : mstate) : option outcome :=
  lock_word ← GetLockWord s;
  state ← GetState cf lock_word;
  match state with
  | kHashCode | kUnlocked => return_ s t (NotifyFailed t)
  | kThinLocked =>
      owner_thread_id ← ThinLockOwner cf lock_word;
      if negb (owner_thread_id =? thread_id t) then return_ s t (NotifyFailed t)
      else return_ s t (NotifyReturned t)
  | kFatLocked => mon ← FatLockMonitor cf lock_word; goto s t (NotifyMonitor mon all)
  | kForwardingAddress => None
  end.

Definition notify_monitor (t : nat) (m : Z) (all : bool) (s : mstate) : option outcome :=
  M ← monitors_ s !! m;
  if bool_decide (owner_ M <> Some t) then return_ s t (NotifyFailed t)
  else
    ls ← (if all then notify_all (length (pcs_ s)) (links_of s M) else Some (notify_one (links_of s M)));
    return_ (put_links s m M ls) t (NotifyReturned t).

(** *** A step of a thread *)

(** An idle thread with a pending suspension request does not run. *)
Definition idle (c : choice) (t : nat) (s : mstate) : option outcome :=
  if 0 <? suspend_count s t then Some Blocked
  else
    goto s t (match next_call c with
              | CallEnter trylock => EnterLoad trylock 0
              | CallExit => ExitLoad
              | CallHash => HashLoad
              | CallWait ms ns => WaitLoad ms ns
              | CallNotify all => NotifyLoad all
              end).

Definition thread_step (c : choice) (t : nat) (p : mpc) (s : mstate) : option outcome :=
  match p with
  | Idle => idle c t s
  | EnterLoad trylock n => enter_load t trylock n s
  | EnterCas trylock n lw new => enter_cas c t trylock n lw new s
  | EnterStore new => enter_store t new s
  | InflateThin lw h k => InflateThinLocked t lw h k s
  | SuspendOwner o h k => suspend_owner c t o h k s
  | LeaveSuspension o h k => leave_suspension t o h k s
  | Recheck o h k => recheck t o h k s
  | Create o h r k => create c t o h r k s
  | InstallLoad m r k => install_load t m r k s
  | InstallCas m lw fat r k => install_cas c t m lw fat r k s
  | AddMonitor m r k => add_monitor t m r k s
  | ResumeOwner o k => resume_owner t o k s
  | TryLockOwner m trylock k => try_lock_owner t m trylock k s
  | TryLockMutex m trylock k => try_lock_mutex t m trylock k s
  | TryLockStore m k => try_lock_store t m k s
  | LockWaiters m k => lock_waiters t m k s
  | LockBlocked m k => lock_blocked t m k s
  | LockRunnable m k => lock_runnable t m k s
  | LockStore m k => lock_store t m k s
  | ExitLoad => exit_load t s
  | ExitCas lw new => exit_cas c t lw new s
  | ExitStore new => exit_store t new s
  | UnlockOwner m => unlock_owner t m s
  | SignalPop m k => signal_pop t m k s
  | SignalMutex m u k => signal_mutex t m u k s
  | SignalCheck m u k => signal_check t m u k s
  | SignalSend m u k => signal_send t m u k s
  | HashLoad => hash_load t s
  | HashCas lw hw => hash_cas t lw hw s
  | HashMonitor m => hash_monitor t m s
  | HashHas m hc => hash_has t m hc s
  | HashSwap m h => hash_swap t m h s
  | HashReload m => hash_reload t m s
  | WaitLoad ms ns => wait_load t ms ns s
  | WaitOwner m ms ns => wait_owner t m ms ns s
  | WaitLockMutex m prev => wait_lock_mutex t m prev s
  | WaitEnqueue m prev => wait_enqueue t m prev s
  | WaitBegin m prev => wait_begin c t m prev s
  | WaitCond m prev => wait_cond c t m prev s
  | WaitUnlockMutex m prev => wait_unlock_mutex t m prev s
  | WaitRunnable m prev => wait_runnable t m prev s
  | WaitClear m prev => wait_clear t m prev s
  | WaitRestore m prev => wait_restore t m prev s
  | NotifyLoad all => notify_load t all s
  | NotifyMonitor m all => notify_monitor t m all s
  end.

(** ** The collector *)

(** [Object::AtomicSetReadBarrierState] and [AtomicSetMarkBit], at the swap
    that succeeds. *)
Definition set_gc_bit (mark : bool) (b : Z) (s : mstate) : option mstate :=
  lw ← GetLockWord s;
  new_lw ← (if mark then SetMarkBitState cf lw b else SetReadBarrierState cf lw b);
  Some (set_word s new_lw).

(** [Monitor::Deflate] of the object, run with all mutators suspended: the new
    state and whether the object has no monitor now. *)
Definition Deflate (s : mstate) : option (mstate * bool) :=
  lw ← GetLockWord s;
  state ← GetState cf lw;
  if bool_decide (state = kFatLocked) then
    m ← FatLockMonitor cf lw;
    M ← monitors_ s !! m;
    if 0 <? num_waiters_ M then Some (s, false)
    else if bool_decide (monitor_lock_ M <> None) then Some (s, false)
    else
      DCHECK lock_count_ M =? 0;
      DCHECK bool_decide (owner_ M = None);
      new_lw ← (if negb (hash_code_ M =? 0) then FromHashCode cf (hash_code_ M) (GCState lw)
                else FromDefault cf (GCState lw));
      s ← SetLockWord s new_lw;
      Some (put_monitor s m (without_obj M), true)
  else Some (s, true).

(** [MonitorDeflateVisitor::IsMarked], true when it returns null. *)
Definition deflated (s : mstate) : option (mstate * bool) :=
  '(s, gone) ← Deflate s;
  if (gone : bool) then
    lw ← GetLockWord s;
    state ← GetState cf lw;
    DCHECK negb (bool_decide (state = kFatLocked));
    Some (s, true)
  else Some (s, false).

(** [DeflateMonitors]: [SweepMonitorList] with the visitor that deflates; a
    monitor that lost its object goes back to the pool. *)
Fixpoint sweep (l : list Z) (s : mstate) : option (mstate * list Z) :=
  match l with
  | [] => Some (s, [])
  | m :: l =>
      M ← monitors_ s !! m;
      '(s, gone) ← (if obj_ M then deflated s else Some (s, true));
      if (gone : bool) then sweep l (set_monitors s (delete m (monitors_ s)))
      else '(s, rest) ← sweep l s; Some (s, m :: rest)
  end.

Definition DeflateMonitors (s : mstate) : option mstate :=
  '(s, l) ← sweep (list_ s) s; Some (set_list s l).

(** ** Runs *)

Inductive mlabel :=
  | Thread (t : nat) (c : choice)
  | GcBit (mark : bool) (b : Z)
  | GcDeflate.

(** What a label does: [None] a failed check, [Some Blocked] nothing. Only a
    collector with read barriers writes its bits while threads run, and
    monitors are deflated while every thread is at a safepoint. *)
Definition perform (l : mlabel) (s : mstate) : option outcome :=
  match l with
  | Thread t c =>
      match pcs_ s !! t with
      | Some p => thread_step c t p s
      | None => Some Blocked
      end
  | GcBit mark b =>
      if gUseReadBarrier cf && bool_decide (is_u 1 b) then s ← set_gc_bit mark b s; Some (Go s None)
      else Some Blocked
  | GcDeflate =>
      if forallb at_safepoint (pcs_ s) then s ← DeflateMonitors s; Some (Go s None)
      else Some Blocked
  end.

Inductive mstep : mstate -> mlabel -> option mevent -> mstate -> Prop :=
  | mstep_go s l e s' : perform l s = Some (Go s' e) -> mstep s l e s'.

(** The reported events of a run. *)
Inductive mrun : mstate -> list mevent -> mstate -> Prop :=
  | mrun_nil s : mrun s [] s
  | mrun_step s l e s' es s'' : mstep s l e s' -> mrun s' es s'' -> mrun s (option_list e ++ es) s''.

End steps.

(** [n] threads, an unlocked object and no monitors. *)
Definition minit (n : nat) (seed : Z) : mstate := {|
  word_ := 0; monitors_ := ∅; list_ := []; hash_code_seed := seed; pcs_ := replicate n Idle;
  suspend_count := fun _ => 0; next_ := fun _ => None; wait_monitor_ := fun _ => None;
  wait_mutex_ := fun _ => None; signalled := fun _ => false |}.

(** Running a list of labels, for examples: the final state, the events and
    whether every step was taken. *)
Fixpoint execute (cf : gc_config) (max_spins : Z) (ls : list mlabel) (s : mstate) : option (mstate * list mevent) :=
  match ls with
  | [] => Some (s, [])
  | l :: ls =>
      o ← perform cf max_spins l s;
      match o with
      | Blocked => None
      | Go s e => '(s, es) ← execute cf max_spins ls s; Some (s, option_list e ++ es)
      end
  end.
