(* ===== verification/MonitorInv.v ===== *)
(** * The invariant of monitors

    What holds of the lock word, the monitors and the threads between two steps
    of [Monitor], and the abstract Java monitor the steps implement: a
    reentrant lock with waiting threads and an identity hash code.  The
    invariant is a conjunction of small predicates on the components of the
    state, each with lemmas that say how it survives a step of one thread. *)

From Stdlib Require Import ZArith Lia Bool.
From stdpp Require Import base numbers list option functions gmap sets.
From S2P Require Import Prelude LockWord WaitSet Monitor.

Local Open Scope Z_scope.
Local Open Scope art_scope.

(** ** The specification *)

(** The holder with the number of times it has entered, the number of times a
    waiting thread will hold the monitor again, and the hash code. *)
Record jmonitor := {
  holder : option (nat * Z);
  saved : nat -> option Z;
  identity : option Z;
}.

Definition set_holder (a : jmonitor) (h : option (nat * Z)) : jmonitor := Build_jmonitor h (saved a) (identity a).
Definition set_saved (a : jmonitor) (t : nat) (d : option Z) : jmonitor :=
  Build_jmonitor (holder a) (<[t := d]> (saved a)) (identity a).

Definition held_by (a : jmonitor) (t : nat) : bool :=
  match holder a with Some (o, _) => bool_decide (o = t) | None => false end.

(** What an event does; [None] when the event is not possible. The hash code 0
    means none. *)
Definition japply (a : jmonitor) (e : mevent) : option jmonitor :=
  match e with
  | Entered t =>
      match holder a with
      | None => Some (set_holder a (Some (t, 1)))
      | Some (o, d) => if decide (o = t) then Some (set_holder a (Some (t, d + 1))) else None
      end
  | TryEnterFailed t =>
      match holder a with Some (o, _) => if decide (o = t) then None else Some a | None => None end
  | Exited t =>
      match holder a with
      | Some (o, d) =>
          if decide (o = t) then Some (set_holder a (if d =? 1 then None else Some (t, d - 1))) else None
      | None => None
      end
  | ExitFailed t | WaitFailed t | NotifyFailed t => if held_by a t then None else Some a
  | WaitIllegalArgument t | NotifyReturned t => if held_by a t then Some a else None
  | WaitReleased t =>
      match holder a with
      | Some (o, d) => if decide (o = t) then Some (set_saved (set_holder a None) t (Some d)) else None
      | None => None
      end
  | WaitReturned t =>
      match holder a, saved a t with
      | None, Some d => Some (set_saved (set_holder a (Some (t, d))) t None)
      | _, _ => None
      end
  | HashReturned t h =>
      if h =? 0 then Some a
      else
        match identity a with
        | None => Some (Build_jmonitor (holder a) (saved a) (Some h))
        | Some h' => if h =? h' then Some a else None
        end
  end.

Definition japply_opt (a : jmonitor) (e : option mevent) : option jmonitor :=
  match e with None => Some a | Some e => japply a e end.

Definition jinit : jmonitor := {| holder := None; saved := fun _ => None; identity := None |}.

(** ** What a thread's place says *)

(** The monitor a thread works on, which is the object's. *)
Definition mentions (p : mpc) : option Z :=
  match p with
  | AddMonitor m _ _ | TryLockOwner m _ _ | TryLockMutex m _ _ | TryLockStore m _ | LockWaiters m _
  | LockBlocked m _ | LockRunnable m _ | LockStore m _ | UnlockOwner m | SignalPop m _ | SignalMutex m _ _
  | SignalCheck m _ _ | SignalSend m _ _ | HashMonitor m | HashHas m _ | HashSwap m _ | HashReload m
  | WaitOwner m _ _ | WaitLockMutex m _ | WaitEnqueue m _ | WaitBegin m _ | WaitCond m _ | WaitUnlockMutex m _
  | WaitRunnable m _ | WaitClear m _ | WaitRestore m _ | NotifyMonitor m _ => Some m
  | _ => None
  end.

(** A monitor that is not installed yet. *)
Definition private (p : mpc) : option Z :=
  match p with InstallLoad m _ _ | InstallCas m _ _ _ _ => Some m | _ => None end.

(** The mutex of the monitor is held and [owner_] not set. *)
Definition transit (p : mpc) : bool :=
  match p with
  | TryLockStore _ _ | LockRunnable _ _ | LockStore _ _ | WaitLockMutex _ _ | WaitEnqueue _ _
  | SignalPop _ _ | SignalMutex _ _ _ | SignalCheck _ _ _ => true
  | _ => false
  end.

Definition restoring (p : mpc) : bool := match p with WaitRestore _ _ => true | _ => false end.

Definition must_hold (p : mpc) : bool := transit p || restoring p.

Definition must_not (p : mpc) : bool :=
  match p with
  | TryLockMutex _ _ _ | LockWaiters _ _ | LockBlocked _ _ | TryLockOwner _ _ (KWaitLock _)
  | SignalSend _ _ _ | WaitBegin _ _ | WaitCond _ _ | WaitUnlockMutex _ _ | WaitRunnable _ _ | WaitClear _ _ => true
  | _ => false
  end.

Definition lock_waits (k : lock_kont) : Z := match k with KLock => 0 | KWaitLock _ => 1 end.
Definition signal_waits (k : signal_kont) : Z := match k with KUnlock => 0 | KWaitSignal _ => 1 end.

(** The share of the thread in [num_waiters_]. *)
Definition waits (p : mpc) : Z :=
  match p with
  | TryLockOwner _ _ k | TryLockMutex _ _ k | TryLockStore _ k | LockWaiters _ k => lock_waits k
  | LockBlocked _ k | LockRunnable _ k | LockStore _ k => 1 + lock_waits k
  | SignalPop _ k | SignalMutex _ _ k | SignalCheck _ _ k | SignalSend _ _ k => signal_waits k
  | WaitLockMutex _ _ | WaitEnqueue _ _ | WaitBegin _ _ | WaitCond _ _ | WaitUnlockMutex _ _
  | WaitRunnable _ _ | WaitClear _ _ | WaitRestore _ _ => 1
  | _ => 0
  end.

Definition adds (p : mpc) : Z := match p with AddMonitor _ _ _ => 1 | _ => 0 end.

(** The owner the thread keeps suspended. *)
Definition suspended (p : mpc) : option nat :=
  match p with
  | LeaveSuspension o _ _ | Create _ _ o _ | InstallLoad _ o _ | InstallCas _ _ _ o _ | AddMonitor _ o _ => o
  | Recheck o _ _ | ResumeOwner o _ => Some o
  | _ => None
  end.

Definition suspends (o : nat) (p : mpc) : Z := if decide (suspended p = Some o) then 1 else 0.

(** The wait mutexes that thread [t] holds. *)
Definition has_mutex (t : nat) (p : mpc) (u : nat) : bool :=
  match p with
  | WaitEnqueue _ _ | WaitBegin _ _ | WaitUnlockMutex _ _
  | SignalPop _ (KWaitSignal _) | SignalMutex _ _ (KWaitSignal _) => bool_decide (u = t)
  | SignalCheck _ thread KUnlock | SignalSend _ thread KUnlock => bool_decide (u = thread)
  | SignalCheck _ thread (KWaitSignal _) | SignalSend _ thread (KWaitSignal _) =>
      bool_decide (u = thread) || bool_decide (u = t)
  | _ => false
  end.

(** [wait_monitor_] of the thread. *)
Definition waiting_on (p : mpc) : option Z :=
  match p with
  | SignalPop m (KWaitSignal _) | SignalMutex m _ (KWaitSignal _) | SignalCheck m _ (KWaitSignal _)
  | SignalSend m _ (KWaitSignal _) | WaitBegin m _ | WaitCond m _ | WaitUnlockMutex m _ | WaitRunnable m _
  | WaitClear m _ => Some m
  | _ => None
  end.

(** The thread can be in one of the wait sets. *)
Definition queued (p : mpc) : bool :=
  match p with
  | TryLockOwner _ _ (KWaitLock _) | TryLockMutex _ _ (KWaitLock _) | TryLockStore _ (KWaitLock _)
  | LockWaiters _ (KWaitLock _) | LockBlocked _ (KWaitLock _) | LockRunnable _ (KWaitLock _)
  | LockStore _ (KWaitLock _) | WaitRestore _ _ => true
  | _ => match waiting_on p with Some _ => true | None => false end
  end.

Definition lock_prev (k : lock_kont) : option Z := match k with KLock => None | KWaitLock prev => Some prev end.
Definition signal_prev (k : signal_kont) : option Z := match k with KUnlock => None | KWaitSignal prev => Some prev end.

(** The count a thread in [Wait] saved, while it holds the monitor and while it
    does not. *)
Definition held_prev (p : mpc) : option Z :=
  match p with
  | TryLockStore _ k | LockRunnable _ k | LockStore _ k => lock_prev k
  | SignalPop _ k | SignalMutex _ _ k | SignalCheck _ _ k => signal_prev k
  | WaitLockMutex _ prev | WaitEnqueue _ prev | WaitRestore _ prev => Some prev
  | _ => None
  end.

Definition saved_prev (p : mpc) : option Z :=
  match p with
  | TryLockOwner _ _ k | TryLockMutex _ _ k | LockWaiters _ k | LockBlocked _ k => lock_prev k
  | SignalSend _ _ k => signal_prev k
  | WaitBegin _ prev | WaitCond _ prev | WaitUnlockMutex _ prev | WaitRunnable _ prev | WaitClear _ prev => Some prev
  | _ => None
  end.

(** How often a thread holds the monitor it holds. *)
Definition depth (p : mpc) (M : Monitor) : Z :=
  match held_prev p with Some prev => prev + 1 | None => lock_count_ M + 1 end.

(** ** Sums over the threads *)

Definition lsum (f : mpc -> Z) (ps : list mpc) : Z := foldr (fun p a => f p + a) 0 ps.

Lemma lsum_insert f ps t p q : ps !! t = Some p -> lsum f (<[t := q]> ps) = lsum f ps - f p + f q.
Proof.
  revert t. induction ps as [|x ps IH]; intros [|t] Ht; simpl in *; try done.
  - injection Ht as ->. lia.
  - rewrite (IH t) by done. lia.
Qed.

Lemma lsum_nonneg f ps : (forall p, 0 <= f p) -> 0 <= lsum f ps.
Proof. intros Hf. induction ps as [|x ps IH]; simpl; [lia|]. specialize (Hf x). lia. Qed.

Lemma lsum_lookup f ps t p : (forall p, 0 <= f p) -> ps !! t = Some p -> f p <= lsum f ps.
Proof.
  intros Hf. revert t. induction ps as [|x ps IH]; intros [|t] Ht; simpl in *; try done.
  - injection Ht as ->. pose proof (lsum_nonneg f ps Hf). lia.
  - specialize (IH t Ht). specialize (Hf x). lia.
Qed.

Lemma lsum_zero f ps t p : (forall p, 0 <= f p) -> lsum f ps = 0 -> ps !! t = Some p -> f p = 0.
Proof. intros Hf H0 Ht. pose proof (lsum_lookup f ps t p Hf Ht). specialize (Hf p). lia. Qed.

Lemma lsum_none f ps : (forall t p, ps !! t = Some p -> f p = 0) -> lsum f ps = 0.
Proof.
  induction ps as [|x ps IH]; intros Hf; simpl; [done|].
  rewrite (Hf 0%nat x), IH by (intros; by eapply (Hf (S _)) || done). done.
Qed.

Lemma waits_nonneg p : 0 <= waits p.
Proof. destruct p; simpl; try lia; destruct k; simpl; lia. Qed.

Lemma adds_nonneg p : 0 <= adds p.
Proof. destruct p; simpl; lia. Qed.

Lemma suspends_nonneg o p : 0 <= suspends o p.
Proof. unfold suspends. case_decide; lia. Qed.

(** ** The invariant *)

Definition is_fat (v : view) : Z := match v with Fat _ => 1 | _ => 0 end.

Definition not_fat (v : view) : Prop := forall m, v <> Fat m.

(** What an inflation for [owner] with [hash_code] relies on: the lock is still
    the one it saw, or another thread has inflated it. *)
Definition inflating (v : view) (owner : option nat) (hash_code : Z) : Prop :=
  (exists m, v = Fat m) \/
  match owner with
  | Some o => exists c, v = Thin (thread_id o) c
  | None => v = Hash hash_code
  end.

(** The view after an exit of a thin lock held [c] more times. *)
Definition exit_view (t : nat) (c : Z) : view :=
  if c =? 0 then Unlocked else Thin (thread_id t) (c - 1).

(** An owner other than the inflating thread is suspended. *)
Definition owner_link (t : nat) (owner resume : option nat) : Prop :=
  match owner with Some o => o = t \/ resume = Some o | None => True end.

Section invariant.

Context (cf : gc_config).

(** Local variables of a thread. *)
Definition pc_wf (t : nat) (p : mpc) : Prop :=
  match p with
  | EnterCas _ _ lw new =>
      exists v v' g, gc_ok cf g /\ lw = encode v g /\ new = encode v' g /\ view_ok v' /\
        ((v = Unlocked /\ v' = Thin (thread_id t) 0) \/
         exists c, 0 <= c /\ v = Thin (thread_id t) c /\ v' = Thin (thread_id t) (c + 1))
  | ExitCas lw new =>
      exists c g, gc_ok cf g /\ view_ok (Thin (thread_id t) c) /\
        lw = encode (Thin (thread_id t) c) g /\ new = encode (exit_view t c) g
  | HashCas lw new => exists h g, gc_ok cf g /\ 1 <= h < 2 ^ 28 /\ lw = encode Unlocked g /\ new = encode (Hash h) g
  | InflateThin lw h _ =>
      (exists o c g, gc_ok cf g /\ view_ok (Thin o c) /\ lw = encode (Thin o c) g) /\ is_u 28 h
  | SuspendOwner o h _ => o <> t /\ is_u 28 h
  | LeaveSuspension _ h _ | Recheck _ h _ => is_u 28 h
  | Create owner h resume _ => is_u 28 h /\ owner_link t owner resume
  | TryLockOwner _ trylock k | TryLockMutex _ trylock k =>
      match k with KLock => True | KWaitLock prev => trylock = false end
  | SignalCheck _ u (KWaitSignal _) | SignalSend _ u (KWaitSignal _) => u <> t
  | HashSwap _ h => 1 <= h < 2 ^ 28
  | _ => True
  end /\
  (forall prev, held_prev p = Some prev \/ saved_prev p = Some prev -> 0 <= prev < 2 ^ 32).

(** What a thread knows about the lock word. *)
Definition pc_view (v : view) (t : nat) (p : mpc) : Prop :=
  match p with
  | EnterStore new =>
      gUseReadBarrier cf = false /\
      exists c, v = Thin (thread_id t) c /\ view_ok (Thin (thread_id t) (c + 1)) /\
        new = encode (Thin (thread_id t) (c + 1)) 0
  | ExitStore new =>
      gUseReadBarrier cf = false /\
      exists c, v = Thin (thread_id t) c /\ new = encode (exit_view t c) 0
  | InflateThin lw _ _ =>
      (forall c g, gc_ok cf g -> view_ok (Thin (thread_id t) c) -> lw = encode (Thin (thread_id t) c) g ->
         exists c', v = Thin (thread_id t) c')
  | Create owner h _ _ => inflating v owner h
  | _ => True
  end /\
  (forall m, mentions p = Some m -> v = Fat m).

(** A monitor that is being installed. *)
Definition private_ok (t : nat) (p : mpc) (M : Monitor) : Prop :=
  is_u 28 (hash_code_ M) /\ owner_link t (owner_ M) (suspended p) /\
  match p with
  | InstallLoad m _ _ => view_ok (Fat m) /\ M = new_monitor (owner_ M) (hash_code_ M)
  | InstallCas m lw fat _ _ =>
      view_ok (Fat m) /\
      exists g, gc_ok cf g /\ fat = encode (Fat m) g /\
      match owner_ M with
      | Some o => exists c, view_ok (Thin (thread_id o) c) /\ lw = encode (Thin (thread_id o) c) g /\
          M = with_lock (with_count (new_monitor (Some o) (hash_code_ M)) c) (Some o)
      | None => lw = encode (Hash (hash_code_ M)) g /\ M = new_monitor None (hash_code_ M)
      end
  | _ => True
  end.

(** The holder of the mutex of the object's monitor. *)
Definition holder_ok (t : nat) (p : mpc) (M : Monitor) : Prop :=
  if transit p then owner_ M = None /\ lock_count_ M = 0
  else owner_ M = Some t /\ 0 <= lock_count_ M < 2 ^ 32 /\ (restoring p = true -> lock_count_ M = 0).

Record lock_ok (ps : list mpc) (M : Monitor) : Prop := {
  lock_must t p : ps !! t = Some p -> must_hold p = true -> monitor_lock_ M = Some t;
  lock_state :
    match monitor_lock_ M with
    | None => owner_ M = None /\ lock_count_ M = 0
    | Some o => exists q, ps !! o = Some q /\ must_not q = false /\ holder_ok o q M
    end;
}.

(** The hash codes that threads have read. *)
Definition hash_ok (ps : list mpc) (M : Monitor) : Prop :=
  is_u 28 (hash_code_ M) /\
  forall t p, ps !! t = Some p ->
    match p with
    | HashHas _ hc => hc = 0 \/ hc = hash_code_ M
    | HashReload _ => hash_code_ M <> 0
    | _ => True
    end.

Definition sets_ok (ps : list mpc) (ls : links) : Prop :=
  exists ws ks, linked ls ws ks /\
    forall t, t ∈ ws ++ ks -> exists p, ps !! t = Some p /\ queued p = true.

(** The object's monitor. *)
Record fat_ok (ps : list mpc) (next : nat -> option nat) (M : Monitor) : Prop := {
  fat_lock : lock_ok ps M;
  fat_waiters : num_waiters_ M = lsum waits ps;
  fat_hash : hash_ok ps M;
  fat_obj : obj_ M = true;
  fat_sets : sets_ok ps (Build_links next (wait_head_ M) (wake_head_ M));
}.

Definition Fats (v : view) (ms : gmap Z Monitor) (ps : list mpc) (next : nat -> option nat) : Prop :=
  match v with
  | Fat m => exists M, ms !! m = Some M /\ fat_ok ps next M
  | _ => forall t, next t = None
  end.

Definition Words (v : view) (w : Z) (n : nat) : Prop :=
  Z.of_nat n < 2 ^ 16 /\ view_ok v /\ (exists gc, gc_ok cf gc /\ (gUseReadBarrier cf = false -> gc = 0) /\ w = encode v gc) /\
  match v with
  | Thin o _ => exists t, (t < n)%nat /\ o = thread_id t
  | Hash h => h <> 0
  | Forward _ => False
  | _ => True
  end.

Definition Locals (ps : list mpc) : Prop := forall t p, ps !! t = Some p -> pc_wf t p.
Definition Views (v : view) (ps : list mpc) : Prop := forall t p, ps !! t = Some p -> pc_view v t p.

Record Privates (v : view) (ms : gmap Z Monitor) (ps : list mpc) : Prop := {
  private_one t p m : ps !! t = Some p -> private p = Some m ->
    exists M, ms !! m = Some M /\ v <> Fat m /\ inflating v (owner_ M) (hash_code_ M) /\ private_ok t p M;
  private_inj t p t' p' m : ps !! t = Some p -> ps !! t' = Some p' ->
    private p = Some m -> private p' = Some m -> t = t';
}.

Definition Suspends (sc : nat -> Z) (ps : list mpc) : Prop := forall o, sc o = lsum (suspends o) ps.
Definition Targets (ps : list mpc) : Prop := forall t p o, ps !! t = Some p -> suspended p = Some o ->
  o <> t /\ exists q, ps !! o = Some q /\ at_safepoint q = true.
Definition Adds (v : view) (l : list Z) (ps : list mpc) : Prop :=
  lsum adds ps + Z.of_nat (length l) = is_fat v /\ (forall m, m ∈ l -> v = Fat m).
Definition Mutexes (mu : nat -> option nat) (ps : list mpc) : Prop := forall u t,
  mu u = Some t <-> exists p, ps !! t = Some p /\ has_mutex t p u = true.
Definition WaitMonitors (wm : nat -> option Z) (ps : list mpc) : Prop := forall t p,
  ps !! t = Some p -> wm t = waiting_on p.

(** The specification's state. *)
Definition holder_of (v : view) (ms : gmap Z Monitor) (ps : list mpc) : option (nat * Z) :=
  match v with
  | Thin o c => Some (Z.to_nat (o - 1), c + 1)
  | Fat m => M ← ms !! m; o ← monitor_lock_ M; q ← ps !! o; Some (o, depth q M)
  | _ => None
  end.

Definition hash_of (v : view) (ms : gmap Z Monitor) : Z :=
  match v with
  | Hash h => h
  | Fat m => match ms !! m with Some M => hash_code_ M | None => 0 end
  | _ => 0
  end.

Record Abs (a : jmonitor) (v : view) (ms : gmap Z Monitor) (ps : list mpc) : Prop := {
  abs_holder : holder a = holder_of v ms ps;
  abs_saved t p : ps !! t = Some p -> saved a t = (fun d => d + 1) <$> saved_prev p;
  abs_hash h : identity a = Some h -> h <> 0 /\ hash_of v ms = h;
}.

Record Inv (v : view) (a : jmonitor) (s : mstate) : Prop := {
  inv_words : Words v (word_ s) (length (pcs_ s));
  inv_locals : Locals (pcs_ s);
  inv_views : Views v (pcs_ s);
  inv_privates : Privates v (monitors_ s) (pcs_ s);
  inv_fats : Fats v (monitors_ s) (pcs_ s) (next_ s);
  inv_suspends : Suspends (suspend_count s) (pcs_ s);
  inv_targets : Targets (pcs_ s);
  inv_adds : Adds v (list_ s) (pcs_ s);
  inv_mutexes : Mutexes (wait_mutex_ s) (pcs_ s);
  inv_wait_monitors : WaitMonitors (wait_monitor_ s) (pcs_ s);
  inv_abs : Abs a v (monitors_ s) (pcs_ s);
}.

End invariant.

(** ** How the parts survive a step of one thread *)

Section frame.

Context (cf : gc_config) (ps : list mpc) (t : nat) (p p' : mpc) (Ht : ps !! t = Some p).

Lemma lookup_self : <[t := p']> ps !! t = Some p'.
Proof. apply list_lookup_insert_eq. by eapply lookup_lt_Some. Qed.

Lemma lookup_other u : u <> t -> <[t := p']> ps !! u = ps !! u.
Proof. intros. by apply list_lookup_insert_ne. Qed.

(** Every thread of the new list is the one that moved, or was there. *)
Lemma lookup_step u q : <[t := p']> ps !! u = Some q -> (u = t /\ q = p') \/ (u <> t /\ ps !! u = Some q).
Proof.
  destruct (decide (u = t)) as [->|Hu].
  - rewrite lookup_self. intros [= <-]. by left.
  - rewrite lookup_other by done. by right.
Qed.

Lemma Locals_insert : Locals cf ps -> pc_wf cf t p' -> Locals cf (<[t := p']> ps).
Proof. intros Hl Hp u q [[-> ->]|[_ Hq]]%lookup_step; [done|by apply Hl]. Qed.

Lemma Views_change v v' :
  Views cf v ps -> pc_view cf v' t p' ->
  (forall u q, u <> t -> ps !! u = Some q -> pc_view cf v u q -> pc_view cf v' u q) ->
  Views cf v' (<[t := p']> ps).
Proof. intros Hv Hp Ho u q [[-> ->]|[? Hq]]%lookup_step; [done|]. apply Ho; [done..|]. by apply Hv. Qed.

Lemma Views_insert v : Views cf v ps -> pc_view cf v t p' -> Views cf v (<[t := p']> ps).
Proof. intros Hv Hp. by apply (Views_change v v). Qed.

Lemma Suspends_insert sc : Suspends sc ps -> suspended p' = suspended p -> Suspends sc (<[t := p']> ps).
Proof.
  intros Hs E o. rewrite (lsum_insert _ ps t p) by done. unfold suspends at 2 3. rewrite E, Hs. lia.
Qed.

Lemma Suspends_add sc o : Suspends sc ps -> suspended p = None -> suspended p' = Some o ->
  Suspends (<[o := sc o + 1]> sc) (<[t := p']> ps).
Proof.
  intros Hs E E' u. rewrite (lsum_insert _ ps t p) by done. unfold suspends at 2 3. rewrite E, E', <- Hs.
  destruct (decide (u = o)) as [->|Hu].
  - rewrite fn_lookup_insert. rewrite decide_False, decide_True by done. lia.
  - rewrite fn_lookup_insert_ne by done. rewrite !decide_False by congruence. lia.
Qed.

Lemma Suspends_sub sc o : Suspends sc ps -> suspended p = Some o -> suspended p' = None ->
  Suspends (<[o := sc o - 1]> sc) (<[t := p']> ps).
Proof.
  intros Hs E E' u. rewrite (lsum_insert _ ps t p) by done. unfold suspends at 2 3. rewrite E, E', <- Hs.
  destruct (decide (u = o)) as [->|Hu].
  - rewrite fn_lookup_insert. rewrite decide_True, decide_False by done. lia.
  - rewrite fn_lookup_insert_ne by done. rewrite !decide_False by congruence. lia.
Qed.

Lemma suspended_count sc u q o : Suspends sc ps -> ps !! u = Some q -> suspended q = Some o -> 0 < sc o.
Proof.
  intros Hs Hq E. rewrite Hs. pose proof (lsum_lookup (suspends o) ps u q (suspends_nonneg o) Hq) as Hl.
  unfold suspends at 1 in Hl. rewrite decide_True in Hl by done. lia.
Qed.

(** A thread leaves a safepoint only when nobody suspends it. *)
Lemma Targets_insert sc : Targets ps -> Suspends sc ps ->
  (forall o, suspended p' = Some o -> suspended p = Some o \/ (o <> t /\ exists q, ps !! o = Some q /\ at_safepoint q = true)) ->
  (at_safepoint p = true -> at_safepoint p' = true \/ sc t <= 0) ->
  Targets (<[t := p']> ps).
Proof.
  intros Hg Hs Hn Hsafe u q o Hq Ho.
  assert (Hold : o <> u /\ exists r, ps !! o = Some r /\ at_safepoint r = true).
  { apply lookup_step in Hq as [[-> ->]|[Hu Hq]]; [|by apply (Hg u q)].
    destruct (Hn o Ho) as [Ho'|]; [|done]. by apply (Hg t p). }
  destruct Hold as (Hou & r & Hr & Hrs). split; [done|].
  destruct (decide (o = t)) as [->|Hot].
  - rewrite lookup_self. exists p'. split; [done|]. assert (r = p) as -> by congruence.
    destruct (Hsafe Hrs) as [|Hsc]; [done|].
    apply lookup_step in Hq as [[-> ->]|[_ Hq]]; [done|].
    pose proof (suspended_count sc u q t Hs Hq Ho). lia.
  - exists r. by rewrite lookup_other.
Qed.

Lemma Adds_insert v l : Adds v l ps -> adds p' = adds p -> Adds v l (<[t := p']> ps).
Proof. intros [Ha Hl] E. split; [|done]. rewrite (lsum_insert _ ps t p), E by done. lia. Qed.

Lemma Mutexes_insert mu : Mutexes mu ps -> (forall u, has_mutex t p' u = has_mutex t p u) ->
  Mutexes mu (<[t := p']> ps).
Proof.
  unfold Mutexes. intros Hm E u x. rewrite Hm. destruct (decide (x = t)) as [->|Hx].
  - rewrite lookup_self, Ht. split; intros (q & [= <-] & Hq); eexists; (split; [done|]); congruence.
  - by rewrite lookup_other.
Qed.

Lemma Mutexes_acquire mu u : Mutexes mu ps -> mu u = None ->
  (forall x, has_mutex t p' x = has_mutex t p x || bool_decide (x = u)) ->
  Mutexes (<[u := Some t]> mu) (<[t := p']> ps).
Proof.
  unfold Mutexes. intros Hm Hu E x y. destruct (decide (y = t)) as [->|Hy].
  - rewrite lookup_self. transitivity (has_mutex t p' x = true); [|naive_solver].
    rewrite E, orb_true_iff, bool_decide_eq_true. destruct (decide (x = u)) as [->|Hx].
    + rewrite fn_lookup_insert. naive_solver.
    + rewrite fn_lookup_insert_ne by done. rewrite Hm, Ht. naive_solver.
  - rewrite lookup_other by done. destruct (decide (x = u)) as [->|Hx].
    + rewrite fn_lookup_insert, <- Hm. naive_solver.
    + rewrite fn_lookup_insert_ne by done. apply Hm.
Qed.

Lemma Mutexes_release mu u : Mutexes mu ps -> has_mutex t p u = true ->
  (forall x, has_mutex t p' x = has_mutex t p x && bool_decide (x <> u)) ->
  Mutexes (<[u := None]> mu) (<[t := p']> ps).
Proof.
  unfold Mutexes. intros Hm Hu E x y.
  assert (Hmu : mu u = Some t) by (apply Hm; eauto).
  destruct (decide (y = t)) as [->|Hy].
  - rewrite lookup_self. transitivity (has_mutex t p' x = true); [|naive_solver].
    rewrite E, andb_true_iff, bool_decide_eq_true. destruct (decide (x = u)) as [->|Hx].
    + rewrite fn_lookup_insert. naive_solver.
    + rewrite fn_lookup_insert_ne by done. rewrite Hm, Ht. naive_solver.
  - rewrite lookup_other by done. destruct (decide (x = u)) as [->|Hx].
    + rewrite fn_lookup_insert, <- Hm. naive_solver.
    + rewrite fn_lookup_insert_ne by done. apply Hm.
Qed.

Lemma WaitMonitors_insert wm : WaitMonitors wm ps -> waiting_on p' = waiting_on p -> WaitMonitors wm (<[t := p']> ps).
Proof. intros Hw E u q [[-> ->]|[_ Hq]]%lookup_step; [rewrite E; by apply Hw|by apply Hw]. Qed.

Lemma WaitMonitors_set wm : WaitMonitors wm ps -> WaitMonitors (<[t := waiting_on p']> wm) (<[t := p']> ps).
Proof.
  intros Hw u q [[-> ->]|[Hu Hq]]%lookup_step; [by rewrite fn_lookup_insert|].
  rewrite fn_lookup_insert_ne by done. by apply Hw.
Qed.

(** The monitors other threads are installing. *)
Lemma Privates_step v v' ms ms' :
  Privates cf v ms ps ->
  (forall u q m M, u <> t -> ps !! u = Some q -> private q = Some m -> ms !! m = Some M ->
     v <> Fat m -> inflating v (owner_ M) (hash_code_ M) -> private_ok cf u q M ->
     ms' !! m = Some M /\ v' <> Fat m /\ inflating v' (owner_ M) (hash_code_ M)) ->
  (forall m, private p' = Some m ->
     (exists M, ms' !! m = Some M /\ v' <> Fat m /\ inflating v' (owner_ M) (hash_code_ M) /\ private_ok cf t p' M) /\
     (private p = Some m \/ ms !! m = None)) ->
  Privates cf v' ms' (<[t := p']> ps).
Proof.
  intros [H1 Hi] Ho Hp. split.
  - intros u q m [[-> ->]|[Hu Hq]]%lookup_step Hm; [by apply Hp|].
    destruct (H1 u q m Hq Hm) as (M & HM & Hv & Hin & Hok).
    destruct (Ho u q m M Hu Hq Hm HM Hv Hin Hok) as (? & ? & ?). by exists M.
  - assert (Hx : forall u q m, u <> t -> ps !! u = Some q -> private q = Some m -> private p' = Some m -> False).
    { intros u q m Hu Hq Hm Hm'. destruct (Hp m Hm') as [_ [Hpm|Hnone]].
      - apply Hu. by apply (Hi u q t p m).
      - destruct (H1 u q m Hq Hm) as (M & HM & _). congruence. }
    intros u q u' q' m [[-> ->]|[Hu Hq]]%lookup_step [[-> ->]|[Hu' Hq']]%lookup_step Hm Hm'; try done.
    + by destruct (Hx u' q' m).
    + by destruct (Hx u q m).
    + by apply (Hi u q u' q' m).
Qed.

Lemma Privates_insert v ms : Privates cf v ms ps -> private p' = None -> Privates cf v ms (<[t := p']> ps).
Proof. intros HP E. apply (Privates_step v v ms ms); [done|naive_solver|congruence]. Qed.

(** A change of the object's monitor. *)
Lemma Privates_put m ms M : Privates cf (Fat m) ms ps -> private p' = None ->
  Privates cf (Fat m) (<[m := M]> ms) (<[t := p']> ps).
Proof.
  intros HP E. apply (Privates_step (Fat m) (Fat m) ms); [done| |congruence].
  intros u q m' M' _ _ _ HM' Hne Hin _. rewrite lookup_insert_ne by congruence. done.
Qed.

End frame.

(** ** The object's monitor in a step *)

Lemma holder_of_held m ms ps M o q : ms !! m = Some M -> monitor_lock_ M = Some o -> ps !! o = Some q ->
  holder_of (Fat m) ms ps = Some (o, depth q M).
Proof. intros E1 E2 E3. simpl. rewrite E1. simpl. rewrite E2. simpl. by rewrite E3. Qed.

Lemma holder_of_free m ms ps M : ms !! m = Some M -> monitor_lock_ M = None -> holder_of (Fat m) ms ps = None.
Proof. intros E1 E2. simpl. rewrite E1. simpl. by rewrite E2. Qed.

Definition hash_fact (p : mpc) (M : Monitor) : Prop :=
  match p with
  | HashHas _ hc => hc = 0 \/ hc = hash_code_ M
  | HashReload _ => hash_code_ M <> 0
  | _ => True
  end.

Section fat_frame.

Context (cf : gc_config) (ps : list mpc) (t : nat) (p p' : mpc) (Ht : ps !! t = Some p).

Lemma lock_ok_step M M' :
  lock_ok ps M ->
  (must_hold p' = true -> monitor_lock_ M' = Some t) ->
  (monitor_lock_ M' = Some t ->
     (monitor_lock_ M = Some t \/ monitor_lock_ M = None) /\ must_not p' = false /\ holder_ok t p' M') ->
  (monitor_lock_ M' <> Some t ->
     (monitor_lock_ M <> Some t /\ monitor_lock_ M' = monitor_lock_ M /\ owner_ M' = owner_ M /\ lock_count_ M' = lock_count_ M) \/
     (monitor_lock_ M = Some t /\ monitor_lock_ M' = None /\ owner_ M' = None /\ lock_count_ M' = 0)) ->
  lock_ok (<[t := p']> ps) M'.
Proof.
  intros [Hm Hs] Hmust Hself Hother. split.
  - intros u q Hq Hh. apply (lookup_step ps t p p' Ht) in Hq as [[-> ->]|[Hu Hq]]; [by apply Hmust|].
    pose proof (Hm u q Hq Hh) as Hlock.
    destruct (decide (monitor_lock_ M' = Some t)) as [E|E].
    + destruct (Hself E) as ([?|?] & _); congruence.
    + destruct (Hother E) as [(_ & -> & _)|(? & _)]; [done|congruence].
  - destruct (decide (monitor_lock_ M' = Some t)) as [E|E].
    + rewrite E. exists p'. rewrite (lookup_self ps t p) by done. by destruct (Hself E) as (_ & ? & ?).
    + destruct (Hother E) as [(Hne & -> & Eo & Ec)|(_ & -> & Eo & Ec)]; [|done].
      destruct (monitor_lock_ M) as [o|]; [|by rewrite Eo, Ec].
      destruct Hs as (q & Hq & Hn & Hh). exists q. rewrite (lookup_other ps t p') by congruence.
      split; [done|]. split; [done|]. unfold holder_ok in *. by rewrite Eo, Ec.
Qed.

Lemma hash_ok_step M M' :
  hash_ok ps M -> is_u 28 (hash_code_ M') -> (hash_code_ M' = hash_code_ M \/ hash_code_ M = 0) ->
  hash_fact p' M' -> hash_ok (<[t := p']> ps) M'.
Proof.
  intros [Hr Ho] Hr' He Hp. split; [done|].
  intros u q [[-> ->]|[_ Hq]]%(lookup_step ps t p p' Ht); [done|].
  specialize (Ho u q Hq). destruct q; try done; destruct He as [-> | He]; try done.
  destruct Ho as [?|?]; left; congruence.
Qed.

Lemma sets_ok_insert ls : sets_ok ps ls -> (queued p = true -> queued p' = true) -> sets_ok (<[t := p']> ps) ls.
Proof.
  intros (ws & ks & Hl & Hq) He. exists ws, ks. split; [done|]. intros u Hu. destruct (Hq u Hu) as (q & Hlk & Hqq).
  destruct (decide (u = t)) as [->|Hut].
  - rewrite (lookup_self ps t p) by done. exists p'. split; [done|]. apply He. congruence.
  - exists q. by rewrite (lookup_other ps t p') by done.
Qed.

(** Only the place of the thread changes. *)
Lemma Fats_insert v ms next :
  Fats v ms ps next ->
  transit p' = transit p -> restoring p' = restoring p -> waits p' = waits p ->
  (queued p = true -> queued p' = true) ->
  (forall m M, v = Fat m -> ms !! m = Some M -> fat_ok ps next M ->
     (must_not p' = true -> monitor_lock_ M <> Some t) /\ hash_fact p' M) ->
  Fats v ms (<[t := p']> ps) next.
Proof.
  intros HF Et Er Ew Hq Hx. destruct v as [|o c|m|h|a]; try done.
  destruct HF as (M & HM & HF). exists M. split; [done|]. destruct (Hx m M eq_refl HM HF) as [Hn Hh].
  destruct HF as [Hl Hw Hha Ho Hs]. split; [| |by apply (hash_ok_step M); [|apply Hha|left|]|done|by apply sets_ok_insert].
  - apply (lock_ok_step M); [done| | |].
    + intros Hmh. apply (lock_must _ _ Hl t p); [done|]. unfold must_hold in *. congruence.
    + intros E. split; [by left|]. split; [destruct (must_not p'); [by destruct Hn|done]|].
      pose proof (lock_state _ _ Hl) as Hst. rewrite E in Hst. destruct Hst as (q & Hlk & _ & Hhold).
      assert (q = p) as -> by congruence. unfold holder_ok in *. by rewrite Et, Er.
    + intros E. left. done.
  - rewrite (lsum_insert _ ps t p), Ew by done. lia.
Qed.

Lemma Abs_insert a v ms : Abs a v ms ps -> held_prev p' = held_prev p -> saved_prev p' = saved_prev p ->
  Abs a v ms (<[t := p']> ps).
Proof.
  intros [Hh Hs Hi] Eh Es. split; [|intros u q [[-> ->]|[_ Hq]]%(lookup_step ps t p p' Ht)|done].
  - rewrite Hh. destruct v as [|o c|m|h|x]; try done. simpl.
    destruct (ms !! m) as [M|]; [simpl|done]. destruct (monitor_lock_ M) as [o|]; [simpl|done].
    destruct (decide (o = t)) as [->|Ho].
    + rewrite (lookup_self ps t p), Ht by done. simpl. unfold depth. by rewrite Eh.
    + by rewrite (lookup_other ps t p') by done.
  - rewrite Es. by apply Hs.
  - by apply Hs.
Qed.

End fat_frame.

(** Everything the other threads can see of a place. *)
Definition class (p : mpc) := (transit p, restoring p, waits p, adds p, waiting_on p, held_prev p, saved_prev p).

Section quiet.

Context (cf : gc_config) (v : view) (a : jmonitor) (s : mstate) (HI : Inv cf v a s).
Context (t : nat) (p : mpc) (Ht : pcs_ s !! t = Some p).

(** A step that changes the place of the thread, and possibly what the
    invariant does not mention. *)
Lemma Inv_quiet p' s' :
  s' = set_pc (Build_mstate (word_ s) (monitors_ s) (list_ s) (hash_code_seed s') (pcs_ s) (suspend_count s) (next_ s)
                 (wait_monitor_ s) (wait_mutex_ s) (signalled s')) t p' ->
  pc_wf cf t p' -> pc_view cf v t p' -> private p' = None ->
  class p' = class p -> (forall u, has_mutex t p' u = has_mutex t p u) ->
  (queued p = true -> queued p' = true) ->
  (forall o, suspended p' = Some o -> suspended p = Some o) -> (suspended p' = None -> suspended p = None) ->
  (at_safepoint p = true -> at_safepoint p' = true \/ suspend_count s t <= 0) ->
  (forall m M, v = Fat m -> monitors_ s !! m = Some M -> fat_ok (pcs_ s) (next_ s) M ->
     (must_not p' = true -> monitor_lock_ M <> Some t) /\ hash_fact p' M) ->
  Inv cf v a s'.
Proof.
  intros -> Hwf Hview Hpriv Hcl Hmu Hq Hsus Hsus' Hsafe Hfat. injection Hcl as Et Er Ew Ea Ewo Eh Es.
  assert (Esus : suspended p' = suspended p).
  { destruct (suspended p') as [o|] eqn:E; symmetry; [by apply Hsus|by apply Hsus']. }
  destruct HI as [H1 H2 H3 H4 H5 H6 H7 H8 H9 H10 H11]. split; simpl.
  - by rewrite length_insert.
  - by apply (Locals_insert _ _ _ p).
  - by apply (Views_insert _ _ _ p).
  - by apply (Privates_insert _ _ _ p).
  - by apply (Fats_insert _ _ p).
  - by apply (Suspends_insert _ _ p).
  - apply (Targets_insert _ _ p) with (suspend_count s); try done. intros o Ho. left. by apply Hsus.
  - by apply (Adds_insert _ _ p).
  - by apply (Mutexes_insert _ _ p).
  - by apply (WaitMonitors_insert _ _ p).
  - by apply (Abs_insert _ _ p).
Qed.

End quiet.
