(* ===== verification/MonitorSteps.v ===== *)
(** * Every step of the monitors keeps the invariant

    For each function of [Monitor] that makes up a step: from a state with the
    invariant of [MonitorInv] it does not fail a check, and the state it leads
    to has the invariant again, with the abstract monitor changed as the
    reported event says. *)

From Stdlib Require Import ZArith Lia Bool.
From stdpp Require Import base numbers list option functions gmap sets.
From S2P Require Import Prelude LockWord WaitSet Monitor MonitorInv.

Local Open Scope Z_scope.
Local Open Scope art_scope.

#[local] Ltac Zify.zify_post_hook ::= Z.to_euclidean_division_equations.

(** The outcome of a step of thread [t]: an abort only when the thread has
    entered the monitor as often as an [unsigned int] can count. *)
Definition good (cf : gc_config) (a : jmonitor) (t : nat) (o : option outcome) : Prop :=
  match o with
  | None => holder a = Some (t, 2 ^ 32)
  | Some Blocked => True
  | Some (Go s' e) => exists v' a', japply_opt a e = Some a' /\ Inv cf v' a' s'
  end.

Lemma thread_id_inj t u : thread_id t = thread_id u -> t = u.
Proof. unfold thread_id. lia. Qed.

Lemma held_by_holder a t : held_by a t = true <-> exists d, holder a = Some (t, d).
Proof.
  unfold held_by. destruct (holder a) as [[o d]|]; [|naive_solver].
  rewrite bool_decide_eq_true. naive_solver.
Qed.

(** ** Hash codes *)

Lemma land_hash_range x : is_u 28 (Z.land x kHashMask).
Proof. unfold is_u. change kHashMask with (Z.ones 28). rewrite Z.land_ones by done. lia. Qed.

(** A seed without hash code is followed by one with the hash code 12345. *)
Lemma GenerateIdentityHashCode_spec seed :
  exists seed' h, GenerateIdentityHashCode 1 seed = Some (seed', h) /\ 1 <= h < 2 ^ 28.
Proof.
  unfold GenerateIdentityHashCode. pose proof (land_hash_range seed) as H1.
  destruct (Z.eqb_spec (Z.land seed kHashMask) 0) as [E|E]; [|do 2 eexists; split; [done|unfold is_u in H1; lia]].
  set (x := u32 (seed * 1103515245 + 12345)). pose proof (land_hash_range x) as H2.
  assert (Hx : Z.land x kHashMask = 12345).
  { subst x. change kHashMask with (Z.ones 28) in *. rewrite Z.land_ones in * by done. unfold wrap. lia. }
  rewrite Hx. simpl. do 2 eexists. split; [done|]. lia.
Qed.

Section steps.

Context (cf : gc_config) (max_spins : Z).
Context (v : view) (a : jmonitor) (s : mstate) (HI : Inv cf v a s).
Context (t : nat).

(** ** Reading the lock word *)

Lemma load_word : exists gc, gc_ok cf gc /\ (gUseReadBarrier cf = false -> gc = 0) /\ view_ok v /\
  word_ s = encode v gc /\ GetLockWord cf s = Some (encode v gc) /\
  GetState cf (encode v gc) = Some (state_of v) /\ GCState (encode v gc) = gc.
Proof.
  destruct (inv_words _ _ _ _ HI) as (_ & Hv & (gc & Hg & H0 & Hw) & Hx). exists gc.
  split_and!; try done.
  - unfold GetLockWord. by apply mk_encode.
  - by apply GetState_encode.
  - apply (GCState_encode cf); [done..|]. by destruct v.
Qed.

Lemma thread_ok u c : (u < length (pcs_ s))%nat -> 0 <= c < 2 ^ 12 -> view_ok (Thin (thread_id u) c).
Proof. intros Hu Hc. destruct (inv_words _ _ _ _ HI) as (Hn & _). unfold view_ok, thread_id. lia. Qed.

(** The owner of a thin lock is a thread. *)
Lemma thin_owner o c : v = Thin o c -> exists u, (u < length (pcs_ s))%nat /\ o = thread_id u /\
  0 <= c < 2 ^ 12 /\ holder a = Some (u, c + 1).
Proof.
  intros E. destruct (inv_words _ _ _ _ HI) as (_ & Hv & _ & Hx). rewrite E in Hv, Hx.
  destruct Hx as (u & Hu & ->). destruct Hv as [_ Hc]. exists u. split_and!; try done; try lia.
  rewrite (abs_holder _ _ _ _ (inv_abs _ _ _ _ HI)), E. simpl. unfold thread_id. do 2 f_equal. lia.
Qed.

Lemma unlocked_free : (v = Unlocked \/ exists h, v = Hash h) -> holder a = None.
Proof. intros Hv. rewrite (abs_holder _ _ _ _ (inv_abs _ _ _ _ HI)). by destruct Hv as [-> | [h ->]]. Qed.

End steps.

(** Establish [Inv_quiet]'s conditions for places given by constructors; what
    remains is what the new place says about the lock word. *)
Ltac quiet HI Ht :=
  eapply (Inv_quiet _ _ _ _ HI _ _ Ht);
  [reflexivity
  |split; [|by intros ? [[=]|[=]]]
  |split; [|try by intros ? [=]]
  |try reflexivity |try reflexivity |try done |try done |try done |try done
  |try by left |try by intros; split].

Section enter.

Context (cf : gc_config) (max_spins : Z).
Context (v : view) (a : jmonitor) (s : mstate) (HI : Inv cf v a s).
Context (t : nat).

Lemma idle_good c : pcs_ s !! t = Some Idle -> good cf a t (idle c t s).
Proof.
  intros Ht. unfold idle. destruct (Z.ltb_spec 0 (suspend_count s t)) as [|Hs]; [done|].
  exists v, a. split; [done|].
  destruct (next_call c); quiet HI Ht; try done; right; lia.
Qed.

Lemma enter_load_good trylock n : pcs_ s !! t = Some (EnterLoad trylock n) ->
  good cf a t (enter_load cf max_spins t trylock n s).
Proof.
  intros Ht. destruct (load_word cf v a s HI) as (gc & Hg & H0 & Hv & _ & EL & ES & EG).
  assert (Hlt := lookup_lt_Some _ _ _ Ht). unfold enter_load. rewrite EL. cbn [mbind option_bind]. rewrite ES.
  cbn [mbind option_bind]. rewrite EG.
  destruct v as [|o c|m|h|x] eqn:Ev; cbn [state_of].
  - assert (Hok := thread_ok cf _ a s HI t 0 Hlt ltac:(lia)).
    rewrite FromThinLockId_encode by done. cbn [mbind option_bind]. exists Unlocked, a. split; [done|].
    quiet HI Ht; [|done]. exists Unlocked, (Thin (thread_id t) 0), gc. split_and!; try done. by left.
  - rewrite ThinLockOwner_encode, ThinLockCount_encode by done. cbn [mbind option_bind].
    destruct (thin_owner cf _ a s HI o c eq_refl) as (u & Hu & -> & Hc & Hh).
    destruct (Z.eqb_spec (thread_id u) (thread_id t)) as [<-%thread_id_inj|Hne].
    + change kThinLockMaxCount with 4095. destruct (Z.leb_spec (c + 1) 4095).
      * assert (Hok := thread_ok cf _ a s HI u (c + 1) Hlt ltac:(lia)).
        rewrite FromThinLockId_encode by done. cbn [mbind option_bind].
        destruct (gUseReadBarrier cf) eqn:Erb; cbn [negb]; exists (Thin (thread_id u) c), a; (split; [done|]).
        -- quiet HI Ht; [|done]. exists (Thin (thread_id u) c), (Thin (thread_id u) (c + 1)), gc.
           split_and!; try done. right. exists c. split_and!; [lia|done|done].
        -- quiet HI Ht; [done|]. rewrite (H0 eq_refl). split; [done|]. by exists c.
      * exists (Thin (thread_id u) c), a. split; [done|].
        quiet HI Ht; [split; [by exists (thread_id u), c, gc|unfold is_u; lia]|]. intros c' g' _ _ _. by exists c.
    + destruct trylock.
      * exists (Thin (thread_id u) c), a. split; [cbn; rewrite Hh; by rewrite decide_False by congruence|].
        quiet HI Ht; done.
      * destruct (_ <=? _); exists (Thin (thread_id u) c), a; (split; [done|]); quiet HI Ht; try done.
        -- split; [by exists (thread_id u), c, gc|unfold is_u; lia].
        -- intros c' g' Hg' Hv' E. destruct (encode_inj cf _ _ _ _ Hv Hv' Hg Hg' E) as [[= ?] _]. congruence.
  - rewrite FatLockMonitor_encode by done. cbn [mbind option_bind]. exists (Fat m), a. split; [done|].
    quiet HI Ht; [done|done|by intros ? [= <-]].
  - rewrite GetHashCode_encode by done. cbn [mbind option_bind]. exists (Hash h), a. split; [done|].
    quiet HI Ht; [split; [done|exact I]|]. by right.
  - by destruct (inv_words _ _ _ _ HI) as (_ & _ & _ & []).
Qed.

End enter.

(** ** Steps that change the lock word between states without a monitor *)

Lemma Fats_no_monitor v ms ps next : not_fat v -> Fats v ms ps next <-> forall u, next u = None.
Proof. intros Hv. destruct v as [|o c|m|h|x]; try done. by destruct (Hv m). Qed.

Lemma is_fat_no_monitor v : not_fat v -> is_fat v = 0.
Proof. intros Hv. destruct v as [|o c|m|h|x]; try done. by destruct (Hv m). Qed.

Section word.

Context (cf : gc_config) (v : view) (a : jmonitor) (s : mstate) (HI : Inv cf v a s).
Context (t : nat) (p : mpc) (Ht : pcs_ s !! t = Some p) (Hrun : at_safepoint p = false).

(** The thread locks or hashes an unlocked object, or changes its own lock. *)
Definition own_change (v' : view) : Prop :=
  v = Unlocked \/ exists c, v = Thin (thread_id t) c /\ (v' = Unlocked \/ exists c', v' = Thin (thread_id t) c').

(** Nobody inflates a lock whose owner runs. *)
Lemma not_inflating owner h resume u q : u <> t -> pcs_ s !! u = Some q -> suspended q = resume ->
  owner_link u owner resume -> (v = Unlocked \/ exists c, v = Thin (thread_id t) c) -> ~ inflating v owner h.
Proof.
  intros Hu Hq Hs Hl Hv [[m E]|Hin]; [destruct Hv as [?|[? ?]]; congruence|].
  destruct owner as [o|]; [|destruct Hv as [?|[? ?]]; congruence].
  destruct Hin as [c E]. destruct Hv as [?|[c' E']]; [congruence|].
  assert (o = t) as -> by (apply thread_id_inj; congruence).
  destruct Hl as [?|Hr]; [congruence|].
  destruct (inv_targets _ _ _ _ HI u q t Hq) as (_ & r & Hr' & Hs'); [congruence|congruence].
Qed.

Lemma own_change_views v' : own_change v' ->
  forall u q, u <> t -> pcs_ s !! u = Some q -> pc_view cf v u q -> pc_view cf v' u q.
Proof.
  intros Hc u q Hu Hq [Hv Hm].
  assert (Hv0 : v = Unlocked \/ exists c, v = Thin (thread_id t) c) by (destruct Hc as [?|(c & ? & _)]; eauto).
  assert (Hno : forall c, v <> Thin (thread_id u) c).
  { intros c E. destruct Hv0 as [?|[c' E']]; [congruence|]. apply Hu. apply thread_id_inj. congruence. }
  split.
  - destruct q; try done.
    + destruct Hv as (_ & c & E & _). by destruct (Hno c).
    + intros c g Hg Hok E. destruct (Hv c g Hg Hok E) as [c' E']. by destruct (Hno c').
    + pose proof (inv_locals _ _ _ _ HI u _ Hq) as [[_ Hl] _].
      by destruct (not_inflating owner hash_code resume u _ Hu Hq eq_refl Hl Hv0).
    + destruct Hv as (_ & c & E & _). by destruct (Hno c).
  - intros m E. specialize (Hm m E). destruct Hv0 as [?|[c ?]]; congruence.
Qed.

Lemma Inv_word p' v' w' a' :
  own_change v' -> not_fat v' -> Words cf v' w' (length (pcs_ s)) ->
  pc_wf cf t p' -> pc_view cf v' t p' -> private p' = None ->
  class p' = class p -> (forall u, has_mutex t p' u = has_mutex t p u) ->
  queued p = false -> suspended p' = None -> suspended p = None -> must_not p' = false ->
  holder a' = holder_of v' (monitors_ s) (pcs_ s) -> (forall u, saved a' u = saved a u) ->
  (forall h, identity a' = Some h -> h <> 0 /\ hash_of v' (monitors_ s) = h) ->
  Inv cf v' a' (set_pc (set_word s w') t p').
Proof.
  intros Hc Hnf' Hw Hwf Hview Hpriv Hcl Hmu Hq Es' Es Hmn Hh Hsv Hid. injection Hcl as Et Er Ew Ea Ewo Eh Esv.
  assert (Hv0 : v = Unlocked \/ exists c, v = Thin (thread_id t) c) by (destruct Hc as [?|(c & ? & _)]; eauto).
  assert (Hnf : not_fat v) by (intros m E; destruct Hv0 as [?|[c ?]]; congruence).
  destruct HI as [H1 H2 H3 H4 H5 H6 H7 H8 H9 H10 H11]. split; simpl.
  - by rewrite length_insert.
  - by apply (Locals_insert _ _ _ p).
  - apply (Views_change _ _ _ p) with v; [done..|]. by apply own_change_views.
  - apply (Privates_step _ _ _ p p' Ht v v' (monitors_ s)); [done| |congruence].
    intros u q m M Hu Hlk Hm HM Hne Hin (_ & Hl & _). split; [done|]. split; [by intros E; apply (Hnf' m)|].
    by destruct (not_inflating (owner_ M) (hash_code_ M) _ u q Hu Hlk eq_refl Hl Hv0).
  - rewrite Fats_no_monitor in * by done. done.
  - apply (Suspends_insert _ _ p); [done..|congruence].
  - apply (Targets_insert _ _ p) with (suspend_count s); [done..| |congruence]. intros o Ho. congruence.
  - pose proof (is_fat_no_monitor v Hnf). pose proof (is_fat_no_monitor v' Hnf').
    destruct H8 as [Ha Hl]. split.
    + rewrite (lsum_insert _ _ t p), Ea by done. lia.
    + intros m Hm. by destruct (Hnf m (Hl m Hm)).
  - by apply (Mutexes_insert _ _ p).
  - by apply (WaitMonitors_insert _ _ p).
  - destruct H11 as [Hho Hsa Hha]. split; [|intros u r Hlk; rewrite Hsv|done].
    + rewrite Hh. destruct v' as [|o c|m|h|x]; try done. by destruct (Hnf' m).
    + apply (lookup_step _ _ p p' Ht) in Hlk as [[-> ->]|[_ Hlk]]; [rewrite Esv; by apply Hsa|by apply Hsa].
Qed.

End word.

Lemma GetValue_encode cf v g : view_ok v -> gc_ok cf g -> GetValue cf (encode v g) = Some (encode v g).
Proof. intros. unfold GetValue. by rewrite check_encode. Qed.

Lemma exit_view_ok t c : view_ok (Thin (thread_id t) c) -> view_ok (exit_view t c) /\ not_fat (exit_view t c).
Proof.
  intros Hv. unfold exit_view. destruct (Z.eqb_spec c 0); [by split|]. split; [|done].
  unfold view_ok in *. lia.
Qed.

Section cas.

Context (cf : gc_config) (v : view) (a : jmonitor) (s : mstate) (HI : Inv cf v a s).

(** A compare-and-swap that succeeds finds the word it expects. *)
Lemma cas_cases fails v1 v2 g : view_ok v1 -> view_ok v2 -> gc_ok cf g ->
  CasLockWord cf s fails (encode v1 g) (encode v2 g) = Some (s, false) \/
  (v = v1 /\ (gUseReadBarrier cf = false -> g = 0) /\
   CasLockWord cf s fails (encode v1 g) (encode v2 g) = Some (set_word s (encode v2 g), true)).
Proof.
  intros H1 H2 Hg. unfold CasLockWord. rewrite !GetValue_encode by done. cbn [mbind option_bind].
  destruct (Z.eqb_spec (word_ s) (encode v1 g)) as [E|]; [|by left]. destruct fails; [by left|]. right.
  destruct (inv_words _ _ _ _ HI) as (_ & Hv & (gc & Hgc & H0 & Hw) & Hx). rewrite Hw in E.
  destruct (encode_inj cf _ _ _ _ Hv H1 Hgc Hg E) as [-> Eg]. split_and!; try done.
  intros Hrb. rewrite <- Eg; [by apply H0|]. by destruct v1.
Qed.

Context (t : nat).

(** The new word of a thread that runs. *)
Lemma thin_words c g : (t < length (pcs_ s))%nat -> view_ok (Thin (thread_id t) c) -> gc_ok cf g ->
  (gUseReadBarrier cf = false -> g = 0) -> Words cf (Thin (thread_id t) c) (encode (Thin (thread_id t) c) g) (length (pcs_ s)).
Proof.
  intros Hl Hv Hg H0. destruct (inv_words _ _ _ _ HI) as (Hn & _). split_and!; try done; [by exists g|by exists t].
Qed.

Lemma exit_words c g : (t < length (pcs_ s))%nat -> view_ok (Thin (thread_id t) c) -> gc_ok cf g ->
  (gUseReadBarrier cf = false -> g = 0) -> Words cf (exit_view t c) (encode (exit_view t c) g) (length (pcs_ s)).
Proof.
  intros Hl Hv Hg H0. destruct (inv_words _ _ _ _ HI) as (Hn & _). destruct (exit_view_ok t c Hv) as [Hok _].
  unfold exit_view in *. destruct (c =? 0); split_and!; try done; [by exists g|by exists g|by exists t].
Qed.

(** A thin lock taken once more, or once less. *)
Lemma enter_inv p w c g : pcs_ s !! t = Some p -> at_safepoint p = false -> class p = class Idle ->
  (forall u, has_mutex t p u = false) -> queued p = false -> suspended p = None ->
  (v = Unlocked /\ c = 0 \/ exists c', v = Thin (thread_id t) c' /\ c = c' + 1) ->
  view_ok (Thin (thread_id t) c) -> gc_ok cf g -> (gUseReadBarrier cf = false -> g = 0) ->
  w = encode (Thin (thread_id t) c) g ->
  exists v' a', japply_opt a (Some (Entered t)) = Some a' /\ Inv cf v' a' (set_pc (set_word s w) t Idle).
Proof.
  intros Ht Hrun Hcl Hmu Hq Hsus Hv Hok Hg H0 ->.
  assert (Hlt := lookup_lt_Some _ _ _ Ht).
  assert (Hid : identity a = None).
  { destruct (identity a) as [h|] eqn:E; [|done]. destruct (abs_hash _ _ _ _ (inv_abs _ _ _ _ HI) h E) as [? Hh].
    destruct Hv as [[-> _]|(c' & -> & _)]; simpl in Hh; congruence. }
  exists (Thin (thread_id t) c), (set_holder a (Some (t, c + 1))). split.
  - cbn. destruct Hv as [[E ->]|(c' & E & ->)].
    + by rewrite (unlocked_free cf v a s HI) by by left.
    + destruct (thin_owner cf v a s HI _ c' E) as (u & _ & ->%thread_id_inj & _ & ->).
      by rewrite decide_True by done.
  - apply (Inv_word cf v a s HI t p Ht Hrun); try done.
    + destruct Hv as [[-> _]|(c' & -> & _)]; [by left|right]. eauto.
    + by apply thin_words.
    + split; [exact I|by intros ? [[=]|[=]]].
    + simpl. unfold thread_id. do 2 f_equal. lia.
    + simpl. intros h. by rewrite Hid.
Qed.

Lemma exit_inv p w c g : pcs_ s !! t = Some p -> at_safepoint p = false -> class p = class Idle ->
  (forall u, has_mutex t p u = false) -> queued p = false -> suspended p = None ->
  v = Thin (thread_id t) c -> view_ok (Thin (thread_id t) c) -> gc_ok cf g -> (gUseReadBarrier cf = false -> g = 0) ->
  w = encode (exit_view t c) g ->
  exists v' a', japply_opt a (Some (Exited t)) = Some a' /\ Inv cf v' a' (set_pc (set_word s w) t Idle).
Proof.
  intros Ht Hrun Hcl Hmu Hq Hsus Hv Hok Hg H0 ->.
  assert (Hlt := lookup_lt_Some _ _ _ Ht).
  assert (Hid : identity a = None).
  { destruct (identity a) as [h|] eqn:E; [|done]. destruct (abs_hash _ _ _ _ (inv_abs _ _ _ _ HI) h E) as [? Hh].
    rewrite Hv in Hh. simpl in Hh. congruence. }
  destruct (thin_owner cf v a s HI _ c Hv) as (u & _ & <-%thread_id_inj & Hc & Hh).
  destruct (exit_view_ok t c Hok) as [Hok' Hnf].
  exists (exit_view t c), (set_holder a (if c + 1 =? 1 then None else Some (t, c + 1 - 1))). split.
  - cbn. rewrite Hh. by rewrite decide_True.
  - apply (Inv_word cf v a s HI t p Ht Hrun); try done.
    + right. exists c. split; [done|]. unfold exit_view. destruct (c =? 0); eauto.
    + by apply exit_words.
    + split; [exact I|by intros ? [[=]|[=]]].
    + simpl. unfold exit_view. zcases; [done|]. simpl. unfold thread_id. do 2 f_equal; lia.
    + simpl. intros h. by rewrite Hid.
Qed.

Lemma enter_cas_good ch trylock n lw new : pcs_ s !! t = Some (EnterCas trylock n lw new) ->
  good cf a t (enter_cas cf ch t trylock n lw new s).
Proof.
  intros Ht. destruct (inv_locals _ _ _ _ HI _ _ Ht) as [(v1 & v2 & g & Hg & -> & -> & Hv2 & Hcase) _].
  assert (Hv1 : view_ok v1).
  { destruct Hcase as [[-> _]|(c & Hc & -> & ->)]; [done|]. unfold view_ok in *. lia. }
  unfold enter_cas. destruct (cas_cases (weak ch) v1 v2 g Hv1 Hv2 Hg) as [->|(Ev & H0 & ->)]; cbn [mbind option_bind].
  - exists v, a. split; [done|]. quiet HI Ht; done.
  - assert (exists c, v2 = Thin (thread_id t) c /\ (v1 = Unlocked /\ c = 0 \/ exists c', v1 = Thin (thread_id t) c' /\ c = c' + 1))
      as (c & -> & Hc) by (destruct Hcase as [[-> ->]|(c & Hc & -> & ->)]; eauto 10).
    rewrite <- Ev in Hc. by apply (enter_inv _ _ c g Ht).
Qed.

Lemma enter_store_good new : pcs_ s !! t = Some (EnterStore new) -> good cf a t (enter_store cf t new s).
Proof.
  intros Ht. destruct (inv_views _ _ _ _ HI _ _ Ht) as [(Hrb & c & Ev & Hok & ->) _].
  assert (Hg : gc_ok cf 0) by (unfold gc_ok; rewrite Hrb; destruct (gUseUserfaultfd cf); auto).
  unfold enter_store, SetLockWord. rewrite GetValue_encode by done. cbn [mbind option_bind].
  apply (enter_inv _ _ (c + 1) 0 Ht); try done. right. eauto.
Qed.

Lemma exit_cas_good ch lw new : pcs_ s !! t = Some (ExitCas lw new) -> good cf a t (exit_cas cf ch t lw new s).
Proof.
  intros Ht. destruct (inv_locals _ _ _ _ HI _ _ Ht) as [(c & g & Hg & Hok & -> & ->) _].
  destruct (exit_view_ok t c Hok) as [Hok' _].
  unfold exit_cas. destruct (cas_cases (weak ch) _ _ g Hok Hok' Hg) as [->|(Ev & H0 & ->)]; cbn [mbind option_bind].
  - exists v, a. split; [done|]. quiet HI Ht; done.
  - by apply (exit_inv _ _ c g Ht).
Qed.

Lemma exit_store_good new : pcs_ s !! t = Some (ExitStore new) -> good cf a t (exit_store cf t new s).
Proof.
  intros Ht. destruct (inv_views _ _ _ _ HI _ _ Ht) as [(Hrb & c & Ev & ->) _].
  assert (Hg : gc_ok cf 0) by (unfold gc_ok; rewrite Hrb; destruct (gUseUserfaultfd cf); auto).
  assert (Hok : view_ok (Thin (thread_id t) c)) by (destruct (inv_words _ _ _ _ HI) as (_ & Hv & _); congruence).
  destruct (exit_view_ok t c Hok) as [Hok' _].
  unfold exit_store, SetLockWord. rewrite GetValue_encode by done. cbn [mbind option_bind].
  by apply (exit_inv _ _ c 0 Ht).
Qed.

End cas.

(** ** The loads of the other calls *)

Lemma not_held_none a t : holder a = None -> held_by a t = false.
Proof. unfold held_by. by intros ->. Qed.

Lemma not_held_other a t u d : holder a = Some (u, d) -> u <> t -> held_by a t = false.
Proof. unfold held_by. intros -> Hu. by apply bool_decide_eq_false. Qed.

Lemma held_self a t d : holder a = Some (t, d) -> held_by a t = true.
Proof. unfold held_by. intros ->. by apply bool_decide_eq_true. Qed.

Section loads.

Context (cf : gc_config) (v : view) (a : jmonitor) (s : mstate) (HI : Inv cf v a s) (t : nat).

(** A call that fails because the thread does not hold the monitor. *)
Lemma fail_good p e : pcs_ s !! t = Some p -> class p = class Idle -> (forall u, has_mutex t p u = false) ->
  queued p = false -> suspended p = None -> japply a e = Some a -> good cf a t (return_ s t e).
Proof.
  intros Ht Hcl Hmu Hq Hs He. exists v, a. split; [done|].
  quiet HI Ht; try done; congruence.
Qed.

Lemma exit_load_good : pcs_ s !! t = Some ExitLoad -> good cf a t (exit_load cf t s).
Proof.
  intros Ht. destruct (load_word cf v a s HI) as (gc & Hg & H0 & Hv & _ & EL & ES & EG).
  assert (Hlt := lookup_lt_Some _ _ _ Ht). unfold exit_load. rewrite EL. cbn [mbind option_bind]. rewrite ES.
  cbn [mbind option_bind]. rewrite EG.
  assert (Hfail : held_by a t = false -> good cf a t (return_ s t (ExitFailed t))).
  { intros E. apply (fail_good ExitLoad); try done. cbn. by rewrite E. }
  destruct v as [|o c|m|h|x] eqn:Ev; cbn [state_of].
  - apply Hfail, not_held_none, (unlocked_free cf _ a s HI). by left.
  - rewrite ThinLockOwner_encode, ThinLockCount_encode by done. cbn [mbind option_bind].
    destruct (thin_owner cf _ a s HI o c eq_refl) as (u & Hu & -> & Hc & Hh).
    destruct (Z.eqb_spec (thread_id u) (thread_id t)) as [<-%thread_id_inj|Hne]; cbn [negb].
    + destruct (exit_view_ok u c Hv) as [Hok' _].
      assert (EN : (if negb (c =? 0) then FromThinLockId cf (thread_id u) (c - 1) gc else FromDefault cf gc) =
                   Some (encode (exit_view u c) gc)).
      { unfold exit_view in *. destruct (c =? 0); cbn [negb];
          [by apply FromDefault_encode|by apply FromThinLockId_encode]. }
      rewrite EN. cbn [mbind option_bind]. destruct (gUseReadBarrier cf) eqn:Erb; cbn [negb].
      * exists (Thin (thread_id u) c), a. split; [done|]. quiet HI Ht; [|done]. by exists c, gc.
      * assert (Er : ReadBarrierState (encode (exit_view u c) gc) = 0).
        { rewrite read_barrier_bits, (H0 eq_refl). unfold exit_view, encode, view_ok in *. destruct (c =? 0); lia. }
        rewrite Er. cbn [mbind option_bind dcheck Z.eqb].
        exists (Thin (thread_id u) c), a. split; [done|]. quiet HI Ht; [done|].
        rewrite (H0 eq_refl). split; [done|]. by exists c.
    + apply Hfail, (not_held_other _ _ u (c + 1) Hh). congruence.
  - rewrite FatLockMonitor_encode by done. cbn [mbind option_bind]. exists (Fat m), a. split; [done|].
    quiet HI Ht; [done|done|by intros ? [= <-]].
  - apply Hfail, not_held_none, (unlocked_free cf _ a s HI). right. eauto.
  - by destruct (inv_words _ _ _ _ HI) as (_ & _ & _ & []).
Qed.

Lemma wait_load_good ms ns : pcs_ s !! t = Some (WaitLoad ms ns) -> good cf a t (wait_load cf t ms ns s).
Proof.
  intros Ht. destruct (load_word cf v a s HI) as (gc & Hg & H0 & Hv & _ & EL & ES & EG).
  unfold wait_load. rewrite EL. cbn [mbind option_bind]. rewrite ES. cbn [mbind option_bind].
  assert (Hfail : held_by a t = false -> good cf a t (return_ s t (WaitFailed t))).
  { intros E. apply (fail_good (WaitLoad ms ns)); try done. cbn. by rewrite E. }
  destruct v as [|o c|m|h|x] eqn:Ev; cbn [state_of].
  - apply Hfail, not_held_none, (unlocked_free cf _ a s HI). by left.
  - rewrite ThinLockOwner_encode by done. cbn [mbind option_bind].
    destruct (thin_owner cf _ a s HI o c eq_refl) as (u & Hu & -> & Hc & Hh).
    destruct (Z.eqb_spec (thread_id u) (thread_id t)) as [<-%thread_id_inj|Hne]; cbn [negb].
    + exists (Thin (thread_id u) c), a. split; [done|].
      quiet HI Ht; [split; [unfold is_u; lia|by left]|]. right. by exists c.
    + apply Hfail, (not_held_other _ _ u (c + 1) Hh). congruence.
  - rewrite FatLockMonitor_encode by done. cbn [mbind option_bind]. exists (Fat m), a. split; [done|].
    quiet HI Ht; [done|done|by intros ? [= <-]].
  - apply Hfail, not_held_none, (unlocked_free cf _ a s HI). right. eauto.
  - by destruct (inv_words _ _ _ _ HI) as (_ & _ & _ & []).
Qed.

Lemma notify_load_good all : pcs_ s !! t = Some (NotifyLoad all) -> good cf a t (notify_load cf t all s).
Proof.
  intros Ht. destruct (load_word cf v a s HI) as (gc & Hg & H0 & Hv & _ & EL & ES & EG).
  unfold notify_load. rewrite EL. cbn [mbind option_bind]. rewrite ES. cbn [mbind option_bind].
  assert (Hfail : held_by a t = false -> good cf a t (return_ s t (NotifyFailed t))).
  { intros E. apply (fail_good (NotifyLoad all)); try done. cbn. by rewrite E. }
  assert (Hdone : held_by a t = true -> good cf a t (return_ s t (NotifyReturned t))).
  { intros E. apply (fail_good (NotifyLoad all)); try done. cbn. by rewrite E. }
  destruct v as [|o c|m|h|x] eqn:Ev; cbn [state_of].
  - apply Hfail, not_held_none, (unlocked_free cf _ a s HI). by left.
  - rewrite ThinLockOwner_encode by done. cbn [mbind option_bind].
    destruct (thin_owner cf _ a s HI o c eq_refl) as (u & Hu & -> & Hc & Hh).
    destruct (Z.eqb_spec (thread_id u) (thread_id t)) as [->%thread_id_inj|Hne]; cbn [negb].
    + by apply Hdone, (held_self _ _ (c + 1)).
    + apply Hfail, (not_held_other _ _ u (c + 1) Hh). congruence.
  - rewrite FatLockMonitor_encode by done. cbn [mbind option_bind]. exists (Fat m), a. split; [done|].
    quiet HI Ht; [done|done|by intros ? [= <-]].
  - apply Hfail, not_held_none, (unlocked_free cf _ a s HI). right. eauto.
  - by destruct (inv_words _ _ _ _ HI) as (_ & _ & _ & []).
Qed.

(** A hash code that was read from the object. *)
Lemma hash_return h : (h = 0 \/ h = hash_of v (monitors_ s)) ->
  exists a', japply a (HashReturned t h) = Some a' /\
    holder a' = holder a /\ saved a' = saved a /\
    (forall x, identity a' = Some x -> x <> 0 /\ hash_of v (monitors_ s) = x).
Proof.
  intros Hh. cbn. pose proof (abs_hash _ _ _ _ (inv_abs _ _ _ _ HI)) as Hid.
  destruct (Z.eqb_spec h 0) as [->|Hne]; [exists a; by split_and!|].
  destruct Hh as [?|Hh]; [done|].
  destruct (identity a) as [x|] eqn:E.
  - destruct (Hid x eq_refl) as [? Ex]. rewrite (proj2 (Z.eqb_eq h x)) by congruence. exists a.
    split_and!; try done. by rewrite E.
  - eexists. split; [done|]. split_and!; try done. simpl. intros x [= <-]. by split.
Qed.

Lemma hash_event_good p h : pcs_ s !! t = Some p -> class p = class Idle -> (forall u, has_mutex t p u = false) ->
  queued p = false -> suspended p = None -> (h = 0 \/ h = hash_of v (monitors_ s)) ->
  good cf a t (return_ s t (HashReturned t h)).
Proof.
  intros Ht Hcl Hmu Hq Hs Hh. destruct (hash_return h Hh) as (a' & Ea & Eh & Es & Ei).
  exists v, a'. split; [done|].
  assert (HI' : Inv cf v a (set_pc s t Idle)).
  { quiet HI Ht; try done; congruence. }
  destruct HI' as [H1 H2 H3 H4 H5 H6 H7 H8 H9 H10 [Ha Hb Hc]]. split; try done.
  split; [congruence|by rewrite Es|done].
Qed.

Lemma hash_load_good : pcs_ s !! t = Some HashLoad -> good cf a t (hash_load cf t s).
Proof.
  intros Ht. destruct (load_word cf v a s HI) as (gc & Hg & H0 & Hv & _ & EL & ES & EG).
  unfold hash_load. rewrite EL. cbn [mbind option_bind]. rewrite ES. cbn [mbind option_bind]. rewrite EG.
  destruct (GenerateIdentityHashCode_spec (hash_code_seed s)) as (seed & h & EH & Hh). rewrite EH.
  assert (Hhv : view_ok (Hash h)) by (unfold view_ok, is_u; lia).
  assert (Hdone : forall x, x = hash_of v (monitors_ s) -> good cf a t (return_ s t (HashReturned t x))).
  { intros x Hx. apply (hash_event_good HashLoad); try done. by right. }
  destruct v as [|o c|m|h'|x] eqn:Ev; cbn [state_of mbind option_bind].
  - rewrite FromHashCode_encode by done. cbn [mbind option_bind].
    rewrite check_state_encode by done. cbn [mbind option_bind]. exists Unlocked, a. split; [done|].
    quiet HI Ht; [|done]. by exists h, gc.
  - destruct (thin_owner cf _ a s HI o c eq_refl) as (u & Hu & -> & Hc & Hh').
    exists (Thin (thread_id u) c), a. split; [done|].
    quiet HI Ht; [split; [by exists (thread_id u), c, gc|done]|].
    intros c' g' Hg' Hv' E. destruct (encode_inj cf _ _ _ _ Hv Hv' Hg Hg' E) as [[= Eu] _]. rewrite Eu. eauto.
  - rewrite FatLockMonitor_encode by done. cbn [mbind option_bind]. exists (Fat m), a. split; [done|].
    quiet HI Ht; [done|done|by intros ? [= <-]].
  - rewrite GetHashCode_encode by done. cbn [mbind option_bind].
    by apply Hdone.
  - by destruct (inv_words _ _ _ _ HI) as (_ & _ & _ & []).
Qed.

Lemma hash_cas_good lw hw : pcs_ s !! t = Some (HashCas lw hw) -> good cf a t (hash_cas cf t lw hw s).
Proof.
  intros Ht. destruct (inv_locals _ _ _ _ HI _ _ Ht) as [(h & g & Hg & Hh & -> & ->) _].
  assert (Hhv : view_ok (Hash h)) by (unfold view_ok, is_u; lia).
  unfold hash_cas. destruct (cas_cases cf v a s HI false Unlocked (Hash h) g I Hhv Hg) as [->|(Ev & H0 & ->)];
    cbn [mbind option_bind].
  - exists v, a. split; [done|]. quiet HI Ht; done.
  - rewrite GetHashCode_encode by done. cbn [mbind option_bind].
    assert (Hid : identity a = None).
    { destruct (identity a) as [x|] eqn:E; [|done]. destruct (abs_hash _ _ _ _ (inv_abs _ _ _ _ HI) x E) as [? Hx].
      rewrite Ev in Hx. simpl in Hx. congruence. }
    exists (Hash h), (Build_jmonitor (holder a) (saved a) (Some h)). split.
    + cbn. rewrite (proj2 (Z.eqb_neq h 0)) by lia. by rewrite Hid.
    + apply (Inv_word cf v a s HI t _ Ht); try done.
      * by left.
      * destruct (inv_words _ _ _ _ HI) as (Hn & _). split_and!; try done; [by exists g|lia].
      * split; [exact I|by intros ? [[=]|[=]]].
      * simpl. rewrite (abs_holder _ _ _ _ (inv_abs _ _ _ _ HI)). by rewrite Ev.
      * simpl. intros x [= <-]. split; [lia|done].
Qed.

End loads.

(** ** Inflation *)

Lemma Fats_monitors v ms ms' ps next : (forall m, v = Fat m -> ms' !! m = ms !! m) -> Fats v ms ps next -> Fats v ms' ps next.
Proof. intros He HF. destruct v as [|o c|m|h|x]; try done. destruct HF as (M & HM & HF). exists M. by rewrite He. Qed.

Lemma Abs_monitors a v ms ms' ps : (forall m, v = Fat m -> ms' !! m = ms !! m) -> Abs a v ms ps -> Abs a v ms' ps.
Proof.
  intros He [Hh Hs Hi]. split; [|done|]; destruct v as [|o c|m|h|x]; try done; simpl; by rewrite He.
Qed.

Section inflation.

Context (cf : gc_config) (v : view) (a : jmonitor) (s : mstate) (HI : Inv cf v a s).
Context (t : nat) (p : mpc) (Ht : pcs_ s !! t = Some p).

(** A step on a monitor that is not installed, or on suspend counts. *)
Lemma Inv_private p' ms' sc' :
  (forall m, v = Fat m -> ms' !! m = monitors_ s !! m) ->
  Privates cf v ms' (<[t := p']> (pcs_ s)) ->
  Suspends sc' (<[t := p']> (pcs_ s)) -> Targets (<[t := p']> (pcs_ s)) ->
  pc_wf cf t p' -> pc_view cf v t p' -> class p' = class p -> (forall u, has_mutex t p' u = has_mutex t p u) ->
  (queued p = true -> queued p' = true) -> must_not p' = false -> (forall M, hash_fact p' M) ->
  Inv cf v a (set_pc (Build_mstate (word_ s) ms' (list_ s) (hash_code_seed s) (pcs_ s) sc' (next_ s)
                 (wait_monitor_ s) (wait_mutex_ s) (signalled s)) t p').
Proof.
  intros Hms Hpr Hsu Hta Hwf Hview Hcl Hmu Hq Hmn Hhf. injection Hcl as Et Er Ew Ea Ewo Eh Es.
  destruct HI as [H1 H2 H3 H4 H5 H6 H7 H8 H9 H10 H11]. split; simpl; try done.
  - by rewrite length_insert.
  - by apply (Locals_insert _ _ _ p).
  - by apply (Views_insert _ _ _ p).
  - apply (Fats_monitors _ (monitors_ s)); [done|]. apply (Fats_insert _ _ p); try done.
    intros m M _ _ _. by rewrite Hmn.
  - by apply (Adds_insert _ _ p).
  - by apply (Mutexes_insert _ _ p).
  - by apply (WaitMonitors_insert _ _ p).
  - apply (Abs_monitors _ _ (monitors_ s)); [done|]. by apply (Abs_insert _ _ p).
Qed.

(** The suspension of an owner passes its checks. *)
Lemma check_owner_ok owner : owner_link t owner (suspended p) -> check_owner s t owner = Some tt.
Proof.
  intros Hl. unfold check_owner. destruct owner as [o|]; [|done].
  destruct (decide (o = t)) as [|Ho]; [done|]. destruct Hl as [?|Hl]; [done|].
  destruct (inv_targets _ _ _ _ HI t p o Ht Hl) as (_ & q & Hq & Hsafe). rewrite Hq. cbn [mbind option_bind].
  pose proof (suspended_count (pcs_ s) _ t p o (inv_suspends _ _ _ _ HI) Ht Hl).
  rewrite Hsafe, (proj2 (Z.ltb_lt _ _)) by done. done.
Qed.

(** Other threads do not install the same monitor. *)
Lemma others_private m u q m' : private p = Some m -> u <> t -> pcs_ s !! u = Some q -> private q = Some m' -> m' <> m.
Proof. intros Hp Hu Hq Hm ->. apply Hu. by apply (private_inj _ _ _ _ (inv_privates _ _ _ _ HI) u q t p m). Qed.

Lemma Targets_keep p' : (forall o, suspended p' = Some o -> suspended p = Some o) ->
  (at_safepoint p = true -> at_safepoint p' = true \/ suspend_count s t <= 0) -> Targets (<[t := p']> (pcs_ s)).
Proof.
  intros Hs Hsafe. apply (Targets_insert _ _ p p' Ht) with (suspend_count s);
    [apply HI|apply HI| |done]. intros o Ho. left. by apply Hs.
Qed.

End inflation.

Section inflation_steps.

Context (cf : gc_config) (v : view) (a : jmonitor) (s : mstate) (HI : Inv cf v a s) (t : nat).

Lemma InflateThinLocked_good lw h k : pcs_ s !! t = Some (InflateThin lw h k) ->
  good cf a t (InflateThinLocked cf t lw h k s).
Proof.
  intros Ht. destruct (inv_locals _ _ _ _ HI _ _ Ht) as [[(o & c & g & Hg & Hok & ->) Hh] _].
  destruct (inv_views _ _ _ _ HI _ _ Ht) as [Hview _].
  unfold InflateThinLocked. rewrite check_state_encode, ThinLockOwner_encode by done. cbn [mbind option_bind].
  destruct (Z.eqb_spec o (thread_id t)) as [->|Hne]; exists v, a; (split; [done|]).
  - quiet HI Ht; [split; [done|by left]|]. right. by apply (Hview c g).
  - quiet HI Ht; [|done]. split; [|done]. unfold view_ok, thread_id in *. lia.
Qed.

Lemma suspend_owner_good ch o h k : pcs_ s !! t = Some (SuspendOwner o h k) ->
  good cf a t (suspend_owner ch t o h k s).
Proof.
  intros Ht. destruct (inv_locals _ _ _ _ HI _ _ Ht) as [[Hne Hh] _]. unfold suspend_owner.
  assert (Hno : good cf a t (goto s t (LeaveSuspension None h k))).
  { exists v, a. split; [done|]. quiet HI Ht; done. }
  destruct (weak ch); [done|]. destruct (pcs_ s !! o) as [q|] eqn:Hq; [|done].
  rewrite bool_decide_true by done. cbn [mbind option_bind dcheck].
  destruct (at_safepoint q) eqn:Hsafe; [|done]. exists v, a. split; [done|].
  apply (Inv_private cf v a s HI t _ Ht); try done.
  - apply (Privates_insert _ _ _ _ _ Ht); [apply HI|done].
  - apply (Suspends_add _ _ _ _ Ht); [apply HI|done..].
  - apply (Targets_insert _ _ _ _ Ht) with (suspend_count s); [apply HI|apply HI| |by left].
    intros x [= <-]. right. eauto.
  - split; [done|by intros ? [[=]|[=]]].
Qed.

Lemma leave_suspension_good o h k : pcs_ s !! t = Some (LeaveSuspension o h k) ->
  good cf a t (leave_suspension t o h k s).
Proof.
  intros Ht. destruct (inv_locals _ _ _ _ HI _ _ Ht) as [Hh _]. unfold leave_suspension.
  destruct (Z.ltb_spec 0 (suspend_count s t)); [done|].
  destruct o as [o|]; exists v, a; (split; [done|]).
  - quiet HI Ht; [done|done|by right].
  - destruct k; quiet HI Ht; done || by right.
Qed.

Lemma recheck_good o h k : pcs_ s !! t = Some (Recheck o h k) -> good cf a t (recheck cf t o h k s).
Proof.
  intros Ht. destruct (inv_locals _ _ _ _ HI _ _ Ht) as [Hh _].
  destruct (load_word cf v a s HI) as (gc & Hg & H0 & Hv & _ & EL & ES & EG).
  unfold recheck. rewrite EL. cbn [mbind option_bind]. rewrite ES. cbn [mbind option_bind].
  assert (Hno : good cf a t (goto s t (ResumeOwner o k))).
  { exists v, a. split; [done|]. quiet HI Ht; done. }
  destruct v as [|o' c|m|h'|x] eqn:Ev; cbn [state_of]; try (by rewrite bool_decide_false by done).
  rewrite bool_decide_true by done. rewrite ThinLockOwner_encode by done. cbn [mbind option_bind].
  destruct (Z.eqb_spec o' (thread_id o)) as [->|]; [|done]. exists (Thin (thread_id o) c), a. split; [done|].
  quiet HI Ht; [split; [done|by right]|]. right. by exists c.
Qed.

Lemma resume_owner_good o k : pcs_ s !! t = Some (ResumeOwner o k) -> good cf a t (resume_owner t o k s).
Proof.
  intros Ht. unfold resume_owner.
  pose proof (suspended_count _ _ t _ o (inv_suspends _ _ _ _ HI) Ht eq_refl).
  rewrite (proj2 (Z.ltb_lt _ _)) by done. cbn [mbind option_bind dcheck]. exists v, a. split; [done|].
  assert (Hsus : suspended (pc_of_kont k) = None) by by destruct k.
  apply (Inv_private cf v a s HI t _ Ht); try done.
  - apply (Privates_insert _ _ _ _ _ Ht); [apply HI|by destruct k].
  - apply (Suspends_sub _ _ _ _ Ht); [apply HI|done..].
  - apply (Targets_keep cf v a s HI t _ Ht); [congruence|done].
  - destruct k; (split; [done|by intros ? [[=]|[=]]]).
  - destruct k; (split; [done|by intros ? [=]]).
  - by destruct k.
  - by destruct k.
  - by destruct k.
  - by destruct k.
Qed.

Lemma create_good ch owner h resume k : pcs_ s !! t = Some (Create owner h resume k) ->
  good cf a t (create ch t owner h resume k s).
Proof.
  intros Ht. destruct (inv_locals _ _ _ _ HI _ _ Ht) as [[Hh Hl] _].
  destruct (inv_views _ _ _ _ HI _ _ Ht) as [Hin _]. unfold create.
  destruct ((0 <=? fresh_id ch) && (fresh_id ch <=? kMaxMonitorId) && bool_decide (monitors_ s !! fresh_id ch = None)) eqn:E; [|done].
  apply andb_true_iff in E as [[Hlo%Z.leb_le Hhi%Z.leb_le]%andb_true_iff Hfree%bool_decide_eq_true].
  change kMaxMonitorId with (2 ^ 28 - 1) in Hhi. set (m := fresh_id ch) in *.
  rewrite (check_owner_ok cf v a s HI t _ Ht) by done. cbn [mbind option_bind]. exists v, a. split; [done|].
  assert (Hnew : forall m', v = Fat m' -> m' <> m).
  { intros m' Ev ->. pose proof (inv_fats _ _ _ _ HI) as HF. rewrite Ev in HF. destruct HF as (M & HM & _). congruence. }
  apply (Inv_private cf v a s HI t _ Ht); try done.
  - intros m' Ev. rewrite lookup_insert_ne; [done|]. by apply not_eq_sym, Hnew.
  - apply (Privates_step _ _ _ _ _ Ht v v (monitors_ s)); [apply HI| |].
    + intros u q m' M Hu Hq Hm' HM Hne Hi _. split; [|done]. rewrite lookup_insert_ne by congruence. done.
    + intros m' [= <-]. split; [|by right]. exists (new_monitor owner h). rewrite lookup_insert_eq.
      split; [done|]. split; [intros Ev; by apply (Hnew m Ev)|]. split; [done|].
      split; [done|]. split; [done|]. split; [unfold view_ok, is_u; lia|done].
  - apply (Suspends_insert _ _ _ _ Ht); [apply HI|done].
  - apply (Targets_keep cf v a s HI t _ Ht); done.
  - split; [done|by intros ? [[=]|[=]]].
Qed.

End inflation_steps.

(** ** Installing a monitor *)

Lemma after_inflate_ok cf v t resume k :
  pc_wf cf t (after_inflate resume k) /\ pc_view cf v t (after_inflate resume k) /\
  private (after_inflate resume k) = None /\ class (after_inflate resume k) = class Idle /\
  (forall u, has_mutex t (after_inflate resume k) u = false) /\
  must_not (after_inflate resume k) = false /\ (forall M, hash_fact (after_inflate resume k) M) /\
  suspended (after_inflate resume k) = resume.
Proof.
  destruct resume as [o|]; [|destruct k]; split_and!; try done;
    (split; [exact I|]) || idtac; try (by intros ? [[=]|[=]]); by intros ? [=].
Qed.

Section install.

Context (cf : gc_config) (v : view) (a : jmonitor) (s : mstate) (HI : Inv cf v a s) (t : nat).

(** A monitor that is not installed goes back to the pool. *)
Lemma discard_inv p m resume k : pcs_ s !! t = Some p -> private p = Some m -> suspended p = resume ->
  class p = class Idle -> (forall u, has_mutex t p u = false) -> queued p = false -> at_safepoint p = false ->
  Inv cf v a (set_pc (set_monitors s (delete m (monitors_ s))) t (after_inflate resume k)).
Proof.
  intros Ht Hm Hs Hcl Hmu Hq Hrun.
  destruct (after_inflate_ok cf v t resume k) as (Hwf & Hview & Hpr & Hcl' & Hmu' & Hmn & Hhf & Hs').
  destruct (private_one _ _ _ _ (inv_privates _ _ _ _ HI) t p m Ht Hm) as (M & HM & Hne & _).
  apply (Inv_private cf v a s HI t p Ht); try done; try congruence.
  - intros m' Ev. rewrite lookup_delete_ne by congruence. done.
  - apply (Privates_step _ _ _ _ _ Ht v v (monitors_ s)); [apply HI| |congruence].
    intros u q m' M' Hu Hlk Hm' HM' Hne' Hin' _. split; [|done].
    rewrite lookup_delete_ne; [done|]. apply not_eq_sym. by apply (others_private cf v a s HI t p Ht m u q).
  - apply (Suspends_insert _ _ _ _ Ht); [apply HI|congruence].
  - apply (Targets_keep cf v a s HI t p Ht); congruence.
Qed.

(** [Install] prepares the monitor for the swap. *)
Lemma prepare_inv m M M' resume k lw fat : pcs_ s !! t = Some (InstallLoad m resume k) -> monitors_ s !! m = Some M ->
  v <> Fat m -> inflating v (owner_ M') (hash_code_ M') -> private_ok cf t (InstallCas m lw fat resume k) M' ->
  Inv cf v a (set_pc (put_monitor s m M') t (InstallCas m lw fat resume k)).
Proof.
  intros Ht HM Hne Hin Hok. apply (Inv_private cf v a s HI t _ Ht); try done.
  - intros m' Ev. rewrite lookup_insert_ne by congruence. done.
  - apply (Privates_step _ _ _ _ _ Ht v v (monitors_ s)); [apply HI| |].
    + intros u q m' N Hu Hq Hm' HN Hne' Hi _. split; [|done]. rewrite lookup_insert_ne; [done|].
      apply not_eq_sym. by apply (others_private cf v a s HI t _ Ht m u q).
    + intros m' [= <-]. split; [|by left]. exists M'. by rewrite lookup_insert_eq.
  - apply (Suspends_insert _ _ _ _ Ht); [apply HI|done].
  - apply (Targets_keep cf v a s HI t _ Ht); done.
  - split; [done|by intros ? [[=]|[=]]].
Qed.

Lemma install_load_good m resume k : pcs_ s !! t = Some (InstallLoad m resume k) ->
  good cf a t (install_load cf t m resume k s).
Proof.
  intros Ht. destruct (load_word cf v a s HI) as (gc & Hg & H0 & Hv & _ & EL & ES & EG).
  destruct (private_one _ _ _ _ (inv_privates _ _ _ _ HI) t _ m Ht eq_refl) as (M & HM & Hne & Hin & Hu & Hl & Hmok & EM).
  unfold install_load. rewrite HM. cbn [mbind option_bind]. rewrite (check_owner_ok cf v a s HI t _ Ht) by done.
  cbn [mbind option_bind]. rewrite EL. cbn [mbind option_bind]. rewrite ES. cbn [mbind option_bind]. rewrite EG.
  assert (Hlock : monitor_lock_ M = None) by by rewrite EM.
  assert (Hfat : good cf a t (goto (set_monitors s (delete m (monitors_ s))) t (after_inflate resume k))).
  { exists v, a. split; [done|]. by apply (discard_inv (InstallLoad m resume k)). }
  assert (Hprep := fun M' => prepare_inv m M M' resume k).
  destruct Hin as [[m' ->]|Hin]; [done|]. destruct (owner_ M) as [o|] eqn:Eo.
  - destruct Hin as [c ->]. cbn [state_of]. cbn [mbind option_bind].
    rewrite ThinLockOwner_encode, ThinLockCount_encode, from_monitor_encode by done.
    cbn [mbind option_bind]. rewrite Z.eqb_refl, Hlock, bool_decide_true by done. cbn [mbind option_bind dcheck].
    exists (Thin (thread_id o) c), a. split; [done|]. apply Hprep; try done.
    + right. simpl. rewrite Eo. by exists c.
    + split; [done|]. split; [simpl; by rewrite Eo|]. split; [done|]. exists gc. split_and!; [done..|].
      simpl. rewrite Eo. exists c. split; [done|]. split; [done|]. by rewrite EM at 1.
  - subst v. cbn [state_of]. rewrite GetHashCode_encode by done. cbn [mbind option_bind].
    rewrite Z.eqb_refl, Hlock, bool_decide_true, from_monitor_encode by done. cbn [mbind option_bind dcheck].
    exists (Hash (hash_code_ M)), a. split; [done|].
    replace s with (put_monitor s m M) at 1 by (unfold put_monitor; rewrite insert_id by done; by destruct s).
    apply Hprep; try done; [right; by rewrite Eo|].
    split; [done|]. split; [by rewrite Eo|]. split; [done|]. exists gc. split_and!; [done..|]. by rewrite Eo.
Qed.

End install.

(** A thread that does not use the object's monitor. *)
Lemma no_mention p : mentions p = None ->
  must_hold p = false /\ must_not p = false /\ waits p = 0 /\ queued p = false /\
  held_prev p = None /\ (forall M, hash_fact p M).
Proof. destruct p; simpl; intros [=]; done. Qed.

Section publish.

Context (cf : gc_config) (v : view) (a : jmonitor) (s : mstate) (HI : Inv cf v a s).
Context (t : nat) (m lw fat : Z) (resume : option nat) (k : inflate_kont).
Context (Ht : pcs_ s !! t = Some (InstallCas m lw fat resume k)) (Hnf : not_fat v).
Context (M : Monitor) (HM : monitors_ s !! m = Some M) (Hin : inflating v (owner_ M) (hash_code_ M)).
Context (Hl : owner_link t (owner_ M) resume) (Hu : is_u 28 (hash_code_ M)).
Context (HMeq : match owner_ M with
                | Some o => exists c, v = Thin (thread_id o) c /\ view_ok v /\
                    M = with_lock (with_count (new_monitor (Some o) (hash_code_ M)) c) (Some o)
                | None => v = Hash (hash_code_ M) /\ M = new_monitor None (hash_code_ M)
                end).

Lemma publish_none u q : <[t := AddMonitor m resume k]> (pcs_ s) !! u = Some q -> u = t /\ q = AddMonitor m resume k \/ u <> t /\ mentions q = None.
Proof.
  intros [[-> ->]|[Hne Hq]]%(lookup_step _ _ _ _ Ht); [by left|right]. split; [done|].
  destruct (mentions q) as [x|] eqn:E; [|done]. destruct (inv_views _ _ _ _ HI u q Hq) as [_ Hv].
  by destruct (Hnf x (Hv x E)).
Qed.

Lemma publish_quiet u q : <[t := AddMonitor m resume k]> (pcs_ s) !! u = Some q ->
  must_hold q = false /\ must_not q = false /\ waits q = 0 /\ held_prev q = None /\ (forall M, hash_fact q M).
Proof. intros [[_ ->]|[_ H]]%publish_none; [done|]. apply no_mention in H. naive_solver. Qed.

(** The owner is stopped, or is the installing thread. *)
Lemma publish_owner u q c : u <> t -> pcs_ s !! u = Some q -> v = Thin (thread_id u) c -> at_safepoint q = true.
Proof.
  intros Hut Hq Ev. destruct (owner_ M) as [o|]; [|destruct HMeq; congruence].
  destruct HMeq as (c' & Ev' & _). assert (o = u) as -> by (apply thread_id_inj; congruence).
  destruct Hl as [?|Hr]; [done|].
  destruct (inv_targets _ _ _ _ HI t _ u Ht Hr) as (_ & q' & Hq' & ?). congruence.
Qed.

Lemma publish_views : Views cf (Fat m) (<[t := AddMonitor m resume k]> (pcs_ s)).
Proof.
  apply (Views_change _ _ _ _ _ Ht v); [apply HI|split; [done|by intros ? [= <-]]|].
  intros u q Hut Hq [Hv Hmm]. split; [|intros x E; by destruct (Hnf x (Hmm x E))].
  destruct q; try done.
  - destruct Hv as (_ & c & E & _). by pose proof (publish_owner u _ c Hut Hq E).
  - intros c g Hg Hok E. destruct (Hv c g Hg Hok E) as [c' E']. by pose proof (publish_owner u _ c' Hut Hq E').
  - left. by exists m.
  - destruct Hv as (_ & c & E & _). by pose proof (publish_owner u _ c Hut Hq E).
Qed.

Lemma publish_lock : lock_ok (<[t := AddMonitor m resume k]> (pcs_ s)) M.
Proof.
  split.
  - intros u q (Hh & _)%publish_quiet. congruence.
  - destruct (owner_ M) as [o|] eqn:Eo; [|destruct HMeq as [_ ->]; done].
    destruct HMeq as (c & Ev & Hok & EM).
    assert (El : monitor_lock_ M = Some o) by by rewrite EM. rewrite El.
    assert (Ec : lock_count_ M = c) by by rewrite EM.
    destruct (inv_words _ _ _ _ HI) as (_ & _ & _ & Hx). rewrite Ev in Hx, Hok.
    destruct Hx as (u & Hlt & <-%thread_id_inj).
    destruct (lookup_lt_is_Some_2 (<[t := AddMonitor m resume k]> (pcs_ s)) o) as [q Hq]; [by rewrite length_insert|].
    exists q. destruct (publish_quiet o q Hq) as ((Htr & _)%orb_false_iff & Hmn & _ & Hhp & _).
    split; [done|]. split; [done|]. unfold holder_ok. rewrite Htr, Eo, Ec. destruct Hok as [_ Hc].
    split_and!; try done; try lia. intros Hr. by destruct q.
Qed.

Lemma publish_fats : Fats (Fat m) (monitors_ s) (<[t := AddMonitor m resume k]> (pcs_ s)) (next_ s).
Proof.
  exists M. split; [done|].
  assert (Hnw : num_waiters_ M = 0 /\ obj_ M = true /\ wait_head_ M = None /\ wake_head_ M = None).
  { destruct (owner_ M); [destruct HMeq as (c & _ & _ & ->)|destruct HMeq as [_ ->]]; done. }
  destruct Hnw as (Ew & Eo & Ewh & Ekh). split; [apply publish_lock| | |done|].
  - rewrite Ew. symmetry. apply lsum_none. intros u q (_ & _ & Hw & _)%publish_quiet. done.
  - split; [done|]. intros u q (_ & _ & _ & _ & Hf)%publish_quiet. apply (Hf M).
  - exists [], []. rewrite Ewh, Ekh. pose proof (inv_fats _ _ _ _ HI) as HF. rewrite Fats_no_monitor in HF by done.
    split; [|by intros u Hx%elem_of_nil]. split; simpl; try done. constructor.
Qed.

Lemma publish_holder : holder_of (Fat m) (monitors_ s) (<[t := AddMonitor m resume k]> (pcs_ s)) = holder_of v (monitors_ s) (pcs_ s).
Proof.
  destruct (owner_ M) as [o|] eqn:Eo.
  - destruct HMeq as (c & Ev & Hok & EM). rewrite Ev.
    destruct (inv_words _ _ _ _ HI) as (_ & _ & _ & Hx). rewrite Ev in Hx. destruct Hx as (u & Hlt & <-%thread_id_inj).
    destruct (lookup_lt_is_Some_2 (<[t := AddMonitor m resume k]> (pcs_ s)) o) as [q Hq]; [by rewrite length_insert|].
    rewrite (holder_of_held m _ _ M o q) by (done || by rewrite EM).
    destruct (publish_quiet o q Hq) as (_ & _ & _ & Hhp & _). unfold depth. rewrite Hhp.
    rewrite EM. simpl. unfold thread_id. do 2 f_equal. lia.
  - destruct HMeq as [Ev EM]. rewrite Ev. apply (holder_of_free _ _ _ M); [done|]. by rewrite EM.
Qed.

Lemma Inv_publish g : gc_ok cf g -> (gUseReadBarrier cf = false -> g = 0) -> view_ok (Fat m) -> fat = encode (Fat m) g ->
  Inv cf (Fat m) a (set_pc (set_word s fat) t (AddMonitor m resume k)).
Proof.
  intros Hg H0 Hok Efat. pose proof publish_holder as Hhold. pose proof publish_fats as HF. pose proof publish_views as HV.
  assert (Hother := fun u q m' => others_private cf v a s HI t _ Ht m u q m' eq_refl).
  destruct HI as [H1 H2 H3 H4 H5 H6 H7 H8 H9 H10 H11]. split; simpl; try done.
  - rewrite length_insert. destruct H1 as (Hn & _). rewrite Efat. split_and!; try done. by exists g.
  - apply (Locals_insert _ _ _ _ _ Ht); [done|]. split; [done|by intros ? [[=]|[=]]].
  - apply (Privates_step _ _ _ _ _ Ht v _ (monitors_ s)); [done| |done].
    intros u q m' N Hut Hq Hm' HN _ _ _. split; [done|]. split; [|left; by exists m].
    intros [= <-]. by apply (Hother u q m).
  - by apply (Suspends_insert _ _ _ _ Ht).
  - apply (Targets_insert _ _ _ _ Ht) with (suspend_count s); try done. by left.
  - destruct H8 as [Ha Hll]. rewrite (is_fat_no_monitor v Hnf) in Ha.
    pose proof (lsum_nonneg adds (pcs_ s) adds_nonneg). destruct (list_ s) as [|x l]; [|simpl in Ha; lia].
    split; [|by intros ? ?%elem_of_nil]. rewrite (lsum_insert _ _ t _ _ Ht). simpl in *. lia.
  - by apply (Mutexes_insert _ _ _ _ Ht).
  - by apply (WaitMonitors_insert _ _ _ _ Ht).
  - destruct H11 as [Hho Hs Hi]. split; [by rewrite Hho|intros u q [[-> ->]|[_ Hq]]%(lookup_step _ _ _ _ Ht); eauto|].
    + by apply (Hs t _ Ht).
    + intros h Eh. destruct (Hi h Eh) as [Hh Hv]. split; [done|]. simpl. rewrite HM.
      destruct Hin as [[m' E]|Hin']; [by destruct (Hnf m')|].
      destruct (owner_ M) as [o|]; [destruct Hin' as [c E]|]; rewrite E in Hv || rewrite Hin' in Hv; simpl in Hv; congruence.
Qed.

End publish.

Section install_end.

Context (cf : gc_config) (v : view) (a : jmonitor) (s : mstate) (HI : Inv cf v a s) (t : nat).

Lemma install_cas_good ch m lw fat resume k : pcs_ s !! t = Some (InstallCas m lw fat resume k) ->
  good cf a t (install_cas cf ch t m lw fat resume k s).
Proof.
  intros Ht. destruct (private_one _ _ _ _ (inv_privates _ _ _ _ HI) t _ m Ht eq_refl)
    as (M & HM & Hne & Hin & Hu & Hl & Hmok & g & Hg & Efat & Hrest).
  assert (Hlw : exists v1, view_ok v1 /\ not_fat v1 /\ lw = encode v1 g /\
    match owner_ M with
    | Some o => exists c, v1 = Thin (thread_id o) c /\ view_ok v1 /\
        M = with_lock (with_count (new_monitor (Some o) (hash_code_ M)) c) (Some o)
    | None => v1 = Hash (hash_code_ M) /\ M = new_monitor None (hash_code_ M)
    end).
  { destruct (owner_ M) as [o|].
    - destruct Hrest as (c & Hok & -> & EM). exists (Thin (thread_id o) c). split_and!; try done. by exists c.
    - destruct Hrest as [-> EM]. by exists (Hash (hash_code_ M)). }
  destruct Hlw as (v1 & Hv1 & Hnf & Elw & HMeq). unfold install_cas.
  destruct (cas_cases cf v a s HI (weak ch) v1 (Fat m) g Hv1 Hmok Hg) as [E|(Ev & H0 & E)];
    rewrite Elw, Efat, E; cbn [mbind option_bind].
  - exists v, a. split; [done|]. by apply (discard_inv cf v a s HI t (InstallCas m lw fat resume k)).
  - exists (Fat m), a. split; [done|]. rewrite <- Ev in HMeq, Hnf.
    by apply (Inv_publish cf v a s HI t m lw (encode (Fat m) g) resume k) with M g; try done; rewrite <- Efat.
Qed.

Lemma add_monitor_good m resume k : pcs_ s !! t = Some (AddMonitor m resume k) ->
  good cf a t (add_monitor cf t m resume k s).
Proof.
  intros Ht. destruct (load_word cf v a s HI) as (gc & Hg & H0 & Hv & _ & EL & ES & EG).
  destruct (inv_views _ _ _ _ HI _ _ Ht) as [_ Hm]. specialize (Hm m eq_refl).
  destruct (after_inflate_ok cf v t resume k) as (Hwf & Hview & Hpr & Hcl' & Hmu' & Hmn & Hhf & Hs').
  injection Hcl' as Et Er Ew Ea Ewo Eh Es.
  unfold add_monitor. rewrite EL. cbn [mbind option_bind].
  rewrite Hm, check_state_encode by (done || congruence). cbn [mbind option_bind]. exists v, a. split; [done|].
  destruct HI as [H1 H2 H3 H4 H5 H6 H7 H8 H9 H10 H11]. split; simpl.
  - by rewrite length_insert.
  - by apply (Locals_insert _ _ _ _ _ Ht).
  - by apply (Views_insert _ _ _ _ _ Ht).
  - by apply (Privates_insert _ _ _ _ _ Ht).
  - apply (Fats_insert _ _ _ _ Ht); try done. intros m' M' _ _ _. by rewrite Hmn.
  - by apply (Suspends_insert _ _ _ _ Ht).
  - apply (Targets_insert _ _ _ _ Ht) with (suspend_count s); try done. rewrite Hs'. by left.
  - destruct H8 as [Ha Hll]. split.
    + rewrite (lsum_insert _ _ t _ _ Ht), Ea. simpl in *. lia.
    + intros x [->|Hx]%elem_of_cons; [done|by apply Hll].
  - apply (Mutexes_insert _ _ _ _ Ht); [done|]. intros u. by rewrite Hmu'.
  - by apply (WaitMonitors_insert _ _ _ _ Ht).
  - by apply (Abs_insert _ _ _ _ Ht).
Qed.

End install_end.
