(* ===== verification/MonitorFat.v ===== *)
(** * The steps on an installed monitor

    The steps of [TryLock], [Lock], [Unlock], [Wait], [Notify] and
    [GetHashCode] on the object's monitor keep the invariant: first one lemma
    for a step that changes the monitor and its wait sets, then one lemma for
    every step of [Monitor]. *)

From Stdlib Require Import ZArith Lia Bool.
From stdpp Require Import base numbers list option functions gmap sets.
From S2P Require Import Prelude LockWord WaitSet Monitor MonitorInv MonitorSteps.

Local Open Scope Z_scope.
Local Open Scope art_scope.

#[local] Ltac Zify.zify_post_hook ::= Z.to_euclidean_division_equations.

(** How a step of [t] to [p'] changes the ownership of the monitor. *)
Inductive lock_change (t : nat) (p p' : mpc) (M M' : Monitor) (a a' : jmonitor) : Prop :=
  | change_held :
      monitor_lock_ M' = Some t -> (monitor_lock_ M = Some t \/ monitor_lock_ M = None) ->
      must_not p' = false -> holder_ok t p' M' -> holder a' = Some (t, depth p' M') ->
      lock_change t p p' M M' a a'
  | change_release :
      monitor_lock_ M = Some t -> monitor_lock_ M' = None -> owner_ M' = None -> lock_count_ M' = 0 ->
      must_hold p' = false -> holder a' = None -> lock_change t p p' M M' a a'
  | change_none :
      monitor_lock_ M' = monitor_lock_ M -> owner_ M' = owner_ M -> lock_count_ M' = lock_count_ M ->
      transit p' = transit p -> restoring p' = restoring p -> held_prev p' = held_prev p ->
      (must_not p' = true -> monitor_lock_ M <> Some t) -> holder a' = holder a ->
      lock_change t p p' M M' a a'.

(** Places at which a thread neither installs a monitor nor suspends an owner. *)
Definition plain (p : mpc) : Prop := private p = None /\ adds p = 0 /\ suspended p = None.

Section fat.

Context (cf : gc_config) (m : Z) (a : jmonitor) (s : mstate) (HI : Inv cf (Fat m) a s).
Context (t : nat) (p : mpc) (Ht : pcs_ s !! t = Some p).
Context (M : Monitor) (HM : monitors_ s !! m = Some M) (HF : fat_ok (pcs_ s) (next_ s) M).

(** ** What a thread knows about the lock *)

Lemma holder_self : monitor_lock_ M = Some t -> must_not p = false /\ holder_ok t p M /\ holder a = Some (t, depth p M).
Proof.
  intros E. pose proof (lock_state _ _ (fat_lock _ _ _ HF)) as Hs. rewrite E in Hs. destruct Hs as (q & Hq & Hn & Hh).
  assert (q = p) as -> by congruence. split_and!; try done.
  rewrite (abs_holder _ _ _ _ (inv_abs _ _ _ _ HI)). by apply holder_of_held.
Qed.

Lemma holder_other : monitor_lock_ M <> Some t -> held_by a t = false /\ (owner_ M <> Some t) /\ must_hold p = false.
Proof.
  intros E. split_and!.
  - unfold held_by. rewrite (abs_holder _ _ _ _ (inv_abs _ _ _ _ HI)). simpl. rewrite HM. simpl.
    destruct (monitor_lock_ M) as [o|]; simpl; [|done]. destruct (pcs_ s !! o); simpl; [|done].
    apply bool_decide_eq_false. congruence.
  - pose proof (lock_state _ _ (fat_lock _ _ _ HF)) as Hs. destruct (monitor_lock_ M) as [o|].
    + destruct Hs as (q & _ & _ & Hh). unfold holder_ok in Hh. destruct (transit q); destruct Hh as [-> _]; congruence.
    + destruct Hs as [-> _]. done.
  - destruct (must_hold p) eqn:Eh; [|done]. destruct E. by apply (lock_must _ _ (fat_lock _ _ _ HF) t p).
Qed.

Lemma holds_transit : transit p = true ->
  monitor_lock_ M = Some t /\ owner_ M = None /\ lock_count_ M = 0 /\ holder a = Some (t, depth p M).
Proof.
  intros E. assert (El : monitor_lock_ M = Some t).
  { apply (lock_must _ _ (fat_lock _ _ _ HF) t p Ht). unfold must_hold. by rewrite E. }
  destruct (holder_self El) as (_ & Hh & Ha). unfold holder_ok in Hh. rewrite E in Hh. by destruct Hh.
Qed.

Lemma holds_owner : owner_ M = Some t ->
  monitor_lock_ M = Some t /\ must_not p = false /\ transit p = false /\ 0 <= lock_count_ M < 2 ^ 32 /\
  holder a = Some (t, depth p M).
Proof.
  intros E. destruct (decide (monitor_lock_ M = Some t)) as [El|El].
  - destruct (holder_self El) as (Hn & Hh & Ha). unfold holder_ok in Hh.
    destruct (transit p); [destruct Hh; congruence|]. by destruct Hh as (_ & ? & _).
  - by destruct (holder_other El) as (_ & ? & _).
Qed.

Lemma holds_not : owner_ M <> Some t -> transit p = false -> monitor_lock_ M <> Some t.
Proof.
  intros E Htr El. destruct (holder_self El) as (_ & Hh & _). unfold holder_ok in Hh. rewrite Htr in Hh. by destruct Hh.
Qed.

Lemma must_not_lock : must_not p = true -> monitor_lock_ M <> Some t.
Proof. intros E El. destruct (holder_self El) as (? & _). congruence. Qed.

Lemma saved_self : saved a t = (fun d => d + 1) <$> saved_prev p.
Proof. by apply (abs_saved _ _ _ _ (inv_abs _ _ _ _ HI)). Qed.

Lemma hash_id h : identity a = Some h -> h <> 0 /\ hash_code_ M = h.
Proof. intros E. destruct (abs_hash _ _ _ _ (inv_abs _ _ _ _ HI) h E) as [? Hh]. simpl in Hh. by rewrite HM in Hh. Qed.

(** ** A step on the monitor *)

Lemma lock_change_ok p' M' a' : lock_change t p p' M M' a a' -> lock_ok (<[t := p']> (pcs_ s)) M'.
Proof.
  intros Hc. apply (lock_ok_step _ _ _ _ Ht M); [apply HF|..]; destruct Hc; try done; try congruence.
  - rewrite H. intros Hm. apply (lock_must _ _ (fat_lock _ _ _ HF) t p Ht). unfold must_hold in *. congruence.
  - intros E. rewrite H in E. destruct (holder_self E) as (Hn & Hh & _). split; [by left|].
    split; [destruct (must_not p'); [by destruct H5|done]|]. unfold holder_ok in *. by rewrite H0, H1, H2, H3.
  - intros E. right. done.
  - intros E. left. rewrite H in E. done.
Qed.

Lemma lock_change_holder p' ms' M' a' : lock_change t p p' M M' a a' -> ms' !! m = Some M' ->
  holder a' = holder_of (Fat m) ms' (<[t := p']> (pcs_ s)).
Proof.
  intros Hc HM'. destruct Hc as [El _ _ _ ->|_ El _ _ _ ->|El _ Ec _ _ Ehp _ ->].
  - symmetry. apply holder_of_held; [done..|]. by apply (lookup_self _ _ _ _ Ht).
  - symmetry. by apply (holder_of_free _ _ _ M').
  - rewrite (abs_holder _ _ _ _ (inv_abs _ _ _ _ HI)). simpl. rewrite HM, HM'. simpl. rewrite El.
    destruct (monitor_lock_ M) as [o|]; simpl; [|done]. destruct (decide (o = t)) as [->|Ho].
    + rewrite (lookup_self _ _ _ _ Ht), Ht. simpl. unfold depth. by rewrite Ehp, Ec.
    + rewrite (lookup_other _ _ _ o Ho). destruct (pcs_ s !! o); simpl; [|done]. unfold depth. by rewrite Ec.
Qed.

Lemma Inv_fat p' M' ms' seed next' wm' mu' sg a' :
  ms' !! m = Some M' -> (forall m', m' <> m -> ms' !! m' = monitors_ s !! m') ->
  pc_wf cf t p' -> pc_view cf (Fat m) t p' -> plain p' -> adds p = 0 -> suspended p = None ->
  (at_safepoint p = true -> at_safepoint p' = true \/ suspend_count s t <= 0) ->
  lock_change t p p' M M' a a' ->
  num_waiters_ M' = num_waiters_ M - waits p + waits p' ->
  is_u 28 (hash_code_ M') -> (hash_code_ M' = hash_code_ M \/ hash_code_ M = 0) -> hash_fact p' M' ->
  obj_ M' = true -> sets_ok (<[t := p']> (pcs_ s)) (Build_links next' (wait_head_ M') (wake_head_ M')) ->
  WaitMonitors wm' (<[t := p']> (pcs_ s)) -> Mutexes mu' (<[t := p']> (pcs_ s)) ->
  (forall u, u <> t -> saved a' u = saved a u) -> saved a' t = (fun d => d + 1) <$> saved_prev p' ->
  (forall h, identity a' = Some h -> h <> 0 /\ hash_code_ M' = h) ->
  Inv cf (Fat m) a' (Build_mstate (word_ s) ms' (list_ s) seed (<[t := p']> (pcs_ s)) (suspend_count s) next' wm' mu' sg).
Proof.
  intros HM' Hms Hwf Hview (Hpr & Ha' & Hs') Ha Hs Hsafe Hc Hw Hr Heq Hhf Ho Hsets Hwm Hmu Hsv Hst Hid.
  pose proof (lock_change_ok _ _ _ Hc) as Hlock. pose proof (lock_change_holder _ _ _ _ Hc HM') as Hhold.
  destruct HI as [H1 H2 H3 H4 H5 H6 H7 H8 H9 H10 H11]. split; simpl; try done.
  - by rewrite length_insert.
  - by apply (Locals_insert _ _ _ _ _ Ht).
  - by apply (Views_insert _ _ _ _ _ Ht).
  - apply (Privates_step _ _ _ _ _ Ht (Fat m) _ (monitors_ s)); [done| |congruence].
    intros u q m' N _ _ _ HN Hne Hin _. rewrite Hms by congruence. done.
  - exists M'. split; [done|]. split; try done.
    + rewrite (lsum_insert _ _ t p) by done. rewrite Hw, (fat_waiters _ _ _ HF). lia.
    + apply (hash_ok_step _ _ _ _ Ht M); try done. apply HF.
  - apply (Suspends_insert _ _ _ _ Ht); congruence.
  - apply (Targets_insert _ _ _ _ Ht) with (suspend_count s); congruence || done.
  - apply (Adds_insert _ _ _ _ Ht); congruence.
  - destruct H11 as [_ Hsa _]. split; [done| |].
    + intros u q [[-> ->]|[Hu Hq]]%(lookup_step _ _ _ _ Ht); [done|]. rewrite Hsv by done. by apply Hsa.
    + intros h Eh. simpl. rewrite HM'. by apply Hid.
Qed.

End fat.

(** A place on the monitor is well-formed when the saved count is; [Hp] says so. *)
Ltac place Hp :=
  split; [done|];
  first [by intros ? [= <-]|by intros ? [[=]|[=]]
        |intros ? [[= <-]|[=]]; apply Hp; first [by left|by right]
        |intros ? [[=]|[= <-]]; apply Hp; first [by left|by right]].

(** Establish the conditions of [Inv_fat] that hold for most steps; the change
    of the lock and what a particular step changes besides remains. *)
Ltac fat_step HI Ht HM HF :=
  eapply (Inv_fat _ _ _ _ HI _ _ Ht _ HM HF);
  [first [apply lookup_insert_eq|exact HM]
  |first [done|intros; apply lookup_insert_ne; congruence]
  |first [exact (inv_locals _ _ _ _ HI _ _ Ht)|split; [done|by intros ? [[=]|[=]]]|idtac]
  |try (split; [exact I|by intros ? [= <-]])
  |try done |try done |try done |try (by left); try done
  |
  |try (simpl; lia) |try apply HF |try by left |try done |try apply HF
  |try (apply (sets_ok_insert _ _ _ _ Ht); [apply HF|done])
  |try (apply (WaitMonitors_insert _ _ _ _ Ht); [apply HI|done])
  |try (apply (Mutexes_insert _ _ _ _ Ht); [apply HI|done])
  |try done
  |try (simpl; rewrite (saved_self _ _ _ _ HI _ _ Ht); done)
  |try (simpl; intros; by eapply (hash_id _ _ _ _ HI _ HM))].

(** The same for a step after which the ownership is the same. *)
Ltac same_lock HI Ht HM HF :=
  apply change_none; try done; try by intros _; apply (must_not_lock _ _ _ _ HI _ _ Ht _ HM HF).

(** A step that changes nothing but the place of the thread. *)
Lemma quiet_fact m (ms : gmap Z Monitor) M p' (t : nat) (P : Monitor -> Prop) : ms !! m = Some M ->
  (must_not p' = true -> monitor_lock_ M <> Some t) -> hash_fact p' M ->
  forall m' M', Fat m = Fat m' -> ms !! m' = Some M' -> P M' ->
    (must_not p' = true -> monitor_lock_ M' <> Some t) /\ hash_fact p' M'.
Proof. intros HM Hn Hh m' M' [= <-] HM' _. by assert (M' = M) as -> by congruence. Qed.

Ltac fat_quiet HI Ht HM HF :=
  eapply (Inv_quiet _ _ _ _ HI _ _ Ht);
  [reflexivity
  |first [exact (inv_locals _ _ _ _ HI _ _ Ht)|split; [done|by intros ? [[=]|[=]]]|idtac]
  |split; [exact I|by intros ? [= <-]]
  |try reflexivity |try reflexivity |try done |try done |try done |try done
  |try by left
  |eapply (quiet_fact _ _ _ _ _ _ HM);
     [try done; try by intros _; apply (must_not_lock _ _ _ _ HI _ _ Ht _ HM HF)|try done]].

Section fat_steps.

Context (cf : gc_config) (m : Z) (a : jmonitor) (s : mstate) (HI : Inv cf (Fat m) a s).
Context (t : nat) (M : Monitor) (HM : monitors_ s !! m = Some M) (HF : fat_ok (pcs_ s) (next_ s) M).

(** ** [TryLock] and [Lock] *)

(** The reported event when a free monitor is taken. *)
Lemma lock_event_ok p p' k : pcs_ s !! t = Some p -> saved_prev p = lock_prev k -> monitor_lock_ M = None ->
  held_prev p' = lock_prev k ->
  exists a', japply a (lock_event t k) = Some a' /\ holder a' = Some (t, depth p' (with_lock M (Some t))) /\
    (forall u, u <> t -> saved a' u = saved a u) /\ saved a' t = None /\ identity a' = identity a.
Proof.
  intros Ht Hs El Hh'. pose proof (saved_self _ _ _ _ HI t p Ht) as Hsv. rewrite Hs in Hsv.
  assert (Ha : holder a = None).
  { rewrite (abs_holder _ _ _ _ (inv_abs _ _ _ _ HI)). by apply (holder_of_free _ _ _ M). }
  assert (Hcount : lock_count_ M = 0).
  { pose proof (lock_state _ _ (fat_lock _ _ _ HF)) as H. rewrite El in H. by destruct H. }
  unfold depth. rewrite Hh'. destruct k as [|prev]; simpl in *; rewrite Ha, ?Hsv; eexists; (split; [done|]); simpl.
  - split_and!; try done. by rewrite Hcount.
  - split_and!; try done; [|by rewrite fn_lookup_insert]. intros u Hu. by rewrite fn_lookup_insert_ne.
Qed.

Lemma try_lock_owner_good trylock k : pcs_ s !! t = Some (TryLockOwner m trylock k) ->
  good cf a t (try_lock_owner t m trylock k s).
Proof.
  intros Ht. destruct (inv_locals _ _ _ _ HI _ _ Ht) as [Hk Hp]. unfold try_lock_owner. rewrite HM. cbn [mbind option_bind].
  destruct (decide (owner_ M = Some t)) as [E|E].
  - rewrite bool_decide_true by done.
    destruct (holds_owner _ _ _ _ HI t _ Ht M HM HF E) as (El & Hn & _ & Hc & Ha).
    destruct k as [|prev]; [|done]. unfold depth in Ha. cbn [held_prev] in Ha.
    destruct (decide (lock_count_ M = 2 ^ 32 - 1)) as [Ec|Ec].
    { rewrite Ec in *. change (u32 (2 ^ 32 - 1 + 1)) with 0. cbn [Z.eqb negb mbind option_bind dcheck good]. by rewrite Ha. }
    assert (Eu : u32 (lock_count_ M + 1) = lock_count_ M + 1) by (unfold wrap; lia).
    rewrite Eu, (proj2 (Z.eqb_neq _ 0)) by lia. cbn [negb mbind option_bind dcheck].
    rewrite bool_decide_true by done. cbn [mbind option_bind dcheck].
    exists (Fat m), (set_holder a (Some (t, lock_count_ M + 1 + 1))). split.
    + cbn. rewrite Ha. by rewrite decide_True.
    + fat_step HI Ht HM HF. apply change_held; try done; [by left|]. split; [done|split; [simpl; lia|done]].
  - rewrite bool_decide_false by done. exists (Fat m), a. split; [done|].
    assert (El := holds_not _ _ _ _ HI t _ Ht M HM HF E eq_refl).
    destruct k as [|prev]; fat_quiet HI Ht HM HF.
Qed.

(** The monitor is free and [t] takes it. *)
Lemma acquire_good p p' k : pcs_ s !! t = Some p -> monitor_lock_ M = None ->
  saved_prev p = lock_prev k -> held_prev p' = lock_prev k -> saved_prev p' = None ->
  transit p' = true -> must_not p' = false -> pc_wf cf t p' -> pc_view cf (Fat m) t p' -> plain p' -> plain p ->
  (at_safepoint p = true -> at_safepoint p' = true) -> waits p' = waits p -> queued p' = queued p ->
  waiting_on p' = waiting_on p -> (forall u, has_mutex t p' u = has_mutex t p u) -> hash_fact p' (with_lock M (Some t)) ->
  good cf a t (Some (Go (set_pc (put_monitor s m (with_lock M (Some t))) t p') (Some (lock_event t k)))).
Proof.
  intros Ht El Hs Hh' Hs' Htr Hmn Hwf Hview Hpl (_ & Ha & Hsus) Hsafe Hw Hq Hwo Hmu Hhf.
  destruct (lock_event_ok p p' k Ht Hs El Hh') as (a' & Ea & Hh & Hsv & Hst & Hid).
  pose proof (lock_state _ _ (fat_lock _ _ _ HF)) as Hfree. rewrite El in Hfree.
  exists (Fat m), a'. split; [done|].
  fat_step HI Ht HM HF; simpl; try done.
  - intros Hp. left. by apply Hsafe.
  - apply change_held; try done; [by right|]. unfold holder_ok. by rewrite Htr.
  - apply (sets_ok_insert _ _ _ _ Ht); [apply HF|congruence].
  - by rewrite Hst, Hs'.
  - rewrite Hid. apply (hash_id _ _ _ _ HI _ HM).
Qed.

Lemma try_lock_mutex_good trylock k : pcs_ s !! t = Some (TryLockMutex m trylock k) ->
  good cf a t (try_lock_mutex t m trylock k s).
Proof.
  intros Ht. destruct (inv_locals _ _ _ _ HI _ _ Ht) as [Hk Hp]. unfold try_lock_mutex. rewrite HM. cbn [mbind option_bind].
  assert (El := must_not_lock _ _ _ _ HI t _ Ht M HM HF eq_refl).
  destruct (monitor_lock_ M) as [o|] eqn:E.
  - destruct trylock.
    + destruct k as [|prev]; [|done]. exists (Fat m), a. split; [|fat_quiet HI Ht HM HF].
      pose proof (lock_state _ _ (fat_lock _ _ _ HF)) as Hs. rewrite E in Hs. destruct Hs as (q & Hq & _).
      cbn. rewrite (abs_holder _ _ _ _ (inv_abs _ _ _ _ HI)), (holder_of_held _ _ _ M o q) by done.
      by rewrite decide_False by congruence.
    + exists (Fat m), a. split; [done|]. destruct k as [|prev]; fat_quiet HI Ht HM HF; place Hp.
  - apply (acquire_good _ _ _ Ht); try done; destruct k; try done; place Hp.
Qed.

Lemma lock_blocked_good k : pcs_ s !! t = Some (LockBlocked m k) -> good cf a t (lock_blocked t m k s).
Proof.
  intros Ht. destruct (inv_locals _ _ _ _ HI _ _ Ht) as [Hk Hp]. unfold lock_blocked. rewrite HM. cbn [mbind option_bind].
  destruct (monitor_lock_ M) as [o|] eqn:E; [done|].
  apply (acquire_good _ _ _ Ht); try done; destruct k; try done; place Hp.
Qed.

Lemma lock_waiters_good k : pcs_ s !! t = Some (LockWaiters m k) -> good cf a t (lock_waiters t m k s).
Proof.
  intros Ht. destruct (inv_locals _ _ _ _ HI _ _ Ht) as [Hk Hp]. unfold lock_waiters. rewrite HM. cbn [mbind option_bind].
  exists (Fat m), a. split; [done|]. destruct k as [|prev]; fat_step HI Ht HM HF; try done; first [place Hp|same_lock HI Ht HM HF].
Qed.

Lemma lock_runnable_good k : pcs_ s !! t = Some (LockRunnable m k) -> good cf a t (lock_runnable t m k s).
Proof.
  intros Ht. unfold lock_runnable. destruct (Z.ltb_spec 0 (suspend_count s t)); [done|].
  exists (Fat m), a. split; [done|]. destruct k as [|prev]; fat_quiet HI Ht HM HF; by right.
Qed.

(** The owner is stored, the monitor is entered. *)
Lemma store_good p M' k : pcs_ s !! t = Some p -> transit p = true -> held_prev p = lock_prev k ->
  waits p = num_waiters_ M - num_waiters_ M' + lock_waits k -> at_safepoint p = false -> saved_prev p = None ->
  (queued p = true -> exists prev, k = KWaitLock prev) -> waiting_on p = None -> plain p ->
  (forall u, has_mutex t p u = false) ->
  M' = with_waiters (with_owner M (Some t)) (num_waiters_ M') ->
  good cf a t (goto (put_monitor s m M') t (after_lock m k)).
Proof.
  intros Ht Htr Hh Hw Hsafe Hs Hq Hwo (_ & Ha & Hsus) Hmu HM'.
  destruct (inv_locals _ _ _ _ HI _ _ Ht) as [_ Hp]. rewrite Hh in Hp.
  destruct (holds_transit _ _ _ _ HI t p Ht M HM HF Htr) as (El & Eo & Ec & Hd).
  assert (Hsv := saved_self _ _ _ _ HI t p Ht). rewrite Hs in Hsv. unfold depth in Hd. rewrite Hh in Hd.
  exists (Fat m), a. split; [done|]. rewrite HM' in Hw |- *.
  destruct k as [|prev]; fat_step HI Ht HM HF; simpl in *; try done; try lia; try congruence.
  - apply change_held; try done; [by left|]. split; [done|]. simpl. by rewrite Ec.
  - apply (sets_ok_insert _ _ _ _ Ht); [apply HF|]. intros Hqq. by destruct (Hq Hqq) as [? [=]].
  - place Hp.
  - apply change_held; try done; [by left|]. split; [done|]. simpl. by rewrite Ec.
Qed.

Lemma try_lock_store_good k : pcs_ s !! t = Some (TryLockStore m k) -> good cf a t (try_lock_store t m k s).
Proof.
  intros Ht. destruct (holds_transit _ _ _ _ HI t _ Ht M HM HF eq_refl) as (El & Eo & Ec & Hd).
  unfold try_lock_store. rewrite HM. cbn [mbind option_bind]. rewrite Eo, Ec, El, !bool_decide_true by done.
  cbn [mbind option_bind dcheck Z.eqb]. apply (store_good _ _ _ Ht); try done; destruct k; simpl; try done; try lia; eauto.
Qed.

Lemma lock_store_good k : pcs_ s !! t = Some (LockStore m k) -> good cf a t (lock_store t m k s).
Proof.
  intros Ht. destruct (holds_transit _ _ _ _ HI t _ Ht M HM HF eq_refl) as (El & Eo & Ec & Hd).
  unfold lock_store. rewrite HM. cbn [mbind option_bind]. rewrite Ec, El, !bool_decide_true by done.
  cbn [mbind option_bind dcheck Z.eqb]. apply (store_good _ _ _ Ht); try done; destruct k; simpl; try done; try lia; eauto.
Qed.

(** ** [Unlock] *)

Lemma unlock_owner_good : pcs_ s !! t = Some (UnlockOwner m) -> good cf a t (unlock_owner t m s).
Proof.
  intros Ht. unfold unlock_owner. rewrite HM. cbn [mbind option_bind].
  destruct (decide (owner_ M = Some t)) as [E|E].
  - rewrite bool_decide_true by done.
    destruct (holds_owner _ _ _ _ HI t _ Ht M HM HF E) as (El & Hn & _ & Hc & Ha). unfold depth in Ha. cbn [held_prev] in Ha.
    destruct (Z.eqb_spec (lock_count_ M) 0) as [Ec|Ec].
    + exists (Fat m), a. split; [done|]. fat_step HI Ht HM HF. by apply change_held; [..|by left| | |].
    + rewrite bool_decide_true by done. cbn [mbind option_bind dcheck].
      exists (Fat m), (set_holder a (Some (t, lock_count_ M + 1 - 1))). split.
      * cbn. rewrite Ha, decide_True by done. by rewrite (proj2 (Z.eqb_neq _ 1)) by lia.
      * fat_step HI Ht HM HF. apply change_held; try done; [by left| |].
        -- split; [done|split; [simpl; lia|done]].
        -- unfold depth. simpl. do 2 f_equal. lia.
  - rewrite bool_decide_false by done.
    destruct (holder_other _ _ _ _ HI t _ Ht M HM HF (holds_not _ _ _ _ HI t _ Ht M HM HF E eq_refl)) as (Hb & _).
    apply (fail_good cf (Fat m) a s HI t (UnlockOwner m)); try done. cbn. by rewrite Hb.
Qed.

(** ** [SignalWaiterAndReleaseMonitorLock] *)

(** The monitor is released and its release reported. *)
Lemma release_good p p' k : pcs_ s !! t = Some p -> transit p = true -> held_prev p = signal_prev k -> saved_prev p = None ->
  must_hold p' = false -> held_prev p' = None -> saved_prev p' = signal_prev k ->
  pc_view cf (Fat m) t p' -> pc_wf cf t p' -> plain p' -> plain p -> hash_fact p' (with_lock M None) ->
  (at_safepoint p = true -> at_safepoint p' = true) -> waits p' = waits p -> queued p' = queued p -> waiting_on p' = waiting_on p ->
  (forall u, has_mutex t p' u = has_mutex t p u) ->
  good cf a t (Some (Go (set_pc (put_monitor s m (with_lock M None)) t p') (Some (release_event t k)))).
Proof.
  intros Ht Htr Hh Hs Hmh' Hh' Hs' Hview Hwf Hpl (_ & Ha & Hsus) Hhf Hsafe Hw Hq Hwo Hmu.
  destruct (holds_transit _ _ _ _ HI t p Ht M HM HF Htr) as (El & Eo & Ec & Hd).
  assert (Hsv := saved_self _ _ _ _ HI t p Ht). rewrite Hs in Hsv. unfold depth in Hd. rewrite Hh, Ec in Hd.
  assert (He : exists a', japply a (release_event t k) = Some a' /\ holder a' = None /\ identity a' = identity a /\
    (forall u, u <> t -> saved a' u = saved a u) /\ saved a' t = (fun d => d + 1) <$> saved_prev p').
  { rewrite Hs'. destruct k as [|prev]; simpl in *; rewrite Hd, decide_True by done; eexists; (split; [done|]); simpl.
    - by rewrite Hsv.
    - rewrite fn_lookup_insert. split_and!; try done. intros u Hu. by rewrite fn_lookup_insert_ne. }
  destruct He as (a' & Ea & Eh & Ei & Hsu & Hst).
  exists (Fat m), a'. split; [done|]. fat_step HI Ht HM HF; simpl; try done; try congruence.
  - intros Hp. left. by apply Hsafe.
  - by apply change_release.
  - apply (sets_ok_insert _ _ _ _ Ht); [apply HF|congruence].
  - rewrite Ei. apply (hash_id _ _ _ _ HI _ HM).
Qed.

(** The wait sets, with fewer threads in them or in another order. *)
Lemma sets_ok_links p' ls ls' ws ks ws' ks' :
  (forall u, u ∈ ws ++ ks -> exists q, pcs_ s !! u = Some q /\ queued q = true) ->
  linked ls' ws' ks' -> (forall u, u ∈ ws' ++ ks' -> u ∈ ws ++ ks /\ (u = t -> queued p' = true)) ->
  ls = ls' -> (t < length (pcs_ s))%nat -> sets_ok (<[t := p']> (pcs_ s)) ls.
Proof.
  intros Hq Hl Hsub -> Hlt. exists ws', ks'. split; [done|]. intros u [Hu Hself]%Hsub.
  destruct (Hq u Hu) as (q & Hlk & Hqq). destruct (decide (u = t)) as [->|Hne].
  - exists p'. rewrite list_lookup_insert_eq by done. split; [done|by apply Hself].
  - exists q. by rewrite list_lookup_insert_ne.
Qed.

Lemma signal_pop_good k : pcs_ s !! t = Some (SignalPop m k) -> good cf a t (signal_pop t m k s).
Proof.
  intros Ht. destruct (inv_locals _ _ _ _ HI _ _ Ht) as [_ Hp].
  destruct (holds_transit _ _ _ _ HI t _ Ht M HM HF eq_refl) as (El & Eo & Ec & Hd).
  unfold signal_pop. rewrite HM. cbn [mbind option_bind]. rewrite Ec, El, Eo, !bool_decide_true by done.
  cbn [mbind option_bind dcheck Z.eqb]. destruct (fat_sets _ _ _ HF) as (ws & ks & Hl & Hq).
  pose proof (pop_wake_spec _ _ _ Hl) as Hpop. fold (links_of s M) in Hpop. destruct ks as [|u ks].
  - rewrite Hpop. apply (release_good _ _ _ Ht); try done; destruct k; try done; place Hp.
  - destruct Hpop as (ls & -> & Hl'). exists (Fat m), a. split; [done|].
    assert (Hsub : forall p' x, (queued (SignalPop m k) = true -> queued p' = true) ->
      x ∈ ws ++ ks -> x ∈ ws ++ u :: ks /\ (x = t -> queued p' = true)).
    { intros p' x Hp' Hx. assert (x ∈ ws ++ u :: ks) as Hx' by set_solver. split; [done|]. intros ->.
      destruct (Hq t Hx') as (q & Hlk & Hqq). apply Hp'. congruence. }
    destruct k; fat_step HI Ht HM HF; try done; try place Hp; try (by apply change_held; [..|by left| | |]);
      apply (sets_ok_links _ _ ls ws (u :: ks) ws ks); try done; try (by destruct ls); try (by eapply lookup_lt_Some);
      intros x Hx; by apply Hsub.
Qed.

Lemma signal_mutex_good u k : pcs_ s !! t = Some (SignalMutex m u k) -> good cf a t (signal_mutex t m u k s).
Proof.
  intros Ht. destruct (inv_locals _ _ _ _ HI _ _ Ht) as [_ Hp]. unfold signal_mutex.
  destruct (wait_mutex_ s u) as [x|] eqn:E; [done|]. exists (Fat m), a. split; [done|].
  assert (Hne : forall prev, k = KWaitSignal prev -> u <> t).
  { intros prev -> ->. assert (wait_mutex_ s t = Some t); [|congruence]. apply (inv_mutexes _ _ _ _ HI).
    eexists. split; [done|]. simpl. by apply bool_decide_eq_true. }
  assert (Hmu : forall x, has_mutex t (SignalCheck m u k) x = has_mutex t (SignalMutex m u k) x || bool_decide (x = u)).
  { intros x. destruct k; simpl; [done|]. by rewrite orb_comm. }
  assert (Hacq := Mutexes_acquire _ _ _ _ Ht _ u (inv_mutexes _ _ _ _ HI) E Hmu).
  destruct k as [|prev]; fat_step HI Ht HM HF; try done; try (same_lock HI Ht HM HF).
  split; [by apply (Hne prev)|]. intros ? [[= <-]|[=]]. apply Hp. by left.
Qed.

(** The mutex of the signalled thread is unlocked. *)
Lemma unlock_signalled p p' u k : (forall prev, k = KWaitSignal prev -> u <> t) -> pcs_ s !! t = Some p ->
  (p = SignalCheck m u k \/ p = SignalSend m u k) -> (p' = SignalPop m k \/ p' = after_signal m k) ->
  Mutexes (<[u := None]> (wait_mutex_ s)) (<[t := p']> (pcs_ s)).
Proof.
  intros Hne Ht Hp Hp'. apply (Mutexes_release _ _ _ _ Ht); [apply HI| |].
  - destruct k; destruct Hp as [-> | ->]; simpl; rewrite bool_decide_true by done; done.
  - intros x. destruct k as [|prev]; destruct Hp as [-> | ->], Hp' as [-> | ->]; simpl;
      try (specialize (Hne prev eq_refl)); repeat case_bool_decide; naive_solver.
Qed.

Lemma signal_check_good u k : pcs_ s !! t = Some (SignalCheck m u k) -> good cf a t (signal_check t m u k s).
Proof.
  intros Ht. destruct (inv_locals _ _ _ _ HI _ _ Ht) as [Hk Hp]. unfold signal_check. rewrite HM. cbn [mbind option_bind].
  destruct (decide (wait_monitor_ s u = None)) as [E|E].
  - rewrite bool_decide_false by naive_solver. exists (Fat m), a. split; [done|].
    assert (Hmu := fun H => unlock_signalled _ (SignalPop m k) u k H Ht (or_introl eq_refl) (or_introl eq_refl)).
    destruct k as [|prev]; fat_step HI Ht HM HF; try done; try (same_lock HI Ht HM HF); try place Hp; by apply Hmu.
  - rewrite bool_decide_true by naive_solver. apply (release_good _ _ _ Ht); try done; destruct k; try done; place Hp.
Qed.

Lemma signal_send_good u k : pcs_ s !! t = Some (SignalSend m u k) -> good cf a t (signal_send t m u k s).
Proof.
  intros Ht. destruct (inv_locals _ _ _ _ HI _ _ Ht) as [Hk Hp].
  assert (Hmu := fun H => unlock_signalled _ (after_signal m k) u k H Ht (or_intror eq_refl) (or_intror eq_refl)).
  unfold signal_send. destruct (match pcs_ s !! u with Some (WaitCond _ _) => true | _ => false end);
    exists (Fat m), a; (split; [done|]);
    destruct k as [|prev]; fat_step HI Ht HM HF; try done; try (same_lock HI Ht HM HF); try place Hp; by apply Hmu.
Qed.

(** ** [GetHashCode] *)

Lemma hash_monitor_good : pcs_ s !! t = Some (HashMonitor m) -> good cf a t (hash_monitor t m s).
Proof.
  intros Ht. unfold hash_monitor. rewrite HM. cbn [mbind option_bind]. exists (Fat m), a. split; [done|].
  fat_quiet HI Ht HM HF. by right.
Qed.

Lemma hash_has_good hc : pcs_ s !! t = Some (HashHas m hc) -> good cf a t (hash_has t m hc s).
Proof.
  intros Ht. destruct (fat_hash _ _ _ HF) as [_ Hh]. specialize (Hh t _ Ht). simpl in Hh.
  unfold hash_has. rewrite HM. cbn [mbind option_bind]. destruct (Z.eqb_spec (hash_code_ M) 0) as [E|E].
  - destruct (GenerateIdentityHashCode_spec (hash_code_seed s)) as (seed & h & -> & Hr). cbn [mbind option_bind].
    exists (Fat m), a. split; [done|]. fat_quiet HI Ht HM HF.
  - cbn [negb mbind option_bind dcheck]. apply (hash_event_good cf (Fat m) a s HI t (HashHas m hc)); try done.
    simpl. by rewrite HM.
Qed.

Lemma hash_swap_good h : pcs_ s !! t = Some (HashSwap m h) -> good cf a t (hash_swap t m h s).
Proof.
  intros Ht. destruct (inv_locals _ _ _ _ HI _ _ Ht) as [Hr _]. unfold hash_swap. rewrite HM. cbn [mbind option_bind].
  destruct (Z.eqb_spec (hash_code_ M) 0) as [E|E]; exists (Fat m), a; (split; [done|]).
  - fat_step HI Ht HM HF; try done.
    + by apply change_none.
    + unfold is_u. simpl. lia.
    + by right.
    + simpl. lia.
    + intros x Ex. destruct (hash_id _ _ _ _ HI _ HM x Ex). congruence.
  - fat_quiet HI Ht HM HF.
Qed.

Lemma hash_reload_good : pcs_ s !! t = Some (HashReload m) -> good cf a t (hash_reload t m s).
Proof.
  intros Ht. destruct (fat_hash _ _ _ HF) as [_ Hh]. specialize (Hh t _ Ht). simpl in Hh.
  unfold hash_reload. rewrite HM. cbn [mbind option_bind]. rewrite (proj2 (Z.eqb_neq _ 0)) by done.
  cbn [negb mbind option_bind dcheck]. apply (hash_event_good cf (Fat m) a s HI t (HashReload m)); try done.
  simpl. rewrite HM. by right.
Qed.

(** ** [Wait] *)

Lemma wait_owner_good ms ns : pcs_ s !! t = Some (WaitOwner m ms ns) -> good cf a t (wait_owner t m ms ns s).
Proof.
  intros Ht. unfold wait_owner. rewrite HM. cbn [mbind option_bind].
  destruct (decide (owner_ M = Some t)) as [E|E].
  - rewrite bool_decide_false by naive_solver.
    destruct (holds_owner _ _ _ _ HI t _ Ht M HM HF E) as (El & Hn & _ & Hc & Ha). unfold depth in Ha. cbn [held_prev] in Ha.
    destruct ((ms <? 0) || (ns <? 0) || (999999 <? ns)).
    + apply (fail_good cf (Fat m) a s HI t (WaitOwner m ms ns)); try done. cbn. by rewrite (held_self a t _ Ha).
    + exists (Fat m), a. split; [done|]. fat_step HI Ht HM HF.
      * split; [done|]. by intros ? [[= <-]|[=]].
      * by apply change_held; [..|by left| | |].
  - rewrite bool_decide_true by naive_solver.
    destruct (holder_other _ _ _ _ HI t _ Ht M HM HF (holds_not _ _ _ _ HI t _ Ht M HM HF E eq_refl)) as (Hb & _).
    apply (fail_good cf (Fat m) a s HI t (WaitOwner m ms ns)); try done. cbn. by rewrite Hb.
Qed.

Lemma wait_lock_mutex_good prev : pcs_ s !! t = Some (WaitLockMutex m prev) -> good cf a t (wait_lock_mutex t m prev s).
Proof.
  intros Ht. destruct (inv_locals _ _ _ _ HI _ _ Ht) as [_ Hp]. unfold wait_lock_mutex.
  destruct (wait_mutex_ s t) as [x|] eqn:E; [done|]. exists (Fat m), a. split; [done|].
  fat_step HI Ht HM HF; [same_lock HI Ht HM HF|]. by apply (Mutexes_acquire _ _ _ _ Ht); [apply HI|..].
Qed.

(** No more threads wait than there are. *)
Lemma queue_length (l : list nat) : NoDup l -> (forall u, u ∈ l -> exists q, pcs_ s !! u = Some q /\ queued q = true) ->
  (length l <= length (pcs_ s))%nat.
Proof.
  intros Hn Hq. rewrite <- (length_seq (length (pcs_ s)) 0). apply submseteq_length, NoDup_submseteq; [done|].
  intros u Hu. destruct (Hq u Hu) as (q & Hlk & _). apply elem_of_seq. split; [lia|]. by eapply lookup_lt_Some.
Qed.

Lemma wait_enqueue_good prev : pcs_ s !! t = Some (WaitEnqueue m prev) -> good cf a t (wait_enqueue t m prev s).
Proof.
  intros Ht. destruct (inv_locals _ _ _ _ HI _ _ Ht) as [_ Hp].
  destruct (holds_transit _ _ _ _ HI t _ Ht M HM HF eq_refl) as (El & Eo & Ec & Hd).
  destruct (fat_sets _ _ _ HF) as (ws & ks & Hl & Hq). fold (links_of s M) in Hl.
  pose proof (queue_length _ (linked_once _ _ _ Hl) Hq) as Hlen. rewrite length_app in Hlen.
  assert (Hnt : t ∉ ws ++ ks).
  { intros (q & Hlk & Hqq)%Hq. assert (q = WaitEnqueue m prev) as -> by congruence. done. }
  unfold wait_enqueue. rewrite HM. cbn [mbind option_bind].
  destruct (AppendToWaitSet_spec (length (pcs_ s)) _ _ _ t Hl ltac:(lia) Hnt) as (ls & -> & Hl'). cbn [mbind option_bind].
  rewrite (inv_wait_monitors _ _ _ _ HI t _ Ht), El, !bool_decide_true by done. cbn [mbind option_bind dcheck].
  exists (Fat m), a. split; [done|]. fat_step HI Ht HM HF.
  - same_lock HI Ht HM HF.
  - exists (ws ++ [t]), ks. split; [by destruct ls|]. intros u Hu. destruct (decide (u = t)) as [->|Hne].
    + rewrite (lookup_self _ _ _ _ Ht). by eexists.
    + rewrite (lookup_other _ _ _ u Hne). apply Hq. set_solver.
  - apply (WaitMonitors_set _ _ _ (SignalPop m (KWaitSignal prev)) Ht). apply HI.
Qed.

Lemma wait_begin_good ch prev : pcs_ s !! t = Some (WaitBegin m prev) -> good cf a t (wait_begin ch t m prev s).
Proof.
  intros Ht. destruct (inv_locals _ _ _ _ HI _ _ Ht) as [_ Hp]. unfold wait_begin.
  destruct (weak ch); exists (Fat m), a; (split; [done|]).
  - fat_quiet HI Ht HM HF.
  - fat_step HI Ht HM HF; [same_lock HI Ht HM HF|].
    apply (Mutexes_release _ _ _ _ Ht); [apply HI|simpl; by apply bool_decide_eq_true|].
    intros x. simpl. repeat case_bool_decide; naive_solver.
Qed.

Lemma wait_cond_good ch prev : pcs_ s !! t = Some (WaitCond m prev) -> good cf a t (wait_cond ch t m prev s).
Proof.
  intros Ht. destruct (inv_locals _ _ _ _ HI _ _ Ht) as [_ Hp]. unfold wait_cond.
  destruct (wait_mutex_ s t) as [x|] eqn:E; [done|]. destruct (signalled s t || weak ch); [|done].
  exists (Fat m), a. split; [done|]. fat_step HI Ht HM HF; [same_lock HI Ht HM HF|].
  by apply (Mutexes_acquire _ _ _ _ Ht); [apply HI|..].
Qed.

Lemma wait_unlock_mutex_good prev : pcs_ s !! t = Some (WaitUnlockMutex m prev) ->
  good cf a t (wait_unlock_mutex t m prev s).
Proof.
  intros Ht. destruct (inv_locals _ _ _ _ HI _ _ Ht) as [_ Hp]. unfold wait_unlock_mutex.
  exists (Fat m), a. split; [done|]. fat_step HI Ht HM HF; [same_lock HI Ht HM HF|].
  apply (Mutexes_release _ _ _ _ Ht); [apply HI|simpl; by apply bool_decide_eq_true|].
  intros x. simpl. repeat case_bool_decide; naive_solver.
Qed.

Lemma wait_runnable_good prev : pcs_ s !! t = Some (WaitRunnable m prev) -> good cf a t (wait_runnable t m prev s).
Proof.
  intros Ht. unfold wait_runnable. destruct (Z.ltb_spec 0 (suspend_count s t)); [done|].
  exists (Fat m), a. split; [done|]. fat_quiet HI Ht HM HF. by right.
Qed.

Lemma wait_clear_good prev : pcs_ s !! t = Some (WaitClear m prev) -> good cf a t (wait_clear t m prev s).
Proof.
  intros Ht. destruct (inv_locals _ _ _ _ HI _ _ Ht) as [_ Hp]. unfold wait_clear.
  destruct (wait_mutex_ s t) as [x|] eqn:E; [done|].
  rewrite (inv_wait_monitors _ _ _ _ HI t _ Ht), bool_decide_true by done. cbn [mbind option_bind dcheck].
  exists (Fat m), a. split; [done|]. fat_step HI Ht HM HF; [place Hp|same_lock HI Ht HM HF|].
  apply (WaitMonitors_set _ _ _ (TryLockOwner m false (KWaitLock prev)) Ht). apply HI.
Qed.

Lemma wait_restore_good prev : pcs_ s !! t = Some (WaitRestore m prev) -> good cf a t (wait_restore t m prev s).
Proof.
  intros Ht. destruct (inv_locals _ _ _ _ HI _ _ Ht) as [_ Hp].
  assert (El : monitor_lock_ M = Some t) by by apply (lock_must _ _ (fat_lock _ _ _ HF) t _ Ht).
  destruct (holder_self _ _ _ _ HI t _ Ht M HM HF El) as (_ & (Eo & Hc & Hc0) & Ha).
  destruct (fat_sets _ _ _ HF) as (ws & ks & Hl & Hq). fold (links_of s M) in Hl.
  pose proof (queue_length _ (linked_once _ _ _ Hl) Hq) as Hlen. rewrite length_app in Hlen.
  assert (Hmu : wait_mutex_ s t <> Some t).
  { intros (q & Hlk & Hh)%(inv_mutexes _ _ _ _ HI). assert (q = WaitRestore m prev) as -> by congruence. done. }
  unfold wait_restore. rewrite HM. cbn [mbind option_bind with_count with_waiters monitor_lock_ owner_].
  rewrite El, Eo, !bool_decide_true by done. cbn [mbind option_bind dcheck].
  destruct (RemoveFromWaitSet_spec (length (pcs_ s)) (links_of s M) ws ks t Hl Hlen) as (ls & Els & Hl').
  change (links_of s _) with (links_of s M). rewrite Els. cbn [mbind option_bind].
  exists (Fat m), a. split; [done|]. fat_step HI Ht HM HF.
  - apply change_held; try done; [by left|]. split; [done|]. split; [|done]. simpl. apply Hp. by left.
  - apply (sets_ok_links _ _ ls ws ks (others t ws) (others t ks)); try done; [|by destruct ls|by eapply lookup_lt_Some].
    intros u. rewrite elem_of_app, !elem_of_others. set_solver.
Qed.

(** ** [Notify] *)

Lemma notify_monitor_good all : pcs_ s !! t = Some (NotifyMonitor m all) -> good cf a t (notify_monitor t m all s).
Proof.
  intros Ht. unfold notify_monitor. rewrite HM. cbn [mbind option_bind].
  destruct (decide (owner_ M = Some t)) as [E|E].
  - rewrite bool_decide_false by naive_solver.
    destruct (holds_owner _ _ _ _ HI t _ Ht M HM HF E) as (El & Hn & _ & Hc & Ha).
    destruct (fat_sets _ _ _ HF) as (ws & ks & Hl & Hq). fold (links_of s M) in Hl.
    pose proof (queue_length _ (linked_once _ _ _ Hl) Hq) as Hlen. rewrite length_app in Hlen.
    assert (Hls : exists ls ws' ks', (if all then notify_all (length (pcs_ s)) (links_of s M) else Some (notify_one (links_of s M))) =
      Some ls /\ linked ls ws' ks' /\ forall u, u ∈ ws' ++ ks' -> u ∈ ws ++ ks).
    { destruct all.
      - destruct (notify_all_spec (length (pcs_ s)) _ _ _ Hl ltac:(lia)) as (ls & -> & Hl').
        exists ls, [], (ks ++ ws). split_and!; try done. set_solver.
      - pose proof (notify_one_spec _ _ _ Hl) as H1. exists (notify_one (links_of s M)).
        destruct ws as [|u ws]; [rewrite H1; by exists [], ks|]. exists ws, (u :: ks). split_and!; try done. set_solver. }
    destruct Hls as (ls & ws' & ks' & -> & Hl' & Hsub). cbn [mbind option_bind].
    exists (Fat m), a. split; [cbn; by rewrite (held_self a t _ Ha)|]. fat_step HI Ht HM HF.
    + same_lock HI Ht HM HF.
    + apply (sets_ok_links _ _ ls ws ks ws' ks'); try done; [|by destruct ls|by eapply lookup_lt_Some].
      intros u Hu%Hsub. split; [done|]. intros ->. destruct (Hq t Hu) as (q & Hlk & Hqq).
      assert (q = NotifyMonitor m all) as -> by congruence. done.
  - rewrite bool_decide_true by naive_solver.
    destruct (holder_other _ _ _ _ HI t _ Ht M HM HF (holds_not _ _ _ _ HI t _ Ht M HM HF E eq_refl)) as (Hb & _).
    apply (fail_good cf (Fat m) a s HI t (NotifyMonitor m all)); try done. cbn. by rewrite Hb.
Qed.

End fat_steps.
