(* ===== verification/MonitorRun.v ===== *)
(** * Runs of monitors

    The collector's steps keep the invariant too, so it holds in every state a
    run can reach.  It follows that the calls behave as the specification
    [jmonitor] says, whatever the interleaving, and that no check fails. *)

From Stdlib Require Import ZArith Lia Bool.
From stdpp Require Import base numbers list option functions gmap sets.
From S2P Require Import Prelude LockWord WaitSet Monitor MonitorInv MonitorSteps MonitorFat.

Local Open Scope Z_scope.
Local Open Scope art_scope.

#[local] Ltac Zify.zify_post_hook ::= Z.to_euclidean_division_equations.

(** ** A step of a thread *)

Lemma thread_step_fat cf max_spins m a s c t p : Inv cf (Fat m) a s -> pcs_ s !! t = Some p -> mentions p = Some m ->
  good cf a t (thread_step cf max_spins c t p s).
Proof.
  intros HI Ht Hm. destruct (inv_fats _ _ _ _ HI) as (M & HM & HF).
  destruct p; cbn [mentions] in Hm; try discriminate Hm; injection Hm as ->; cbn [thread_step].
  - by apply (add_monitor_good cf (Fat m)).
  - by apply (try_lock_owner_good cf m a s HI t M).
  - by apply (try_lock_mutex_good cf m a s HI t M).
  - by apply (try_lock_store_good cf m a s HI t M).
  - by apply (lock_waiters_good cf m a s HI t M).
  - by apply (lock_blocked_good cf m a s HI t M).
  - by apply (lock_runnable_good cf m a s HI t M).
  - by apply (lock_store_good cf m a s HI t M).
  - by apply (unlock_owner_good cf m a s HI t M).
  - by apply (signal_pop_good cf m a s HI t M).
  - by apply (signal_mutex_good cf m a s HI t M).
  - by apply (signal_check_good cf m a s HI t M).
  - by apply (signal_send_good cf m a s HI t M).
  - by apply (hash_monitor_good cf m a s HI t M).
  - by apply (hash_has_good cf m a s HI t M).
  - by apply (hash_swap_good cf m a s HI t M).
  - by apply (hash_reload_good cf m a s HI t M).
  - by apply (wait_owner_good cf m a s HI t M).
  - by apply (wait_lock_mutex_good cf m a s HI t M).
  - by apply (wait_enqueue_good cf m a s HI t M).
  - by apply (wait_begin_good cf m a s HI t M).
  - by apply (wait_cond_good cf m a s HI t M).
  - by apply (wait_unlock_mutex_good cf m a s HI t M).
  - by apply (wait_runnable_good cf m a s HI t M).
  - by apply (wait_clear_good cf m a s HI t M).
  - by apply (wait_restore_good cf m a s HI t M).
  - by apply (notify_monitor_good cf m a s HI t M).
Qed.

Lemma thread_step_good cf max_spins v a s c t p : Inv cf v a s -> pcs_ s !! t = Some p ->
  good cf a t (thread_step cf max_spins c t p s).
Proof.
  intros HI Ht. destruct (mentions p) as [m|] eqn:Em.
  - destruct (inv_views _ _ _ _ HI t p Ht) as [_ Hv]. rewrite (Hv m Em) in HI. by apply (thread_step_fat _ _ m).
  - destruct p; try discriminate Em; cbn [thread_step].
    + by apply (idle_good cf v a s HI).
    + by apply (enter_load_good cf max_spins v a s HI).
    + by apply (enter_cas_good cf v a s HI).
    + by apply (enter_store_good cf v a s HI).
    + by apply (InflateThinLocked_good cf v a s HI).
    + by apply (suspend_owner_good cf v a s HI).
    + by apply (leave_suspension_good cf v a s HI).
    + by apply (recheck_good cf v a s HI).
    + by apply (create_good cf v a s HI).
    + by apply (install_load_good cf v a s HI).
    + by apply (install_cas_good cf v a s HI).
    + by apply (resume_owner_good cf v a s HI).
    + by apply (exit_load_good cf v a s HI).
    + by apply (exit_cas_good cf v a s HI).
    + by apply (exit_store_good cf v a s HI).
    + by apply (hash_load_good cf v a s HI).
    + by apply (hash_cas_good cf v a s HI).
    + by apply (wait_load_good cf v a s HI).
    + by apply (notify_load_good cf v a s HI).
Qed.

(** ** The collector *)

Section collector.

Context (cf : gc_config) (v : view) (a : jmonitor) (s : mstate) (HI : Inv cf v a s).

Lemma Inv_gc_bits g : gUseReadBarrier cf = true -> is_u 2 g -> Inv cf v a (set_word s (encode v g)).
Proof.
  intros Hrb Hg. destruct HI as [(Hn & Hv & _ & Hx) H2 H3 H4 H5 H6 H7 H8 H9 H10 H11]. split; try done.
  simpl. split_and!; try done. exists g. split; [unfold gc_ok; by rewrite Hrb|]. split; [congruence|done].
Qed.

Lemma set_gc_bit_good mark b : gUseReadBarrier cf = true -> is_u 1 b ->
  exists s', set_gc_bit cf mark b s = Some s' /\ Inv cf v a s'.
Proof.
  intros Hrb Hb. destruct (load_word cf v a s HI) as (gc & Hg & _ & Hv & _ & EL & _ & _).
  assert (Hf : state_of v <> kForwardingAddress) by (destruct (inv_words _ _ _ _ HI) as (_ & _ & _ & Hx); by destruct v).
  assert (Hr : is_u 2 gc) by (unfold gc_ok in Hg; by rewrite Hrb in Hg). unfold is_u in Hr, Hb.
  unfold set_gc_bit. rewrite EL. cbn [mbind option_bind]. destruct mark.
  - rewrite SetMarkBitState_encode by done. eexists. split; [done|]. apply Inv_gc_bits; [done|]. unfold is_u. lia.
  - rewrite SetReadBarrierState_encode by done. eexists. split; [done|]. apply Inv_gc_bits; [done|]. unfold is_u. lia.
Qed.

Context (Hsafe : forall t p, pcs_ s !! t = Some p -> at_safepoint p = true).

(** With every thread at a safepoint the list holds exactly the object's
    monitor. *)
Lemma safe_list : list_ s = match v with Fat m => [m] | _ => [] end.
Proof.
  destruct (inv_adds _ _ _ _ HI) as [Ha Hl]. rewrite lsum_none in Ha.
  - destruct (list_ s) as [|x [|y l]]; simpl in Ha; destruct v as [|o c|m|h|f]; simpl in Ha; try lia; try done.
    f_equal. specialize (Hl x ltac:(set_solver)). congruence.
  - intros t p Hp. specialize (Hsafe t p Hp). by destruct p.
Qed.

(** Threads that do not wait at a safepoint do not use the monitor. *)
Lemma safe_quiet p : at_safepoint p = true -> waits p = 0 ->
  mentions p = None /\ private p = None /\ queued p = false /\ must_hold p = false /\
  forall t, pc_view cf v t p -> forall v', pc_view cf v' t p.
Proof.
  destruct p; try done; simpl; intros Hs Hw; try lia; split_and!; try done;
    try (destruct k; simpl in *; try done; try lia); intros t0 _ v'; split; done.
Qed.

End collector.

Section deflate.

Context (cf : gc_config) (m : Z) (a : jmonitor) (s : mstate) (HI : Inv cf (Fat m) a s).
Context (Hsafe : forall t p, pcs_ s !! t = Some p -> at_safepoint p = true).
Context (M : Monitor) (HM : monitors_ s !! m = Some M) (HF : fat_ok (pcs_ s) (next_ s) M).
Context (Hnw : num_waiters_ M <= 0) (Hlock : monitor_lock_ M = None).

Lemma deflate_quiet t p : pcs_ s !! t = Some p ->
  mentions p = None /\ private p = None /\ queued p = false /\ (forall v', pc_view cf v' t p).
Proof.
  intros Hp. assert (Hw : waits p = 0).
  { apply (lsum_zero waits (pcs_ s) t p waits_nonneg); [|done].
    pose proof (lsum_nonneg waits (pcs_ s) waits_nonneg). rewrite (fat_waiters _ _ _ HF) in Hnw. lia. }
  destruct (safe_quiet cf (Fat m) p (Hsafe t p Hp) Hw) as (H1 & H2 & H3 & _ & H4).
  split_and!; try done. apply (H4 t). by apply (inv_views _ _ _ _ HI).
Qed.

Lemma deflate_next u : next_ s u = None.
Proof.
  destruct (fat_sets _ _ _ HF) as (ws & ks & Hl & Hq). apply (linked_off _ _ _ Hl). intros Hu.
  destruct (Hq u Hu) as (q & Hlk & Hqq). destruct (deflate_quiet u q Hlk) as (_ & _ & ? & _). congruence.
Qed.

Lemma Inv_deflate v' ms' w' : not_fat v' -> hash_of v' ms' = hash_code_ M -> holder_of v' ms' (pcs_ s) = None ->
  Words cf v' w' (length (pcs_ s)) ->
  Inv cf v' a (Build_mstate w' ms' [] (hash_code_seed s) (pcs_ s) (suspend_count s) (next_ s) (wait_monitor_ s)
                 (wait_mutex_ s) (signalled s)).
Proof.
  intros Hnf Hh Hho Hw. pose proof deflate_quiet as Hq. pose proof deflate_next as Hn.
  destruct HI as [H1 H2 H3 H4 H5 H6 H7 H8 H9 H10 [Ha Hs Hi]]. split; try done; simpl.
  - intros t p Hp. by destruct (Hq t p Hp) as (_ & _ & _ & ?).
  - split; intros t p; intros; destruct (Hq t p ltac:(done)) as (_ & ? & _); congruence.
  - by apply Fats_no_monitor.
  - destruct H8 as [H8 Hl]. split; [|by intros ? ?%elem_of_nil].
    rewrite is_fat_no_monitor by done. rewrite lsum_none; [done|].
    intros t p Hp. destruct (Hq t p Hp) as (Hm & _). by destruct p.
  - split; [|done|].
    + rewrite Ha. rewrite (holder_of_free _ _ _ M) by done. done.
    + intros h Eh. destruct (Hi h Eh) as [? Hx]. split; [done|]. simpl in Hx. rewrite HM in Hx. congruence.
Qed.

End deflate.

Lemma DeflateMonitors_good cf v a s : Inv cf v a s -> (forall t p, pcs_ s !! t = Some p -> at_safepoint p = true) ->
  exists s' v', DeflateMonitors cf s = Some s' /\ Inv cf v' a s' /\
    (v' = v /\ s' = s \/
     not_fat v' /\ (forall o c, v' <> Thin o c) /\ pcs_ s' = pcs_ s /\
     exists m, v = Fat m /\ monitors_ s' !! m = None /\ forall m', m' <> m -> monitors_ s' !! m' = monitors_ s !! m').
Proof.
  intros HI Hsafe. pose proof (safe_list cf v a s HI Hsafe) as Hl. unfold DeflateMonitors.
  destruct (load_word cf v a s HI) as (gc & Hg & H0 & Hv & _ & EL & ES & EG).
  assert (Hsame : forall l, l = list_ s -> set_list s l = s) by (intros l ->; by destruct s).
  assert (Hno : list_ s = [] -> ('(s, l) ← sweep cf (list_ s) s; Some (set_list s l)) = Some s).
  { intros E. rewrite E. cbn. by rewrite Hsame. }
  destruct v as [|o c|m|h|f] eqn:Ev; try (eexists s, _; split; [by apply Hno|]; split; [exact HI|by left]).
  destruct (inv_fats _ _ _ _ HI) as (M & HM & HF). rewrite Hl. cbn [sweep]. rewrite HM. cbn [mbind option_bind].
  rewrite (fat_obj _ _ _ HF). unfold deflated, Deflate. rewrite EL. cbn [mbind option_bind]. rewrite ES. cbn [mbind option_bind].
  rewrite bool_decide_true, FatLockMonitor_encode by done. cbn [mbind option_bind]. rewrite HM. cbn [mbind option_bind].
  assert (Hkeep : ('(s, l) ← ('(s, rest) ← Some (s, @nil Z); Some (s, m :: rest)); Some (set_list s l)) = Some s).
  { cbn. by rewrite Hsame. }
  destruct (Z.ltb_spec 0 (num_waiters_ M)) as [|Hnw]; [exists s, (Fat m); split; [exact Hkeep|]; split; [exact HI|by left]|].
  destruct (decide (monitor_lock_ M = None)) as [El|El];
    [|rewrite bool_decide_true by done; exists s, (Fat m); split; [exact Hkeep|]; split; [exact HI|by left]].
  rewrite bool_decide_false by naive_solver.
  pose proof (lock_state _ _ (fat_lock _ _ _ HF)) as Hs. rewrite El in Hs. destruct Hs as [Eo Ec].
  rewrite Ec, Eo, bool_decide_true, EG by done. cbn [Z.eqb mbind option_bind dcheck].
  destruct (inv_words _ _ _ _ HI) as (Hn & _).
  set (v' := if hash_code_ M =? 0 then Unlocked else Hash (hash_code_ M)).
  assert (Hv' : view_ok v') by (unfold v'; destruct (hash_code_ M =? 0); [done|apply HF]).
  assert (EN : (if negb (hash_code_ M =? 0) then FromHashCode cf (hash_code_ M) gc else FromDefault cf gc) = Some (encode v' gc)).
  { unfold v' in *. destruct (hash_code_ M =? 0); cbn [negb]; [by apply FromDefault_encode|by apply FromHashCode_encode]. }
  rewrite EN. cbn [mbind option_bind]. unfold SetLockWord. rewrite GetValue_encode by done. cbn [mbind option_bind].
  unfold GetLockWord at 1. rewrite (mk_encode cf v' gc) by done. cbn [mbind option_bind].
  rewrite GetState_encode by done. cbn [mbind option_bind].
  rewrite bool_decide_false by (unfold v'; by destruct (hash_code_ M =? 0)).
  cbn [mbind option_bind negb dcheck]. eexists _, v'. split; [done|].
  split; [|right; split; [unfold v'; by destruct (hash_code_ M =? 0)|];
    split; [intros o c; unfold v'; by destruct (hash_code_ M =? 0)|]; split; [done|]; exists m; split; [done|]; simpl;
    split; [apply lookup_delete_eq|intros m' Hm'; by rewrite lookup_delete_ne, lookup_insert_ne]].
  apply (Inv_deflate cf m a s HI Hsafe M HM HF Hnw El).
  - unfold v'. by destruct (hash_code_ M =? 0).
  - unfold v'. by destruct (Z.eqb_spec (hash_code_ M) 0).
  - unfold v'. by destruct (hash_code_ M =? 0).
  - split_and!; try done; [by exists gc|]. unfold v'. by destruct (Z.eqb_spec (hash_code_ M) 0).
Qed.

(** ** Runs *)

(** A list of events, one after the other. *)
Definition jrun (es : list mevent) (a : jmonitor) : option jmonitor := foldl (fun a e => a ≫= fun a => japply a e) (Some a) es.

Lemma foldl_none es : foldl (fun a e => a ≫= fun a => japply a e) None es = None.
Proof. by induction es. Qed.

Lemma jrun_app es es' a a' : jrun es a = Some a' -> jrun (es ++ es') a = jrun es' a'.
Proof. intros E. unfold jrun in *. by rewrite foldl_app, E. Qed.

Lemma jrun_opt e a : jrun (option_list e) a = japply_opt a e.
Proof. by destruct e. Qed.

Lemma Inv_minit cf n seed : Z.of_nat n < 2 ^ 16 -> Inv cf Unlocked jinit (minit n seed).
Proof.
  intros Hn.
  assert (Hidle : forall t p, replicate n Idle !! t = Some p -> p = Idle) by (intros t p [? ?]%lookup_replicate; done).
  assert (Hsum : forall f, f Idle = 0 -> lsum f (replicate n Idle) = 0).
  { intros f Hf. apply lsum_none. by intros t p ->%Hidle. }
  split; simpl.
  - rewrite length_replicate. split_and!; try done. exists 0. split_and!; try done.
    unfold gc_ok, is_u. destruct (gUseReadBarrier cf), (gUseUserfaultfd cf); try lia; by left.
  - intros t p ->%Hidle. split; [done|by intros ? [[=]|[=]]].
  - intros t p ->%Hidle. split; [done|by intros ? [=]].
  - split; [by intros t p m ->%Hidle|by intros t p t' p' m ->%Hidle].
  - done.
  - intros o. by rewrite Hsum.
  - by intros t p o ->%Hidle.
  - split; [by rewrite Hsum|by intros ? ?%elem_of_nil].
  - intros u t. split; [done|]. by intros (p & ->%Hidle & ?).
  - by intros t p ->%Hidle.
  - split; [done| |done]. by intros t p ->%Hidle.
Qed.

Section runs.

Context (cf : gc_config) (max_spins : Z).

Lemma perform_good v a s l : Inv cf v a s ->
  match perform cf max_spins l s with
  | None => exists t c, l = Thread t c /\ holder a = Some (t, 2 ^ 32)
  | Some Blocked => True
  | Some (Go s' e) => exists v' a', japply_opt a e = Some a' /\ Inv cf v' a' s'
  end.
Proof.
  intros HI. destruct l as [t c|mark b|]; cbn [perform].
  - destruct (pcs_ s !! t) as [p|] eqn:Ht; [|done].
    pose proof (thread_step_good cf max_spins v a s c t p HI Ht) as H.
    destruct (thread_step cf max_spins c t p s) as [[|s' e]|]; [exact I|exact H|by exists t, c].
  - destruct (gUseReadBarrier cf) eqn:Erb; [|done]. case_bool_decide as Hb; [|done]. cbn [andb].
    destruct (set_gc_bit_good cf v a s HI mark b Erb Hb) as (s' & -> & HI'). cbn [mbind option_bind]. by exists v, a.
  - destruct (forallb at_safepoint (pcs_ s)) eqn:E; [|done].
    destruct (DeflateMonitors_good cf v a s HI) as (s' & v' & -> & HI' & _); [|cbn [mbind option_bind]; by exists v', a].
    intros t p Hp. apply (proj1 (forallb_forall _ _) E), list_elem_of_In. by eapply list_elem_of_lookup_2.
Qed.

Lemma mrun_inv s es s' : mrun cf max_spins s es s' -> forall v a, Inv cf v a s ->
  exists v' a', jrun es a = Some a' /\ Inv cf v' a' s'.
Proof.
  induction 1 as [s|s l e s' es s'' [s0 l0 e0 s1 Hp] _ IH]; intros v a HI; [by exists v, a|].
  pose proof (perform_good v a s0 l0 HI) as Hg. rewrite Hp in Hg. destruct Hg as (v1 & a1 & E1 & HI1).
  destruct (IH v1 a1 HI1) as (v2 & a2 & E2 & HI2). exists v2, a2. split; [|done].
  rewrite (jrun_app _ _ _ a1); [done|]. by rewrite jrun_opt.
Qed.

Lemma reachable_inv n seed es s : Z.of_nat n < 2 ^ 16 -> mrun cf max_spins (minit n seed) es s ->
  exists v a, jrun es jinit = Some a /\ Inv cf v a s.
Proof. intros Hn Hr. apply (mrun_inv _ _ _ Hr Unlocked). by apply Inv_minit. Qed.

End runs.

Lemma execute_run cf max_spins ls s s' es : execute cf max_spins ls s = Some (s', es) -> mrun cf max_spins s es s'.
Proof.
  revert s es. induction ls as [|l ls IH]; intros s es; cbn [execute].
  - intros [= <- <-]. constructor.
  - destruct (perform cf max_spins l s) as [[|s1 e]|] eqn:Ep; cbn [mbind option_bind]; [done| |done].
    destruct (execute cf max_spins ls s1) as [[s2 es2]|] eqn:Ee; cbn [mbind option_bind]; [|done]. intros [= <- <-].
    apply (mrun_step _ _ _ l e s1); [by constructor|by apply IH].
Qed.

Lemma execute_events cf max_spins ls s es : snd <$> execute cf max_spins ls s = Some es ->
  exists s', mrun cf max_spins s es s'.
Proof.
  destruct (execute cf max_spins ls s) as [[s' es']|] eqn:E; [|done]. intros [= ->]. exists s'. by apply (execute_run _ _ ls).
Qed.

(** ** The properties *)

(** C1: whatever the threads and the collector do, in any order, the events of
    the calls on the object are those of one Java monitor: a thread enters only
    a free monitor or one it holds, exits, waits and notifies succeed exactly
    when it holds it, a wait gives the monitor up and comes back with the count
    it had, and hash codes other than 0 are all the same. *)
Theorem monitor_refines cf max_spins n seed es s :
  Z.of_nat n < 2 ^ 16 -> mrun cf max_spins (minit n seed) es s -> exists a, jrun es jinit = Some a.
Proof. intros Hn Hr. destruct (reachable_inv cf max_spins n seed es s Hn Hr) as (v & a & Ha & _). by exists a. Qed.

(** C3: no check fails in a reachable state and every step finds the monitor it
    works on, except that a thread that has entered 2^32 times aborts when it
    enters again. *)
Theorem monitor_checks cf max_spins n seed es s l :
  Z.of_nat n < 2 ^ 16 -> mrun cf max_spins (minit n seed) es s ->
  perform cf max_spins l s <> None \/
  exists t c a, l = Thread t c /\ jrun es jinit = Some a /\ holder a = Some (t, 2 ^ 32).
Proof.
  intros Hn Hr. destruct (reachable_inv cf max_spins n seed es s Hn Hr) as (v & a & Ha & HI).
  pose proof (perform_good cf max_spins v a s l HI) as Hg. destruct (perform cf max_spins l s) as [o|]; [by left|right].
  destruct Hg as (t & c & -> & Hh). by exists t, c, a.
Qed.

Lemma japply_identity a e a' h : japply a e = Some a' -> identity a = Some h -> identity a' = Some h.
Proof.
  intros E Hi. destruct e; simpl in E; repeat case_match; simplify_eq; done.
Qed.

Lemma jrun_hash es a a' t h : jrun es a = Some a' -> HashReturned t h ∈ es -> h <> 0 -> identity a' = Some h.
Proof.
  revert a. induction es as [|e es IH]; intros a Hr Hin Hh; [by apply elem_of_nil in Hin|].
  unfold jrun in Hr. simpl in Hr. destruct (japply a e) as [a1|] eqn:E; [|by rewrite foldl_none in Hr].
  apply elem_of_cons in Hin as [<-|Hin]; [|by apply (IH a1)].
  assert (Hi : identity a1 = Some h).
  { simpl in E. rewrite (proj2 (Z.eqb_neq h 0)) in E by done. destruct (identity a) as [x|] eqn:Ei.
    - destruct (Z.eqb_spec h x) as [->|]; [congruence|done].
    - by injection E as <-. }
  clear E IH. revert a1 Hi Hr. induction es as [|e es IH]; intros a1 Hi Hr; simpl in Hr; [congruence|].
  destruct (japply a1 e) as [a2|] eqn:E; [|by rewrite foldl_none in Hr].
  apply (IH a2); [|done]. by apply (japply_identity a1 e).
Qed.

(** C22: In every run of fewer than 2^16 threads, the hash codes other than 0 that
    an object reports are all the same, across inflation and deflation of its
    lock. ([GetHashCode] can also return 0, see [GetHashCode_race].) *)
Theorem hash_code_stable cf max_spins n seed es s t h t' h' :
  Z.of_nat n < 2 ^ 16 -> mrun cf max_spins (minit n seed) es s ->
  HashReturned t h ∈ es -> HashReturned t' h' ∈ es -> h <> 0 -> h' <> 0 -> h = h'.
Proof.
  intros Hn Hr H1 H2 Hh Hh'. destruct (reachable_inv cf max_spins n seed es s Hn Hr) as (v & a & Ha & _).
  pose proof (jrun_hash es _ a t h Ha H1 Hh). pose proof (jrun_hash es _ a t' h' Ha H2 Hh'). congruence.
Qed.

(** ** Examples *)

Definition ex_config : gc_config := {| gUseReadBarrier := true; gUseUserfaultfd := false |}.

(** A step of thread [t], which makes the call when it is idle. *)
Definition ex_step (t : nat) (c : call) : mlabel := Thread t {| next_call := c; weak := false; fresh_id := 5 |}.

(** Thread 0 takes the thin lock, inflates it to wait and is asleep. *)
Definition ex_wait : list mlabel :=
  [ex_step 0 (CallEnter false)] ++ repeat (ex_step 0 CallExit) 2 ++
  [ex_step 0 (CallWait 0 0)] ++ repeat (ex_step 0 CallExit) 11.

(** Thread 1 enters, notifies and exits; thread 0 wakes up and exits. *)
Definition ex_notify : list mlabel :=
  ex_wait ++ repeat (ex_step 1 (CallEnter false)) 5 ++ repeat (ex_step 1 (CallNotify true)) 3 ++
  repeat (ex_step 1 CallExit) 7 ++ repeat (ex_step 0 CallExit) 12.

Definition ex_notify_events : list mevent :=
  [Entered 0; WaitReleased 0; Entered 1; NotifyReturned 1; Exited 1; WaitReturned 0; Exited 0].

Definition ex_hash : list mlabel :=
  ex_wait ++ repeat (ex_step 1 CallHash) 3 ++ repeat (ex_step 2 CallHash) 6 ++ [ex_step 1 CallHash].

(** A run of three threads on the object, by its events. *)
Lemma ex_run ls es : snd <$> execute ex_config 50 ls (minit 3 1) = Some es -> exists s, mrun ex_config 50 (minit 3 1) es s.
Proof. apply execute_events. Qed.

Lemma monitor_refines_witness :
  exists s, mrun ex_config 50 (minit 3 1) ex_notify_events s /\ exists a, jrun ex_notify_events jinit = Some a.
Proof.
  destruct (ex_run ex_notify ex_notify_events) as [s Hr]; [vm_compute; reflexivity|].
  exists s. split; [exact Hr|]. exact (monitor_refines ex_config 50 3 1 ex_notify_events s eq_refl Hr).
Defined.

Lemma monitor_checks_witness : exists s, mrun ex_config 50 (minit 3 1) ex_notify_events s /\
  (perform ex_config 50 GcDeflate s <> None \/
   exists t c a, GcDeflate = Thread t c /\ jrun ex_notify_events jinit = Some a /\ holder a = Some (t, 2 ^ 32)).
Proof.
  destruct (ex_run ex_notify ex_notify_events) as [s Hr]; [vm_compute; reflexivity|].
  exists s. split; [exact Hr|]. exact (monitor_checks ex_config 50 3 1 ex_notify_events s GcDeflate eq_refl Hr).
Defined.

(** Thread 0 asks for the hash code of the free object, enters, which inflates
    the lock, and exits; the collector deflates; thread 1 asks again. *)
Definition ex_hash_twice : list mlabel :=
  repeat (ex_step 0 CallHash) 3 ++ [ex_step 0 (CallEnter false)] ++ repeat (ex_step 0 CallExit) 13 ++
  [GcDeflate] ++ repeat (ex_step 1 CallHash) 2.

Definition ex_hash_events : list mevent := [HashReturned 0 1; Entered 0; Exited 0; HashReturned 1 1].

Lemma hash_code_stable_witness : exists s, mrun ex_config 50 (minit 3 1) ex_hash_events s /\
  HashReturned 0 1 ∈ ex_hash_events /\ HashReturned 1 1 ∈ ex_hash_events /\ 1 = 1.
Proof.
  destruct (ex_run ex_hash_twice ex_hash_events) as [s Hr]; [vm_compute; reflexivity|]. exists s. split; [exact Hr|].
  assert (H1 : HashReturned 0 1 ∈ ex_hash_events) by (apply list_elem_of_here).
  assert (H2 : HashReturned 1 1 ∈ ex_hash_events) by (do 3 apply list_elem_of_further; apply list_elem_of_here).
  split; [exact H1|]. split; [exact H2|].
  exact (hash_code_stable ex_config 50 3 1 ex_hash_events s 0 1 1 1 eq_refl Hr H1 H2 ltac:(lia) ltac:(lia)).
Defined.

(** [Monitor::GetHashCode] can return 0 although the object has a hash
    code: a thread that reads [hash_code_] before another one sets it finds
    [HasHashCode] true and returns what it read. Here thread 1 returns 0 after
    thread 2 returned 1. *)
Lemma GetHashCode_race :
  exists s, mrun ex_config 50 (minit 3 1) [Entered 0; WaitReleased 0; HashReturned 2 1; HashReturned 1 0] s.
Proof. apply (ex_run ex_hash). vm_compute. reflexivity. Qed.
