(* ===== verification/MonitorLive.v ===== *)
(** * Progress of monitors

    Threads that wait for each other: for the mutex of a monitor, for the mutex
    of a waiting thread, for the suspension of an owner, for the end of their
    own suspension or for a signal.  The invariant of this file says that none
    of these waits closes a cycle and that a notified thread is never
    forgotten; it follows that a state in which no call can go on has no calls
    but those that Java semantics says must wait. *)

From Stdlib Require Import ZArith Lia Bool.
From stdpp Require Import base numbers list option functions gmap sets.
From S2P Require Import Prelude LockWord WaitSet Monitor MonitorInv MonitorSteps MonitorFat MonitorRun.

Local Open Scope Z_scope.
Local Open Scope art_scope.

#[local] Ltac Zify.zify_post_hook ::= Z.to_euclidean_division_equations.

(** ** The invariant *)

(** A thread in [Wait] that sleeps, or is about to, without having been
    signalled; [b] is whether its condition variable was signalled. *)
Definition dormant (q : mpc) (b : bool) : bool :=
  match q with
  | SignalPop _ (KWaitSignal _) | SignalMutex _ _ (KWaitSignal _) | SignalCheck _ _ (KWaitSignal _)
  | SignalSend _ _ (KWaitSignal _) | WaitBegin _ _ => true
  | WaitCond _ _ => negb b
  | _ => false
  end.

(** A thread in [Wait] on its way back to the monitor. *)
Definition awake (q : mpc) (b : bool) : bool :=
  match q with
  | WaitCond _ _ => b
  | WaitUnlockMutex _ _ | WaitRunnable _ _ | WaitClear _ _
  | TryLockOwner _ _ (KWaitLock _) | TryLockMutex _ _ (KWaitLock _) | LockWaiters _ (KWaitLock _)
  | LockBlocked _ (KWaitLock _) => true
  | _ => false
  end.

(** The thread is signalling [u]. *)
Definition signals (q : mpc) (u : nat) : bool :=
  match q with
  | SignalMutex _ x _ | SignalCheck _ x _ | SignalSend _ x _ => bool_decide (x = u)
  | _ => false
  end.

Definition sends (q : mpc) : bool := match q with SignalSend _ _ _ => true | _ => false end.

(** A thread in [Wait] that has not released the monitor yet. *)
Definition releasing (q : mpc) : bool :=
  match q with
  | SignalPop _ (KWaitSignal _) | SignalMutex _ _ (KWaitSignal _) | SignalCheck _ _ (KWaitSignal _) => true
  | _ => false
  end.

(** A sleeping thread is in a wait set or being signalled; a thread to wake has
    somebody who will take the monitor and release it; who is signalled still
    waits; nobody wakes itself, and only threads are signalled. *)
Record Wakes (ps : list mpc) (sg : nat -> bool) (lock : option nat) (ws ks : list nat) : Prop := {
  wakes_dormant u q : ps !! u = Some q -> dormant q (sg u) = true ->
    u ∈ ws ++ ks \/ exists t r, ps !! t = Some r /\ signals r u = true;
  wakes_wake : ks <> [] ->
    lock <> None \/ (exists u q, ps !! u = Some q /\ awake q (sg u) = true) \/
    exists t r, ps !! t = Some r /\ sends r = true;
  wakes_send t m u k : ps !! t = Some (SignalSend m u k) -> exists q, ps !! u = Some q /\ waiting_on q <> None;
  wakes_self t q : ps !! t = Some q -> releasing q = true -> (t ∉ ks) /\ signals q t = false;
  wakes_known t r u : ps !! t = Some r -> signals r u = true -> is_Some (ps !! u);
}.

(** The owner a thread that inflates wants to suspend or has suspended. *)
Definition target (cf : gc_config) (t : nat) (q : mpc) : option nat :=
  match q with
  | InflateThin lw _ _ =>
      o ← ThinLockOwner cf lw; if o =? thread_id t then None else Some (Z.to_nat (o - 1))
  | SuspendOwner o _ _ => Some o
  | _ => suspended q
  end.

(** These form no cycle: along them a rank grows. A thread with a target does
    not hold the thin lock. *)
Definition Ordered (cf : gc_config) (v : view) (ps : list mpc) : Prop :=
  exists r : nat -> nat, forall t q o, ps !! t = Some q -> target cf t q = Some o ->
    (r t < r o)%nat /\ forall c, v <> Thin (thread_id t) c.

(** Every monitor is the object's or about to be installed. *)
Definition Used (v : view) (ms : gmap Z Monitor) (ps : list mpc) : Prop := forall m M,
  ms !! m = Some M -> v = Fat m \/ exists t p, ps !! t = Some p /\ private p = Some m.

Record Live (cf : gc_config) (v : view) (s : mstate) : Prop := {
  live_order : Ordered cf v (pcs_ s);
  live_used : Used v (monitors_ s) (pcs_ s);
  live_wakes m : v = Fat m -> exists M ws ks, monitors_ s !! m = Some M /\ linked (links_of s M) ws ks /\
    Wakes (pcs_ s) (signalled s) (monitor_lock_ M) ws ks;
}.

(** ** Which places can block *)

Definition may_block (p : mpc) : bool :=
  match p with
  | Idle | SuspendOwner _ _ _ | LeaveSuspension _ _ _ | Create _ _ _ _ | LockBlocked _ _ | LockRunnable _ _
  | SignalMutex _ _ _ | WaitLockMutex _ _ | WaitCond _ _ | WaitRunnable _ _ | WaitClear _ _ => true
  | _ => false
  end.

Definition never_blocks (o : option outcome) : Prop := o <> Some Blocked.

Lemma never_bind {A} (x : option A) (f : A -> option outcome) : (forall y, never_blocks (f y)) -> never_blocks (x ≫= f).
Proof. intros Hf. destruct x; [apply Hf|done]. Qed.

Lemma never_goto s t p : never_blocks (goto s t p).
Proof. done. Qed.

Lemma never_return s t e : never_blocks (return_ s t e).
Proof. done. Qed.

Lemma never_go s e : never_blocks (Some (Go s e)).
Proof. done. Qed.

Lemma never_none : never_blocks None.
Proof. done. Qed.

Create HintDb never.
#[export] Hint Resolve never_goto never_return never_go never_none : never.

Ltac never :=
  repeat match goal with
  | |- never_blocks (_ ≫= _) => apply never_bind; intros ?
  | |- never_blocks (let '(_, _) := ?x in _) => destruct x
  | |- never_blocks (if ?b then _ else _) => destruct b
  | |- never_blocks (match ?x with _ => _ end) => destruct x
  | |- never_blocks _ => solve [eauto with never]
  end.

Lemma runs cf max_spins c t p s : may_block p = false -> never_blocks (thread_step cf max_spins c t p s).
Proof.
  intros Hp. destruct p; try discriminate Hp; cbn [thread_step];
    unfold enter_load, enter_cas, enter_store, InflateThinLocked, recheck, install_load, install_cas, add_monitor,
      resume_owner, try_lock_owner, try_lock_mutex, try_lock_store, lock_waiters, lock_store, exit_load, exit_cas,
      exit_store, unlock_owner, signal_pop, signal_check, signal_send, hash_load, hash_cas, hash_monitor, hash_has,
      hash_swap, hash_reload, wait_load, wait_owner, wait_enqueue, wait_begin, wait_unlock_mutex, wait_restore,
      notify_load, notify_monitor; never.
Qed.

(** A list that is too short misses a small number. *)
Lemma small_unused (l : list Z) : exists x, 0 <= x <= Z.of_nat (length l) /\ (x ∉ l).
Proof.
  set (c := seqZ 0 (Z.of_nat (length l) + 1)).
  destruct (decide (Forall (fun x => x ∈ l) c)) as [Hall|Hno].
  - assert (Hlen : (length c <= length l)%nat).
    { apply submseteq_length, NoDup_submseteq; [apply NoDup_seqZ|]. by apply Forall_forall. }
    unfold c in Hlen. rewrite length_seqZ in Hlen. lia.
  - apply not_Forall_Exists in Hno; [|apply _]. apply Exists_exists in Hno as (x & Hx & Hn).
    apply elem_of_seqZ in Hx. exists x. split; [lia|done].
Qed.

Lemma omap_length {A B} (f : A -> option B) (l : list A) : (length (omap f l) <= length l)%nat.
Proof.
  induction l as [|x l IH]; [done|]. cbn [omap list_omap]. destruct (f x); cbn [length]; lia.
Qed.

(** ** States in which no call can go on *)

(** No choice but a spurious failure, a timeout or an interrupt lets [t] go on. *)
Definition stuck (cf : gc_config) (max_spins : Z) (s : mstate) (t : nat) : Prop :=
  forall c, weak c = false -> perform cf max_spins (Thread t c) s = Some Blocked.

Section stalled.

Context (cf : gc_config) (max_spins : Z) (v : view) (a : jmonitor) (s : mstate) (HI : Inv cf v a s) (HL : Live cf v s).
Context (Hall : forall t p, pcs_ s !! t = Some p -> p = Idle \/ stuck cf max_spins s t).

Definition some_choice (m : Z) : choice := {| next_call := CallExit; weak := false; fresh_id := m |}.

Lemma stalled_place t p : pcs_ s !! t = Some p ->
  p = Idle \/ may_block p = true /\ forall m, thread_step cf max_spins (some_choice m) t p s = Some Blocked.
Proof.
  intros Hp. destruct (Hall t p Hp) as [?|Hs]; [by left|right].
  assert (Hb : forall m, thread_step cf max_spins (some_choice m) t p s = Some Blocked).
  { intros m. specialize (Hs (some_choice m) eq_refl). cbn [perform] in Hs. by rewrite Hp in Hs. }
  split; [|done]. destruct (may_block p) eqn:E; [done|].
  by destruct (runs cf max_spins (some_choice 0) t p s E).
Qed.

(** Nobody is at a place that cannot block. *)
Lemma stalled_no_runner t p : pcs_ s !! t = Some p -> may_block p = true.
Proof. intros Hp. by destruct (stalled_place t p Hp) as [->|[? _]]. Qed.

(** *** Wait mutexes *)

Lemma stalled_mutex u : wait_mutex_ s u = None \/ exists m x prev, pcs_ s !! u = Some (SignalMutex m x (KWaitSignal prev)).
Proof.
  destruct (wait_mutex_ s u) as [t|] eqn:E; [right|by left].
  apply (inv_mutexes _ _ _ _ HI) in E as (q & Hq & Hh). pose proof (stalled_no_runner t q Hq) as Hb.
  destruct q; try discriminate Hh; try discriminate Hb. destruct k as [|prev]; [discriminate Hh|].
  simpl in Hh. apply bool_decide_eq_true in Hh as ->. eauto.
Qed.

Lemma stalled_no_signal t m u k : pcs_ s !! t <> Some (SignalMutex m u k).
Proof.
  intros Ht. destruct (inv_views _ _ _ _ HI t _ Ht) as [_ Hv]. specialize (Hv m eq_refl).
  destruct (stalled_place t _ Ht) as [?|[_ Hb]]; [done|]. specialize (Hb 0). cbn [thread_step] in Hb. unfold signal_mutex in Hb.
  destruct (stalled_mutex u) as [E|(m' & x & prev & Hu)]; [by rewrite E in Hb|].
  pose proof (inv_fats _ _ _ _ HI) as HF. rewrite Hv in HF. destruct HF as (M & HM & HF).
  pose proof (lock_must _ _ (fat_lock _ _ _ HF) t _ Ht eq_refl) as Et.
  pose proof (lock_must _ _ (fat_lock _ _ _ HF) u _ Hu eq_refl) as Eu.
  assert (u = t) as -> by congruence. assert (k = KWaitSignal prev /\ x = t) as [-> ->] by (split; congruence).
  destruct (live_wakes _ _ _ HL m Hv) as (M' & ws & ks & _ & _ & HW).
  destruct (wakes_self _ _ _ _ _ HW t _ Ht eq_refl) as [_ Hs]. simpl in Hs. by apply bool_decide_eq_false in Hs.
Qed.

Lemma stalled_mutex_free u : wait_mutex_ s u = None.
Proof. destruct (stalled_mutex u) as [|(m & x & prev & Hu)]; [done|]. by destruct (stalled_no_signal _ _ _ _ Hu). Qed.

(** *** Creating a monitor and suspending a thread *)

Lemma fresh_exists : exists m, 0 <= m <= kMaxMonitorId /\ monitors_ s !! m = None.
Proof.
  set (ids := (match v with Fat m => [m] | _ => [] end) ++ omap private (pcs_ s)).
  assert (Hlen : Z.of_nat (length ids) <= 2 ^ 16).
  { destruct (inv_words _ _ _ _ HI) as (Hn & _). unfold ids. rewrite length_app.
    pose proof (omap_length private (pcs_ s)).
    destruct v; simpl; lia. }
  destruct (small_unused ids) as (x & Hx & Hn). change kMaxMonitorId with (2 ^ 28 - 1). exists x. split; [lia|].
  destruct (monitors_ s !! x) as [M|] eqn:E; [|done]. destruct Hn. unfold ids. apply elem_of_app.
  destruct (live_used _ _ _ HL x M E) as [->|(t & p & Hp & Hpr)]; [left; set_solver|right].
  apply list_elem_of_omap. exists p. split; [by eapply list_elem_of_lookup_2|done].
Qed.

Lemma stalled_no_create t o h r k : pcs_ s !! t <> Some (Create o h r k).
Proof.
  intros Ht. destruct fresh_exists as (m & Hm & Hfree). destruct (stalled_place t _ Ht) as [?|[_ Hb]]; [done|].
  specialize (Hb m). cbn [thread_step] in Hb. unfold create in Hb. cbn [some_choice fresh_id] in Hb.
  rewrite (proj2 (Z.leb_le 0 m)), (proj2 (Z.leb_le m _)), bool_decide_true in Hb by lia || done. cbn [andb] in Hb.
  destruct (check_owner s t o); cbn [mbind option_bind] in Hb; done.
Qed.

Lemma lsum_positive f ps : (forall p, 0 <= f p) -> 0 < lsum f ps -> exists t p, ps !! t = Some p /\ 0 < f p.
Proof.
  intros Hf. induction ps as [|p ps IH]; simpl; [lia|]. intros Hs. destruct (decide (0 < f p)) as [Hp|Hp].
  - by exists 0%nat, p.
  - destruct IH as (t & q & Hq & Hfq); [specialize (Hf p); lia|]. by exists (S t), q.
Qed.

Lemma stalled_not_suspended t : suspend_count s t <= 0.
Proof.
  destruct (live_order _ _ _ HL) as [r Hr]. remember (r t) as n eqn:En. revert t En.
  induction (lt_wf n) as [n _ IH]. intros t ->. destruct (Z_le_gt_dec (suspend_count s t) 0) as [|Hpos]; [done|].
  rewrite (inv_suspends _ _ _ _ HI t) in Hpos.
  destruct (lsum_positive (suspends t) (pcs_ s) (suspends_nonneg t)) as (x & q & Hq & Hsus); [lia|].
  unfold suspends in Hsus. case_decide as E; [|lia]. pose proof (stalled_no_runner x q Hq) as Hb.
  destruct q; try discriminate E; try discriminate Hb; [|by destruct (stalled_no_create _ _ _ _ _ Hq)].
  simpl in E. subst owner. destruct (Hr x _ t Hq eq_refl) as [Hlt _]. specialize (IH (r x) Hlt x eq_refl).
  destruct (stalled_place x _ Hq) as [?|[_ Hgo]]; [done|]. specialize (Hgo 0). cbn [thread_step] in Hgo.
  unfold leave_suspension in Hgo. by rewrite (proj2 (Z.ltb_ge _ _)) in Hgo.
Qed.

(** *** What remains *)

Lemma stalled_cases t p : pcs_ s !! t = Some p ->
  p = Idle \/ (exists m k, p = LockBlocked m k) \/ (exists m prev, p = WaitCond m prev /\ signalled s t = false) \/
  exists o h k q, p = SuspendOwner o h k /\ pcs_ s !! o = Some q /\ at_safepoint q = false.
Proof.
  intros Ht. destruct (stalled_place t p Ht) as [->|[Hb Hgo]]; [by left|].
  pose proof (stalled_not_suspended t) as Hsus. pose proof (stalled_mutex_free t) as Hmu. specialize (Hgo 0).
  destruct p; try discriminate Hb; cbn [thread_step] in Hgo.
  - by left.
  - unfold suspend_owner in Hgo. cbn [some_choice weak] in Hgo. destruct (pcs_ s !! owner) as [q|] eqn:Hq; [|done].
    destruct (dcheck _); cbn [mbind option_bind] in Hgo; [|done]. destruct (at_safepoint q) eqn:E; [done|].
    do 3 right. by exists owner, hash_code, k, q.
  - unfold leave_suspension in Hgo. rewrite (proj2 (Z.ltb_ge _ _)) in Hgo by done. by destruct owner.
  - by destruct (stalled_no_create _ _ _ _ _ Ht).
  - eauto.
  - unfold lock_runnable in Hgo. by rewrite (proj2 (Z.ltb_ge _ _)) in Hgo.
  - by destruct (stalled_no_signal _ _ _ _ Ht).
  - unfold wait_lock_mutex in Hgo. by rewrite Hmu in Hgo.
  - unfold wait_cond in Hgo. rewrite Hmu in Hgo. right. right. left. exists m, prev_lock_count. split; [done|].
    destruct (signalled s t); done.
  - unfold wait_runnable in Hgo. by rewrite (proj2 (Z.ltb_ge _ _)) in Hgo.
  - unfold wait_clear in Hgo. rewrite Hmu in Hgo. by destruct (dcheck _).
Qed.

Lemma stalled_kinds t p : pcs_ s !! t = Some p ->
  p = Idle \/ (exists m k, p = LockBlocked m k) \/ (exists m prev, p = WaitCond m prev /\ signalled s t = false).
Proof.
  intros Ht. destruct (stalled_cases t p Ht) as [?|[?|[?|(o & h & k & q & -> & Hq & Hs)]]]; eauto.
  destruct (stalled_cases o q Hq) as [->|[(? & ? & ->)|[(? & ? & -> & _)|(o' & h' & k' & q' & -> & _)]]]; done.
Qed.

(** A thread blocked on the monitor waits for one that holds it outside of
    these calls. *)
Lemma stalled_blocked t m k : pcs_ s !! t = Some (LockBlocked m k) ->
  exists o d, holder a = Some (o, d) /\ pcs_ s !! o = Some Idle.
Proof.
  intros Ht. destruct (inv_views _ _ _ _ HI t _ Ht) as [_ Hv]. specialize (Hv m eq_refl).
  pose proof (inv_fats _ _ _ _ HI) as HF. rewrite Hv in HF. destruct HF as (M & HM & HF).
  destruct (stalled_place t _ Ht) as [?|[_ Hb]]; [done|]. specialize (Hb 0). cbn [thread_step] in Hb. unfold lock_blocked in Hb.
  rewrite HM in Hb. cbn [mbind option_bind] in Hb. pose proof (lock_state _ _ (fat_lock _ _ _ HF)) as Hs.
  destruct (monitor_lock_ M) as [o|] eqn:El; [|done]. destruct Hs as (q & Hq & Hn & _).
  exists o, (depth q M). rewrite (abs_holder _ _ _ _ (inv_abs _ _ _ _ HI)), Hv. split; [by apply holder_of_held|].
  destruct (stalled_kinds o q Hq) as [->|[(? & ? & ->)|(? & ? & -> & _)]]; done.
Qed.

Lemma stalled_waiting t m prev : pcs_ s !! t = Some (WaitCond m prev) -> signalled s t = false ->
  exists M ws ks, monitors_ s !! m = Some M /\ linked (links_of s M) ws ks /\ t ∈ ws ++ ks /\ (holder a = None -> ks = []).
Proof.
  intros Ht Hsg. destruct (inv_views _ _ _ _ HI t _ Ht) as [_ Hv]. specialize (Hv m eq_refl).
  destruct (live_wakes _ _ _ HL m Hv) as (M & ws & ks & HM & Hl & HW). exists M, ws, ks. split; [done|]. split; [done|].
  assert (Hno : forall x r, pcs_ s !! x = Some r -> (forall u, signals r u = false) /\ sends r = false).
  { intros x r Hr. destruct (stalled_kinds x r Hr) as [->|[(? & ? & ->)|(? & ? & -> & _)]]; done. }
  split.
  - destruct (wakes_dormant _ _ _ _ _ HW t _ Ht) as [?|(x & r & Hr & Hx)]; [simpl; by rewrite Hsg|done|].
    destruct (Hno x r Hr) as [Hn _]. by rewrite Hn in Hx.
  - intros Ha. destruct ks as [|y ks]; [done|]. pose proof (inv_fats _ _ _ _ HI) as HF. rewrite Hv in HF.
    destruct HF as (M' & HM' & HF). assert (M' = M) as -> by congruence.
    destruct (wakes_wake _ _ _ _ _ HW) as [El|[(u & q & Hq & Hw)|(x & r & Hr & Hx)]]; [done|..].
    + pose proof (lock_state _ _ (fat_lock _ _ _ HF)) as Hs. destruct (monitor_lock_ M) as [o|] eqn:E; [|done].
      destruct Hs as (q & Hq & _). rewrite (abs_holder _ _ _ _ (inv_abs _ _ _ _ HI)), Hv in Ha.
      by rewrite (holder_of_held _ _ _ M o q) in Ha.
    + destruct (stalled_kinds u q Hq) as [->|[(m' & k & ->)|(? & ? & -> & Es)]]; [done| |simpl in Hw; congruence].
      destruct (stalled_blocked u m' k Hq) as (o & d & ? & _). congruence.
    + destruct (Hno x r Hr) as [_ ?]. congruence.
Qed.

End stalled.
