(* ===== verification/MonitorProgress.v ===== *)
(** * Monitors do not deadlock

    Every step keeps the invariant of [MonitorLive], so it holds in every
    reachable state, and with it the absence of deadlocks and of lost
    notifications. *)

From Stdlib Require Import ZArith Lia Bool.
From stdpp Require Import base numbers list option functions gmap sets.
From S2P Require Import Prelude LockWord WaitSet Monitor MonitorInv MonitorSteps MonitorFat MonitorRun MonitorLive.

Local Open Scope Z_scope.
Local Open Scope art_scope.

#[local] Ltac Zify.zify_post_hook ::= Z.to_euclidean_division_equations.

(** ** Properties of the state after a step *)

Definition keeps (P : mstate -> Prop) (o : option outcome) : Prop := forall s' e, o = Some (Go s' e) -> P s'.

Lemma keeps_bind {A} P (x : option A) f : (forall y, x = Some y -> keeps P (f y)) -> keeps P (x ≫= f).
Proof. intros Hf s' e. destruct x; [by apply Hf|done]. Qed.

Lemma keeps_goto (P : mstate -> Prop) s t p : P (set_pc s t p) -> keeps P (goto s t p).
Proof. intros HP s' e H. by injection H as <- <-. Qed.

Lemma keeps_return (P : mstate -> Prop) s t e : P (set_pc s t Idle) -> keeps P (return_ s t e).
Proof. intros HP s' e' H. by injection H as <- <-. Qed.

Lemma keeps_go (P : mstate -> Prop) s e : P s -> keeps P (Some (Go s e)).
Proof. intros HP s' e' H. by injection H as <- <-. Qed.

Lemma keeps_none P : keeps P None.
Proof. done. Qed.

Lemma keeps_blocked P : keeps P (Some Blocked).
Proof. done. Qed.

Lemma keeps_cas (P : mstate -> Prop) cf s fails old new f :
  keeps P (f (s, false)) ->
  (word_ s = old -> keeps P (f (set_word s new, true))) ->
  keeps P (CasLockWord cf s fails old new ≫= f).
Proof.
  intros Hno Hyes. unfold CasLockWord, GetValue.
  destruct (CheckReadBarrierState cf old); cbn [mbind option_bind]; [|done].
  destruct (CheckReadBarrierState cf new); cbn [mbind option_bind]; [|done].
  destruct (Z.eqb_spec (word_ s) old) as [E|]; cbn [andb]; [|done]. destruct fails; cbn [negb]; [done|by apply Hyes].
Qed.

Lemma keeps_store (P : mstate -> Prop) cf s new f :
  keeps P (f (set_word s new)) -> keeps P (SetLockWord cf s new ≫= f).
Proof.
  intros HP. unfold SetLockWord, GetValue. by destruct (CheckReadBarrierState cf new); cbn [mbind option_bind].
Qed.

(** Reduce what a step keeps to the states it can lead to. *)
Ltac keeps :=
  repeat match goal with
  | |- keeps _ (CasLockWord _ _ _ _ _ ≫= _) => apply keeps_cas; [|intros ?]
  | |- keeps _ (SetLockWord _ _ _ ≫= _) => apply keeps_store
  | |- keeps _ (_ ≫= _) => apply keeps_bind; intros ? ?
  | |- keeps _ (let '(_, _) := ?x in _) => destruct x eqn:?
  | |- keeps _ (if ?b then _ else _) => destruct b eqn:?
  | |- keeps _ (goto (set_mutex (if ?b then _ else _) _ _) _ _) => destruct b eqn:?
  | |- keeps _ (goto _ _ _) => apply keeps_goto
  | |- keeps _ (return_ _ _ _) => apply keeps_return
  | |- keeps _ (Some (Go _ _)) => apply keeps_go
  | |- keeps _ None => apply keeps_none
  | |- keeps _ (Some Blocked) => apply keeps_blocked
  | |- keeps _ (match ?x with _ => _ end) => destruct x eqn:?
  end.

Ltac unfold_steps :=
  cbn [thread_step];
  unfold idle, enter_load, enter_cas, enter_store, InflateThinLocked, suspend_owner, leave_suspension, recheck, create,
    install_load, install_cas, add_monitor,
    resume_owner, try_lock_owner, try_lock_mutex, try_lock_store, lock_waiters, lock_blocked, lock_runnable, lock_store,
    exit_load, exit_cas,
    exit_store, unlock_owner, signal_pop, signal_mutex, signal_check, signal_send, hash_load, hash_cas, hash_monitor, hash_has,
    hash_swap, hash_reload, wait_load, wait_owner, wait_lock_mutex, wait_enqueue, wait_begin, wait_cond, wait_unlock_mutex,
    wait_runnable, wait_clear, wait_restore,
    notify_load, notify_monitor.

(** ** The lock word *)

(** The places whose step can write the lock word. *)
Definition writes_word (p : mpc) : bool :=
  match p with
  | EnterCas _ _ _ _ | EnterStore _ | InstallCas _ _ _ _ _ | ExitCas _ _ | ExitStore _ | HashCas _ _ => true
  | _ => false
  end.

Lemma word_same cf max_spins c t p s : writes_word p = false ->
  keeps (fun s' => word_ s' = word_ s) (thread_step cf max_spins c t p s).
Proof. intros Hp. destruct p; try discriminate Hp; unfold_steps; keeps; reflexivity. Qed.

(** The place of a thread is the only one that changes. *)
Lemma step_pcs cf max_spins c t p s :
  keeps (fun s' => exists p', pcs_ s' = <[t := p']> (pcs_ s)) (thread_step cf max_spins c t p s).
Proof. destruct p; unfold_steps; keeps; by eexists. Qed.

Lemma inv_view cf v a s v1 g : Inv cf v a s -> word_ s = encode v1 g -> view_ok v1 -> gc_ok cf g -> v = v1.
Proof.
  intros HI E H1 Hg. destruct (inv_words _ _ _ _ HI) as (_ & Hv & (gc & Hgc & _ & Hw) & _). rewrite Hw in E.
  by destruct (encode_inj cf _ _ _ _ Hv H1 Hgc Hg E).
Qed.

Lemma inv_view_same cf v a s v' a' s' : Inv cf v a s -> Inv cf v' a' s' -> word_ s' = word_ s -> v' = v.
Proof.
  intros HI HI' E. destruct (inv_words _ _ _ _ HI) as (_ & Hv & (gc & Hgc & _ & Hw) & _).
  apply (inv_view cf v' a' s' v gc HI'); [congruence|done..].
Qed.

(** What a step does to the state of the lock. *)
Inductive word_case (v v' : view) (t : nat) (p : mpc) (s s' : mstate) : Prop :=
  | word_kept : v' = v -> word_case v v' t p s s'
  | word_own : not_fat v -> not_fat v' -> (forall u c, v' = Thin (thread_id u) c -> u = t) ->
      pcs_ s' = <[t := Idle]> (pcs_ s) -> word_case v v' t p s s'
  | word_installed m lw fat r k : p = InstallCas m lw fat r k -> not_fat v -> v' = Fat m ->
      pcs_ s' = <[t := AddMonitor m r k]> (pcs_ s) -> monitors_ s' = monitors_ s -> word_case v v' t p s s'.

Section word_step.

Context (cf : gc_config) (max_spins : Z) (v : view) (a : jmonitor) (s : mstate) (HI : Inv cf v a s).
Context (t : nat).

Definition word_result (p : mpc) (s' : mstate) : Prop := forall v' a', Inv cf v' a' s' -> word_case v v' t p s s'.

Lemma result_same p s' : word_ s' = word_ s -> word_result p s'.
Proof. intros E v' a' HI'. apply word_kept. by apply (inv_view_same cf v a s v' a' s'). Qed.

(** The thread swaps a state that is its own business. *)
Lemma result_own p lw new v1 v2 g s1 : word_ s = lw -> lw = encode v1 g -> new = encode v2 g -> gc_ok cf g ->
  view_ok v1 -> view_ok v2 -> not_fat v1 -> not_fat v2 -> (forall u c, v2 = Thin (thread_id u) c -> u = t) ->
  s1 = set_pc (set_word s new) t Idle -> word_result p s1.
Proof.
  intros Ew E1 E2 Hg H1 H2 Hn1 Hn2 Hu -> v' a' HI'. subst lw new.
  assert (v = v1) as -> by by apply (inv_view cf v a s v1 g). assert (v' = v2) as -> by by apply (inv_view cf v' a' _ v2 g HI').
  by apply word_own.
Qed.

Lemma exit_view_thin u t' c c' : exit_view t' c = Thin (thread_id u) c' -> u = t'.
Proof. unfold exit_view. destruct (c =? 0); [done|]. intros [= E _]. by apply thread_id_inj. Qed.

Lemma word_step c p : pcs_ s !! t = Some p -> keeps (word_result p) (thread_step cf max_spins c t p s).
Proof.
  intros Ht. destruct (writes_word p) eqn:Ep.
  2:{ intros s' e E. apply result_same. by apply (word_same cf max_spins c t p s Ep s' e). }
  destruct (inv_locals _ _ _ _ HI t p Ht) as [Hwf _]. destruct (inv_views _ _ _ _ HI t p Ht) as [Hview _].
  destruct (inv_words _ _ _ _ HI) as (_ & Hv & (gc & Hgc & H0 & Hw) & _).
  assert (Hg0 : gUseReadBarrier cf = false -> gc_ok cf 0) by (intros E; by rewrite <- (H0 E)).
  destruct p; try discriminate Ep; unfold_steps; keeps; try (by apply result_same).
  - destruct Hwf as (v1 & v2 & g & Hg & E1 & E2 & Hv2 & Hcase).
    destruct Hcase as [[-> ->]|(x & Hx & -> & ->)]; (eapply result_own; [done|exact E1|exact E2|..]; try done;
      [unfold view_ok in *; lia|]) || (eapply result_own; [done|exact E1|exact E2|..]; try done);
      intros u y [= E _]; by apply thread_id_inj.
  - destruct Hview as (Hrb & x & E1 & Hok & E2). rewrite E1 in Hv.
    eapply (result_own _ _ _ v _ 0); [reflexivity|rewrite Hw, (H0 Hrb), E1; done|exact E2|by apply Hg0|by rewrite E1|done|by rewrite E1|done| |done].
    intros u y [= E _]. by apply thread_id_inj.
  - destruct (private_one _ _ _ _ (inv_privates _ _ _ _ HI) t _ m Ht eq_refl)
      as (M & HM & Hne & Hin & Hu & Hl & Hmok & g & Hg & Efat & Hrest).
    intros v' a' HI'. assert (v' = Fat m) as -> by by apply (inv_view cf v' a' _ (Fat m) g HI').
    eapply word_installed; try done. intros x ->.
    destruct (owner_ M) as [o|]; [destruct Hrest as (y & Hok & E & _)|destruct Hrest as [E _]].
    + assert (Fat x = Thin (thread_id o) y) by (apply (inv_view cf _ a s _ g HI); [congruence|done..]). done.
    + assert (Fat x = Hash (hash_code_ M)) by (apply (inv_view cf _ a s _ g HI); [congruence|done..]). done.
  - destruct Hwf as (x & g & Hg & Hok & E1 & E2). destruct (exit_view_ok t x Hok) as [Hok' Hnf].
    eapply result_own; [done|exact E1|exact E2|done..| |done]. intros u y. apply exit_view_thin.
  - destruct Hview as (Hrb & x & E1 & E2). rewrite E1 in Hv. destruct (exit_view_ok t x Hv) as [Hok' Hnf].
    eapply (result_own _ _ _ v _ 0); [reflexivity|rewrite Hw, (H0 Hrb), E1; done|exact E2|by apply Hg0|by rewrite E1|done|by rewrite E1|done| |done].
    intros u y. apply exit_view_thin.
  - destruct Hwf as (h & g & Hg & Hh & E1 & E2).
    eapply result_own; [done|exact E1|exact E2|done|done|unfold view_ok, is_u; lia|done..].
Qed.

End word_step.

(** ** Suspended owners *)

Section order.

Context (cf : gc_config) (v : view) (ps : list mpc) (t : nat) (p p' : mpc) (Ht : ps !! t = Some p).

Lemma Ordered_step v' : Ordered cf v ps -> (forall o, target cf t p' = Some o -> target cf t p = Some o) ->
  (forall u c, v' = Thin (thread_id u) c -> v = v' \/ u = t /\ target cf t p' = None) ->
  Ordered cf v' (<[t := p']> ps).
Proof.
  intros [r Hr] Htg Hv. exists r. intros u q o Hq Ho.
  assert (Hold : (r u < r o)%nat /\ forall c, v <> Thin (thread_id u) c).
  { apply (lookup_step _ _ _ _ Ht) in Hq as [[-> ->]|[_ Hq]]; [by apply (Hr t p), Htg|by apply (Hr u q)]. }
  destruct Hold as [Hlt Hno]. split; [done|]. intros c Ev. destruct (Hv u c Ev) as [E|[-> Hnone]]; [by apply (Hno c); congruence|].
  apply (lookup_step _ _ _ _ Ht) in Hq as [[_ ->]|[? _]]; congruence.
Qed.

(** A new target is the holder of the thin lock, who has none itself. *)
Lemma Ordered_add u c : Ordered cf v ps -> target cf t p' = Some u -> u <> t -> v = Thin (thread_id u) c ->
  Ordered cf v (<[t := p']> ps).
Proof.
  intros [r Hr] Htg Hut Ev.
  exists (<[u := S (max_list (r <$> seq 0 (length ps)))]> r). intros x q o Hq Ho.
  assert (Hxu : x <> u).
  { intros ->. apply (lookup_step _ _ _ _ Ht) in Hq as [[-> _]|[_ Hq]]; [done|].
    destruct (Hr u q o Hq Ho) as [_ Hn]. by apply (Hn c). }
  assert (Hno : forall y, v <> Thin (thread_id x) y).
  { intros y E. apply Hxu, thread_id_inj. congruence. }
  split; [|done]. rewrite (fn_lookup_insert_ne r u x) by congruence.
  destruct (decide (o = u)) as [->|Hou].
  - rewrite fn_lookup_insert. apply le_n_S, max_list_elem_of_le, list_elem_of_fmap_2, elem_of_seq. split; [lia|].
    apply lookup_lt_Some in Hq. by rewrite length_insert in Hq.
  - rewrite fn_lookup_insert_ne by congruence.
    apply (lookup_step _ _ _ _ Ht) in Hq as [[-> ->]|[_ Hq]]; [congruence|by apply (Hr x q)].
Qed.

End order.

Section order_step.

Context (cf : gc_config) (max_spins : Z) (v : view) (a : jmonitor) (s : mstate) (HI : Inv cf v a s) (t : nat).

(** The target of a lock word that was just read. *)
Lemma target_loaded lw h k o : GetLockWord cf s = Some lw -> target cf t (InflateThin lw h k) = Some o ->
  exists c, v = Thin (thread_id o) c /\ o <> t.
Proof.
  intros EL Ho. destruct (load_word cf v a s HI) as (gc & Hg & _ & Hv & _ & EL' & ES & _).
  rewrite EL in EL'. injection EL' as ->. cbn [target] in Ho. apply bind_Some in Ho as (x & Hx & Ho).
  assert (Hst : state_of v = kThinLocked).
  { unfold ThinLockOwner, check_state in Hx. rewrite ES in Hx. cbn [mbind option_bind] in Hx.
    destruct (state_of v); done. }
  destruct v as [|o' c|m|h'|f] eqn:Ev; try done. rewrite ThinLockOwner_encode in Hx by done. injection Hx as <-.
  destruct (thin_owner cf _ a s HI o' c eq_refl) as (u & _ & -> & _).
  destruct (Z.eqb_spec (thread_id u) (thread_id t)) as [|Hne]; [done|]. injection Ho as <-.
  assert (Eu : Z.to_nat (thread_id u - 1) = u) by (unfold thread_id; lia). rewrite Eu. exists c. split; [done|congruence].
Qed.

Lemma target_step c p : keeps (fun s' => exists p', pcs_ s' = <[t := p']> (pcs_ s) /\
    forall o, target cf t p' = Some o ->
      target cf t p = Some o \/ word_ s' = word_ s /\ exists c, v = Thin (thread_id o) c /\ o <> t)
  (thread_step cf max_spins c t p s).
Proof.
  destruct p; unfold_steps; keeps; (eexists; split; [reflexivity|]); try (by left).
  all: try (destruct k; by left).
  all: try (destruct resume; [by left|destruct k; by left]).
  - destruct (next_call c); by left.
  - intros o Ho. right. split; [done|]. by eapply target_loaded.
  - intros o Ho. right. split; [done|]. by eapply target_loaded.
  - intros o Ho. left. cbn [target suspended] in *. rewrite H0. cbn [mbind option_bind]. by rewrite Heqb.
  - intros o Ho. right. split; [done|]. by eapply target_loaded.
Qed.

Lemma Ordered_keeps c p s' e v' a' : pcs_ s !! t = Some p -> Ordered cf v (pcs_ s) ->
  thread_step cf max_spins c t p s = Some (Go s' e) -> Inv cf v' a' s' -> Ordered cf v' (pcs_ s').
Proof.
  intros Ht HO E HI'. destruct (target_step c p s' e E) as (p' & Ep & Htg).
  destruct (word_step cf max_spins v a s HI t c p Ht s' e E v' a' HI') as [->|_ _ Hv Ep'|m lw fat r k -> _ -> Ep' _].
  - rewrite Ep. destruct (target cf t p') as [u|] eqn:Eu.
    + destruct (Htg u eq_refl) as [Hp|(_ & x & Ev & Hut)].
      * apply (Ordered_step cf v _ _ p _ Ht); [done|intros o Ho; congruence|]. intros u' x Ev. by left.
      * by apply (Ordered_add cf v _ _ p _ Ht u x).
    + apply (Ordered_step cf v _ _ p _ Ht); [done|intros o Ho; congruence|]. intros u' x Ev. by left.
  - rewrite Ep'. apply (Ordered_step cf v _ _ p _ Ht); [done..|]. intros u x Ev. right. split; [by apply (Hv u x)|done].
  - rewrite Ep'. apply (Ordered_step cf v _ _ _ _ Ht); [done..|]. intros u x Ev. done.
Qed.

End order_step.

(** ** Monitors in use *)

Section used_step.

Context (cf : gc_config) (max_spins : Z) (v : view) (a : jmonitor) (s : mstate) (HI : Inv cf v a s) (t : nat).

Definition used_after (p : mpc) (s' : mstate) : Prop :=
  exists p', pcs_ s' = <[t := p']> (pcs_ s) /\
    forall m M, monitors_ s' !! m = Some M ->
      private p' = Some m \/ mentions p' = Some m \/ is_Some (monitors_ s !! m) /\ private p <> Some m.

Lemma used_after_same p p' s' : pcs_ s' = <[t := p']> (pcs_ s) -> monitors_ s' = monitors_ s -> private p = None ->
  used_after p s'.
Proof. intros Ep Em Hp. exists p'. split; [done|]. intros m M HM. right. right. rewrite Em in HM. split; [by eexists|congruence]. Qed.

Lemma used_after_put p p' s' m M M' : pcs_ s' = <[t := p']> (pcs_ s) -> monitors_ s' = <[m := M']> (monitors_ s) ->
  monitors_ s !! m = Some M -> private p = None -> used_after p s'.
Proof.
  intros Ep Em HM Hp. exists p'. split; [done|]. intros m' N HN. right. right. rewrite Em in HN. split; [|congruence].
  destruct (decide (m' = m)) as [->|Hne]; [by eexists|]. rewrite lookup_insert_ne in HN by congruence. by eexists.
Qed.

Lemma used_after_delete p p' s' m : pcs_ s' = <[t := p']> (pcs_ s) -> monitors_ s' = delete m (monitors_ s) ->
  private p = Some m -> used_after p s'.
Proof.
  intros Ep Em Hp. exists p'. split; [done|]. intros m' N HN. right. right. rewrite Em in HN.
  apply lookup_delete_Some in HN as [Hne HN]. split; [by eexists|congruence].
Qed.

Lemma used_after_own p p' s' m : pcs_ s' = <[t := p']> (pcs_ s) ->
  ((exists M', monitors_ s' = <[m := M']> (monitors_ s)) \/ monitors_ s' = monitors_ s) ->
  (private p' = Some m \/ mentions p' = Some m) -> (private p = None \/ private p = Some m) -> used_after p s'.
Proof.
  intros Ep Em Hp' Hp. exists p'. split; [done|]. intros m' N HN. destruct (decide (m' = m)) as [->|Hne]; [tauto|].
  right. right. split; [|destruct Hp; congruence].
  destruct Em as [[M' Em]|Em]; rewrite Em in HN; [rewrite lookup_insert_ne in HN by congruence|]; by eexists.
Qed.

Lemma used_step c p : keeps (used_after p) (thread_step cf max_spins c t p s).
Proof.
  destruct p; unfold_steps; keeps;
    first [by eapply used_after_same|by eapply used_after_put|by eapply used_after_delete|idtac].
  all: eapply used_after_own; [reflexivity|first [by left; eexists|by left|by right]..].
Qed.

Lemma Used_keeps c p s' e v' a' : pcs_ s !! t = Some p -> Used v (monitors_ s) (pcs_ s) ->
  thread_step cf max_spins c t p s = Some (Go s' e) -> Inv cf v' a' s' -> Used v' (monitors_ s') (pcs_ s').
Proof.
  intros Ht HU E HI' m M HM. destruct (used_step c p s' e E) as (p' & Ep & Hu).
  assert (Hself : pcs_ s' !! t = Some p') by (rewrite Ep; by apply (lookup_self _ _ _ _ Ht)).
  destruct (Hu m M HM) as [Hpr|[Hm|[[N HN] Hpr]]]; [right; by exists t, p'| |].
  - left. by apply (inv_views _ _ _ _ HI' t p' Hself).
  - destruct (HU m N HN) as [Ev|(u & q & Hq & Hqm)].
    + left. destruct (word_step cf max_spins v a s HI t c p Ht s' e E v' a' HI') as [->|Hnf _ _ _|? ? ? ? ? _ Hnf _ _ _]; [done|..];
        by destruct (Hnf m).
    + right. exists u, q. split; [|done]. rewrite Ep, (lookup_other _ _ _ u); [done|]. intros ->. congruence.
Qed.

End used_step.

(** ** Waiting threads *)

Lemma dormant_mono q b b' : (b = true -> b' = true) -> dormant q b' = true -> dormant q b = true.
Proof. intros Hb. destruct q; simpl; try done. destruct b, b'; naive_solver. Qed.

Lemma awake_mono q b b' : (b = true -> b' = true) -> awake q b = true -> awake q b' = true.
Proof. intros Hb. destruct q; simpl; try done. Qed.

Lemma dormant_waiting q b : dormant q b = true -> waiting_on q <> None.
Proof. destruct q; simpl; try done; by destruct k. Qed.

Section wakes.

Context (ps : list mpc) (sg : nat -> bool) (lock : option nat) (ws ks : list nat) (HW : Wakes ps sg lock ws ks).
Context (t : nat) (p p' : mpc) (Ht : ps !! t = Some p).

Lemma Wakes_step sg' lock' ws' ks' :
  (forall u, u <> t -> sg u = true -> sg' u = true) ->
  (dormant p' (sg' t) = true -> t ∈ ws' ++ ks' \/ dormant p (sg t) = true) ->
  (forall u, u ∈ ws ++ ks -> u ∈ ws' ++ ks' \/ signals p' u = true \/ u = t /\ dormant p' (sg' t) = false) ->
  (forall u, signals p u = true -> signals p' u = true \/
     (u <> t /\ forall q, ps !! u = Some q -> dormant q (sg' u) = false) \/ u = t /\ dormant p' (sg' t) = false) ->
  (ks' <> [] -> lock' <> None \/ awake p' (sg' t) = true \/ sends p' = true \/
     (exists u q, u <> t /\ ps !! u = Some q /\ awake q (sg' u) = true) \/
     ks <> [] /\ lock = None /\ awake p (sg t) = false /\ sends p = false) ->
  (forall m u k, p' = SignalSend m u k -> u <> t /\ exists q, ps !! u = Some q /\ waiting_on q <> None) ->
  (waiting_on p <> None -> waiting_on p' <> None \/ forall x m k, ps !! x <> Some (SignalSend m t k)) ->
  (releasing p' = true -> (t ∉ ks') /\ signals p' t = false) ->
  (forall u q, u <> t -> ps !! u = Some q -> releasing q = true -> u ∈ ks' -> u ∈ ks) ->
  (forall u, signals p' u = true -> is_Some (ps !! u)) ->
  Wakes (<[t := p']> ps) sg' lock' ws' ks'.
Proof.
  intros Hsg H1 H2 H3 H4 H5 H6 H7 H8 H9. destruct HW as [Hd Hw Hse Hre Hkn].
  assert (Hself := lookup_self ps t p p' Ht). assert (Hoth := fun u => lookup_other ps t p' u). split.
  - intros u q Hq Hdo.
    assert (Hold : u ∈ ws ++ ks \/ (exists x r, ps !! x = Some r /\ signals r u = true) \/ (u ∈ ws' ++ ks')).
    { apply (lookup_step _ _ _ _ Ht) in Hq as [[-> ->]|[Hu Hq]].
      - destruct (H1 Hdo) as [?|Hp]; [by do 2 right|]. destruct (Hd t p Ht Hp); auto.
      - destruct (Hd u q Hq); auto. by apply (dormant_mono _ _ _ (Hsg u Hu)). }
    assert (Hnd : u = t /\ dormant p' (sg' t) = false -> False).
    { intros [-> E]. rewrite Hself in Hq. injection Hq as <-. congruence. }
    destruct Hold as [Hin|[(x & r & Hr & Hx)|?]]; [| |by left].
    + destruct (H2 u Hin) as [?|[?|?]]; [by left|right; by exists t, p'|by destruct Hnd].
    + destruct (decide (x = t)) as [->|Hxt]; [|right; exists x, r; by rewrite Hoth].
      assert (r = p) as -> by congruence. destruct (H3 u Hx) as [?|[[Hut Hnone]|?]]; [right; by exists t, p'| |by destruct Hnd].
      rewrite Hoth in Hq by done. specialize (Hnone q Hq). congruence.
  - intros Hks. destruct (H4 Hks) as [?|[?|[?|[(u & q & Hu & Hq & Ha)|(Hks0 & Hl & Ha & Hs)]]]]; [by left|..].
    + right. left. by exists t, p'.
    + right. right. by exists t, p'.
    + right. left. exists u, q. by rewrite Hoth.
    + destruct (Hw Hks0) as [?|[(u & q & Hq & Hx)|(x & r & Hr & Hx)]]; [done|right; left|right; right].
      * destruct (decide (u = t)) as [->|Hu]; [congruence|]. exists u, q. rewrite Hoth by done. split; [done|].
        by apply (awake_mono _ _ _ (Hsg u Hu)).
      * destruct (decide (x = t)) as [->|Hu]; [congruence|]. exists x, r. by rewrite Hoth.
  - intros x m u k [[-> <-]|[Hx Hq]]%(lookup_step _ _ _ _ Ht).
    + destruct (H5 m u k eq_refl) as (Hu & q & Hq & ?). exists q. by rewrite Hoth.
    + destruct (Hse x m u k Hq) as (q & Hu & Hwait).
      destruct (decide (u = t)) as [->|Hne]; [|exists q; by rewrite Hoth].
      exists p'. split; [done|]. destruct H6 as [?|H6']; [congruence|done|by destruct (H6' x m k)].
  - intros u q [[-> ->]|[Hu Hq]]%(lookup_step _ _ _ _ Ht) Hr; [by apply H7|].
    destruct (Hre u q Hq Hr) as [Hn ?]. split; [|done]. intros Hin. apply Hn. by apply (H8 u q).
  - intros x r u Hr Hx. assert (Hu : is_Some (ps !! u)).
    { apply (lookup_step _ _ _ _ Ht) in Hr as [[-> ->]|[_ Hr]]; [by apply H9|by apply (Hkn x r u)]. }
    destruct (decide (u = t)) as [->|Hne]; [by eexists|by rewrite Hoth].
Qed.

End wakes.

Lemma dcheck_Some b u : dcheck b = Some u -> b = true.
Proof. by destruct b. Qed.

(** Threads that neither wait nor signal. *)
Definition engaged (q : mpc) : bool :=
  match q with
  | SignalMutex _ _ _ | SignalCheck _ _ _ | SignalSend _ _ _ => true
  | _ => match waiting_on q with Some _ => true | None => false end
  end.

Lemma not_engaged q : engaged q = false ->
  waiting_on q = None /\ (forall u, signals q u = false) /\ sends q = false /\ releasing q = false /\ (forall b, dormant q b = false).
Proof. destruct q; try discriminate; try (destruct k; try discriminate); done. Qed.

Section calm.

Context (cf : gc_config) (max_spins : Z) (m : Z) (a : jmonitor) (s : mstate) (HI : Inv cf (Fat m) a s).
Context (M : Monitor) (HM : monitors_ s !! m = Some M) (t : nat).

(** The step leaves the wait sets and signals alone, and who was awake is, or
    has the monitor. *)
Definition calm (p : mpc) (s' : mstate) : Prop :=
  exists p' M', pcs_ s' = <[t := p']> (pcs_ s) /\ monitors_ s' !! m = Some M' /\ engaged p' = false /\
    signalled s' = signalled s /\ links_of s' M' = links_of s M /\
    (monitor_lock_ M' <> None \/
     monitor_lock_ M' = monitor_lock_ M /\ forall b, awake p b = true -> awake p' b = true).

Lemma calm_same p p' s' : pcs_ s' = <[t := p']> (pcs_ s) -> monitors_ s' = monitors_ s -> next_ s' = next_ s ->
  signalled s' = signalled s -> engaged p' = false -> (forall b, awake p b = true -> awake p' b = true) -> calm p s'.
Proof.
  intros Ep Em En Es He Ha. exists p', M. rewrite Em. unfold links_of. rewrite En. split_and!; try done. by right.
Qed.

Lemma calm_put p p' s' M1 M' : monitors_ s !! m = Some M1 -> pcs_ s' = <[t := p']> (pcs_ s) ->
  monitors_ s' = <[m := M']> (monitors_ s) -> next_ s' = next_ s -> signalled s' = signalled s -> engaged p' = false ->
  wait_head_ M' = wait_head_ M1 -> wake_head_ M' = wake_head_ M1 ->
  (monitor_lock_ M' <> None \/
   monitor_lock_ M' = monitor_lock_ M1 /\ forall b, awake p b = true -> awake p' b = true) -> calm p s'.
Proof.
  intros HM1 Ep Em En Es He E1 E2 Hl. assert (M1 = M) as -> by congruence. exists p', M'. rewrite Em, lookup_insert_eq.
  unfold links_of. rewrite En, E1, E2. done.
Qed.

Lemma calm_other p p' s' m' : m' <> m -> pcs_ s' = <[t := p']> (pcs_ s) ->
  ((exists M', monitors_ s' = <[m' := M']> (monitors_ s)) \/ monitors_ s' = delete m' (monitors_ s)) ->
  next_ s' = next_ s -> signalled s' = signalled s ->
  engaged p' = false -> (forall b, awake p b = true -> awake p' b = true) -> calm p s'.
Proof.
  intros Hne Ep Em En Es He Ha. exists p', M.
  assert (monitors_ s' !! m = Some M).
  { destruct Em as [[M' Em]|Em]; rewrite Em; [rewrite lookup_insert_ne by done|rewrite lookup_delete_ne by done]; done. }
  unfold links_of. rewrite En. split_and!; try done. by right.
Qed.

Lemma calm_kont p k s' : pcs_ s' = <[t := pc_of_kont k]> (pcs_ s) -> monitors_ s' = monitors_ s -> next_ s' = next_ s ->
  signalled s' = signalled s -> (forall b, awake p b = false) -> calm p s'.
Proof. intros ? ? ? ? Ha. eapply calm_same; try done; [by destruct k|]. intros b. by rewrite Ha. Qed.

Definition sets_place (p : mpc) : bool :=
  match p with SignalPop _ _ | WaitEnqueue _ _ | WaitRestore _ _ | NotifyMonitor _ _ => true | _ => false end.

Lemma calm_step c p : pcs_ s !! t = Some p -> engaged p = false -> sets_place p = false ->
  keeps (calm p) (thread_step cf max_spins c t p s).
Proof.
  intros Ht He Hs. destruct (inv_views _ _ _ _ HI t p Ht) as [_ Hm].
  assert (Hpr : forall m', private p = Some m' -> m' <> m).
  { intros m' Hp ->. by destruct (private_one _ _ _ _ (inv_privates _ _ _ _ HI) t p m Ht Hp) as (_ & _ & ? & _). }
  destruct p; try discriminate He; try discriminate Hs; cbn [mentions] in Hm;
    try (specialize (Hm _ eq_refl) as [= <-]); try (specialize (Hpr _ eq_refl)); unfold_steps; keeps;
    try (by eapply calm_same).
  all: try (by eapply calm_put; [eassumption|..]; try reflexivity; try (right; split; [reflexivity|]); destruct k).
  all: try (by eapply calm_put; [eassumption|..]; try reflexivity; right; split; [reflexivity|]).
  all: try (by eapply calm_put; [eassumption|..]; try reflexivity; left).
  all: try (by eapply calm_kont).
  all: try (by eapply calm_other; [eassumption|reflexivity|first [by left; eexists|by right]|..]; destruct resume, k).
  - destruct (next_call c); by eapply calm_same.
  - apply andb_true_iff in Heqb as [_ Hf%bool_decide_eq_true].
    eapply (calm_other _ _ _ (fresh_id c)); [congruence|reflexivity|left; by eexists|done..].
  - destruct resume; [|destruct k]; by eapply calm_same.
  - apply dcheck_Some, bool_decide_eq_true in H1.
    eapply calm_put; [eassumption|reflexivity|reflexivity|done|done|by destruct k|done|done|]. left. simpl. congruence.
  - destruct (inv_locals _ _ _ _ HI t _ Ht) as [Hk _]. destruct k as [|prev]; [by eapply calm_same|done].
Qed.

End calm.

Lemma chain_unique next h l l' : chain next h l -> chain next h l' -> l = l'.
Proof.
  revert h l'. induction l as [|x l IH]; intros h [|y l']; simpl; naive_solver.
Qed.

Lemma linked_unique ls ws ks ws' ks' : linked ls ws ks -> linked ls ws' ks' -> ws = ws' /\ ks = ks'.
Proof. intros [H1 H2 _ _] [H3 H4 _ _]. split; by eapply chain_unique. Qed.

Section wakes_steps.

Context (cf : gc_config) (max_spins : Z) (m : Z) (a : jmonitor) (s : mstate) (HI : Inv cf (Fat m) a s).
Context (M : Monitor) (HM : monitors_ s !! m = Some M) (HF : fat_ok (pcs_ s) (next_ s) M).
Context (ws ks : list nat) (Hl : linked (links_of s M) ws ks).
Context (HW : Wakes (pcs_ s) (signalled s) (monitor_lock_ M) ws ks).
Context (t : nat).

Definition wakes_after (s' : mstate) : Prop :=
  exists M' ws' ks', monitors_ s' !! m = Some M' /\ linked (links_of s' M') ws' ks' /\
    Wakes (pcs_ s') (signalled s') (monitor_lock_ M') ws' ks'.

Lemma queued_thread u : u ∈ ws ++ ks -> exists q, pcs_ s !! u = Some q /\ queued q = true.
Proof.
  intros Hu. destruct (fat_sets _ _ _ HF) as (ws' & ks' & Hl' & Hq). fold (links_of s M) in Hl'.
  destruct (linked_unique _ _ _ _ _ Hl Hl') as [-> ->]. by apply Hq.
Qed.

(** A step with the wait sets, the signals and the monitor as before. *)
Lemma wakes_frame p p' s' M' :
  pcs_ s !! t = Some p -> pcs_ s' = <[t := p']> (pcs_ s) -> monitors_ s' !! m = Some M' ->
  links_of s' M' = links_of s M -> signalled s' = signalled s ->
  (dormant p' (signalled s t) = true -> dormant p (signalled s t) = true) ->
  (forall u, signals p' u = signals p u) -> sends p' = sends p -> (forall m u k, p' = SignalSend m u k -> p = p') ->
  (waiting_on p <> None -> waiting_on p' <> None \/ forall x m k, pcs_ s !! x <> Some (SignalSend m t k)) ->
  (releasing p' = true -> releasing p = true) ->
  (monitor_lock_ M' <> None \/ monitor_lock_ M' = monitor_lock_ M /\
    (awake p (signalled s t) = true -> awake p' (signalled s t) = true)) ->
  wakes_after s'.
Proof.
  intros Ht Ep HM' El Es Hd Hsi Hse Hsend Hwa Hre Hlo. exists M', ws, ks. rewrite El, Ep, Es. split; [done|]. split; [done|].
  apply (Wakes_step _ _ _ _ _ HW _ _ _ Ht); try done.
  - auto.
  - auto.
  - intros u. rewrite Hsi. auto.
  - intros Hks. destruct Hlo as [?|[-> Ha]]; [by left|]. destruct (monitor_lock_ M); [by left|].
    destruct (awake p (signalled s t)); [right; left; by apply Ha|].
    destruct (sends p) eqn:E; [right; right; left; congruence|]. by do 4 right.
  - intros m' u k E. rewrite (Hsend m' u k E), E in Ht. split.
    + intros ->. destruct (wakes_send _ _ _ _ _ HW t m' t k Ht) as (q & Hq & Hwq).
      assert (q = SignalSend m' t k) as -> by congruence.
      destruct (inv_locals _ _ _ _ HI t _ Ht) as [Hk _]. by destruct k.
    + by apply (wakes_send _ _ _ _ _ HW t m' u k).
  - intros Hr. rewrite Hsi. by apply (wakes_self _ _ _ _ _ HW t p Ht), Hre.
  - intros u. rewrite Hsi. by apply (wakes_known _ _ _ _ _ HW t p).
Qed.

Lemma calm_wakes p s' : pcs_ s !! t = Some p -> engaged p = false -> calm m s M t p s' -> wakes_after s'.
Proof.
  intros Ht He (p' & M' & Ep & HM' & He' & Es & El & Hlo).
  destruct (not_engaged p He) as (Hw & Hsi & Hse & Hr & Hd). destruct (not_engaged p' He') as (Hw' & Hsi' & Hse' & Hr' & Hd').
  apply (wakes_frame p p' s' M'); try done; try congruence.
  - intros m' u k ->. done.
  - destruct Hlo as [?|[? Ha]]; [by left|right]. auto.
Qed.

(** *** Signalling *)

Lemma releasing_lock u q : pcs_ s !! u = Some q -> releasing q = true -> monitor_lock_ M = Some u.
Proof. intros Hq Hr. apply (lock_must _ _ (fat_lock _ _ _ HF) u q Hq). destruct q; try done; by destruct k. Qed.

Lemma sender_mutex x m' u k : pcs_ s !! x = Some (SignalSend m' u k) -> wait_mutex_ s u = Some x.
Proof.
  intros Hx. apply (inv_mutexes _ _ _ _ HI). eexists. split; [done|]. simpl. by destruct k; rewrite bool_decide_true.
Qed.

Lemma wakes_signal_pop k : pcs_ s !! t = Some (SignalPop m k) -> keeps wakes_after (signal_pop t m k s).
Proof.
  intros Ht. pose proof queued_thread as Hqt. pose proof (pop_wake_spec _ _ _ Hl) as Hpop.
  destruct (holds_transit _ _ _ _ HI t _ Ht M HM HF eq_refl) as (El & _ & _ & _).
  unfold signal_pop, wakes_after. rewrite HM. cbn [mbind option_bind]. keeps.
  - destruct ks as [|x ks']; [congruence|]. destruct Hpop as (ls & E & Hl').
    injection E as -> ->. exists (with_heads M (wait_set_ ls) (wake_set_ ls)), ws, ks'.
    split; [apply lookup_insert_eq|]. split; [by destruct ls|].
    apply (Wakes_step _ _ _ _ _ HW _ _ _ Ht); simpl; try done.
    + destruct k; auto.
    + intros u Hu. destruct (decide (x = u)) as [->|Hne]; [right; left; by apply bool_decide_eq_true|]. left. set_solver.
    + left. congruence.
    + intros Hw. left. by destruct k.
    + intros Hr. assert (releasing (SignalPop m k) = true) as Hr' by by destruct k.
      destruct (wakes_self _ _ _ _ _ HW t _ Ht Hr') as [Hn _]. split; [set_solver|]. apply bool_decide_eq_false. set_solver.
    + set_solver.
    + intros u ->%bool_decide_eq_true. destruct (Hqt u) as (q & Hq & _); [set_solver|by eexists].
  - destruct ks as [|x ks']; [|destruct Hpop as (ls & E & _); congruence].
    exists (with_lock M None), ws, []. split; [apply lookup_insert_eq|]. split; [done|].
    apply (Wakes_step _ _ _ _ _ HW _ _ _ Ht); simpl; try done; try (by destruct k); auto.
    all: destruct k; simpl; auto.
Qed.

Lemma wakes_signal_mutex u k : pcs_ s !! t = Some (SignalMutex m u k) -> keeps wakes_after (signal_mutex t m u k s).
Proof.
  intros Ht. destruct (holds_transit _ _ _ _ HI t _ Ht M HM HF eq_refl) as (El & _ & _ & _).
  unfold signal_mutex. keeps. eapply (wakes_frame _ _ _ M); [exact Ht|reflexivity|exact HM|..]; try done; destruct k; simpl; auto; left; congruence.
Qed.

Lemma wakes_signal_check u k : pcs_ s !! t = Some (SignalCheck m u k) -> keeps wakes_after (signal_check t m u k s).
Proof.
  intros Ht. destruct (holds_transit _ _ _ _ HI t _ Ht M HM HF eq_refl) as (El & _ & _ & _).
  destruct (inv_locals _ _ _ _ HI t _ Ht) as [Hk _]. pose proof (inv_wait_monitors _ _ _ _ HI) as Hwm.
  assert (Hkn : is_Some (pcs_ s !! u)).
  { apply (wakes_known _ _ _ _ _ HW t _ u Ht). simpl. by apply bool_decide_eq_true. }
  destruct Hkn as [q Hq]. specialize (Hwm u q Hq) as Eq.
  unfold signal_check, wakes_after. rewrite HM. cbn [mbind option_bind]. keeps.
  - apply bool_decide_eq_true in Heqb. rewrite Eq in Heqb.
    exists (with_lock M None), ws, ks. split; [apply lookup_insert_eq|]. split; [done|].
    apply (Wakes_step _ _ _ _ _ HW _ _ _ Ht); simpl; try done; try (by destruct k); auto.
    + intros m' x k' [= -> -> ->]. split; [|by exists q]. intros ->. assert (q = SignalCheck m' t k') as -> by congruence.
      by destruct k'.
    + intros x ->%bool_decide_eq_true. by eexists.
  - apply bool_decide_eq_false in Heqb. rewrite Eq in Heqb.
    assert (Hnone : waiting_on q = None) by (destruct (waiting_on q); [by destruct Heqb|done]).
    exists M, ws, ks. split; [done|]. split; [done|].
    apply (Wakes_step _ _ _ _ _ HW _ _ _ Ht); simpl; try done; try (by destruct k); auto.
    + intros x ->%bool_decide_eq_true. right. destruct (decide (x = t)) as [->|Hne].
      * right. split; [done|]. destruct k; [done|]. done.
      * left. split; [done|]. intros q' Hq'. assert (q' = q) as -> by congruence.
        destruct (dormant q (signalled s x)) eqn:Ed; [|done]. by destruct (dormant_waiting _ _ Ed).
    + left. congruence.
    + intros Hr. split; [|done]. apply (wakes_self _ _ _ _ _ HW t _ Ht). by destruct k.
Qed.

(** Who is signalled sleeps or is on its way. *)
Lemma signalled_awake u k q : pcs_ s !! t = Some (SignalSend m u k) -> u <> t -> pcs_ s !! u = Some q ->
  waiting_on q <> None -> (exists m' prev, q = WaitCond m' prev) \/ forall b, awake q b = true /\ dormant q b = false.
Proof.
  intros Ht Hne Hq Hw. pose proof (sender_mutex t m u k Ht) as Hmu.
  assert (Hno : has_mutex u q u = false).
  { destruct (has_mutex u q u) eqn:E; [|done]. assert (wait_mutex_ s u = Some u) by (apply (inv_mutexes _ _ _ _ HI); eauto). congruence. }
  destruct q; try done; try (destruct k0; try done); simpl in Hno; rewrite ?(bool_decide_true (u = u)), ?orb_true_r in Hno by done;
    try discriminate Hno; eauto.
Qed.

Lemma wakes_signal_send u k : pcs_ s !! t = Some (SignalSend m u k) -> keeps wakes_after (signal_send t m u k s).
Proof.
  intros Ht. destruct (inv_locals _ _ _ _ HI t _ Ht) as [Hk _].
  destruct (wakes_send _ _ _ _ _ HW t m u k Ht) as (q & Hq & Hw).
  assert (Hne : u <> t).
  { intros ->. assert (q = SignalSend m t k) as -> by congruence. by destruct k. }
  pose proof (signalled_awake u k q Ht Hne Hq Hw) as Haw.
  unfold signal_send, wakes_after. keeps.
  all: exists M, ws, ks; (split; [done|]); (split; [done|]).
  - apply (Wakes_step _ _ _ _ _ HW _ _ _ Ht); simpl; try done; try (by destruct k); auto.
    + intros x _ Hx. destruct (decide (x = u)) as [->|Hxu]; [by rewrite fn_lookup_insert|by rewrite fn_lookup_insert_ne].
    + destruct k; auto.
    + intros x <-%bool_decide_eq_true. right. left. split; [done|]. intros q' Hq'. assert (q' = q) as -> by congruence.
      rewrite fn_lookup_insert. destruct Haw as [(? & ? & ->)|Ha]; [done|apply Ha].
    + intros _. do 3 right. left. exists u, q. rewrite fn_lookup_insert. split_and!; try done.
      destruct Haw as [(? & ? & ->)|Ha]; [done|apply Ha].
    + destruct k; auto.
  - rewrite Hq in Heqb. assert (Ha : forall b, awake q b = true /\ dormant q b = false).
    { destruct Haw as [(? & ? & ->)|Ha]; done. }
    apply (Wakes_step _ _ _ _ _ HW _ _ _ Ht); simpl; try done; try (by destruct k); auto.
    + destruct k; auto.
    + intros x <-%bool_decide_eq_true. right. left. split; [done|]. intros q' Hq'. assert (q' = q) as -> by congruence. apply Ha.
    + intros _. do 3 right. left. exists u, q. split_and!; try done. apply Ha.
    + destruct k; auto.
Qed.

(** *** Waiting *)

Lemma wakes_wait_enqueue prev : pcs_ s !! t = Some (WaitEnqueue m prev) -> keeps wakes_after (wait_enqueue t m prev s).
Proof.
  intros Ht. pose proof queued_thread as Hqt.
  destruct (holds_transit _ _ _ _ HI t _ Ht M HM HF eq_refl) as (El & _ & _ & _).
  pose proof (queue_length s _ (linked_once _ _ _ Hl) Hqt) as Hlen. rewrite length_app in Hlen.
  assert (Hnt : t ∉ ws ++ ks).
  { intros (q & Hlk & Hqq)%Hqt. assert (q = WaitEnqueue m prev) as -> by congruence. done. }
  destruct (AppendToWaitSet_spec (length (pcs_ s)) _ _ _ t Hl ltac:(lia) Hnt) as (ls & E & Hl').
  unfold wait_enqueue, wakes_after. rewrite HM. cbn [mbind option_bind]. rewrite E. cbn [mbind option_bind]. keeps.
  exists (with_heads M (wait_set_ ls) (wake_set_ ls)), (ws ++ [t]), ks.
  split; [apply lookup_insert_eq|]. split; [by destruct ls|].
  apply (Wakes_step _ _ _ _ _ HW _ _ _ Ht); simpl; try done; auto.
  - intros _. left. set_solver.
  - intros u Hu. left. set_solver.
  - left. congruence.
  - intros _. split; [set_solver|done].
Qed.

(** A thread in [Wait] moves on without changing the wait sets. *)
Lemma wakes_wait_move p p' s' : pcs_ s !! t = Some p -> pcs_ s' = <[t := p']> (pcs_ s) ->
  monitors_ s' = monitors_ s -> next_ s' = next_ s -> (forall u, u <> t -> signalled s' u = signalled s u) ->
  (forall u, signals p u = false) -> sends p = false -> (forall u, signals p' u = false) -> releasing p' = false ->
  (waiting_on p' <> None \/ wait_mutex_ s t = None) ->
  (dormant p' (signalled s' t) = true /\ dormant p (signalled s t) = true /\ awake p (signalled s t) = false \/
   dormant p' (signalled s' t) = false /\ awake p' (signalled s' t) = true) -> wakes_after s'.
Proof.
  intros Ht Ep Em En Es Hsi Hse Hsi' Hr Hwa Hcase. exists M, ws, ks. rewrite Em, Ep. unfold links_of. rewrite En.
  split; [done|]. split; [done|]. apply (Wakes_step _ _ _ _ _ HW _ _ _ Ht); auto.
  - intros u Hu. by rewrite Es.
  - destruct Hcase as [(? & ? & _)|[? _]]; [by right|congruence].
  - intros u. by rewrite Hsi.
  - intros Hks. destruct (monitor_lock_ M); [by left|right].
    destruct Hcase as [(_ & _ & ?)|[_ ?]]; [by do 3 right|by left].
  - intros m' u k ->. specialize (Hsi' u). simpl in Hsi'. by rewrite bool_decide_true in Hsi'.
  - intros _. destruct Hwa as [?|Hmu]; [by left|right]. intros x m' k Hx%sender_mutex. congruence.
  - by rewrite Hr.
  - intros u. by rewrite Hsi'.
Qed.

Lemma wakes_wait_begin c prev : pcs_ s !! t = Some (WaitBegin m prev) -> keeps wakes_after (wait_begin c t m prev s).
Proof.
  intros Ht. unfold wait_begin. keeps; eapply wakes_wait_move; try done; try (by left); try (by right).
  - intros u Hu. simpl. by rewrite fn_lookup_insert_ne.
  - left. simpl. by rewrite fn_lookup_insert.
Qed.

Lemma wakes_wait_cond c prev : pcs_ s !! t = Some (WaitCond m prev) -> keeps wakes_after (wait_cond c t m prev s).
Proof. intros Ht. unfold wait_cond. keeps; eapply wakes_wait_move; try done; try (by left); by right. Qed.

Lemma wakes_wait_unlock_mutex prev : pcs_ s !! t = Some (WaitUnlockMutex m prev) ->
  keeps wakes_after (wait_unlock_mutex t m prev s).
Proof. intros Ht. unfold wait_unlock_mutex. keeps; eapply wakes_wait_move; try done; try (by left); by right. Qed.

Lemma wakes_wait_runnable prev : pcs_ s !! t = Some (WaitRunnable m prev) -> keeps wakes_after (wait_runnable t m prev s).
Proof. intros Ht. unfold wait_runnable. keeps; eapply wakes_wait_move; try done; try (by left); by right. Qed.

Lemma wakes_wait_clear prev : pcs_ s !! t = Some (WaitClear m prev) -> keeps wakes_after (wait_clear t m prev s).
Proof. intros Ht. unfold wait_clear. keeps; eapply wakes_wait_move; try done; by right. Qed.

Lemma wakes_wait_restore prev : pcs_ s !! t = Some (WaitRestore m prev) -> keeps wakes_after (wait_restore t m prev s).
Proof.
  intros Ht. pose proof queued_thread as Hqt.
  assert (El : monitor_lock_ M = Some t) by by apply (lock_must _ _ (fat_lock _ _ _ HF) t _ Ht).
  pose proof (queue_length s _ (linked_once _ _ _ Hl) Hqt) as Hlen. rewrite length_app in Hlen.
  destruct (RemoveFromWaitSet_spec (length (pcs_ s)) (links_of s M) ws ks t Hl Hlen) as (ls & Els & Hl').
  unfold wait_restore, wakes_after. rewrite HM. cbn [mbind option_bind].
  change (links_of s (with_waiters _ _)) with (links_of s M). rewrite Els. keeps. injection H2 as <-.
  exists (with_heads (with_waiters (with_count M prev) (num_waiters_ M - 1)) (wait_set_ ls) (wake_set_ ls)), (others t ws), (others t ks).
  split; [apply lookup_insert_eq|]. split; [by destruct ls|].
  apply (Wakes_step _ _ _ _ _ HW _ _ _ Ht); simpl; try done; auto.
  - intros u Hu. destruct (decide (u = t)) as [->|Hne]; [by do 2 right|left].
    rewrite elem_of_app, !elem_of_others. rewrite elem_of_app in Hu. naive_solver.
  - left. congruence.
  - intros u q _ _ _ [_ ?]%elem_of_others. done.
Qed.

Lemma wakes_notify all : pcs_ s !! t = Some (NotifyMonitor m all) -> keeps wakes_after (notify_monitor t m all s).
Proof.
  intros Ht. pose proof queued_thread as Hqt. pose proof releasing_lock as Hrel.
  pose proof (queue_length s _ (linked_once _ _ _ Hl) Hqt) as Hlen. rewrite length_app in Hlen.
  unfold notify_monitor, wakes_after. rewrite HM. cbn [mbind option_bind]. keeps.
  { exists M, ws, ks. split; [done|]. split; [done|]. apply (Wakes_step _ _ _ _ _ HW _ _ _ Ht); simpl; try done; auto.
    intros Hks. destruct (monitor_lock_ M); [by left|]. by do 4 right. }
  apply bool_decide_eq_false in Heqb. assert (Eo : owner_ M = Some t) by (destruct (decide (owner_ M = Some t)); [done|by destruct Heqb]).
  destruct (holds_owner _ _ _ _ HI t _ Ht M HM HF Eo) as (El & _).
  assert (Hls : exists ws' ks', linked y ws' ks' /\ forall u, u ∈ ws' ++ ks' <-> u ∈ ws ++ ks).
  { destruct all.
    - destruct (notify_all_spec (length (pcs_ s)) _ _ _ Hl ltac:(lia)) as (ls & E & Hl').
      assert (ls = y) as -> by congruence. exists [], (ks ++ ws). split; [done|]. set_solver.
    - injection H as <-. pose proof (notify_one_spec _ _ _ Hl) as H1.
      destruct ws as [|u ws']; [rewrite H1; by exists [], ks|]. exists ws', (u :: ks). split; [done|]. set_solver. }
  destruct Hls as (ws' & ks' & Hl' & Hsame). exists (with_heads M (wait_set_ y) (wake_set_ y)), ws', ks'.
  split; [apply lookup_insert_eq|]. split; [by destruct y|].
  apply (Wakes_step _ _ _ _ _ HW _ _ _ Ht); simpl; try done; auto.
  - intros u Hu. left. by apply Hsame.
  - left. congruence.
  - intros u q Hu Hq Hr%(Hrel u q Hq) _. congruence.
Qed.

End wakes_steps.

Lemma wakes_step cf max_spins m a s M ws ks t c p : Inv cf (Fat m) a s -> monitors_ s !! m = Some M ->
  linked (links_of s M) ws ks -> Wakes (pcs_ s) (signalled s) (monitor_lock_ M) ws ks -> pcs_ s !! t = Some p ->
  keeps (wakes_after m) (thread_step cf max_spins c t p s).
Proof.
  intros HI HM Hl HW Ht. destruct (inv_fats _ _ _ _ HI) as (M' & HM' & HF). assert (M' = M) as -> by congruence.
  destruct (engaged p || sets_place p) eqn:E.
  2:{ apply orb_false_iff in E as [E1 E2]. intros s' e Hs.
      apply (calm_wakes cf m a s HI M ws ks Hl HW t p s' Ht E1).
      by apply (calm_step cf max_spins m a s HI M HM t c p Ht E1 E2 s' e). }
  destruct (inv_views _ _ _ _ HI t p Ht) as [_ Hm].
  destruct p; try discriminate E; specialize (Hm _ eq_refl) as [= <-]; cbn [thread_step].
  - by apply (wakes_signal_pop cf m a s HI M HM HF ws ks Hl HW).
  - by apply (wakes_signal_mutex cf m a s HI M HM HF ws ks Hl HW).
  - by apply (wakes_signal_check cf m a s HI M HM HF ws ks Hl HW).
  - by apply (wakes_signal_send cf m a s HI M HM ws ks Hl HW).
  - by apply (wakes_wait_enqueue cf m a s HI M HM HF ws ks Hl HW).
  - by apply (wakes_wait_begin cf m a s HI M HM ws ks Hl HW).
  - by apply (wakes_wait_cond cf m a s HI M HM ws ks Hl HW).
  - by apply (wakes_wait_unlock_mutex cf m a s HI M HM ws ks Hl HW).
  - by apply (wakes_wait_runnable cf m a s HI M HM ws ks Hl HW).
  - by apply (wakes_wait_clear cf m a s HI M HM ws ks Hl HW).
  - by apply (wakes_wait_restore m s M HM HF ws ks Hl HW).
  - by apply (wakes_notify cf m a s HI M HM HF ws ks Hl HW).
Qed.

(** A monitor that was just installed has no waiting threads. *)
Lemma wakes_installed cf v m a s' : Inv cf (Fat m) a s' ->
  (forall u q, pcs_ s' !! u = Some q -> mentions q = None \/ exists r k, q = AddMonitor m r k) -> v = Fat m -> wakes_after m s'.
Proof.
  intros HI Hq ->. destruct (inv_fats _ _ _ _ HI) as (M & HM & HF).
  assert (Hno : forall u q, pcs_ s' !! u = Some q -> queued q = false /\ engaged q = false /\ forall b, awake q b = false).
  { intros u q Hlk. destruct (Hq u q Hlk) as [Hm|(r & k & ->)]; [|done]. destruct q; try discriminate Hm; done. }
  destruct (fat_sets _ _ _ HF) as (ws & ks & Hl & Hin). exists M, ws, ks. split; [done|]. split; [done|].
  assert (ws ++ ks = []) as [-> ->]%app_eq_nil.
  { destruct (ws ++ ks) as [|u l]; [done|]. destruct (Hin u) as (q & Hlk & Hqq); [set_solver|].
    destruct (Hno u q Hlk). congruence. }
  split; try done.
  - intros u q Hlk Hd. destruct (Hno u q Hlk) as (_ & He & _). destruct (not_engaged q He) as (_ & _ & _ & _ & Hx). congruence.
  - intros t x u k Hlk. by destruct (Hno t _ Hlk) as (_ & ? & _).
  - intros t q Hlk Hr. destruct (Hno t q Hlk) as (_ & He & _). destruct (not_engaged q He) as (_ & _ & _ & Hx & _). congruence.
  - intros t r u Hlk Hs. destruct (Hno t r Hlk) as (_ & He & _). destruct (not_engaged r He) as (_ & Hx & _). congruence.
Qed.

Lemma Live_thread cf max_spins v a s c t p s' e v' a' : Inv cf v a s -> Live cf v s -> pcs_ s !! t = Some p ->
  thread_step cf max_spins c t p s = Some (Go s' e) -> Inv cf v' a' s' -> Live cf v' s'.
Proof.
  intros HI [HO HU HW] Ht E HI'. split.
  - by apply (Ordered_keeps cf max_spins v a s HI t c p s' e v' a').
  - by apply (Used_keeps cf max_spins v a s HI t c p s' e v' a').
  - intros m ->. fold (wakes_after m s').
    destruct (word_step cf max_spins v a s HI t c p Ht s' e E (Fat m) a' HI') as [Ev|_ Hnf _ _|m' lw fat r k -> Hnf Ev Ep _].
    + subst v. destruct (HW m eq_refl) as (M & ws & ks & HM & Hl & Hw).
      by apply (wakes_step cf max_spins m a s M ws ks t c p HI HM Hl Hw Ht s' e).
    + by destruct (Hnf m).
    + injection Ev as <-. apply (wakes_installed cf (Fat m) m a' s' HI'); [|done].
      intros u q Hq. rewrite Ep in Hq. apply (lookup_step _ _ _ _ Ht) in Hq as [[_ ->]|[_ Hq]]; [right; eauto|left].
      destruct (mentions q) as [x|] eqn:Em; [|done]. destruct (inv_views _ _ _ _ HI u q Hq) as [_ Hv].
      by destruct (Hnf x (Hv x Em)).
Qed.

Lemma Live_minit cf n seed : Live cf Unlocked (minit n seed).
Proof.
  split; simpl; [|by intros m M|done]. exists (fun _ => 0%nat). intros t q o [-> _]%lookup_replicate. done.
Qed.

Section progress.

Context (cf : gc_config) (max_spins : Z).

Lemma perform_live v a s l s' e : Inv cf v a s -> Live cf v s -> perform cf max_spins l s = Some (Go s' e) ->
  exists v' a', japply_opt a e = Some a' /\ Inv cf v' a' s' /\ Live cf v' s'.
Proof.
  intros HI HL. destruct l as [t c|mark b|]; cbn [perform].
  - destruct (pcs_ s !! t) as [p|] eqn:Ht; [|done]. intros E.
    pose proof (thread_step_good cf max_spins v a s c t p HI Ht) as Hg. rewrite E in Hg.
    destruct Hg as (v' & a' & Ea & HI'). exists v', a'. split; [done|]. split; [done|].
    by apply (Live_thread cf max_spins v a s c t p s' e v' a').
  - destruct (gUseReadBarrier cf) eqn:Erb; [|done]. case_bool_decide as Hb; [|done]. cbn [andb].
    destruct (set_gc_bit_good cf v a s HI mark b Erb Hb) as (s1 & E & HI'). rewrite E. cbn [mbind option_bind].
    intros [= <- <-]. exists v, a. split; [done|]. split; [done|].
    assert (exists w, s1 = set_word s w) as [w ->].
    { unfold set_gc_bit in E. apply bind_Some in E as (lw & _ & E). apply bind_Some in E as (w & _ & [= <-]). by exists w. }
    by destruct HL as [HO HU HW].
  - destruct (forallb at_safepoint (pcs_ s)) eqn:Es; [|done].
    destruct (DeflateMonitors_good cf v a s HI) as (s1 & v' & -> & HI' & Hcase).
    { intros t p Hp. apply (proj1 (forallb_forall _ _) Es), list_elem_of_In. by eapply list_elem_of_lookup_2. }
    cbn [mbind option_bind]. intros [= <- <-]. exists v', a. split; [done|]. split; [done|].
    destruct Hcase as [[-> ->]|(Hnf & Hnt & Ep & m & -> & Hm & Hms)]; [done|]. destruct HL as [[r Hr] HU HW]. split.
    + exists r. rewrite Ep. intros t q o Hq Ho. split; [by apply (Hr t q o)|done].
    + intros m' M HM. rewrite Ep. destruct (decide (m' = m)) as [->|Hne]; [congruence|]. rewrite Hms in HM by done.
      destruct (HU m' M HM) as [[= ->]|?]; [done|by right].
    + intros m' ->. by destruct (Hnf m').
Qed.

Lemma mrun_live s es s' : mrun cf max_spins s es s' -> forall v a, Inv cf v a s -> Live cf v s ->
  exists v' a', jrun es a = Some a' /\ Inv cf v' a' s' /\ Live cf v' s'.
Proof.
  induction 1 as [s|s l e s' es s'' [s0 l0 e0 s1 Hp] _ IH]; intros v a HI HL; [by exists v, a|].
  destruct (perform_live v a s0 l0 s1 e0 HI HL Hp) as (v1 & a1 & E1 & HI1 & HL1).
  destruct (IH v1 a1 HI1 HL1) as (v2 & a2 & E2 & HI2 & HL2). exists v2, a2. split; [|done].
  rewrite (jrun_app _ _ _ a1); [done|]. by rewrite jrun_opt.
Qed.

End progress.

(** A thread whose call has to wait: it waits for the monitor, which a thread
    holds that is outside of the calls; or it sleeps in [Wait] and is in the
    monitor's wait sets, in the one of threads to wake only while the monitor
    is held. *)
Inductive must_wait (s : mstate) (a : jmonitor) (t : nat) : mpc -> Prop :=
  | must_wait_lock m k o d : holder a = Some (o, d) -> pcs_ s !! o = Some Idle -> must_wait s a t (LockBlocked m k)
  | must_wait_signal m prev M ws ks : signalled s t = false -> monitors_ s !! m = Some M ->
      linked (links_of s M) ws ks -> t ∈ ws ++ ks -> (holder a = None -> ks = []) -> must_wait s a t (WaitCond m prev).

(** C2: no deadlock and no lost notification. When in a reachable state no
    thread can go on with its call, short of timeouts, interrupts and spurious
    wakeups, every thread is outside of the calls, or waits for the monitor
    while a thread outside of the calls holds it, or sleeps in [Wait]; and when
    the monitor is free, every sleeping thread is in the wait set, where the
    next notification finds it, and no notified thread is left asleep. *)
Theorem monitor_progress cf max_spins n seed es s :
  Z.of_nat n < 2 ^ 16 -> mrun cf max_spins (minit n seed) es s ->
  (forall t p, pcs_ s !! t = Some p -> p = Idle \/ stuck cf max_spins s t) ->
  exists a, jrun es jinit = Some a /\ forall t p, pcs_ s !! t = Some p -> p = Idle \/ must_wait s a t p.
Proof.
  intros Hn Hr Hall.
  destruct (mrun_live cf max_spins _ _ _ Hr Unlocked jinit (Inv_minit cf n seed Hn) (Live_minit cf n seed)) as (v & a & Ha & HI & HL).
  exists a. split; [done|]. intros t p Ht.
  destruct (stalled_kinds cf max_spins v a s HI HL Hall t p Ht) as [?|[(m & k & ->)|(m & prev & -> & Hs)]]; [by left|right|right].
  - destruct (stalled_blocked cf max_spins v a s HI HL Hall t m k Ht) as (o & d & Ho & Hi). by apply (must_wait_lock s a t m k o d).
  - destruct (stalled_waiting cf max_spins v a s HI HL Hall t m prev Ht Hs) as (M & ws & ks & HM & Hl & Hin & Hk).
    by apply (must_wait_signal s a t m prev M ws ks).
Qed.

(** ** Example: thread 0 sleeps in [Wait], nobody else is in a call *)

Definition ex_asleep : mstate := from_option fst (minit 3 1) (execute ex_config 50 ex_wait (minit 3 1)).

Lemma ex_asleep_run : mrun ex_config 50 (minit 3 1) [Entered 0; WaitReleased 0] ex_asleep.
Proof.
  assert (Es : snd <$> execute ex_config 50 ex_wait (minit 3 1) = Some [Entered 0; WaitReleased 0]) by (vm_compute; reflexivity).
  unfold ex_asleep. destruct (execute ex_config 50 ex_wait (minit 3 1)) as [[s es]|] eqn:E; [|discriminate Es].
  injection Es as ->. by apply (execute_run _ _ ex_wait).
Qed.

Lemma ex_asleep_stalled t p : pcs_ ex_asleep !! t = Some p -> p = Idle \/ stuck ex_config 50 ex_asleep t.
Proof.
  assert (Ep : pcs_ ex_asleep = [WaitCond 5 0; Idle; Idle]) by (vm_compute; reflexivity).
  assert (Em : wait_mutex_ ex_asleep 0%nat = None) by (vm_compute; reflexivity).
  assert (Es : signalled ex_asleep 0%nat = false) by (vm_compute; reflexivity).
  rewrite Ep. destruct t as [|[|[|t]]]; simpl; intros Hp; [right|left; congruence..|done].
  intros c Hc. cbn [perform]. rewrite Ep. cbn [lookup list_lookup thread_step]. unfold wait_cond. by rewrite Em, Es, Hc.
Qed.

Lemma monitor_progress_witness : mrun ex_config 50 (minit 3 1) [Entered 0; WaitReleased 0] ex_asleep /\
  (forall t p, pcs_ ex_asleep !! t = Some p -> p = Idle \/ stuck ex_config 50 ex_asleep t) /\
  exists a, jrun [Entered 0; WaitReleased 0] jinit = Some a /\
    forall t p, pcs_ ex_asleep !! t = Some p -> p = Idle \/ must_wait ex_asleep a t p.
Proof.
  split; [exact ex_asleep_run|]. split; [exact ex_asleep_stalled|].
  exact (monitor_progress ex_config 50 3 1 [Entered 0; WaitReleased 0] ex_asleep eq_refl ex_asleep_run ex_asleep_stalled).
Defined.
