(* ===== verification/MachineWord.v ===== *)
(** * Machine words and register files

    The arithmetic of [w]-bit registers that the models of the code generators
    share: registers hold unsigned values, an instruction reads them as signed
    or unsigned and writes its result modulo [2^w]. *)

From Stdlib Require Import ZArith Lia Bool List.
From stdpp Require Import base numbers list option.
From S2P Require Import Prelude BitUtils.

Local Open Scope Z_scope.
Local Open Scope art_scope.

(** ** Operations on words *)

(** Arithmetic and logical right shift. *)
Definition asr (w x k : Z) : Z := wrap w (Z.shiftr (swrap w x) k).
Definition lsr (w x k : Z) : Z := Z.shiftr (wrap w x) k.
Definition lsl (w x k : Z) : Z := wrap w (Z.shiftl x k).

(** The high word of the signed product. *)
Definition smulhi (w x y : Z) : Z := wrap w (Z.shiftr (swrap w x * swrap w y) w).

(** The flags of an addition with carry: negative, zero, carry, overflow. *)
Record flags := { flagN : bool; flagZ : bool; flagC : bool; flagV : bool }.

Definition add_flags (w x y c : Z) : flags :=
  let r := wrap w (x + y + c) in
  {| flagN := swrap w r <? 0;
     flagZ := r =? 0;
     flagC := negb (r =? wrap w x + wrap w y + c);
     flagV := negb (swrap w r =? swrap w x + swrap w y + c) |}.

(** The flags of a subtraction: an addition of the complement with carry. *)
Definition sub_flags (w x y : Z) : flags := add_flags w x (wrap w (Z.lnot y)) 1.

(** ** Register files *)

Definition regfile := nat -> Z.

Definition upd (f : regfile) (r : nat) (v : Z) : regfile :=
  fun r' => if decide (r' = r) then v else f r'.

Lemma upd_same f r v : upd f r v r = v.
Proof. unfold upd. by rewrite decide_True. Qed.

Lemma upd_other f r v r' : r' <> r -> upd f r v r' = f r'.
Proof. intros. unfold upd. by rewrite decide_False. Qed.

(** ** Conversions *)

(** The conversions depend on the low bits only. *)
Lemma swrap_congr w x y : 0 < w -> x mod 2 ^ w = y mod 2 ^ w -> swrap w x = swrap w y.
Proof.
  intros Hw E. unfold swrap. f_equal.
  by rewrite <- (Z.add_mod_idemp_l x), <- (Z.add_mod_idemp_l y), E by (pose proof (pow2_pos w); lia).
Qed.

Lemma mod_pow2_le w w' x : 0 <= w <= w' -> (x mod 2 ^ w') mod 2 ^ w = x mod 2 ^ w.
Proof.
  intros. replace w' with (w + (w' - w)) by lia. rewrite Z.pow_add_r by lia.
  rewrite Z.rem_mul_r by (apply Z.pow_nonzero || apply pow2_pos; lia).
  rewrite Z.mul_comm, Z.mod_add by (apply Z.pow_nonzero; lia). apply Z.mod_mod, Z.pow_nonzero; lia.
Qed.

Lemma word_swrap_mod w w' x : 0 <= w <= w' -> 0 < w' -> swrap w' x mod 2 ^ w = x mod 2 ^ w.
Proof.
  intros. rewrite <- (mod_pow2_le w w' (swrap w' x)), <- (mod_pow2_le w w' x) by done. f_equal.
  unfold swrap. rewrite Zminus_mod_idemp_l. f_equal. lia.
Qed.

Lemma wrap_mod w w' x : 0 <= w <= w' -> wrap w' x mod 2 ^ w = x mod 2 ^ w.
Proof. apply mod_pow2_le. Qed.

(** The sign bit, as a logical right shift extracts it. *)
Lemma sign_bit w x :
  0 < w -> is_s w x -> Z.shiftr (wrap w x) (w - 1) = if x <? 0 then 1 else 0.
Proof.
  intros Hw [Hl Hu]. rewrite Z.shiftr_div_pow2 by lia. unfold wrap.
  assert (2 ^ w = 2 * 2 ^ (w - 1)) as E by (rewrite <- Z.pow_succ_r by lia; f_equal; lia).
  destruct (Z.ltb_spec x 0).
  - replace (x mod 2 ^ w) with (x + 2 ^ w) by (apply Z.mod_unique_pos with (-1); lia).
    symmetry. apply Z.div_unique_pos with (x + 2 ^ (w - 1)); lia.
  - rewrite Z.mod_small by lia. apply Z.div_small. lia.
Qed.

(** ** The tactic for conversions *)

(** Removes the conversions that do not change their argument, innermost first. *)
Ltac unwrap :=
  repeat match goal with
  | |- context [wrap ?w ?x] =>
      lazymatch x with
      | context [wrap] => fail
      | context [swrap] => fail
      | _ => rewrite (wrap_id w x) by (unfold is_u; lia)
      end
  | |- context [swrap ?w ?x] =>
      lazymatch x with
      | context [wrap] => fail
      | context [swrap] => fail
      | _ => rewrite (swrap_id w x) by (unfold is_s; lia)
      end
  end.

(** The conversions are idempotent and compatible with the ring operations. *)
Lemma wrap_wrap w x : 0 <= w -> wrap w (wrap w x) = wrap w x.
Proof. intros. apply wrap_id, wrap_is_u. done. Qed.

Lemma swrap_wrap w x : 0 < w -> swrap w (wrap w x) = swrap w x.
Proof. intros. apply swrap_congr; [done|]. apply wrap_mod; lia. Qed.

Lemma wrap_swrap w x : 0 < w -> wrap w (swrap w x) = wrap w x.
Proof. intros. unfold wrap at 1. rewrite word_swrap_mod by lia. done. Qed.

Lemma wrap_add_l w x y : 0 <= w -> wrap w (wrap w x + y) = wrap w (x + y).
Proof. intros. apply Z.add_mod_idemp_l, Z.pow_nonzero; lia. Qed.

Lemma wrap_add_r w x y : 0 <= w -> wrap w (x + wrap w y) = wrap w (x + y).
Proof. intros. apply Z.add_mod_idemp_r, Z.pow_nonzero; lia. Qed.

Lemma wrap_sub_l w x y : 0 <= w -> wrap w (wrap w x - y) = wrap w (x - y).
Proof. intros. apply Zminus_mod_idemp_l. Qed.

Lemma wrap_sub_r w x y : 0 <= w -> wrap w (x - wrap w y) = wrap w (x - y).
Proof. intros. apply Zminus_mod_idemp_r. Qed.

Lemma wrap_mul_l w x y : 0 <= w -> wrap w (wrap w x * y) = wrap w (x * y).
Proof. intros. apply Z.mul_mod_idemp_l, Z.pow_nonzero; lia. Qed.

Lemma wrap_mul_r w x y : 0 <= w -> wrap w (x * wrap w y) = wrap w (x * y).
Proof. intros. apply Z.mul_mod_idemp_r, Z.pow_nonzero; lia. Qed.

Lemma wrap_opp w x : 0 <= w -> wrap w (- wrap w x) = wrap w (- x).
Proof. intros. rewrite <- !Z.sub_0_l. by apply wrap_sub_r. Qed.

(** Multiply and subtract. *)
Lemma wrap_msub_l w a b c : 0 <= w -> wrap w (a - wrap w b * c) = wrap w (a - b * c).
Proof. intros. rewrite <- wrap_sub_r, wrap_mul_l, wrap_sub_r by done. done. Qed.

Lemma wrap_msub_r w a b c : 0 <= w -> wrap w (a - b * wrap w c) = wrap w (a - b * c).
Proof. intros. rewrite <- wrap_sub_r, wrap_mul_r, wrap_sub_r by done. done. Qed.

(** Narrowing conversions of wider words. *)
Lemma wrap_wrap_le w w' x : 0 <= w <= w' -> wrap w (wrap w' x) = wrap w x.
Proof. apply mod_pow2_le. Qed.

Lemma swrap_wrap_le w w' x : 0 < w <= w' -> swrap w (wrap w' x) = swrap w x.
Proof. intros. apply swrap_congr; [lia|]. apply wrap_mod; lia. Qed.

Create Rewrite HintDb word.
#[export] Hint Rewrite wrap_wrap swrap_wrap wrap_swrap wrap_add_l wrap_add_r wrap_sub_l wrap_sub_r
  wrap_mul_l wrap_mul_r wrap_opp wrap_msub_l wrap_msub_r using lia : word.

(** A word read back as the signed value it was written from. *)
Lemma asr_signed w v k : 0 < w -> is_s w v -> asr w (wrap w v) k = wrap w (Z.shiftr v k).
Proof. intros. unfold asr. by rewrite swrap_wrap, swrap_id. Qed.

Lemma smulhi_signed w a b :
  0 < w -> is_s w a -> is_s w b -> smulhi w (wrap w a) (wrap w b) = wrap w (a * b / 2 ^ w).
Proof.
  intros. unfold smulhi. rewrite !swrap_wrap, !swrap_id by done.
  by rewrite Z.shiftr_div_pow2 by lia.
Qed.

Lemma is_s_shiftr w v k : 0 <= k -> is_s w v -> is_s w (Z.shiftr v k).
Proof.
  intros Hk [Hl Hu]. unfold is_s. rewrite Z.shiftr_div_pow2 by done.
  pose proof (pow2_pos k Hk). split.
  - apply Z.div_le_lower_bound; [done|]. nia.
  - apply Z.div_lt_upper_bound; [done|]. nia.
Qed.

(** The signed value of a word, from a value in range with the same low bits. *)
Lemma swrap_eq_wrap w x v : 0 < w -> is_s w v -> wrap w x = wrap w v -> swrap w x = v.
Proof. intros Hw Hv E. rewrite <- (swrap_id w v) by done. by apply swrap_congr. Qed.

Lemma lsr_nonneg w v k : 0 < w -> is_s w v -> 0 <= v -> lsr w (wrap w v) k = Z.shiftr v k.
Proof.
  intros Hw [_ Hu] Hv. unfold lsr. rewrite wrap_wrap by lia.
  rewrite wrap_id; [done|]. assert (2 ^ (w - 1) < 2 ^ w) by (apply Z.pow_lt_mono_r; lia).
  unfold is_u. lia.
Qed.

(** The increment of negative words by a logical shift of the sign bit. *)
Lemma lsr_sign w v : 0 < w -> is_s w v -> lsr w (wrap w v) (w - 1) = if v <? 0 then 1 else 0.
Proof. intros. unfold lsr. rewrite wrap_wrap by lia. by apply sign_bit. Qed.

(** The negative and the signed comparison conditions of a subtraction. *)
Lemma sub_flags_N w x y :
  0 < w -> flagN (sub_flags w x y) = (swrap w (x - y) <? 0).
Proof.
  intros. cbn. rewrite swrap_wrap by done. f_equal. apply swrap_congr; [done|].
  fold (wrap w (x + wrap w (Z.lnot y) + 1)). fold (wrap w (x - y)).
  replace (x + wrap w (Z.lnot y) + 1) with (x + 1 + wrap w (Z.lnot y)) by lia.
  rewrite wrap_add_r by lia. f_equal. unfold Z.lnot. lia.
Qed.

Lemma add_flags_N w x y : 0 < w -> flagN (add_flags w x y 0) = (swrap w (x + y) <? 0).
Proof. intros. cbn. rewrite swrap_wrap by done. by rewrite Z.add_0_r. Qed.

(** Comparison of a word with zero: the signed less-than condition. *)
Lemma cmp_zero_lt w v :
  0 < w -> is_s w v ->
  negb (eqb (flagN (sub_flags w (wrap w v) 0)) (flagV (sub_flags w (wrap w v) 0))) = (v <? 0).
Proof.
  intros Hw Hv. rewrite sub_flags_N by done.
  replace (flagV (sub_flags w (wrap w v) 0)) with false.
  { rewrite Z.sub_0_r, swrap_wrap, swrap_id by done. by destruct (v <? 0). }
  unfold sub_flags, add_flags. cbn. symmetry. apply negb_false_iff, Z.eqb_eq.
  change (Z.lnot 0) with (-1).
  replace (wrap w v + wrap w (-1) + 1) with (wrap w v + (1 + wrap w (-1))) by lia.
  rewrite wrap_add_l by lia. rewrite Z.add_assoc, wrap_add_r by lia.
  replace (v + 1 + -1) with v by lia. rewrite !swrap_wrap by done.
  rewrite (swrap_id w (-1)) by (done || (pose proof (pow2_pos (w - 1)); unfold is_s; lia)). lia.
Qed.

(** A mask of low bits is a remainder. *)
Lemma land_low w x k :
  0 <= k <= w -> Z.land (wrap w x) (wrap w (2 ^ k - 1)) = x mod 2 ^ k.
Proof.
  intros. assert (2 ^ k <= 2 ^ w) by (apply Z.pow_le_mono_r; lia).
  rewrite (wrap_id w (2 ^ k - 1)) by (pose proof (pow2_pos k); unfold is_u; lia).
  rewrite Z.sub_1_r, <- Z.ones_equiv, Z.land_ones by lia. by apply wrap_mod.
Qed.

Lemma min_mod_pow2 w k : 0 <= k < w -> (- 2 ^ (w - 1)) mod 2 ^ k = 0 /\ 2 ^ (w - 1) mod 2 ^ k = 0.
Proof.
  intros. replace (w - 1) with (w - 1 - k + k) by lia. rewrite Z.pow_add_r, <- Z.mul_opp_l by lia.
  split; apply Z.mod_mul; pose proof (pow2_pos k); lia.
Qed.

Lemma mod2_opp x : (- x) mod 2 = x mod 2.
Proof. Z.div_mod_to_equations. lia. Qed.

(** A word moved to the high half of a double word. *)
Lemma lsl_high w x : 0 < w -> lsl (2 * w) (wrap (2 * w) x) w = wrap (2 * w) (swrap w x * 2 ^ w).
Proof.
  intros. pose proof (pow2_pos w ltac:(lia)). unfold lsl. rewrite Z.shiftl_mul_pow2 by lia.
  unfold wrap. replace (2 * w) with (w + w) by lia. rewrite Z.pow_add_r by lia.
  rewrite !Z.mul_mod_distr_r by lia. f_equal. rewrite word_swrap_mod by lia.
  rewrite <- Z.pow_add_r by lia. apply mod_pow2_le. lia.
Qed.

(** Remainders are in range. *)
Lemma rem_is_s w n d : is_s w n -> d <> 0 -> is_s w (Z.rem n d).
Proof.
  intros [Hl Hu] Hd.
  assert (Z.abs (Z.rem n d) <= Z.abs n) by (rewrite <- Z.rem_abs by done; apply Z.rem_le; lia).
  pose proof (Z.rem_nonneg n d Hd). pose proof (Z.rem_nonpos n d Hd).
  unfold is_s. lia.
Qed.

(** Signed reads of shifted words. *)
Lemma swrap_asr w x k : 0 < w -> 0 <= k -> swrap w (asr w x k) = Z.shiftr (swrap w x) k.
Proof.
  intros. unfold asr. rewrite swrap_wrap by done. apply swrap_id; [done|].
  apply is_s_shiftr; [done|]. by apply swrap_is_s.
Qed.

Lemma swrap_lsr_sign w x :
  1 < w -> swrap w (lsr w x (w - 1)) = if swrap w x <? 0 then 1 else 0.
Proof.
  intros. unfold lsr. rewrite <- wrap_swrap, sign_bit by (lia || apply swrap_is_s; lia).
  assert (2 <= 2 ^ (w - 1)) by (apply (Z.pow_le_mono_r 2 1); lia).
  destruct (_ <? _); apply swrap_id; unfold is_s; lia.
Qed.

(** Signed reads of sums. *)
Lemma swrap_add_l w x y : 0 < w -> swrap w (swrap w x + y) = swrap w (x + y).
Proof.
  intros. apply swrap_congr; [done|].
  rewrite <- Z.add_mod_idemp_l, word_swrap_mod, Z.add_mod_idemp_l by (lia || (pose proof (pow2_pos w); lia)). done.
Qed.

(** The number of trailing zeros of a negated power of two. *)
Lemma CTZ_unique x k :
  0 < x -> 0 <= k -> Z.testbit x k = true -> (forall j, 0 <= j < k -> Z.testbit x j = false) -> CTZ x = k.
Proof.
  intros Hx Hk Ht Hf. destruct (CTZ_spec x Hx) as (H0 & H1 & H2).
  destruct (Z.lt_trichotomy (CTZ x) k) as [Hlt|[?|Hgt]]; [|done|].
  - rewrite Hf in H1 by lia. done.
  - by rewrite H2 in Ht.
Qed.

Lemma CTZ_signed_pow2 w imm k : 0 <= k < w -> Z.abs imm = 2 ^ k -> CTZ (wrap w imm) = k.
Proof.
  intros Hk E. assert (2 ^ k < 2 ^ w) by (apply Z.pow_lt_mono_r; lia). pose proof (pow2_pos k).
  destruct (Z.ltb_spec imm 0).
  - replace imm with (- 2 ^ k) by lia.
    assert (wrap w (- 2 ^ k) = 2 ^ w - 2 ^ k) as Ew
      by (symmetry; apply Z.mod_unique_pos with (-1); lia).
    assert (Hb : forall j, 0 <= j < w -> Z.testbit (wrap w (- 2 ^ k)) j = negb (j <? k)).
    { intros j Hj. rewrite testbit_wrap by lia. rewrite Z.bits_opp by lia.
      replace (Z.pred (2 ^ k)) with (Z.ones k) by (rewrite Z.ones_equiv; lia).
      rewrite Z.testbit_ones by lia. zcases; done. }
    apply CTZ_unique; [lia|lia| |]; [rewrite Hb by lia|intros; rewrite Hb by lia]; zcases; done.
  - replace imm with (2 ^ k) by lia. rewrite wrap_id by (unfold is_u; lia). apply CTZ_pow2. lia.
Qed.

(** Setting the bits above the low [k]. *)
Lemma lor_sign w k r : 0 <= k < w -> 0 <= r < 2 ^ k -> Z.lor r (wrap w (- 2 ^ k)) = wrap w (r - 2 ^ k).
Proof.
  intros Hk Hr. assert (2 ^ w = 2 ^ (w - k) * 2 ^ k) as Ew
    by (rewrite <- Z.pow_add_r by lia; f_equal; lia).
  assert (2 <= 2 ^ (w - k)) by (apply (Z.pow_le_mono_r 2 1); lia).
  assert (wrap w (- 2 ^ k) = (2 ^ (w - k) - 1) * 2 ^ k) as ->
    by (symmetry; apply Z.mod_unique_pos with (-1); nia).
  rewrite <- Z.shiftl_mul_pow2, <- add_shiftl_lor by (unfold is_u; lia).
  symmetry. symmetry. apply Z.mod_unique_pos with (-1); nia.
Qed.

(** The sign in every bit. *)
Lemma shiftr_sign w x : 0 < w -> is_s w x -> Z.shiftr x (w - 1) = if x <? 0 then -1 else 0.
Proof.
  intros Hw [Hl Hu]. rewrite Z.shiftr_div_pow2 by lia. destruct (Z.ltb_spec x 0).
  - symmetry. apply Z.div_unique_pos with (x + 2 ^ (w - 1)); lia.
  - apply Z.div_small. lia.
Qed.

(** A signed word from its sign and its low bits. *)
Lemma sign_low w n : 0 < w -> is_s w n -> (if n <? 0 then -1 else 0) * 2 ^ w + wrap w n = n.
Proof.
  intros Hw [Hl Hu]. assert (2 ^ w = 2 * 2 ^ (w - 1)) as E by (rewrite <- Z.pow_succ_r by lia; f_equal; lia).
  unfold wrap. destruct (Z.ltb_spec n 0).
  - rewrite <- (Z.mod_unique_pos n (2 ^ w) (-1) (n + 2 ^ w)); lia.
  - rewrite Z.mod_small; lia.
Qed.

(** The quotient overflows for one divisor only. *)
Lemma quot_is_s w n d : is_s w n -> d <> 0 -> d <> -1 -> is_s w (Z.quot n d).
Proof.
  intros [Hl Hu] H0 H1. destruct (Z.eq_dec d 1) as [->|]; [by rewrite Z.quot_1_r|].
  assert (Z.abs (Z.quot n d) <= Z.abs n / 2).
  { rewrite <- Z.quot_abs, Z.quot_div_nonneg by lia. apply Z.div_le_compat_l; lia. }
  assert (Z.abs n / 2 < 2 ^ (w - 1)) by (apply Z.div_lt_upper_bound; lia).
  unfold is_s. lia.
Qed.

(** The upper [k] bits of a small value. *)
Lemma shiftr_wrap_negative w x k :
  0 < k < w -> - 2 ^ (w - k) <= x < 0 -> Z.shiftr (wrap w x) (w - k) = 2 ^ k - 1.
Proof.
  intros Hk Hx. rewrite Z.shiftr_div_pow2 by lia.
  assert (2 ^ w = 2 ^ k * 2 ^ (w - k)) as E by (rewrite <- Z.pow_add_r by lia; f_equal; lia).
  pose proof (pow2_pos (w - k) ltac:(lia)).
  assert (wrap w x = x + 2 ^ w) as ->.
  { unfold wrap. symmetry. apply Z.mod_unique_pos with (-1); [|lia].
    assert (2 ^ (w - k) < 2 ^ w) by (apply Z.pow_lt_mono_r; lia). lia. }
  symmetry. apply Z.div_unique_pos with (x + 2 ^ (w - k)); [lia|]. rewrite E. ring.
Qed.

Lemma shiftr_wrap_nonnegative w x k :
  0 < k < w -> 0 <= x < 2 ^ (w - k) -> Z.shiftr (wrap w x) (w - k) = 0.
Proof.
  intros Hk Hx. assert (2 ^ (w - k) < 2 ^ w) by (apply Z.pow_lt_mono_r; lia).
  rewrite wrap_id by (unfold is_u; lia). rewrite Z.shiftr_div_pow2 by lia. by apply Z.div_small.
Qed.
