(* ===== verification/DivMagic.v ===== *)
(** * Division by constants: the magic number

    [CalculateMagicAndShiftForDivRem] of
    compiler/optimizing/code_generator_utils.cc, which every backend uses to
    replace an integer division by a constant with a multiplication, and the
    helper [AbsOrMin] of its header.  Also here are the Java operations [idiv],
    [irem], [ldiv] and [lrem] that the code generators have to implement, and
    the arithmetic that the backends (DivArm64, DivArm, DivX86, DivX86_64, DivRiscv64)
    share. *)

From Stdlib Require Import ZArith Lia Bool List.
From stdpp Require Import base numbers list option.
From S2P Require Import Prelude BitUtils MachineWord.

Local Open Scope Z_scope.
Local Open Scope art_scope.

(** ** Java division

    Java rounds the quotient towards zero; [MIN / -1] overflows to [MIN]. *)

Definition java_div (w n d : Z) : Z := swrap w (Z.quot n d).

Definition java_rem (w n d : Z) : Z := Z.rem n d.

(** ** Helpers of the code generators *)

Definition AbsOrMin (w value : Z) : Z :=
  if value =? - 2 ^ (w - 1) then value else Z.abs value.

(** [IsPowerOfTwo] at a signed type of [w] bits: the subtraction wraps. *)
Definition IsPowerOfTwo_signed (w x : Z) : bool := Z.land x (swrap w (x - 1)) =? 0.

(** The [do]-[while] loop; the state is [p], the two quotients and the two
    remainders, the result [p] and [quotient2]. *)
Fixpoint magic_loop (fuel : nat) (abs_nc abs_d p quotient1 remainder1 quotient2 remainder2 : Z) :
    option (Z * Z) :=
  match fuel with
  | O => None
  | S fuel =>
      let p := p + 1 in
      let quotient1 := u64 (2 * quotient1) in
      let remainder1 := u64 (2 * remainder1) in
      let '(quotient1, remainder1) :=
        if abs_nc <=? remainder1 then (u64 (quotient1 + 1), u64 (remainder1 - abs_nc))
        else (quotient1, remainder1) in
      let quotient2 := u64 (2 * quotient2) in
      let remainder2 := u64 (2 * remainder2) in
      let '(quotient2, remainder2) :=
        if abs_d <=? remainder2 then (u64 (quotient2 + 1), u64 (remainder2 - abs_d))
        else (quotient2, remainder2) in
      let delta := u64 (abs_d - remainder2) in
      if (quotient1 <? delta) || ((quotient1 =? delta) && (remainder1 =? 0))
      then magic_loop fuel abs_nc abs_d p quotient1 remainder1 quotient2 remainder2
      else Some (p, quotient2)
  end.

(** The loop of [CalculateMagicAndShiftForDivRem] runs at most 64 times. *)
Definition kMagicFuel : nat := 64.

Definition CalculateMagicAndShiftForDivRem (divisor : Z) (is_long : bool) : option (Z * Z) :=
  DCHECK negb (divisor =? 0);
  let p := if is_long then 63 else 31 in
  let exp := if is_long then u64 (Z.shiftl 1 63) else u32 (Z.shiftl 1 31) in
  let abs_d := u64 (if 0 <=? divisor then divisor else s64 (- divisor)) in
  let sign_bit := if is_long then Z.shiftr (u64 divisor) 63 else Z.shiftr (u32 divisor) 31 in
  let tmp := u64 (exp + sign_bit) in
  let abs_nc := u64 (tmp - 1 - tmp mod abs_d) in
  if (abs_nc =? 0) || (abs_d =? 0) then None (* a division by zero *) else
  let quotient1 := exp / abs_nc in
  let remainder1 := exp mod abs_nc in
  let quotient2 := exp / abs_d in
  let remainder2 := exp mod abs_d in
  '(p, quotient2) ← magic_loop kMagicFuel abs_nc abs_d p quotient1 remainder1 quotient2 remainder2;
  let magic := s64 (if 0 <? divisor then u64 (quotient2 + 1) else u64 (- quotient2 - 1)) in
  let magic := if is_long then magic else s32 magic in
  Some (magic, if is_long then p - 64 else p - 32).

(** ** Arithmetic of the magic number *)

Lemma divide_pow2 k :
  0 <= k -> forall d, 0 < d -> (d | 2 ^ k) -> exists j, 0 <= j /\ d = 2 ^ j.
Proof.
  revert k. apply (natlike_ind (fun k => forall d, 0 < d -> (d | 2 ^ k) -> exists j, 0 <= j /\ d = 2 ^ j)).
  - intros d Hd Hdv. exists 0. split; [lia|]. apply Z.divide_1_r in Hdv. lia.
  - intros k Hk IH d Hd Hdv. rewrite Z.pow_succ_r in Hdv by done.
    destruct (Z.Even_or_Odd d) as [[e ->]|[e ->]].
    + destruct (IH e) as (j & Hj & ->); [lia|by apply Z.mul_divide_cancel_l in Hdv|].
      exists (j + 1). split; [lia|]. by rewrite Z.add_1_r, Z.pow_succ_r.
    + apply IH; [done|]. eapply Z.gauss; [exact Hdv|].
      apply Z.bezout_1_gcd. exists 1, (- e). lia.
Qed.

Lemma pow2_not_divided d k :
  3 <= d -> (forall j, 0 <= j -> d <> 2 ^ j) -> 0 <= k -> 1 <= 2 ^ k mod d < d.
Proof.
  intros Hd Hnp Hk. pose proof (Z.mod_pos_bound (2 ^ k) d).
  enough (2 ^ k mod d <> 0) by lia. intros E.
  apply Z.mod_divide in E; [|lia].
  destruct (divide_pow2 k Hk d) as (m & Hm & ->); [lia|done|]. by apply (Hnp m).
Qed.

(** Doubling a quotient and a remainder, as the loop does. *)
Lemma double_divmod x c :
  0 < c ->
  (2 * x) / c = 2 * (x / c) + (if c <=? 2 * (x mod c) then 1 else 0) /\
  (2 * x) mod c = 2 * (x mod c) - (if c <=? 2 * (x mod c) then c else 0).
Proof.
  intros. pose proof (Z.mod_pos_bound x c). pose proof (Z.div_mod x c).
  assert (2 * x = c * (2 * (x / c) + (if c <=? 2 * (x mod c) then 1 else 0))
    + (2 * (x mod c) - (if c <=? 2 * (x mod c) then c else 0))) as E
    by (destruct (Z.leb_spec c (2 * (x mod c))); nia).
  assert (0 <= 2 * (x mod c) - (if c <=? 2 * (x mod c) then c else 0) < c)
    by (destruct (Z.leb_spec c (2 * (x mod c))); lia).
  split; [symmetry; eapply Z.div_unique_pos|symmetry; eapply Z.mod_unique_pos]; eauto.
Qed.

(** The loop goes on exactly while [2^p <= nc * delta]. *)
Lemma magic_continue x c delta :
  0 < c ->
  ((x / c <? delta) || ((x / c =? delta) && (x mod c =? 0))) = (x <=? c * delta).
Proof.
  intros. pose proof (Z.mod_pos_bound x c). pose proof (Z.div_mod x c).
  zcases; simpl; try done; exfalso; nia.
Qed.

Lemma W_pow W : W = 32 \/ W = 64 -> 2 ^ (W - 1) <= 2 ^ 63 /\ 2 ^ W <= 2 ^ 64.
Proof. intros [-> | ->]; lia. Qed.

Section magic.
Context (W d nc : Z).
Hypothesis HW : W = 32 \/ W = 64.
Hypothesis Hd : 3 <= d < 2 ^ (W - 1).
Hypothesis Hnp : forall j, 0 <= j -> d <> 2 ^ j.
Hypothesis Hnc : d - 1 <= nc <= 2 ^ (W - 1).

Definition delta_at (p : Z) : Z := d - 2 ^ p mod d.

Lemma delta_bound p : 0 <= p -> 1 <= delta_at p <= d - 1.
Proof. intros. pose proof (pow2_not_divided d p ltac:(lia) Hnp). unfold delta_at. lia. Qed.

(** [last_p]: the condition holds here at the latest. *)
Definition last_p : Z := W + Z.log2 d.

Lemma d_log : 2 ^ Z.log2 d < d < 2 ^ (Z.log2 d + 1) /\ 1 <= Z.log2 d < W - 1.
Proof.
  pose proof (Z.log2_spec d ltac:(lia)) as [Hl Hu].
  pose proof (Hnp (Z.log2 d) (Z.log2_nonneg d)).
  rewrite <- Z.add_1_r in Hu. split; [lia|].
  split; [change 1 with (Z.log2 3); apply Z.log2_le_mono; lia|apply Z.log2_lt_pow2; lia].
Qed.

Lemma last_p_stops p : last_p <= p -> nc * delta_at p < 2 ^ p.
Proof.
  intros Hp. destruct d_log as [Hl Hb]. unfold last_p in Hp.
  pose proof (delta_bound p ltac:(lia)).
  assert (2 ^ (W + Z.log2 d) <= 2 ^ p) by (apply Z.pow_le_mono_r; lia).
  assert (nc * delta_at p < 2 ^ (W - 1) * 2 ^ (Z.log2 d + 1)).
  { apply Z.le_lt_trans with (2 ^ (W - 1) * (d - 1)); [apply Z.mul_le_mono_nonneg; lia|].
    apply Z.mul_lt_mono_pos_l; [apply pow2_pos|]; lia. }
  rewrite <- Z.pow_add_r in * by lia.
  by replace (W - 1 + (Z.log2 d + 1)) with (W + Z.log2 d) in * by lia; lia.
Qed.

Lemma magic_bound p : W <= p <= last_p -> 0 < 2 ^ p / d + 1 < 2 ^ W.
Proof.
  intros Hp. destruct d_log as [Hl Hb]. unfold last_p in Hp.
  assert (2 ^ p <= 2 ^ (W + Z.log2 d)) by (apply Z.pow_le_mono_r; lia).
  rewrite Z.pow_add_r in * by lia.
  assert (2 ^ (Z.log2 d + 1) <= 2 ^ W) by (apply Z.pow_le_mono_r; lia).
  rewrite Z.pow_add_r in * by lia. change (2 ^ 1) with 2 in *.
  pose proof (pow2_pos p ltac:(lia)). pose proof (pow2_pos W ltac:(lia)).
  pose proof (Z.div_pos (2 ^ p) d ltac:(lia) ltac:(lia)). split; [lia|].
  enough (2 ^ p / d < 2 ^ W - 1) by lia.
  apply Z.div_lt_upper_bound; [lia|].
  apply Z.le_lt_trans with (2 ^ W * 2 ^ Z.log2 d); [done|].
  apply Z.lt_le_trans with ((2 ^ Z.log2 d + 1) * (2 ^ W - 1)); [lia|].
  apply Z.mul_le_mono_nonneg_r; lia.
Qed.

(** One round of the loop computes the quotients and remainders of [2^(p+1)]. *)
Lemma magic_loop_step fuel p :
  W - 1 <= p < last_p -> 2 ^ p <= nc * d ->
  magic_loop (S fuel) nc d p (2 ^ p / nc) (2 ^ p mod nc) (2 ^ p / d) (2 ^ p mod d) =
  if 2 ^ (p + 1) <=? nc * delta_at (p + 1)
  then magic_loop fuel nc d (p + 1) (2 ^ (p + 1) / nc) (2 ^ (p + 1) mod nc)
         (2 ^ (p + 1) / d) (2 ^ (p + 1) mod d)
  else Some (p + 1, 2 ^ (p + 1) / d).
Proof.
  intros Hp Hx. pose proof (W_pow W HW) as [Hw1 Hw2].
  pose proof (magic_bound (p + 1) ltac:(lia)) as Hm.
  rewrite (Z.add_1_r p), Z.pow_succ_r, <- (Z.add_1_r p) in * by lia.
  assert (0 <= 2 ^ p / nc <= d).
  { split; [apply Z.div_pos; lia|]. apply Z.div_le_upper_bound; lia. }
  pose proof (Z.mod_pos_bound (2 ^ p) nc ltac:(lia)).
  pose proof (Z.mod_pos_bound (2 ^ p) d ltac:(lia)).
  pose proof (Z.div_pos (2 ^ p) d ltac:(lia) ltac:(lia)).
  destruct (double_divmod (2 ^ p) nc ltac:(lia)) as [E1 E2].
  destruct (double_divmod (2 ^ p) d ltac:(lia)) as [E3 E4].
  rewrite <- (magic_continue (2 * 2 ^ p) nc (delta_at (p + 1))) by lia.
  unfold delta_at. rewrite (Z.add_1_r p), Z.pow_succ_r, <- (Z.add_1_r p) by lia.
  cbn [magic_loop]. cbv zeta. rewrite E3 in Hm. rewrite E1, E2, E3, E4.
  assert (2 * (2 ^ p / d) < 2 ^ 64) by (destruct (d <=? 2 * (2 ^ p mod d)); lia).
  rewrite (wrap_id 64 (2 * (2 ^ p / nc))), (wrap_id 64 (2 * (2 ^ p mod nc))),
    (wrap_id 64 (2 * (2 ^ p / d))), (wrap_id 64 (2 * (2 ^ p mod d))) by (unfold is_u; lia).
  revert Hm.
  destruct (Z.leb_spec nc (2 * (2 ^ p mod nc))), (Z.leb_spec d (2 * (2 ^ p mod d))); intros Hm;
    rewrite ?Z.add_0_r, ?Z.sub_0_r; unwrap; reflexivity.
Qed.

Lemma magic_loop_spec fuel p :
  W - 1 <= p < last_p -> 2 ^ p <= nc * d -> last_p - p <= Z.of_nat fuel ->
  exists p', magic_loop fuel nc d p (2 ^ p / nc) (2 ^ p mod nc) (2 ^ p / d) (2 ^ p mod d)
               = Some (p', 2 ^ p' / d) /\
    p < p' <= last_p /\ nc * delta_at p' < 2 ^ p' /\
    forall j, p < j < p' -> 2 ^ j <= nc * delta_at j.
Proof.
  revert p. induction fuel as [|fuel IH]; intros p Hp Hx Hf; [lia|].
  rewrite magic_loop_step by done.
  destruct (Z.leb_spec (2 ^ (p + 1)) (nc * delta_at (p + 1))) as [Hle|Hgt].
  - destruct (Z.eq_dec (p + 1) last_p) as [E|].
    { pose proof (last_p_stops (p + 1)). lia. }
    pose proof (delta_bound (p + 1) ltac:(lia)).
    destruct (IH (p + 1)) as (p' & E & Hp' & Hs & Hj); [lia|nia|lia|].
    exists p'. repeat split; [done|lia|lia|done|].
    intros j ?. destruct (Z.eq_dec j (p + 1)) as [->|]; [done|apply Hj; lia].
  - exists (p + 1). repeat split; [lia|lia|done|lia].
Qed.

End magic.

(** ** Dividing with the magic number

    [m] is the unsigned magic number of a positive [d]: [m * d] exceeds [2^p]
    by [delta]. *)

Section multiply.
Context (d nc m p delta : Z).
Hypothesis Hd : 0 < d.
Hypothesis Hp : 0 <= p.
Hypothesis Hm : m * d = 2 ^ p + delta.
Hypothesis Hdelta : 0 < delta.

Lemma multiply_floor k :
  0 <= k -> delta * k < (d - k mod d) * 2 ^ p -> (m * k) / 2 ^ p = k / d.
Proof.
  intros Hk Hlt. pose proof (pow2_pos p Hp).
  pose proof (Z.div_mod k d ltac:(lia)) as E. pose proof (Z.mod_pos_bound k d Hd).
  assert (d * (m * k) = 2 ^ p * k + delta * k) as E2 by (rewrite Z.mul_assoc, (Z.mul_comm d), Hm; ring).
  symmetry. apply (Z.div_unique_pos _ _ _ (m * k - 2 ^ p * (k / d))); [|ring].
  split; apply Z.mul_le_mono_pos_l with (p := d) || apply Z.mul_lt_mono_pos_l with (p := d); nia.
Qed.

Lemma multiply_ceil k :
  0 < k -> delta * k <= (d - k mod d) * 2 ^ p -> (- (m * k)) / 2 ^ p = - (k / d) - 1.
Proof.
  intros Hk Hle. pose proof (pow2_pos p Hp).
  pose proof (Z.div_mod k d ltac:(lia)) as E. pose proof (Z.mod_pos_bound k d Hd).
  assert (d * (m * k) = 2 ^ p * k + delta * k) as E2 by (rewrite Z.mul_assoc, (Z.mul_comm d), Hm; ring).
  symmetry. apply (Z.div_unique_pos _ _ _ (2 ^ p * (k / d + 1) - m * k)); [|ring].
  split; apply Z.mul_le_mono_pos_l with (p := d) || apply Z.mul_lt_mono_pos_l with (p := d); nia.
Qed.

(** Below [nc + d], where [nc] is a predecessor of a multiple of [d]. *)
Lemma delta_below k :
  nc mod d = d - 1 -> d - 1 <= nc -> nc * delta < 2 ^ p -> 0 <= k < nc + d ->
  delta * k < (d - k mod d) * 2 ^ p.
Proof.
  intros Hr Hnc Hs Hk. pose proof (Z.mod_pos_bound k d Hd).
  destruct (Z.leb_spec k nc).
  - apply Z.le_lt_trans with (nc * delta); nia.
  - assert (k mod d <= d - 2).
    { rewrite (Z.div_mod nc d) in Hk by lia.
      replace (k mod d) with (k - d * (nc / d + 1)); [lia|].
      apply Z.mod_unique_pos with (nc / d + 1); [|ring].
      rewrite (Z.div_mod nc d) in H0 by lia. lia. }
    apply Z.lt_le_trans with (2 * 2 ^ p); nia.
Qed.

End multiply.

(** ** The result of CalculateMagicAndShiftForDivRem *)

(** The correction of a quotient rounded towards minus infinity. *)
Definition increment_negative (t : Z) : Z := if t <? 0 then t + 1 else t.

Section calculate.
Context (W divisor : Z).
Hypothesis HW : W = 32 \/ W = 64.
Hypothesis Hrange : is_s W divisor.
Hypothesis Hd3 : 3 <= Z.abs divisor.
Hypothesis Hnp : forall j, 0 <= j -> Z.abs divisor <> 2 ^ j.

Definition magic_tmp : Z := 2 ^ (W - 1) + (if divisor <? 0 then 1 else 0).
Definition magic_nc : Z := magic_tmp - 1 - magic_tmp mod Z.abs divisor.

Lemma abs_lt : Z.abs divisor < 2 ^ (W - 1).
Proof.
  pose proof (Hnp (W - 1) ltac:(lia)). unfold is_s in Hrange. lia.
Qed.

Lemma magic_nc_facts :
  Z.abs divisor - 1 <= magic_nc <= 2 ^ (W - 1) /\
  magic_nc mod Z.abs divisor = Z.abs divisor - 1 /\
  magic_tmp <= magic_nc + Z.abs divisor.
Proof.
  pose proof abs_lt. unfold magic_nc.
  assert (2 ^ (W - 1) <= magic_tmp <= 2 ^ (W - 1) + 1) by (unfold magic_tmp; destruct (_ <? _); lia).
  pose proof (Z.mod_pos_bound magic_tmp (Z.abs divisor) ltac:(lia)).
  pose proof (Z.div_mod magic_tmp (Z.abs divisor) ltac:(lia)).
  assert (1 <= magic_tmp / Z.abs divisor) by (apply Z.div_le_lower_bound; lia).
  repeat split; [nia|lia| |lia].
  symmetry. apply Z.mod_unique_pos with (magic_tmp / Z.abs divisor - 1); lia.
Qed.

Lemma Calculate_loop :
  CalculateMagicAndShiftForDivRem divisor (W =? 64) =
  ('(p, q2) ← magic_loop kMagicFuel magic_nc (Z.abs divisor) (W - 1)
     (2 ^ (W - 1) / magic_nc) (2 ^ (W - 1) mod magic_nc)
     (2 ^ (W - 1) / Z.abs divisor) (2 ^ (W - 1) mod Z.abs divisor);
   Some (swrap W (Z.sgn divisor * (q2 + 1)), p - W)).
Proof.
  pose proof abs_lt. pose proof magic_nc_facts as (Hnc & _ & _). unfold is_s in Hrange.
  assert (Habs : u64 (if 0 <=? divisor then divisor else s64 (- divisor)) = Z.abs divisor).
  { pose proof (W_pow W HW) as [Hw1 Hw2]. destruct (Z.leb_spec 0 divisor); unwrap; lia. }
  assert (Htmp : u64 ((if W =? 64 then u64 (Z.shiftl 1 63) else u32 (Z.shiftl 1 31)) +
    (if W =? 64 then Z.shiftr (u64 divisor) 63 else Z.shiftr (u32 divisor) 31)) = magic_tmp).
  { unfold magic_tmp. rewrite <- (sign_bit W divisor ltac:(lia) Hrange).
    pose proof (sign_bit W divisor ltac:(lia) Hrange). 
    destruct HW as [-> | ->]; apply wrap_id; unfold is_u; destruct (divisor <? 0); lia. }
  assert (Hexp : (if W =? 64 then u64 (Z.shiftl 1 63) else u32 (Z.shiftl 1 31)) = 2 ^ (W - 1))
    by (destruct HW as [-> | ->]; reflexivity).
  unfold CalculateMagicAndShiftForDivRem.
  rewrite Habs, Htmp, Hexp. fold magic_nc. rewrite (wrap_id 64 magic_nc)
    by (pose proof (W_pow W HW); unfold is_u; lia).
  replace (if W =? 64 then 63 else 31) with (W - 1) by (destruct HW as [-> | ->]; reflexivity).
  rewrite (proj2 (Z.eqb_neq divisor 0)), (proj2 (Z.eqb_neq magic_nc 0)),
    (proj2 (Z.eqb_neq (Z.abs divisor) 0)) by lia. cbn [negb dcheck orb mbind option_bind].
  destruct (magic_loop _ _ _ _ _ _ _ _) as [[p q2]|]; [|done]. cbn [mbind option_bind].
  f_equal. f_equal; [|by destruct HW as [-> | ->]].
  replace (if 0 <? divisor then u64 (q2 + 1) else u64 (- q2 - 1))
    with (u64 (Z.sgn divisor * (q2 + 1))) by (destruct (Z.ltb_spec 0 divisor);
      [rewrite Z.sgn_pos by done|rewrite Z.sgn_neg by lia]; f_equal; lia).
  destruct HW as [-> | ->]; cbn [Z.eqb Pos.eqb];
    (apply swrap_congr; [lia|]); rewrite ?word_swrap_mod, ?wrap_mod by lia; done.
Qed.

(** The unsigned magic number and the facts a backend needs of it. *)
Record magic_ok (m shift : Z) : Prop := {
  magic_range : 0 < m < 2 ^ W;
  shift_range : 0 <= shift < W - 1;
  (* the high bit of the magic number needs a shift *)
  shift_nonzero : 2 ^ (W - 1) <= m -> shift <> 0;
  magic_quot : forall n, is_s W n ->
    increment_negative (Z.sgn divisor * m * n / 2 ^ (W + shift)) = Z.quot n divisor
}.

Lemma delta_last p :
  0 < divisor -> magic_tmp = magic_nc + Z.abs divisor -> W <= p ->
  (forall j, W - 1 < j < p -> 2 ^ j <= magic_nc * delta_at (Z.abs divisor) j) ->
  delta_at (Z.abs divisor) p * 2 ^ (W - 1) <= 2 ^ p.
Proof.
  intros Hpos E Hp Hj. pose proof abs_lt.
  assert (magic_tmp = 2 ^ (W - 1)) as Et by (unfold magic_tmp; destruct (Z.ltb_spec divisor 0); lia).
  assert (2 ^ W = 2 * 2 ^ (W - 1)) as EW by (rewrite <- Z.pow_succ_r by lia; f_equal; lia).
  pose proof (Z.div_mod magic_tmp (Z.abs divisor) ltac:(lia)) as Edm.
  assert (delta_at (Z.abs divisor) W = 2) as Ed.
  { unfold delta_at. enough (2 ^ W mod Z.abs divisor = Z.abs divisor - 2) by lia.
    symmetry. unfold magic_nc in E.
    apply Z.mod_unique_pos with (2 * (magic_tmp / Z.abs divisor) + 1); lia. }
  destruct (Z.eq_dec p W) as [->|]; [lia|].
  specialize (Hj W ltac:(lia)). rewrite Ed in Hj. lia.
Qed.

(** The two directions of rounding. *)
Lemma magic_quot_of m p delta :
  0 <= p -> 0 < delta -> m * Z.abs divisor = 2 ^ p + delta -> magic_nc * delta < 2 ^ p ->
  (0 < divisor -> magic_tmp = magic_nc + Z.abs divisor -> delta * 2 ^ (W - 1) <= 2 ^ p) ->
  forall n, is_s W n ->
  increment_negative (Z.sgn divisor * m * n / 2 ^ p) = Z.quot n divisor.
Proof.
  intros Hp Hdelta Hm Hnc Hlast n [Hl Hu].
  destruct magic_nc_facts as (Hn1 & Hmod & Htmp). pose proof (pow2_pos p Hp).
  assert (Hfl : forall k, 0 <= k < magic_nc + Z.abs divisor -> m * k / 2 ^ p = k / Z.abs divisor).
  { intros k Hk. apply (multiply_floor _ m p delta); [lia|done|done|done|lia|].
    eapply (delta_below _ magic_nc); eauto; lia. }
  assert (Hce : forall k, 0 < k <= 2 ^ (W - 1) -> - (m * k) / 2 ^ p = - (k / Z.abs divisor) - 1).
  { intros k Hk. apply (multiply_ceil _ m p delta); [lia|done|done|done|lia|].
    destruct (Z.ltb_spec k (magic_nc + Z.abs divisor)).
    - apply Z.lt_le_incl. eapply (delta_below _ magic_nc); eauto; lia.
    - unfold magic_tmp in *. destruct (Z.ltb_spec divisor 0); [lia|].
      assert (k = magic_nc + Z.abs divisor) as Ek by lia.
      assert (k mod Z.abs divisor = Z.abs divisor - 1) as ->.
      { rewrite Ek, Z.add_mod, Z_mod_same_full, Z.add_0_r, Z.mod_mod by lia. done. }
      specialize (Hlast ltac:(lia) ltac:(lia)). nia. }
  assert (Hq : forall k, 0 <= k -> 0 <= k / Z.abs divisor) by (intros; apply Z.div_pos; lia).
  unfold increment_negative. unfold magic_tmp in Htmp.
  destruct (Z.lt_trichotomy divisor 0) as [Hd | [Hd | Hd]]; [|lia|].
  - rewrite (Z.sgn_neg divisor) by done. rewrite (proj2 (Z.ltb_lt divisor 0)) in Htmp by done.
    assert (divisor = - Z.abs divisor) as Ed by lia. rewrite Ed at 1. rewrite Z.quot_opp_r by lia.
    destruct (Z.lt_trichotomy n 0) as [Hn | [-> | Hn]].
    + replace (-1 * m * n) with (m * - n) by ring. rewrite Hfl by lia. specialize (Hq (- n)).
      rewrite (proj2 (Z.ltb_ge _ 0)) by lia. rewrite <- Z.quot_opp_l by lia.
      by rewrite Z.quot_div_nonneg by lia.
    + by rewrite Z.mul_0_r, Z.div_0_l, Z.quot_0_l by lia.
    + replace (-1 * m * n) with (- (m * n)) by ring. rewrite Hce by lia. specialize (Hq n).
      rewrite (proj2 (Z.ltb_lt _ 0)) by lia. rewrite Z.quot_div_nonneg by lia. lia.
  - rewrite (Z.sgn_pos divisor) by done. rewrite (proj2 (Z.ltb_ge divisor 0)) in Htmp by lia.
    assert (divisor = Z.abs divisor) as Ed by lia. rewrite Ed at 1.
    destruct (Z.ltb_spec n 0).
    + replace (1 * m * n) with (- (m * - n)) by ring. rewrite Hce by lia. specialize (Hq (- n)).
      rewrite (proj2 (Z.ltb_lt _ 0)) by lia. replace n with (- - n) at 2 by lia.
      rewrite Z.quot_opp_l, Z.quot_div_nonneg by lia. lia.
    + rewrite Z.mul_1_l, Hfl by lia. specialize (Hq n).
      rewrite (proj2 (Z.ltb_ge _ 0)) by lia. by rewrite Z.quot_div_nonneg by lia.
Qed.

Lemma Calculate_ok :
  exists m shift, CalculateMagicAndShiftForDivRem divisor (W =? 64) =
      Some (swrap W (Z.sgn divisor * m), shift) /\ magic_ok m shift.
Proof.
  pose proof abs_lt as Hlt. destruct magic_nc_facts as (Hn1 & Hmod & Htmp).
  destruct (d_log W (Z.abs divisor) ltac:(lia) Hnp) as [Hl1 Hl2].
  assert (2 ^ (W - 1) <= magic_tmp) by (unfold magic_tmp; destruct (_ <? _); lia).
  destruct (magic_loop_spec W (Z.abs divisor) magic_nc HW ltac:(lia) Hnp ltac:(lia) kMagicFuel (W - 1))
    as (p & E & Hp & Hs & Hj).
  { unfold last_p. lia. }
  { nia. }
  { unfold last_p, kMagicFuel. lia. }
  rewrite Calculate_loop, E. cbn [mbind option_bind].
  exists (2 ^ p / Z.abs divisor + 1), (p - W). split; [done|].
  pose proof (magic_bound W (Z.abs divisor) HW ltac:(lia) Hnp p ltac:(lia)) as Hm.
  pose proof (delta_bound W (Z.abs divisor) ltac:(lia) Hnp p ltac:(lia)) as Hdb.
  split; [done|unfold last_p in Hp; lia| |].
  - intros Hge Hz. assert (p = W) as -> by lia.
    assert (2 ^ W / Z.abs divisor <= 2 ^ W / 3) by (apply Z.div_le_compat_l; lia).
    assert (2 ^ W / 3 + 1 < 2 ^ (W - 1)) by (destruct HW as [-> | ->]; vm_compute; done). lia.
  - intros n Hn. replace (W + (p - W)) with p by lia.
    apply (magic_quot_of _ p (delta_at (Z.abs divisor) p)); [lia|lia| |done| |done].
    + unfold delta_at. pose proof (Z.div_mod (2 ^ p) (Z.abs divisor) ltac:(lia)). lia.
    + intros. apply delta_last; auto with lia.
Qed.

End calculate.

(** ** Words *)

(** The product with the signed magic number, corrected by the dividend, is the
    product with [Z.sgn divisor * m]. *)
Lemma corrected_product W divisor m n :
  1 < W -> divisor <> 0 -> 0 < m < 2 ^ W -> is_s W n ->
  let magic := swrap W (Z.sgn divisor * m) in
  (if (0 <? divisor) && (magic <? 0) then magic * n + n * 2 ^ W
   else if (divisor <? 0) && (0 <? magic) then magic * n - n * 2 ^ W
   else magic * n) = Z.sgn divisor * m * n /\
  - (2 ^ W * 2 ^ (W - 1)) <= Z.sgn divisor * m * n < 2 ^ W * 2 ^ (W - 1).
Proof.
  intros HW Hd Hm [Hl Hu] magic.
  assert (2 ^ W = 2 * 2 ^ (W - 1)) as E by (rewrite <- Z.pow_succ_r by lia; f_equal; lia).
  pose proof (pow2_pos (W - 1) ltac:(lia)).
  assert (Hmg : magic = Z.sgn divisor * m /\ (0 < magic <-> 0 < divisor) \/
    magic = Z.sgn divisor * m - Z.sgn divisor * 2 ^ W /\ (magic < 0 <-> 0 < divisor)).
  { unfold magic, swrap. destruct (Z.lt_trichotomy divisor 0) as [|[|]]; [|lia|];
      [rewrite (Z.sgn_neg divisor) by done|rewrite (Z.sgn_pos divisor) by done].
    - destruct (Z.leb_spec m (2 ^ (W - 1))); [left|right].
      + rewrite Z.mod_small; lia.
      + replace ((-1 * m + 2 ^ (W - 1)) mod 2 ^ W) with (2 ^ W - m + 2 ^ (W - 1)); [lia|].
        apply Z.mod_unique_pos with (-1); lia.
    - destruct (Z.ltb_spec m (2 ^ (W - 1))); [left|right].
      + rewrite Z.mod_small; lia.
      + replace ((1 * m + 2 ^ (W - 1)) mod 2 ^ W) with (m - 2 ^ W + 2 ^ (W - 1)); [lia|].
        apply Z.mod_unique_pos with 1; lia. }
  split.
  - destruct Hmg as [[-> Hs]|[-> Hs]].
    + zcases; done.
    + zcases; simpl; try lia; rewrite ?(Z.sgn_pos divisor), ?(Z.sgn_neg divisor) by lia; ring.
  - destruct (Z.lt_trichotomy divisor 0) as [|[|]]; [|lia|];
      [rewrite (Z.sgn_neg divisor) by done|rewrite (Z.sgn_pos divisor) by done]; nia.
Qed.

(** The same for the high word. *)
Lemma corrected_high W divisor m n :
  1 < W -> divisor <> 0 -> 0 < m < 2 ^ W -> is_s W n ->
  let magic := swrap W (Z.sgn divisor * m) in
  (if (0 <? divisor) && (magic <? 0) then magic * n / 2 ^ W + n
   else if (divisor <? 0) && (0 <? magic) then magic * n / 2 ^ W - n
   else magic * n / 2 ^ W) = Z.sgn divisor * m * n / 2 ^ W /\
  is_s W (Z.sgn divisor * m * n / 2 ^ W).
Proof.
  intros HW Hd Hm Hn magic. destruct (corrected_product W divisor m n HW Hd Hm Hn) as [E Hb].
  fold magic in E. pose proof (pow2_pos W ltac:(lia)). split.
  - rewrite <- E. destruct ((0 <? divisor) && _); [|destruct (_ && _)].
    + by rewrite Z.div_add by lia.
    + by rewrite <- !Z.add_opp_r, <- Z.mul_opp_l, Z.div_add by lia.
    + done.
  - split; [apply Z.div_le_lower_bound|apply Z.div_lt_upper_bound]; lia.
Qed.

Lemma high_shift W x k : 0 <= W -> 0 <= k -> Z.shiftr (x / 2 ^ W) k = x / 2 ^ (W + k).
Proof.
  intros. pose proof (pow2_pos W ltac:(lia)). pose proof (pow2_pos k ltac:(lia)).
  rewrite Z.shiftr_div_pow2, Z.div_div, Z.pow_add_r by lia. done.
Qed.

Lemma shiftr_neg x k : 0 <= k -> (Z.shiftr x k <? 0) = (x <? 0).
Proof.
  intros. pose proof (Z.shiftr_neg x k). zcases; try done; lia.
Qed.

(** A positive divisor has a positive magic number unless its high bit is set. *)
Lemma magic_sign W divisor m shift :
  1 < W -> 0 < divisor -> magic_ok W divisor m shift ->
  swrap W (Z.sgn divisor * m) <= 0 -> shift <> 0.
Proof.
  intros HW Hd [Hm _ Hs _] Hle. apply Hs. rewrite (Z.sgn_pos divisor), Z.mul_1_l in Hle by done.
  destruct (Z.leb_spec (2 ^ (W - 1)) m); [done|].
  rewrite swrap_id in Hle by (unfold is_s; lia). lia.
Qed.

(** Of a non-negative dividend and a positive divisor, no correction is needed. *)
Lemma magic_nonneg W divisor m shift n :
  0 <= W -> 0 < divisor -> magic_ok W divisor m shift -> is_s W n -> 0 <= n ->
  0 <= Z.sgn divisor * m * n / 2 ^ W /\
  Z.shiftr (Z.sgn divisor * m * n / 2 ^ W) shift = Z.quot n divisor.
Proof.
  intros HW Hd [Hm Hs _ Hq] Hn Hpos.
  assert (0 <= Z.sgn divisor * m * n / 2 ^ W) as H0.
  { rewrite Z.sgn_pos by done. apply Z.div_pos; [nia|by apply pow2_pos]. }
  split; [done|]. rewrite high_shift by lia. rewrite <- (Hq n Hn).
  unfold increment_negative. rewrite <- high_shift, shiftr_neg by lia.
  by rewrite (proj2 (Z.ltb_ge _ 0)).
Qed.

(** ** Powers of two *)

Lemma land_pred_pow2 x : 0 < x -> Z.land x (x - 1) = 0 -> exists k, 0 <= k /\ x = 2 ^ k.
Proof.
  intros Hx E. exists (Z.log2 x). pose proof (Z.log2_nonneg x). split; [done|].
  pose proof (Z.log2_spec x Hx) as [Hl Hu]. destruct (Z.eq_dec x (2 ^ Z.log2 x)); [done|].
  assert (Z.testbit (Z.land x (x - 1)) (Z.log2 x) = true) as Ht; [|by rewrite E, Z.testbit_0_l in Ht].
  rewrite Z.land_spec, Z.bit_log2 by done. simpl.
  replace (Z.log2 x) with (Z.log2 (x - 1)); [apply Z.bit_log2; lia|].
  apply Z.log2_unique; lia.
Qed.

(** What the code generators learn of a divisor with their test on
    [AbsOrMin(imm)], taken at a width [w'] that holds the divisor. *)
Lemma divisor_cases w w' divisor :
  0 < w <= w' -> is_s w divisor -> divisor <> 0 ->
  let a := AbsOrMin w' divisor in
  (IsPowerOfTwo_signed w' a = true /\
     exists k, 0 <= k < w /\ wrap w' a = 2 ^ k /\ Z.abs divisor = 2 ^ k) \/
  (IsPowerOfTwo_signed w' a = false /\ 3 <= Z.abs divisor /\
     forall j, 0 <= j -> Z.abs divisor <> 2 ^ j).
Proof.
  intros Hw [Hl Hu] Hnz. unfold AbsOrMin, IsPowerOfTwo_signed.
  assert (2 ^ (w - 1) <= 2 ^ (w' - 1)) by (apply Z.pow_le_mono_r; lia).
  assert (2 ^ w' = 2 * 2 ^ (w' - 1)) as E by (rewrite <- Z.pow_succ_r by lia; f_equal; lia).
  pose proof (pow2_pos (w' - 1) ltac:(lia)).
  destruct (Z.eqb_spec divisor (- 2 ^ (w' - 1))) as [->|Hne].
  - left. split.
    + apply Z.eqb_eq. replace (swrap w' (- 2 ^ (w' - 1) - 1)) with (2 ^ (w' - 1) - 1).
      { replace (2 ^ (w' - 1) - 1) with (Z.ones (w' - 1)) by (rewrite Z.ones_equiv; lia).
        rewrite Z.land_ones by lia.
        rewrite <- (Z.mul_1_l (2 ^ (w' - 1))) at 1. rewrite <- Z.mul_opp_l. apply Z.mod_mul. lia. }
      unfold swrap. replace (- 2 ^ (w' - 1) - 1 + 2 ^ (w' - 1)) with (-1) by lia.
      rewrite <- (Z.mod_unique_pos (-1) (2 ^ w') (-1) (2 ^ w' - 1)); lia.
    + assert (w = w') as -> by (destruct (Z.eq_dec w w'); [done|];
        assert (2 ^ (w - 1) < 2 ^ (w' - 1)) by (apply Z.pow_lt_mono_r; lia); lia).
      exists (w' - 1). split; [lia|]. split; [|lia].
      unfold wrap. symmetry. apply Z.mod_unique_pos with (-1); lia.
  - rewrite (swrap_id w') by (unfold is_s; lia).
    destruct (Z.eqb_spec (Z.land (Z.abs divisor) (Z.abs divisor - 1)) 0) as [E0|E0].
    + left. split; [done|]. destruct (land_pred_pow2 (Z.abs divisor)) as (k & Hk & Ek); [lia|done|].
      exists k. rewrite wrap_id by (unfold is_u; lia). split; [|done]. split; [done|].
      assert (2 ^ (w - 1) < 2 ^ w) by (apply Z.pow_lt_mono_r; lia).
      apply (Z.pow_lt_mono_r_iff 2); lia.
    + right. assert (forall j, 0 <= j -> Z.abs divisor <> 2 ^ j) as Hn.
      { intros j Hj Ej. rewrite Ej in E0. pose proof (IsPowerOfTwo_pow2 j Hj) as Hp.
        by apply Z.eqb_eq in Hp. }
      split; [done|]. split; [|done]. pose proof (Hn 0). pose proof (Hn 1). lia.
Qed.

(** Rounding towards zero with a shift. *)
Lemma quot_pow2 n k :
  0 <= k -> Z.quot n (2 ^ k) = Z.shiftr (if n <? 0 then n + (2 ^ k - 1) else n) k.
Proof.
  intros Hk. pose proof (pow2_pos k Hk). rewrite Z.shiftr_div_pow2 by done.
  destruct (Z.ltb_spec n 0).
  - replace n with (- - n) at 1 by lia. rewrite Z.quot_opp_l, Z.quot_div_nonneg by lia.
    pose proof (Z.div_mod (- n) (2 ^ k) ltac:(lia)). pose proof (Z.mod_pos_bound (- n) (2 ^ k) ltac:(lia)).
    apply (Z.div_unique_pos _ _ _ (2 ^ k - 1 - (- n) mod 2 ^ k)); lia.
  - apply Z.quot_div_nonneg; lia.
Qed.

Lemma quot_abs n d : d <> 0 -> Z.quot n d = (if d <? 0 then - Z.quot n (Z.abs d) else Z.quot n (Z.abs d)).
Proof.
  intros. destruct (Z.ltb_spec d 0).
  - rewrite (Z.abs_neq d) by lia. rewrite Z.quot_opp_r by lia. lia.
  - by rewrite Z.abs_eq by lia.
Qed.

Lemma rem_pow2 n d k :
  0 <= k -> Z.abs d = 2 ^ k ->
  Z.rem n d = if n <? 0 then - ((- n) mod 2 ^ k) else n mod 2 ^ k.
Proof.
  intros Hk E. pose proof (pow2_pos k Hk). rewrite <- Z.rem_abs_r, E by lia.
  destruct (Z.ltb_spec n 0).
  - replace n with (- - n) at 1 by lia. rewrite Z.rem_opp_l by lia. by rewrite Z.rem_mod_nonneg by lia.
  - apply Z.rem_mod_nonneg; lia.
Qed.

(** The dividend, adjusted if it is negative. *)
Definition adjusted (n k : Z) : Z := if n <? 0 then n + (2 ^ k - 1) else n.

Lemma adjusted_is_s w n k : 0 <= k < w -> is_s w n -> is_s w (adjusted n k).
Proof.
  intros Hk [Hl Hu]. assert (2 ^ k <= 2 ^ (w - 1)) by (apply Z.pow_le_mono_r; lia).
  pose proof (pow2_pos k). unfold adjusted, is_s. destruct (Z.ltb_spec n 0); lia.
Qed.

Lemma adjusted_quot n imm k :
  0 <= k -> imm <> 0 -> Z.abs imm = 2 ^ k ->
  Z.quot n imm = if imm <? 0 then - Z.shiftr (adjusted n k) k else Z.shiftr (adjusted n k) k.
Proof. intros Hk Hnz E. rewrite quot_abs, E, quot_pow2 by done. done. Qed.

(** The remainder of a negative dividend from its low bits. *)
Lemma rem_low n imm k :
  0 <= k -> Z.abs imm = 2 ^ k ->
  Z.rem n imm = if n mod 2 ^ k =? 0 then 0 else if n <? 0 then n mod 2 ^ k - 2 ^ k else n mod 2 ^ k.
Proof.
  intros Hk E. pose proof (pow2_pos k Hk). rewrite (rem_pow2 n imm k) by done.
  destruct (Z.eqb_spec (n mod 2 ^ k) 0) as [E0|E0].
  - rewrite E0. rewrite Z.mod_opp_l_z by lia. by destruct (n <? 0).
  - destruct (n <? 0); [|done]. rewrite Z.mod_opp_l_nz by lia. lia.
Qed.

(** The remainder from the multiple of the divisor below the adjusted dividend. *)
Lemma rem_masked n k imm :
  0 <= k -> imm <> 0 -> Z.abs imm = 2 ^ k ->
  n - Z.land (adjusted n k) (Z.lnot (Z.ones k)) = Z.rem n imm.
Proof.
  intros Hk Hnz E. rewrite Z.rem_eq by done. f_equal.
  rewrite <- Z.ldiff_land, Z.ldiff_ones_r, Z.shiftl_mul_pow2 by done.
  rewrite (adjusted_quot n imm k) by done. destruct (Z.ltb_spec imm 0); rewrite <- E; lia.
Qed.

Lemma lnot_ones k : Z.lnot (Z.ones k) = - 2 ^ k.
Proof. rewrite Z.ones_equiv. unfold Z.lnot. lia. Qed.
