(* ===== verification/DivArm64.v ===== *)
(** * Integer division and remainder on arm64

    The functions of compiler/optimizing/code_generator_arm64.cc that generate
    code for [HDiv] and [HRem] of type int and long.  A generator is a function
    to a list of instructions; the instructions have the semantics of the A64
    instruction set on a register file and the NZCV flags.

    What the generators take from the rest of the compiler is part of the
    instruction they compile: its input and output registers, and the results
    of [HasNonNegativeInputAt] and [HasNonNegativeOrMinIntInputAt], analyses of
    the graph that are not modelled; the theorems require their results to be
    true of the dividend. *)

From Stdlib Require Import ZArith Lia Bool List.
From stdpp Require Import base numbers list option.
From S2P Require Import Prelude BitUtils MachineWord DivMagic.

Local Open Scope Z_scope.
Local Open Scope art_scope.

Module Arm64.

(** ** Instructions *)

(** A W or X register. *)
Record Register := { code : nat; size : Z }.

Definition W (n : nat) : Register := {| code := n; size := 32 |}.
Definition X (n : nat) : Register := {| code := n; size := 64 |}.
Definition AsX (r : Register) : Register := X (code r).

Inductive Shift := LSL | LSR | ASR.

Inductive Operand :=
  | Imm (z : Z)
  | Reg (r : Register)
  | Shifted (r : Register) (s : Shift) (amount : Z).

Inductive Condition := lt | ge | mi.

Inductive instr :=
  | Mov (rd : Register) (imm : Z)
  | Add (rd rn : Register) (op : Operand)
  | Adds (rd rn : Register) (op : Operand)
  | Subs (rd rn : Register) (op : Operand)
  | Neg (rd : Register) (op : Operand)
  | Negs (rd : Register) (op : Operand)
  | Cmp (rn : Register) (op : Operand)
  | And (rd rn : Register) (op : Operand)
  | Smulh (rd rn rm : Register)
  | Smull (rd rn rm : Register)
  | Asr (rd rn : Register) (shift : Z)
  | Lsr (rd rn : Register) (shift : Z)
  | Cinc (rd rn : Register) (c : Condition)
  | Csel (rd rn rm : Register) (c : Condition)
  | Csneg (rd rn rm : Register) (c : Condition)
  | Msub (rd rn rm ra : Register)
  | Sdiv (rd rn rm : Register).

Record state := { xregs : regfile; nzcv : flags }.

Definition read (s : state) (r : Register) : Z := wrap (size r) (xregs s (code r)).

(** A write to a W register clears the upper half. *)
Definition write (r : Register) (v : Z) (s : state) : state :=
  {| xregs := upd (xregs s) (code r) (wrap (size r) v); nzcv := nzcv s |}.

Definition set_flags (f : flags) (s : state) : state := {| xregs := xregs s; nzcv := f |}.

Definition operand (w : Z) (s : state) (op : Operand) : Z :=
  match op with
  | Imm z => wrap w z
  | Reg r => read s r
  | Shifted r LSL k => lsl w (read s r) k
  | Shifted r LSR k => lsr w (read s r) k
  | Shifted r ASR k => asr w (read s r) k
  end.

Definition holds (s : state) (c : Condition) : bool :=
  match c with
  | lt => negb (eqb (flagN (nzcv s)) (flagV (nzcv s)))
  | ge => eqb (flagN (nzcv s)) (flagV (nzcv s))
  | mi => flagN (nzcv s)
  end.

Definition exec1 (i : instr) (s : state) : state :=
  match i with
  | Mov rd imm => write rd imm s
  | Add rd rn op => write rd (read s rn + operand (size rd) s op) s
  | Adds rd rn op =>
      let y := operand (size rd) s op in
      set_flags (add_flags (size rd) (read s rn) y 0) (write rd (read s rn + y) s)
  | Subs rd rn op =>
      let y := operand (size rd) s op in
      set_flags (sub_flags (size rd) (read s rn) y) (write rd (read s rn - y) s)
  | Neg rd op => write rd (- operand (size rd) s op) s
  | Negs rd op =>
      let y := operand (size rd) s op in
      set_flags (sub_flags (size rd) 0 y) (write rd (- y) s)
  | Cmp rn op => set_flags (sub_flags (size rn) (read s rn) (operand (size rn) s op)) s
  | And rd rn op => write rd (Z.land (read s rn) (operand (size rd) s op)) s
  | Smulh rd rn rm => write rd (smulhi 64 (read s rn) (read s rm)) s
  | Smull rd rn rm => write rd (s32 (read s rn) * s32 (read s rm)) s
  | Asr rd rn k => write rd (asr (size rd) (read s rn) k) s
  | Lsr rd rn k => write rd (lsr (size rd) (read s rn) k) s
  | Cinc rd rn c => write rd (if holds s c then read s rn + 1 else read s rn) s
  | Csel rd rn rm c => write rd (if holds s c then read s rn else read s rm) s
  | Csneg rd rn rm c => write rd (if holds s c then read s rn else - read s rm) s
  | Msub rd rn rm ra => write rd (read s ra - read s rn * read s rm) s
  | Sdiv rd rn rm =>
      let d := swrap (size rd) (read s rm) in
      write rd (if d =? 0 then 0 else Z.quot (swrap (size rd) (read s rn)) d) s
  end.

Definition exec (c : list instr) (s : state) : state := fold_left (fun s i => exec1 i s) c s.

(** ** The instruction that is compiled *)

Inductive InLocation := Constant (value : Z) | InRegister (r : nat).

(** An [HDiv] or [HRem] of type int ([is_long = false]) or long. *)
Record HBinaryOperation := {
  IsDiv : bool;
  is_long : bool;
  InAt0 : nat;
  InAt1 : InLocation;
  Out : nat;
  HasNonNegativeInput : bool;
  HasNonNegativeOrMinIntInput : bool
}.

Section generators.
Context (i : HBinaryOperation).

Definition result_size : Z := if is_long i then 64 else 32.
Definition OutputRegister : Register := {| code := Out i; size := result_size |}.
Definition InputRegister : Register := {| code := InAt0 i; size := result_size |}.

(** [UseScratchRegisterScope]: the scratch registers that are still available. *)
Definition AcquireSameSizeAs (temps : list nat) (r : Register) : option (Register * list nat) :=
  match temps with
  | [] => None
  | t :: rest => Some ({| code := t; size := size r |}, rest)
  end.

(** ** Power of two denominators *)

Definition GenerateIntDivForPower2Denom (imm : Z) (temps : list nat) : option (list instr) :=
  let abs_imm := u64 (AbsOrMin 64 imm) in
  DCHECK IsPowerOfTwo abs_imm;
  let out := OutputRegister in
  let dividend := InputRegister in
  '(c, final_dividend) ←
    (if HasNonNegativeOrMinIntInput i then Some ([], dividend)
     else if abs_imm =? 2 then
       let bits := result_size in
       Some ([Add out dividend (Shifted dividend LSR (bits - 1))], out)
     else
       '(temp, _) ← AcquireSameSizeAs temps out;
       Some ([Add temp dividend (Imm (abs_imm - 1));
              Cmp dividend (Imm 0);
              Csel out temp dividend lt], out));
  let ctz_imm := CTZ abs_imm in
  Some (c ++ if 0 <? imm then [Asr out final_dividend ctz_imm]
             else [Neg out (Shifted final_dividend ASR ctz_imm)]).

Definition GenerateIntRemForPower2Denom (imm : Z) (temps : list nat) : option (list instr) :=
  let abs_imm := u64 (AbsOrMin 64 imm) in
  DCHECK IsPowerOfTwo abs_imm;
  let out := OutputRegister in
  let dividend := InputRegister in
  if HasNonNegativeOrMinIntInput i then Some [And out dividend (Imm (abs_imm - 1))]
  else if abs_imm =? 2 then
    Some [Cmp dividend (Imm 0); And out dividend (Imm 1); Csneg out out out ge]
  else
    '(temp, _) ← AcquireSameSizeAs temps out;
    Some [Negs temp (Reg dividend);
          And out dividend (Imm (abs_imm - 1));
          And temp temp (Imm (abs_imm - 1));
          Csneg out out temp mi].

(** ** Any other denominator *)

Definition NeedToAddDividend (magic_number divisor : Z) : bool :=
  (0 <? divisor) && (magic_number <? 0).

Definition NeedToSubDividend (magic_number divisor : Z) : bool :=
  (divisor <? 0) && (0 <? magic_number).

Definition GenerateIncrementNegativeByOne (out in_ : Register) (use_cond_inc : bool) : list instr :=
  if use_cond_inc then [Cinc out in_ mi]
  else [Add out in_ (Shifted in_ LSR (size in_ - 1))].

Definition GenerateResultRemWithAnyConstant (out dividend quotient : Register) (divisor : Z)
    (temps : list nat) : option (list instr) :=
  '(temp_imm, _) ← AcquireSameSizeAs temps out;
  Some [Mov temp_imm divisor; Msub out quotient temp_imm dividend].

Definition generate_unsigned_div_code (magic shift : Z) (out dividend temp : Register) :
    option (list instr) :=
  if (0 <? magic) && (shift =? 0) then Some [Mov temp magic; Smulh out dividend temp]
  else
    DCHECK negb (shift =? 0);
    Some ([Mov temp magic; Smulh temp dividend temp] ++
          (if magic <? 0 then [Add temp temp (Reg dividend)] else []) ++
          [Lsr out temp shift]).

Definition GenerateInt64UnsignedDivRemWithAnyPositiveConstant (imm : Z) (temps : list nat) :
    option (list instr) :=
  let out := OutputRegister in
  let dividend := InputRegister in
  DCHECK 0 <? imm;
  '(magic, shift) ← CalculateMagicAndShiftForDivRem imm true;
  '(temp, temps) ← AcquireSameSizeAs temps out;
  if IsDiv i then generate_unsigned_div_code magic shift out dividend temp
  else
    c ← generate_unsigned_div_code magic shift temp dividend temp;
    r ← GenerateResultRemWithAnyConstant out dividend temp imm temps;
    Some (c ++ r).

Definition GenerateInt64DivRemWithAnyConstant (imm : Z) (temps : list nat) : option (list instr) :=
  let out := OutputRegister in
  let dividend := InputRegister in
  '(magic, shift) ← CalculateMagicAndShiftForDivRem imm true;
  '(temp, temps) ← AcquireSameSizeAs temps out;
  let '(correction, use_cond_inc) :=
    if NeedToAddDividend magic imm then ([Adds temp temp (Reg dividend)], true)
    else if NeedToSubDividend magic imm then ([Subs temp temp (Reg dividend)], true)
    else ([], false) in
  let c := [Mov temp magic; Smulh temp dividend temp] ++ correction ++
           (if negb (shift =? 0) then [Asr temp temp shift] else []) in
  if negb (IsDiv i) then
    r ← GenerateResultRemWithAnyConstant out dividend temp imm temps;
    Some (c ++ GenerateIncrementNegativeByOne temp temp use_cond_inc ++ r)
  else Some (c ++ GenerateIncrementNegativeByOne out temp use_cond_inc).

Definition GenerateInt32DivRemWithAnyConstant (imm : Z) (temps : list nat) : option (list instr) :=
  let out := OutputRegister in
  let dividend := InputRegister in
  '(magic, shift) ← CalculateMagicAndShiftForDivRem imm false;
  '(temp, temps) ← AcquireSameSizeAs temps out;
  let '(correction, use_cond_inc) :=
    if NeedToAddDividend magic imm
    then ([Adds (AsX temp) (AsX temp) (Shifted (AsX dividend) LSL 32)], true)
    else if NeedToSubDividend magic imm
    then ([Subs (AsX temp) (AsX temp) (Shifted (AsX dividend) LSL 32)], true)
    else ([], false) in
  let c := [Mov temp magic; Smull (AsX temp) dividend temp] ++ correction in
  DCHECK shift <? 32;
  if (0 <? imm) && HasNonNegativeInput i then
    if IsDiv i then Some (c ++ [Lsr (AsX out) (AsX temp) (32 + shift)])
    else
      r ← GenerateResultRemWithAnyConstant out dividend temp imm temps;
      Some (c ++ [Lsr (AsX temp) (AsX temp) (32 + shift)] ++ r)
  else
    let c := c ++ [Asr (AsX temp) (AsX temp) (32 + shift)] in
    if negb (IsDiv i) then
      r ← GenerateResultRemWithAnyConstant out dividend temp imm temps;
      Some (c ++ GenerateIncrementNegativeByOne temp temp use_cond_inc ++ r)
    else Some (c ++ GenerateIncrementNegativeByOne out temp use_cond_inc).

Definition GenerateDivRemWithAnyConstant (divisor : Z) (temps : list nat) : option (list instr) :=
  if is_long i then
    if (0 <? divisor) && HasNonNegativeInput i
    then GenerateInt64UnsignedDivRemWithAnyPositiveConstant divisor temps
    else GenerateInt64DivRemWithAnyConstant divisor temps
  else GenerateInt32DivRemWithAnyConstant divisor temps.

(** ** The visitors *)

Definition GenerateIntDivForConstDenom (imm : Z) (temps : list nat) : option (list instr) :=
  if imm =? 0 then Some [] (* the code is not reached *)
  else if IsPowerOfTwo_signed 64 (AbsOrMin 64 imm) then GenerateIntDivForPower2Denom imm temps
  else
    DCHECK (imm <? -2) || (2 <? imm);
    GenerateDivRemWithAnyConstant imm temps.

Definition GenerateIntDiv (temps : list nat) : option (list instr) :=
  match InAt1 i with
  | Constant imm => GenerateIntDivForConstDenom imm temps
  | InRegister r => Some [Sdiv OutputRegister InputRegister {| code := r; size := result_size |}]
  end.

Definition GenerateIntRemForConstDenom (imm : Z) (temps : list nat) : option (list instr) :=
  if imm =? 0 then Some [] (* the code is not reached *)
  else if IsPowerOfTwo_signed 64 (AbsOrMin 64 imm) then GenerateIntRemForPower2Denom imm temps
  else
    DCHECK (imm <? -2) || (2 <? imm);
    GenerateDivRemWithAnyConstant imm temps.

Definition GenerateIntRem (temps : list nat) : option (list instr) :=
  match InAt1 i with
  | Constant imm => GenerateIntRemForConstDenom imm temps
  | InRegister r =>
      let divisor := {| code := r; size := result_size |} in
      '(temp, _) ← AcquireSameSizeAs temps OutputRegister;
      Some [Sdiv temp InputRegister divisor; Msub OutputRegister temp divisor InputRegister]
  end.

(** [VisitDiv] and [VisitRem] for the integral types. *)
Definition Visit (temps : list nat) : option (list instr) :=
  if IsDiv i then GenerateIntDiv temps else GenerateIntRem temps.

End generators.

(** ** Execution *)

Lemma arm64_exec_app c1 c2 s : exec (c1 ++ c2) s = exec c2 (exec c1 s).
Proof. apply fold_left_app. Qed.

Lemma read_write r v s r' :
  read (write r v s) r' =
  if decide (code r' = code r) then wrap (size r') (wrap (size r) v) else read s r'.
Proof. unfold read, write, upd; simpl. by destruct (decide _). Qed.

Lemma read_set_flags f s r : read (set_flags f s) r = read s r.
Proof. done. Qed.

(** The register an instruction writes. *)
Definition dest (i : instr) : option nat :=
  match i with
  | Mov rd _ | Add rd _ _ | Adds rd _ _ | Subs rd _ _ | Neg rd _ | Negs rd _ | And rd _ _
  | Smulh rd _ _ | Smull rd _ _ | Asr rd _ _ | Lsr rd _ _ | Cinc rd _ _ | Csel rd _ _ _
  | Csneg rd _ _ _ | Msub rd _ _ _ | Sdiv rd _ _ => Some (code rd)
  | Cmp _ _ => None
  end.

Lemma exec_frame c s r :
  Forall (fun i => dest i <> Some r) c -> xregs (exec c s) r = xregs s r.
Proof.
  revert s. induction c as [|i c IH]; intros s Hc; [done|].
  apply Forall_cons_1 in Hc as [Hi Hc]. change (exec (i :: c) s) with (exec c (exec1 i s)).
  rewrite IH by done. destruct i; simpl in *; try done; apply upd_other; congruence.
Qed.

(** Runs the instructions and resolves the register accesses. *)
Ltac regs :=
  cbn [exec fold_left exec1 app operand holds nzcv set_flags write code size];
  repeat first
    [ rewrite read_set_flags
    | rewrite read_write; cbn [code size OutputRegister InputRegister AsX X W];
      first [rewrite decide_True by reflexivity | rewrite decide_False by lia] ];
  cbn [code size OutputRegister InputRegister AsX X W nzcv set_flags write].

(** ** Correctness *)

Section correct.
Context (i : HBinaryOperation) (s : state).

Local Abbreviation w := (result_size i).
Definition dividend : Z := swrap w (xregs s (InAt0 i)).
Local Abbreviation n := dividend.

Lemma arm64_size_cases : w = 32 \/ w = 64.
Proof. unfold result_size. destruct (is_long i); auto. Qed.

Lemma arm64_dividend_is_s : is_s w n.
Proof. apply swrap_is_s. destruct arm64_size_cases; lia. Qed.

Lemma read_dividend : read s (InputRegister i) = wrap w n.
Proof. unfold dividend, read; simpl. rewrite wrap_swrap; [done|]. destruct arm64_size_cases; lia. Qed.

Context (t1 t2 : nat) (rest : list nat).
Hypothesis Ht : t1 <> t2.
Hypothesis Ht1 : t1 <> InAt0 i /\ t1 <> Out i.
Hypothesis Ht2 : t2 <> InAt0 i /\ t2 <> Out i.

(** The code leaves [v] in the output register and changes no other register
    but the scratch registers. *)
Definition computes (c : list instr) (v : Z) : Prop :=
  read (exec c s) (OutputRegister i) = wrap w v /\
  forall r, r <> Out i -> r <> t1 -> r <> t2 -> xregs (exec c s) r = xregs s r.

Definition clobbers (k : instr) : Prop :=
  dest k = None \/ dest k = Some (Out i) \/ dest k = Some t1 \/ dest k = Some t2.

Lemma frame c :
  Forall clobbers c ->
  forall r, r <> Out i -> r <> t1 -> r <> t2 -> xregs (exec c s) r = xregs s r.
Proof.
  intros Hc r H1 H2 H3. apply exec_frame. revert Hc. apply Forall_impl. intros k Hk ?. destruct Hk as [Hk|[Hk|[Hk|Hk]]]; congruence.
Qed.

Ltac clob :=
  unfold GenerateIncrementNegativeByOne;
  repeat first
    [ assumption | apply Forall_nil_2
    | apply Forall_cons_2; [unfold clobbers; cbn [dest code OutputRegister]; tauto|]
    | apply Forall_app_2 | case_match ].

Ltac frame := apply frame; clob.

(** The output of the last instructions. *)
Lemma arm64_div_pow2_end k (imm v : Z) s' r :
  0 <= k -> imm <> 0 -> size r = w -> read s' r = wrap w v -> is_s w v ->
  read (exec (if 0 <? imm then [Asr (OutputRegister i) r k]
              else [Neg (OutputRegister i) (Shifted r ASR k)]) s') (OutputRegister i) =
  wrap w (if imm <? 0 then - Z.shiftr v k else Z.shiftr v k).
Proof.
  intros Hk Hnz Hr E Hv. pose proof arm64_size_cases as Hw.
  destruct (Z.ltb_spec 0 imm), (Z.ltb_spec imm 0); try lia; regs; rewrite E, asr_signed by (done || lia).
  - by autorewrite with word.
  - rewrite !wrap_opp, wrap_wrap by lia. done.
Qed.

Lemma GenerateIntDivForPower2Denom_correct imm :
  is_s w imm -> imm <> 0 -> IsPowerOfTwo_signed 64 (AbsOrMin 64 imm) = true ->
  (HasNonNegativeOrMinIntInput i = true -> 0 <= n \/ n = - 2 ^ (w - 1)) ->
  exists c, GenerateIntDivForPower2Denom i imm (t1 :: t2 :: rest) = Some c /\
    computes c (Z.quot n imm).
Proof.
  intros Himm Hnz Hp2 Hnn. pose proof arm64_size_cases as Hw. pose proof arm64_dividend_is_s as Hn.
  destruct (divisor_cases w 64 imm ltac:(lia) Himm Hnz) as [(_ & k & Hk & Ea & Eabs)|[? _]]; [|congruence].
  unfold GenerateIntDivForPower2Denom. rewrite Ea, IsPowerOfTwo_pow2, CTZ_pow2 by lia.
  cbn [dcheck mbind option_bind].
  set (v := if n <? 0 then n + (2 ^ k - 1) else n).
  assert (Hq : Z.quot n imm = if imm <? 0 then - Z.shiftr v k else Z.shiftr v k).
  { rewrite quot_abs, Eabs, quot_pow2 by lia. done. }
  rewrite Hq.
  assert (Hv : is_s w v).
  { unfold v, is_s in *. assert (2 ^ k <= 2 ^ (w - 1)) by (apply Z.pow_le_mono_r; lia).
    pose proof (pow2_pos k). destruct (Z.ltb_spec n 0); lia. }
  destruct (HasNonNegativeOrMinIntInput i).
  { eexists. split; [reflexivity|]. split; [|frame].
    replace (Z.shiftr v k) with (Z.shiftr n k).
    - apply arm64_div_pow2_end; [lia|done|done|apply read_dividend|done].
    - unfold v. destruct (Z.ltb_spec n 0); [|done]. destruct Hnn as [?| ->]; [done|lia|].
      rewrite !Z.shiftr_div_pow2 by lia.
      replace (w - 1) with (w - 1 - k + k) by lia. rewrite Z.pow_add_r by lia.
      rewrite <- Z.mul_opp_l, (Z.add_comm (_ * _)), Z.div_add, Z.div_mul by lia.
      rewrite (Z.div_small (2 ^ k - 1)); pose proof (pow2_pos k); lia. }
  destruct (Z.eqb_spec (2 ^ k) 2) as [E2|E2]; eexists; (split; [reflexivity|]);
    (split; [|frame]); cbn [mbind option_bind]; rewrite arm64_exec_app;
    (apply arm64_div_pow2_end; [lia|done|done| |done]); regs.
  - rewrite read_dividend, lsr_sign by (done || lia). rewrite !wrap_wrap, wrap_add_l by lia.
    f_equal. unfold v. rewrite E2. destruct (n <? 0); lia.
  - change (wrap w 0) with 0. rewrite read_dividend, cmp_zero_lt by (done || lia).
    unfold v. destruct (n <? 0); autorewrite with word; done.
Qed.

Lemma GenerateIntRemForPower2Denom_correct imm :
  is_s w imm -> imm <> 0 -> IsPowerOfTwo_signed 64 (AbsOrMin 64 imm) = true ->
  (HasNonNegativeOrMinIntInput i = true -> 0 <= n \/ n = - 2 ^ (w - 1)) ->
  exists c, GenerateIntRemForPower2Denom i imm (t1 :: t2 :: rest) = Some c /\
    computes c (Z.rem n imm).
Proof.
  intros Himm Hnz Hp2 Hnn. pose proof arm64_size_cases as Hw. pose proof arm64_dividend_is_s as Hn.
  destruct (divisor_cases w 64 imm ltac:(lia) Himm Hnz) as [(_ & k & Hk & Ea & Eabs)|[? _]]; [|congruence].
  unfold GenerateIntRemForPower2Denom. rewrite Ea, IsPowerOfTwo_pow2 by lia.
  cbn [dcheck mbind option_bind]. rewrite (rem_pow2 n imm k) by (done || lia).
  destruct (min_mod_pow2 w k Hk) as [Hm1 Hm2].
  destruct (HasNonNegativeOrMinIntInput i).
  { eexists. split; [reflexivity|]. split; [|frame]. regs.
    rewrite read_dividend, land_low, wrap_wrap by lia. f_equal.
    destruct (Z.ltb_spec n 0); [|done]. destruct Hnn as [?| ->]; [done|lia|].
    rewrite Z.opp_involutive. lia. }
  destruct (Z.eqb_spec (2 ^ k) 2) as [E2|E2]; eexists; (split; [reflexivity|]); (split; [|frame]); regs.
  - change (wrap w 0) with 0. rewrite read_dividend.
    rewrite <- (negb_involutive (eqb _ _)), cmp_zero_lt by (done || lia).
    change 1 with (2 ^ 1 - 1). rewrite land_low, E2 by lia. change (2 ^ 1) with 2.
    rewrite mod2_opp.
    destruct (n <? 0); simpl; autorewrite with word; done.
  - rewrite read_dividend, sub_flags_N by lia.
    rewrite (wrap_wrap w (- wrap w n)), !land_low by lia. autorewrite with word.
    replace ((- wrap w n) mod 2 ^ k) with ((- n) mod 2 ^ k).
    2:{ rewrite <- (wrap_mod k w (- wrap w n)), wrap_opp, wrap_mod by lia. done. }
    replace (swrap w (0 - wrap w n)) with (swrap w (- n))
      by (symmetry; apply swrap_congr; [lia|]; rewrite Z.sub_0_l; apply wrap_opp; lia).
    destruct (Z.eq_dec n (- 2 ^ (w - 1))) as [Emin|Hmin].
    { rewrite Emin, Z.opp_involutive, Hm1, Hm2.
      destruct (swrap w (2 ^ (w - 1)) <? 0), (- 2 ^ (w - 1) <? 0); done. }
    rewrite swrap_id by (unfold is_s in *; lia).
    destruct (Z.ltb_spec (- n) 0), (Z.ltb_spec n 0); try lia; autorewrite with word; try done.
    assert (n = 0) as -> by lia. pose proof (pow2_pos k ltac:(lia)).
    change (- 0) with 0. rewrite Z.mod_0_l by lia. reflexivity.
Qed.

(** ** The magic sequence *)

(** The last step: increment of a negative quotient. *)
Lemma increment_correct (out r : Register) use v s' :
  size out = w -> size r = w -> read s' r = wrap w v -> is_s w v ->
  (use = true -> flagN (nzcv s') = (v <? 0)) ->
  exec (GenerateIncrementNegativeByOne out r use) s' = write out (increment_negative v) s'.
Proof.
  intros Ho Hr E Hv Hf. pose proof arm64_size_cases as Hw. unfold GenerateIncrementNegativeByOne, increment_negative.
  assert (forall x y, wrap w x = wrap w y -> write out x s' = write out y s') as Hwr
    by (intros x y Exy; unfold write; by rewrite Ho, Exy).
  destruct use.
  - cbn [exec fold_left exec1 holds]. rewrite Hf by done. apply Hwr. rewrite E.
    destruct (v <? 0); autorewrite with word; done.
  - cbn [exec fold_left exec1 operand]. apply Hwr. rewrite E, Ho, Hr, lsr_sign by (done || lia).
    destruct (v <? 0); autorewrite with word; f_equal; lia.
Qed.

(** The remainder from the quotient. *)
Lemma rem_correct imm (q : Register) v s' c :
  size q = w -> code q = t1 -> read s' q = wrap w (Z.quot n imm) -> imm <> 0 ->
  read s' (InputRegister i) = wrap w n ->
  GenerateResultRemWithAnyConstant (OutputRegister i) (InputRegister i) q imm (t2 :: v) = Some c ->
  read (exec c s') (OutputRegister i) = wrap w (Z.rem n imm).
Proof.
  intros Hq Hc E Hnz En Ec. pose proof arm64_size_cases as Hw. injection Ec as <-.
  cbn [exec fold_left exec1]. rewrite !read_write. cbn [code size OutputRegister InputRegister].
  rewrite Hc. rewrite (decide_True (P := Out i = Out i)), (decide_True (P := t2 = t2)) by done.
  rewrite !decide_False by lia. rewrite E, En. autorewrite with word.
  by rewrite Z.rem_eq, (Z.mul_comm imm) by done.
Qed.

Lemma shift_correct h shift s' :
  let temp := {| code := t1; size := w |} in
  let s'' := exec (if negb (shift =? 0) then [Asr temp temp shift] else []) s' in
  read s' temp = wrap w h -> is_s w h -> 0 <= shift ->
  read s'' temp = wrap w (Z.shiftr h shift) /\ nzcv s'' = nzcv s' /\
  read s'' (InputRegister i) = read s' (InputRegister i).
Proof.
  intros temp s'' E Hh Hs. pose proof arm64_size_cases as Hw. subst s''.
  destruct (Z.eqb_spec shift 0) as [->|]; simpl negb; cbv iota.
  - by rewrite Z.shiftr_0_r.
  - subst temp. regs. rewrite E, asr_signed by (done || lia). autorewrite with word. done.
Qed.

Lemma magic64_high imm m shift :
  is_long i = true -> imm <> 0 -> magic_ok 64 imm m shift ->
  let magic := s64 (Z.sgn imm * m) in
  let temp := {| code := t1; size := w |} in
  let '(correction, use_cond_inc) :=
    if NeedToAddDividend magic imm then ([Adds temp temp (Reg (InputRegister i))], true)
    else if NeedToSubDividend magic imm then ([Subs temp temp (Reg (InputRegister i))], true)
    else ([], false) in
  let s' := exec ([Mov temp magic; Smulh temp (InputRegister i) temp] ++ correction ++
                  (if negb (shift =? 0) then [Asr temp temp shift] else [])) s in
  exists v, read s' temp = wrap w v /\ is_s w v /\ increment_negative v = Z.quot n imm /\
    (use_cond_inc = true -> flagN (nzcv s') = (v <? 0)) /\
    read s' (InputRegister i) = wrap w n.
Proof.
  intros Hlong Hnz Hok. pose proof arm64_dividend_is_s as Hn. pose proof read_dividend as En.
  assert (w = 64) as Ew by (unfold result_size; by rewrite Hlong).
  destruct Hok as [Hm Hs _ Hq]. rewrite Ew in *.
  destruct (corrected_high 64 imm m n ltac:(lia) Hnz Hm Hn) as [Hc Hcs].
  cbv zeta. set (magic := s64 (Z.sgn imm * m)) in *.
  assert (is_s 64 magic) as Hmg by (apply swrap_is_s; lia).
  set (h := Z.sgn imm * m * n / 2 ^ 64) in *.
  assert (Hfin : forall s' use, read s' {| code := t1; size := w |} = wrap w h ->
    (use = true -> flagN (nzcv s') = (h <? 0)) -> read s' (InputRegister i) = wrap w n ->
    let s'' := exec (if negb (shift =? 0) then
      [Asr {| code := t1; size := w |} {| code := t1; size := w |} shift] else []) s' in
    exists v, read s'' {| code := t1; size := w |} = wrap w v /\ is_s w v /\
      increment_negative v = Z.quot n imm /\ (use = true -> flagN (nzcv s'') = (v <? 0)) /\
      read s'' (InputRegister i) = wrap w n).
  { intros s' use H1 H2 H3 s''. exists (Z.shiftr h shift).
    destruct (shift_correct h shift s') as (R1 & R2 & R3); [done|by rewrite Ew|lia|].
    fold s'' in R1, R2, R3. rewrite R1, R2, R3, shiftr_neg by lia. rewrite Ew in *.
    repeat split; [apply is_s_shiftr; [lia|done]..| |done|done].
    unfold h. rewrite high_shift by lia. apply Hq. done. }
  rewrite Ew in *.
  unfold NeedToAddDividend, NeedToSubDividend.
  destruct ((0 <? imm) && (magic <? 0)); [|destruct ((imm <? 0) && (0 <? magic))];
    rewrite app_assoc, arm64_exec_app; apply Hfin; regs; try discriminate; rewrite ?Ew, En; try done;
    autorewrite with word; rewrite smulhi_signed, (Z.mul_comm n) by (done || lia).
  - autorewrite with word. by rewrite Hc.
  - intros _. rewrite add_flags_N by lia. f_equal. rewrite <- Hc.
    apply swrap_eq_wrap; [lia|by rewrite Hc|]. by autorewrite with word.
  - autorewrite with word. by rewrite Hc.
  - intros _. rewrite sub_flags_N by lia. f_equal. rewrite <- Hc.
    apply swrap_eq_wrap; [lia|by rewrite Hc|]. by autorewrite with word.
  - autorewrite with word. by rewrite Hc.
Qed.

(** What is computed: the quotient or the remainder. *)
Definition result (imm : Z) : Z := if IsDiv i then Z.quot n imm else Z.rem n imm.

(** From a corrected quotient to the result. *)
Lemma finish_correct imm use s' v c :
  imm <> 0 -> read s' {| code := t1; size := w |} = wrap w v -> is_s w v ->
  increment_negative v = Z.quot n imm -> (use = true -> flagN (nzcv s') = (v <? 0)) ->
  read s' (InputRegister i) = wrap w n ->
  (if negb (IsDiv i) then
     r ← GenerateResultRemWithAnyConstant (OutputRegister i) (InputRegister i)
           {| code := t1; size := w |} imm (t2 :: rest);
     Some (GenerateIncrementNegativeByOne {| code := t1; size := w |} {| code := t1; size := w |} use ++ r)
   else Some (GenerateIncrementNegativeByOne (OutputRegister i) {| code := t1; size := w |} use)) = Some c ->
  read (exec c s') (OutputRegister i) = wrap w (result imm).
Proof.
  intros Hnz E Hv Hq Hf En Ec. pose proof arm64_size_cases as Hw. unfold result.
  destruct (IsDiv i); simpl in Ec; injection Ec as <-.
  - rewrite (increment_correct _ _ _ v) by (done || lia). regs. rewrite Hq. autorewrite with word. done.
  - rewrite arm64_exec_app, (increment_correct _ _ _ v) by (done || lia).
    apply (rem_correct imm {| code := t1; size := w |} rest); try done; regs; [|done].
    rewrite Hq. autorewrite with word. done.
Qed.

Lemma GenerateInt64DivRemWithAnyConstant_correct imm :
  is_long i = true -> is_s 64 imm -> imm <> 0 -> IsPowerOfTwo_signed 64 (AbsOrMin 64 imm) = false ->
  exists c, GenerateInt64DivRemWithAnyConstant i imm (t1 :: t2 :: rest) = Some c /\
    computes c (result imm).
Proof.
  intros Hlong Himm Hnz Hp2.
  destruct (divisor_cases 64 64 imm ltac:(lia) Himm Hnz) as [[? _]|(_ & H3 & Hnp)]; [congruence|].
  destruct (Calculate_ok 64 imm (or_intror eq_refl) Himm H3 Hnp) as (m & shift & E & Hok).
  change (64 =? 64) with true in E.
  unfold GenerateInt64DivRemWithAnyConstant. rewrite E. cbn [mbind option_bind AcquireSameSizeAs].
  change (size (OutputRegister i)) with w.
  pose proof (magic64_high imm m shift Hlong Hnz Hok) as Hh. cbv zeta in Hh |- *.
  set (c1 := if NeedToAddDividend _ _ then _ else _) in *. destruct c1 as [correction use] eqn:Ec1.
  destruct Hh as (v & H1 & H2 & H4 & H5 & H6).
  assert (Hcorr : Forall clobbers correction).
  { unfold c1 in Ec1. repeat case_match; injection Ec1 as <- <-; clob. }
  destruct (IsDiv i) eqn:Ediv; cbn [negb mbind option_bind];
    eexists; (split; [reflexivity|]); (split; [rewrite arm64_exec_app; eapply finish_correct; eauto;
      rewrite Ediv; reflexivity|frame]).
Qed.

Lemma unsigned64_correct imm m shift (out : Register) :
  is_long i = true -> 0 < imm -> 0 <= n -> magic_ok 64 imm m shift ->
  size out = w -> code out = t1 \/ code out = Out i ->
  exists c, generate_unsigned_div_code (s64 (Z.sgn imm * m)) shift out (InputRegister i)
      {| code := t1; size := w |} = Some c /\
    read (exec c s) out = wrap w (Z.quot n imm) /\
    (code out = t1 -> read (exec c s) (InputRegister i) = wrap w n) /\ Forall clobbers c.
Proof.
  intros Hlong Hpos Hn0 Hok Hsz Hcode. pose proof arm64_dividend_is_s as Hn. pose proof read_dividend as En.
  assert (w = 64) as Ew by (unfold result_size; by rewrite Hlong).
  rewrite Ew in *. pose proof (magic_sign 64 imm m shift ltac:(lia) Hpos Hok) as Hsign.
  destruct (magic_nonneg 64 imm m shift n ltac:(lia) Hpos Hok Hn Hn0) as [Hh Hq].
  destruct Hok as [Hm Hs _ _].
  destruct (corrected_high 64 imm m n ltac:(lia) ltac:(lia) Hm Hn) as [Hc Hcs].
  set (magic := s64 (Z.sgn imm * m)) in *. set (h := Z.sgn imm * m * n / 2 ^ 64) in *.
  assert (is_s 64 magic) as Hmg by (apply swrap_is_s; lia).
  rewrite (proj2 (Z.ltb_lt 0 imm)), (proj2 (Z.ltb_ge imm 0)) in Hc by lia. simpl andb in Hc.
  destruct out as [o sz]. cbn [code size] in Hsz, Hcode. subst sz.
  cbn [code].
  assert (Hread : smulhi 64 (u64 n) (u64 magic) = u64 (magic * n / 2 ^ 64))
    by (rewrite smulhi_signed, Z.mul_comm by (done || lia); done).
  assert (Hl : lsr 64 (u64 h) shift = Z.quot n imm) by (rewrite lsr_nonneg by (done || lia); done).
  unfold generate_unsigned_div_code.
  destruct (Z.ltb_spec 0 magic) as [Hgt|Hle], (Z.eqb_spec shift 0) as [Es|Es]; cbn [andb negb dcheck mbind option_bind];
    [|destruct (Z.ltb_spec magic 0); [lia|]|lia|destruct (Z.ltb_spec magic 0)];
    eexists; (split; [reflexivity|]); (split; [|split; [intros ->|destruct Hcode as [-> | ->]; clob]]).
  all: cbn [app]; regs; rewrite ?Ew, ?En; try done; autorewrite with word; rewrite ?Hread; autorewrite with word.
  1: rewrite (proj2 (Z.ltb_ge magic 0)) in Hc by lia; by rewrite Hc, <- Hq, Es, Z.shiftr_0_r.
  all: rewrite Hc, Hl; done.
Qed.

Lemma GenerateInt64UnsignedDivRem_correct imm :
  is_long i = true -> is_s 64 imm -> 0 < imm -> 0 <= n ->
  IsPowerOfTwo_signed 64 (AbsOrMin 64 imm) = false ->
  exists c, GenerateInt64UnsignedDivRemWithAnyPositiveConstant i imm (t1 :: t2 :: rest) = Some c /\
    computes c (result imm).
Proof.
  intros Hlong Himm Hpos Hn0 Hp2.
  destruct (divisor_cases 64 64 imm ltac:(lia) Himm ltac:(lia)) as [[? _]|(_ & H3 & Hnp)]; [congruence|].
  destruct (Calculate_ok 64 imm (or_intror eq_refl) Himm H3 Hnp) as (m & shift & E & Hok).
  change (64 =? 64) with true in E.
  unfold GenerateInt64UnsignedDivRemWithAnyPositiveConstant. rewrite (proj2 (Z.ltb_lt 0 imm)), E by done.
  cbn [dcheck mbind option_bind AcquireSameSizeAs]. change (size (OutputRegister i)) with w.
  unfold result. destruct (IsDiv i).
  - destruct (unsigned64_correct imm m shift (OutputRegister i)) as (c & Ec & Hr & _ & Hcl); auto.
    exists c. split; [done|]. split; [done|]. by apply frame.
  - destruct (unsigned64_correct imm m shift {| code := t1; size := w |}) as (c & Ec & Hr & Hi & Hcl); auto.
    rewrite Ec. cbn [mbind option_bind]. eexists. split; [reflexivity|]. split; [|frame].
    rewrite arm64_exec_app. apply (rem_correct imm {| code := t1; size := w |} rest); auto with lia.
Qed.

Lemma magic32_product imm m shift :
  is_long i = false -> imm <> 0 -> magic_ok 32 imm m shift ->
  let magic := s32 (Z.sgn imm * m) in
  let temp := {| code := t1; size := w |} in
  let '(correction, use_cond_inc) :=
    if NeedToAddDividend magic imm
    then ([Adds (AsX temp) (AsX temp) (Shifted (AsX (InputRegister i)) LSL 32)], true)
    else if NeedToSubDividend magic imm
    then ([Subs (AsX temp) (AsX temp) (Shifted (AsX (InputRegister i)) LSL 32)], true)
    else ([], false) in
  let s' := exec ([Mov temp magic; Smull (AsX temp) (InputRegister i) temp] ++ correction) s in
  read s' (X t1) = u64 (Z.sgn imm * m * n) /\
  (use_cond_inc = true -> flagN (nzcv s') = (Z.sgn imm * m * n <? 0)) /\
  read s' (InputRegister i) = wrap w n.
Proof.
  intros Hlong Hnz [Hm Hs _ _]. pose proof arm64_dividend_is_s as Hn. pose proof read_dividend as En.
  assert (w = 32) as Ew by (unfold result_size; by rewrite Hlong).
  assert (Hx : lsl 64 (u64 (xregs s (InAt0 i))) 32 = u64 (n * 2 ^ 32))
    by (unfold dividend; rewrite Ew; apply (lsl_high 32); lia).
  rewrite Ew in *.
  destruct (corrected_product 32 imm m n ltac:(lia) Hnz Hm Hn) as [Hc Hb].
  cbv zeta. set (magic := s32 (Z.sgn imm * m)) in *.
  assert (is_s 32 magic) as Hmg by (apply swrap_is_s; lia).
  assert (Hp : is_s 64 (Z.sgn imm * m * n)) by (unfold is_s; lia).
  unfold NeedToAddDividend, NeedToSubDividend.
  destruct ((0 <? imm) && (magic <? 0)); [|destruct ((imm <? 0) && (0 <? magic))];
    (split; [|split; [intros Huse; try discriminate Huse|]]); regs; rewrite ?Ew;
    change (read s (AsX (InputRegister i))) with (u64 (xregs s (InAt0 i))); rewrite ?Hx, En; try done;
    autorewrite with word; rewrite (swrap_id 32 n), (swrap_id 32 magic), (Z.mul_comm n magic) by (done || lia).
  all: try (autorewrite with word; by rewrite Hc).
  - rewrite add_flags_N by lia. f_equal. apply swrap_eq_wrap; [lia|done|].
    autorewrite with word. by rewrite Hc.
  - rewrite sub_flags_N by lia. f_equal. apply swrap_eq_wrap; [lia|done|].
    autorewrite with word. by rewrite Hc.
Qed.

Lemma GenerateInt32DivRemWithAnyConstant_correct imm :
  is_long i = false -> is_s 32 imm -> imm <> 0 -> IsPowerOfTwo_signed 64 (AbsOrMin 64 imm) = false ->
  (HasNonNegativeInput i = true -> 0 <= n) ->
  exists c, GenerateInt32DivRemWithAnyConstant i imm (t1 :: t2 :: rest) = Some c /\
    computes c (result imm).
Proof.
  intros Hlong Himm Hnz Hp2 Hnn.
  destruct (divisor_cases 32 64 imm ltac:(lia) Himm Hnz) as [[? _]|(_ & H3 & Hnp)]; [congruence|].
  destruct (Calculate_ok 32 imm (or_introl eq_refl) Himm H3 Hnp) as (m & shift & E & Hok).
  change (32 =? 64) with false in E.
  unfold GenerateInt32DivRemWithAnyConstant. rewrite E. cbn [mbind option_bind AcquireSameSizeAs].
  change (size (OutputRegister i)) with w.
  pose proof (magic32_product imm m shift Hlong Hnz Hok) as Hh. cbv zeta in Hh |- *.
  set (c1 := if NeedToAddDividend _ _ then _ else _) in *. destruct c1 as [correction use] eqn:Ec1.
  destruct Hh as (H1 & H5 & H6).
  assert (Hcorr : Forall clobbers correction).
  { unfold c1 in Ec1. repeat case_match; injection Ec1 as <- <-; clob. }
  assert (Ew : w = 32) by (unfold result_size; by rewrite Hlong).
  pose proof arm64_dividend_is_s as Hn. rewrite Ew in Hn.
  destruct (corrected_product 32 imm m n ltac:(lia) Hnz (magic_range _ _ _ _ Hok) Hn) as [_ Hb].
  destruct (corrected_high 32 imm m n ltac:(lia) Hnz (magic_range _ _ _ _ Hok) Hn) as [_ Hcs].
  pose proof (shift_range _ _ _ _ Hok) as Hs. pose proof (magic_quot _ _ _ _ Hok n Hn) as Hq.
  rewrite <- high_shift in Hq by lia. apply (is_s_shiftr 32 _ shift ltac:(lia)) in Hcs.
  assert (Hv : Z.shiftr (Z.sgn imm * m * n / 2 ^ 32) shift = Z.shiftr (Z.sgn imm * m * n) (32 + shift))
    by (rewrite high_shift, Z.shiftr_div_pow2 by lia; done).
  set (pre := [Mov _ _; Smull _ _ _] ++ correction) in *.
  assert (Hpre : Forall clobbers pre) by (unfold pre; clob).
  rewrite (proj2 (Z.ltb_lt shift 32)) by lia. cbn [dcheck mbind option_bind].
  destruct ((0 <? imm) && HasNonNegativeInput i) eqn:Enn.
  - apply andb_true_iff in Enn as [Hpos Hnonneg]. apply Z.ltb_lt in Hpos.
    destruct (magic_nonneg 32 imm m shift n ltac:(lia) Hpos Hok Hn ltac:(auto)) as [Hh Hq'].
    assert (Hl : lsr 64 (u64 (Z.sgn imm * m * n)) (32 + shift) = Z.quot n imm).
    { rewrite lsr_nonneg by (unfold is_s; (rewrite Z.sgn_pos by done; pose proof (magic_range _ _ _ _ Hok);
        pose proof (Hnn Hnonneg); nia) || lia). by rewrite <- Hv. }
    unfold result. destruct (IsDiv i); cbn [mbind option_bind GenerateResultRemWithAnyConstant AcquireSameSizeAs];
      eexists; (split; [reflexivity|]); (split; [|frame]); rewrite !arm64_exec_app.
    + regs. rewrite Ew in *. change (AsX _) with (X t1).
      rewrite H1, Hl. by rewrite wrap_wrap_le by lia.
    + apply (rem_correct imm {| code := t1; size := w |} rest); try done; regs; [|done].
      rewrite Ew in *. change (AsX _) with (X t1). rewrite H1, Hl. by rewrite wrap_wrap_le by lia.
  - destruct (IsDiv i) eqn:Ediv; cbn [negb mbind option_bind GenerateResultRemWithAnyConstant AcquireSameSizeAs];
      eexists; (split; [reflexivity|]); (split; [|frame]); rewrite arm64_exec_app;
      (eapply (finish_correct imm use _ (Z.shiftr (Z.sgn imm * m * n) (32 + shift)));
       [done| |by rewrite Ew, <- Hv|by rewrite <- Hv| | |rewrite Ediv; reflexivity]);
      rewrite arm64_exec_app; regs; try done; change (AsX _) with (X t1); rewrite ?Ew, ?H1, ?asr_signed by (done || lia || unfold is_s; lia);
      first [by rewrite !wrap_wrap_le by lia | rewrite shiftr_neg by lia; exact H5].
Qed.

(** Every path of the visitors, for a divisor in a constant or in a register. *)
Lemma Visit_computes d :
  match InAt1 i with
  | Constant imm => d = imm /\ is_s w imm
  | InRegister r => d = swrap w (xregs s r) /\ r <> t1
  end ->
  d <> 0 ->
  (HasNonNegativeInput i = true -> 0 <= n) ->
  (HasNonNegativeOrMinIntInput i = true -> 0 <= n \/ n = - 2 ^ (w - 1)) ->
  exists c, Visit i (t1 :: t2 :: rest) = Some c /\ computes c (result d).
Proof.
  intros Hd Hnz Hnn Hnm. pose proof arm64_size_cases as Hw. pose proof arm64_dividend_is_s as Hn.
  unfold Visit, GenerateIntDiv, GenerateIntRem.
  destruct (InAt1 i) as [imm|r]; destruct Hd as [-> Hd].
  - assert (Hany : IsPowerOfTwo_signed 64 (AbsOrMin 64 imm) = false ->
      exists c, (DCHECK (imm <? -2) || (2 <? imm); GenerateDivRemWithAnyConstant i imm (t1 :: t2 :: rest))
        = Some c /\ computes c (result imm)).
    { intros Hp2.
      destruct (divisor_cases w 64 imm ltac:(lia) Hd Hnz) as [[? _]|(_ & H3 & _)]; [congruence|].
      replace ((imm <? -2) || (2 <? imm)) with true by (zcases; done). cbn [dcheck mbind option_bind].
      unfold GenerateDivRemWithAnyConstant. unfold result_size in Hd. destruct (is_long i) eqn:Hl.
      - destruct ((0 <? imm) && HasNonNegativeInput i) eqn:Enn.
        + apply andb_true_iff in Enn as [Hpos ?]. apply Z.ltb_lt in Hpos.
          apply GenerateInt64UnsignedDivRem_correct; auto.
        + by apply GenerateInt64DivRemWithAnyConstant_correct.
      - by apply GenerateInt32DivRemWithAnyConstant_correct. }
    unfold GenerateIntDivForConstDenom, GenerateIntRemForConstDenom.
    rewrite (proj2 (Z.eqb_neq imm 0)) by done. unfold result in *.
    destruct (IsPowerOfTwo_signed 64 (AbsOrMin 64 imm)) eqn:Hp2; destruct (IsDiv i); auto.
    + by apply GenerateIntDivForPower2Denom_correct.
    + by apply GenerateIntRemForPower2Denom_correct.
  - pose proof read_dividend as En. cbn [AcquireSameSizeAs mbind option_bind].
    unfold result. destruct (IsDiv i); eexists; (split; [reflexivity|]); (split; [|frame]); regs;
      rewrite En; unfold read; cbn [code size]; rewrite !swrap_wrap, (swrap_id w n) by (done || lia);
      rewrite (proj2 (Z.eqb_neq _ 0)) by done; autorewrite with word; [done|].
    rewrite Z.rem_eq, (Z.mul_comm (swrap _ _)) by done.
    by rewrite <- (wrap_msub_r w n _ (swrap _ _)), wrap_swrap, wrap_msub_r by lia.
Qed.

End correct.

(** C9: on arm64 the code generated for an int or long division or remainder,
    by a constant or a register, leaves the Java quotient or remainder in the
    output register, for every dividend and every non-zero divisor, also when
    the output shares the register of the dividend; it changes no other
    register but two scratch registers, and code generation succeeds. *)
Theorem arm64_div_rem_correct i s t1 t2 rest d :
  t1 <> t2 -> t1 <> InAt0 i /\ t1 <> Out i -> t2 <> InAt0 i /\ t2 <> Out i ->
  match InAt1 i with
  | Constant imm => d = imm /\ is_s (result_size i) imm
  | InRegister r => d = swrap (result_size i) (xregs s r) /\ r <> t1
  end ->
  d <> 0 ->
  (HasNonNegativeInput i = true -> 0 <= dividend i s) ->
  (HasNonNegativeOrMinIntInput i = true ->
     0 <= dividend i s \/ dividend i s = - 2 ^ (result_size i - 1)) ->
  exists c, Visit i (t1 :: t2 :: rest) = Some c /\
    swrap (result_size i) (xregs (exec c s) (Out i)) =
      (if IsDiv i then java_div (result_size i) (dividend i s) d
       else java_rem (result_size i) (dividend i s) d) /\
    forall r, r <> Out i -> r <> t1 -> r <> t2 -> xregs (exec c s) r = xregs s r.
Proof.
  intros Ht Ht1 Ht2 Hd Hnz Hnn Hnm. pose proof (arm64_size_cases i) as Hw.
  destruct (Visit_computes i s t1 t2 rest Ht Ht1 Ht2 d Hd Hnz Hnn Hnm) as (c & E & R & F).
  exists c. split; [done|]. split; [|done].
  unfold read in R. cbn [code size OutputRegister] in R.
  rewrite <- swrap_wrap, R, swrap_wrap by lia. unfold result, java_div, java_rem.
  destruct (IsDiv i); [done|]. apply swrap_id; [lia|]. apply rem_is_s; [apply arm64_dividend_is_s|done].
Qed.

Lemma arm64_div_rem_correct_witness :
  let i := {| IsDiv := true; is_long := false; InAt0 := 0; InAt1 := Constant (-7); Out := 0;
              HasNonNegativeInput := false; HasNonNegativeOrMinIntInput := false |} in
  let s := {| xregs := fun _ => 0xfffffff1; nzcv := add_flags 32 0 0 0 |} in
  exists c, Visit i [16%nat; 17%nat] = Some c /\ s32 (xregs (exec c s) 0%nat) = 2.
Proof.
  intros i s.
  destruct (arm64_div_rem_correct i s 16 17 [] (-7)) as (c & E & R & _).
  - done.
  - done.
  - done.
  - split; [done|]. vm_compute. split; [discriminate|reflexivity].
  - done.
  - done.
  - done.
  - exists c. split; [exact E|]. exact R.
Defined.

End Arm64.
