(* ===== verification/X86Machine.v ===== *)
(** * The x86 machine and the shapes of division code

    The instructions that the x86 and x86-64 code generators emit for [HDiv] and
    [HRem], as a list with labels, and a machine with the semantics of the
    instruction set that runs them at 32 and at 64 bits.  The two code
    generators emit code of the same shapes: the code for a divisor in a
    register with its slow path, and the multiplication by a magic number; the
    lemmas here say what these compute. *)

From Stdlib Require Import ZArith Lia Bool List.
From stdpp Require Import base numbers list option.
From S2P Require Import Prelude BitUtils MachineWord DivMagic.

Local Open Scope Z_scope.
Local Open Scope art_scope.

Module X86Machine.

(** ** Instructions

    Instructions that exist for 32-bit and 64-bit operands take the operand
    size; a 32-bit result clears the upper half of its register. *)

Abbreviation Register := nat (only parsing).
Definition RAX : Register := 0%nat.
Definition RDX : Register := 2%nat.

Abbreviation Label := nat (only parsing).

Inductive Condition := kEqual | kLess | kGreaterEqual.
Abbreviation kZero := kEqual.

Inductive instr :=
  | mov (w : Z) (dst src : Register)
  | movi (w : Z) (dst : Register) (imm : Z)
  | neg (w : Z) (reg : Register)
  | xor_ (w : Z) (dst src : Register)
  | or_ (w : Z) (dst src : Register)
  | and_ (w : Z) (dst src : Register)
  | andi (w : Z) (dst : Register) (imm : Z)
  | add (w : Z) (dst src : Register)
  | sub (w : Z) (dst src : Register)
  | lea (w : Z) (dst base : Register) (disp : Z)
  | test (w : Z) (reg1 reg2 : Register)
  | cmpi (w : Z) (reg : Register) (imm : Z)
  | cmov (w : Z) (c : Condition) (dst src : Register)
  | sar (w : Z) (reg : Register) (imm : Z)
  | shr (w : Z) (reg : Register) (imm : Z)
  | shl (w : Z) (reg : Register) (imm : Z)
  | imul (w : Z) (reg : Register)
  | imuli (w : Z) (reg : Register) (imm : Z)
  | cdq
  | cqo
  | idiv (w : Z) (reg : Register)
  | j (c : Condition) (l : Label)
  | jmp (l : Label)
  | Bind (l : Label)
  | leave. (* the code of the next instruction *)

(** The flags ZF, SF and OF; [None] after an instruction that leaves one of
    them undefined. *)
Record state := { regs : regfile; flags : option (bool * bool * bool) }.

Definition read (w : Z) (s : state) (r : Register) : Z := wrap w (regs s r).
Definition reads (w : Z) (s : state) (r : Register) : Z := swrap w (regs s r).

Definition write (w : Z) (r : Register) (v : Z) (s : state) : state :=
  {| regs := upd (regs s) r (wrap w v); flags := flags s |}.

Definition set_flags (f : option (bool * bool * bool)) (s : state) : state :=
  {| regs := regs s; flags := f |}.

(** The flags of a result: of a logical operation and of an exact signed value. *)
Definition logic_flags (w v : Z) : option (bool * bool * bool) :=
  Some (wrap w v =? 0, swrap w v <? 0, false).
Definition arith_flags (w v : Z) : option (bool * bool * bool) :=
  Some (wrap w v =? 0, swrap w v <? 0, negb (swrap w v =? v)).

Definition holds (s : state) (c : Condition) : option bool :=
  '(zf, sf, ovf) ← flags s;
  Some (match c with
        | kEqual => zf
        | kLess => negb (eqb sf ovf)
        | kGreaterEqual => eqb sf ovf
        end).

(** One instruction other than a jump; [None] is a fault. *)
Definition exec1 (i : instr) (s : state) : option state :=
  match i with
  | mov w dst src => Some (write w dst (read w s src) s)
  | movi w dst imm => Some (write w dst imm s)
  | neg w r => Some (set_flags (arith_flags w (- reads w s r)) (write w r (- reads w s r) s))
  | xor_ w dst src =>
      let v := Z.lxor (read w s dst) (read w s src) in
      Some (set_flags (logic_flags w v) (write w dst v s))
  | or_ w dst src =>
      let v := Z.lor (read w s dst) (read w s src) in
      Some (set_flags (logic_flags w v) (write w dst v s))
  | and_ w dst src =>
      let v := Z.land (read w s dst) (read w s src) in
      Some (set_flags (logic_flags w v) (write w dst v s))
  | andi w dst imm =>
      let v := Z.land (read w s dst) (wrap w imm) in
      Some (set_flags (logic_flags w v) (write w dst v s))
  | add w dst src =>
      let v := reads w s dst + reads w s src in
      Some (set_flags (arith_flags w v) (write w dst v s))
  | sub w dst src =>
      let v := reads w s dst - reads w s src in
      Some (set_flags (arith_flags w v) (write w dst v s))
  | lea w dst base disp => Some (write w dst (regs s base + disp) s)
  | test w r1 r2 => Some (set_flags (logic_flags w (Z.land (read w s r1) (read w s r2))) s)
  | cmpi w r imm => Some (set_flags (arith_flags w (reads w s r - swrap w imm)) s)
  | cmov w c dst src => b ← holds s c; Some (write w dst (if (b : bool) then read w s src else read w s dst) s)
  | sar w r imm => Some (set_flags None (write w r (asr w (regs s r) imm) s))
  | shr w r imm => Some (set_flags None (write w r (lsr w (regs s r) imm) s))
  | shl w r imm => Some (set_flags None (write w r (lsl w (regs s r) imm) s))
  | imul w r =>
      let p := reads w s RAX * reads w s r in
      Some (set_flags None (write w RDX (Z.shiftr p w) (write w RAX p s)))
  | imuli w r imm => Some (set_flags None (write w r (reads w s r * imm) s))
  | cdq => Some (write 32 RDX (Z.shiftr (reads 32 s RAX) 31) s)
  | cqo => Some (write 64 RDX (Z.shiftr (reads 64 s RAX) 63) s)
  | idiv w r =>
      let n := reads w s RDX * 2 ^ w + read w s RAX in
      let d := reads w s r in
      if (d =? 0) || negb (bool_decide (is_s w (Z.quot n d))) then None
      else Some (set_flags None (write w RDX (Z.rem n d) (write w RAX (Z.quot n d) s)))
  | j _ _ | jmp _ | Bind _ | leave => None
  end.

(** The code after a label. *)
Fixpoint find_label (l : Label) (prog : list instr) : option (list instr) :=
  match prog with
  | [] => None
  | Bind l' :: rest => if decide (l = l') then Some rest else find_label l rest
  | _ :: rest => find_label l rest
  end.

(** Runs the code [cur] of the program [prog] up to [leave]. *)
Fixpoint run (fuel : nat) (prog cur : list instr) (s : state) : option state :=
  match fuel with
  | O => None
  | S fuel =>
      match cur with
      | [] => None
      | leave :: _ => Some s
      | Bind _ :: rest => run fuel prog rest s
      | j c l :: rest =>
          b ← holds s c;
          if (b : bool) then target ← find_label l prog; run fuel prog target s
          else run fuel prog rest s
      | jmp l :: _ => target ← find_label l prog; run fuel prog target s
      | i :: rest => s' ← exec1 i s; run fuel prog rest s'
      end
  end.

(** The generated code with the slow paths after it. *)
Definition program (main slow : list instr) : list instr := main ++ [leave] ++ slow.

(** ** The instruction that is compiled *)

Inductive InLocation := Constant (value : Z) | InRegister (r : Register).

(** An [HDiv] or [HRem] of type int ([is_long = false]) or long, with the
    register the allocator chose for the unconstrained temporary. *)
Record HBinaryOperation := {
  IsDiv : bool;
  is_long : bool;
  InAt1 : InLocation;
  free_temp : Register
}.

(** The locations that [LocationsBuilder::VisitDiv] and [VisitRem] request:
    the output and the temporaries. *)
Record Locations := { Out : Register; temps : list Register }.

Definition VisitDivRem_locations (i : HBinaryOperation) : Locations :=
  let constant := match InAt1 i with Constant _ => true | _ => false end in
  if IsDiv i then {| Out := RAX; temps := RDX :: if constant then [free_temp i] else [] |}
  else {| Out := RDX; temps := if constant then [free_temp i] else [] |}.

Definition GetTemp (i : HBinaryOperation) (k : nat) : option Register :=
  temps (VisitDivRem_locations i) !! k.

(** ** Execution of straight-line code *)

Fixpoint execs (c : list instr) (s : state) : option state :=
  match c with
  | [] => Some s
  | i :: c => s' ← exec1 i s; execs c s'
  end.

Lemma execs_app c1 c2 s : execs (c1 ++ c2) s = s' ← execs c1 s; execs c2 s'.
Proof.
  revert s. induction c1 as [|i c1 IH]; intros s; simpl; [done|].
  destruct (exec1 i s); simpl; [apply IH|done].
Qed.

Lemma execs_step i c s s' : exec1 i s = Some s' -> execs (i :: c) s = execs c s'.
Proof. intros E. simpl. by rewrite E. Qed.

Lemma exec1_cmov w c dst src s b :
  holds s c = Some b ->
  exec1 (cmov w c dst src) s = Some (write w dst (if b then read w s src else read w s dst) s).
Proof. intros E. simpl. by rewrite E. Qed.

Lemma run_execs c s s' fuel prog rest :
  execs c s = Some s' -> (length c <= fuel)%nat ->
  run fuel prog (c ++ rest) s = run (fuel - length c) prog rest s'.
Proof.
  revert s fuel. induction c as [|i c IH]; intros s fuel E Hf; simpl in *.
  - injection E as ->. by rewrite Nat.sub_0_r.
  - destruct fuel as [|fuel]; [lia|]. destruct (exec1 i s) as [s1|] eqn:E1; [|done].
    simpl in E. change (S fuel - S (length c))%nat with (fuel - length c)%nat.
    rewrite <- (IH s1 fuel) by (done || lia).
    destruct i; try discriminate E1; cbn [app run]; rewrite E1; reflexivity.
Qed.

Lemma run_step i fuel prog rest s s' :
  exec1 i s = Some s' -> run (S fuel) prog (i :: rest) s = run fuel prog rest s'.
Proof. intros E. destruct i; try discriminate E; cbn [run]; rewrite E; reflexivity. Qed.

Lemma run_j c l fuel prog rest s b :
  holds s c = Some b ->
  run (S fuel) prog (j c l :: rest) s =
  if b then target ← find_label l prog; run fuel prog target s else run fuel prog rest s.
Proof. intros E. cbn [run]. rewrite E. reflexivity. Qed.

Lemma run_jmp l fuel prog rest target s :
  find_label l prog = Some target -> run (S fuel) prog (jmp l :: rest) s = run fuel prog target s.
Proof. intros E. cbn [run]. rewrite E. reflexivity. Qed.

Lemma run_program c s s' slow :
  execs c s = Some s' -> (length c < 60)%nat ->
  run 60 (program c slow) (program c slow) s = Some s'.
Proof.
  intros E Hc. unfold program at 2. rewrite (run_execs c s s') by (done || lia).
  destruct (60 - length c)%nat eqn:Ef; [lia|done].
Qed.

Lemma reads_write_same w r v s : 0 < w -> reads w (write w r v s) r = swrap w v.
Proof. intros. unfold reads, write; simpl. by rewrite upd_same, swrap_wrap. Qed.

Lemma reads_write_other w w' r v s r' : r' <> r -> reads w (write w' r v s) r' = reads w s r'.
Proof. intros. unfold reads, write; simpl. by rewrite upd_other. Qed.

Lemma reads_set_flags w f s r : reads w (set_flags f s) r = reads w s r.
Proof. done. Qed.

Lemma reads_read w s r : 0 < w -> swrap w (read w s r) = reads w s r.
Proof. intros. unfold read, reads. by apply swrap_wrap. Qed.

Lemma reads_is_s w s r : 0 < w -> is_s w (reads w s r).
Proof. intros. by apply swrap_is_s. Qed.

Lemma regs_write_other w r v s r' : r' <> r -> regs (write w r v s) r' = regs s r'.
Proof. intros. by apply upd_other. Qed.

Lemma regs_set_flags f s : regs (set_flags f s) = regs s.
Proof. done. Qed.

Create Rewrite HintDb x86.
#[export] Hint Rewrite regs_set_flags : x86.
#[export] Hint Rewrite regs_write_other using (unfold RAX, RDX in *; lia) : x86.
#[export] Hint Rewrite reads_set_flags : x86.
#[export] Hint Rewrite reads_write_same reads_read using lia : x86.
#[export] Hint Rewrite reads_write_other using (unfold RAX, RDX in *; lia) : x86.

(** A wider write. *)
Lemma reads_write_wide w w' r v s :
  0 < w <= w' -> reads w (write w' r v s) r = swrap w v.
Proof. intros. unfold reads, write; simpl. rewrite upd_same. by apply swrap_wrap_le. Qed.

(** The sign conditions after a test of a register with itself. *)
Lemma holds_test w s r c :
  0 < w ->
  holds (set_flags (logic_flags w (Z.land (read w s r) (read w s r))) s) c =
  Some (match c with
        | kEqual => reads w s r =? 0
        | kLess => reads w s r <? 0
        | kGreaterEqual => 0 <=? reads w s r
        end).
Proof.
  intros. rewrite Z.land_diag. unfold holds, logic_flags. simpl. f_equal. rewrite reads_read by done.
  destruct c.
  - unfold read. rewrite wrap_wrap by lia. unfold reads.
    destruct (Z.eqb_spec (swrap w (regs s r)) 0) as [E|E].
    + apply Z.eqb_eq. rewrite <- wrap_swrap, E by done. apply wrap_id. unfold is_u.
      pose proof (pow2_pos w). lia.
    + apply Z.eqb_neq. intros E'. apply E. rewrite <- swrap_wrap, E' by done. apply swrap_id; [done|].
      unfold is_s. pose proof (pow2_pos (w - 1)). lia.
  - by destruct (_ <? _).
  - zcases; done.
Qed.

(** ** The common part of the magic sequences *)

Definition magic_code (w : Z) (numerator : Register) (load : list instr) (imm magic shift : Z)
    (finish : list instr) : list instr :=
  [mov w numerator RAX] ++ load ++ [imul w numerator] ++
  (if (0 <? imm) && (magic <? 0) then [add w RDX numerator]
   else if (imm <? 0) && (0 <? magic) then [sub w RDX numerator] else []) ++
  (if negb (shift =? 0) then [sar w RDX shift] else []) ++
  [mov w RAX RDX; shr w RDX (w - 1); add w RDX RAX] ++ finish.

(** The code loads [v] into [r] and changes no other register. *)
Definition loads (w : Z) (c : list instr) (r : Register) (v : Z) : Prop :=
  forall s, exists s', execs c s = Some s' /\ reads w s' r = v /\
    forall r', r' <> r -> regs s' r' = regs s r'.

Section magic_code.
Context (w imm m shift : Z) (t : Register) (load : list instr) (s : state).
Hypothesis Hw : w = 32 \/ w = 64.
Hypothesis Ht : t <> RAX /\ t <> RDX.
Hypothesis Hnz : imm <> 0.
Hypothesis Hok : magic_ok w imm m shift.
Local Abbreviation magic := (swrap w (Z.sgn imm * m)).
Hypothesis Hload : loads w load RAX magic.
Local Abbreviation n := (reads w s RAX).

(** Up to the final moves: the quotient in RDX, the dividend in [t]. *)
Lemma magic_code_quotient finish :
  exists s', execs (magic_code w t load imm magic shift finish) s = execs finish s' /\
    reads w s' RDX = swrap w (Z.quot n imm) /\ reads w s' t = n /\
    forall r, r <> RAX -> r <> RDX -> r <> t -> regs s' r = regs s r.
Proof.
  destruct Hok as [Hm Hs _ Hq]. pose proof (reads_is_s w s RAX ltac:(lia)) as Hn.
  destruct (corrected_high w imm m n ltac:(lia) Hnz Hm Hn) as [Hc Hcs].
  set (magic := swrap w (Z.sgn imm * m)) in *. set (h := Z.sgn imm * m * n / 2 ^ w) in *.
  unfold magic_code. cbn [app execs exec1 mbind option_bind].
  set (s1 := write w t (read w s RAX) s). rewrite execs_app.
  destruct (Hload s1) as (s2 & -> & Hrax & Hfr2). cbn [app execs exec1 mbind option_bind].
  assert (reads w s2 t = n) as Ht2.
  { unfold reads. rewrite Hfr2 by tauto. fold (reads w s1 t). unfold s1. by autorewrite with x86. }
  rewrite Hrax, Ht2.
  set (s3 := set_flags None _).
  assert (reads w s3 RDX = swrap w (magic * n / 2 ^ w) /\ reads w s3 t = n /\
    forall r, r <> RAX -> r <> RDX -> r <> t -> regs s3 r = regs s r) as (H3 & Ht3 & Hfr3).
  { unfold s3. autorewrite with x86. rewrite Z.shiftr_div_pow2 by lia.
    repeat split; [done|]. intros. autorewrite with x86. rewrite Hfr2 by tauto. unfold s1. by autorewrite with x86. }
  rewrite execs_app.
  assert (exists s4, execs (if (0 <? imm) && (magic <? 0) then [add w RDX t]
      else if (imm <? 0) && (0 <? magic) then [sub w RDX t] else []) s3 = Some s4 /\
    reads w s4 RDX = h /\ reads w s4 t = n /\
    forall r, r <> RAX -> r <> RDX -> r <> t -> regs s4 r = regs s r) as (s4 & -> & H4 & Ht4 & Hfr4).
  { assert (forall x, x = h -> swrap w x = h) as Hsw by (intros ? ->; apply swrap_id; [lia|done]).
    destruct ((0 <? imm) && (magic <? 0)); [|destruct ((imm <? 0) && (0 <? magic))]; cbn [execs exec1 mbind option_bind];
      eexists; (split; [reflexivity|]); autorewrite with x86; rewrite ?H3, ?Ht3.
    - rewrite swrap_add_l by lia. split; [by apply Hsw|]. split; [done|].
      intros. autorewrite with x86. auto.
    - rewrite <- Z.add_opp_r, swrap_add_l, Z.add_opp_r by lia. split; [by apply Hsw|]. split; [done|].
      intros. autorewrite with x86. auto.
    - split; [by apply Hsw|]. auto. }
  cbn [mbind option_bind]. rewrite execs_app.
  assert (exists s5, execs (if negb (shift =? 0) then [sar w RDX shift] else []) s4 = Some s5 /\
    reads w s5 RDX = Z.shiftr h shift /\ reads w s5 t = n /\
    forall r, r <> RAX -> r <> RDX -> r <> t -> regs s5 r = regs s r) as (s5 & -> & H5 & Ht5 & Hfr5).
  { destruct (Z.eqb_spec shift 0) as [->|]; cbn [negb execs exec1 mbind option_bind];
      eexists; (split; [reflexivity|]).
    - by rewrite Z.shiftr_0_r.
    - autorewrite with x86. rewrite swrap_asr by lia. fold (reads w s4 RDX). rewrite H4.
      split; [done|]. split; [done|]. intros. autorewrite with x86. auto. }
  cbn [app execs exec1 mbind option_bind]. eexists. split; [reflexivity|].
  autorewrite with x86. rewrite swrap_lsr_sign by lia. fold (reads w s5 RDX). rewrite H5.
  split; [|split; [done|intros; autorewrite with x86; auto]].
  f_equal. rewrite <- Hq by done. unfold h, increment_negative. rewrite <- high_shift by lia.
  generalize (Z.shiftr (Z.sgn imm * m * n / 2 ^ w) shift). intros q. destruct (q <? 0); ring.
Qed.

Definition rem_finish (mul : instr) : list instr :=
  [mov w RAX t; mul; sub w RAX RDX; mov w RDX RAX].

Lemma magic_code_div :
  exists s', execs (magic_code w t load imm magic shift [mov w RAX RDX]) s = Some s' /\
    reads w s' RAX = swrap w (Z.quot n imm) /\
    forall r, r <> RAX -> r <> RDX -> r <> t -> regs s' r = regs s r.
Proof.
  destruct (magic_code_quotient [mov w RAX RDX]) as (s1 & -> & H1 & Ht1 & Hfr).
  cbn [execs exec1 mbind option_bind]. eexists. split; [reflexivity|]. autorewrite with x86.
  split; [done|]. intros. autorewrite with x86. auto.
Qed.

Lemma magic_code_rem imm' :
  swrap w imm' = imm ->
  exists s', execs (magic_code w t load imm magic shift (rem_finish (imuli w RDX imm'))) s = Some s' /\
    reads w s' RDX = Z.rem n imm /\
    forall r, r <> RAX -> r <> RDX -> r <> t -> regs s' r = regs s r.
Proof.
  intros Himm. pose proof (reads_is_s w s RAX ltac:(lia)) as Hn.
  destruct (magic_code_quotient (rem_finish (imuli w RDX imm'))) as (s1 & -> & H1 & Ht1 & Hfr).
  unfold rem_finish. cbn [execs exec1 mbind option_bind]. eexists. split; [reflexivity|].
  autorewrite with x86. rewrite H1, Ht1.
  split; [|intros; autorewrite with x86; auto].
  apply swrap_eq_wrap; [lia|by apply rem_is_s|].
  rewrite Z.rem_eq by done.
  rewrite <- (wrap_sub_r w n (swrap w _)), wrap_swrap, wrap_sub_r by lia.
  rewrite <- (wrap_msub_l w n (swrap w _)), wrap_swrap, wrap_msub_l by lia.
  rewrite <- (wrap_msub_r w n _ imm'), <- (wrap_swrap w imm'), Himm, wrap_msub_r by lia.
  by rewrite (Z.mul_comm imm).
Qed.

End magic_code.

(** ** The common part of divisions by a power of two *)

Lemma x86_div_pow2_end w s k imm tmp out v :
  0 < w -> 0 <= k -> reads w s tmp = v ->
  exists s', execs ([sar w tmp k] ++ (if imm <? 0 then [neg w tmp] else []) ++ [mov w out tmp]) s = Some s' /\
    reads w s' out = swrap w (if imm <? 0 then - Z.shiftr v k else Z.shiftr v k) /\
    forall r, r <> tmp -> r <> out -> regs s' r = regs s r.
Proof.
  intros Hw Hk E. assert (Hv : is_s w v) by (rewrite <- E; by apply reads_is_s).
  destruct (imm <? 0); cbn [app execs exec1 mbind option_bind]; eexists; (split; [reflexivity|]);
    autorewrite with x86; rewrite swrap_asr by done; fold (reads w s tmp); rewrite E;
    (split; [|intros; by autorewrite with x86]); [done|].
  symmetry. apply swrap_id; [done|]. by apply is_s_shiftr.
Qed.

(** ** Division by a register *)

(** The sign of RAX in RDX; zero in RDX. *)
Definition extends (w : Z) (ext : instr) : Prop :=
  forall s, exists s', exec1 ext s = Some s' /\
    reads w s' RDX = (if reads w s RAX <? 0 then -1 else 0) /\
    forall r, r <> RDX -> regs s' r = regs s r.

Definition clears (w : Z) (clear : instr) : Prop :=
  forall s, exists s', exec1 clear s = Some s' /\ reads w s' RDX = 0 /\
    forall r, r <> RDX -> regs s' r = regs s r.

Lemma extends_cdq : extends 32 cdq.
Proof.
  intros s. eexists. split; [reflexivity|]. split; [|intros; by apply regs_write_other].
  rewrite reads_write_same by lia. change 31 with (32 - 1).
  rewrite shiftr_sign by (lia || (apply reads_is_s; lia)). by destruct (_ <? 0).
Qed.

Lemma extends_cqo : extends 64 cqo.
Proof.
  intros s. eexists. split; [reflexivity|]. split; [|intros; by apply regs_write_other].
  rewrite reads_write_same by lia. change 63 with (64 - 1).
  rewrite shiftr_sign by (lia || (apply reads_is_s; lia)). by destruct (_ <? 0).
Qed.

Lemma reads_write_zero w w' r s : 0 < w -> reads w (write w' r 0 s) r = 0.
Proof.
  intros. unfold reads, write. cbn [regs]. rewrite upd_same. unfold wrap. rewrite Zmod_0_l.
  apply swrap_id; [done|]. unfold is_s. pose proof (pow2_pos (w - 1)). lia.
Qed.

Lemma clears_xor w w' : 0 < w -> clears w (xor_ w' RDX RDX).
Proof.
  intros. intros s. eexists. split; [reflexivity|]. rewrite reads_set_flags, Z.lxor_nilpotent.
  split; [by apply reads_write_zero|]. intros. rewrite regs_set_flags. by apply regs_write_other.
Qed.

Lemma clears_movi w w' : 0 < w -> clears w (movi w' RDX 0).
Proof.
  intros. intros s. eexists. split; [reflexivity|].
  split; [by apply reads_write_zero|]. intros. by apply regs_write_other.
Qed.

(** A divisor of -1 takes the slow path. *)
Definition register_code (w : Z) (div : bool) (ext clear : instr) (entry exit : Label) (r : Register) :
    list instr * list instr :=
  ([cmpi w r (-1); j kEqual entry; ext; idiv w r; Bind exit],
   [Bind entry; if div then neg w RAX else clear; jmp exit]).

Lemma holds_minus_one w s d :
  w = 32 \/ w = 64 -> is_s w d ->
  holds (set_flags (arith_flags w (d - swrap w (-1))) s) kEqual = Some (d =? -1).
Proof.
  intros Hw Hd. unfold holds. cbn [flags set_flags arith_flags mbind option_bind]. f_equal.
  rewrite (swrap_id w (-1)) by (unfold is_s; destruct Hw as [-> | ->]; lia).
  unfold wrap. destruct (Z.eqb_spec d (-1)) as [->|]; [apply Z.eqb_eq, Z.mod_0_l, Z.pow_nonzero; lia|].
  apply Z.eqb_neq. intros Em. apply Z.mod_divide in Em; [|apply Z.pow_nonzero; lia].
  destruct Em as [q Eq]. unfold is_s in Hd. destruct Hw as [Ew|Ew]; rewrite Ew in *; lia.
Qed.

Lemma exec1_idiv w r s n d :
  0 < w -> reads w s RDX = (if n <? 0 then -1 else 0) -> reads w s RAX = n -> reads w s r = d ->
  d <> 0 -> d <> -1 ->
  exec1 (idiv w r) s = Some (set_flags None (write w RDX (Z.rem n d) (write w RAX (Z.quot n d) s))).
Proof.
  intros Hw Hdx <- <- H0 H1. unfold exec1.
  replace (reads w s RDX * 2 ^ w + read w s RAX) with (reads w s RAX).
  2:{ rewrite Hdx. unfold read. rewrite <- wrap_swrap by done. symmetry. apply sign_low; [done|]. by apply reads_is_s. }
  rewrite (proj2 (Z.eqb_neq (reads w s r) 0)) by done. rewrite bool_decide_true; [done|].
  apply quot_is_s; (done || by apply reads_is_s).
Qed.

Section register_code.
Context (w : Z) (div : bool) (ext clear : instr) (entry exit : Label) (r : Register) (s : state).
Hypothesis Hw : w = 32 \/ w = 64.
Hypothesis Hext : extends w ext.
Hypothesis Hclear : clears w clear.
Hypothesis Hlabels : entry <> exit.
Hypothesis Hr : r <> RAX /\ r <> RDX /\ reads w s r <> 0.
Local Abbreviation n := (reads w s RAX).
Local Abbreviation d := (reads w s r).
Local Abbreviation main := (fst (register_code w div ext clear entry exit r)).
Local Abbreviation slow := (snd (register_code w div ext clear entry exit r)).

Definition leaves (s' : state) : Prop :=
  reads w s' (if div then RAX else RDX) = swrap w (if div then Z.quot n d else Z.rem n d) /\
  forall r, r <> RAX -> r <> RDX -> regs s' r = regs s r.

Lemma not_label (i : instr) s1 s2 l rest :
  exec1 i s1 = Some s2 -> find_label l (i :: rest) = find_label l rest.
Proof. by destruct i. Qed.

Lemma register_code_labels :
  find_label entry (program main slow) = Some [if div then neg w RAX else clear; jmp exit] /\
  exists rest, find_label exit (program main slow) = Some (leave :: rest).
Proof.
  destruct (Hext s) as (s1 & E1 & _).
  assert (Hskip : forall l, find_label l (program main slow) = find_label l (Bind exit :: leave :: slow)).
  { intros l. transitivity (find_label l (ext :: idiv w r :: Bind exit :: leave :: slow)); [reflexivity|].
    by rewrite (not_label ext s s1). }
  rewrite !Hskip. unfold register_code. cbn [snd find_label].
  split; [|eexists].
  - rewrite decide_False by done. by rewrite decide_True.
  - by rewrite decide_True.
Qed.

Lemma slow_path_leaves s1 :
  d = -1 -> regs s1 = regs s ->
  exists s2, exec1 (if div then neg w RAX else clear) s1 = Some s2 /\ leaves s2.
Proof.
  intros Ed Es. unfold leaves. rewrite Ed. destruct div.
  - eexists. split; [reflexivity|]. autorewrite with x86. split; [|intros; autorewrite with x86; by rewrite Es].
    unfold reads at 1. rewrite Es. fold n. change (-1) with (- (1)). by rewrite Z.quot_opp_r, Z.quot_1_r by lia.
  - destruct (Hclear s1) as (s2 & E2 & H2 & Hfr2). exists s2. split; [done|]. rewrite H2.
    split; [|intros; by rewrite Hfr2, Es]. change (-1) with (- (1)). rewrite Z.rem_opp_r, Z.rem_1_r by lia.
    symmetry. apply swrap_id; [lia|]. unfold is_s. pose proof (pow2_pos (w - 1)). lia.
Qed.

Lemma register_code_correct :
  exists s', run 60 (program main slow) (program main slow) s = Some s' /\ leaves s'.
Proof.
  destruct register_code_labels as [Hentry [rest Hexit]]. destruct Hr as (Hr1 & Hr2 & Hnz).
  set (prog := program main slow) in *. unfold prog at 2, program, register_code. cbn [app fst snd].
  erewrite run_step by reflexivity.
  erewrite run_j by (apply holds_minus_one; [done|apply reads_is_s; lia]). rewrite Hentry. cbn [mbind option_bind].
  set (s1 := set_flags _ s). destruct (Z.eqb_spec d (-1)) as [Ed|Ed].
  - destruct (slow_path_leaves s1 Ed eq_refl) as (s2 & E2 & H2). rewrite (run_step _ _ _ _ _ _ E2).
    rewrite (run_jmp _ _ _ _ _ _ Hexit). exists s2. split; [reflexivity|done].
  - destruct (Hext s1) as (s2 & E2 & H2 & Hfr2). rewrite (run_step _ _ _ _ _ _ E2).
    erewrite run_step.
    2:{ apply (exec1_idiv w r s2 n d); [lia|exact H2| | |done|done]; unfold reads; by rewrite Hfr2. }
    eexists. split; [reflexivity|]. split.
    + destruct div; by autorewrite with x86.
    + intros. autorewrite with x86. by apply Hfr2.
Qed.

End register_code.

End X86Machine.
