(* ===== verification/DivX86_64.v ===== *)
(** * Integer division and remainder on x86-64

    The functions of compiler/optimizing/code_generator_x86_64.cc that generate
    code for [HDiv] and [HRem] of integral types, with the slow path for a
    divisor of -1 placed after the code. *)

From Stdlib Require Import ZArith Lia Bool List.
From stdpp Require Import base numbers list option.
From S2P Require Import Prelude BitUtils MachineWord DivMagic X86Machine.

Local Open Scope Z_scope.
Local Open Scope art_scope.

Module X86_64.
Import X86Machine.

Section generators.
Context (i : HBinaryOperation).

Definition output_register : Register := Out (VisitDivRem_locations i).

Definition DivRemOneOrMinusOne (imm : Z) : option (list instr) :=
  DCHECK (imm =? 1) || (imm =? -1);
  let w := if is_long i then 64 else 32 in
  if negb (IsDiv i) then Some [xor_ 32 output_register output_register]
  else Some (mov w output_register RAX :: if imm =? -1 then [neg w output_register] else []).

Definition Load64BitValue (dest : Register) (value : Z) : list instr :=
  if value =? 0 then [xor_ 32 dest dest]
  else if (0 <=? value) && (value <? 2 ^ 32) then [movi 32 dest (s32 value)]
  else [movi 64 dest value].

Definition done_label : Label := 0%nat.

Definition RemByPowerOfTwo (imm : Z) : option (list instr) :=
  let out := output_register in
  let numerator := RAX in
  DCHECK IsPowerOfTwo_signed 64 (AbsOrMin 64 imm);
  let abs_imm := u64 (AbsOrMin 64 imm) in
  tmp ← GetTemp i 0;
  if negb (is_long i) then
    Some [mov 32 out numerator;
          andi 32 out (abs_imm - 1);
          j kZero done_label;
          lea 32 tmp out (s32 (Z.lnot (abs_imm - 1)));
          test 32 numerator numerator;
          cmov 32 kLess out tmp;
          Bind done_label]
  else
    Some (Load64BitValue tmp (s64 (abs_imm - 1)) ++
         [mov 64 out numerator;
          and_ 64 out tmp;
          j kZero done_label;
          mov 64 tmp numerator;
          sar 64 tmp 63;
          shl 64 tmp (WhichPowerOf2 abs_imm);
          or_ 64 out tmp;
          Bind done_label]).

Definition DivByPowerOfTwo (imm : Z) : option (list instr) :=
  let numerator := RAX in
  DCHECK IsPowerOfTwo_signed 64 (AbsOrMin 64 imm);
  let abs_imm := u64 (AbsOrMin 64 imm) in
  tmp ← GetTemp i 0;
  let shift := CTZ (u64 imm) in
  if negb (is_long i) then
    Some ((if abs_imm =? 2 then
             [lea 32 tmp numerator 0; shr 32 tmp 31; add 32 tmp numerator]
           else
             [lea 32 tmp numerator (s32 (abs_imm - 1));
              test 32 numerator numerator;
              cmov 64 kGreaterEqual tmp numerator]) ++
          [sar 32 tmp shift] ++
          (if imm <? 0 then [neg 32 tmp] else []) ++
          [mov 32 output_register tmp])
  else
    Some ((if abs_imm =? 2 then
             [mov 64 tmp numerator; shr 64 tmp 63; add 64 tmp numerator]
           else
             Load64BitValue tmp (s64 (abs_imm - 1)) ++
             [add 64 tmp numerator;
              test 64 numerator numerator;
              cmov 64 kGreaterEqual tmp numerator]) ++
          [sar 64 tmp shift] ++
          (if imm <? 0 then [neg 64 tmp] else []) ++
          [mov 64 output_register tmp]).

Definition GenerateDivRemWithAnyConstant (imm : Z) : option (list instr) :=
  numerator ← (if IsDiv i then GetTemp i 1 else GetTemp i 0);
  let eax := RAX in
  edx ← (if IsDiv i then GetTemp i 0 else Some output_register);
  let out := output_register in
  DCHECK (edx =? RDX)%nat;
  DCHECK (if IsDiv i then out =? RAX else out =? RDX)%nat;
  if negb (is_long i) then
    '(magic, shift) ← CalculateMagicAndShiftForDivRem imm false;
    Some ([mov 32 numerator eax; movi 32 eax magic; imul 32 numerator] ++
          (if (0 <? imm) && (magic <? 0) then [add 32 edx numerator]
           else if (imm <? 0) && (0 <? magic) then [sub 32 edx numerator] else []) ++
          (if negb (shift =? 0) then [sar 32 edx shift] else []) ++
          [mov 32 eax edx; shr 32 edx 31; add 32 edx eax] ++
          (if negb (IsDiv i) then
             [mov 32 eax numerator; imuli 32 edx imm; sub 32 eax edx; mov 32 edx eax]
           else [mov 32 eax edx]))
  else
    '(magic, shift) ← CalculateMagicAndShiftForDivRem imm true;
    Some ([mov 64 numerator eax] ++ Load64BitValue eax magic ++ [imul 64 numerator] ++
          (if (0 <? imm) && (magic <? 0) then [add 64 edx numerator]
           else if (imm <? 0) && (0 <? magic) then [sub 64 edx numerator] else []) ++
          (if negb (shift =? 0) then [sar 64 edx shift] else []) ++
          [mov 64 eax edx; shr 64 edx 63; add 64 edx eax] ++
          (if negb (IsDiv i) then
             [mov 64 eax numerator;
              (* an immediate that fits in 32 bits or a literal in memory *)
              if bool_decide (is_s 32 imm) then imuli 64 edx (s32 imm) else imuli 64 edx imm;
              sub 64 eax edx;
              mov 64 edx eax]
           else [mov 64 eax edx])).

(** The slow path for a divisor of -1: its entry and exit label. *)
Definition slow_entry : Label := 1%nat.
Definition slow_exit : Label := 2%nat.

Definition DivRemMinusOneSlowPathX86_64 (cpu_reg : Register) : list instr :=
  [Bind slow_entry;
   if IsDiv i then neg (if is_long i then 64 else 32) cpu_reg else xor_ 32 cpu_reg cpu_reg;
   jmp slow_exit].

(** The generated code and the slow path. *)
Definition GenerateDivRemIntegral : option (list instr * list instr) :=
  let out := output_register in
  DCHECK (if IsDiv i then out =? RAX else out =? RDX)%nat;
  match InAt1 i with
  | Constant imm =>
      if imm =? 0 then Some ([], []) (* the code is not reached *)
      else if (imm =? 1) || (imm =? -1) then c ← DivRemOneOrMinusOne imm; Some (c, [])
      else if IsPowerOfTwo_signed 64 (AbsOrMin 64 imm) then
        c ← (if IsDiv i then DivByPowerOfTwo imm else RemByPowerOfTwo imm); Some (c, [])
      else
        DCHECK (imm <=? -2) || (2 <=? imm);
        c ← GenerateDivRemWithAnyConstant imm; Some (c, [])
  | InRegister second_reg =>
      let w := if is_long i then 64 else 32 in
      Some ([cmpi w second_reg (-1);
             j kEqual slow_entry;
             if is_long i then cqo else cdq;
             idiv w second_reg;
             Bind slow_exit],
            DivRemMinusOneSlowPathX86_64 out)
  end.

End generators.

(** ** Correctness *)

Lemma Load64BitValue_loads r v : is_s 64 v -> loads 64 (Load64BitValue r v) r v.
Proof.
  intros Hv s. unfold Load64BitValue. unfold is_s in Hv.
  destruct (Z.eqb_spec v 0) as [->|]; [|destruct (Z.leb_spec 0 v), (Z.ltb_spec v (2 ^ 32)); try lia; simpl andb; cbv iota];
    cbn [execs exec1 mbind option_bind]; eexists; (split; [reflexivity|]); autorewrite with x86;
    (split; [|intros; by autorewrite with x86]).
  - rewrite Z.lxor_nilpotent. unfold reads, write. simpl. by rewrite upd_same.
  - unfold reads, write. simpl. rewrite upd_same, wrap_swrap by lia.
    rewrite (wrap_id 32 v) by (unfold is_u; lia). apply swrap_id; [lia|]. unfold is_s. lia.
  - apply swrap_id; unfold is_s; lia.
  - apply swrap_id; unfold is_s; lia.
Qed.

Section correct.
Context (i : HBinaryOperation) (s : state).
Hypothesis Ht : free_temp i <> RAX /\ free_temp i <> RDX.

Definition size : Z := if is_long i then 64 else 32.
Local Abbreviation w := size.
Definition dividend : Z := reads w s RAX.
Local Abbreviation n := dividend.

(** The code with its slow path leaves [v] in the output register and changes
    no other register but those reserved for it. *)
Definition computes (main slow : list instr) (v : Z) : Prop :=
  exists s', run 60 (program main slow) (program main slow) s = Some s' /\
    reads w s' (output_register i) = swrap w v /\
    forall r, r <> RAX -> r <> RDX -> r <> free_temp i -> regs s' r = regs s r.

Lemma x86_64_size_cases : w = 32 \/ w = 64.
Proof. unfold size. destruct (is_long i); auto. Qed.

Lemma computes_execs c s' v :
  execs c s = Some s' -> (length c < 60)%nat -> reads w s' (output_register i) = swrap w v ->
  (forall r, r <> RAX -> r <> RDX -> r <> free_temp i -> regs s' r = regs s r) ->
  computes c [] v.
Proof. intros E Hc Hr Hf. exists s'. split; [by apply run_program|]. done. Qed.

Definition result (imm : Z) : Z := if IsDiv i then Z.quot n imm else Z.rem n imm.

Lemma output_div : output_register i = if IsDiv i then RAX else RDX.
Proof. unfold output_register, VisitDivRem_locations. by destruct (IsDiv i). Qed.

Lemma reads_range : is_s w n.
Proof. apply reads_is_s. destruct x86_64_size_cases; lia. Qed.

Ltac frame := intros; repeat first [rewrite regs_set_flags | rewrite regs_write_other by (unfold RAX, RDX in *; lia)]; done.

Lemma x86_64_DivRemOneOrMinusOne_correct imm :
  imm = 1 \/ imm = -1 ->
  exists c, DivRemOneOrMinusOne i imm = Some c /\ computes c [] (result imm).
Proof.
  intros Himm. pose proof x86_64_size_cases as Hw. unfold DivRemOneOrMinusOne, result.
  replace ((imm =? 1) || (imm =? -1)) with true by (destruct Himm as [-> | ->]; done).
  cbn [dcheck mbind option_bind]. fold w. rewrite output_div.
  destruct (IsDiv i) eqn:Ediv; cbn [negb]; eexists; (split; [reflexivity|]).
  - destruct Himm as [-> | ->]; cbn [Z.eqb Pos.eqb];
      (eapply computes_execs; [reflexivity|simpl; lia| |frame]); rewrite output_div, Ediv; autorewrite with x86.
    + rewrite Z.quot_1_r. symmetry. apply swrap_id; [lia|apply reads_range].
    + f_equal. change (-1) with (- (1)). rewrite Z.quot_opp_r, Z.quot_1_r by lia. done.
  - eapply computes_execs; [reflexivity|simpl; lia| |frame]. rewrite output_div, Ediv.
    rewrite reads_set_flags, Z.lxor_nilpotent. unfold reads, write. simpl. rewrite upd_same. f_equal.
    destruct Himm as [-> | ->]; [by rewrite Z.rem_1_r|].
    change (-1) with (- (1)). by rewrite Z.rem_opp_r, Z.rem_1_r.
Qed.

Lemma constant_temps imm :
  InAt1 i = Constant imm ->
  temps (VisitDivRem_locations i) = if IsDiv i then [RDX; free_temp i] else [free_temp i].
Proof. intros E. unfold VisitDivRem_locations. rewrite E. by destruct (IsDiv i). Qed.

(** The adjustment of the dividend; the move may be wider than the dividend. *)
Lemma adjust_lea w' k :
  is_long i = false -> 0 <= k < 32 -> 32 <= w' ->
  exists s', execs [lea 32 RDX RAX (s32 (2 ^ k - 1)); test 32 RAX RAX; cmov w' kGreaterEqual RDX RAX] s = Some s' /\
    reads w s' RDX = adjusted n k /\ forall r, r <> RDX -> regs s' r = regs s r.
Proof.
  intros Hl Hk Hw'. pose proof reads_range as Hn. assert (w = 32) as Ew by (unfold size; by rewrite Hl).
  pose proof (adjusted_is_s w n k ltac:(lia) Hn) as Ha. unfold dividend in *. rewrite Ew in *.
  eexists. split.
  { erewrite execs_step by reflexivity. erewrite execs_step by reflexivity.
    erewrite execs_step by (apply exec1_cmov, holds_test; lia). reflexivity. }
  split; [|frame]. rewrite reads_write_wide by lia. rewrite reads_write_other by done.
  unfold read. cbn [regs set_flags write]. rewrite upd_same, upd_other by done. unfold adjusted.
  destruct (Z.leb_spec 0 (reads 32 s RAX)), (Z.ltb_spec (reads 32 s RAX) 0); try lia;
    rewrite swrap_wrap_le by lia; [done|].
  rewrite swrap_wrap, <- swrap_add_l by lia. fold (reads 32 s RAX).
  rewrite Z.add_comm, swrap_add_l, Z.add_comm by lia.
  unfold adjusted in Ha. rewrite (proj2 (Z.ltb_lt _ 0)) in Ha by done. by apply swrap_id.
Qed.

Lemma adjust32_correct k :
  is_long i = false -> 0 <= k < 32 ->
  exists s', execs (if 2 ^ k =? 2 then [lea 32 RDX RAX 0; shr 32 RDX 31; add 32 RDX RAX]
      else [lea 32 RDX RAX (s32 (2 ^ k - 1)); test 32 RAX RAX; cmov 64 kGreaterEqual RDX RAX]) s = Some s' /\
    reads w s' RDX = adjusted n k /\ forall r, r <> RDX -> regs s' r = regs s r.
Proof.
  intros Hl Hk. destruct (Z.eqb_spec (2 ^ k) 2) as [E2|E2]; [|apply adjust_lea; (done || lia)].
  pose proof reads_range as Hn. assert (w = 32) as Ew by (unfold size; by rewrite Hl).
  pose proof (adjusted_is_s w n k ltac:(lia) Hn) as Ha. unfold dividend in *. rewrite Ew in *.
  cbn [execs exec1 mbind option_bind]. eexists. split; [reflexivity|]. split; [|frame].
  autorewrite with x86. rewrite (swrap_lsr_sign 32) by lia.
  unfold write at 1. cbn [regs]. rewrite upd_same, Z.add_0_r, swrap_wrap by lia. fold (reads 32 s RAX).
  apply swrap_eq_wrap; [lia|done|]. f_equal. unfold adjusted. rewrite E2.
  destruct (reads 32 s RAX <? 0); lia.
Qed.

(** The adjustment, when RDX holds its amount. *)
Lemma adjust_tail w' s1 :
  0 < w' ->
  exists s2, execs [add w' RDX RAX; test w' RAX RAX; cmov w' kGreaterEqual RDX RAX] s1 = Some s2 /\
    reads w' s2 RDX = (if 0 <=? reads w' s1 RAX then reads w' s1 RAX
                       else swrap w' (reads w' s1 RDX + reads w' s1 RAX)) /\
    forall r, r <> RDX -> regs s2 r = regs s1 r.
Proof.
  intros Hw'. eexists. split.
  { erewrite execs_step by reflexivity. erewrite execs_step by reflexivity.
    erewrite execs_step by (apply exec1_cmov, holds_test; lia). reflexivity. }
  split; [|frame]. rewrite reads_write_same by lia.
  rewrite !reads_set_flags, reads_write_other by done. unfold read. cbn [regs set_flags write].
  rewrite upd_same, upd_other by done. destruct (0 <=? reads w' s1 RAX); rewrite !swrap_wrap by lia; done.
Qed.

Lemma adjust64_correct k :
  is_long i = true -> 0 <= k < 64 ->
  exists s', execs (if 2 ^ k =? 2 then [mov 64 RDX RAX; shr 64 RDX 63; add 64 RDX RAX]
      else Load64BitValue RDX (s64 (2 ^ k - 1)) ++
           [add 64 RDX RAX; test 64 RAX RAX; cmov 64 kGreaterEqual RDX RAX]) s = Some s' /\
    reads w s' RDX = adjusted n k /\ forall r, r <> RDX -> regs s' r = regs s r.
Proof.
  intros Hl Hk. pose proof reads_range as Hn. assert (w = 64) as Ew by (unfold size; by rewrite Hl).
  pose proof (adjusted_is_s w n k ltac:(lia) Hn) as Ha. unfold dividend in *. rewrite Ew in *.
  destruct (Z.eqb_spec (2 ^ k) 2) as [E2|E2].
  - cbn [execs exec1 mbind option_bind]. eexists. split; [reflexivity|]. split; [|frame].
    autorewrite with x86. rewrite (swrap_lsr_sign 64) by lia.
    unfold write at 1. cbn [regs]. rewrite upd_same. unfold read. rewrite wrap_wrap, swrap_wrap by lia.
    fold (reads 64 s RAX). apply swrap_eq_wrap; [lia|done|]. f_equal. unfold adjusted. rewrite E2.
    destruct (reads 64 s RAX <? 0); lia.
  - rewrite execs_app. destruct (Load64BitValue_loads RDX (s64 (2 ^ k - 1)) ltac:(apply swrap_is_s; lia) s)
      as (s1 & -> & H1 & Hfr1).
    assert (Ex : reads 64 s1 RAX = reads 64 s RAX) by (unfold reads; by rewrite Hfr1).
    cbn [mbind option_bind]. destruct (adjust_tail 64 s1 ltac:(lia)) as (s2 & -> & H2 & Hfr2).
    exists s2. split; [done|]. split; [|intros; rewrite Hfr2, Hfr1 by done; done].
    rewrite H2, H1, Ex. unfold adjusted in *.
    destruct (Z.leb_spec 0 (reads 64 s RAX)), (Z.ltb_spec (reads 64 s RAX) 0); try lia; try done.
    rewrite swrap_add_l, Z.add_comm by lia. by apply swrap_id.
Qed.

Lemma x86_64_DivByPowerOfTwo_correct imm :
  InAt1 i = Constant imm -> IsDiv i = true -> is_s w imm -> imm <> 0 ->
  IsPowerOfTwo_signed 64 (AbsOrMin 64 imm) = true ->
  exists c, DivByPowerOfTwo i imm = Some c /\ computes c [] (Z.quot n imm).
Proof.
  intros Hin Hdiv Himm Hnz Hp2. pose proof x86_64_size_cases as Hw.
  destruct (divisor_cases w 64 imm ltac:(lia) Himm Hnz) as [(_ & k & Hk & Ea & Eabs)|[? _]]; [|congruence].
  unfold DivByPowerOfTwo, GetTemp. rewrite Hp2, (constant_temps imm Hin), Hdiv, Ea.
  rewrite (CTZ_signed_pow2 64 imm k) by (done || lia). rewrite output_div, Hdiv.
  cbn [dcheck mbind option_bind lookup list_lookup].
  rewrite (adjusted_quot n imm k) by (done || lia).
  destruct (is_long i) eqn:Hl; cbn [negb]; eexists; (split; [reflexivity|]).
  - destruct (adjust64_correct k Hl ltac:(lia)) as (s1 & E1 & H1 & Hfr1).
    destruct (x86_div_pow2_end 64 s1 k imm RDX RAX (adjusted n k)) as (s2 & E2 & H2 & Hfr2); [lia|lia| |].
    { unfold size in H1. by rewrite Hl in H1. }
    eapply computes_execs.
    + rewrite execs_app, E1. exact E2.
    + destruct (2 ^ k =? 2), (imm <? 0); unfold Load64BitValue; repeat case_match; simpl; lia.
    + rewrite output_div, Hdiv. unfold size. by rewrite Hl.
    + intros. rewrite Hfr2, Hfr1 by done. done.
  - destruct (adjust32_correct k Hl) as (s1 & E1 & H1 & Hfr1).
    { unfold size in Hk. by rewrite Hl in Hk. }
    destruct (x86_div_pow2_end 32 s1 k imm RDX RAX (adjusted n k)) as (s2 & E2 & H2 & Hfr2); [lia|lia| |].
    { unfold size in H1. by rewrite Hl in H1. }
    eapply computes_execs.
    + rewrite execs_app, E1. exact E2.
    + destruct (2 ^ k =? 2), (imm <? 0); simpl; lia.
    + rewrite output_div, Hdiv. unfold size. by rewrite Hl.
    + intros. rewrite Hfr2, Hfr1 by done. done.
Qed.

(** The low bits of a register. *)
Lemma x86_64_low_bits k : 0 <= k <= w -> Z.land (read w s RAX) (wrap w (2 ^ k - 1)) = n mod 2 ^ k.
Proof.
  intros. pose proof x86_64_size_cases. unfold read, dividend, reads. rewrite land_low by done.
  by rewrite word_swrap_mod by lia.
Qed.

Lemma rem_value_is_s imm : imm <> 0 -> swrap w (Z.rem n imm) = Z.rem n imm.
Proof.
  intros. apply swrap_id; [destruct x86_64_size_cases; lia|]. apply rem_is_s; [apply reads_range|done].
Qed.

(** The test for zero low bits and the jump over the correction [c]. *)
Lemma rem_pow2_code imm k (pre mid : list instr) s1 v :
  IsDiv i = false -> imm <> 0 -> 0 <= k < w -> Z.abs imm = 2 ^ k ->
  Forall (fun i => forall l, i <> Bind l) (pre ++ mid) -> (length pre + length mid < 50)%nat ->
  execs pre s = Some s1 -> flags s1 = logic_flags w v -> v = n mod 2 ^ k -> reads w s1 RDX = swrap w v ->
  (exists s2, execs mid s1 = Some s2 /\
    (n mod 2 ^ k <> 0 ->
     reads w s2 RDX = swrap w (if n <? 0 then n mod 2 ^ k - 2 ^ k else n mod 2 ^ k)) /\
    forall r, r <> RDX -> r <> free_temp i -> regs s2 r = regs s1 r) ->
  (forall r, r <> RDX -> r <> free_temp i -> regs s1 r = regs s r) ->
  computes (pre ++ [j kZero done_label] ++ mid ++ [Bind done_label]) [] (Z.rem n imm).
Proof.
  intros Hdiv Hnz Hk Eabs Hnb Hlen Hpre Hfl Hv Hr (s2 & Hmid & Hr2 & Hfr2) Hfr1.
  pose proof x86_64_size_cases as Hw.
  unfold computes. set (prog := program _ _).
  assert (Hprog : prog = (pre ++ [j kZero done_label]) ++ (mid ++ [Bind done_label; leave])).
  { unfold prog, program. by rewrite <- !app_assoc. }
  assert (Hfind : find_label done_label prog = Some [leave]).
  { rewrite Hprog. rewrite <- app_assoc. apply Forall_app in Hnb as [Hp Hm].
    assert (forall c rest, Forall (fun i => forall l, i <> Bind l) c ->
      find_label done_label (c ++ rest) = find_label done_label rest) as Hskip.
    { induction c as [|x c IH]; intros rest Hc; [done|]. apply Forall_cons_1 in Hc as [Hx Hc].
      destruct x; simpl; auto. by destruct (Hx l). }
    rewrite Hskip by done. simpl. by rewrite Hskip. }
  assert (Hz : holds s1 kZero = Some (n mod 2 ^ k =? 0)).
  { unfold holds. rewrite Hfl. simpl. do 2 f_equal. rewrite Hv.
    pose proof (Z.mod_pos_bound n (2 ^ k) ltac:(apply pow2_pos; lia)).
    assert (2 ^ k < 2 ^ w) by (apply Z.pow_lt_mono_r; lia). apply wrap_id. unfold is_u. lia. }
  assert (Hrun : run 60 prog prog s = Some (if n mod 2 ^ k =? 0 then s1 else s2)).
  { rewrite Hprog at 2. rewrite <- app_assoc. rewrite (run_execs pre s s1) by (done || lia).
    destruct (60 - length pre)%nat as [|f] eqn:Ef; [lia|]. cbn [app].
    rewrite (run_j _ _ _ _ _ _ _ Hz), Hfind. destruct (n mod 2 ^ k =? 0).
    - cbn [mbind option_bind]. destruct f; [lia|done].
    - rewrite (run_execs mid s1 s2) by (done || lia).
      destruct (f - length mid)%nat as [|[|f']] eqn:Ef'; [lia|lia|done]. }
  rewrite Hrun. eexists. split; [reflexivity|]. rewrite output_div, Hdiv.
  rewrite (rem_low n imm k) by (done || lia). split.
  - destruct (Z.eqb_spec (n mod 2 ^ k) 0) as [E0|E0]; [by rewrite Hr, Hv, E0|]. rewrite Hr2 by done. done.
  - intros. destruct (_ =? _); [by apply Hfr1|]. rewrite Hfr2, Hfr1 by done. done.
Qed.

Lemma rem_correction32 k s1 :
  is_long i = false -> 0 <= k < w -> reads w s1 RDX = swrap w (n mod 2 ^ k) ->
  regs s1 RAX = regs s RAX ->
  exists s2, execs [lea 32 (free_temp i) RDX (s32 (Z.lnot (2 ^ k - 1))); test 32 RAX RAX;
                    cmov 32 kLess RDX (free_temp i)] s1 = Some s2 /\
    (n mod 2 ^ k <> 0 ->
     reads w s2 RDX = swrap w (if n <? 0 then n mod 2 ^ k - 2 ^ k else n mod 2 ^ k)) /\
    forall r, r <> RDX -> r <> free_temp i -> regs s2 r = regs s1 r.
Proof.
  intros Hl Hk Hr Hrax. assert (w = 32) as Ew by (unfold size; by rewrite Hl).
  unfold dividend in *. rewrite Ew in *. eexists. split.
  { erewrite execs_step by reflexivity. erewrite execs_step by reflexivity.
    erewrite execs_step by (apply exec1_cmov, holds_test; lia). reflexivity. }
  split; [|frame]. intros _. rewrite reads_write_same by lia.
  rewrite !reads_write_other by (unfold RAX, RDX in *; lia).
  assert (reads 32 s1 RAX = reads 32 s RAX) as -> by (unfold reads; by rewrite Hrax).
  destruct (reads 32 s RAX <? 0).
  - rewrite reads_read, reads_set_flags, reads_write_same by lia. replace (Z.lnot (2 ^ k - 1)) with (- 2 ^ k) by (unfold Z.lnot; lia).
    rewrite <- (swrap_add_l 32 (regs s1 RDX)) by lia. fold (reads 32 s1 RDX).
    rewrite Hr, swrap_add_l, Z.add_comm, swrap_add_l by lia. f_equal. lia.
  - rewrite reads_read, reads_set_flags, reads_write_other by (unfold RAX, RDX in *; lia). done.
Qed.

Lemma rem_correction64 k s1 :
  is_long i = true -> 0 <= k < w -> reads w s1 RDX = swrap w (n mod 2 ^ k) ->
  regs s1 RAX = regs s RAX ->
  exists s2, execs [mov 64 (free_temp i) RAX; sar 64 (free_temp i) 63; shl 64 (free_temp i) k;
                    or_ 64 RDX (free_temp i)] s1 = Some s2 /\
    (n mod 2 ^ k <> 0 ->
     reads w s2 RDX = swrap w (if n <? 0 then n mod 2 ^ k - 2 ^ k else n mod 2 ^ k)) /\
    forall r, r <> RDX -> r <> free_temp i -> regs s2 r = regs s1 r.
Proof.
  intros Hl Hk Hr Hrax. assert (w = 64) as Ew by (unfold size; by rewrite Hl).
  unfold dividend in *. rewrite Ew in *. eexists. split.
  { erewrite execs_step by reflexivity. erewrite execs_step by reflexivity.
    erewrite execs_step by reflexivity. erewrite execs_step by reflexivity. reflexivity. }
  split; [|frame]. intros _. rewrite reads_set_flags, reads_write_same by lia.
  unfold read. cbn [regs set_flags write]. rewrite !upd_same, !upd_other by (unfold RAX, RDX in *; lia).
  rewrite Hrax. set (x := reads 64 s RAX) in *.
  assert (is_s 64 x) as Hx by (apply reads_is_s; lia).
  pose proof (Z.mod_pos_bound x (2 ^ k) ltac:(apply pow2_pos; lia)).
  assert (2 ^ k <= 2 ^ 63) by (apply Z.pow_le_mono_r; lia).
  assert (u64 (regs s1 RDX) = x mod 2 ^ k) as ->.
  { rewrite <- wrap_swrap by lia. fold (reads 64 s1 RDX). rewrite Hr, wrap_swrap by lia.
    apply wrap_id. unfold is_u. lia. }
  unfold asr, lsl. autorewrite with word. fold (reads 64 s RAX). fold x.
  change (Z.shiftr x 63) with (Z.shiftr x (64 - 1)). rewrite shiftr_sign by (done || lia).
  rewrite Z.shiftl_mul_pow2, wrap_mul_l by lia. destruct (x <? 0).
  - replace (-1 * 2 ^ k) with (- 2 ^ k) by lia. rewrite lor_sign, swrap_wrap by lia. done.
  - rewrite Z.mul_0_l, Z.lor_0_r. done.
Qed.

(** The sequence for int; x86 and x86-64 share it. *)
Lemma rem_pow2_32 imm k :
  IsDiv i = false -> is_long i = false -> imm <> 0 -> 0 <= k < w -> Z.abs imm = 2 ^ k ->
  computes [mov 32 RDX RAX; andi 32 RDX (2 ^ k - 1); j kZero done_label;
            lea 32 (free_temp i) RDX (s32 (Z.lnot (2 ^ k - 1))); test 32 RAX RAX;
            cmov 32 kLess RDX (free_temp i); Bind done_label] [] (Z.rem n imm).
Proof.
  intros Hdiv Hl Hnz Hk Eabs. assert (w = 32) as Ew by (unfold size; by rewrite Hl).
  match goal with |- computes (?a :: ?b :: ?c :: ?d :: ?e :: ?f :: ?h) _ _ =>
    change (a :: b :: c :: d :: e :: f :: h) with ([a; b] ++ [c] ++ [d; e; f] ++ h) end.
  set (sA := write 32 RDX (read 32 s RAX) s).
  assert (Hv : Z.land (read 32 sA RDX) (u32 (2 ^ k - 1)) = n mod 2 ^ k).
  { rewrite <- x86_64_low_bits, Ew by lia. f_equal. unfold sA, read, write; simpl. by rewrite upd_same, !wrap_wrap by lia. }
  apply rem_pow2_code with (k := k)
    (s1 := set_flags (logic_flags 32 (n mod 2 ^ k)) (write 32 RDX (n mod 2 ^ k) sA)) (v := n mod 2 ^ k);
    try done.
  - repeat constructor; congruence.
  - simpl; lia.
  - erewrite execs_step by reflexivity. fold sA. erewrite execs_step by reflexivity. by rewrite Hv.
  - by rewrite Ew.
  - rewrite Ew, reads_set_flags, reads_write_same by lia. done.
  - apply (rem_correction32 k _ Hl Hk).
    + rewrite Ew, reads_set_flags, reads_write_same by lia. done.
    + by unfold sA; autorewrite with x86.
  - intros. unfold sA. by autorewrite with x86.
Qed.

Lemma rem_pow2_64 imm k :
  IsDiv i = false -> is_long i = true -> imm <> 0 -> 0 <= k < w -> Z.abs imm = 2 ^ k ->
  computes (Load64BitValue (free_temp i) (s64 (2 ^ k - 1)) ++
            [mov 64 RDX RAX; and_ 64 RDX (free_temp i); j kZero done_label;
             mov 64 (free_temp i) RAX; sar 64 (free_temp i) 63; shl 64 (free_temp i) k;
             or_ 64 RDX (free_temp i); Bind done_label]) [] (Z.rem n imm).
Proof.
  intros Hdiv Hl Hnz Hk Eabs. assert (w = 64) as Ew by (unfold size; by rewrite Hl).
  destruct (Load64BitValue_loads (free_temp i) (s64 (2 ^ k - 1)) ltac:(apply swrap_is_s; lia) s)
    as (s0 & E0 & H0 & Hfr0).
  assert (Hrax : regs s0 RAX = regs s RAX) by (apply Hfr0; intuition congruence).
  match goal with |- computes (?l ++ ?a :: ?b :: ?c :: ?d :: ?e :: ?f :: ?g :: ?h) _ _ =>
    replace (l ++ a :: b :: c :: d :: e :: f :: g :: h) with ((l ++ [a; b]) ++ [c] ++ [d; e; f; g] ++ h)
      by (by rewrite <- app_assoc) end.
  set (sA := write 64 RDX (read 64 s0 RAX) s0).
  assert (Hv : Z.land (read 64 sA RDX) (read 64 sA (free_temp i)) = n mod 2 ^ k).
  { rewrite <- x86_64_low_bits, Ew by lia. f_equal.
    - unfold sA, read, write; simpl. by rewrite upd_same, !wrap_wrap, Hrax by lia.
    - unfold sA, read, write; simpl. rewrite upd_other by (intuition congruence).
      rewrite <- wrap_swrap by lia. fold (reads 64 s0 (free_temp i)). by rewrite H0, wrap_swrap by lia. }
  apply rem_pow2_code with (k := k)
    (s1 := set_flags (logic_flags 64 (n mod 2 ^ k)) (write 64 RDX (n mod 2 ^ k) sA)) (v := n mod 2 ^ k);
    try done.
  - unfold Load64BitValue. repeat case_match; repeat constructor; congruence.
  - unfold Load64BitValue. repeat case_match; simpl; lia.
  - rewrite execs_app, E0. cbn [mbind option_bind]. erewrite execs_step by reflexivity. fold sA.
    erewrite execs_step by reflexivity. fold sA. by rewrite Hv.
  - by rewrite Ew.
  - rewrite Ew, reads_set_flags, reads_write_same by lia. done.
  - apply (rem_correction64 k _ Hl Hk).
    + rewrite Ew, reads_set_flags, reads_write_same by lia. done.
    + by unfold sA; autorewrite with x86.
  - intros. unfold sA. autorewrite with x86. by apply Hfr0.
Qed.

Lemma x86_64_RemByPowerOfTwo_correct imm :
  InAt1 i = Constant imm -> IsDiv i = false -> is_s w imm -> imm <> 0 ->
  IsPowerOfTwo_signed 64 (AbsOrMin 64 imm) = true ->
  exists c, RemByPowerOfTwo i imm = Some c /\ computes c [] (Z.rem n imm).
Proof.
  intros Hin Hdiv Himm Hnz Hp2. pose proof x86_64_size_cases as Hw.
  destruct (divisor_cases w 64 imm ltac:(lia) Himm Hnz) as [(_ & k & Hk & Ea & Eabs)|[? _]]; [|congruence].
  unfold RemByPowerOfTwo, GetTemp. rewrite Hp2, (constant_temps imm Hin), Hdiv, Ea.
  rewrite output_div, Hdiv. cbn [dcheck mbind option_bind lookup list_lookup].
  unfold WhichPowerOf2. rewrite CTZ_pow2 by lia.
  destruct (is_long i) eqn:Hl; cbn [negb]; eexists; (split; [reflexivity|]);
    [by apply rem_pow2_64|by apply rem_pow2_32].
Qed.

Lemma magic_code_length w' t load imm magic shift finish :
  (length load <= 1)%nat -> (length finish <= 4)%nat ->
  (length (magic_code w' t load imm magic shift finish) < 60)%nat.
Proof.
  intros. unfold magic_code. rewrite !length_app. simpl. repeat case_match; simpl; lia.
Qed.

Lemma x86_64_GenerateDivRemWithAnyConstant_correct imm :
  InAt1 i = Constant imm -> is_s w imm -> imm <> 0 ->
  IsPowerOfTwo_signed 64 (AbsOrMin 64 imm) = false ->
  exists c, GenerateDivRemWithAnyConstant i imm = Some c /\ computes c [] (result imm).
Proof.
  intros Hin Himm Hnz Hp2. pose proof x86_64_size_cases as Hw.
  destruct (divisor_cases w 64 imm ltac:(lia) Himm Hnz) as [[? _]|(_ & H3 & Hnp)]; [congruence|].
  destruct (Calculate_ok w imm Hw Himm H3 Hnp) as (m & shift & E & Hok).
  set (load := if is_long i then Load64BitValue RAX (swrap w (Z.sgn imm * m))
               else [movi 32 RAX (swrap w (Z.sgn imm * m))]).
  assert (Hload : loads w load RAX (swrap w (Z.sgn imm * m)) /\ (length load <= 1)%nat).
  { unfold load, size. destruct (is_long i).
    - split; [apply Load64BitValue_loads, swrap_is_s; lia|]. unfold Load64BitValue. repeat case_match; simpl; lia.
    - split; [|done]. intros s0. cbn [execs exec1 mbind option_bind]. eexists. split; [reflexivity|].
      split; [rewrite reads_write_same by lia|frame]. apply swrap_id; [lia|]. apply swrap_is_s. lia. }
  destruct Hload as [Hload Hlen].
  set (fin := if IsDiv i then [mov w RAX RDX] else rem_finish w (free_temp i) (imuli w RDX
    (if is_long i then if bool_decide (is_s 32 imm) then s32 imm else imm else imm))).
  assert (Hc : GenerateDivRemWithAnyConstant i imm =
    Some (magic_code w (free_temp i) load imm (swrap w (Z.sgn imm * m)) shift fin)).
  { unfold GenerateDivRemWithAnyConstant, GetTemp. rewrite (constant_temps imm Hin), output_div.
    unfold fin, load, size in *. destruct (IsDiv i), (is_long i); cbn [lookup list_lookup mbind option_bind negb dcheck Nat.eqb RAX RDX];
      cbn [Z.eqb Pos.eqb] in E; rewrite E; cbn [mbind option_bind]; try reflexivity.
    destruct (bool_decide (is_s 32 imm)); reflexivity. }
  eexists. split; [exact Hc|]. unfold result. unfold fin. destruct (IsDiv i) eqn:Hdiv.
  - destruct (magic_code_div w imm m shift (free_temp i) load s Hw Ht Hnz Hok Hload) as (s' & Es & Hr & Hfr).
    eapply computes_execs; [exact Es|apply magic_code_length; [done|simpl; lia]| |done].
    by rewrite output_div, Hdiv.
  - edestruct (magic_code_rem w imm m shift (free_temp i) load s Hw Ht Hnz Hok Hload) as (s' & Es & Hr & Hfr).
    2:{ eapply computes_execs; [exact Es|apply magic_code_length; [done|simpl; lia]| |done].
        rewrite output_div, Hdiv, Hr. symmetry. by apply rem_value_is_s. }
    unfold size in *. destruct (is_long i).
    + destruct (bool_decide_reflect (is_s 32 imm)); [rewrite (swrap_id 32 imm) by (done || lia)|]; apply swrap_id; done.
    + by apply swrap_id.
Qed.

(** A divisor in a register: the division instruction, or the slow path. *)
Lemma x86_64_register_correct r :
  InAt1 i = InRegister r -> r <> RAX -> r <> RDX -> reads w s r <> 0 ->
  exists c slow, GenerateDivRemIntegral i = Some (c, slow) /\ computes c slow (result (reads w s r)).
Proof.
  intros Hin Hr1 Hr2 Hnz. pose proof x86_64_size_cases as Hw.
  unfold GenerateDivRemIntegral. rewrite Hin.
  replace (if IsDiv i then _ else _) with true by (rewrite output_div; by destruct (IsDiv i)).
  cbn [dcheck mbind option_bind]. fold w. eexists _, _. split; [reflexivity|].
  destruct (register_code_correct w (IsDiv i) (if is_long i then cqo else cdq) (xor_ 32 RDX RDX)
    slow_entry slow_exit r s Hw) as (s' & Hrun & Hr & Hfr); try done.
  - unfold size. destruct (is_long i); [apply extends_cqo|apply extends_cdq].
  - apply clears_xor; lia.
  - exists s'. split; [|split; [by rewrite output_div|by auto]].
    rewrite <- Hrun. unfold register_code, DivRemMinusOneSlowPathX86_64. rewrite output_div. unfold size. by destruct (IsDiv i).
Qed.

(** Every divisor. *)
Lemma x86_64_Integral_computes d :
  match InAt1 i with
  | Constant imm => d = imm /\ is_s w imm
  | InRegister r => d = reads w s r /\ r <> RAX /\ r <> RDX
  end -> d <> 0 ->
  exists c slow, GenerateDivRemIntegral i = Some (c, slow) /\ computes c slow (result d).
Proof.
  intros Hd Hnz. destruct (InAt1 i) as [imm|r] eqn:Hin.
  2:{ destruct Hd as (-> & Hr1 & Hr2). by apply x86_64_register_correct. }
  destruct Hd as [-> Himm]. unfold GenerateDivRemIntegral. rewrite Hin.
  replace (if IsDiv i then _ else _) with true by (rewrite output_div; by destruct (IsDiv i)).
  cbn [dcheck mbind option_bind]. rewrite (proj2 (Z.eqb_neq imm 0)) by done.
  destruct ((imm =? 1) || (imm =? -1)) eqn:E1.
  { destruct (x86_64_DivRemOneOrMinusOne_correct imm) as (c & -> & H); [lia|]. exists c, []. done. }
  destruct (IsPowerOfTwo_signed 64 (AbsOrMin 64 imm)) eqn:E2.
  - unfold result. destruct (IsDiv i) eqn:Hdiv.
    + destruct (x86_64_DivByPowerOfTwo_correct imm Hin Hdiv Himm Hnz E2) as (c & -> & H). exists c, []. done.
    + destruct (x86_64_RemByPowerOfTwo_correct imm Hin Hdiv Himm Hnz E2) as (c & -> & H). exists c, []. done.
  - replace ((imm <=? -2) || (2 <=? imm)) with true by lia. cbn [dcheck mbind option_bind].
    destruct (x86_64_GenerateDivRemWithAnyConstant_correct imm Hin Himm Hnz E2) as (c & -> & H). exists c, []. done.
Qed.

Lemma java_result d :
  d <> 0 -> swrap w (result d) = if IsDiv i then java_div w n d else java_rem w n d.
Proof.
  intros Hd. unfold result, java_div, java_rem. destruct (IsDiv i); [done|]. by apply rem_value_is_s.
Qed.

End correct.

(** C7: on x86-64 the code generated for an int or long division or remainder,
    by a constant or a register, together with its slow path leaves the Java
    quotient or remainder in the output register, for every dividend and every
    non-zero divisor: no division instruction faults (the overflow of the
    smallest value divided by -1 takes the slow path), and no register other
    than RAX, RDX and the temporary changes. *)
Theorem x86_64_div_rem_correct i s d :
  free_temp i <> RAX /\ free_temp i <> RDX ->
  match InAt1 i with
  | Constant imm => d = imm /\ is_s (size i) imm
  | InRegister r => d = reads (size i) s r /\ r <> RAX /\ r <> RDX
  end -> d <> 0 ->
  exists main slow s', GenerateDivRemIntegral i = Some (main, slow) /\
    run 60 (program main slow) (program main slow) s = Some s' /\
    reads (size i) s' (output_register i) =
      (if IsDiv i then java_div (size i) (dividend i s) d else java_rem (size i) (dividend i s) d) /\
    forall r, r <> RAX -> r <> RDX -> r <> free_temp i -> regs s' r = regs s r.
Proof.
  intros Ht Hd Hnz. destruct (x86_64_Integral_computes i s Ht d Hd Hnz) as (c & slow & E & s' & Er & Ho & Hf).
  exists c, slow, s'. rewrite Ho, java_result by done. done.
Qed.

Lemma x86_64_div_rem_correct_witness :
  let i := {| IsDiv := true; is_long := true; InAt1 := InRegister 6%nat; free_temp := 1%nat |} in
  let s := {| regs := fun r => if (r =? 0)%nat then 2 ^ 63 else 2 ^ 64 - 1; flags := None |} in
  exists main slow s', GenerateDivRemIntegral i = Some (main, slow) /\
    run 60 (program main slow) (program main slow) s = Some s' /\ reads 64 s' RAX = - 2 ^ 63.
Proof.
  intros i s. destruct (x86_64_div_rem_correct i s (-1)) as (c & slow & s' & E & R & O & _).
  - done.
  - split; [reflexivity|done].
  - done.
  - exists c, slow, s'. split; [exact E|]. split; [exact R|]. exact O.
Defined.

End X86_64.
