(* ===== verification/DivX86.v ===== *)
(** * Integer division and remainder on x86

    The functions of compiler/optimizing/code_generator_x86.cc that generate
    code for [HDiv] and [HRem] of integral types, with the slow path for a
    divisor of -1 placed after the code.  An int operation generates code; a
    long operation calls the runtime.  Where the code for ints is the code that
    x86-64 generates, its lemmas are those of DivX86_64. *)

From Stdlib Require Import ZArith Lia Bool List.
From stdpp Require Import base numbers list option.
From S2P Require Import Prelude BitUtils MachineWord DivMagic X86Machine DivX86_64.

Local Open Scope Z_scope.
Local Open Scope art_scope.

Module X86.
Import X86Machine.

Inductive QuickEntrypoint := kQuickLdiv | kQuickLmod.

Inductive Generated :=
  | Code (main slow : list instr)
  | InvokeRuntime (e : QuickEntrypoint).

Section generators.
Context (i : HBinaryOperation).

Definition out_register : Register := Out (VisitDivRem_locations i).

Definition DivRemOneOrMinusOne (imm : Z) : option (list instr) :=
  DCHECK (imm =? 1) || (imm =? -1);
  if negb (IsDiv i) then Some [xor_ 32 out_register out_register]
  else Some (mov 32 out_register RAX :: if imm =? -1 then [neg 32 out_register] else []).

Definition done_label : Label := 0%nat.

Definition RemByPowerOfTwo (imm : Z) : option (list instr) :=
  let out := out_register in
  let numerator := RAX in
  DCHECK IsPowerOfTwo_signed 32 (AbsOrMin 32 imm);
  let abs_imm := u32 (AbsOrMin 32 imm) in
  tmp ← GetTemp i 0;
  Some [mov 32 out numerator;
        andi 32 out (abs_imm - 1);
        j kZero done_label;
        lea 32 tmp out (s32 (Z.lnot (abs_imm - 1)));
        test 32 numerator numerator;
        cmov 32 kLess out tmp;
        Bind done_label].

Definition DivByPowerOfTwo (imm : Z) : option (list instr) :=
  let input_register := RAX in
  DCHECK IsPowerOfTwo_signed 32 (AbsOrMin 32 imm);
  let abs_imm := u32 (AbsOrMin 32 imm) in
  num ← GetTemp i 0;
  let shift := CTZ (u32 imm) in
  Some ([lea 32 num input_register (s32 (abs_imm - 1));
         test 32 input_register input_register;
         cmov 32 kGreaterEqual num input_register] ++
        [sar 32 num shift] ++
        (if imm <? 0 then [neg 32 num] else []) ++
        [mov 32 out_register num]).

Definition GenerateDivRemWithAnyConstant (imm : Z) : option (list instr) :=
  let eax := RAX in
  let out := out_register in
  edx ← (if IsDiv i then GetTemp i 0 else Some out_register);
  num ← (if IsDiv i then GetTemp i 1 else GetTemp i 0);
  DCHECK (edx =? RDX)%nat;
  DCHECK (if IsDiv i then out =? RAX else out =? RDX)%nat;
  '(magic, shift) ← CalculateMagicAndShiftForDivRem imm false;
  Some ([mov 32 num eax; movi 32 eax magic; imul 32 num] ++
        (if (0 <? imm) && (magic <? 0) then [add 32 edx num]
         else if (imm <? 0) && (0 <? magic) then [sub 32 edx num] else []) ++
        (if negb (shift =? 0) then [sar 32 edx shift] else []) ++
        [mov 32 eax edx; shr 32 edx 31; add 32 edx eax] ++
        (if negb (IsDiv i) then
           [mov 32 eax num; imuli 32 edx imm; sub 32 eax edx; mov 32 edx eax]
         else [mov 32 eax edx])).

Definition slow_entry : Label := 1%nat.
Definition slow_exit : Label := 2%nat.

Definition DivRemMinusOneSlowPathX86 (reg : Register) : list instr :=
  [Bind slow_entry; if IsDiv i then neg 32 reg else movi 32 reg 0; jmp slow_exit].

Definition GenerateDivRemIntegral : option Generated :=
  let out := out_register in
  if is_long i then Some (InvokeRuntime (if IsDiv i then kQuickLdiv else kQuickLmod))
  else
    DCHECK (out =? if IsDiv i then RAX else RDX)%nat;
    match InAt1 i with
    | Constant imm =>
        if imm =? 0 then Some (Code [] []) (* the code is not reached *)
        else if (imm =? 1) || (imm =? -1) then c ← DivRemOneOrMinusOne imm; Some (Code c [])
        else if IsPowerOfTwo_signed 32 (AbsOrMin 32 imm) then
          c ← (if IsDiv i then DivByPowerOfTwo imm else RemByPowerOfTwo imm); Some (Code c [])
        else
          DCHECK (imm <=? -2) || (2 <=? imm);
          c ← GenerateDivRemWithAnyConstant imm; Some (Code c [])
    | InRegister second_reg =>
        Some (Code [cmpi 32 second_reg (-1);
                    j kEqual slow_entry;
                    cdq;
                    idiv 32 second_reg;
                    Bind slow_exit]
                   (DivRemMinusOneSlowPathX86 out))
    end.

End generators.

(** ** Correctness *)

Section correct.
Context (i : HBinaryOperation) (s : state).
Hypothesis Hint : is_long i = false.
Hypothesis Ht : free_temp i <> RAX /\ free_temp i <> RDX.
Local Abbreviation n := (reads 32 s RAX).

Lemma size_32 : X86_64.size i = 32.
Proof. unfold X86_64.size. by rewrite Hint. Qed.

Lemma dividend_32 : X86_64.dividend i s = n.
Proof. unfold X86_64.dividend. by rewrite size_32. Qed.

Lemma x86_DivByPowerOfTwo_correct imm :
  InAt1 i = Constant imm -> IsDiv i = true -> is_s 32 imm -> imm <> 0 ->
  IsPowerOfTwo_signed 32 (AbsOrMin 32 imm) = true ->
  exists c, DivByPowerOfTwo i imm = Some c /\ X86_64.computes i s c [] (Z.quot n imm).
Proof.
  intros Hin Hdiv Himm Hnz Hp2.
  destruct (divisor_cases 32 32 imm ltac:(lia) Himm Hnz) as [(_ & k & Hk & Ea & Eabs)|[? _]]; [|congruence].
  unfold DivByPowerOfTwo, GetTemp. rewrite Hp2, (X86_64.constant_temps i imm Hin), Hdiv, Ea.
  rewrite (CTZ_signed_pow2 32 imm k) by (done || lia).
  change (out_register i) with (X86_64.output_register i). rewrite X86_64.output_div, Hdiv.
  cbn [dcheck mbind option_bind lookup list_lookup]. eexists. split; [reflexivity|].
  destruct (X86_64.adjust_lea i s Ht 32 k Hint Hk ltac:(lia)) as (s1 & E1 & H1 & Hfr1).
  rewrite size_32, dividend_32 in H1.
  destruct (x86_div_pow2_end 32 s1 k imm RDX RAX (adjusted n k)) as (s2 & E2 & H2 & Hfr2); [lia|lia|done|].
  eapply X86_64.computes_execs.
  - rewrite execs_app, E1. exact E2.
  - destruct (imm <? 0); simpl; lia.
  - rewrite X86_64.output_div, Hdiv, size_32, H2. f_equal. symmetry. apply adjusted_quot; (done || lia).
  - intros. rewrite Hfr2, Hfr1 by done. done.
Qed.

Lemma x86_RemByPowerOfTwo_correct imm :
  InAt1 i = Constant imm -> IsDiv i = false -> is_s 32 imm -> imm <> 0 ->
  IsPowerOfTwo_signed 32 (AbsOrMin 32 imm) = true ->
  exists c, RemByPowerOfTwo i imm = Some c /\ X86_64.computes i s c [] (Z.rem n imm).
Proof.
  intros Hin Hdiv Himm Hnz Hp2.
  destruct (divisor_cases 32 32 imm ltac:(lia) Himm Hnz) as [(_ & k & Hk & Ea & Eabs)|[? _]]; [|congruence].
  unfold RemByPowerOfTwo, GetTemp. rewrite Hp2, (X86_64.constant_temps i imm Hin), Hdiv, Ea.
  change (out_register i) with (X86_64.output_register i). rewrite X86_64.output_div, Hdiv.
  cbn [dcheck mbind option_bind lookup list_lookup]. eexists. split; [reflexivity|].
  rewrite <- dividend_32. apply X86_64.rem_pow2_32; rewrite ?size_32; done.
Qed.

(** The other sequences are those of x86-64 for int. *)
Lemma DivRemOneOrMinusOne_same imm : DivRemOneOrMinusOne i imm = X86_64.DivRemOneOrMinusOne i imm.
Proof. unfold DivRemOneOrMinusOne, X86_64.DivRemOneOrMinusOne. by rewrite Hint. Qed.

Lemma GenerateDivRemWithAnyConstant_same imm :
  GenerateDivRemWithAnyConstant i imm = X86_64.GenerateDivRemWithAnyConstant i imm.
Proof.
  unfold GenerateDivRemWithAnyConstant, X86_64.GenerateDivRemWithAnyConstant. rewrite Hint. cbn [negb].
  change (X86_64.output_register i) with (out_register i).
  destruct (IsDiv i); [|reflexivity]. by destruct (GetTemp i 0), (GetTemp i 1).
Qed.

Lemma x86_register_correct r :
  InAt1 i = InRegister r -> r <> RAX -> r <> RDX -> reads 32 s r <> 0 ->
  exists c slow, GenerateDivRemIntegral i = Some (Code c slow) /\
    X86_64.computes i s c slow (X86_64.result i s (reads 32 s r)).
Proof.
  intros Hin Hr1 Hr2 Hnz. unfold GenerateDivRemIntegral. rewrite Hint, Hin.
  change (out_register i) with (X86_64.output_register i). rewrite X86_64.output_div, Nat.eqb_refl.
  cbn [dcheck mbind option_bind]. eexists _, _. split; [reflexivity|].
  destruct (register_code_correct 32 (IsDiv i) cdq (movi 32 RDX 0) slow_entry slow_exit r s)
    as (s' & Hrun & Hr & Hfr); try done.
  - by left.
  - apply extends_cdq.
  - apply clears_movi; lia.
  - exists s'. split; [|split].
    + rewrite <- Hrun. unfold register_code, DivRemMinusOneSlowPathX86. by destruct (IsDiv i).
    + unfold X86_64.result. by rewrite X86_64.output_div, size_32, dividend_32.
    + auto.
Qed.

Lemma x86_Integral_computes d :
  match InAt1 i with
  | Constant imm => d = imm /\ is_s 32 imm
  | InRegister r => d = reads 32 s r /\ r <> RAX /\ r <> RDX
  end -> d <> 0 ->
  exists c slow, GenerateDivRemIntegral i = Some (Code c slow) /\
    X86_64.computes i s c slow (X86_64.result i s d).
Proof.
  intros Hd Hnz. destruct (InAt1 i) as [imm|r] eqn:Hin.
  2:{ destruct Hd as (-> & Hr1 & Hr2). by apply x86_register_correct. }
  destruct Hd as [-> Himm]. unfold GenerateDivRemIntegral. rewrite Hint, Hin.
  change (out_register i) with (X86_64.output_register i). rewrite X86_64.output_div, Nat.eqb_refl.
  cbn [dcheck mbind option_bind]. rewrite (proj2 (Z.eqb_neq imm 0)) by done.
  rewrite DivRemOneOrMinusOne_same, GenerateDivRemWithAnyConstant_same.
  destruct ((imm =? 1) || (imm =? -1)) eqn:E1.
  { destruct (X86_64.x86_64_DivRemOneOrMinusOne_correct i s Ht imm) as (c & -> & H); [lia|]. exists c, []. done. }
  destruct (IsPowerOfTwo_signed 32 (AbsOrMin 32 imm)) eqn:E2.
  - unfold X86_64.result. rewrite dividend_32. destruct (IsDiv i) eqn:Hdiv.
    + destruct (x86_DivByPowerOfTwo_correct imm Hin Hdiv Himm Hnz E2) as (c & -> & H). exists c, []. done.
    + destruct (x86_RemByPowerOfTwo_correct imm Hin Hdiv Himm Hnz E2) as (c & -> & H). exists c, []. done.
  - replace ((imm <=? -2) || (2 <=? imm)) with true by lia. cbn [dcheck mbind option_bind].
    destruct (X86_64.x86_64_GenerateDivRemWithAnyConstant_correct i s Ht imm Hin) as (c & -> & H);
      [by rewrite size_32|done| |by exists c, []].
    destruct (divisor_cases 32 32 imm ltac:(lia) Himm Hnz) as [[? _]|(_ & H3 & Hnp)]; [congruence|].
    destruct (divisor_cases 32 64 imm ltac:(lia) Himm Hnz) as [(_ & k & Hk & _ & Eabs)|[? _]]; [|done].
    destruct (Hnp k); [lia|done].
Qed.

End correct.

(** C11: on x86 the code generated for an int division or remainder, by a
    constant or a register, together with its slow path leaves the Java quotient
    or remainder in the output register, for every dividend and every non-zero
    divisor, without a fault; a long division or remainder calls the runtime. *)
Theorem x86_div_rem_correct i s d :
  free_temp i <> RAX /\ free_temp i <> RDX ->
  match InAt1 i with
  | Constant imm => d = imm /\ is_s 32 imm
  | InRegister r => d = reads 32 s r /\ r <> RAX /\ r <> RDX
  end -> d <> 0 ->
  if is_long i then
    GenerateDivRemIntegral i = Some (InvokeRuntime (if IsDiv i then kQuickLdiv else kQuickLmod))
  else
    exists main slow s', GenerateDivRemIntegral i = Some (Code main slow) /\
      run 60 (program main slow) (program main slow) s = Some s' /\
      reads 32 s' (out_register i) =
        (if IsDiv i then java_div 32 (reads 32 s RAX) d else java_rem 32 (reads 32 s RAX) d) /\
      forall r, r <> RAX -> r <> RDX -> r <> free_temp i -> regs s' r = regs s r.
Proof.
  intros Ht Hd Hnz. destruct (is_long i) eqn:Hl; [unfold GenerateDivRemIntegral; by rewrite Hl|].
  destruct (x86_Integral_computes i s Hl Ht d Hd Hnz) as (c & slow & E & s' & Er & Ho & Hf).
  exists c, slow, s'. rewrite X86_64.java_result in Ho by done.
  rewrite size_32, dividend_32 in Ho by done. done.
Qed.

Lemma x86_div_rem_correct_witness :
  let i := {| IsDiv := false; is_long := false; InAt1 := Constant (-8); free_temp := 1%nat |} in
  let s := {| regs := fun r => 2 ^ 32 - 13; flags := None |} in
  exists main slow s', GenerateDivRemIntegral i = Some (Code main slow) /\
    run 60 (program main slow) (program main slow) s = Some s' /\ reads 32 s' RDX = -5.
Proof.
  intros i s. destruct (x86_div_rem_correct i s (-8)) as (c & slow & s' & E & R & O & _).
  - done.
  - split; [reflexivity|]. vm_compute. split; [discriminate|reflexivity].
  - done.
  - exists c, slow, s'. split; [exact E|]. split; [exact R|]. exact O.
Defined.

End X86.
