(* ===== verification/DivArm.v ===== *)
(** * Integer division and remainder on ARM

    The functions of compiler/optimizing/code_generator_arm_vixl.cc that generate
    code for [HDiv] and [HRem] of integral types, and the locations that
    [LocationsBuilderARMVIXL] requests for them: the temporaries, and whether
    the output may share the register of an input.  The code is a list of
    instructions of the VIXL macro assembler, run by a machine with the
    semantics of the ARM instruction set.  Which constants ARM can encode as an
    immediate ([IsModifiedImmediate] of VIXL) is a parameter. *)

From Stdlib Require Import ZArith Lia Bool List.
From stdpp Require Import base numbers list option.
From S2P Require Import Prelude BitUtils MachineWord DivMagic.

Local Open Scope Z_scope.
Local Open Scope art_scope.

Module Arm.

(** ** Instructions *)

Abbreviation Register := nat (only parsing).

Inductive Shift := LSR | ASR.

Inductive Operand :=
  | Reg (r : Register)
  | Shifted (r : Register) (s : Shift) (amount : Z).

Inductive instr :=
  | MovImm (rd : Register) (imm : Z)
  | Mov (rd rm : Register)
  | Rsb (rd rn : Register) (imm : Z)
  | Add (rd rn : Register) (op : Operand)
  | Sub (rd rn : Register) (op : Operand)
  | And (rd rn : Register) (imm : Z)
  | Asr (rd rm : Register) (shift : Z)
  | Lsr (rd rm : Register) (shift : Z)
  | Ubfx (rd rn : Register) (lsb width : Z)
  | Bfc (rd : Register) (lsb width : Z)
  | Smull (rdlo rdhi rn rm : Register)
  | Mls (rd rn rm ra : Register)
  | Sdiv (rd rn rm : Register).

(** A register holds a signed 32-bit value. *)
Definition state := regfile.

Definition read (s : state) (r : Register) : Z := s32 (s r).

Definition write (s : state) (r : Register) (v : Z) : state := upd s r (s32 v).

Definition operand (s : state) (op : Operand) : Z :=
  match op with
  | Reg r => read s r
  | Shifted r LSR k => Z.shiftr (u32 (read s r)) k
  | Shifted r ASR k => Z.shiftr (read s r) k
  end.

(** A division by zero gives zero. *)
Definition exec1 (i : instr) (s : state) : state :=
  match i with
  | MovImm rd imm => write s rd imm
  | Mov rd rm => write s rd (read s rm)
  | Rsb rd rn imm => write s rd (imm - read s rn)
  | Add rd rn op => write s rd (read s rn + operand s op)
  | Sub rd rn op => write s rd (read s rn - operand s op)
  | And rd rn imm => write s rd (Z.land (read s rn) imm)
  | Asr rd rm k => write s rd (Z.shiftr (read s rm) k)
  | Lsr rd rm k => write s rd (Z.shiftr (u32 (read s rm)) k)
  | Ubfx rd rn lsb width => write s rd (Z.land (Z.shiftr (u32 (read s rn)) lsb) (Z.ones width))
  | Bfc rd lsb width => write s rd (Z.ldiff (read s rd) (Z.shiftl (Z.ones width) lsb))
  | Smull rdlo rdhi rn rm =>
      let p := read s rn * read s rm in write (write s rdlo p) rdhi (Z.shiftr p 32)
  | Mls rd rn rm ra => write s rd (read s ra - read s rn * read s rm)
  | Sdiv rd rn rm => write s rd (if read s rm =? 0 then 0 else Z.quot (read s rn) (read s rm))
  end.

Definition exec (c : list instr) (s : state) : state := fold_left (fun s i => exec1 i s) c s.

(** ** The instruction that is compiled *)

Inductive InLocation := Constant (value : Z) | InRegister (r : Register).

(** An [HDiv] or [HRem] of type int ([is_long = false]) or long, with the
    registers the allocator chose. *)
Record HBinaryOperation := {
  IsDiv : bool;
  is_long : bool;
  InAt0 : Register;
  InAt1 : InLocation;
  Out : Register;
  allocated_temps : list Register;
  HasNonNegativeInput : bool;
  HasNonNegativeOrMinIntInput : bool
}.

Inductive QuickEntrypoint := kQuickIdivmod | kQuickLdiv | kQuickLmod.

Inductive Generated :=
  | Code (c : list instr)
  | InvokeRuntime (e : QuickEntrypoint).

Section generators.
Context (IsModifiedImmediate : Z -> bool) (HasDivideInstruction : bool) (i : HBinaryOperation).

(** ** The requested locations: temporaries and the overlap of the output *)

Definition VisitDiv_locations : nat * bool :=
  match InAt1 i with
  | Constant value =>
      if (value =? 1) || (value =? 0) || (value =? -1) then (0%nat, false)
      else if IsPowerOfTwo_signed 32 (AbsOrMin 32 value) && negb (value =? 2) && negb (value =? -2) &&
              negb (HasNonNegativeOrMinIntInput i) then (0%nat, true)
      else (2%nat, false)
  | InRegister _ => (0%nat, false)
  end.

Definition VisitRem_locations : nat * bool :=
  match InAt1 i with
  | Constant value =>
      if (value =? 1) || (value =? 0) || (value =? -1) then (0%nat, false)
      else if IsPowerOfTwo_signed 32 (AbsOrMin 32 value) && negb (HasNonNegativeOrMinIntInput i)
      then (0%nat, true)
      else (2%nat, false)
  | InRegister _ => (if HasDivideInstruction then 1%nat else 0%nat, false)
  end.

Definition locations : nat * bool :=
  if is_long i then (0%nat, false) else if IsDiv i then VisitDiv_locations else VisitRem_locations.

(** Only the temporaries that were requested exist. *)
Definition GetTemp (k : nat) : option Register :=
  DCHECK (k <? fst locations)%nat; allocated_temps i !! k.

(** ** Code *)

Definition DivRemOneOrMinusOne (imm : Z) : option (list instr) :=
  DCHECK (imm =? 1) || (imm =? -1);
  Some (if negb (IsDiv i) then [MovImm (Out i) 0]
        else if imm =? 1 then [Mov (Out i) (InAt0 i)]
        else [Rsb (Out i) (InAt0 i) 0]).

Definition generate_div_code (imm ctz_imm : Z) (out in_ : Register) : list instr :=
  Asr out in_ ctz_imm :: if imm <? 0 then [Rsb out out 0] else [].

Definition DivRemByPowerOfTwo (imm : Z) : list instr :=
  let out := Out i in
  let dividend := InAt0 i in
  let abs_imm := u32 (AbsOrMin 32 imm) in
  let ctz_imm := CTZ abs_imm in
  if HasNonNegativeOrMinIntInput i then
    if IsDiv i then generate_div_code imm ctz_imm out dividend
    else if IsModifiedImmediate (abs_imm - 1) then [And out dividend (abs_imm - 1)]
    else [Ubfx out dividend 0 ctz_imm]
  else
    let '(c, add_right_input) :=
      if 1 <? ctz_imm then ([Asr out dividend 31], out) else ([], dividend) in
    c ++ [Add out dividend (Shifted add_right_input LSR (32 - ctz_imm))] ++
    (if IsDiv i then generate_div_code imm ctz_imm out out
     else [Bfc out 0 ctz_imm; Sub out dividend (Reg out)]).

Definition generate_unsigned_div_code (magic shift : Z) (out dividend temp1 temp2 : Register) :
    option (list instr) :=
  if (0 <? magic) && (shift =? 0) then
    Some [MovImm temp1 (s32 magic); Smull temp2 out dividend temp1]
  else
    DCHECK negb (shift =? 0);
    Some ([MovImm temp1 (s32 magic); Smull temp2 temp1 dividend temp1] ++
          (if magic <? 0 then [Add temp1 temp1 (Reg dividend)] else []) ++
          [Lsr out temp1 shift]).

Definition GenerateDivRemWithAnyConstant (imm : Z) : option (list instr) :=
  let out := Out i in
  let dividend := InAt0 i in
  temp1 ← GetTemp 0;
  temp2 ← GetTemp 1;
  '(magic, shift) ← CalculateMagicAndShiftForDivRem imm false;
  if (0 <? imm) && HasNonNegativeInput i then
    if IsDiv i then generate_unsigned_div_code magic shift out dividend temp1 temp2
    else
      c ← generate_unsigned_div_code magic shift temp1 dividend temp1 temp2;
      Some (c ++ [MovImm temp2 imm; Mls out temp1 temp2 dividend])
  else
    let c := [MovImm temp1 (s32 magic); Smull temp2 temp1 dividend temp1] ++
             (if (0 <? imm) && (magic <? 0) then [Add temp1 temp1 (Reg dividend)]
              else if (imm <? 0) && (0 <? magic) then [Sub temp1 temp1 (Reg dividend)] else []) ++
             (if negb (shift =? 0) then [Asr temp1 temp1 shift] else []) in
    Some (c ++ if IsDiv i then [Sub out temp1 (Shifted temp1 ASR 31)]
               else [Sub temp1 temp1 (Shifted temp1 ASR 31); MovImm temp2 imm; Mls out temp1 temp2 dividend]).

Definition GenerateDivRemConstantIntegral (imm : Z) : option (list instr) :=
  if imm =? 0 then Some [] (* the code is not reached *)
  else if (imm =? 1) || (imm =? -1) then DivRemOneOrMinusOne imm
  else if IsPowerOfTwo_signed 32 (AbsOrMin 32 imm) then Some (DivRemByPowerOfTwo imm)
  else
    DCHECK (imm <=? -2) || (2 <=? imm);
    GenerateDivRemWithAnyConstant imm.

(** The registers of the runtime's calling convention. *)
Definition r0 : Register := 0%nat.
Definition r1 : Register := 1%nat.

Definition VisitDiv : option Generated :=
  if is_long i then Some (InvokeRuntime kQuickLdiv)
  else match InAt1 i with
  | Constant imm => c ← GenerateDivRemConstantIntegral imm; Some (Code c)
  | InRegister rhs =>
      if HasDivideInstruction then Some (Code [Sdiv (Out i) (InAt0 i) rhs])
      else
        DCHECK (InAt0 i =? r0)%nat;
        DCHECK (rhs =? r1)%nat;
        DCHECK (Out i =? r0)%nat;
        Some (InvokeRuntime kQuickIdivmod)
  end.

Definition VisitRem : option Generated :=
  if is_long i then Some (InvokeRuntime kQuickLmod)
  else match InAt1 i with
  | Constant imm => c ← GenerateDivRemConstantIntegral imm; Some (Code c)
  | InRegister reg2 =>
      if HasDivideInstruction then
        temp ← GetTemp 0;
        Some (Code [Sdiv temp (InAt0 i) reg2; Mls (Out i) temp reg2 (InAt0 i)])
      else
        DCHECK (InAt0 i =? r0)%nat;
        DCHECK (reg2 =? r1)%nat;
        DCHECK (Out i =? r1)%nat;
        Some (InvokeRuntime kQuickIdivmod)
  end.

Definition Visit : option Generated := if IsDiv i then VisitDiv else VisitRem.

End generators.

(** ** Execution *)

Lemma arm_exec_app c1 c2 s : exec (c1 ++ c2) s = exec c2 (exec c1 s).
Proof. apply fold_left_app. Qed.

Lemma arm_read_write_same s r v : read (write s r v) r = s32 v.
Proof. unfold read, write. rewrite upd_same. apply swrap_id; [lia|]. apply swrap_is_s. lia. Qed.

Lemma arm_read_write_other s r v r' : r' <> r -> read (write s r v) r' = read s r'.
Proof. intros. unfold read, write. by rewrite upd_other. Qed.

Lemma arm_read_is_s s r : is_s 32 (read s r).
Proof. apply swrap_is_s. lia. Qed.

Lemma s32_id v : is_s 32 v -> s32 v = v.
Proof. intros. apply swrap_id; (done || lia). Qed.

(** ** Correctness *)

Section correct.
Context (IsModifiedImmediate : Z -> bool) (HasDivideInstruction : bool) (i : HBinaryOperation) (s : state).
Hypothesis Hint : is_long i = false.
Local Abbreviation out := (Out i).
Local Abbreviation dividend := (InAt0 i).
Definition dividend_value : Z := read s (InAt0 i).
Local Abbreviation n := dividend_value.
Local Abbreviation locs := (locations HasDivideInstruction i).

(** What the register allocator guarantees: the requested temporaries are
    distinct registers that hold neither an input nor the output, and the output
    shares no register with an input if it overlaps. *)
Hypothesis Htemps : (fst locs <= length (allocated_temps i))%nat.
Hypothesis Hnodup : NoDup (allocated_temps i).
Hypothesis Hfresh : forall t, t ∈ allocated_temps i -> t <> out /\ t <> dividend /\ InAt1 i <> InRegister t.
Hypothesis Hoverlap : snd locs = true -> out <> dividend.
Hypothesis Hnn : HasNonNegativeInput i = true -> 0 <= n.
Hypothesis Hnm : HasNonNegativeOrMinIntInput i = true -> 0 <= n \/ n = - 2 ^ 31.

Definition result (d : Z) : Z := if IsDiv i then Z.quot n d else Z.rem n d.

(** The code leaves [v] and changes no other register but the temporaries. *)
Definition computes (c : list instr) (v : Z) : Prop :=
  read (exec c s) out = s32 v /\
  forall r, r <> out -> r ∉ allocated_temps i -> read (exec c s) r = read s r.

Ltac frame := intros; cbn [app exec fold_left exec1]; repeat rewrite arm_read_write_other by (done || congruence); done.

Lemma arm_dividend_is_s : is_s 32 n.
Proof. apply arm_read_is_s. Qed.

Lemma arm_DivRemOneOrMinusOne_correct imm :
  imm = 1 \/ imm = -1 ->
  exists c, DivRemOneOrMinusOne i imm = Some c /\ computes c (result imm).
Proof.
  intros Himm. unfold DivRemOneOrMinusOne.
  replace ((imm =? 1) || (imm =? -1)) with true by (destruct Himm as [-> | ->]; done).
  cbn [dcheck mbind option_bind]. eexists. split; [reflexivity|]. unfold computes, result.
  destruct (IsDiv i); cbn [negb].
  - destruct Himm as [-> | ->]; cbn [Z.eqb Pos.eqb]; (split; [|frame]); cbn [exec fold_left exec1];
      rewrite arm_read_write_same.
    + by rewrite Z.quot_1_r.
    + change (-1) with (- (1)). by rewrite Z.quot_opp_r, Z.quot_1_r, Z.sub_0_l by lia.
  - split; [|frame]. cbn [exec fold_left exec1]. rewrite arm_read_write_same. f_equal.
    destruct Himm as [-> | ->]; [by rewrite Z.rem_1_r|]. change (-1) with (- (1)). by rewrite Z.rem_opp_r, Z.rem_1_r.
Qed.

(** *** Powers of two *)

Section pow2.
Context (imm k : Z).
Hypothesis Hk : 1 <= k < 32.
Hypothesis Hnz : imm <> 0.
Hypothesis Eabs : Z.abs imm = 2 ^ k.

(** The shift of the adjusted dividend, and its negation. *)
Lemma generate_div_code_correct s1 in_ v :
  read s1 in_ = v -> Z.quot n imm = (if imm <? 0 then - Z.shiftr v k else Z.shiftr v k) ->
  read (exec (generate_div_code imm k out in_) s1) out = s32 (Z.quot n imm) /\
  forall r, r <> out -> read (exec (generate_div_code imm k out in_) s1) r = read s1 r.
Proof.
  intros Ev Eq. unfold generate_div_code.
  assert (is_s 32 (Z.shiftr v k)) as Hsh by (apply is_s_shiftr; [lia|]; rewrite <- Ev; apply arm_read_is_s).
  rewrite Eq. destruct (imm <? 0); (split; [|frame]); cbn [exec fold_left exec1];
    rewrite !arm_read_write_same, ?Ev; [|done]. by rewrite (s32_id (Z.shiftr v k)), Z.sub_0_l.
Qed.

(** A dividend that needs no adjustment. *)
Lemma no_adjustment : 0 <= n \/ n = - 2 ^ 31 -> Z.shiftr (adjusted n k) k = Z.shiftr n k /\ n mod 2 ^ k = Z.rem n imm.
Proof.
  intros Hc. pose proof (pow2_pos k ltac:(lia)). unfold adjusted. rewrite (rem_pow2 n imm k) by (done || lia).
  destruct (Z.ltb_spec n 0); [|done]. destruct Hc as [|E]; [lia|].
  destruct (min_mod_pow2 32 k ltac:(lia)) as [M1 M2].
  assert (n mod 2 ^ k = 0 /\ (- n) mod 2 ^ k = 0) as [-> ->] by (rewrite E; change (- - 2 ^ 31) with (2 ^ 31); done).
  split; [|done]. rewrite !Z.shiftr_div_pow2 by lia.
  apply Z.mod_divide in M1 as [t Et]; [|lia]. rewrite E. change (- 2 ^ 31) with (- 2 ^ (32 - 1)). rewrite Et.
  rewrite Z.div_add_l, (Z.div_small (2 ^ k - 1)), Z.div_mul by lia. lia.
Qed.

(** The adjusted dividend in the output register. *)
Definition adjustment : list instr :=
  let '(c, add_right_input) := if 1 <? k then ([Asr out dividend 31], out) else ([], dividend) in
  c ++ [Add out dividend (Shifted add_right_input LSR (32 - k))].

Lemma arm_adjustment_correct :
  (1 < k -> out <> dividend) ->
  read (exec adjustment s) out = adjusted n k /\ forall r, r <> out -> read (exec adjustment s) r = read s r.
Proof.
  intros Hne. pose proof arm_dividend_is_s as Hn. pose proof (pow2_pos k ltac:(lia)).
  assert (Ha : is_s 32 (adjusted n k)) by (apply adjusted_is_s; (done || lia)).
  assert (forall x, x = (if n <? 0 then 2 ^ k - 1 else 0) -> s32 (n + x) = adjusted n k) as Hadd.
  { intros x ->. rewrite <- (s32_id (adjusted n k)) by done. f_equal. unfold adjusted. destruct (n <? 0); lia. }
  unfold adjustment. destruct (Z.ltb_spec 1 k).
  - split; [|frame]. cbn [app exec fold_left exec1 operand].
    rewrite !arm_read_write_same, arm_read_write_other by (apply not_eq_sym; auto). fold n. apply Hadd.
    change 31 with (32 - 1). rewrite shiftr_sign by (done || lia).
    pose proof (pow2_pos (32 - k) ltac:(lia)).
    destruct (n <? 0); [change (s32 (-1)) with (-1); apply (shiftr_wrap_negative 32)
                       |change (s32 0) with 0; apply (shiftr_wrap_nonnegative 32)]; lia.
  - split; [|frame]. cbn [app exec fold_left exec1 operand]. rewrite arm_read_write_same. fold n. apply Hadd.
    replace k with 1 by lia. unfold is_s in Hn.
    destruct (Z.ltb_spec n 0); [apply (shiftr_wrap_negative 32)|apply (shiftr_wrap_nonnegative 32)]; lia.
Qed.

Lemma arm_DivRemByPowerOfTwo_correct :
  InAt1 i = Constant imm -> u32 (AbsOrMin 32 imm) = 2 ^ k -> IsPowerOfTwo_signed 32 (AbsOrMin 32 imm) = true ->
  computes (DivRemByPowerOfTwo IsModifiedImmediate i imm) (result imm).
Proof.
  intros Hin Ea Hp2. unfold DivRemByPowerOfTwo. rewrite Ea, CTZ_pow2 by lia. pose proof (pow2_pos k ltac:(lia)).
  pose proof (adjusted_quot n imm k ltac:(lia) Hnz Eabs) as Eq. unfold computes, result.
  destruct (HasNonNegativeOrMinIntInput i) eqn:Em.
  - destruct (no_adjustment (Hnm eq_refl)) as [Esh Emod]. rewrite Esh in Eq. destruct (IsDiv i).
    + destruct (generate_div_code_correct s dividend n eq_refl Eq) as [Hv Hf]. auto.
    + assert (Hland : forall x, x mod 2 ^ k = n mod 2 ^ k -> Z.land x (Z.ones k) = Z.rem n imm)
        by (intros; by rewrite Z.land_ones, <- Emod by lia).
      destruct (IsModifiedImmediate _); (split; [|frame]); cbn [exec fold_left exec1]; rewrite arm_read_write_same; f_equal.
      * rewrite Z.sub_1_r, <- Z.ones_equiv. by apply Hland.
      * rewrite Z.shiftr_0_r. apply Hland. fold n. by apply wrap_mod; lia.
  - assert (Hne : 1 < k \/ IsDiv i = false -> out <> dividend).
    { intros Hc. apply Hoverlap. unfold locations, VisitDiv_locations, VisitRem_locations.
      rewrite Hint, Hin, Hp2, Em. assert (2 ^ 1 <= 2 ^ k) by (apply Z.pow_le_mono_r; lia).
      replace ((imm =? 1) || (imm =? 0) || (imm =? -1)) with false by lia.
      destruct (IsDiv i); [|done]. assert (2 ^ 2 <= 2 ^ k) by (apply Z.pow_le_mono_r; [lia|]; destruct Hc; [lia|done]).
      by replace (negb (imm =? 2)) with true by lia; replace (negb (imm =? -2)) with true by lia. }
    destruct arm_adjustment_correct as [Hv Hf]; [auto|].
    assert (Hcode : forall rest, (let '(c, add_right_input) :=
        if 1 <? k then ([Asr out dividend 31], out) else ([], dividend) in
        c ++ [Add out dividend (Shifted add_right_input LSR (32 - k))] ++ rest) = adjustment ++ rest)
      by (intros; unfold adjustment; destruct (1 <? k); by rewrite <- app_assoc).
    rewrite Hcode, arm_exec_app. destruct (IsDiv i).
    + destruct (generate_div_code_correct (exec adjustment s) out _ Hv Eq) as [Hv' Hf'].
      split; [done|]. intros. rewrite Hf', Hf by done. done.
    + split; [|intros; rewrite <- (Hf r) by done; frame]. cbn [exec fold_left exec1 operand].
      fold (exec adjustment s). rewrite !arm_read_write_same, arm_read_write_other, Hv, Hf by (apply not_eq_sym; auto). fold n. rewrite Z.shiftl_0_r.
      rewrite <- (rem_masked n k imm) by (done || lia). rewrite <- Z.ldiff_land.
      rewrite <- (swrap_wrap 32 (n - s32 _)), <- wrap_sub_r, wrap_swrap, wrap_sub_r, swrap_wrap by lia. done.
Qed.

End pow2.

(** *** Any other divisor *)

Section magic.
Context (imm m shift : Z) (t1 t2 : Register).
Hypothesis Hnz : imm <> 0.
Hypothesis Hok : magic_ok 32 imm m shift.
Hypothesis Ht1 : t1 ∈ allocated_temps i.
Hypothesis Ht2 : t2 ∈ allocated_temps i.
Hypothesis Ht : t1 <> t2.
Local Abbreviation magic := (s32 (Z.sgn imm * m)).
Local Abbreviation high := (Z.sgn imm * m * n / 2 ^ 32).

Lemma temps_fresh : t1 <> out /\ t1 <> dividend /\ t2 <> out /\ t2 <> dividend.
Proof. destruct (Hfresh t1 Ht1) as (? & ? & _), (Hfresh t2 Ht2) as (? & ? & _). auto. Qed.

Lemma high_spec :
  (if (0 <? imm) && (magic <? 0) then magic * n / 2 ^ 32 + n
   else if (imm <? 0) && (0 <? magic) then magic * n / 2 ^ 32 - n
   else magic * n / 2 ^ 32) = high /\ is_s 32 high.
Proof. destruct Hok as [Hm _ _ _]. apply corrected_high; [lia|done|done|apply arm_dividend_is_s]. Qed.

Lemma s32_magic : s32 magic = magic.
Proof. apply s32_id, swrap_is_s. lia. Qed.

(** The high word of the product, corrected, in [t1]. *)
Definition product (correction : list instr) : list instr :=
  [MovImm t1 (s32 magic); Smull t2 t1 dividend t1] ++ correction.

Lemma product_correct :
  let c := product (if (0 <? imm) && (magic <? 0) then [Add t1 t1 (Reg dividend)]
                    else if (imm <? 0) && (0 <? magic) then [Sub t1 t1 (Reg dividend)] else []) in
  read (exec c s) t1 = high /\ forall r, r <> t1 -> r <> t2 -> read (exec c s) r = read s r.
Proof.
  destruct temps_fresh as (F1 & F2 & F3 & F4), high_spec as [Eh Hh]. intros c.
  assert (Hsw : forall x, x = high -> s32 x = high) by (intros x ->; by apply s32_id).
  unfold c, product. rewrite arm_exec_app. cbn [exec fold_left exec1].
  set (s1 := write (write s t1 _) t2 _). set (s2 := write s1 t1 _).
  assert (E1 : read s2 t1 = s32 (magic * n / 2 ^ 32)).
  { unfold s2, s1. rewrite arm_read_write_same, arm_read_write_same, arm_read_write_other, !s32_magic by done.
    fold n. by rewrite Z.shiftr_div_pow2, Z.mul_comm by lia. }
  assert (E2 : forall r, r <> t1 -> r <> t2 -> read s2 r = read s r).
  { intros r H1 H2. unfold s2, s1. by rewrite !arm_read_write_other. }
  destruct ((0 <? imm) && (magic <? 0)); [|destruct ((imm <? 0) && (0 <? magic))];
    cbn [exec fold_left exec1 operand]; (split; [|intros; rewrite ?arm_read_write_other by done; by apply E2]).
  - rewrite arm_read_write_same, E1, (E2 dividend) by done. fold n. rewrite swrap_add_l by lia. by apply Hsw.
  - rewrite arm_read_write_same, E1, (E2 dividend) by done. fold n.
    rewrite <- Z.add_opp_r, swrap_add_l, Z.add_opp_r by lia. by apply Hsw.
  - rewrite E1. by apply Hsw.
Qed.

(** The remainder from the quotient in [t1]. *)
Lemma mls_correct c q :
  is_s 32 imm -> read (exec c s) t1 = s32 q -> q = Z.quot n imm ->
  (forall r, r <> t1 -> r <> t2 -> read (exec c s) r = read s r) ->
  computes (c ++ [MovImm t2 imm; Mls out t1 t2 dividend]) (Z.rem n imm).
Proof.
  intros Himm Hq -> Hf. destruct temps_fresh as (F1 & F2 & F3 & F4). unfold computes. rewrite arm_exec_app.
  cbn [exec fold_left exec1]. fold (exec c s). split.
  - rewrite arm_read_write_same, !arm_read_write_same, !arm_read_write_other, Hq, (Hf dividend), (s32_id imm) by auto. fold n.
    rewrite Z.rem_eq, (Z.mul_comm imm) by done.
    by rewrite <- (swrap_wrap 32 (n - s32 _ * _)), <- wrap_msub_l, wrap_swrap, wrap_msub_l, swrap_wrap by lia.
  - intros r Hr1 Hr2. rewrite !arm_read_write_other by (done || (intros ->; done)). apply Hf; intros ->; done.
Qed.

(** The signed sequence: the shifted high word and one more if it is negative. *)
Lemma signed_code_correct :
  is_s 32 imm ->
  let c := product (if (0 <? imm) && (magic <? 0) then [Add t1 t1 (Reg dividend)]
                    else if (imm <? 0) && (0 <? magic) then [Sub t1 t1 (Reg dividend)] else []) ++
           (if negb (shift =? 0) then [Asr t1 t1 shift] else []) in
  computes (c ++ if IsDiv i then [Sub out t1 (Shifted t1 ASR 31)]
                 else [Sub t1 t1 (Shifted t1 ASR 31)] ++ [MovImm t2 imm; Mls out t1 t2 dividend]) (result imm).
Proof.
  intros Himm. destruct temps_fresh as (F1 & F2 & F3 & F4), high_spec as [_ Hh], product_correct as [Hp Hpf].
  set (p := product _) in *. intros c. pose proof arm_dividend_is_s as Hn. destruct Hok as [Hm Hs _ Hq].
  assert (Hsh : is_s 32 (Z.shiftr high shift)) by (apply is_s_shiftr; (done || lia)).
  assert (read (exec c s) t1 = Z.shiftr high shift /\
    forall r, r <> t1 -> r <> t2 -> read (exec c s) r = read s r) as [Hc Hcf].
  { unfold c. rewrite arm_exec_app. destruct (Z.eqb_spec shift 0) as [->|]; cbn [negb exec fold_left exec1].
    - rewrite Z.shiftr_0_r. done.
    - fold (exec p s). rewrite arm_read_write_same, Hp, s32_id by done. split; [done|].
      intros. rewrite arm_read_write_other by done. by apply Hpf. }
  assert (Hquot : Z.shiftr high shift - Z.shiftr (Z.shiftr high shift) 31 = Z.quot n imm).
  { rewrite <- Hq by done. rewrite <- (high_shift 32 _ shift) by lia. unfold increment_negative. change 31 with (32 - 1).
    rewrite shiftr_sign by (done || lia). destruct (Z.shiftr high shift <? 0); lia. }
  unfold result. destruct (IsDiv i).
  - unfold computes. rewrite arm_exec_app. cbn [exec fold_left exec1 operand]. fold (exec c s).
    rewrite arm_read_write_same, Hc, Hquot. split; [done|].
    intros r Hr1 Hr2. rewrite arm_read_write_other by done. apply Hcf; intros ->; done.
  - rewrite app_assoc. eapply mls_correct; [done| |reflexivity|]; rewrite arm_exec_app; cbn [exec fold_left exec1 operand];
      fold (exec c s).
    + by rewrite arm_read_write_same, Hc, Hquot.
    + intros. rewrite arm_read_write_other by done. by apply Hcf.
Qed.

(** The sequence for a dividend that is not negative and a positive divisor. *)
Lemma unsigned_code_correct o :
  0 < imm -> 0 <= n -> o = out \/ o = t1 ->
  exists c, generate_unsigned_div_code magic shift o dividend t1 t2 = Some c /\
    read (exec c s) o = s32 (Z.quot n imm) /\
    forall r, r <> o -> r <> t1 -> r <> t2 -> read (exec c s) r = read s r.
Proof.
  intros Hpos Hn0 Ho. destruct temps_fresh as (F1 & F2 & F3 & F4), high_spec as [Eh Hh], product_correct as [Hp Hpf].
  pose proof arm_dividend_is_s as Hn.
  destruct (magic_nonneg 32 imm m shift n ltac:(lia) Hpos Hok Hn Hn0) as [H0 Hq].
  assert (Hsign : magic <= 0 -> shift <> 0) by (intros; by apply (magic_sign 32 imm m)).
  assert (t2 <> o) as Ho2 by (destruct Ho as [-> | ->]; auto).
  unfold generate_unsigned_div_code. destruct ((0 <? magic) && (shift =? 0)) eqn:E0.
  - eexists. split; [reflexivity|]. replace shift with 0 in Hq by lia. rewrite Z.shiftr_0_r in Hq.
    cbn [exec fold_left exec1]. rewrite !s32_magic, arm_read_write_same, arm_read_write_same, arm_read_write_other, s32_magic by done. fold n.
    rewrite Z.shiftr_div_pow2, (Z.mul_comm n) by lia.
    replace ((0 <? imm) && (magic <? 0)) with false in Eh by lia.
    replace ((imm <? 0) && (0 <? magic)) with false in Eh by lia. rewrite Eh, Hq. split; [done|].
    intros. by rewrite !arm_read_write_other.
  - replace (negb (shift =? 0)) with true by lia. cbn [dcheck mbind option_bind]. eexists. split; [reflexivity|].
    rewrite (proj2 (Z.ltb_lt 0 imm)), (proj2 (Z.ltb_ge imm 0)) in Hp, Hpf by lia. cbn [andb] in Hp, Hpf.
    rewrite app_assoc, arm_exec_app. set (c := product _) in *. unfold product in c. fold c.
    cbn [exec fold_left exec1]. fold (exec c s). rewrite arm_read_write_same, Hp.
    rewrite wrap_id by (unfold is_u, is_s in *; lia). rewrite Hq. split; [done|].
    intros. rewrite arm_read_write_other by done. by apply Hpf.
Qed.

End magic.

Lemma arm_GenerateDivRemWithAnyConstant_correct imm :
  InAt1 i = Constant imm -> is_s 32 imm -> imm <> 0 -> IsPowerOfTwo_signed 32 (AbsOrMin 32 imm) = false ->
  exists c, GenerateDivRemWithAnyConstant HasDivideInstruction i imm = Some c /\ computes c (result imm).
Proof.
  intros Hin Himm Hnz Hp2.
  destruct (divisor_cases 32 32 imm ltac:(lia) Himm Hnz) as [[? _]|(_ & H3 & Hnp)]; [congruence|].
  destruct (Calculate_ok 32 imm ltac:(by left) Himm H3 Hnp) as (m & shift & E & Hok).
  assert (Hl : locations HasDivideInstruction i = (2%nat, false)).
  { unfold locations, VisitDiv_locations, VisitRem_locations. rewrite Hint, Hin, Hp2.
    replace ((imm =? 1) || (imm =? 0) || (imm =? -1)) with false by lia. by destruct (IsDiv i). }
  assert (exists t1 t2 ts, allocated_temps i = t1 :: t2 :: ts) as (t1 & t2 & ts & Ets).
  { rewrite Hl in Htemps. destruct (allocated_temps i) as [|t1 [|t2 ts]]; [simpl in Htemps; lia..|]. by eexists _, _, _. }
  unfold GenerateDivRemWithAnyConstant, GetTemp. rewrite Hl, Ets. cbn [fst snd].
  assert (Ht1 : t1 ∈ allocated_temps i) by (rewrite Ets; left).
  assert (Ht2 : t2 ∈ allocated_temps i) by (rewrite Ets; right; left).
  assert (Ht : t1 <> t2).
  { rewrite Ets in Hnodup. inversion_clear Hnodup as [|? ? Hni _]. intros ->. apply Hni. left. }
  cbn [Nat.ltb Nat.leb lookup list_lookup dcheck mbind option_bind]. cbn [Z.eqb Pos.eqb] in E. rewrite E.
  cbn [mbind option_bind]. destruct ((0 <? imm) && HasNonNegativeInput i) eqn:Enn.
  - apply andb_true_iff in Enn as [Epos Einp]. apply Z.ltb_lt in Epos. unfold result. destruct (IsDiv i).
    + destruct (unsigned_code_correct imm m shift t1 t2 Hnz Hok Ht1 Ht2 Ht out Epos (Hnn Einp)) as (c & -> & Hv & Hf); [by left|].
      exists c. split; [done|]. split; [done|]. intros r Hr1 Hr2. apply Hf; [done|intros ->; done..].
    + destruct (unsigned_code_correct imm m shift t1 t2 Hnz Hok Ht1 Ht2 Ht t1 Epos (Hnn Einp)) as (c & -> & Hv & Hf); [by right|].
      cbn [mbind option_bind]. eexists. split; [reflexivity|]. eapply mls_correct; eauto.
  - eexists. split; [reflexivity|].
    pose proof (signed_code_correct imm m shift t1 t2 Hnz Hok Ht1 Ht2 Ht Himm) as Hc. cbv zeta in Hc. unfold product in Hc.
    rewrite <- !app_assoc in Hc. rewrite <- !app_assoc. destruct (IsDiv i); exact Hc.
Qed.

Lemma ConstantIntegral_correct imm :
  InAt1 i = Constant imm -> is_s 32 imm -> imm <> 0 ->
  exists c, GenerateDivRemConstantIntegral IsModifiedImmediate HasDivideInstruction i imm = Some c /\
    computes c (result imm).
Proof.
  intros Hin Himm Hnz. unfold GenerateDivRemConstantIntegral. rewrite (proj2 (Z.eqb_neq imm 0)) by done.
  destruct ((imm =? 1) || (imm =? -1)) eqn:E1; [apply arm_DivRemOneOrMinusOne_correct; lia|].
  destruct (IsPowerOfTwo_signed 32 (AbsOrMin 32 imm)) eqn:E2.
  - destruct (divisor_cases 32 32 imm ltac:(lia) Himm Hnz) as [(_ & k & Hk & Ea & Eabs)|[? _]]; [|congruence].
    eexists. split; [reflexivity|]. apply (arm_DivRemByPowerOfTwo_correct imm k); try done.
    destruct (Z.eq_dec k 0) as [->|]; lia.
  - replace ((imm <=? -2) || (2 <=? imm)) with true by lia. cbn [dcheck mbind option_bind].
    by apply arm_GenerateDivRemWithAnyConstant_correct.
Qed.

Lemma div_register_correct r : read s r <> 0 -> computes [Sdiv out dividend r] (Z.quot n (read s r)).
Proof.
  intros Hd. split; [|frame]. cbn [exec fold_left exec1]. rewrite arm_read_write_same.
  by rewrite (proj2 (Z.eqb_neq (read s r) 0)).
Qed.

Lemma rem_register_correct r :
  InAt1 i = InRegister r -> IsDiv i = false -> HasDivideInstruction = true -> read s r <> 0 ->
  exists t, GetTemp HasDivideInstruction i 0 = Some t /\
    computes [Sdiv t dividend r; Mls out t r dividend] (Z.rem n (read s r)).
Proof.
  intros Hin Hd Hdiv Hnz.
  assert (exists t, GetTemp HasDivideInstruction i 0 = Some t /\ t ∈ allocated_temps i) as (t & Et & Hin_t).
  { unfold GetTemp, locations, VisitRem_locations in *. rewrite Hint, Hd, Hin, Hdiv in *. cbn [fst] in *.
    destruct (allocated_temps i) as [|t ts]; [simpl in Htemps; lia|]. exists t. split; [done|left]. }
  exists t. split; [done|]. destruct (Hfresh t Hin_t) as (F1 & F2 & F3). assert (r <> t) by congruence. split.
  - cbn [exec fold_left exec1]. rewrite arm_read_write_same, arm_read_write_same, !arm_read_write_other by auto.
    rewrite (proj2 (Z.eqb_neq (read s r) 0)) by done. fold n. rewrite Z.rem_eq, (Z.mul_comm (read s r)) by done.
    by rewrite <- (swrap_wrap 32 (n - s32 _ * _)), <- wrap_msub_l, wrap_swrap, wrap_msub_l, swrap_wrap by lia.
  - intros r' Hr1 Hr2. cbn [exec fold_left exec1]. rewrite !arm_read_write_other; [done|intros ->; done|done].
Qed.

End correct.

(** C10: on ARM the code generated for an int division or remainder, by a
    constant or, with the division instruction, by a register, leaves the Java
    quotient or remainder in the output register for every dividend and every
    non-zero divisor, under the register sharing that the requested locations
    allow, and changes no other register but the requested temporaries; every
    other division calls the runtime. *)
Theorem arm_div_rem_correct IsModifiedImmediate HasDivideInstruction i s d :
  let locs := locations HasDivideInstruction i in
  (fst locs <= length (allocated_temps i))%nat -> NoDup (allocated_temps i) ->
  (forall t, t ∈ allocated_temps i -> t <> Out i /\ t <> InAt0 i /\ InAt1 i <> InRegister t) ->
  (snd locs = true -> Out i <> InAt0 i) ->
  (HasNonNegativeInput i = true -> 0 <= dividend_value i s) ->
  (HasNonNegativeOrMinIntInput i = true -> 0 <= dividend_value i s \/ dividend_value i s = - 2 ^ 31) ->
  match InAt1 i with
  | Constant imm => d = imm /\ is_s 32 imm
  | InRegister r => d = read s r /\ (HasDivideInstruction = false ->
      r = r1 /\ InAt0 i = r0 /\ Out i = (if IsDiv i then r0 else r1))
  end -> d <> 0 ->
  match is_long i, InAt1 i, HasDivideInstruction with
  | true, _, _ => Visit IsModifiedImmediate HasDivideInstruction i =
                    Some (InvokeRuntime (if IsDiv i then kQuickLdiv else kQuickLmod))
  | false, InRegister _, false => Visit IsModifiedImmediate HasDivideInstruction i = Some (InvokeRuntime kQuickIdivmod)
  | false, _, _ =>
      exists c, Visit IsModifiedImmediate HasDivideInstruction i = Some (Code c) /\
        read (exec c s) (Out i) =
          (if IsDiv i then java_div 32 (dividend_value i s) d else java_rem 32 (dividend_value i s) d) /\
        forall r, r <> Out i -> r ∉ allocated_temps i -> read (exec c s) r = read s r
  end.
Proof.
  intros locs H1 H2 H3 H4 H5 H6 Hd Hnz.
  destruct (is_long i) eqn:Hl; [unfold Visit, VisitDiv, VisitRem; rewrite Hl; by destruct (IsDiv i)|].
  assert (Hr : s32 (result i s d) = if IsDiv i then java_div 32 (dividend_value i s) d else java_rem 32 (dividend_value i s) d).
  { unfold result, java_div, java_rem. destruct (IsDiv i); [done|]. apply s32_id, rem_is_s; [apply arm_dividend_is_s|done]. }
  unfold Visit, VisitDiv, VisitRem. rewrite Hl. destruct (InAt1 i) as [imm|r] eqn:Hin.
  - rewrite <- Hin in H3. destruct Hd as [-> Himm].
    destruct (ConstantIntegral_correct IsModifiedImmediate HasDivideInstruction i s Hl H1 H2 H3 H4 H5 H6 imm Hin Himm Hnz)
      as (c & -> & Hc & Hf). exists c. rewrite Hc, Hr. by destruct (IsDiv i).
  - rewrite <- Hin in H3. destruct Hd as [-> Hregs]. destruct HasDivideInstruction.
    2:{ destruct (Hregs eq_refl) as (-> & -> & ->). by destruct (IsDiv i). }
    unfold result in Hr. destruct (IsDiv i) eqn:Hdiv.
    + eexists. split; [reflexivity|]. rewrite <- Hr. by eapply div_register_correct; eauto.
    + destruct (rem_register_correct true i s Hl H1 H2 H3 H4 r Hin Hdiv eq_refl Hnz) as (t & -> & Hc).
      cbn [mbind option_bind]. eexists. split; [reflexivity|]. rewrite <- Hr. exact Hc.
Qed.

Lemma arm_div_rem_correct_witness :
  let i := {| IsDiv := false; is_long := false; InAt0 := 1; InAt1 := Constant 7; Out := 1;
              allocated_temps := [2; 3]; HasNonNegativeInput := false; HasNonNegativeOrMinIntInput := false |}%nat in
  exists c, Visit (fun _ => true) true i = Some (Code c) /\ read (exec c (fun _ => -20)) 1%nat = -6.
Proof.
  intros i. destruct (arm_div_rem_correct (fun _ => true) true i (fun _ => -20) 7) as (c & E & R & _).
  - simpl. lia.
  - by apply (bool_decide_eq_true _); vm_compute.
  - intros t Ht. simpl in Ht. inversion_clear Ht as [|? ? ? Ht']; [done|].
    inversion_clear Ht' as [|? ? ? Ht'']; [done|]. inversion Ht''.
  - discriminate.
  - discriminate.
  - discriminate.
  - split; [done|]. vm_compute. split; [discriminate|reflexivity].
  - done.
  - exists c. split; [exact E|]. exact R.
Defined.

End Arm.
