(* ===== verification/Riscv64.v ===== *)
(** * The RISC-V assembler

    The integer instructions of compiler/utils/riscv64/assembler_riscv64.cc
    (RV64I and RV64M arithmetic), their encodings by the emit helpers of
    assembler_riscv64.h, and the scratch registers of the assembler.  The
    machine that runs the emitted words decodes them by the tables of the
    instruction set manual; [decode_encode] is the round trip. *)

From Stdlib Require Import ZArith Lia Bool List.
From stdpp Require Import base numbers list option.
From S2P Require Import Prelude BitUtils MachineWord.

Local Open Scope Z_scope.
Local Open Scope art_scope.

Module Riscv64.

Abbreviation XRegister := nat (only parsing).
Definition Zero : XRegister := 0%nat.
Definition TMP2 : XRegister := 30%nat.
Definition TMP : XRegister := 31%nat.

(** One constructor for each function of the assembler. *)
Inductive instr :=
  | Lui (rd : XRegister) (imm20 : Z)
  | Addi (rd rs1 : XRegister) (imm12 : Z)
  | Slti (rd rs1 : XRegister) (imm12 : Z)
  | Sltiu (rd rs1 : XRegister) (imm12 : Z)
  | Xori (rd rs1 : XRegister) (imm12 : Z)
  | Ori (rd rs1 : XRegister) (imm12 : Z)
  | Andi (rd rs1 : XRegister) (imm12 : Z)
  | Slli (rd rs1 : XRegister) (shamt : Z)
  | Srli (rd rs1 : XRegister) (shamt : Z)
  | Srai (rd rs1 : XRegister) (shamt : Z)
  | Add (rd rs1 rs2 : XRegister)
  | Sub (rd rs1 rs2 : XRegister)
  | Slt (rd rs1 rs2 : XRegister)
  | Sltu (rd rs1 rs2 : XRegister)
  | Xor (rd rs1 rs2 : XRegister)
  | Or (rd rs1 rs2 : XRegister)
  | And (rd rs1 rs2 : XRegister)
  | Sll (rd rs1 rs2 : XRegister)
  | Srl (rd rs1 rs2 : XRegister)
  | Sra (rd rs1 rs2 : XRegister)
  | Addiw (rd rs1 : XRegister) (imm12 : Z)
  | Slliw (rd rs1 : XRegister) (shamt : Z)
  | Srliw (rd rs1 : XRegister) (shamt : Z)
  | Sraiw (rd rs1 : XRegister) (shamt : Z)
  | Addw (rd rs1 rs2 : XRegister)
  | Subw (rd rs1 rs2 : XRegister)
  | Sllw (rd rs1 rs2 : XRegister)
  | Srlw (rd rs1 rs2 : XRegister)
  | Sraw (rd rs1 rs2 : XRegister)
  | Mul (rd rs1 rs2 : XRegister)
  | Mulh (rd rs1 rs2 : XRegister)
  | Mulhsu (rd rs1 rs2 : XRegister)
  | Mulhu (rd rs1 rs2 : XRegister)
  | Div (rd rs1 rs2 : XRegister)
  | Divu (rd rs1 rs2 : XRegister)
  | Rem (rd rs1 rs2 : XRegister)
  | Remu (rd rs1 rs2 : XRegister)
  | Mulw (rd rs1 rs2 : XRegister)
  | Divw (rd rs1 rs2 : XRegister)
  | Divuw (rd rs1 rs2 : XRegister)
  | Remw (rd rs1 rs2 : XRegister)
  | Remuw (rd rs1 rs2 : XRegister).

(** ** Encoding *)

Infix "<<" := Z.shiftl (at level 30).
Infix "|||" := Z.lor (at level 50, left associativity).

Definition EmitI (imm12 rs1 funct3 rd opcode : Z) : option Z :=
  DCHECK IsInt 12 32 imm12;
  DCHECK IsUint 5 32 rs1;
  DCHECK IsUint 3 32 funct3;
  DCHECK IsUint 5 32 rd;
  DCHECK IsUint 7 32 opcode;
  Some (u32 (u32 imm12 << 20) ||| u32 (rs1 << 15) ||| u32 (funct3 << 12) ||| u32 (rd << 7) ||| opcode).

Definition EmitR (funct7 rs2 rs1 funct3 rd opcode : Z) : option Z :=
  DCHECK IsUint 7 32 funct7;
  DCHECK IsUint 5 32 rs2;
  DCHECK IsUint 5 32 rs1;
  DCHECK IsUint 3 32 funct3;
  DCHECK IsUint 5 32 rd;
  DCHECK IsUint 7 32 opcode;
  Some (u32 (funct7 << 25) ||| u32 (rs2 << 20) ||| u32 (rs1 << 15) ||| u32 (funct3 << 12) |||
        u32 (rd << 7) ||| opcode).

Definition EmitI6 (funct6 imm6 rs1 funct3 rd opcode : Z) : option Z :=
  DCHECK IsUint 6 32 funct6;
  DCHECK IsUint 6 32 imm6;
  DCHECK IsUint 5 32 rs1;
  DCHECK IsUint 3 32 funct3;
  DCHECK IsUint 5 32 rd;
  DCHECK IsUint 7 32 opcode;
  Some (u32 (funct6 << 26) ||| u32 (imm6 << 20) ||| u32 (rs1 << 15) ||| u32 (funct3 << 12) |||
        u32 (rd << 7) ||| opcode).

Definition EmitU (imm20 rd opcode : Z) : option Z :=
  DCHECK IsUint 20 32 imm20;
  DCHECK IsUint 5 32 rd;
  DCHECK IsUint 7 32 opcode;
  Some (u32 (imm20 << 12) ||| u32 (rd << 7) ||| opcode).

(** The RV64M instructions. *)
Definition encodeM (i : instr) : option Z :=
  let r := Z.of_nat in
  match i with
  | Mul rd rs1 rs2 => EmitR 0x1 (r rs2) (r rs1) 0x0 (r rd) 0x33
  | Mulh rd rs1 rs2 => EmitR 0x1 (r rs2) (r rs1) 0x1 (r rd) 0x33
  | Mulhsu rd rs1 rs2 => EmitR 0x1 (r rs2) (r rs1) 0x2 (r rd) 0x33
  | Mulhu rd rs1 rs2 => EmitR 0x1 (r rs2) (r rs1) 0x3 (r rd) 0x33
  | Div rd rs1 rs2 => EmitR 0x1 (r rs2) (r rs1) 0x4 (r rd) 0x33
  | Divu rd rs1 rs2 => EmitR 0x1 (r rs2) (r rs1) 0x5 (r rd) 0x33
  | Rem rd rs1 rs2 => EmitR 0x1 (r rs2) (r rs1) 0x6 (r rd) 0x33
  | Remu rd rs1 rs2 => EmitR 0x1 (r rs2) (r rs1) 0x7 (r rd) 0x33
  | Mulw rd rs1 rs2 => EmitR 0x1 (r rs2) (r rs1) 0x0 (r rd) 0x3b
  | Divw rd rs1 rs2 => EmitR 0x1 (r rs2) (r rs1) 0x4 (r rd) 0x3b
  | Divuw rd rs1 rs2 => EmitR 0x1 (r rs2) (r rs1) 0x5 (r rd) 0x3b
  | Remw rd rs1 rs2 => EmitR 0x1 (r rs2) (r rs1) 0x6 (r rd) 0x3b
  | Remuw rd rs1 rs2 => EmitR 0x1 (r rs2) (r rs1) 0x7 (r rd) 0x3b
  | _ => None
  end.

(** The word each function emits; [None] is a failed check. *)
Definition encode (i : instr) : option Z :=
  let r := Z.of_nat in
  match i with
  | Lui rd imm20 => EmitU imm20 (r rd) 0x37
  | Addi rd rs1 imm12 => EmitI imm12 (r rs1) 0x0 (r rd) 0x13
  | Slti rd rs1 imm12 => EmitI imm12 (r rs1) 0x2 (r rd) 0x13
  | Sltiu rd rs1 imm12 => EmitI imm12 (r rs1) 0x3 (r rd) 0x13
  | Xori rd rs1 imm12 => EmitI imm12 (r rs1) 0x4 (r rd) 0x13
  | Ori rd rs1 imm12 => EmitI imm12 (r rs1) 0x6 (r rd) 0x13
  | Andi rd rs1 imm12 => EmitI imm12 (r rs1) 0x7 (r rd) 0x13
  | Slli rd rs1 shamt => DCHECK u32 shamt <? 64; EmitI6 0x0 (u32 shamt) (r rs1) 0x1 (r rd) 0x13
  | Srli rd rs1 shamt => DCHECK u32 shamt <? 64; EmitI6 0x0 (u32 shamt) (r rs1) 0x5 (r rd) 0x13
  | Srai rd rs1 shamt => DCHECK u32 shamt <? 64; EmitI6 0x10 (u32 shamt) (r rs1) 0x5 (r rd) 0x13
  | Add rd rs1 rs2 => EmitR 0x0 (r rs2) (r rs1) 0x0 (r rd) 0x33
  | Sub rd rs1 rs2 => EmitR 0x20 (r rs2) (r rs1) 0x0 (r rd) 0x33
  | Slt rd rs1 rs2 => EmitR 0x0 (r rs2) (r rs1) 0x2 (r rd) 0x33
  | Sltu rd rs1 rs2 => EmitR 0x0 (r rs2) (r rs1) 0x3 (r rd) 0x33
  | Xor rd rs1 rs2 => EmitR 0x0 (r rs2) (r rs1) 0x4 (r rd) 0x33
  | Or rd rs1 rs2 => EmitR 0x0 (r rs2) (r rs1) 0x6 (r rd) 0x33
  | And rd rs1 rs2 => EmitR 0x0 (r rs2) (r rs1) 0x7 (r rd) 0x33
  | Sll rd rs1 rs2 => EmitR 0x0 (r rs2) (r rs1) 0x1 (r rd) 0x33
  | Srl rd rs1 rs2 => EmitR 0x0 (r rs2) (r rs1) 0x5 (r rd) 0x33
  | Sra rd rs1 rs2 => EmitR 0x20 (r rs2) (r rs1) 0x5 (r rd) 0x33
  | Addiw rd rs1 imm12 => EmitI imm12 (r rs1) 0x0 (r rd) 0x1b
  | Slliw rd rs1 shamt => DCHECK u32 shamt <? 32; EmitR 0x0 (u32 shamt) (r rs1) 0x1 (r rd) 0x1b
  | Srliw rd rs1 shamt => DCHECK u32 shamt <? 32; EmitR 0x0 (u32 shamt) (r rs1) 0x5 (r rd) 0x1b
  | Sraiw rd rs1 shamt => DCHECK u32 shamt <? 32; EmitR 0x20 (u32 shamt) (r rs1) 0x5 (r rd) 0x1b
  | Addw rd rs1 rs2 => EmitR 0x0 (r rs2) (r rs1) 0x0 (r rd) 0x3b
  | Subw rd rs1 rs2 => EmitR 0x20 (r rs2) (r rs1) 0x0 (r rd) 0x3b
  | Sllw rd rs1 rs2 => EmitR 0x0 (r rs2) (r rs1) 0x1 (r rd) 0x3b
  | Srlw rd rs1 rs2 => EmitR 0x0 (r rs2) (r rs1) 0x5 (r rd) 0x3b
  | Sraw rd rs1 rs2 => EmitR 0x20 (r rs2) (r rs1) 0x5 (r rd) 0x3b
  | i => encodeM i
  end.

Fixpoint assemble (c : list instr) : option (list Z) :=
  match c with
  | [] => Some []
  | i :: c => w ← encode i; ws ← assemble c; Some (w :: ws)
  end.

(** ** The machine *)

(** Bits [lo .. lo + n - 1] of a word. *)
Definition field (w lo n : Z) : Z := Z.land (Z.shiftr w lo) (Z.ones n).

Definition decode_OP_IMM (w : Z) (rd rs1 : XRegister) (funct3 : Z) : option instr :=
  let imm12 := swrap 12 (field w 20 12) in
  let shamt := field w 20 6 in
  match funct3, field w 26 6 with
  | 0x0, _ => Some (Addi rd rs1 imm12)
  | 0x2, _ => Some (Slti rd rs1 imm12)
  | 0x3, _ => Some (Sltiu rd rs1 imm12)
  | 0x4, _ => Some (Xori rd rs1 imm12)
  | 0x6, _ => Some (Ori rd rs1 imm12)
  | 0x7, _ => Some (Andi rd rs1 imm12)
  | 0x1, 0x0 => Some (Slli rd rs1 shamt)
  | 0x5, 0x0 => Some (Srli rd rs1 shamt)
  | 0x5, 0x10 => Some (Srai rd rs1 shamt)
  | _, _ => None
  end.

Definition decode_OP_IMM_32 (w : Z) (rd rs1 : XRegister) (funct3 : Z) : option instr :=
  let shamt := field w 20 5 in
  match funct3, field w 25 7 with
  | 0x0, _ => Some (Addiw rd rs1 (swrap 12 (field w 20 12)))
  | 0x1, 0x0 => Some (Slliw rd rs1 shamt)
  | 0x5, 0x0 => Some (Srliw rd rs1 shamt)
  | 0x5, 0x20 => Some (Sraiw rd rs1 shamt)
  | _, _ => None
  end.

Definition decode_OP (funct7 funct3 : Z) (rd rs1 rs2 : XRegister) : option instr :=
  match funct7, funct3 with
  | 0x0, 0x0 => Some (Add rd rs1 rs2)
  | 0x20, 0x0 => Some (Sub rd rs1 rs2)
  | 0x0, 0x1 => Some (Sll rd rs1 rs2)
  | 0x0, 0x2 => Some (Slt rd rs1 rs2)
  | 0x0, 0x3 => Some (Sltu rd rs1 rs2)
  | 0x0, 0x4 => Some (Xor rd rs1 rs2)
  | 0x0, 0x5 => Some (Srl rd rs1 rs2)
  | 0x20, 0x5 => Some (Sra rd rs1 rs2)
  | 0x0, 0x6 => Some (Or rd rs1 rs2)
  | 0x0, 0x7 => Some (And rd rs1 rs2)
  | 0x1, 0x0 => Some (Mul rd rs1 rs2)
  | 0x1, 0x1 => Some (Mulh rd rs1 rs2)
  | 0x1, 0x2 => Some (Mulhsu rd rs1 rs2)
  | 0x1, 0x3 => Some (Mulhu rd rs1 rs2)
  | 0x1, 0x4 => Some (Div rd rs1 rs2)
  | 0x1, 0x5 => Some (Divu rd rs1 rs2)
  | 0x1, 0x6 => Some (Rem rd rs1 rs2)
  | 0x1, 0x7 => Some (Remu rd rs1 rs2)
  | _, _ => None
  end.

Definition decode_OP_32 (funct7 funct3 : Z) (rd rs1 rs2 : XRegister) : option instr :=
  match funct7, funct3 with
  | 0x0, 0x0 => Some (Addw rd rs1 rs2)
  | 0x20, 0x0 => Some (Subw rd rs1 rs2)
  | 0x0, 0x1 => Some (Sllw rd rs1 rs2)
  | 0x0, 0x5 => Some (Srlw rd rs1 rs2)
  | 0x20, 0x5 => Some (Sraw rd rs1 rs2)
  | 0x1, 0x0 => Some (Mulw rd rs1 rs2)
  | 0x1, 0x4 => Some (Divw rd rs1 rs2)
  | 0x1, 0x5 => Some (Divuw rd rs1 rs2)
  | 0x1, 0x6 => Some (Remw rd rs1 rs2)
  | 0x1, 0x7 => Some (Remuw rd rs1 rs2)
  | _, _ => None
  end.

(** [None] is an illegal instruction, or one outside the model. *)
Definition decode (w : Z) : option instr :=
  let rd := Z.to_nat (field w 7 5) in
  let funct3 := field w 12 3 in
  let rs1 := Z.to_nat (field w 15 5) in
  let rs2 := Z.to_nat (field w 20 5) in
  let funct7 := field w 25 7 in
  match field w 0 7 with
  | 0x37 => Some (Lui rd (field w 12 20))
  | 0x13 => decode_OP_IMM w rd rs1 funct3
  | 0x1b => decode_OP_IMM_32 w rd rs1 funct3
  | 0x33 => decode_OP funct7 funct3 rd rs1 rs2
  | 0x3b => decode_OP_32 funct7 funct3 rd rs1 rs2
  | _ => None
  end.

(** A register holds a signed 64-bit value; register 0 reads as zero. *)
Definition state := regfile.

Definition read (s : state) (r : XRegister) : Z := if (r =? 0)%nat then 0 else s64 (s r).

Definition write (s : state) (r : XRegister) (v : Z) : state :=
  if (r =? 0)%nat then s else upd s r (s64 v).

(** Division never faults: by zero it gives -1 and the dividend. *)
Definition div_value (n d : Z) : Z := if d =? 0 then -1 else Z.quot n d.
Definition rem_value (n d : Z) : Z := if d =? 0 then n else Z.rem n d.

Definition exec1 (i : instr) (s : state) : state :=
  let x r := read s r in
  let xw r := s32 (read s r) in
  match i with
  | Lui rd imm20 => write s rd (s32 (imm20 << 12))
  | Addi rd rs1 imm => write s rd (x rs1 + imm)
  | Slti rd rs1 imm => write s rd (if x rs1 <? imm then 1 else 0)
  | Sltiu rd rs1 imm => write s rd (if u64 (x rs1) <? u64 imm then 1 else 0)
  | Xori rd rs1 imm => write s rd (Z.lxor (x rs1) imm)
  | Ori rd rs1 imm => write s rd (Z.lor (x rs1) imm)
  | Andi rd rs1 imm => write s rd (Z.land (x rs1) imm)
  | Slli rd rs1 shamt => write s rd (x rs1 << shamt)
  | Srli rd rs1 shamt => write s rd (Z.shiftr (u64 (x rs1)) shamt)
  | Srai rd rs1 shamt => write s rd (Z.shiftr (x rs1) shamt)
  | Add rd rs1 rs2 => write s rd (x rs1 + x rs2)
  | Sub rd rs1 rs2 => write s rd (x rs1 - x rs2)
  | Slt rd rs1 rs2 => write s rd (if x rs1 <? x rs2 then 1 else 0)
  | Sltu rd rs1 rs2 => write s rd (if u64 (x rs1) <? u64 (x rs2) then 1 else 0)
  | Xor rd rs1 rs2 => write s rd (Z.lxor (x rs1) (x rs2))
  | Or rd rs1 rs2 => write s rd (Z.lor (x rs1) (x rs2))
  | And rd rs1 rs2 => write s rd (Z.land (x rs1) (x rs2))
  | Sll rd rs1 rs2 => write s rd (x rs1 << (x rs2 mod 64))
  | Srl rd rs1 rs2 => write s rd (Z.shiftr (u64 (x rs1)) (x rs2 mod 64))
  | Sra rd rs1 rs2 => write s rd (Z.shiftr (x rs1) (x rs2 mod 64))
  | Addiw rd rs1 imm => write s rd (s32 (x rs1 + imm))
  | Slliw rd rs1 shamt => write s rd (s32 (x rs1 << shamt))
  | Srliw rd rs1 shamt => write s rd (s32 (Z.shiftr (u32 (x rs1)) shamt))
  | Sraiw rd rs1 shamt => write s rd (Z.shiftr (xw rs1) shamt)
  | Addw rd rs1 rs2 => write s rd (s32 (x rs1 + x rs2))
  | Subw rd rs1 rs2 => write s rd (s32 (x rs1 - x rs2))
  | Sllw rd rs1 rs2 => write s rd (s32 (x rs1 << (x rs2 mod 32)))
  | Srlw rd rs1 rs2 => write s rd (s32 (Z.shiftr (u32 (x rs1)) (x rs2 mod 32)))
  | Sraw rd rs1 rs2 => write s rd (Z.shiftr (xw rs1) (x rs2 mod 32))
  | Mul rd rs1 rs2 => write s rd (x rs1 * x rs2)
  | Mulh rd rs1 rs2 => write s rd (Z.shiftr (x rs1 * x rs2) 64)
  | Mulhsu rd rs1 rs2 => write s rd (Z.shiftr (x rs1 * u64 (x rs2)) 64)
  | Mulhu rd rs1 rs2 => write s rd (Z.shiftr (u64 (x rs1) * u64 (x rs2)) 64)
  | Div rd rs1 rs2 => write s rd (div_value (x rs1) (x rs2))
  | Divu rd rs1 rs2 => write s rd (div_value (u64 (x rs1)) (u64 (x rs2)))
  | Rem rd rs1 rs2 => write s rd (rem_value (x rs1) (x rs2))
  | Remu rd rs1 rs2 => write s rd (rem_value (u64 (x rs1)) (u64 (x rs2)))
  | Mulw rd rs1 rs2 => write s rd (s32 (x rs1 * x rs2))
  | Divw rd rs1 rs2 => write s rd (s32 (div_value (xw rs1) (xw rs2)))
  | Divuw rd rs1 rs2 => write s rd (s32 (div_value (u32 (x rs1)) (u32 (x rs2))))
  | Remw rd rs1 rs2 => write s rd (s32 (rem_value (xw rs1) (xw rs2)))
  | Remuw rd rs1 rs2 => write s rd (s32 (rem_value (u32 (x rs1)) (u32 (x rs2))))
  end.

(** Runs straight-line code in memory. *)
Fixpoint run (words : list Z) (s : state) : option state :=
  match words with
  | [] => Some s
  | w :: words => i ← decode w; run words (exec1 i s)
  end.

Fixpoint exec (c : list instr) (s : state) : state :=
  match c with
  | [] => s
  | i :: c => exec c (exec1 i s)
  end.

(** ** Decoding undoes encoding *)

(** The arguments are values of their C++ types. *)
Definition typed (i : instr) : Prop :=
  match i with
  | Lui rd imm => (rd < 32)%nat /\ is_u 32 imm
  | Addi rd rs imm | Slti rd rs imm | Sltiu rd rs imm | Xori rd rs imm | Ori rd rs imm | Andi rd rs imm
  | Addiw rd rs imm | Slli rd rs imm | Srli rd rs imm | Srai rd rs imm
  | Slliw rd rs imm | Srliw rd rs imm | Sraiw rd rs imm => (rd < 32)%nat /\ (rs < 32)%nat /\ is_s 32 imm
  | Add rd rs1 rs2 | Sub rd rs1 rs2 | Slt rd rs1 rs2 | Sltu rd rs1 rs2 | Xor rd rs1 rs2 | Or rd rs1 rs2
  | And rd rs1 rs2 | Sll rd rs1 rs2 | Srl rd rs1 rs2 | Sra rd rs1 rs2
  | Addw rd rs1 rs2 | Subw rd rs1 rs2 | Sllw rd rs1 rs2 | Srlw rd rs1 rs2 | Sraw rd rs1 rs2
  | Mul rd rs1 rs2 | Mulh rd rs1 rs2 | Mulhsu rd rs1 rs2 | Mulhu rd rs1 rs2
  | Div rd rs1 rs2 | Divu rd rs1 rs2 | Rem rd rs1 rs2 | Remu rd rs1 rs2
  | Mulw rd rs1 rs2 | Divw rd rs1 rs2 | Divuw rd rs1 rs2 | Remw rd rs1 rs2 | Remuw rd rs1 rs2 =>
      (rd < 32)%nat /\ (rs1 < 32)%nat /\ (rs2 < 32)%nat
  end.

Lemma field_spec w lo n : 0 <= lo -> 0 <= n -> field w lo n = (w / 2 ^ lo) mod 2 ^ n.
Proof. intros. unfold field. rewrite Z.land_ones, Z.shiftr_div_pow2 by done. done. Qed.

(** A disjunction of fields is their sum. *)
Lemma riscv_lor_add k x y : 0 <= k -> x mod 2 ^ k = 0 -> 0 <= y < 2 ^ k -> x ||| y = x + y.
Proof.
  intros Hk Hx Hy. rewrite <- Z.add_lor_land. enough (Z.land x y = 0) by lia.
  apply Z.bits_inj'. intros j Hj. rewrite Z.land_spec, Z.bits_0. destruct (Z.lt_ge_cases j k).
  - rewrite <- (Z.mod_pow2_bits_low x k), Hx, Z.bits_0 by lia. done.
  - apply andb_false_intro2. rewrite <- (Z.mod_small y (2 ^ k)) by done. apply Z.mod_pow2_bits_high. lia.
Qed.

Lemma IsUint_range k x : 0 < k < 32 -> is_u 32 x -> IsUint k 32 x = bool_decide (is_u k x).
Proof.
  intros Hk Hx. unfold IsUint, GetIntLimit. rewrite (proj2 (Z.eqb_neq k 32)), (wrap_id 32 x) by (done || lia).
  cbn [orb]. rewrite Z.shiftl_mul_pow2, Z.mul_1_l by lia.
  assert (2 ^ k = 2 ^ (k - 1) * 2) as E by (change 2 with (2 ^ 1) at 3; rewrite <- Z.pow_add_r by lia; f_equal; lia).
  assert (2 ^ k <= 2 ^ 31) by (apply Z.pow_le_mono_r; lia). pose proof (pow2_pos (k - 1)).
  rewrite (wrap_id 32 (2 ^ (k - 1))), <- E, wrap_id by (unfold is_u; lia).
  apply eq_bool_prop_intro. rewrite bool_decide_spec, andb_True, !Is_true_true, !Z.leb_le.
  unfold is_u in *. lia.
Qed.

Lemma IsInt_range k w x : 0 < k < w -> IsInt k w x = bool_decide (is_s k x).
Proof.
  intros Hk. unfold IsInt, GetIntLimit. rewrite (proj2 (Z.eqb_neq k w)) by lia.
  rewrite Z.shiftl_mul_pow2, Z.mul_1_l, wrap_id by (lia || (unfold is_u; split; [apply Z.pow_nonneg; lia|apply Z.pow_lt_mono_r; lia])).
  apply eq_bool_prop_intro. rewrite bool_decide_spec, andb_True, !Is_true_true, Z.leb_le, Z.ltb_lt.
  unfold is_s. lia.
Qed.


Lemma riscv_dcheck_Some {A} b (k : option A) v : (DCHECK b; k) = Some v <-> b = true /\ k = Some v.
Proof. destruct b; cbn [dcheck mbind option_bind]; intuition congruence. Qed.

(** [lia] with the powers of two in the goal computed. *)
Ltac pow_lia :=
  repeat match goal with |- context [2 ^ ?k] => let v := eval vm_compute in (2 ^ k) in change (2 ^ k) with v end;
  Z.div_mod_to_equations; lia.

(** The emitted word as a sum, with the ranges of its fields. *)
Ltac emit_sum :=
  intros; repeat match goal with
  | H : (DCHECK _; _) = Some _ |- _ => apply riscv_dcheck_Some in H as [? H]
  | H : Some _ = Some _ |- _ => injection H as <-
  end;
  repeat match goal with
  | H : IsUint _ 32 _ = true |- _ => rewrite IsUint_range in H by (done || lia); apply bool_decide_eq_true in H
  | H : IsInt _ 32 _ = true |- _ => rewrite IsInt_range in H by lia; apply bool_decide_eq_true in H
  end; unfold is_u, is_s, wrap in *; rewrite !Z.shiftl_mul_pow2 by lia.

Lemma EmitU_sum imm20 rd op w :
  is_u 32 imm20 -> is_u 32 rd -> is_u 32 op -> EmitU imm20 rd op = Some w ->
  w = imm20 * 2 ^ 12 + rd * 2 ^ 7 + op /\ is_u 20 imm20 /\ is_u 5 rd /\ is_u 7 op.
Proof.
  unfold EmitU. emit_sum. rewrite !Z.mod_small by pow_lia.
  rewrite (riscv_lor_add 12 (_ * _)), (riscv_lor_add 7 (_ + _)) by pow_lia. pow_lia.
Qed.

Lemma EmitI_sum imm12 rs1 f3 rd op w :
  is_s 32 imm12 -> is_u 32 rs1 -> is_u 32 f3 -> is_u 32 rd -> is_u 32 op -> EmitI imm12 rs1 f3 rd op = Some w ->
  w = imm12 mod 2 ^ 12 * 2 ^ 20 + rs1 * 2 ^ 15 + f3 * 2 ^ 12 + rd * 2 ^ 7 + op /\
  is_s 12 imm12 /\ is_u 5 rs1 /\ is_u 3 f3 /\ is_u 5 rd /\ is_u 7 op.
Proof.
  unfold EmitI. emit_sum.
  replace ((imm12 mod 2 ^ 32 * 2 ^ 20) mod 2 ^ 32) with (imm12 mod 2 ^ 12 * 2 ^ 20)
    by pow_lia.
  assert (0 <= imm12 mod 2 ^ 12 < 2 ^ 12) by (apply Z.mod_pos_bound; lia).
  rewrite !(Z.mod_small (_ * _)) by pow_lia.
  generalize dependent (imm12 mod 2 ^ 12). intros.
  rewrite (riscv_lor_add 20 (_ * _)), (riscv_lor_add 15 (_ + _)), (riscv_lor_add 12 (_ + _)), (riscv_lor_add 7 (_ + _)) by pow_lia. pow_lia.
Qed.

Lemma EmitR_sum f7 rs2 rs1 f3 rd op w :
  is_u 32 f7 -> is_u 32 rs2 -> is_u 32 rs1 -> is_u 32 f3 -> is_u 32 rd -> is_u 32 op ->
  EmitR f7 rs2 rs1 f3 rd op = Some w ->
  w = f7 * 2 ^ 25 + rs2 * 2 ^ 20 + rs1 * 2 ^ 15 + f3 * 2 ^ 12 + rd * 2 ^ 7 + op /\
  is_u 7 f7 /\ is_u 5 rs2 /\ is_u 5 rs1 /\ is_u 3 f3 /\ is_u 5 rd /\ is_u 7 op.
Proof.
  unfold EmitR. emit_sum. rewrite !Z.mod_small by pow_lia.
  rewrite (riscv_lor_add 25 (_ * _)), (riscv_lor_add 20 (_ + _)), (riscv_lor_add 15 (_ + _)), (riscv_lor_add 12 (_ + _)), (riscv_lor_add 7 (_ + _)) by pow_lia. pow_lia.
Qed.

Lemma EmitI6_sum f6 imm6 rs1 f3 rd op w :
  is_u 32 f6 -> is_u 32 imm6 -> is_u 32 rs1 -> is_u 32 f3 -> is_u 32 rd -> is_u 32 op ->
  EmitI6 f6 imm6 rs1 f3 rd op = Some w ->
  w = f6 * 2 ^ 26 + imm6 * 2 ^ 20 + rs1 * 2 ^ 15 + f3 * 2 ^ 12 + rd * 2 ^ 7 + op /\
  is_u 6 f6 /\ is_u 6 imm6 /\ is_u 5 rs1 /\ is_u 3 f3 /\ is_u 5 rd /\ is_u 7 op.
Proof.
  unfold EmitI6. emit_sum. rewrite !Z.mod_small by pow_lia.
  rewrite (riscv_lor_add 26 (_ * _)), (riscv_lor_add 20 (_ + _)), (riscv_lor_add 15 (_ + _)), (riscv_lor_add 12 (_ + _)), (riscv_lor_add 7 (_ + _)) by pow_lia. pow_lia.
Qed.

(** The fields of such a sum. *)
Ltac fields := intros; subst; unfold is_u in *; rewrite !field_spec by lia; repeat split; pow_lia.

Lemma fields_U imm20 rd op w :
  w = imm20 * 2 ^ 12 + rd * 2 ^ 7 + op -> is_u 20 imm20 -> is_u 5 rd -> is_u 7 op ->
  field w 0 7 = op /\ field w 7 5 = rd /\ field w 12 20 = imm20.
Proof. fields. Qed.

Lemma fields_I imm rs1 f3 rd op w :
  w = imm * 2 ^ 20 + rs1 * 2 ^ 15 + f3 * 2 ^ 12 + rd * 2 ^ 7 + op ->
  is_u 12 imm -> is_u 5 rs1 -> is_u 3 f3 -> is_u 5 rd -> is_u 7 op ->
  field w 0 7 = op /\ field w 7 5 = rd /\ field w 12 3 = f3 /\ field w 15 5 = rs1 /\ field w 20 12 = imm.
Proof. fields. Qed.

Lemma fields_R f7 rs2 rs1 f3 rd op w :
  w = f7 * 2 ^ 25 + rs2 * 2 ^ 20 + rs1 * 2 ^ 15 + f3 * 2 ^ 12 + rd * 2 ^ 7 + op ->
  is_u 7 f7 -> is_u 5 rs2 -> is_u 5 rs1 -> is_u 3 f3 -> is_u 5 rd -> is_u 7 op ->
  field w 0 7 = op /\ field w 7 5 = rd /\ field w 12 3 = f3 /\ field w 15 5 = rs1 /\
  field w 20 5 = rs2 /\ field w 25 7 = f7.
Proof. fields. Qed.

Lemma fields_I6 f6 imm6 rs1 f3 rd op w :
  w = f6 * 2 ^ 26 + imm6 * 2 ^ 20 + rs1 * 2 ^ 15 + f3 * 2 ^ 12 + rd * 2 ^ 7 + op ->
  is_u 6 f6 -> is_u 6 imm6 -> is_u 5 rs1 -> is_u 3 f3 -> is_u 5 rd -> is_u 7 op ->
  field w 0 7 = op /\ field w 7 5 = rd /\ field w 12 3 = f3 /\ field w 15 5 = rs1 /\
  field w 20 6 = imm6 /\ field w 26 6 = f6.
Proof. fields. Qed.

Lemma reg_u32 r : (r < 32)%nat -> is_u 32 (Z.of_nat r).
Proof. unfold is_u. lia. Qed.

(** Decodes a word from the fields it was emitted with. *)
Ltac decode_word :=
  unfold decode, decode_OP_IMM, decode_OP_IMM_32;
  repeat match goal with H : field ?w ?lo ?n = _ |- context [field ?w ?lo ?n] => rewrite H end;
  rewrite ?Nat2Z.id; try reflexivity.

Lemma decode_I imm rs1 rd f3 op w mk :
  is_s 32 imm -> (rs1 < 32)%nat -> (rd < 32)%nat ->
  EmitI imm (Z.of_nat rs1) f3 (Z.of_nat rd) op = Some w -> is_u 32 f3 -> is_u 32 op ->
  (forall w, field w 0 7 = op -> field w 12 3 = f3 ->
     decode w = Some (mk (Z.to_nat (field w 7 5)) (Z.to_nat (field w 15 5)) (swrap 12 (field w 20 12)))) ->
  decode w = Some (mk rd rs1 imm).
Proof.
  intros Hi H1 H2 E Hf Ho Hd.
  apply EmitI_sum in E as (E & R); [|done|by apply reg_u32|done|by apply reg_u32|done].
  destruct R as (R1 & R2 & R3 & R4 & R5).
  apply fields_I in E as (F1 & F2 & F3 & F4 & F5); try done; [|apply Z.mod_pos_bound; lia].
  rewrite Hd by done. rewrite F2, F4, F5, !Nat2Z.id. change (imm mod 2 ^ 12) with (wrap 12 imm).
  rewrite swrap_wrap, swrap_id by (done || lia). done.
Qed.

Lemma decode_R f7 rs2 rs1 rd f3 op w mk :
  is_u 32 rs2 -> (rs1 < 32)%nat -> (rd < 32)%nat ->
  EmitR f7 rs2 (Z.of_nat rs1) f3 (Z.of_nat rd) op = Some w ->
  is_u 32 f7 -> is_u 32 f3 -> is_u 32 op ->
  (forall w, field w 0 7 = op -> field w 12 3 = f3 -> field w 25 7 = f7 ->
     decode w = Some (mk (Z.to_nat (field w 7 5)) (Z.to_nat (field w 15 5)) (field w 20 5))) ->
  decode w = Some (mk rd rs1 rs2).
Proof.
  intros H1 H2 H3 E Hf7 Hf Ho Hd.
  apply EmitR_sum in E as (E & R); try done; try by apply reg_u32.
  destruct R as (R1 & R2 & R3 & R4 & R5 & R6).
  apply fields_R in E as (F1 & F2 & F3 & F4 & F5 & F6); try done.
  rewrite Hd by done. rewrite F2, F4, F5, !Nat2Z.id. done.
Qed.

Lemma decode_I6 f6 shamt rs1 rd f3 op w mk :
  is_s 32 shamt -> (rs1 < 32)%nat -> (rd < 32)%nat ->
  (DCHECK u32 shamt <? 64; EmitI6 f6 (u32 shamt) (Z.of_nat rs1) f3 (Z.of_nat rd) op) = Some w ->
  is_u 32 f6 -> is_u 32 f3 -> is_u 32 op ->
  (forall w, field w 0 7 = op -> field w 12 3 = f3 -> field w 26 6 = f6 ->
     decode w = Some (mk (Z.to_nat (field w 7 5)) (Z.to_nat (field w 15 5)) (field w 20 6))) ->
  decode w = Some (mk rd rs1 shamt).
Proof.
  intros H1 H2 H3 E Hf6 Hf Ho Hd. apply riscv_dcheck_Some in E as [Es E]. apply Z.ltb_lt in Es.
  assert (u32 shamt = shamt) as Eq. { unfold is_s, wrap in *. Z.div_mod_to_equations. lia. }
  rewrite Eq in *.
  apply EmitI6_sum in E as (E & R); try done; try by apply reg_u32.
  2:{ unfold is_u. unfold wrap in Eq. pose proof (Z.mod_pos_bound shamt (2 ^ 32)). lia. }
  destruct R as (R1 & R2 & R3 & R4 & R5 & R6).
  apply fields_I6 in E as (F1 & F2 & F3 & F4 & F5 & F6); try done.
  rewrite Hd by done. rewrite F2, F4, F5, !Nat2Z.id. done.
Qed.

Lemma decode_R_shamt f7 shamt rs1 rd f3 op w mk :
  is_s 32 shamt -> (rs1 < 32)%nat -> (rd < 32)%nat ->
  (DCHECK u32 shamt <? 32; EmitR f7 (u32 shamt) (Z.of_nat rs1) f3 (Z.of_nat rd) op) = Some w ->
  is_u 32 f7 -> is_u 32 f3 -> is_u 32 op ->
  (forall w, field w 0 7 = op -> field w 12 3 = f3 -> field w 25 7 = f7 ->
     decode w = Some (mk (Z.to_nat (field w 7 5)) (Z.to_nat (field w 15 5)) (field w 20 5))) ->
  decode w = Some (mk rd rs1 shamt).
Proof.
  intros H1 H2 H3 E Hf7 Hf Ho Hd. apply riscv_dcheck_Some in E as [Es E]. apply Z.ltb_lt in Es.
  assert (u32 shamt = shamt) as Eq. { unfold is_s, wrap in *. Z.div_mod_to_equations. lia. }
  rewrite Eq in *. eapply decode_R; eauto.
  unfold is_u. unfold wrap in Eq. pose proof (Z.mod_pos_bound shamt (2 ^ 32)). lia.
Qed.

Lemma decode_RR f7 rs2 rs1 rd f3 op w mk :
  (rd < 32)%nat /\ (rs1 < 32)%nat /\ (rs2 < 32)%nat ->
  EmitR f7 (Z.of_nat rs2) (Z.of_nat rs1) f3 (Z.of_nat rd) op = Some w ->
  is_u 32 f7 -> is_u 32 f3 -> is_u 32 op ->
  (forall w, field w 0 7 = op -> field w 12 3 = f3 -> field w 25 7 = f7 ->
     decode w = Some (mk (Z.to_nat (field w 7 5)) (Z.to_nat (field w 15 5)) (Z.to_nat (field w 20 5)))) ->
  decode w = Some (mk rd rs1 rs2).
Proof.
  intros (H1 & H2 & H3) E Hf7 Hf Ho Hd.
  pose proof (decode_R f7 (Z.of_nat rs2) rs1 rd f3 op w (fun a b c => mk a b (Z.to_nat c))) as D.
  cbv beta in D. rewrite Nat2Z.id in D. apply D; try done. by apply reg_u32.
Qed.

(** Every word the assembler emits decodes to the instruction. *)
Lemma decode_encode i w : typed i -> encode i = Some w -> decode w = Some i.
Proof.
  assert (forall x, 0 <= x < 2 ^ 32 -> is_u 32 x) as Hu by done.
  intros Ht E. destruct i; cbn [encode encodeM] in E; cbn [typed] in Ht.
  all: lazymatch type of E with
    | EmitI _ _ _ _ _ = _ =>
        destruct Ht as (? & ? & ?); eapply decode_I; [eassumption..|exact E|by apply Hu|by apply Hu|]
    | mbind (fun _ => EmitI6 _ _ _ _ _ _) _ = _ =>
        destruct Ht as (? & ? & ?); eapply decode_I6; [eassumption..|exact E|by apply Hu|by apply Hu|by apply Hu|]
    | mbind (fun _ => EmitR _ _ _ _ _ _) _ = _ =>
        destruct Ht as (? & ? & ?); eapply decode_R_shamt; [eassumption..|exact E|by apply Hu|by apply Hu|by apply Hu|]
    | EmitR _ _ _ _ _ _ = _ =>
        eapply decode_RR; [exact Ht|exact E|by apply Hu|by apply Hu|by apply Hu|]
    | _ => idtac
    end; intros; try solve [decode_word].
  destruct Ht as [H1 H2]. apply EmitU_sum in E as (E & R1 & R2 & R3); try done; [|by apply reg_u32].
  apply fields_U in E as (F1 & F2 & F3); try done. decode_word.
Qed.

(** ** Assembled code *)

(** The operands fit into their fields. *)
Definition fits (i : instr) : Prop :=
  match i with
  | Lui rd imm => (rd < 32)%nat /\ is_u 20 imm
  | Addi rd rs imm | Slti rd rs imm | Sltiu rd rs imm | Xori rd rs imm | Ori rd rs imm | Andi rd rs imm
  | Addiw rd rs imm => (rd < 32)%nat /\ (rs < 32)%nat /\ is_s 12 imm
  | Slli rd rs shamt | Srli rd rs shamt | Srai rd rs shamt => (rd < 32)%nat /\ (rs < 32)%nat /\ 0 <= shamt < 64
  | Slliw rd rs shamt | Srliw rd rs shamt | Sraiw rd rs shamt => (rd < 32)%nat /\ (rs < 32)%nat /\ 0 <= shamt < 32
  | _ => typed i
  end.

Lemma fits_typed i : fits i -> typed i.
Proof. destruct i; cbn [fits typed]; unfold is_u, is_s; try done; lia. Qed.

Lemma EmitI_fits imm (rs1 rd : XRegister) f3 op :
  (rd < 32)%nat /\ (rs1 < 32)%nat /\ is_s 12 imm -> is_u 3 f3 -> is_u 7 op ->
  is_Some (EmitI imm (Z.of_nat rs1) f3 (Z.of_nat rd) op).
Proof.
  intros (H1 & H2 & H3) H4 H5. unfold EmitI.
  rewrite IsInt_range, !IsUint_range, !bool_decide_true by (unfold is_u, is_s in *; lia). by eexists.
Qed.

Lemma EmitR_fits f7 rs2 (rs1 rd : XRegister) f3 op :
  (rd < 32)%nat /\ (rs1 < 32)%nat /\ is_u 5 rs2 -> is_u 7 f7 -> is_u 3 f3 -> is_u 7 op ->
  is_Some (EmitR f7 rs2 (Z.of_nat rs1) f3 (Z.of_nat rd) op).
Proof.
  intros (H1 & H2 & H3) H4 H5 H6. unfold EmitR.
  rewrite !IsUint_range, !bool_decide_true by (unfold is_u, is_s in *; lia). by eexists.
Qed.

Lemma EmitI6_fits f6 shamt (rs1 rd : XRegister) f3 op :
  (rd < 32)%nat /\ (rs1 < 32)%nat /\ 0 <= shamt < 64 -> is_u 6 f6 -> is_u 3 f3 -> is_u 7 op ->
  is_Some (DCHECK u32 shamt <? 64; EmitI6 f6 (u32 shamt) (Z.of_nat rs1) f3 (Z.of_nat rd) op).
Proof.
  intros (H1 & H2 & H3) H4 H5 H6. unfold EmitI6. rewrite (wrap_id 32 shamt) by (unfold is_u; lia).
  rewrite (proj2 (Z.ltb_lt shamt 64)), !IsUint_range, !bool_decide_true by (unfold is_u, is_s in *; lia).
  by eexists.
Qed.

Lemma EmitR_shamt_fits f7 shamt (rs1 rd : XRegister) f3 op :
  (rd < 32)%nat /\ (rs1 < 32)%nat /\ 0 <= shamt < 32 -> is_u 7 f7 -> is_u 3 f3 -> is_u 7 op ->
  is_Some (DCHECK u32 shamt <? 32; EmitR f7 (u32 shamt) (Z.of_nat rs1) f3 (Z.of_nat rd) op).
Proof.
  intros (H1 & H2 & H3) H4 H5 H6. rewrite (wrap_id 32 shamt) by (unfold is_u; lia).
  rewrite (proj2 (Z.ltb_lt shamt 32)) by lia. by apply EmitR_fits.
Qed.

Lemma encode_fits i : fits i -> is_Some (encode i).
Proof.
  assert (forall k x, 0 <= x < 2 ^ k -> is_u k x) as Hu by done.
  destruct i; cbn [encode encodeM fits typed]; intros Hf;
    lazymatch goal with
    | |- is_Some (EmitI _ _ _ _ _) => apply EmitI_fits; [done|by apply Hu|by apply Hu]
    | |- is_Some (mbind (fun _ => EmitI6 _ _ _ _ _ _) _) => apply EmitI6_fits; [done|by apply Hu|by apply Hu|by apply Hu]
    | |- is_Some (mbind (fun _ => EmitR _ _ _ _ _ _) _) => apply EmitR_shamt_fits; [done|by apply Hu|by apply Hu|by apply Hu]
    | |- is_Some (EmitR _ _ _ _ _ _) => apply EmitR_fits; [unfold is_u; lia|by apply Hu|by apply Hu|by apply Hu]
    | _ => idtac
    end.
  unfold EmitU. rewrite !IsUint_range, !bool_decide_true by (unfold is_u in *; lia). by eexists.
Qed.

(** The checks of the assembler accept nothing else, and a word has 32 bits. *)
Lemma encode_word_range i w : typed i -> encode i = Some w -> fits i /\ is_u 32 w.
Proof.
  assert (forall x, 0 <= x < 2 ^ 32 -> is_u 32 x) as Hu by done.
  intros Ht E. destruct i; cbn [encode encodeM] in E; cbn [typed] in Ht; cbn [fits typed].
  all: lazymatch type of E with
    | EmitI _ _ _ _ _ = _ =>
        destruct Ht as (? & ? & ?); apply EmitI_sum in E as (-> & R); [|done|by apply reg_u32|by apply Hu|by apply reg_u32|by apply Hu]
    | mbind (fun _ => EmitI6 _ _ _ _ _ _) _ = _ =>
        destruct Ht as (? & ? & ?); apply riscv_dcheck_Some in E as [Es E]; apply Z.ltb_lt in Es;
        apply EmitI6_sum in E as (-> & R); [|by apply Hu|apply wrap_is_u; lia|by apply reg_u32|by apply Hu|by apply reg_u32|by apply Hu]
    | mbind (fun _ => EmitR _ _ _ _ _ _) _ = _ =>
        destruct Ht as (? & ? & ?); apply riscv_dcheck_Some in E as [Es E]; apply Z.ltb_lt in Es;
        apply EmitR_sum in E as (-> & R); [|by apply Hu|apply wrap_is_u; lia|by apply reg_u32|by apply Hu|by apply reg_u32|by apply Hu]
    | EmitR _ _ _ _ _ _ = _ =>
        destruct Ht as (? & ? & ?); apply EmitR_sum in E as (-> & R); [|by apply Hu|by apply reg_u32|by apply reg_u32|by apply Hu|by apply reg_u32|by apply Hu]
    | EmitU _ _ _ = _ =>
        destruct Ht as (? & ?); apply EmitU_sum in E as (-> & R); [|done|by apply reg_u32|by apply Hu]
    end; decompose [and] R; clear R; unfold is_u, is_s, wrap in *.
  all: split; [try (split; [done|]); try (split; [done|]); try done; Z.div_mod_to_equations; lia|try pow_lia].
Qed.

Lemma assemble_run c ws s : Forall typed c -> assemble c = Some ws -> run ws s = Some (exec c s).
Proof.
  revert ws s. induction c as [|i c IH]; intros ws s Ht E; cbn [assemble] in E.
  - injection E as <-. done.
  - apply Forall_cons_1 in Ht as [Hi Ht].
    destruct (encode i) as [w|] eqn:Ei; [|done]. cbn [mbind option_bind] in E.
    destruct (assemble c) as [ws'|]; [|done]. injection E as <-.
    cbn [run]. rewrite (decode_encode i w Hi Ei). cbn [mbind option_bind exec]. by apply IH.
Qed.

Lemma assemble_fits c :
  Forall fits c ->
  exists ws, assemble c = Some ws /\ length ws = length c /\ forall s, run ws s = Some (exec c s).
Proof.
  intros Hf. assert (exists ws, assemble c = Some ws /\ length ws = length c) as (ws & E & El).
  { induction Hf as [|i c Hi Hc (ws & E & El)]; cbn [assemble]; [by exists []|].
    destruct (encode_fits i Hi) as [w ->]. rewrite E. exists (w :: ws). simpl. by rewrite El. }
  exists ws. split; [done|]. split; [done|]. intros s. apply assemble_run; [|done].
  revert Hf. apply Forall_impl. apply fits_typed.
Qed.

Lemma riscv_exec_app c1 c2 s : exec (c1 ++ c2) s = exec c2 (exec c1 s).
Proof. revert s. induction c1; intros; simpl; auto. Qed.

Lemma riscv_read_write_same s r v : r <> 0%nat -> read (write s r v) r = s64 v.
Proof.
  intros. unfold read, write. rewrite (proj2 (Nat.eqb_neq r 0)) by done. rewrite upd_same.
  apply swrap_id; [lia|]. apply swrap_is_s. lia.
Qed.

Lemma riscv_read_write_other s r v r' : r' <> r -> read (write s r v) r' = read s r'.
Proof.
  intros. unfold read, write. destruct (r =? 0)%nat; [done|]. by rewrite upd_other.
Qed.

Lemma riscv_read_is_s s r : is_s 64 (read s r).
Proof. unfold read. destruct (r =? 0)%nat; [done|]. apply swrap_is_s. lia. Qed.

Lemma read_zero s : read s Zero = 0.
Proof. done. Qed.

Create Rewrite HintDb riscv.
#[export] Hint Rewrite read_zero : riscv.
#[export] Hint Rewrite riscv_read_write_same riscv_read_write_other using (done || congruence) : riscv.

(** ** Scratch registers

    The state of [ScratchRegisterScope] is the mask of available registers. *)

Definition initial_scratch_registers : Z := Z.lor (Z.shiftl 1 (Z.of_nat TMP)) (Z.shiftl 1 (Z.of_nat TMP2)).

Definition AllocateXRegister (available : Z) : option (XRegister * Z) :=
  DCHECK negb (available =? 0);
  let reg_num := u32 (32 - 1 - CLZ 32 available) in
  let available := Z.land available (u32 (Z.lnot (u32 (Z.shiftl 1 reg_num)))) in
  DCHECK reg_num <? 32;
  Some (Z.to_nat reg_num, available).

Definition AvailableXRegisters (available : Z) : Z := POPCOUNT 32 available.

(** The allocated register was available and no longer is. *)
Lemma AllocateXRegister_spec available :
  is_u 32 available -> available <> 0 ->
  exists r rest, AllocateXRegister available = Some (r, rest) /\ (r < 32)%nat /\
    Z.testbit available (Z.of_nat r) = true /\
    forall k, Z.testbit rest k = Z.testbit available k && negb (k =? Z.of_nat r).
Proof.
  intros Hu Hnz. unfold AllocateXRegister. rewrite (proj2 (Z.eqb_neq available 0)) by done.
  rewrite CLZ_spec by lia. replace (32 - 1 - (32 - 1 - Z.log2 available)) with (Z.log2 available) by lia.
  assert (0 <= Z.log2 available < 32) as Hl.
  { split; [apply Z.log2_nonneg|]. apply Z.log2_lt_pow2; unfold is_u in Hu; lia. }
  rewrite (wrap_id 32 (Z.log2 _)) by (unfold is_u; lia). rewrite (proj2 (Z.ltb_lt _ 32)) by lia.
  cbn [dcheck mbind option_bind negb]. eexists _, _. split; [reflexivity|]. split; [lia|].
  rewrite Z2Nat.id by lia. split; [apply Z.bit_log2; unfold is_u in Hu; lia|].
  intros k. destruct (Z.lt_ge_cases k 0); [rewrite !Z.testbit_neg_r by done; done|].
  rewrite Z.land_spec. destruct (Z.lt_ge_cases k 32).
  - f_equal. unfold wrap. rewrite !Z.mod_pow2_bits_low, Z.lnot_spec, Z.mod_pow2_bits_low by lia.
    f_equal. rewrite Z.shiftl_mul_pow2, Z.mul_1_l by lia. rewrite Z.pow2_bits_eqb by lia.
    destruct (Z.eqb_spec k (Z.log2 available)), (Z.eqb_spec (Z.log2 available) k); lia.
  - rewrite (Z.bits_above_log2 available) by (unfold is_u in Hu; lia). done.
Qed.

Lemma AvailableXRegisters_pos available : is_u 32 available -> available <> 0 -> AvailableXRegisters available <> 0.
Proof.
  intros Hu Hnz. unfold AvailableXRegisters, POPCOUNT. cbn [Z.eqb Pos.eqb]. rewrite wrap_id by done.
  unfold is_u in Hu. destruct available as [|p|p]; [done| |lia]. cbn [builtin_popcount].
  assert (forall p, 0 < pos_popcount p) as Hp by (clear; induction p; simpl; lia). specialize (Hp p). lia.
Qed.

(** C30: a check of the assembler fails exactly when an operand does not fit its
    field, and every emitted word has 32 bits and decodes, by the tables of the
    instruction set, to the instruction that was emitted. *)
Theorem riscv64_encoding_roundtrip i :
  typed i ->
  (is_Some (encode i) <-> fits i) /\
  forall w, encode i = Some w -> is_u 32 w /\ decode w = Some i.
Proof.
  intros Ht. split; [split; [|apply encode_fits]|].
  - intros [w E]. by apply (encode_word_range i w).
  - intros w E. split; [by apply (encode_word_range i w)|by apply decode_encode].
Qed.

Lemma riscv64_encoding_roundtrip_witness :
  encode (Sraiw 10 11 31) = Some 0x41f5d51b /\ decode 0x41f5d51b = Some (Sraiw 10 11 31).
Proof.
  destruct (riscv64_encoding_roundtrip (Sraiw 10 11 31)) as [_ H].
  - unfold typed, is_s. lia.
  - split; [reflexivity|]. apply (H 0x41f5d51b). reflexivity.
Defined.

End Riscv64.
