(* ===== verification/Riscv64Imm.v ===== *)
(** * Loading constants on RISC-V

    [Riscv64Assembler::LoadImmediate] of
    compiler/utils/riscv64/assembler_riscv64.cc: the search for a short
    sequence of instructions that loads a 64-bit constant, and [Li],
    [LoadConst32] and [LoadConst64], which call it.  The lambdas of the source
    that emit or count instructions are definitions here; to count is to take
    the length of what is emitted.  Signed subtractions that overflow in the
    source wrap. *)

From Stdlib Require Import ZArith Lia Bool List.
From stdpp Require Import base numbers list option.
From S2P Require Import Prelude BitUtils MachineWord Riscv64.

Local Open Scope Z_scope.
Local Open Scope art_scope.

Module LoadImm.
Import Riscv64.

(** [CTZ] of a 64-bit value, which must not be zero. *)
Definition CTZ64 (x : Z) : option Z := DCHECK negb (x =? 0); Some (CTZ (u64 x)).

(** Simple LUI+ADDI/W can handle these values. *)
Definition is_simple_li_value (value : Z) : bool := (-0x80000800 <=? value) && (value <=? 0x7fffffff).

Definition emit_simple_li_helper (rd : XRegister) (value : Z) : option (list instr) :=
  DCHECK is_simple_li_value value;
  if IsInt 12 64 value then Some [Addi rd Zero (s32 value)]
  else
    ctz ← CTZ64 value;
    two_small ← (if ctz <? 12 then IsInt_param 64 (6 + ctz) value else Some false);
    if (two_small : bool) then
      Some [Addi rd Zero (s32 (Z.shiftr value ctz)); Slli rd rd ctz]
    else if value <? -0x80000000 then
      let small_value := value - -0x80000000 in
      DCHECK bool_decide (is_s 32 small_value); (* dchecked_integral_cast *)
      DCHECK IsInt 12 32 small_value;
      DCHECK small_value <? 0;
      Some [Lui rd (u32 (Z.shiftl 1 19)); Addi rd rd small_value]
    else
      DCHECK IsInt 32 64 value;
      let near_value := Z.land (value + 0x800) (Z.lnot 0xfff) in
      let small_value := s32 (value - near_value) in
      DCHECK IsInt 12 32 small_value;
      let imm20 := Z.shiftr (u32 near_value) 12 in
      DCHECK negb (imm20 =? 0);
      Some (Lui rd imm20 :: if negb (small_value =? 0) then [Addiw rd rd small_value] else []).

Definition count_simple_li_instructions (value : Z) : option Z :=
  c ← emit_simple_li_helper Zero value; Some (Z.of_nat (length c)).

Definition kMaxNumSllAddi : nat := 3.

(** The loop that splits off SLLI+ADDI pairs: the value that remains and the
    pairs [(addi_value, shamt)], the last one first. *)
Fixpoint split_slli_addi (fuel : nat) (value : Z) (pairs : list (Z * Z)) : option (Z * list (Z * Z)) :=
  if is_simple_li_value value then Some (value, pairs)
  else
    match fuel with
    | O => None
    | S fuel =>
        DCHECK (length pairs <? kMaxNumSllAddi)%nat;
        let addi_value := Z.land value 0xfff - Z.shiftl (Z.land value 0x800) 1 in
        DCHECK IsInt 12 64 addi_value;
        let remaining := s64 (value - addi_value) in
        shamt ← CTZ64 remaining;
        DCHECK 12 <=? shamt;
        split_slli_addi fuel (Z.shiftr remaining shamt) ((addi_value, shamt) :: pairs)
    end.

Definition emit_pairs (rd : XRegister) (pairs : list (Z * Z)) : list instr :=
  concat (map (fun '(addi_value, shamt) =>
    Slli rd rd shamt :: if negb (addi_value =? 0) then [Addi rd rd addi_value] else []) pairs).

Definition emit_with_slli_addi_helper (rd : XRegister) (value : Z) : option (list instr) :=
  '(value, pairs) ← split_slli_addi (S kMaxNumSllAddi) value [];
  match pairs with
  | (addi_value, shamt) :: rest =>
      if IsInt 20 64 value && negb (IsInt 12 64 value) then
        DCHECK 12 <? shamt;
        Some (Lui rd (Z.land value 0xfffff) :: emit_pairs rd ((addi_value, shamt - 12) :: rest))
      else
        c ← emit_simple_li_helper rd value; Some (c ++ emit_pairs rd pairs)
  | [] => emit_simple_li_helper rd value
  end.

Definition count_instructions_with_slli_addi (value : Z) : option Z :=
  c ← emit_with_slli_addi_helper Zero value; Some (Z.of_nat (length c)).

(** Sometimes it is better to end with a SLLI: the instructions needed and the
    trailing shift. *)
Definition trailing_slli (imm insns_needed : Z) : option (Z * Z) :=
  if (Z.land imm 1 =? 0) && negb (Z.land imm 0xfff =? 0) then
    ctz ← CTZ64 imm;
    count ← count_instructions_with_slli_addi (Z.shiftr imm ctz);
    let new_insns_needed := count + 1 in
    DCHECK 2 <? new_insns_needed;
    Some (if new_insns_needed <? insns_needed then (new_insns_needed, ctz) else (insns_needed, 0))
  else Some (insns_needed, 0).

(** A shorter sequence that ends with SRLI, if there is one. *)
Definition try_srli (rd : XRegister) (imm insns_needed : Z) : option (option (list instr)) :=
  if 0 <? imm then
    let shamt := CLZ 64 (u64 imm) in
    DCHECK shamt <=? 32;
    let max := MaxInt_unsigned 64 (64 - shamt) in
    DCHECK bool_decide (is_s 64 max); (* dchecked_integral_cast *)
    if imm =? max then Some (Some [Addi rd Zero (-1); Srli rd rd shamt])
    else
      let value := s64 (u64 (Z.shiftl (u64 imm) shamt)) in
      DCHECK value <? 0;
      simple ← (if is_simple_li_value value then
                  count ← count_simple_li_instructions value;
                  if count + 1 <? insns_needed then
                    let shifted_out := MaxInt_unsigned 32 shamt in
                    DCHECK bool_decide (is_s 32 shifted_out); (* dchecked_integral_cast *)
                    DCHECK Z.land value shifted_out =? 0;
                    c ← emit_simple_li_helper rd
                          (if Z.land value 0xfff =? 0 then value else value + shifted_out);
                    Some (Some (c ++ [Srli rd rd shamt]))
                  else Some None
                else Some None);
      match simple with
      | Some c => Some (Some c)
      | None =>
          ctz ← CTZ64 (u64 value);
          small ← IsInt_param 64 (ctz + 20) value;
          if (small : bool) && (1 + 1 + 1 <? insns_needed) then
            smaller ← IsInt_param 64 (ctz + 12) value;
            Some (Some ((if (smaller : bool) then [Addi rd Zero (s32 (Z.shiftr value ctz)); Slli rd rd ctz]
                         else [Lui rd (Z.land (Z.shiftr (u64 value) ctz) 0xfffff); Slli rd rd (ctz - 12)]) ++
                        [Srli rd rd shamt]))
          else Some None
      end
  else Some None.

(** A shorter sequence that uses a scratch register, if there is one. *)
Definition try_tmp (available : Z) (rd : XRegister) (imm insns_needed : Z) : option (option (list instr)) :=
  let low := Z.land imm 0xffffffff - Z.shiftl (Z.land imm 0x80000000) 1 in
  let remainder := s64 (imm - low) in
  slli_shamt ← CTZ64 remainder;
  DCHECK 32 <=? slli_shamt;
  let high := Z.shiftr remainder slli_shamt in
  count ← count_simple_li_instructions low;
  let new_insns_needed := (if IsInt 20 64 high || (Z.land high 0xfff =? 0) then 1 else 2) + count + 2 in
  if new_insns_needed <? insns_needed then
    DCHECK negb (Z.land low 0xfffff000 =? 0);
    '(tmp, _) ← AllocateXRegister available;
    '(c_high, slli_shamt) ←
      (if IsInt 20 64 high && negb (IsInt 12 64 high) then
         Some ([Lui rd (Z.land high 0xfffff)], slli_shamt - 12)
       else c ← emit_simple_li_helper rd high; Some (c, slli_shamt));
    c_low ← emit_simple_li_helper tmp low;
    Some (Some (c_high ++ c_low ++ [Slli rd rd slli_shamt; Add rd rd tmp]))
  else Some None.

Definition LoadImmediate (available : Z) (rd : XRegister) (imm : Z) (can_use_tmp : bool) : option (list instr) :=
  DCHECK Z.land (u32 (Z.shiftl 1 (Z.of_nat rd))) available =? 0;
  DCHECK implb can_use_tmp (negb (AvailableXRegisters available =? 0));
  let finish (trailing_slli_shamt : Z) : option (list instr) :=
    c ← emit_with_slli_addi_helper rd
          (if negb (trailing_slli_shamt =? 0) then Z.shiftr imm trailing_slli_shamt else imm);
    Some (c ++ if negb (trailing_slli_shamt =? 0) then [Slli rd rd trailing_slli_shamt] else []) in
  insns_needed ← count_instructions_with_slli_addi imm;
  if 2 <? insns_needed then
    '(insns_needed, trailing_slli_shamt) ← trailing_slli imm insns_needed;
    srli ← try_srli rd imm insns_needed;
    match srli with
    | Some c => Some c
    | None =>
        scratch ← (if can_use_tmp then try_tmp available rd imm insns_needed else Some None);
        match scratch with
        | Some c => Some c
        | None => finish trailing_slli_shamt
        end
    end
  else finish 0.

Definition Li (available : Z) (rd : XRegister) (imm : Z) : option (list instr) :=
  LoadImmediate available rd imm false.

Definition LoadConst32 (available : Z) (rd : XRegister) (value : Z) : option (list instr) :=
  LoadImmediate available rd value false.

Definition LoadConst64 (available : Z) (rd : XRegister) (value : Z) : option (list instr) :=
  LoadImmediate available rd value true.

(** ** Trailing zeros *)

Lemma CTZ64_eq q k :
  0 <= k < 64 -> Z.odd q = true -> is_s 64 (q * 2 ^ k) -> CTZ64 (q * 2 ^ k) = Some k.
Proof.
  intros Hk Hq Hs. unfold CTZ64. pose proof (pow2_pos k).
  assert (q <> 0) by (intros ->; done). rewrite (proj2 (Z.eqb_neq _ 0)) by nia.
  cbn [dcheck mbind option_bind negb]. f_equal.
  assert (Hb : forall j, 0 <= j < 64 -> Z.testbit (u64 (q * 2 ^ k)) j = (k <=? j) && Z.testbit q (j - k)).
  { intros j Hj. unfold wrap. rewrite Z.mod_pow2_bits_low, Z.mul_pow2_bits by lia.
    destruct (Z.leb_spec k j); [done|]. by rewrite Z.testbit_neg_r by lia. }
  assert (0 <= u64 (q * 2 ^ k)) by (apply Z.mod_pos_bound; lia).
  assert (Hbk : Z.testbit (u64 (q * 2 ^ k)) k = true).
  { rewrite Hb, Z.leb_refl, Z.sub_diag, Z.bit0_odd by lia. done. }
  apply CTZ_unique; [|lia|done|].
  - destruct (Z.eq_dec (u64 (q * 2 ^ k)) 0) as [E|]; [|lia]. by rewrite E, Z.bits_0 in Hbk.
  - intros j Hj. rewrite Hb by lia. by rewrite (proj2 (Z.leb_gt k j)) by lia.
Qed.

(** Every value but zero is an odd number times a power of two. *)
Lemma odd_part x :
  is_s 64 x -> x <> 0 -> exists q k, x = q * 2 ^ k /\ Z.odd q = true /\ 0 <= k < 64.
Proof.
  intros Hs Hx. assert (Hu : 0 < u64 x < 2 ^ 64).
  { unfold wrap, is_s in *. pose proof (Z.mod_pos_bound x (2 ^ 64)).
    enough (x mod 2 ^ 64 <> 0) by lia. intros E. Z.div_mod_to_equations. lia. }
  destruct (CTZ_spec (u64 x)) as (H0 & H1 & H2); [lia|].
  destruct (CTZ_bound 64 (u64 x)) as [_ Hk]; [unfold is_u; lia|lia|]. set (k := CTZ (u64 x)) in *.
  assert (Hb : forall j, 0 <= j < 64 -> Z.testbit (u64 x) j = Z.testbit x j)
    by (intros; unfold wrap; by rewrite Z.mod_pow2_bits_low by lia).
  exists (Z.shiftr x k), k. split; [|split; [|lia]].
  - rewrite Z.shiftr_div_pow2 by done. pose proof (pow2_pos k).
    enough (x mod 2 ^ k = 0) by (pose proof (Z.div_mod x (2 ^ k)); lia).
    apply Z.bits_inj'. intros j Hj. rewrite Z.bits_0. destruct (Z.lt_ge_cases j k).
    + rewrite Z.mod_pow2_bits_low, <- Hb by lia. apply H2. lia.
    + apply Z.mod_pow2_bits_high. lia.
  - rewrite <- Z.bit0_odd, Z.shiftr_spec, Z.add_0_l, <- Hb by lia. done.
Qed.

Lemma shiftr_mul q k : 0 <= k -> Z.shiftr (q * 2 ^ k) k = q.
Proof. intros. rewrite Z.shiftr_div_pow2, Z.div_mul by (done || (apply Z.pow_nonzero; lia)). done. Qed.

(** ** Code that loads a value *)

Record li (rd : XRegister) (c : list instr) (v : Z) : Prop := {
  li_fits : Forall fits c;
  li_value : rd <> 0%nat -> forall s, read (exec c s) rd = v;
  li_frame : forall s r, r <> rd -> read (exec c s) r = read s r
}.

(** One more instruction on the same register. *)
Lemma li_snoc rd c v i f :
  li rd c v -> fits i -> (forall s, exec1 i s = write s rd (f (read s rd))) -> li rd (c ++ [i]) (s64 (f v)).
Proof.
  intros [Hf Hv Hfr] Hi Hx. split.
  - apply Forall_app_2; [done|]. by constructor.
  - intros Hrd s. rewrite riscv_exec_app. cbn [exec]. rewrite Hx, Hv by done. by rewrite riscv_read_write_same.
  - intros s r Hr. rewrite riscv_exec_app. cbn [exec]. rewrite Hx, riscv_read_write_other by done. by apply Hfr.
Qed.

Lemma li_start rd i v : fits i -> (forall s, exec1 i s = write s rd v) -> li rd [i] (s64 v).
Proof.
  intros Hi Hx. split.
  - by constructor.
  - intros Hrd s. cbn [exec]. by rewrite Hx, riscv_read_write_same.
  - intros s r Hr. cbn [exec]. by rewrite Hx, riscv_read_write_other.
Qed.

Section rd.
Context (rd : XRegister).
Hypothesis Hrd : (rd < 32)%nat.

Lemma li_addi v : is_s 12 v -> li rd [Addi rd Zero v] v.
Proof.
  intros Hv. assert (s64 v = v) as E by (apply swrap_id; [lia|unfold is_s in *; lia]).
  rewrite <- E at 2. apply li_start; [cbn [fits]; unfold Zero; auto with lia|done].
Qed.

Lemma li_lui x imm20 : is_s 20 x -> imm20 = x mod 2 ^ 20 -> li rd [Lui rd imm20] (x * 2 ^ 12).
Proof.
  intros Hx ->. assert (s64 (s32 (Z.shiftl (x mod 2 ^ 20) 12)) = x * 2 ^ 12) as <-.
  { rewrite Z.shiftl_mul_pow2 by lia. rewrite (swrap_eq_wrap 32 _ (x * 2 ^ 12)); [|lia|unfold is_s in *; lia|].
    - apply swrap_id; unfold is_s in *; lia.
    - unfold wrap. pow_lia. }
  apply li_start; [|done]. split; [done|]. apply Z.mod_pos_bound. lia.
Qed.

Lemma li_snoc_slli c v k : li rd c v -> 0 <= k < 64 -> li rd (c ++ [Slli rd rd k]) (s64 (v * 2 ^ k)).
Proof.
  intros Hc Hk. apply (li_snoc rd c v _ (fun x => x * 2 ^ k) Hc); [cbn [fits]; auto|].
  intros s. cbn [exec1]. by rewrite Z.shiftl_mul_pow2 by lia.
Qed.

Lemma li_snoc_addi c v a : li rd c v -> is_s 12 a -> li rd (c ++ [Addi rd rd a]) (s64 (v + a)).
Proof. intros Hc Ha. apply (li_snoc rd c v _ (fun x => x + a) Hc); [cbn [fits]; auto|done]. Qed.

Lemma li_snoc_srli c v k :
  li rd c v -> 0 <= k < 64 -> li rd (c ++ [Srli rd rd k]) (s64 (Z.shiftr (u64 v) k)).
Proof. intros Hc Hk. apply (li_snoc rd c v _ (fun x => Z.shiftr (u64 x) k) Hc); [cbn [fits]; auto|done]. Qed.

Lemma li_snoc_addiw c v a : li rd c v -> is_s 12 a -> li rd (c ++ [Addiw rd rd a]) (s32 (v + a)).
Proof.
  intros Hc Ha. assert (s64 (s32 (v + a)) = s32 (v + a)) as <-.
  { assert (is_s 32 (s32 (v + a))) by (apply swrap_is_s; lia). apply swrap_id; unfold is_s in *; lia. }
  apply (li_snoc rd c v _ (fun x => s32 (x + a)) Hc); [cbn [fits]; auto|done].
Qed.

End rd.

(** ** Simple values *)

Lemma IsInt_param_spec N value :
  0 < N <= 64 -> is_s 64 value -> IsInt_param 64 N value = Some (bool_decide (is_s N value)).
Proof.
  intros HN Hv. unfold IsInt_param. destruct (Z.eqb_spec N 64) as [->|].
  - by rewrite bool_decide_true.
  - replace ((0 <? N) && (N <? 64)) with true by lia. f_equal.
    rewrite Z.shiftl_mul_pow2, Z.mul_1_l by lia.
    apply eq_bool_prop_intro. rewrite bool_decide_spec, andb_True, !Is_true_true, Z.leb_le, Z.ltb_lt.
    unfold is_s. lia.
Qed.

Lemma is_s_shift_l N q k : 0 < N -> 0 <= k -> is_s (N + k) (q * 2 ^ k) <-> is_s N q.
Proof.
  intros HN Hk. unfold is_s. replace (N + k - 1) with (N - 1 + k) by lia.
  rewrite Z.pow_add_r by lia. pose proof (pow2_pos k Hk). split; nia.
Qed.

Lemma simple_range value : is_simple_li_value value = true <-> -0x80000800 <= value <= 0x7fffffff.
Proof. unfold is_simple_li_value. rewrite andb_true_iff, !Z.leb_le. done. Qed.

(** A value that LUI and ADDIW load. *)
Lemma near_value_spec value :
  is_s 32 value -> ~ is_s 12 value ->
  exists h, Z.land (value + 0x800) (Z.lnot 0xfff) = h * 4096 /\ is_s 12 (value - h * 4096) /\
    Z.shiftr (u32 (h * 4096)) 12 = h mod 2 ^ 20 /\ h mod 2 ^ 20 <> 0 /\
    s32 (s32 (h mod 2 ^ 20 * 4096) + (value - h * 4096)) = value.
Proof.
  intros H32 H12. exists ((value + 0x800) / 4096).
  split.
  { rewrite (Z.div_mod (value + 0x800) 4096) at 1 by lia. change (Z.lnot 0xfff) with (- 2 ^ 12).
    replace (- 2 ^ 12) with (Z.lnot (Z.ones 12)) by done. rewrite <- Z.ldiff_land, Z.ldiff_ones_r by lia.
    rewrite Z.shiftl_mul_pow2, Z.shiftr_div_pow2 by lia. pow_lia. }
  set (h := (value + 0x800) / 4096).
  assert (Hh : h * 4096 <= value + 0x800 < h * 4096 + 4096) by (unfold h; pow_lia). clearbody h.
  unfold is_s in *. split; [lia|]. split; [|split].
  - rewrite Z.shiftr_div_pow2 by lia. unfold wrap. pow_lia.
  - pow_lia.
  - apply swrap_eq_wrap; [lia|unfold is_s; lia|]. rewrite <- wrap_add_l, wrap_swrap, wrap_add_l by lia.
    unfold wrap. pow_lia.
Qed.

(** The three sequences of two instructions. *)
Lemma li_addi_slli rd q k :
  (rd < 32)%nat -> is_s 12 q -> 0 <= k < 64 -> is_s 64 (q * 2 ^ k) ->
  li rd [Addi rd Zero q; Slli rd rd k] (q * 2 ^ k).
Proof.
  intros Hrd Hq Hk Hs. rewrite <- (swrap_id 64 (q * 2 ^ k)) by (done || lia).
  apply (li_snoc_slli rd Hrd [_] q k); [by apply li_addi|done].
Qed.

Lemma li_lui_addi rd value :
  (rd < 32)%nat -> -0x80000800 <= value < -0x80000000 ->
  li rd [Lui rd (u32 (Z.shiftl 1 19)); Addi rd rd (value - -0x80000000)] value.
Proof.
  intros Hrd Hv. replace value with (s64 (- 2 ^ 19 * 2 ^ 12 + (value - -0x80000000))) at 2
    by (rewrite swrap_id by (unfold is_s; lia); lia).
  apply (li_snoc_addi rd Hrd [_]); [|unfold is_s; lia]. by apply li_lui.
Qed.

Lemma li_lui_addiw rd value h :
  (rd < 32)%nat -> is_s 32 value -> is_s 12 (value - h * 4096) ->
  s32 (s32 (h mod 2 ^ 20 * 4096) + (value - h * 4096)) = value ->
  li rd (Lui rd (h mod 2 ^ 20) :: if negb (value - h * 4096 =? 0) then [Addiw rd rd (value - h * 4096)] else []) value.
Proof.
  intros Hrd H32 Hsm Hv.
  assert (Hlui : li rd [Lui rd (h mod 2 ^ 20)] (s32 (h mod 2 ^ 20 * 4096))).
  { assert (s64 (s32 (Z.shiftl (h mod 2 ^ 20) 12)) = s32 (h mod 2 ^ 20 * 4096)) as <-.
    { rewrite Z.shiftl_mul_pow2 by lia. change (2 ^ 12) with 4096.
      assert (is_s 32 (s32 (h mod 2 ^ 20 * 4096))) by (apply swrap_is_s; lia).
      apply swrap_id; unfold is_s in *; lia. }
    apply li_start; [|done]. split; [done|]. apply Z.mod_pos_bound. lia. }
  destruct (Z.eqb_spec (value - h * 4096) 0) as [E0|E0]; cbn [negb].
  - rewrite E0, Z.add_0_r, swrap_id in Hv; [|lia|apply swrap_is_s; lia]. by rewrite Hv in Hlui.
  - rewrite <- Hv at 2. by apply (li_snoc_addiw rd Hrd [_]).
Qed.

Lemma emit_simple_spec rd value :
  (rd < 32)%nat -> is_simple_li_value value = true ->
  exists c, emit_simple_li_helper rd value = Some c /\ li rd c value /\ (1 <= length c <= 2)%nat /\
    (is_s 12 value -> length c = 1%nat) /\ (0x800 <= value < 0x1000 -> length c = 2%nat) /\
    (length c = 1%nat -> is_s 12 value \/ value mod 4096 = 0).
Proof.
  intros Hrd Hs. unfold emit_simple_li_helper. rewrite Hs. cbn [dcheck mbind option_bind].
  apply simple_range in Hs. rewrite IsInt_range by lia.
  destruct (decide (is_s 12 value)) as [H12|H12].
  { rewrite bool_decide_true by done. rewrite swrap_id by (unfold is_s in *; lia). eexists. split; [reflexivity|].
    split; [by apply li_addi|]. cbn [length]. split; [lia|]. split; [done|]. split; [unfold is_s in H12; lia|tauto]. }
  rewrite bool_decide_false by done.
  assert (H64 : is_s 64 value) by (unfold is_s; lia).
  destruct (odd_part value) as (q & k & E & Hq & Hk); [done|unfold is_s in H12; lia|].
  assert (CTZ64 value = Some k) as -> by (rewrite E; apply CTZ64_eq; [done..|by rewrite <- E]).
  cbn [mbind option_bind].
  assert ((if k <? 12 then IsInt_param 64 (6 + k) value else Some false) =
    Some (bool_decide (k < 12 /\ is_s 6 q))) as ->.
  { destruct (Z.ltb_spec k 12); [|by rewrite bool_decide_false by lia].
    rewrite IsInt_param_spec by (done || lia). f_equal. apply bool_decide_ext. rewrite E, (is_s_shift_l 6 q k) by lia. tauto. }
  cbn [mbind option_bind]. destruct (decide (k < 12 /\ is_s 6 q)) as [[Hk12 Hq6]|Hno].
  { rewrite bool_decide_true by done. eexists. split; [reflexivity|]. split; [|cbn [length]; unfold is_s in *; lia].
    rewrite E, shiftr_mul, swrap_id by (lia || (unfold is_s in *; lia)).
    apply li_addi_slli; [done|unfold is_s in *; lia|done|by rewrite <- E]. }
  rewrite bool_decide_false by done. destruct (Z.ltb_spec value (-0x80000000)) as [Hlt|Hge].
  { rewrite IsInt_range, !bool_decide_true, (proj2 (Z.ltb_lt _ 0)) by (unfold is_s; lia).
    cbn [dcheck mbind option_bind]. eexists. split; [reflexivity|]. split; [apply li_lui_addi; (done || lia)|].
    cbn [length]. unfold is_s in *. lia. }
  assert (H32 : is_s 32 value) by (unfold is_s; lia).
  destruct (near_value_spec value H32 H12) as (h & -> & Hsm & -> & Hnz & Hv).
  rewrite (swrap_id 32) by (unfold is_s in *; lia).
  rewrite !IsInt_range, !bool_decide_true, (proj2 (Z.eqb_neq (h mod _) 0)) by (done || lia).
  cbn [dcheck mbind option_bind negb]. eexists. split; [reflexivity|]. split; [by apply li_lui_addiw|].
  unfold is_s in *. destruct (Z.eqb_spec (value - h * 4096) 0); cbn [negb length]; [|lia].
  do 3 (split; [lia|]). intros _. right. replace value with (h * 4096) by lia. apply Z.mod_mul. lia.
Qed.

(** The length of the code does not depend on the register. *)
Lemma emit_simple_length rd rd' value c :
  emit_simple_li_helper rd value = Some c ->
  exists c', emit_simple_li_helper rd' value = Some c' /\ length c' = length c.
Proof.
  unfold emit_simple_li_helper. intros E. apply riscv_dcheck_Some in E as [-> E]. cbn [dcheck mbind option_bind].
  destruct (IsInt 12 64 value); [injection E as <-; by eexists|].
  destruct (CTZ64 value) as [k|]; [|done]. cbn [mbind option_bind] in *.
  destruct (if k <? 12 then _ else _) as [[]|]; [injection E as <-; by eexists| |done]. cbn [mbind option_bind] in *.
  destruct (value <? -0x80000000).
  - do 3 (apply riscv_dcheck_Some in E as [-> E]). injection E as <-. by eexists.
  - do 3 (apply riscv_dcheck_Some in E as [-> E]). injection E as <-. eexists. split; [reflexivity|].
    cbn [length]. by destruct (negb _).
Qed.

(** ** Splitting off pairs *)

Definition pair_ok (p : Z * Z) : Prop := is_s 12 (fst p) /\ 0 <= snd p < 64.

(** The value that the pairs make of [v]. *)
Definition replay (v : Z) (pairs : list (Z * Z)) : Z :=
  fold_left (fun v '(a, k) => s64 (v * 2 ^ k + a)) pairs v.

Lemma li_pairs rd c v pairs :
  (rd < 32)%nat -> li rd c v -> Forall pair_ok pairs -> li rd (c ++ emit_pairs rd pairs) (replay v pairs).
Proof.
  intros Hrd. revert c v. induction pairs as [|[a k] pairs IH]; intros c v Hc Hp; unfold emit_pairs.
  - by rewrite app_nil_r.
  - apply Forall_cons_1 in Hp as [[Ha Hk] Hp]. cbn [fst snd] in *.
    cbn [map concat replay fold_left]. fold (emit_pairs rd pairs). rewrite app_assoc. apply IH; [|done].
    pose proof (li_snoc_slli rd Hrd c v k Hc Hk) as H1. destruct (Z.eqb_spec a 0) as [->|]; cbn [negb].
    + by rewrite Z.add_0_r.
    + rewrite <- (swrap_add_l 64) by lia.
      change (Slli rd rd k :: [Addi rd rd a]) with ([Slli rd rd k] ++ [Addi rd rd a]). rewrite app_assoc.
      by apply li_snoc_addi.
Qed.

Lemma emit_pairs_length rd rd' pairs : length (emit_pairs rd pairs) = length (emit_pairs rd' pairs).
Proof.
  unfold emit_pairs. induction pairs as [|[a k] pairs IH]; [done|]. cbn [map concat].
  rewrite !length_app, IH. by destruct (negb _).
Qed.

Lemma emit_pairs_bound rd pairs : (length (emit_pairs rd pairs) <= 2 * length pairs)%nat.
Proof.
  unfold emit_pairs. induction pairs as [|[a k] pairs IH]; [done|]. cbn [map concat length].
  rewrite length_app. destruct (negb _); cbn [length]; lia.
Qed.

(** The sign-extended low bits, as the source computes them. *)
Lemma riscv_low_bits_spec w value :
  1 < w -> Z.land value (Z.ones w) - Z.shiftl (Z.land value (Z.shiftl 1 (w - 1))) 1 = swrap w value.
Proof.
  intros Hw. rewrite Z.land_ones by lia. pose proof (pow2_pos (w - 1) ltac:(lia)).
  assert (Z.land value (Z.shiftl 1 (w - 1)) = (value / 2 ^ (w - 1)) mod 2 * 2 ^ (w - 1)) as ->.
  { rewrite <- (Z.shiftl_mul_pow2 _ (w - 1)) by lia. change (Z.shiftl 1 (w - 1)) with (Z.shiftl (Z.ones 1) (w - 1)).
    change 2 with (2 ^ 1) at 2. rewrite <- Z.land_ones, <- Z.shiftr_div_pow2 by lia.
    apply Z.bits_inj'. intros j Hj. rewrite Z.land_spec, !Z.shiftl_spec by lia.
    destruct (Z.lt_ge_cases j (w - 1)).
    - rewrite !(Z.testbit_neg_r _ (j - (w - 1))) by lia. apply andb_false_r.
    - rewrite Z.land_spec, Z.shiftr_spec by lia. do 2 f_equal. lia. }
  rewrite Z.shiftl_mul_pow2 by lia. change (2 ^ 1) with 2.
  assert (2 ^ w = 2 ^ (w - 1) * 2) as E by (change 2 with (2 ^ 1) at 3; rewrite <- Z.pow_add_r by lia; f_equal; lia).
  symmetry. apply swrap_eq_wrap; [lia| |].
  - unfold is_s. rewrite E, Z.rem_mul_r by lia.
    pose proof (Z.mod_pos_bound value (2 ^ (w - 1)) ltac:(lia)).
    pose proof (Z.mod_pos_bound (value / 2 ^ (w - 1)) 2 ltac:(lia)). nia.
  - unfold wrap. rewrite <- Z.mul_assoc, <- E, <- Z.add_opp_r, Zopp_mult_distr_l, Z.mod_add, Z.mod_mod by lia. done.
Qed.

Lemma addi_value_spec value : Z.land value 0xfff - Z.shiftl (Z.land value 0x800) 1 = swrap 12 value.
Proof. by apply (riscv_low_bits_spec 12). Qed.

Lemma low_word_spec value : Z.land value 0xffffffff - Z.shiftl (Z.land value 0x80000000) 1 = s32 value.
Proof. by apply (riscv_low_bits_spec 32). Qed.

(** One round of the loop. *)
Lemma split_round fuel value pairs q k :
  is_simple_li_value value = false -> (length pairs < 3)%nat ->
  12 <= k < 64 -> Z.odd q = true -> is_s 64 (q * 2 ^ k) -> s64 (value - swrap 12 value) = q * 2 ^ k ->
  split_slli_addi (S fuel) value pairs = split_slli_addi fuel q ((swrap 12 value, k) :: pairs).
Proof.
  intros Hs Hl Hk Hq H64 E. cbn [split_slli_addi]. rewrite Hs.
  rewrite (proj2 (Nat.ltb_lt _ _)) by done. rewrite addi_value_spec, IsInt_range by lia.
  rewrite bool_decide_true by (apply swrap_is_s; lia). cbn [dcheck mbind option_bind].
  rewrite E, CTZ64_eq by (done || lia). cbn [mbind option_bind]. rewrite (proj2 (Z.leb_le 12 k)) by lia.
  cbn [dcheck mbind option_bind]. by rewrite shiftr_mul by lia.
Qed.

Lemma split_stop fuel value pairs :
  is_simple_li_value value = true -> split_slli_addi fuel value pairs = Some (value, pairs).
Proof. intros Hs. destruct fuel; cbn [split_slli_addi]; by rewrite Hs. Qed.

Lemma low_removed w value : 0 < w -> (value - swrap w value) mod 2 ^ w = 0.
Proof.
  intros. change (wrap w (value - swrap w value) = 0).
  by rewrite <- wrap_sub_r, wrap_swrap, wrap_sub_r, Z.sub_diag by lia.
Qed.

(** An odd number times a power of two that is a multiple of [2 ^ m]. *)
Lemma shamt_at_least m q k : 0 <= m -> 0 <= k -> Z.odd q = true -> (q * 2 ^ k) mod 2 ^ m = 0 -> m <= k.
Proof.
  intros H0 Hk Hq Hm. destruct (Z.le_gt_cases m k); [done|].
  apply Z.mod_divide in Hm as [t Et]; [|apply Z.pow_nonzero; lia].
  replace m with (m - k - 1 + 1 + k) in Et by lia. rewrite !Z.pow_add_r, Z.mul_assoc in Et by lia.
  apply Z.mul_reg_r in Et; [|apply Z.pow_nonzero; lia].
  rewrite Et, Z.mul_assoc, Z.odd_mul in Hq. by rewrite andb_false_r in Hq.
Qed.

Lemma remaining_bound value B :
  is_s 64 value -> 12 <= B <= 63 -> Z.abs value <= 2 ^ B -> Z.abs (s64 (value - swrap 12 value)) <= 2 ^ B.
Proof.
  intros H64 HB Hv. assert (Ha : is_s 12 (swrap 12 value)) by (apply swrap_is_s; lia).
  destruct (Z.eq_dec B 63) as [->|].
  { pose proof (swrap_is_s 64 (value - swrap 12 value) ltac:(lia)). unfold is_s in *. lia. }
  assert (2 ^ B <= 2 ^ 62) by (apply Z.pow_le_mono_r; lia).
  rewrite swrap_id by (unfold is_s in *; lia).
  pose proof (low_removed 12 value ltac:(lia)) as Hm. apply Z.mod_divide in Hm as [t Et]; [|lia].
  assert (2 ^ B = 2 ^ (B - 12) * 2 ^ 12) as E by (rewrite <- Z.pow_add_r by lia; f_equal; lia).
  unfold is_s in *. lia.
Qed.

(** The subtraction of the loop overflows exactly for the largest 2048 values. *)
Lemma split_subtraction_overflows value :
  is_s 64 value ->
  (~ is_s 64 (value - (Z.land value 0xfff - Z.shiftl (Z.land value 0x800) 1)) <-> 2 ^ 63 - 0x800 <= value).
Proof.
  intros H64. rewrite addi_value_spec. pose proof (low_removed 12 value ltac:(lia)) as Hm.
  pose proof (swrap_is_s 12 value ltac:(lia)) as Ha. unfold is_s in *. revert Hm. pow_lia.
Qed.

(** A round exists for every value that is not simple, and makes it smaller. *)
Lemma round_exists value :
  is_s 64 value -> is_simple_li_value value = false ->
  exists q k, 12 <= k < 64 /\ Z.odd q = true /\ is_s 64 (q * 2 ^ k) /\
    s64 (value - swrap 12 value) = q * 2 ^ k /\
    s64 (q * 2 ^ k + swrap 12 value) = value /\
    forall B, 12 <= B <= 63 -> Z.abs value <= 2 ^ B -> Z.abs q <= 2 ^ (B - 12).
Proof.
  intros H64 Hs. assert (Ha : is_s 12 (swrap 12 value)) by (apply swrap_is_s; lia).
  assert (Hr : is_s 64 (s64 (value - swrap 12 value))) by (apply swrap_is_s; lia).
  assert (Hback : s64 (s64 (value - swrap 12 value) + swrap 12 value) = value)
    by (rewrite swrap_add_l, Z.sub_add by lia; by apply swrap_id).
  destruct (odd_part (s64 (value - swrap 12 value)) Hr) as (q & k & E & Hq & Hk).
  { intros E. rewrite E, Z.add_0_l, swrap_id in Hback by (unfold is_s in *; lia).
    apply not_true_iff_false in Hs. apply Hs, simple_range. unfold is_s in Ha. lia. }
  assert (12 <= k) as Hk12.
  { apply (shamt_at_least 12 q k); [lia|lia|done|]. by rewrite <- E, word_swrap_mod, low_removed by lia. }
  exists q, k. split; [lia|]. split; [done|]. rewrite <- E. do 3 (split; [done|]).
  intros B HB Hv. pose proof (remaining_bound value B H64 HB Hv) as Hb. rewrite E, Z.abs_mul in Hb.
  assert (2 ^ B = 2 ^ (B - 12) * 2 ^ 12) as EB by (rewrite <- Z.pow_add_r by lia; f_equal; lia).
  assert (2 ^ 12 <= 2 ^ k) by (apply Z.pow_le_mono_r; lia).
  pose proof (pow2_pos (B - 12) ltac:(lia)). rewrite (Z.abs_eq (2 ^ k)) in Hb by lia. nia.
Qed.

(** The loop ends within three rounds; the last value is simple, and the pairs
    make the first value of it.  A last shift by 12 leaves no 20-bit value. *)
Definition head_ok (v : Z) (pairs : list (Z * Z)) : Prop :=
  match pairs with
  | (a, k) :: _ => is_simple_li_value (s64 (v * 2 ^ k + a)) = false /\ 12 <= k
  | [] => True
  end.

Lemma split_spec n fuel value pairs :
  (length pairs + n = 3)%nat -> (n < fuel)%nat -> is_s 64 value -> Z.abs value <= 2 ^ (27 + 12 * Z.of_nat n) ->
  Forall pair_ok pairs -> head_ok value pairs ->
  exists v pairs', split_slli_addi fuel value pairs = Some (v, pairs') /\
    is_simple_li_value v = true /\ replay v pairs' = replay value pairs /\
    Forall pair_ok pairs' /\ (length pairs' <= 3)%nat /\ head_ok v pairs'.
Proof.
  revert fuel value pairs. induction n as [|n IH]; intros fuel value pairs Hn Hf H64 Hb Hp Hh;
    (destruct (is_simple_li_value value) eqn:Hs;
     [exists value, pairs; rewrite split_stop by done; repeat split; (done || lia)|]).
  - apply not_true_iff_false in Hs. destruct Hs. apply simple_range. lia.
  - destruct (round_exists value H64 Hs) as (q & k & Hk & Hq & Hq64 & E & Eb & HB).
    destruct fuel as [|fuel]; [lia|]. rewrite (split_round fuel value pairs q k) by (done || lia).
    assert (Ha : is_s 12 (swrap 12 value)) by (apply swrap_is_s; lia).
    destruct (IH fuel q ((swrap 12 value, k) :: pairs)) as (v & pairs' & -> & H1 & H2 & H3 & H4 & H5).
    + cbn [length]. lia.
    + lia.
    + pose proof (pow2_pos k). unfold is_s in *. nia.
    + replace (27 + 12 * Z.of_nat n) with (27 + 12 * Z.of_nat (S n) - 12) by lia. apply HB; [lia|done].
    + constructor; [|done]. split; [done|cbn; lia].
    + cbn [head_ok]. rewrite Eb. split; [done|lia].
    + exists v, pairs'. split; [done|]. split; [done|]. split; [|done].
      rewrite H2. cbn [replay fold_left]. by rewrite Eb.
Qed.

Lemma split_64 value :
  is_s 64 value ->
  exists v pairs, split_slli_addi (S kMaxNumSllAddi) value [] = Some (v, pairs) /\
    is_simple_li_value v = true /\ replay v pairs = value /\
    Forall pair_ok pairs /\ (length pairs <= 3)%nat /\ head_ok v pairs.
Proof.
  intros H64. apply (split_spec 3); try done; [unfold kMaxNumSllAddi; lia|]. change (27 + 12 * Z.of_nat 3) with 63. unfold is_s in H64. lia.
Qed.

Lemma head_shamt v a k rest : head_ok v ((a, k) :: rest) -> is_s 12 a -> is_s 20 v -> 12 < k.
Proof.
  intros [Hs Hk] Ha Hv. destruct (Z.eq_dec k 12) as [->|]; [|lia]. exfalso.
  apply not_true_iff_false in Hs. apply Hs, simple_range. unfold is_s in *. rewrite swrap_id by (unfold is_s; lia). lia.
Qed.

(** A 20-bit value is loaded with LUI and a shift that is smaller by 12. *)
Lemma li_lui_pairs rd v a k rest :
  (rd < 32)%nat -> is_s 20 v -> 12 < k -> Forall pair_ok ((a, k) :: rest) ->
  li rd (Lui rd (Z.land v 0xfffff) :: emit_pairs rd ((a, k - 12) :: rest)) (replay v ((a, k) :: rest)).
Proof.
  intros Hrd Hv Hk Hp. apply Forall_cons_1 in Hp as [[Ha Hk64] Hp]. cbn [fst snd] in *.
  assert (replay v ((a, k) :: rest) = replay (v * 2 ^ 12) ((a, k - 12) :: rest)) as ->.
  { cbn [replay fold_left]. rewrite <- Z.mul_assoc, <- Z.pow_add_r by lia. by replace (12 + (k - 12)) with k by lia. }
  apply (li_pairs rd [_]); [done| |].
  - apply li_lui; [done..|]. change 0xfffff with (Z.ones 20). by rewrite Z.land_ones by lia.
  - constructor; [|done]. split; [done|cbn; lia].
Qed.

(** The code for every value, and its length: [first] instructions and the pairs. *)
Definition first_length (v : Z) (pairs : list (Z * Z)) (first : nat) : Prop :=
  match pairs with
  | [] => is_s 12 v -> first = 1%nat
  | _ => is_s 20 v -> first = 1%nat
  end.

Lemma emit_with_spec rd imm v pairs :
  (rd < 32)%nat -> split_slli_addi (S kMaxNumSllAddi) imm [] = Some (v, pairs) ->
  is_simple_li_value v = true -> Forall pair_ok pairs -> head_ok v pairs ->
  exists c first, emit_with_slli_addi_helper rd imm = Some c /\ li rd c (replay v pairs) /\
    length c = (first + length (emit_pairs rd pairs))%nat /\ (1 <= first <= 2)%nat /\ first_length v pairs first.
Proof.
  intros Hrd E Hs Hp Hh. unfold emit_with_slli_addi_helper. rewrite E. cbn [mbind option_bind].
  destruct (emit_simple_spec rd v Hrd Hs) as (c & Ec & Hc & Hlc & H1 & _).
  destruct pairs as [|[a k] rest].
  { rewrite Ec. exists c, (length c). rewrite Nat.add_0_r. auto. }
  rewrite !IsInt_range by lia. destruct (bool_decide_reflect (is_s 20 v)) as [H20|H20].
  - destruct (bool_decide_reflect (is_s 12 v)) as [H12|H12]; cbn [andb negb].
    + rewrite Ec. cbn [mbind option_bind]. eexists _, (length c). split; [reflexivity|].
      split; [by apply li_pairs|]. rewrite length_app. unfold first_length. auto.
    + assert (12 < k) as Hk.
      { apply Forall_cons_1 in Hp as [[Ha _] _]. by apply (head_shamt v a k rest). }
      rewrite (proj2 (Z.ltb_lt 12 k)) by done. cbn [dcheck mbind option_bind].
      eexists _, 1%nat. split; [reflexivity|]. split; [by apply li_lui_pairs|].
      split; [|split; [lia|done]]. unfold emit_pairs. cbn [length map concat]. rewrite !length_app. by destruct (negb _).
  - cbn [andb]. rewrite Ec. cbn [mbind option_bind]. eexists _, (length c). split; [reflexivity|].
    split; [by apply li_pairs|]. rewrite length_app. unfold first_length. tauto.
Qed.

Lemma emit_with_64 rd imm :
  (rd < 32)%nat -> is_s 64 imm ->
  exists c, emit_with_slli_addi_helper rd imm = Some c /\ li rd c imm /\ (1 <= length c <= 8)%nat.
Proof.
  intros Hrd H64. destruct (split_64 imm H64) as (v & pairs & E & Hs & Hr & Hp & Hl & Hh).
  destruct (emit_with_spec rd imm v pairs Hrd E Hs Hp Hh) as (c & first & Ec & Hc & Elen & Hf & _).
  exists c. rewrite Hr in Hc. split; [done|]. split; [done|].
  pose proof (emit_pairs_bound rd pairs). lia.
Qed.

Lemma emit_with_length rd rd' imm c :
  emit_with_slli_addi_helper rd imm = Some c ->
  exists c', emit_with_slli_addi_helper rd' imm = Some c' /\ length c' = length c.
Proof.
  unfold emit_with_slli_addi_helper. destruct (split_slli_addi _ imm []) as [[v pairs]|]; [|done].
  cbn [mbind option_bind]. intros E. destruct pairs as [|[a k] rest]; [by apply (emit_simple_length rd)|].
  destruct (_ && _).
  - apply riscv_dcheck_Some in E as [-> E]. injection E as <-. eexists. split; [reflexivity|].
    cbn [length]. by rewrite (emit_pairs_length rd' rd).
  - destruct (emit_simple_li_helper rd v) as [c1|] eqn:E1; [|done]. injection E as <-.
    destruct (emit_simple_length rd rd' v c1 E1) as (c1' & -> & El). eexists. split; [reflexivity|].
    by rewrite !length_app, El, (emit_pairs_length rd' rd).
Qed.

(** What [count_instructions_with_slli_addi] counts. *)
Lemma count_with_spec imm :
  is_s 64 imm -> exists n, count_instructions_with_slli_addi imm = Some n /\ 1 <= n <= 8.
Proof.
  intros H64. destruct (emit_with_64 Zero imm) as (c & E & _ & Hl); [unfold Zero; lia|done|].
  unfold count_instructions_with_slli_addi. rewrite E. eexists. split; [reflexivity|]. lia.
Qed.

Lemma count_with_length rd imm n c :
  count_instructions_with_slli_addi imm = Some n -> emit_with_slli_addi_helper rd imm = Some c ->
  Z.of_nat (length c) = n.
Proof.
  unfold count_instructions_with_slli_addi. intros En Ec.
  destruct (emit_with_length rd Zero imm c Ec) as (c' & E & El). rewrite E in En. injection En as <-. by rewrite El.
Qed.

(** ** Counting *)

Lemma count_split imm v pairs :
  split_slli_addi (S kMaxNumSllAddi) imm [] = Some (v, pairs) ->
  is_simple_li_value v = true -> Forall pair_ok pairs -> head_ok v pairs ->
  exists first, count_instructions_with_slli_addi imm = Some (Z.of_nat (first + length (emit_pairs Zero pairs))) /\
    (1 <= first <= 2)%nat /\ first_length v pairs first.
Proof.
  intros E Hs Hp Hh. destruct (emit_with_spec Zero imm v pairs) as (c & first & Ec & _ & El & Hf); try done.
  { unfold Zero. lia. }
  exists first. unfold count_instructions_with_slli_addi. rewrite Ec. cbn [mbind option_bind]. by rewrite El.
Qed.

Lemma count_simple value :
  is_simple_li_value value = true -> exists n, count_instructions_with_slli_addi value = Some n /\ n <= 2.
Proof.
  intros Hs. destruct (count_split value value []) as (first & E & Hf & _); try done.
  { by apply split_stop. }
  rewrite E. eexists. split; [reflexivity|]. cbn [emit_pairs map concat length]. lia.
Qed.

(** Only small values take one instruction. *)
Lemma count_one q :
  is_s 64 q -> Z.odd q = true -> count_instructions_with_slli_addi q = Some 1 -> is_s 12 q.
Proof.
  intros H64 Hq Hc. destruct (split_64 q H64) as (v & pairs & E & Hs & Hr & Hp & Hl & Hh).
  unfold count_instructions_with_slli_addi, emit_with_slli_addi_helper in Hc. rewrite E in Hc.
  cbn [mbind option_bind] in Hc. destruct (emit_simple_spec Zero v ltac:(unfold Zero; lia) Hs) as (c & Ec & _ & Hlc & _ & _ & H1).
  destruct pairs as [|[a k] rest].
  - rewrite Ec in Hc. cbn [mbind option_bind] in Hc. injection Hc as Hc. cbn [replay fold_left] in Hr. subst v.
    destruct H1 as [|Hm]; [lia|done|]. apply Z.mod_divide in Hm as [t ->]; [|lia].
    by rewrite Z.odd_mul, andb_false_r in Hq.
  - exfalso. destruct (_ && _).
    + destruct (12 <? k); [|done]. cbn [mbind option_bind dcheck] in Hc. injection Hc as Hc.
      unfold emit_pairs in Hc. cbn [map concat length] in Hc. rewrite length_app in Hc. cbn [length] in Hc. lia.
    + rewrite Ec in Hc. cbn [mbind option_bind] in Hc. injection Hc as Hc.
      unfold emit_pairs in Hc. cbn [map concat] in Hc. rewrite !length_app in Hc. cbn [length] in Hc. lia.
Qed.

(** A round, from the value it leaves. *)
Lemma round_eq value q k fuel pairs :
  is_simple_li_value value = false -> (length pairs < 3)%nat -> 12 <= k < 64 -> Z.odd q = true ->
  is_s 64 (q * 2 ^ k) -> is_s 12 (value - q * 2 ^ k) ->
  split_slli_addi (S fuel) value pairs = split_slli_addi fuel q ((value - q * 2 ^ k, k) :: pairs).
Proof.
  intros Hs Hl Hk Hq H64 Ha.
  assert (swrap 12 value = value - q * 2 ^ k) as E.
  { apply swrap_eq_wrap; [lia|done|]. unfold wrap. replace k with (k - 12 + 12) by lia.
    rewrite Z.pow_add_r, Z.mul_assoc, <- Z.add_opp_r, Zopp_mult_distr_l, Z.mod_add by lia. done. }
  rewrite (split_round _ _ _ q k), E; try done. rewrite E.
  replace (value - (value - q * 2 ^ k)) with (q * 2 ^ k) by lia. apply swrap_id; (done || lia).
Qed.

(** A 20-bit odd number, shifted, takes two instructions. *)
Lemma count_shifted q k :
  12 <= k < 64 -> Z.odd q = true -> is_s 20 q -> is_s 64 (q * 2 ^ k) ->
  exists n, count_instructions_with_slli_addi (q * 2 ^ k) = Some n /\ n <= 2.
Proof.
  intros Hk Hq H20 H64. destruct (is_simple_li_value (q * 2 ^ k)) eqn:Hs; [by apply count_simple|].
  assert (Hv : is_simple_li_value q = true) by (apply simple_range; unfold is_s in H20; lia).
  destruct (count_split (q * 2 ^ k) q [(0, k)]) as (first & E & Hf & H1).
  - rewrite (round_eq _ q k), Z.sub_diag by (rewrite ?Z.sub_diag; done || (cbn [length]; lia)).
    by apply split_stop.
  - done.
  - constructor; [|done]. split; [done|cbn; lia].
  - cbn [head_ok]. rewrite Z.add_0_r, swrap_id by (done || lia). split; [done|lia].
  - rewrite E. eexists. split; [reflexivity|]. rewrite H1 by done. done.
Qed.

(** The instructions for the high word in [try_tmp]. *)
Definition high_count (high : Z) : Z := if bool_decide (is_s 20 high) then 1 else 2.

Lemma first_high v pairs first : pairs <> [] -> (1 <= first <= 2)%nat -> first_length v pairs first -> Z.of_nat first <= high_count v.
Proof.
  intros Hp Hf H1. unfold high_count. destruct (bool_decide_reflect (is_s 20 v)); [|lia].
  destruct pairs; [done|]. rewrite H1 by done. done.
Qed.

Section low_word.
Context (high k low : Z).
Hypothesis Hk : 32 <= k < 64.
Hypothesis Hodd : Z.odd high = true.
Hypothesis H32 : is_s 32 high.
Hypothesis H64 : is_s 64 (high * 2 ^ k).
Local Abbreviation imm := (high * 2 ^ k + low).
Hypothesis Himm : is_s 64 imm.
Hypothesis Hs : is_simple_li_value imm = false.

Lemma high_simple : is_simple_li_value high = true.
Proof. apply simple_range. unfold is_s in H32. lia. Qed.

Lemma pow_k m : 0 <= m <= k -> 2 ^ k = 2 ^ (k - m) * 2 ^ m.
Proof. intros. rewrite <- Z.pow_add_r by lia. f_equal. lia. Qed.

Lemma count_low_small :
  0 <= low < 0x800 ->
  exists n, count_instructions_with_slli_addi imm = Some n /\ n <= high_count high + 1 + 2.
Proof.
  intros Hl. destruct (count_split imm high [(low, k)]) as (first & E & Hf & H1).
  - rewrite (round_eq imm high k); rewrite ?Z.add_simpl_l; [apply split_stop, high_simple|..];
      try done; try (cbn [length]; lia). unfold is_s; lia.
  - apply high_simple.
  - constructor; [|done]. split; [unfold is_s; cbn; lia|cbn; lia].
  - cbn [head_ok]. rewrite swrap_id by (done || lia). split; [done|lia].
  - rewrite E. eexists. split; [reflexivity|]. pose proof (first_high high [(low, k)] first ltac:(done) Hf H1).
    pose proof (emit_pairs_bound Zero [(low, k)]). cbn [length] in *. lia.
Qed.

(** The low word borrows from the high word. *)
Local Abbreviation high1 := (high * 2 ^ (k - 12) + 1).

Lemma high1_spec : Z.odd high1 = true /\ is_s 64 (high1 * 2 ^ 12) /\ high1 * 2 ^ 12 = high * 2 ^ k + 4096.
Proof.
  assert (high1 * 2 ^ 12 = high * 2 ^ k + 4096) as E by (rewrite (pow_k 12) by lia; lia).
  split; [|split; [|done]].
  - replace (k - 12) with (k - 13 + 1) by lia. rewrite Z.pow_add_r, Z.mul_assoc, Z.add_comm by lia.
    rewrite Z.odd_add, Z.odd_mul. by rewrite andb_false_r.
  - rewrite E. unfold is_s in *. rewrite (pow_k 32) in * by lia.
    set (x := high * (2 ^ (k - 32) * 2 ^ 32)) in *. assert (x mod 2 ^ 32 = 0).
    { unfold x. rewrite Z.mul_assoc. apply Z.mod_mul. lia. }
    pow_lia.
Qed.

Lemma count_low_large :
  0x800 <= low < 0x1000 ->
  exists n, count_instructions_with_slli_addi imm = Some n /\ n <= high_count high + 2 + 2.
Proof.
  intros Hl. destruct high1_spec as (Hodd1 & H641 & E1).
  assert (Hlow : is_s 12 (low - 4096)) by (unfold is_s; lia).
  assert (Hround : forall fuel, split_slli_addi (S fuel) imm [] = split_slli_addi fuel high1 [(low - 4096, 12)]).
  { intros fuel. assert (imm - high1 * 2 ^ 12 = low - 4096) as Ea by (rewrite E1; lia).
    rewrite (round_eq imm high1 12) by (rewrite ?Ea; done || (cbn; lia)). by rewrite Ea. }
  assert (Hh : s64 (high1 * 2 ^ 12 + (low - 4096)) = imm).
  { rewrite E1. replace (high * 2 ^ k + 4096 + (low - 4096)) with imm by lia. apply swrap_id; (done || lia). }
  assert (Hp : pair_ok (low - 4096, 12)) by (split; [done|cbn; lia]).
  destruct (is_simple_li_value high1) eqn:Hs1.
  - destruct (count_split imm high1 [(low - 4096, 12)]) as (first & E & Hf & H1); [|done|by constructor| |].
    + rewrite Hround. by apply split_stop.
    + cbn [head_ok]. by rewrite Hh.
    + rewrite E. eexists. split; [reflexivity|]. pose proof (emit_pairs_bound Zero [(low - 4096, 12)]).
      cbn [length] in *. unfold high_count. destruct (bool_decide _); lia.
  - destruct (count_split imm high [(1, k - 12); (low - 4096, 12)]) as (first & E & Hf & H1).
    + rewrite Hround. unfold kMaxNumSllAddi. rewrite (round_eq high1 high (k - 12)); rewrite ?Z.add_simpl_l; [apply split_stop, high_simple|..];
        try done; try (cbn [length]; lia).
      unfold is_s in *. lia.
    + apply high_simple.
    + constructor; [|by constructor]. split; [done|cbn; lia].
    + cbn [head_ok]. rewrite swrap_id; [split; [done|lia]|lia|]. unfold is_s in *. lia.
    + rewrite E. eexists. split; [reflexivity|].
      pose proof (first_high high [(1, k - 12); (low - 4096, 12)] first ltac:(done) Hf H1).
      pose proof (emit_pairs_bound Zero [(1, k - 12); (low - 4096, 12)]). cbn [length] in *. lia.
Qed.

End low_word.

(** ** The parts of [LoadImmediate] *)

Lemma land_low_bits x w : 0 <= w -> (Z.land x (Z.ones w) =? 0) = (x mod 2 ^ w =? 0).
Proof. intros. by rewrite Z.land_ones. Qed.

Lemma count_not_simple imm n :
  count_instructions_with_slli_addi imm = Some n -> 2 < n -> is_simple_li_value imm = false.
Proof.
  intros E Hn. destruct (is_simple_li_value imm) eqn:Hs; [|done].
  destruct (count_simple imm Hs) as (n' & E' & Hn'). rewrite E in E'. injection E' as <-. lia.
Qed.

Lemma trailing_slli_spec imm n :
  is_s 64 imm -> count_instructions_with_slli_addi imm = Some n -> 2 < n ->
  exists m t, trailing_slli imm n = Some (m, t) /\ m <= n /\
    (t = 0 /\ m = n \/ 0 < t < 64 /\ imm = Z.shiftr imm t * 2 ^ t /\
      count_instructions_with_slli_addi (Z.shiftr imm t) = Some (m - 1)).
Proof.
  intros H64 En Hn. unfold trailing_slli. pose proof (count_not_simple imm n En Hn) as Hs.
  destruct ((Z.land imm 1 =? 0) && _) eqn:Eb; [|exists n, 0; split; [done|]; split; [lia|]; left; done].
  apply andb_true_iff in Eb as [Eeven Elow]. change 1 with (Z.ones 1) in Eeven. change 0xfff with (Z.ones 12) in Elow.
  rewrite land_low_bits in Eeven, Elow by lia. apply Z.eqb_eq in Eeven. apply negb_true_iff, Z.eqb_neq in Elow.
  destruct (odd_part imm) as (q & k & E & Hq & Hk); [done|intros ->; done|].
  rewrite E, CTZ64_eq by (try rewrite <- E; done). cbn [mbind option_bind]. rewrite shiftr_mul by lia.
  assert (0 < k). { destruct (Z.eq_dec k 0) as [->|]; [|lia]. rewrite E, Z.mul_1_r in Eeven. by rewrite Zmod_odd, Hq in Eeven. }
  assert (Hq64 : is_s 64 q). { pose proof (pow2_pos k). unfold is_s in *. nia. }
  destruct (count_with_spec q Hq64) as (c & Ec & Hc). rewrite Ec. cbn [mbind option_bind].
  assert (2 < c + 1).
  { destruct (Z.eq_dec c 1) as [->|]; [|lia]. pose proof (count_one q Hq64 Hq Ec) as H12. exfalso.
    assert (k < 12).
    { destruct (Z.lt_ge_cases k 12); [done|]. destruct Elow. rewrite E. replace k with (k - 12 + 12) by lia.
      rewrite Z.pow_add_r, Z.mul_assoc by lia. apply Z.mod_mul. lia. }
    apply not_true_iff_false in Hs. apply Hs, simple_range. assert (2 ^ k <= 2 ^ 11) by (apply Z.pow_le_mono_r; lia).
    pose proof (pow2_pos k). unfold is_s in H12. nia. }
  rewrite (proj2 (Z.ltb_lt 2 _)) by done. cbn [dcheck mbind option_bind].
  destruct (Z.ltb_spec (c + 1) n).
  - exists (c + 1), k. split; [done|]. split; [lia|]. right. rewrite shiftr_mul, Z.add_simpl_r by lia. split; [lia|done].
  - exists n, 0. split; [done|]. split; [lia|]. by left.
Qed.

(** *** Sequences that end with SRLI *)

Section srli.
Context (rd : XRegister) (imm n m : Z).
Hypothesis Hrd : (rd < 32)%nat.
Hypothesis H64 : is_s 64 imm.
Hypothesis Hpos : 0 < imm.
Hypothesis Hcount : count_instructions_with_slli_addi imm = Some n.
Hypothesis Hn : 2 < n.
Hypothesis Hm : m <= n.
Definition srli_shamt : Z := CLZ 64 (u64 imm).
Local Abbreviation shamt := srli_shamt.

Lemma srli_shamt_range :
  1 <= shamt <= 32 /\ 2 ^ 63 <= imm * 2 ^ shamt < 2 ^ 64.
Proof.
  pose proof (count_not_simple imm n Hcount Hn) as Hs. unfold srli_shamt.
  rewrite (wrap_id 64) by (unfold is_u, is_s in *; lia). rewrite CLZ_spec by lia.
  assert (2 ^ 31 <= imm) as H31.
  { apply not_true_iff_false in Hs. destruct (Z.lt_ge_cases imm (2 ^ 31)); [|lia].
    destruct Hs. apply simple_range. lia. }
  pose proof (Z.log2_spec imm Hpos) as [L1 L2].
  assert (31 <= Z.log2 imm) by (apply Z.log2_le_pow2; lia).
  assert (Z.log2 imm < 63) by (apply Z.log2_lt_pow2; unfold is_s in *; lia).
  split; [lia|]. set (l := Z.log2 imm) in *.
  assert (2 ^ 64 = 2 ^ Z.succ l * 2 ^ (64 - 1 - l)) as E64 by (rewrite <- Z.pow_add_r by lia; f_equal; lia).
  assert (2 ^ 63 = 2 ^ l * 2 ^ (64 - 1 - l)) as E63 by (rewrite <- Z.pow_add_r by lia; f_equal; lia).
  pose proof (pow2_pos (64 - 1 - l) ltac:(lia)). rewrite E64, E63. split; nia.
Qed.

(** The shifted value, with any bits below. *)
Lemma srli_li c v j :
  li rd c v -> u64 v = imm * 2 ^ shamt + j -> 0 <= j < 2 ^ shamt -> li rd (c ++ [Srli rd rd shamt]) imm.
Proof.
  intros Hc Hv Hj. destruct srli_shamt_range as [Hr1 Hr2].
  assert (s64 (Z.shiftr (u64 v) shamt) = imm) as <-; [|by apply li_snoc_srli; (done || lia)].
  rewrite Hv, Z.shiftr_div_pow2, Z.div_add_l, Z.div_small, Z.add_0_r by (done || lia || (apply Z.pow_nonzero; lia)).
  apply swrap_id; (done || lia).
Qed.

Definition srli_value : Z := imm * 2 ^ shamt - 2 ^ 64.
Local Abbreviation value := srli_value.

Lemma srli_value_eq : s64 (u64 (Z.shiftl (u64 imm) shamt)) = value.
Proof.
  destruct srli_shamt_range as [Hr1 Hr2]. unfold srli_value.
  rewrite (wrap_id 64 imm), Z.shiftl_mul_pow2 by (lia || (unfold is_u, is_s in *; lia)).
  apply swrap_eq_wrap; [lia|unfold is_s; lia|]. rewrite wrap_wrap by lia. unfold wrap.
  replace (imm * 2 ^ shamt - 2 ^ 64) with (imm * 2 ^ shamt + (-1) * 2 ^ 64) by lia. by rewrite Z.mod_add by lia.
Qed.

Lemma srli_value_u j : 0 <= j < 2 ^ shamt -> value + j < 0 -> u64 (value + j) = imm * 2 ^ shamt + j.
Proof.
  intros Hj Hneg. destruct srli_shamt_range as [Hr1 Hr2]. unfold srli_value in *. unfold wrap.
  replace (imm * 2 ^ shamt - 2 ^ 64 + j) with (imm * 2 ^ shamt + j + (-1) * 2 ^ 64) by lia.
  rewrite Z.mod_add by lia. apply Z.mod_small. lia.
Qed.

Lemma srli_value_range : - 2 ^ 63 <= value <= - 2 ^ shamt /\ value mod 2 ^ shamt = 0.
Proof.
  destruct srli_shamt_range as [Hr1 Hr2]. unfold srli_value.
  assert (2 ^ 64 = 2 ^ (64 - shamt) * 2 ^ shamt) as E by (rewrite <- Z.pow_add_r by lia; f_equal; lia).
  pose proof (pow2_pos shamt). split.
  - split; [lia|]. rewrite E in *. assert (imm < 2 ^ (64 - shamt)) by nia. nia.
  - rewrite E, <- Z.mul_sub_distr_r. apply Z.mod_mul. lia.
Qed.

(** The largest value of its length. *)
Lemma srli_max_li :
  imm = 2 ^ (64 - shamt) - 1 -> li rd [Addi rd Zero (-1); Srli rd rd shamt] imm.
Proof.
  intros E. destruct srli_shamt_range as [Hr1 Hr2].
  assert (2 ^ 64 = 2 ^ (64 - shamt) * 2 ^ shamt) as E64 by (rewrite <- Z.pow_add_r by lia; f_equal; lia).
  pose proof (pow2_pos shamt ltac:(lia)).
  apply (srli_li [_] (-1) (2 ^ shamt - 1)); [by apply li_addi| |lia].
  transitivity (2 ^ 64 - 1); [done|]. rewrite E64. nia.
Qed.

Lemma MaxInt_unsigned_pow w bits : 0 <= bits < w -> w <= 64 -> MaxInt_unsigned w bits = 2 ^ bits - 1.
Proof.
  intros Hb Hw. unfold MaxInt_unsigned. rewrite (proj2 (Z.eqb_neq bits w)), Z.shiftl_mul_pow2, Z.mul_1_l by lia.
  pose proof (pow2_pos bits ltac:(lia)). assert (2 ^ bits < 2 ^ w) by (apply Z.pow_lt_mono_r; lia).
  assert (2 ^ w <= 2 ^ 64) by (apply Z.pow_le_mono_r; lia).
  rewrite (wrap_id 64), (wrap_id w (2 ^ bits)), wrap_id by (unfold is_u; lia). done.
Qed.

(** A simple value, or the one closest to zero that shifts to the same. *)
Lemma srli_simple :
  is_simple_li_value value = true ->
  bool_decide (is_s 32 (MaxInt_unsigned 32 shamt)) = true /\ (Z.land value (MaxInt_unsigned 32 shamt) =? 0) = true /\
  exists c, emit_simple_li_helper rd (if Z.land value 0xfff =? 0 then value else value + MaxInt_unsigned 32 shamt) = Some c /\
    li rd (c ++ [Srli rd rd shamt]) imm /\ (length c <= 2)%nat.
Proof.
  intros Hs. apply simple_range in Hs. destruct srli_shamt_range as [Hr1 Hr2], srli_value_range as [Hv1 Hv2].
  assert (shamt <= 31).
  { destruct (Z.le_gt_cases shamt 31); [done|]. assert (2 ^ 32 <= 2 ^ shamt) by (apply Z.pow_le_mono_r; lia). lia. }
  assert (2 ^ shamt <= 2 ^ 31) by (apply Z.pow_le_mono_r; lia). pose proof (pow2_pos shamt ltac:(lia)).
  rewrite MaxInt_unsigned_pow by lia. rewrite bool_decide_true by (unfold is_s; lia). split; [done|].
  split. { rewrite Z.sub_1_r, <- Z.ones_equiv, land_low_bits, Hv2 by lia. done. }
  set (v := if Z.land value 0xfff =? 0 then value else value + (2 ^ shamt - 1)).
  assert (exists j, v = value + j /\ 0 <= j < 2 ^ shamt) as (j & Ev & Hj).
  { unfold v. destruct (_ =? 0); [exists 0|exists (2 ^ shamt - 1)]; lia. }
  destruct (emit_simple_spec rd v Hrd) as (c & Ec & Hc & Hl & _).
  { apply simple_range. lia. }
  exists c. split; [done|]. split; [|lia]. apply (srli_li c v j); [done| |done].
  rewrite Ev. apply srli_value_u; lia.
Qed.

(** An odd number of at most 20 bits, shifted twice. *)
Lemma srli_shifted q k :
  value = q * 2 ^ k -> Z.odd q = true -> 0 <= k < 64 -> k + 20 <= 64.
Proof.
  intros E Hq Hk. destruct (Z.le_gt_cases k 44) as [|Hk44]; [lia|]. exfalso.
  destruct srli_shamt_range as [Hr1 Hr2]. unfold srli_value in E.
  assert (2 ^ 64 = 2 ^ (64 - k) * 2 ^ k) as E64 by (rewrite <- Z.pow_add_r by lia; f_equal; lia).
  assert (2 ^ k = 2 ^ (k - shamt) * 2 ^ shamt) as Ek by (rewrite <- Z.pow_add_r by lia; f_equal; lia).
  pose proof (pow2_pos shamt ltac:(lia)). pose proof (pow2_pos k ltac:(lia)). pose proof (pow2_pos (k - shamt) ltac:(lia)).
  set (Q := q + 2 ^ (64 - k)).
  assert (EQ : imm * 2 ^ shamt = Q * 2 ^ k) by (unfold Q; lia).
  assert (Eimm : imm = Q * 2 ^ (k - shamt)) by (apply (Z.mul_reg_r _ _ (2 ^ shamt)); [lia|]; rewrite EQ, Ek; ring).
  assert (0 < Q < 2 ^ (64 - k)) as HQ by nia.
  assert (2 ^ (64 - k) <= 2 ^ 19) by (apply Z.pow_le_mono_r; lia).
  destruct (count_shifted Q (k - shamt)) as (n' & En & Hn').
  - lia.
  - unfold Q. replace (64 - k) with (64 - k - 1 + 1) by lia. rewrite Z.pow_add_r, Z.odd_add, Z.odd_mul, Hq by lia.
    by rewrite andb_false_r.
  - unfold is_s. lia.
  - by rewrite <- Eimm.
  - rewrite <- Eimm, Hcount in En. injection En as <-. lia.
Qed.

Lemma srli_shifted_li q k :
  value = q * 2 ^ k -> Z.odd q = true -> 0 <= k < 64 -> k + 20 <= 64 -> is_s 20 q -> (~ is_s 12 q -> 12 <= k) ->
  li rd ((if bool_decide (is_s 12 q) then [Addi rd Zero q; Slli rd rd k]
          else [Lui rd (Z.land (Z.shiftr (u64 value) k) 0xfffff); Slli rd rd (k - 12)]) ++ [Srli rd rd shamt]) imm.
Proof.
  intros E Hq Hk Hk44 H20 Hk12. destruct srli_shamt_range as [Hr1 Hr2], srli_value_range as [Hv1 Hv2].
  pose proof (pow2_pos shamt ltac:(lia)).
  apply (srli_li _ value 0); [|by rewrite <- (srli_value_u 0), Z.add_0_r by lia|lia].
  assert (Hv64 : is_s 64 value) by (unfold is_s; lia).
  destruct (bool_decide_reflect (is_s 12 q)) as [H12|H12].
  - rewrite E. apply li_addi_slli; [done..|by rewrite <- E].
  - specialize (Hk12 H12). replace value with (s64 (q * 2 ^ 12 * 2 ^ (k - 12))) at 2.
    2:{ rewrite <- Z.mul_assoc, <- Z.pow_add_r by lia. replace (12 + (k - 12)) with k by lia.
        rewrite <- E. apply swrap_id; (done || lia). }
    apply (li_snoc_slli rd Hrd [_]); [|lia]. apply li_lui; [done|done|].
    change 0xfffff with (Z.ones 20). rewrite Z.land_ones, Z.shiftr_div_pow2 by lia.
    assert (u64 value = (q + 2 ^ (64 - k)) * 2 ^ k) as ->.
    { unfold wrap. rewrite E. replace (2 ^ 64) with (2 ^ (64 - k) * 2 ^ k) by (rewrite <- Z.pow_add_r by lia; f_equal; lia).
      rewrite Z.mul_mod_distr_r by (apply Z.pow_nonzero; lia). f_equal.
      symmetry. apply Z.mod_unique_pos with (-1); [|lia]. pose proof (pow2_pos k). pose proof (pow2_pos (64 - k)).
      assert (2 ^ 63 = 2 ^ (63 - k) * 2 ^ k) by (rewrite <- Z.pow_add_r by lia; f_equal; lia).
      assert (2 ^ (64 - k) = 2 ^ (63 - k) * 2) by (change 2 with (2 ^ 1) at 3; rewrite <- Z.pow_add_r by lia; f_equal; lia).
      nia. }
    rewrite Z.div_mul by (apply Z.pow_nonzero; lia).
    replace (64 - k) with (44 - k + 20) by lia. rewrite Z.pow_add_r, Z.mod_add by lia. done.
Qed.

Definition srli_result (r : option (list instr)) : Prop :=
  forall c, r = Some c -> li rd c imm /\ (length c <= 3)%nat.

(** The attempt with a simple value; it is made only if it is shorter. *)
Lemma srli_simple_attempt :
  exists r, (if is_simple_li_value value then
               count ← count_simple_li_instructions value;
               if count + 1 <? m then
                 DCHECK bool_decide (is_s 32 (MaxInt_unsigned 32 shamt));
                 DCHECK Z.land value (MaxInt_unsigned 32 shamt) =? 0;
                 c ← emit_simple_li_helper rd
                       (if Z.land value 0xfff =? 0 then value else value + MaxInt_unsigned 32 shamt);
                 Some (Some (c ++ [Srli rd rd shamt]))
               else Some None
             else Some None) = Some r /\ srli_result r /\
    (r = None -> is_simple_li_value value = true -> m <= 3).
Proof.
  destruct (is_simple_li_value value) eqn:Hs; [|exists None; done].
  destruct (emit_simple_spec Zero value ltac:(unfold Zero; lia) Hs) as (c0 & Ec0 & _ & Hl0 & _).
  unfold count_simple_li_instructions. rewrite Ec0. cbn [mbind option_bind].
  destruct (Z.ltb_spec (Z.of_nat (length c0) + 1) m).
  - destruct (srli_simple Hs) as (-> & -> & c & -> & Hc & Hl). cbn [dcheck mbind option_bind].
    eexists. split; [reflexivity|]. split; [|done]. intros ? [= <-]. rewrite length_app. cbn [length]. split; [done|lia].
  - exists None. split; [done|]. split; [done|lia].
Qed.

Lemma try_srli_spec : exists r, try_srli rd imm m = Some r /\ srli_result r.
Proof.
  unfold try_srli. rewrite (proj2 (Z.ltb_lt 0 imm)) by done. fold srli_shamt.
  destruct srli_shamt_range as [Hr1 Hr2], srli_value_range as [Hv1 Hv2].
  pose proof (pow2_pos shamt ltac:(lia)). rewrite (proj2 (Z.leb_le shamt 32)) by lia.
  assert (2 ^ (64 - shamt) <= 2 ^ 63) by (apply Z.pow_le_mono_r; lia). pose proof (pow2_pos (64 - shamt) ltac:(lia)).
  rewrite MaxInt_unsigned_pow, (bool_decide_true (is_s 64 _)) by (lia || (unfold is_s; lia)). cbn [dcheck mbind option_bind].
  destruct (Z.eqb_spec imm (2 ^ (64 - shamt) - 1)) as [Emax|_].
  { eexists. split; [reflexivity|]. intros ? [= <-]. split; [by apply srli_max_li|cbn [length]; lia]. }
  rewrite srli_value_eq, (proj2 (Z.ltb_lt value 0)) by lia. cbn [dcheck mbind option_bind].
  destruct srli_simple_attempt as (r & -> & Hr & Hnone). cbn [mbind option_bind].
  destruct r as [c|]; [eexists; split; [reflexivity|done]|].
  assert (Hv64 : is_s 64 value) by (unfold is_s; lia).
  destruct (odd_part value Hv64) as (q & k & E & Hq & Hk); [lia|].
  assert (CTZ64 (u64 value) = Some k) as ->.
  { rewrite <- (CTZ64_eq q k), <- E by (try rewrite <- E; done). unfold CTZ64. rewrite wrap_wrap by lia.
    assert (u64 value <> 0) by (pose proof (srli_value_u 0); rewrite Z.add_0_r in *; lia).
    by rewrite !(proj2 (Z.eqb_neq _ 0)) by lia. }
  cbn [mbind option_bind]. pose proof (srli_shifted q k E Hq Hk) as Hk44.
  rewrite (IsInt_param_spec (k + 20)) by (done || lia). cbn [mbind option_bind].
  assert (Hq20 : is_s (k + 20) value <-> is_s 20 q) by (rewrite E, (Z.add_comm k 20); apply is_s_shift_l; lia).
  destruct (bool_decide_reflect (is_s (k + 20) value)) as [H20|]; cbn [andb]; [|exists None; split; [reflexivity|done]].
  destruct (Z.ltb_spec (1 + 1 + 1) m) as [Hm3|]; [|exists None; split; [reflexivity|done]].
  rewrite (IsInt_param_spec (k + 12)) by (done || lia). cbn [mbind option_bind].
  assert (Hq12 : is_s (k + 12) value <-> is_s 12 q) by (rewrite E, (Z.add_comm k 12); apply is_s_shift_l; lia).
  rewrite (bool_decide_ext _ _ Hq12). eexists. split; [reflexivity|]. intros ? [= <-].
  apply Hq20 in H20. split.
  - rewrite E at 1. rewrite shiftr_mul, (swrap_id 32 q) by (lia || (unfold is_s in *; lia)).
    apply srli_shifted_li; try done. intros _. destruct (Z.le_gt_cases 12 k); [done|].
    enough (m <= 3) by lia. apply Hnone; [done|]. apply simple_range. rewrite E.
    assert (2 ^ k <= 2 ^ 11) by (apply Z.pow_le_mono_r; lia). pose proof (pow2_pos k). unfold is_s in H20. nia.
  - rewrite length_app. destruct (bool_decide _); cbn [length]; lia.
Qed.

End srli.

(** *** Sequences with a scratch register *)

(** The code may use the available scratch registers. *)
Record loaded (available : Z) (use_tmp : bool) (rd : XRegister) (c : list instr) (v : Z) : Prop := {
  loaded_fits : Forall fits c;
  loaded_value : rd <> 0%nat -> forall s, read (exec c s) rd = v;
  loaded_frame : forall s r, r <> rd -> use_tmp = false \/ Z.testbit available (Z.of_nat r) = false ->
    read (exec c s) r = read s r
}.

Lemma li_loaded available use_tmp rd c v : li rd c v -> loaded available use_tmp rd c v.
Proof. intros [H1 H2 H3]. by split; auto. Qed.

Section tmp.
Context (available : Z) (rd : XRegister) (imm n m : Z).
Hypothesis Havail : is_u 32 available.
Hypothesis Hzero : Z.testbit available 0 = false.
Hypothesis Hsome : available <> 0.
Hypothesis Hrd : (rd < 32)%nat.
Hypothesis Hfree : Z.testbit available (Z.of_nat rd) = false.
Hypothesis H64 : is_s 64 imm.
Hypothesis Hcount : count_instructions_with_slli_addi imm = Some n.
Hypothesis Hn : 2 < n.
Hypothesis Hm : m <= n.
Local Abbreviation low := (s32 imm).

(** The high word as an odd number and a shift. *)
Lemma high_word :
  exists high k, s64 (imm - low) = high * 2 ^ k /\ Z.odd high = true /\ 32 <= k < 64 /\
    is_s 32 high /\ is_s 64 (high * 2 ^ k) /\ s64 (high * 2 ^ k + low) = imm.
Proof.
  assert (Hr : is_s 64 (s64 (imm - low))) by (apply swrap_is_s; lia).
  assert (Hlow : is_s 32 low) by (apply swrap_is_s; lia).
  assert (Hback : s64 (s64 (imm - low) + low) = imm) by (rewrite swrap_add_l, Z.sub_add by lia; by apply swrap_id).
  destruct (odd_part (s64 (imm - low)) Hr) as (q & k & E & Hq & Hk).
  { intros E. rewrite E, Z.add_0_l, swrap_id in Hback by (unfold is_s in *; lia).
    pose proof (count_not_simple imm n Hcount Hn) as Hs. apply not_true_iff_false in Hs.
    apply Hs, simple_range. unfold is_s in Hlow. lia. }
  assert (32 <= k) as Hk32.
  { apply (shamt_at_least 32 q k); [lia|lia|done|]. by rewrite <- E, word_swrap_mod, low_removed by lia. }
  exists q, k. rewrite <- E. do 2 (split; [done|]). split; [lia|]. split; [|done].
  rewrite E in Hr. replace 64 with (32 + (32 - (64 - k)) + (64 - k)) in Hr by lia.
  assert (2 ^ 32 <= 2 ^ k) by (apply Z.pow_le_mono_r; lia). unfold is_s in *.
  replace (32 + (32 - (64 - k)) + (64 - k) - 1) with 63 in Hr by lia. nia.
Qed.

Lemma high_bits_zero x : is_s 32 x -> Z.land x 0xfffff000 = 0 -> 0 <= x < 0x1000.
Proof.
  intros Hx E. change 0xfffff000 with (Z.shiftl (Z.ones 20) 12) in E.
  assert (Z.land x (Z.shiftl (Z.ones 20) 12) = (x / 2 ^ 12) mod 2 ^ 20 * 2 ^ 12) as E'.
  { rewrite <- (Z.shiftl_mul_pow2 _ 12), <- Z.land_ones, <- Z.shiftr_div_pow2 by lia.
    apply Z.bits_inj'. intros j Hj. rewrite Z.land_spec, !Z.shiftl_spec by lia.
    destruct (Z.lt_ge_cases j 12).
    - rewrite !(Z.testbit_neg_r _ (j - 12)) by lia. apply andb_false_r.
    - rewrite Z.land_spec, Z.shiftr_spec by lia. do 2 f_equal. lia. }
  rewrite E in E'. unfold is_s in Hx. clear E. revert E'. pow_lia.
Qed.

(** A shorter sequence has a low word of more than 12 bits. *)
Lemma low_word_large high k count :
  s64 (imm - low) = high * 2 ^ k -> Z.odd high = true -> 32 <= k < 64 ->
  is_s 32 high -> is_s 64 (high * 2 ^ k) -> s64 (high * 2 ^ k + low) = imm ->
  (is_s 12 low -> count = 1) -> (0x800 <= low < 0x1000 -> count = 2) ->
  high_count high + count + 2 < m -> Z.land low 0xfffff000 <> 0.
Proof.
  intros Er Hq Hk H32 Hr64 Eb H1 H2 Hlt Hz. pose proof (count_not_simple imm n Hcount Hn) as Hs.
  apply high_bits_zero in Hz; [|apply swrap_is_s; lia].
  assert (imm = high * 2 ^ k + low) as E.
  { rewrite <- Eb at 1. apply swrap_id; [lia|].
    assert (2 ^ k = 2 ^ (k - 32) * 2 ^ 32) as Ek by (rewrite <- Z.pow_add_r by lia; f_equal; lia).
    rewrite Ek in *. unfold is_s in *. set (x := high * (2 ^ (k - 32) * 2 ^ 32)) in *.
    assert (x mod 2 ^ 32 = 0) by (unfold x; rewrite Z.mul_assoc; apply Z.mod_mul; lia).
    clear -Hr64 Hz H. revert H. pow_lia. }
  clear Er Eb. set (lw := low) in *. clearbody lw. subst imm.
  destruct (Z.lt_ge_cases lw 0x800).
  - destruct (count_low_small high k lw) as (n' & En & Hn'); [try done; lia..|].
    rewrite Hcount in En. injection En as <-. rewrite H1 in Hlt by (unfold is_s; lia). lia.
  - destruct (count_low_large high k lw) as (n' & En & Hn'); [try done; lia..|].
    rewrite Hcount in En. injection En as <-. rewrite H2 in Hlt by lia. lia.
Qed.

(** The high word in [rd], up to a shift. *)
Lemma high_code high k :
  Z.odd high = true -> 32 <= k < 64 -> is_s 32 high ->
  exists c k' v,
    (if IsInt 20 64 high && negb (IsInt 12 64 high) then Some ([Lui rd (Z.land high 0xfffff)], k - 12)
     else c ← emit_simple_li_helper rd high; Some (c, k)) = Some (c, k') /\
    li rd c v /\ v * 2 ^ k' = high * 2 ^ k /\ 0 <= k' < 64 /\ Z.of_nat (length c) <= high_count high.
Proof.
  intros Hq Hk H32. rewrite !IsInt_range by lia. unfold high_count.
  destruct (emit_simple_spec rd high Hrd) as (c & Ec & Hc & Hl & H1 & _).
  { apply simple_range. unfold is_s in H32. lia. }
  destruct (bool_decide_reflect (is_s 12 high)) as [H12|H12].
  - rewrite andb_false_r, Ec. exists c, k, high. split; [done|]. split; [done|]. split; [done|]. split; [lia|].
    rewrite H1, bool_decide_true by (done || (unfold is_s in *; lia)). done.
  - destruct (bool_decide_reflect (is_s 20 high)) as [H20|H20]; cbn [andb negb].
    + exists [Lui rd (Z.land high 0xfffff)], (k - 12), (high * 2 ^ 12). split; [done|]. split.
      { apply li_lui; [done..|]. change 0xfffff with (Z.ones 20). by rewrite Z.land_ones by lia. }
      split; [rewrite <- Z.mul_assoc, <- Z.pow_add_r by lia; do 2 f_equal; lia|]. split; [lia|]. done.
    + rewrite Ec. exists c, k, high. split; [done|]. split; [done|]. split; [done|]. lia.
Qed.

Lemma tmp_code tmp c_high c_low v k :
  (tmp < 32)%nat -> Z.testbit available (Z.of_nat tmp) = true ->
  li rd c_high v -> li tmp c_low low -> 0 <= k < 64 -> s64 (s64 (v * 2 ^ k) + low) = imm ->
  loaded available true rd (c_high ++ c_low ++ [Slli rd rd k; Add rd rd tmp]) imm.
Proof.
  intros Htmp Hbit [Hf1 Hv1 Hfr1] [Hf2 Hv2 Hfr2] Hk Himm.
  assert (tmp <> rd) as Hne by (intros ->; congruence).
  assert (tmp <> 0%nat) as Hnz by (intros ->; change (Z.of_nat 0) with 0 in Hbit; congruence).
  split.
  - apply Forall_app_2; [done|]. apply Forall_app_2; [done|]. constructor; [cbn; auto|]. constructor; [cbn; auto|done].
  - intros Hrd0 s. rewrite !riscv_exec_app. set (s1 := exec c_high s). set (s2 := exec c_low s1).
    assert (read s2 rd = v) as E1 by (unfold s2; rewrite Hfr2 by done; by apply Hv1).
    assert (read s2 tmp = low) as E2 by (by apply Hv2).
    cbn [exec exec1]. rewrite !riscv_read_write_same, riscv_read_write_other, E1, E2, Z.shiftl_mul_pow2 by (done || lia). done.
  - intros s r Hr [?|Hb]; [done|]. assert (r <> tmp) by (intros ->; congruence). rewrite !riscv_exec_app. cbn [exec exec1].
    rewrite !riscv_read_write_other by done. by rewrite Hfr2, Hfr1.
Qed.

Lemma try_tmp_spec :
  exists r, try_tmp available rd imm m = Some r /\
    match r with
    | Some c => loaded available true rd c imm /\ (length c <= 6)%nat
    | None => m <= 6
    end.
Proof.
  unfold try_tmp. rewrite low_word_spec.
  destruct high_word as (high & k & Er & Hq & Hk & H32 & Hr64 & Eb).
  rewrite Er, CTZ64_eq by (done || lia). cbn [mbind option_bind]. rewrite (proj2 (Z.leb_le 32 k)) by lia.
  cbn [dcheck mbind option_bind]. rewrite shiftr_mul by lia.
  assert (Hlow : is_simple_li_value low = true).
  { apply simple_range. pose proof (swrap_is_s 32 imm ltac:(lia)) as Hl. unfold is_s in Hl. lia. }
  destruct (emit_simple_spec Zero low ltac:(unfold Zero; lia) Hlow) as (c0 & Ec0 & _ & Hl0 & H1 & H2 & _).
  unfold count_simple_li_instructions. rewrite Ec0. cbn [mbind option_bind].
  assert ((if IsInt 20 64 high || (Z.land high 0xfff =? 0) then 1 else 2) = high_count high) as ->.
  { unfold high_count. rewrite IsInt_range by lia. change 0xfff with (Z.ones 12). rewrite land_low_bits by lia.
    rewrite (proj2 (Z.eqb_neq (high mod _) 0)), orb_false_r; [done|]. intros Hm0.
    apply Z.mod_divide in Hm0 as [t ->]; [|lia]. rewrite Z.odd_mul in Hq. by rewrite andb_false_r in Hq. }
  assert (1 <= high_count high <= 2) by (unfold high_count; destruct (bool_decide _); lia).
  destruct (Z.ltb_spec (high_count high + Z.of_nat (length c0) + 2) m) as [Hlt|Hge].
  2:{ exists None. split; [done|]. lia. }
  rewrite (proj2 (Z.eqb_neq _ 0)); [|apply (low_word_large high k (Z.of_nat (length c0))); try done; intros; [rewrite H1|rewrite H2]; done].
  cbn [dcheck mbind option_bind negb].
  destruct (AllocateXRegister_spec available Havail Hsome) as (tmp & rest & -> & Htmp & Hbit & _).
  cbn [mbind option_bind]. destruct (high_code high k Hq Hk H32) as (c1 & k' & v & -> & Hc1 & Ev & Hk' & Hl1).
  cbn [mbind option_bind].
  destruct (emit_simple_spec tmp low Htmp Hlow) as (c2 & -> & Hc2 & Hl2 & _). cbn [mbind option_bind].
  eexists. split; [reflexivity|]. split.
  - apply (tmp_code tmp c1 c2 v k'); try done. rewrite Ev, swrap_add_l by lia. done.
  - rewrite !length_app. cbn [length]. lia.
Qed.

End tmp.

(** ** The whole function *)

Lemma scratch_free available (rd : XRegister) :
  (rd < 32)%nat -> is_u 32 available -> Z.testbit available (Z.of_nat rd) = false ->
  (Z.land (u32 (Z.shiftl 1 (Z.of_nat rd))) available =? 0) = true.
Proof.
  intros Hrd Hu Hb. apply Z.eqb_eq, Z.bits_inj'. intros j Hj. rewrite Z.land_spec, Z.bits_0.
  unfold wrap. destruct (Z.lt_ge_cases j 32); [|by rewrite Z.mod_pow2_bits_high by lia].
  rewrite Z.mod_pow2_bits_low, Z.shiftl_mul_pow2, Z.mul_1_l, Z.pow2_bits_eqb by lia.
  destruct (Z.eqb_spec (Z.of_nat rd) j) as [<-|]; [by rewrite Hb|done].
Qed.

(** The sequence without SRLI or a scratch register. *)
Lemma finish_spec rd imm m t :
  (rd < 32)%nat -> is_s 64 imm ->
  (t = 0 /\ count_instructions_with_slli_addi imm = Some m \/
   0 < t < 64 /\ imm = Z.shiftr imm t * 2 ^ t /\
     count_instructions_with_slli_addi (Z.shiftr imm t) = Some (m - 1)) ->
  exists c, (c ← emit_with_slli_addi_helper rd (if negb (t =? 0) then Z.shiftr imm t else imm);
             Some (c ++ if negb (t =? 0) then [Slli rd rd t] else [])) = Some c /\
    li rd c imm /\ Z.of_nat (length c) = m.
Proof.
  intros Hrd H64 [[-> Hc]|(Ht & E & Hc)].
  - destruct (emit_with_64 rd imm Hrd H64) as (c & Ec & Hli & _). cbn [Z.eqb negb]. rewrite Ec. cbn [mbind option_bind].
    exists c. rewrite app_nil_r. split; [done|]. split; [done|]. by apply (count_with_length rd imm).
  - rewrite (proj2 (Z.eqb_neq t 0)) by lia. cbn [negb].
    assert (Hq : is_s 64 (Z.shiftr imm t)) by (apply is_s_shiftr; (done || lia)).
    destruct (emit_with_64 rd _ Hrd Hq) as (c & Ec & Hli & _). rewrite Ec. cbn [mbind option_bind].
    eexists. split; [reflexivity|]. split.
    + assert (s64 (Z.shiftr imm t * 2 ^ t) = imm) as Es by (rewrite <- E; apply swrap_id; (done || lia)).
      rewrite <- Es. apply li_snoc_slli; [done|done|lia].
    + rewrite length_app. cbn [length]. pose proof (count_with_length rd _ _ _ Hc Ec). lia.
Qed.

Lemma LoadImmediate_spec available rd imm can_use_tmp :
  (rd < 32)%nat -> is_u 32 available -> Z.testbit available 0 = false ->
  Z.testbit available (Z.of_nat rd) = false -> (can_use_tmp = true -> available <> 0) -> is_s 64 imm ->
  exists c, LoadImmediate available rd imm can_use_tmp = Some c /\
    loaded available can_use_tmp rd c imm /\ (length c <= if can_use_tmp then 6 else 8)%nat.
Proof.
  intros Hrd Hu Hz Hfree Hsome H64. unfold LoadImmediate.
  rewrite (scratch_free available rd) by done.
  assert (implb can_use_tmp (negb (AvailableXRegisters available =? 0)) = true) as ->.
  { destruct can_use_tmp; [|done]. pose proof (AvailableXRegisters_pos available Hu (Hsome eq_refl)).
    by rewrite (proj2 (Z.eqb_neq _ 0)). }
  cbn [dcheck mbind option_bind]. destruct (count_with_spec imm H64) as (n & En & Hn8). rewrite En.
  cbn [mbind option_bind]. destruct (Z.ltb_spec 2 n) as [Hn|Hn].
  2:{ destruct (finish_spec rd imm n 0 Hrd H64) as (c & -> & Hc & Hl); [by left|].
      exists c. split; [done|]. split; [by apply li_loaded|]. destruct can_use_tmp; lia. }
  destruct (trailing_slli_spec imm n H64 En Hn) as (m & t & -> & Hm & Ht). cbn [mbind option_bind].
  destruct (finish_spec rd imm m t Hrd H64) as (cf & Hfin & Hcf & Hlf).
  { destruct Ht as [[-> ->]|Ht]; [left; done|right; done]. }
  assert (Hsrli : exists r, try_srli rd imm m = Some r /\ srli_result rd imm r).
  { destruct (Z.lt_ge_cases 0 imm) as [Hpos|Hneg]; [by apply (try_srli_spec rd imm n)|].
    exists None. unfold try_srli. rewrite (proj2 (Z.ltb_ge 0 imm)) by lia. done. }
  destruct Hsrli as ([c|] & -> & Hr); cbn [mbind option_bind].
  { destruct (Hr c eq_refl) as [Hc Hl]. exists c. split; [done|]. split; [by apply li_loaded|]. destruct can_use_tmp; lia. }
  destruct can_use_tmp; cbn [mbind option_bind].
  - destruct (try_tmp_spec available rd imm n m Hu Hz (Hsome eq_refl) Hrd Hfree H64 En Hn Hm) as ([c|] & -> & Hc);
      cbn [mbind option_bind]; [by exists c|].
    rewrite Hfin. exists cf. split; [done|]. split; [by apply li_loaded|lia].
  - rewrite Hfin. exists cf. split; [done|]. split; [by apply li_loaded|lia].
Qed.

(** C6: [LoadImmediate] generates code for every 64-bit constant: no check
    fails, every instruction can be encoded, and the emitted words, decoded and
    run, leave the constant in the register.  The code has at most eight
    instructions, six with a scratch register, and changes no other register
    but, if allowed, a scratch register. *)
Theorem LoadImmediate_correct available rd imm can_use_tmp s :
  (0 < rd < 32)%nat -> is_u 32 available -> Z.testbit available 0 = false ->
  Z.testbit available (Z.of_nat rd) = false -> (can_use_tmp = true -> available <> 0) -> is_s 64 imm ->
  exists c words s', LoadImmediate available rd imm can_use_tmp = Some c /\
    assemble c = Some words /\ (length words <= if can_use_tmp then 6 else 8)%nat /\
    run words s = Some s' /\ read s' rd = imm /\
    forall r, r <> rd -> can_use_tmp = false \/ Z.testbit available (Z.of_nat r) = false ->
      read s' r = read s r.
Proof.
  intros Hrd Hu Hz Hfree Hsome H64.
  destruct (LoadImmediate_spec available rd imm can_use_tmp) as (c & E & [Hf Hv Hfr] & Hl); try (done || lia).
  destruct (assemble_fits c Hf) as (words & Ew & Elen & Hrun).
  exists c, words, (exec c s). split; [done|]. split; [done|]. split; [lia|]. split; [done|].
  split; [apply Hv; lia|]. intros. by apply Hfr.
Qed.

Lemma LoadImmediate_correct_witness :
  exists c words s', LoadImmediate initial_scratch_registers 10 0x123456789abcdef0 true = Some c /\
    assemble c = Some words /\ (length words <= 6)%nat /\
    run words (fun _ => 0) = Some s' /\ read s' 10 = 0x123456789abcdef0.
Proof.
  destruct (LoadImmediate_correct initial_scratch_registers 10 0x123456789abcdef0 true (fun _ => 0))
    as (c & words & s' & E & Ew & El & Er & Ev & _).
  - lia.
  - vm_compute. split; [discriminate|reflexivity].
  - reflexivity.
  - reflexivity.
  - vm_compute. discriminate.
  - vm_compute. split; [discriminate|reflexivity].
  - exists c, words, s'. auto.
Defined.

End LoadImm.
