(* ===== verification/DivRiscv64.v ===== *)
(** * Integer division and remainder on RISC-V

    The functions of compiler/optimizing/code_generator_riscv64.cc that generate
    code for [HDiv] and [HRem] of integral types.  The code is emitted by the
    assembler of Riscv64 and its constants are loaded by Riscv64Imm; the words
    are decoded and run by the machine of Riscv64.  Registers hold 64 bits: an
    int is kept sign-extended, and the results are. *)

From Stdlib Require Import ZArith Lia Bool List.
From stdpp Require Import base numbers list option.
From S2P Require Import Prelude BitUtils MachineWord DivMagic Riscv64 Riscv64Imm.

Local Open Scope Z_scope.
Local Open Scope art_scope.

Module Riscv64Div.
Import Riscv64 LoadImm.

Inductive InLocation := Constant (value : Z) | InRegister (r : XRegister).

(** An [HDiv] or [HRem] of type int ([is_long = false]) or long with its
    locations; the output may share a register with an input. *)
Record HBinaryOperation := {
  IsDiv : bool;
  is_long : bool;
  InAt0 : XRegister;
  InAt1 : InLocation;
  Out : XRegister
}.

Section generators.
Context (i : HBinaryOperation).
Local Abbreviation out := (Out i).
Local Abbreviation dividend := (InAt0 i).

Definition Mv (rd rs : XRegister) : instr := Addi rd rs 0.
Definition Neg (rd rs : XRegister) : instr := Sub rd Zero rs.

Definition DivRemOneOrMinusOne (imm : Z) : option (list instr) :=
  DCHECK (imm =? 1) || (imm =? -1);
  Some (if negb (IsDiv i) then [Mv out Zero]
        else if imm =? -1 then
          if negb (is_long i) then [Subw out Zero dividend] else [Sub out Zero dividend]
        else if negb (out =? dividend)%nat then [Mv out dividend]
        else []).

Definition DivRemByPowerOfTwo (available imm : Z) : option (list instr) :=
  let abs_imm := s64 (u64 (AbsOrMin 64 imm)) in
  ctz_imm ← CTZ64 abs_imm;
  DCHECK 1 <=? ctz_imm;
  '(tmp, available) ← AllocateXRegister available;
  adjustment ←
    (if negb (is_long i) || (ctz_imm =? 1) then
       DCHECK implb (negb (is_long i)) (ctz_imm <? 32);
       Some [Srli tmp dividend (64 - ctz_imm)]
     else Some [Srai tmp dividend 63; Srli tmp tmp (64 - ctz_imm)]);
  result ←
    (if IsDiv i then
       Some (Srai out tmp ctz_imm :: if imm <? 0 then [Neg out out] else [])
     else
       mask ←
         (if ctz_imm <=? 11 then Some [Andi tmp tmp (s32 (s64 (- abs_imm)))]
          else
            '(tmp2, available) ← AllocateXRegister available;
            c ← Li available tmp2 (s64 (- abs_imm));
            Some (c ++ [And tmp tmp tmp2]));
       Some (mask ++ [Sub out dividend tmp]));
  Some (adjustment ++ [Add tmp tmp dividend] ++ result).

Definition div_rem (a b : XRegister) : instr :=
  if IsDiv i then (if negb (is_long i) then Divw out a b else Div out a b)
  else if negb (is_long i) then Remw out a b else Rem out a b.

Definition GenerateDivRemWithAnyConstant (available imm : Z) : option (list instr) :=
  '(tmp, available) ← AllocateXRegister available;
  c ← LoadConst64 available tmp imm;
  Some (c ++ [div_rem dividend tmp]).

Definition GenerateDivRemIntegral (available : Z) : option (list instr) :=
  match InAt1 i with
  | Constant imm =>
      if imm =? 0 then Some [] (* the code is not reached *)
      else if (imm =? 1) || (imm =? -1) then DivRemOneOrMinusOne imm
      else if IsPowerOfTwo_signed 64 (AbsOrMin 64 imm) then DivRemByPowerOfTwo available imm
      else
        DCHECK (imm <=? -2) || (2 <=? imm);
        GenerateDivRemWithAnyConstant available imm
  | InRegister divisor => Some [div_rem dividend divisor]
  end.

End generators.

(** ** Correctness *)

Section correct.
Context (i : HBinaryOperation) (s : state).

(** The allocator gives out neither the zero register nor the scratch registers. *)
Definition allocatable (r : XRegister) : Prop := (0 < r < 30)%nat.

Hypothesis Hout : allocatable (Out i).
Hypothesis Hin : allocatable (InAt0 i).
Definition size : Z := if is_long i then 64 else 32.
Local Abbreviation w := size.
Definition dividend_value : Z := read s (InAt0 i).
Local Abbreviation n := dividend_value.
Hypothesis Hn : is_s w n.

Definition result (d : Z) : Z := if IsDiv i then java_div w n d else java_rem w n d.

(** The code can be emitted, leaves [v] and changes only the output and the
    scratch registers. *)
Definition computes (c : list instr) (v : Z) : Prop :=
  Forall fits c /\ read (exec c s) (Out i) = v /\
  forall r, r <> Out i -> r <> TMP -> r <> TMP2 -> read (exec c s) r = read s r.

Ltac regs := unfold allocatable, TMP, TMP2, Zero in *; lia.
Ltac fits := cbn [app]; repeat (apply Forall_cons_2; [cbn [fits typed]; unfold is_s; regs|]); by apply Forall_nil_2.
Ltac frame := intros; cbn [app exec exec1]; repeat rewrite riscv_read_write_other by regs; done.

Lemma riscv_size_cases : w = 32 \/ w = 64.
Proof. unfold size. destruct (is_long i); auto. Qed.

Lemma size_is_64 v : is_s w v -> s64 v = v.
Proof. intros Hv. apply swrap_id; [lia|]. unfold is_s in *. destruct riscv_size_cases as [E|E]; rewrite E in Hv; lia. Qed.

Lemma result_is_s d : d <> 0 -> is_s w (result d).
Proof.
  intros Hd. unfold result, java_div, java_rem. destruct (IsDiv i).
  - apply swrap_is_s. destruct riscv_size_cases; lia.
  - by apply rem_is_s.
Qed.

Lemma riscv_DivRemOneOrMinusOne_correct imm :
  imm = 1 \/ imm = -1 ->
  exists c, DivRemOneOrMinusOne i imm = Some c /\ computes c (result imm).
Proof.
  intros Himm. unfold DivRemOneOrMinusOne.
  replace ((imm =? 1) || (imm =? -1)) with true by (destruct Himm as [-> | ->]; done).
  cbn [dcheck mbind option_bind]. eexists. split; [reflexivity|]. unfold computes, result, java_div, java_rem, Mv.
  destruct (IsDiv i); cbn [negb].
  2:{ split; [fits|]. split; [|frame]. cbn [exec exec1].
      rewrite riscv_read_write_same by regs. destruct Himm as [-> | ->]; [by rewrite Z.rem_1_r|].
      change (-1) with (- (1)). by rewrite Z.rem_opp_r, Z.rem_1_r. }
  destruct Himm as [-> | ->]; cbn [Z.eqb Pos.eqb].
  - rewrite Z.quot_1_r, (swrap_id w) by (done || (destruct riscv_size_cases; lia)).
    destruct (Nat.eqb_spec (Out i) (InAt0 i)) as [E|E]; cbn [negb].
    + split; [by apply Forall_nil|]. split; [cbn [exec]; by rewrite E|done].
    + split; [fits|]. split; [|frame]. cbn [exec exec1].
      rewrite riscv_read_write_same, Z.add_0_r by regs. by apply size_is_64.
  - change (-1) with (- (1)). rewrite Z.quot_opp_r, Z.quot_1_r by lia. unfold size.
    destruct (is_long i); cbn [negb]; (split; [fits|]); (split; [|frame]); cbn [exec exec1];
      rewrite riscv_read_write_same by regs; rewrite read_zero, Z.sub_0_l; [done|].
    pose proof (swrap_is_s 32 (- n) ltac:(lia)). apply swrap_id; [lia|]. unfold is_s in *. lia.
Qed.

(** *** Powers of two *)

Lemma initial_allocation :
  AllocateXRegister initial_scratch_registers = Some (TMP, 2 ^ 30) /\ AllocateXRegister (2 ^ 30) = Some (TMP2, 0).
Proof. done. Qed.

(** The adjustment of a negative dividend. *)
Definition adjustment (k : Z) : list instr :=
  (if negb (is_long i) || (k =? 1) then [Srli TMP (InAt0 i) (64 - k)]
   else [Srai TMP (InAt0 i) 63; Srli TMP TMP (64 - k)]) ++ [Add TMP TMP (InAt0 i)].

Lemma riscv_adjustment_correct k :
  1 <= k < w ->
  Forall fits (adjustment k) /\ read (exec (adjustment k) s) TMP = adjusted n k /\
  forall r, r <> TMP -> read (exec (adjustment k) s) r = read s r.
Proof.
  intros Hk. assert (Ha : is_s w (adjusted n k)) by (apply adjusted_is_s; (done || lia)).
  pose proof (pow2_pos k ltac:(lia)).
  assert (Hsum : s64 (s64 (if n <? 0 then 2 ^ k - 1 else 0) + n) = adjusted n k).
  { rewrite swrap_add_l by lia. rewrite <- (size_is_64 _ Ha). f_equal. unfold adjusted. destruct (n <? 0); lia. }
  unfold adjustment. destruct (negb (is_long i) || (k =? 1)) eqn:Ec.
  - split; [unfold size in Hk; destruct (is_long i); fits|].
    split; [|frame]. cbn [app exec exec1].
    rewrite !riscv_read_write_same, riscv_read_write_other by regs. fold n. rewrite <- Hsum. do 3 f_equal.
    assert (- 2 ^ (64 - k) <= n < 2 ^ (64 - k)) as Hr.
    { unfold size, is_s in *. destruct (is_long i); cbn [negb orb] in Ec.
      - replace k with 1 by lia. exact Hn.
      - assert (2 ^ 33 <= 2 ^ (64 - k)) by (apply Z.pow_le_mono_r; lia). lia. }
    assert (0 < k < 64) by (destruct riscv_size_cases; lia).
    destruct (Z.ltb_spec n 0); [apply (shiftr_wrap_negative 64)|apply (shiftr_wrap_nonnegative 64)]; lia.
  - apply orb_false_iff in Ec as [Hl Hk1]. apply negb_false_iff in Hl.
    assert (Hn64 : is_s 64 n) by (unfold size in Hn; by rewrite Hl in Hn).
    assert (Hk64 : k < 64) by (unfold size in Hk; rewrite Hl in Hk; lia).
    split; [fits|]. split; [|frame]. cbn [app exec exec1].
    rewrite !riscv_read_write_same, !riscv_read_write_other by regs. fold n. rewrite <- Hsum. do 3 f_equal.
    change 63 with (64 - 1). rewrite shiftr_sign by (done || lia).
    pose proof (pow2_pos (64 - k) ltac:(lia)).
    destruct (n <? 0); [change (s64 (-1)) with (-1); apply (shiftr_wrap_negative 64)|change (s64 0) with 0; apply (shiftr_wrap_nonnegative 64)]; lia.
Qed.

(** The register that holds [- abs_imm]. *)
Lemma neg_abs_s64 k : 0 <= k < 64 -> s64 (- s64 (2 ^ k)) = - 2 ^ k.
Proof.
  intros Hk. assert (2 ^ k <= 2 ^ 63) by (apply Z.pow_le_mono_r; lia). pose proof (pow2_pos k).
  apply swrap_eq_wrap; [lia|unfold is_s; lia|]. rewrite <- wrap_opp, wrap_swrap, wrap_opp by lia. done.
Qed.

Lemma mask_code k :
  1 <= k < w ->
  exists mask,
    (if k <=? 11 then Some [Andi TMP TMP (s32 (- 2 ^ k))]
     else
       '(tmp2, available) ← AllocateXRegister (2 ^ 30);
       c ← Li available tmp2 (- 2 ^ k);
       Some (c ++ [And TMP TMP tmp2])) = Some mask /\
    Forall fits mask /\
    forall s, read (exec mask s) TMP = s64 (Z.land (read s TMP) (- 2 ^ k)) /\
      forall r, r <> TMP -> r <> TMP2 -> read (exec mask s) r = read s r.
Proof.
  intros Hk. pose proof (pow2_pos k ltac:(lia)). destruct (Z.leb_spec k 11).
  - assert (2 ^ k <= 2 ^ 11) by (apply Z.pow_le_mono_r; lia).
    rewrite swrap_id by (unfold is_s; lia). eexists. split; [reflexivity|]. split; [fits|].
    intros s'. split; [|frame]. cbn [exec exec1]. by rewrite riscv_read_write_same by regs.
  - destruct initial_allocation as [_ ->]. cbn [mbind option_bind].
    assert (2 ^ k <= 2 ^ 63) by (apply Z.pow_le_mono_r; destruct riscv_size_cases; lia).
    destruct (LoadImmediate_spec 0 TMP2 (- 2 ^ k) false) as (c & E & [Hf Hv Hfr] & _);
      [regs|done|done|by apply Z.bits_0|done|unfold is_s; lia|].
    unfold Li. rewrite E. cbn [mbind option_bind]. eexists. split; [reflexivity|]. split.
    { apply Forall_app_2; [done|fits]. }
    intros s'. rewrite riscv_exec_app. cbn [exec exec1]. split.
    + rewrite riscv_read_write_same, Hv, Hfr by (regs || auto). done.
    + intros. rewrite riscv_read_write_other, Hfr by auto. done.
Qed.

(** The code of [DivRemByPowerOfTwo] after the check of the shift. *)
Lemma adjustment_emit k :
  1 <= k < w ->
  (if negb (is_long i) || (k =? 1) then
     DCHECK implb (negb (is_long i)) (k <? 32);
     Some [Srli TMP (InAt0 i) (64 - k)]
   else Some [Srai TMP (InAt0 i) 63; Srli TMP TMP (64 - k)]) =
  Some (if negb (is_long i) || (k =? 1) then [Srli TMP (InAt0 i) (64 - k)]
        else [Srai TMP (InAt0 i) 63; Srli TMP TMP (64 - k)]).
Proof.
  intros Hk. destruct (negb (is_long i) || (k =? 1)); [|done].
  replace (implb (negb (is_long i)) (k <? 32)) with true; [done|].
  unfold size in Hk. destruct (is_long i); [done|]. cbn [negb implb]. lia.
Qed.

Lemma result_code k imm :
  1 <= k < w -> is_s w imm -> imm <> 0 -> imm <> -1 -> Z.abs imm = 2 ^ k ->
  exists c,
    (if IsDiv i then Some (Srai (Out i) TMP k :: if imm <? 0 then [Neg (Out i) (Out i)] else [])
     else
       mask ←
         (if k <=? 11 then Some [Andi TMP TMP (s32 (s64 (- s64 (2 ^ k))))]
          else
            '(tmp2, available) ← AllocateXRegister (2 ^ 30);
            c ← Li available tmp2 (s64 (- s64 (2 ^ k)));
            Some (c ++ [And TMP TMP tmp2]));
       Some (mask ++ [Sub (Out i) (InAt0 i) TMP])) = Some c /\
    computes (adjustment k ++ c) (result imm).
Proof.
  intros Hk Himm Hnz Hm1 Eabs. rewrite neg_abs_s64 by (destruct riscv_size_cases; lia).
  destruct (riscv_adjustment_correct k Hk) as (Hfa & Hva & Hfra).
  assert (Ha : is_s w (adjusted n k)) by (apply adjusted_is_s; (done || lia)).
  pose proof (result_is_s imm Hnz) as Hres. unfold computes, result, java_div, java_rem in *. destruct (IsDiv i).
  - rewrite (swrap_id w (Z.quot n imm)) in * by ((destruct riscv_size_cases; lia) || by apply quot_is_s).
    pose proof (adjusted_quot n imm k ltac:(lia) Hnz Eabs) as Eq.
    assert (is_s w (Z.shiftr (adjusted n k) k)) as Hsh by (apply is_s_shiftr; (done || lia)).
    eexists. split; [reflexivity|]. split; [|split].
    + apply Forall_app_2; [done|]. unfold Neg. assert (k < 64) by (destruct riscv_size_cases; lia). destruct (imm <? 0); fits.
    + rewrite riscv_exec_app. rewrite Eq in *. unfold Neg. destruct (imm <? 0); cbn [exec exec1];
        rewrite !riscv_read_write_same, ?read_zero, Hva, (size_is_64 _ Hsh) by regs; [|done]. by apply size_is_64.
    + intros. rewrite riscv_exec_app, <- (Hfra r) by done. unfold Neg. destruct (imm <? 0); frame.
  - destruct (mask_code k Hk) as (mask & -> & Hfm & Hm). cbn [mbind option_bind]. eexists. split; [reflexivity|].
    destruct (Hm (exec (adjustment k) s)) as [Hmv Hmfr]. split; [|split].
    + apply Forall_app_2; [done|]. apply Forall_app_2; [done|fits].
    + rewrite !riscv_exec_app. cbn [exec exec1]. rewrite riscv_read_write_same by regs.
      rewrite Hmv, Hmfr, Hva, Hfra by regs. fold n. rewrite <- (rem_masked n k imm), lnot_ones in Hres |- * by (done || lia).
      rewrite <- (size_is_64 _ Hres). rewrite <- (swrap_wrap 64 (n - s64 _)), <- wrap_sub_r, wrap_swrap, wrap_sub_r, swrap_wrap by lia.
      done.
    + intros. rewrite !riscv_exec_app. cbn [exec exec1]. rewrite riscv_read_write_other, Hmfr, Hfra by done. done.
Qed.

Lemma riscv_DivRemByPowerOfTwo_correct imm :
  is_s w imm -> imm <> 0 -> imm <> 1 -> imm <> -1 -> IsPowerOfTwo_signed 64 (AbsOrMin 64 imm) = true ->
  exists c, DivRemByPowerOfTwo i initial_scratch_registers imm = Some c /\ computes c (result imm).
Proof.
  intros Himm Hnz H1 H2 Hp2. pose proof riscv_size_cases as Hw.
  destruct (divisor_cases w 64 imm ltac:(lia) Himm Hnz) as [(_ & k & Hk & Ea & Eabs)|[? _]]; [|congruence].
  assert (1 <= k) as Hk1. { destruct (Z.eq_dec k 0) as [->|]; [|lia]. lia. }
  unfold DivRemByPowerOfTwo. rewrite Ea.
  assert (CTZ64 (s64 (2 ^ k)) = Some k) as ->.
  { unfold CTZ64. rewrite wrap_swrap by lia. pose proof (pow2_pos k).
    assert (2 ^ k < 2 ^ 64) by (apply Z.pow_lt_mono_r; lia).
    rewrite wrap_id, CTZ_pow2 by (lia || (unfold is_u; lia)). rewrite (proj2 (Z.eqb_neq _ 0)); [done|].
    intros E. apply (f_equal (wrap 64)) in E. rewrite wrap_swrap, wrap_id in E by (lia || (unfold is_u; lia)).
    change (u64 0) with 0 in E. lia. }
  cbn [mbind option_bind]. rewrite (proj2 (Z.leb_le 1 k)) by lia. cbn [dcheck mbind option_bind].
  destruct initial_allocation as [-> _]. cbn [mbind option_bind].
  rewrite adjustment_emit by lia. cbn [mbind option_bind].
  destruct (result_code k imm) as (c & -> & Hc); [lia|done..|].
  cbn [mbind option_bind]. eexists. split; [reflexivity|]. by rewrite app_assoc.
Qed.

(** *** Division instructions *)

Lemma div_rem_value s1 a b d :
  allocatable (Out i) -> read s1 a = n -> read s1 b = d -> is_s w d -> d <> 0 ->
  read (exec1 (div_rem i a b) s1) (Out i) = result d.
Proof.
  intros Ho Ea Eb Hd Hnz. pose proof (size_is_64 _ (result_is_s d Hnz)) as E64. rewrite <- E64.
  unfold div_rem, result, size, java_div, java_rem in *.
  destruct (IsDiv i), (is_long i); cbn [negb exec1]; rewrite riscv_read_write_same, Ea, Eb by regs;
    unfold div_value, rem_value; rewrite ?(swrap_id 32 n), ?(swrap_id 32 d) by (done || lia);
    rewrite ?(proj2 (Z.eqb_neq d 0)) by done; try done.
  f_equal. apply swrap_id; [lia|]. by apply rem_is_s.
Qed.

Lemma div_rem_fits a b : allocatable (Out i) -> (a < 32)%nat -> (b < 32)%nat -> fits (div_rem i a b).
Proof. intros Ho Ha Hb. unfold div_rem. destruct (IsDiv i), (is_long i); cbn [negb fits typed]; regs. Qed.

Lemma div_rem_frame a b s1 r : r <> Out i -> read (exec1 (div_rem i a b) s1) r = read s1 r.
Proof. intros Hr. unfold div_rem. destruct (IsDiv i), (is_long i); cbn [negb exec1]; by apply riscv_read_write_other. Qed.

Lemma riscv_GenerateDivRemWithAnyConstant_correct imm :
  is_s w imm -> imm <> 0 ->
  exists c, GenerateDivRemWithAnyConstant i initial_scratch_registers imm = Some c /\ computes c (result imm).
Proof.
  intros Himm Hnz. unfold GenerateDivRemWithAnyConstant. destruct initial_allocation as [-> _]. cbn [mbind option_bind].
  destruct (LoadImmediate_spec (2 ^ 30) TMP imm true) as (c & E & [Hf Hv Hfr] & _);
    [regs|done|done|done|done|rewrite <- (size_is_64 _ Himm); apply swrap_is_s; lia|].
  unfold LoadConst64. rewrite E. cbn [mbind option_bind]. eexists. split; [reflexivity|].
  assert (Hother : forall r, r <> TMP -> r <> TMP2 -> read (exec c s) r = read s r).
  { intros r H1 H2. apply Hfr; [done|]. right. rewrite Z.pow2_bits_eqb by lia. apply Z.eqb_neq. regs. }
  split; [|split].
  - apply Forall_app_2; [done|]. constructor; [|done]. apply div_rem_fits; regs.
  - rewrite riscv_exec_app. cbn [exec]. apply div_rem_value; try done; [apply Hother; regs|]. apply Hv. regs.
  - intros. rewrite riscv_exec_app. cbn [exec]. rewrite div_rem_frame by done. by apply Hother.
Qed.

Lemma riscv_Integral_computes d :
  match InAt1 i with
  | Constant imm => d = imm /\ is_s w imm
  | InRegister r => d = read s r /\ allocatable r /\ is_s w d
  end -> d <> 0 ->
  exists c, GenerateDivRemIntegral i initial_scratch_registers = Some c /\ computes c (result d).
Proof.
  intros Hd Hnz. unfold GenerateDivRemIntegral. destruct (InAt1 i) as [imm|r].
  - destruct Hd as [-> Himm]. rewrite (proj2 (Z.eqb_neq imm 0)) by done.
    destruct ((imm =? 1) || (imm =? -1)) eqn:E1; [apply riscv_DivRemOneOrMinusOne_correct; lia|].
    destruct (IsPowerOfTwo_signed 64 (AbsOrMin 64 imm)) eqn:E2; [apply riscv_DivRemByPowerOfTwo_correct; (done || lia)|].
    replace ((imm <=? -2) || (2 <=? imm)) with true by lia. cbn [dcheck mbind option_bind].
    by apply riscv_GenerateDivRemWithAnyConstant_correct.
  - destruct Hd as (E & Hr & Hd). eexists. split; [reflexivity|]. split; [|split].
    + constructor; [|done]. apply div_rem_fits; regs.
    + cbn [exec]. by apply div_rem_value.
    + intros. cbn [exec]. by apply div_rem_frame.
Qed.

End correct.

(** C8: on RISC-V the code generated for an int or long division or remainder,
    by a constant or a register, can be encoded, and the emitted words, decoded
    and run, leave the Java quotient or remainder in the output register, an
    int sign-extended to 64 bits, for every dividend and every non-zero
    divisor; only the output and the two scratch registers change. *)
Theorem riscv64_div_rem_correct i s d :
  allocatable (Out i) -> allocatable (InAt0 i) -> is_s (size i) (dividend_value i s) ->
  match InAt1 i with
  | Constant imm => d = imm /\ is_s (size i) imm
  | InRegister r => d = read s r /\ allocatable r /\ is_s (size i) d
  end -> d <> 0 ->
  exists c words s', GenerateDivRemIntegral i initial_scratch_registers = Some c /\
    assemble c = Some words /\ run words s = Some s' /\
    read s' (Out i) =
      (if IsDiv i then java_div (size i) (dividend_value i s) d else java_rem (size i) (dividend_value i s) d) /\
    forall r, r <> Out i -> r <> TMP -> r <> TMP2 -> read s' r = read s r.
Proof.
  intros Ho Hi Hn Hd Hnz. destruct (riscv_Integral_computes i s Ho Hi Hn d Hd Hnz) as (c & E & Hf & Hv & Hfr).
  destruct (assemble_fits c Hf) as (words & Ew & _ & Hrun). exists c, words, (exec c s). done.
Qed.

Lemma riscv64_div_rem_correct_witness :
  let i := {| IsDiv := false; is_long := true; InAt0 := 10; InAt1 := Constant (- 2 ^ 40); Out := 10 |}%nat in
  exists c words s', GenerateDivRemIntegral i initial_scratch_registers = Some c /\
    assemble c = Some words /\ run words (fun _ => - 2 ^ 41 - 5) = Some s' /\ read s' 10 = -5.
Proof.
  intros i.
  destruct (riscv64_div_rem_correct i (fun _ => - 2 ^ 41 - 5) (- 2 ^ 40)) as (c & words & s' & E & Ew & Er & Ev & _).
  - unfold allocatable. cbn. lia.
  - unfold allocatable. cbn. lia.
  - vm_compute. split; [discriminate|reflexivity].
  - split; [reflexivity|]. vm_compute. split; [discriminate|reflexivity].
  - discriminate.
  - exists c, words, s'. split; [exact E|]. split; [exact Ew|]. split; [exact Er|]. exact Ev.
Defined.

End Riscv64Div.
