(* ===== verification/IndirectRefTable.v ===== *)
(** * The table of global JNI references

    [IndirectReferenceTable] of runtime/indirect_reference_table.{h,cc,-inl.h}:
    the table behind global and weak global references.  A reference handed to
    native code packs the index of a slot, the serial number of the slot and the
    kind of the table into a pointer; removing a reference from the middle leaves
    a hole that a later [Add] fills.

    The specification is a finite map from references to objects.  The theorems
    say that every sequence of operations behaves as on that map, what happens
    on references that are not in it, and for how long a deleted reference is
    recognized. *)

From Stdlib Require Import ZArith Lia Bool List.
From stdpp Require Import base numbers list option gmap fin_maps.
From S2P Require Import Prelude BitUtils.

Local Open Scope Z_scope.
Local Open Scope art_scope.

#[local] Ltac Zify.zify_post_hook ::= Z.to_euclidean_division_equations.

Module IRT.

(** ** Reference kinds and their encoding *)

Inductive IndirectRefKind := kJniTransition | kLocal | kGlobal | kWeakGlobal.

#[global] Instance IndirectRefKind_eq_dec : EqDecision IndirectRefKind.
Proof. solve_decision. Defined.

Definition kIRTSerialBits : Z := 3.
Definition kIRTMaxSerial : Z := Z.shiftl 1 kIRTSerialBits - 1.
Definition kShiftedSerialMask : Z := Z.shiftl 1 kIRTSerialBits - 1.

Definition EncodeIndirectRefKind (kind : IndirectRefKind) : Z :=
  match kind with kJniTransition => 0 | kLocal => 1 | kGlobal => 2 | kWeakGlobal => 3 end.

Definition kKindBits : Z := MinimumBitsToStore 32 (EncodeIndirectRefKind kWeakGlobal).
Definition kKindMask : Z := Z.shiftl 1 kKindBits - 1.

Definition DecodeIndirectRefKind (uref : Z) : IndirectRefKind :=
  match Z.land uref kKindMask with
  | 0 => kJniTransition
  | 1 => kLocal
  | 2 => kGlobal
  | _ => kWeakGlobal
  end.

Definition GetGlobalOrWeakGlobalMask : Z := EncodeIndirectRefKind kGlobal.
Definition IsGlobalOrWeakGlobalReference (iref : Z) : bool :=
  negb (Z.land iref GetGlobalOrWeakGlobalMask =? 0).
Definition IsJniTransitionOrLocalReference (iref : Z) : bool := negb (IsGlobalOrWeakGlobalReference iref).

(** [W] is the size of a pointer in bits; [check_jni] is whether CheckJNI is
    enabled in the virtual machine.  A null object or reference is 0. *)
Section table.
Context (W : Z) (check_jni : bool).

Definition ClearIndirectRefKind (iref : Z) : Z := Z.land iref (wrap W (Z.lnot kKindMask)).

Definition EncodeIndex (table_index : Z) : option Z :=
  DCHECK MinimumBitsToStore 32 table_index <=? W - kIRTSerialBits - kKindBits;
  Some (wrap W (Z.shiftl (wrap W (Z.shiftl table_index kKindBits)) kIRTSerialBits)).

Definition DecodeIndex (uref : Z) : Z := u32 (Z.shiftr (Z.shiftr uref kKindBits) kIRTSerialBits).

Definition EncodeSerial (serial : Z) : option Z :=
  DCHECK MinimumBitsToStore 32 serial <=? kIRTSerialBits;
  Some (u32 (Z.shiftl serial kKindBits)).

Definition DecodeSerial (uref : Z) : Z := Z.land (u32 (Z.shiftr uref kKindBits)) kShiftedSerialMask.

(** ** Entries *)

Record IrtEntry := mk_IrtEntry { serial_ : Z; reference_ : Z }.

Definition IrtEntry_Add (e : IrtEntry) (obj : Z) : IrtEntry :=
  let serial := u32 (serial_ e + 1) in
  mk_IrtEntry (if serial =? kIRTMaxSerial then 0 else serial) obj.

Definition GetReference (e : IrtEntry) : option Z :=
  DCHECK serial_ e <=? kIRTMaxSerial; Some (reference_ e).

Definition SetReference (e : IrtEntry) (obj : Z) : option IrtEntry :=
  DCHECK serial_ e <? kIRTMaxSerial; Some (mk_IrtEntry (serial_ e) obj).

(** [*entry.GetReference() = GcRoot(obj)] *)
Definition AssignReference (e : IrtEntry) (obj : Z) : option IrtEntry :=
  DCHECK serial_ e <=? kIRTMaxSerial; Some (mk_IrtEntry (serial_ e) obj).

(** ** The table *)

Record IndirectReferenceTable := mk_Table {
  table_ : option (list IrtEntry);
  kind_ : IndirectRefKind;
  top_index_ : Z;
  max_entries_ : Z;
  current_num_holes_ : Z;
}.

Definition kPageSize : Z := 4096.
Definition kIrtEntrySize : Z := 8.
Definition kMaxTableSizeInBytes : Z := 128 * 2 ^ 20.

Definition IndirectReferenceTable_new (kind : IndirectRefKind) : option IndirectReferenceTable :=
  DCHECK negb (bool_decide (kind = kJniTransition));
  DCHECK negb (bool_decide (kind = kLocal));
  Some (mk_Table None kind 0 0 0).

(** [mapped]: whether mapping memory succeeds; mapped memory is zeroed. *)
Definition Initialize (t : IndirectReferenceTable) (max_count : Z) (mapped : bool)
    : option (IndirectReferenceTable * bool) :=
  DCHECK max_count <=? kMaxTableSizeInBytes / kIrtEntrySize;
  let table_bytes := RoundUp W (max_count * kIrtEntrySize) kPageSize in
  if negb mapped then Some (t, false)
  else
    let max_entries := table_bytes / kIrtEntrySize in
    Some (mk_Table (Some (replicate (Z.to_nat max_entries) (mk_IrtEntry 0 0)))
                   (kind_ t) (top_index_ t) max_entries (current_num_holes_ t), true).

Definition EncodeIndirectRef (t : IndirectReferenceTable) (table_index serial : Z) : option Z :=
  DCHECK table_index <? max_entries_ t;
  i ← EncodeIndex table_index;
  s ← EncodeSerial serial;
  Some (Z.lor (Z.lor i s) (EncodeIndirectRefKind (kind_ t))).

Definition ExtractIndex (iref : Z) : Z := DecodeIndex iref.

Definition GetIndirectRefKind (iref : Z) : IndirectRefKind := DecodeIndirectRefKind iref.

Definition ToIndirectRef (t : IndirectReferenceTable) (l : list IrtEntry) (table_index : Z) : option Z :=
  DCHECK table_index <? max_entries_ t;
  e ← aread l table_index;
  EncodeIndirectRef t table_index (serial_ e).

(** A mismatch aborts, unless CheckJNI is on and gives a better message. *)
Definition CheckEntry (t : IndirectReferenceTable) (l : list IrtEntry) (iref idx : Z) : option bool :=
  checkRef ← ToIndirectRef t l idx;
  if negb (checkRef =? iref) then if check_jni then Some false else None
  else Some true.

Fixpoint CountNullEntries_loop (l : list IrtEntry) (n : nat) (index count : Z) : option Z :=
  match n with
  | O => Some count
  | S n' =>
      e ← aread l index;
      r ← GetReference e;
      CountNullEntries_loop l n' (index + 1) (if r =? 0 then count + 1 else count)
  end.

Definition CountNullEntries (l : list IrtEntry) (to : Z) : option Z :=
  CountNullEntries_loop l (Z.to_nat to) 0 0.

Definition CheckHoleCount (l : list IrtEntry) (exp_num_holes top_index : Z) : option unit :=
  count ← CountNullEntries l top_index;
  dcheck (exp_num_holes =? count).

(** The scan of [Add] for a hole, downwards from [p_scan]. *)
Fixpoint scan_loop (fuel : nat) (l : list IrtEntry) (p_scan : Z) : option Z :=
  match fuel with
  | O => None
  | S fuel' =>
      e ← aread l p_scan;
      r ← GetReference e;
      if negb (r =? 0) then DCHECK 0 <? p_scan; scan_loop fuel' l (p_scan - 1)
      else Some p_scan
  end.

(** The slot for a new reference, with the new top and number of holes. *)
Definition find_slot (t : IndirectReferenceTable) (l : list IrtEntry) : option (Z * Z * Z) :=
  if 0 <? current_num_holes_ t then
    DCHECK 1 <? top_index_ t;
    e ← aread l (top_index_ t - 1);
    r ← GetReference e;
    DCHECK negb (r =? 0);
    index ← scan_loop (Z.to_nat (top_index_ t)) l (top_index_ t - 2);
    Some (index, top_index_ t, current_num_holes_ t - 1)
  else Some (top_index_ t, top_index_ t + 1, current_num_holes_ t).

(** The new table and the reference, null if the table is full. *)
Definition Add (t : IndirectReferenceTable) (obj : Z) : option (IndirectReferenceTable * Z) :=
  DCHECK negb (obj =? 0);
  l ← table_ t;
  if top_index_ t =? max_entries_ t then Some (t, 0)
  else
    _ ← CheckHoleCount l (current_num_holes_ t) (top_index_ t);
    '(index, top, holes) ← find_slot t l;
    e ← aread l index;
    l ← awrite l index (IrtEntry_Add e obj);
    let t := mk_Table (Some l) (kind_ t) top (max_entries_ t) holes in
    result ← ToIndirectRef t l index;
    DCHECK negb (result =? 0);
    Some (t, result).

(** The loop of [Remove] that consumes holes below the top. *)
Fixpoint collapse_loop (fuel : nat) (l : list IrtEntry) (collapse_top_index holes : Z) : option (Z * Z) :=
  match fuel with
  | O => None
  | S fuel' =>
      let collapse_top_index := collapse_top_index - 1 in
      if (0 <? collapse_top_index) && negb (holes =? 0) then
        e ← aread l (collapse_top_index - 1);
        r ← GetReference e;
        if negb (r =? 0) then Some (collapse_top_index, holes)
        else collapse_loop fuel' l collapse_top_index (holes - 1)
      else Some (collapse_top_index, holes)
  end.

Definition Remove (t : IndirectReferenceTable) (iref : Z) : option (IndirectReferenceTable * bool) :=
  let top_index := u32 (top_index_ t) in
  l ← table_ t;
  let idx := ExtractIndex iref in
  if top_index <=? idx then Some (t, false)
  else
    _ ← CheckHoleCount l (current_num_holes_ t) (top_index_ t);
    if idx =? top_index - 1 then
      ok ← CheckEntry t l iref idx;
      if negb ok then Some (t, false)
      else
        e ← aread l idx;
        e ← AssignReference e 0;
        l ← awrite l idx e;
        if negb (current_num_holes_ t =? 0) then
          '(collapse_top_index, holes) ←
            collapse_loop (S (Z.to_nat top_index)) l top_index (current_num_holes_ t);
          let t := mk_Table (Some l) (kind_ t) collapse_top_index (max_entries_ t) holes in
          _ ← CheckHoleCount l holes collapse_top_index;
          Some (t, true)
        else
          Some (mk_Table (Some l) (kind_ t) (top_index - 1) (max_entries_ t) (current_num_holes_ t), true)
    else
      e ← aread l idx;
      r ← GetReference e;
      if r =? 0 then Some (t, false)
      else
        ok ← CheckEntry t l iref idx;
        if negb ok then Some (t, false)
        else
          e ← AssignReference e 0;
          l ← awrite l idx e;
          let holes := current_num_holes_ t + 1 in
          _ ← CheckHoleCount l holes (top_index_ t);
          Some (mk_Table (Some l) (kind_ t) (top_index_ t) (max_entries_ t) holes, true).

Definition IsValidReference (t : IndirectReferenceTable) (iref : Z) : option bool :=
  DCHECK negb (iref =? 0);
  DCHECK bool_decide (GetIndirectRefKind iref = kind_ t);
  let top_index := u32 (top_index_ t) in
  let idx := ExtractIndex iref in
  if top_index <=? idx then Some false
  else
    l ← table_ t;
    e ← aread l idx;
    r ← GetReference e;
    if r =? 0 then Some false
    else Some (DecodeSerial iref =? serial_ e).

(** The checks that [Get] and [Update] share. *)
Definition checked_entry (t : IndirectReferenceTable) (iref : Z) : option (list IrtEntry * Z * IrtEntry) :=
  DCHECK bool_decide (GetIndirectRefKind iref = kind_ t);
  let idx := ExtractIndex iref in
  DCHECK idx <? top_index_ t;
  l ← table_ t;
  e ← aread l idx;
  DCHECK DecodeSerial iref =? serial_ e;
  r ← GetReference e;
  DCHECK negb (r =? 0);
  Some (l, idx, e).

Definition Get (t : IndirectReferenceTable) (iref : Z) : option Z :=
  '(_, _, e) ← checked_entry t iref;
  GetReference e.

Definition Update (t : IndirectReferenceTable) (iref obj : Z) : option IndirectReferenceTable :=
  '(l, idx, e) ← checked_entry t iref;
  e ← SetReference e obj;
  l ← awrite l idx e;
  Some (mk_Table (Some l) (kind_ t) (top_index_ t) (max_entries_ t) (current_num_holes_ t)).

Definition Capacity (t : IndirectReferenceTable) : Z := top_index_ t.
Definition NEntriesForGlobal (t : IndirectReferenceTable) : Z := s32 (top_index_ t - current_num_holes_ t).
Definition FreeCapacity (t : IndirectReferenceTable) : Z := max_entries_ t - top_index_ t.

(** [madvise] on the pages behind the top: their entries read as zero again.
    Addresses are offsets from the table, which starts on a page. *)
Definition Trim (t : IndirectReferenceTable) : option IndirectReferenceTable :=
  l ← table_ t;
  let top_index := Capacity t in
  let release_start := RoundUp W (top_index * kIrtEntrySize) kPageSize in
  let release_end := max_entries_ t * kIrtEntrySize in
  DCHECK release_start <=? release_end;
  DCHECK IsAlignedParam release_end kPageSize;
  DCHECK IsAlignedParam (release_end - release_start) kPageSize;
  let keep := Z.to_nat (release_start / kIrtEntrySize) in
  Some (mk_Table (Some (take keep l ++ replicate (length l - keep) (mk_IrtEntry 0 0)))
                 (kind_ t) (top_index_ t) (max_entries_ t) (current_num_holes_ t)).

(** The loops over all entries: [visit] gives the new object for the object of a
    slot in use.  The objects visited are collected in order. *)
Fixpoint visit_loop (n : nat) (visit : Z -> Z) (i : Z) (l : list IrtEntry) (visited : list Z)
    : option (list IrtEntry * list Z) :=
  match n with
  | O => Some (l, visited)
  | S n' =>
      e ← aread l i;
      r ← GetReference e;
      if negb (r =? 0) then
        e ← AssignReference e (visit r);
        l ← awrite l i e;
        visit_loop n' visit (i + 1) l (visited ++ [r])
      else visit_loop n' visit (i + 1) l visited
  end.

(** The buffered visitor calls [visitor], which may move an object, on every
    root before [VisitRoots] returns. *)
Definition VisitRoots (t : IndirectReferenceTable) (visitor : Z -> Z)
    : option (IndirectReferenceTable * list Z) :=
  l ← table_ t;
  '(l, visited) ← visit_loop (Z.to_nat (Capacity t)) visitor 0 l [];
  Some (mk_Table (Some l) (kind_ t) (top_index_ t) (max_entries_ t) (current_num_holes_ t), visited).

Definition sweep_entry (IsMarked : Z -> Z) (cleared obj : Z) : Z :=
  let new_obj := IsMarked obj in
  if new_obj =? 0 then cleared else new_obj.

Definition SweepJniWeakGlobals (t : IndirectReferenceTable) (IsMarked : Z -> Z) (cleared : Z)
    : option IndirectReferenceTable :=
  DCHECK bool_decide (kind_ t = kWeakGlobal);
  l ← table_ t;
  '(l, _) ← visit_loop (Z.to_nat (Capacity t)) (sweep_entry IsMarked cleared) 0 l [];
  Some (mk_Table (Some l) (kind_ t) (top_index_ t) (max_entries_ t) (current_num_holes_ t)).

(** ** Operations in sequence *)

Inductive op :=
  | OpAdd (obj : Z)
  | OpRemove (iref : Z)
  | OpGet (iref : Z)
  | OpUpdate (iref obj : Z)
  | OpIsValid (iref : Z)
  | OpVisitRoots (visitor : Z -> Z)
  | OpSweep (IsMarked : Z -> Z) (cleared : Z)
  | OpTrim
  | OpNEntries.

Inductive result := RRef (iref : Z) | RBool (b : bool) | RObj (obj : Z) | RRoots (objs : list Z) | RCount (n : Z) | RDone.

(** [None]: the operation aborts. *)
Definition perform (t : IndirectReferenceTable) (o : op) : option (IndirectReferenceTable * result) :=
  match o with
  | OpAdd obj => '(t, r) ← Add t obj; Some (t, RRef r)
  | OpRemove iref => '(t, b) ← Remove t iref; Some (t, RBool b)
  | OpGet iref => r ← Get t iref; Some (t, RObj r)
  | OpUpdate iref obj => t ← Update t iref obj; Some (t, RDone)
  | OpIsValid iref => b ← IsValidReference t iref; Some (t, RBool b)
  | OpVisitRoots f => '(t, v) ← VisitRoots t f; Some (t, RRoots v)
  | OpSweep f c => t ← SweepJniWeakGlobals t f c; Some (t, RDone)
  | OpTrim => t ← Trim t; Some (t, RDone)
  | OpNEntries => Some (t, RCount (NEntriesForGlobal t))
  end.

End table.

(** ** Encoded references *)

(** The reference to slot [i] of a table of kind [k] with serial number [s]. *)
Definition ref_of (k : IndirectRefKind) (i s : Z) : Z := 32 * i + 4 * s + EncodeIndirectRefKind k.

(** The bits of a reference that [ExtractIndex], [DecodeSerial] and
    [GetIndirectRefKind] look at; the index has 32 bits. *)
Definition low_bits (iref : Z) : Z := iref mod 2 ^ 37.

Lemma kind_range k : 0 <= EncodeIndirectRefKind k < 4.
Proof. by destruct k. Qed.

Lemma kind_inj k k' : EncodeIndirectRefKind k = EncodeIndirectRefKind k' -> k = k'.
Proof. by destruct k, k'. Qed.

Lemma ref_of_inj k i s i' s' :
  0 <= s < 8 -> 0 <= s' < 8 -> ref_of k i s = ref_of k i' s' -> i = i' /\ s = s'.
Proof. unfold ref_of. lia. Qed.

Lemma extract_index iref : 0 <= iref -> ExtractIndex iref = (iref / 32) mod 2 ^ 32.
Proof.
  intros. unfold ExtractIndex, DecodeIndex, wrap. change kKindBits with 2. change kIRTSerialBits with 3.
  rewrite Z.shiftr_shiftr, Z.shiftr_div_pow2 by lia. done.
Qed.

Lemma decode_serial iref : 0 <= iref -> DecodeSerial iref = (iref / 4) mod 8.
Proof.
  intros. unfold DecodeSerial, wrap. change kKindBits with 2. change kShiftedSerialMask with (Z.ones 3).
  rewrite Z.land_ones, Z.shiftr_div_pow2 by lia. apply Z.mod_mod_divide. by exists (2 ^ 29).
Qed.

Lemma decode_kind iref : EncodeIndirectRefKind (GetIndirectRefKind iref) = iref mod 4.
Proof.
  unfold GetIndirectRefKind, DecodeIndirectRefKind. change kKindMask with (Z.ones 2).
  rewrite Z.land_ones by lia. change (2 ^ 2) with 4.
  pose proof (Z.mod_pos_bound iref 4 ltac:(lia)) as H.
  destruct (iref mod 4) as [|[[]|[]|]|]; cbn; lia.
Qed.

Lemma low_bits_split iref :
  0 <= iref -> low_bits iref = ref_of (GetIndirectRefKind iref) (ExtractIndex iref) (DecodeSerial iref).
Proof.
  intros. unfold low_bits, ref_of. rewrite extract_index, decode_serial, decode_kind by done.
  change (2 ^ 37) with (32 * 2 ^ 32). rewrite Z.rem_mul_r by lia.
  pose proof (Z.rem_mul_r iref 4 8) as H8. change (4 * 8) with 32 in H8. lia.
Qed.

Lemma decode_ref_of k i s :
  is_u 24 i -> 0 <= s < 8 ->
  ExtractIndex (ref_of k i s) = i /\ DecodeSerial (ref_of k i s) = s /\
  GetIndirectRefKind (ref_of k i s) = k /\ 0 <= ref_of k i s /\ low_bits (ref_of k i s) = ref_of k i s.
Proof.
  intros Hi Hs. pose proof (kind_range k). unfold is_u in Hi. change (2 ^ 24) with 16777216 in Hi.
  assert (0 <= ref_of k i s) by (unfold ref_of; lia).
  rewrite extract_index, decode_serial by done. repeat split; [..|done|].
  - assert (ref_of k i s / 32 = i) as -> by (unfold ref_of; lia). apply Z.mod_small. lia.
  - assert (ref_of k i s / 4 = 8 * i + s) as -> by (unfold ref_of; lia). lia.
  - apply kind_inj. rewrite decode_kind. unfold ref_of. lia.
  - apply Z.mod_small. unfold ref_of. change (2 ^ 37) with 137438953472. lia.
Qed.

(** ** Counting holes *)

Definition is_null (e : IrtEntry) : Prop := reference_ e = 0.

#[global] Instance is_null_dec e : Decision (is_null e).
Proof. unfold is_null. apply _. Defined.

Definition serial_ok (e : IrtEntry) : Prop := 0 <= serial_ e < kIRTMaxSerial.

Definition nulls (l : list IrtEntry) (k : Z) : Z := zlength (filter is_null (take (Z.to_nat k) l)).

Lemma nulls_0 l : nulls l 0 = 0.
Proof. done. Qed.

Lemma nulls_succ l k e :
  aread l k = Some e -> nulls l (k + 1) = nulls l k + (if reference_ e =? 0 then 1 else 0).
Proof.
  intros He. pose proof (aread_inv _ _ _ He). rewrite aread_lookup in He by lia.
  unfold nulls. replace (Z.to_nat (k + 1)) with (S (Z.to_nat k)) by lia.
  rewrite (take_S_r _ _ e He), filter_app, length_app, filter_cons, filter_nil.
  destruct (Z.eqb_spec (reference_ e) 0); [rewrite decide_True by done|rewrite decide_False by done]; cbn; lia.
Qed.

Lemma nulls_bound l k : 0 <= nulls l k.
Proof. unfold nulls. lia. Qed.

Lemma filter_insert (T : list IrtEntry) j e x :
  T !! j = Some e ->
  zlength (filter is_null (<[j := x]> T)) + (if reference_ e =? 0 then 1 else 0) =
  zlength (filter is_null T) + (if reference_ x =? 0 then 1 else 0).
Proof.
  revert j. induction T as [|a T IH]; intros [|j] He; try done; cbn in He.
  - injection He as ->. change (<[0%nat := x]> (e :: T)) with (x :: T). rewrite !filter_cons.
    destruct (Z.eqb_spec (reference_ e) 0), (Z.eqb_spec (reference_ x) 0);
      repeat ((rewrite decide_True by done) || (rewrite decide_False by done)); cbn [length]; lia.
  - specialize (IH j He). change (<[S j := x]> (a :: T)) with (a :: <[j := x]> T).
    rewrite !filter_cons. destruct (decide (is_null a)); cbn [length]; lia.
Qed.

Lemma nulls_insert l i k e x :
  aread l i = Some e -> i < k ->
  nulls (<[Z.to_nat i := x]> l) k + (if reference_ e =? 0 then 1 else 0) =
  nulls l k + (if reference_ x =? 0 then 1 else 0).
Proof.
  intros He Hk. pose proof (aread_inv _ _ _ He). rewrite aread_lookup in He by lia. unfold nulls.
  rewrite take_insert_lt by lia. apply filter_insert. by rewrite lookup_take_lt by lia.
Qed.

Lemma nulls_insert_above l i k x : k <= i -> nulls (<[Z.to_nat i := x]> l) k = nulls l k.
Proof. intros. unfold nulls. by rewrite take_insert_ge by lia. Qed.

Lemma nulls_positive l k i e : aread l i = Some e -> reference_ e = 0 -> i < k -> 0 < nulls l k.
Proof.
  intros He Hn Hk. pose proof (aread_inv _ _ _ He). rewrite aread_lookup in He by lia. unfold nulls.
  enough (e ∈ filter is_null (take (Z.to_nat k) l)) as Hin by (destruct (filter _ _); [by apply elem_of_nil in Hin|cbn; lia]).
  apply list_elem_of_filter. split; [done|]. apply (list_elem_of_lookup_2 _ (Z.to_nat i)).
  by rewrite lookup_take_lt by lia.
Qed.

Lemma nulls_witness l k :
  0 < nulls l k -> exists i e, aread l i = Some e /\ reference_ e = 0 /\ i < k.
Proof.
  unfold nulls. intros H. destruct (filter _ _) as [|e r] eqn:E; [cbn in H; lia|].
  assert (e ∈ filter is_null (take (Z.to_nat k) l)) as [Hn Hin]%list_elem_of_filter by (rewrite E; left).
  apply list_elem_of_lookup_1 in Hin as [j Hj]. apply lookup_take_Some in Hj as [Hj Hlt].
  exists (Z.of_nat j), e. rewrite aread_nat. split; [done|]. split; [done|lia].
Qed.

Section loops.
Context (l : list IrtEntry) (Hser : Forall serial_ok l).

Lemma serials i e : aread l i = Some e -> serial_ok e.
Proof.
  intros He. pose proof (aread_inv _ _ _ He). rewrite aread_lookup in He by lia.
  by apply (Forall_lookup_1 _ _ _ _ Hser He).
Qed.

Lemma GetReference_ok e : serial_ok e -> GetReference e = Some (reference_ e).
Proof.
  intros [H1 H2]. unfold GetReference, dcheck. by rewrite (proj2 (Z.leb_le (serial_ e) kIRTMaxSerial)) by lia.
Qed.

Lemma AssignReference_ok e obj : serial_ok e -> AssignReference e obj = Some (mk_IrtEntry (serial_ e) obj).
Proof.
  intros [H1 H2]. unfold AssignReference, dcheck. by rewrite (proj2 (Z.leb_le (serial_ e) kIRTMaxSerial)) by lia.
Qed.

Lemma CountNullEntries_ok to : 0 <= to <= zlength l -> CountNullEntries l to = Some (nulls l to).
Proof.
  intros Hto. unfold CountNullEntries.
  assert (forall n i c, 0 <= i -> i + Z.of_nat n <= zlength l -> c = nulls l i ->
    CountNullEntries_loop l n i c = Some (nulls l (i + Z.of_nat n))) as H.
  { induction n as [|n IH]; intros i c Hi Hn ->; cbn [CountNullEntries_loop].
    - by rewrite Z.add_0_r.
    - destruct (aread_some l i ltac:(lia)) as [e He]. rewrite He. cbn [mbind option_bind].
      rewrite (GetReference_ok e (serials _ _ He)). cbn [mbind option_bind].
      rewrite IH; [f_equal; f_equal; lia|lia|lia|].
      rewrite (nulls_succ _ _ _ He). case_match; lia. }
  rewrite (H _ 0) by (done || lia). f_equal. f_equal. lia.
Qed.

Lemma CheckHoleCount_ok holes top :
  0 <= top <= zlength l -> holes = nulls l top -> CheckHoleCount l holes top = Some tt.
Proof.
  intros Ht ->. unfold CheckHoleCount. rewrite CountNullEntries_ok by done. cbn. by rewrite Z.eqb_refl.
Qed.

Lemma scan_loop_ok fuel p :
  0 <= p < zlength l -> 0 < nulls l (p + 1) -> p < Z.of_nat fuel ->
  exists i e, scan_loop fuel l p = Some i /\ 0 <= i <= p /\ aread l i = Some e /\ reference_ e = 0.
Proof.
  revert p. induction fuel as [|fuel IH]; intros p Hp Hn Hf; [lia|]. cbn [scan_loop].
  destruct (aread_some l p Hp) as [e He]. rewrite He. cbn [mbind option_bind].
  rewrite (GetReference_ok e (serials _ _ He)). cbn [mbind option_bind].
  rewrite (nulls_succ _ _ _ He) in Hn. destruct (Z.eqb_spec (reference_ e) 0) as [Hz|Hz]; cbn [negb].
  - exists p, e. split; [done|]. split; [lia|]. done.
  - destruct (Z.eqb_spec p 0) as [->|]; [rewrite nulls_0 in Hn; lia|].
    rewrite (proj2 (Z.ltb_lt 0 p)) by lia. cbn [dcheck mbind option_bind].
    destruct (IH (p - 1)) as (i & e' & H1 & H2 & H3); [lia| |lia|].
    + by replace (p - 1 + 1) with p by lia; rewrite Z.add_0_r in Hn.
    + exists i, e'. split; [done|]. split; [lia|done].
Qed.

Lemma collapse_loop_ok fuel c holes :
  0 < c <= zlength l -> c <= Z.of_nat fuel -> holes = nulls l (c - 1) ->
  exists c', collapse_loop fuel l c holes = Some (c', nulls l c') /\ 0 <= c' < c /\
    (forall i e, aread l i = Some e -> c' <= i < c - 1 -> reference_ e = 0) /\
    (forall e, 0 < c' -> aread l (c' - 1) = Some e -> reference_ e <> 0).
Proof.
  revert c holes. induction fuel as [|fuel IH]; intros c holes Hc Hf ->; [lia|]. cbn [collapse_loop].
  destruct (Z.ltb_spec 0 (c - 1)) as [Hpos|Hpos]; cbn [andb].
  2: { exists 0. replace (c - 1) with 0 by lia. split; [done|]. split; [lia|]. split; [lia|]. lia. }
  destruct (aread_some l (c - 1 - 1) ltac:(lia)) as [e He].
  pose proof (nulls_succ _ _ _ He) as Hs. replace (c - 1 - 1 + 1) with (c - 1) in Hs by lia.
  destruct (Z.eqb_spec (nulls l (c - 1)) 0) as [Hz|Hz]; cbn [negb].
  { exists (c - 1). split; [done|]. split; [lia|]. split; [lia|]. intros e' _ He'.
    rewrite He in He'. injection He' as <-. intros Hn. rewrite Hn in Hs. cbn in Hs.
    pose proof (nulls_bound l (c - 1 - 1)). lia. }
  rewrite He. cbn [mbind option_bind].
  rewrite (GetReference_ok e (serials _ _ He)). cbn [mbind option_bind].
  destruct (Z.eqb_spec (reference_ e) 0) as [Hr|Hr]; cbn [negb].
  - destruct (IH (c - 1) (nulls l (c - 1) - 1)) as (c' & H1 & H2 & H3 & H4); [lia|lia|lia|].
    exists c'. split; [done|]. split; [lia|]. split; [|done]. intros i e' He' Hi.
    destruct (Z.eq_dec i (c - 1 - 1)) as [->|]; [congruence|]. apply (H3 i); [done|lia].
  - exists (c - 1). split; [done|]. split; [lia|]. split; [lia|]. intros. congruence.
Qed.

End loops.

(** ** The invariant and the map of live references *)

Record inv (t : IndirectReferenceTable) (l : list IrtEntry) : Prop := {
  inv_table : table_ t = Some l;
  inv_len : zlength l = max_entries_ t;
  inv_max : max_entries_ t <= 2 ^ 24;
  inv_pages : max_entries_ t mod 512 = 0;
  inv_top : 0 <= top_index_ t <= max_entries_ t;
  inv_kind : kind_ t = kGlobal \/ kind_ t = kWeakGlobal;
  inv_serials : Forall serial_ok l;
  inv_holes : current_num_holes_ t = nulls l (top_index_ t);
  inv_last : forall e, 0 < top_index_ t -> aread l (top_index_ t - 1) = Some e -> reference_ e <> 0;
  inv_above : forall i e, top_index_ t <= i -> aread l i = Some e -> reference_ e = 0;
}.

(** [m] holds the references to the slots of [l] in use. *)
Definition maps (k : IndirectRefKind) (l : list IrtEntry) (m : gmap Z Z) : Prop :=
  forall iref obj, m !! iref = Some obj <->
    exists i e, aread l i = Some e /\ reference_ e = obj /\ obj <> 0 /\ iref = ref_of k i (serial_ e).

Section live.
Context (k : IndirectRefKind) (l : list IrtEntry) (m : gmap Z Z).
Context (Hser : Forall serial_ok l) (Hm : maps k l m).

(** At a slot in use, the map has the reference with the slot's serial number
    and no other. *)
Lemma maps_slot i s e :
  aread l i = Some e -> 0 <= s < 8 ->
  m !! ref_of k i s = if (s =? serial_ e) && negb (reference_ e =? 0) then Some (reference_ e) else None.
Proof.
  intros He Hs. pose proof (serials l Hser _ _ He) as [H1 H2]. change kIRTMaxSerial with 7 in H2.
  destruct (m !! ref_of k i s) as [obj|] eqn:E.
  - apply Hm in E as (i' & e' & He' & <- & Hn & Hr). pose proof (serials l Hser _ _ He') as [H3 H4].
    change kIRTMaxSerial with 7 in H4. apply ref_of_inj in Hr as [-> ->]; [|lia..].
    rewrite He in He'. injection He' as <-. by rewrite Z.eqb_refl, (proj2 (Z.eqb_neq _ _) Hn).
  - destruct (Z.eqb_spec s (serial_ e)) as [->|]; [|done]. destruct (Z.eqb_spec (reference_ e) 0); [done|].
    assert (m !! ref_of k i (serial_ e) = Some (reference_ e)) by (apply Hm; by exists i, e). congruence.
Qed.

Lemma maps_outside i s : 0 <= s < 8 -> ~ (0 <= i < zlength l) -> m !! ref_of k i s = None.
Proof.
  intros Hs Hi. destruct (m !! _) as [obj|] eqn:E; [|done].
  apply Hm in E as (i' & e' & He' & _ & _ & Hr). pose proof (serials l Hser _ _ He') as [H1 H2].
  change kIRTMaxSerial with 7 in H2. apply ref_of_inj in Hr as [-> _]; [|lia..].
  by apply aread_inv in He'.
Qed.

(** Writing a slot. *)
Lemma maps_write i e x :
  aread l i = Some e -> serial_ok x -> reference_ x <> 0 -> (reference_ e = 0 \/ serial_ x = serial_ e) ->
  maps k (<[Z.to_nat i := x]> l) (<[ref_of k i (serial_ x) := reference_ x]> m).
Proof.
  intros He [Hx1 Hx2] Hx Hs iref obj. pose proof (aread_inv _ _ _ He) as Hi.
  change kIRTMaxSerial with 7 in Hx2. rewrite lookup_insert_Some. split.
  - intros [[<- <-]|[Hne Hl]].
    + exists i, x. rewrite aread_insert by lia. by rewrite Z.eqb_refl.
    + apply Hm in Hl as (j & e' & He' & <- & Hn & ->). exists j, e'.
      pose proof (aread_inv _ _ _ He'). rewrite aread_insert by lia. split; [|done].
      destruct (Z.eqb_spec j i) as [->|]; [|done]. rewrite He in He'. injection He' as <-.
      destruct Hs; [done|congruence].
  - intros (j & e' & He' & <- & Hn & ->). pose proof (aread_inv _ _ _ He'). rewrite aread_insert in He' by lia.
    destruct (Z.eqb_spec j i) as [->|]; [injection He' as <-; by left|]. right.
    pose proof (serials l Hser _ _ He') as [H1 H2]. change kIRTMaxSerial with 7 in H2. split.
    + intros Heq%ref_of_inj; lia.
    + apply Hm. by exists j, e'.
Qed.

Lemma maps_clear i e :
  aread l i = Some e -> reference_ e <> 0 ->
  maps k (<[Z.to_nat i := mk_IrtEntry (serial_ e) 0]> l) (delete (ref_of k i (serial_ e)) m).
Proof.
  intros He Hn iref obj. pose proof (aread_inv _ _ _ He) as Hi. rewrite lookup_delete_Some. split.
  - intros [Hne Hl]. apply Hm in Hl as (j & e' & He' & <- & Hn' & ->). exists j, e'.
    pose proof (aread_inv _ _ _ He'). rewrite aread_insert by lia.
    destruct (Z.eqb_spec j i) as [->|]; [|done]. rewrite He in He'. injection He' as <-. done.
  - intros (j & e' & He' & <- & Hn' & ->). pose proof (aread_inv _ _ _ He'). rewrite aread_insert in He' by lia.
    destruct (Z.eqb_spec j i) as [->|]; [injection He' as <-; done|].
    pose proof (serials l Hser _ _ He) as [H1 H2]. pose proof (serials l Hser _ _ He') as [H3 H4].
    change kIRTMaxSerial with 7 in H2, H4. split.
    + intros Heq%ref_of_inj; lia.
    + apply Hm. by exists j, e'.
Qed.

End live.

(** ** The list of live references *)

Fixpoint live (k : IndirectRefKind) (i : Z) (l : list IrtEntry) : list (Z * Z) :=
  match l with
  | [] => []
  | e :: l => if reference_ e =? 0 then live k (i + 1) l else (ref_of k i (serial_ e), reference_ e) :: live k (i + 1) l
  end.

Lemma live_elem k i l r o :
  (r, o) ∈ live k i l <->
  exists j e, l !! j = Some e /\ reference_ e = o /\ o <> 0 /\ r = ref_of k (i + Z.of_nat j) (serial_ e).
Proof.
  revert i. induction l as [|e l IH]; intros i; cbn [live].
  { split; [by intros ?%elem_of_nil|]. intros (j & e & He & _). by rewrite lookup_nil in He. }
  assert ((r, o) ∈ live k (i + 1) l <->
    exists j e', (e :: l) !! S j = Some e' /\ reference_ e' = o /\ o <> 0 /\ r = ref_of k (i + Z.of_nat (S j)) (serial_ e')) as Htl.
  { rewrite IH. split; intros (j & e' & H1 & H2 & H3 & ->); exists j, e';
      (split; [done|]); (split; [done|]); (split; [done|]); f_equal; lia. }
  destruct (Z.eqb_spec (reference_ e) 0) as [Hz|Hz]; rewrite ?elem_of_cons, Htl; split.
  - intros (j & e' & H). by exists (S j), e'.
  - intros ([|j] & e' & He & Ho & Hn & Hr); [injection He as <-; congruence|]. by exists j, e'.
  - intros [[= -> ->]|(j & e' & H)]; [exists 0%nat, e; by rewrite Z.add_0_r|by exists (S j), e'].
  - intros ([|j] & e' & He & Ho & Hn & ->); [left; injection He as <-; by rewrite Z.add_0_r, Ho|].
    right. by exists j, e'.
Qed.

Lemma live_nodup k i l : Forall serial_ok l -> NoDup (live k i l).
Proof.
  revert i. induction l as [|e l IH]; intros i Hs; cbn [live]; [constructor|].
  apply Forall_cons in Hs as [[H1 H2] Hs]. change kIRTMaxSerial with 7 in H2. specialize (IH (i + 1) Hs).
  destruct (Z.eqb_spec (reference_ e) 0); [done|]. constructor; [|done].
  intros (j & e' & He' & _ & _ & Hr)%live_elem.
  pose proof (Forall_lookup_1 _ _ _ _ Hs He') as [H3 H4]. change kIRTMaxSerial with 7 in H4.
  apply ref_of_inj in Hr; lia.
Qed.

Lemma live_permutation k l m : Forall serial_ok l -> maps k l m -> map_to_list m ≡ₚ live k 0 l.
Proof.
  intros Hs Hm. apply NoDup_Permutation; [apply NoDup_map_to_list|by apply live_nodup|].
  intros [r o]. rewrite elem_of_map_to_list, live_elem, (Hm r o). split.
  - intros (i & e & He & H). pose proof (aread_inv _ _ _ He). rewrite aread_lookup in He by lia.
    exists (Z.to_nat i), e. rewrite Z2Nat.id by lia. done.
  - intros (j & e & He & H). exists (Z.of_nat j), e. by rewrite aread_nat.
Qed.

(** The objects of the slots in use, in order. *)
Definition objects (l : list IrtEntry) : list Z := filter (fun r => r <> 0) (reference_ <$> l).

Lemma live_objects k i l : (live k i l).*2 = objects l.
Proof.
  revert i. unfold objects. induction l as [|e l IH]; intros i; [done|]. cbn [live].
  change (reference_ <$> e :: l) with (reference_ e :: (reference_ <$> l)). rewrite filter_cons.
  destruct (Z.eqb_spec (reference_ e) 0).
  - rewrite decide_False by by intros H. apply IH.
  - rewrite decide_True by done. cbn. by rewrite IH.
Qed.

Lemma objects_nulls l : zlength (objects l) + nulls l (zlength l) = zlength l.
Proof.
  unfold nulls, objects. rewrite Nat2Z.id, firstn_all. induction l as [|e l IH]; [done|].
  change (reference_ <$> e :: l) with (reference_ e :: (reference_ <$> l)). rewrite !filter_cons.
  destruct (decide (is_null e)) as [Hz|Hz].
  - rewrite decide_False by (unfold is_null in Hz; by intros H). cbn [length]. lia.
  - rewrite decide_True by done. cbn [length]. lia.
Qed.

Lemma nulls_above l top :
  0 <= top <= zlength l -> (forall i e, top <= i -> aread l i = Some e -> reference_ e = 0) ->
  nulls l (zlength l) = nulls l top + (zlength l - top).
Proof.
  intros Ht Ha.
  enough (forall n : nat, top + Z.of_nat n <= zlength l -> nulls l (top + Z.of_nat n) = nulls l top + Z.of_nat n) as H.
  { specialize (H (Z.to_nat (zlength l - top)) ltac:(lia)).
    replace (top + Z.of_nat (Z.to_nat (zlength l - top))) with (zlength l) in H by lia. lia. }
  induction n as [|n IH]; intros Hn; [rewrite Z.add_0_r; lia|].
  destruct (aread_some l (top + Z.of_nat n)) as [e He]; [lia|].
  replace (top + Z.of_nat (S n)) with (top + Z.of_nat n + 1) by lia.
  rewrite (nulls_succ _ _ e He), (Ha (top + Z.of_nat n) e ltac:(lia) He), IH by lia. cbn [Z.eqb]. lia.
Qed.

(** ** Visiting the objects *)

Definition visit_entry (f : Z -> Z) (e : IrtEntry) : IrtEntry :=
  if reference_ e =? 0 then e else mk_IrtEntry (serial_ e) (f (reference_ e)).

Lemma visit_loop_ok f n pre a b v :
  Forall serial_ok a -> length a = n ->
  visit_loop n f (zlength pre) (pre ++ a ++ b) v = Some (pre ++ (visit_entry f <$> a) ++ b, v ++ objects a).
Proof.
  revert pre a v. induction n as [|n IH]; intros pre [|e a] v Hs Hn; try done.
  { by rewrite app_nil_r. }
  apply Forall_cons in Hs as [He Hs]. injection Hn as Hn. cbn [visit_loop app].
  rewrite (aread_app pre e (a ++ b)). cbn [mbind option_bind]. rewrite GetReference_ok by done. cbn [mbind option_bind].
  replace (zlength pre + 1) with (zlength (pre ++ [visit_entry f e])) by (rewrite length_app; cbn; lia).
  unfold objects. change (reference_ <$> e :: a) with (reference_ e :: (reference_ <$> a)). rewrite filter_cons.
  rewrite fmap_cons. cbn [app]. pose proof (eq_refl (visit_entry f e)) as Hv. unfold visit_entry at 2 in Hv.
  destruct (Z.eqb_spec (reference_ e) 0) as [Hz|Hz]; cbn [negb]; rewrite Hv.
  - rewrite decide_False by by intros H. specialize (IH (pre ++ [e]) a v Hs Hn).
    by rewrite <- !app_assoc in IH; cbn [app] in IH; rewrite IH.
  - rewrite decide_True by done. rewrite AssignReference_ok by done. cbn [mbind option_bind].
    rewrite awrite_app. cbn [mbind option_bind].
    specialize (IH (pre ++ [mk_IrtEntry (serial_ e) (f (reference_ e))]) a (v ++ [reference_ e]) Hs Hn).
    by rewrite <- !app_assoc in IH; cbn [app] in IH; rewrite IH.
Qed.

Section operations.
Context (W : Z) (check_jni : bool) (HW : W = 32 \/ W = 64).

Lemma ToIndirectRef_ok t l i e :
  inv t l -> aread l i = Some e -> ToIndirectRef W t l i = Some (ref_of (kind_ t) i (serial_ e)).
Proof.
  intros Hinv He. pose proof (aread_inv _ _ _ He) as Hi.
  pose proof (serials l (inv_serials _ _ Hinv) _ _ He) as [Hs1 Hs2]. change kIRTMaxSerial with 7 in Hs2.
  pose proof (inv_len _ _ Hinv). pose proof (inv_max _ _ Hinv) as Hmax. change (2 ^ 24) with 16777216 in Hmax.
  unfold ToIndirectRef, EncodeIndirectRef. rewrite (proj2 (Z.ltb_lt i (max_entries_ t))) by lia.
  rewrite He. cbn [dcheck mbind option_bind]. unfold EncodeIndex, EncodeSerial.
  destruct (MinimumBitsToStore_spec 32 i) as (_ & _ & Hb); [by right|unfold is_u; lia|].
  destruct (MinimumBitsToStore_spec 32 (serial_ e)) as (_ & _ & Hc); [by right|unfold is_u; lia|].
  specialize (Hb 24 ltac:(done) ltac:(unfold is_u; lia)). specialize (Hc 3 ltac:(done) ltac:(unfold is_u; lia)).
  change kKindBits with 2. change kIRTSerialBits with 3.
  rewrite (proj2 (Z.leb_le _ (W - 3 - 2))) by lia. rewrite (proj2 (Z.leb_le _ 3)) by lia.
  cbn [dcheck mbind option_bind]. f_equal. rewrite !Z.shiftl_mul_pow2 by lia.
  assert (2 ^ 32 <= 2 ^ W) by (apply Z.pow_le_mono_r; lia).
  rewrite (wrap_id W (i * 2 ^ 2)), (wrap_id W), (wrap_id 32) by (unfold is_u; lia).
  pose proof (kind_range (kind_ t)) as Hk.
  replace (i * 2 ^ 2 * 2 ^ 3) with (Z.shiftl i 5) by (rewrite Z.shiftl_mul_pow2; lia).
  replace (serial_ e * 2 ^ 2) with (Z.shiftl (serial_ e) 2) by (rewrite Z.shiftl_mul_pow2; lia).
  rewrite (Z.lor_comm (Z.shiftl i 5)), <- add_shiftl_lor, Z.lor_comm.
  2: lia. 2: rewrite Z.shiftl_mul_pow2 by lia; unfold is_u; lia.
  replace (Z.shiftl (serial_ e) 2 + i * 2 ^ 5) with (Z.shiftl (serial_ e + i * 2 ^ 3) 2)
    by (rewrite !Z.shiftl_mul_pow2; lia).
  rewrite <- add_shiftl_lor by (unfold is_u; lia). unfold ref_of. lia.
Qed.

Lemma u32_top t l : inv t l -> u32 (top_index_ t) = top_index_ t.
Proof.
  intros Hinv. pose proof (inv_top _ _ Hinv). pose proof (inv_max _ _ Hinv).
  apply wrap_id. unfold is_u. change (2 ^ 24) with 16777216 in *. lia.
Qed.

Lemma holes_checked t l :
  inv t l -> CheckHoleCount l (current_num_holes_ t) (top_index_ t) = Some tt.
Proof.
  intros Hinv. pose proof (inv_top _ _ Hinv). pose proof (inv_len _ _ Hinv).
  apply CheckHoleCount_ok; [apply Hinv|lia|apply Hinv].
Qed.

Lemma IrtEntry_Add_serial e obj : serial_ok e -> serial_ok (IrtEntry_Add e obj).
Proof.
  unfold serial_ok, IrtEntry_Add. change kIRTMaxSerial with 7. intros. cbn [serial_].
  rewrite wrap_id by (unfold is_u; lia). destruct (Z.eqb_spec (serial_ e + 1) 7); lia.
Qed.

(** A slot that is not in use is written: the table keeps its invariant when the
    top and the number of holes follow. *)
Lemma inv_fill t l i e x top holes :
  inv t l -> aread l i = Some e -> reference_ e = 0 -> serial_ok x -> reference_ x <> 0 ->
  (i < top_index_ t - 1 /\ top = top_index_ t /\ holes = current_num_holes_ t - 1 \/
   i = top_index_ t /\ top = top_index_ t + 1 /\ holes = current_num_holes_ t) ->
  inv (mk_Table (Some (<[Z.to_nat i := x]> l)) (kind_ t) top (max_entries_ t) holes) (<[Z.to_nat i := x]> l).
Proof.
  intros Hinv He Hz Hx Hn Hcase. pose proof (aread_inv _ _ _ He) as Hi.
  pose proof (inv_len _ _ Hinv) as Hlen. pose proof (inv_top _ _ Hinv) as Htop.
  pose proof (inv_holes _ _ Hinv) as Hh.
  constructor; cbn [table_ kind_ top_index_ max_entries_ current_num_holes_]; try apply Hinv; try done.
  - by rewrite length_insert.
  - lia.
  - apply Forall_insert; [apply Hinv|done].
  - destruct Hcase as [(? & -> & ->)|(-> & -> & ->)].
    + pose proof (nulls_insert l i (top_index_ t) e x He ltac:(lia)) as Hc.
      rewrite Hz, (proj2 (Z.eqb_neq _ _) Hn), Z.eqb_refl in Hc. lia.
    + rewrite (nulls_succ _ _ x) by (rewrite aread_insert by lia; by rewrite Z.eqb_refl).
      rewrite nulls_insert_above, (proj2 (Z.eqb_neq _ _) Hn) by lia. lia.
  - intros e' Hp He'. rewrite aread_insert in He' by lia. destruct (Z.eqb_spec (top - 1) i).
    + by injection He' as <-.
    + apply (inv_last _ _ Hinv); [lia|]. replace (top_index_ t - 1) with (top - 1) by lia. done.
  - intros j e' Hj He'. rewrite aread_insert in He' by lia. destruct (Z.eqb_spec j i); [lia|].
    apply (inv_above _ _ Hinv j); [lia|done].
Qed.

Lemma find_slot_ok t l :
  inv t l -> top_index_ t < max_entries_ t ->
  exists i e top holes, find_slot t l = Some (i, top, holes) /\ aread l i = Some e /\ reference_ e = 0 /\
    (i < top_index_ t - 1 /\ top = top_index_ t /\ holes = current_num_holes_ t - 1 \/
     i = top_index_ t /\ top = top_index_ t + 1 /\ holes = current_num_holes_ t).
Proof.
  intros Hinv Hlt. pose proof (inv_len _ _ Hinv) as Hlen. pose proof (inv_top _ _ Hinv) as Htop.
  pose proof (inv_holes _ _ Hinv) as Hh. pose proof (inv_serials _ _ Hinv) as Hser.
  unfold find_slot. destruct (Z.ltb_spec 0 (current_num_holes_ t)) as [Hp|Hp].
  - destruct (nulls_witness l (top_index_ t)) as (j & ej & Hj & Hjz & Hjt); [lia|].
    pose proof (aread_inv _ _ _ Hj). destruct (aread_some l (top_index_ t - 1)) as [el Hel]; [lia|].
    pose proof (inv_last _ _ Hinv el ltac:(lia) Hel) as Hne.
    assert (j <> top_index_ t - 1) by congruence.
    rewrite (proj2 (Z.ltb_lt 1 (top_index_ t))) by lia. cbn [dcheck mbind option_bind].
    rewrite Hel. cbn [mbind option_bind]. rewrite (GetReference_ok el) by by eapply serials.
    cbn [mbind option_bind]. rewrite (proj2 (Z.eqb_neq _ _) Hne). cbn [negb dcheck mbind option_bind].
    destruct (scan_loop_ok l Hser (Z.to_nat (top_index_ t)) (top_index_ t - 2)) as (i & e & -> & Hi & He & Hz);
      [lia|apply (nulls_positive l _ j ej); [done|done|lia]|lia|].
    exists i, e, (top_index_ t), (current_num_holes_ t - 1). cbn [mbind option_bind].
    split; [done|]. split; [done|]. split; [done|]. left. split; [lia|done].
  - destruct (aread_some l (top_index_ t)) as [e He]; [lia|].
    exists (top_index_ t), e, (top_index_ t + 1), (current_num_holes_ t).
    split; [done|]. split; [done|]. split; [|by right]. apply (inv_above _ _ Hinv (top_index_ t)); [lia|done].
Qed.

Lemma Add_slot t l obj :
  inv t l -> obj <> 0 -> top_index_ t < max_entries_ t ->
  exists t' i e, let x := IrtEntry_Add e obj in let l' := <[Z.to_nat i := x]> l in
    Add W t obj = Some (t', ref_of (kind_ t) i (serial_ x)) /\ inv t' l' /\
    aread l i = Some e /\ reference_ e = 0 /\ kind_ t' = kind_ t /\ max_entries_ t' = max_entries_ t /\
    top_index_ t' <= top_index_ t + 1 /\ (i < top_index_ t - 1 \/ i = top_index_ t).
Proof.
  intros Hinv Hobj Hlt.
  unfold Add. rewrite (proj2 (Z.eqb_neq _ _) Hobj), (inv_table _ _ Hinv). cbn [negb dcheck mbind option_bind].
  rewrite (proj2 (Z.eqb_neq (top_index_ t) (max_entries_ t))) by lia. rewrite holes_checked by done.
  cbn [mbind option_bind].
  destruct (find_slot_ok t l Hinv Hlt) as (i & e & top & holes & -> & He & Hz & Hcase).
  pose proof (IrtEntry_Add_serial e obj (serials l (inv_serials _ _ Hinv) _ _ He)) as Hx.
  pose proof (inv_fill t l i e (IrtEntry_Add e obj) top holes Hinv He Hz Hx Hobj Hcase) as Hinv'.
  pose proof (aread_inv _ _ _ He) as Hi. cbn [mbind option_bind]. rewrite He. cbn [mbind option_bind].
  rewrite awrite_some by done. cbn [mbind option_bind].
  rewrite (ToIndirectRef_ok _ _ _ (IrtEntry_Add e obj) Hinv') by (rewrite aread_insert by lia; by rewrite Z.eqb_refl).
  cbn [mbind option_bind kind_].
  rewrite (proj2 (Z.eqb_neq (ref_of _ _ _) 0)).
  2: { unfold ref_of. destruct Hx. destruct (inv_kind _ _ Hinv) as [-> | ->]; cbn; lia. }
  eexists _, i, e. cbn [negb dcheck mbind option_bind]. split; [done|]. split; [done|]. split; [done|].
  split; [done|]. cbn. split; [done|]. split; [done|]. lia.
Qed.

Lemma CheckEntry_ok t l iref i e :
  inv t l -> aread l i = Some e ->
  CheckEntry W check_jni t l iref i =
    if ref_of (kind_ t) i (serial_ e) =? iref then Some true else if check_jni then Some false else None.
Proof.
  intros Hinv He. unfold CheckEntry. rewrite (ToIndirectRef_ok _ _ _ e) by done. cbn [mbind option_bind].
  by destruct (_ =? iref).
Qed.

(** Clearing a slot in use below the top leaves a hole. *)
Lemma inv_hole t l i e :
  inv t l -> aread l i = Some e -> reference_ e <> 0 -> i < top_index_ t - 1 ->
  let l' := <[Z.to_nat i := mk_IrtEntry (serial_ e) 0]> l in
  inv (mk_Table (Some l') (kind_ t) (top_index_ t) (max_entries_ t) (current_num_holes_ t + 1)) l'.
Proof.
  intros Hinv He Hn Hlt l'. pose proof (aread_inv _ _ _ He) as Hi. subst l'.
  pose proof (inv_len _ _ Hinv) as Hlen. pose proof (inv_top _ _ Hinv) as Htop.
  pose proof (inv_holes _ _ Hinv) as Hh.
  constructor; cbn [table_ kind_ top_index_ max_entries_ current_num_holes_]; try apply Hinv; try done.
  - by rewrite length_insert.
  - apply Forall_insert; [apply Hinv|]. apply (serials l (inv_serials _ _ Hinv) _ _ He).
  - pose proof (nulls_insert l i (top_index_ t) e (mk_IrtEntry (serial_ e) 0) He ltac:(lia)) as Hc.
    rewrite (proj2 (Z.eqb_neq _ _) Hn) in Hc. cbn in Hc. lia.
  - intros e' Hp He'. rewrite aread_insert in He' by lia. destruct (Z.eqb_spec (top_index_ t - 1) i); [lia|].
    by apply (inv_last _ _ Hinv).
  - intros j e' Hj He'. rewrite aread_insert in He' by lia. destruct (Z.eqb_spec j i); [lia|].
    apply (inv_above _ _ Hinv j); [lia|done].
Qed.

(** Clearing the top slot: the new top is [top], with only holes from there on. *)
Lemma inv_pop t l e top :
  inv t l -> aread l (top_index_ t - 1) = Some e ->
  let l' := <[Z.to_nat (top_index_ t - 1) := mk_IrtEntry (serial_ e) 0]> l in
  0 <= top < top_index_ t ->
  (forall i e, aread l' i = Some e -> top <= i < top_index_ t - 1 -> reference_ e = 0) ->
  (forall e, 0 < top -> aread l' (top - 1) = Some e -> reference_ e <> 0) ->
  inv (mk_Table (Some l') (kind_ t) top (max_entries_ t) (nulls l' top)) l'.
Proof.
  intros Hinv He l' Ht Hholes Hlast. pose proof (aread_inv _ _ _ He) as Hi.
  pose proof (inv_len _ _ Hinv) as Hlen. pose proof (inv_top _ _ Hinv) as Htop.
  constructor; cbn [table_ kind_ top_index_ max_entries_ current_num_holes_]; try apply Hinv; try done.
  - subst l'. by rewrite length_insert.
  - lia.
  - apply Forall_insert; [apply Hinv|]. apply (serials l (inv_serials _ _ Hinv) _ _ He).
  - intros j e' Hj He'. destruct (Z.lt_ge_cases j (top_index_ t - 1)); [apply (Hholes j); [done|lia]|].
    subst l'. rewrite aread_insert in He' by lia.
    destruct (Z.eqb_spec j (top_index_ t - 1)); [by injection He' as <-|].
    apply (inv_above _ _ Hinv j); [lia|done].
Qed.

(** [Remove] of the reference to the top slot. *)
Lemma Remove_top t l e :
  inv t l -> 0 < top_index_ t -> aread l (top_index_ t - 1) = Some e ->
  exists t', let l' := <[Z.to_nat (top_index_ t - 1) := mk_IrtEntry (serial_ e) 0]> l in
    Remove W check_jni t (ref_of (kind_ t) (top_index_ t - 1) (serial_ e)) = Some (t', true) /\
    inv t' l' /\ kind_ t' = kind_ t /\ max_entries_ t' = max_entries_ t /\ top_index_ t' <= top_index_ t.
Proof.
  intros Hinv Hpos He. pose proof (inv_len _ _ Hinv) as Hlen. pose proof (inv_top _ _ Hinv) as Htop.
  pose proof (inv_max _ _ Hinv) as Hmax. pose proof (serials l (inv_serials _ _ Hinv) _ _ He) as Hs.
  destruct (decode_ref_of (kind_ t) (top_index_ t - 1) (serial_ e)) as (Hidx & _);
    [unfold is_u; lia|destruct Hs as [? Hs]; change kIRTMaxSerial with 7 in Hs; lia|].
  unfold Remove. rewrite (u32_top t l Hinv), (inv_table _ _ Hinv), Hidx. cbn [mbind option_bind].
  rewrite (proj2 (Z.leb_gt _ _)), holes_checked, Z.eqb_refl by (done || lia). cbn [mbind option_bind].
  rewrite (CheckEntry_ok _ _ _ _ e), Z.eqb_refl by done. cbn [mbind option_bind negb].
  rewrite He. cbn [mbind option_bind]. rewrite AssignReference_ok by done. cbn [mbind option_bind].
  rewrite awrite_some by lia. cbn [mbind option_bind].
  set (l' := <[Z.to_nat (top_index_ t - 1) := mk_IrtEntry (serial_ e) 0]> l).
  assert (current_num_holes_ t = nulls l' (top_index_ t - 1)) as Hh.
  { unfold l'. rewrite nulls_insert_above, (inv_holes _ _ Hinv) by lia.
    pose proof (nulls_succ _ _ _ He) as Hn. replace (top_index_ t - 1 + 1) with (top_index_ t) in Hn by lia.
    rewrite (proj2 (Z.eqb_neq _ _) (inv_last _ _ Hinv e Hpos He)) in Hn. lia. }
  assert (Forall serial_ok l') as Hser by (apply Forall_insert; [apply Hinv|done]).
  destruct (Z.eqb_spec (current_num_holes_ t) 0) as [Hz|Hz]; cbn [negb].
  - eexists. split; [done|]. rewrite Hz in Hh |- *. rewrite Hh. cbn [kind_ max_entries_ top_index_].
    split; [|repeat split; lia]. apply inv_pop; [done|done|lia|lia|]. intros e' Hp He' Hn.
    pose proof (nulls_positive l' (top_index_ t - 1) _ e' He' Hn ltac:(lia)). lia.
  - destruct (collapse_loop_ok l' Hser (S (Z.to_nat (top_index_ t))) (top_index_ t) (current_num_holes_ t))
      as (c & -> & Hc & H1 & H2); [unfold l'; rewrite length_insert; lia|lia|done|].
    cbn [mbind option_bind].
    rewrite (CheckHoleCount_ok l' Hser) by (done || unfold l'; rewrite length_insert; lia).
    cbn [mbind option_bind]. eexists. split; [done|]. cbn [kind_ max_entries_ top_index_].
    split; [|repeat split; lia]. by apply inv_pop.
Qed.

(** [Remove] of the reference to another slot in use. *)
Lemma Remove_hole t l i e :
  inv t l -> aread l i = Some e -> reference_ e <> 0 -> i < top_index_ t - 1 ->
  exists t', let l' := <[Z.to_nat i := mk_IrtEntry (serial_ e) 0]> l in
    Remove W check_jni t (ref_of (kind_ t) i (serial_ e)) = Some (t', true) /\
    inv t' l' /\ kind_ t' = kind_ t /\ max_entries_ t' = max_entries_ t /\ top_index_ t' <= top_index_ t.
Proof.
  intros Hinv He Hn Hlt. pose proof (inv_len _ _ Hinv) as Hlen. pose proof (inv_top _ _ Hinv) as Htop.
  pose proof (inv_max _ _ Hinv) as Hmax. pose proof (serials l (inv_serials _ _ Hinv) _ _ He) as Hs.
  pose proof (aread_inv _ _ _ He) as Hi.
  destruct (decode_ref_of (kind_ t) i (serial_ e)) as (Hidx & _);
    [unfold is_u; lia|destruct Hs as [? Hs]; change kIRTMaxSerial with 7 in Hs; lia|].
  pose proof (inv_hole t l i e Hinv He Hn Hlt) as Hinv'.
  unfold Remove. rewrite (u32_top t l Hinv), (inv_table _ _ Hinv), Hidx. cbn [mbind option_bind].
  rewrite (proj2 (Z.leb_gt _ _)), holes_checked, (proj2 (Z.eqb_neq i _)) by (done || lia). cbn [mbind option_bind].
  rewrite He. cbn [mbind option_bind]. rewrite (GetReference_ok e Hs). cbn [mbind option_bind].
  rewrite (proj2 (Z.eqb_neq _ _) Hn), (CheckEntry_ok _ _ _ _ e), Z.eqb_refl by done. cbn [mbind option_bind negb].
  rewrite AssignReference_ok by done. cbn [mbind option_bind]. rewrite awrite_some by lia. cbn [mbind option_bind].
  pose proof (holes_checked _ _ Hinv') as Hcheck. cbn [current_num_holes_ top_index_] in Hcheck.
  rewrite Hcheck. cbn [mbind option_bind]. eexists. split; [done|]. split; [done|].
  cbn [kind_ max_entries_ top_index_]. repeat split; lia.
Qed.

Lemma Remove_live t l m iref obj :
  inv t l -> maps (kind_ t) l m -> m !! iref = Some obj ->
  exists t' i e, let l' := <[Z.to_nat i := mk_IrtEntry (serial_ e) 0]> l in
    Remove W check_jni t iref = Some (t', true) /\ inv t' l' /\ maps (kind_ t) l' (delete iref m) /\
    aread l i = Some e /\ iref = ref_of (kind_ t) i (serial_ e) /\
    kind_ t' = kind_ t /\ max_entries_ t' = max_entries_ t /\ top_index_ t' <= top_index_ t.
Proof.
  intros Hinv Hm Hl. apply Hm in Hl as (i & e & He & <- & Hn & ->).
  assert (i < top_index_ t) as Hi.
  { destruct (Z.lt_ge_cases i (top_index_ t)); [done|]. by destruct Hn; apply (inv_above _ _ Hinv i). }
  pose proof (aread_inv _ _ _ He). pose proof (maps_clear _ _ _ (inv_serials _ _ Hinv) Hm i e He Hn) as Hm'.
  destruct (Z.eq_dec i (top_index_ t - 1)) as [->|Hne].
  - destruct (Remove_top t l e Hinv ltac:(lia) He) as (t' & HR & Hinv' & Hrest).
    by exists t', (top_index_ t - 1), e.
  - destruct (Remove_hole t l i e Hinv He Hn ltac:(lia)) as (t' & HR & Hinv' & Hrest). by exists t', i, e.
Qed.

(** A reference that is not live is refused; without CheckJNI it may abort. *)
Lemma Remove_dead t l m iref :
  inv t l -> maps (kind_ t) l m -> 0 <= iref -> m !! iref = None ->
  Remove W check_jni t iref = Some (t, false) \/ (check_jni = false /\ Remove W check_jni t iref = None).
Proof.
  intros Hinv Hm Hp Hd. pose proof (inv_len _ _ Hinv) as Hlen. pose proof (inv_top _ _ Hinv) as Htop.
  unfold Remove. rewrite (u32_top t l Hinv), (inv_table _ _ Hinv). cbn [mbind option_bind].
  set (i := ExtractIndex iref). destruct (Z.leb_spec (top_index_ t) i); [by left|].
  rewrite holes_checked by done. cbn [mbind option_bind].
  assert (0 <= i) by (unfold i; rewrite extract_index by done; lia).
  destruct (aread_some l i) as [e He]; [lia|]. pose proof (serials l (inv_serials _ _ Hinv) _ _ He) as Hs.
  assert (reference_ e <> 0 -> CheckEntry W check_jni t l iref i = if check_jni then Some false else None) as HC.
  { intros Hn. rewrite (CheckEntry_ok _ _ _ _ e) by done. 
    destruct (Z.eqb_spec (ref_of (kind_ t) i (serial_ e)) iref); [|done].
    assert (m !! ref_of (kind_ t) i (serial_ e) = Some (reference_ e)) by (apply Hm; by exists i, e). congruence. }
  destruct (Z.eqb_spec i (top_index_ t - 1)) as [Ei|Ei].
  - rewrite HC; [destruct check_jni; [by left|by right]|]. apply (inv_last _ _ Hinv); [lia|]. by rewrite <- Ei.
  - rewrite He. cbn [mbind option_bind]. rewrite (GetReference_ok e Hs). cbn [mbind option_bind].
    destruct (Z.eqb_spec (reference_ e) 0); [by left|].
    rewrite HC by done. destruct check_jni; [by left|by right].
Qed.

(** [Get], [Update] and [IsValidReference] look at the low bits only. *)
Lemma checked_entry_live t l m iref obj :
  inv t l -> maps (kind_ t) l m -> 0 <= iref -> m !! low_bits iref = Some obj ->
  exists i e, checked_entry t iref = Some (l, i, e) /\ aread l i = Some e /\ reference_ e = obj /\ obj <> 0 /\
    low_bits iref = ref_of (kind_ t) i (serial_ e).
Proof.
  intros Hinv Hm Hp Hl. apply Hm in Hl as (i & e & He & <- & Hn & Hr).
  pose proof (serials l (inv_serials _ _ Hinv) _ _ He) as Hs. pose proof Hs as [Hs1 Hs2].
  change kIRTMaxSerial with 7 in Hs2. pose proof Hr as Hr'. rewrite low_bits_split in Hr' by done.
  pose proof (kind_range (GetIndirectRefKind iref)). pose proof (kind_range (kind_ t)).
  pose proof (decode_serial iref Hp). unfold ref_of in Hr'.
  assert (GetIndirectRefKind iref = kind_ t) as Hk by (apply kind_inj; lia).
  assert (ExtractIndex iref = i) as Hi by lia. assert (DecodeSerial iref = serial_ e) as Hd by lia.
  assert (i < top_index_ t).
  { destruct (Z.lt_ge_cases i (top_index_ t)); [done|]. by destruct Hn; apply (inv_above _ _ Hinv i). }
  exists i, e. unfold checked_entry. rewrite Hk, Hi, Hd, (inv_table _ _ Hinv), bool_decide_true by done.
  rewrite (proj2 (Z.ltb_lt i (top_index_ t))), He by done. cbn [dcheck mbind option_bind].
  rewrite He. cbn [mbind option_bind]. rewrite Z.eqb_refl, (GetReference_ok e Hs). cbn [dcheck mbind option_bind].
  by rewrite (proj2 (Z.eqb_neq _ _) Hn).
Qed.

Lemma checked_entry_dead t l m iref :
  inv t l -> maps (kind_ t) l m -> 0 <= iref -> m !! low_bits iref = None -> checked_entry t iref = None.
Proof.
  intros Hinv Hm Hp Hd. destruct (checked_entry t iref) as [[[l' i] e]|] eqn:E; [|done]. exfalso.
  unfold checked_entry in E. rewrite (inv_table _ _ Hinv) in E.
  case_bool_decide as Hk; [|done]. cbn [dcheck mbind option_bind] in E.
  destruct (_ <? _) in E; [|done]. cbn [dcheck mbind option_bind] in E.
  destruct (aread l (ExtractIndex iref)) as [e0|] eqn:He; [|done]. cbn [mbind option_bind] in E.
  destruct (Z.eqb_spec (DecodeSerial iref) (serial_ e0)) as [Hs|]; [|done].
  pose proof (serials l (inv_serials _ _ Hinv) _ _ He) as Hok. rewrite (GetReference_ok e0 Hok) in E.
  cbn [dcheck mbind option_bind] in E. destruct (Z.eqb_spec (reference_ e0) 0) as [|Hn]; [done|].
  assert (m !! low_bits iref = Some (reference_ e0)); [|congruence].
  apply Hm. exists (ExtractIndex iref), e0. rewrite low_bits_split, Hk, Hs by done. done.
Qed.

Lemma IsValidReference_ok t l m iref :
  inv t l -> maps (kind_ t) l m -> 0 < iref -> GetIndirectRefKind iref = kind_ t ->
  IsValidReference t iref = Some (bool_decide (is_Some (m !! low_bits iref))).
Proof.
  intros Hinv Hm Hp Hk. pose proof (inv_len _ _ Hinv). pose proof (inv_top _ _ Hinv).
  unfold IsValidReference. rewrite (proj2 (Z.eqb_neq iref 0)), bool_decide_true by (done || lia).
  cbn [negb dcheck mbind option_bind]. rewrite (u32_top t l Hinv), (inv_table _ _ Hinv), low_bits_split, Hk by lia.
  assert (0 <= DecodeSerial iref < 8) as Hs by (rewrite decode_serial; lia).
  assert (0 <= ExtractIndex iref) as Hi by (rewrite extract_index; lia).
  cbn [mbind option_bind]. destruct (aread l (ExtractIndex iref)) as [e|] eqn:He.
  - rewrite (maps_slot _ l m (inv_serials _ _ Hinv) Hm _ _ e He Hs). cbn [mbind option_bind].
    rewrite (GetReference_ok e) by (by eapply serials; [apply Hinv|]). cbn [mbind option_bind].
    destruct (Z.leb_spec (top_index_ t) (ExtractIndex iref)) as [Ht|Ht].
    + rewrite (inv_above _ _ Hinv _ _ Ht He), andb_false_r. by rewrite bool_decide_false by apply is_Some_None.
    + destruct (Z.eqb_spec (reference_ e) 0); [rewrite andb_false_r; by rewrite bool_decide_false by apply is_Some_None|].
      rewrite andb_true_r. destruct (_ =? serial_ e); [by rewrite bool_decide_true|].
      by rewrite bool_decide_false by apply is_Some_None.
  - destruct (Z.lt_ge_cases (ExtractIndex iref) (zlength l)) as [|Hge].
    { destruct (aread_some l (ExtractIndex iref)) as [? E]; [lia|congruence]. }
    rewrite (proj2 (Z.leb_le _ _)) by lia.
    rewrite (maps_outside _ l m (inv_serials _ _ Hinv) Hm) by lia.
    by rewrite bool_decide_false by apply is_Some_None.
Qed.

Lemma Update_live t l m iref obj obj' :
  inv t l -> maps (kind_ t) l m -> 0 <= iref -> m !! low_bits iref = Some obj -> obj' <> 0 ->
  exists t' i e, let l' := <[Z.to_nat i := mk_IrtEntry (serial_ e) obj']> l in
    Update t iref obj' = Some t' /\ inv t' l' /\ maps (kind_ t) l' (<[low_bits iref := obj']> m) /\
    aread l i = Some e /\ reference_ e <> 0 /\
    kind_ t' = kind_ t /\ max_entries_ t' = max_entries_ t /\ top_index_ t' = top_index_ t.
Proof.
  intros Hinv Hm Hp Hl Ho. destruct (checked_entry_live t l m iref obj Hinv Hm Hp Hl) as (i & e & HC & He & <- & Hn & Hr).
  pose proof (aread_inv _ _ _ He) as Hi. pose proof (serials l (inv_serials _ _ Hinv) _ _ He) as Hs.
  assert (i < top_index_ t).
  { destruct (Z.lt_ge_cases i (top_index_ t)); [done|]. by destruct Hn; apply (inv_above _ _ Hinv i). }
  unfold Update. rewrite HC. cbn [mbind option_bind]. unfold SetReference.
  rewrite (proj2 (Z.ltb_lt _ _) (proj2 Hs)). cbn [dcheck mbind option_bind]. rewrite awrite_some by done.
  cbn [mbind option_bind]. eexists _, i, e. split; [done|]. cbn [kind_ max_entries_ top_index_].
  split; [|split; [rewrite Hr; by apply (maps_write _ _ _ (inv_serials _ _ Hinv) Hm i e (mk_IrtEntry (serial_ e) obj')); [..|right]|done]].
  constructor; cbn [table_ kind_ top_index_ max_entries_ current_num_holes_]; try apply Hinv; try done.
  - rewrite length_insert. apply Hinv.
  - apply Forall_insert; [apply Hinv|done].
  - pose proof (nulls_insert l i (top_index_ t) e (mk_IrtEntry (serial_ e) obj') He ltac:(lia)) as Hc.
    cbn [reference_] in Hc. rewrite (proj2 (Z.eqb_neq _ _) Hn), (proj2 (Z.eqb_neq _ _) Ho) in Hc.
    rewrite (inv_holes _ _ Hinv). lia.
  - intros e' Hpos He'. pose proof (aread_inv _ _ _ He'). rewrite aread_insert in He' by lia.
    destruct (_ =? i); [by injection He' as <-|]. by apply (inv_last _ _ Hinv).
  - intros j e' Hj He'. pose proof (aread_inv _ _ _ He'). rewrite aread_insert in He' by lia.
    destruct (Z.eqb_spec j i); [lia|]. by apply (inv_above _ _ Hinv j).
Qed.

(** Visiting all entries with [f] maps the objects of the live references. *)
Section visit.
Context (f : Z -> Z) (Hf : forall o, o <> 0 -> f o <> 0).

Lemma visit_serial e : serial_ (visit_entry f e) = serial_ e.
Proof. unfold visit_entry. by destruct (_ =? 0). Qed.

Lemma visit_null e : reference_ (visit_entry f e) = 0 <-> reference_ e = 0.
Proof.
  unfold visit_entry. destruct (Z.eqb_spec (reference_ e) 0) as [|Hn]; [done|].
  split; [|done]. by intros H%Hf.
Qed.

Lemma visit_read l i e' :
  aread (visit_entry f <$> l) i = Some e' <-> exists e, aread l i = Some e /\ e' = visit_entry f e.
Proof.
  unfold aread. destruct (0 <=? i); [|naive_solver]. rewrite list_lookup_fmap.
  destruct (l !! Z.to_nat i); naive_solver.
Qed.

Lemma visit_nulls l k : nulls (visit_entry f <$> l) k = nulls l k.
Proof.
  unfold nulls. rewrite <- fmap_take. generalize (take (Z.to_nat k) l) as a.
  induction a as [|e a IH]; [done|]. rewrite fmap_cons, !filter_cons. destruct (decide (is_null e)).
  - rewrite decide_True by by apply visit_null. cbn [length]. lia.
  - rewrite decide_False by (unfold is_null; by rewrite visit_null). done.
Qed.

Lemma visit_maps k l m : maps k l m -> maps k (visit_entry f <$> l) (f <$> m).
Proof.
  intros Hm iref obj. rewrite lookup_fmap, fmap_Some. split.
  - intros (o & Ho & ->). apply Hm in Ho as (i & e & He & <- & Hn & ->). exists i, (visit_entry f e).
    split; [apply visit_read; by exists e|]. rewrite visit_serial. split; [|split; [by apply Hf|done]].
    unfold visit_entry. by rewrite (proj2 (Z.eqb_neq _ _) Hn).
  - intros (i & e' & (e & He & ->)%visit_read & <- & Hn & ->). rewrite visit_serial. exists (reference_ e).
    assert (reference_ e <> 0) as Hn' by by rewrite <- visit_null.
    split; [apply Hm; by exists i, e|]. unfold visit_entry. by rewrite (proj2 (Z.eqb_neq _ _) Hn').
Qed.

Lemma visit_inv t l :
  inv t l -> let l' := visit_entry f <$> l in
  inv (mk_Table (Some l') (kind_ t) (top_index_ t) (max_entries_ t) (current_num_holes_ t)) l'.
Proof.
  intros Hinv l'.
  constructor; cbn [table_ kind_ top_index_ max_entries_ current_num_holes_]; try apply Hinv; try done.
  - unfold l'. rewrite length_fmap. apply Hinv.
  - apply Forall_fmap. apply (Forall_impl _ _ _ (inv_serials _ _ Hinv)). intros e. cbn. unfold serial_ok.
    by rewrite visit_serial.
  - unfold l'. rewrite visit_nulls. apply Hinv.
  - intros e' Hp (e & He & ->)%visit_read. rewrite visit_null. by apply (inv_last _ _ Hinv).
  - intros i e' Hi (e & He & ->)%visit_read. apply visit_null. by apply (inv_above _ _ Hinv i).
Qed.

(** The slots from the top on are skipped, and are not in use. *)
Lemma visit_all t l :
  inv t l ->
  visit_loop (Z.to_nat (Capacity t)) f 0 l [] = Some (visit_entry f <$> l, objects l).
Proof.
  intros Hinv. pose proof (inv_len _ _ Hinv) as Hlen. pose proof (inv_top _ _ Hinv) as Htop.
  set (n := Z.to_nat (Capacity t)). assert (Z.of_nat n = top_index_ t) as Hn by (unfold n, Capacity; lia).
  pose proof (visit_loop_ok f n [] (take n l) (drop n l) []) as H. change (zlength []) with 0 in H. cbn [app] in H.
  rewrite take_drop in H. rewrite H; [|apply Forall_take, Hinv|rewrite length_take; lia]. clear H.
  assert (Forall is_null (drop n l)) as Habove.
  { apply Forall_lookup. intros j e He. rewrite lookup_drop, <- aread_nat in He.
    eapply (inv_above _ _ Hinv); [|exact He]. lia. }
  f_equal. f_equal.
  - rewrite <- (take_drop n l) at 3. rewrite fmap_app. f_equal. symmetry. apply list_eq. intros j.
    rewrite list_lookup_fmap. destruct (drop n l !! j) as [e|] eqn:E; [|done].
    pose proof (Forall_lookup_1 _ _ _ _ Habove E) as Hz. unfold is_null in Hz. cbn. unfold visit_entry. by rewrite Hz.
  - unfold objects. rewrite <- (take_drop n l) at 2. rewrite fmap_app, filter_app.
    enough (filter (fun r => r <> 0) (reference_ <$> drop n l) = []) as -> by by rewrite app_nil_r.
    clear Hn. induction Habove as [|e a Hz _ IH]; [done|]. rewrite fmap_cons.
    rewrite filter_cons_False; [done|]. by intros H.
Qed.

End visit.

Lemma objects_live k l m : Forall serial_ok l -> maps k l m -> objects l ≡ₚ (map_to_list m).*2.
Proof.
  intros Hs Hm. rewrite <- (live_objects k 0 l). apply fmap_Permutation. symmetry. by apply live_permutation.
Qed.

(** The number of live references. *)
Lemma live_count t l m :
  inv t l -> maps (kind_ t) l m -> NEntriesForGlobal t = Z.of_nat (size m).
Proof.
  intros Hinv Hm. pose proof (inv_len _ _ Hinv) as Hlen. pose proof (inv_top _ _ Hinv) as Htop.
  pose proof (inv_max _ _ Hinv) as Hmax. change (2 ^ 24) with 16777216 in Hmax.
  rewrite <- length_map_to_list, (live_permutation _ _ _ (inv_serials _ _ Hinv) Hm).
  rewrite <- (length_fmap snd), live_objects. pose proof (objects_nulls l).
  pose proof (nulls_above l (top_index_ t) ltac:(lia) (inv_above _ _ Hinv)). unfold NEntriesForGlobal.
  pose proof (inv_holes _ _ Hinv). rewrite swrap_id; [lia|lia|]. unfold is_s. change (2 ^ (32 - 1)) with 2147483648.
  pose proof (nulls_bound l (top_index_ t)). lia.
Qed.

(** [Trim] clears slots that are not in use. *)
Lemma Trim_ok t l m :
  inv t l -> maps (kind_ t) l m ->
  exists t' l', Trim W t = Some t' /\ inv t' l' /\ maps (kind_ t) l' m /\
    kind_ t' = kind_ t /\ max_entries_ t' = max_entries_ t /\ top_index_ t' = top_index_ t /\
    (forall i e, top_index_ t + 512 <= i + 1 \/ top_index_ t = 0 -> aread l' i = Some e -> e = mk_IrtEntry 0 0).
Proof.
  intros Hinv Hm. pose proof (inv_len _ _ Hinv) as Hlen. pose proof (inv_top _ _ Hinv) as Htop.
  pose proof (inv_max _ _ Hinv) as Hmax. change (2 ^ 24) with 16777216 in Hmax. pose proof (inv_pages _ _ Hinv) as Hpg.
  assert (2 ^ 32 <= 2 ^ W) as HpW by (apply Z.pow_le_mono_r; lia). change (2 ^ 32) with 4294967296 in HpW.
  unfold Trim, Capacity. rewrite (inv_table _ _ Hinv). cbn [mbind option_bind].
  change kPageSize with (2 ^ 12). change kIrtEntrySize with 8.
  rewrite RoundUp_spec by (change (2 ^ 12) with 4096; lia). change (2 ^ 12) with 4096.
  set (start := (top_index_ t * 8 + 4096 - 1) / 4096 * 4096).
  assert (top_index_ t * 8 <= start <= max_entries_ t * 8) as Hst by (unfold start; lia).
  assert (start mod 4096 = 0) as Hsm by (unfold start; lia).
  unfold IsAlignedParam. change (4096 - 1) with (Z.ones 12). rewrite !Z.land_ones by lia. change (2 ^ 12) with 4096.
  rewrite (proj2 (Z.leb_le start _)) by lia.
  rewrite (proj2 (Z.eqb_eq ((max_entries_ t * 8) mod 4096) 0)) by lia.
  rewrite (proj2 (Z.eqb_eq ((max_entries_ t * 8 - start) mod 4096) 0)) by lia.
  cbn [dcheck mbind option_bind]. set (keep := Z.to_nat (start / 8)).
  set (l' := take keep l ++ replicate (length l - keep) (mk_IrtEntry 0 0)).
  assert (Hread : forall i, aread l' i = if i <? start / 8 then aread l i else (fun _ => mk_IrtEntry 0 0) <$> aread l i).
  { intros i. unfold aread. destruct (Z.leb_spec 0 i); [|by destruct (_ <? _)]. unfold l'.
    destruct (Z.ltb_spec i (start / 8)).
    - rewrite lookup_app_l by (rewrite length_take; lia). by rewrite lookup_take_lt by lia.
    - rewrite lookup_app_r by (rewrite length_take; lia). rewrite length_take.
      replace (keep `min` length l)%nat with keep by lia.
      destruct (l !! Z.to_nat i) as [e|] eqn:E; cbn.
      + apply lookup_lt_Some in E. apply lookup_replicate_2. lia.
      + apply lookup_ge_None in E. apply lookup_replicate_None. lia. }
  eexists _, l'. split; [done|]. cbn [kind_ max_entries_ top_index_]. split; [|split].
  3: { split; [done|]. split; [done|]. split; [done|]. intros i e Hi He.
    pose proof (aread_inv _ _ _ He). rewrite Hread in He. rewrite (proj2 (Z.ltb_ge i _)) in He by (unfold start; lia).
    destruct (aread l i); cbn in He; [|done]. by injection He as <-. }
  - constructor; cbn [table_ kind_ top_index_ max_entries_ current_num_holes_]; try apply Hinv; try done.
    + unfold l'. rewrite length_app, length_replicate, length_take. lia.
    + unfold l'. apply Forall_app. split; [apply Forall_take, Hinv|]. by apply Forall_replicate.
    + rewrite (inv_holes _ _ Hinv). unfold nulls, l'. rewrite take_app_le by (rewrite length_take; lia).
      by rewrite take_take, Nat.min_l by lia.
    + intros e Hp. rewrite Hread, (proj2 (Z.ltb_lt _ _)) by lia. by apply (inv_last _ _ Hinv).
    + intros i e Hi. rewrite Hread. destruct (_ <? _); [by apply (inv_above _ _ Hinv)|].
      destruct (aread l i); cbn; [|done]. by intros [= <-].
  - intros iref obj. rewrite (Hm iref obj). split; intros (i & e & He & Ho & Hn & Hr); exists i, e;
      rewrite Hread in *; (split; [|done]).
    + assert (i < top_index_ t) by (destruct (Z.lt_ge_cases i (top_index_ t)); [done|];
        pose proof (inv_above _ _ Hinv i e ltac:(done) He); congruence).
      by rewrite (proj2 (Z.ltb_lt _ _)) by lia.
    + destruct (_ <? _); [done|]. destruct (aread l i); cbn in He; [|done]. injection He as <-. by subst obj.
Qed.

(** ** Specification

    The references ever added are counted, and the live ones are a finite map. *)

Record spec_state := mk_spec { adds : Z; refs : gmap Z Z }.

(** [None]: the operation aborts.  A full table refuses an object only after as
    many additions as it has slots.  [k] is the kind of the table and [max] its
    size. *)
Inductive spec (k : IndirectRefKind) (max : Z) : spec_state -> op -> option (spec_state * result) -> Prop :=
  | spec_add a m obj iref :
      obj <> 0 -> iref <> 0 -> GetIndirectRefKind iref = k -> m !! iref = None ->
      spec k max (mk_spec a m) (OpAdd obj) (Some (mk_spec (a + 1) (<[iref := obj]> m), RRef iref))
  | spec_add_full a m obj :
      obj <> 0 -> max <= a -> spec k max (mk_spec a m) (OpAdd obj) (Some (mk_spec a m, RRef 0))
  | spec_add_null a m : spec k max (mk_spec a m) (OpAdd 0) None
  | spec_remove a m iref obj :
      m !! iref = Some obj ->
      spec k max (mk_spec a m) (OpRemove iref) (Some (mk_spec a (delete iref m), RBool true))
  | spec_remove_dead a m iref :
      m !! iref = None -> spec k max (mk_spec a m) (OpRemove iref) (Some (mk_spec a m, RBool false))
  | spec_remove_abort a m iref :
      m !! iref = None -> check_jni = false -> spec k max (mk_spec a m) (OpRemove iref) None
  | spec_get a m iref obj :
      m !! low_bits iref = Some obj -> spec k max (mk_spec a m) (OpGet iref) (Some (mk_spec a m, RObj obj))
  | spec_get_dead a m iref :
      m !! low_bits iref = None -> spec k max (mk_spec a m) (OpGet iref) None
  | spec_update a m iref obj obj' :
      m !! low_bits iref = Some obj ->
      spec k max (mk_spec a m) (OpUpdate iref obj') (Some (mk_spec a (<[low_bits iref := obj']> m), RDone))
  | spec_update_dead a m iref obj' :
      m !! low_bits iref = None -> spec k max (mk_spec a m) (OpUpdate iref obj') None
  | spec_valid a m iref :
      iref <> 0 -> GetIndirectRefKind iref = k ->
      spec k max (mk_spec a m) (OpIsValid iref)
        (Some (mk_spec a m, RBool (bool_decide (is_Some (m !! low_bits iref)))))
  | spec_valid_abort a m iref :
      iref = 0 \/ GetIndirectRefKind iref <> k -> spec k max (mk_spec a m) (OpIsValid iref) None
  | spec_visit a m f objs :
      objs ≡ₚ (map_to_list m).*2 ->
      spec k max (mk_spec a m) (OpVisitRoots f) (Some (mk_spec a (f <$> m), RRoots objs))
  | spec_sweep a m f c :
      k = kWeakGlobal ->
      spec k max (mk_spec a m) (OpSweep f c) (Some (mk_spec a (sweep_entry f c <$> m), RDone))
  | spec_sweep_abort a m f c : k <> kWeakGlobal -> spec k max (mk_spec a m) (OpSweep f c) None
  | spec_trim a m : spec k max (mk_spec a m) OpTrim (Some (mk_spec a m, RDone))
  | spec_entries a m : spec k max (mk_spec a m) OpNEntries (Some (mk_spec a m, RCount (Z.of_nat (size m)))).

(** What callers guarantee: a reference is a pointer, an object that is stored is
    not null, also when the collector moves it. *)
Definition op_ok (o : op) : Prop :=
  match o with
  | OpRemove iref | OpGet iref | OpIsValid iref => is_u W iref
  | OpUpdate iref obj => is_u W iref /\ obj <> 0
  | OpVisitRoots f => forall obj, obj <> 0 -> f obj <> 0
  | OpSweep f c => c <> 0
  | OpAdd _ | OpTrim | OpNEntries => True
  end.

(** How an operation changes a slot: only [Add] starts a new use of it, with the
    next serial number. *)
Definition next_serial (s : Z) : Z := if s + 1 =? kIRTMaxSerial then 0 else s + 1.

Definition is_add (o : op) : bool := match o with OpAdd _ => true | _ => false end.

Definition slots (o : op) (l l' : list IrtEntry) : Prop :=
  forall i e, aread l i = Some e -> exists e', aread l' i = Some e' /\
    ((serial_ e' = serial_ e /\ (reference_ e = 0 -> reference_ e' = 0)) \/
     (is_add o = true /\ serial_ e' = next_serial (serial_ e))).

Lemma slots_refl o l : slots o l l.
Proof. intros i e He. exists e. split; [done|by left]. Qed.

Lemma slots_write o l i e x :
  aread l i = Some e ->
  (serial_ x = serial_ e /\ (reference_ e = 0 -> reference_ x = 0)) \/
  (is_add o = true /\ serial_ x = next_serial (serial_ e)) ->
  slots o l (<[Z.to_nat i := x]> l).
Proof.
  intros He Hx j e' He'. pose proof (aread_inv _ _ _ He). pose proof (aread_inv _ _ _ He').
  rewrite aread_insert by lia. destruct (Z.eqb_spec j i) as [->|]; [|exists e'; split; [done|by left]].
  exists x. rewrite He in He'. by injection He' as <-.
Qed.

Lemma slots_visit o f l : (forall obj, obj <> 0 -> f obj <> 0) -> slots o l (visit_entry f <$> l).
Proof.
  intros Hf i e He. exists (visit_entry f e). split; [apply visit_read; by exists e|]. left.
  rewrite visit_serial, visit_null by done. done.
Qed.

(** The table [t] with slots [l] is in the state [mk_spec a m]. *)
Definition sim (k : IndirectRefKind) (max : Z) (t : IndirectReferenceTable) (l : list IrtEntry) (a : Z) (m : gmap Z Z) : Prop :=
  inv t l /\ maps k l m /\ kind_ t = k /\ max_entries_ t = max /\ top_index_ t <= a.

(** What a step from slots [l] in state [st] has to satisfy. *)
Definition step_ok (k : IndirectRefKind) (max : Z) (l : list IrtEntry) (st : spec_state) (o : op)
    (out : option (IndirectReferenceTable * result)) : Prop :=
  match out with
  | None => spec k max st o None
  | Some (t', r) => exists l' a m, spec k max st o (Some (mk_spec a m, r)) /\ sim k max t' l' a m /\
      (o <> OpTrim -> slots o l l')
  end.

Lemma Add_sim k max t l a m obj :
  sim k max t l a m -> step_ok k max l (mk_spec a m) (OpAdd obj) (perform W check_jni t (OpAdd obj)).
Proof.
  intros (Hinv & Hm & Hk & Hmax & Ha). cbn [perform]. pose proof (inv_top _ _ Hinv).
  destruct (Z.eq_dec obj 0) as [->|Ho]; [constructor|].
  destruct (Z.eq_dec (top_index_ t) (max_entries_ t)) as [Hfull|Hfree].
  - unfold Add. rewrite (proj2 (Z.eqb_neq _ _) Ho), (inv_table _ _ Hinv), (proj2 (Z.eqb_eq _ _) Hfull).
    cbn [negb dcheck mbind option_bind]. exists l, a, m. split; [constructor; [done|lia]|]. split; [done|].
    intros _. apply slots_refl.
  - destruct (Add_slot t l obj Hinv Ho ltac:(lia)) as (t' & i & e & HA & Hinv' & He & Hz & Hk' & Hm' & Ht' & _).
    rewrite HA. cbn [mbind option_bind]. pose proof (inv_serials _ _ Hinv) as Hser.
    pose proof (serials l Hser _ _ He) as Hs. pose proof (IrtEntry_Add_serial e obj Hs) as Hx.
    pose proof (aread_inv _ _ _ He). pose proof (inv_len _ _ Hinv). pose proof (inv_max _ _ Hinv) as Hbig.
    destruct (decode_ref_of (kind_ t) i (serial_ (IrtEntry_Add e obj))) as (_ & _ & Hkind & _ & _);
      [unfold is_u; lia|destruct Hx as [? Hx]; change kIRTMaxSerial with 7 in Hx; lia|].
    subst k. eexists _, (a + 1), _. split; [constructor; [done| |done|]|split].
    + unfold ref_of. destruct Hx. destruct (inv_kind _ _ Hinv) as [-> | ->]; cbn; lia.
    + rewrite (maps_slot _ l m Hser Hm _ _ e He), Hz, andb_false_r; [done|].
      destruct Hx as [? Hx]. change kIRTMaxSerial with 7 in Hx. lia.
    + split; [exact Hinv'|]. split; [|split; [done|split; [congruence|lia]]].
      apply (maps_write _ l m Hser Hm i e (IrtEntry_Add e obj)); [done|done|done|by left].
    + intros _. apply (slots_write _ l i e); [done|]. right. split; [done|]. destruct Hs as [? Hs].
      change kIRTMaxSerial with 7 in Hs. unfold IrtEntry_Add, next_serial. cbn [serial_].
      by rewrite wrap_id by (unfold is_u; lia).
Qed.

Lemma Remove_sim k max t l a m iref :
  sim k max t l a m -> is_u W iref ->
  step_ok k max l (mk_spec a m) (OpRemove iref) (perform W check_jni t (OpRemove iref)).
Proof.
  intros (Hinv & Hm & Hk & Hmax & Ha) [Hp _]. cbn [perform]. subst k.
  destruct (m !! iref) as [obj|] eqn:Hl.
  - destruct (Remove_live t l m iref obj Hinv Hm Hl) as (t' & i & e & -> & Hinv' & Hm' & He & -> & Hk' & Hmx & Ht).
    cbn [mbind option_bind]. eexists (<[Z.to_nat i := mk_IrtEntry (serial_ e) 0]> l), a, _.
    split; [by econstructor|]. split; [|intros _; apply (slots_write _ l i e); [done|by left]].
    split; [exact Hinv'|]. split; [done|]. split; [done|]. split; [congruence|lia].
  - destruct (Remove_dead t l m iref Hinv Hm Hp Hl) as [-> |[HC ->]]; cbn [mbind option_bind].
    + exists l, a, m. split; [by constructor|]. split; [done|]. intros _. apply slots_refl.
    + by constructor.
Qed.

Lemma visit_sim k max t l a m f o r m' :
  sim k max t l a m -> (forall obj, obj <> 0 -> f obj <> 0) -> m' = f <$> m ->
  spec k max (mk_spec a m) o (Some (mk_spec a m', r)) ->
  step_ok k max l (mk_spec a m) o
    (Some (mk_Table (Some (visit_entry f <$> l)) (kind_ t) (top_index_ t) (max_entries_ t) (current_num_holes_ t), r)).
Proof.
  intros (Hinv & Hm & Hk & Hmax & Ha) Hf -> Hspec. exists (visit_entry f <$> l), a, (f <$> m). split; [done|].
  split; [|intros _; by apply slots_visit]. split; [by apply visit_inv|]. split; [by apply visit_maps|]. done.
Qed.

Lemma perform_sim k max t l a m o :
  sim k max t l a m -> op_ok o -> step_ok k max l (mk_spec a m) o (perform W check_jni t o).
Proof.
  intros Hsim Hok. pose proof Hsim as (Hinv & Hm & Hk & Hmax & Ha). subst k.
  assert (Hsame : forall o r, spec (kind_ t) max (mk_spec a m) o (Some (mk_spec a m, r)) ->
    step_ok (kind_ t) max l (mk_spec a m) o (Some (t, r))).
  { intros o' r Hs. exists l, a, m. split; [done|]. split; [done|]. intros _. apply slots_refl. }
  destruct o as [obj|iref|iref|iref obj|iref|f|f c| |]; cbn [op_ok] in Hok.
  - by apply Add_sim.
  - by apply Remove_sim.
  - cbn [perform]. unfold Get. destruct Hok as [Hp _]. destruct (m !! low_bits iref) as [obj|] eqn:Hl.
    + destruct (checked_entry_live t l m iref obj Hinv Hm Hp Hl) as (i & e & -> & He & <- & _).
      cbn [mbind option_bind]. rewrite (GetReference_ok e) by (eapply serials; [apply Hinv|done]).
      apply Hsame. by constructor.
    + rewrite (checked_entry_dead t l m) by done. by constructor.
  - cbn [perform]. destruct Hok as [[Hp _] Ho]. destruct (m !! low_bits iref) as [o|] eqn:Hl.
    + destruct (Update_live t l m iref o obj Hinv Hm Hp Hl Ho) as (t' & i & e & -> & Hinv' & Hm' & He & Hn & Hk' & Hmx & Ht).
      cbn [mbind option_bind]. eexists (<[Z.to_nat i := mk_IrtEntry (serial_ e) obj]> l), a, _.
      split; [by econstructor|]. split.
      * split; [exact Hinv'|]. split; [done|]. split; [done|]. split; [congruence|lia].
      * intros _. apply (slots_write _ l i e); [done|]. by left.
    + unfold Update. rewrite (checked_entry_dead t l m) by done. by constructor.
  - cbn [perform]. destruct Hok as [Hp _]. destruct (Z.eq_dec iref 0) as [->|Hn0]; [constructor; by left|].
    destruct (decide (GetIndirectRefKind iref = kind_ t)) as [Hk|Hk].
    + rewrite (IsValidReference_ok t l m) by (done || lia). apply Hsame. by constructor.
    + unfold IsValidReference. rewrite (bool_decide_false (_ = _)), (proj2 (Z.eqb_neq iref 0)) by done.
      constructor. by right.
  - cbn [perform]. unfold VisitRoots. rewrite (inv_table _ _ Hinv). cbn [mbind option_bind].
    rewrite (visit_all f t l Hinv). cbn [mbind option_bind]. apply (visit_sim _ _ _ _ _ m f _ _ (f <$> m)); [done..|].
    constructor. apply (objects_live (kind_ t)); [apply Hinv|done].
  - cbn [perform]. unfold SweepJniWeakGlobals.
    destruct (decide (kind_ t = kWeakGlobal)) as [Hk|Hk]; [rewrite bool_decide_true by done|rewrite bool_decide_false by done; by constructor].
    rewrite (inv_table _ _ Hinv). cbn [dcheck mbind option_bind].
    rewrite (visit_all _ t l Hinv). cbn [mbind option_bind].
    apply (visit_sim _ _ _ _ _ m (sweep_entry f c) _ _ (sweep_entry f c <$> m)); [done| |done|by constructor].
    intros obj _. unfold sweep_entry. by destruct (Z.eqb_spec (f obj) 0).
  - cbn [perform]. destruct (Trim_ok t l m Hinv Hm) as (t' & l' & -> & Hinv' & Hm' & Hk' & Hmx & Ht & _).
    cbn [mbind option_bind]. exists l', a, m. split; [constructor|]. split; [|done].
    split; [done|]. split; [done|]. split; [done|]. split; [congruence|lia].
  - cbn [perform]. rewrite (live_count t l m Hinv Hm). apply Hsame. constructor.
Qed.

(** ** Sequences of operations *)

(** The results, up to an abort, and the table at the end. *)
Fixpoint runs (t : IndirectReferenceTable) (ops : list op) : list (option result) :=
  match ops with
  | [] => []
  | o :: ops =>
      match perform W check_jni t o with
      | None => [None]
      | Some (t', r) => Some r :: runs t' ops
      end
  end.

Fixpoint exec (t : IndirectReferenceTable) (ops : list op) : option IndirectReferenceTable :=
  match ops with
  | [] => Some t
  | o :: ops => '(t', _) ← perform W check_jni t o; exec t' ops
  end.

Inductive spec_runs (k : IndirectRefKind) (max : Z) : spec_state -> list op -> list (option result) -> Prop :=
  | spec_runs_nil st : spec_runs k max st [] []
  | spec_runs_abort st o ops : spec k max st o None -> spec_runs k max st (o :: ops) [None]
  | spec_runs_cons st o ops st' r rs :
      spec k max st o (Some (st', r)) -> spec_runs k max st' ops rs -> spec_runs k max st (o :: ops) (Some r :: rs).

Lemma runs_sim k max t l a m ops :
  sim k max t l a m -> Forall op_ok ops -> spec_runs k max (mk_spec a m) ops (runs t ops).
Proof.
  revert t l a m. induction ops as [|o ops IH]; intros t l a m Hsim Hok; cbn [runs]; [constructor|].
  apply Forall_cons in Hok as [Ho Hok]. pose proof (perform_sim k max t l a m o Hsim Ho) as Hp.
  destruct (perform W check_jni t o) as [[t' r]|]; [|by constructor].
  destruct Hp as (l' & a' & m' & Hs & Hsim' & _). econstructor; [done|]. by apply (IH _ l').
Qed.

Lemma exec_sim k max t l a m ops t' :
  sim k max t l a m -> Forall op_ok ops -> exec t ops = Some t' -> exists l' a' m', sim k max t' l' a' m'.
Proof.
  revert t l a m. induction ops as [|o ops IH]; intros t l a m Hsim Hok He; cbn [exec] in He.
  { injection He as <-. by exists l, a, m. }
  apply Forall_cons in Hok as [Ho Hok]. pose proof (perform_sim k max t l a m o Hsim Ho) as Hp.
  destruct (perform W check_jni t o) as [[t1 r]|]; [|done]. destruct Hp as (l' & a' & m' & _ & Hsim' & _).
  by apply (IH t1 l' a' m').
Qed.

(** A new table. *)
Lemma Initialize_sim kind max_count :
  kind = kGlobal \/ kind = kWeakGlobal -> 0 <= max_count <= 2 ^ 24 ->
  exists t0 t l, IndirectReferenceTable_new kind = Some t0 /\ Initialize W t0 max_count true = Some (t, true) /\
    max_count <= max_entries_ t /\ sim kind (max_entries_ t) t l 0 ∅.
Proof.
  intros Hk Hc. change (2 ^ 24) with 16777216 in Hc.
  assert (2 ^ 32 <= 2 ^ W) as HpW by (apply Z.pow_le_mono_r; lia). change (2 ^ 32) with 4294967296 in HpW.
  exists (mk_Table None kind 0 0 0). unfold Initialize. change (kMaxTableSizeInBytes / kIrtEntrySize) with 16777216.
  rewrite (proj2 (Z.leb_le max_count _)) by lia. cbn [dcheck mbind option_bind negb].
  change kPageSize with (2 ^ 12). change kIrtEntrySize with 8.
  rewrite RoundUp_spec by (change (2 ^ 12) with 4096; lia). change (2 ^ 12) with 4096.
  set (max := (max_count * 8 + 4096 - 1) / 4096 * 4096 / 8).
  assert (max_count <= max <= 16777216 /\ max mod 512 = 0) as [Hmax Hpg] by (unfold max; lia).
  set (l := replicate (Z.to_nat max) (mk_IrtEntry 0 0)).
  assert (Hz : forall i e, aread l i = Some e -> e = mk_IrtEntry 0 0).
  { intros i e He. pose proof (aread_inv _ _ _ He). rewrite aread_lookup in He by lia.
    by apply lookup_replicate in He as [-> _]. }
  eexists _, l. split; [by destruct Hk as [-> | ->]|]. split; [done|]. cbn [max_entries_]. split; [lia|].
  split; [|split; [|done]].
  - constructor; cbn [table_ kind_ top_index_ max_entries_ current_num_holes_]; try done.
    + unfold l. rewrite length_replicate. lia.
    + change (2 ^ 24) with 16777216. lia.
    + lia.
    + by apply Forall_replicate.
    + by intros i e _ ->%Hz.
  - intros iref obj. rewrite lookup_empty. split; [done|]. by intros (i & e & ->%Hz & <- & Hn & _).
Qed.

(** C19: The table of global references implements a finite map from references
    to objects.  For every kind, size and sequence of operations on a new
    table: [Add] returns a reference that is not live, not null and of the
    table's kind, and fails only after at least as many additions as the table
    has slots; [Remove] deletes exactly the live references and refuses every
    other one, or aborts if CheckJNI is off; [Get], [Update] and
    [IsValidReference] look a reference up by its low 37 bits, which are all of
    them for 32-bit pointers: they act on the object of the live reference with
    these bits, and abort or answer false if there is none; the collector visits
    the object of every live reference exactly once. *)
Theorem global_table_refines kind max_count ops :
  kind = kGlobal \/ kind = kWeakGlobal -> 0 <= max_count <= 2 ^ 24 -> Forall op_ok ops ->
  exists t0 t, IndirectReferenceTable_new kind = Some t0 /\ Initialize W t0 max_count true = Some (t, true) /\
    max_count <= max_entries_ t /\ spec_runs kind (max_entries_ t) (mk_spec 0 ∅) ops (runs t ops).
Proof.
  intros Hk Hc Hok. destruct (Initialize_sim kind max_count Hk Hc) as (t0 & t & l & H1 & H2 & H3 & Hsim).
  exists t0, t. split; [done|]. split; [done|]. split; [done|]. by apply (runs_sim _ _ _ l).
Qed.

(** ** Stale references *)

(** A table that operations on a new table lead to. *)
Definition reachable (kind : IndirectRefKind) (t : IndirectReferenceTable) : Prop :=
  exists max_count t0 t1 ops, 0 <= max_count <= 2 ^ 24 /\ IndirectReferenceTable_new kind = Some t0 /\
    Initialize W t0 max_count true = Some (t1, true) /\ Forall op_ok ops /\ exec t1 ops = Some t.

Lemma reachable_sim kind t : reachable kind t -> exists max l a m, sim kind max t l a m.
Proof.
  intros (max_count & t0 & t1 & ops & Hc & H0 & H1 & Hok & He).
  assert (kind = kGlobal \/ kind = kWeakGlobal) as Hk by (destruct kind; try done; auto).
  destruct (Initialize_sim kind max_count Hk Hc) as (t0' & t1' & l & H0' & H1' & _ & Hsim).
  rewrite H0 in H0'. injection H0' as <-. rewrite H1 in H1'. injection H1' as <-.
  exists (max_entries_ t1). by apply (exec_sim _ _ t1 l 0 ∅ ops).
Qed.

Definition count_adds (ops : list op) : Z := zlength (filter (fun o => is_add o = true) ops).

(** Slot [i] was used [c] times since it was cleared with serial number [s]. *)
Definition uses (l : list IrtEntry) (i s c : Z) : Prop :=
  exists e, aread l i = Some e /\ serial_ e = (s + c) mod 7 /\ (c = 0 -> reference_ e = 0).

Lemma uses_step o l l' i s c :
  Forall serial_ok l -> slots o l l' -> 0 <= c -> uses l i s c ->
  exists c', uses l' i s c' /\ c <= c' <= c + (if is_add o then 1 else 0).
Proof.
  intros Hser Hsl Hc (e & He & Hs & Hz). destruct (Hsl i e He) as (e' & He' & [[H1 H2]|[H1 H2]]).
  - exists c. split; [|destruct (is_add o); lia]. exists e'. split; [done|]. split; [congruence|]. auto.
  - exists (c + 1). rewrite H1. split; [|lia]. exists e'. split; [done|]. split; [|lia].
    pose proof (serials l Hser _ _ He) as [H3 H4]. change kIRTMaxSerial with 7 in H4. rewrite H2. unfold next_serial.
    change kIRTMaxSerial with 7. destruct (Z.eqb_spec (serial_ e + 1) 7); lia.
Qed.

Lemma uses_exec k max t l a m ops t' i s c :
  sim k max t l a m -> Forall op_ok ops -> OpTrim ∉ ops -> exec t ops = Some t' -> 0 <= c -> uses l i s c ->
  exists l' a' m' c', sim k max t' l' a' m' /\ uses l' i s c' /\ c <= c' <= c + count_adds ops.
Proof.
  unfold count_adds. revert t l a m c. induction ops as [|o ops IH]; intros t l a m c Hsim Hok Hnt He Hc Hu; cbn [exec] in He.
  { injection He as <-. exists l, a, m, c. split; [done|]. split; [done|]. cbn. lia. }
  apply Forall_cons in Hok as [Ho Hok]. apply not_elem_of_cons in Hnt as [Hn Hnt].
  pose proof (perform_sim k max t l a m o Hsim Ho) as Hp.
  destruct (perform W check_jni t o) as [[t1 r]|]; [|done].
  destruct Hp as (l1 & a1 & m1 & _ & Hsim1 & Hsl). specialize (Hsl (not_eq_sym Hn)).
  destruct (uses_step o l l1 i s c) as (c1 & Hu1 & Hc1); [apply Hsim|done..|].
  destruct (IH t1 l1 a1 m1 c1 Hsim1 Hok Hnt He ltac:(lia) Hu1) as (l' & a' & m' & c' & Hsim' & Hu' & Hc').
  exists l', a', m', c'. split; [done|]. split; [done|]. rewrite filter_cons.
  destruct (is_add o) eqn:Eo; [rewrite decide_True by done|rewrite decide_False by done]; cbn [length]; lia.
Qed.

(** C20: A deleted global reference is recognized as stale.  After [Remove] has
    deleted a reference, it stays invalid and cannot be deleted again during any
    operations with at most six additions and no [Trim]: the three bits of the
    serial number distinguish seven uses of a slot. *)
Theorem stale_reference_detected kind t iref t1 ops t2 :
  reachable kind t -> is_u W iref -> Remove W check_jni t iref = Some (t1, true) ->
  Forall op_ok ops -> OpTrim ∉ ops -> count_adds ops <= 6 -> exec t1 ops = Some t2 ->
  IsValidReference t2 iref = Some false /\
  (Remove W check_jni t2 iref = Some (t2, false) \/ Remove W check_jni t2 iref = None).
Proof.
  intros Hr Hi HR Hok Hnt Hadds He. apply reachable_sim in Hr as (max & l & a & m & Hsim).
  pose proof Hsim as (Hinv & Hm & Hk & Hmax & Ha). subst kind.
  destruct (m !! iref) as [obj|] eqn:Hl.
  2: { destruct (Remove_dead t l m iref Hinv Hm (proj1 Hi) Hl) as [E|[_ E]]; congruence. }
  destruct (Remove_live t l m iref obj Hinv Hm Hl) as (t' & i & e & E & Hinv' & Hm' & Hread & -> & Hk' & Hmx & Ht).
  rewrite E in HR. injection HR as ->. set (l1 := <[Z.to_nat i := mk_IrtEntry (serial_ e) 0]> l) in *.
  pose proof (serials l (inv_serials _ _ Hinv) _ _ Hread) as [Hs1 Hs2]. change kIRTMaxSerial with 7 in Hs2.
  pose proof (aread_inv _ _ _ Hread) as Hb. pose proof (inv_len _ _ Hinv). pose proof (inv_max _ _ Hinv).
  assert (uses l1 i (serial_ e) 0) as Hu.
  { exists (mk_IrtEntry (serial_ e) 0). split; [unfold l1; rewrite aread_insert by lia; by rewrite Z.eqb_refl|].
    split; [cbn; lia|done]. }
  destruct (uses_exec (kind_ t) max t1 l1 a (delete (ref_of (kind_ t) i (serial_ e)) m) ops t2 i (serial_ e) 0)
    as (l2 & a2 & m2 & c & Hsim2 & (e2 & He2 & Hs & Hz) & Hc);
    [split; [done|]; split; [done|]; split; [done|]; split; [congruence|lia]|done|done|done|lia|done|].
  pose proof Hsim2 as (Hinv2 & Hm2 & Hk2 & _). rewrite <- Hk2 in Hm2.
  destruct (decode_ref_of (kind_ t) i (serial_ e)) as (_ & _ & Hkind & Hpos & Hlow); [unfold is_u; lia|lia|].
  assert (m2 !! ref_of (kind_ t2) i (serial_ e) = None) as Hd.
  { rewrite (maps_slot _ l2 m2 (inv_serials _ _ Hinv2) Hm2 _ _ e2 He2) by lia.
    destruct (Z.eqb_spec (serial_ e) (serial_ e2)); [|done]. rewrite Hz by lia. done. }
  rewrite Hk2 in Hd. split.
  - rewrite (IsValidReference_ok t2 l2 m2); [|done|done| |congruence].
    + by rewrite Hlow, Hd, bool_decide_false by apply is_Some_None.
    + unfold ref_of. destruct (inv_kind _ _ Hinv) as [-> | ->]; cbn; lia.
  - destruct (Remove_dead t2 l2 m2 (ref_of (kind_ t) i (serial_ e)) Hinv2 Hm2 Hpos Hd) as [->|[_ ->]]; auto.
Qed.

(** ** Released pages *)

(** [Trim] and [Add] on a table without references: the new reference is the one
    of the first use of slot 0. *)
Lemma Trim_Add k max t l a m obj :
  sim k max t l a m -> Capacity t = 0 -> 0 < max -> obj <> 0 ->
  exists t1 t2 l2, Trim W t = Some t1 /\ Add W t1 obj = Some (t2, ref_of k 0 1) /\
    sim k max t2 l2 (a + 1) {[ref_of k 0 1 := obj]}.
Proof.
  intros (Hinv & Hm & <- & <- & Ha) Hc Hmax Ho. unfold Capacity in Hc.
  destruct (Trim_ok t l m Hinv Hm) as (t1 & l1 & HT & Hinv1 & Hm1 & Hk1 & Hmx1 & Ht1 & Hzero).
  destruct (Add_slot t1 l1 obj Hinv1 Ho ltac:(lia)) as (t2 & i & e & HA & Hinv2 & He & Hz & Hk2 & Hmx2 & Ht2 & Hi).
  pose proof (aread_inv _ _ _ He). assert (i = 0) as -> by lia. pose proof (Hzero 0 e (or_intror Hc) He) as ->.
  exists t1, t2, (<[Z.to_nat 0 := IrtEntry_Add (mk_IrtEntry 0 0) obj]> l1). split; [done|].
  split; [rewrite HA, Hk1; done|]. split; [done|]. split; [|split; [congruence|split; [congruence|lia]]].
  assert (m = ∅) as ->.
  { apply map_empty. intros r. destruct (m !! r) as [o|] eqn:E; [|done]. apply Hm in E as (j & ej & Hej & <- & Hn & _).
    destruct Hn. pose proof (aread_inv _ _ _ Hej). apply (inv_above _ _ Hinv j); [lia|done]. }
  apply (maps_write _ l1 ∅ (inv_serials _ _ Hinv1) Hm1 0 (mk_IrtEntry 0 0) (IrtEntry_Add (mk_IrtEntry 0 0) obj));
    [done|split; done|done|by left].
Qed.

(** Removing the only reference leaves no entries. *)
Lemma Remove_only k max t l a r obj :
  sim k max t l a {[r := obj]} ->
  exists t' l', Remove W check_jni t r = Some (t', true) /\ sim k max t' l' a ∅ /\ Capacity t' = 0.
Proof.
  intros (Hinv & Hm & <- & <- & Ha).
  destruct (Remove_live t l _ r obj Hinv Hm) as (t' & i & e & HR & Hinv' & Hm' & _ & _ & Hk & Hmx & Ht);
    [apply lookup_singleton_eq|].
  rewrite delete_singleton_eq in Hm'. eexists t', _. split; [done|].
  split; [split; [exact Hinv'|]; split; [done|]; split; [done|]; split; [done|lia]|].
  unfold Capacity. pose proof (inv_top _ _ Hinv') as Htop. destruct (Z.eq_dec (top_index_ t') 0) as [|Hne]; [done|].
  destruct (aread_some (<[Z.to_nat i := mk_IrtEntry (serial_ e) 0]> l) (top_index_ t' - 1)) as [x Hx];
    [pose proof (inv_len _ _ Hinv'); lia|].
  pose proof (inv_last _ _ Hinv' x ltac:(lia) Hx) as Hn.
  assert ((∅ : gmap Z Z) !! ref_of (kind_ t) (top_index_ t' - 1) (serial_ x) = Some (reference_ x)) as E
    by (apply Hm'; by exists (top_index_ t' - 1), x).
  by rewrite lookup_empty in E.
Qed.

(** C40: [Trim] forgets serial numbers.  In every table without entries that
    operations lead to, and for all objects: trim the table, add an object,
    delete its reference, trim again and add another object.  The second
    reference is the first one, so the deleted reference now gives the second
    object. *)
Theorem Trim_reuses_references kind t obj obj' :
  reachable kind t -> Capacity t = 0 -> 0 < max_entries_ t -> obj <> 0 -> obj' <> 0 ->
  exists iref t1 t2 t3 t4 t5, Trim W t = Some t1 /\ Add W t1 obj = Some (t2, iref) /\
    Remove W check_jni t2 iref = Some (t3, true) /\
    Trim W t3 = Some t4 /\ Add W t4 obj' = Some (t5, iref) /\ Get t5 iref = Some obj'.
Proof.
  intros Hr Hc Hmax Ho Ho'. apply reachable_sim in Hr as (max & l & a & m & Hsim).
  pose proof Hsim as (_ & _ & _ & Hmx & _). rewrite Hmx in Hmax.
  destruct (Trim_Add _ _ _ _ _ _ obj Hsim Hc Hmax Ho) as (t1 & t2 & l2 & H1 & H2 & Hsim2).
  destruct (Remove_only _ _ _ _ _ _ _ Hsim2) as (t3 & l3 & H3 & Hsim3 & Hc3).
  destruct (Trim_Add _ _ _ _ _ _ obj' Hsim3 Hc3 Hmax Ho') as (t4 & t5 & l5 & H4 & H5 & Hsim5).
  exists (ref_of kind 0 1), t1, t2, t3, t4, t5. do 5 (split; [done|]).
  destruct Hsim5 as (Hinv & Hm & Hk & _). rewrite <- Hk in *.
  destruct (decode_ref_of (kind_ t5) 0 1) as (_ & _ & _ & Hpos & Hlow); [done|lia|]. unfold Get.
  destruct (checked_entry_live t5 l5 _ _ obj' Hinv Hm Hpos) as (i & e & -> & He & Hobj & _);
    [rewrite Hlow; apply lookup_singleton_eq|].
  cbn [mbind option_bind]. rewrite (GetReference_ok e) by (eapply serials; [apply Hinv|done]). by rewrite Hobj.
Qed.

(** [IsValidReference] and [Get] do not see the bits above the low 37. *)
Lemma lookups_ignore_high_bits t iref n :
  0 < iref -> 0 <= n ->
  IsValidReference t (iref + n * 2 ^ 37) = IsValidReference t iref /\ Get t (iref + n * 2 ^ 37) = Get t iref.
Proof.
  intros Hi Hn. change (2 ^ 37) with 137438953472.
  assert (ExtractIndex (iref + n * 137438953472) = ExtractIndex iref) as E1.
  { rewrite !extract_index by lia. replace ((iref + n * 137438953472) / 32) with (iref / 32 + n * 2 ^ 32) by lia.
    by rewrite Z.mod_add. }
  assert (DecodeSerial (iref + n * 137438953472) = DecodeSerial iref) as E2 by (rewrite !decode_serial by lia; lia).
  assert (GetIndirectRefKind (iref + n * 137438953472) = GetIndirectRefKind iref) as E3
    by (apply kind_inj; rewrite !decode_kind; lia).
  unfold IsValidReference, Get, checked_entry. rewrite E1, E2, E3.
  by rewrite (proj2 (Z.eqb_neq (iref + _) 0)), (proj2 (Z.eqb_neq iref 0)) by lia.
Qed.

End operations.

(** A run with all operations: two objects, a hole that is filled again under
    the next serial number, a sweep and a stale reference. *)
Definition sample_ops : list op :=
  [OpAdd 0x1000; OpAdd 0x2000; OpRemove 7; OpIsValid 7; OpAdd 0x3000; OpGet 0xb; OpUpdate 0xb 0x4000; OpRemove 7;
   OpSweep (fun o => if o =? 0x2000 then 0 else o) 0x8888; OpVisitRoots (fun o => 2 * o); OpTrim; OpNEntries].

Lemma sample_ops_ok : Forall (op_ok 64) sample_ops.
Proof.
  unfold sample_ops. repeat (apply Forall_cons_2; [try done|]); [..|apply Forall_nil_2]; cbn [op_ok]; lia.
Qed.

Definition new_table (kind : IndirectRefKind) : option IndirectReferenceTable :=
  t0 ← IndirectReferenceTable_new kind;
  '(t, _) ← Initialize 64 t0 100 true;
  Some t.

Lemma sample_run :
  (fun t => runs 64 true t sample_ops) <$> new_table kWeakGlobal =
  Some [Some (RRef 7); Some (RRef 39); Some (RBool true); Some (RBool false); Some (RRef 11); Some (RObj 0x3000);
        Some RDone; Some (RBool false); Some RDone; Some (RRoots [0x4000; 0x8888]); Some RDone; Some (RCount 2)].
Proof. vm_compute. reflexivity. Qed.

Lemma global_table_refines_witness :
  exists t0 t, IndirectReferenceTable_new kWeakGlobal = Some t0 /\ Initialize 64 t0 100 true = Some (t, true) /\
    100 <= max_entries_ t /\
    spec_runs true kWeakGlobal (max_entries_ t) (mk_spec 0 ∅) sample_ops (runs 64 true t sample_ops).
Proof.
  apply (global_table_refines 64 true (or_intror eq_refl) kWeakGlobal 100 sample_ops).
  - by right.
  - change (2 ^ 24) with 16777216. lia.
  - apply sample_ops_ok.
Defined.

Definition trim_table : IndirectReferenceTable :=
  match new_table kGlobal with Some t => t | None => mk_Table None kGlobal 0 0 0 end.

Lemma Trim_reuses_references_witness :
  exists iref t1 t2 t3 t4 t5, Trim 64 trim_table = Some t1 /\ Add 64 t1 0x1000 = Some (t2, iref) /\
    Remove 64 true t2 iref = Some (t3, true) /\
    Trim 64 t3 = Some t4 /\ Add 64 t4 0x2000 = Some (t5, iref) /\ Get t5 iref = Some 0x2000.
Proof.
  apply (Trim_reuses_references 64 true (or_intror eq_refl) kGlobal trim_table 0x1000 0x2000).
  - eexists 100, _, _, []. split; [change (2 ^ 24) with 16777216; lia|]. split; [reflexivity|].
    split; [reflexivity|]. split; [constructor|]. vm_compute. reflexivity.
  - reflexivity.
  - reflexivity.
  - discriminate.
  - discriminate.
Defined.

(** Without [Trim] the stale reference is recognized. *)
Definition stale_table : IndirectReferenceTable :=
  match (t ← new_table kGlobal; exec 64 true t [OpAdd 0x1000]) with
  | Some t => t
  | None => mk_Table None kGlobal 0 0 0
  end.

Lemma stale_reference_detected_witness :
  exists t1 t2, Remove 64 true stale_table 6 = Some (t1, true) /\ exec 64 true t1 [OpAdd 0x2000] = Some t2 /\
    IsValidReference t2 6 = Some false.
Proof.
  destruct (Remove 64 true stale_table 6) as [[t1 b]|] eqn:E; [|vm_compute in E; discriminate].
  assert (b = true) as -> by (vm_compute in E; congruence).
  destruct (exec 64 true t1 [OpAdd 0x2000]) as [t2|] eqn:E2.
  2: { exfalso. vm_compute in E. injection E as <-. vm_compute in E2. discriminate. }
  exists t1, t2. split; [done|]. split; [done|].
  apply (stale_reference_detected 64 true (or_intror eq_refl) kGlobal stale_table 6 t1 [OpAdd 0x2000] t2).
  - eexists 100, _, _, [OpAdd 0x1000]. split; [change (2 ^ 24) with 16777216; lia|]. split; [reflexivity|].
    split; [reflexivity|]. split; [repeat constructor|]. vm_compute. reflexivity.
  - unfold is_u. change (2 ^ 64) with 18446744073709551616. lia.
  - exact E.
  - repeat constructor.
  - intros H. inversion H as [|? ? ? H']; inversion H'.
  - vm_compute. discriminate.
  - exact E2.
Defined.

End IRT.
